(* ===== verification/_CoqProject ===== *)
-Q . S2P
Prelude.v
Values.v
Task.v
Group.v
Messages.v
Machine.v
Recovery.v
Spec.v
Invariant.v
Refinement.v
Claim.v
Reap.v
Effect.v
Broker.v
RecoveryProps.v
Changes.v
Stale.v
Scenarios.v
Properties.v
Maintenance.v
Valid.v
Display.v
Wire.v
Journal.v
Repository.v
Standalone.v
Durability.v
Replicated.v
ReplicatedProps.v
Words.v
ErrorTexts.v
Sessions.v
SessionsProps.v
ApplyOnce.v
RaftSnapshot.v
LogStorage.v
LogStorageProps.v
Observation.v
Replica.v
Cluster.v
Consensus.v
Service.v
Dispatch.v
DispatchProps.v
Json.v
WireSchema.v
WireV1.v
WireV1Props.v
WireResponseProps.v
WireVersions.v
WireVersionsProps.v
SessionStore.v
SessionStoreProps.v
Runtime.v
StateOwner.v
Server.v
Client.v
Durable.v
Router.v
AsyncClient.v
JsonText.v
PyProtocol.v
PyClient.v
EndToEnd.v
ClusterNode.v
ClusterStartup.v
OneNode.v
Transport.v
ClusterNodeProps.v
ClusterStartupProps.v
ClientServer.v
Operations.v
OperationsProps.v
RouterProps.v
Serving.v
Clustering.v
Clients.v
PyProps.v
PySdk.v
TransportProps.v
