(* ===== verification/Prelude.v ===== *)
(** * Verification of the heterarchy broker

    The broker hands tasks to the members of consumer groups under fenced,
    expiring leases.  This library models the Rust workspace below [src/crates]
    and the Python package below [src/sdks] as executable definitions and proves
    what its parts promise each other and their clients.  A newtype is the text or
    number it holds, [u64] is [N] with its bound written out, [Result] is [result], and a method taking [&mut self]
    is a function to its result and the new value of [self], so that what an
    early return leaves half done is visible.  Code outside the workspace
    (serde_json, OpenRaft, redb, rustls, the file system, sockets, the clock) is a class
    or an argument with its documented behaviour as laws, and every class of laws
    has a concrete instance with which the theorems are also evaluated.

    ** The parts, and the files that model them

    The domain ([agent-broker-domain/src]).
    - [Values.v]: [identifiers.rs], [fencing.rs], [policy.rs], [quorum.rs].
    - [Task.v]: [task.rs], a task's states and transitions, and their fencing.
    - [Group.v]: [group.rs], [group/coordinator.rs].
    - [Messages.v]: [commands.rs], [results.rs]; [Display.v]: the error texts.
    - [Machine.v]: [state_machine.rs], one definition per handler, with the seven
      derived indexes and the change sets; [Recovery.v]: [checkpoint.rs] and the
      restoration of checkpoints.
    - [Spec.v] is the abstract broker, a function of the authoritative state
      without indexes.  [Invariant.v], [Refinement.v], [Claim.v], [Reap.v],
      [Effect.v], [Broker.v] show that the machine implements it.
      [RecoveryProps.v], [Changes.v], [Stale.v], [Valid.v], [Words.v],
      [ErrorTexts.v] show what restoration, change sets, validated texts, 64-bit
      words and error texts contribute.  [Scenarios.v] holds concrete logs.

    Storage ([agent-broker-storage/src], [agent-broker-consensus/src/standalone.rs]).
    - [Wire.v]: [snapshot_v1.rs]; [Journal.v]: [journal_v1.rs]; [Repository.v]:
      [repository.rs], [filesystem_durability.rs] over two files and a possible
      fault of each call; [Standalone.v]: [standalone.rs], and a world with
      crashes and restarts.

    Replication ([agent-broker-consensus/src], [agent-broker-application/src]).
    - [Replicated.v]: [replicated_command.rs], [replicated_response.rs];
      [Sessions.v]: [command_identity.rs], [replicated_proposal.rs] and the
      session table of [raft_state_machine.rs]; [RaftSnapshot.v]: its snapshot
      bytes; [Replica.v]: the rest of it; [LogStorage.v]: [raft_type_config.rs],
      [raft_persistence.rs], [raft_log_storage.rs]; [Observation.v]:
      [raft_observation.rs] store by store; [Cluster.v]: replicas around one
      agreed log.  [ReplicatedProps.v], [SessionsProps.v], [LogStorageProps.v]
      hold their lemmas.
    - [ClusterNode.v], [ClusterStartup.v]: [cluster_raft.rs]; [OneNode.v]:
      [one_node_raft.rs], [one_node_network.rs]; [ClusterNodeProps.v] and
      [ClusterStartupProps.v] hold the laws of the engine and their lemmas.
    - [Transport.v]: [cluster_tls.rs] and [cluster_transport.rs], with the
      listener's threads as a step relation; [TransportProps.v]: its theorems.

    Service and protocol ([agent-broker-application/src],
    [agent-broker-protocol/src]).
    - [Service.v]: [service.rs] over the trait of [consensus.rs]; [Dispatch.v]:
      [request.rs], [response.rs], [dispatch.rs]; [DispatchProps.v]: the class
      [AdapterLaws] that the service is verified against.
    - [Json.v]: JSON trees and derived deserialization; [WireSchema.v],
      [WireV1.v], [WireVersions.v]: [wire_v1.rs], [wire_v2.rs], [wire_v3.rs];
      [WireV1Props.v], [WireResponseProps.v], [WireVersionsProps.v]: round trips
      and sizes; [JsonText.v]: an instance of the laws of JSON text.

    Runtime ([agent-broker-runtime/src]).
    - [Runtime.v]: [error.rs], [clock.rs], [standalone_maintenance.rs] and the
      configuration of [tcp_server.rs]; [StateOwner.v]: [state_owner.rs];
      [Server.v]: [tcp_server.rs]; [EndToEnd.v]: a connection to the standalone
      broker; [Operations.v], [OperationsProps.v]: [operations.rs].

    The client ([agent-broker-client/src]).
    - [SessionStore.v]: [session_store.rs] over a file with faults and crashes;
      [SessionStoreProps.v]: what the file holds after any of them.
    - [Client.v]: [client.rs], [error.rs] over the class [Network]; [Router.v]:
      [router.rs]; [AsyncClient.v]: [async_client.rs], [async_session_store.rs],
      [async_router.rs].
    - [ApplyOnce.v] counts the applications of an identity in a log;
      [Durable.v] proves the retry loop against the class [SessionNetwork];
      [ClientServer.v] shows that a cluster node behind its server is one, and
      [RouterProps.v] that a site of three nodes is one.

    The Python SDK ([sdks/python/src/agent_broker]).
    - [PyProtocol.v]: [errors.py], [models.py], [protocol.py] and
      [operations_protocol.py] over the class [PyStd]; [PyClient.v]: [client.py],
      [standalone.py], [cluster.py], [operations.py] and their [async_*.py] over
      [Network]; [PyProps.v]: both against the Rust side.

    ** How the parts interact

    A connection thread ([Server.v]) reads a line, decodes it ([WireVersions.v])
    and submits it to the state owner ([StateOwner.v]), which dispatches it
    ([Dispatch.v]) to the service ([Service.v]); the service proposes a command
    to a consensus adapter.  The standalone adapter applies it to the machine
    ([Machine.v]) and commits the change set to the repository; the Raft adapters
    put it into the log, from which every replica ([Replica.v]) applies it to its
    sessions and its machine.  Each of these boundaries is an interface: the
    class [ConsensusAdapter] with [AdapterLaws], [RaftEngine] with [EngineLaws],
    [RaftLifecycle] with [ClockLaws], [Redb], [SerdeJson] with [SerdeJsonLaws],
    [JsonCodec] with [JsonLaws], [Network] with [SessionNetwork], [PyStd] with
    [PyStdLaws].

    Between members, OpenRaft's calls go through the network of [Transport.v] to
    the listener of another node, which makes them on its own Raft; [Rustls],
    [Sockets], [RpcJson] with [RpcJsonLaws] and [RaftServer] are its interfaces.
    It stands beside [ClusterNode.v], which takes the engine with its members as
    the one interface [RaftEngine].

    A client reserves a command in its session file, sends it under its identity
    to the node that the operations listeners report as the leader, and settles
    it when an answer decides it; a crash in between leaves the command in the
    file, from which it is sent again.

    ** What the theorems show

    - [Properties.v], [Maintenance.v]: the machine answers every admissible log
      like the specification, restarts are transparent, states stay well formed
      and move forward, change sets are exact, claims take the oldest available
      task, completions need a live lease, leaving returns leases, limits hold.
      A command is [admissible] when two defects cannot occur: the deadline and
      the counters of a claim fit 64 bits, and a publication does not reuse a task
      id that an expiration entry of another namespace still names.  [Properties.v]
      also shows what happens otherwise: a claim with an overflowing deadline
      strands a task until a restart, and a stale entry leases a task across
      namespaces.
    - The theorems below that speak of the state of the broker assume admissible
      commands as well, under the names [proposal_ok] (standalone: admissible,
      validated, and a journal record that fits), [orderly] (the same of every
      request of a connection) and [valid_proposal], [valid_entries] (of the
      entries of a log); those about sessions, fencing and transport do not.
    - [Durability.v]: acknowledged commands survive crashes and failed writes; a
      commit is atomic; snapshots and records read back; a record above the limit
      is acknowledged and lost.
    - [Consensus.v]: identified commands apply once, deposed owners are fenced,
      replicas with the same applied log id agree, a restarted replica catches
      up, the log storage implements Raft's log, in which an absent commit pointer
      cannot be read back; a snapshot builder that finishes late loses entries.
    - [Serving.v]: requests and responses read back in all three
      versions; decoded requests are valid; a client of the standalone broker
      gets the answers of the specification, from bytes to bytes; the state owner
      serializes and answers every job; the listener respects its limit.
    - [Clustering.v]: a write through a cluster node is applied at a point of the
      log whose term is no older than the node's, so commands of earlier terms are
      refused, and is a step of the specification where it is admissible there;
      start-up returns; readiness means confirmed leadership; the
      operations listener answers every line and lists every group.
    - [TransportProps.v]: a remote call reports only what the peer's Raft did, once,
      and gets through when nothing fails; only peers with the certificate pinned
      for their node id reach Raft, and loading pins the configured nodes; calls
      return, the listener's counters are exact, and it stops.
    - [Clients.v]: a durable command takes effect once through retries, lost
      answers, crashes of the client and changes of the leader; the session file
      keeps the command and can always be opened; the router recognises the
      leader by its report; a retry that trusts a rejection leaves a session stuck.
    - [PySdk.v]: the SDK writes the frames of the Rust client and reads every
      response of the broker; its mutations take effect once through the same
      [SessionNetwork]; what it sees of the consumer groups, and the groups it
      cannot read.
    - Theorems named in no such list above are the library behind them.

    ** Bounds and fuel

    Loops of the source that are not structural take fuel and return [option];
    the theorems about them say how much is enough.  Replaying a journal takes
    one more than its bytes, since each record consumes one.  A connection takes
    more than the lines it receives.  Binary search takes the length of the list.
    A wait during start-up takes two more than the checks its clock allows before
    the deadline.  A handshake takes two more turns than the milliseconds of its
    timeout, since a turn without progress sleeps for one; a snapshot body takes
    one more than its full chunks.  JSON trees are limited to the depth of 127 that serde_json
    reads.

    ** Not modelled

    - Opening a node's database and building its Raft engine, in
      [cluster_raft.rs] and [one_node_raft.rs].
    - Timer threads of maintenance, the accept loop of the operations listener
      (the broker's one is modelled), signals, arguments and the process lock of
      the daemon.
    - Probes, fuzz targets and build tasks. *)

From stdpp Require Export gmap strings list sorting.
From Stdlib Require Export Lia.

#[global] Open Scope string_scope.
#[global] Open Scope N_scope.

(** ** Results and early return

    [Result<T, E>] of the source.  A method taking [&mut self] is a function
    from the old value to a pair of its [result] and the new value of [self],
    so an [Err] keeps whatever was already mutated before the early return. *)

Inductive result (A E : Type) : Type :=
  | Ok (a : A)
  | Err (e : E).
Arguments Ok {A E} _.
Arguments Err {A E} _.

#[export] Instance result_eq_dec `{EqDecision A, EqDecision E} :
  EqDecision (result A E).
Proof. solve_decision. Defined.

Definition map_ok {A B E} (f : A → B) (r : result A E) : result B E :=
  match r with Ok a => Ok (f a) | Err e => Err e end.

Definition map_err {A E F} (f : E → F) (r : result A E) : result A F :=
  match r with Ok a => Ok a | Err e => Err (f e) end.

Definition ok_or {A E} (o : option A) (e : E) : result A E :=
  match o with Some a => Ok a | None => Err e end.

Definition is_ok {A E} (r : result A E) : bool :=
  match r with Ok _ => true | Err _ => false end.

Declare Scope broker_scope.
Delimit Scope broker_scope with broker.
#[global] Open Scope broker_scope.

(** [let? x := r else s in k]: the [?] operator on a pure result inside a
    method whose current [self] is [s]. *)
Notation "'let?' x ':=' r 'else' s 'in' k" :=
  (match r with Ok x => k | Err e => (Err e, s) end)
  (at level 10, x pattern, r at level 100, s at level 100, k at level 200) : broker_scope.

(** [let! x , s := call in k]: the [?] operator on a call that returns a result
    and the updated state. *)
Notation "'let!' x ',' s ':=' r 'in' k" :=
  (match r with (Ok x, s) => k | (Err e, s) => (Err e, s) end)
  (at level 10, x pattern, s name, r at level 100, k at level 200) : broker_scope.

(** [let^ x := r in k]: the [?] operator in a function without state. *)
Notation "'let^' x ':=' r 'in' k" :=
  (match r with Ok x => k | Err e => Err e end)
  (at level 10, x pattern, r at level 100, k at level 200) : broker_scope.

(** [iter.map(f).collect::<Result<Vec<_>, _>>()]: stops at the first error. *)
Fixpoint try_map {A B E} (f : A → result B E) (l : list A) : result (list B) E :=
  match l with
  | [] => Ok []
  | x :: l => let^ y := f x in let^ ys := try_map f l in Ok (y :: ys)
  end.

Lemma try_map_fmap {A B C E} (f : B → result C E) (g : A → B) (h : A → C) l :
  (∀ x, x ∈ l → f (g x) = Ok (h x)) → try_map f (g <$> l) = Ok (h <$> l).
Proof.
  induction l as [|x l IH]; intros Hf; [done|]. rewrite !fmap_cons. cbn [try_map].
  rewrite (Hf x) by by left. rewrite IH by (intros; apply Hf; by right). done.
Qed.

(** ** 64-bit unsigned integers *)

Definition u64_max : N := 18446744073709551615.

Definition checked_add (a b : N) : option N :=
  if a + b <=? u64_max then Some (a + b) else None.

Definition saturating_sub (a b : N) : N := a - b.

(** Number of elements, as the source's [usize]. *)
Definition len {A} (l : list A) : N := N.of_nat (length l).

Lemma len_app {A} (l k : list A) : len (l ++ k)%list = len l + len k.
Proof. unfold len. rewrite length_app. lia. Qed.

Lemma len_cons {A} (x : A) l : len (x :: l) = 1 + len l.
Proof. unfold len. simpl. lia. Qed.

Lemma len_nil {A} : len ([] : list A) = 0.
Proof. done. Qed.

(** [Iterator::take] and [Vec::truncate] with a [usize] bound. *)
Fixpoint take_N {A} (n : N) (l : list A) : list A :=
  match l with
  | [] => []
  | x :: l => if n =? 0 then [] else x :: take_N (N.pred n) l
  end.

(** ** Total orders with decidable comparison ([Ord]) *)

Class Ord (A : Type) := {
  ole : relation A;
  ole_dec :: RelDecision ole;
  ole_po :: PartialOrder ole;
  ole_total :: Total ole;
}.

#[global] Arguments ole : simpl never.

#[export] Instance N_ord : Ord N := {| ole := N.le |}.

#[export] Instance string_ord : Ord string := {| ole := String.le |}.

(** Tuples compare lexicographically. *)
Definition lex_le `{Ord A, Ord B} (p q : A * B) : Prop :=
  ole p.1 q.1 ∧ (ole q.1 p.1 → ole p.2 q.2).

#[export] Instance lex_le_dec `{Ord A, Ord B} : RelDecision (@lex_le A _ B _).
Proof. intros p q. unfold lex_le. apply _. Defined.

Lemma lex_le_po `{Ord A, Ord B} : PartialOrder (@lex_le A _ B _).
Proof.
  split; [split|].
  - intros p. split; reflexivity.
  - intros p q r [H1 H2] [H3 H4]. split; [by etrans|].
    intros H5. etrans; [apply H2|apply H4]; by etrans.
  - intros [a b] [c d] [H1 H2] [H3 H4]; simpl in *.
    assert (a = c) as -> by by apply (anti_symm ole).
    f_equal. apply (anti_symm ole); auto.
Qed.

Lemma lex_le_total `{Ord A, Ord B} : Total (@lex_le A _ B _).
Proof.
  intros [a b] [c d]. unfold lex_le; simpl.
  destruct (total ole a c), (total ole b d); try destruct (decide (ole c a));
    try destruct (decide (ole a c)); tauto.
Qed.

#[export] Instance prod_ord `{Ord A, Ord B} : Ord (A * B) :=
  {| ole := lex_le; ole_po := lex_le_po; ole_total := lex_le_total |}.

Lemma ole_antisym `{Ord A} (x y : A) : ole x y → ole y x → x = y.
Proof. apply (anti_symm ole). Qed.

Lemma not_ole `{Ord A} (x y : A) : ¬ ole x y → ole y x.
Proof. intros Hn. by destruct (total ole x y). Qed.

(** ** Sorted sequences *)

Abbreviation sorted l := (StronglySorted ole l).

Lemma sorted_unique `{Ord A} (l k : list A) :
  sorted l → sorted k → NoDup l → NoDup k → (∀ x, x ∈ l ↔ x ∈ k) → l = k.
Proof.
  intros Hl Hk Nl Nk E. apply (StronglySorted_unique ole); [done..|].
  by apply NoDup_Permutation.
Qed.

Lemma sorted_head_min `{Ord A} (x y : A) l : sorted (x :: l) → y ∈ x :: l → ole x y.
Proof.
  rewrite StronglySorted_cons, Forall_forall.
  intros [Hx _] [->|Hy]%elem_of_cons; [reflexivity|auto].
Qed.

Lemma sorted_tail `{Ord A} (x : A) l : sorted (x :: l) → sorted l.
Proof. rewrite StronglySorted_cons. tauto. Qed.

Lemma sorted_cons_iff `{Ord A} (x : A) l :
  sorted (x :: l) ↔ (∀ y, y ∈ l → ole x y) ∧ sorted l.
Proof. by rewrite StronglySorted_cons, Forall_forall. Qed.

Lemma sorted_filter `{Ord A} (P : A → Prop) `{∀ x, Decision (P x)} l :
  sorted l → sorted (filter P l).
Proof.
  induction 1 as [|x l Hl IH Hx]; simpl; [constructor|].
  rewrite filter_cons. case_decide; [|done].
  constructor; [done|]. apply Forall_forall. intros y [_ Hy]%list_elem_of_filter.
  rewrite Forall_forall in Hx. auto.
Qed.

(** ** Filters that keep everything or nothing *)

Lemma filter_all {A} (P : A → Prop) `{∀ x, Decision (P x)} l : Forall P l → filter P l = l.
Proof. induction 1; [done|]. rewrite filter_cons_True by done. by f_equal. Qed.

Lemma filter_none {A} (P : A → Prop) `{∀ x, Decision (P x)} l :
  Forall (λ x, ¬ P x) l → filter P l = [].
Proof. induction 1; [done|]. by rewrite filter_cons_False. Qed.

Lemma filter_ext_in {A} (P Q : A → Prop) `{∀ x, Decision (P x), ∀ x, Decision (Q x)} (l : list A) :
  (∀ x, x ∈ l → P x ↔ Q x) → filter P l = filter Q l.
Proof.
  induction l as [|x l IH]; intros Hpq; [done|]. rewrite !filter_cons.
  pose proof (Hpq x (list_elem_of_here _ _)). rewrite IH by (intros; apply Hpq; by right).
  repeat case_decide; tauto.
Qed.

(** ** Binary heaps of reversed entries

    [BinaryHeap<Reverse<T>>] pops its least element first.  Its entries are
    totally ordered, so equal entries cannot be told apart and the heap is
    observed only through the sorted sequence of its entries. *)

Fixpoint heap_push `{Ord A} (x : A) (h : list A) : list A :=
  match h with
  | [] => [x]
  | y :: h' => if decide (ole x y) then x :: h else y :: heap_push x h'
  end.

Definition heap_pop {A} (h : list A) : option (A * list A) :=
  match h with [] => None | x :: h' => Some (x, h') end.

Lemma heap_push_perm `{Ord A} (x : A) h : heap_push x h ≡ₚ x :: h.
Proof.
  induction h as [|y h IH]; simpl; [done|].
  case_decide; [done|]. rewrite IH. constructor.
Qed.

Lemma elem_of_heap_push `{Ord A} (x y : A) h : y ∈ heap_push x h ↔ y = x ∨ y ∈ h.
Proof. rewrite heap_push_perm. apply elem_of_cons. Qed.

Lemma heap_push_sorted `{Ord A} (x : A) h : sorted h → sorted (heap_push x h).
Proof.
  induction h as [|y h IH]; simpl; intros Hs; [by repeat constructor|].
  case_decide as Hd.
  - apply sorted_cons_iff. split; [|done]. intros z Hz.
    transitivity y; [done|]. by eapply sorted_head_min.
  - apply sorted_cons_iff in Hs as [Hy Hs]. apply sorted_cons_iff.
    split; [|auto]. intros z [->|?]%elem_of_heap_push; [|auto]. by apply not_ole.
Qed.

Lemma heap_push_nodup `{Ord A} (x : A) h : x ∉ h → NoDup h → NoDup (heap_push x h).
Proof. intros. rewrite heap_push_perm. by constructor. Qed.

Lemma heap_push_head `{Ord A} (x : A) h :
  (∀ y, y ∈ h → ole x y) → heap_push x h = x :: h.
Proof.
  destruct h as [|y h]; [done|]. simpl. intros Hx.
  rewrite decide_True; [done|]. apply Hx. by left.
Qed.

(** ** Stable sorting by a key ([slice::sort_by] on one field) *)

Fixpoint insert_by_key {A} `{Ord K} (key : A → K) (x : A) (l : list A) : list A :=
  match l with
  | [] => [x]
  | y :: l' => if decide (ole (key x) (key y)) then x :: l else y :: insert_by_key key x l'
  end.

Definition sort_by_key {A} `{Ord K} (key : A → K) (l : list A) : list A :=
  foldr (insert_by_key key) [] l.

Lemma insert_by_key_perm {A} `{Ord K} (key : A → K) x l : insert_by_key key x l ≡ₚ x :: l.
Proof.
  induction l as [|y l IH]; simpl; [done|]. case_decide; [done|]. rewrite IH. constructor.
Qed.

Lemma sort_by_key_perm {A} `{Ord K} (key : A → K) l : sort_by_key key l ≡ₚ l.
Proof. induction l as [|x l IH]; simpl; [done|]. by rewrite insert_by_key_perm, IH. Qed.

Lemma insert_by_key_sorted {A} `{Ord K} (key : A → K) x l :
  sorted (key <$> l) → sorted (key <$> insert_by_key key x l).
Proof.
  induction l as [|y l IH]; intros Hs; simpl; [repeat constructor|].
  rewrite fmap_cons in Hs. case_decide as Hd.
  - rewrite !fmap_cons. apply sorted_cons_iff. split; [|done]. intros z Hz.
    transitivity (key y); [done|]. by eapply sorted_head_min.
  - apply sorted_cons_iff in Hs as [Hy Hs]. rewrite fmap_cons. apply sorted_cons_iff.
    split; [|auto]. intros z Hz. rewrite insert_by_key_perm, fmap_cons in Hz.
    apply elem_of_cons in Hz as [->|?]; [by apply not_ole|auto].
Qed.

Lemma sort_by_key_sorted {A} `{Ord K} (key : A → K) l : sorted (key <$> sort_by_key key l).
Proof. induction l; simpl; [constructor|by apply insert_by_key_sorted]. Qed.

(** A sequence in key order is left alone. *)
Lemma sort_by_key_id {A} `{Ord K} (key : A → K) l :
  sorted (key <$> l) → sort_by_key key l = l.
Proof.
  induction l as [|x l IH]; simpl; [done|]. intros [Hx Hs]%sorted_cons_iff.
  rewrite IH by done. destruct l as [|y l]; [done|]. simpl.
  rewrite decide_True; [done|]. apply Hx. by left.
Qed.

(** Sorting commutes with a map that keeps the keys. *)
Lemma sort_by_key_fmap {A B} `{Ord K} (f : A → B) (key : A → K) (key' : B → K) l :
  (∀ x, key' (f x) = key x) → sort_by_key key' (f <$> l) = f <$> sort_by_key key l.
Proof.
  intros Hk. unfold sort_by_key. induction l as [|x l IH]; [done|]. rewrite fmap_cons. cbn [foldr].
  rewrite IH. clear IH. induction (foldr (insert_by_key key) [] l) as [|y k IH]; simpl; [done|]. rewrite !Hk.
  case_decide; [done|]. simpl. by f_equal.
Qed.

(** ** Ordered iteration over maps and sets

    A [BTreeMap] is a [gmap] whose iteration is in key order; a [BTreeSet] is a
    [gset] iterated in order. *)

Definition bset_iter {K} `{Countable K, Ord K} (s : gset K) : list K :=
  merge_sort ole (elements s).

Definition bmap_keys {K} `{Countable K, Ord K} {V} (m : gmap K V) : list K :=
  bset_iter (dom m).

Definition bmap_iter {K} `{Countable K, Ord K} {V} (m : gmap K V) : list (K * V) :=
  omap (λ k, pair k <$> m !! k) (bmap_keys m).

Definition bmap_values {K} `{Countable K, Ord K} {V} (m : gmap K V) : list V :=
  (bmap_iter m).*2.

(** [BTreeMap::len], [BTreeSet::len]. *)
Definition msize {K} `{Countable K} {V} (m : gmap K V) : N := N.of_nat (size m).

Lemma msize_mono {K} `{Countable K} {V} (m1 m2 : gmap K V) : m1 ⊆ m2 → msize m1 ≤ msize m2.
Proof. intros Hm%map_subseteq_size. unfold msize. lia. Qed.

Section ordered_iteration.
Context {K : Type} `{Countable K, Ord K}.
Implicit Types (s : gset K) (k : K).

Lemma elem_of_bset_iter s k : k ∈ bset_iter s ↔ k ∈ s.
Proof. unfold bset_iter. by rewrite merge_sort_Permutation, elem_of_elements. Qed.

Lemma bset_iter_nodup s : NoDup (bset_iter s).
Proof. unfold bset_iter. rewrite merge_sort_Permutation. apply NoDup_elements. Qed.

Lemma bset_iter_sorted s : sorted (bset_iter s).
Proof. apply (StronglySorted_merge_sort ole). Qed.

Lemma bset_iter_empty : bset_iter (∅ : gset K) = [].
Proof. unfold bset_iter. by rewrite elements_empty. Qed.

Context {V : Type}.
Implicit Types (m : gmap K V) (v : V).

Lemma elem_of_bmap_keys m k : k ∈ bmap_keys m ↔ is_Some (m !! k).
Proof. unfold bmap_keys. by rewrite elem_of_bset_iter, elem_of_dom. Qed.

Lemma elem_of_bmap_iter m k v : (k, v) ∈ bmap_iter m ↔ m !! k = Some v.
Proof.
  unfold bmap_iter. rewrite list_elem_of_omap. split.
  - intros (k' & _ & Hk'). destruct (m !! k') eqn:E; naive_solver.
  - intros Hm. exists k. rewrite elem_of_bmap_keys, Hm. split; [eauto|done].
Qed.

Lemma fst_bmap_iter m : (bmap_iter m).*1 = bmap_keys m.
Proof.
  unfold bmap_iter.
  assert (Forall (λ k, is_Some (m !! k)) (bmap_keys m)) as Hall.
  { apply Forall_forall. intros k. by rewrite elem_of_bmap_keys. }
  induction Hall as [|k l [v Hv] _ IH]; simpl; [done|]. rewrite Hv; simpl. by f_equal.
Qed.

Lemma bmap_iter_nodup_keys m : NoDup (bmap_iter m).*1.
Proof. rewrite fst_bmap_iter. apply bset_iter_nodup. Qed.

Lemma list_to_map_bmap_iter m : list_to_map (bmap_iter m) = m.
Proof.
  apply map_eq. intros k. apply option_eq. intros v.
  rewrite <-elem_of_list_to_map by apply bmap_iter_nodup_keys.
  apply elem_of_bmap_iter.
Qed.

Lemma elem_of_bmap_values m v : v ∈ bmap_values m ↔ ∃ k, m !! k = Some v.
Proof.
  unfold bmap_values. rewrite list_elem_of_fmap. split.
  - intros ([k v'] & -> & Hk%elem_of_bmap_iter). eauto.
  - intros [k Hk]. exists (k, v). by rewrite elem_of_bmap_iter.
Qed.

(** Values that carry their key are iterated in the order of that key. *)
Lemma bmap_values_keys (key : V → K) m :
  map_Forall (λ k v, key v = k) m → key <$> bmap_values m = bmap_keys m.
Proof.
  intros Hk. unfold bmap_values. rewrite <-fst_bmap_iter, <-list_fmap_compose.
  apply list_fmap_ext. intros i [k v] Hi. simpl. apply Hk, elem_of_bmap_iter.
  by eapply list_elem_of_lookup_2.
Qed.

Lemma bmap_values_sorted (key : V → K) m :
  map_Forall (λ k v, key v = k) m → sorted (key <$> bmap_values m).
Proof. intros. rewrite bmap_values_keys by done. apply bset_iter_sorted. Qed.

(** Iteration is the one sequence in key order with the entries of the map. *)
Lemma bmap_iter_unique m l :
  NoDup l.*1 → sorted l.*1 → (∀ k v, (k, v) ∈ l ↔ m !! k = Some v) → bmap_iter m = l.
Proof.
  intros Hnd Hs Hl. assert (bmap_keys m = l.*1) as Hk.
  { apply sorted_unique; [apply bset_iter_sorted|done|apply bset_iter_nodup|done|].
    intros k. rewrite elem_of_bmap_keys, list_elem_of_fmap. split.
    - intros [v Hv]. exists (k, v). by rewrite Hl.
    - intros ([k' v] & -> & Hin). apply Hl in Hin. by exists v. }
  unfold bmap_iter. rewrite Hk. assert (∀ kv, kv ∈ l → m !! kv.1 = Some kv.2) as Hin.
  { intros [k v]. apply Hl. }
  clear Hl Hk Hs Hnd. induction l as [|[k v] l IH]; [done|]. simpl.
  assert (m !! k = Some v) as -> by (apply (Hin (k, v)); by left). simpl. f_equal. apply IH. intros kv Hkv. apply Hin. by right.
Qed.

Lemma bmap_iter_sorted_keys m : sorted (bmap_iter m).*1.
Proof. rewrite fst_bmap_iter. apply bset_iter_sorted. Qed.

Lemma filter_keys_sorted (P : K * V → Prop) `{!∀ x, Decision (P x)} (l : list (K * V)) :
  NoDup l.*1 → sorted l.*1 → NoDup (filter P l).*1 ∧ sorted (filter P l).*1.
Proof.
  assert (∀ k l, k ∈ (filter P l).*1 → k ∈ l.*1) as Hin.
  { intros k l' (kv & -> & [_ Hkv]%list_elem_of_filter)%list_elem_of_fmap.
    apply list_elem_of_fmap. eauto. }
  induction l as [|kv l IH]; [done|]. rewrite !fmap_cons, filter_cons, NoDup_cons, sorted_cons_iff.
  intros [Hn Hnd] [Hx Hs]. destruct (IH Hnd Hs) as [IH1 IH2]. case_decide; [|done].
  rewrite fmap_cons, NoDup_cons, sorted_cons_iff. naive_solver.
Qed.

Lemma bmap_iter_filter (P : K * V → Prop) `{!∀ x, Decision (P x)} m :
  bmap_iter (filter P m) = filter P (bmap_iter m).
Proof.
  destruct (filter_keys_sorted P (bmap_iter m) (bmap_iter_nodup_keys m) (bmap_iter_sorted_keys m)).
  apply bmap_iter_unique; [done..|].
  intros k v. rewrite list_elem_of_filter, elem_of_bmap_iter, map_lookup_filter_Some. tauto.
Qed.

Lemma bmap_iter_perm m : bmap_iter m ≡ₚ map_to_list m.
Proof.
  apply NoDup_Permutation.
  - apply (NoDup_fmap_1 fst), bmap_iter_nodup_keys.
  - apply NoDup_map_to_list.
  - intros [k v]. by rewrite elem_of_bmap_iter, elem_of_map_to_list.
Qed.
End ordered_iteration.

Lemma take_N_take {A} n (l : list A) : take_N n l = take (N.to_nat n) l.
Proof.
  revert n. induction l as [|x l IH]; intros n; simpl; [by rewrite take_nil|].
  destruct (N.eqb_spec n 0) as [->|Hn]; [done|].
  rewrite IH. replace (N.to_nat n) with (S (N.to_nat (N.pred n))) by lia. done.
Qed.

Lemma elem_of_take_N {A} n (l : list A) x : x ∈ take_N n l → x ∈ l.
Proof.
  rewrite take_N_take. intros (i & Hi & _)%elem_of_take. by eapply list_elem_of_lookup_2.
Qed.

(** ** Binary search on a sorted slice

    The loop of [<[T]>::binary_search]: [size] halves until one candidate is
    left; [fuel] bounds the halvings and the length of the slice is enough. *)
Fixpoint bsearch_loop `{Ord A} (fuel : nat) (l : list A) (x : A) (base size : nat) : nat :=
  match fuel with
  | O => base
  | S fuel =>
      if decide (size ≤ 1)%nat then base else
      let half := (size / 2)%nat in
      let mid := (base + half)%nat in
      match l !! mid with
      | Some y => bsearch_loop fuel l x (if decide (ole y x) then mid else base) (size - half)
      | None => base
      end
  end.

Definition binary_search `{Ord A} (l : list A) (x : A) : option nat :=
  match l with
  | [] => None
  | _ =>
      let base := bsearch_loop (length l) l x 0 (length l) in
      match l !! base with
      | Some y => if decide (ole y x ∧ ole x y) then Some base else None
      | None => None
      end
  end.

Lemma sorted_lookup_le `{Ord A} (l : list A) i j x y :
  sorted l → (i ≤ j)%nat → l !! i = Some x → l !! j = Some y → ole x y.
Proof.
  intros Hs. revert i j. induction Hs as [|z l Hl IH Hz]; intros i j Hij Hi Hj; [done|].
  destruct i as [|i], j as [|j]; simplify_eq/=; [reflexivity| |lia|].
  - rewrite Forall_forall in Hz. apply Hz. by eapply list_elem_of_lookup_2.
  - eapply IH; [|done..]. lia.
Qed.

Lemma bsearch_loop_spec `{Ord A} fuel (l : list A) x base size i :
  sorted l → NoDup l → l !! i = Some x →
  (size ≤ S fuel)%nat → (base ≤ i < base + size)%nat → (base + size ≤ length l)%nat →
  bsearch_loop fuel l x base size = i.
Proof.
  intros Hs Hnd Hi. revert base size. induction fuel as [|fuel IH]; intros base size ???.
  { simpl. lia. }
  cbn [bsearch_loop]. case_decide; [lia|].
  assert (0 < size / 2 < size ∧ 2 * (size / 2) ≤ size)%nat as Hhalf.
  { split; [split; [apply Nat.div_str_pos|apply Nat.div_lt]; lia|apply Nat.Div0.mul_div_le]. }
  destruct (lookup_lt_is_Some_2 l (base + size / 2)) as [y Hy]; [lia|]. rewrite Hy.
  case_decide as Hyx.
  - destruct (decide (base + size / 2 ≤ i)%nat); [apply IH; lia|].
    assert (ole x y) by (eapply sorted_lookup_le; [done| |done..]; lia).
    assert (x = y) as -> by by apply ole_antisym.
    assert (i = base + size / 2)%nat by by eapply NoDup_lookup. lia.
  - destruct (decide (i < base + size / 2)%nat); [apply IH; lia|].
    destruct Hyx. eapply sorted_lookup_le; [done| |done..]. lia.
Qed.

(** On a strictly sorted slice the search finds exactly the members. *)
Lemma binary_search_spec `{Ord A} (l : list A) x i :
  sorted l → NoDup l → binary_search l x = Some i ↔ l !! i = Some x.
Proof.
  intros Hs Hnd. unfold binary_search. split.
  - destruct l as [|z l]; [done|].
    case_match eqn:E; [|done]. case_decide as Hd; [|done].
    intros <-%(inj Some). rewrite E. f_equal. destruct Hd. by apply ole_antisym.
  - intros Hi. destruct l as [|z l]; [done|].
    rewrite (bsearch_loop_spec _ _ _ _ _ i); [|done..| | |]; [|lia| |lia].
    + rewrite Hi. rewrite decide_True; [done|]. split; reflexivity.
    + apply lookup_lt_Some in Hi. lia.
Qed.

Lemma binary_search_elem `{Ord A} (l : list A) x :
  sorted l → NoDup l → is_Some (binary_search l x) ↔ x ∈ l.
Proof.
  intros Hs Hnd. rewrite list_elem_of_lookup. unfold is_Some.
  by setoid_rewrite binary_search_spec.
Qed.
