(* ===== verification/Values.v ===== *)
(** * Validated values of the broker domain

    Identifiers ([identifiers.rs]), fencing counters ([fencing.rs]), bounded
    policies ([policy.rs]), quorum arithmetic ([quorum.rs]) and the text
    validation of [task.rs].  A newtype around [String] is the string of its
    UTF-8 bytes and a newtype around [u64] is the number it holds: its private
    constructor is the validating function below. *)

From S2P Require Import Prelude.

Abbreviation NamespaceId := string (only parsing).
Abbreviation TaskId := string (only parsing).
Abbreviation ConsumerGroupId := string (only parsing).
Abbreviation ConsumerId := string (only parsing).
Abbreviation LeaseId := string (only parsing).
Abbreviation TimestampMs := N (only parsing).
Abbreviation Term := N (only parsing).
Abbreviation Generation := N (only parsing).
Abbreviation LeaseEpoch := N (only parsing).
Abbreviation Revision := N (only parsing).

(** ** Bytes *)

Definition byte_between (lo hi : N) (c : Ascii.ascii) : bool :=
  (lo <=? Ascii.N_of_ascii c) && (Ascii.N_of_ascii c <=? hi).

Definition is_ascii_alphanumeric (c : Ascii.ascii) : bool :=
  byte_between 48 57 c || byte_between 65 90 c || byte_between 97 122 c.

(** [b'_' | b'.' | b':' | b'-'] *)
Definition is_identifier_punct (c : Ascii.ascii) : bool :=
  let b := Ascii.N_of_ascii c in (b =? 95) || (b =? 46) || (b =? 58) || (b =? 45).

Fixpoint all_bytes (p : Ascii.ascii → bool) (s : string) : bool :=
  match s with
  | EmptyString => true
  | String c s => p c && all_bytes p s
  end.

(** [str::len]: the number of UTF-8 bytes. *)
Definition str_len (s : string) : N := N.of_nat (String.length s).

(** ** Identifiers *)

Record IdentifierError := { ie_kind : string; ie_reason : string }.

#[export] Instance IdentifierError_eq_dec : EqDecision IdentifierError.
Proof. solve_decision. Defined.

Definition MAX_IDENTIFIER_BYTES : N := 128.

Definition validate_identifier (value kind : string) : result unit IdentifierError :=
  match value with
  | EmptyString => Err {| ie_kind := kind; ie_reason := "must not be empty" |}
  | String first rest =>
      if MAX_IDENTIFIER_BYTES <? str_len value then
        Err {| ie_kind := kind; ie_reason := "must be at most 128 ASCII bytes" |}
      else if negb (is_ascii_alphanumeric first) then
        Err {| ie_kind := kind;
               ie_reason := "must start with an ASCII alphanumeric character" |}
      else if negb (all_bytes (λ b, is_ascii_alphanumeric b || is_identifier_punct b) rest) then
        Err {| ie_kind := kind; ie_reason := "contains unsupported characters" |}
      else Ok tt
  end.

(** The constructor that [define_identifier!] generates for one kind. *)
Definition identifier_new (kind value : string) : result string IdentifierError :=
  let^ _ := validate_identifier value kind in Ok value.

Definition NamespaceId_new : string → result NamespaceId IdentifierError :=
  identifier_new "namespace_id".
Definition TaskId_new : string → result TaskId IdentifierError :=
  identifier_new "task_id".
Definition ConsumerGroupId_new : string → result ConsumerGroupId IdentifierError :=
  identifier_new "group_id".
Definition ConsumerId_new : string → result ConsumerId IdentifierError :=
  identifier_new "member_id".
Definition LeaseId_new : string → result LeaseId IdentifierError :=
  identifier_new "lease_id".

(** The stable identifier contract, read off the accepted texts. *)
Definition identifier_text (s : string) : Prop :=
  ∃ c rest, s = String c rest ∧ str_len s ≤ 128 ∧ is_ascii_alphanumeric c = true ∧
    all_bytes (λ b, is_ascii_alphanumeric b || is_identifier_punct b) rest = true.

Lemma validate_identifier_ok s kind :
  validate_identifier s kind = Ok tt ↔ identifier_text s.
Proof.
  unfold validate_identifier, identifier_text, MAX_IDENTIFIER_BYTES. split.
  - destruct s as [|c s]; [done|]. repeat case_match; intros; simplify_eq.
    exists c, s. rewrite N.ltb_ge in *. rewrite negb_false_iff in *. eauto.
  - intros (c & rest & -> & Hlen & -> & ->). simpl.
    rewrite (proj2 (N.ltb_ge _ _)) by done. done.
Qed.

(** ** Text bounded in UTF-8 bytes *)

Inductive TaskTextError :=
  | TextEmpty (field : string)
  | TextTooLarge (field : string) (max_bytes : N).

#[export] Instance TaskTextError_eq_dec : EqDecision TaskTextError.
Proof. solve_decision. Defined.

Definition MAX_OBJECTIVE_BYTES : N := 16 * 1024.
Definition MAX_RESULT_BYTES : N := 64 * 1024.

(** [value.trim().is_empty()]: every scalar value of the UTF-8 text has the
    Unicode [White_Space] property. *)
Fixpoint all_whitespace (s : string) : bool :=
  match s with
  | EmptyString => true
  | String a s1 =>
      if byte_between 9 13 a || (Ascii.N_of_ascii a =? 32) then all_whitespace s1 else
      match s1 with
      | EmptyString => false
      | String b s2 =>
          if (Ascii.N_of_ascii a =? 194) &&
             ((Ascii.N_of_ascii b =? 133) || (Ascii.N_of_ascii b =? 160))
          then all_whitespace s2 else
          match s2 with
          | EmptyString => false
          | String c s3 =>
              let '(a, b, c') := (Ascii.N_of_ascii a, Ascii.N_of_ascii b, Ascii.N_of_ascii c) in
              ( ((a =? 225) && (b =? 154) && (c' =? 128))
             || ((a =? 226) && (b =? 128) &&
                 (byte_between 128 138 c || (c' =? 168) || (c' =? 169) || (c' =? 175)))
             || ((a =? 226) && (b =? 129) && (c' =? 159))
             || ((a =? 227) && (b =? 128) && (c' =? 128)) ) && all_whitespace s3
          end
      end
  end.

Definition validate_text (value field : string) (max_bytes : N) : result string TaskTextError :=
  if all_whitespace value then Err (TextEmpty field)
  else if max_bytes <? str_len value then Err (TextTooLarge field max_bytes)
  else Ok value.

Definition TaskObjective_new (value : string) : result string TaskTextError :=
  validate_text value "objective" MAX_OBJECTIVE_BYTES.

Definition TaskResult_new (value : string) : result string TaskTextError :=
  validate_text value "result" MAX_RESULT_BYTES.

(** ** Fencing counters *)

Inductive FencingValueError :=
  | ZeroTerm
  | Overflow (counter : string).

#[export] Instance FencingValueError_eq_dec : EqDecision FencingValueError.
Proof. solve_decision. Defined.

Definition Term_INITIAL : Term := 1.

Definition Term_new (value : N) : result Term FencingValueError :=
  if value =? 0 then Err ZeroTerm else Ok value.

Definition Term_next (t : Term) : result Term FencingValueError :=
  let^ v := ok_or (checked_add t 1) (Overflow "term") in Term_new v.

(** The [next] that [define_counter!] generates for one counter. *)
Definition counter_next (counter : string) (v : N) : result N FencingValueError :=
  ok_or (checked_add v 1) (Overflow counter).

Definition Generation_next : Generation → result Generation FencingValueError :=
  counter_next "generation".
Definition LeaseEpoch_next : LeaseEpoch → result LeaseEpoch FencingValueError :=
  counter_next "lease_epoch".
Definition Revision_next : Revision → result Revision FencingValueError :=
  counter_next "revision".

Lemma checked_add_Some a b c : checked_add a b = Some c ↔ c = a + b ∧ a + b ≤ u64_max.
Proof.
  unfold checked_add.
  destruct (N.leb_spec (a + b) u64_max); split; [by intros [= <-]|by intros [-> _]|done|lia].
Qed.

Lemma checked_add_None a b : checked_add a b = None ↔ u64_max < a + b.
Proof. unfold checked_add. destruct (N.leb_spec (a + b) u64_max); split; [done|lia|done..]. Qed.

Lemma counter_next_ok c v w : counter_next c v = Ok w ↔ w = v + 1 ∧ v < u64_max.
Proof.
  unfold counter_next, ok_or. destruct (checked_add v 1) eqn:E.
  - apply checked_add_Some in E as [-> ?]. split; [intros [= <-]; lia|intros [-> ?]; done].
  - apply checked_add_None in E. split; [done|lia].
Qed.

Lemma counter_next_err c v e : counter_next c v = Err e ↔ e = Overflow c ∧ u64_max ≤ v.
Proof.
  unfold counter_next, ok_or. destruct (checked_add v 1) eqn:E.
  - apply checked_add_Some in E as [-> ?]. split; [done|lia].
  - apply checked_add_None in E. split; [intros [= <-]; split; [done|lia]|intros [-> ?]; done].
Qed.

Lemma counter_next_lt c v : v < u64_max → counter_next c v = Ok (v + 1).
Proof. intros. by apply counter_next_ok. Qed.

(** ** Bounded policies *)

Inductive PolicyError :=
  | LeaseDurationOutOfRange
  | MaintenanceBatchOutOfRange (field : string)
  | ZeroCapacity (field : string).

#[export] Instance PolicyError_eq_dec : EqDecision PolicyError.
Proof. solve_decision. Defined.

Definition MIN_LEASE_DURATION_MS : N := 1000.
Definition MAX_LEASE_DURATION_MS : N := 30 * 60 * 1000.
Definition MAX_MAINTENANCE_BATCH : N := 4096.

Definition LeaseDurationMs_new (value : N) : result N PolicyError :=
  if (value <? MIN_LEASE_DURATION_MS) || (MAX_LEASE_DURATION_MS <? value)
  then Err LeaseDurationOutOfRange else Ok value.

(** The constructor that [define_maintenance_limit!] generates. *)
Definition maintenance_limit_new (field : string) (value : N) : result N PolicyError :=
  if (value =? 0) || (MAX_MAINTENANCE_BATCH <? value)
  then Err (MaintenanceBatchOutOfRange field)
  else if value =? 0 then Err (MaintenanceBatchOutOfRange field) else Ok value.

Definition ReapMemberLimit_new : N → result N PolicyError := maintenance_limit_new "max_members".
Definition PruneTaskLimit_new : N → result N PolicyError := maintenance_limit_new "max_tasks".

Record BrokerCapacityPolicy := {
  max_namespaces : N;
  max_tasks_per_namespace : N;
  max_groups_per_namespace : N;
  max_members_per_group : N;
}.

Definition BrokerCapacityPolicy_default : BrokerCapacityPolicy := {|
  max_namespaces := 64;
  max_tasks_per_namespace := 4096;
  max_groups_per_namespace := 64;
  max_members_per_group := 256;
|}.

Definition positive_capacity (value : N) (field : string) : result N PolicyError :=
  if value =? 0 then Err (ZeroCapacity field) else Ok value.

Definition BrokerCapacityPolicy_new (ns tasks groups members : N) :
    result BrokerCapacityPolicy PolicyError :=
  let^ ns := positive_capacity ns "max_namespaces" in
  let^ tasks := positive_capacity tasks "max_tasks_per_namespace" in
  let^ groups := positive_capacity groups "max_groups_per_namespace" in
  let^ members := positive_capacity members "max_members_per_group" in
  Ok {| max_namespaces := ns; max_tasks_per_namespace := tasks;
        max_groups_per_namespace := groups; max_members_per_group := members |}.

(** ** Quorum arithmetic *)

Inductive QuorumPolicyError := EmptyCluster.

Record QuorumPolicy := { node_count : N }.

Definition QuorumPolicy_new (n : N) : result QuorumPolicy QuorumPolicyError :=
  if n =? 0 then Err EmptyCluster else Ok {| node_count := n |}.

Definition majority (q : QuorumPolicy) : N := node_count q / 2 + 1.
Definition tolerated_failures (q : QuorumPolicy) : N := node_count q - majority q.
Definition has_high_availability (q : QuorumPolicy) : bool := 0 <? tolerated_failures q.
Definition has_odd_membership (q : QuorumPolicy) : bool := node_count q mod 2 =? 1.

(** ** Properties *)

(** Quorums are safe and live: any two majorities of the cluster share a
    node, and a cluster that loses no more than the tolerated failures still
    has a majority. *)
Theorem majorities_intersect n q (nodes A B : gset string) :
  QuorumPolicy_new n = Ok q → N.of_nat (size nodes) = n → A ⊆ nodes → B ⊆ nodes →
  majority q ≤ N.of_nat (size A) →
  (majority q ≤ N.of_nat (size B) → ∃ x, x ∈ A ∧ x ∈ B) ∧
  (N.of_nat (size B) ≤ tolerated_failures q → majority q ≤ N.of_nat (size (nodes ∖ B))).
Proof.
  unfold QuorumPolicy_new. destruct (N.eqb_spec n 0) as [|Hn0]; [done|].
  intros [= <-] Hn HA HB HmA. unfold tolerated_failures, majority in *. simpl in *.
  pose proof (N.div_mod n 2 ltac:(lia)) as Hdiv. pose proof (N.mod_lt n 2 ltac:(lia)). split.
  - intros HmB. destruct (decide (A ∩ B = ∅)) as [He|[x Hx]%set_choose_L]; [|set_solver].
    assert (size (A ∪ B) = size A + size B)%nat as Hu by (apply size_union; set_solver).
    assert (size (A ∪ B) ≤ size nodes)%nat by (apply subseteq_size; set_solver). lia.
  - intros HfB. rewrite size_difference, Nat2N.inj_sub by done.
    generalize dependent (n / 2). generalize dependent (n mod 2). intros. lia.
Qed.

Lemma majorities_intersect_witness :
  let nodes : gset string := {[ "n1"; "n2"; "n3" ]} in
  let A : gset string := {[ "n1"; "n2" ]} in
  let B : gset string := {[ "n2"; "n3" ]} in
  ∃ x, x ∈ A ∧ x ∈ B.
Proof.
  intros nodes A B.
  refine (proj1 (majorities_intersect 3 {| node_count := 3 |} nodes A B _ _ _ _ _) _).
  - reflexivity.
  - vm_compute. reflexivity.
  - set_solver.
  - set_solver.
  - vm_compute. discriminate.
  - vm_compute. discriminate.
Defined.

(** A fencing counter never wraps around: [next] is the successor below the
    64-bit maximum and an overflow error at it. *)
Theorem counters_never_wrap counter v :
  v ≤ u64_max →
  match counter_next counter v with
  | Ok w => w = v + 1 ∧ w ≤ u64_max
  | Err e => v = u64_max ∧ e = Overflow counter
  end.
Proof.
  intros Hv. destruct (counter_next counter v) as [w|e] eqn:E.
  - apply counter_next_ok in E. lia.
  - apply counter_next_err in E as [-> ?]. split; [lia|done].
Qed.

Lemma counters_never_wrap_witness :
  u64_max = u64_max ∧ Overflow "revision" = Overflow "revision".
Proof. exact (counters_never_wrap "revision" u64_max (N.le_refl _)). Defined.

(** An identifier is accepted exactly when its text is 1 to 128 bytes long,
    starts with an ASCII letter or digit and continues with letters, digits and
    the four punctuation characters; an accepted identifier keeps its text. *)
Theorem identifiers_accepted_exactly kind value id :
  identifier_new kind value = Ok id ↔ id = value ∧ identifier_text value.
Proof.
  unfold identifier_new. rewrite <-(validate_identifier_ok value kind).
  destruct (validate_identifier value kind) as [[]|]; naive_solver.
Qed.
