(* ===== verification/Task.v ===== *)
(** * Task lifecycle ([task.rs])

    A task is queued, leased or completed; the payload of each state is part of
    the state.  A method taking [&mut self] returns its result and the task it
    leaves behind. *)

From S2P Require Import Prelude Values.

Abbreviation TaskObjective := string (only parsing).
Abbreviation TaskResult := string (only parsing).

Inductive TaskStatus := StatusQueued | StatusLeased | StatusCompleted.

#[export] Instance TaskStatus_eq_dec : EqDecision TaskStatus.
Proof. solve_decision. Defined.

Inductive TaskTransitionError :=
  | NotQueued (status : TaskStatus)
  | NotLeased (status : TaskStatus)
  | StaleGroup
  | StaleOwner
  | TaskStaleGeneration
  | StaleLeaseEpoch
  | StaleLeaseId
  | LeaseExpired
  | TaskAlreadyCompleted
  | TaskFencingValue (e : FencingValueError).

#[export] Instance TaskTransitionError_eq_dec : EqDecision TaskTransitionError.
Proof. solve_decision. Defined.

Record QueuedTask := { qt_lease_epoch : LeaseEpoch }.

Record LeasedTask := {
  lt_lease_id : LeaseId;
  lt_owner_member_id : ConsumerId;
  lt_group_id : ConsumerGroupId;
  lt_generation : Generation;
  lt_lease_epoch : LeaseEpoch;
  lt_expires_at_ms : TimestampMs;
}.

Record LeaseGrant := {
  lg_lease_id : LeaseId;
  lg_owner_member_id : ConsumerId;
  lg_group_id : ConsumerGroupId;
  lg_generation : Generation;
  lg_expires_at_ms : TimestampMs;
}.

Record LeaseFence := {
  lf_lease_id : LeaseId;
  lf_owner_member_id : ConsumerId;
  lf_group_id : ConsumerGroupId;
  lf_generation : Generation;
  lf_lease_epoch : LeaseEpoch;
  lf_observed_at_ms : TimestampMs;
}.

Inductive CompletionOutcome := OutcomeCompleted | OutcomeAlreadyCompleted.

#[export] Instance CompletionOutcome_eq_dec : EqDecision CompletionOutcome.
Proof. solve_decision. Defined.

Record CompletedTask := {
  ct_lease_id : LeaseId;
  ct_owner_member_id : ConsumerId;
  ct_group_id : ConsumerGroupId;
  ct_generation : Generation;
  ct_lease_epoch : LeaseEpoch;
  ct_result : TaskResult;
  ct_completed_at_ms : TimestampMs;
}.

Inductive TaskState :=
  | Queued (q : QueuedTask)
  | Leased (l : LeasedTask)
  | Completed (c : CompletedTask).

Definition TaskState_status (s : TaskState) : TaskStatus :=
  match s with
  | Queued _ => StatusQueued
  | Leased _ => StatusLeased
  | Completed _ => StatusCompleted
  end.

Record Task := {
  t_id : TaskId;
  t_namespace_id : NamespaceId;
  t_objective : TaskObjective;
  t_created_at_ms : TimestampMs;
  t_revision : Revision;
  t_state : TaskState;
}.

#[export] Instance LeasedTask_eq_dec : EqDecision LeasedTask.
Proof. solve_decision. Defined.
#[export] Instance QueuedTask_eq_dec : EqDecision QueuedTask.
Proof. solve_decision. Defined.
#[export] Instance CompletedTask_eq_dec : EqDecision CompletedTask.
Proof. solve_decision. Defined.
#[export] Instance TaskState_eq_dec : EqDecision TaskState.
Proof. solve_decision. Defined.
#[export] Instance Task_eq_dec : EqDecision Task.
Proof. solve_decision. Defined.

(** [self.state = s; self.revision = r] *)
Definition task_set (t : Task) (s : TaskState) (r : Revision) : Task := {|
  t_id := t_id t; t_namespace_id := t_namespace_id t; t_objective := t_objective t;
  t_created_at_ms := t_created_at_ms t; t_revision := r; t_state := s;
|}.

Definition Task_status (t : Task) : TaskStatus := TaskState_status (t_state t).

Definition Task_new (id : TaskId) (ns : NamespaceId) (objective : TaskObjective)
    (created : TimestampMs) : Task := {|
  t_id := id; t_namespace_id := ns; t_objective := objective;
  t_created_at_ms := created; t_revision := 1; t_state := Queued {| qt_lease_epoch := 0 |};
|}.

(** ** Transitions *)

Definition Task_claim (grant : LeaseGrant) (t : Task) :
    result unit TaskTransitionError * Task :=
  match t_state t with
  | Queued queued =>
      let? next_epoch := map_err TaskFencingValue (LeaseEpoch_next (qt_lease_epoch queued)) else t in
      let? next_revision := map_err TaskFencingValue (Revision_next (t_revision t)) else t in
      (Ok tt, task_set t (Leased {|
         lt_lease_id := lg_lease_id grant;
         lt_owner_member_id := lg_owner_member_id grant;
         lt_group_id := lg_group_id grant;
         lt_generation := lg_generation grant;
         lt_lease_epoch := next_epoch;
         lt_expires_at_ms := lg_expires_at_ms grant |}) next_revision)
  | _ => (Err (NotQueued (Task_status t)), t)
  end.

Definition require_active_lease (fence : LeaseFence) (t : Task) :
    result LeasedTask TaskTransitionError :=
  match t_state t with
  | Leased lease =>
      if negb (bool_decide (lt_group_id lease = lf_group_id fence)) then Err StaleGroup
      else if negb (bool_decide (lt_owner_member_id lease = lf_owner_member_id fence))
      then Err StaleOwner
      else if negb (bool_decide (lt_generation lease = lf_generation fence))
      then Err TaskStaleGeneration
      else if negb (bool_decide (lt_lease_epoch lease = lf_lease_epoch fence))
      then Err StaleLeaseEpoch
      else if negb (bool_decide (lt_lease_id lease = lf_lease_id fence)) then Err StaleLeaseId
      else if lt_expires_at_ms lease <=? lf_observed_at_ms fence then Err LeaseExpired
      else Ok lease
  | _ => Err (NotLeased (Task_status t))
  end.

Definition Task_renew (fence : LeaseFence) (new_expires_at_ms : TimestampMs) (t : Task) :
    result unit TaskTransitionError * Task :=
  let? _ := require_active_lease fence t else t in
  let? next_revision := map_err TaskFencingValue (Revision_next (t_revision t)) else t in
  match t_state t with
  | Leased lease =>
      (Ok tt, task_set t (Leased {|
         lt_lease_id := lt_lease_id lease;
         lt_owner_member_id := lt_owner_member_id lease;
         lt_group_id := lt_group_id lease;
         lt_generation := lt_generation lease;
         lt_lease_epoch := lt_lease_epoch lease;
         lt_expires_at_ms := new_expires_at_ms |}) next_revision)
  | _ => (Err (NotLeased (Task_status t)), t)
  end.

Definition Task_complete (fence : LeaseFence) (res : TaskResult) (t : Task) :
    result CompletionOutcome TaskTransitionError * Task :=
  match t_state t with
  | Completed completed =>
      if bool_decide (ct_lease_id completed = lf_lease_id fence) &&
         bool_decide (ct_result completed = res)
      then (Ok OutcomeAlreadyCompleted, t)
      else (Err TaskAlreadyCompleted, t)
  | _ =>
      let? lease := require_active_lease fence t else t in
      let? next_revision := map_err TaskFencingValue (Revision_next (t_revision t)) else t in
      (Ok OutcomeCompleted, task_set t (Completed {|
         ct_lease_id := lt_lease_id lease;
         ct_owner_member_id := lt_owner_member_id lease;
         ct_group_id := lt_group_id lease;
         ct_generation := lt_generation lease;
         ct_lease_epoch := lt_lease_epoch lease;
         ct_result := res;
         ct_completed_at_ms := lf_observed_at_ms fence |}) next_revision)
  end.

Definition requeue_if_expired (now_ms : TimestampMs) (t : Task) :
    result bool TaskTransitionError * Task :=
  match t_state t with
  | Leased lease =>
      if now_ms <? lt_expires_at_ms lease then (Ok false, t) else
      let? next_revision := map_err TaskFencingValue (Revision_next (t_revision t)) else t in
      (Ok true, task_set t (Queued {| qt_lease_epoch := lt_lease_epoch lease |}) next_revision)
  | _ => (Ok false, t)
  end.

Definition requeue_for_member (group_id : ConsumerGroupId) (member_id : ConsumerId) (t : Task) :
    result bool TaskTransitionError * Task :=
  match t_state t with
  | Leased lease =>
      if negb (bool_decide (lt_group_id lease = group_id)) ||
         negb (bool_decide (lt_owner_member_id lease = member_id))
      then (Ok false, t) else
      let? next_revision := map_err TaskFencingValue (Revision_next (t_revision t)) else t in
      (Ok true, task_set t (Queued {| qt_lease_epoch := lt_lease_epoch lease |}) next_revision)
  | _ => (Ok false, t)
  end.

(** ** Checkpoint records ([checkpoint.rs]) *)

Inductive TaskCheckpointState :=
  | CkQueued (lease_epoch : LeaseEpoch)
  | CkLeased (lease_id : LeaseId) (owner_member_id : ConsumerId) (group_id : ConsumerGroupId)
      (generation : Generation) (lease_epoch : LeaseEpoch) (expires_at_ms : TimestampMs)
  | CkCompleted (lease_id : LeaseId) (owner_member_id : ConsumerId) (group_id : ConsumerGroupId)
      (generation : Generation) (lease_epoch : LeaseEpoch) (res : TaskResult)
      (completed_at_ms : TimestampMs).

Record TaskCheckpoint := {
  tck_task_id : TaskId;
  tck_namespace_id : NamespaceId;
  tck_objective : TaskObjective;
  tck_created_at_ms : TimestampMs;
  tck_revision : Revision;
  tck_state : TaskCheckpointState;
}.

#[export] Instance TaskCheckpointState_eq_dec : EqDecision TaskCheckpointState.
Proof. solve_decision. Defined.
#[export] Instance TaskCheckpoint_eq_dec : EqDecision TaskCheckpoint.
Proof. solve_decision. Defined.

Definition Task_checkpoint (t : Task) : TaskCheckpoint := {|
  tck_task_id := t_id t;
  tck_namespace_id := t_namespace_id t;
  tck_objective := t_objective t;
  tck_created_at_ms := t_created_at_ms t;
  tck_revision := t_revision t;
  tck_state :=
    match t_state t with
    | Queued q => CkQueued (qt_lease_epoch q)
    | Leased l => CkLeased (lt_lease_id l) (lt_owner_member_id l) (lt_group_id l)
        (lt_generation l) (lt_lease_epoch l) (lt_expires_at_ms l)
    | Completed c => CkCompleted (ct_lease_id c) (ct_owner_member_id c) (ct_group_id c)
        (ct_generation c) (ct_lease_epoch c) (ct_result c) (ct_completed_at_ms c)
    end;
|}.

Definition Task_from_checkpoint (ck : TaskCheckpoint) : Task := {|
  t_id := tck_task_id ck;
  t_namespace_id := tck_namespace_id ck;
  t_objective := tck_objective ck;
  t_created_at_ms := tck_created_at_ms ck;
  t_revision := tck_revision ck;
  t_state :=
    match tck_state ck with
    | CkQueued e => Queued {| qt_lease_epoch := e |}
    | CkLeased lid own g gen e exp => Leased {|
        lt_lease_id := lid; lt_owner_member_id := own; lt_group_id := g;
        lt_generation := gen; lt_lease_epoch := e; lt_expires_at_ms := exp |}
    | CkCompleted lid own g gen e res at_ms => Completed {|
        ct_lease_id := lid; ct_owner_member_id := own; ct_group_id := g;
        ct_generation := gen; ct_lease_epoch := e; ct_result := res;
        ct_completed_at_ms := at_ms |}
    end;
|}.

(** * Properties of the task lifecycle

    Fencing of stale lease holders, monotonicity of revisions and epochs, and
    the checkpoint round trip of one task. *)

(** ** Vocabulary *)

Definition state_epoch (s : TaskState) : LeaseEpoch :=
  match s with
  | Queued q => qt_lease_epoch q
  | Leased l => lt_lease_epoch l
  | Completed c => ct_lease_epoch c
  end.

Definition task_epoch (t : Task) : LeaseEpoch := state_epoch (t_state t).

(** The fence names exactly this lease and was observed before it expired. *)
Definition fence_matches (fence : LeaseFence) (lease : LeasedTask) : Prop :=
  lt_group_id lease = lf_group_id fence ∧
  lt_owner_member_id lease = lf_owner_member_id fence ∧
  lt_generation lease = lf_generation fence ∧
  lt_lease_epoch lease = lf_lease_epoch fence ∧
  lt_lease_id lease = lf_lease_id fence ∧
  lf_observed_at_ms fence < lt_expires_at_ms lease.

(** How a task may change over its life. *)
Record task_evolves (t t' : Task) : Prop := {
  te_id : t_id t' = t_id t;
  te_namespace : t_namespace_id t' = t_namespace_id t;
  te_objective : t_objective t' = t_objective t;
  te_created : t_created_at_ms t' = t_created_at_ms t;
  te_revision : t_revision t ≤ t_revision t';
  te_epoch : task_epoch t ≤ task_epoch t';
  te_unchanged : t_revision t' = t_revision t → t' = t;
  te_terminal : Task_status t = StatusCompleted → t' = t;
}.

(** One transition of a task, by any of its mutating methods, successful or not. *)
Inductive task_step (t t' : Task) : Prop :=
  | step_claim grant r : Task_claim grant t = (r, t') → task_step t t'
  | step_renew fence exp r : Task_renew fence exp t = (r, t') → task_step t t'
  | step_complete fence res r : Task_complete fence res t = (r, t') → task_step t t'
  | step_expire now r : requeue_if_expired now t = (r, t') → task_step t t'
  | step_requeue g m r : requeue_for_member g m t = (r, t') → task_step t t'.

(** ** Helper lemmas *)

#[export] Instance task_evolves_refl : Reflexive task_evolves.
Proof. intros t. by constructor. Qed.

#[export] Instance task_evolves_trans : Transitive task_evolves.
Proof.
  intros t1 t2 t3 H1 H2. destruct H1 as [? ? ? ? ? ? Hu1 Ht1], H2 as [? ? ? ? ? ? Hu2 Ht2].
  constructor; [congruence..|lia|lia| |].
  - intros Hr. rewrite Hu2 by lia. apply Hu1. lia.
  - intros Hc. rewrite Ht2; [auto|]. by rewrite (Ht1 Hc).
Qed.

Lemma map_err_ok {A E F} (f : E → F) (r : result A E) a : map_err f r = Ok a ↔ r = Ok a.
Proof. destruct r; simpl; naive_solver. Qed.

Lemma task_set_evolves t s0 s :
  t_state t = s0 → TaskState_status s0 ≠ StatusCompleted → state_epoch s0 ≤ state_epoch s →
  task_evolves t (task_set t s (t_revision t + 1)).
Proof.
  intros Hs0 Hs He. constructor; simpl; try done; [lia| |lia|].
  - unfold task_epoch; simpl. congruence.
  - unfold Task_status. congruence.
Qed.

Lemma require_active_lease_ok fence t lease :
  require_active_lease fence t = Ok lease ↔ t_state t = Leased lease ∧ fence_matches fence lease.
Proof.
  unfold require_active_lease, fence_matches. destruct (t_state t) as [q|l|c] eqn:E.
  1,3: split; [done|intros [? _]; done].
  split.
  - intros Hr. repeat case_match; simplify_eq.
    rewrite ?negb_false_iff, ?bool_decide_eq_true in *. rewrite N.leb_gt in *. tauto.
  - intros ([= <-] & ? & ? & ? & ? & ? & ?).
    rewrite !bool_decide_true by done. simpl. by rewrite (proj2 (N.leb_gt _ _)).
Qed.

Ltac task_op :=
  repeat match goal with
  | H : (match ?x with _ => _ end) = (_, _) |- _ => destruct x eqn:?; simplify_eq/=
  | H : map_err _ _ = Ok _ |- _ => apply map_err_ok in H
  | H : counter_next _ _ = Ok _ |- _ => apply counter_next_ok in H as [-> ?]
  | H : Revision_next _ = Ok _ |- _ => apply counter_next_ok in H as [-> ?]
  | H : LeaseEpoch_next _ = Ok _ |- _ => apply counter_next_ok in H as [-> ?]
  end.

Ltac solve_evolves :=
  first [reflexivity
        |eapply task_set_evolves; [eassumption|done|simpl; try reflexivity; lia]].

Lemma task_step_evolves t t' : task_step t t' → task_evolves t t'.
Proof.
  destruct 1 as [grant r H|fence exp r H|fence res r H|now r H|g m r H].
  - unfold Task_claim in H. task_op; solve_evolves.
  - unfold Task_renew in H. task_op; solve_evolves.
  - unfold Task_complete in H. task_op; try solve_evolves;
      match goal with H : require_active_lease _ _ = Ok _ |- _ =>
        apply require_active_lease_ok in H as [? _]; simplify_eq; try congruence end;
      solve_evolves.
  - unfold requeue_if_expired in H. task_op; solve_evolves.
  - unfold requeue_for_member in H. task_op; solve_evolves.
Qed.

(** A failed transition leaves the task as it was. *)
Lemma Task_claim_err grant t e t' : Task_claim grant t = (Err e, t') → t' = t.
Proof. unfold Task_claim. intros. by task_op. Qed.
Lemma Task_renew_err fence exp t e t' : Task_renew fence exp t = (Err e, t') → t' = t.
Proof. unfold Task_renew. intros. by task_op. Qed.
Lemma Task_complete_err fence res t e t' : Task_complete fence res t = (Err e, t') → t' = t.
Proof. unfold Task_complete. intros. by task_op. Qed.

(** The task a successful claim, renewal, completion or requeue leaves. *)
Definition claimed (grant : LeaseGrant) (t : Task) : Task :=
  task_set t (Leased {|
    lt_lease_id := lg_lease_id grant; lt_owner_member_id := lg_owner_member_id grant;
    lt_group_id := lg_group_id grant; lt_generation := lg_generation grant;
    lt_lease_epoch := task_epoch t + 1;
    lt_expires_at_ms := lg_expires_at_ms grant |}) (t_revision t + 1).

Definition renewed (lease : LeasedTask) (exp : TimestampMs) (t : Task) : Task :=
  task_set t (Leased {|
    lt_lease_id := lt_lease_id lease; lt_owner_member_id := lt_owner_member_id lease;
    lt_group_id := lt_group_id lease; lt_generation := lt_generation lease;
    lt_lease_epoch := lt_lease_epoch lease; lt_expires_at_ms := exp |}) (t_revision t + 1).

Definition completed (lease : LeasedTask) (res : TaskResult) (at_ms : TimestampMs) (t : Task) : Task :=
  task_set t (Completed {|
    ct_lease_id := lt_lease_id lease; ct_owner_member_id := lt_owner_member_id lease;
    ct_group_id := lt_group_id lease; ct_generation := lt_generation lease;
    ct_lease_epoch := lt_lease_epoch lease; ct_result := res;
    ct_completed_at_ms := at_ms |}) (t_revision t + 1).

Definition requeued (t : Task) : Task :=
  match t_state t with
  | Leased l => task_set t (Queued {| qt_lease_epoch := lt_lease_epoch l |}) (t_revision t + 1)
  | _ => t
  end.

Lemma Task_claim_ok grant t t' :
  Task_claim grant t = (Ok tt, t') ↔
  ∃ q, t_state t = Queued q ∧ task_epoch t < u64_max ∧ t_revision t < u64_max ∧
       t' = claimed grant t.
Proof.
  unfold Task_claim, claimed, task_epoch. split.
  - intros H. task_op. eauto 6.
  - intros (q & Hq & He & Hr & ->). rewrite Hq in *. unfold LeaseEpoch_next, Revision_next.
    by rewrite !counter_next_lt.
Qed.

Lemma Task_renew_ok fence exp t t' :
  Task_renew fence exp t = (Ok tt, t') ↔
  ∃ lease, t_state t = Leased lease ∧ fence_matches fence lease ∧ t_revision t < u64_max ∧
           t' = renewed lease exp t.
Proof.
  unfold Task_renew, renewed. split.
  - intros H. task_op.
    match goal with H : require_active_lease _ _ = Ok _ |- _ =>
      apply require_active_lease_ok in H as [Hl ?] end.
    match goal with H : t_state t = Leased ?l |- _ => exists l; split_and!; try done end.
    by match goal with H : t_state t = Leased _ |- _ => rewrite Hl in H; simplify_eq end.
  - intros (l & Hl & Hf & Hr & ->).
    rewrite (proj2 (require_active_lease_ok fence t l)) by done.
    unfold Revision_next. by rewrite counter_next_lt, Hl.
Qed.

Lemma Task_complete_ok fence res t t' :
  Task_complete fence res t = (Ok OutcomeCompleted, t') ↔
  ∃ lease, t_state t = Leased lease ∧ fence_matches fence lease ∧ t_revision t < u64_max ∧
           t' = completed lease res (lf_observed_at_ms fence) t.
Proof.
  unfold Task_complete, completed. split.
  - intros H. task_op;
      match goal with H : require_active_lease _ _ = Ok _ |- _ =>
        apply require_active_lease_ok in H as [Hl ?] end; [congruence|].
    exists a. split_and!; [congruence|done..].
  - intros (l & Hl & Hf & Hr & ->). rewrite Hl.
    rewrite (proj2 (require_active_lease_ok fence t l)) by done.
    unfold Revision_next. by rewrite counter_next_lt.
Qed.

Lemma Task_complete_already fence res t t' :
  Task_complete fence res t = (Ok OutcomeAlreadyCompleted, t') ↔
  t' = t ∧ ∃ c, t_state t = Completed c ∧ ct_lease_id c = lf_lease_id fence ∧ ct_result c = res.
Proof.
  unfold Task_complete. split.
  - intros H. task_op. rewrite andb_true_iff, !bool_decide_eq_true in *. naive_solver.
  - intros (-> & c & Hc & ? & ?). rewrite Hc. by rewrite !bool_decide_true.
Qed.

Lemma requeue_if_expired_spec now t lease :
  t_state t = Leased lease → lt_expires_at_ms lease ≤ now → t_revision t < u64_max →
  requeue_if_expired now t = (Ok true, requeued t).
Proof.
  intros Hl Hx Hr. unfold requeue_if_expired, requeued. rewrite Hl.
  rewrite (proj2 (N.ltb_ge _ _)) by done. unfold Revision_next. by rewrite counter_next_lt.
Qed.

Lemma requeue_for_member_spec g mid t lease :
  t_state t = Leased lease → lt_group_id lease = g → lt_owner_member_id lease = mid →
  t_revision t < u64_max → requeue_for_member g mid t = (Ok true, requeued t).
Proof.
  intros Hl <- <- Hr. unfold requeue_for_member, requeued. rewrite Hl.
  rewrite !bool_decide_true by done. simpl. unfold Revision_next. by rewrite counter_next_lt.
Qed.

Lemma rtc_task_evolves t t' : rtc task_step t t' → task_evolves t t'.
Proof. induction 1 as [|???? _ IH]; [reflexivity|]. etrans; [by apply task_step_evolves|done]. Qed.

Lemma require_active_lease_stale fence t :
  lf_lease_epoch fence < task_epoch t → is_ok (require_active_lease fence t) = false.
Proof.
  intros He. destruct (require_active_lease fence t) as [l|] eqn:E; [|done].
  apply require_active_lease_ok in E as [Hl (?&?&?&Heq&?)].
  unfold task_epoch in He. rewrite Hl in He. simpl in He. lia.
Qed.

(** ** Main properties *)

(** Once a task has been leased at an epoch newer than a fence's, no matter
    which transitions follow, that fence can neither renew nor complete the
    task: renewal fails, completion is never accepted, and the task stays as
    it is. *)
Theorem stale_epoch_is_fenced_forever fence exp res t t' :
  lf_lease_epoch fence < task_epoch t → rtc task_step t t' →
  (∃ e, Task_renew fence exp t' = (Err e, t')) ∧
  (∃ r, Task_complete fence res t' = (r, t') ∧ r ≠ Ok OutcomeCompleted).
Proof.
  intros He Ht. pose proof (te_epoch _ _ (rtc_task_evolves _ _ Ht)).
  pose proof (require_active_lease_stale fence t' ltac:(lia)) as Hs.
  unfold Task_renew, Task_complete.
  destruct (require_active_lease fence t'); [done|].
  split; [eauto|]. repeat case_match; eauto.
Qed.

(** A lease that was lost, by expiry or by its owner leaving, is fenced by
    the next claim: the old holder's fence is refused from then on. *)
Theorem reclaim_fences_previous_holder t lease grant t' fence exp res :
  t_state t = Leased lease → lf_lease_epoch fence = lt_lease_epoch lease →
  Task_claim grant (requeued t) = (Ok tt, t') →
  (∃ e, Task_renew fence exp t' = (Err e, t')) ∧
  (∃ e, Task_complete fence res t' = (Err e, t')) ∧
  task_epoch t' = lt_lease_epoch lease + 1.
Proof.
  intros Hl Hf (q & Hq & _ & _ & ->)%Task_claim_ok.
  assert (task_epoch (claimed grant (requeued t)) = lt_lease_epoch lease + 1) as Hep.
  { unfold claimed, task_epoch, requeued. rewrite Hl. done. }
  pose proof (require_active_lease_stale fence (claimed grant (requeued t)) ltac:(lia)) as Hs.
  unfold Task_renew, Task_complete.
  destruct (require_active_lease fence _) eqn:E; [done|]. split_and!; eauto.
Qed.

(** Exporting a task to its checkpoint record and restoring it is the
    identity, in both directions. *)
Theorem task_checkpoint_roundtrip t ck :
  Task_from_checkpoint (Task_checkpoint t) = t ∧
  Task_checkpoint (Task_from_checkpoint ck) = ck.
Proof.
  split.
  - destruct t as [????? [[]|[]|[]]]; reflexivity.
  - destruct ck as [????? []]; reflexivity.
Qed.

(** ** Concrete instances *)

Definition sample_task : Task :=
  claimed {| lg_lease_id := "l1"; lg_owner_member_id := "m1"; lg_group_id := "ga";
             lg_generation := 1; lg_expires_at_ms := 100 |} (Task_new "t1" "a" "work" 2).

Definition sample_fence (epoch : LeaseEpoch) : LeaseFence := {|
  lf_lease_id := "l1"; lf_owner_member_id := "m1"; lf_group_id := "ga"; lf_generation := 1;
  lf_lease_epoch := epoch; lf_observed_at_ms := 50 |}.

Lemma stale_epoch_is_fenced_forever_witness :
  (∃ e, Task_renew (sample_fence 0) 200 sample_task = (Err e, sample_task)) ∧
  (∃ r, Task_complete (sample_fence 0) "done" sample_task = (r, sample_task) ∧
        r ≠ Ok OutcomeCompleted).
Proof.
  apply (stale_epoch_is_fenced_forever (sample_fence 0) 200 "done" sample_task sample_task).
  - vm_compute. reflexivity.
  - apply rtc_refl.
Defined.

Lemma reclaim_fences_previous_holder_witness :
  let grant := {| lg_lease_id := "l2"; lg_owner_member_id := "m2"; lg_group_id := "ga";
                  lg_generation := 2; lg_expires_at_ms := 300 |} in
  let t' := (Task_claim grant (requeued sample_task)).2 in
  (∃ e, Task_renew (sample_fence 1) 400 t' = (Err e, t')) ∧
  (∃ e, Task_complete (sample_fence 1) "done" t' = (Err e, t')) ∧
  task_epoch t' = 1 + 1.
Proof.
  intros grant t'.
  apply (reclaim_fences_previous_holder sample_task
    {| lt_lease_id := "l1"; lt_owner_member_id := "m1"; lt_group_id := "ga"; lt_generation := 1;
       lt_lease_epoch := 1; lt_expires_at_ms := 100 |} grant t' (sample_fence 1) 400 "done");
    reflexivity.
Defined.
