(* ===== verification/Group.v ===== *)
(** * Consumer groups and their coordinator ([group.rs], [group/coordinator.rs])

    A group holds its members in a [BTreeMap] keyed by consumer id; the
    coordinator selects one group of the registry and applies a membership
    transition to it in place. *)

From S2P Require Import Prelude Values Task.

(** ** Capabilities *)

Definition MAX_CAPABILITIES : N := 64.
Definition MAX_CAPABILITY_BYTES : N := 64.

Inductive CapabilitiesError :=
  | TooMany (max : N)
  | InvalidCapability (reason : string).

#[export] Instance CapabilitiesError_eq_dec : EqDecision CapabilitiesError.
Proof. solve_decision. Defined.

Abbreviation Capability := string (only parsing).
Abbreviation Capabilities := (list string) (only parsing).

Definition Capability_new (value : string) : result Capability CapabilitiesError :=
  match value with
  | EmptyString => Err (InvalidCapability "capability must not be empty")
  | String first rest =>
      if MAX_CAPABILITY_BYTES <? str_len value then
        Err (InvalidCapability "capability must be at most 64 ASCII bytes")
      else if negb (is_ascii_alphanumeric first) then
        Err (InvalidCapability "capability must start with an ASCII alphanumeric character")
      else if negb (all_bytes (λ b, is_ascii_alphanumeric b || is_identifier_punct b) rest) then
        Err (InvalidCapability "capability contains unsupported characters")
      else Ok value
  end.

(** The loop inserting each validated value into a [BTreeSet]. *)
Fixpoint normalize_capabilities (values : list string) (normalized : gset Capability) :
    result (gset Capability) CapabilitiesError :=
  match values with
  | [] => Ok normalized
  | value :: values =>
      let^ c := Capability_new value in
      normalize_capabilities values ({[ c ]} ∪ normalized)
  end.

Definition Capabilities_new (values : list string) : result Capabilities CapabilitiesError :=
  if MAX_CAPABILITIES <? len values then Err (TooMany MAX_CAPABILITIES) else
  let^ normalized := normalize_capabilities values ∅ in
  Ok (bset_iter normalized).

Definition contains_all (self required : Capabilities) : bool :=
  forallb (λ c, match binary_search self c with Some _ => true | None => false end) required.

(** ** Consumers *)

Record Consumer := {
  c_id : ConsumerId;
  c_capabilities : Capabilities;
  c_joined_at_ms : TimestampMs;
  c_last_heartbeat_at_ms : TimestampMs;
  c_revision : Revision;
}.

#[export] Instance Consumer_eq_dec : EqDecision Consumer.
Proof. solve_decision. Defined.

Definition Consumer_new (id : ConsumerId) (caps : Capabilities) (now : TimestampMs) : Consumer := {|
  c_id := id; c_capabilities := caps; c_joined_at_ms := now;
  c_last_heartbeat_at_ms := now; c_revision := 1;
|}.

(** [member.last_heartbeat_at_ms = now; member.revision = r] *)
Definition consumer_beat (c : Consumer) (now : TimestampMs) (r : Revision) : Consumer := {|
  c_id := c_id c; c_capabilities := c_capabilities c; c_joined_at_ms := c_joined_at_ms c;
  c_last_heartbeat_at_ms := now; c_revision := r;
|}.

Record MemberCheckpoint := {
  mck_member_id : ConsumerId;
  mck_capabilities : Capabilities;
  mck_joined_at_ms : TimestampMs;
  mck_last_heartbeat_at_ms : TimestampMs;
  mck_revision : Revision;
}.

#[export] Instance MemberCheckpoint_eq_dec : EqDecision MemberCheckpoint.
Proof. solve_decision. Defined.

Definition Consumer_checkpoint (c : Consumer) : MemberCheckpoint := {|
  mck_member_id := c_id c; mck_capabilities := c_capabilities c;
  mck_joined_at_ms := c_joined_at_ms c;
  mck_last_heartbeat_at_ms := c_last_heartbeat_at_ms c; mck_revision := c_revision c;
|}.

Definition Consumer_from_checkpoint (ck : MemberCheckpoint) : Consumer := {|
  c_id := mck_member_id ck; c_capabilities := mck_capabilities ck;
  c_joined_at_ms := mck_joined_at_ms ck;
  c_last_heartbeat_at_ms := mck_last_heartbeat_at_ms ck; c_revision := mck_revision ck;
|}.

(** ** Consumer groups *)

Inductive JoinOutcome := Added | Refreshed | JoinUnchanged.
Inductive HeartbeatOutcome := Updated | HeartbeatUnchanged.

#[export] Instance JoinOutcome_eq_dec : EqDecision JoinOutcome.
Proof. solve_decision. Defined.
#[export] Instance HeartbeatOutcome_eq_dec : EqDecision HeartbeatOutcome.
Proof. solve_decision. Defined.

Inductive ConsumerGroupError :=
  | StaleGeneration (expected actual : Generation)
  | MemberNotFound (id : ConsumerId)
  | CapabilityConflict (id : ConsumerId)
  | MemberCapacityReached (max_members : N)
  | InvalidMemberCapacity
  | GroupFencingValue (e : FencingValueError).

#[export] Instance ConsumerGroupError_eq_dec : EqDecision ConsumerGroupError.
Proof. solve_decision. Defined.

Record ConsumerGroup := {
  g_id : ConsumerGroupId;
  g_namespace_id : NamespaceId;
  g_generation : Generation;
  g_revision : Revision;
  g_consumers : gmap ConsumerId Consumer;
}.

#[export] Instance ConsumerGroup_eq_dec : EqDecision ConsumerGroup.
Proof. solve_decision. Defined.

Definition group_set (g : ConsumerGroup) (gen : Generation) (rev : Revision)
    (cs : gmap ConsumerId Consumer) : ConsumerGroup := {|
  g_id := g_id g; g_namespace_id := g_namespace_id g; g_generation := gen;
  g_revision := rev; g_consumers := cs;
|}.

Definition ConsumerGroup_new (id : ConsumerGroupId) (ns : NamespaceId) : ConsumerGroup := {|
  g_id := id; g_namespace_id := ns; g_generation := 0; g_revision := 1; g_consumers := ∅;
|}.

Definition consumer_count (g : ConsumerGroup) : N := msize (g_consumers g).

Definition require_generation (expected : Generation) (g : ConsumerGroup) :
    result unit ConsumerGroupError :=
  if negb (g_generation g =? expected) then Err (StaleGeneration expected (g_generation g))
  else Ok tt.

Definition Group_join (member_id : ConsumerId) (capabilities : Capabilities)
    (now_ms : TimestampMs) (max_members : N) (g : ConsumerGroup) :
    result JoinOutcome ConsumerGroupError * ConsumerGroup :=
  match g_consumers g !! member_id with
  | Some member =>
      if negb (bool_decide (c_capabilities member = capabilities))
      then (Err (CapabilityConflict member_id), g) else
      if now_ms <=? c_last_heartbeat_at_ms member then (Ok JoinUnchanged, g) else
      let? mrev := map_err GroupFencingValue (Revision_next (c_revision member)) else g in
      let? grev := map_err GroupFencingValue (Revision_next (g_revision g)) else g in
      (Ok Refreshed, group_set g (g_generation g) grev
                       (<[member_id := consumer_beat member now_ms mrev]> (g_consumers g)))
  | None =>
      if max_members =? 0 then (Err InvalidMemberCapacity, g) else
      if max_members <=? consumer_count g then (Err (MemberCapacityReached max_members), g) else
      let? gen := map_err GroupFencingValue (Generation_next (g_generation g)) else g in
      let? grev := map_err GroupFencingValue (Revision_next (g_revision g)) else g in
      (Ok Added, group_set g gen grev
                   (<[member_id := Consumer_new member_id capabilities now_ms]> (g_consumers g)))
  end.

Definition Group_heartbeat (member_id : ConsumerId) (expected_generation : Generation)
    (now_ms : TimestampMs) (g : ConsumerGroup) :
    result HeartbeatOutcome ConsumerGroupError * ConsumerGroup :=
  let? _ := require_generation expected_generation g else g in
  let? member := ok_or (g_consumers g !! member_id) (MemberNotFound member_id) else g in
  if now_ms <=? c_last_heartbeat_at_ms member then (Ok HeartbeatUnchanged, g) else
  let? mrev := map_err GroupFencingValue (Revision_next (c_revision member)) else g in
  let? grev := map_err GroupFencingValue (Revision_next (g_revision g)) else g in
  (Ok Updated, group_set g (g_generation g) grev
                 (<[member_id := consumer_beat member now_ms mrev]> (g_consumers g))).

Definition Group_leave (member_id : ConsumerId) (expected_generation : Generation)
    (g : ConsumerGroup) : result Consumer ConsumerGroupError * ConsumerGroup :=
  let? _ := require_generation expected_generation g else g in
  let? _ := ok_or (g_consumers g !! member_id) (MemberNotFound member_id) else g in
  let? gen := map_err GroupFencingValue (Generation_next (g_generation g)) else g in
  let? rev := map_err GroupFencingValue (Revision_next (g_revision g)) else g in
  let? member := ok_or (g_consumers g !! member_id) (MemberNotFound member_id) else g in
  (Ok member, group_set g gen rev (delete member_id (g_consumers g))).

(** Stale members in [(last_heartbeat_at_ms, id)] order: the [BTreeSet] of
    pairs that [reap_stale_members] collects. *)
Definition stale_entries (stale_before_ms : TimestampMs) (cs : gmap ConsumerId Consumer) :
    gset (TimestampMs * ConsumerId) :=
  list_to_set ((λ c, (c_last_heartbeat_at_ms c, c_id c)) <$>
    filter (λ c, c_last_heartbeat_at_ms c <= stale_before_ms) (bmap_values cs)).

(** The loop removing the selected ids and collecting what was removed. *)
Fixpoint remove_members (ids : list ConsumerId) (cs : gmap ConsumerId Consumer) :
    list Consumer * gmap ConsumerId Consumer :=
  match ids with
  | [] => ([], cs)
  | id :: ids =>
      match cs !! id with
      | Some member =>
          let '(removed, cs') := remove_members ids (delete id cs) in (member :: removed, cs')
      | None => remove_members ids cs
      end
  end.

Definition Group_reap_stale_members (stale_before_ms : TimestampMs) (max_members : N)
    (g : ConsumerGroup) : result (list Consumer) ConsumerGroupError * ConsumerGroup :=
  if max_members =? 0 then (Err InvalidMemberCapacity, g) else
  let stale_ids :=
    (take_N max_members (bset_iter (stale_entries stale_before_ms (g_consumers g)))).*2 in
  match stale_ids with
  | [] => (Ok [], g)
  | _ =>
      let? gen := map_err GroupFencingValue (Generation_next (g_generation g)) else g in
      let? rev := map_err GroupFencingValue (Revision_next (g_revision g)) else g in
      let '(removed, cs) := remove_members stale_ids (g_consumers g) in
      (Ok removed, group_set g gen rev cs)
  end.

(** ** Summaries and the directory *)

Record ConsumerGroupSummary := {
  gs_group_id : ConsumerGroupId;
  gs_namespace_id : NamespaceId;
  gs_generation : Generation;
  gs_revision : Revision;
  gs_consumer_count : N;
}.

Definition Group_summary (g : ConsumerGroup) : ConsumerGroupSummary := {|
  gs_group_id := g_id g; gs_namespace_id := g_namespace_id g;
  gs_generation := g_generation g; gs_revision := g_revision g;
  gs_consumer_count := consumer_count g;
|}.

Record ConsumerGroupDirectory := {
  gd_term : Term;
  gd_revision : Revision;
  gd_groups : list ConsumerGroupSummary;
}.

(** [binary_search_by] on the group ids, then indexing. *)
Definition Directory_group (group_id : ConsumerGroupId) (d : ConsumerGroupDirectory) :
    option ConsumerGroupSummary :=
  match binary_search (gs_group_id <$> gd_groups d) group_id with
  | Some index => gd_groups d !! index
  | None => None
  end.

(** ** Checkpoint records *)

Inductive CheckpointError :=
  | ZeroEntityRevision (entity : string)
  | DuplicateNamespace (id : NamespaceId)
  | DuplicateTask (id : TaskId)
  | DuplicateConsumerGroup (id : ConsumerGroupId)
  | DuplicateMember (id : ConsumerId)
  | DuplicateActiveLease (id : LeaseId)
  | UnknownNamespace (entity : string) (id : NamespaceId).

#[export] Instance CheckpointError_eq_dec : EqDecision CheckpointError.
Proof. solve_decision. Defined.

Record ConsumerGroupCheckpoint := {
  gck_group_id : ConsumerGroupId;
  gck_namespace_id : NamespaceId;
  gck_generation : Generation;
  gck_revision : Revision;
  gck_members : list MemberCheckpoint;
}.

#[export] Instance ConsumerGroupCheckpoint_eq_dec : EqDecision ConsumerGroupCheckpoint.
Proof. solve_decision. Defined.

Definition Group_checkpoint (g : ConsumerGroup) : ConsumerGroupCheckpoint := {|
  gck_group_id := g_id g; gck_namespace_id := g_namespace_id g;
  gck_generation := g_generation g; gck_revision := g_revision g;
  gck_members := Consumer_checkpoint <$> bmap_values (g_consumers g);
|}.

(** The loop inserting each member, failing on the first duplicate. *)
Fixpoint restore_members (members : list MemberCheckpoint) (cs : gmap ConsumerId Consumer) :
    result (gmap ConsumerId Consumer) CheckpointError :=
  match members with
  | [] => Ok cs
  | m :: members =>
      match cs !! mck_member_id m with
      | Some _ => Err (DuplicateMember (mck_member_id m))
      | None => restore_members members (<[mck_member_id m := Consumer_from_checkpoint m]> cs)
      end
  end.

Definition Group_from_checkpoint (ck : ConsumerGroupCheckpoint) :
    result ConsumerGroup CheckpointError :=
  let^ cs := restore_members (gck_members ck) ∅ in
  Ok {| g_id := gck_group_id ck; g_namespace_id := gck_namespace_id ck;
        g_generation := gck_generation ck; g_revision := gck_revision ck; g_consumers := cs |}.

(** ** The group coordinator *)

Inductive GroupCoordinatorError :=
  | GroupNotFound (id : ConsumerGroupId)
  | Transition (e : ConsumerGroupError).

Abbreviation Groups := (gmap ConsumerGroupId ConsumerGroup) (only parsing).

(** [Self::group_mut(groups, group_id)?.op(..).map_err(Into::into)]: apply [op]
    to the selected group in place. *)
Definition with_group_mut {A} (group_id : ConsumerGroupId)
    (op : ConsumerGroup → result A ConsumerGroupError * ConsumerGroup) (groups : Groups) :
    result A GroupCoordinatorError * Groups :=
  match groups !! group_id with
  | None => (Err (GroupNotFound group_id), groups)
  | Some g =>
      let '(r, g') := op g in (map_err Transition r, <[group_id := g']> groups)
  end.

Definition Coordinator_join (group_id : ConsumerGroupId) (member_id : ConsumerId)
    (capabilities : Capabilities) (now_ms : TimestampMs) (max_members : N) :
    Groups → result JoinOutcome GroupCoordinatorError * Groups :=
  with_group_mut group_id (Group_join member_id capabilities now_ms max_members).

Definition Coordinator_heartbeat (group_id : ConsumerGroupId) (member_id : ConsumerId)
    (expected_generation : Generation) (now_ms : TimestampMs) :
    Groups → result HeartbeatOutcome GroupCoordinatorError * Groups :=
  with_group_mut group_id (Group_heartbeat member_id expected_generation now_ms).

Definition Coordinator_leave (group_id : ConsumerGroupId) (member_id : ConsumerId)
    (expected_generation : Generation) :
    Groups → result Consumer GroupCoordinatorError * Groups :=
  with_group_mut group_id (Group_leave member_id expected_generation).

Definition Coordinator_reap_stale_members (group_id : ConsumerGroupId)
    (stale_before_ms : TimestampMs) (max_members : N) :
    Groups → result (list Consumer) GroupCoordinatorError * Groups :=
  with_group_mut group_id (Group_reap_stale_members stale_before_ms max_members).

Definition require_member (groups : Groups) (group_id : ConsumerGroupId) (member_id : ConsumerId)
    (expected_generation : Generation) :
    result (NamespaceId * Generation) GroupCoordinatorError :=
  let^ g := ok_or (groups !! group_id) (GroupNotFound group_id) in
  let^ _ := map_err Transition (require_generation expected_generation g) in
  match g_consumers g !! member_id with
  | None => Err (Transition (MemberNotFound member_id))
  | Some _ => Ok (g_namespace_id g, g_generation g)
  end.

Definition consumers_matching_capabilities (groups : Groups) (group_id : ConsumerGroupId)
    (required : Capabilities) : result (list ConsumerId) GroupCoordinatorError :=
  let^ g := ok_or (groups !! group_id) (GroupNotFound group_id) in
  Ok (c_id <$> filter (λ c, contains_all (c_capabilities c) required = true)
                 (bmap_values (g_consumers g))).

(** * Properties of consumer groups

    Membership transitions advance the generation exactly when they change the
    member set, failures change nothing, and the read-only queries agree with
    their set-theoretic meaning. *)

(** ** Vocabulary *)

(** How a group may change over its life. *)
Record group_evolves (g g' : ConsumerGroup) : Prop := {
  ge_id : g_id g' = g_id g;
  ge_namespace : g_namespace_id g' = g_namespace_id g;
  ge_generation : g_generation g ≤ g_generation g';
  ge_revision : g_revision g ≤ g_revision g';
  ge_unchanged : g_revision g' = g_revision g → g' = g;
  ge_members : g_generation g' = g_generation g ↔ dom (g_consumers g') = dom (g_consumers g);
}.

(** One call of a mutating method of a group, successful or not. *)
Inductive group_step (g g' : ConsumerGroup) : Prop :=
  | step_join mid caps now max r : Group_join mid caps now max g = (r, g') → group_step g g'
  | step_heartbeat mid gen now r : Group_heartbeat mid gen now g = (r, g') → group_step g g'
  | step_leave mid gen r : Group_leave mid gen g = (r, g') → group_step g g'
  | step_reap cutoff max r : Group_reap_stale_members cutoff max g = (r, g') → group_step g g'.

(** Members are stored under their own id, with a positive revision. *)
Definition group_ok (g : ConsumerGroup) : Prop :=
  0 < g_revision g ∧
  map_Forall (λ id c, c_id c = id ∧ 0 < c_revision c ∧
                      c_joined_at_ms c ≤ c_last_heartbeat_at_ms c) (g_consumers g).

(** ** Removal of several members *)

Lemma remove_members_spec ids cs :
  NoDup ids →
  remove_members ids cs = (omap (λ id, cs !! id) ids, filter (λ kv, kv.1 ∉ ids) cs).
Proof.
  intros Hnd. revert cs. induction Hnd as [|id ids Hni Hnd IH]; intros cs; simpl.
  - f_equal. symmetry. apply map_filter_id. intros k v _. apply not_elem_of_nil.
  - destruct (cs !! id) as [c|] eqn:E; rewrite IH; f_equal.
    + f_equal. apply list_omap_ext, Forall2_same_length_lookup. split; [done|].
      intros i x y Hx Hy. simplify_eq. rewrite lookup_delete_ne; [done|].
      intros ->. by apply Hni, list_elem_of_lookup_2 with i.
    + apply map_eq. intros k. apply option_eq. intros v.
      rewrite !map_lookup_filter_Some, lookup_delete_Some. set_solver.
    + apply map_eq. intros k. apply option_eq. intros v.
      rewrite !map_lookup_filter_Some. simpl. rewrite not_elem_of_cons.
      destruct (decide (k = id)); naive_solver congruence.
Qed.

(** ** Stale members *)

Definition members_keyed (cs : gmap ConsumerId Consumer) : Prop :=
  map_Forall (λ id c, c_id c = id) cs.

Lemma group_ok_keyed g : group_ok g → members_keyed (g_consumers g).
Proof. intros [_ Hm] id c Hc. by apply Hm in Hc as [? _]. Qed.

Lemma elem_of_stale_entries cutoff cs h id :
  members_keyed cs →
  (h, id) ∈ stale_entries cutoff cs ↔
  ∃ c, cs !! id = Some c ∧ c_last_heartbeat_at_ms c = h ∧ h ≤ cutoff.
Proof.
  intros Hk. unfold stale_entries. rewrite elem_of_list_to_set, list_elem_of_fmap.
  setoid_rewrite list_elem_of_filter. setoid_rewrite elem_of_bmap_values. split.
  - intros (c & [= -> ->] & Hle & k & Hc). exists c. rewrite (Hk _ _ Hc). by rewrite Hc.
  - intros (c & Hc & <- & Hle). exists c. split_and!; [|done|eauto].
    by rewrite (Hk _ _ Hc).
Qed.

Lemma NoDup_take_N {A} n (l : list A) : NoDup l → NoDup (take_N n l).
Proof. rewrite take_N_take. intros Hl. eapply sublist_NoDup; [exact Hl|apply sublist_take]. Qed.

Lemma stale_ids_nodup cutoff n cs :
  members_keyed cs → NoDup (take_N n (bset_iter (stale_entries cutoff cs))).*2.
Proof.
  intros Hk. apply NoDup_fmap_2_strong; [|apply NoDup_take_N, bset_iter_nodup].
  intros [h1 id1] [h2 id2] H1%elem_of_take_N H2%elem_of_take_N [= <-].
  rewrite elem_of_bset_iter, elem_of_stale_entries in H1, H2 by done. naive_solver.
Qed.

Lemma elem_of_stale_ids cutoff n cs id :
  members_keyed cs → id ∈ (take_N n (bset_iter (stale_entries cutoff cs))).*2 →
  is_Some (cs !! id).
Proof.
  intros Hk ([h i] & -> & H%elem_of_take_N)%list_elem_of_fmap.
  rewrite elem_of_bset_iter, elem_of_stale_entries in H by done. naive_solver.
Qed.

(** ** Every transition preserves well-formedness and evolves the group *)

Lemma group_evolves_refl g : group_evolves g g.
Proof. by constructor. Qed.

Lemma group_set_refresh g cs :
  dom cs = dom (g_consumers g) →
  group_evolves g (group_set g (g_generation g) (g_revision g + 1) cs).
Proof. intros Hd. constructor; simpl; try done; lia. Qed.

Lemma group_set_members g cs :
  dom cs ≠ dom (g_consumers g) →
  group_evolves g (group_set g (g_generation g + 1) (g_revision g + 1) cs).
Proof.
  intros Hd. constructor; simpl; try done; [lia..|]. split; [lia|done].
Qed.

Lemma group_ok_insert g gen cs id c :
  group_ok g → cs = <[id := c]> (g_consumers g) → c_id c = id → 0 < c_revision c →
  c_joined_at_ms c ≤ c_last_heartbeat_at_ms c →
  group_ok (group_set g gen (g_revision g + 1) cs).
Proof.
  intros [Hr Hm] -> Hid Hrev Hj. split; [simpl; lia|]. by apply map_Forall_insert_2.
Qed.

Lemma group_ok_filter g gen P `{∀ kv, Decision (P kv)} :
  group_ok g → group_ok (group_set g gen (g_revision g + 1) (filter P (g_consumers g))).
Proof.
  intros [Hr Hm]. split; [simpl; lia|]. intros id c [Hc _]%map_lookup_filter_Some. eauto.
Qed.

Ltac group_op :=
  repeat match goal with
  | H : (match ?x with _ => _ end) = (_, _) |- _ => destruct x eqn:?; simplify_eq/=
  | H : map_err _ _ = Ok _ |- _ => apply map_err_ok in H
  | H : ok_or ?o _ = Ok _ |- _ => destruct o eqn:?; simplify_eq/=
  | H : require_generation _ _ = Ok _ |- _ => clear H
  | H : Revision_next _ = Ok _ |- _ => apply counter_next_ok in H as [-> ?]
  | H : Generation_next _ = Ok _ |- _ => apply counter_next_ok in H as [-> ?]
  end.

Lemma Group_join_step mid caps now max g r g' :
  group_ok g → Group_join mid caps now max g = (r, g') → group_ok g' ∧ group_evolves g g'.
Proof.
  intros Hok. unfold Group_join. intros H. group_op; try by split; [|apply group_evolves_refl].
  - destruct (proj2 Hok mid c) as (? & ? & ?); [done|].
    rewrite N.leb_gt in *. split.
    + eapply group_ok_insert; [done|reflexivity|simpl; by try lia..].
    + apply group_set_refresh. rewrite dom_insert_lookup_L; eauto.
  - split.
    + eapply group_ok_insert; [done|reflexivity|simpl; by try lia..].
    + apply group_set_members. rewrite dom_insert_L. intros Hd.
      assert (mid ∈ dom (g_consumers g)) as Hin by set_solver.
      apply elem_of_dom in Hin as [? ?]. congruence.
Qed.

Lemma Group_heartbeat_step mid gen now g r g' :
  group_ok g → Group_heartbeat mid gen now g = (r, g') → group_ok g' ∧ group_evolves g g'.
Proof.
  intros Hok. unfold Group_heartbeat. intros H.
  group_op; try by split; [|apply group_evolves_refl].
  destruct (proj2 Hok mid a0) as (? & ? & ?); [done|]. rewrite N.leb_gt in *. split.
  - eapply group_ok_insert; [done|reflexivity|simpl; by try lia..].
  - apply group_set_refresh. rewrite dom_insert_lookup_L; eauto.
Qed.

Lemma Group_leave_step mid gen g r g' :
  group_ok g → Group_leave mid gen g = (r, g') → group_ok g' ∧ group_evolves g g'.
Proof.
  intros Hok. unfold Group_leave. intros H.
  group_op; try by split; [|apply group_evolves_refl]. split.
  - destruct Hok as [? Hm]. split; [simpl; lia|]. by apply map_Forall_delete.
  - apply group_set_members. rewrite dom_delete_L. intros Hd.
    assert (mid ∈ dom (g_consumers g)) as Hin by (apply elem_of_dom; eauto). set_solver.
Qed.

Lemma Group_reap_step cutoff max g r g' :
  group_ok g → Group_reap_stale_members cutoff max g = (r, g') →
  group_ok g' ∧ group_evolves g g'.
Proof.
  intros Hok. unfold Group_reap_stale_members. intros H.
  pose proof (group_ok_keyed g Hok) as Hk.
  pose proof (stale_ids_nodup cutoff max _ Hk) as Hnd.
  pose proof (elem_of_stale_ids cutoff max _ 
    (default "" (head (take_N max (bset_iter (stale_entries cutoff (g_consumers g)))).*2)) Hk) as Hs.
  destruct (max =? 0); [simplify_eq; split; [done|apply group_evolves_refl]|].
  destruct (take_N _ _).*2 as [|id ids] eqn:E;
    [simplify_eq; split; [done|apply group_evolves_refl]|].
  rewrite remove_members_spec in H by done.
  group_op; try by split; [|apply group_evolves_refl]. split.
  - by apply group_ok_filter.
  - apply group_set_members. intros Hd. destruct Hs as [c Hc]; [by left|].
    assert (id ∈ dom (g_consumers g)) as Hin by (apply elem_of_dom; eauto).
    rewrite <-Hd in Hin. apply elem_of_dom in Hin as [? [_ Hni]%map_lookup_filter_Some].
    destruct Hni. by left.
Qed.

Lemma group_step_ok g g' : group_ok g → group_step g g' → group_ok g' ∧ group_evolves g g'.
Proof.
  intros Hok [mid caps now max r H|mid gen now r H|mid gen r H|cutoff max r H].
  - by eapply Group_join_step.
  - by eapply Group_heartbeat_step.
  - by eapply Group_leave_step.
  - by eapply Group_reap_step.
Qed.

(** ** The coordinator applies one transition to one group *)

Lemma with_group_mut_cases {A} gid (op : ConsumerGroup → result A ConsumerGroupError * _)
    groups r groups' :
  with_group_mut gid op groups = (r, groups') →
  (groups !! gid = None ∧ r = Err (GroupNotFound gid) ∧ groups' = groups) ∨
  (∃ g r' g', groups !! gid = Some g ∧ op g = (r', g') ∧ r = map_err Transition r' ∧
              groups' = <[gid := g']> groups).
Proof.
  unfold with_group_mut. destruct (groups !! gid) as [g|]; [|naive_solver].
  destruct (op g) as [r' g'] eqn:E. intros [= <- <-]. right. by exists g, r', g'.
Qed.

(** A failed membership transition leaves the group as it was. *)
Lemma Group_join_err mid caps now max g e g' :
  Group_join mid caps now max g = (Err e, g') → g' = g.
Proof. unfold Group_join. intros. by group_op. Qed.
Lemma Group_heartbeat_err mid gen now g e g' : Group_heartbeat mid gen now g = (Err e, g') → g' = g.
Proof. unfold Group_heartbeat. intros. by group_op. Qed.
Lemma Group_leave_err mid gen g e g' : Group_leave mid gen g = (Err e, g') → g' = g.
Proof. unfold Group_leave. intros. by group_op. Qed.
Lemma Group_reap_err cutoff max g e g' :
  Group_reap_stale_members cutoff max g = (Err e, g') → g' = g.
Proof. unfold Group_reap_stale_members. intros. by group_op. Qed.

(** ** Capabilities *)

Lemma normalize_capabilities_ok values acc caps :
  normalize_capabilities values acc = Ok caps ↔
  caps = list_to_set values ∪ acc ∧ Forall (λ v, Capability_new v = Ok v) values.
Proof.
  revert acc. induction values as [|v vs IH]; intros acc; simpl.
  - rewrite Forall_nil. split; [intros [= <-]; set_solver|].
    intros [-> _]. f_equal. set_solver.
  - rewrite Forall_cons. destruct (Capability_new v) as [c|] eqn:E; [|naive_solver].
    assert (c = v) as ->.
    { unfold Capability_new in E. by repeat case_match; simplify_eq. }
    rewrite IH. rewrite (assoc_L _ (list_to_set vs)), (comm_L _ (list_to_set vs)).
    naive_solver.
Qed.

Lemma Capabilities_new_ok values caps :
  Capabilities_new values = Ok caps →
  sorted caps ∧ NoDup caps ∧ (∀ c, c ∈ caps ↔ c ∈ values) ∧
  len values ≤ MAX_CAPABILITIES ∧ Forall (λ v, Capability_new v = Ok v) values.
Proof.
  unfold Capabilities_new. case_match eqn:Hn; [done|]. rewrite N.ltb_ge in Hn.
  destruct (normalize_capabilities values ∅) as [s|] eqn:E; [|done].
  apply normalize_capabilities_ok in E as [-> Hv]. intros [= <-].
  split_and!; [apply bset_iter_sorted|apply bset_iter_nodup| |done|done].
  intros c. rewrite elem_of_bset_iter. set_solver.
Qed.

Lemma contains_all_spec caps required :
  sorted caps → NoDup caps → contains_all caps required = true ↔ required ⊆ caps.
Proof.
  intros Hs Hnd. unfold contains_all. rewrite forallb_forall.
  setoid_rewrite <-list_elem_of_In. apply forall_proper. intros c. apply forall_proper.
  intros _. rewrite <-(binary_search_elem caps c Hs Hnd).
  destruct (binary_search caps c); unfold is_Some; naive_solver.
Qed.

(** ** Main properties *)

(** Whatever method is called on a well-formed group, and whether it
    succeeds or not, the group stays well formed and only moves forward; its
    generation changes exactly when its member set does, and any change at all
    advances its revision. *)
Theorem group_transitions_are_fenced g g' :
  group_ok g → group_step g g' → group_ok g' ∧ group_evolves g g'.
Proof. apply group_step_ok. Qed.

Lemma group_transitions_are_fenced_witness :
  let g := ConsumerGroup_new "ga" "a" in
  let g' := (Group_join "m1" ["code"] 5 8 g).2 in
  group_ok g' ∧ group_evolves g g'.
Proof.
  intros g g'. apply group_transitions_are_fenced.
  - split; [reflexivity|apply map_Forall_empty].
  - eapply (step_join _ _ "m1" ["code"] 5 8). reflexivity.
Defined.

(** Matching consumers by capability is set inclusion: among consumers with
    normalised capabilities the query returns, in id order, exactly those whose
    capabilities include every required one. *)
Theorem capability_matching_is_inclusion groups gid g required ids :
  groups !! gid = Some g → members_keyed (g_consumers g) →
  map_Forall (λ _ c, ∃ values, Capabilities_new values = Ok (c_capabilities c)) (g_consumers g) →
  consumers_matching_capabilities groups gid required = Ok ids →
  sorted ids ∧ ∀ id, id ∈ ids ↔ ∃ c, g_consumers g !! id = Some c ∧ required ⊆ c_capabilities c.
Proof.
  intros Hg Hk Hcaps. unfold consumers_matching_capabilities. rewrite Hg. simpl. intros [= <-].
  split.
  - assert (sorted (c_id <$> bmap_values (g_consumers g))) as Hs by by apply bmap_values_sorted.
    induction (bmap_values (g_consumers g)) as [|c l IH]; [constructor|].
    rewrite filter_cons. rewrite fmap_cons in Hs. apply sorted_cons_iff in Hs as [Hc Hs].
    case_decide; [|by apply IH]. rewrite fmap_cons. apply sorted_cons_iff. split; [|by apply IH].
    intros y (c' & -> & [_ Hin]%list_elem_of_filter)%list_elem_of_fmap. apply Hc.
    apply list_elem_of_fmap. eauto.
  - intros id. rewrite list_elem_of_fmap. setoid_rewrite list_elem_of_filter.
    setoid_rewrite elem_of_bmap_values.
    assert (∀ k c, g_consumers g !! k = Some c →
      contains_all (c_capabilities c) required = true ↔ required ⊆ c_capabilities c) as Hall.
    { intros k c Hc. destruct (Hcaps k c Hc) as [vs (Hs & Hnd & _)%Capabilities_new_ok].
      by apply contains_all_spec. }
    split.
    + intros (c & -> & Hm & k & Hc). exists c. rewrite (Hk _ _ Hc). split; [done|].
      by apply (Hall k c).
    + intros (c & Hc & Hsub). exists c. rewrite (Hk _ _ Hc). split_and!; [done| |eauto].
      by apply (Hall id c).
Qed.

Lemma capability_matching_is_inclusion_witness :
  let g := (Group_join "m1" ["code"; "rust"] 5 8 (ConsumerGroup_new "ga" "a")).2 in
  sorted ["m1"] ∧ ∀ id, id ∈ ["m1"] ↔
    ∃ c, g_consumers g !! id = Some c ∧ ["rust"] ⊆ c_capabilities c.
Proof.
  intros g.
  apply (capability_matching_is_inclusion {[ "ga" := g ]} "ga" g ["rust"] ["m1"]).
  - reflexivity.
  - apply map_Forall_singleton. reflexivity.
  - apply map_Forall_singleton. exists ["rust"; "code"]. vm_compute. reflexivity.
  - vm_compute. reflexivity.
Defined.
