(* ===== verification/Messages.v ===== *)
(** * Commands, results and state-machine errors

    The inputs of the state machine ([commands.rs]), its typed results and
    change sets ([results.rs]) and its error type ([state_machine.rs]). *)

From S2P Require Import Prelude Values Task Group.

(** ** Commands *)

Record EnsureNamespaceCommand := {
  en_namespace_id : NamespaceId;
  en_max_namespaces : N;
}.

Record PublishTaskCommand := {
  pt_namespace_id : NamespaceId;
  pt_task_id : TaskId;
  pt_objective : TaskObjective;
  pt_created_at_ms : TimestampMs;
  pt_max_namespace_tasks : N;
}.

Record EnsureConsumerGroupCommand := {
  eg_namespace_id : NamespaceId;
  eg_group_id : ConsumerGroupId;
  eg_max_namespace_groups : N;
}.

Record JoinConsumerGroupCommand := {
  jg_group_id : ConsumerGroupId;
  jg_member_id : ConsumerId;
  jg_capabilities : Capabilities;
  jg_now_ms : TimestampMs;
  jg_max_group_members : N;
}.

Record HeartbeatCommand := {
  hb_group_id : ConsumerGroupId;
  hb_member_id : ConsumerId;
  hb_expected_generation : Generation;
  hb_now_ms : TimestampMs;
}.

Record LeaveConsumerGroupCommand := {
  lv_group_id : ConsumerGroupId;
  lv_member_id : ConsumerId;
  lv_expected_generation : Generation;
}.

Record ReapStaleMembersCommand := {
  rp_stale_before_ms : TimestampMs;
  rp_max_members : N;
}.

Record ClaimTaskCommand := {
  cl_group_id : ConsumerGroupId;
  cl_member_id : ConsumerId;
  cl_expected_term : Term;
  cl_expected_generation : Generation;
  cl_lease_id : LeaseId;
  cl_now_ms : TimestampMs;
  cl_lease_duration_ms : N;
}.

Record RenewTaskLeaseCommand := {
  rn_task_id : TaskId;
  rn_group_id : ConsumerGroupId;
  rn_member_id : ConsumerId;
  rn_expected_term : Term;
  rn_expected_generation : Generation;
  rn_expected_lease_epoch : LeaseEpoch;
  rn_lease_id : LeaseId;
  rn_now_ms : TimestampMs;
  rn_lease_duration_ms : N;
}.

Record CompleteTaskCommand := {
  cp_task_id : TaskId;
  cp_group_id : ConsumerGroupId;
  cp_member_id : ConsumerId;
  cp_expected_term : Term;
  cp_expected_generation : Generation;
  cp_expected_lease_epoch : LeaseEpoch;
  cp_lease_id : LeaseId;
  cp_result : TaskResult;
  cp_completed_at_ms : TimestampMs;
}.

Record PruneCompletedTasksCommand := {
  pr_completed_before_ms : TimestampMs;
  pr_max_tasks : N;
}.

Record AdvanceTermCommand := {
  at_expected_term : Term;
  at_new_term : Term;
}.

Inductive BrokerCommand :=
  | EnsureNamespace (c : EnsureNamespaceCommand)
  | PublishTask (c : PublishTaskCommand)
  | EnsureConsumerGroup (c : EnsureConsumerGroupCommand)
  | JoinConsumerGroup (c : JoinConsumerGroupCommand)
  | Heartbeat (c : HeartbeatCommand)
  | LeaveConsumerGroup (c : LeaveConsumerGroupCommand)
  | ReapStaleMembers (c : ReapStaleMembersCommand)
  | ClaimTask (c : ClaimTaskCommand)
  | RenewTaskLease (c : RenewTaskLeaseCommand)
  | CompleteTask (c : CompleteTaskCommand)
  | PruneCompletedTasks (c : PruneCompletedTasksCommand)
  | AdvanceTerm (c : AdvanceTermCommand).

(** ** Results *)

Record MutationMetadata := { md_term : Term; md_revision : Revision }.

Record NamespaceResult := {
  nr_metadata : MutationMetadata;
  nr_namespace_id : NamespaceId;
  nr_namespace_revision : Revision;
}.

Record TaskPublishedResult := {
  tp_metadata : MutationMetadata;
  tp_task_id : TaskId;
  tp_task_revision : Revision;
  tp_status : TaskStatus;
}.

Record ConsumerGroupResult := {
  gr_metadata : MutationMetadata;
  gr_group_id : ConsumerGroupId;
  gr_generation : Generation;
  gr_group_revision : Revision;
  gr_member_count : N;
}.

Record HeartbeatResult := {
  hr_metadata : MutationMetadata;
  hr_group_id : ConsumerGroupId;
  hr_member_id : ConsumerId;
  hr_generation : Generation;
  hr_member_revision : Revision;
}.

Record StaleMembersReapedResult := {
  sr_metadata : MutationMetadata;
  sr_reaped_count : N;
  sr_affected_group_count : N;
}.

Record TaskClaimResult := {
  tc_metadata : MutationMetadata;
  tc_task_id : option TaskId;
  tc_objective : option TaskObjective;
  tc_task_revision : option Revision;
  tc_lease_id : option LeaseId;
  tc_lease_epoch : option LeaseEpoch;
  tc_lease_expires_at_ms : option TimestampMs;
  tc_generation : Generation;
}.

Record TaskLeaseRenewedResult := {
  tr_metadata : MutationMetadata;
  tr_task_id : TaskId;
  tr_task_revision : Revision;
  tr_lease_id : LeaseId;
  tr_lease_epoch : LeaseEpoch;
  tr_lease_expires_at_ms : TimestampMs;
  tr_generation : Generation;
}.

Record TaskCompletedResult := {
  td_metadata : MutationMetadata;
  td_task_id : TaskId;
  td_task_revision : Revision;
  td_status : TaskStatus;
}.

Record CompletedTasksPrunedResult := {
  cpr_metadata : MutationMetadata;
  cpr_pruned_count : N;
}.

Record TermAdvancedResult := { ta_metadata : MutationMetadata }.

Record StateChangeSet := {
  sc_namespaces : list NamespaceId;
  sc_tasks : list TaskId;
  sc_deleted_tasks : list TaskId;
  sc_groups : list ConsumerGroupId;
}.

Definition is_nil {A} (l : list A) : bool := match l with [] => true | _ => false end.

Definition StateChangeSet_is_empty (c : StateChangeSet) : bool :=
  is_nil (sc_namespaces c) && is_nil (sc_tasks c) && is_nil (sc_deleted_tasks c) &&
  is_nil (sc_groups c).

Inductive BrokerMutationResult :=
  | RNamespace (r : NamespaceResult)
  | RTaskPublished (r : TaskPublishedResult)
  | RConsumerGroup (r : ConsumerGroupResult)
  | RHeartbeat (r : HeartbeatResult)
  | RStaleMembersReaped (r : StaleMembersReapedResult)
  | RTaskClaim (r : TaskClaimResult)
  | RTaskLeaseRenewed (r : TaskLeaseRenewedResult)
  | RTaskCompleted (r : TaskCompletedResult)
  | RCompletedTasksPruned (r : CompletedTasksPrunedResult)
  | RTermAdvanced (r : TermAdvancedResult).

Record AppliedMutation := {
  am_result : BrokerMutationResult;
  am_changes : StateChangeSet;
}.

(** ** Errors of the state machine *)

Inductive StateMachineError :=
  | InvalidCapacity (field : string)
  | CapacityExceeded (resource : string) (max : N)
  | NamespaceNotFound (id : NamespaceId)
  | TaskConflict (id : TaskId)
  | TaskNotFound (id : TaskId)
  | LeaseIdConflict (id : LeaseId)
  | StaleTerm (expected actual : Term)
  | NewTermNotGreater (current proposed : Term)
  | TaskCountUnderflow (id : NamespaceId)
  | TimestampOverflow
  | TaskTransition (e : TaskTransitionError)
  | ConsumerGroupConflict (id : ConsumerGroupId)
  | ConsumerGroupNotFound (id : ConsumerGroupId)
  | ConsumerGroupTransition (e : ConsumerGroupError)
  | FencingValue (e : FencingValueError).

#[export] Instance StateMachineError_eq_dec : EqDecision StateMachineError.
Proof. solve_decision. Defined.

(** [From<GroupCoordinatorError> for StateMachineError] *)
Definition from_coordinator_error (e : GroupCoordinatorError) : StateMachineError :=
  match e with
  | GroupNotFound id => ConsumerGroupNotFound id
  | Transition e => ConsumerGroupTransition e
  end.
