(* ===== verification/Machine.v ===== *)
(** * The deterministic broker state machine ([state_machine.rs])

    [BrokerState] is the authoritative state; [BrokerStateMachine] adds the
    derived indexes and the change sets of the command being applied.  Every
    handler returns its result together with the machine it leaves behind, on
    success and on error alike. *)

From S2P Require Import Prelude Values Task Group Messages.

Record Namespace := { n_id : NamespaceId; n_revision : Revision }.

#[export] Instance Namespace_eq_dec : EqDecision Namespace.
Proof. solve_decision. Defined.

Definition Namespace_new (id : NamespaceId) : Namespace := {| n_id := id; n_revision := 1 |}.

Record BrokerState := {
  s_term : Term;
  s_revision : Revision;
  s_namespaces : gmap NamespaceId Namespace;
  s_tasks : gmap TaskId Task;
  s_groups : gmap ConsumerGroupId ConsumerGroup;
}.

Definition BrokerState_default : BrokerState := {|
  s_term := Term_INITIAL; s_revision := 0; s_namespaces := ∅; s_tasks := ∅; s_groups := ∅;
|}.

Definition set_term v s := {| s_term := v; s_revision := s_revision s;
  s_namespaces := s_namespaces s; s_tasks := s_tasks s; s_groups := s_groups s |}.
Definition set_revision v s := {| s_term := s_term s; s_revision := v;
  s_namespaces := s_namespaces s; s_tasks := s_tasks s; s_groups := s_groups s |}.
Definition set_namespaces v s := {| s_term := s_term s; s_revision := s_revision s;
  s_namespaces := v; s_tasks := s_tasks s; s_groups := s_groups s |}.
Definition set_tasks v s := {| s_term := s_term s; s_revision := s_revision s;
  s_namespaces := s_namespaces s; s_tasks := v; s_groups := s_groups s |}.
Definition set_groups v s := {| s_term := s_term s; s_revision := s_revision s;
  s_namespaces := s_namespaces s; s_tasks := s_tasks s; s_groups := v |}.

(** Entries of the three heaps. *)
Abbreviation ReadyEntry := (TimestampMs * TaskId)%type (only parsing).
Abbreviation ExpirationEntry := (TimestampMs * TaskId * LeaseEpoch)%type (only parsing).
Abbreviation CompletedEntry := (TimestampMs * TaskId)%type (only parsing).

Record BrokerStateMachine := {
  m_state : BrokerState;
  m_ready_tasks : gmap NamespaceId (list ReadyEntry);
  m_lease_expirations : gmap NamespaceId (list ExpirationEntry);
  m_active_lease_tasks : gmap LeaseId TaskId;
  m_member_lease_tasks : gmap (ConsumerGroupId * ConsumerId) (gset TaskId);
  m_completed_tasks : list CompletedEntry;
  m_namespace_task_counts : gmap NamespaceId N;
  m_namespace_group_counts : gmap NamespaceId N;
  m_changed_namespaces : gset NamespaceId;
  m_changed_tasks : gset TaskId;
  m_deleted_tasks : gset TaskId;
  m_changed_groups : gset ConsumerGroupId;
}.

Definition BrokerStateMachine_default : BrokerStateMachine := {|
  m_state := BrokerState_default; m_ready_tasks := ∅; m_lease_expirations := ∅;
  m_active_lease_tasks := ∅; m_member_lease_tasks := ∅; m_completed_tasks := [];
  m_namespace_task_counts := ∅; m_namespace_group_counts := ∅;
  m_changed_namespaces := ∅; m_changed_tasks := ∅; m_deleted_tasks := ∅;
  m_changed_groups := ∅;
|}.

(** ** Field updates *)

Definition with_state v m := {| m_state := v; m_ready_tasks := m_ready_tasks m;
  m_lease_expirations := m_lease_expirations m; m_active_lease_tasks := m_active_lease_tasks m;
  m_member_lease_tasks := m_member_lease_tasks m; m_completed_tasks := m_completed_tasks m;
  m_namespace_task_counts := m_namespace_task_counts m; m_namespace_group_counts :=
  m_namespace_group_counts m; m_changed_namespaces := m_changed_namespaces m; m_changed_tasks :=
  m_changed_tasks m; m_deleted_tasks := m_deleted_tasks m; m_changed_groups := m_changed_groups
  m |}.
Definition with_ready_tasks v m := {| m_state := m_state m; m_ready_tasks := v;
  m_lease_expirations := m_lease_expirations m; m_active_lease_tasks := m_active_lease_tasks m;
  m_member_lease_tasks := m_member_lease_tasks m; m_completed_tasks := m_completed_tasks m;
  m_namespace_task_counts := m_namespace_task_counts m; m_namespace_group_counts :=
  m_namespace_group_counts m; m_changed_namespaces := m_changed_namespaces m; m_changed_tasks :=
  m_changed_tasks m; m_deleted_tasks := m_deleted_tasks m; m_changed_groups := m_changed_groups
  m |}.
Definition with_lease_expirations v m := {| m_state := m_state m; m_ready_tasks := m_ready_tasks
  m; m_lease_expirations := v; m_active_lease_tasks := m_active_lease_tasks m;
  m_member_lease_tasks := m_member_lease_tasks m; m_completed_tasks := m_completed_tasks m;
  m_namespace_task_counts := m_namespace_task_counts m; m_namespace_group_counts :=
  m_namespace_group_counts m; m_changed_namespaces := m_changed_namespaces m; m_changed_tasks :=
  m_changed_tasks m; m_deleted_tasks := m_deleted_tasks m; m_changed_groups := m_changed_groups
  m |}.
Definition with_active_lease_tasks v m := {| m_state := m_state m; m_ready_tasks :=
  m_ready_tasks m; m_lease_expirations := m_lease_expirations m; m_active_lease_tasks := v;
  m_member_lease_tasks := m_member_lease_tasks m; m_completed_tasks := m_completed_tasks m;
  m_namespace_task_counts := m_namespace_task_counts m; m_namespace_group_counts :=
  m_namespace_group_counts m; m_changed_namespaces := m_changed_namespaces m; m_changed_tasks :=
  m_changed_tasks m; m_deleted_tasks := m_deleted_tasks m; m_changed_groups := m_changed_groups
  m |}.
Definition with_member_lease_tasks v m := {| m_state := m_state m; m_ready_tasks :=
  m_ready_tasks m; m_lease_expirations := m_lease_expirations m; m_active_lease_tasks :=
  m_active_lease_tasks m; m_member_lease_tasks := v; m_completed_tasks := m_completed_tasks m;
  m_namespace_task_counts := m_namespace_task_counts m; m_namespace_group_counts :=
  m_namespace_group_counts m; m_changed_namespaces := m_changed_namespaces m; m_changed_tasks :=
  m_changed_tasks m; m_deleted_tasks := m_deleted_tasks m; m_changed_groups := m_changed_groups
  m |}.
Definition with_completed_tasks v m := {| m_state := m_state m; m_ready_tasks := m_ready_tasks
  m; m_lease_expirations := m_lease_expirations m; m_active_lease_tasks := m_active_lease_tasks
  m; m_member_lease_tasks := m_member_lease_tasks m; m_completed_tasks := v;
  m_namespace_task_counts := m_namespace_task_counts m; m_namespace_group_counts :=
  m_namespace_group_counts m; m_changed_namespaces := m_changed_namespaces m; m_changed_tasks :=
  m_changed_tasks m; m_deleted_tasks := m_deleted_tasks m; m_changed_groups := m_changed_groups
  m |}.
Definition with_namespace_task_counts v m := {| m_state := m_state m; m_ready_tasks :=
  m_ready_tasks m; m_lease_expirations := m_lease_expirations m; m_active_lease_tasks :=
  m_active_lease_tasks m; m_member_lease_tasks := m_member_lease_tasks m; m_completed_tasks :=
  m_completed_tasks m; m_namespace_task_counts := v; m_namespace_group_counts :=
  m_namespace_group_counts m; m_changed_namespaces := m_changed_namespaces m; m_changed_tasks :=
  m_changed_tasks m; m_deleted_tasks := m_deleted_tasks m; m_changed_groups := m_changed_groups
  m |}.
Definition with_namespace_group_counts v m := {| m_state := m_state m; m_ready_tasks :=
  m_ready_tasks m; m_lease_expirations := m_lease_expirations m; m_active_lease_tasks :=
  m_active_lease_tasks m; m_member_lease_tasks := m_member_lease_tasks m; m_completed_tasks :=
  m_completed_tasks m; m_namespace_task_counts := m_namespace_task_counts m;
  m_namespace_group_counts := v; m_changed_namespaces := m_changed_namespaces m; m_changed_tasks
  := m_changed_tasks m; m_deleted_tasks := m_deleted_tasks m; m_changed_groups :=
  m_changed_groups m |}.
Definition with_changed_namespaces v m := {| m_state := m_state m; m_ready_tasks :=
  m_ready_tasks m; m_lease_expirations := m_lease_expirations m; m_active_lease_tasks :=
  m_active_lease_tasks m; m_member_lease_tasks := m_member_lease_tasks m; m_completed_tasks :=
  m_completed_tasks m; m_namespace_task_counts := m_namespace_task_counts m;
  m_namespace_group_counts := m_namespace_group_counts m; m_changed_namespaces := v;
  m_changed_tasks := m_changed_tasks m; m_deleted_tasks := m_deleted_tasks m; m_changed_groups
  := m_changed_groups m |}.
Definition with_changed_tasks v m := {| m_state := m_state m; m_ready_tasks := m_ready_tasks m;
  m_lease_expirations := m_lease_expirations m; m_active_lease_tasks := m_active_lease_tasks m;
  m_member_lease_tasks := m_member_lease_tasks m; m_completed_tasks := m_completed_tasks m;
  m_namespace_task_counts := m_namespace_task_counts m; m_namespace_group_counts :=
  m_namespace_group_counts m; m_changed_namespaces := m_changed_namespaces m; m_changed_tasks :=
  v; m_deleted_tasks := m_deleted_tasks m; m_changed_groups := m_changed_groups m |}.
Definition with_deleted_tasks v m := {| m_state := m_state m; m_ready_tasks := m_ready_tasks m;
  m_lease_expirations := m_lease_expirations m; m_active_lease_tasks := m_active_lease_tasks m;
  m_member_lease_tasks := m_member_lease_tasks m; m_completed_tasks := m_completed_tasks m;
  m_namespace_task_counts := m_namespace_task_counts m; m_namespace_group_counts :=
  m_namespace_group_counts m; m_changed_namespaces := m_changed_namespaces m; m_changed_tasks :=
  m_changed_tasks m; m_deleted_tasks := v; m_changed_groups := m_changed_groups m |}.
Definition with_changed_groups v m := {| m_state := m_state m; m_ready_tasks := m_ready_tasks m;
  m_lease_expirations := m_lease_expirations m; m_active_lease_tasks := m_active_lease_tasks m;
  m_member_lease_tasks := m_member_lease_tasks m; m_completed_tasks := m_completed_tasks m;
  m_namespace_task_counts := m_namespace_task_counts m; m_namespace_group_counts :=
  m_namespace_group_counts m; m_changed_namespaces := m_changed_namespaces m; m_changed_tasks :=
  m_changed_tasks m; m_deleted_tasks := m_deleted_tasks m; m_changed_groups := v |}.

Definition with_tasks v m := with_state (set_tasks v (m_state m)) m.
Definition with_groups v m := with_state (set_groups v (m_state m)) m.
Definition with_revision v m := with_state (set_revision v (m_state m)) m.
Abbreviation m_tasks m := (s_tasks (m_state m)).
Abbreviation m_groups m := (s_groups (m_state m)).
Abbreviation m_revision m := (s_revision (m_state m)).

(** [map.entry(k).or_default().push(Reverse(x))] *)
Definition heap_map_push {K} `{Countable K} `{Ord A} (k : K) (x : A) (hm : gmap K (list A)) :
    gmap K (list A) :=
  <[k := heap_push x (default [] (hm !! k))]> hm.

Definition next_revision (r : Revision) : result Revision StateMachineError :=
  map_err FencingValue (Revision_next r).

Definition metadata (m : BrokerStateMachine) : MutationMetadata :=
  {| md_term := s_term (m_state m); md_revision := m_revision m |}.

(** ** Shared checks and helpers *)

Definition require_namespace (ns : NamespaceId) (m : BrokerStateMachine) :
    result unit StateMachineError :=
  match s_namespaces (m_state m) !! ns with
  | Some _ => Ok tt
  | None => Err (NamespaceNotFound ns)
  end.

Definition require_term (expected : Term) (m : BrokerStateMachine) :
    result unit StateMachineError :=
  if s_term (m_state m) =? expected then Ok tt
  else Err (StaleTerm expected (s_term (m_state m))).

Definition require_group_member (group_id : ConsumerGroupId) (member_id : ConsumerId)
    (expected_generation : Generation) (m : BrokerStateMachine) :
    result (NamespaceId * Generation) StateMachineError :=
  map_err from_coordinator_error
    (require_member (m_groups m) group_id member_id expected_generation).

Definition checked_deadline (now_ms : TimestampMs) (duration_ms : N) :
    result TimestampMs StateMachineError :=
  ok_or (checked_add now_ms duration_ms) TimestampOverflow.

Definition consumer_group_result (md : MutationMetadata) (g : ConsumerGroup) :
    ConsumerGroupResult := {|
  gr_metadata := md; gr_group_id := g_id g; gr_generation := g_generation g;
  gr_group_revision := g_revision g; gr_member_count := consumer_count g;
|}.

Definition task_claim_result (generation : Generation) (task : option Task)
    (m : BrokerStateMachine) : TaskClaimResult :=
  let none := {| tc_metadata := metadata m; tc_task_id := None; tc_objective := None;
    tc_task_revision := None; tc_lease_id := None; tc_lease_epoch := None;
    tc_lease_expires_at_ms := None; tc_generation := generation |} in
  match task with
  | None => none
  | Some t =>
      match t_state t with
      | Leased lease => {| tc_metadata := metadata m; tc_task_id := Some (t_id t);
          tc_objective := Some (t_objective t); tc_task_revision := Some (t_revision t);
          tc_lease_id := Some (lt_lease_id lease);
          tc_lease_epoch := Some (lt_lease_epoch lease);
          tc_lease_expires_at_ms := Some (lt_expires_at_ms lease);
          tc_generation := generation |}
      | _ => none
      end
  end.

Definition clear_changes (m : BrokerStateMachine) : BrokerStateMachine :=
  with_changed_groups ∅ (with_deleted_tasks ∅ (with_changed_tasks ∅ (with_changed_namespaces ∅ m))).

Definition take_changes (m : BrokerStateMachine) : StateChangeSet := {|
  sc_namespaces := bset_iter (m_changed_namespaces m);
  sc_tasks := bset_iter (m_changed_tasks m);
  sc_deleted_tasks := bset_iter (m_deleted_tasks m);
  sc_groups := bset_iter (m_changed_groups m);
|}.

Definition mark_task (id : TaskId) (m : BrokerStateMachine) : BrokerStateMachine :=
  with_changed_tasks ({[ id ]} ∪ m_changed_tasks m) m.
Definition mark_group (id : ConsumerGroupId) (m : BrokerStateMachine) : BrokerStateMachine :=
  with_changed_groups ({[ id ]} ∪ m_changed_groups m) m.

Definition remove_member_lease_task (group_id : ConsumerGroupId) (member_id : ConsumerId)
    (task_id : TaskId) (m : BrokerStateMachine) : BrokerStateMachine :=
  let key := (group_id, member_id) in
  match m_member_lease_tasks m !! key with
  | None => m
  | Some tasks =>
      let tasks' := tasks ∖ {[ task_id ]} in
      if decide (tasks' = ∅)
      then with_member_lease_tasks (delete key (m_member_lease_tasks m)) m
      else with_member_lease_tasks (<[key := tasks']> (m_member_lease_tasks m)) m
  end.

(** ** Namespaces, publication and group registration *)

Definition ensure_namespace (c : EnsureNamespaceCommand) (m : BrokerStateMachine) :
    result NamespaceResult StateMachineError * BrokerStateMachine :=
  match s_namespaces (m_state m) !! en_namespace_id c with
  | Some ns => (Ok {| nr_metadata := metadata m; nr_namespace_id := n_id ns;
                      nr_namespace_revision := n_revision ns |}, m)
  | None =>
      if en_max_namespaces c =? 0 then (Err (InvalidCapacity "max_namespaces"), m) else
      if en_max_namespaces c <=? msize (s_namespaces (m_state m))
      then (Err (CapacityExceeded "Broker namespace" (en_max_namespaces c)), m) else
      let? next := next_revision (m_revision m) else m in
      let id := en_namespace_id c in
      let ns := Namespace_new id in
      let m := with_state (set_namespaces (<[id := ns]> (s_namespaces (m_state m))) (m_state m)) m in
      let m := with_revision next m in
      let m := with_changed_namespaces ({[ id ]} ∪ m_changed_namespaces m) m in
      (Ok {| nr_metadata := metadata m; nr_namespace_id := id;
             nr_namespace_revision := n_revision ns |}, m)
  end.

Definition publish_task (c : PublishTaskCommand) (m : BrokerStateMachine) :
    result TaskPublishedResult StateMachineError * BrokerStateMachine :=
  let? _ := require_namespace (pt_namespace_id c) m else m in
  match m_tasks m !! pt_task_id c with
  | Some t =>
      if negb (bool_decide (t_namespace_id t = pt_namespace_id c)) ||
         negb (bool_decide (t_objective t = pt_objective c))
      then (Err (TaskConflict (pt_task_id c)), m)
      else (Ok {| tp_metadata := metadata m; tp_task_id := t_id t;
                  tp_task_revision := t_revision t; tp_status := Task_status t |}, m)
  | None =>
      if pt_max_namespace_tasks c =? 0 then (Err (InvalidCapacity "max_namespace_tasks"), m) else
      let ns := pt_namespace_id c in
      let current_count := default 0 (m_namespace_task_counts m !! ns) in
      if pt_max_namespace_tasks c <=? current_count
      then (Err (CapacityExceeded "Broker Task" (pt_max_namespace_tasks c)), m) else
      let? next := next_revision (m_revision m) else m in
      let id := pt_task_id c in
      let t := Task_new id ns (pt_objective c) (pt_created_at_ms c) in
      let m := with_tasks (<[id := t]> (m_tasks m)) m in
      let m := with_namespace_task_counts
                 (<[ns := current_count + 1]> (m_namespace_task_counts m)) m in
      let m := with_ready_tasks
                 (heap_map_push ns (pt_created_at_ms c, id) (m_ready_tasks m)) m in
      let m := with_revision next m in
      let m := mark_task id m in
      (Ok {| tp_metadata := metadata m; tp_task_id := id;
             tp_task_revision := t_revision t; tp_status := Task_status t |}, m)
  end.

Definition ensure_consumer_group (c : EnsureConsumerGroupCommand) (m : BrokerStateMachine) :
    result ConsumerGroupResult StateMachineError * BrokerStateMachine :=
  let? _ := require_namespace (eg_namespace_id c) m else m in
  match m_groups m !! eg_group_id c with
  | Some g =>
      if negb (bool_decide (g_namespace_id g = eg_namespace_id c))
      then (Err (ConsumerGroupConflict (eg_group_id c)), m)
      else (Ok (consumer_group_result (metadata m) g), m)
  | None =>
      if eg_max_namespace_groups c =? 0
      then (Err (InvalidCapacity "max_namespace_groups"), m) else
      let ns := eg_namespace_id c in
      let current_count := default 0 (m_namespace_group_counts m !! ns) in
      if eg_max_namespace_groups c <=? current_count
      then (Err (CapacityExceeded "Broker Consumer Group" (eg_max_namespace_groups c)), m) else
      let? next := next_revision (m_revision m) else m in
      let id := eg_group_id c in
      let m := with_groups (<[id := ConsumerGroup_new id ns]> (m_groups m)) m in
      let m := with_namespace_group_counts
                 (<[ns := current_count + 1]> (m_namespace_group_counts m)) m in
      let m := with_revision next m in
      let m := mark_group id m in
      let? g := ok_or (m_groups m !! id) (ConsumerGroupConflict id) else m in
      (Ok (consumer_group_result (metadata m) g), m)
  end.

(** ** Membership *)

Definition join_consumer_group (c : JoinConsumerGroupCommand) (m : BrokerStateMachine) :
    result ConsumerGroupResult StateMachineError * BrokerStateMachine :=
  let? next := next_revision (m_revision m) else m in
  let '(r, groups) := Coordinator_join (jg_group_id c) (jg_member_id c) (jg_capabilities c)
                        (jg_now_ms c) (jg_max_group_members c) (m_groups m) in
  let m := with_groups groups m in
  let? outcome := map_err from_coordinator_error r else m in
  let? g := ok_or (m_groups m !! jg_group_id c) (ConsumerGroupNotFound (jg_group_id c)) else m in
  let m := if decide (outcome = JoinUnchanged) then m
           else mark_group (g_id g) (with_revision next m) in
  (Ok (consumer_group_result (metadata m) g), m).

Definition heartbeat (c : HeartbeatCommand) (m : BrokerStateMachine) :
    result HeartbeatResult StateMachineError * BrokerStateMachine :=
  let? next := next_revision (m_revision m) else m in
  let '(r, groups) := Coordinator_heartbeat (hb_group_id c) (hb_member_id c)
                        (hb_expected_generation c) (hb_now_ms c) (m_groups m) in
  let m := with_groups groups m in
  let? outcome := map_err from_coordinator_error r else m in
  let? g := ok_or (m_groups m !! hb_group_id c) (ConsumerGroupNotFound (hb_group_id c)) else m in
  let? member := ok_or (g_consumers g !! hb_member_id c)
                   (ConsumerGroupTransition (MemberNotFound (hb_member_id c))) else m in
  let m := if decide (outcome = Updated) then mark_group (g_id g) (with_revision next m)
           else m in
  (Ok {| hr_metadata := metadata m; hr_group_id := g_id g; hr_member_id := hb_member_id c;
         hr_generation := g_generation g; hr_member_revision := c_revision member |}, m).

(** The loop of [preflight_member_lease_requeue] over the indexed tasks. *)
Fixpoint preflight_tasks (group_id : ConsumerGroupId) (member_id : ConsumerId)
    (ids : list TaskId) (m : BrokerStateMachine) : result unit StateMachineError :=
  match ids with
  | [] => Ok tt
  | id :: ids =>
      match m_tasks m !! id with
      | Some t =>
          match t_state t with
          | Leased lease =>
              if bool_decide (lt_group_id lease = group_id) &&
                 bool_decide (lt_owner_member_id lease = member_id)
              then let^ _ := next_revision (t_revision t) in
                   preflight_tasks group_id member_id ids m
              else preflight_tasks group_id member_id ids m
          | _ => preflight_tasks group_id member_id ids m
          end
      | None => preflight_tasks group_id member_id ids m
      end
  end.

Definition preflight_member_lease_requeue (group_id : ConsumerGroupId) (member_id : ConsumerId)
    (m : BrokerStateMachine) : result unit StateMachineError :=
  match m_member_lease_tasks m !! (group_id, member_id) with
  | None => Ok tt
  | Some ids => preflight_tasks group_id member_id (bset_iter ids) m
  end.

(** The loop of [requeue_member_leases]. *)
Fixpoint requeue_tasks (group_id : ConsumerGroupId) (member_id : ConsumerId)
    (ids : list TaskId) (requeued : N) (m : BrokerStateMachine) :
    result N StateMachineError * BrokerStateMachine :=
  match ids with
  | [] => (Ok requeued, m)
  | id :: ids =>
      let lease_identity :=
        match m_tasks m !! id with
        | Some t =>
            match t_state t with
            | Leased lease =>
                if negb (bool_decide (lt_group_id lease = group_id)) ||
                   negb (bool_decide (lt_owner_member_id lease = member_id))
                then None else Some (lt_lease_id lease, t_created_at_ms t)
            | _ => None
            end
        | None => None
        end in
      match lease_identity with
      | None => requeue_tasks group_id member_id ids requeued m
      | Some (lease_id, created_at_ms) =>
          let? t := ok_or (m_tasks m !! id) (TaskNotFound id) else m in
          let '(r, t') := requeue_for_member group_id member_id t in
          let m := with_tasks (<[id := t']> (m_tasks m)) m in
          let? did_requeue := map_err TaskTransition r else m in
          if negb did_requeue then requeue_tasks group_id member_id ids requeued m else
          let m := with_active_lease_tasks (delete lease_id (m_active_lease_tasks m)) m in
          let? t := ok_or (m_tasks m !! id) (TaskNotFound id) else m in
          let m := with_ready_tasks
                     (heap_map_push (t_namespace_id t) (created_at_ms, id) (m_ready_tasks m)) m in
          let m := mark_task id m in
          requeue_tasks group_id member_id ids (requeued + 1) m
      end
  end.

Definition requeue_member_leases (group_id : ConsumerGroupId) (member_id : ConsumerId)
    (m : BrokerStateMachine) : result N StateMachineError * BrokerStateMachine :=
  let key := (group_id, member_id) in
  let ids := default ∅ (m_member_lease_tasks m !! key) in
  let m := with_member_lease_tasks (delete key (m_member_lease_tasks m)) m in
  requeue_tasks group_id member_id (bset_iter ids) 0 m.

Definition leave_consumer_group (c : LeaveConsumerGroupCommand) (m : BrokerStateMachine) :
    result ConsumerGroupResult StateMachineError * BrokerStateMachine :=
  let? next := next_revision (m_revision m) else m in
  let? _ := preflight_member_lease_requeue (lv_group_id c) (lv_member_id c) m else m in
  let '(r, groups) := Coordinator_leave (lv_group_id c) (lv_member_id c)
                        (lv_expected_generation c) (m_groups m) in
  let m := with_groups groups m in
  let? _ := map_err from_coordinator_error r else m in
  let? g := ok_or (m_groups m !! lv_group_id c) (ConsumerGroupNotFound (lv_group_id c)) else m in
  let! _, m := requeue_member_leases (g_id g) (lv_member_id c) m in
  let m := with_revision next m in
  let m := mark_group (g_id g) m in
  (Ok (consumer_group_result (metadata m) g), m).

(** Candidates of one global reap, in [(heartbeat, group, member)] order. *)
Definition reap_candidates (stale_before_ms : TimestampMs) (groups : Groups) :
    list (TimestampMs * ConsumerGroupId * ConsumerId) :=
  merge_sort ole (concat ((λ '(gid, g),
    (λ member, (c_last_heartbeat_at_ms member, gid, c_id member)) <$>
      filter (λ member, c_last_heartbeat_at_ms member <= stale_before_ms)
        (bmap_values (g_consumers g))) <$> bmap_iter groups)).

Fixpoint select_members (candidates : list (TimestampMs * ConsumerGroupId * ConsumerId))
    (selected : gmap ConsumerGroupId (list ConsumerId)) :
    gmap ConsumerGroupId (list ConsumerId) :=
  match candidates with
  | [] => selected
  | (_, gid, mid) :: candidates =>
      select_members candidates (<[gid := (default [] (selected !! gid) ++ [mid])%list]> selected)
  end.

Fixpoint preflight_members (group_id : ConsumerGroupId) (ids : list ConsumerId)
    (m : BrokerStateMachine) : result unit StateMachineError :=
  match ids with
  | [] => Ok tt
  | id :: ids =>
      let^ _ := preflight_member_lease_requeue group_id id m in
      preflight_members group_id ids m
  end.

Fixpoint preflight_groups (selected : list (ConsumerGroupId * list ConsumerId))
    (m : BrokerStateMachine) : result unit StateMachineError :=
  match selected with
  | [] => Ok tt
  | (gid, ids) :: selected =>
      let^ g := ok_or (m_groups m !! gid) (ConsumerGroupNotFound gid) in
      let^ _ := map_err FencingValue (Generation_next (g_generation g)) in
      let^ _ := map_err FencingValue (Revision_next (g_revision g)) in
      let^ _ := preflight_members gid ids m in
      preflight_groups selected m
  end.

Fixpoint requeue_removed (group_id : ConsumerGroupId) (removed : list Consumer)
    (m : BrokerStateMachine) : result unit StateMachineError * BrokerStateMachine :=
  match removed with
  | [] => (Ok tt, m)
  | member :: removed =>
      let! _, m := requeue_member_leases group_id (c_id member) m in
      requeue_removed group_id removed m
  end.

Fixpoint reap_groups (stale_before_ms : TimestampMs)
    (selected : list (ConsumerGroupId * list ConsumerId)) (reaped_count : N)
    (affected : list ConsumerGroupId) (m : BrokerStateMachine) :
    result (N * list ConsumerGroupId) StateMachineError * BrokerStateMachine :=
  match selected with
  | [] => (Ok (reaped_count, affected), m)
  | (gid, ids) :: selected =>
      let '(r, groups) :=
        Coordinator_reap_stale_members gid stale_before_ms (len ids) (m_groups m) in
      let m := with_groups groups m in
      let? removed := map_err from_coordinator_error r else m in
      if is_nil removed then reap_groups stale_before_ms selected reaped_count affected m else
      let! _, m := requeue_removed gid removed m in
      reap_groups stale_before_ms selected (reaped_count + len removed) (affected ++ [gid])%list m
  end.

Definition reap_stale_members (c : ReapStaleMembersCommand) (m : BrokerStateMachine) :
    result StaleMembersReapedResult StateMachineError * BrokerStateMachine :=
  if rp_max_members c =? 0 then (Err (InvalidCapacity "max_members"), m) else
  let candidates := take_N (rp_max_members c)
                      (reap_candidates (rp_stale_before_ms c) (m_groups m)) in
  if is_nil candidates
  then (Ok {| sr_metadata := metadata m; sr_reaped_count := 0; sr_affected_group_count := 0 |}, m)
  else
  let selected := bmap_iter (select_members candidates ∅) in
  let? next := next_revision (m_revision m) else m in
  let? _ := preflight_groups selected m else m in
  let! (reaped_count, affected), m := reap_groups (rp_stale_before_ms c) selected 0 [] m in
  let m := if 0 <? reaped_count
           then with_changed_groups (list_to_set affected ∪ m_changed_groups m)
                  (with_revision next m)
           else m in
  (Ok {| sr_metadata := metadata m; sr_reaped_count := reaped_count;
         sr_affected_group_count := len affected |}, m).

(** ** Claiming *)

(** The [while let Some(..) = heap.pop()] loop of [pop_ready_task]. *)
Fixpoint pop_ready (tasks : gmap TaskId Task) (heap : list ReadyEntry) :
    option TaskId * list ReadyEntry :=
  match heap with
  | [] => (None, [])
  | (_, id) :: heap =>
      let is_ready := match tasks !! id with
                      | Some t => bool_decide (Task_status t = StatusQueued)
                      | None => false
                      end in
      if is_ready then (Some id, heap) else pop_ready tasks heap
  end.

Definition pop_ready_task (ns : NamespaceId) (m : BrokerStateMachine) :
    option TaskId * BrokerStateMachine :=
  match m_ready_tasks m !! ns with
  | None => (None, m)
  | Some heap =>
      let '(o, heap') := pop_ready (m_tasks m) heap in
      (o, with_ready_tasks (<[ns := heap']> (m_ready_tasks m)) m)
  end.

(** The loop popping due expirations and collecting the live ones. *)
Fixpoint pop_expired (tasks : gmap TaskId Task) (now_ms : TimestampMs)
    (heap : list ExpirationEntry) (candidates : gset TaskId) :
    gset TaskId * list ExpirationEntry :=
  match heap with
  | [] => (candidates, [])
  | (expires_at_ms, id, lease_epoch) :: rest =>
      if now_ms <? expires_at_ms then (candidates, heap) else
      let candidates :=
        match tasks !! id with
        | Some t =>
            match t_state t with
            | Leased lease =>
                if (lt_lease_epoch lease =? lease_epoch) && (lt_expires_at_ms lease =? expires_at_ms)
                then {[ id ]} ∪ candidates else candidates
            | _ => candidates
            end
        | None => candidates
        end in
      pop_expired tasks now_ms rest candidates
  end.

(** The loop requeueing the collected candidates. *)
Fixpoint requeue_expired (ns : NamespaceId) (now_ms : TimestampMs) (ids : list TaskId)
    (recovered : N) (m : BrokerStateMachine) :
    result N StateMachineError * BrokerStateMachine :=
  match ids with
  | [] => (Ok recovered, m)
  | id :: ids =>
      let lease_identity :=
        match m_tasks m !! id with
        | Some t =>
            match t_state t with
            | Leased lease => Some (lt_lease_id lease, lt_group_id lease,
                                    lt_owner_member_id lease, t_created_at_ms t)
            | _ => None
            end
        | None => None
        end in
      match lease_identity with
      | None => requeue_expired ns now_ms ids recovered m
      | Some (lease_id, group_id, member_id, created_at_ms) =>
          let? t := ok_or (m_tasks m !! id) (TaskNotFound id) else m in
          let '(r, t') := requeue_if_expired now_ms t in
          let m := with_tasks (<[id := t']> (m_tasks m)) m in
          let? requeued := map_err TaskTransition r else m in
          if negb requeued then requeue_expired ns now_ms ids recovered m else
          let m := with_active_lease_tasks (delete lease_id (m_active_lease_tasks m)) m in
          let m := remove_member_lease_task group_id member_id id m in
          let m := with_ready_tasks (heap_map_push ns (created_at_ms, id) (m_ready_tasks m)) m in
          let m := mark_task id m in
          requeue_expired ns now_ms ids (recovered + 1) m
      end
  end.

Definition recover_expired_leases (ns : NamespaceId) (now_ms : TimestampMs)
    (m : BrokerStateMachine) : result N StateMachineError * BrokerStateMachine :=
  match m_lease_expirations m !! ns with
  | None => (Ok 0, m)
  | Some heap =>
      let '(candidates, heap') := pop_expired (m_tasks m) now_ms heap ∅ in
      let m := with_lease_expirations (<[ns := heap']> (m_lease_expirations m)) m in
      requeue_expired ns now_ms (bset_iter candidates) 0 m
  end.

(** The tail of [claim_task], from the popped task on. *)
Definition lease_task (c : ClaimTaskCommand) (ns : NamespaceId) (generation : Generation)
    (id : TaskId) (m : BrokerStateMachine) :
    result TaskClaimResult StateMachineError * BrokerStateMachine :=
  let? expires_at_ms := checked_deadline (cl_now_ms c) (cl_lease_duration_ms c) else m in
  let? next := next_revision (m_revision m) else m in
  let? t := ok_or (m_tasks m !! id) (TaskNotFound id) else m in
  let '(r, t') := Task_claim {| lg_lease_id := cl_lease_id c; lg_owner_member_id := cl_member_id c;
                    lg_group_id := cl_group_id c; lg_generation := generation;
                    lg_expires_at_ms := expires_at_ms |} t in
  let m := with_tasks (<[id := t']> (m_tasks m)) m in
  let? _ := map_err TaskTransition r else m in
  match t_state t' with
  | Leased lease =>
      let m := with_active_lease_tasks (<[cl_lease_id c := id]> (m_active_lease_tasks m)) m in
      let key := (cl_group_id c, cl_member_id c) in
      let m := with_member_lease_tasks
                 (<[key := {[ id ]} ∪ default ∅ (m_member_lease_tasks m !! key)]>
                    (m_member_lease_tasks m)) m in
      let m := with_lease_expirations
                 (heap_map_push ns (expires_at_ms, id, lt_lease_epoch lease)
                    (m_lease_expirations m)) m in
      let m := mark_task id m in
      let m := with_revision next m in
      let? t := ok_or (m_tasks m !! id) (TaskNotFound id) else m in
      let res := task_claim_result generation (Some t) m in
      (Ok {| tc_metadata := tc_metadata res; tc_task_id := tc_task_id res;
             tc_objective := tc_objective res; tc_task_revision := Some (t_revision t');
             tc_lease_id := tc_lease_id res; tc_lease_epoch := tc_lease_epoch res;
             tc_lease_expires_at_ms := tc_lease_expires_at_ms res;
             tc_generation := tc_generation res |}, m)
  | _ => (Err (TaskTransition (NotLeased (Task_status t'))), m)
  end.

Definition claim_task (c : ClaimTaskCommand) (m : BrokerStateMachine) :
    result TaskClaimResult StateMachineError * BrokerStateMachine :=
  let? _ := require_term (cl_expected_term c) m else m in
  let? (ns, generation) := require_group_member (cl_group_id c) (cl_member_id c)
                             (cl_expected_generation c) m else m in
  match m_active_lease_tasks m !! cl_lease_id c with
  | Some existing =>
      let? t := ok_or (m_tasks m !! existing) (TaskNotFound existing) else m in
      match t_state t with
      | Leased lease =>
          if bool_decide (lt_owner_member_id lease = cl_member_id c) &&
             bool_decide (lt_group_id lease = cl_group_id c)
          then (Ok (task_claim_result generation (Some t) m), m)
          else (Err (LeaseIdConflict (cl_lease_id c)), m)
      | _ => (Err (LeaseIdConflict (cl_lease_id c)), m)
      end
  | None =>
      let! recovered, m := recover_expired_leases ns (cl_now_ms c) m in
      let '(popped, m) := pop_ready_task ns m in
      match popped with
      | None =>
          if 0 <? recovered then
            let? next := next_revision (m_revision m) else m in
            let m := with_revision next m in
            (Ok (task_claim_result generation None m), m)
          else (Ok (task_claim_result generation None m), m)
      | Some id => lease_task c ns generation id m
      end
  end.

(** ** Renewal and completion *)

Definition renew_task_lease (c : RenewTaskLeaseCommand) (m : BrokerStateMachine) :
    result TaskLeaseRenewedResult StateMachineError * BrokerStateMachine :=
  let? _ := require_term (rn_expected_term c) m else m in
  let? (_, generation) := require_group_member (rn_group_id c) (rn_member_id c)
                            (rn_expected_generation c) m else m in
  let? expires_at_ms := checked_deadline (rn_now_ms c) (rn_lease_duration_ms c) else m in
  let? next := next_revision (m_revision m) else m in
  let id := rn_task_id c in
  let? t := ok_or (m_tasks m !! id) (TaskNotFound id) else m in
  let ns := t_namespace_id t in
  let '(r, t') := Task_renew {| lf_lease_id := rn_lease_id c; lf_owner_member_id := rn_member_id c;
                    lf_group_id := rn_group_id c; lf_generation := rn_expected_generation c;
                    lf_lease_epoch := rn_expected_lease_epoch c;
                    lf_observed_at_ms := rn_now_ms c |} expires_at_ms t in
  let m := with_tasks (<[id := t']> (m_tasks m)) m in
  let? _ := map_err TaskTransition r else m in
  match t_state t' with
  | Leased lease =>
      let m := with_lease_expirations
                 (heap_map_push ns (expires_at_ms, id, lt_lease_epoch lease)
                    (m_lease_expirations m)) m in
      let m := mark_task id m in
      let m := with_revision next m in
      (Ok {| tr_metadata := metadata m; tr_task_id := id; tr_task_revision := t_revision t';
             tr_lease_id := rn_lease_id c; tr_lease_epoch := lt_lease_epoch lease;
             tr_lease_expires_at_ms := expires_at_ms; tr_generation := generation |}, m)
  | _ => (Err (TaskTransition (NotLeased (Task_status t'))), m)
  end.

Definition complete_task (c : CompleteTaskCommand) (m : BrokerStateMachine) :
    result TaskCompletedResult StateMachineError * BrokerStateMachine :=
  let? _ := require_term (cp_expected_term c) m else m in
  let? _ := require_group_member (cp_group_id c) (cp_member_id c)
              (cp_expected_generation c) m else m in
  let? next := next_revision (m_revision m) else m in
  let id := cp_task_id c in
  let? t := ok_or (m_tasks m !! id) (TaskNotFound id) else m in
  let '(r, t') := Task_complete {| lf_lease_id := cp_lease_id c;
                    lf_owner_member_id := cp_member_id c; lf_group_id := cp_group_id c;
                    lf_generation := cp_expected_generation c;
                    lf_lease_epoch := cp_expected_lease_epoch c;
                    lf_observed_at_ms := cp_completed_at_ms c |} (cp_result c) t in
  let m := with_tasks (<[id := t']> (m_tasks m)) m in
  let? outcome := map_err TaskTransition r else m in
  let m :=
    if decide (outcome = OutcomeCompleted) then
      let m := with_active_lease_tasks (delete (cp_lease_id c) (m_active_lease_tasks m)) m in
      let m := remove_member_lease_task (cp_group_id c) (cp_member_id c) id m in
      let m := with_completed_tasks
                 (heap_push (cp_completed_at_ms c, id) (m_completed_tasks m)) m in
      let m := mark_task id m in
      with_revision next m
    else m in
  (Ok {| td_metadata := metadata m; td_task_id := id; td_task_revision := t_revision t';
         td_status := Task_status t' |}, m).

(** ** Pruning and term advancement *)

(** The entry still names a task completed at that time: its namespace. *)
Definition completed_entry (tasks : gmap TaskId Task) (completed_at_ms : TimestampMs)
    (id : TaskId) : option NamespaceId :=
  match tasks !! id with
  | Some t =>
      match t_state t with
      | Completed ct =>
          if ct_completed_at_ms ct =? completed_at_ms then Some (t_namespace_id t) else None
      | _ => None
      end
  | None => None
  end.

(** The probing loop: the namespaces of the selected tasks, in heap order. *)
Fixpoint prune_select (tasks : gmap TaskId Task) (cutoff : TimestampMs) (max_tasks : N)
    (probe : list CompletedEntry) (selected : list NamespaceId) : list NamespaceId :=
  if max_tasks <=? len selected then selected else
  match probe with
  | [] => selected
  | (completed_at_ms, id) :: probe =>
      if cutoff <? completed_at_ms then selected else
      match completed_entry tasks completed_at_ms id with
      | Some ns => prune_select tasks cutoff max_tasks probe (selected ++ [ns])%list
      | None => prune_select tasks cutoff max_tasks probe selected
      end
  end.

Fixpoint count_namespaces (selected : list NamespaceId) (counts : gmap NamespaceId N) :
    gmap NamespaceId N :=
  match selected with
  | [] => counts
  | ns :: selected => count_namespaces selected (<[ns := default 0 (counts !! ns) + 1]> counts)
  end.

Fixpoint check_counts (per_namespace : list (NamespaceId * N)) (counts : gmap NamespaceId N) :
    result unit StateMachineError :=
  match per_namespace with
  | [] => Ok tt
  | (ns, selected_count) :: rest =>
      if default 0 (counts !! ns) <? selected_count then Err (TaskCountUnderflow ns)
      else check_counts rest counts
  end.

(** The deleting loop; [heap] is what [completed_tasks] still holds. *)
Fixpoint prune_loop (cutoff : TimestampMs) (target pruned : N) (heap : list CompletedEntry)
    (m : BrokerStateMachine) : result N StateMachineError * BrokerStateMachine :=
  if target <=? pruned then (Ok pruned, with_completed_tasks heap m) else
  match heap with
  | [] => (Ok pruned, with_completed_tasks [] m)
  | (completed_at_ms, id) :: rest =>
      if cutoff <? completed_at_ms
      then (Ok pruned, with_completed_tasks (heap_push (completed_at_ms, id) rest) m) else
      match completed_entry (m_tasks m) completed_at_ms id with
      | None => prune_loop cutoff target pruned rest m
      | Some ns =>
          let m := with_tasks (delete id (m_tasks m)) m in
          match m_namespace_task_counts m !! ns with
          | None => (Err (TaskCountUnderflow ns), with_completed_tasks rest m)
          | Some current_count =>
              let m := with_namespace_task_counts
                         (<[ns := current_count - 1]> (m_namespace_task_counts m)) m in
              let m := with_deleted_tasks ({[ id ]} ∪ m_deleted_tasks m) m in
              prune_loop cutoff target (pruned + 1) rest m
          end
      end
  end.

Definition prune_completed_tasks (c : PruneCompletedTasksCommand) (m : BrokerStateMachine) :
    result CompletedTasksPrunedResult StateMachineError * BrokerStateMachine :=
  if pr_max_tasks c =? 0 then (Err (InvalidCapacity "max_tasks"), m) else
  let selected := prune_select (m_tasks m) (pr_completed_before_ms c) (pr_max_tasks c)
                    (m_completed_tasks m) [] in
  if is_nil selected
  then (Ok {| cpr_metadata := metadata m; cpr_pruned_count := 0 |}, m) else
  let? _ := check_counts (bmap_iter (count_namespaces selected ∅))
              (m_namespace_task_counts m) else m in
  let? next := next_revision (m_revision m) else m in
  let! pruned, m := prune_loop (pr_completed_before_ms c) (len selected) 0
                      (m_completed_tasks m) m in
  let m := if 0 <? pruned then with_revision next m else m in
  (Ok {| cpr_metadata := metadata m; cpr_pruned_count := pruned |}, m).

Definition advance_term (c : AdvanceTermCommand) (m : BrokerStateMachine) :
    result TermAdvancedResult StateMachineError * BrokerStateMachine :=
  let? _ := require_term (at_expected_term c) m else m in
  if at_new_term c <=? s_term (m_state m)
  then (Err (NewTermNotGreater (s_term (m_state m)) (at_new_term c)), m) else
  let? next := next_revision (m_revision m) else m in
  let m := with_state (set_term (at_new_term c) (m_state m)) m in
  let m := with_revision next m in
  (Ok {| ta_metadata := metadata m |}, m).

(** ** Dispatch *)

Definition handle (cmd : BrokerCommand) (m : BrokerStateMachine) :
    result BrokerMutationResult StateMachineError * BrokerStateMachine :=
  match cmd with
  | EnsureNamespace c => prod_map (map_ok RNamespace) id (ensure_namespace c m)
  | PublishTask c => prod_map (map_ok RTaskPublished) id (publish_task c m)
  | EnsureConsumerGroup c => prod_map (map_ok RConsumerGroup) id (ensure_consumer_group c m)
  | JoinConsumerGroup c => prod_map (map_ok RConsumerGroup) id (join_consumer_group c m)
  | Heartbeat c => prod_map (map_ok RHeartbeat) id (heartbeat c m)
  | LeaveConsumerGroup c => prod_map (map_ok RConsumerGroup) id (leave_consumer_group c m)
  | ReapStaleMembers c => prod_map (map_ok RStaleMembersReaped) id (reap_stale_members c m)
  | ClaimTask c => prod_map (map_ok RTaskClaim) id (claim_task c m)
  | RenewTaskLease c => prod_map (map_ok RTaskLeaseRenewed) id (renew_task_lease c m)
  | CompleteTask c => prod_map (map_ok RTaskCompleted) id (complete_task c m)
  | PruneCompletedTasks c => prod_map (map_ok RCompletedTasksPruned) id (prune_completed_tasks c m)
  | AdvanceTerm c => prod_map (map_ok RTermAdvanced) id (advance_term c m)
  end.

Definition apply (cmd : BrokerCommand) (m : BrokerStateMachine) :
    result AppliedMutation StateMachineError * BrokerStateMachine :=
  let! res, m := handle cmd (clear_changes m) in
  (Ok {| am_result := res; am_changes := take_changes m |}, m).

(** Applying a log of commands, collecting every result. *)
Fixpoint apply_all (cmds : list BrokerCommand) (m : BrokerStateMachine) :
    list (result AppliedMutation StateMachineError) * BrokerStateMachine :=
  match cmds with
  | [] => ([], m)
  | cmd :: cmds =>
      let '(r, m) := apply cmd m in
      let '(rs, m) := apply_all cmds m in (r :: rs, m)
  end.
