(* ===== verification/Recovery.v ===== *)
(** * Logical checkpoints and recovery ([checkpoint.rs], [state_machine.rs])

    Export of the authoritative state, and its restoration together with a
    rebuild of every derived index. *)

From S2P Require Import Prelude Values Task Group Messages Machine.

Record NamespaceCheckpoint := { nck_namespace_id : NamespaceId; nck_revision : Revision }.

#[export] Instance NamespaceCheckpoint_eq_dec : EqDecision NamespaceCheckpoint.
Proof. solve_decision. Defined.

Record BrokerCheckpoint := {
  bck_term : Term;
  bck_revision : Revision;
  bck_namespaces : list NamespaceCheckpoint;
  bck_tasks : list TaskCheckpoint;
  bck_groups : list ConsumerGroupCheckpoint;
}.

#[export] Instance BrokerCheckpoint_eq_dec : EqDecision BrokerCheckpoint.
Proof. solve_decision. Defined.

Definition Namespace_checkpoint (n : Namespace) : NamespaceCheckpoint :=
  {| nck_namespace_id := n_id n; nck_revision := n_revision n |}.

Definition Namespace_from_checkpoint (ck : NamespaceCheckpoint) : Namespace :=
  {| n_id := nck_namespace_id ck; n_revision := nck_revision ck |}.

Definition BrokerState_checkpoint (s : BrokerState) : BrokerCheckpoint := {|
  bck_term := s_term s;
  bck_revision := s_revision s;
  bck_namespaces := Namespace_checkpoint <$> bmap_values (s_namespaces s);
  bck_tasks := Task_checkpoint <$> bmap_values (s_tasks s);
  bck_groups := Group_checkpoint <$> bmap_values (s_groups s);
|}.

(** ** Read-only views of the state *)

Definition group_summaries (s : BrokerState) : list ConsumerGroupSummary :=
  Group_summary <$> bmap_values (s_groups s).

Definition group_summary (s : BrokerState) (id : ConsumerGroupId) : option ConsumerGroupSummary :=
  Group_summary <$> s_groups s !! id.

Definition group_directory (s : BrokerState) : ConsumerGroupDirectory := {|
  gd_term := s_term s; gd_revision := s_revision s; gd_groups := group_summaries s;
|}.

(** ** Restoring the state *)

Definition require_positive_revision (entity : string) (r : Revision) :
    result unit CheckpointError :=
  if r =? 0 then Err (ZeroEntityRevision entity) else Ok tt.

Definition restore_namespace (ck : NamespaceCheckpoint) (s : BrokerState) :
    result BrokerState CheckpointError :=
  let^ _ := require_positive_revision "namespace" (nck_revision ck) in
  let id := nck_namespace_id ck in
  match s_namespaces s !! id with
  | Some _ => Err (DuplicateNamespace id)
  | None => Ok (set_namespaces (<[id := Namespace_from_checkpoint ck]> (s_namespaces s)) s)
  end.

Definition restore_group (ck : ConsumerGroupCheckpoint) (s : BrokerState) :
    result BrokerState CheckpointError :=
  let^ _ := require_positive_revision "Consumer Group" (gck_revision ck) in
  let^ _ := try_map (λ m, require_positive_revision "member" (mck_revision m)) (gck_members ck) in
  match s_namespaces s !! gck_namespace_id ck with
  | None => Err (UnknownNamespace "Consumer Group" (gck_namespace_id ck))
  | Some _ =>
      let^ g := Group_from_checkpoint ck in
      match s_groups s !! gck_group_id ck with
      | Some _ => Err (DuplicateConsumerGroup (gck_group_id ck))
      | None => Ok (set_groups (<[gck_group_id ck := g]> (s_groups s)) s)
      end
  end.

Definition restore_task (ck : TaskCheckpoint) (s : BrokerState) :
    result BrokerState CheckpointError :=
  let^ _ := require_positive_revision "task" (tck_revision ck) in
  match s_namespaces s !! tck_namespace_id ck with
  | None => Err (UnknownNamespace "task" (tck_namespace_id ck))
  | Some _ =>
      match s_tasks s !! tck_task_id ck with
      | Some _ => Err (DuplicateTask (tck_task_id ck))
      | None =>
          Ok (set_tasks (<[tck_task_id ck := Task_from_checkpoint ck]> (s_tasks s)) s)
      end
  end.

(** [for x in xs { restore(&mut state, x)?; }] *)
Fixpoint restore_all {A} (f : A → BrokerState → result BrokerState CheckpointError)
    (l : list A) (s : BrokerState) : result BrokerState CheckpointError :=
  match l with
  | [] => Ok s
  | x :: l => let^ s := f x s in restore_all f l s
  end.

Definition restore_state (ck : BrokerCheckpoint) : result BrokerState CheckpointError :=
  let s := {| s_term := bck_term ck; s_revision := bck_revision ck;
              s_namespaces := ∅; s_tasks := ∅; s_groups := ∅ |} in
  let^ s := restore_all restore_namespace (bck_namespaces ck) s in
  let^ s := restore_all restore_group (bck_groups ck) s in
  restore_all restore_task (bck_tasks ck) s.

(** ** Rebuilding the indexes *)

Record RestoredIndexes := MkIndexes {
  ri_ready_tasks : gmap NamespaceId (list ReadyEntry);
  ri_lease_expirations : gmap NamespaceId (list ExpirationEntry);
  ri_active_lease_tasks : gmap LeaseId TaskId;
  ri_member_lease_tasks : gmap (ConsumerGroupId * ConsumerId) (gset TaskId);
  ri_completed_tasks : list CompletedEntry;
  ri_namespace_task_counts : gmap NamespaceId N;
  ri_namespace_group_counts : gmap NamespaceId N;
}.

Definition RestoredIndexes_default : RestoredIndexes := MkIndexes ∅ ∅ ∅ ∅ [] ∅ ∅.

(** [*counts.entry(ns).or_default() += 1] *)
Definition bump (ns : NamespaceId) (counts : gmap NamespaceId N) : gmap NamespaceId N :=
  <[ns := default 0 (counts !! ns) + 1]> counts.

Definition bump_group (g : ConsumerGroup) (ix : RestoredIndexes) : RestoredIndexes :=
  let 'MkIndexes ready expirations active member completed tasks groups := ix in
  MkIndexes ready expirations active member completed tasks (bump (g_namespace_id g) groups).

Definition bump_task (t : Task) (ix : RestoredIndexes) : RestoredIndexes :=
  let 'MkIndexes ready expirations active member completed tasks groups := ix in
  MkIndexes ready expirations active member completed (bump (t_namespace_id t) tasks) groups.

Definition rebuild_task_indexes (t : Task) (ix : RestoredIndexes) :
    result RestoredIndexes CheckpointError :=
  let 'MkIndexes ready expirations active member completed tasks groups := ix in
  match t_state t with
  | Queued _ =>
      Ok (MkIndexes (heap_map_push (t_namespace_id t) (t_created_at_ms t, t_id t) ready)
            expirations active member completed tasks groups)
  | Leased lease =>
      match active !! lt_lease_id lease with
      | Some _ => Err (DuplicateActiveLease (lt_lease_id lease))
      | None =>
          let key := (lt_group_id lease, lt_owner_member_id lease) in
          Ok (MkIndexes ready
                (heap_map_push (t_namespace_id t)
                   (lt_expires_at_ms lease, t_id t, lt_lease_epoch lease) expirations)
                (<[lt_lease_id lease := t_id t]> active)
                (<[key := {[ t_id t ]} ∪ default ∅ (member !! key)]> member)
                completed tasks groups)
      end
  | Completed ct =>
      Ok (MkIndexes ready expirations active member
            (heap_push (ct_completed_at_ms ct, t_id t) completed) tasks groups)
  end.

(** The loop over the tasks of [rebuild_indexes]. *)
Fixpoint rebuild_tasks (l : list Task) (ix : RestoredIndexes) :
    result RestoredIndexes CheckpointError :=
  match l with
  | [] => Ok ix
  | t :: l => let^ ix := rebuild_task_indexes t (bump_task t ix) in rebuild_tasks l ix
  end.

Definition rebuild_indexes (s : BrokerState) : result RestoredIndexes CheckpointError :=
  rebuild_tasks (bmap_values (s_tasks s))
    (foldl (λ ix g, bump_group g ix) RestoredIndexes_default (bmap_values (s_groups s))).

Definition from_checkpoint (ck : BrokerCheckpoint) :
    result BrokerStateMachine CheckpointError :=
  let^ s := restore_state ck in
  let^ ix := rebuild_indexes s in
  Ok {| m_state := s;
        m_ready_tasks := ri_ready_tasks ix;
        m_lease_expirations := ri_lease_expirations ix;
        m_active_lease_tasks := ri_active_lease_tasks ix;
        m_member_lease_tasks := ri_member_lease_tasks ix;
        m_completed_tasks := ri_completed_tasks ix;
        m_namespace_task_counts := ri_namespace_task_counts ix;
        m_namespace_group_counts := ri_namespace_group_counts ix;
        m_changed_namespaces := ∅; m_changed_tasks := ∅; m_deleted_tasks := ∅;
        m_changed_groups := ∅ |}.
