(* ===== verification/Spec.v ===== *)
(** * Abstract specification of the broker

    The broker as a function of its authoritative state alone: no heaps, no
    reverse maps, no counters.  The state machine of [Machine.v] keeps those
    indexes to answer the same questions fast; [Refinement.v] proves that it
    answers them the same way. *)

From S2P Require Import Prelude Values Task Group Messages Machine.

(** A machine without indexes: handlers that read no index specify themselves
    when run on it. *)
Definition bare (s : BrokerState) : BrokerStateMachine :=
  with_state s BrokerStateMachine_default.

Definition on_state {A} (r : result A StateMachineError * BrokerStateMachine) :
    result A StateMachineError * BrokerState := (r.1, m_state r.2).

(** ** Questions about the state *)

Definition leased_by (g : ConsumerGroupId) (mid : ConsumerId) (t : Task) : bool :=
  match t_state t with
  | Leased l => bool_decide (lt_group_id l = g) && bool_decide (lt_owner_member_id l = mid)
  | _ => false
  end.

Definition holds_lease (lid : LeaseId) (t : Task) : bool :=
  match t_state t with
  | Leased l => bool_decide (lt_lease_id l = lid)
  | _ => false
  end.

Definition expired_in (ns : NamespaceId) (now : TimestampMs) (t : Task) : bool :=
  match t_state t with
  | Leased l => bool_decide (t_namespace_id t = ns) && (lt_expires_at_ms l <=? now)
  | _ => false
  end.

Definition queued_in (ns : NamespaceId) (t : Task) : bool :=
  match t_state t with
  | Queued _ => bool_decide (t_namespace_id t = ns)
  | _ => false
  end.

Definition completed_by (cutoff : TimestampMs) (t : Task) : bool :=
  match t_state t with
  | Completed c => ct_completed_at_ms c <=? cutoff
  | _ => false
  end.

Definition count_by {K V} `{Countable K} (f : V → NamespaceId) (ns : NamespaceId)
    (m : gmap K V) : N :=
  msize (filter (λ kv, f kv.2 = ns) m).

(** Queued tasks of a namespace, oldest first. *)
Definition ready_list (ns : NamespaceId) (tasks : gmap TaskId Task) : list ReadyEntry :=
  merge_sort ole (omap (λ '(id, t),
    if queued_in ns t then Some (t_created_at_ms t, id) else None) (map_to_list tasks)).

(** Completed tasks, earliest completion first. *)
Definition completed_list (tasks : gmap TaskId Task) : list CompletedEntry :=
  merge_sort ole (omap (λ '(id, t),
    match t_state t with
    | Completed c => Some (ct_completed_at_ms c, id)
    | _ => None
    end) (map_to_list tasks)).

(** The task that holds a lease id, if any. *)
Definition lease_holder (lid : LeaseId) (tasks : gmap TaskId Task) : option Task :=
  head (filter (λ t, holds_lease lid t = true) (bmap_values tasks)).

(** Requeue every task that satisfies [P]. *)
Definition requeue_where (P : Task → bool) (tasks : gmap TaskId Task) : gmap TaskId Task :=
  (λ t, if P t then requeued t else t) <$> tasks.

(** Requeueing the leases of one member would overflow no revision. *)
Definition requeue_check (g : ConsumerGroupId) (mid : ConsumerId) (tasks : gmap TaskId Task) :
    result unit StateMachineError :=
  if decide (map_Forall (λ _ t, leased_by g mid t = true → t_revision t < u64_max) tasks)
  then Ok tt else Err (FencingValue (Overflow "revision")).

(** ** Operations *)

Definition spec_publish (c : PublishTaskCommand) (s : BrokerState) :
    result TaskPublishedResult StateMachineError * BrokerState :=
  let ns := pt_namespace_id c in
  on_state (publish_task c
    (with_namespace_task_counts {[ ns := count_by t_namespace_id ns (s_tasks s) ]} (bare s))).

Definition spec_ensure_group (c : EnsureConsumerGroupCommand) (s : BrokerState) :
    result ConsumerGroupResult StateMachineError * BrokerState :=
  let ns := eg_namespace_id c in
  on_state (ensure_consumer_group c
    (with_namespace_group_counts {[ ns := count_by g_namespace_id ns (s_groups s) ]} (bare s))).

Definition spec_leave (c : LeaveConsumerGroupCommand) (s : BrokerState) :
    result ConsumerGroupResult StateMachineError * BrokerState :=
  let gid := lv_group_id c in
  let mid := lv_member_id c in
  let? next := next_revision (s_revision s) else s in
  let? _ := requeue_check gid mid (s_tasks s) else s in
  match s_groups s !! gid with
  | None => (Err (ConsumerGroupNotFound gid), s)
  | Some g =>
      match Group_leave mid (lv_expected_generation c) g with
      | (Err e, _) => (Err (ConsumerGroupTransition e), s)
      | (Ok _, g') =>
          let s' := {| s_term := s_term s; s_revision := next; s_namespaces := s_namespaces s;
                       s_tasks := requeue_where (leased_by gid mid) (s_tasks s);
                       s_groups := <[gid := g']> (s_groups s) |} in
          (Ok (consumer_group_result (metadata (bare s')) g'), s')
      end
  end.

Definition spec_claim (c : ClaimTaskCommand) (s : BrokerState) :
    result TaskClaimResult StateMachineError * BrokerState :=
  let? _ := require_term (cl_expected_term c) (bare s) else s in
  let? (ns, generation) := require_group_member (cl_group_id c) (cl_member_id c)
                             (cl_expected_generation c) (bare s) else s in
  match lease_holder (cl_lease_id c) (s_tasks s) with
  | Some t =>
      if leased_by (cl_group_id c) (cl_member_id c) t
      then (Ok (task_claim_result generation (Some t) (bare s)), s)
      else (Err (LeaseIdConflict (cl_lease_id c)), s)
  | None =>
      let tasks := requeue_where (expired_in ns (cl_now_ms c)) (s_tasks s) in
      match head (ready_list ns tasks) with
      | None => (Ok (task_claim_result generation None (bare s)), s)
      | Some (_, id) =>
          let? expires_at_ms := checked_deadline (cl_now_ms c) (cl_lease_duration_ms c) else s in
          let? next := next_revision (s_revision s) else s in
          let? t := ok_or (tasks !! id) (TaskNotFound id) else s in
          let t' := claimed {| lg_lease_id := cl_lease_id c; lg_owner_member_id := cl_member_id c;
                      lg_group_id := cl_group_id c; lg_generation := generation;
                      lg_expires_at_ms := expires_at_ms |} t in
          let s' := {| s_term := s_term s; s_revision := next; s_namespaces := s_namespaces s;
                       s_tasks := <[id := t']> tasks; s_groups := s_groups s |} in
          (Ok (task_claim_result generation (Some t') (bare s')), s')
      end
  end.

Definition spec_prune (c : PruneCompletedTasksCommand) (s : BrokerState) :
    result CompletedTasksPrunedResult StateMachineError * BrokerState :=
  if pr_max_tasks c =? 0 then (Err (InvalidCapacity "max_tasks"), s) else
  let victims := take_N (pr_max_tasks c)
    (filter (λ e, e.1 <= pr_completed_before_ms c) (completed_list (s_tasks s))) in
  if is_nil victims
  then (Ok {| cpr_metadata := metadata (bare s); cpr_pruned_count := 0 |}, s) else
  let? next := next_revision (s_revision s) else s in
  let s' := {| s_term := s_term s; s_revision := next; s_namespaces := s_namespaces s;
               s_tasks := filter (λ kv, kv.1 ∉ victims.*2) (s_tasks s);
               s_groups := s_groups s |} in
  (Ok {| cpr_metadata := metadata (bare s'); cpr_pruned_count := len victims |}, s').

(** *** Reaping *)

(** The members one reap removes: the globally oldest stale heartbeats. *)
Definition reap_victims (c : ReapStaleMembersCommand) (s : BrokerState) :
    list (ConsumerGroupId * ConsumerId) :=
  (λ e, (e.1.2, e.2)) <$>
    take_N (rp_max_members c) (reap_candidates (rp_stale_before_ms c) (s_groups s)).

Definition victims_in (gid : ConsumerGroupId) (victims : list (ConsumerGroupId * ConsumerId)) :
    list ConsumerId :=
  omap (λ v, if decide (v.1 = gid) then Some v.2 else None) victims.

Fixpoint requeue_checks (gid : ConsumerGroupId) (mids : list ConsumerId)
    (tasks : gmap TaskId Task) : result unit StateMachineError :=
  match mids with
  | [] => Ok tt
  | mid :: mids => let^ _ := requeue_check gid mid tasks in requeue_checks gid mids tasks
  end.

(** Counters of the affected groups and of their members' leases can advance;
    groups are checked in id order. *)
Fixpoint reap_check (gids : list ConsumerGroupId) (victims : list (ConsumerGroupId * ConsumerId))
    (s : BrokerState) : result unit StateMachineError :=
  match gids with
  | [] => Ok tt
  | gid :: gids =>
      let^ g := ok_or (s_groups s !! gid) (ConsumerGroupNotFound gid) in
      let^ _ := map_err FencingValue (Generation_next (g_generation g)) in
      let^ _ := map_err FencingValue (Revision_next (g_revision g)) in
      let^ _ := requeue_checks gid (victims_in gid victims) (s_tasks s) in
      reap_check gids victims s
  end.

(** Remove the victims of one group; an affected group advances once. *)
Definition reap_group (victims : list (ConsumerGroupId * ConsumerId)) (gid : ConsumerGroupId)
    (g : ConsumerGroup) : ConsumerGroup :=
  match victims_in gid victims with
  | [] => g
  | mids => group_set g (g_generation g + 1) (g_revision g + 1)
              (filter (λ kv, kv.1 ∉ mids) (g_consumers g))
  end.

Definition leased_by_any (victims : list (ConsumerGroupId * ConsumerId)) (t : Task) : bool :=
  existsb (λ v, leased_by v.1 v.2 t) victims.

Definition spec_reap (c : ReapStaleMembersCommand) (s : BrokerState) :
    result StaleMembersReapedResult StateMachineError * BrokerState :=
  if rp_max_members c =? 0 then (Err (InvalidCapacity "max_members"), s) else
  let victims := reap_victims c s in
  if is_nil victims
  then (Ok {| sr_metadata := metadata (bare s); sr_reaped_count := 0;
              sr_affected_group_count := 0 |}, s) else
  let gids := bset_iter (list_to_set victims.*1) in
  let? next := next_revision (s_revision s) else s in
  let? _ := reap_check gids victims s else s in
  let s' := {| s_term := s_term s; s_revision := next; s_namespaces := s_namespaces s;
               s_tasks := requeue_where (leased_by_any victims) (s_tasks s);
               s_groups := map_imap (λ gid g, Some (reap_group victims gid g)) (s_groups s) |} in
  (Ok {| sr_metadata := metadata (bare s'); sr_reaped_count := len victims;
         sr_affected_group_count := len gids |}, s').

(** ** The specified broker *)

Definition spec_handle (cmd : BrokerCommand) (s : BrokerState) :
    result BrokerMutationResult StateMachineError * BrokerState :=
  match cmd with
  | PublishTask c => prod_map (map_ok RTaskPublished) id (spec_publish c s)
  | EnsureConsumerGroup c => prod_map (map_ok RConsumerGroup) id (spec_ensure_group c s)
  | LeaveConsumerGroup c => prod_map (map_ok RConsumerGroup) id (spec_leave c s)
  | ReapStaleMembers c => prod_map (map_ok RStaleMembersReaped) id (spec_reap c s)
  | ClaimTask c => prod_map (map_ok RTaskClaim) id (spec_claim c s)
  | PruneCompletedTasks c => prod_map (map_ok RCompletedTasksPruned) id (spec_prune c s)
  | _ => on_state (handle cmd (bare s))
  end.
