(* ===== verification/Invariant.v ===== *)
(** * The invariant of the authoritative state

    Well-formed keys and revisions, referential integrity, and exclusive
    leases; every specified operation keeps it. *)

From S2P Require Import Prelude Values Task Group Messages Machine Spec.

(** A leased task belongs to a current member of an existing group of its own
    namespace, and was granted in a generation the group has reached. *)
Definition lease_ok (groups : gmap ConsumerGroupId ConsumerGroup) (t : Task) : Prop :=
  ∀ l, t_state t = Leased l →
    ∃ g, groups !! lt_group_id l = Some g ∧ g_namespace_id g = t_namespace_id t ∧
         is_Some (g_consumers g !! lt_owner_member_id l) ∧
         lt_generation l ≤ g_generation g.

(** No lease id is held by two tasks. *)
Definition leases_exclusive (tasks : gmap TaskId Task) : Prop :=
  ∀ id1 id2 t1 t2 lid, tasks !! id1 = Some t1 → tasks !! id2 = Some t2 →
    holds_lease lid t1 = true → holds_lease lid t2 = true → id1 = id2.

Record StateInv (s : BrokerState) : Prop := {
  si_term : 0 < s_term s;
  si_namespaces : map_Forall (λ id n, n_id n = id ∧ 0 < n_revision n) (s_namespaces s);
  si_tasks : map_Forall (λ id t, t_id t = id ∧ 0 < t_revision t ∧
                                 is_Some (s_namespaces s !! t_namespace_id t)) (s_tasks s);
  si_groups : map_Forall (λ id g, g_id g = id ∧ group_ok g ∧
                                  is_Some (s_namespaces s !! g_namespace_id g)) (s_groups s);
  si_leases : map_Forall (λ _ t, lease_ok (s_groups s) t) (s_tasks s);
  si_unique : leases_exclusive (s_tasks s);
}.

(** ** Updates that keep the invariant *)

(** A lease after the update is one from before it. *)
Definition lease_kept (t t' : Task) : Prop :=
  ∀ l', t_state t' = Leased l' →
    ∃ l, t_state t = Leased l ∧ lt_lease_id l' = lt_lease_id l ∧
         lt_group_id l' = lt_group_id l ∧ lt_owner_member_id l' = lt_owner_member_id l ∧
         lt_generation l' = lt_generation l.

Lemma lease_kept_refl t : lease_kept t t.
Proof. intros l Hl. eauto 10. Qed.

Lemma lease_kept_unleased t t' : Task_status t' ≠ StatusLeased → lease_kept t t'.
Proof. intros Hst l Hl. unfold Task_status in Hst. by rewrite Hl in Hst. Qed.

(** Tasks evolve or disappear; groups evolve and keep the members that hold
    leases. *)
Record state_update (s s' : BrokerState) : Prop := {
  su_term : s_term s ≤ s_term s';
  su_namespaces : s_namespaces s' = s_namespaces s;
  su_tasks id t' : s_tasks s' !! id = Some t' →
    ∃ t, s_tasks s !! id = Some t ∧ task_evolves t t' ∧ lease_kept t t';
  su_groups id : option_Forall2 (λ g g', group_ok g' ∧ group_evolves g g')
    (s_groups s !! id) (s_groups s' !! id);
  su_members id g g' mid : s_groups s !! id = Some g → s_groups s' !! id = Some g' →
    is_Some (g_consumers g !! mid) → g_consumers g' !! mid = None →
    map_Forall (λ _ t, leased_by id mid t = false) (s_tasks s');
}.

Lemma holds_lease_kept t t' lid :
  lease_kept t t' → holds_lease lid t' = true → holds_lease lid t = true.
Proof.
  unfold holds_lease. intros Hk. destruct (t_state t') as [|l'|] eqn:E; [done| |done].
  destruct (Hk l' E) as (l & -> & -> & _). done.
Qed.

Lemma leased_by_leased t l :
  t_state t = Leased l → leased_by (lt_group_id l) (lt_owner_member_id l) t = true.
Proof. unfold leased_by. intros ->. by rewrite !bool_decide_true. Qed.

Lemma StateInv_update s s' : StateInv s → state_update s s' → StateInv s'.
Proof.
  intros [Hterm Hns Ht Hg Hl Hu] [Uterm Uns Ut Ug Um]. constructor.
  - lia.
  - by rewrite Uns.
  - intros id t' (t & Hid & He & _)%Ut. destruct (Ht id t Hid) as (H1 & H2 & H3).
    destruct He. rewrite Uns, te_namespace, te_id. split_and!; [done|lia|done].
  - intros id g' Hg'. specialize (Ug id). rewrite Hg' in Ug.
    inversion Ug as [g ? [Hok He] Heq|]; subst. symmetry in Heq.
    destruct (Hg id g Heq) as (H1 & _ & H3). destruct He.
    rewrite Uns, ge_namespace, ge_id. done.
  - intros id t' Ht' l' Hl'. pose proof Ht' as (t & Hid & He & Hk)%Ut.
    destruct (Hk l' Hl') as (l & Hst & _ & Hgid & Hown & Hgen).
    destruct (Hl id t Hid l Hst) as (g & Hgl & Hgns & Hmem & Hge).
    pose proof (Ug (lt_group_id l)) as Hug. rewrite Hgl in Hug.
    inversion Hug as [? g' [Hok Hev] Heq1 Heq2|]; subst. exists g'.
    rewrite Hgid, Hown, Hgen. split_and!; [done| | |].
    + rewrite (ge_namespace _ _ Hev), Hgns. symmetry. apply He.
    + destruct (g_consumers g' !! lt_owner_member_id l) eqn:E; [done|].
      pose proof (Um _ g g' _ Hgl (eq_sym Heq2) Hmem E id t' Ht') as Hno. simpl in Hno.
      rewrite <-Hgid, <-Hown, leased_by_leased in Hno by done. done.
    + pose proof (ge_generation _ _ Hev). lia.
  - intros id1 id2 t1 t2 lid (u1 & H1 & _ & K1)%Ut (u2 & H2 & _ & K2)%Ut L1 L2.
    eapply Hu; [exact H1|exact H2|by eapply holds_lease_kept..].
Qed.

(** * The index invariant of the state machine

    What each derived index of [BrokerStateMachine] says about the tasks and
    groups it indexes, and how the primitive task updates (insert, lease,
    renew, complete, requeue, delete) carry it over. *)

(** ** What each index says *)

Definition heap_at {A} (hm : gmap NamespaceId (list A)) (ns : NamespaceId) : list A :=
  default [] (hm !! ns).

(** The ready heap of a namespace holds exactly its queued tasks, once each. *)
Definition ready_ok (tasks : gmap TaskId Task) (ready : gmap NamespaceId (list ReadyEntry)) : Prop :=
  ∀ ns, sorted (heap_at ready ns) ∧ NoDup (heap_at ready ns) ∧
    ∀ c id, (c, id) ∈ heap_at ready ns ↔
      ∃ t, tasks !! id = Some t ∧ t_created_at_ms t = c ∧ queued_in ns t = true.

(** The expiration heap of a namespace holds an entry for every lease of it,
    apart from the tasks of [pending]; it may hold stale entries, but only of
    tasks of that namespace. *)
Definition exps_ok (pending : gset TaskId) (tasks : gmap TaskId Task)
    (exps : gmap NamespaceId (list ExpirationEntry)) : Prop :=
  (∀ ns, sorted (heap_at exps ns)) ∧
  (∀ id t l, tasks !! id = Some t → t_state t = Leased l → id ∉ pending →
     (lt_expires_at_ms l, id, lt_lease_epoch l) ∈ heap_at exps (t_namespace_id t)) ∧
  (∀ ns e id ep t, (e, id, ep) ∈ heap_at exps ns → tasks !! id = Some t → t_namespace_id t = ns).

Definition active_ok (tasks : gmap TaskId Task) (active : gmap LeaseId TaskId) : Prop :=
  ∀ lid id, active !! lid = Some id ↔ ∃ t, tasks !! id = Some t ∧ holds_lease lid t = true.

Definition member_ok (tasks : gmap TaskId Task)
    (member : gmap (ConsumerGroupId * ConsumerId) (gset TaskId)) : Prop :=
  ∀ g mid id, id ∈ default ∅ (member !! (g, mid)) ↔
    ∃ t, tasks !! id = Some t ∧ leased_by g mid t = true.

Definition completed_at (c : TimestampMs) (t : Task) : bool :=
  match t_state t with Completed ct => ct_completed_at_ms ct =? c | _ => false end.

Definition completed_ok (tasks : gmap TaskId Task) (heap : list CompletedEntry) : Prop :=
  sorted heap ∧ NoDup heap ∧
  ∀ c id, (c, id) ∈ heap ↔ ∃ t, tasks !! id = Some t ∧ completed_at c t = true.

Definition counts_ok {K V} `{Countable K} (f : V → NamespaceId) (m : gmap K V)
    (counts : gmap NamespaceId N) : Prop :=
  ∀ ns, default 0 (counts !! ns) = count_by f ns m.

Record IndexInv (pending : gset TaskId) (m : BrokerStateMachine) : Prop := {
  ii_ready : ready_ok (m_tasks m) (m_ready_tasks m);
  ii_exps : exps_ok pending (m_tasks m) (m_lease_expirations m);
  ii_active : active_ok (m_tasks m) (m_active_lease_tasks m);
  ii_member : member_ok (m_tasks m) (m_member_lease_tasks m);
  ii_completed : completed_ok (m_tasks m) (m_completed_tasks m);
  ii_task_counts : counts_ok t_namespace_id (m_tasks m) (m_namespace_task_counts m);
  ii_group_counts : counts_ok g_namespace_id (m_groups m) (m_namespace_group_counts m);
}.

(** ** Counting *)

Section counting.
Context {K V : Type} `{Countable K} (f : V → NamespaceId).
Implicit Types (m : gmap K V) (k : K) (v : V).

Lemma count_by_empty ns : count_by f ns (∅ : gmap K V) = 0.
Proof. unfold count_by, msize. by rewrite map_filter_empty, map_size_empty. Qed.

Lemma count_by_insert_new ns m k v :
  m !! k = None →
  count_by f ns (<[k := v]> m) = count_by f ns m + (if decide (f v = ns) then 1 else 0).
Proof.
  intros Hk. unfold count_by, msize. case_decide as Hv.
  - rewrite map_filter_insert_True by done.
    rewrite map_size_insert_None; [lia|]. apply map_lookup_filter_None. by left.
  - rewrite map_filter_insert_False by done.
    rewrite delete_id by done. lia.
Qed.

Lemma count_by_delete ns m k v :
  m !! k = Some v →
  count_by f ns m = count_by f ns (delete k m) + (if decide (f v = ns) then 1 else 0).
Proof.
  intros Hk. rewrite <-(insert_delete_id m k v Hk) at 1.
  apply count_by_insert_new, lookup_delete_eq.
Qed.

Lemma count_by_insert_same ns m k v v' :
  m !! k = Some v → f v' = f v → count_by f ns (<[k := v']> m) = count_by f ns m.
Proof.
  intros Hk Hf. rewrite (count_by_delete ns m k v Hk), <-Hf, <-insert_delete_eq.
  apply count_by_insert_new, lookup_delete_eq.
Qed.

Lemma counts_ok_new m counts k v :
  m !! k = None → counts_ok f m counts →
  counts_ok f (<[k := v]> m) (<[f v := default 0 (counts !! f v) + 1]> counts).
Proof.
  intros Hk Hc ns. rewrite count_by_insert_new by done. rewrite lookup_insert.
  case_decide as Hv; [rewrite <-Hv; simpl; by rewrite Hc|]. rewrite Hc. lia.
Qed.

Lemma counts_ok_same m counts k v v' :
  m !! k = Some v → f v' = f v → counts_ok f m counts → counts_ok f (<[k := v']> m) counts.
Proof. intros Hk Hf Hc ns. by rewrite (count_by_insert_same ns m k v v'). Qed.

Lemma counts_ok_delete m counts k v n :
  m !! k = Some v → counts !! f v = Some n → counts_ok f m counts →
  counts_ok f (delete k m) (<[f v := n - 1]> counts).
Proof.
  intros Hk Hn Hc ns. specialize (Hc ns). rewrite (count_by_delete ns m k v Hk) in Hc.
  rewrite lookup_insert. case_decide as Hv; [|simpl in *; lia].
  subst ns. rewrite Hn in Hc. simpl in *. lia.
Qed.
End counting.

(** ** Heaps kept per namespace *)

Lemma heap_at_push `{Ord A} (hm : gmap NamespaceId (list A)) ns x ns' :
  heap_at (heap_map_push ns x hm) ns' =
    if decide (ns = ns') then heap_push x (heap_at hm ns') else heap_at hm ns'.
Proof.
  unfold heap_at, heap_map_push. rewrite lookup_insert.
  case_decide; [by subst|done].
Qed.

Lemma heap_at_insert {A} (hm : gmap NamespaceId (list A)) ns h ns' :
  heap_at (<[ns := h]> hm) ns' = if decide (ns = ns') then h else heap_at hm ns'.
Proof. unfold heap_at. rewrite lookup_insert. by case_decide. Qed.

(** The predicates select a state of the task. *)
Lemma queued_in_true ns t :
  queued_in ns t = true ↔ Task_status t = StatusQueued ∧ t_namespace_id t = ns.
Proof.
  unfold queued_in, Task_status. destruct (t_state t); simpl; [|naive_solver..].
  rewrite bool_decide_eq_true. naive_solver.
Qed.

Lemma holds_lease_true lid t :
  holds_lease lid t = true ↔ ∃ l, t_state t = Leased l ∧ lt_lease_id l = lid.
Proof.
  unfold holds_lease. destruct (t_state t); [naive_solver| |naive_solver].
  rewrite bool_decide_eq_true. naive_solver.
Qed.

Lemma leased_by_true g mid t :
  leased_by g mid t = true ↔
  ∃ l, t_state t = Leased l ∧ lt_group_id l = g ∧ lt_owner_member_id l = mid.
Proof.
  unfold leased_by. destruct (t_state t); [naive_solver| |naive_solver].
  rewrite andb_true_iff, !bool_decide_eq_true. naive_solver.
Qed.

Lemma expired_in_true ns now t :
  expired_in ns now t = true ↔
  ∃ l, t_state t = Leased l ∧ t_namespace_id t = ns ∧ lt_expires_at_ms l ≤ now.
Proof.
  unfold expired_in. destruct (t_state t); [naive_solver| |naive_solver].
  rewrite andb_true_iff, bool_decide_eq_true, N.leb_le. naive_solver.
Qed.

Lemma completed_at_true c t :
  completed_at c t = true ↔ ∃ ct, t_state t = Completed ct ∧ ct_completed_at_ms ct = c.
Proof.
  unfold completed_at. destruct (t_state t); [naive_solver..|].
  rewrite N.eqb_eq. naive_solver.
Qed.

(** ** Index transitions

    [t] is the stored task that [id] names, if any, and [t'] what replaces it. *)

Section transitions.
Context (tasks : gmap TaskId Task) (id : TaskId) (t' : Task).
Implicit Types (ready : gmap NamespaceId (list ReadyEntry)).

(** What a membership statement of an index says after the update. *)
Lemma exists_insert (P : Task → Prop) i :
  (∃ t, <[id := t']> tasks !! i = Some t ∧ P t) ↔
  (i = id ∧ P t') ∨ (i ≠ id ∧ ∃ t, tasks !! i = Some t ∧ P t).
Proof.
  rewrite lookup_insert. case_decide; subst; naive_solver.
Qed.

Lemma exists_delete (P : Task → Prop) i :
  (∃ t, delete id tasks !! i = Some t ∧ P t) ↔
  (i ≠ id ∧ ∃ t, tasks !! i = Some t ∧ P t).
Proof. rewrite lookup_delete. case_decide; subst; naive_solver. Qed.

Lemma ready_ok_push ready ns c :
  ready_ok tasks ready → queued_in ns t' = true → t_created_at_ms t' = c →
  (∀ t, tasks !! id = Some t → Task_status t ≠ StatusQueued) →
  ready_ok (<[id := t']> tasks) (heap_map_push ns (c, id) ready).
Proof.
  intros Hr [Hq Hn]%queued_in_true Hc Hold ns'. destruct (Hr ns') as (Hs & Hnd & Hin).
  assert (∀ c', (c', id) ∉ heap_at ready ns') as Hnot.
  { intros c' (t & Ht & _ & [Hq' _]%queued_in_true)%Hin. by eapply Hold. }
  rewrite heap_at_push. case_decide as Hd; [subst ns'|].
  - split_and!; [by apply heap_push_sorted|by apply heap_push_nodup|].
    intros c' i. rewrite elem_of_heap_push, Hin, exists_insert, !queued_in_true.
    destruct (decide (i = id)); naive_solver.
  - split_and!; [done..|]. intros c' i. rewrite Hin, exists_insert, queued_in_true.
    destruct (decide (i = id)); naive_solver.
Qed.

Lemma ready_ok_frame ready :
  ready_ok tasks ready → Task_status t' ≠ StatusQueued →
  (∀ t, tasks !! id = Some t → Task_status t ≠ StatusQueued) →
  ready_ok (<[id := t']> tasks) ready.
Proof.
  intros Hr Hq Hold ns'. destruct (Hr ns') as (Hs & Hnd & Hin).
  split_and!; [done..|]. intros c' i. rewrite Hin, exists_insert.
  setoid_rewrite queued_in_true. destruct (decide (i = id)); naive_solver.
Qed.

Lemma ready_ok_pop ready ns c h t :
  ready_ok tasks ready → Task_status t' ≠ StatusQueued →
  heap_at ready ns = (c, id) :: h → tasks !! id = Some t →
  ready_ok (<[id := t']> tasks) (<[ns := h]> ready).
Proof.
  intros Hr Hq Hh Ht ns'. destruct (Hr ns') as (Hs & Hnd & Hin).
  assert (t_namespace_id t = ns ∧ t_created_at_ms t = c) as [Hn Hc].
  { destruct (Hr ns) as (_ & _ & Hin').
    destruct (proj1 (Hin' c id)) as (t2 & ? & ? & [_ ?]%queued_in_true);
      [rewrite Hh; by left|]. naive_solver. }
  rewrite heap_at_insert. case_decide as Hd; [subst ns'|].
  - rewrite Hh in Hs, Hnd, Hin. apply NoDup_cons in Hnd as [Hni Hnd].
    split_and!; [by eapply sorted_tail|done|].
    intros c' i. specialize (Hin c' i). rewrite elem_of_cons in Hin.
    rewrite exists_insert. setoid_rewrite queued_in_true. setoid_rewrite queued_in_true in Hin.
    destruct (decide (i = id)) as [->|]; [|naive_solver].
    split; [|naive_solver]. intros Hi. destruct (proj1 Hin) as (?&?&?&?&?); [by right|].
    simplify_eq.
  - split_and!; [done..|]. intros c' i. rewrite Hin, exists_insert.
    setoid_rewrite queued_in_true. destruct (decide (i = id)); naive_solver.
Qed.

Lemma ready_ok_delete ready :
  ready_ok tasks ready → (∀ t, tasks !! id = Some t → Task_status t ≠ StatusQueued) →
  ready_ok (delete id tasks) ready.
Proof.
  intros Hr Hold ns'. destruct (Hr ns') as (Hs & Hnd & Hin).
  split_and!; [done..|]. intros c' i. rewrite Hin, exists_delete.
  setoid_rewrite queued_in_true. destruct (decide (i = id)); naive_solver.
Qed.

(** *** Expiration heaps *)

Lemma exps_ok_unleased pending exps t :
  exps_ok pending tasks exps → tasks !! id = Some t →
  t_namespace_id t' = t_namespace_id t → Task_status t' ≠ StatusLeased →
  exps_ok (pending ∖ {[ id ]}) (<[id := t']> tasks) exps.
Proof.
  intros (Hs & Hc & Hl) Ht Hn Hst. split_and!; [done| |].
  - intros i u l. rewrite lookup_insert. case_decide as Hi.
    + intros [= <-] Hu. unfold Task_status in Hst. by rewrite Hu in Hst.
    + intros Hu Hul Hp. apply Hc; [done..|]. set_solver.
  - intros ns e i ep u Hin. rewrite lookup_insert. case_decide; [|eauto].
    intros [= <-]. subst i. rewrite Hn. eauto.
Qed.

Lemma exps_ok_new exps :
  exps_ok ∅ tasks exps → Task_status t' ≠ StatusLeased →
  (∀ ns e ep, (e, id, ep) ∈ heap_at exps ns → t_namespace_id t' = ns) →
  exps_ok ∅ (<[id := t']> tasks) exps.
Proof.
  intros (Hs & Hc & Hl) Hst Hloc. split_and!; [done| |].
  - intros i u l. rewrite lookup_insert. case_decide as Hi; [|eauto].
    intros [= <-] Hu. unfold Task_status in Hst. by rewrite Hu in Hst.
  - intros ns e i ep u Hin. rewrite lookup_insert. case_decide; [|eauto].
    intros [= <-]. subst i. eauto.
Qed.

Lemma exps_ok_push exps l ns :
  exps_ok ∅ tasks exps → t_namespace_id t' = ns → t_state t' = Leased l →
  (∀ ns' e ep, (e, id, ep) ∈ heap_at exps ns' → ns' = ns) →
  exps_ok ∅ (<[id := t']> tasks)
    (heap_map_push ns (lt_expires_at_ms l, id, lt_lease_epoch l) exps).
Proof.
  intros (Hs & Hc & Hl) Hn' Hst Hloc. split_and!.
  - intros ns'. rewrite heap_at_push. case_decide; [by apply heap_push_sorted|done].
  - intros i u k. rewrite lookup_insert. case_decide as Hi.
    + intros [= <-] Hu _. rewrite Hst in Hu. simplify_eq. rewrite heap_at_push, decide_True by done.
      apply elem_of_heap_push. by left.
    + intros Hu Huk Hp. rewrite heap_at_push.
      case_decide; [apply elem_of_heap_push; right|]; eauto.
  - intros ns' e i ep u. rewrite heap_at_push, lookup_insert.
    repeat case_decide; rewrite ?elem_of_heap_push; naive_solver.
Qed.

Lemma exps_ok_lease exps t l ns :
  exps_ok ∅ tasks exps → tasks !! id = Some t → t_namespace_id t = ns →
  t_namespace_id t' = ns → t_state t' = Leased l →
  exps_ok ∅ (<[id := t']> tasks)
    (heap_map_push ns (lt_expires_at_ms l, id, lt_lease_epoch l) exps).
Proof.
  intros Hx Ht <- Hn' Hst. apply exps_ok_push; [done..|].
  intros ns' e ep Hin. symmetry. by eapply Hx.
Qed.

Lemma exps_ok_delete exps : exps_ok ∅ tasks exps → exps_ok ∅ (delete id tasks) exps.
Proof.
  intros (Hs & Hc & Hl). split_and!; [done| |].
  - intros i u l [_ Hu]%lookup_delete_Some. eauto.
  - intros ns e i ep u Hin [_ Hu]%lookup_delete_Some. eauto.
Qed.

(** *** Active leases *)

Lemma active_ok_frame active :
  active_ok tasks active →
  (∀ lid, holds_lease lid t' = true ↔
          ∃ t, tasks !! id = Some t ∧ holds_lease lid t = true) →
  active_ok (<[id := t']> tasks) active.
Proof.
  intros Ha Hsame lid i. rewrite (Ha lid i), exists_insert.
  destruct (decide (i = id)); naive_solver.
Qed.

Lemma active_ok_insert active lid :
  active_ok tasks active → active !! lid = None →
  (∀ t, tasks !! id = Some t → Task_status t ≠ StatusLeased) →
  (∀ lid', holds_lease lid' t' = true ↔ lid' = lid) →
  active_ok (<[id := t']> tasks) (<[lid := id]> active).
Proof.
  intros Ha Hnone Hold Hnew lid' i. rewrite lookup_insert, exists_insert.
  specialize (Ha lid' i). unfold Task_status in Hold.
  setoid_rewrite Hnew. setoid_rewrite holds_lease_true in Ha.
  setoid_rewrite holds_lease_true. case_decide as Hd.
  - subst lid'. rewrite Hnone in Ha. naive_solver.
  - rewrite Ha. split; [|naive_solver]. intros (t & Ht & l & Hl & <-).
    right. split; [|eauto]. intros ->. specialize (Hold _ Ht). by rewrite Hl in Hold.
Qed.

Lemma active_ok_remove active t l :
  active_ok tasks active → tasks !! id = Some t → t_state t = Leased l →
  Task_status t' ≠ StatusLeased →
  active_ok (<[id := t']> tasks) (delete (lt_lease_id l) active).
Proof.
  intros Ha Ht Hl Hnew lid' i. rewrite exists_insert, lookup_delete.
  pose proof (Ha lid' i) as Hi. unfold Task_status in Hnew.
  setoid_rewrite holds_lease_true. setoid_rewrite holds_lease_true in Hi.
  assert (active !! lt_lease_id l = Some id) as Hact.
  { apply Ha. exists t. rewrite holds_lease_true. eauto. }
  case_decide as Hd.
  - subst lid'. rewrite Hact in Hi. split; [done|].
    intros [(_ & k & Hk & _)|[Hne Hex]]; [by rewrite Hk in Hnew|].
    apply Hi in Hex. congruence.
  - rewrite Hi. destruct (decide (i = id)) as [->|]; [|naive_solver].
    split; [|intros [(_ & k & Hk & _)|[]]; [by rewrite Hk in Hnew|done]].
    intros (u & Hu & k & Hk & <-). congruence.
Qed.

Lemma active_ok_delete active :
  active_ok tasks active → (∀ t, tasks !! id = Some t → Task_status t ≠ StatusLeased) →
  active_ok (delete id tasks) active.
Proof.
  intros Ha Hold lid i. rewrite (Ha lid i), exists_delete. unfold Task_status in Hold.
  setoid_rewrite holds_lease_true. split; [|naive_solver].
  intros (t & Ht & l & Hl & ?). split; [|eauto].
  intros ->. specialize (Hold _ Ht). by rewrite Hl in Hold.
Qed.

(** *** Leases per member *)

Lemma member_ok_frame member :
  member_ok tasks member →
  (∀ g mid, leased_by g mid t' = true ↔
            ∃ t, tasks !! id = Some t ∧ leased_by g mid t = true) →
  member_ok (<[id := t']> tasks) member.
Proof.
  intros Hm Hsame g mid i. rewrite (Hm g mid i), exists_insert.
  destruct (decide (i = id)); naive_solver.
Qed.

Lemma member_ok_insert member g mid :
  member_ok tasks member →
  (∀ t, tasks !! id = Some t → Task_status t ≠ StatusLeased) →
  (∀ g' mid', leased_by g' mid' t' = true ↔ (g', mid') = (g, mid)) →
  member_ok (<[id := t']> tasks)
    (<[(g, mid) := {[ id ]} ∪ default ∅ (member !! (g, mid))]> member).
Proof.
  intros Hm Hold Hnew g' mid' i. rewrite exists_insert, lookup_insert, Hnew.
  pose proof (Hm g' mid' i) as Hi. unfold Task_status in Hold.
  assert (∀ t, tasks !! id = Some t → leased_by g' mid' t = true → False) as Hno.
  { intros t Ht (l & Hl & _)%leased_by_true. specialize (Hold _ Ht). by rewrite Hl in Hold. }
  case_decide as Hd; simpl.
  - simplify_eq. rewrite elem_of_union, elem_of_singleton, Hi.
    destruct (decide (i = id)); naive_solver.
  - rewrite Hi. destruct (decide (i = id)); naive_solver.
Qed.

(** The owner's set loses [id]; nothing else changes. *)
Lemma member_ok_remove member member' t l :
  member_ok tasks member → tasks !! id = Some t → t_state t = Leased l →
  Task_status t' ≠ StatusLeased →
  (∀ k i, i ∈ default ∅ (member' !! k) ↔
     i ∈ default ∅ (member !! k) ∧ ¬ (k = (lt_group_id l, lt_owner_member_id l) ∧ i = id)) →
  member_ok (<[id := t']> tasks) member'.
Proof.
  intros Hm Ht Hl Hnew Hrm g mid i. rewrite exists_insert, Hrm, (Hm g mid i).
  unfold Task_status in Hnew. setoid_rewrite leased_by_true.
  destruct (decide (i = id)) as [->|]; [|naive_solver].
  split; [|intros [(_ & k & Hk & _)|[]]; [by rewrite Hk in Hnew|done]].
  intros [(u & Hu & k & Hk & <- & <-) Hneq]. destruct Hneq.
  assert (k = l) as -> by congruence. done.
Qed.

Lemma member_ok_delete member :
  member_ok tasks member → (∀ t, tasks !! id = Some t → Task_status t ≠ StatusLeased) →
  member_ok (delete id tasks) member.
Proof.
  intros Hm Hold g mid i. rewrite (Hm g mid i), exists_delete. unfold Task_status in Hold.
  setoid_rewrite leased_by_true. split; [|naive_solver].
  intros (t & Ht & l & Hl & ?). split; [|eauto].
  intros ->. specialize (Hold _ Ht). by rewrite Hl in Hold.
Qed.

(** *** Completed tasks *)

Lemma completed_ok_frame heap :
  completed_ok tasks heap → Task_status t' ≠ StatusCompleted →
  (∀ t, tasks !! id = Some t → Task_status t ≠ StatusCompleted) →
  completed_ok (<[id := t']> tasks) heap.
Proof.
  intros (Hs & Hnd & Hin) Hnew Hold. split_and!; [done..|].
  intros c i. rewrite Hin, exists_insert. unfold Task_status in Hold, Hnew.
  setoid_rewrite completed_at_true. destruct (decide (i = id)) as [->|]; [|naive_solver].
  split.
  - intros (t & Ht & ct & Hct & _). specialize (Hold _ Ht). by rewrite Hct in Hold.
  - intros [(_ & ct & Hct & _)|[]]; [by rewrite Hct in Hnew|done].
Qed.

Lemma completed_ok_push heap c :
  completed_ok tasks heap → (∀ c', completed_at c' t' = true ↔ c' = c) →
  (∀ t, tasks !! id = Some t → Task_status t ≠ StatusCompleted) →
  completed_ok (<[id := t']> tasks) (heap_push (c, id) heap).
Proof.
  intros (Hs & Hnd & Hin) Hnew Hold. unfold Task_status in Hold.
  assert (∀ c', (c', id) ∉ heap) as Hnot.
  { intros c' (t & Ht & (ct & Hct & _)%completed_at_true)%Hin.
    specialize (Hold _ Ht). by rewrite Hct in Hold. }
  split_and!; [by apply heap_push_sorted|by apply heap_push_nodup|].
  intros c' i. rewrite elem_of_heap_push, exists_insert, Hnew.
  destruct (decide (i = id)) as [->|].
  - specialize (Hnot c'). naive_solver.
  - rewrite Hin. naive_solver.
Qed.

Lemma completed_ok_delete heap c :
  completed_ok tasks ((c, id) :: heap) → completed_ok (delete id tasks) heap.
Proof.
  intros (Hs & Hnd & Hin). apply NoDup_cons in Hnd as [Hni Hnd].
  split_and!; [by eapply sorted_tail|done|]. intros c' i. rewrite exists_delete, <-Hin.
  rewrite elem_of_cons. destruct (decide (i = id)) as [->|]; [|naive_solver].
  split; [|naive_solver]. intros Hh.
  destruct (proj1 (Hin c id)) as (t & Ht & (ct & Hct & Hc)%completed_at_true); [by left|].
  destruct (proj1 (Hin c' id)) as (u & Hu & (ct' & Hct' & Hc')%completed_at_true); [by right|].
  simplify_eq. rewrite Hct in Hct'. by simplify_eq.
Qed.
End transitions.

(** The member index matters only through the sets it denotes. *)
Lemma member_ok_ext tasks member member' :
  (∀ k, default ∅ (member' !! k) = default ∅ (member !! k)) →
  member_ok tasks member → member_ok tasks member'.
Proof. intros He Hm g mid i. rewrite He. apply Hm. Qed.

Lemma remove_member_lease_task_elem g mid id m k i :
  i ∈ default ∅ (m_member_lease_tasks (remove_member_lease_task g mid id m) !! k) ↔
  i ∈ default ∅ (m_member_lease_tasks m !! k) ∧ ¬ (k = (g, mid) ∧ i = id).
Proof.
  unfold remove_member_lease_task.
  destruct (m_member_lease_tasks m !! (g, mid)) as [ids|] eqn:E.
  - case_decide as Hd; simpl; rewrite ?lookup_delete, ?lookup_insert; case_decide as Hk;
      simpl; subst; rewrite ?E; simpl; set_solver.
  - destruct (decide (k = (g, mid))) as [->|]; [rewrite E; simpl; set_solver|naive_solver].
Qed.
