(* ===== verification/Refinement.v ===== *)
(** * The state machine refines its specification

    Handler by handler: run on a machine whose indexes are right, a handler
    returns what [Spec.v] says and leaves indexes that are right again. *)

From S2P Require Import Prelude Values Task Group Messages Machine Spec Invariant.

(** ** Handlers that read no index *)

Lemma m_state_remove_member_lease_task g mid id m :
  m_state (remove_member_lease_task g mid id m) = m_state m.
Proof. unfold remove_member_lease_task. by repeat case_match. Qed.

(** Only the member index differs. *)
Lemma remove_member_lease_task_fields g mid id m :
  remove_member_lease_task g mid id m =
  with_member_lease_tasks (m_member_lease_tasks (remove_member_lease_task g mid id m)) m.
Proof. unfold remove_member_lease_task. destruct m; by repeat case_match. Qed.

Ltac split_handler :=
  repeat match goal with
  | |- context [match ?x with _ => _ end] =>
      lazymatch x with
      | context [match _ with _ => _ end] => fail
      | _ => destruct x eqn:?; simplify_eq/=
      end
  end.

Lemma ensure_namespace_state c m :
  on_state (ensure_namespace c m) = on_state (ensure_namespace c (bare (m_state m))).
Proof. unfold ensure_namespace, on_state. simpl. by split_handler. Qed.

Lemma join_consumer_group_state c m :
  on_state (join_consumer_group c m) = on_state (join_consumer_group c (bare (m_state m))).
Proof. unfold join_consumer_group, on_state. simpl. by split_handler. Qed.

Lemma heartbeat_state c m :
  on_state (heartbeat c m) = on_state (heartbeat c (bare (m_state m))).
Proof. unfold heartbeat, on_state. simpl. by split_handler. Qed.

Lemma renew_task_lease_state c m :
  on_state (renew_task_lease c m) = on_state (renew_task_lease c (bare (m_state m))).
Proof. unfold renew_task_lease, on_state, require_term, require_group_member. simpl. by split_handler. Qed.

Lemma complete_task_state c m :
  on_state (complete_task c m) = on_state (complete_task c (bare (m_state m))).
Proof.
  unfold complete_task, on_state, require_term, require_group_member. simpl.
  split_handler; unfold metadata; simpl; by rewrite ?m_state_remove_member_lease_task.
Qed.

Lemma advance_term_state c m :
  on_state (advance_term c m) = on_state (advance_term c (bare (m_state m))).
Proof. unfold advance_term, on_state, require_term. simpl. by split_handler. Qed.

Lemma publish_task_state c m :
  counts_ok t_namespace_id (m_tasks m) (m_namespace_task_counts m) →
  on_state (publish_task c m) = spec_publish c (m_state m).
Proof.
  intros Hc. unfold spec_publish, publish_task, on_state, require_namespace. simpl.
  rewrite (Hc (pt_namespace_id c)), lookup_singleton_eq. simpl. by split_handler.
Qed.

Lemma ensure_consumer_group_state c m :
  counts_ok g_namespace_id (m_groups m) (m_namespace_group_counts m) →
  on_state (ensure_consumer_group c m) = spec_ensure_group c (m_state m).
Proof.
  intros Hc. unfold spec_ensure_group, ensure_consumer_group, on_state, require_namespace. simpl.
  rewrite (Hc (eg_namespace_id c)), lookup_singleton_eq. simpl. by split_handler.
Qed.

(** ** Index invariants of the handlers *)

(** A handler that updates neither tasks, nor groups, nor indexes. *)
Lemma ensure_namespace_inv p c m : IndexInv p m → IndexInv p (ensure_namespace c m).2.
Proof. intros []. unfold ensure_namespace. by split_handler. Qed.

Lemma advance_term_inv p c m : IndexInv p m → IndexInv p (advance_term c m).2.
Proof. intros []. unfold advance_term. by split_handler. Qed.

(** Replacing a group by an evolved one keeps the group counts. *)
Lemma with_group_mut_counts {A} gid (op : ConsumerGroup → result A ConsumerGroupError * _)
    groups counts :
  (∀ g, groups !! gid = Some g → g_namespace_id (op g).2 = g_namespace_id g) →
  counts_ok g_namespace_id groups counts →
  counts_ok g_namespace_id (with_group_mut gid op groups).2 counts.
Proof.
  intros Hop Hc. destruct (with_group_mut gid op groups) as [r groups'] eqn:E.
  apply with_group_mut_cases in E as [(_ & _ & ->)|(g & r' & g' & Hg & Ho & _ & ->)]; [done|].
  eapply counts_ok_same; [done| |done]. specialize (Hop g Hg). by rewrite Ho in Hop.
Qed.

Lemma with_groups_inv p groups m :
  IndexInv p m → counts_ok g_namespace_id groups (m_namespace_group_counts m) →
  IndexInv p (with_groups groups m).
Proof. intros [] ?. by constructor. Qed.

Lemma join_consumer_group_inv p c m :
  IndexInv p m → IndexInv p (join_consumer_group c m).2.
Proof.
  intros Hi. unfold join_consumer_group. destruct (next_revision _); [|done].
  assert (counts_ok g_namespace_id (Coordinator_join (jg_group_id c) (jg_member_id c)
    (jg_capabilities c) (jg_now_ms c) (jg_max_group_members c) (m_groups m)).2
    (m_namespace_group_counts m)) as Hc.
  { apply with_group_mut_counts; [|apply Hi]. intros g _. unfold Group_join. by split_handler. }
  destruct (Coordinator_join _ _ _ _ _ _) as [r groups]. simpl in Hc.
  pose proof (with_groups_inv p groups m Hi Hc) as [].
  by split_handler.
Qed.

Lemma heartbeat_inv p c m : IndexInv p m → IndexInv p (heartbeat c m).2.
Proof.
  intros Hi. unfold heartbeat. destruct (next_revision _); [|done].
  assert (counts_ok g_namespace_id (Coordinator_heartbeat (hb_group_id c) (hb_member_id c)
    (hb_expected_generation c) (hb_now_ms c) (m_groups m)).2
    (m_namespace_group_counts m)) as Hc.
  { apply with_group_mut_counts; [|apply Hi]. intros g _. unfold Group_heartbeat.
    by split_handler. }
  destruct (Coordinator_heartbeat _ _ _ _ _) as [r groups]. simpl in Hc.
  pose proof (with_groups_inv p groups m Hi Hc) as [].
  by split_handler.
Qed.

Lemma ensure_consumer_group_inv p c m :
  IndexInv p m → IndexInv p (ensure_consumer_group c m).2.
Proof.
  intros Hi. unfold ensure_consumer_group. destruct (m_groups m !! eg_group_id c) eqn:E.
  { by split_handler. }
  destruct (require_namespace _ _); [|done]. do 2 (case_match; [done|]).
  destruct (next_revision _); [|done]. simpl. rewrite lookup_insert_eq. simpl.
  destruct Hi. constructor; simpl; try done. by apply (counts_ok_new g_namespace_id).
Qed.

(** A stale expiration entry of another namespace for a task id that is about
    to be published: left behind when the id named a task that was since
    completed and pruned. *)
Definition no_foreign_expiration (id : TaskId) (ns : NamespaceId)
    (exps : gmap NamespaceId (list ExpirationEntry)) : Prop :=
  map_Forall (λ ns' heap, ns' ≠ ns → Forall (λ e, e.1.2 ≠ id) heap) exps.

Lemma no_foreign_expiration_at id ns exps ns' e ep :
  no_foreign_expiration id ns exps → (e, id, ep) ∈ heap_at exps ns' → ns' = ns.
Proof.
  intros Hf. unfold heap_at. destruct (exps !! ns') as [h|] eqn:E; simpl; [|by intros ?%elem_of_nil].
  intros Hin. destruct (decide (ns' = ns)) as [|Hne]; [done|].
  specialize (Hf ns' h E Hne). rewrite Forall_forall in Hf. by destruct (Hf _ Hin).
Qed.

Lemma publish_task_inv c m :
  IndexInv ∅ m →
  (m_tasks m !! pt_task_id c = None →
   no_foreign_expiration (pt_task_id c) (pt_namespace_id c) (m_lease_expirations m)) →
  IndexInv ∅ (publish_task c m).2.
Proof.
  intros Hi Hf. unfold publish_task. destruct (m_tasks m !! pt_task_id c) eqn:E.
  { by split_handler. }
  specialize (Hf eq_refl).
  destruct (require_namespace _ _); [|done]. do 2 (case_match; [done|]).
  destruct (next_revision _); [|done]. destruct Hi. constructor; simpl; try done.
  - apply ready_ok_push; [done| |done|congruence]. apply queued_in_true. done.
  - apply exps_ok_new; [done..|]. intros ns e ep Hin. simpl. symmetry.
    by eapply no_foreign_expiration_at.
  - apply active_ok_frame; [done|]. rewrite E. naive_solver.
  - apply member_ok_frame; [done|]. rewrite E. naive_solver.
  - apply completed_ok_frame; [done|done|congruence].
  - by apply (counts_ok_new t_namespace_id _ _ (pt_task_id c)
      (Task_new (pt_task_id c) (pt_namespace_id c) (pt_objective c) (pt_created_at_ms c))).
Qed.

(** Replacing a task by itself changes nothing. *)
Lemma with_tasks_same_inv p id t m :
  m_tasks m !! id = Some t → IndexInv p m → IndexInv p (with_tasks (<[id := t]> (m_tasks m)) m).
Proof. intros Ht []. rewrite insert_id by done. by constructor. Qed.

Lemma leased_status t l : t_state t = Leased l → Task_status t = StatusLeased.
Proof. unfold Task_status. by intros ->. Qed.

Lemma renew_task_lease_inv c m : IndexInv ∅ m → IndexInv ∅ (renew_task_lease c m).2.
Proof.
  intros Hi. unfold renew_task_lease.
  destruct (require_term _ _); [|done]. destruct (require_group_member _ _ _ _) as [[ns gen]|]; [|done].
  destruct (checked_deadline _ _) as [exp|]; [|done]. destruct (next_revision _); [|done].
  destruct (m_tasks m !! rn_task_id c) as [t|] eqn:Ht; [|done]. simpl.
  destruct (Task_renew _ exp t) as [[[]|e] t'] eqn:E; simpl;
    [|apply Task_renew_err in E as ->; by apply with_tasks_same_inv].
  apply Task_renew_ok in E as (l & Hl & _ & _ & ->). simpl.
  pose proof (leased_status _ _ Hl) as Hst.
  assert (∀ u, m_tasks m !! rn_task_id c = Some u → Task_status u = StatusLeased) as Hall
    by naive_solver.
  destruct Hi. constructor; simpl; try done.
  - apply ready_ok_frame; [done|done|]. intros u ->%Hall. done.
  - eapply (exps_ok_lease _ _ _ _ t {| lt_expires_at_ms := exp |}); done.
  - apply active_ok_frame; [done|]. intros lid. rewrite Ht.
    unfold holds_lease, renewed; simpl. split; [intros; exists t; by rewrite Hl|].
    by intros (u & [= <-] & Hu); rewrite Hl in Hu.
  - apply member_ok_frame; [done|]. intros g mid. rewrite Ht.
    unfold leased_by, renewed; simpl. split; [intros; exists t; by rewrite Hl|].
    by intros (u & [= <-] & Hu); rewrite Hl in Hu.
  - apply completed_ok_frame; [done|done|]. intros u ->%Hall. done.
  - by eapply counts_ok_same.
Qed.

Lemma complete_task_inv c m : IndexInv ∅ m → IndexInv ∅ (complete_task c m).2.
Proof.
  intros Hi. unfold complete_task.
  destruct (require_term _ _); [|done]. destruct (require_group_member _ _ _ _) as [|]; [|done].
  destruct (next_revision _); [|done].
  destruct (m_tasks m !! cp_task_id c) as [t|] eqn:Ht; [|done]. simpl.
  destruct (Task_complete _ _ t) as [[[]|e] t'] eqn:E; simpl;
    [|apply Task_complete_already in E as [-> _]; by apply with_tasks_same_inv
     |apply Task_complete_err in E as ->; by apply with_tasks_same_inv].
  apply Task_complete_ok in E as (l & Hl & (Hg & Ho & _ & _ & Hlid & _) & _ & ->). simpl in *.
  pose proof (leased_status _ _ Hl) as Hst.
  assert (∀ u, m_tasks m !! cp_task_id c = Some u → Task_status u = StatusLeased) as Hall
    by naive_solver.
  rewrite remove_member_lease_task_fields. destruct Hi. constructor; simpl; try done.
  - apply ready_ok_frame; [done|done|]. intros u ->%Hall. done.
  - replace ∅ with (∅ ∖ {[ cp_task_id c ]} : gset TaskId) by set_solver.
    by eapply exps_ok_unleased.
  - rewrite <-Hlid. by eapply active_ok_remove.
  - eapply member_ok_remove; [exact ii_member|done..|]. intros k i.
    by rewrite remove_member_lease_task_elem, Hg, Ho.
  - apply completed_ok_push; [done| |intros u ->%Hall; done].
    intros c'. rewrite completed_at_true. unfold completed; simpl. naive_solver.
  - by eapply counts_ok_same.
Qed.

(** ** Requeueing *)

(** The invariant reads eight fields; the change sets do not matter. *)
Lemma IndexInv_ext p m m' :
  m_tasks m' = m_tasks m → m_groups m' = m_groups m → m_ready_tasks m' = m_ready_tasks m →
  m_lease_expirations m' = m_lease_expirations m →
  m_active_lease_tasks m' = m_active_lease_tasks m →
  (∀ k, default ∅ (m_member_lease_tasks m' !! k) = default ∅ (m_member_lease_tasks m !! k)) →
  m_completed_tasks m' = m_completed_tasks m →
  m_namespace_task_counts m' = m_namespace_task_counts m →
  m_namespace_group_counts m' = m_namespace_group_counts m →
  IndexInv p m → IndexInv p m'.
Proof.
  intros Ht Hg Hr He Ha Hm Hc Htc Hgc [].
  constructor; rewrite ?Ht, ?Hg, ?Hr, ?He, ?Ha, ?Hc, ?Htc, ?Hgc; [done..| |done|done|done].
  by eapply member_ok_ext.
Qed.

Lemma requeued_state t l :
  t_state t = Leased l → t_state (requeued t) = Queued {| qt_lease_epoch := lt_lease_epoch l |}.
Proof. unfold requeued. by intros ->. Qed.

Lemma requeued_const t :
  t_id (requeued t) = t_id t ∧ t_namespace_id (requeued t) = t_namespace_id t ∧
  t_created_at_ms (requeued t) = t_created_at_ms t ∧ t_objective (requeued t) = t_objective t.
Proof. unfold requeued. by destruct (t_state t). Qed.

(** One leased task goes back to the ready heap of its namespace. *)
Lemma requeue_inv p m id t l member' :
  IndexInv p m → m_tasks m !! id = Some t → t_state t = Leased l →
  (∀ k i, i ∈ default ∅ (member' !! k) ↔ i ∈ default ∅ (m_member_lease_tasks m !! k) ∧
     ¬ (k = (lt_group_id l, lt_owner_member_id l) ∧ i = id)) →
  IndexInv (p ∖ {[ id ]})
    (with_ready_tasks
       (heap_map_push (t_namespace_id t) (t_created_at_ms t, id) (m_ready_tasks m))
       (with_member_lease_tasks member'
          (with_active_lease_tasks (delete (lt_lease_id l) (m_active_lease_tasks m))
             (with_tasks (<[id := requeued t]> (m_tasks m)) m)))).
Proof.
  intros [] Ht Hl Hm. pose proof (leased_status _ _ Hl) as Hst.
  pose proof (requeued_state _ _ Hl) as Hq.
  destruct (requeued_const t) as (_ & Hns & Hcr & _).
  assert (Task_status (requeued t) = StatusQueued) as Hst'
    by (unfold Task_status; by rewrite Hq).
  assert (∀ u, m_tasks m !! id = Some u → Task_status u = StatusLeased) as Hall by naive_solver.
  constructor; simpl; try done.
  - apply ready_ok_push; [done|by apply queued_in_true|done|]. intros u ->%Hall. done.
  - eapply exps_ok_unleased; [done..|]. by rewrite Hst'.
  - eapply active_ok_remove; [done..|]. by rewrite Hst'.
  - eapply member_ok_remove; [done..| |done]. by rewrite Hst'.
  - apply completed_ok_frame; [done|by rewrite Hst'|]. intros u ->%Hall. done.
  - by eapply counts_ok_same.
Qed.

(** *** Requeueing the leases of a member *)

Lemma requeue_where_id P tasks :
  map_Forall (λ _ t, P t = false) tasks → requeue_where P tasks = tasks.
Proof.
  intros HP. apply map_eq. intros i. unfold requeue_where. rewrite lookup_fmap.
  destruct (tasks !! i) as [t|] eqn:E; simpl; [|done]. by rewrite (HP i t E).
Qed.

Lemma requeue_where_insert P tasks id t :
  tasks !! id = Some t → P t = true → P (requeued t) = false →
  requeue_where P (<[id := requeued t]> tasks) = requeue_where P tasks.
Proof.
  intros Ht HP HP'. apply map_eq. intros i. unfold requeue_where. rewrite !lookup_fmap, lookup_insert.
  case_decide; [subst|done]. rewrite Ht. simpl. by rewrite HP, HP'.
Qed.

Lemma requeue_where_lookup P tasks id t :
  requeue_where P tasks !! id = Some t →
  ∃ u, tasks !! id = Some u ∧ t = (if P u then requeued u else u).
Proof. unfold requeue_where. rewrite lookup_fmap. intros (u & -> & ?)%fmap_Some. eauto. Qed.

Lemma leased_by_requeued g mid t : leased_by g mid (requeued t) = false.
Proof. unfold leased_by, requeued. by destruct (t_state t) eqn:E; simpl; rewrite ?E. Qed.

Lemma requeue_tasks_spec g mid ids n m :
  NoDup ids → m_member_lease_tasks m !! (g, mid) = None →
  IndexInv ∅ (with_member_lease_tasks
    (<[(g, mid) := list_to_set ids]> (m_member_lease_tasks m)) m) →
  (∀ id t, m_tasks m !! id = Some t → leased_by g mid t = true → t_revision t < u64_max) →
  ∃ m', requeue_tasks g mid ids n m = (Ok (n + len ids), m') ∧ IndexInv ∅ m' ∧
        m_state m' = set_tasks (requeue_where (leased_by g mid) (m_tasks m)) (m_state m).
Proof.
  intros Hnd. revert n m. induction Hnd as [|id ids Hni Hnd IH]; intros n m Hnone Hi Hrev.
  - exists m. simpl. unfold len; simpl. rewrite N.add_0_r. split_and!; [done| |].
    + eapply IndexInv_ext; [..|exact Hi]; try done. intros k. simpl. rewrite lookup_insert.
      case_decide; [subst; by rewrite Hnone|done].
    + rewrite requeue_where_id; [by destruct m as [[]]|].
      intros i t Ht. destruct (leased_by g mid t) eqn:E; [|done].
      assert (i ∈ (∅ : gset TaskId)) as []%not_elem_of_empty.
      { assert (i ∈ default ∅ (<[(g, mid) := (∅ : gset TaskId)]> (m_member_lease_tasks m) !! (g, mid)))
          as Hin by (apply (ii_member _ _ Hi g mid i); eauto).
        by rewrite lookup_insert_eq in Hin. }
  - assert (∃ t, m_tasks m !! id = Some t ∧ leased_by g mid t = true) as (t & Ht & Hby).
    { apply (ii_member _ _ Hi g mid id). simpl. rewrite lookup_insert_eq. simpl. set_solver. }
    pose proof Hby as (l & Hl & Hg & Hm)%leased_by_true.
    simpl. rewrite Ht, Hl. rewrite !bool_decide_true by done. simpl.
    rewrite (requeue_for_member_spec g mid t l) by eauto. simpl. rewrite lookup_insert_eq. simpl.
    destruct (requeued_const t) as (_ & -> & _ & _).
    match goal with |- context [requeue_tasks g mid ids (n + 1) ?m1] =>
      destruct (IH (n + 1) m1) as (m' & -> & Hi' & Hs') end; simpl; [done| | |].
    + replace (∅ : gset TaskId) with (∅ ∖ {[ id ]} : gset TaskId) by set_solver.
      eapply IndexInv_ext; [..|eapply (requeue_inv _ _ id t l
        (<[(g, mid) := list_to_set ids]> (m_member_lease_tasks m)) Hi)]; simpl; try done.
      intros k i. rewrite !lookup_insert. subst g mid. case_decide; simpl; set_solver.
    + intros i u. rewrite lookup_insert. case_decide; [|eauto].
      intros [= <-]. by rewrite leased_by_requeued.
    + exists m'. split_and!; [f_equal; f_equal; unfold len; simpl; lia|done|].
      rewrite Hs'. simpl. rewrite requeue_where_insert; [done..|apply leased_by_requeued].
Qed.

Lemma requeue_member_leases_spec g mid m :
  IndexInv ∅ m →
  (∀ id t, m_tasks m !! id = Some t → leased_by g mid t = true → t_revision t < u64_max) →
  ∃ n m', requeue_member_leases g mid m = (Ok n, m') ∧ IndexInv ∅ m' ∧
          m_state m' = set_tasks (requeue_where (leased_by g mid) (m_tasks m)) (m_state m).
Proof.
  intros Hi Hrev. unfold requeue_member_leases.
  match goal with |- context [requeue_tasks g mid ?ids 0 ?m1] =>
    destruct (requeue_tasks_spec g mid ids 0 m1) as (m' & -> & Hi' & Hs') end; simpl.
  - apply bset_iter_nodup.
  - apply lookup_delete_eq.
  - eapply IndexInv_ext; [..|exact Hi]; try done. intros k. simpl.
    rewrite lookup_insert, lookup_delete. case_decide; [subst|done]. simpl.
    apply set_eq. intros i. by rewrite elem_of_list_to_set, elem_of_bset_iter.
  - done.
  - eauto.
Qed.

Definition revision_room (g : ConsumerGroupId) (mid : ConsumerId) (tasks : gmap TaskId Task)
    (id : TaskId) : Prop :=
  ∀ t, tasks !! id = Some t → leased_by g mid t = true → t_revision t < u64_max.

#[export] Instance revision_room_dec g mid tasks id : Decision (revision_room g mid tasks id).
Proof.
  refine (match tasks !! id as o return tasks !! id = o → _ with
          | Some t => λ E, cast_if (decide (leased_by g mid t = true → t_revision t < u64_max))
          | None => λ E, left _
          end eq_refl); unfold revision_room; rewrite E; naive_solver.
Defined.

Lemma preflight_tasks_spec g mid ids m :
  preflight_tasks g mid ids m =
  if decide (Forall (revision_room g mid (m_tasks m)) ids)
  then Ok tt else Err (FencingValue (Overflow "revision")).
Proof.
  induction ids as [|id ids IH]; cbn [preflight_tasks]; [by rewrite decide_True|].
  assert (revision_room g mid (m_tasks m) id →
    (if decide (Forall (revision_room g mid (m_tasks m)) ids) then Ok tt
     else Err (FencingValue (Overflow "revision"))) =
    (if decide (Forall (revision_room g mid (m_tasks m)) (id :: ids)) then Ok tt
     else @Err unit _ (FencingValue (Overflow "revision")))) as Hskip.
  { intros Hroom. do 2 case_decide; rewrite Forall_cons in *; naive_solver. }
  destruct (m_tasks m !! id) as [t|] eqn:Ht;
    [|rewrite IH; apply Hskip; intros t Hu; congruence].
  destruct (t_state t) as [q|l|c] eqn:Hl.
  1,3: rewrite IH; apply Hskip; intros u Hu (k & Hk & _)%leased_by_true; congruence.
  destruct (bool_decide (lt_group_id l = g) && bool_decide (lt_owner_member_id l = mid)) eqn:Hown.
  - rewrite andb_true_iff, !bool_decide_eq_true in Hown.
    unfold next_revision. destruct (Revision_next (t_revision t)) as [r|e] eqn:Hr; simpl.
    + apply counter_next_ok in Hr as [_ Hr]. rewrite IH. apply Hskip.
      intros u Hu _. naive_solver.
    + apply counter_next_err in Hr as [-> Hr]. rewrite decide_False; [done|].
      rewrite Forall_cons. intros [Hroom _]. specialize (Hroom t Ht).
      rewrite leased_by_true in Hroom. assert (t_revision t < u64_max) by naive_solver. lia.
  - rewrite IH. apply Hskip. intros u Hu (k & Hk & Hg & Hm)%leased_by_true.
    rewrite andb_false_iff, !bool_decide_eq_false in Hown. simplify_eq.
    rewrite Hl in Hk. naive_solver.
Qed.

Lemma preflight_member_lease_requeue_spec g mid m :
  IndexInv ∅ m → preflight_member_lease_requeue g mid m = requeue_check g mid (m_tasks m).
Proof.
  intros Hi. unfold preflight_member_lease_requeue, requeue_check.
  pose proof (ii_member _ _ Hi g mid) as Hm.
  destruct (m_member_lease_tasks m !! (g, mid)) as [ids|]; simpl in Hm.
  - rewrite preflight_tasks_spec. apply decide_ext. rewrite Forall_forall, map_Forall_lookup.
    setoid_rewrite elem_of_bset_iter. setoid_rewrite Hm. unfold revision_room. naive_solver.
  - rewrite decide_True; [done|]. intros id t Ht Hby.
    assert (id ∈ (∅ : gset TaskId)) as []%not_elem_of_empty by (apply Hm; eauto).
Qed.

(** ** Leaving a group *)

Lemma requeue_check_ok g mid tasks u :
  requeue_check g mid tasks = Ok u →
  ∀ id t, tasks !! id = Some t → leased_by g mid t = true → t_revision t < u64_max.
Proof. unfold requeue_check. by case_decide. Qed.

Lemma Group_leave_const mid gen g : g_id (Group_leave mid gen g).2 = g_id g ∧
  g_namespace_id (Group_leave mid gen g).2 = g_namespace_id g.
Proof. unfold Group_leave. by split_handler. Qed.

Lemma with_groups_same m : with_groups (m_groups m) m = m.
Proof. by destruct m as [[]]. Qed.

Lemma leave_refines c m :
  (∀ id g, m_groups m !! id = Some g → g_id g = id) → IndexInv ∅ m →
  on_state (leave_consumer_group c m) = spec_leave c (m_state m) ∧
  IndexInv ∅ (leave_consumer_group c m).2.
Proof.
  intros Hkey Hi. unfold leave_consumer_group, spec_leave. simpl.
  destruct (next_revision _) as [next|]; [|done].
  rewrite preflight_member_lease_requeue_spec by done.
  destruct (requeue_check _ _ _) eqn:Hrc; [|done].
  destruct (Coordinator_leave _ _ _ _) as [r groups] eqn:E.
  apply with_group_mut_cases in E as [(Hg & -> & ->)|(g & r' & g' & Hg & Ho & -> & ->)].
  { rewrite Hg. simpl. rewrite with_groups_same. done. }
  rewrite Hg, Ho. destruct r' as [member|e]; simpl.
  2: { apply Group_leave_err in Ho as ->. rewrite insert_id by done.
       by rewrite with_groups_same. }
  destruct (Group_leave_const (lv_member_id c) (lv_expected_generation c) g) as [Hid Hns].
  rewrite Ho in Hid, Hns. simpl in Hid, Hns. rewrite (Hkey _ _ Hg) in Hid.
  rewrite lookup_insert_eq. simpl. rewrite Hid.
  destruct (requeue_member_leases_spec (lv_group_id c) (lv_member_id c)
    (with_groups (<[lv_group_id c := g']> (m_groups m)) m)) as (n & m' & -> & Hi' & Hs').
  - apply with_groups_inv; [done|]. eapply counts_ok_same; [done..|]. apply Hi.
  - by eapply requeue_check_ok.
  - split; [unfold on_state, metadata; simpl; by rewrite Hs'|].
    eapply IndexInv_ext; [..|exact Hi']; done.
Qed.
