(* ===== verification/Claim.v ===== *)
(** * Claiming refines its specification

    Expired leases of the namespace go back to the ready heap first, then the
    oldest ready task is leased. *)

From S2P Require Import Prelude Values Task Group Messages Machine Spec Invariant Refinement.

(** ** Popping due expirations *)

(** The entry still describes the lease its task holds. *)
Definition live_entry (tasks : gmap TaskId Task) (e : ExpirationEntry) : Prop :=
  ∃ t l, tasks !! e.1.2 = Some t ∧ t_state t = Leased l ∧
         lt_lease_epoch l = e.2 ∧ lt_expires_at_ms l = e.1.1.

Lemma expiration_order (x y : ExpirationEntry) : ole x y → x.1.1 ≤ y.1.1.
Proof. intros [[H _] _]. exact H. Qed.

Lemma pop_expired_spec tasks now heap cand :
  sorted heap →
  let '(cand', heap') := pop_expired tasks now heap cand in
  sorted heap' ∧ (∀ x, x ∈ heap' ↔ x ∈ heap ∧ now < x.1.1) ∧
  (∀ id, id ∈ cand' ↔
     id ∈ cand ∨ ∃ e, e ∈ heap ∧ e.1.2 = id ∧ e.1.1 ≤ now ∧ live_entry tasks e).
Proof.
  revert cand. induction heap as [|[[e id] ep] heap IH]; intros cand Hs; simpl.
  { split_and!; [done|set_solver|]. intros id. setoid_rewrite elem_of_nil. naive_solver. }
  pose proof Hs as [Hmin Hs']%sorted_cons_iff.
  destruct (N.ltb_spec now e) as [Hlt|Hle].
  - assert (∀ x, x ∈ (e, id, ep) :: heap → now < x.1.1) as Hall.
    { intros x [->|Hx]%elem_of_cons; [done|].
      apply Hmin, expiration_order in Hx. simpl in Hx. lia. }
    split_and!; [done|naive_solver|]. intros i. split; [by left|].
    intros [?|(x & Hx%Hall & _ & ? & _)]; [done|lia].
  - match goal with |- context [pop_expired tasks now heap ?c] => set (cand1 := c) end.
    assert (∀ i, i ∈ cand1 ↔ i ∈ cand ∨ i = id ∧ live_entry tasks (e, id, ep)) as Hc1.
    { subst cand1. clear IH Hmin Hs Hs'. intros i. unfold live_entry; simpl.
      assert (∀ P Q : Prop, ¬ Q → (P ↔ P ∨ Q)) as Hno by tauto.
      destruct (tasks !! id) as [t|] eqn:Ht; [|apply Hno; naive_solver].
      destruct (t_state t) as [q|l|c] eqn:Hl;
        [apply Hno; intros (_ & ? & ? & [= <-] & ? & _); congruence| |
         apply Hno; intros (_ & ? & ? & [= <-] & ? & _); congruence].
      destruct ((lt_lease_epoch l =? ep) && (lt_expires_at_ms l =? e)) eqn:Hb.
      - rewrite andb_true_iff, !N.eqb_eq in Hb. rewrite elem_of_union, elem_of_singleton.
        naive_solver.
      - rewrite andb_false_iff, !N.eqb_neq in Hb. split; [by left|].
        intros [?|(-> & u & k & [= <-] & Hk & ? & ?)]; [done|].
        rewrite Hl in Hk. simplify_eq. tauto. }
    specialize (IH cand1 Hs'). destruct (pop_expired tasks now heap cand1) as [cand' heap'].
    destruct IH as (? & Hh & Hc). split_and!; [done| |].
    + intros x. rewrite Hh, elem_of_cons. split; [naive_solver|].
      intros [[->|?] ?]; [simpl in *; lia|done].
    + intros i. rewrite Hc, Hc1. setoid_rewrite elem_of_cons. split.
      * intros [[?|[-> ?]]|?]; [by left|right; exists (e, id, ep); naive_solver|naive_solver].
      * intros [?|(x & [->|Hx] & <- & ? & ?)]; naive_solver.
Qed.

(** On a correct index, the candidates are the expired tasks of the namespace
    and the remaining entries cover every other lease. *)
Lemma pop_expired_inv ns now m :
  IndexInv ∅ m →
  let '(cand, heap) := pop_expired (m_tasks m) now (heap_at (m_lease_expirations m) ns) ∅ in
  IndexInv cand (with_lease_expirations (<[ns := heap]> (m_lease_expirations m)) m) ∧
  (∀ id, id ∈ cand ↔ ∃ t, m_tasks m !! id = Some t ∧ expired_in ns now t = true).
Proof.
  intros Hi. pose proof (ii_exps _ _ Hi) as (Hs & Hc & Hl).
  pose proof (pop_expired_spec (m_tasks m) now _ ∅ (Hs ns)) as Hpop.
  destruct (pop_expired _ _ _ _) as [cand heap]. destruct Hpop as (Hsh & Hh & Hcand).
  assert (∀ id, id ∈ cand ↔ ∃ t, m_tasks m !! id = Some t ∧ expired_in ns now t = true) as Hex.
  { intros id. rewrite Hcand. setoid_rewrite expired_in_true. split.
    - intros [[]%not_elem_of_empty|([[e i] ep] & Hin & <- & Hle & t & l & Ht & Hst & He1 & He2)].
      simpl in *. subst. exists t. split; [done|]. exists l. split_and!; [done| |done].
      by eapply Hl.
    - intros (t & Ht & l & Hst & Hns & Hle). right.
      exists (lt_expires_at_ms l, id, lt_lease_epoch l). simpl.
      split_and!; [|done|done|by exists t, l]. rewrite <-Hns. apply Hc; set_solver. }
  split; [|done]. destruct Hi. constructor; simpl; try done. split_and!.
  - intros ns'. rewrite heap_at_insert. by case_decide.
  - intros id t l Ht Hst Hni. rewrite heap_at_insert. case_decide as Hd; [|apply Hc; set_solver].
    apply Hh. split; [subst; apply Hc; set_solver|]. simpl.
    apply N.nle_gt. intros Hle. apply Hni, Hex. exists t. rewrite expired_in_true. eauto.
  - intros ns' e id ep t. rewrite heap_at_insert. case_decide; [|apply Hl].
    intros [Hin _]%Hh. subst. by eapply Hl.
Qed.

(** ** Requeueing the expired leases *)

Lemma expired_in_requeued ns now t : expired_in ns now (requeued t) = false.
Proof. unfold expired_in, requeued. by destruct (t_state t) eqn:E; simpl; rewrite ?E. Qed.

Lemma requeue_expired_spec ns now ids n m :
  NoDup ids → IndexInv (list_to_set ids) m →
  (∀ id, id ∈ ids ↔ ∃ t, m_tasks m !! id = Some t ∧ expired_in ns now t = true) →
  (∀ id t, m_tasks m !! id = Some t → expired_in ns now t = true → t_revision t < u64_max) →
  ∃ m', requeue_expired ns now ids n m = (Ok (n + len ids), m') ∧ IndexInv ∅ m' ∧
        m_state m' = set_tasks (requeue_where (expired_in ns now) (m_tasks m)) (m_state m).
Proof.
  intros Hnd. revert n m. induction Hnd as [|id ids Hni Hnd IH]; intros n m Hi Hids Hrev.
  - exists m. simpl. unfold len; simpl. rewrite N.add_0_r. split_and!; [done..|].
    rewrite requeue_where_id; [by destruct m as [[]]|].
    intros i t Ht. destruct (expired_in ns now t) eqn:E; [|done].
    assert (i ∈ []) as []%elem_of_nil. apply Hids. eauto.
  - destruct (proj1 (Hids id)) as (t & Ht & Hex); [by left|].
    pose proof Hex as (l & Hl & <- & Hle)%expired_in_true.
    simpl. rewrite Ht, Hl. simpl. rewrite (requeue_if_expired_spec now t l) by eauto. simpl.
    rewrite remove_member_lease_task_fields.
    match goal with |- context [requeue_expired _ now ids (n + 1) ?m1] =>
      destruct (IH (n + 1) m1) as (m' & -> & Hi' & Hs') end; simpl.
    + replace (list_to_set ids : gset TaskId)
        with ((list_to_set (id :: ids) : gset TaskId) ∖ {[ id ]}) by set_solver.
      eapply IndexInv_ext; [..|eapply (requeue_inv _ _ id t l); [exact Hi|done..|]];
        simpl; try done. intros k i. by rewrite remove_member_lease_task_elem.
    + intros i. rewrite exists_insert, expired_in_requeued. specialize (Hids i).
      rewrite elem_of_cons in Hids. destruct (decide (i = id)); naive_solver.
    + intros i u. rewrite lookup_insert. case_decide; [|eauto].
      intros [= <-]. by rewrite expired_in_requeued.
    + exists m'. split_and!; [f_equal; f_equal; unfold len; simpl; lia|done|].
      rewrite Hs'. simpl. rewrite requeue_where_insert; [done..|apply expired_in_requeued].
Qed.

Lemma recover_expired_leases_spec ns now m :
  IndexInv ∅ m →
  (∀ id t, m_tasks m !! id = Some t → expired_in ns now t = true → t_revision t < u64_max) →
  ∃ n m', recover_expired_leases ns now m = (Ok n, m') ∧ IndexInv ∅ m' ∧
    m_state m' = set_tasks (requeue_where (expired_in ns now) (m_tasks m)) (m_state m) ∧
    (0 < n ↔ ∃ id t, m_tasks m !! id = Some t ∧ expired_in ns now t = true).
Proof.
  intros Hi Hrev. unfold recover_expired_leases.
  pose proof (pop_expired_inv ns now m Hi) as Hpop. unfold heap_at in Hpop.
  destruct (m_lease_expirations m !! ns) as [heap|] eqn:E; simpl in Hpop.
  - destruct (pop_expired _ _ _ _) as [cand heap']. destruct Hpop as [Hi1 Hcand].
    match goal with |- context [requeue_expired ns now ?ids 0 ?m1] =>
      destruct (requeue_expired_spec ns now ids 0 m1) as (m' & -> & Hi' & Hs') end; simpl.
    + apply bset_iter_nodup.
    + replace (list_to_set (bset_iter cand)) with cand; [done|]. apply set_eq. intros i.
      by rewrite elem_of_list_to_set, elem_of_bset_iter.
    + intros id. by rewrite elem_of_bset_iter.
    + done.
    + eexists _, _. split_and!; [done|done|done|]. unfold len.
      setoid_rewrite <-Hcand. setoid_rewrite <-elem_of_bset_iter.
      destruct (bset_iter cand) as [|i ids]; simpl.
      * split; [lia|]. by intros (i & []%elem_of_nil).
      * split; [|lia]. intros _. exists i. by left.
  - destruct Hpop as [_ Hcand]. exists 0, m. split_and!; [done|done| |].
    + rewrite requeue_where_id; [by destruct m as [[]]|].
      intros i t Ht. destruct (expired_in ns now t) eqn:Ex; [|done].
      assert (i ∈ (∅ : gset TaskId)) as []%not_elem_of_empty. apply Hcand. eauto.
    + split; [lia|]. intros (i & t & Hex).
      assert (i ∈ (∅ : gset TaskId)) as []%not_elem_of_empty. apply Hcand. eauto.
Qed.

(** ** The oldest ready task *)

Lemma elem_of_ready_list ns tasks c id :
  (c, id) ∈ ready_list ns tasks ↔
  ∃ t, tasks !! id = Some t ∧ t_created_at_ms t = c ∧ queued_in ns t = true.
Proof.
  unfold ready_list. rewrite merge_sort_Permutation, list_elem_of_omap. split.
  - intros ([i t] & Hin%elem_of_map_to_list & Hx). destruct (queued_in ns t) eqn:E; naive_solver.
  - intros (t & Ht & <- & Hq). exists (id, t). rewrite elem_of_map_to_list, Hq. done.
Qed.

Lemma ready_list_sorted ns tasks : sorted (ready_list ns tasks).
Proof. apply (StronglySorted_merge_sort ole). Qed.

Lemma NoDup_omap_keys {K V B} `{Countable K} (f : K → V → option B) (m : gmap K V) :
  (∀ k1 k2 v1 v2 b, f k1 v1 = Some b → f k2 v2 = Some b → k1 = k2) →
  NoDup (omap (λ '(k, v), f k v) (map_to_list m)).
Proof.
  intros Hf. pose proof (NoDup_fst_map_to_list m) as Hnd.
  induction (map_to_list m) as [|[k v] l IH]; simpl; [constructor|].
  apply NoDup_cons in Hnd as [Hk Hnd].
  destruct (f k v) as [b|] eqn:E; [|auto]. constructor; [|auto].
  intros ([k2 v2] & Hin & Hb)%list_elem_of_omap. simpl in Hb. apply Hk.
  rewrite (Hf _ _ _ _ _ E Hb). apply list_elem_of_fmap. by exists (k2, v2).
Qed.

Lemma ready_list_nodup ns tasks : NoDup (ready_list ns tasks).
Proof.
  unfold ready_list. rewrite merge_sort_Permutation.
  apply (NoDup_omap_keys (λ id t, if queued_in ns t then Some (t_created_at_ms t, id) else None)).
  intros. repeat case_match; naive_solver.
Qed.

Lemma ready_heap_list ns m p :
  IndexInv p m → heap_at (m_ready_tasks m) ns = ready_list ns (m_tasks m).
Proof.
  intros Hi. destruct (ii_ready _ _ Hi ns) as (Hs & Hnd & Hin).
  apply sorted_unique; [done|apply ready_list_sorted|done|apply ready_list_nodup|].
  intros [c id]. by rewrite Hin, elem_of_ready_list.
Qed.

Lemma pop_ready_task_spec ns m p :
  IndexInv p m →
  match ready_list ns (m_tasks m) with
  | [] => ∃ m', pop_ready_task ns m = (None, m') ∧ IndexInv p m' ∧ m_state m' = m_state m
  | (c, id) :: h => pop_ready_task ns m =
      (Some id, with_ready_tasks (<[ns := h]> (m_ready_tasks m)) m)
  end.
Proof.
  intros Hi. rewrite <-(ready_heap_list _ _ _ Hi). unfold pop_ready_task, heap_at.
  destruct (ii_ready _ _ Hi ns) as (_ & _ & Hin). unfold heap_at in Hin.
  destruct (m_ready_tasks m !! ns) as [[|[c id] h]|] eqn:E; simpl in *.
  - eexists _. split_and!; [done| |done]. rewrite insert_id by done. by destruct Hi.
  - destruct (proj1 (Hin c id)) as (t & Ht & _ & [Hq _]%queued_in_true); [by left|].
    rewrite Ht, bool_decide_true by done. done.
  - by exists m.
Qed.

(** ** The holder of a lease id *)

Lemma lease_holder_spec lid m p :
  IndexInv p m →
  lease_holder lid (m_tasks m) = m_active_lease_tasks m !! lid ≫= λ id, m_tasks m !! id.
Proof.
  intros Hi. pose proof (ii_active _ _ Hi lid) as Ha. unfold lease_holder.
  set (l := filter _ _).
  assert (∀ t, t ∈ l ↔ ∃ id, m_active_lease_tasks m !! lid = Some id ∧ m_tasks m !! id = Some t) as Hl.
  { intros t. unfold l. rewrite list_elem_of_filter, elem_of_bmap_values.
    setoid_rewrite Ha. naive_solver. }
  destruct l as [|t l'] eqn:E; simpl.
  - destruct (m_active_lease_tasks m !! lid) as [id|] eqn:Ea; simpl; [|done].
    destruct (m_tasks m !! id) as [t|] eqn:Et; [|done].
    assert (t ∈ []) as []%elem_of_nil. apply Hl. eauto.
  - destruct (proj1 (Hl t)) as (id & -> & Ht); [by left|]. by simpl.
Qed.

Lemma active_none_requeue lid P m :
  active_ok (m_tasks m) (m_active_lease_tasks m) →
  m_active_lease_tasks m !! lid = None →
  ∀ id t, requeue_where P (m_tasks m) !! id = Some t → holds_lease lid t = false.
Proof.
  intros Ha Hnone id t. unfold requeue_where. rewrite lookup_fmap.
  destruct (m_tasks m !! id) as [u|] eqn:E; simpl; [|done]. intros [= <-].
  destruct (holds_lease lid _) eqn:Hh; [|done].
  assert (m_active_lease_tasks m !! lid = Some id); [|congruence].
  apply Ha. exists u. split; [done|]. destruct (P u); [|done].
  unfold holds_lease, requeued in *. destruct (t_state u) eqn:Es; simpl in *; [|done|];
    by rewrite Es in Hh.
Qed.

(** ** Granting the lease *)

Definition claim_grant (c : ClaimTaskCommand) (generation : Generation) : LeaseGrant := {|
  lg_lease_id := cl_lease_id c; lg_owner_member_id := cl_member_id c;
  lg_group_id := cl_group_id c; lg_generation := generation;
  lg_expires_at_ms := cl_now_ms c + cl_lease_duration_ms c |}.

Lemma claimed_lease grant t :
  t_state (claimed grant t) = Leased {|
    lt_lease_id := lg_lease_id grant; lt_owner_member_id := lg_owner_member_id grant;
    lt_group_id := lg_group_id grant; lt_generation := lg_generation grant;
    lt_lease_epoch := task_epoch t + 1; lt_expires_at_ms := lg_expires_at_ms grant |}.
Proof. done. Qed.

(** The indexes after leasing the head of a ready heap. *)
Lemma lease_inv m ns h c0 id t grant :
  IndexInv ∅ m → heap_at (m_ready_tasks m) ns = (c0, id) :: h → m_tasks m !! id = Some t →
  m_active_lease_tasks m !! lg_lease_id grant = None →
  let key := (lg_group_id grant, lg_owner_member_id grant) in
  IndexInv ∅
    (with_lease_expirations
       (heap_map_push ns (lg_expires_at_ms grant, id, task_epoch t + 1) (m_lease_expirations m))
    (with_member_lease_tasks
       (<[key := {[ id ]} ∪ default ∅ (m_member_lease_tasks m !! key)]> (m_member_lease_tasks m))
    (with_active_lease_tasks (<[lg_lease_id grant := id]> (m_active_lease_tasks m))
    (with_tasks (<[id := claimed grant t]> (m_tasks m))
    (with_ready_tasks (<[ns := h]> (m_ready_tasks m)) m))))).
Proof.
  intros [] Hh Ht Hnone key.
  assert (queued_in ns t = true) as [Hq Hns]%queued_in_true.
  { destruct (ii_ready ns) as (_ & _ & Hin).
    destruct (proj1 (Hin c0 id)) as (u & Hu & _ & ?); [rewrite Hh; by left|]. naive_solver. }
  assert (∀ u, m_tasks m !! id = Some u → Task_status u = StatusQueued) as Hall by naive_solver.
  constructor; simpl; try done.
  - by eapply ready_ok_pop.
  - by eapply (exps_ok_lease _ _ _ _ t {| lt_expires_at_ms := _ |}).
  - apply active_ok_insert; [done|done|intros u ->%Hall; done|].
    intros lid. rewrite holds_lease_true, claimed_lease. naive_solver.
  - apply member_ok_insert; [done|intros u ->%Hall; done|].
    intros g mid. rewrite leased_by_true, claimed_lease. unfold key. naive_solver.
  - apply completed_ok_frame; [done|done|intros u ->%Hall; done].
  - by eapply counts_ok_same.
Qed.

Lemma lease_task_spec c m ns gen h c0 id t :
  IndexInv ∅ m → heap_at (m_ready_tasks m) ns = (c0, id) :: h → m_tasks m !! id = Some t →
  m_active_lease_tasks m !! cl_lease_id c = None →
  cl_now_ms c + cl_lease_duration_ms c ≤ u64_max → m_revision m < u64_max →
  t_revision t < u64_max → task_epoch t < u64_max →
  let t' := claimed (claim_grant c gen) t in
  let s' := {| s_term := s_term (m_state m); s_revision := m_revision m + 1;
               s_namespaces := s_namespaces (m_state m);
               s_tasks := <[id := t']> (m_tasks m); s_groups := m_groups m |} in
  let r := lease_task c ns gen id (with_ready_tasks (<[ns := h]> (m_ready_tasks m)) m) in
  on_state r = (Ok (task_claim_result gen (Some t') (bare s')), s') ∧ IndexInv ∅ r.2.
Proof.
  intros Hi Hh Ht Hnone Hdl Hrev Htr Hep t' s' r.
  assert (∃ q, t_state t = Queued q) as [q Hq].
  { destruct (ii_ready _ _ Hi ns) as (_ & _ & Hin).
    destruct (proj1 (Hin c0 id)) as (u & Hu & _ & [Hst _]%queued_in_true); [rewrite Hh; by left|].
    unfold Task_status in Hst. simplify_eq. destruct (t_state t); naive_solver. }
  assert (Task_claim (claim_grant c gen) t = (Ok tt, t')) as Hcl.
  { apply Task_claim_ok. eauto 10. }
  unfold r, lease_task, checked_deadline, next_revision. simpl.
  rewrite (proj2 (checked_add_Some _ _ _) (conj eq_refl Hdl)). simpl.
  unfold Revision_next. rewrite counter_next_lt by done. simpl. rewrite Ht. simpl.
  fold (claim_grant c gen). rewrite Hcl. simpl. rewrite lookup_insert_eq. simpl.
  split; [done|].
  eapply IndexInv_ext; [..|by eapply (lease_inv m ns h c0 id t (claim_grant c gen))]; done.
Qed.

(** ** Claiming *)

(** Room left in the counters a claim advances. *)
Definition counters_room (s : BrokerState) : Prop :=
  s_revision s < u64_max ∧
  map_Forall (λ _ t, t_revision t + 1 < u64_max ∧ task_epoch t < u64_max) (s_tasks s).

Lemma requeued_room u P :
  t_revision u + 1 < u64_max ∧ task_epoch u < u64_max →
  t_revision (if P : bool then requeued u else u) < u64_max ∧
  task_epoch (if P then requeued u else u) < u64_max.
Proof.
  intros [Hr He]. destruct P; [|split; [lia|done]].
  unfold requeued, task_epoch in *. destruct (t_state u) eqn:E; simpl in *; rewrite ?E; split; lia || done.
Qed.

(** An expired lease would have become ready. *)
Lemma no_ready_no_expired ns now tasks :
  ready_list ns (requeue_where (expired_in ns now) tasks) = [] →
  map_Forall (λ _ t, expired_in ns now t = false) tasks.
Proof.
  intros Erl id t Ht. destruct (expired_in ns now t) eqn:Ex; [|done]. exfalso.
  pose proof Ex as (l & Hl & Hns & _)%expired_in_true.
  assert ((t_created_at_ms (requeued t), id) ∈
    ready_list ns (requeue_where (expired_in ns now) tasks)) as Hin.
  { apply elem_of_ready_list. exists (requeued t). unfold requeue_where.
    rewrite lookup_fmap, Ht. simpl. rewrite Ex. split_and!; [done..|].
    unfold queued_in. rewrite (requeued_state _ _ Hl). apply bool_decide_true.
    by destruct (requeued_const t) as (_ & -> & _). }
  rewrite Erl in Hin. by apply elem_of_nil in Hin.
Qed.

Lemma claim_refines c m :
  IndexInv ∅ m → cl_now_ms c + cl_lease_duration_ms c ≤ u64_max → counters_room (m_state m) →
  on_state (claim_task c m) = spec_claim c (m_state m) ∧ IndexInv ∅ (claim_task c m).2.
Proof.
  intros Hi Hdl [Hrev Hroom]. unfold claim_task, spec_claim, require_term, require_group_member. simpl.
  case_match; [|done].
  destruct (map_err _ (require_member _ _ _ _)) as [[ns gen]|]; [|done].
  rewrite (lease_holder_spec _ _ _ Hi).
  destruct (m_active_lease_tasks m !! cl_lease_id c) as [id|] eqn:Ea; simpl.
  { pose proof Ea as (t & Ht & (l & Hl & _)%holds_lease_true)%(ii_active _ _ Hi).
    rewrite Ht. simpl. unfold leased_by. rewrite Hl, andb_comm. by destruct (_ && _). }
  destruct (recover_expired_leases_spec ns (cl_now_ms c) m Hi) as (n & m1 & -> & Hi1 & Hs1 & Hn).
  { intros id t Ht _. specialize (Hroom id t Ht). simpl in Hroom. lia. }
  pose proof (pop_ready_task_spec ns m1 ∅ Hi1) as Hpop.
  rewrite Hs1 in Hpop. simpl in Hpop.
  destruct (ready_list ns _) as [|[c0 id] h] eqn:Erl; simpl.
  - destruct Hpop as (m2 & -> & Hi2 & Hs2).
    assert (n = 0 ∧ m_state m2 = m_state m) as [-> Hs].
    { pose proof (no_ready_no_expired ns _ _ Erl) as Hno.
      split.
      - destruct (N.eq_0_gt_0_cases n) as [|(id & t & Ht & Hex)%Hn]; [done|].
        specialize (Hno id t Ht). simpl in Hno. congruence.
      - rewrite Hs2, requeue_where_id by done. by destruct m as [[]]. }
    simpl. unfold on_state, task_claim_result, metadata. simpl. by rewrite Hs.
  - rewrite Hpop. assert ((c0, id) ∈ ready_list ns (m_tasks m1)) as Hin.
    { rewrite Hs1. simpl. rewrite Erl. by left. }
    pose proof Hin as (t & Ht & _)%elem_of_ready_list.
    pose proof Ht as Hu. rewrite Hs1 in Hu. simpl in Hu.
    apply requeue_where_lookup in Hu as (u & Hu & Htu).
    pose proof (requeued_room u (expired_in ns (cl_now_ms c) u) (Hroom id u Hu)) as [Htr Hte].
    rewrite <-Htu in Htr, Hte.
    destruct (lease_task_spec c m1 ns gen h c0 id t) as [Heq Hi2]; try done.
    + rewrite (ready_heap_list _ _ _ Hi1), Hs1. done.
    + destruct (m_active_lease_tasks m1 !! cl_lease_id c) as [i|] eqn:E1; [|done].
      apply (ii_active _ _ Hi1) in E1 as (v & Hv & Hh). rewrite Hs1 in Hv. simpl in Hv.
      rewrite (active_none_requeue (cl_lease_id c) _ m (ii_active _ _ Hi) Ea i v Hv) in Hh. done.
    + by rewrite Hs1.
    + split; [|done]. rewrite Heq, Hs1. simpl. unfold checked_deadline, next_revision.
      rewrite (proj2 (checked_add_Some _ _ _) (conj eq_refl Hdl)). simpl.
      unfold Revision_next. rewrite counter_next_lt by done. simpl.
      rewrite Hs1 in Ht. simpl in Ht. rewrite Ht. done.
Qed.
