(* ===== verification/Reap.v ===== *)
(** * Pruning and reaping refine their specifications

    A prune deletes the earliest completions up to the cutoff, at most the
    requested number, and its task-count preflight never fires.  To reap, the
    machine selects the globally oldest stale members, groups them, and lets
    every affected group reap its own oldest ones: the two selections agree. *)

From S2P Require Import Prelude Values Task Group Messages Machine Spec Invariant Refinement Claim.

(** ** The completed heap *)

Lemma elem_of_completed_list tasks c id :
  (c, id) ∈ completed_list tasks ↔ ∃ t, tasks !! id = Some t ∧ completed_at c t = true.
Proof.
  unfold completed_list. rewrite merge_sort_Permutation, list_elem_of_omap.
  setoid_rewrite completed_at_true. split.
  - intros ([i t] & Hin%elem_of_map_to_list & Hx). destruct (t_state t) eqn:E; naive_solver.
  - intros (t & Ht & ct & Hct & <-). exists (id, t). by rewrite elem_of_map_to_list, Hct.
Qed.

Lemma completed_list_sorted tasks : sorted (completed_list tasks).
Proof. apply (StronglySorted_merge_sort ole). Qed.

Lemma completed_list_nodup tasks : NoDup (completed_list tasks).
Proof.
  unfold completed_list. rewrite merge_sort_Permutation.
  apply (NoDup_omap_keys (λ id t, match t_state t with
    | Completed c => Some (ct_completed_at_ms c, id) | _ => None end)).
  intros. repeat case_match; naive_solver.
Qed.

Lemma completed_heap_list p m :
  IndexInv p m → m_completed_tasks m = completed_list (m_tasks m).
Proof.
  intros [_ _ _ _ (Hs & Hnd & Hin) _ _].
  apply sorted_unique; [done|apply completed_list_sorted|done|apply completed_list_nodup|].
  intros [c id]. by rewrite Hin, elem_of_completed_list.
Qed.

Lemma completed_entry_some tasks c id t :
  tasks !! id = Some t → completed_at c t = true →
  completed_entry tasks c id = Some (t_namespace_id t).
Proof.
  intros Ht (ct & Hct & <-)%completed_at_true. unfold completed_entry.
  by rewrite Ht, Hct, N.eqb_refl.
Qed.

(** ** Selection *)

Definition entry_namespace (tasks : gmap TaskId Task) (e : CompletedEntry) : NamespaceId :=
  default "" (t_namespace_id <$> tasks !! e.2).

Lemma entry_order (x y : CompletedEntry) : ole x y → x.1 ≤ y.1.
Proof. intros [H _]. exact H. Qed.

(** On a sorted heap nothing follows an entry beyond the cutoff. *)
Lemma filter_cutoff_nil cutoff e heap :
  sorted (e :: heap) → cutoff < e.1 →
  filter (λ e : CompletedEntry, e.1 <= cutoff) (e :: heap) = [].
Proof.
  intros Hs Hlt. apply elem_of_nil_inv. intros x [Hx Hin]%list_elem_of_filter.
  pose proof (entry_order _ _ (sorted_head_min _ _ _ Hs Hin)). lia.
Qed.

Lemma prune_select_spec tasks cutoff max probe selected :
  sorted probe →
  (∀ c id, (c, id) ∈ probe → ∃ t, tasks !! id = Some t ∧ completed_at c t = true) →
  prune_select tasks cutoff max probe selected =
  (selected ++ (entry_namespace tasks <$>
    take_N (max - len selected) (filter (λ e, e.1 <= cutoff) probe)))%list.
Proof.
  revert selected. induction probe as [|[c id] probe IH]; intros sel Hs Hok.
  { simpl. case_match; by rewrite app_nil_r. }
  cbn [prune_select]. destruct (N.leb_spec max (len sel)) as [Hle|Hlt].
  { replace (max - len sel) with 0 by lia. rewrite take_N_take.
    by rewrite app_nil_r. }
  destruct (N.ltb_spec cutoff c) as [Hc|Hc].
  { rewrite filter_cutoff_nil by done. simpl. by rewrite app_nil_r. }
  destruct (Hok c id) as (t & Ht & Hct); [by left|].
  rewrite (completed_entry_some _ _ _ t) by done.
  rewrite IH; [|by eapply sorted_tail|intros ???; apply Hok; by right].
  rewrite filter_cons_True by done. cbn [take_N].
  destruct (N.eqb_spec (max - len sel) 0); [lia|]. cbn [fmap list_fmap].
  replace (entry_namespace tasks (c, id)) with (t_namespace_id t)
    by (unfold entry_namespace; simpl; by rewrite Ht).
  rewrite <-app_assoc. do 3 f_equal. unfold len. rewrite length_app. simpl. f_equal. lia.
Qed.

(** ** The task-count preflight *)

Lemma count_namespaces_lookup sel counts ns :
  default 0 (count_namespaces sel counts !! ns) =
  default 0 (counts !! ns) + len (filter (λ n, n = ns) sel).
Proof.
  revert counts. induction sel as [|n sel IH]; intros counts; simpl; [unfold len; simpl; lia|].
  rewrite IH, lookup_insert, filter_cons. unfold len.
  case_decide; simpl; [subst|]; lia.
Qed.

Lemma check_counts_ok per counts :
  (∀ ns k, (ns, k) ∈ per → k ≤ default 0 (counts !! ns)) → check_counts per counts = Ok tt.
Proof.
  induction per as [|[ns k] per IH]; intros Hk; simpl; [done|].
  destruct (N.ltb_spec (default 0 (counts !! ns)) k) as [Hlt|_].
  - specialize (Hk ns k ltac:(by left)). lia.
  - apply IH. intros ???. apply Hk. by right.
Qed.

(** Distinct tasks of one namespace are at most as many as the namespace has. *)
Lemma selected_le_count tasks (victims : list CompletedEntry) ns :
  NoDup victims.*2 → (∀ e, e ∈ victims → is_Some (tasks !! e.2)) →
  len (filter (λ n, n = ns) (entry_namespace tasks <$> victims)) ≤
  count_by t_namespace_id ns tasks.
Proof.
  intros Hnd Hin. unfold count_by, msize, len.
  assert (length (filter (λ n, n = ns) (entry_namespace tasks <$> victims)) =
          length (filter (λ e, entry_namespace tasks e = ns) victims).*2) as ->.
  { rewrite length_fmap. clear. induction victims as [|e v IH]; [done|].
    rewrite fmap_cons, !filter_cons. case_decide; cbn [length]; by rewrite IH. }
  set (l := (filter (λ e, entry_namespace tasks e = ns) victims).*2).
  assert (NoDup l) as Hl.
  { eapply sublist_NoDup; [exact Hnd|]. apply fmap_sublist, sublist_filter. }
  rewrite <-(size_list_to_set (C:=gset TaskId) l), <-(size_dom (D:=gset TaskId)) by done.
  enough (size (list_to_set l : gset TaskId) ≤
          size (dom (filter (λ kv, t_namespace_id kv.2 = ns) tasks)))%nat by lia.
  apply subseteq_size. intros i Hi. apply elem_of_list_to_set in Hi.
  apply list_elem_of_fmap in Hi as ([c i'] & -> & [He Hv]%list_elem_of_filter).
  destruct (Hin _ Hv) as [t Ht]. unfold entry_namespace in He. simpl in *.
  rewrite Ht in He. simpl in He. apply elem_of_dom. exists t. by apply map_lookup_filter_Some.
Qed.

(** ** The deleting loop *)

Lemma delete_completed_inv heap m c id t n :
  IndexInv ∅ (with_completed_tasks ((c, id) :: heap) m) → m_tasks m !! id = Some t →
  completed_at c t = true → m_namespace_task_counts m !! t_namespace_id t = Some n →
  IndexInv ∅ (with_completed_tasks heap
    (with_namespace_task_counts (<[t_namespace_id t := n - 1]> (m_namespace_task_counts m))
       (with_tasks (delete id (m_tasks m)) m))).
Proof.
  intros [] Ht (ct & Hst & _)%completed_at_true Hn.
  assert (∀ u, m_tasks m !! id = Some u → Task_status u = StatusCompleted) as Hall.
  { intros u Hu. simplify_eq. unfold Task_status. by rewrite Hst. }
  constructor; simpl in *; try done.
  - apply ready_ok_delete; [done|]. intros u ->%Hall. done.
  - by apply exps_ok_delete.
  - apply active_ok_delete; [done|]. intros u ->%Hall. done.
  - apply member_ok_delete; [done|]. intros u ->%Hall. done.
  - by eapply completed_ok_delete.
  - by eapply counts_ok_delete.
Qed.

Lemma prune_loop_spec cutoff target pruned heap m :
  IndexInv ∅ (with_completed_tasks heap m) → pruned ≤ target →
  let eligible := filter (λ e : CompletedEntry, e.1 <= cutoff) heap in
  target - pruned ≤ len eligible →
  ∃ m', prune_loop cutoff target pruned heap m = (Ok target, m') ∧ IndexInv ∅ m' ∧
    m_state m' = set_tasks
      (filter (λ kv, kv.1 ∉ (take_N (target - pruned) eligible).*2) (m_tasks m)) (m_state m).
Proof.
  revert pruned m. induction heap as [|[c id] heap IH]; intros pruned m Hi Hle eligible Hel.
  { assert (pruned = target) as -> by (unfold len in Hel; simpl in Hel; lia).
    exists (with_completed_tasks [] m). simpl. rewrite N.leb_refl. split_and!; [done..|].
    rewrite map_filter_id; [by destruct m as [[]]|]. intros ?? _. apply not_elem_of_nil. }
  cbn [prune_loop]. destruct (N.leb_spec target pruned) as [Hge|Hlt].
  { assert (pruned = target) as -> by lia. eexists. split_and!; [done..|].
    rewrite N.sub_diag, take_N_take. simpl.
    rewrite map_filter_id; [by destruct m as [[]]|]. intros ?? _. apply not_elem_of_nil. }
  pose proof (ii_completed _ _ Hi) as (Hs & Hnd & Hin). simpl in Hs, Hnd, Hin.
  destruct (N.ltb_spec cutoff c) as [Hc|Hc].
  { unfold eligible in Hel. rewrite filter_cutoff_nil in Hel by done. unfold len in Hel; simpl in Hel. lia. }
  destruct (proj1 (Hin c id)) as (t & Ht & Hct); [by left|].
  rewrite (completed_entry_some _ _ _ t) by done.
  assert (∃ n, m_namespace_task_counts m !! t_namespace_id t = Some n) as [n Hn].
  { pose proof (ii_task_counts _ _ Hi (t_namespace_id t)) as Hcnt. simpl in Hcnt.
    rewrite (count_by_delete _ _ _ id t Ht), decide_True in Hcnt by done.
    destruct (m_namespace_task_counts m !! t_namespace_id t); [eauto|simpl in Hcnt; lia]. }
  simpl. rewrite Hn.
  match goal with |- context [prune_loop cutoff target (pruned + 1) heap ?m1] =>
    destruct (IH (pruned + 1) m1) as (m' & -> & Hi' & Hs') end.
  - eapply IndexInv_ext; [..|by eapply (delete_completed_inv heap m c id t n)]; done.
  - lia.
  - unfold eligible in Hel. rewrite filter_cons_True in Hel by done. unfold len in *. simpl in Hel. lia.
  - eexists. split_and!; [done..|]. rewrite Hs'. unfold set_tasks. simpl. f_equal. unfold eligible.
    rewrite filter_cons_True by done. cbn [take_N].
    destruct (N.eqb_spec (target - pruned) 0); [lia|].
    replace (N.pred (target - pruned)) with (target - (pruned + 1)) by lia.
    apply map_eq. intros i. apply option_eq. intros u.
    rewrite !map_lookup_filter_Some, lookup_delete_Some. simpl. rewrite not_elem_of_cons. naive_solver.
Qed.

Lemma len_take_N {A} n (l : list A) : len (take_N n l) = N.min n (len l).
Proof. unfold len. rewrite take_N_take, length_take. lia. Qed.

Lemma take_N_len_take_N {A} n (l : list A) : take_N (len (take_N n l)) l = take_N n l.
Proof.
  rewrite len_take_N, !take_N_take. unfold len.
  destruct (decide (N.to_nat n ≤ length l)%nat).
  - f_equal. lia.
  - rewrite !take_ge by lia. done.
Qed.

Lemma is_nil_fmap {A B} (f : A → B) l : is_nil (f <$> l) = is_nil l.
Proof. by destruct l. Qed.

Lemma completed_victims_nodup p m n cutoff :
  IndexInv p m →
  NoDup (take_N n (filter (λ e : CompletedEntry, e.1 <= cutoff) (m_completed_tasks m))).*2.
Proof.
  intros [_ _ _ _ (Hs & Hnd & Hin) _ _].
  apply NoDup_fmap_2_strong; [|by apply NoDup_take_N, NoDup_filter].
  intros [c1 i1] [c2 i2] [_ H1]%elem_of_take_N%list_elem_of_filter
    [_ H2]%elem_of_take_N%list_elem_of_filter [= <-].
  apply Hin in H1 as (t & Ht & (ct & Hct & <-)%completed_at_true).
  apply Hin in H2 as (u & Hu & (cu & Hcu & <-)%completed_at_true).
  simplify_eq. rewrite Hct in Hcu. by simplify_eq.
Qed.

Lemma prune_check_ok cutoff n m :
  IndexInv ∅ m →
  check_counts (bmap_iter (count_namespaces (entry_namespace (m_tasks m) <$>
    take_N n (filter (λ e : CompletedEntry, e.1 <= cutoff) (m_completed_tasks m))) ∅))
    (m_namespace_task_counts m) = Ok tt.
Proof.
  intros Hi. apply check_counts_ok. intros ns k Hk%elem_of_bmap_iter.
  rewrite (ii_task_counts _ _ Hi ns).
  match type of Hk with count_namespaces ?sel ∅ !! ns = _ =>
    pose proof (count_namespaces_lookup sel ∅ ns) as Hc end.
  rewrite Hk in Hc. simpl in Hc. rewrite lookup_empty in Hc. simpl in Hc. subst k.
  apply selected_le_count; [by eapply completed_victims_nodup|].
  intros [c id] [_ Hin]%elem_of_take_N%list_elem_of_filter.
  apply (ii_completed _ _ Hi) in Hin as (t & Ht & _). eauto.
Qed.

Lemma prune_refines c m :
  IndexInv ∅ m →
  on_state (prune_completed_tasks c m) = spec_prune c (m_state m) ∧
  IndexInv ∅ (prune_completed_tasks c m).2.
Proof.
  intros Hi. unfold prune_completed_tasks, spec_prune. case_match; [done|].
  pose proof (ii_completed _ _ Hi) as (Hs & _ & Hin).
  rewrite prune_select_spec; [|done|intros; by apply Hin].
  change (len (@nil NamespaceId)) with 0. simpl. rewrite N.sub_0_r, is_nil_fmap, <-(completed_heap_list _ _ Hi).
  pose proof (prune_check_ok (pr_completed_before_ms c) (pr_max_tasks c) m Hi) as Hck.
  set (victims := take_N _ _) in *.
  destruct (is_nil victims) eqn:Hnil; [done|].
  rewrite Hck.
  destruct (next_revision _) as [next|]; [|done].
  assert (len (entry_namespace (m_tasks m) <$> victims) = len victims) as ->
    by (unfold len; by rewrite length_fmap).
  destruct (prune_loop_spec (pr_completed_before_ms c) (len victims) 0 (m_completed_tasks m) m)
    as (m' & -> & Hi' & Hs').
  - by destruct m.
  - lia.
  - unfold victims. rewrite len_take_N. lia.
  - assert ((0 <? len victims) = true) as ->.
    { apply N.ltb_lt. destruct victims; [done|]. unfold len; simpl; lia. }
    pose proof (take_N_len_take_N (pr_max_tasks c)
      (filter (λ e, e.1 <= pr_completed_before_ms c) (m_completed_tasks m))) as Htk.
    fold victims in Htk. rewrite N.sub_0_r, Htk in Hs'.
    split; [unfold on_state, metadata; simpl; by rewrite Hs'|].
    eapply IndexInv_ext; [..|exact Hi']; done.
Qed.

(** ** Reaping *)

Abbreviation Candidate := (TimestampMs * ConsumerGroupId * ConsumerId)%type (only parsing).

(** ** Global and per-group selection *)

(** The candidates a group contributes. *)
Definition group_candidates (cutoff : TimestampMs) (gid : ConsumerGroupId) (g : ConsumerGroup) :
    list Candidate :=
  (λ member, (c_last_heartbeat_at_ms member, gid, c_id member)) <$>
    filter (λ member, c_last_heartbeat_at_ms member <= cutoff) (bmap_values (g_consumers g)).

Lemma group_candidates_gid cutoff gid g : Forall (λ e, e.1.2 = gid) (group_candidates cutoff gid g).
Proof. apply Forall_fmap, Forall_true. done. Qed.

(** Only one group contributes candidates with its id. *)
Lemma filter_concat_candidates cutoff gid (l : list (ConsumerGroupId * ConsumerGroup)) :
  NoDup l.*1 →
  filter (λ e : Candidate, e.1.2 = gid) (concat ((λ '(id, g), group_candidates cutoff id g) <$> l)) =
  match (list_to_map l : gmap ConsumerGroupId ConsumerGroup) !! gid with
  | Some g => group_candidates cutoff gid g
  | None => []
  end.
Proof.
  induction l as [|[id g] l IH]; intros Hnd; [done|].
  apply NoDup_cons in Hnd as [Hni Hnd]. cbn [fmap list_fmap concat].
  rewrite filter_app, IH by done. simpl. rewrite lookup_insert. case_decide as Hd.
  - subst id. rewrite filter_all by apply group_candidates_gid.
    by rewrite not_elem_of_list_to_map_1, app_nil_r.
  - rewrite filter_none; [done|]. eapply Forall_impl; [apply group_candidates_gid|].
    simpl. congruence.
Qed.

Lemma filter_candidates cutoff gid groups :
  filter (λ e : Candidate, e.1.2 = gid) (reap_candidates cutoff groups) ≡ₚ
  match groups !! gid with Some g => group_candidates cutoff gid g | None => [] end.
Proof.
  unfold reap_candidates. rewrite merge_sort_Permutation.
  rewrite <-(list_to_map_bmap_iter groups) at 2.
  by rewrite <-filter_concat_candidates by apply bmap_iter_nodup_keys.
Qed.

Lemma reap_candidates_sorted cutoff groups : sorted (reap_candidates cutoff groups).
Proof. apply (StronglySorted_merge_sort ole). Qed.

(** Dropping the common group id keeps the order. *)
Lemma sorted_drop_gid gid (l : list Candidate) :
  Forall (λ e, e.1.2 = gid) l → sorted l →
  StronglySorted (ole (A:=TimestampMs * ConsumerId)) ((λ e, (e.1.1, e.2)) <$> l).
Proof.
  intros Hg Hs. induction Hs as [|x l Hs IH Hx]; [constructor|].
  apply Forall_cons in Hg as [Hgx Hg]. constructor; [auto|].
  apply Forall_fmap, Forall_forall. intros y Hy. rewrite Forall_forall in Hx, Hg.
  specialize (Hx y Hy). specialize (Hg y Hy).
  destruct x as [[h1 g1] m1], y as [[h2 g2] m2]. simpl in *. subst.
  destruct Hx as [[Hx1 Hx2] Hx3]; simpl in *. split; simpl; [done|].
  intros Hle. apply Hx3. split; simpl; [done|]. done.
Qed.

Lemma stale_list_nodup cutoff cs :
  members_keyed cs →
  NoDup ((λ c, (c_last_heartbeat_at_ms c, c_id c)) <$>
    filter (λ c, c_last_heartbeat_at_ms c <= cutoff) (bmap_values cs)).
Proof.
  intros Hk.
  assert (NoDup (c_id <$> bmap_values cs)) as Hids.
  { replace (c_id <$> bmap_values cs) with (bmap_iter cs).*1; [apply bmap_iter_nodup_keys|].
    unfold bmap_values. rewrite <-list_fmap_compose. apply list_fmap_ext.
    intros i [k c] Hi. simpl. symmetry. apply Hk, elem_of_bmap_iter.
    by eapply list_elem_of_lookup_2. }
  apply (NoDup_fmap_1 snd). rewrite <-list_fmap_compose. simpl.
  eapply sublist_NoDup; [exact Hids|]. apply fmap_sublist, sublist_filter.
Qed.

(** The global order restricted to one group is the group's own order. *)
Lemma candidates_of_group cutoff gid g groups :
  groups !! gid = Some g → members_keyed (g_consumers g) →
  (λ e : Candidate, (e.1.1, e.2)) <$>
    filter (λ e : Candidate, e.1.2 = gid) (reap_candidates cutoff groups) =
  bset_iter (stale_entries cutoff (g_consumers g)).
Proof.
  intros Hg Hk. apply (StronglySorted_unique ole).
  - apply (sorted_drop_gid gid); [|apply sorted_filter, reap_candidates_sorted].
    apply Forall_forall. by intros e [? _]%list_elem_of_filter.
  - apply bset_iter_sorted.
  - rewrite filter_candidates, Hg. unfold bset_iter, stale_entries.
    rewrite merge_sort_Permutation, elements_list_to_set by by apply stale_list_nodup.
    unfold group_candidates. by rewrite <-list_fmap_compose.
Qed.

Lemma filter_take {A} (P : A → Prop) `{∀ x, Decision (P x)} n (l : list A) :
  filter P (take n l) = take (length (filter P (take n l))) (filter P l).
Proof. rewrite <-(take_drop n l) at 3. by rewrite filter_app, take_app_length. Qed.

(** ** Victims *)

Abbreviation Victim := (ConsumerGroupId * ConsumerId)%type (only parsing).

Definition candidate_victim (e : Candidate) : Victim := (e.1.2, e.2).

Lemma victims_in_filter gid (l : list Candidate) :
  victims_in gid (candidate_victim <$> l) = snd <$> filter (λ e : Candidate, e.1.2 = gid) l.
Proof.
  induction l as [|e l IH]; [done|]. rewrite fmap_cons, filter_cons.
  unfold victims_in in *. cbn [omap list_omap]. simpl. case_decide; simpl; by rewrite IH.
Qed.

(** What the group reaps is what the global selection assigned to it. *)
Lemma victims_of_group c s gid g :
  s_groups s !! gid = Some g → members_keyed (g_consumers g) →
  victims_in gid (reap_victims c s) =
  (take_N (len (victims_in gid (reap_victims c s)))
    (bset_iter (stale_entries (rp_stale_before_ms c) (g_consumers g)))).*2.
Proof.
  intros Hg Hk. rewrite <-(candidates_of_group _ _ _ _ Hg Hk).
  unfold reap_victims. rewrite !victims_in_filter. unfold len.
  rewrite !take_N_take, Nat2N.id, length_fmap.
  rewrite filter_take at 1. rewrite <-fmap_take, <-list_fmap_compose. done.
Qed.

Lemma elem_of_victims_in gid vs mid : mid ∈ victims_in gid vs ↔ (gid, mid) ∈ vs.
Proof.
  unfold victims_in. rewrite list_elem_of_omap. split.
  - intros ([g m] & Hin & Hx). simpl in Hx. case_decide; naive_solver.
  - intros Hin. exists (gid, mid). split; [done|]. simpl. by rewrite decide_True.
Qed.

Lemma victims_in_nil gid vs : gid ∉ vs.*1 → victims_in gid vs = [].
Proof.
  intros Hni. apply elem_of_nil_inv. intros mid Hin%elem_of_victims_in. apply Hni.
  apply list_elem_of_fmap. by exists (gid, mid).
Qed.

Lemma victims_in_not_nil gid vs : gid ∈ vs.*1 → victims_in gid vs ≠ [].
Proof.
  intros ([g mid] & -> & Hin)%list_elem_of_fmap Hnil. simpl in *.
  apply elem_of_victims_in in Hin. rewrite Hnil in Hin. by apply elem_of_nil in Hin.
Qed.

(** Every victim is a current member of its group. *)
Lemma victims_are_members c s gid mid :
  (∀ id g, s_groups s !! id = Some g → members_keyed (g_consumers g)) →
  (gid, mid) ∈ reap_victims c s →
  ∃ g, s_groups s !! gid = Some g ∧ is_Some (g_consumers g !! mid).
Proof.
  intros Hk ([[h g'] m'] & [= -> ->] & Hin%elem_of_take_N)%list_elem_of_fmap. simpl in *.
  assert ((h, g', m') ∈ filter (λ e : Candidate, e.1.2 = g')
    (reap_candidates (rp_stale_before_ms c) (s_groups s))) as Hf.
  { by apply list_elem_of_filter. }
  rewrite filter_candidates in Hf.
  destruct (s_groups s !! g') as [g|] eqn:Hg; [|by apply elem_of_nil in Hf].
  exists g. split; [done|]. unfold group_candidates in Hf.
  apply list_elem_of_fmap in Hf as (mem & [= -> ->] & [_ Hm]%list_elem_of_filter).
  apply elem_of_bmap_values in Hm as [k Hm]. rewrite (Hk _ _ Hg _ _ Hm). eauto.
Qed.

Lemma select_members_lookup cands sel gid :
  select_members cands sel !! gid =
  match victims_in gid (candidate_victim <$> cands) with
  | [] => sel !! gid
  | mids => Some (default [] (sel !! gid) ++ mids)%list
  end.
Proof.
  revert sel. induction cands as [|[[h g] m] cands IH]; intros sel; [done|].
  rewrite fmap_cons. cbn [select_members]. rewrite IH, lookup_insert.
  change (victims_in gid (candidate_victim (h, g, m) :: ?l)) with
    (victims_in gid ((g, m) :: l)).
  unfold victims_in. cbn [omap list_omap]. simpl. case_decide; [subst|done].
  destruct (omap _ (candidate_victim <$> cands)); simpl; [done|]. by rewrite <-app_assoc.
Qed.

Lemma selected_groups cands :
  bmap_iter (select_members cands ∅) =
  (λ gid, (gid, victims_in gid (candidate_victim <$> cands))) <$>
    bset_iter (list_to_set (candidate_victim <$> cands).*1).
Proof.
  set (vs := candidate_victim <$> cands).
  assert (∀ gid, select_members cands ∅ !! gid =
    match victims_in gid vs with [] => None | mids => Some mids end) as Hl.
  { intros gid. rewrite select_members_lookup. fold vs. rewrite lookup_empty. by case_match. }
  assert (dom (select_members cands ∅) = (list_to_set vs.*1 : gset ConsumerGroupId)) as Hdom.
  { apply set_eq. intros gid. rewrite elem_of_dom, elem_of_list_to_set, Hl.
    destruct (decide (gid ∈ vs.*1)) as [Hin|Hni].
    - pose proof (victims_in_not_nil _ _ Hin). by destruct (victims_in gid vs).
    - rewrite victims_in_nil by done. split; [by intros []|done]. }
  unfold bmap_iter, bmap_keys. rewrite Hdom.
  assert (∀ gid, gid ∈ bset_iter (list_to_set vs.*1 : gset ConsumerGroupId) →
    select_members cands ∅ !! gid = Some (victims_in gid vs)) as Hsome.
  { intros gid Hin%elem_of_bset_iter%elem_of_list_to_set%victims_in_not_nil. rewrite Hl.
    by destruct (victims_in gid vs). }
  clear Hdom Hl. induction (bset_iter _) as [|gid l IH]; [done|]. simpl.
  rewrite Hsome by by left. simpl. f_equal. apply IH. intros ? ?. apply Hsome. by right.
Qed.

(** ** The counter preflight *)

Lemma preflight_members_spec gid mids m :
  IndexInv ∅ m → preflight_members gid mids m = requeue_checks gid mids (m_tasks m).
Proof.
  intros Hi. induction mids as [|mid mids IH]; [done|]. simpl.
  rewrite preflight_member_lease_requeue_spec by done. by destruct (requeue_check _ _ _).
Qed.

Lemma preflight_groups_spec gids vs m :
  IndexInv ∅ m →
  preflight_groups ((λ gid, (gid, victims_in gid vs)) <$> gids) m =
  reap_check gids vs (m_state m).
Proof.
  intros Hi. induction gids as [|gid gids IH]; [done|]. simpl.
  rewrite preflight_members_spec by done. destruct (m_groups m !! gid); simpl; [|done].
  repeat (case_match; [|done]). exact IH.
Qed.

Lemma requeue_checks_ok gid mids tasks u :
  requeue_checks gid mids tasks = Ok u →
  ∀ mid id t, mid ∈ mids → tasks !! id = Some t → leased_by gid mid t = true →
    t_revision t < u64_max.
Proof.
  induction mids as [|m mids IH]; simpl; [by intros _ ??? []%elem_of_nil|].
  destruct (requeue_check gid m tasks) eqn:E; [|done].
  intros Hok mid id t [->|Hin]%elem_of_cons; [by eapply requeue_check_ok|by eapply IH].
Qed.

(** What a passed preflight guarantees for each affected group. *)
Definition reap_room (gid : ConsumerGroupId) (vs : list Victim) (s : BrokerState) : Prop :=
  (∃ g, s_groups s !! gid = Some g ∧ g_generation g < u64_max ∧ g_revision g < u64_max) ∧
  (∀ mid id t, mid ∈ victims_in gid vs → s_tasks s !! id = Some t →
     leased_by gid mid t = true → t_revision t < u64_max).

Lemma reap_check_ok gids vs s u :
  reap_check gids vs s = Ok u → ∀ gid, gid ∈ gids → reap_room gid vs s.
Proof.
  induction gids as [|g0 gids IH]; simpl; [by intros _ ? []%elem_of_nil|].
  destruct (s_groups s !! g0) as [g|] eqn:Hg; [|done]. simpl.
  destruct (Generation_next (g_generation g)) eqn:H1; [|done].
  destruct (Revision_next (g_revision g)) eqn:H2; [|done]. simpl.
  destruct (requeue_checks _ _ _) eqn:H3; [|done].
  apply counter_next_ok in H1 as [_ ?]. apply counter_next_ok in H2 as [_ ?].
  intros Hok gid [->|Hin]%elem_of_cons; [|by apply IH].
  split; [eauto|by eapply requeue_checks_ok].
Qed.

(** ** Requeueing the leases of removed members *)

Lemma requeue_where_compose P Q tasks :
  (∀ t, Q (requeued t) = false) →
  requeue_where Q (requeue_where P tasks) = requeue_where (λ t, P t || Q t) tasks.
Proof.
  intros HQ. unfold requeue_where. rewrite <-map_fmap_compose. apply map_fmap_ext.
  intros i t _. simpl. destruct (P t); simpl; [by rewrite HQ|done].
Qed.

Lemma requeue_where_ext P Q tasks :
  (∀ t, P t = Q t) → requeue_where P tasks = requeue_where Q tasks.
Proof. intros HPQ. apply map_fmap_ext. intros i t _. by rewrite HPQ. Qed.

Lemma leased_by_any_requeued vs t : leased_by_any vs (requeued t) = false.
Proof. induction vs; simpl; [done|]. by rewrite leased_by_requeued. Qed.

(** Requeueing others does not touch a task that is still leased. *)
Lemma requeue_where_still_leased P tasks id t g mid :
  requeue_where P tasks !! id = Some t → leased_by g mid t = true → tasks !! id = Some t.
Proof.
  intros (u & Hu & ->)%requeue_where_lookup Hby. destruct (P u); [|done].
  by rewrite leased_by_requeued in Hby.
Qed.

Lemma requeue_removed_spec gid removed m :
  IndexInv ∅ m →
  (∀ c id t, c ∈ removed → m_tasks m !! id = Some t → leased_by gid (c_id c) t = true →
     t_revision t < u64_max) →
  ∃ m', requeue_removed gid removed m = (Ok tt, m') ∧ IndexInv ∅ m' ∧
    m_state m' = set_tasks (requeue_where (leased_by_any (pair gid <$> (c_id <$> removed)))
                              (m_tasks m)) (m_state m).
Proof.
  revert m. induction removed as [|c removed IH]; intros m Hi Hroom; simpl.
  { exists m. split_and!; [done..|]. rewrite requeue_where_id; [by destruct m as [[]]|done]. }
  destruct (requeue_member_leases_spec gid (c_id c) m Hi) as (n & m1 & -> & Hi1 & Hs1).
  { intros. eapply Hroom; [by left|done..]. }
  destruct (IH m1 Hi1) as (m2 & -> & Hi2 & Hs2).
  { intros c' id t Hc' Ht Hby. rewrite Hs1 in Ht. simpl in Ht.
    apply (requeue_where_still_leased _ _ _ _ _ _ Ht) in Hby as Ht'.
    eapply Hroom; [by right|done..]. }
  exists m2. split_and!; [done..|]. rewrite Hs2, Hs1. unfold set_tasks. simpl.
  rewrite requeue_where_compose; [done|]. intros. apply leased_by_any_requeued.
Qed.

(** ** Reaping one group *)

Lemma lookup_ids_of_members cs (mids : list ConsumerId) :
  members_keyed cs → (∀ mid, mid ∈ mids → is_Some (cs !! mid)) →
  c_id <$> omap (λ id, cs !! id) mids = mids.
Proof.
  intros Hk. induction mids as [|mid mids IH]; intros Hin; [done|]. simpl.
  destruct (Hin mid) as [c Hc]; [by left|]. rewrite Hc, fmap_cons. f_equal.
  - by apply Hk.
  - apply IH. intros. apply Hin. by right.
Qed.

Lemma Group_reap_victims cutoff mids g :
  members_keyed (g_consumers g) → mids ≠ [] →
  mids = (take_N (len mids) (bset_iter (stale_entries cutoff (g_consumers g)))).*2 →
  g_generation g < u64_max → g_revision g < u64_max →
  ∃ removed, c_id <$> removed = mids ∧
    Group_reap_stale_members cutoff (len mids) g =
    (Ok removed, group_set g (g_generation g + 1) (g_revision g + 1)
                   (filter (λ kv, kv.1 ∉ mids) (g_consumers g))).
Proof.
  intros Hk Hne Hmids Hg Hr. exists (omap (λ id, g_consumers g !! id) mids).
  assert (∀ mid, mid ∈ mids → is_Some (g_consumers g !! mid)) as Hin.
  { intros mid. rewrite Hmids. by apply elem_of_stale_ids. }
  split; [by apply lookup_ids_of_members|].
  unfold Group_reap_stale_members. rewrite <-Hmids.
  assert (NoDup mids) by (rewrite Hmids; by apply stale_ids_nodup).
  assert ((len mids =? 0) = false) as ->.
  { apply N.eqb_neq. destruct mids; [done|]. unfold len; simpl; lia. }
  unfold Generation_next, Revision_next. rewrite !counter_next_lt by done. simpl.
  rewrite remove_members_spec by done. by destruct mids.
Qed.

(** ** The loop over the affected groups *)

Definition reap_in (vs : list Victim) (gids : list ConsumerGroupId)
    (groups : gmap ConsumerGroupId ConsumerGroup) : gmap ConsumerGroupId ConsumerGroup :=
  map_imap (λ gid g, Some (if decide (gid ∈ gids) then reap_group vs gid g else g)) groups.

Definition leased_by_groups (vs : list Victim) (gids : list ConsumerGroupId) (t : Task) : bool :=
  existsb (λ gid, leased_by_any (pair gid <$> victims_in gid vs) t) gids.

Definition reaped_total (vs : list Victim) (gids : list ConsumerGroupId) : N :=
  foldr (λ gid n, len (victims_in gid vs) + n) 0 gids.

Lemma leased_by_groups_requeued vs gids t : leased_by_groups vs gids (requeued t) = false.
Proof.
  induction gids as [|gid gids IH]; [done|]. unfold leased_by_groups in *. simpl.
  by rewrite leased_by_any_requeued.
Qed.

Lemma reap_in_nil vs groups : reap_in vs [] groups = groups.
Proof.
  apply map_eq. intros i. unfold reap_in. rewrite map_lookup_imap.
  by destruct (groups !! i).
Qed.

Lemma reap_in_cons vs gid gids groups g :
  gid ∉ gids → groups !! gid = Some g →
  reap_in vs gids (<[gid := reap_group vs gid g]> groups) = reap_in vs (gid :: gids) groups.
Proof.
  intros Hni Hg. apply map_eq. intros i. unfold reap_in. rewrite !map_lookup_imap.
  destruct (decide (gid = i)) as [->|Hi].
  - rewrite lookup_insert_eq, Hg. cbn [mbind option_bind].
    rewrite decide_False, decide_True; [done|by left|done].
  - rewrite lookup_insert_ne by done. destruct (groups !! i); [|done]. cbn [mbind option_bind].
    f_equal. apply decide_ext. rewrite elem_of_cons. naive_solver.
Qed.

(** What the loop needs of every group still to be reaped. *)
Definition reap_ready (cutoff : TimestampMs) (vs : list Victim) (gid : ConsumerGroupId)
    (s : BrokerState) : Prop :=
  victims_in gid vs ≠ [] ∧ reap_room gid vs s ∧
  ∀ g, s_groups s !! gid = Some g →
    members_keyed (g_consumers g) ∧
    victims_in gid vs = (take_N (len (victims_in gid vs))
      (bset_iter (stale_entries cutoff (g_consumers g)))).*2.

Lemma reap_ready_frame cutoff vs gid s s' P :
  s_groups s' !! gid = s_groups s !! gid → s_tasks s' = requeue_where P (s_tasks s) →
  reap_ready cutoff vs gid s → reap_ready cutoff vs gid s'.
Proof.
  intros Hg Ht (Hne & [Hcnt Hroom] & Hsel). split; [done|]. unfold reap_room. rewrite Hg, Ht.
  split; [|done]. split; [done|]. intros mid id t Hin Hid Hby.
  eapply Hroom; [done| |done]. by eapply requeue_where_still_leased.
Qed.

Lemma reap_groups_spec cutoff vs gids n affected m :
  NoDup gids → IndexInv ∅ m → (∀ gid, gid ∈ gids → reap_ready cutoff vs gid (m_state m)) →
  ∃ m', reap_groups cutoff ((λ gid, (gid, victims_in gid vs)) <$> gids) n affected m =
          (Ok (n + reaped_total vs gids, (affected ++ gids)%list), m') ∧ IndexInv ∅ m' ∧
        m_state m' = {| s_term := s_term (m_state m); s_revision := m_revision m;
          s_namespaces := s_namespaces (m_state m);
          s_tasks := requeue_where (leased_by_groups vs gids) (m_tasks m);
          s_groups := reap_in vs gids (m_groups m) |}.
Proof.
  intros Hnd. revert n affected m.
  induction Hnd as [|gid gids Hni Hnd IH]; intros n affected m Hi Hready.
  { exists m. simpl. rewrite N.add_0_r, app_nil_r. split_and!; [done..|].
    rewrite reap_in_nil, requeue_where_id by done. by destruct m as [[]]. }
  destruct (Hready gid ltac:(by left)) as (Hne & [(g & Hg & Hgen & Hrev) Hroom] & Hsel).
  destruct (Hsel g Hg) as [Hk Hmids].
  destruct (Group_reap_victims cutoff _ g Hk Hne Hmids Hgen Hrev) as (removed & Hids & Hreap).
  rewrite fmap_cons. cbn [reap_groups].
  unfold Coordinator_reap_stale_members, with_group_mut. rewrite Hg, Hreap. simpl.
  assert (is_nil removed = false) as -> by (destruct removed; [by rewrite <-Hids in Hne|done]).
  match goal with |- context [requeue_removed gid removed ?m1] =>
    destruct (requeue_removed_spec gid removed m1) as (m2 & -> & Hi2 & Hs2) end; simpl.
  { apply with_groups_inv; [done|]. eapply counts_ok_same; [done..|]. apply Hi. }
  { intros c id t Hc. apply Hroom. rewrite <-Hids. by apply list_elem_of_fmap_2. }
  assert (reap_group vs gid g = group_set g (g_generation g + 1) (g_revision g + 1)
    (filter (λ kv, kv.1 ∉ victims_in gid vs) (g_consumers g))) as Hrg.
  { unfold reap_group. by destruct (victims_in gid vs). }
  rewrite <-Hrg in Hs2. rewrite Hids in Hs2.
  destruct (IH (n + len removed) (affected ++ [gid])%list m2 Hi2) as (m3 & -> & Hi3 & Hs3).
  { intros gid' Hin. eapply reap_ready_frame; [| |apply Hready; by right]; rewrite Hs2; simpl;
      [|done]. rewrite lookup_insert_ne; [done|]. by intros ->. }
  exists m3. split_and!; [| done|].
  - f_equal. f_equal. f_equal; [|by rewrite <-app_assoc]. simpl. rewrite <-Hids.
    unfold len. rewrite length_fmap. lia.
  - rewrite Hs3, Hs2. simpl. rewrite reap_in_cons by done. f_equal.
    rewrite requeue_where_compose; [done|]. intros t. apply leased_by_groups_requeued.
Qed.

(** ** Putting the selection and the loop together *)

Lemma filter_cons_gid (vs : list Victim) gid l :
  gid ∉ l →
  len (filter (λ v, v.1 ∈ gid :: l) vs) =
  len (victims_in gid vs) + len (filter (λ v, v.1 ∈ l) vs).
Proof.
  intros Hni. induction vs as [|[g mid] vs IH]; [done|]. rewrite !filter_cons.
  assert (victims_in gid ((g, mid) :: vs) =
    if decide (g = gid) then mid :: victims_in gid vs else victims_in gid vs) as ->.
  { unfold victims_in. cbn [omap list_omap]. simpl. by case_decide. }
  cbn [fst]. unfold len in *.
  repeat case_decide; rewrite ?elem_of_cons in *; simpl; subst; try naive_solver; lia.
Qed.

Lemma reaped_total_filter vs l :
  NoDup l → reaped_total vs l = len (filter (λ v, v.1 ∈ l) vs).
Proof.
  induction 1 as [|gid l Hni Hnd IH]; simpl.
  - rewrite filter_none; [done|]. apply Forall_true. intros. apply not_elem_of_nil.
  - by rewrite IH, filter_cons_gid.
Qed.

Section affected_groups.
Context (vs : list Victim) (gids : list ConsumerGroupId).
Hypothesis Hgids : ∀ gid, gid ∈ gids ↔ gid ∈ vs.*1.

Lemma reap_in_all groups :
  reap_in vs gids groups = map_imap (λ gid g, Some (reap_group vs gid g)) groups.
Proof.
  apply map_eq. intros i. unfold reap_in. rewrite !map_lookup_imap.
  destruct (groups !! i); [|done]. cbn [mbind option_bind]. case_decide as Hd; [done|].
  rewrite Hgids in Hd. unfold reap_group. by rewrite victims_in_nil.
Qed.

Lemma leased_by_groups_all t : leased_by_groups vs gids t = leased_by_any vs t.
Proof.
  apply eq_true_iff_eq. unfold leased_by_groups, leased_by_any.
  rewrite !existsb_exists. setoid_rewrite existsb_exists. setoid_rewrite <-list_elem_of_In.
  setoid_rewrite list_elem_of_fmap. setoid_rewrite elem_of_victims_in. split.
  - intros (gid & _ & [g' mid'] & (mid & [= -> ->] & Hin) & Hby). eauto.
  - intros ([gid mid] & Hin & Hby). exists gid. split.
    + apply Hgids, list_elem_of_fmap. by exists (gid, mid).
    + exists (gid, mid). split; [|done]. eauto.
Qed.

Lemma reaped_total_all : NoDup gids → reaped_total vs gids = len vs.
Proof.
  intros Hnd. rewrite reaped_total_filter by done. f_equal. apply filter_all, Forall_forall.
  intros v Hv. apply Hgids. by apply list_elem_of_fmap_2.
Qed.
End affected_groups.

Lemma reap_refines c m :
  (∀ id g, m_groups m !! id = Some g → members_keyed (g_consumers g)) → IndexInv ∅ m →
  on_state (reap_stale_members c m) = spec_reap c (m_state m) ∧
  IndexInv ∅ (reap_stale_members c m).2.
Proof.
  intros Hkey Hi. unfold reap_stale_members, spec_reap. case_match; [done|].
  rewrite selected_groups.
  change (candidate_victim <$> take_N (rp_max_members c) _) with (reap_victims c (m_state m)).
  assert (is_nil (take_N (rp_max_members c) (reap_candidates (rp_stale_before_ms c) (m_groups m))) =
          is_nil (reap_victims c (m_state m))) as -> by (unfold reap_victims; by rewrite is_nil_fmap).
  set (vs := reap_victims c (m_state m)). set (gids := bset_iter (list_to_set vs.*1)).
  assert (∀ gid, gid ∈ gids ↔ gid ∈ vs.*1) as Hgids.
  { intros gid. unfold gids. by rewrite elem_of_bset_iter, elem_of_list_to_set. }
  assert (NoDup gids) as Hnd by apply bset_iter_nodup.
  destruct (is_nil vs) eqn:Hnil; [done|].
  destruct (next_revision _) as [next|]; [|done].
  rewrite preflight_groups_spec by done.
  destruct (reap_check gids vs (m_state m)) as [u|] eqn:Hck; [|done].
  destruct (reap_groups_spec (rp_stale_before_ms c) vs gids 0 [] m Hnd Hi)
    as (m' & -> & Hi' & Hs').
  { intros gid Hin. split_and!; [by apply victims_in_not_nil, Hgids|by eapply reap_check_ok|].
    intros g Hg. split; [by eapply Hkey|]. apply victims_of_group; [done|by eapply Hkey]. }
  rewrite N.add_0_l, (reaped_total_all vs gids Hgids Hnd). simpl.
  assert ((0 <? len vs) = true) as ->.
  { apply N.ltb_lt. destruct vs; [done|]. unfold len; simpl; lia. }
  rewrite (reap_in_all vs gids Hgids), (requeue_where_ext _ _ _ (leased_by_groups_all vs gids Hgids))
    in Hs'.
  split; [unfold on_state, metadata; simpl; by rewrite Hs'|].
  eapply IndexInv_ext; [..|exact Hi']; done.
Qed.
