(* ===== verification/Effect.v ===== *)
(** * What one command can do to the state

    Every specified operation has one of a few effects; a failed one has none.
    From the effects follow the state invariant and the evolution laws. *)

From S2P Require Import Prelude Values Task Group Messages Machine Spec Invariant Refinement Claim.
From S2P Require Import Reap.

(** Only completed tasks disappear. *)
Definition tasks_survive (s s' : BrokerState) : Prop :=
  map_Forall (λ id t, is_Some (s_tasks s' !! id) ∨ Task_status t = StatusCompleted) (s_tasks s).

Definition next_state (s : BrokerState) (nss : gmap NamespaceId Namespace)
    (tasks : gmap TaskId Task) (groups : gmap ConsumerGroupId ConsumerGroup) : BrokerState := {|
  s_term := s_term s; s_revision := s_revision s + 1;
  s_namespaces := nss; s_tasks := tasks; s_groups := groups |}.

Inductive effect (s : BrokerState) : BrokerState → Prop :=
  | eff_none : effect s s
  | eff_update s' :
      s_revision s' = s_revision s + 1 → state_update s s' → tasks_survive s s' → effect s s'
  | eff_namespace id :
      s_namespaces s !! id = None →
      effect s (next_state s (<[id := Namespace_new id]> (s_namespaces s)) (s_tasks s) (s_groups s))
  | eff_publish id ns objective created :
      s_tasks s !! id = None → is_Some (s_namespaces s !! ns) →
      effect s (next_state s (s_namespaces s)
        (<[id := Task_new id ns objective created]> (s_tasks s)) (s_groups s))
  | eff_group id ns :
      s_groups s !! id = None → is_Some (s_namespaces s !! ns) →
      effect s (next_state s (s_namespaces s) (s_tasks s)
        (<[id := ConsumerGroup_new id ns]> (s_groups s)))
  | eff_claim P id t grant g :
      requeue_where P (s_tasks s) !! id = Some t → Task_status t = StatusQueued →
      s_groups s !! lg_group_id grant = Some g → g_namespace_id g = t_namespace_id t →
      is_Some (g_consumers g !! lg_owner_member_id grant) →
      lg_generation grant = g_generation g →
      (∀ i u, requeue_where P (s_tasks s) !! i = Some u → holds_lease (lg_lease_id grant) u = false) →
      effect s (next_state s (s_namespaces s)
        (<[id := claimed grant t]> (requeue_where P (s_tasks s))) (s_groups s)).

(** ** The effect of each operation *)

Definition has_effect {A} (s : BrokerState) (r : result A StateMachineError * BrokerState) : Prop :=
  match r.1 with Ok _ => effect s r.2 | Err _ => r.2 = s end.

Lemma has_effect_err {A} s e : has_effect s (@Err A _ e, s).
Proof. done. Qed.

Lemma has_effect_none {A} s (a : A) : has_effect s (Ok a, s).
Proof. constructor. Qed.

Lemma has_effect_ok {A} s (a : A) s' : effect s s' → has_effect s (Ok a, s').
Proof. done. Qed.

Create HintDb effects.
#[export] Hint Resolve has_effect_err has_effect_none : effects.

Ltac no_effect := solve [unfold on_state; simpl; auto with effects].

Lemma has_effect_map {A B} (f : A → B) s r :
  has_effect s r → has_effect s (prod_map (map_ok f) id r).
Proof. destruct r as [[] ?]; done. Qed.

Lemma next_revision_ok r next : next_revision r = Ok next → next = r + 1 ∧ r < u64_max.
Proof. unfold next_revision. by intros ?%map_err_ok%counter_next_ok. Qed.

Lemma require_namespace_ok ns m u :
  require_namespace ns m = Ok u → is_Some (s_namespaces (m_state m) !! ns).
Proof. unfold require_namespace. by case_match. Qed.

Lemma ensure_namespace_effect c s : has_effect s (on_state (ensure_namespace c (bare s))).
Proof.
  unfold ensure_namespace. simpl.
  destruct (s_namespaces s !! en_namespace_id c) eqn:E; [no_effect|].
  do 2 (case_match; [no_effect|]).
  destruct (next_revision _) as [next|] eqn:Hn; [|no_effect].
  apply next_revision_ok in Hn as [-> _]. by apply (eff_namespace s (en_namespace_id c)).
Qed.

Lemma publish_effect c s : has_effect s (spec_publish c s).
Proof.
  unfold spec_publish, publish_task. simpl.
  destruct (require_namespace _ _) eqn:Hns; [|no_effect]. apply require_namespace_ok in Hns.
  destruct (s_tasks s !! pt_task_id c) eqn:E; [case_match; no_effect|].
  do 2 (case_match; [no_effect|]).
  destruct (next_revision _) as [next|] eqn:Hn; [|no_effect].
  apply next_revision_ok in Hn as [-> _]. 
  by apply (eff_publish s (pt_task_id c) (pt_namespace_id c) (pt_objective c) (pt_created_at_ms c)).
Qed.

Lemma ensure_group_effect c s : has_effect s (spec_ensure_group c s).
Proof.
  unfold spec_ensure_group, ensure_consumer_group. simpl.
  destruct (require_namespace _ _) eqn:Hns; [|no_effect]. apply require_namespace_ok in Hns.
  destruct (s_groups s !! eg_group_id c) eqn:E; [case_match; no_effect|].
  do 2 (case_match; [no_effect|]).
  destruct (next_revision _) as [next|] eqn:Hn; [|no_effect].
  apply next_revision_ok in Hn as [-> _]. simpl. rewrite lookup_insert_eq. simpl.
  by apply (eff_group s (eg_group_id c) (eg_namespace_id c)).
Qed.

(** Groups that do not change. *)
Lemma groups_unchanged s : StateInv s → ∀ id,
  option_Forall2 (λ g g', group_ok g' ∧ group_evolves g g') (s_groups s !! id) (s_groups s !! id).
Proof.
  intros Hs id. destruct (s_groups s !! id) as [g|] eqn:E; constructor.
  split; [by apply (si_groups _ Hs id g E)|apply group_evolves_refl].
Qed.

(** Only one group changes. *)
Lemma groups_insert s id g g' : StateInv s → s_groups s !! id = Some g →
  group_ok g' → group_evolves g g' → ∀ i,
  option_Forall2 (λ g g', group_ok g' ∧ group_evolves g g')
    (s_groups s !! i) (<[id := g']> (s_groups s) !! i).
Proof.
  intros Hs Hg Hok He i. rewrite lookup_insert. case_decide; [subst; rewrite Hg; by constructor|].
  by apply groups_unchanged.
Qed.

Lemma members_unchanged (groups : gmap ConsumerGroupId ConsumerGroup) id g g' mid (Q : Prop) :
  groups !! id = Some g → groups !! id = Some g' → is_Some (g_consumers g !! mid) →
  g_consumers g' !! mid = None → Q.
Proof. intros Hg Hg' [x Hm] Hn. congruence. Qed.

Lemma tasks_unchanged s id t :
  s_tasks s !! id = Some t → ∃ u, s_tasks s !! id = Some u ∧ task_evolves u t ∧ lease_kept u t.
Proof. intros Ht. exists t. split_and!; [done|reflexivity|apply lease_kept_refl]. Qed.

Lemma tasks_survive_all s s' :
  (∀ id, is_Some (s_tasks s !! id) → is_Some (s_tasks s' !! id)) → tasks_survive s s'.
Proof. intros H id t Ht. left. eauto. Qed.

Lemma advance_term_effect c s : StateInv s → has_effect s (on_state (advance_term c (bare s))).
Proof.
  intros Hs. unfold advance_term. simpl. destruct (require_term _ _); [|no_effect].
  destruct (N.leb_spec (at_new_term c) (s_term s)); [no_effect|].
  destruct (next_revision _) as [next|] eqn:Hn; [|no_effect].
  apply next_revision_ok in Hn as [-> _].
  apply has_effect_ok, eff_update; [done| |by apply tasks_survive_all].
  constructor; simpl; [lia|done|apply tasks_unchanged|by apply groups_unchanged|].
  intros id g g' mid Hg Hg' Hm Hno. exact (members_unchanged _ _ _ _ _ _ Hg Hg' Hm Hno).
Qed.

(** ** Operations on tasks *)

Lemma update_tasks s tasks :
  StateInv s →
  (∀ id t', tasks !! id = Some t' →
     ∃ t, s_tasks s !! id = Some t ∧ task_evolves t t' ∧ lease_kept t t') →
  (∀ id t, s_tasks s !! id = Some t →
     is_Some (tasks !! id) ∨ Task_status t = StatusCompleted) →
  effect s (next_state s (s_namespaces s) tasks (s_groups s)).
Proof.
  intros Hs Ht Hd. apply eff_update; [done| |exact Hd].
  constructor; simpl; [lia|done|done|by apply groups_unchanged|].
  intros id g g' mid Hg Hg' Hm Hno. exact (members_unchanged _ _ _ _ _ _ Hg Hg' Hm Hno).
Qed.

Lemma update_one_task s id t t' :
  StateInv s → s_tasks s !! id = Some t → task_evolves t t' → lease_kept t t' →
  effect s (next_state s (s_namespaces s) (<[id := t']> (s_tasks s)) (s_groups s)).
Proof.
  intros Hs Ht He Hk. apply update_tasks; [done|..].
  - intros i u. rewrite lookup_insert. case_decide; [|apply tasks_unchanged].
    intros [= <-]. subst. eauto.
  - intros i u Hu. left. rewrite lookup_insert_is_Some'. eauto.
Qed.

Lemma set_tasks_same s id t : s_tasks s !! id = Some t → set_tasks (<[id := t]> (s_tasks s)) s = s.
Proof. intros Ht. rewrite insert_id by done. by destruct s. Qed.

Lemma renew_effect c s : StateInv s → has_effect s (on_state (renew_task_lease c (bare s))).
Proof.
  intros Hs. unfold renew_task_lease. simpl.
  destruct (require_term _ _); [|no_effect].
  destruct (require_group_member _ _ _ _) as [[]|]; [|no_effect].
  destruct (checked_deadline _ _) as [exp|]; [|no_effect].
  destruct (next_revision _) as [next|] eqn:Hn; [|no_effect].
  apply next_revision_ok in Hn as [-> _].
  destruct (s_tasks s !! rn_task_id c) as [t|] eqn:Ht; [|no_effect]. simpl.
  destruct (Task_renew _ exp t) as [[[]|e] t'] eqn:E; simpl.
  - pose proof (step_renew t t' _ _ _ E) as He%task_step_evolves.
    apply Task_renew_ok in E as (l & Hl & _ & _ & ->).
    apply (update_one_task s (rn_task_id c) t (renewed l exp t)); [done..|].
    intros l' [= <-]. exists l. done.
  - apply Task_renew_err in E as ->. by apply (set_tasks_same s (rn_task_id c)).
Qed.

Lemma complete_effect c s : StateInv s → has_effect s (on_state (complete_task c (bare s))).
Proof.
  intros Hs. unfold complete_task. simpl.
  destruct (require_term _ _); [|no_effect].
  destruct (require_group_member _ _ _ _) as [|]; [|no_effect].
  destruct (next_revision _) as [next|] eqn:Hn; [|no_effect].
  apply next_revision_ok in Hn as [-> _].
  destruct (s_tasks s !! cp_task_id c) as [t|] eqn:Ht; [|no_effect]. simpl.
  destruct (Task_complete _ _ t) as [[[]|e] t'] eqn:E; simpl.
  - pose proof (step_complete t t' _ _ _ E) as He%task_step_evolves.
    apply Task_complete_ok in E as (l & Hl & _ & _ & ->).
    apply (update_one_task s (cp_task_id c) t _ Hs Ht He), lease_kept_unleased. done.
  - apply Task_complete_already in E as [-> _]. unfold on_state, has_effect. simpl.
    rewrite (set_tasks_same s _ _ Ht). constructor.
  - apply Task_complete_err in E as ->. by apply (set_tasks_same s (cp_task_id c)).
Qed.

Lemma prune_effect c s : StateInv s → has_effect s (spec_prune c s).
Proof.
  intros Hs. unfold spec_prune. case_match; [no_effect|].
  set (victims := take_N _ _). destruct (is_nil victims); [no_effect|].
  destruct (next_revision _) as [next|] eqn:Hn; [|no_effect].
  apply next_revision_ok in Hn as [-> _].
  apply (update_tasks s (filter (λ kv, kv.1 ∉ victims.*2) (s_tasks s)) Hs).
  - intros id t [Ht _]%map_lookup_filter_Some. by apply tasks_unchanged.
  - intros id t Ht. destruct (decide (id ∈ victims.*2)) as [Hin|Hni].
    + right. apply list_elem_of_fmap in Hin as ([c' i] & -> & Hv).
      apply elem_of_take_N, list_elem_of_filter in Hv as [_ Hv].
      apply elem_of_completed_list in Hv as (u & Hu & (ct & Hct & _)%completed_at_true).
      simplify_eq/=. unfold Task_status. by rewrite Hct.
    + left. exists t. by apply map_lookup_filter_Some.
Qed.

(** ** Operations on groups *)

Lemma requeued_evolves t : task_evolves t (requeued t).
Proof.
  unfold requeued. destruct (t_state t) as [|l|] eqn:E; [reflexivity| |reflexivity].
  eapply task_set_evolves; [done|done|simpl; lia].
Qed.

Lemma requeue_where_kept P tasks id t' :
  requeue_where P tasks !! id = Some t' →
  ∃ t, tasks !! id = Some t ∧ task_evolves t t' ∧ lease_kept t t'.
Proof.
  intros (t & Ht & ->)%requeue_where_lookup. exists t. split; [done|].
  destruct (P t); [|split; [reflexivity|apply lease_kept_refl]].
  split; [apply requeued_evolves|]. unfold requeued.
  destruct (t_state t) eqn:E; [apply lease_kept_refl|by apply lease_kept_unleased|apply lease_kept_refl].
Qed.

Lemma requeue_where_survive P s id t :
  s_tasks s !! id = Some t → is_Some (requeue_where P (s_tasks s) !! id) ∨ Task_status t = StatusCompleted.
Proof. intros Ht. left. unfold requeue_where. rewrite lookup_fmap, Ht. eauto. Qed.

(** Groups change while the leases of removed members are requeued. *)
Lemma update_groups s P groups :
  StateInv s →
  (∀ id, option_Forall2 (λ g g', group_ok g' ∧ group_evolves g g') (s_groups s !! id) (groups !! id)) →
  (∀ id g g' mid t, s_groups s !! id = Some g → groups !! id = Some g' →
     is_Some (g_consumers g !! mid) → g_consumers g' !! mid = None →
     leased_by id mid t = true → P t = true) →
  effect s (next_state s (s_namespaces s) (requeue_where P (s_tasks s)) groups).
Proof.
  intros Hs Hg Hm. apply eff_update; [done| |intros id t; apply requeue_where_survive].
  constructor; simpl; [lia|done|apply requeue_where_kept|done|].
  intros id g g' mid H1 H2 H3 H4 i t (u & Hu & ->)%requeue_where_lookup.
  destruct (P u) eqn:HP; [apply leased_by_requeued|].
  destruct (leased_by id mid u) eqn:Hby; [|done]. by rewrite (Hm id g g' mid u) in HP.
Qed.

Lemma update_one_group s gid g g' :
  StateInv s → s_groups s !! gid = Some g → group_ok g' → group_evolves g g' →
  (∀ mid, is_Some (g_consumers g !! mid) → is_Some (g_consumers g' !! mid)) →
  effect s (next_state s (s_namespaces s) (s_tasks s) (<[gid := g']> (s_groups s))).
Proof.
  intros Hs Hg Hok He Hm.
  rewrite <-(requeue_where_id (λ _, false) (s_tasks s)) by done.
  apply update_groups; [done|by eapply groups_insert|].
  intros id g1 g2 mid t H1 H2 H3 H4 _. rewrite lookup_insert in H2. case_decide.
  - simplify_eq. destruct (Hm mid H3). congruence.
  - simplify_eq. destruct H3. congruence.
Qed.

Lemma Group_join_ok mid caps now max g o g' :
  Group_join mid caps now max g = (Ok o, g') →
  (o = JoinUnchanged → g' = g) ∧
  (∀ m, is_Some (g_consumers g !! m) → is_Some (g_consumers g' !! m)).
Proof.
  unfold Group_join. intros H. group_op; split; try done.
  all: intros m Hm; simpl; rewrite lookup_insert_is_Some'; auto.
Qed.

Lemma Group_heartbeat_ok mid gen now g o g' :
  Group_heartbeat mid gen now g = (Ok o, g') →
  (o = HeartbeatUnchanged → g' = g) ∧ is_Some (g_consumers g' !! mid) ∧
  (∀ m, is_Some (g_consumers g !! m) → is_Some (g_consumers g' !! m)).
Proof.
  unfold Group_heartbeat. intros H. group_op; split_and!; try done.
  1: eauto. 1: by rewrite lookup_insert_eq.
  intros m Hm; simpl; rewrite lookup_insert_is_Some'; auto.
Qed.

Lemma set_groups_same s id g :
  s_groups s !! id = Some g → set_groups (<[id := g]> (s_groups s)) s = s.
Proof. intros Hg. rewrite insert_id by done. by destruct s. Qed.

Lemma join_effect c s : StateInv s → has_effect s (on_state (join_consumer_group c (bare s))).
Proof.
  intros Hs. unfold join_consumer_group. simpl.
  destruct (next_revision _) as [next|] eqn:Hn; [|no_effect].
  apply next_revision_ok in Hn as [-> _].
  destruct (Coordinator_join _ _ _ _ _ _) as [r groups] eqn:E.
  apply with_group_mut_cases in E as [(Hg & -> & ->)|(g & r' & g' & Hg & Ho & -> & ->)].
  { by destruct s. }
  destruct (si_groups _ Hs _ _ Hg) as (Hid & Hok & _).
  destruct r' as [o|e]; simpl;
    [|apply Group_join_err in Ho as ->; by apply (set_groups_same s (jg_group_id c))].
  rewrite lookup_insert_eq. simpl.
  destruct (Group_join_step _ _ _ _ _ _ _ Hok Ho) as [Hok' He].
  destruct (Group_join_ok _ _ _ _ _ _ _ Ho) as [Hsame Hm]. case_decide as Hd.
  - rewrite (Hsame Hd). unfold on_state, has_effect. simpl.
    rewrite (set_groups_same s _ _ Hg). constructor.
  - by apply (update_one_group s (jg_group_id c) g g').
Qed.

Lemma heartbeat_effect c s : StateInv s → has_effect s (on_state (heartbeat c (bare s))).
Proof.
  intros Hs. unfold heartbeat. simpl.
  destruct (next_revision _) as [next|] eqn:Hn; [|no_effect].
  apply next_revision_ok in Hn as [-> _].
  destruct (Coordinator_heartbeat _ _ _ _ _) as [r groups] eqn:E.
  apply with_group_mut_cases in E as [(Hg & -> & ->)|(g & r' & g' & Hg & Ho & -> & ->)].
  { by destruct s. }
  destruct (si_groups _ Hs _ _ Hg) as (Hid & Hok & _).
  destruct r' as [o|e]; simpl;
    [|apply Group_heartbeat_err in Ho as ->; by apply (set_groups_same s (hb_group_id c))].
  rewrite lookup_insert_eq. simpl.
  destruct (Group_heartbeat_step _ _ _ _ _ _ Hok Ho) as [Hok' He].
  destruct (Group_heartbeat_ok _ _ _ _ _ _ Ho) as (Hsame & [mem Hmem] & Hm).
  rewrite Hmem. simpl. case_decide as Hd.
  - by apply (update_one_group s (hb_group_id c) g g').
  - rewrite Hsame by by destruct o. unfold on_state, has_effect. simpl.
    rewrite (set_groups_same s _ _ Hg). constructor.
Qed.

Lemma leave_effect c s : StateInv s → has_effect s (spec_leave c s).
Proof.
  intros Hs. unfold spec_leave. simpl.
  destruct (next_revision _) as [next|] eqn:Hn; [|no_effect].
  apply next_revision_ok in Hn as [-> _]. destruct (requeue_check _ _ _); [|no_effect].
  destruct (s_groups s !! lv_group_id c) as [g|] eqn:Hg; [|no_effect].
  destruct (Group_leave _ _ g) as [[mem|e] g'] eqn:Ho; [|no_effect].
  destruct (si_groups _ Hs _ _ Hg) as (Hid & Hok & _).
  destruct (Group_leave_step _ _ _ _ _ Hok Ho) as [Hok' He].
  apply (update_groups s (leased_by (lv_group_id c) (lv_member_id c))
    (<[lv_group_id c := g']> (s_groups s)) Hs); [by eapply groups_insert|].
  intros id g1 g2 mid t H1 H2 H3 H4 Hby. rewrite lookup_insert in H2. case_decide.
  - simplify_eq. destruct (decide (mid = lv_member_id c)) as [->|Hne]; [done|].
    unfold Group_leave in Ho. group_op. rewrite lookup_delete_ne in H4 by done.
    destruct H3. congruence.
  - simplify_eq. destruct H3. congruence.
Qed.

Lemma StateInv_keyed s id g :
  StateInv s → s_groups s !! id = Some g → members_keyed (g_consumers g).
Proof. intros Hs Hg. apply group_ok_keyed. by apply (si_groups _ Hs) in Hg as (_ & ? & _). Qed.

Lemma reap_group_step c s gid g :
  StateInv s → s_groups s !! gid = Some g →
  group_ok (reap_group (reap_victims c s) gid g) ∧
  group_evolves g (reap_group (reap_victims c s) gid g).
Proof.
  intros Hs Hg. destruct (si_groups _ Hs _ _ Hg) as (_ & Hok & _). unfold reap_group.
  destruct (victims_in gid (reap_victims c s)) as [|mid mids] eqn:E;
    [split; [done|apply group_evolves_refl]|].
  split; [by apply group_ok_filter|]. apply group_set_members. intros Hd.
  destruct (victims_are_members c s gid mid) as (g' & Hg' & Hm).
  { intros. by eapply StateInv_keyed. }
  { apply elem_of_victims_in. rewrite E. by left. }
  simplify_eq. rewrite <-elem_of_dom, <-Hd, elem_of_dom in Hm.
  destruct Hm as [x [_ Hni]%map_lookup_filter_Some]. destruct Hni. by left.
Qed.

Lemma reap_effect c s : StateInv s → has_effect s (spec_reap c s).
Proof.
  intros Hs. unfold spec_reap. case_match; [no_effect|].
  set (vs := reap_victims c s). destruct (is_nil vs); [no_effect|].
  destruct (next_revision _) as [next|] eqn:Hn; [|no_effect].
  apply next_revision_ok in Hn as [-> _]. destruct (reap_check _ _ _); [|no_effect].
  apply (update_groups s (leased_by_any vs)
    (map_imap (λ gid g, Some (reap_group vs gid g)) (s_groups s)) Hs).
  - intros gid. rewrite map_lookup_imap. destruct (s_groups s !! gid) as [g|] eqn:Hg; constructor.
    by apply reap_group_step.
  - intros gid g g' mid t Hg Hg' [x Hm] Hno Hby. rewrite map_lookup_imap, Hg in Hg'.
    simplify_eq/=. unfold leased_by_any. apply existsb_exists. exists (gid, mid). split; [|done].
    apply list_elem_of_In, elem_of_victims_in. unfold reap_group in Hno.
    destruct (victims_in gid vs) as [|y l] eqn:E; [congruence|]. simpl in Hno.
    apply map_lookup_filter_None in Hno as [?|Hno]; [congruence|].
    specialize (Hno x Hm). simpl in Hno. by apply dec_stable.
Qed.

Lemma require_member_ok groups gid mid gen ns gen' :
  require_member groups gid mid gen = Ok (ns, gen') →
  ∃ g, groups !! gid = Some g ∧ is_Some (g_consumers g !! mid) ∧
       ns = g_namespace_id g ∧ gen' = g_generation g ∧ gen = gen'.
Proof.
  unfold require_member. destruct (groups !! gid) as [g|] eqn:E; [|done]. simpl.
  unfold require_generation. destruct (N.eqb_spec (g_generation g) gen); [|done]. simpl.
  destruct (g_consumers g !! mid) eqn:Em; [|done]. intros [= <- <-]. eauto 10.
Qed.

Lemma claim_effect c s : StateInv s → has_effect s (spec_claim c s).
Proof.
  intros Hs. unfold spec_claim. destruct (require_term _ _); [|no_effect].
  destruct (require_group_member _ _ _ _) as [[ns gen]|] eqn:Hm; [|no_effect].
  unfold require_group_member in Hm. apply map_err_ok in Hm.
  apply require_member_ok in Hm as (g & Hg & Hmem & -> & -> & _). simpl in Hg.
  destruct (lease_holder _ _) eqn:Hh; [case_match; no_effect|].
  set (P := expired_in (g_namespace_id g) (cl_now_ms c)).
  destruct (ready_list _ _) as [|[c0 id] h] eqn:Hrl; simpl; [no_effect|].
  destruct (checked_deadline _ _) as [exp|]; [|no_effect].
  destruct (next_revision _) as [next|] eqn:Hn; [|no_effect].
  apply next_revision_ok in Hn as [-> _].
  assert ((c0, id) ∈ ready_list (g_namespace_id g) (requeue_where P (s_tasks s))) as Hin.
  { rewrite Hrl. by left. }
  apply elem_of_ready_list in Hin as (t & Ht & _ & [Hq Hns]%queued_in_true).
  rewrite Ht. simpl.
  apply (eff_claim s P id t {| lg_lease_id := cl_lease_id c; lg_owner_member_id := cl_member_id c;
    lg_group_id := cl_group_id c; lg_generation := g_generation g; lg_expires_at_ms := exp |} g);
    simpl; try done.
  intros i u (v & Hv & ->)%requeue_where_lookup.
  destruct (holds_lease _ _) eqn:Hl; [|done]. exfalso.
  assert (v ∈ filter (λ t, holds_lease (cl_lease_id c) t = true) (bmap_values (s_tasks s))) as Hf.
  { apply list_elem_of_filter. split; [|apply elem_of_bmap_values; eauto].
    destruct (P v); [|done]. unfold requeued, holds_lease in *.
    destruct (t_state v) eqn:E; simpl in *; try done; by rewrite E in Hl. }
  unfold lease_holder in Hh. destruct (filter _ _); [by apply elem_of_nil in Hf|done].
Qed.

Lemma spec_handle_effect cmd s : StateInv s → has_effect s (spec_handle cmd s).
Proof.
  intros Hs. destruct cmd; cbn [spec_handle handle].
  - apply (has_effect_map RNamespace s (on_state _)), ensure_namespace_effect.
  - apply has_effect_map, publish_effect.
  - apply has_effect_map, ensure_group_effect.
  - by apply (has_effect_map RConsumerGroup s (on_state _)), join_effect.
  - by apply (has_effect_map RHeartbeat s (on_state _)), heartbeat_effect.
  - by apply has_effect_map, leave_effect.
  - by apply has_effect_map, reap_effect.
  - by apply has_effect_map, claim_effect.
  - by apply (has_effect_map RTaskLeaseRenewed s (on_state _)), renew_effect.
  - by apply (has_effect_map RTaskCompleted s (on_state _)), complete_effect.
  - by apply has_effect_map, prune_effect.
  - by apply (has_effect_map RTermAdvanced s (on_state _)), advance_term_effect.
Qed.

(** ** Effects keep the invariant *)

Lemma claimed_evolves grant t : Task_status t = StatusQueued → task_evolves t (claimed grant t).
Proof.
  intros Hq. unfold Task_status in Hq. destruct (t_state t) as [q| |] eqn:E; try done.
  eapply task_set_evolves; [done|done|]. unfold task_epoch. rewrite E. simpl. lia.
Qed.

(** Leasing a queued task under a fresh lease id to a current member. *)
Lemma StateInv_lease s id t grant g :
  StateInv s → s_tasks s !! id = Some t → Task_status t = StatusQueued →
  s_groups s !! lg_group_id grant = Some g → g_namespace_id g = t_namespace_id t →
  is_Some (g_consumers g !! lg_owner_member_id grant) → lg_generation grant = g_generation g →
  (∀ i u, s_tasks s !! i = Some u → holds_lease (lg_lease_id grant) u = false) →
  StateInv (set_tasks (<[id := claimed grant t]> (s_tasks s)) s).
Proof.
  intros Hs Ht Hq Hg Hns Hm Hgen Hfree. destruct (si_tasks _ Hs id t Ht) as (Hid & Hr & Hn).
  destruct Hs as [Hterm HN HT HG HL HU]. constructor; simpl; try done.
  - apply map_Forall_insert_2; [|done]. simpl. split_and!; [done|lia|done].
  - apply map_Forall_insert_2; [|done]. intros l [= <-]. simpl. exists g.
    split_and!; [done..|lia].
  - intros i1 i2 t1 t2 lid. rewrite !lookup_insert.
    assert (∀ lid, holds_lease lid (claimed grant t) = true → lid = lg_lease_id grant) as Hcl.
    { intros lid'. unfold holds_lease. simpl. by intros ?%bool_decide_eq_true. }
    repeat case_decide; intros H1 H2 L1 L2; simplify_eq; [done|..].
    + apply Hcl in L1 as ->. by rewrite (Hfree _ _ H2) in L2.
    + apply Hcl in L2 as ->. by rewrite (Hfree _ _ H1) in L1.
    + by eapply HU.
Qed.

Lemma requeue_update s P :
  StateInv s → state_update s (next_state s (s_namespaces s) (requeue_where P (s_tasks s)) (s_groups s)).
Proof.
  intros Hs. constructor; simpl; [lia|done|apply requeue_where_kept|by apply groups_unchanged|].
  intros id g g' mid Hg Hg' Hm Hno. exact (members_unchanged _ _ _ _ _ _ Hg Hg' Hm Hno).
Qed.

Lemma effect_inv s s' : StateInv s → effect s s' → StateInv s'.
Proof.
  intros Hs He. destruct He as [|s' _ Hu _|id Hid|id ns obj cr Hid Hns|id ns Hid Hns|
    P id t grant g Ht Hq Hg Hn Hm Hgen Hfree].
  - done.
  - by eapply StateInv_update.
  - destruct Hs as [H1 H2 H3 H4 H5 H6]. constructor; simpl; try done.
    + by apply map_Forall_insert_2.
    + intros i t Hi. destruct (H3 i t Hi) as (? & ? & ?). rewrite lookup_insert_is_Some'. eauto.
    + intros i g Hi. destruct (H4 i g Hi) as (? & ? & ?). rewrite lookup_insert_is_Some'. eauto.
  - destruct Hs as [H1 H2 H3 H4 H5 H6]. constructor; simpl; try done.
    + by apply map_Forall_insert_2.
    + by apply map_Forall_insert_2.
    + intros i1 i2 t1 t2 lid. rewrite !lookup_insert.
      repeat case_decide; intros T1 T2 L1 L2; simplify_eq; try done. by eapply H6.
  - destruct Hs as [H1 H2 H3 H4 H5 H6]. constructor; simpl; try done.
    + apply map_Forall_insert_2; [|done]. split_and!; [done| |done]. split; [done|].
      apply map_Forall_empty.
    + intros i t Hi l Hl. destruct (H5 i t Hi l Hl) as (g & Hg & ?). exists g.
      rewrite lookup_insert_ne; [done|]. intros ->. congruence.
  - pose proof (StateInv_update _ _ Hs (requeue_update s P Hs)) as Hs1.
    exact (StateInv_lease _ id t grant g Hs1 Ht Hq Hg Hn Hm Hgen Hfree).
Qed.

(** ** Effects only move forward *)

Record state_evolves (s s' : BrokerState) : Prop := {
  sv_term : s_term s ≤ s_term s';
  sv_revision : s_revision s ≤ s_revision s' ≤ s_revision s + 1;
  sv_stamped : s_revision s' = s_revision s → s' = s;
  sv_namespaces : s_namespaces s ⊆ s_namespaces s';
  sv_tasks id t : s_tasks s !! id = Some t →
    match s_tasks s' !! id with
    | Some t' => task_evolves t t'
    | None => Task_status t = StatusCompleted
    end;
  sv_groups id g : s_groups s !! id = Some g →
    ∃ g', s_groups s' !! id = Some g' ∧ group_evolves g g';
}.

Lemma state_evolves_refl s : state_evolves s s.
Proof.
  constructor; try done; [lia| |].
  - intros id t ->. reflexivity.
  - intros id g ->. eauto using group_evolves_refl.
Qed.

Lemma effect_evolves s s' : StateInv s → effect s s' → state_evolves s s'.
Proof.
  intros Hs He. destruct He as [|s' Hr Hu Hsv|id Hid|id ns obj cr Hid Hns|id ns Hid Hns|
    P id t grant g Ht Hq Hg Hn Hm Hgen Hfree]; [apply state_evolves_refl|..].
  - destruct Hu as [Uterm Uns Ut Ug _]. constructor; [done|lia|lia|by rewrite Uns|..].
    + intros i t Hi. destruct (s_tasks s' !! i) as [t'|] eqn:E.
      * apply Ut in E as (u & Hu & ? & _). by simplify_eq.
      * destruct (Hsv i t Hi) as [[? ?]|]; [congruence|done].
    + intros i g Hi. specialize (Ug i). rewrite Hi in Ug.
      inversion Ug as [? g' [Hok' Hev] Heq1 Heq2|]; subst. eauto.
  - constructor; simpl; try done; [lia|lia|by apply insert_subseteq| |].
    + intros i t ->. reflexivity.
    + intros i g ->. eauto using group_evolves_refl.
  - constructor; simpl; try done; [lia|lia| |].
    + intros i t Hi. rewrite lookup_insert_ne by congruence. by rewrite Hi.
    + intros i g ->. eauto using group_evolves_refl.
  - constructor; simpl; try done; [lia|lia| |].
    + intros i t ->. reflexivity.
    + intros i g Hi. rewrite lookup_insert_ne by congruence. eauto using group_evolves_refl.
  - constructor; simpl; try done; [lia|lia| |].
    + intros i u Hi. rewrite lookup_insert. case_decide; [subst i|].
      * apply requeue_where_kept in Ht as Ht'. destruct Ht' as (v & Hv & Hev & _). simplify_eq.
        etrans; [done|]. by apply claimed_evolves.
      * unfold requeue_where. rewrite lookup_fmap, Hi. simpl.
        destruct (P u); [apply requeued_evolves|reflexivity].
    + intros i h ->. eauto using group_evolves_refl.
Qed.
