(* ===== verification/Broker.v ===== *)
(** * The broker: invariant, refinement and runs

    Puts the handlers together: the full invariant of the state machine, the
    commands under which the indexes stay right, and runs of commands. *)

From S2P Require Import Prelude Values Task Group Messages Machine Spec Invariant Refinement Claim.
From S2P Require Import Reap Effect.

Record Inv (m : BrokerStateMachine) : Prop := {
  inv_state : StateInv (m_state m);
  inv_index : IndexInv ∅ m;
}.

(** Commands that keep the indexes right.  A claim must have room in the
    counters it advances and a deadline that fits 64 bits; a publication must
    not reuse a task id that still has an expiration entry in another
    namespace. *)
Definition admissible (cmd : BrokerCommand) (m : BrokerStateMachine) : Prop :=
  match cmd with
  | PublishTask c =>
      m_tasks m !! pt_task_id c = None →
      no_foreign_expiration (pt_task_id c) (pt_namespace_id c) (m_lease_expirations m)
  | ClaimTask c =>
      cl_now_ms c + cl_lease_duration_ms c ≤ u64_max ∧ counters_room (m_state m)
  | _ => True
  end.

#[export] Instance admissible_dec cmd m : Decision (admissible cmd m).
Proof. destruct cmd; simpl; unfold no_foreign_expiration, counters_room; apply _. Defined.

(** Every command of a log is admissible when its turn comes. *)
Fixpoint admissible_run (cmds : list BrokerCommand) (m : BrokerStateMachine) : Prop :=
  match cmds with
  | [] => True
  | cmd :: cmds => admissible cmd m ∧ admissible_run cmds (apply cmd m).2
  end.

#[export] Instance admissible_run_dec cmds m : Decision (admissible_run cmds m).
Proof. revert m. induction cmds; intros m; simpl; apply _. Defined.

(** The specified broker on a log. *)
Fixpoint spec_run (cmds : list BrokerCommand) (s : BrokerState) :
    list (result BrokerMutationResult StateMachineError) * BrokerState :=
  match cmds with
  | [] => ([], s)
  | cmd :: cmds =>
      let '(r, s) := spec_handle cmd s in
      let '(rs, s) := spec_run cmds s in (r :: rs, s)
  end.

(** ** One command *)

Lemma on_state_prod_map {A B} (f : A → B) r :
  on_state (prod_map (map_ok f) id r) = prod_map (map_ok f) id (on_state r).
Proof. done. Qed.

Lemma handle_refines cmd m :
  Inv m → admissible cmd m →
  on_state (handle cmd m) = spec_handle cmd (m_state m) ∧ IndexInv ∅ (handle cmd m).2.
Proof.
  intros [Hs Hi] Ha. destruct cmd; cbn [handle spec_handle]; rewrite ?on_state_prod_map; cbn [snd prod_map].
  - split; [by rewrite ensure_namespace_state|by apply ensure_namespace_inv].
  - split; [rewrite publish_task_state; [done|apply Hi]|by apply publish_task_inv].
  - split; [rewrite ensure_consumer_group_state; [done|apply Hi]|by apply ensure_consumer_group_inv].
  - split; [by rewrite join_consumer_group_state|by apply join_consumer_group_inv].
  - split; [by rewrite heartbeat_state|by apply heartbeat_inv].
  - destruct (leave_refines c m) as [-> ?]; [|done..].
    intros id g Hg. by apply (si_groups _ Hs) in Hg as [? _].
  - destruct (reap_refines c m) as [-> ?]; [|done..]. intros. by eapply StateInv_keyed.
  - destruct Ha. by destruct (claim_refines c m) as [-> ?].
  - split; [by rewrite renew_task_lease_state|by apply renew_task_lease_inv].
  - split; [by rewrite complete_task_state|by apply complete_task_inv].
  - by destruct (prune_refines c m) as [-> ?].
  - split; [by rewrite advance_term_state|by apply advance_term_inv].
Qed.

Lemma clear_changes_inv m : Inv m → Inv (clear_changes m).
Proof. intros [Hs Hi]. split; [done|]. eapply IndexInv_ext; [..|exact Hi]; done. Qed.

Lemma apply_refines cmd m :
  Inv m → admissible cmd m →
  Inv (apply cmd m).2 ∧
  map_ok am_result (apply cmd m).1 = (spec_handle cmd (m_state m)).1 ∧
  m_state (apply cmd m).2 = (spec_handle cmd (m_state m)).2.
Proof.
  intros Hinv Ha.
  destruct (handle_refines cmd (clear_changes m)) as [Heq Hi]; [by apply clear_changes_inv|by destruct cmd|].
  change (m_state (clear_changes m)) with (m_state m) in Heq.
  assert (StateInv (spec_handle cmd (m_state m)).2) as Hs.
  { destruct Hinv as [Hs _]. pose proof (spec_handle_effect cmd _ Hs) as He.
    unfold has_effect in He. destruct (spec_handle cmd (m_state m)) as [[r|e] s']; simpl in *.
    - by eapply effect_inv.
    - by subst. }
  unfold apply. rewrite <-Heq in Hs |- *. unfold on_state in *.
  destruct (handle cmd (clear_changes m)) as [[r|e] m']; simpl in *; done.
Qed.

Lemma apply_effect cmd m :
  Inv m → admissible cmd m →
  match (apply cmd m).1 with
  | Ok _ => effect (m_state m) (m_state (apply cmd m).2)
  | Err _ => m_state (apply cmd m).2 = m_state m
  end.
Proof.
  intros Hinv Ha. destruct (apply_refines cmd m Hinv Ha) as (_ & Hr & ->).
  pose proof (spec_handle_effect cmd _ (inv_state _ Hinv)) as He. unfold has_effect in He.
  rewrite <-Hr in He. by destruct (apply cmd m) as [[]].
Qed.

(** A command that advances the revision had room to. *)
Definition revision_fits {A} (s : BrokerState) (r : result A StateMachineError * BrokerState) : Prop :=
  s_revision r.2 = s_revision s ∨ s_revision s < u64_max.

Ltac fits :=
  repeat first
    [ left; reflexivity
    | match goal with
      | |- context [next_revision ?r] =>
          destruct (next_revision r) eqn:Hn;
          [right; by apply next_revision_ok in Hn as [_ ?] | left; reflexivity]
      end
    | case_match ].

Lemma spec_handle_fits cmd s : revision_fits s (spec_handle cmd s).
Proof.
  unfold revision_fits. destruct cmd; cbn [spec_handle handle];
    rewrite ?on_state_prod_map; cbn [snd prod_map id].
  - unfold ensure_namespace. simpl. fits.
  - unfold spec_publish, publish_task. simpl. fits.
  - unfold spec_ensure_group, ensure_consumer_group. simpl. fits.
  - unfold join_consumer_group. simpl. fits.
  - unfold heartbeat. simpl. fits.
  - unfold spec_leave. simpl. fits.
  - unfold spec_reap. fits.
  - unfold spec_claim. fits.
  - unfold renew_task_lease. simpl. fits.
  - unfold complete_task. simpl. fits.
  - unfold spec_prune. fits.
  - unfold advance_term. simpl. fits.
Qed.

(** ** Runs *)

Lemma run_refines cmds m :
  Inv m → admissible_run cmds m →
  Inv (apply_all cmds m).2 ∧
  (map_ok am_result <$> (apply_all cmds m).1) = (spec_run cmds (m_state m)).1 ∧
  m_state (apply_all cmds m).2 = (spec_run cmds (m_state m)).2.
Proof.
  revert m. induction cmds as [|cmd cmds IH]; intros m Hinv Ha; [done|].
  destruct Ha as [Ha Hrun]. destruct (apply_refines cmd m Hinv Ha) as (Hinv' & Hr & Hs).
  simpl. destruct (apply cmd m) as [r m']. simpl in *.
  destruct (spec_handle cmd (m_state m)) as [r' s']. simpl in *. subst s' r'.
  destruct (IH m' Hinv' Hrun) as (? & Hrs & Hs').
  destruct (apply_all cmds m') as [rs m'']. simpl in *.
  destruct (spec_run cmds (m_state m')) as [rs' s'']. simpl in *. by subst.
Qed.

Lemma default_inv : Inv BrokerStateMachine_default.
Proof.
  split.
  - constructor; simpl; try done; apply map_Forall_empty || (intros ?????; by rewrite lookup_empty).
  - constructor; simpl.
    + intros ns. unfold heap_at. rewrite lookup_empty. simpl. split_and!; [constructor..|].
      intros c id. rewrite lookup_empty. rewrite elem_of_nil. naive_solver.
    + split_and!.
      * intros ns. unfold heap_at. rewrite lookup_empty. constructor.
      * intros ???. by rewrite lookup_empty.
      * intros ?????. by rewrite lookup_empty.
    + intros lid id. rewrite !lookup_empty. naive_solver.
    + intros g mid id. rewrite !lookup_empty. simpl. set_solver.
    + split_and!; [constructor..|]. intros c id. rewrite lookup_empty, elem_of_nil. naive_solver.
    + intros ns. by rewrite lookup_empty.
    + intros ns. by rewrite lookup_empty.
Qed.
