(* ===== verification/RecoveryProps.v ===== *)
(** * Properties of recovery

    A checkpoint restores to the state it was taken from; the rebuilt indexes
    describe the restored state, whatever checkpoint was accepted. *)

From S2P Require Import Prelude Values Task Group Messages Machine Recovery Spec Invariant.
From S2P Require Import Refinement Claim Effect Broker.

(** ** Inserting the entries of a map one by one *)

Section insert_all.
Context {K V : Type} `{Countable K, Ord K}.
Implicit Types (l : list (K * V)) (m : gmap K V).

Definition insert_all l m : gmap K V := foldl (λ m kv, <[kv.1 := kv.2]> m) m l.

Lemma insert_all_lookup l m k :
  NoDup l.*1 →
  insert_all l m !! k = match (list_to_map l : gmap K V) !! k with Some v => Some v | None => m !! k end.
Proof.
  revert m. induction l as [|[k' v] l IH]; intros m Hnd; simpl; [by rewrite lookup_empty|].
  apply NoDup_cons in Hnd as [Hni Hnd]. simpl. rewrite IH by done. rewrite lookup_insert.
  destruct (decide (k' = k)) as [->|Hne].
  - rewrite lookup_insert_eq, not_elem_of_list_to_map_1 by done. done.
  - by rewrite lookup_insert_ne.
Qed.

Lemma insert_all_bmap_iter m : insert_all (bmap_iter m) ∅ = m.
Proof.
  apply map_eq. intros k. rewrite insert_all_lookup by apply bmap_iter_nodup_keys.
  rewrite list_to_map_bmap_iter, lookup_empty. by destruct (m !! k).
Qed.

Lemma insert_all_fresh l m k v :
  NoDup (((k, v) :: l).*1) → (∀ kv, kv ∈ (k, v) :: l → m !! kv.1 = None) →
  m !! k = None ∧ NoDup l.*1 ∧ (∀ kv, kv ∈ l → <[k := v]> m !! kv.1 = None).
Proof.
  rewrite fmap_cons, NoDup_cons. intros [Hni Hnd] Hm. split_and!; [by apply (Hm (k, v)); left|done|].
  intros kv Hkv. rewrite lookup_insert_ne; [apply Hm; by right|].
  intros ->. apply Hni. simpl. by apply (list_elem_of_fmap_2 fst).
Qed.
End insert_all.

(** ** Round trips of the parts *)

Lemma namespace_checkpoint_inv n : Namespace_from_checkpoint (Namespace_checkpoint n) = n.
Proof. by destruct n. Qed.

Lemma consumer_checkpoint_inv c : Consumer_from_checkpoint (Consumer_checkpoint c) = c.
Proof. by destruct c. Qed.

Lemma task_checkpoint_inv t : Task_from_checkpoint (Task_checkpoint t) = t.
Proof. destruct t as [????? [[]|[]|[]]]; reflexivity. Qed.

Lemma restore_members_spec l cs :
  NoDup l.*1 → (∀ kv, kv ∈ l → cs !! kv.1 = None) → Forall (λ kv, c_id kv.2 = kv.1) l →
  restore_members (Consumer_checkpoint <$> l.*2) cs = Ok (insert_all l cs).
Proof.
  revert cs. induction l as [|[id c] l IH]; intros cs Hnd Hcs Hk; [done|].
  apply insert_all_fresh in Hcs as (Hid & Hnd' & Hcs'); [|done].
  apply Forall_cons in Hk as [Hc Hk]. simpl in *. subst id. rewrite Hid, consumer_checkpoint_inv.
  by apply IH.
Qed.

Lemma Group_roundtrip g :
  members_keyed (g_consumers g) → Group_from_checkpoint (Group_checkpoint g) = Ok g.
Proof.
  intros Hk. unfold Group_from_checkpoint, Group_checkpoint, bmap_values. simpl.
  rewrite restore_members_spec.
  - rewrite insert_all_bmap_iter. by destruct g.
  - apply bmap_iter_nodup_keys.
  - intros. by rewrite lookup_empty.
  - apply Forall_forall. intros [id c] Hin%elem_of_bmap_iter. by apply Hk.
Qed.

(** ** Round trip of the state *)

Lemma require_positive_revision_ok entity r : 0 < r → require_positive_revision entity r = Ok tt.
Proof. intros Hr. unfold require_positive_revision. rewrite (proj2 (N.eqb_neq _ _)); [done|lia]. Qed.

Lemma try_map_ok {A B E} (f : A → result B E) l b :
  (∀ x, x ∈ l → f x = Ok b) → is_ok (try_map f l) = true.
Proof.
  induction l as [|x l IH]; intros Hf; [done|]. simpl. rewrite (Hf x) by by left.
  specialize (IH ltac:(intros; apply Hf; by right)). by destruct (try_map f l).
Qed.

Lemma restore_namespaces_spec l s :
  NoDup l.*1 → (∀ kv, kv ∈ l → s_namespaces s !! kv.1 = None) →
  Forall (λ kv, n_id kv.2 = kv.1 ∧ 0 < n_revision kv.2) l →
  restore_all restore_namespace (Namespace_checkpoint <$> l.*2) s =
  Ok (set_namespaces (insert_all l (s_namespaces s)) s).
Proof.
  revert s. induction l as [|[id n] l IH]; intros s Hnd Hs Hk; [by destruct s|].
  apply insert_all_fresh in Hs as (Hid & Hnd' & Hs'); [|done].
  apply Forall_cons in Hk as [[Hn Hr] Hk]. simpl in *. subst id. unfold restore_namespace at 1.
  simpl. rewrite require_positive_revision_ok, Hid, namespace_checkpoint_inv by done.
  by rewrite IH.
Qed.

Lemma restore_groups_spec l s :
  NoDup l.*1 → (∀ kv, kv ∈ l → s_groups s !! kv.1 = None) →
  Forall (λ kv, g_id kv.2 = kv.1 ∧ group_ok kv.2 ∧ is_Some (s_namespaces s !! g_namespace_id kv.2)) l →
  restore_all restore_group (Group_checkpoint <$> l.*2) s =
  Ok (set_groups (insert_all l (s_groups s)) s).
Proof.
  revert s. induction l as [|[id g] l IH]; intros s Hnd Hs Hk; [by destruct s|].
  apply insert_all_fresh in Hs as (Hid & Hnd' & Hs'); [|done].
  apply Forall_cons in Hk as [(Hg & Hok & [n Hn]) Hk]. simpl in *. subst id.
  unfold restore_group at 1. simpl. rewrite require_positive_revision_ok by apply Hok.
  assert (is_ok (try_map (λ m, require_positive_revision "member" (mck_revision m))
    (Consumer_checkpoint <$> bmap_values (g_consumers g))) = true) as Htry.
  { apply (try_map_ok _ _ tt). intros x (c & -> & [k Hc]%elem_of_bmap_values)%list_elem_of_fmap.
    apply require_positive_revision_ok. by apply (proj2 Hok) in Hc as (_ & ? & _). }
  destruct (try_map _ _); [|done]. rewrite Hn, Group_roundtrip by by apply group_ok_keyed.
  rewrite Hid. by rewrite IH.
Qed.

Lemma restore_tasks_spec l s :
  NoDup l.*1 → (∀ kv, kv ∈ l → s_tasks s !! kv.1 = None) →
  Forall (λ kv, t_id kv.2 = kv.1 ∧ 0 < t_revision kv.2 ∧
                is_Some (s_namespaces s !! t_namespace_id kv.2)) l →
  restore_all restore_task (Task_checkpoint <$> l.*2) s =
  Ok (set_tasks (insert_all l (s_tasks s)) s).
Proof.
  revert s. induction l as [|[id t] l IH]; intros s Hnd Hs Hk; [by destruct s|].
  apply insert_all_fresh in Hs as (Hid & Hnd' & Hs'); [|done].
  apply Forall_cons in Hk as [(Ht & Hr & [n Hn]) Hk]. simpl in *. subst id.
  unfold restore_task at 1. simpl. rewrite require_positive_revision_ok, Hn, Hid by done.
  change {| tck_task_id := _ |} with (Task_checkpoint t). rewrite task_checkpoint_inv. by rewrite IH.
Qed.

Lemma restore_state_checkpoint s :
  StateInv s → restore_state (BrokerState_checkpoint s) = Ok s.
Proof.
  intros [_ Hns Ht Hg _ _]. unfold restore_state, BrokerState_checkpoint, bmap_values. simpl.
  rewrite restore_namespaces_spec; simpl.
  - rewrite restore_groups_spec; simpl.
    + rewrite restore_tasks_spec; simpl.
      * rewrite !insert_all_bmap_iter. by destruct s.
      * apply bmap_iter_nodup_keys.
      * intros. by rewrite lookup_empty.
      * apply Forall_forall. intros [id t] Hin%elem_of_bmap_iter. simpl.
        rewrite insert_all_bmap_iter. by apply Ht.
    + apply bmap_iter_nodup_keys.
    + intros. by rewrite lookup_empty.
    + apply Forall_forall. intros [id g] Hin%elem_of_bmap_iter. simpl.
      rewrite insert_all_bmap_iter. by apply Hg.
  - apply bmap_iter_nodup_keys.
  - intros. by rewrite lookup_empty.
  - apply Forall_forall. intros [id n] Hin%elem_of_bmap_iter. simpl. by apply Hns.
Qed.

(** ** Rebuilding the indexes *)

(** The machine made of a state and the indexes built for it. *)
Definition machine_of (s : BrokerState) (ix : RestoredIndexes) : BrokerStateMachine := {|
  m_state := s;
  m_ready_tasks := ri_ready_tasks ix; m_lease_expirations := ri_lease_expirations ix;
  m_active_lease_tasks := ri_active_lease_tasks ix;
  m_member_lease_tasks := ri_member_lease_tasks ix;
  m_completed_tasks := ri_completed_tasks ix;
  m_namespace_task_counts := ri_namespace_task_counts ix;
  m_namespace_group_counts := ri_namespace_group_counts ix;
  m_changed_namespaces := ∅; m_changed_tasks := ∅; m_deleted_tasks := ∅; m_changed_groups := ∅ |}.

Lemma from_checkpoint_ok ck m :
  from_checkpoint ck = Ok m ↔
  ∃ s ix, restore_state ck = Ok s ∧ rebuild_indexes s = Ok ix ∧ m = machine_of s ix.
Proof.
  unfold from_checkpoint. split.
  - destruct (restore_state ck) as [s|]; [|done].
    destruct (rebuild_indexes s) as [ix|] eqn:E; [|done]. intros [= <-]. by exists s, ix.
  - by intros (s & ix & -> & -> & ->).
Qed.

(** Every expiration entry describes a lease. *)
Definition entries_known (s : BrokerState) (ix : RestoredIndexes) : Prop :=
  ∀ ns e, e ∈ heap_at (ri_lease_expirations ix) ns → live_entry (s_tasks s) e.

Record rebuilt (s : BrokerState) (ix : RestoredIndexes) : Prop := {
  rb_index : IndexInv ∅ (machine_of s ix);
  rb_entries : entries_known s ix;
}.

Lemma rebuilt_empty s :
  s_tasks s = ∅ → s_groups s = ∅ → rebuilt s RestoredIndexes_default.
Proof.
  intros Ht Hg. split.
  - eapply IndexInv_ext; [..|apply default_inv]; simpl; done.
  - intros ns e. unfold heap_at. simpl. rewrite lookup_empty. by intros ?%elem_of_nil.
Qed.

Lemma rebuilt_group s ix id g :
  rebuilt s ix → s_groups s !! id = None →
  rebuilt (set_groups (<[id := g]> (s_groups s)) s) (bump_group g ix).
Proof.
  intros [[] He] Hid. destruct ix. split; [|done]. constructor; simpl in *; try done.
  by apply (counts_ok_new g_namespace_id).
Qed.

Lemma rebuilt_groups l s ix :
  NoDup l.*1 → (∀ kv, kv ∈ l → s_groups s !! kv.1 = None) → rebuilt s ix →
  rebuilt (set_groups (insert_all l (s_groups s)) s)
    (foldl (λ ix g, bump_group g ix) ix l.*2).
Proof.
  revert s ix. induction l as [|[id g] l IH]; intros s ix Hnd Hs Hr; [by destruct s|].
  apply insert_all_fresh in Hs as (Hid & Hnd' & Hs'); [|done].
  apply (IH (set_groups (<[id := g]> (s_groups s)) s)); [done..|]. by apply rebuilt_group.
Qed.

Section rebuild_task.
Context (s : BrokerState) (ix : RestoredIndexes) (t : Task).
Hypothesis Hrb : rebuilt s ix.
Hypothesis Hid : s_tasks s !! t_id t = None.

Lemma fresh_task (P : Task → Prop) u : s_tasks s !! t_id t = Some u → P u.
Proof. congruence. Qed.

Lemma fresh_entries ns e ep :
  (e, t_id t, ep) ∈ heap_at (ri_lease_expirations ix) ns → ns = t_namespace_id t.
Proof. intros (u & l & Hu & _)%(rb_entries _ _ Hrb). simpl in Hu. congruence. Qed.

Lemma entries_known_insert e : live_entry (s_tasks s) e → live_entry (<[t_id t := t]> (s_tasks s)) e.
Proof.
  intros (u & l & Hu & ?). exists u, l. by rewrite lookup_insert_ne by congruence.
Qed.

(** A task that holds no lease leaves the lease indexes as they are. *)
Lemma rebuilt_unleased ready completed :
  Task_status t ≠ StatusLeased →
  ready_ok (<[t_id t := t]> (s_tasks s)) ready →
  completed_ok (<[t_id t := t]> (s_tasks s)) completed →
  rebuilt (set_tasks (<[t_id t := t]> (s_tasks s)) s)
    (MkIndexes ready (ri_lease_expirations ix) (ri_active_lease_tasks ix)
       (ri_member_lease_tasks ix) completed
       (bump (t_namespace_id t) (ri_namespace_task_counts ix)) (ri_namespace_group_counts ix)).
Proof.
  intros Hst Hready Hcomp. unfold Task_status in Hst. split.
  - destruct (rb_index _ _ Hrb). constructor; simpl in *; try done.
    + apply exps_ok_new; [done..|]. intros ns e ep Hin. symmetry. by eapply fresh_entries.
    + apply active_ok_frame; [done|]. intros lid. rewrite Hid, holds_lease_true. split.
      * intros (l & Hl & _). by rewrite Hl in Hst.
      * by intros (? & ? & _).
    + apply member_ok_frame; [done|]. intros g mid. rewrite Hid, leased_by_true. split.
      * intros (l & Hl & _). by rewrite Hl in Hst.
      * by intros (? & ? & _).
    + by apply (counts_ok_new t_namespace_id).
  - intros ns e He. by eapply entries_known_insert, (rb_entries _ _ Hrb).
Qed.

Lemma rebuilt_leased l :
  t_state t = Leased l → ri_active_lease_tasks ix !! lt_lease_id l = None →
  let key := (lt_group_id l, lt_owner_member_id l) in
  rebuilt (set_tasks (<[t_id t := t]> (s_tasks s)) s)
    (MkIndexes (ri_ready_tasks ix)
       (heap_map_push (t_namespace_id t) (lt_expires_at_ms l, t_id t, lt_lease_epoch l)
          (ri_lease_expirations ix))
       (<[lt_lease_id l := t_id t]> (ri_active_lease_tasks ix))
       (<[key := {[ t_id t ]} ∪ default ∅ (ri_member_lease_tasks ix !! key)]>
          (ri_member_lease_tasks ix))
       (ri_completed_tasks ix)
       (bump (t_namespace_id t) (ri_namespace_task_counts ix)) (ri_namespace_group_counts ix)).
Proof.
  intros Hl Ha key. assert (Task_status t = StatusLeased) as Hst by by eapply leased_status.
  split.
  - destruct (rb_index _ _ Hrb). constructor; simpl in *; try done.
    + apply ready_ok_frame; [done|by rewrite Hst|apply fresh_task].
    + apply exps_ok_push; [done..|apply fresh_entries].
    + apply active_ok_insert; [done|done|apply fresh_task|].
      intros lid. rewrite holds_lease_true, Hl. naive_solver.
    + apply member_ok_insert; [done|apply fresh_task|].
      intros g mid. rewrite leased_by_true, Hl. unfold key. naive_solver.
    + apply completed_ok_frame; [done|by rewrite Hst|apply fresh_task].
    + by apply (counts_ok_new t_namespace_id).
  - intros ns e. simpl. rewrite heap_at_push. case_decide; rewrite ?elem_of_heap_push.
    + intros [->|He]; [|by eapply entries_known_insert, (rb_entries _ _ Hrb)].
      exists t, l. simpl. by rewrite lookup_insert_eq.
    + intros He. by eapply entries_known_insert, (rb_entries _ _ Hrb).
Qed.

Lemma rebuilt_task ix' :
  rebuild_task_indexes t (bump_task t ix) = Ok ix' →
  rebuilt (set_tasks (<[t_id t := t]> (s_tasks s)) s) ix'.
Proof.
  intros Hb. destruct (rb_index _ _ Hrb) as [Hready _ _ _ Hcomp _ _].
  pose proof rebuilt_unleased as Hun. pose proof rebuilt_leased as Hle.
  destruct ix as [ready exps active member completed tc gc]. simpl in *.
  unfold rebuild_task_indexes in Hb. destruct (t_state t) as [q|l|c] eqn:Hst.
  - assert (Task_status t = StatusQueued) as Hq by (unfold Task_status; by rewrite Hst).
    injection Hb as <-. apply Hun; [by rewrite Hq| |].
    + apply ready_ok_push; [done|by apply queued_in_true|done|apply fresh_task].
    + apply completed_ok_frame; [done|by rewrite Hq|apply fresh_task].
  - destruct (active !! lt_lease_id l) eqn:Ha; [done|]. injection Hb as <-. by apply Hle.
  - assert (Task_status t = StatusCompleted) as Hq by (unfold Task_status; by rewrite Hst).
    injection Hb as <-. apply Hun; [by rewrite Hq| |].
    + apply ready_ok_frame; [done|by rewrite Hq|apply fresh_task].
    + apply completed_ok_push; [done| |apply fresh_task].
      intros c'. rewrite completed_at_true, Hst. naive_solver.
Qed.
End rebuild_task.

Lemma rebuilt_tasks l s ix ix' :
  NoDup l.*1 → (∀ kv, kv ∈ l → s_tasks s !! kv.1 = None) → Forall (λ kv, t_id kv.2 = kv.1) l →
  rebuilt s ix → rebuild_tasks l.*2 ix = Ok ix' →
  rebuilt (set_tasks (insert_all l (s_tasks s)) s) ix'.
Proof.
  revert s ix. induction l as [|[id t] l IH]; intros s ix Hnd Hs Hk Hr Hb.
  { injection Hb as <-. by destruct s. }
  apply insert_all_fresh in Hs as (Hid & Hnd' & Hs'); [|done].
  apply Forall_cons in Hk as [Ht Hk]. simpl in *. subst id.
  destruct (rebuild_task_indexes t (bump_task t ix)) as [ix1|] eqn:E; [|done].
  refine (IH (set_tasks (<[t_id t := t]> (s_tasks s)) s) ix1 Hnd' Hs' Hk _ Hb).
  by eapply rebuilt_task.
Qed.

(** Only a repeated lease id stops the rebuild. *)
Lemma rebuild_tasks_total l s ix :
  NoDup l.*1 → (∀ kv, kv ∈ l → s_tasks s !! kv.1 = None) → Forall (λ kv, t_id kv.2 = kv.1) l →
  leases_exclusive (insert_all l (s_tasks s)) → rebuilt s ix →
  ∃ ix', rebuild_tasks l.*2 ix = Ok ix'.
Proof.
  revert s ix. induction l as [|[id t] l IH]; intros s ix Hnd Hs Hk Hex Hr; [by exists ix|].
  pose proof (λ k, insert_all_lookup ((id, t) :: l) (s_tasks s) k Hnd) as Hlk.
  apply insert_all_fresh in Hs as (Hid & Hnd' & Hs'); [|done].
  apply Forall_cons in Hk as [Ht Hk]. simpl in *. subst id.
  assert (∃ ix1, rebuild_task_indexes t (bump_task t ix) = Ok ix1) as [ix1 E].
  { pose proof (ii_active _ _ (rb_index _ _ Hr)) as Ha.
    destruct ix as [ready exps active member completed tc gc]. simpl in *.
    destruct (t_state t) as [q|k|c] eqn:Hst; [eauto| |eauto].
    destruct (active !! lt_lease_id k) as [i|] eqn:E; [|eauto]. exfalso.
    apply Ha in E as (u & Hu & Hh). simpl in Hu.
    assert (i = t_id t); [|congruence].
    assert (holds_lease (lt_lease_id k) t = true) by (apply holds_lease_true; eauto).
    assert ((list_to_map l : gmap TaskId Task) !! i = None) as Hl.
    { apply not_elem_of_list_to_map_1. intros ([i' v] & -> & Hin)%list_elem_of_fmap.
      specialize (Hs' _ Hin). simpl in *. rewrite lookup_insert_ne in Hs' by congruence. congruence. }
    eapply (Hex i (t_id t) u t (lt_lease_id k)); rewrite ?Hlk; [| |done..].
    - rewrite lookup_insert_ne by congruence. by rewrite Hl.
    - by rewrite lookup_insert_eq. }
  rewrite E. apply (IH (set_tasks (<[t_id t := t]> (s_tasks s)) s) ix1); [done..|].
  by eapply rebuilt_task.
Qed.

Definition tasks_keyed (s : BrokerState) : Prop := map_Forall (λ id t, t_id t = id) (s_tasks s).

Lemma bmap_iter_tasks_keyed s : tasks_keyed s → Forall (λ kv, t_id kv.2 = kv.1) (bmap_iter (s_tasks s)).
Proof. intros Hk. apply Forall_forall. intros [id t] Hin%elem_of_bmap_iter. by apply Hk. Qed.

(** The indexes before the first task: groups only. *)
Lemma rebuilt_groups_all s :
  rebuilt (set_tasks ∅ s)
    (foldl (λ ix g, bump_group g ix) RestoredIndexes_default (bmap_values (s_groups s))).
Proof.
  pose proof (rebuilt_groups (bmap_iter (s_groups s)) (set_groups ∅ (set_tasks ∅ s))
    RestoredIndexes_default) as Hr. simpl in Hr. rewrite insert_all_bmap_iter in Hr.
  destruct s. apply Hr.
  - apply bmap_iter_nodup_keys.
  - intros. apply lookup_empty.
  - by apply rebuilt_empty.
Qed.

Lemma rebuild_indexes_rebuilt s ix :
  tasks_keyed s → rebuild_indexes s = Ok ix → rebuilt s ix.
Proof.
  intros Hk Hb.
  pose proof (rebuilt_tasks (bmap_iter (s_tasks s)) (set_tasks ∅ s)
    (foldl (λ ix g, bump_group g ix) RestoredIndexes_default (bmap_values (s_groups s))) ix
    (bmap_iter_nodup_keys _)) as Hr. simpl in Hr. rewrite insert_all_bmap_iter in Hr.
  destruct s. apply Hr; [intros; apply lookup_empty|by apply bmap_iter_tasks_keyed| |exact Hb].
  apply rebuilt_groups_all.
Qed.

Lemma rebuild_indexes_inv s ix :
  tasks_keyed s → rebuild_indexes s = Ok ix → IndexInv ∅ (machine_of s ix).
Proof. intros Hk Hb. by apply rebuild_indexes_rebuilt. Qed.

Lemma rebuild_indexes_total s :
  tasks_keyed s → leases_exclusive (s_tasks s) → ∃ ix, rebuild_indexes s = Ok ix.
Proof.
  intros Hk Hex.
  eapply (rebuild_tasks_total (bmap_iter (s_tasks s)) (set_tasks ∅ s)).
  - apply bmap_iter_nodup_keys.
  - intros. apply lookup_empty.
  - by apply bmap_iter_tasks_keyed.
  - simpl. by rewrite insert_all_bmap_iter.
  - apply rebuilt_groups_all.
Qed.

Lemma StateInv_tasks_keyed s : StateInv s → tasks_keyed s.
Proof. intros Hs id t Ht. by apply (si_tasks _ Hs) in Ht as [? _]. Qed.

(** Recovery from the checkpoint of a well-formed state succeeds and gives a
    machine with that state and right indexes. *)
Lemma recover s :
  StateInv s → ∃ m, from_checkpoint (BrokerState_checkpoint s) = Ok m ∧ m_state m = s ∧ Inv m.
Proof.
  intros Hs. pose proof (StateInv_tasks_keyed _ Hs) as Hk.
  destruct (rebuild_indexes_total s Hk (si_unique _ Hs)) as [ix Hix].
  exists (machine_of s ix). split_and!; [|done|].
  - apply from_checkpoint_ok. exists s, ix. by rewrite restore_state_checkpoint.
  - split; [done|]. by apply rebuild_indexes_inv.
Qed.

(** ** Any accepted checkpoint *)

(** The part of the state invariant that restoration checks by itself. *)
Record RestoredInv (s : BrokerState) : Prop := {
  ri_namespaces : map_Forall (λ id n, n_id n = id ∧ 0 < n_revision n) (s_namespaces s);
  ri_tasks : map_Forall (λ id t, t_id t = id ∧ 0 < t_revision t ∧
                                 is_Some (s_namespaces s !! t_namespace_id t)) (s_tasks s);
  ri_groups : map_Forall (λ id g, g_id g = id ∧ 0 < g_revision g ∧
      members_keyed (g_consumers g) ∧ map_Forall (λ _ c, 0 < c_revision c) (g_consumers g) ∧
      is_Some (s_namespaces s !! g_namespace_id g)) (s_groups s);
}.

Lemma require_positive_revision_inv entity r u :
  require_positive_revision entity r = Ok u → 0 < r.
Proof. unfold require_positive_revision. destruct (N.eqb_spec r 0); [done|lia]. Qed.

Lemma restore_all_inv {A} (f : A → BrokerState → result BrokerState CheckpointError) P l s s' :
  (∀ x s s', x ∈ l → P s → f x s = Ok s' → P s') → P s → restore_all f l s = Ok s' → P s'.
Proof.
  revert s. induction l as [|x l IH]; intros s Hf Hs Hr; [by injection Hr as <-|].
  simpl in Hr. destruct (f x s) as [s1|] eqn:E; [|done].
  eapply IH; [intros; eapply Hf; [by right|done..]| |exact Hr]. eapply Hf; [by left|done..].
Qed.

Lemma restore_namespace_inv ck s s' :
  RestoredInv s → restore_namespace ck s = Ok s' → RestoredInv s'.
Proof.
  intros [H1 H2 H3]. unfold restore_namespace.
  destruct (require_positive_revision _ _) eqn:Hr; [|done]. apply require_positive_revision_inv in Hr.
  destruct (s_namespaces s !! _) eqn:E; [done|]. intros [= <-]. constructor; simpl.
  - by apply map_Forall_insert_2.
  - intros id t Ht. destruct (H2 id t Ht) as (? & ? & ?). rewrite lookup_insert_is_Some'. eauto.
  - intros id g Hg. destruct (H3 id g Hg) as (? & ? & ? & ? & ?).
    rewrite lookup_insert_is_Some'. eauto 10.
Qed.

Lemma restore_members_inv l cs cs' :
  restore_members l cs = Ok cs' → Forall (λ m, 0 < mck_revision m) l →
  members_keyed cs → map_Forall (λ _ c, 0 < c_revision c) cs →
  members_keyed cs' ∧ map_Forall (λ _ c, 0 < c_revision c) cs'.
Proof.
  revert cs. induction l as [|m l IH]; intros cs Hr Hl Hk Hp; [by injection Hr as <-|].
  apply Forall_cons in Hl as [Hm Hl]. simpl in Hr.
  destruct (cs !! mck_member_id m); [done|]. apply (IH _ Hr Hl); by apply map_Forall_insert_2.
Qed.

Lemma try_map_forall {A B E} (f : A → result B E) l bs :
  try_map f l = Ok bs → Forall (λ x, ∃ b, f x = Ok b) l.
Proof.
  revert bs. induction l as [|x l IH]; intros bs; simpl; [constructor|].
  destruct (f x) eqn:Ex; [|done]. destruct (try_map f l) eqn:El; [|done]. constructor; eauto.
Qed.

Lemma restore_group_inv ck s s' :
  RestoredInv s → restore_group ck s = Ok s' → RestoredInv s'.
Proof.
  intros [H1 H2 H3]. unfold restore_group.
  destruct (require_positive_revision _ _) eqn:Hr; [|done]. apply require_positive_revision_inv in Hr.
  destruct (try_map _ _) eqn:Ht; [|done]. apply try_map_forall in Ht.
  destruct (s_namespaces s !! _) eqn:En; [|done].
  unfold Group_from_checkpoint. destruct (restore_members _ _) as [cs|] eqn:Em; [|done].
  destruct (s_groups s !! _) eqn:Eg; [done|]. intros [= <-]. constructor; simpl; try done.
  apply restore_members_inv in Em as [Hk Hp];
    [|eapply Forall_impl; [exact Ht|]; intros m [b Hb]; by eapply require_positive_revision_inv
     |apply map_Forall_empty|apply map_Forall_empty].
  apply map_Forall_insert_2; [|done]. simpl. split_and!; eauto.
Qed.

Lemma restore_task_inv ck s s' :
  RestoredInv s → restore_task ck s = Ok s' → RestoredInv s'.
Proof.
  intros [H1 H2 H3]. unfold restore_task.
  destruct (require_positive_revision _ _) eqn:Hr; [|done]. apply require_positive_revision_inv in Hr.
  destruct (s_namespaces s !! _) eqn:En; [|done].
  destruct (s_tasks s !! _) eqn:Et; [done|]. intros [= <-]. constructor; simpl; try done.
  apply map_Forall_insert_2; [|done]. simpl. split_and!; eauto.
Qed.

Lemma restore_state_inv ck s : restore_state ck = Ok s → RestoredInv s.
Proof.
  unfold restore_state. destruct (restore_all restore_namespace _ _) as [s1|] eqn:E1; [|done].
  destruct (restore_all restore_group _ _) as [s2|] eqn:E2; [|done]. intros E3.
  eapply (restore_all_inv _ RestoredInv) in E3;
    [exact E3|intros ????; apply restore_task_inv|].
  eapply (restore_all_inv _ RestoredInv) in E2;
    [exact E2|intros ????; apply restore_group_inv|].
  eapply (restore_all_inv _ RestoredInv) in E1;
    [exact E1|intros ????; apply restore_namespace_inv|].
  constructor; simpl; apply map_Forall_empty.
Qed.

(** ** Main properties *)

(** A well-formed state survives a checkpoint: exporting it and restoring
    the export succeeds and gives the same state back, with indexes that
    describe it. *)
Theorem checkpoint_restores_state s :
  StateInv s →
  ∃ m, from_checkpoint (BrokerState_checkpoint s) = Ok m ∧ m_state m = s ∧ Inv m.
Proof. apply recover. Qed.

Lemma checkpoint_restores_state_witness :
  ∃ m, from_checkpoint (BrokerState_checkpoint BrokerState_default) = Ok m ∧
       m_state m = BrokerState_default ∧ Inv m.
Proof. apply checkpoint_restores_state. apply (inv_state _ default_inv). Defined.

(** Whatever checkpoint recovery accepts, the machine it builds has right
    indexes, entities stored under their own ids with positive revisions, tasks
    and groups of known namespaces, and no lease id held twice. *)
Theorem accepted_checkpoint_is_consistent ck m :
  from_checkpoint ck = Ok m →
  IndexInv ∅ m ∧ RestoredInv (m_state m) ∧ leases_exclusive (m_tasks m).
Proof.
  intros (s & ix & Hs & Hix & ->)%from_checkpoint_ok. pose proof (restore_state_inv _ _ Hs) as Hr.
  assert (IndexInv ∅ (machine_of s ix)) as Hi.
  { apply rebuild_indexes_inv; [|done]. intros id t Ht. by apply (ri_tasks _ Hr) in Ht as [? _]. }
  split_and!; [done..|]. intros id1 id2 t1 t2 lid H1 H2 L1 L2.
  assert (∀ id t, m_tasks (machine_of s ix) !! id = Some t → holds_lease lid t = true →
    m_active_lease_tasks (machine_of s ix) !! lid = Some id) as Ha.
  { intros id t Ht Hl. apply (ii_active _ _ Hi). eauto. }
  pose proof (Ha _ _ H1 L1). pose proof (Ha _ _ H2 L2). congruence.
Qed.

Definition leased_checkpoint : BrokerCheckpoint := {|
  bck_term := 1; bck_revision := 3;
  bck_namespaces := [{| nck_namespace_id := "a"; nck_revision := 1 |}];
  bck_tasks := [{| tck_task_id := "t1"; tck_namespace_id := "a"; tck_objective := "work";
                   tck_created_at_ms := 2; tck_revision := 2;
                   tck_state := CkLeased "l1" "m1" "ga" 1 1 100 |}];
  bck_groups := [] |}.

Lemma accepted_checkpoint_is_consistent_witness :
  match from_checkpoint leased_checkpoint with
  | Ok m => IndexInv ∅ m ∧ RestoredInv (m_state m) ∧ leases_exclusive (m_tasks m)
  | Err _ => False
  end.
Proof.
  destruct (from_checkpoint leased_checkpoint) as [m|e] eqn:E.
  - apply (accepted_checkpoint_is_consistent leased_checkpoint). exact E.
  - vm_compute in E. discriminate E.
Defined.

(** Looking a group up in the exported directory by binary search is
    looking it up in the registry: the directory lists every group once, in id
    order. *)
Theorem directory_lookup_is_registry_lookup s id :
  StateInv s →
  Directory_group id (group_directory s) = group_summary s id ∧
  (gs_group_id <$> gd_groups (group_directory s)) = bmap_keys (s_groups s).
Proof.
  intros Hs.
  assert ((gs_group_id <$> group_summaries s) = bmap_keys (s_groups s)) as Hkeys.
  { unfold group_summaries. rewrite <-list_fmap_compose. apply (bmap_values_keys g_id).
    intros k g Hg. by apply (si_groups _ Hs k g). }
  split; [|done]. unfold Directory_group, group_directory, group_summary. simpl. rewrite Hkeys.
  assert (sorted (bmap_keys (s_groups s)) ∧ NoDup (bmap_keys (s_groups s))) as [Hsort Hnd]
    by (split; [apply bset_iter_sorted|apply bset_iter_nodup]).
  destruct (binary_search (bmap_keys (s_groups s)) id) as [i|] eqn:Hb.
  - apply binary_search_spec in Hb; [|done..].
    rewrite <-fst_bmap_iter, list_lookup_fmap in Hb.
    destruct (bmap_iter (s_groups s) !! i) as [[k g]|] eqn:Hi; [|done]. simplify_eq/=.
    unfold group_summaries, bmap_values. rewrite !list_lookup_fmap, Hi. simpl.
    apply list_elem_of_lookup_2, elem_of_bmap_iter in Hi. by rewrite Hi.
  - destruct (s_groups s !! id) as [g|] eqn:Hg; [|done].
    assert (is_Some (binary_search (bmap_keys (s_groups s)) id)) as [? ?]; [|congruence].
    apply binary_search_elem; [done..|]. apply elem_of_bmap_keys. eauto.
Qed.

Lemma directory_lookup_is_registry_lookup_witness :
  Directory_group "ga" (group_directory BrokerState_default) = group_summary BrokerState_default "ga" ∧
  (gs_group_id <$> gd_groups (group_directory BrokerState_default)) =
    bmap_keys (s_groups BrokerState_default).
Proof. apply directory_lookup_is_registry_lookup. apply (inv_state _ default_inv). Defined.
