(* ===== verification/Changes.v ===== *)
(** * Change sets

    A successful command reports exactly the entities it changed: what the
    journal records is the difference of the two states. *)

From S2P Require Import Prelude Values Task Group Messages Machine Spec Invariant Refinement Claim.
From S2P Require Import Reap Effect Broker.

(** ** Tracking *)

(** [changed] and [deleted] describe the difference between [old] and [new];
    [rev] is the revision stamp of an entity. *)
Record tracks {K V} `{Countable K} (rev : V → Revision) (old new : gmap K V)
    (changed deleted : gset K) : Prop := {
  tk_changed k : k ∈ changed →
    ∃ v', new !! k = Some v' ∧ ∀ v, old !! k = Some v → rev v < rev v';
  tk_deleted k : k ∈ deleted → new !! k = None ∧ is_Some (old !! k);
  tk_same k : k ∉ changed → k ∉ deleted → new !! k = old !! k;
}.

Section tracks.
Context {K V : Type} `{Countable K} (rev : V → Revision) (old new : gmap K V)
  (changed deleted : gset K).
Hypothesis Ht : tracks rev old new changed deleted.

Lemma tracks_insert k v v' :
  new !! k = Some v → rev v < rev v' →
  tracks rev old (<[k := v']> new) ({[ k ]} ∪ changed) deleted.
Proof.
  intros Hk Hr. destruct Ht as [Hc Hd Hs]. constructor.
  - intros i. rewrite elem_of_union, elem_of_singleton, lookup_insert. case_decide as Hi.
    + subst i. intros _. exists v'. split; [done|]. intros u Hu.
      destruct (decide (k ∈ changed)) as [(w & Hw & Hlt)%Hc|Hn].
      * simplify_eq. specialize (Hlt u Hu). lia.
      * destruct (decide (k ∈ deleted)) as [[? _]%Hd|Hn']; [congruence|].
        rewrite (Hs k Hn Hn') in Hk. by simplify_eq.
    + intros [?|Hin]; [by subst|]. by apply Hc.
  - intros i [Hnone Hold]%Hd. split; [|done]. rewrite lookup_insert_ne; [done|]. congruence.
  - intros i. rewrite not_elem_of_union, not_elem_of_singleton. intros [Hne Hni] Hnd.
    rewrite lookup_insert_ne by done. auto.
Qed.

Lemma tracks_new k v : old !! k = None → new !! k = None →
  tracks rev old (<[k := v]> new) ({[ k ]} ∪ changed) deleted.
Proof.
  intros Ho Hn. destruct Ht as [Hc Hd Hs]. constructor.
  - intros i. rewrite elem_of_union, elem_of_singleton, lookup_insert. case_decide as Hi.
    + subst i. intros _. exists v. split; [done|]. congruence.
    + intros [?|Hin]; [by subst|]. by apply Hc.
  - intros i [Hnone Hold]%Hd. split; [|done]. rewrite lookup_insert_ne; [done|].
    intros ->. destruct Hold. congruence.
  - intros i. rewrite not_elem_of_union, not_elem_of_singleton. intros [Hne Hni] Hnd.
    rewrite lookup_insert_ne by done. auto.
Qed.

Lemma tracks_delete k v : k ∉ changed → new !! k = Some v →
  tracks rev old (delete k new) changed ({[ k ]} ∪ deleted).
Proof.
  intros Hk Hv. destruct Ht as [Hc Hd Hs]. constructor.
  - intros i Hi. rewrite lookup_delete_ne; [by apply Hc|]. by intros ->.
  - intros i. rewrite elem_of_union, elem_of_singleton, lookup_delete. case_decide as Hi.
    + subst i. intros _. split; [done|]. rewrite <-Hs; [eauto|done|].
      intros [? _]%Hd. congruence.
    + intros [->|Hin]; [done|]. by apply Hd.
  - intros i Hi. rewrite not_elem_of_union, not_elem_of_singleton. intros [Hne Hnd].
    rewrite lookup_delete_ne by done. auto.
Qed.
End tracks.

Lemma tracks_refl {K V} `{Countable K} (rev : V → Revision) (m : gmap K V) : tracks rev m m ∅ ∅.
Proof. constructor; [set_solver..|done]. Qed.

(** The machine's change sets track what happened since [s0]. *)
Definition tracks_tasks (s0 : BrokerState) (m : BrokerStateMachine) : Prop :=
  tracks t_revision (s_tasks s0) (m_tasks m) (m_changed_tasks m) (m_deleted_tasks m).
Definition tracks_groups (s0 : BrokerState) (m : BrokerStateMachine) : Prop :=
  tracks g_revision (s_groups s0) (m_groups m) (m_changed_groups m) ∅.

Lemma mark_task_tracks s0 m m' id t t' :
  tracks_tasks s0 m → m_tasks m !! id = Some t → t_revision t < t_revision t' →
  m_tasks m' = <[id := t']> (m_tasks m) → m_changed_tasks m' = {[ id ]} ∪ m_changed_tasks m →
  m_deleted_tasks m' = m_deleted_tasks m → tracks_tasks s0 m'.
Proof.
  unfold tracks_tasks. intros Ht Hid Hr -> -> ->. by eapply tracks_insert.
Qed.

(** ** Loops that requeue *)

Lemma requeue_for_member_cases g mid t r t' :
  requeue_for_member g mid t = (r, t') →
  (r = Ok true ∧ t_revision t < t_revision t' ∧ t_namespace_id t' = t_namespace_id t) ∨
  (r ≠ Ok true ∧ t' = t).
Proof. unfold requeue_for_member. intros H. task_op; first [by right|left; simpl; split_and!; done || lia]. Qed.

Lemma requeue_if_expired_cases now t r t' :
  requeue_if_expired now t = (r, t') →
  (r = Ok true ∧ t_revision t < t_revision t') ∨ (r ≠ Ok true ∧ t' = t).
Proof. unfold requeue_if_expired. intros H. task_op; first [by right|left; simpl; split_and!; done || lia]. Qed.

(** [m'] differs from [m] in tasks and indexes only. *)
Record tasks_only (m m' : BrokerStateMachine) : Prop := {
  to_groups : m_groups m' = m_groups m;
  to_changed_groups : m_changed_groups m' = m_changed_groups m;
  to_namespaces : s_namespaces (m_state m') = s_namespaces (m_state m);
  to_changed_namespaces : m_changed_namespaces m' = m_changed_namespaces m;
}.

#[export] Instance tasks_only_preorder : PreOrder tasks_only.
Proof. split; [done|]. intros m1 m2 m3 [] []. constructor; congruence. Qed.

Lemma remove_member_lease_task_only g mid id m : tasks_only m (remove_member_lease_task g mid id m).
Proof. unfold remove_member_lease_task. by repeat case_match. Qed.

Lemma requeue_tasks_tracks s0 g mid ids n m n' m' :
  tracks_tasks s0 m → requeue_tasks g mid ids n m = (Ok n', m') →
  tracks_tasks s0 m' ∧ tasks_only m m'.
Proof.
  revert n m. induction ids as [|id ids IH]; intros n m Ht; simpl; [intros [= _ <-]; done|].
  match goal with |- context [match ?x with Some _ => _ | None => _ end] =>
    destruct x as [[lid cr]|] eqn:Hx; [|by apply IH] end.
  destruct (m_tasks m !! id) as [t|] eqn:Hid; [|done]. simpl.
  destruct (requeue_for_member g mid t) as [r t'] eqn:E.
  apply requeue_for_member_cases in E as [(-> & Hr & Hns)|[Hr ->]].
  - simpl. rewrite lookup_insert_eq. simpl. intros Hrun.
    eapply IH in Hrun as [Ht' Ho].
    + split; [done|]. etrans; [|exact Ho]. done.
    + by eapply mark_task_tracks.
  - rewrite insert_id by done. destruct r as [[]|]; simpl; [done| |done].
    intros Hrun. eapply IH in Hrun as [Ht' Ho].
    + split; [done|]. etrans; [|exact Ho]. done.
    + done.
Qed.

Lemma requeue_member_leases_tracks s0 g mid m n m' :
  tracks_tasks s0 m → requeue_member_leases g mid m = (Ok n, m') →
  tracks_tasks s0 m' ∧ tasks_only m m'.
Proof.
  intros Ht Hr. unfold requeue_member_leases in Hr.
  eapply requeue_tasks_tracks in Hr as [Ht' Ho]; [|exact Ht]. split; [done|]. etrans; [|exact Ho]. done.
Qed.

Lemma requeue_removed_tracks s0 g removed m u m' :
  tracks_tasks s0 m → requeue_removed g removed m = (Ok u, m') →
  tracks_tasks s0 m' ∧ tasks_only m m'.
Proof.
  revert m. induction removed as [|c removed IH]; intros m Ht; simpl; [intros [= _ <-]; done|].
  destruct (requeue_member_leases g (c_id c) m) as [[n|e] m1] eqn:E; [|done].
  eapply requeue_member_leases_tracks in E as [Ht1 Ho1]; [|done].
  intros [Ht' Ho]%IH; [|done]. split; [done|]. by etrans.
Qed.

Lemma requeue_expired_tracks s0 ns now ids n m n' m' :
  tracks_tasks s0 m → requeue_expired ns now ids n m = (Ok n', m') →
  tracks_tasks s0 m' ∧ tasks_only m m'.
Proof.
  revert n m. induction ids as [|id ids IH]; intros n m Ht; simpl; [intros [= _ <-]; done|].
  match goal with |- context [match ?x with Some _ => _ | None => _ end] =>
    destruct x as [[[[lid g] mid] cr]|] eqn:Hx; [|by apply IH] end.
  destruct (m_tasks m !! id) as [t|] eqn:Hid; [|done]. simpl.
  destruct (requeue_if_expired now t) as [r t'] eqn:E.
  apply requeue_if_expired_cases in E as [(-> & Hr)|[Hr ->]].
  - simpl. rewrite remove_member_lease_task_fields. intros Hrun. eapply IH in Hrun as [Ht' Ho].
    + split; [done|]. etrans; [|exact Ho]. done.
    + by eapply mark_task_tracks.
  - rewrite insert_id by done. destruct r as [[]|]; simpl; [done| |done].
    intros Hrun. eapply IH in Hrun as [Ht' Ho].
    + split; [done|]. etrans; [|exact Ho]. done.
    + done.
Qed.

Lemma recover_expired_leases_tracks s0 ns now m n m' :
  tracks_tasks s0 m → recover_expired_leases ns now m = (Ok n, m') →
  tracks_tasks s0 m' ∧ tasks_only m m'.
Proof.
  intros Ht. unfold recover_expired_leases. destruct (m_lease_expirations m !! ns); [|by intros [= _ <-]].
  destruct (pop_expired _ _ _ _). intros Hr.
  eapply requeue_expired_tracks in Hr as [Ht' Ho]; [|exact Ht]. split; [done|]. etrans; [|exact Ho]. done.
Qed.

Lemma prune_loop_tracks s0 cutoff target pruned heap m n m' :
  tracks_tasks s0 m → m_changed_tasks m = ∅ →
  prune_loop cutoff target pruned heap m = (Ok n, m') → tracks_tasks s0 m' ∧ tasks_only m m'.
Proof.
  revert pruned m. induction heap as [|[c id] heap IH]; intros pruned m Ht Hc; simpl.
  { case_match; by intros [= _ <-]. }
  case_match; [by intros [= _ <-]|]. case_match; [by intros [= _ <-]|].
  destruct (completed_entry (m_tasks m) c id) as [ns|] eqn:Hce; [|by apply IH].
  assert (∃ t, m_tasks m !! id = Some t) as [t Hid].
  { unfold completed_entry in Hce. destruct (m_tasks m !! id); [eauto|done]. }
  destruct (m_namespace_task_counts m !! ns); [|done]. intros Hrun.
  eapply IH in Hrun as [Ht' Ho].
  - split; [done|]. etrans; [|exact Ho]. done.
  - unfold tracks_tasks. simpl. eapply tracks_delete; [exact Ht|rewrite Hc; set_solver|done].
  - done.
Qed.

(** ** Handlers *)

Record tracked (s0 : BrokerState) (m : BrokerStateMachine) : Prop := {
  td_tasks : tracks_tasks s0 m;
  td_groups : tracks_groups s0 m;
  td_namespaces : tracks n_revision (s_namespaces s0) (s_namespaces (m_state m))
                    (m_changed_namespaces m) ∅;
}.

Lemma tracked_tasks_only s0 m m' :
  tracked s0 m → tracks_tasks s0 m' → tasks_only m m' → tracked s0 m'.
Proof.
  intros [_ Hg Hn] Ht [E1 E2 E3 E4]. constructor; [done|..].
  - unfold tracks_groups. by rewrite E1, E2.
  - by rewrite E3, E4.
Qed.

Section handlers.
Context (m : BrokerStateMachine).
Hypothesis Hclear : m = clear_changes m.

Lemma no_changed_tasks : m_changed_tasks m = ∅.
Proof using Hclear. by rewrite Hclear. Qed.

Lemma tracked_start : tracked (m_state m) m.
Proof using Hclear. rewrite Hclear. constructor; apply tracks_refl. Qed.

Lemma ensure_namespace_tracked c r m' :
  ensure_namespace c m = (Ok r, m') → tracked (m_state m) m'.
Proof using Hclear.
  pose proof tracked_start as [Ht Hg Hn]. unfold ensure_namespace. intros H.
  destruct (s_namespaces (m_state m) !! en_namespace_id c) eqn:E; [by simplify_eq|].
  group_op; [done..|]. constructor; [done|done|]. simpl. by apply tracks_new.
Qed.

Lemma publish_task_tracked c r m' : publish_task c m = (Ok r, m') → tracked (m_state m) m'.
Proof using Hclear.
  pose proof tracked_start as [Ht Hg Hn]. unfold publish_task. intros H.
  destruct (m_tasks m !! pt_task_id c) eqn:E; group_op; try done.
  constructor; [|done|done]. unfold tracks_tasks. simpl. by apply tracks_new.
Qed.

Lemma ensure_consumer_group_tracked c r m' :
  ensure_consumer_group c m = (Ok r, m') → tracked (m_state m) m'.
Proof using Hclear.
  pose proof tracked_start as [Ht Hg Hn]. unfold ensure_consumer_group. intros H.
  destruct (m_groups m !! eg_group_id c) eqn:E; group_op; try done.
  constructor; [done| |done]. unfold tracks_groups. simpl. by apply tracks_new.
Qed.

Lemma advance_term_tracked c r m' : advance_term c m = (Ok r, m') → tracked (m_state m) m'.
Proof using Hclear.
  pose proof tracked_start as [Ht Hg Hn]. unfold advance_term. intros H. by group_op.
Qed.

(** One group replaced and marked, or left as it was. *)
Lemma group_update_tracked gid g g' m' :
  m_groups m !! gid = Some g → g_revision g < g_revision g' ∨ g' = g →
  tracks_tasks (m_state m) m' → s_namespaces (m_state m') = s_namespaces (m_state m) →
  m_changed_namespaces m' = m_changed_namespaces m →
  m_groups m' = <[gid := g']> (m_groups m) →
  m_changed_groups m' = (if decide (g' = g) then m_changed_groups m
                         else {[ gid ]} ∪ m_changed_groups m) →
  tracked (m_state m) m'.
Proof using Hclear.
  intros Hg Hr Ht En Ecn Eg Ecg. pose proof tracked_start as [_ Hg0 Hn0].
  constructor; [done| |by rewrite En, Ecn]. unfold tracks_groups. rewrite Eg, Ecg.
  case_decide as Hd.
  - subst g'. by rewrite insert_id.
  - destruct Hr as [Hr|]; [|done]. by eapply tracks_insert.
Qed.
End handlers.

Lemma Group_join_revision mid caps now max g o g' :
  Group_join mid caps now max g = (Ok o, g') →
  g_id g' = g_id g ∧ (if decide (o = JoinUnchanged) then g' = g else g_revision g < g_revision g').
Proof. unfold Group_join. intros H. group_op; split; try done; lia. Qed.

Lemma Group_heartbeat_revision mid gen now g o g' :
  Group_heartbeat mid gen now g = (Ok o, g') →
  g_id g' = g_id g ∧ (if decide (o = Updated) then g_revision g < g_revision g' else g' = g).
Proof. unfold Group_heartbeat. intros H. group_op; split; try done; lia. Qed.

Lemma Group_leave_revision mid gen g o g' :
  Group_leave mid gen g = (Ok o, g') → g_id g' = g_id g ∧ g_revision g < g_revision g'.
Proof. unfold Group_leave. intros H. group_op; split; try done; lia. Qed.

(** A group that reaped nobody is unchanged. *)
Lemma Group_reap_revision cutoff max g removed g' :
  members_keyed (g_consumers g) →
  Group_reap_stale_members cutoff max g = (Ok removed, g') →
  members_keyed (g_consumers g') ∧
  (if is_nil removed then g' = g else g_revision g < g_revision g').
Proof.
  intros Hk. unfold Group_reap_stale_members. case_match; [done|].
  pose proof (stale_ids_nodup cutoff max _ Hk) as Hnd.
  pose proof (λ id, elem_of_stale_ids cutoff max _ id Hk) as Hs.
  destruct (take_N _ _).*2 as [|id ids] eqn:E; [by intros [= <- <-]|]. intros Hrun.
  rewrite remove_members_spec in Hrun by done. group_op. split.
  - intros i c [Hc _]%map_lookup_filter_Some. by apply Hk.
  - destruct (Hs id ltac:(by left)) as [c Hc]. rewrite Hc. simpl. lia.
Qed.

Section keyed_handlers.
Context (m : BrokerStateMachine).
Hypothesis Hclear : m = clear_changes m.
Hypothesis Hkey : ∀ id g, m_groups m !! id = Some g → g_id g = id ∧ members_keyed (g_consumers g).

Lemma join_tracked c r m' : join_consumer_group c m = (Ok r, m') → tracked (m_state m) m'.
Proof using Hclear Hkey.
  unfold join_consumer_group. destruct (next_revision _); [|done].
  destruct (Coordinator_join _ _ _ _ _ _) as [r0 groups] eqn:E.
  apply with_group_mut_cases in E as [(Hg & -> & ->)|(g & r' & g' & Hg & Ho & -> & ->)]; [done|].
  destruct r' as [o|]; [|done]. simpl. rewrite lookup_insert_eq. simpl. intros [= _ <-].
  destruct (Group_join_revision _ _ _ _ _ _ _ Ho) as [Hid Hr].
  rewrite (proj1 (Hkey _ _ Hg)) in Hid.
  case_decide as Ho'.
  - subst g'. apply (group_update_tracked m Hclear (jg_group_id c) g g); simpl; try done;
      [by right|exact (td_tasks _ _ (tracked_start m Hclear))|by rewrite decide_True].
  - apply (group_update_tracked m Hclear (jg_group_id c) g g'); simpl; try done;
      [by left|exact (td_tasks _ _ (tracked_start m Hclear))|].
    rewrite Hid, decide_False; [done|]. intros ->. lia.
Qed.

Lemma heartbeat_tracked c r m' : heartbeat c m = (Ok r, m') → tracked (m_state m) m'.
Proof using Hclear Hkey.
  unfold heartbeat. destruct (next_revision _); [|done].
  destruct (Coordinator_heartbeat _ _ _ _ _) as [r0 groups] eqn:E.
  apply with_group_mut_cases in E as [(Hg & -> & ->)|(g & r' & g' & Hg & Ho & -> & ->)]; [done|].
  destruct r' as [o|]; [|done]. simpl. rewrite lookup_insert_eq. simpl.
  destruct (g_consumers g' !! hb_member_id c); [|done]. simpl. intros [= _ <-].
  destruct (Group_heartbeat_revision _ _ _ _ _ _ Ho) as [Hid Hr].
  rewrite (proj1 (Hkey _ _ Hg)) in Hid.
  case_decide as Ho'.
  - apply (group_update_tracked m Hclear (hb_group_id c) g g'); simpl; try done;
      [by left|exact (td_tasks _ _ (tracked_start m Hclear))|].
    rewrite Hid, decide_False; [done|]. intros ->. lia.
  - subst g'. apply (group_update_tracked m Hclear (hb_group_id c) g g); simpl; try done;
      [by right|exact (td_tasks _ _ (tracked_start m Hclear))|by rewrite decide_True].
Qed.

Lemma leave_tracked c r m' : leave_consumer_group c m = (Ok r, m') → tracked (m_state m) m'.
Proof using Hclear Hkey.
  unfold leave_consumer_group. destruct (next_revision _); [|done].
  destruct (preflight_member_lease_requeue _ _ _); [|done].
  destruct (Coordinator_leave _ _ _ _) as [r0 groups] eqn:E.
  apply with_group_mut_cases in E as [(Hg & -> & ->)|(g & r' & g' & Hg & Ho & -> & ->)]; [done|].
  destruct r' as [o|]; [|done]. simpl. rewrite lookup_insert_eq. simpl.
  destruct (requeue_member_leases _ _ _) as [[n|] m1] eqn:Eq; [|done]. intros [= _ <-].
  eapply requeue_member_leases_tracks in Eq as [Ht [E1 E2 E3 E4]];
    [|exact (td_tasks _ _ (tracked_start m Hclear))].
  destruct (Group_leave_revision _ _ _ _ _ Ho) as [Hid Hr].
  rewrite (proj1 (Hkey _ _ Hg)) in Hid.
  eapply (group_update_tracked m Hclear (lv_group_id c) g g'); simpl; try done; [by left|].
  rewrite decide_False; [by rewrite Hid, E2|]. intros ->. lia.
Qed.

Lemma renew_tracked c r m' : renew_task_lease c m = (Ok r, m') → tracked (m_state m) m'.
Proof using Hclear.
  unfold renew_task_lease. destruct (require_term _ _); [|done].
  destruct (require_group_member _ _ _ _) as [[]|]; [|done].
  destruct (checked_deadline _ _); [|done]. destruct (next_revision _); [|done].
  destruct (m_tasks m !! rn_task_id c) as [t|] eqn:Hid; [|done]. simpl.
  destruct (Task_renew _ _ _) as [[[]|] t'] eqn:E; [|done].
  apply Task_renew_ok in E as (l & Hl & _ & _ & ->). simpl. intros [= _ <-].
  pose proof (tracked_start m Hclear) as Htr.
  apply (tracked_tasks_only _ m); [done| |done].
  eapply (mark_task_tracks _ m); [apply Htr|exact Hid| |done..]. simpl. lia.
Qed.

Lemma complete_tracked c r m' : complete_task c m = (Ok r, m') → tracked (m_state m) m'.
Proof using Hclear.
  unfold complete_task. destruct (require_term _ _); [|done].
  destruct (require_group_member _ _ _ _); [|done]. destruct (next_revision _); [|done].
  destruct (m_tasks m !! cp_task_id c) as [t|] eqn:Hid; [|done]. simpl.
  pose proof (tracked_start m Hclear) as Htr.
  destruct (Task_complete _ _ _) as [[[]|] t'] eqn:E; [| |done]; simpl; intros [= _ <-];
    (apply (tracked_tasks_only _ m); [done| |]).
  - apply Task_complete_ok in E as (l & Hl & _ & _ & ->). rewrite remove_member_lease_task_fields.
    eapply (mark_task_tracks _ m); [apply Htr|exact Hid| |done..]. simpl. lia.
  - rewrite remove_member_lease_task_fields. done.
  - apply Task_complete_already in E as [-> _]. unfold tracks_tasks. simpl.
    rewrite insert_id by done. apply Htr.
  - done.
Qed.

Lemma prune_tracked c r m' : prune_completed_tasks c m = (Ok r, m') → tracked (m_state m) m'.
Proof using Hclear.
  pose proof (tracked_start m Hclear) as Htr. unfold prune_completed_tasks.
  case_match; [done|]. case_match; [by intros [= _ <-]|].
  destruct (check_counts _ _); [|done]. destruct (next_revision _); [|done].
  destruct (prune_loop _ _ _ _ _) as [[n|] m1] eqn:E; [|done]. intros [= _ <-].
  eapply prune_loop_tracks in E as [Ht Ho]; [|apply Htr|by apply no_changed_tasks].
  assert (tracked (m_state m) m1) as [] by by eapply tracked_tasks_only.
  by case_match.
Qed.
End keyed_handlers.

Lemma reap_groups_tracks s0 cutoff sel n affected m n' affected' m' :
  tracks_tasks s0 m → (∀ id g, m_groups m !! id = Some g → members_keyed (g_consumers g)) →
  tracks g_revision (s_groups s0) (m_groups m) (list_to_set affected ∪ m_changed_groups m) ∅ →
  (0 < n ∨ affected = []) →
  reap_groups cutoff sel n affected m = (Ok (n', affected'), m') →
  tracks_tasks s0 m' ∧ m_changed_groups m' = m_changed_groups m ∧
  s_namespaces (m_state m') = s_namespaces (m_state m) ∧
  m_changed_namespaces m' = m_changed_namespaces m ∧
  tracks g_revision (s_groups s0) (m_groups m') (list_to_set affected' ∪ m_changed_groups m) ∅ ∧
  (0 < n' ∨ affected' = []).
Proof.
  revert n affected m. induction sel as [|[gid ids] sel IH];
    intros n affected m Ht Hk Hg Hn; simpl; [by intros [= <- <- <-]|].
  destruct (Coordinator_reap_stale_members _ _ _ _) as [r0 groups] eqn:E.
  apply with_group_mut_cases in E as [(Hg0 & -> & ->)|(g & r' & g' & Hg0 & Ho & -> & ->)]; [done|].
  destruct r' as [removed|]; [|done]. simpl.
  destruct (Group_reap_revision _ _ _ _ _ (Hk _ _ Hg0) Ho) as [Hk' Hr].
  assert (∀ id g0, <[gid := g']> (m_groups m) !! id = Some g0 → members_keyed (g_consumers g0)) as Hks.
  { intros id g0. rewrite lookup_insert. case_decide; [by intros [= <-]|apply Hk]. }
  destruct (is_nil removed) eqn:Hnil.
  { subst g'. intros Hrun. rewrite insert_id in Hrun by done.
    eapply IH in Hrun; [exact Hrun|done..]. }
  destruct (requeue_removed gid removed _) as [[u|] m1] eqn:Eq; [|done].
  eapply requeue_removed_tracks in Eq as [Ht1 [E1 E2 E3 E4]]; [|exact Ht]. simpl in *. intros Hrun.
  eapply IH in Hrun as (H1 & H2 & H3 & H4 & H5 & H6); [|done|..].
  - split_and!; [done|congruence..| |done]. by rewrite E2 in H5.
  - by rewrite E1.
  - rewrite E1, E2. rewrite list_to_set_app_L. simpl.
    replace (list_to_set affected ∪ ({[gid]} ∪ ∅) ∪ m_changed_groups m)
      with ({[gid]} ∪ (list_to_set affected ∪ m_changed_groups m)) by set_solver.
    by eapply tracks_insert.
  - left. destruct removed; [done|]. unfold len. simpl. lia.
Qed.

Lemma reap_tracked c m r m' :
  m = clear_changes m →
  (∀ id g, m_groups m !! id = Some g → members_keyed (g_consumers g)) →
  reap_stale_members c m = (Ok r, m') → tracked (m_state m) m'.
Proof.
  intros Hclear Hk. pose proof (tracked_start m Hclear) as Htr. unfold reap_stale_members.
  case_match; [done|]. case_match; [by intros [= _ <-]|].
  destruct (next_revision _); [|done]. destruct (preflight_groups _ _); [|done].
  destruct (reap_groups _ _ _ _ _) as [[[n affected]|] m1] eqn:E; [|done]. intros [= _ <-].
  eapply (reap_groups_tracks (m_state m)) in E as (H1 & H2 & H3 & H4 & H5 & H6);
    [|apply Htr|done| |by right].
  - destruct (N.ltb_spec 0 n) as [Hlt|Hle].
    + constructor; [done| |].
      * unfold tracks_groups. simpl. by rewrite H2.
      * simpl. rewrite H3, H4. apply Htr.
    + destruct H6 as [?| ->]; [lia|]. constructor; [done| |by rewrite H3, H4; apply Htr].
      unfold tracks_groups. rewrite H2. by rewrite list_to_set_nil, (left_id_L ∅ (∪)) in H5.
  - rewrite list_to_set_nil, (left_id_L ∅ (∪)). apply Htr.
Qed.

Lemma pop_ready_task_only ns m id m' : pop_ready_task ns m = (id, m') →
  tasks_only m m' ∧ m_tasks m' = m_tasks m ∧ m_changed_tasks m' = m_changed_tasks m ∧
  m_deleted_tasks m' = m_deleted_tasks m.
Proof.
  unfold pop_ready_task. destruct (m_ready_tasks m !! ns); [|by intros [= _ <-]].
  destruct (pop_ready _ _). by intros [= _ <-].
Qed.

Lemma lease_task_tracks s0 c ns gen id m r m' :
  tracks_tasks s0 m → lease_task c ns gen id m = (Ok r, m') →
  tracks_tasks s0 m' ∧ tasks_only m m'.
Proof.
  intros Ht. unfold lease_task. destruct (checked_deadline _ _); [|done].
  destruct (next_revision _); [|done]. destruct (m_tasks m !! id) as [t|] eqn:Hid; [|done]. simpl.
  destruct (Task_claim _ t) as [[[]|] t'] eqn:E; [|done].
  apply Task_claim_ok in E as (q & Hq & _ & _ & ->). simpl. rewrite lookup_insert_eq. simpl.
  intros [= _ <-]. split; [|done]. eapply (mark_task_tracks _ m); [done..| |done|done|done].
  simpl. lia.
Qed.

Lemma claim_tracked c m r m' :
  m = clear_changes m → claim_task c m = (Ok r, m') → tracked (m_state m) m'.
Proof.
  intros Hclear. pose proof (tracked_start m Hclear) as Htr. unfold claim_task.
  destruct (require_term _ _); [|done]. destruct (require_group_member _ _ _ _) as [[ns gen]|]; [|done].
  destruct (m_active_lease_tasks m !! _) as [i|].
  { destruct (m_tasks m !! i) as [t|]; [|done]. simpl. destruct (t_state t); try done.
    case_match; [|done]. by intros [= _ <-]. }
  destruct (recover_expired_leases _ _ _) as [[n|] m1] eqn:E1; [|done].
  eapply recover_expired_leases_tracks in E1 as [Ht1 Ho1]; [|apply Htr].
  destruct (pop_ready_task ns m1) as [o m2] eqn:E2.
  apply pop_ready_task_only in E2 as (Ho2 & Et & Ec & Ed).
  assert (tracks_tasks (m_state m) m2) as Ht2 by (unfold tracks_tasks; by rewrite Et, Ec, Ed).
  destruct o as [id|].
  - intros Hl. eapply lease_task_tracks in Hl as [Ht3 Ho3]; [|done].
    eapply tracked_tasks_only; [exact Htr|done|]. etrans; [done|]. by etrans.
  - assert (tracked (m_state m) m2) as [] by (eapply tracked_tasks_only; [exact Htr|done|by etrans]).
    case_match; [destruct (next_revision _); [|done]|]; by intros [= _ <-].
Qed.

Lemma prod_map_ok {A B E S} (f : A → B) (h : result A E * S) r s' :
  prod_map (map_ok f) id h = (Ok r, s') → ∃ a, h = (Ok a, s').
Proof. destruct h as [[a|] s]; simpl; intros [= _ <-]. eauto. Qed.

Lemma handle_tracked cmd m r m' :
  m = clear_changes m →
  (∀ id g, m_groups m !! id = Some g → g_id g = id ∧ members_keyed (g_consumers g)) →
  handle cmd m = (Ok r, m') → tracked (m_state m) m'.
Proof.
  intros Hclear Hk. destruct cmd; cbn [handle]; intros [a Ha]%prod_map_ok.
  - by eapply ensure_namespace_tracked.
  - by eapply publish_task_tracked.
  - by eapply ensure_consumer_group_tracked.
  - by eapply join_tracked.
  - by eapply heartbeat_tracked.
  - by eapply leave_tracked.
  - eapply reap_tracked; [done| |done]. intros id g Hg. by eapply Hk.
  - by eapply claim_tracked.
  - by eapply renew_tracked.
  - by eapply complete_tracked.
  - by eapply prune_tracked.
  - by eapply advance_term_tracked.
Qed.

(** ** Change sets are differences *)

Lemma tracks_changed_iff {K V} `{Countable K} (rev : V → Revision) (old new : gmap K V) changed deleted k :
  tracks rev old new changed deleted →
  k ∈ changed ↔ is_Some (new !! k) ∧ new !! k ≠ old !! k.
Proof.
  intros [Hc Hd Hs]. split.
  - intros (v' & -> & Hlt)%Hc. split; [eauto|]. intros Heq. specialize (Hlt v' (eq_sym Heq)). lia.
  - intros [[v Hv] Hne]. destruct (decide (k ∈ changed)) as [|Hn]; [done|].
    destruct (decide (k ∈ deleted)) as [[? _]%Hd|Hn']; [congruence|]. by rewrite Hs in Hne.
Qed.

Lemma tracks_deleted_iff {K V} `{Countable K} (rev : V → Revision) (old new : gmap K V) changed deleted k :
  tracks rev old new changed deleted →
  k ∈ deleted ↔ is_Some (old !! k) ∧ new !! k = None.
Proof.
  intros [Hc Hd Hs]. split; [intros [? ?]%Hd; done|].
  intros [[v Hv] Hn]. destruct (decide (k ∈ deleted)) as [|Hnd]; [done|].
  destruct (decide (k ∈ changed)) as [(v' & ? & _)%Hc|Hnc]; [congruence|].
  rewrite Hs in Hn by done. congruence.
Qed.

(** The change set that belongs to a pair of states. *)
Definition diff_changed {K V} `{Countable K, EqDecision V} (old new : gmap K V) : gset K :=
  dom (filter (λ kv, old !! kv.1 ≠ Some kv.2) new).

Definition diff_deleted {K V} `{Countable K} (old new : gmap K V) : gset K := dom old ∖ dom new.

Definition state_diff (s s' : BrokerState) : StateChangeSet := {|
  sc_namespaces := bset_iter (diff_changed (s_namespaces s) (s_namespaces s'));
  sc_tasks := bset_iter (diff_changed (s_tasks s) (s_tasks s'));
  sc_deleted_tasks := bset_iter (diff_deleted (s_tasks s) (s_tasks s'));
  sc_groups := bset_iter (diff_changed (s_groups s) (s_groups s'));
|}.

Lemma diff_changed_tracks {K V} `{Countable K, EqDecision V} (rev : V → Revision)
    (old new : gmap K V) changed deleted :
  tracks rev old new changed deleted → diff_changed old new = changed.
Proof.
  intros Ht. apply set_eq. intros k. rewrite (tracks_changed_iff _ _ _ _ _ _ Ht).
  unfold diff_changed. rewrite elem_of_dom. unfold is_Some.
  setoid_rewrite map_lookup_filter_Some. simpl. split.
  - intros (v & -> & Hne). split; [eauto|]. congruence.
  - intros [[v Hv] Hne]. exists v. split; [done|]. congruence.
Qed.

Lemma diff_deleted_tracks {K V} `{Countable K} (rev : V → Revision) (old new : gmap K V) changed deleted :
  tracks rev old new changed deleted → diff_deleted old new = deleted.
Proof.
  intros Ht. apply set_eq. intros k. rewrite (tracks_deleted_iff _ _ _ _ _ _ Ht).
  unfold diff_deleted. rewrite elem_of_difference, elem_of_dom, not_elem_of_dom. done.
Qed.

Lemma tracked_take_changes s m : tracked s m → take_changes m = state_diff s (m_state m).
Proof.
  intros [Ht Hg Hn]. unfold take_changes, state_diff.
  by rewrite (diff_changed_tracks _ _ _ _ _ Ht), (diff_deleted_tracks _ _ _ _ _ Ht),
    (diff_changed_tracks _ _ _ _ _ Hg), (diff_changed_tracks _ _ _ _ _ Hn).
Qed.

Lemma StateInv_groups_keyed s id g :
  StateInv s → s_groups s !! id = Some g → g_id g = id ∧ members_keyed (g_consumers g).
Proof. intros Hs Hg. split; [by apply (si_groups _ Hs) in Hg as [? _]|by eapply StateInv_keyed]. Qed.

Lemma apply_changes cmd m am m' :
  StateInv (m_state m) → apply cmd m = (Ok am, m') →
  am_changes am = state_diff (m_state m) (m_state m').
Proof.
  intros Hs. unfold apply. destruct (handle cmd (clear_changes m)) as [[r|] m1] eqn:E; [|done].
  intros [= <- <-]. simpl. apply handle_tracked in E; [|done|intros; by eapply StateInv_groups_keyed].
  by apply tracked_take_changes.
Qed.
