(* ===== verification/Stale.v ===== *)
(** * Expiration entries across restarts

    The expiration heaps of a running broker may hold entries of leases that are
    gone; a broker restored from a checkpoint starts without them.  The entries
    of the restored broker stay among those of the running one, so a command
    that is admissible for the running broker is admissible for the restored
    one. *)

From S2P Require Import Prelude Values Task Group Messages Machine Spec Recovery Invariant.
From S2P Require Import Refinement Claim Reap Effect Broker RecoveryProps Changes.

Abbreviation entries m := (heap_at (m_lease_expirations m)).

Definition fewer_entries (m' m : BrokerStateMachine) : Prop :=
  ∀ ns e, e ∈ entries m' ns → e ∈ entries m ns.

(** ** Handlers that leave the heaps alone *)

Ltac exps_same := repeat (first [done | case_match]).

Lemma requeue_tasks_exps g mid ids n m :
  m_lease_expirations (requeue_tasks g mid ids n m).2 = m_lease_expirations m.
Proof.
  revert n m. induction ids as [|id ids IH]; intros n m; [done|]. simpl.
  match goal with |- context [match ?x with Some _ => _ | None => _ end] =>
    destruct x as [[]|]; [|apply IH] end.
  destruct (m_tasks m !! id); [|done]. simpl.
  destruct (requeue_for_member _ _ _) as [[[]|] t']; simpl; [|by rewrite IH|done].
  rewrite lookup_insert_eq. simpl. by rewrite IH.
Qed.

Lemma requeue_member_leases_exps g mid m :
  m_lease_expirations (requeue_member_leases g mid m).2 = m_lease_expirations m.
Proof. unfold requeue_member_leases. by rewrite requeue_tasks_exps. Qed.

Lemma requeue_removed_exps g removed m :
  m_lease_expirations (requeue_removed g removed m).2 = m_lease_expirations m.
Proof.
  revert m. induction removed as [|c removed IH]; intros m; [done|]. simpl.
  pose proof (requeue_member_leases_exps g (c_id c) m) as H.
  destruct (requeue_member_leases _ _ _) as [[]]; simpl in *; [by rewrite IH|done].
Qed.

Lemma reap_groups_exps stale sel n aff m :
  m_lease_expirations (reap_groups stale sel n aff m).2 = m_lease_expirations m.
Proof.
  revert n aff m. induction sel as [|[g ids] sel IH]; intros n aff m; [done|]. simpl.
  destruct (Coordinator_reap_stale_members _ _ _ _) as [r groups].
  destruct (map_err _ r) as [removed|]; [|done]. case_match; [by rewrite IH|].
  match goal with |- context [requeue_removed g removed ?m1] =>
    pose proof (requeue_removed_exps g removed m1);
    destruct (requeue_removed g removed m1) as [[]] end; simpl in *; [by rewrite IH|done].
Qed.

Lemma prune_loop_exps cutoff target pruned heap m :
  m_lease_expirations (prune_loop cutoff target pruned heap m).2 = m_lease_expirations m.
Proof.
  revert pruned m. induction heap as [|[c id] heap IH]; intros pruned m; simpl; [by case_match|].
  do 2 (case_match; [done|]). case_match; [|by rewrite IH]. case_match; [|done]. by rewrite IH.
Qed.

Lemma remove_member_lease_task_exps g mid id m :
  m_lease_expirations (remove_member_lease_task g mid id m) = m_lease_expirations m.
Proof. unfold remove_member_lease_task. exps_same. Qed.

Lemma requeue_expired_exps ns now ids n m :
  m_lease_expirations (requeue_expired ns now ids n m).2 = m_lease_expirations m.
Proof.
  revert n m. induction ids as [|id ids IH]; intros n m; [done|]. simpl.
  match goal with |- context [match ?x with Some _ => _ | None => _ end] =>
    destruct x as [[[[]]]|]; [|apply IH] end.
  destruct (m_tasks m !! id); [|done]. simpl.
  destruct (requeue_if_expired _ _) as [[[]|] t']; simpl; [|by rewrite IH|done].
  rewrite IH. simpl. by rewrite remove_member_lease_task_exps.
Qed.

Lemma pop_ready_task_exps ns m : m_lease_expirations (pop_ready_task ns m).2 = m_lease_expirations m.
Proof. unfold pop_ready_task. case_match; [|done]. by destruct (pop_ready _ _). Qed.

Definition moves_entries (cmd : BrokerCommand) : bool :=
  match cmd with ClaimTask _ | RenewTaskLease _ => true | _ => false end.

Lemma handle_exps cmd m :
  moves_entries cmd = false → m_lease_expirations (handle cmd m).2 = m_lease_expirations m.
Proof.
  destruct cmd; simpl; try done; intros _.
  - unfold ensure_namespace. exps_same.
  - unfold publish_task. exps_same.
  - unfold ensure_consumer_group. exps_same.
  - unfold join_consumer_group. exps_same.
  - unfold heartbeat. exps_same.
  - unfold leave_consumer_group. destruct (next_revision _); [|done].
    destruct (preflight_member_lease_requeue _ _ _); [|done].
    destruct (Coordinator_leave _ _ _ _) as [r groups]. destruct (map_err _ r); [|done].
    destruct (ok_or _ _) as [g|]; [|done].
    match goal with |- context [requeue_member_leases ?g ?mid ?m1] =>
      pose proof (requeue_member_leases_exps g mid m1);
      destruct (requeue_member_leases g mid m1) as [[]] end; done.
  - unfold reap_stale_members. do 2 (case_match; [done|]). destruct (next_revision _); [|done].
    destruct (preflight_groups _ _); [|done].
    match goal with |- context [reap_groups ?st ?sel 0 [] m] =>
      pose proof (reap_groups_exps st sel 0 [] m);
      destruct (reap_groups st sel 0 [] m) as [[[n aff]|]] end; simpl in *; [|done].
    by case_match.
  - unfold complete_task. destruct (require_term _ _); [|done].
    destruct (require_group_member _ _ _ _); [|done]. destruct (next_revision _); [|done].
    destruct (ok_or _ _) as [t|]; [|done]. destruct (Task_complete _ _ t) as [r t'].
    destruct (map_err _ r) as [o|]; [|done]. simpl. case_decide; [|done]. simpl.
    by rewrite remove_member_lease_task_exps.
  - unfold prune_completed_tasks. do 2 (case_match; [done|]).
    destruct (check_counts _ _); [|done]. destruct (next_revision _); [|done].
    match goal with |- context [prune_loop ?c ?t 0 ?h m] =>
      pose proof (prune_loop_exps c t 0 h m);
      destruct (prune_loop c t 0 h m) as [[n|]] end; simpl in *; [|done]. by case_match.
  - unfold advance_term. exps_same.
Qed.

(** ** The entries a command keeps and adds *)

(** The namespace whose due entries a claim drops: none if it is refused or the
    lease it names is already held. *)
Definition claim_drops (c : ClaimTaskCommand) (m : BrokerStateMachine) : option NamespaceId :=
  match require_term (cl_expected_term c) m,
        require_group_member (cl_group_id c) (cl_member_id c) (cl_expected_generation c) m,
        m_active_lease_tasks m !! cl_lease_id c with
  | Ok _, Ok (ns, _), None => Some ns
  | _, _, _ => None
  end.

Definition kept (cmd : BrokerCommand) (m : BrokerStateMachine) (ns : NamespaceId)
    (e : ExpirationEntry) : Prop :=
  match cmd with
  | ClaimTask c => claim_drops c m = Some ns → cl_now_ms c < e.1.1
  | _ => True
  end.

(** From [m] to [m'] the entries selected by [keep] stay, and the only new ones
    describe leases of [m']. *)
Definition entries_step (keep : NamespaceId → ExpirationEntry → Prop)
    (m m' : BrokerStateMachine) : Prop :=
  ∀ ns e, (keep ns e → e ∈ entries m ns → e ∈ entries m' ns) ∧
    (e ∈ entries m' ns → (keep ns e ∧ e ∈ entries m ns) ∨ live_entry (m_tasks m') e).

Lemma entries_step_same (keep : NamespaceId → ExpirationEntry → Prop) m m' :
  m_lease_expirations m' = m_lease_expirations m → (∀ ns e, keep ns e) → entries_step keep m m'.
Proof. intros He Hk ns e. rewrite He. naive_solver. Qed.

(** Pushing the entry of a lease just granted or renewed. *)
Lemma push_entry ns e0 m m' :
  m_lease_expirations m' = heap_map_push ns e0 (m_lease_expirations m) →
  live_entry (m_tasks m') e0 → entries_step (λ _ _, True) m m'.
Proof.
  intros He Hl ns' e. rewrite He, heap_at_push. case_decide; [|naive_solver].
  rewrite elem_of_heap_push. naive_solver.
Qed.

Lemma recover_expired_leases_entries ns now m :
  IndexInv ∅ m →
  ∀ ns' e, e ∈ entries (recover_expired_leases ns now m).2 ns' ↔
    (ns' = ns → now < e.1.1) ∧ e ∈ entries m ns'.
Proof.
  intros Hi ns' e. unfold recover_expired_leases.
  destruct (m_lease_expirations m !! ns) as [heap|] eqn:E.
  - pose proof (pop_expired_spec (m_tasks m) now heap ∅) as Hp.
    destruct (pop_expired _ _ _ _) as [cand heap'].
    destruct Hp as (_ & Hp & _).
    { destruct (ii_exps _ _ Hi) as [Hs _]. specialize (Hs ns). unfold heap_at in Hs. by rewrite E in Hs. }
    rewrite requeue_expired_exps. simpl. rewrite heap_at_insert. case_decide as Hn; [|naive_solver].
    subst ns'. rewrite Hp. unfold heap_at. rewrite E. simpl. naive_solver.
  - simpl. split; [|by intros []]. intros He. split; [|done]. intros ->.
    unfold heap_at in He. rewrite E in He. by apply elem_of_nil in He.
Qed.

Lemma lease_task_entries c ns gen id m : entries_step (λ _ _, True) m (lease_task c ns gen id m).2.
Proof.
  unfold lease_task. destruct (checked_deadline _ _) as [expires|]; [|by apply entries_step_same].
  destruct (next_revision _); [|by apply entries_step_same].
  destruct (m_tasks m !! id) as [t|]; [|by apply entries_step_same]. simpl.
  destruct (Task_claim _ t) as [r t'] eqn:Et. destruct r as [[]|]; [|by apply entries_step_same]. simpl.
  destruct (t_state t') as [q|lease|ct] eqn:Hs; [by apply entries_step_same| |by apply entries_step_same].
  rewrite lookup_insert_eq. simpl. eapply push_entry; [done|]. simpl.
  exists t', lease. rewrite lookup_insert_eq. split_and!; try done.
  unfold Task_claim in Et. destruct (t_state t); [|done..].
  destruct (map_err _ (LeaseEpoch_next _)); [|done]. destruct (map_err _ (Revision_next _)); [|done].
  simplify_eq/=. by simplify_eq/=.
Qed.

Lemma renew_task_lease_entries c m : entries_step (λ _ _, True) m (renew_task_lease c m).2.
Proof.
  unfold renew_task_lease. destruct (require_term _ _); [|by apply entries_step_same].
  destruct (require_group_member _ _ _ _) as [[ns gen]|]; [|by apply entries_step_same].
  destruct (checked_deadline _ _) as [expires|]; [|by apply entries_step_same].
  destruct (next_revision _); [|by apply entries_step_same].
  destruct (m_tasks m !! rn_task_id c) as [t|]; [|by apply entries_step_same]. simpl.
  destruct (Task_renew _ _ t) as [r t'] eqn:Et. destruct r as [[]|]; [|by apply entries_step_same]. simpl.
  destruct (t_state t') as [q|lease|ct] eqn:Hs; [by apply entries_step_same| |by apply entries_step_same].
  eapply push_entry; [done|]. simpl. exists t', lease. rewrite lookup_insert_eq. split_and!; try done.
  unfold Task_renew in Et. destruct (require_active_lease _ _); [|done].
  destruct (map_err _ (Revision_next _)); [|done]. destruct (t_state t); [done| |done].
  simplify_eq/=. by simplify_eq/=.
Qed.

(** A claim that goes through drops the due entries of its namespace and then
    leaves them alone or adds the entry of the lease it grants. *)
Lemma drop_then_step (keep : NamespaceId → ExpirationEntry → Prop) m m1 m2 :
  (∀ ns e, e ∈ entries m1 ns ↔ keep ns e ∧ e ∈ entries m ns) →
  entries_step (λ _ _, True) m1 m2 → entries_step keep m m2.
Proof. intros H1 H2 ns e. destruct (H2 ns e). specialize (H1 ns e). naive_solver. Qed.

Lemma entries_step_mono (keep keep' : NamespaceId → ExpirationEntry → Prop) m m' :
  (∀ ns e, keep ns e ↔ keep' ns e) → entries_step keep m m' → entries_step keep' m m'.
Proof. intros Hk Hs ns e. specialize (Hk ns e). specialize (Hs ns e). naive_solver. Qed.

Lemma claim_task_entries c m :
  IndexInv ∅ m → entries_step (kept (ClaimTask c) m) m (claim_task c m).2.
Proof.
  intros Hi. unfold claim_task, kept, claim_drops.
  destruct (require_term _ _) as [u|]; [|by apply entries_step_same].
  destruct (require_group_member _ _ _ _) as [[ns gen]|]; [|by apply entries_step_same].
  destruct (m_active_lease_tasks m !! _) as [id|].
  { apply entries_step_same; [|done]. exps_same. }
  eapply (entries_step_mono (λ ns' e, ns' = ns → cl_now_ms c < e.1.1)); [naive_solver|].
  pose proof (recover_expired_leases_entries ns (cl_now_ms c) m Hi) as Hr.
  destruct (recover_expired_leases _ _ _) as [[n|err] m1]; simpl in Hr.
  - eapply drop_then_step; [exact Hr|].
    pose proof (pop_ready_task_exps ns m1) as Hp. destruct (pop_ready_task ns m1) as [[id|] m2]; simpl in Hp.
    + pose proof (lease_task_entries c ns gen id m2) as Hl. intros ns' e.
      specialize (Hl ns' e). by rewrite Hp in Hl.
    + apply entries_step_same; [|done]. by repeat case_match.
  - eapply drop_then_step; [exact Hr|]. by apply entries_step_same.
Qed.

Lemma handle_entries cmd m :
  IndexInv ∅ m → entries_step (kept cmd m) m (handle cmd m).2.
Proof.
  intros Hi. destruct (moves_entries cmd) eqn:E.
  - destruct cmd; try done; simpl.
    + by apply claim_task_entries.
    + apply renew_task_lease_entries.
  - apply entries_step_same; [by apply handle_exps|]. by destruct cmd.
Qed.

(** ** Two machines with the same state *)

Lemma kept_same cmd m1 m2 ns e :
  IndexInv ∅ m1 → IndexInv ∅ m2 → m_state m1 = m_state m2 → kept cmd m1 ns e → kept cmd m2 ns e.
Proof.
  intros H1 H2 Hs. destruct cmd as [| | | | | | |c| | | |]; try done. simpl.
  assert (claim_drops c m1 = claim_drops c m2) as ->; [|done].
  unfold claim_drops, require_term, require_group_member, m_groups. rewrite Hs.
  assert (m_active_lease_tasks m1 !! cl_lease_id c = m_active_lease_tasks m2 !! cl_lease_id c) as ->; [|done].
  apply option_eq. intros id. rewrite (ii_active _ _ H1 _ id), (ii_active _ _ H2 _ id).
  unfold m_tasks. by rewrite Hs.
Qed.

Lemma live_entry_present m ns e :
  IndexInv ∅ m → live_entry (m_tasks m) e →
  (∀ t, m_tasks m !! e.1.2 = Some t → t_namespace_id t = ns) → e ∈ entries m ns.
Proof.
  intros Hi (t & l & Ht & Hl & He & Hx) Hns. destruct (ii_exps _ _ Hi) as (_ & Hp & _).
  specialize (Hp _ _ _ Ht Hl (not_elem_of_empty _)). rewrite (Hns _ Ht) in Hp.
  destruct e as [[]]. simpl in *. by subst.
Qed.

Lemma apply_entries cmd m : m_lease_expirations (apply cmd m).2 = m_lease_expirations (handle cmd (clear_changes m)).2
  ∧ m_state (apply cmd m).2 = m_state (handle cmd (clear_changes m)).2.
Proof. unfold apply. by destruct (handle _ _) as [[]]. Qed.

(** The machine with fewer entries still has fewer entries after a command. *)
Lemma apply_fewer_entries cmd m' m :
  Inv m' → Inv m → m_state m' = m_state m → Inv (apply cmd m').2 → Inv (apply cmd m).2 →
  m_state (apply cmd m').2 = m_state (apply cmd m).2 →
  fewer_entries m' m → fewer_entries (apply cmd m').2 (apply cmd m).2.
Proof.
  intros I' I Hs J' J Hs' Hf ns e.
  destruct (apply_entries cmd m') as [E' S'], (apply_entries cmd m) as [E S].
  rewrite E'. intros He.
  destruct (handle_entries cmd (clear_changes m') (inv_index _ (clear_changes_inv _ I')) ns e) as [_ H'].
  destruct (handle_entries cmd (clear_changes m) (inv_index _ (clear_changes_inv _ I)) ns e) as [H _].
  destruct (H' He) as [[Hk Hin]|Hlive].
  - rewrite E. apply H; [|by apply Hf].
    by eapply kept_same; [apply (clear_changes_inv _ I')|apply (clear_changes_inv _ I)|exact Hs|exact Hk].
  - apply live_entry_present; [apply J| |].
    + unfold m_tasks. rewrite <-Hs', S'. exact Hlive.
    + unfold m_tasks. rewrite <-Hs'. intros t Ht. destruct (ii_exps _ _ (inv_index _ J')) as (_ & _ & Hn).
      destruct e as [[x id] ep]. eapply Hn; [|exact Ht]. by rewrite E'.
Qed.

Lemma fewer_entries_admissible cmd m' m :
  m_state m' = m_state m → fewer_entries m' m → admissible cmd m → admissible cmd m'.
Proof.
  intros Hs Hf. destruct cmd as [|c| | | | | |c| | | |]; try done; simpl; [|by rewrite Hs].
  unfold m_tasks. rewrite Hs. intros Ha Hn. specialize (Ha Hn). intros ns' h Hh Hne.
  apply Forall_forall. intros [[x id] ep] Hx Hid. simpl in Hid. subst id. apply Hne.
  eapply no_foreign_expiration_at; [exact Ha|]. apply Hf. unfold heap_at. rewrite Hh. exact Hx.
Qed.

(** A machine restored from a checkpoint has the entries of the leases only. *)
Lemma restored_fewer_entries m m' :
  Inv m → from_checkpoint (BrokerState_checkpoint (m_state m)) = Ok m' → fewer_entries m' m.
Proof.
  intros Hi (s & ix & Hs & Hix & ->)%from_checkpoint_ok.
  rewrite restore_state_checkpoint in Hs by apply Hi. simplify_eq.
  pose proof (StateInv_tasks_keyed _ (inv_state _ Hi)) as Hk.
  pose proof (rebuild_indexes_rebuilt _ _ Hk Hix) as [Hidx He]. intros ns e Hin.
  apply live_entry_present; [apply Hi|by eapply He|].
  intros t Ht. destruct (ii_exps _ _ Hidx) as (_ & _ & Hn). destruct e as [[x id] ep].
  by eapply Hn.
Qed.

(** ** Runs *)

(** Two machines with right indexes and the same state, the second with fewer
    expiration entries. *)
Record same_machine (m1 m2 : BrokerStateMachine) : Prop := {
  sa_inv1 : Inv m1;
  sa_inv2 : Inv m2;
  sa_state : m_state m2 = m_state m1;
  sa_entries : fewer_entries m2 m1;
}.

Lemma same_machine_apply cmd m1 m2 :
  same_machine m1 m2 → admissible cmd m1 →
  admissible cmd m2 ∧ (apply cmd m2).1 = (apply cmd m1).1 ∧
  same_machine (apply cmd m1).2 (apply cmd m2).2.
Proof.
  intros [H1 H2 Hs Hf] A1. pose proof (fewer_entries_admissible cmd m2 m1 Hs Hf A1) as A2.
  destruct (apply_refines cmd m1 H1 A1) as (I1 & E1 & S1).
  destruct (apply_refines cmd m2 H2 A2) as (I2 & E2 & S2).
  pose proof (λ am m', apply_changes cmd m1 am m' (inv_state _ H1)) as C1.
  pose proof (λ am m', apply_changes cmd m2 am m' (inv_state _ H2)) as C2.
  assert (m_state (apply cmd m2).2 = m_state (apply cmd m1).2) as Hs' by congruence.
  pose proof (apply_fewer_entries cmd m2 m1 H2 H1 Hs I2 I1 Hs' Hf) as Hf'.
  destruct (apply cmd m1) as [r1 m1'], (apply cmd m2) as [r2 m2']. simpl in *.
  split_and!; [done| |by constructor].
  rewrite Hs, <-E1 in E2. destruct r1 as [[res1 ch1]|e1], r2 as [[res2 ch2]|e2];
    simpl in E2; simplify_eq; [|done].
  specialize (C1 _ _ eq_refl). specialize (C2 _ _ eq_refl). simpl in *. by rewrite C1, C2, Hs, Hs'.
Qed.

(** Such machines cannot be told apart. *)
Lemma same_machine_run cmds m1 m2 :
  same_machine m1 m2 → admissible_run cmds m1 →
  admissible_run cmds m2 ∧ (apply_all cmds m2).1 = (apply_all cmds m1).1 ∧
  m_state (apply_all cmds m2).2 = m_state (apply_all cmds m1).2.
Proof.
  revert m1 m2. induction cmds as [|cmd cmds IH]; intros m1 m2 Hm A1; [by destruct Hm|].
  destruct A1 as [A1 R1]. destruct (same_machine_apply cmd m1 m2 Hm A1) as (A2 & Hr & Hm').
  simpl. destruct (apply cmd m1) as [r1 m1'], (apply cmd m2) as [r2 m2']. simpl in *. subst r2.
  destruct (IH m1' m2' Hm' R1) as (HA & Hr & Hs).
  destruct (apply_all cmds m1') as [rs1 f1], (apply_all cmds m2') as [rs2 f2]. simpl in *.
  split_and!; [done..|by rewrite Hr|done].
Qed.

(** Recovery gives a machine that no log of admissible commands tells apart
    from the one the checkpoint was taken from. *)
Lemma recover_same m :
  Inv m → ∃ m', from_checkpoint (BrokerState_checkpoint (m_state m)) = Ok m' ∧ same_machine m m'.
Proof.
  intros Hi. destruct (recover _ (inv_state _ Hi)) as (m' & Hck & Hs & Hi').
  exists m'. split; [done|]. constructor; [done..|]. by apply restored_fewer_entries.
Qed.
