(* ===== verification/Scenarios.v ===== *)
(** * Concrete scenarios

    Small command logs used as witnesses: two namespaces with one group and
    one member each. *)

From S2P Require Import Prelude Values Task Group Messages Machine Recovery Spec Invariant.
From S2P Require Import Refinement Claim Reap Effect Broker.

Definition mk_namespace (ns : NamespaceId) : BrokerCommand :=
  EnsureNamespace {| en_namespace_id := ns; en_max_namespaces := 8 |}.
Definition mk_publish (ns : NamespaceId) (id : TaskId) (created : TimestampMs) : BrokerCommand :=
  PublishTask {| pt_namespace_id := ns; pt_task_id := id; pt_objective := "work";
                 pt_created_at_ms := created; pt_max_namespace_tasks := 8 |}.
Definition mk_group (ns : NamespaceId) (gid : ConsumerGroupId) : BrokerCommand :=
  EnsureConsumerGroup {| eg_namespace_id := ns; eg_group_id := gid; eg_max_namespace_groups := 8 |}.
Definition mk_join (gid : ConsumerGroupId) (mid : ConsumerId) (now : TimestampMs) : BrokerCommand :=
  JoinConsumerGroup {| jg_group_id := gid; jg_member_id := mid; jg_capabilities := ["code"];
                       jg_now_ms := now; jg_max_group_members := 8 |}.

Definition claim_command (gid : ConsumerGroupId) (mid : ConsumerId) (lid : LeaseId)
    (now : TimestampMs) (dur : N) : ClaimTaskCommand := {|
  cl_group_id := gid; cl_member_id := mid; cl_expected_term := 1; cl_expected_generation := 1;
  cl_lease_id := lid; cl_now_ms := now; cl_lease_duration_ms := dur |}.
Definition mk_claim gid mid lid now dur : BrokerCommand :=
  ClaimTask (claim_command gid mid lid now dur).

Definition complete_command (id : TaskId) (gid : ConsumerGroupId) (mid : ConsumerId)
    (epoch : LeaseEpoch) (lid : LeaseId) (at_ms : TimestampMs) : CompleteTaskCommand := {|
  cp_task_id := id; cp_group_id := gid; cp_member_id := mid; cp_expected_term := 1;
  cp_expected_generation := 1; cp_expected_lease_epoch := epoch; cp_lease_id := lid;
  cp_result := "done"; cp_completed_at_ms := at_ms |}.
Definition mk_complete id gid mid epoch lid at_ms : BrokerCommand :=
  CompleteTask (complete_command id gid mid epoch lid at_ms).

Definition mk_prune (cutoff : TimestampMs) (max : N) : BrokerCommand :=
  PruneCompletedTasks {| pr_completed_before_ms := cutoff; pr_max_tasks := max |}.
Definition mk_leave (gid : ConsumerGroupId) (mid : ConsumerId) : BrokerCommand :=
  LeaveConsumerGroup {| lv_group_id := gid; lv_member_id := mid; lv_expected_generation := 1 |}.
Definition mk_reap (cutoff : TimestampMs) (max : N) : BrokerCommand :=
  ReapStaleMembers {| rp_stale_before_ms := cutoff; rp_max_members := max |}.

(** Two namespaces, a group with a member in each. *)
Definition setup : list BrokerCommand :=
  [mk_namespace "a"; mk_namespace "b"; mk_group "a" "ga"; mk_group "b" "gb";
   mk_join "ga" "m1" 5; mk_join "gb" "m2" 6].

(** Three tasks; the oldest of namespace [a] is leased to [m1] until 100. *)
Definition busy : list BrokerCommand :=
  (setup ++ [mk_publish "a" "t1" 2; mk_publish "a" "t2" 1; mk_publish "b" "t3" 3;
             mk_claim "ga" "m1" "l1" 10 90])%list.

Definition run (cmds : list BrokerCommand) : BrokerStateMachine :=
  (apply_all cmds BrokerStateMachine_default).2.

Definition busy_machine : BrokerStateMachine := run busy.

(** Evaluates a decidable goal. *)
Ltac by_compute := apply (bool_decide_unpack _); vm_compute; exact I.

Lemma run_inv cmds : admissible_run cmds BrokerStateMachine_default → Inv (run cmds).
Proof. intros Ha. by apply (run_refines cmds _ default_inv Ha). Qed.

Lemma busy_inv : Inv busy_machine.
Proof. apply run_inv. by_compute. Qed.

(** A task id whose first life ended in namespace [a] is published again in
    [b] and leased there until the same deadline at the same epoch. *)
Definition reused_id : list BrokerCommand :=
  (setup ++ [mk_publish "a" "t1" 2; mk_claim "ga" "m1" "l1" 10 90;
             mk_complete "t1" "ga" "m1" 1 "l1" 20; mk_prune 20 8;
             mk_publish "b" "t1" 30; mk_claim "gb" "m2" "l2" 40 60])%list.
