(* ===== verification/Properties.v ===== *)
(** * What the broker guarantees

    The main theorems about the state machine as a whole, each with a concrete
    instance. *)

From S2P Require Import Prelude Values Task Group Messages Machine Recovery Spec Invariant.
From S2P Require Import Refinement Claim Reap Effect Broker RecoveryProps Changes Stale.
From S2P Require Import Scenarios.

(** ** Refinement and restart *)

(** C1: the state machine with all its indexes answers every log of admissible
    commands exactly as the index-free specification does: same results, same
    final state, and the indexes are right again at the end. *)
Theorem broker_refines_spec cmds m :
  Inv m → admissible_run cmds m →
  (map_ok am_result <$> (apply_all cmds m).1) = (spec_run cmds (m_state m)).1 ∧
  m_state (apply_all cmds m).2 = (spec_run cmds (m_state m)).2 ∧
  Inv (apply_all cmds m).2.
Proof. intros Hi Ha. by destruct (run_refines cmds m Hi Ha) as (? & ? & ?). Qed.

Lemma broker_refines_spec_witness :
  let cmds := [mk_claim "ga" "m1" "l2" 200 50; mk_complete "t2" "ga" "m1" 2 "l2" 210] in
  (map_ok am_result <$> (apply_all cmds busy_machine).1) = (spec_run cmds (m_state busy_machine)).1 ∧
  m_state (apply_all cmds busy_machine).2 = (spec_run cmds (m_state busy_machine)).2 ∧
  Inv (apply_all cmds busy_machine).2.
Proof. apply broker_refines_spec; [apply busy_inv|by_compute]. Defined.

(** C13: a well-formed broker restarted from its checkpoint is indistinguishable
    from one that kept running: recovery succeeds with the same state, and every
    log of commands that is admissible for the running broker gets the same
    results and change sets from both, with the same final state. *)
Theorem restart_is_transparent cmds m :
  Inv m → admissible_run cmds m →
  ∃ m', from_checkpoint (BrokerState_checkpoint (m_state m)) = Ok m' ∧
    m_state m' = m_state m ∧
    (apply_all cmds m').1 = (apply_all cmds m).1 ∧
    m_state (apply_all cmds m').2 = m_state (apply_all cmds m).2.
Proof.
  intros Hi Ha. destruct (recover_same m Hi) as (m' & Hck & Hm). exists m'.
  split_and!; [done|apply Hm|..]; by destruct (same_machine_run cmds m m' Hm Ha) as (_ & ? & ?).
Qed.

Lemma restart_is_transparent_witness :
  let cmds := [mk_claim "ga" "m1" "l2" 200 50; mk_complete "t2" "ga" "m1" 2 "l2" 210] in
  ∃ m', from_checkpoint (BrokerState_checkpoint (m_state busy_machine)) = Ok m' ∧
    m_state m' = m_state busy_machine ∧
    (apply_all cmds m').1 = (apply_all cmds busy_machine).1 ∧
    m_state (apply_all cmds m').2 = m_state (apply_all cmds busy_machine).2.
Proof. apply restart_is_transparent; [apply busy_inv|by_compute]. Defined.

(** ** Errors, changes and monotonicity *)

(** A rejected command changes nothing: the state is the one before, and
    the indexes still describe it. *)
Theorem rejected_command_changes_nothing cmd m e :
  Inv m → admissible cmd m → (apply cmd m).1 = Err e →
  m_state (apply cmd m).2 = m_state m ∧ Inv (apply cmd m).2.
Proof.
  intros Hi Ha He. pose proof (apply_effect cmd m Hi Ha) as Heff. rewrite He in Heff.
  split; [done|]. by destruct (apply_refines cmd m Hi Ha).
Qed.

Lemma rejected_command_changes_nothing_witness :
  m_state (apply (mk_leave "ga" "nobody") busy_machine).2 = m_state busy_machine ∧
  Inv (apply (mk_leave "ga" "nobody") busy_machine).2.
Proof.
  apply (rejected_command_changes_nothing _ _
    (ConsumerGroupTransition (MemberNotFound "nobody"))); [apply busy_inv|done|vm_compute; reflexivity].
Defined.

(** An accepted command reports exactly what it changed: its change set is
    the sorted difference between the state after it and the state before. *)
Theorem change_set_is_state_diff cmd m am m' :
  Inv m → apply cmd m = (Ok am, m') → am_changes am = state_diff (m_state m) (m_state m').
Proof. intros Hi. by apply apply_changes, Hi. Qed.

Lemma change_set_is_state_diff_witness :
  match apply (mk_leave "ga" "m1") busy_machine with
  | (Ok am, m') => am_changes am = state_diff (m_state busy_machine) (m_state m')
  | (Err _, _) => False
  end.
Proof.
  destruct (apply (mk_leave "ga" "m1") busy_machine) as [[am|e] m'] eqn:E.
  - apply (change_set_is_state_diff (mk_leave "ga" "m1")); [apply busy_inv|exact E].
  - vm_compute in E. discriminate E.
Defined.

(** C23: an admissible command only moves a well-formed broker forward: the term never decreases, the
    revision advances by at most one and only an advancing command changes the
    state, namespaces and groups never disappear, group generations change
    exactly when membership does, a task keeps its identity while its revision
    and lease epoch never decrease, a completed task never changes, and only
    completed tasks are removed. *)
Theorem commands_only_move_forward cmd m :
  Inv m → admissible cmd m → state_evolves (m_state m) (m_state (apply cmd m).2).
Proof.
  intros Hi Ha. pose proof (apply_effect cmd m Hi Ha) as He.
  destruct (apply cmd m) as [[am|e] m']; simpl in *.
  - by apply effect_evolves; [apply Hi|].
  - rewrite He. apply state_evolves_refl.
Qed.

Lemma commands_only_move_forward_witness :
  state_evolves (m_state busy_machine) (m_state (apply (mk_leave "ga" "m1") busy_machine).2).
Proof. apply commands_only_move_forward; [apply busy_inv|done]. Defined.

(** ** Claiming *)

(** Work a claim in [ns] at [now] can hand out. *)
Definition available (ns : NamespaceId) (now : TimestampMs) (t : Task) : bool :=
  queued_in ns t || expired_in ns now t.

Lemma available_ready ns now tasks c id :
  (c, id) ∈ ready_list ns (requeue_where (expired_in ns now) tasks) ↔
  ∃ t, tasks !! id = Some t ∧ t_created_at_ms t = c ∧ available ns now t = true.
Proof.
  rewrite elem_of_ready_list. unfold requeue_where. setoid_rewrite lookup_fmap. split.
  - intros (t' & (t & -> & Ht)%fmap_Some & <- & Hq). exists t. unfold available. subst t'.
    destruct (expired_in ns now t) eqn:E; [|by rewrite Hq].
    destruct (requeued_const t) as (_ & _ & -> & _). by rewrite orb_true_r.
  - intros (t & -> & <- & Ha). simpl. eexists. split; [done|]. unfold available in Ha.
    destruct (expired_in ns now t) eqn:E; [|by rewrite orb_false_r in Ha].
    destruct (requeued_const t) as (_ & Hns & -> & _). split; [done|].
    apply expired_in_true in E as (l & Hl & Hn & _). apply queued_in_true.
    unfold Task_status. rewrite (requeued_state _ _ Hl). by rewrite Hns.
Qed.

(** The lease id is not in use. *)
Definition fresh_lease (lid : LeaseId) (s : BrokerState) : Prop :=
  map_Forall (λ _ t, holds_lease lid t = false) (s_tasks s).

#[export] Instance fresh_lease_dec lid s : Decision (fresh_lease lid s).
Proof. unfold fresh_lease. apply _. Defined.

Lemma fresh_lease_holder lid s : fresh_lease lid s → lease_holder lid (s_tasks s) = None.
Proof.
  intros Hf. unfold lease_holder. destruct (filter _ _) as [|t l] eqn:E; [done|].
  assert (t ∈ filter (λ t, holds_lease lid t = true) (bmap_values (s_tasks s))) as Hin
    by (rewrite E; by left).
  apply list_elem_of_filter in Hin as [Hh [id Ht]%elem_of_bmap_values].
  specialize (Hf id t Ht). simpl in Hf. congruence.
Qed.

(** A requeue changes neither the id nor the epoch. *)
Lemma requeue_choice_id (b : bool) t : t_id (if b then requeued t else t) = t_id t.
Proof. destruct b; [|done]. by destruct (requeued_const t) as [-> _]. Qed.

Lemma requeue_choice_epoch (b : bool) t : task_epoch (if b then requeued t else t) = task_epoch t.
Proof.
  destruct b; [|done]. unfold task_epoch, requeued. destruct (t_state t) eqn:E; by rewrite ?E.
Qed.

(** The two outcomes of a specified claim with a fresh lease id. *)
Lemma spec_claim_fresh c s r s' :
  fresh_lease (cl_lease_id c) s → cl_now_ms c + cl_lease_duration_ms c ≤ u64_max →
  spec_claim c s = (Ok r, s') →
  ∃ g, s_groups s !! cl_group_id c = Some g ∧
    let tasks := requeue_where (expired_in (g_namespace_id g) (cl_now_ms c)) (s_tasks s) in
    match ready_list (g_namespace_id g) tasks with
    | [] => tc_task_id r = None ∧ s' = s
    | (_, id) :: _ => ∃ t, tasks !! id = Some t ∧ tc_task_id r = Some (t_id t) ∧
        s_tasks s' !! id = Some (claimed (claim_grant c (g_generation g)) t)
    end.
Proof.
  intros Hfresh Hdl Href. unfold spec_claim in Href.
  destruct (require_term _ _); [|done].
  destruct (require_group_member _ _ _ _) as [[ns gen]|] eqn:Hm; [|done].
  apply map_err_ok, require_member_ok in Hm as (g & Hg & _ & -> & -> & _). simpl in Hg.
  exists g. split; [done|]. rewrite fresh_lease_holder in Href by done. simpl.
  destruct (ready_list _ _) as [|[c0 id] h] eqn:Hrl; simpl in Href; [by injection Href as <- <-|].
  unfold checked_deadline in Href. rewrite (proj2 (checked_add_Some _ _ _) (conj eq_refl Hdl)) in Href.
  simpl in Href. destruct (next_revision _) as [next|]; [|done].
  destruct (requeue_where _ _ !! id) as [t|] eqn:Ht; [|done]. simpl in Href.
  injection Href as <- <-. exists t. simpl. by rewrite lookup_insert_eq.
Qed.

(** The result of a claim that found the oldest available task, or none. *)
Definition oldest_claimed (c : ClaimTaskCommand) (m : BrokerStateMachine) (r : TaskClaimResult)
    (m' : BrokerStateMachine) : Prop :=
  ∃ g, m_groups m !! cl_group_id c = Some g ∧
    let avail := available (g_namespace_id g) (cl_now_ms c) in
    match tc_task_id r with
    | Some id =>
        ∃ t l, m_tasks m !! id = Some t ∧ avail t = true ∧
          map_Forall (λ id' t', avail t' = true →
            ole (t_created_at_ms t, id) (t_created_at_ms t', id')) (m_tasks m) ∧
          (t_state <$> m_tasks m' !! id) = Some (Leased l) ∧
          lt_owner_member_id l = cl_member_id c ∧ lt_group_id l = cl_group_id c ∧
          lt_lease_id l = cl_lease_id c ∧ lt_lease_epoch l = task_epoch t + 1 ∧
          lt_expires_at_ms l = cl_now_ms c + cl_lease_duration_ms c
    | None => map_Forall (λ _ t, avail t = false) (m_tasks m) ∧ m_state m' = m_state m
    end.

(** C22: on a well-formed broker, an admissible claim that succeeds under a lease
    id that nobody holds hands out the oldest available task of the group's
    namespace, queued or with an expired lease, in (creation time,
    id) order, leased to the claimant until now plus the duration at the next
    lease epoch; it returns no task only if no task is available, and then
    changes nothing. *)
Theorem claim_takes_oldest_available c m r m' :
  Inv m → admissible (ClaimTask c) m → fresh_lease (cl_lease_id c) (m_state m) →
  claim_task c m = (Ok r, m') → oldest_claimed c m r m'.
Proof.
  intros Hi [Hdl Hroom] Hfresh Hc.
  destruct (claim_refines c m (inv_index _ Hi) Hdl Hroom) as [Href _].
  rewrite Hc in Href. symmetry in Href. apply spec_claim_fresh in Href as (g & Hg & Hcase); [|done..].
  exists g. split; [done|]. simpl in Hcase. cbv zeta.
  destruct (ready_list _ _) as [|[c0 id] h] eqn:Hrl.
  - destruct Hcase as [-> ->]. split; [|done]. intros id t Ht.
    destruct (available _ _ t) eqn:Ha; [|done].
    assert ((t_created_at_ms t, id) ∈ []) as []%elem_of_nil.
    rewrite <-Hrl. apply available_ready. eauto.
  - destruct Hcase as (t1 & Ht1 & Hr & Hs'). simpl in Hs'.
    pose proof Ht1 as (t & Ht & ->)%requeue_where_lookup.
    rewrite Hr, requeue_choice_id, (proj1 (si_tasks _ (inv_state _ Hi) id t Ht)).
    assert ((c0, id) ∈ (c0, id) :: h) as Hin by by left. rewrite <-Hrl in Hin.
    apply available_ready in Hin as (t' & Ht' & Hcr & Hav). simplify_eq.
    eexists t, _. split_and!; [done|done| |by rewrite Hs'|done..| |done].
    + intros id' t' Ht' Hav'. 
      apply (sorted_head_min (t_created_at_ms t, id) (t_created_at_ms t', id') h); rewrite <-Hrl;
        [apply ready_list_sorted|]. apply available_ready. eauto.
    + simpl. by rewrite requeue_choice_epoch.
Qed.

Lemma claim_takes_oldest_available_witness :
  match claim_task (claim_command "ga" "m1" "l2" 200 50) busy_machine with
  | (Ok r, m') => oldest_claimed (claim_command "ga" "m1" "l2" 200 50) busy_machine r m'
  | (Err _, _) => False
  end.
Proof.
  destruct (claim_task (claim_command "ga" "m1" "l2" 200 50) busy_machine) as [[r|e] m'] eqn:E.
  - apply claim_takes_oldest_available; [apply busy_inv|by_compute|by_compute|exact E].
  - vm_compute in E. discriminate E.
Defined.

(** A lease id the claimant already holds answers the claim. *)
Lemma claim_task_existing c m ns gen id t :
  IndexInv ∅ m → require_term (cl_expected_term c) m = Ok tt →
  require_group_member (cl_group_id c) (cl_member_id c) (cl_expected_generation c) m = Ok (ns, gen) →
  m_tasks m !! id = Some t → holds_lease (cl_lease_id c) t = true →
  leased_by (cl_group_id c) (cl_member_id c) t = true →
  claim_task c m = (Ok (task_claim_result gen (Some t) m), m).
Proof.
  intros Hi Ht Hg Hid Hh Hby. unfold claim_task. rewrite Ht, Hg.
  assert (m_active_lease_tasks m !! cl_lease_id c = Some id) as ->
    by (apply (ii_active _ _ Hi); eauto).
  rewrite Hid. simpl. apply leased_by_true in Hby as (l & -> & -> & ->).
  by rewrite !bool_decide_true.
Qed.

(** A claim that answers with a task leaves that task leased to the claimant
    under the claim's lease id. *)
Lemma spec_claim_task c s r s' id :
  StateInv s → spec_claim c s = (Ok r, s') → tc_task_id r = Some id →
  ∃ ns gen t i, s_term s' = s_term s ∧ s_groups s' = s_groups s ∧
    require_term (cl_expected_term c) (bare s) = Ok tt ∧
    require_group_member (cl_group_id c) (cl_member_id c) (cl_expected_generation c) (bare s) =
      Ok (ns, gen) ∧
    s_tasks s' !! i = Some t ∧ holds_lease (cl_lease_id c) t = true ∧
    leased_by (cl_group_id c) (cl_member_id c) t = true ∧
    r = task_claim_result gen (Some t) (bare s').
Proof.
  intros Hs Href Hid. unfold spec_claim in Href.
  destruct (require_term _ _) as [[]|] eqn:Ht; [|done].
  destruct (require_group_member _ _ _ _) as [[ns gen]|] eqn:Hm; [|done].
  exists ns, gen. destruct (lease_holder _ _) as [t|] eqn:Hh.
  - destruct (leased_by _ _ t) eqn:Hby; [|done]. injection Href as <- <-.
    unfold lease_holder in Hh. apply head_Some_elem_of, list_elem_of_filter in Hh as [Hh Hin].
    apply elem_of_bmap_values in Hin as [i Hi]. exists t, i. done.
  - destruct (ready_list _ _) as [|[c0 i] h]; simpl in Href; [by injection Href as <- <-|].
    destruct (checked_deadline _ _) as [exp|]; [|done].
    destruct (next_revision _) as [next|]; [|done].
    destruct (requeue_where _ _ !! i) as [t|]; [|done]. simpl in Href. injection Href as <- <-.
    eexists _, i. simpl. rewrite lookup_insert_eq. split_and!; [done..| | |done].
    + unfold holds_lease. simpl. by rewrite bool_decide_true.
    + unfold leased_by. simpl. by rewrite !bool_decide_true.
Qed.

(** Repeating a claim that returned a task is harmless: the same command
    gets the same answer from the machine it left behind, which stays as it
    is. *)
Theorem claim_retry_is_idempotent c m r m' id :
  Inv m → admissible (ClaimTask c) m →
  claim_task c m = (Ok r, m') → tc_task_id r = Some id →
  claim_task c m' = (Ok r, m').
Proof.
  intros Hi [Hdl Hroom] Hc Hid.
  destruct (claim_refines c m (inv_index _ Hi) Hdl Hroom) as [Href Hi'].
  rewrite Hc in Href, Hi'. symmetry in Href.
  destruct (spec_claim_task c _ _ _ id (inv_state _ Hi) Href Hid)
    as (ns & gen & t & i & Hterm & Hgroups & Ht & Hm & Hti & Hh & Hby & ->). simpl in *.
  rewrite (claim_task_existing c m' ns gen i t Hi'); [done|..|done|done|done].
  - unfold require_term in *. by rewrite Hterm.
  - unfold require_group_member in *. by rewrite Hgroups.
Qed.

Lemma claim_retry_is_idempotent_witness :
  match claim_task (claim_command "ga" "m1" "l2" 200 50) busy_machine with
  | (Ok r, m') => claim_task (claim_command "ga" "m1" "l2" 200 50) m' = (Ok r, m')
  | (Err _, _) => False
  end.
Proof.
  assert (map_ok tc_task_id (claim_task (claim_command "ga" "m1" "l2" 200 50) busy_machine).1 =
          Ok (Some "t2")) as Hid by (vm_compute; reflexivity).
  destruct (claim_task (claim_command "ga" "m1" "l2" 200 50) busy_machine) as [[r|e] m'] eqn:E;
    [|discriminate Hid].
  apply (claim_retry_is_idempotent _ busy_machine r m' "t2");
    [apply busy_inv|by_compute|exact E|by injection Hid].
Defined.

(** ** Completion *)

(** The command names the lease the task holds, in time, as a current member of
    the current generation and in the current term. *)
Definition live_lease (c : CompleteTaskCommand) (m : BrokerStateMachine) : Prop :=
  s_term (m_state m) = cp_expected_term c ∧
  (∃ g, m_groups m !! cp_group_id c = Some g ∧ is_Some (g_consumers g !! cp_member_id c) ∧
        g_generation g = cp_expected_generation c) ∧
  ∃ t l, m_tasks m !! cp_task_id c = Some t ∧ t_state t = Leased l ∧
    lt_lease_id l = cp_lease_id c ∧ lt_group_id l = cp_group_id c ∧
    lt_owner_member_id l = cp_member_id c ∧ lt_generation l = cp_expected_generation c ∧
    lt_lease_epoch l = cp_expected_lease_epoch c ∧ cp_completed_at_ms c < lt_expires_at_ms l.

(** C24: a completion takes effect only for the current holder of an unexpired
    lease, in the current generation and term; otherwise the state does not
    change.  When it takes effect, the task is completed with that result and
    never changes again. *)
Theorem completion_needs_live_lease c m r m' :
  complete_task c m = (Ok r, m') → m_state m' ≠ m_state m →
  live_lease c m ∧
  ∃ t', m_tasks m' !! cp_task_id c = Some t' ∧ Task_status t' = StatusCompleted ∧
        (∀ t'', rtc task_step t' t'' → t'' = t').
Proof.
  unfold complete_task. intros Hc Hne.
  destruct (require_term _ _) eqn:Ht; [|done].
  destruct (require_group_member _ _ _ _) as [[ns gen]|] eqn:Hm; [|done].
  destruct (next_revision _) as [next|]; [|done].
  destruct (m_tasks m !! cp_task_id c) as [t|] eqn:Hid; [|done]. simpl in Hc.
  destruct (Task_complete _ _ t) as [[[]|e] t'] eqn:E; [| |done]; simpl in Hc; injection Hc as _ <-.
  2: { apply Task_complete_already in E as [-> _]. simpl in Hne. destruct Hne.
       by apply (set_tasks_same (m_state m)). }
  apply Task_complete_ok in E as (l & Hl & (Hg & Ho & Hgen & Hep & Hlid & Hx) & _ & ->). simpl in *.
  split.
  - unfold require_term in Ht. destruct (N.eqb_spec (s_term (m_state m)) (cp_expected_term c)); [|done].
    apply map_err_ok, require_member_ok in Hm as (g & Hgr & Hmem & _ & Hg1 & Hg2).
    split_and!; [done|exists g; split_and!; [done|done|congruence]|]. exists t, l. done.
  - rewrite m_state_remove_member_lease_task. simpl. rewrite lookup_insert_eq.
    eexists. split_and!; [done|done|]. intros t'' Hr%rtc_task_evolves. by apply (te_terminal _ _ Hr).
Qed.

Lemma completion_needs_live_lease_witness :
  live_lease (complete_command "t2" "ga" "m1" 1 "l1" 20) busy_machine.
Proof.
  destruct (complete_task (complete_command "t2" "ga" "m1" 1 "l1" 20) busy_machine)
    as [[r|e] m'] eqn:E.
  - assert (m_revision (complete_task (complete_command "t2" "ga" "m1" 1 "l1" 20) busy_machine).2 =
            m_revision busy_machine + 1) as Hrev by (vm_compute; reflexivity).
    rewrite E in Hrev. simpl in Hrev.
    apply (completion_needs_live_lease _ _ r m' E). intros Heq. rewrite Heq in Hrev. lia.
  - vm_compute in E. discriminate E.
Defined.

(** Repeating an accepted completion is harmless: it is accepted again
    with the same answer and changes nothing. *)
Theorem completion_retry_is_idempotent c m r m' :
  complete_task c m = (Ok r, m') → m_revision m' < u64_max →
  (complete_task c m').1 = Ok r ∧ m_state (complete_task c m').2 = m_state m'.
Proof.
  unfold complete_task. intros Hc Hrev.
  destruct (require_term _ m) as [[]|] eqn:Ht; [|done].
  destruct (require_group_member _ _ _ m) as [[ns gen]|] eqn:Hm; [|done].
  destruct (next_revision (m_revision m)) as [next|]; [|done].
  destruct (m_tasks m !! cp_task_id c) as [t|] eqn:Hid; [|done]. simpl in Hc.
  destruct (Task_complete _ _ t) as [[o|e] t'] eqn:E; [|done]. simpl in Hc.
  assert (∃ ct, t_state t' = Completed ct ∧ ct_lease_id ct = cp_lease_id c ∧
                ct_result ct = cp_result c) as (ct & Hct & Hlid & Hres).
  { destruct o.
    - apply Task_complete_ok in E as (l & Hl & (_ & _ & _ & _ & Hlid & _) & _ & ->). simpl in *. eauto.
    - apply Task_complete_already in E as (-> & ct & ? & ? & ?). eauto. }
  assert (s_term (m_state m') = s_term (m_state m) ∧ m_groups m' = m_groups m ∧
    m_tasks m' !! cp_task_id c = Some t' ∧
    r = {| td_metadata := metadata m'; td_task_id := cp_task_id c; td_task_revision := t_revision t';
           td_status := Task_status t' |}) as (E1 & E2 & E3 & ->).
  { injection Hc as <- <-. case_decide; unfold metadata; simpl;
      rewrite ?m_state_remove_member_lease_task; simpl; by rewrite lookup_insert_eq. }
  unfold require_term, require_group_member in *. rewrite E1, E2, Ht, Hm.
  unfold next_revision, Revision_next. rewrite counter_next_lt by done. simpl.
  rewrite E3. simpl. unfold Task_complete. rewrite Hct. simpl.
  rewrite !bool_decide_true by done. simpl.
  by rewrite (set_tasks_same (m_state m')).
Qed.

Lemma completion_retry_is_idempotent_witness :
  match complete_task (complete_command "t2" "ga" "m1" 1 "l1" 20) busy_machine with
  | (Ok r, m') => (complete_task (complete_command "t2" "ga" "m1" 1 "l1" 20) m').1 = Ok r ∧
      m_state (complete_task (complete_command "t2" "ga" "m1" 1 "l1" 20) m').2 = m_state m'
  | (Err _, _) => False
  end.
Proof.
  assert (m_revision (complete_task (complete_command "t2" "ga" "m1" 1 "l1" 20) busy_machine).2 <
          u64_max) as Hrev by (vm_compute; reflexivity).
  destruct (complete_task (complete_command "t2" "ga" "m1" 1 "l1" 20) busy_machine)
    as [[r|e] m'] eqn:E.
  - apply (completion_retry_is_idempotent _ busy_machine); [exact E|exact Hrev].
  - vm_compute in E. discriminate E.
Defined.

(** ** Outside the admissible commands

    What the machine does with a claim whose deadline does not fit 64 bits, and
    with an expiration entry that outlived its task. *)

Section stranded.
Variables (id : TaskId) (t : Task).

(** The task is queued, and no ready heap holds it. *)
Definition stranded (m : BrokerStateMachine) : Prop :=
  m_tasks m !! id = Some t ∧ Task_status t = StatusQueued ∧
  ∀ ns c, (c, id) ∉ heap_at (m_ready_tasks m) ns.

Lemma stranded_not_leased m l u : stranded m → m_tasks m !! id = Some u → t_state u ≠ Leased l.
Proof. intros (Ht & Hq & _) Hu Hl. simplify_eq. unfold Task_status in Hq. by rewrite Hl in Hq. Qed.

(** Another task may change, and may become ready. *)
Lemma stranded_insert m m' id' u :
  id' ≠ id → stranded m → m_tasks m' = <[id' := u]> (m_tasks m) →
  m_ready_tasks m' = m_ready_tasks m → stranded m'.
Proof.
  intros Hne (? & ? & ?) Ht Hr. split_and!; [|done|by rewrite Hr].
  by rewrite Ht, lookup_insert_ne.
Qed.

Lemma stranded_push m m' id' ns c u :
  id' ≠ id → stranded m → m_tasks m' = <[id' := u]> (m_tasks m) →
  m_ready_tasks m' = heap_map_push ns (c, id') (m_ready_tasks m) → stranded m'.
Proof.
  intros Hne (? & ? & Hn) Ht Hr. split_and!; [by rewrite Ht, lookup_insert_ne|done|].
  intros ns' c'. specialize (Hn ns' c'). rewrite Hr. unfold heap_map_push, heap_at in *.
  rewrite lookup_insert. case_decide; [|done]. subst. simpl. rewrite elem_of_heap_push. naive_solver.
Qed.

Lemma requeue_tasks_stranded gid mid ids n m :
  stranded m → stranded (requeue_tasks gid mid ids n m).2.
Proof.
  revert n m. induction ids as [|id' ids IH]; intros n m Hs; [done|]. simpl.
  destruct (m_tasks m !! id') as [u|] eqn:Hu; [|by apply IH].
  destruct (t_state u) as [|l|] eqn:Hl; try by apply IH.
  assert (id' ≠ id) as Hne by (intros ->; by eapply stranded_not_leased).
  destruct (_ || _); [by apply IH|]. simpl. destruct (requeue_for_member gid mid u) as [[[]|] u'];
    simpl; try (apply IH); try by eapply stranded_insert.
  rewrite lookup_insert_eq. simpl. apply IH. by eapply stranded_push.
Qed.

Lemma requeue_member_leases_stranded gid mid m :
  stranded m → stranded (requeue_member_leases gid mid m).2.
Proof. intros Hs. by apply requeue_tasks_stranded. Qed.

Lemma requeue_removed_stranded gid removed m :
  stranded m → stranded (requeue_removed gid removed m).2.
Proof.
  revert m. induction removed as [|c removed IH]; intros m Hs; [done|]. simpl.
  pose proof (requeue_member_leases_stranded gid (c_id c) m Hs) as Hm.
  destruct (requeue_member_leases gid (c_id c) m) as [[] m1]; [by apply IH|done].
Qed.

Lemma reap_groups_stranded stale selected n affected m :
  stranded m → stranded (reap_groups stale selected n affected m).2.
Proof.
  revert n affected m. induction selected as [|[gid ids] selected IH]; intros n affected m Hs; [done|].
  simpl. destruct (Coordinator_reap_stale_members _ _ _ _) as [r groups].
  destruct (map_err _ r) as [removed|]; [|done]. destruct (is_nil removed); [by apply IH|].
  pose proof (requeue_removed_stranded gid removed (with_groups groups m) Hs) as Hm.
  destruct (requeue_removed _ _ _) as [[] m1]; [by apply IH|done].
Qed.

Lemma requeue_expired_stranded ns now ids n m :
  stranded m → stranded (requeue_expired ns now ids n m).2.
Proof.
  revert n m. induction ids as [|id' ids IH]; intros n m Hs; [done|]. simpl.
  destruct (m_tasks m !! id') as [u|] eqn:Hu; [|by apply IH].
  destruct (t_state u) as [|l|] eqn:Hl; try by apply IH.
  assert (id' ≠ id) as Hne by (intros ->; by eapply stranded_not_leased).
  simpl. destruct (requeue_if_expired now u) as [[[]|] u'];
    simpl; try (apply IH); try by eapply stranded_insert.
  rewrite remove_member_lease_task_fields. by eapply stranded_push.
Qed.

Lemma recover_expired_stranded ns now m :
  stranded m → stranded (recover_expired_leases ns now m).2.
Proof.
  intros Hs. unfold recover_expired_leases. destruct (m_lease_expirations m !! ns); [|done].
  destruct (pop_expired _ _ _ _). by apply requeue_expired_stranded.
Qed.

Lemma pop_ready_other tasks heap :
  (∀ c, (c, id) ∉ heap) →
  (pop_ready tasks heap).1 ≠ Some id ∧ ∀ c, (c, id) ∉ (pop_ready tasks heap).2.
Proof.
  induction heap as [|[c' id'] heap IH]; intros Hn; simpl; [done|].
  assert (∀ c, (c, id) ∉ heap) as Hn' by (intros c ?; apply (Hn c); by right).
  destruct (match tasks !! id' with Some _ => _ | None => _ end); [|by apply IH]. simpl.
  split; [|done]. intros [= ->]. apply (Hn c'). by left.
Qed.

Lemma pop_ready_stranded ns m :
  stranded m → (pop_ready_task ns m).1 ≠ Some id ∧ stranded (pop_ready_task ns m).2.
Proof.
  intros (Ht & Hq & Hn). unfold pop_ready_task. destruct (m_ready_tasks m !! ns) as [heap|] eqn:Hh; [|done].
  destruct (pop_ready_other (m_tasks m) heap) as [Ho Hr].
  { intros c. specialize (Hn ns c). unfold heap_at in Hn. by rewrite Hh in Hn. }
  destruct (pop_ready _ heap) as [o heap']. split; [done|]. split_and!; [done..|].
  intros ns' c. unfold heap_at. cbn. rewrite lookup_insert. case_decide; [by subst|]. apply Hn.
Qed.

Lemma lease_task_stranded c ns g id' m :
  id' ≠ id → stranded m → stranded (lease_task c ns g id' m).2.
Proof.
  intros Hne Hs. unfold lease_task.
  destruct (checked_deadline _ _); [|done]. destruct (next_revision _); [|done].
  destruct (m_tasks m !! id') as [u|]; [|done]. cbn [ok_or]. destruct (Task_claim _ u) as [[] u'];
    cbn [map_err]; [|by eapply stranded_insert].
  destruct (t_state u'); try by eapply stranded_insert.
  cbn. rewrite lookup_insert_eq. by eapply stranded_insert.
Qed.

Lemma prune_loop_stranded cutoff target pruned heap m :
  stranded m → stranded (prune_loop cutoff target pruned heap m).2.
Proof.
  revert pruned m. induction heap as [|[at_ms id'] heap IH]; intros pruned m Hs; simpl;
    [by case_match|].
  case_match; [done|]. case_match; [done|].
  destruct (completed_entry _ _ _) as [ns|] eqn:Hc; [|by apply IH].
  assert (id' ≠ id) as Hne.
  { intros ->. destruct Hs as (Ht & Hq & _). unfold completed_entry in Hc. rewrite Ht in Hc.
    unfold Task_status in Hq. by destruct (t_state t). }
  assert (stranded (with_tasks (delete id' (m_tasks m)) m)) as Hd.
  { destruct Hs as (Ht & Hq & Hn). split_and!; [|done..]. simpl. by rewrite lookup_delete_ne. }
  case_match; [|done]. apply IH. exact Hd.
Qed.

(** A fenced update of the task itself is refused and leaves it as it is. *)
Lemma stranded_update m m' id' u r :
  stranded m → m_tasks m !! id' = Some u →
  (id' = id → r = u) → m_tasks m' = <[id' := r]> (m_tasks m) →
  m_ready_tasks m' = m_ready_tasks m → stranded m'.
Proof.
  intros Hs Hu Heq Ht Hr. destruct (decide (id' = id)) as [->|Hne]; [|by eapply stranded_insert].
  rewrite (Heq eq_refl), insert_id in Ht by done. destruct Hs as (? & ? & ?).
  split_and!; [by rewrite Ht|done|by rewrite Hr].
Qed.

Lemma renew_queued f e : Task_status t = StatusQueued → ∃ err, Task_renew f e t = (Err err, t).
Proof.
  unfold Task_status, Task_renew, require_active_lease. destruct (t_state t) eqn:Hst; try done. eauto.
Qed.

Lemma complete_queued f r : Task_status t = StatusQueued → ∃ err, Task_complete f r t = (Err err, t).
Proof.
  unfold Task_status, Task_complete, require_active_lease. destruct (t_state t) eqn:Hst; try done. eauto.
Qed.

Lemma renew_stranded c m : stranded m → stranded (renew_task_lease c m).2.
Proof.
  intros Hs. unfold renew_task_lease. destruct (require_term _ _); [|done].
  destruct (require_group_member _ _ _ _) as [[]|]; [|done].
  destruct (checked_deadline _ _); [|done]. destruct (next_revision _); [|done].
  destruct (m_tasks m !! rn_task_id c) as [u|] eqn:Hu; [|done]. cbn [ok_or].
  destruct (Task_renew _ _ u) as [r u'] eqn:Hr.
  assert (rn_task_id c = id → u' = u) as Hk.
  { intros Hid. destruct Hs as (Ht & Hq & _). rewrite Hid in Hu. simplify_eq.
    edestruct renew_queued as [err He]; [exact Hq|]. rewrite He in Hr. by simplify_eq. }
  destruct (map_err _ r); [destruct (t_state u')|]; by eapply stranded_update.
Qed.

Lemma complete_stranded c m : stranded m → stranded (complete_task c m).2.
Proof.
  intros Hs. unfold complete_task. destruct (require_term _ _); [|done].
  destruct (require_group_member _ _ _ _) as [[]|]; [|done]. destruct (next_revision _); [|done].
  destruct (m_tasks m !! cp_task_id c) as [u|] eqn:Hu; [|done]. cbn [ok_or].
  destruct (Task_complete _ _ u) as [r u'] eqn:Hr.
  assert (cp_task_id c = id → u' = u) as Hk.
  { intros Hid. destruct Hs as (Ht & Hq & _). rewrite Hid in Hu. simplify_eq.
    edestruct complete_queued as [err He]; [exact Hq|]. rewrite He in Hr. by simplify_eq. }
  destruct (map_err _ r); [|by eapply stranded_update]. cbn.
  case_decide; [rewrite remove_member_lease_task_fields|]; by eapply stranded_update.
Qed.

Lemma claim_stranded c m : stranded m → stranded (claim_task c m).2.
Proof.
  intros Hs. unfold claim_task. destruct (require_term _ _); [|done].
  destruct (require_group_member _ _ _ _) as [[ns gen]|]; [|done].
  destruct (m_active_lease_tasks m !! _); [by repeat case_match|].
  pose proof (recover_expired_stranded ns (cl_now_ms c) m Hs) as Hr.
  destruct (recover_expired_leases _ _ m) as [[n|] m1]; [|done]. cbn [snd] in Hr.
  destruct (pop_ready_stranded ns m1 Hr) as [Ho Hp].
  destruct (pop_ready_task ns m1) as [[id'|] m2]; cbn [fst snd] in *.
  - apply lease_task_stranded; [congruence|done].
  - by repeat case_match.
Qed.

Lemma publish_stranded c m : stranded m → stranded (publish_task c m).2.
Proof.
  intros Hs. unfold publish_task. destruct (require_namespace _ _); [|done].
  destruct (m_tasks m !! pt_task_id c) as [u|] eqn:Hu; [by case_match|].
  assert (pt_task_id c ≠ id) as Hne by (intros <-; destruct Hs; congruence).
  repeat (case_match; [done|]). destruct (next_revision _); [|done]. by eapply stranded_push.
Qed.

Lemma leave_stranded c m : stranded m → stranded (leave_consumer_group c m).2.
Proof.
  intros Hs. unfold leave_consumer_group. destruct (next_revision _); [|done].
  destruct (preflight_member_lease_requeue _ _ _); [|done].
  destruct (Coordinator_leave _ _ _ _) as [r groups]. destruct (map_err _ r); [|done].
  destruct (ok_or _ _) as [g|]; [|done].
  pose proof (requeue_member_leases_stranded (g_id g) (lv_member_id c) (with_groups groups m) Hs) as Hm.
  by destruct (requeue_member_leases _ _ _) as [[] m1].
Qed.

Lemma reap_stranded c m : stranded m → stranded (reap_stale_members c m).2.
Proof.
  intros Hs. unfold reap_stale_members. case_match; [done|]. case_match; [done|].
  destruct (next_revision _); [|done]. destruct (preflight_groups _ _); [|done].
  match goal with |- context [reap_groups ?a ?b ?d ?e m] =>
    pose proof (reap_groups_stranded a b d e m Hs) as Hm end.
  destruct (reap_groups _ _ _ _ _) as [[[]|] m1]; [|done]. cbn. by case_match.
Qed.

Lemma prune_stranded c m : stranded m → stranded (prune_completed_tasks c m).2.
Proof.
  intros Hs. unfold prune_completed_tasks. case_match; [done|]. case_match; [done|].
  destruct (check_counts _ _); [|done]. destruct (next_revision _); [|done].
  match goal with |- context [prune_loop ?a ?b ?d ?e m] =>
    pose proof (prune_loop_stranded a b d e m Hs) as Hm end.
  destruct (prune_loop _ _ _ _ _) as [[] m1]; [|done]. cbn. by case_match.
Qed.

(** Whatever is asked of the broker, a stranded task stays as it is. *)
Lemma apply_stranded cmd m : stranded m → stranded (apply cmd m).2.
Proof.
  intros Hs. unfold apply. assert (stranded (handle cmd (clear_changes m)).2) as H.
  2: { by destruct (handle cmd (clear_changes m)) as [[]]. }
  destruct cmd; cbn [handle]; unfold prod_map; cbn [snd Datatypes.id];
    [|by apply publish_stranded| | | |by apply leave_stranded|by apply reap_stranded
    |by apply claim_stranded|by apply renew_stranded|by apply complete_stranded
    |by apply prune_stranded|];
    unfold ensure_namespace, ensure_consumer_group, join_consumer_group, heartbeat, advance_term;
    by repeat case_match.
Qed.

Lemma apply_all_stranded cmds m : stranded m → stranded (apply_all cmds m).2.
Proof.
  revert m. induction cmds as [|cmd cmds IH]; intros m Hs; [done|]. simpl.
  apply (apply_stranded cmd) in Hs. destruct (apply cmd m) as [r m1]. specialize (IH m1 Hs).
  by destruct (apply_all cmds m1).
Qed.
End stranded.

(** The state once the expired leases of a namespace are requeued. *)
Definition recovered (ns : NamespaceId) (now : TimestampMs) (s : BrokerState) : BrokerState :=
  set_tasks (requeue_where (expired_in ns now) (s_tasks s)) s.

Lemma recovered_inv ns now s : StateInv s → StateInv (recovered ns now s).
Proof.
  intros Hs. pose proof (requeue_update s (expired_in ns now) Hs) as Hu.
  by destruct (StateInv_update _ _ Hs Hu).
Qed.

Lemma recovered_idem ns now s : recovered ns now (recovered ns now s) = recovered ns now s.
Proof.
  unfold recovered. cbn [s_tasks set_tasks]. rewrite (requeue_where_id _ (requeue_where _ _)); [done|]. intros id t Ht.
  apply requeue_where_lookup in Ht as (u & _ & ->).
  destruct (expired_in ns now u) eqn:He; [apply expired_in_requeued|done].
Qed.

Lemma recovered_room ns now s : counters_room (recovered ns now s) → counters_room s.
Proof.
  intros [Hr Ht]. split; [done|]. intros id t Hid. specialize (Ht id).
  unfold recovered, requeue_where in Ht. cbn in Ht. rewrite lookup_fmap, Hid in Ht.
  specialize (Ht _ eq_refl). simpl in Ht. destruct (expired_in ns now t); [|done].
  unfold requeued, task_epoch in *. destruct (t_state t) eqn:E;
    simpl in *; rewrite ?E in *; destruct Ht; split; lia || done.
Qed.

Lemma recovered_fresh lid ns now s : fresh_lease lid s → fresh_lease lid (recovered ns now s).
Proof.
  intros Hf id t Ht. cbn in Ht. apply requeue_where_lookup in Ht as (u & Hu & ->).
  specialize (Hf id u Hu). cbn in Hf. destruct (expired_in ns now u) eqn:He; [|done].
  apply expired_in_true in He as (l & Hl & _). unfold holds_lease. by rewrite (requeued_state _ _ Hl).
Qed.

(** The claim with another lease duration. *)
Definition with_duration (d : N) (c : ClaimTaskCommand) : ClaimTaskCommand := {|
  cl_group_id := cl_group_id c; cl_member_id := cl_member_id c;
  cl_expected_term := cl_expected_term c; cl_expected_generation := cl_expected_generation c;
  cl_lease_id := cl_lease_id c; cl_now_ms := cl_now_ms c; cl_lease_duration_ms := d |}.

Section overflow.
Context (c : ClaimTaskCommand) (m : BrokerStateMachine) (ns : NamespaceId) (gen : Generation).
Let s := recovered ns (cl_now_ms c) (m_state m).

Context (Hi : Inv m) (Hroom : counters_room s).
Context (Hterm : require_term (cl_expected_term c) m = Ok ()).
Context (Hmem : require_group_member (cl_group_id c) (cl_member_id c) (cl_expected_generation c) m =
  Ok (ns, gen)).
Context (Hfresh : fresh_lease (cl_lease_id c) (m_state m)).

(** The claim takes the head of the ready heap before it finds that the deadline
    does not fit. *)
Lemma overflowing_claim c0 id h :
  u64_max < cl_now_ms c + cl_lease_duration_ms c → ready_list ns (s_tasks s) = (c0, id) :: h →
  ∃ t m', claim_task c m = (Err TimestampOverflow, m') ∧ m_state m' = s ∧ stranded id t m'.
Proof.
  intros Hov Hnext. unfold claim_task. rewrite Hterm, Hmem.
  assert (m_active_lease_tasks m !! cl_lease_id c = None) as ->.
  { destruct (m_active_lease_tasks m !! cl_lease_id c) as [i|] eqn:Ea; [|done].
    apply (ii_active _ _ (inv_index _ Hi)) in Ea as (u & Hu & Hh).
    specialize (Hfresh i u Hu). cbn in Hfresh. congruence. }
  destruct (recover_expired_leases_spec ns (cl_now_ms c) m (inv_index _ Hi))
    as (n & m1 & -> & Hi1 & Hs1 & _).
  { intros i t Ht _. destruct (recovered_room _ _ _ Hroom) as [_ Hr].
    specialize (Hr i t Ht). cbn in Hr. lia. }
  change (m_state m1 = s) in Hs1.
  pose proof (pop_ready_task_spec ns m1 ∅ Hi1) as Hpop. rewrite Hs1, Hnext in Hpop. rewrite Hpop.
  pose proof (ready_heap_list ns m1 ∅ Hi1) as Hheap. rewrite Hs1, Hnext in Hheap.
  destruct (ii_ready _ _ Hi1 ns) as (_ & Hnd & Hin). rewrite Hheap in Hnd, Hin.
  destruct (proj1 (Hin c0 id)) as (t & Ht & Hc0 & [Hq Hns]%queued_in_true); [by left|].
  exists t, (with_ready_tasks (<[ns := h]> (m_ready_tasks m1)) m1). split_and!; [|done|].
  { unfold lease_task, checked_deadline. by rewrite (proj2 (checked_add_None _ _)). }
  split_and!; [done..|]. intros ns' c'. unfold heap_at. cbn. rewrite lookup_insert. case_decide.
  - subst ns'. cbn. intros Hh. destruct (proj1 (Hin c' id)) as (t' & Ht' & Hc' & _); [by right|].
    simplify_eq. by apply NoDup_cons in Hnd as [? _].
  - intros Hh. destruct (ii_ready _ _ Hi1 ns') as (_ & _ & Hin').
    destruct (proj1 (Hin' c' id) Hh) as (t' & Ht' & _ & [_ Hns']%queued_in_true). simplify_eq.
Qed.

(** A broker restored from the same state hands the task out. *)
Lemma restored_claim c0 id h :
  ready_list ns (s_tasks s) = (c0, id) :: h →
  ∃ m2, from_checkpoint (BrokerState_checkpoint s) = Ok m2 ∧
    ∀ d, cl_now_ms c + d ≤ u64_max →
      ∃ r m3, claim_task (with_duration d c) m2 = (Ok r, m3) ∧ tc_task_id r = Some id.
Proof.
  intros Hnext. destruct (recover s) as (m2 & Hck & Hs2 & Hi2); [apply recovered_inv, Hi|].
  exists m2. split; [done|]. intros d Hd.
  destruct (claim_refines (with_duration d c) m2 (inv_index _ Hi2) Hd) as [Href _]; [by rewrite Hs2|].
  rewrite Hs2 in Href. unfold spec_claim in Href. cbn [with_duration cl_expected_term cl_group_id
    cl_member_id cl_expected_generation cl_lease_id cl_now_ms cl_lease_duration_ms] in Href.
  change (require_term (cl_expected_term c) (bare s)) with (require_term (cl_expected_term c) m) in Href.
  change (require_group_member (cl_group_id c) (cl_member_id c) (cl_expected_generation c) (bare s))
    with (require_group_member (cl_group_id c) (cl_member_id c) (cl_expected_generation c) m) in Href.
  rewrite Hterm, Hmem, fresh_lease_holder in Href by by apply recovered_fresh.
  pose proof (recovered_idem ns (cl_now_ms c) (m_state m)) as Hid. fold s in Hid.
  apply (f_equal s_tasks) in Hid. unfold recovered at 1 in Hid. cbn [s_tasks set_tasks] in Hid. rewrite Hid, Hnext in Href. cbn [head] in Href.
  destruct Hroom as [Hrev Htr].
  assert ((c0, id) ∈ ready_list ns (s_tasks s)) as (t & Ht & _)%elem_of_ready_list
    by (rewrite Hnext; by left).
  unfold checked_deadline in Href. rewrite (proj2 (checked_add_Some _ _ _) (conj eq_refl Hd)) in Href.
  unfold next_revision, Revision_next in Href. cbn [ok_or] in Href.
  rewrite counter_next_lt in Href by done. cbn [map_err] in Href. rewrite Ht in Href. cbn [ok_or] in Href.
  destruct (claim_task (with_duration d c) m2) as [[r|e] m3]; [|done].
  exists r, m3. split; [done|]. injection Href as -> _. cbn.
  f_equal. by destruct (si_tasks _ (recovered_inv ns (cl_now_ms c) _ (inv_state _ Hi)) id t Ht).
Qed.
End overflow.

(** C36: a claim whose deadline overflows strands the task it would have leased.
    In a well-formed broker whose counters have room, a claim that passes the term
    and membership checks under a fresh lease id, and finds a task, is rejected
    with [TimestampOverflow] when now plus duration exceeds 64 bits; the expired
    leases of the namespace are requeued nevertheless, and the oldest ready task
    has left the ready heap.  From then on no sequence of commands leases,
    completes or removes that task: it stays queued.  A broker restored from the
    same state hands it out to the same claim with any duration that fits. *)
Theorem claim_overflow_strands_task c m ns gen c0 id h :
  let s := recovered ns (cl_now_ms c) (m_state m) in
  Inv m → counters_room s → require_term (cl_expected_term c) m = Ok () →
  require_group_member (cl_group_id c) (cl_member_id c) (cl_expected_generation c) m = Ok (ns, gen) →
  fresh_lease (cl_lease_id c) (m_state m) → ready_list ns (s_tasks s) = (c0, id) :: h →
  u64_max < cl_now_ms c + cl_lease_duration_ms c →
  ∃ t m', claim_task c m = (Err TimestampOverflow, m') ∧ m_state m' = s ∧
    Task_status t = StatusQueued ∧ (∀ cmds, m_tasks (apply_all cmds m').2 !! id = Some t) ∧
    ∃ m2, from_checkpoint (BrokerState_checkpoint s) = Ok m2 ∧
      ∀ d, cl_now_ms c + d ≤ u64_max →
        ∃ r m3, claim_task (with_duration d c) m2 = (Ok r, m3) ∧ tc_task_id r = Some id.
Proof.
  intros s Hi Hroom Hterm Hmem Hfresh Hnext Hov.
  destruct (overflowing_claim c m ns gen Hi Hroom Hterm Hmem Hfresh c0 id h Hov Hnext)
    as (t & m' & Hc & Hs & Hst).
  exists t, m'. split_and!; [done..|apply Hst| |by eapply restored_claim].
  intros cmds. by destruct (apply_all_stranded id t cmds m' Hst).
Qed.

Lemma claim_overflow_strands_task_witness :
  let c := claim_command "ga" "m1" "l2" 18446744073709551115 1000 in
  let s := recovered "a" 18446744073709551115 (m_state busy_machine) in
  ∃ t m', claim_task c busy_machine = (Err TimestampOverflow, m') ∧ m_state m' = s ∧
    Task_status t = StatusQueued ∧ (∀ cmds, m_tasks (apply_all cmds m').2 !! "t2" = Some t) ∧
    ∃ m2, from_checkpoint (BrokerState_checkpoint s) = Ok m2 ∧
      ∀ d, 18446744073709551115 + d ≤ u64_max →
        ∃ r m3, claim_task (with_duration d c) m2 = (Ok r, m3) ∧ tc_task_id r = Some "t2".
Proof.
  apply (claim_overflow_strands_task (claim_command "ga" "m1" "l2" 18446744073709551115 1000)
    busy_machine "a" 1 1 "t2" [(2, "t1")]);
    [apply busy_inv|by_compute|vm_compute; reflexivity|vm_compute; reflexivity|by_compute
    |vm_compute; reflexivity|vm_compute; reflexivity].
Defined.

(** The claim leases the task it requeued. *)
Lemma lease_requeued c ns gen m id t l m1 :
  m_tasks m !! id = Some t → t_state t = Leased l → counters_room (m_state m) →
  cl_now_ms c + cl_lease_duration_ms c ≤ u64_max →
  m_state m1 = set_tasks (<[id := requeued t]> (m_tasks m)) (m_state m) →
  ∃ r m', lease_task c ns gen id m1 = (Ok r, m') ∧ tc_task_id r = Some (t_id t) ∧
    m_tasks m' !! id = Some (claimed (claim_grant c gen) (requeued t)).
Proof.
  intros Ht Hl Hroom Hd Hs. destruct Hroom as [Hrev Hr]. specialize (Hr id t Ht). cbn in Hr.
  assert (Task_claim (claim_grant c gen) (requeued t) =
    (Ok tt, claimed (claim_grant c gen) (requeued t))) as Hcl.
  { apply Task_claim_ok. eexists. split_and!; [by apply requeued_state| | |done];
      unfold requeued, task_epoch in *; rewrite Hl in *; simpl in *; lia. }
  assert (m_tasks m1 !! id = Some (requeued t)) as Hu by (rewrite Hs; apply lookup_insert_eq).
  unfold lease_task, checked_deadline, next_revision.
  rewrite (proj2 (checked_add_Some _ _ _) (conj eq_refl Hd)). cbn [ok_or].
  unfold Revision_next. rewrite counter_next_lt by (by rewrite Hs). cbn [map_err].
  rewrite Hu. cbn [ok_or]. fold (claim_grant c gen). rewrite Hcl. cbn. rewrite lookup_insert_eq.
  eexists _, _. split_and!; [done| |cbn; apply lookup_insert_eq]. cbn.
  by destruct (requeued_const t) as (-> & _).
Qed.

Section stale_entry.
Context (m : BrokerStateMachine) (ns : NamespaceId) (now : TimestampMs).
Context (id : TaskId) (t : Task) (l : LeasedTask) (rest : list ExpirationEntry).
Context (Ht : m_tasks m !! id = Some t) (Hl : t_state t = Leased l).
Context (Hroom : counters_room (m_state m)).
Context (Hexp : m_lease_expirations m !! ns =
  Some ((lt_expires_at_ms l, id, lt_lease_epoch l) :: rest)).
Context (Hdue : lt_expires_at_ms l ≤ now) (Hrest : Forall (λ e, now < e.1.1) rest).

Lemma pop_stale : pop_expired (m_tasks m) now
    ((lt_expires_at_ms l, id, lt_lease_epoch l) :: rest) ∅ = ({[ id ]}, rest).
Proof.
  cbn [pop_expired]. rewrite (proj2 (N.ltb_ge _ _) Hdue), Ht, Hl, !N.eqb_refl. cbn [andb].
  rewrite (right_id_L ∅ (∪)). destruct rest as [|[[e i] ep] rest']; [done|].
  cbn [pop_expired]. apply Forall_cons in Hrest as [Hn _]. cbn in Hn.
  by rewrite (proj2 (N.ltb_lt _ _) Hn).
Qed.

Lemma recover_stale :
  ∃ m1, recover_expired_leases ns now m = (Ok 1, m1) ∧
    m_state m1 = set_tasks (<[id := requeued t]> (m_tasks m)) (m_state m) ∧
    m_ready_tasks m1 = heap_map_push ns (t_created_at_ms t, id) (m_ready_tasks m).
Proof.
  unfold recover_expired_leases. rewrite Hexp, pop_stale.
  assert (bset_iter ({[ id ]} : gset TaskId) = [id]) as -> by (unfold bset_iter; by rewrite elements_singleton).
  cbn [requeue_expired with_lease_expirations m_tasks m_state]. 
  destruct Hroom as [_ Hr]. specialize (Hr id t Ht). cbn in Hr.
  cbn. rewrite Ht, Hl. cbn. rewrite (requeue_if_expired_spec now t l) by (done || lia).
  cbn. rewrite remove_member_lease_task_fields. eexists. split_and!; done.
Qed.

End stale_entry.

(** C37: an expiration entry that outlived its task hands a task of another
    namespace to the claiming group.  When the expiration heap of namespace [ns]
    holds an entry that matches, by id, deadline and epoch, the expired lease of a
    task that lives in another namespace, and nothing else of [ns] is due or
    ready, a claim of a member of a group of [ns] requeues that task into [ns] and
    leases it to the member, while the task still names its own namespace. *)
Theorem stale_expiration_crosses_namespaces c m ns gen id t l rest :
  require_term (cl_expected_term c) m = Ok () →
  require_group_member (cl_group_id c) (cl_member_id c) (cl_expected_generation c) m = Ok (ns, gen) →
  m_active_lease_tasks m !! cl_lease_id c = None →
  m_tasks m !! id = Some t → t_state t = Leased l → t_namespace_id t ≠ ns →
  m_lease_expirations m !! ns = Some ((lt_expires_at_ms l, id, lt_lease_epoch l) :: rest) →
  lt_expires_at_ms l ≤ cl_now_ms c → Forall (λ e, cl_now_ms c < e.1.1) rest →
  heap_at (m_ready_tasks m) ns = [] →
  cl_now_ms c + cl_lease_duration_ms c ≤ u64_max → counters_room (m_state m) →
  ∃ r m' t', claim_task c m = (Ok r, m') ∧ tc_task_id r = Some (t_id t) ∧
    m_tasks m' !! id = Some t' ∧ t_namespace_id t' = t_namespace_id t ∧
    leased_by (cl_group_id c) (cl_member_id c) t' = true.
Proof.
  intros Hterm Hmem Hact Ht Hl Hns Hexp Hdue Hrest Hready Hd Hroom.
  destruct (recover_stale m ns (cl_now_ms c) id t l rest) as (m1 & Hrec & Hs1 & Hr1); [done..|].
  unfold claim_task. rewrite Hterm, Hmem, Hact, Hrec.
  unfold pop_ready_task. rewrite Hr1. unfold heap_map_push. rewrite lookup_insert_eq.
  unfold heap_at in Hready. rewrite Hready. cbn [heap_push pop_ready].
  rewrite Hs1. cbn [set_tasks s_tasks]. rewrite lookup_insert_eq.
  rewrite bool_decide_true by (unfold Task_status; by rewrite (requeued_state _ _ Hl)).
  match goal with |- context [lease_task c ns gen id ?m2] =>
    destruct (lease_requeued c ns gen m id t l m2) as (r & m' & -> & Hid & Ht'); [done..|]
  end.
  eexists _, _, _. split_and!; [done..| |].
  - cbn. by destruct (requeued_const t) as (_ & -> & _).
  - unfold leased_by. rewrite claimed_lease. cbn. by rewrite !bool_decide_true.
Qed.

(** The task [t1] of [a] is completed and pruned, published again in [b], and
    leased there until the same deadline at the same epoch. *)
Definition reused_lease : LeasedTask := {|
  lt_lease_id := "l2"; lt_owner_member_id := "m2"; lt_group_id := "gb"; lt_generation := 1;
  lt_lease_epoch := 1; lt_expires_at_ms := 100 |}.

Definition reused_task : Task := {|
  t_id := "t1"; t_namespace_id := "b"; t_objective := "work"; t_created_at_ms := 30;
  t_revision := 2; t_state := Leased reused_lease |}.

Lemma stale_expiration_crosses_namespaces_witness :
  ∃ r m' t', claim_task (claim_command "ga" "m1" "l3" 100 50) (run reused_id) = (Ok r, m') ∧
    tc_task_id r = Some "t1" ∧ m_tasks m' !! "t1" = Some t' ∧ t_namespace_id t' = "b" ∧
    leased_by "ga" "m1" t' = true.
Proof.
  apply (stale_expiration_crosses_namespaces (claim_command "ga" "m1" "l3" 100 50) (run reused_id)
    "a" 1 "t1" reused_task reused_lease []);
    [vm_compute; reflexivity..|reflexivity|done|vm_compute; reflexivity|by_compute|by constructor
    |vm_compute; reflexivity|by_compute|by_compute].
Defined.
