(* ===== verification/Maintenance.v ===== *)
(** * Membership changes, retention and limits

    What leaving, reaping and pruning do to members, leases and tasks, the
    fencing of deposed terms, and the capacity limits. *)

From S2P Require Import Prelude Values Task Group Messages Machine Recovery Spec Invariant.
From S2P Require Import Refinement Claim Reap Effect Broker Scenarios.

(** ** Leaving *)

(** Every lease of the member went back to its ready heap; nothing else moved. *)
Definition leases_returned (gid : ConsumerGroupId) (mid : ConsumerId)
    (m m' : BrokerStateMachine) : Prop :=
  (∃ g', m_groups m' !! gid = Some g' ∧ g_consumers g' !! mid = None) ∧
  map_Forall (λ id t,
    if leased_by gid mid t
    then ∃ t', m_tasks m' !! id = Some t' ∧ Task_status t' = StatusQueued ∧
               task_epoch t' = task_epoch t ∧
               (t_created_at_ms t, id) ∈ heap_at (m_ready_tasks m') (t_namespace_id t)
    else m_tasks m' !! id = Some t) (m_tasks m).

(** When a member leaves, each task it had leased is queued again, at the
    same lease epoch and in the ready heap of its namespace, so that no work is
    lost with the member; no other task changes. *)
Theorem leave_returns_every_lease c m r m' :
  Inv m → leave_consumer_group c m = (Ok r, m') →
  leases_returned (lv_group_id c) (lv_member_id c) m m'.
Proof.
  intros [Hs Hi] Hl.
  destruct (leave_refines c m) as [Href Hi']; [|done|].
  { intros id g Hg. by apply (si_groups _ Hs) in Hg as [? _]. }
  rewrite Hl in Href, Hi'. simpl in Hi'. unfold on_state, spec_leave in Href. simpl in Href.
  destruct (next_revision _); [|done]. destruct (requeue_check _ _ _); [|done].
  destruct (m_groups m !! lv_group_id c) as [g|] eqn:Hg; [|done].
  destruct (Group_leave _ _ g) as [[mem|] g'] eqn:Ho; [|done]. injection Href as _ Hm'.
  split.
  - exists g'. rewrite Hm'. simpl. rewrite lookup_insert_eq. split; [done|].
    unfold Group_leave in Ho. group_op. apply lookup_delete_eq.
  - intros id t Ht. pose proof (ii_ready _ _ Hi' (t_namespace_id t)) as (_ & _ & Hin).
    rewrite Hm' in Hin |- *. simpl in *. unfold requeue_where at 1 2. rewrite lookup_fmap, Ht. simpl.
    destruct (leased_by _ _ t) eqn:Hby; [|done].
    pose proof Hby as (l & Hst & _)%leased_by_true. pose proof (requeued_state _ _ Hst) as Hq.
    destruct (requeued_const t) as (_ & Hns & Hcr & _).
    eexists. split_and!; [done|unfold Task_status; by rewrite Hq|unfold task_epoch; by rewrite Hq, Hst|].
    apply Hin. exists (requeued t). unfold requeue_where. rewrite lookup_fmap, Ht. simpl.
    rewrite Hby. split_and!; [done..|]. apply queued_in_true. split; [|done].
    unfold Task_status. by rewrite Hq.
Qed.

Lemma leave_returns_every_lease_witness :
  let c := {| lv_group_id := "ga"; lv_member_id := "m1"; lv_expected_generation := 1 |} in
  match leave_consumer_group c busy_machine with
  | (Ok _, m') => leases_returned "ga" "m1" busy_machine m'
  | (Err _, _) => False
  end.
Proof.
  intros c. destruct (leave_consumer_group c busy_machine) as [[r|e] m'] eqn:E.
  - apply (leave_returns_every_lease c busy_machine r m'); [apply busy_inv|exact E].
  - vm_compute in E. discriminate E.
Defined.

(** ** Reaping *)

(** [mid] is a member of [gid] last heard from at [h]. *)
Definition member_at (s : BrokerState) (h : TimestampMs) (gid : ConsumerGroupId)
    (mid : ConsumerId) : Prop :=
  ∃ g x, s_groups s !! gid = Some g ∧ g_consumers g !! mid = Some x ∧ c_last_heartbeat_at_ms x = h.

Lemma elem_of_reap_candidates s cutoff h gid mid :
  StateInv s →
  (h, gid, mid) ∈ reap_candidates cutoff (s_groups s) ↔ member_at s h gid mid ∧ h ≤ cutoff.
Proof.
  intros Hs.
  assert ((h, gid, mid) ∈ reap_candidates cutoff (s_groups s) ↔
    (h, gid, mid) ∈ filter (λ e : Candidate, e.1.2 = gid) (reap_candidates cutoff (s_groups s))) as ->.
  { rewrite list_elem_of_filter. naive_solver. }
  rewrite filter_candidates. unfold member_at.
  destruct (s_groups s !! gid) as [g|] eqn:Hg; [|rewrite elem_of_nil; naive_solver].
  pose proof (StateInv_keyed _ _ _ Hs Hg) as Hk. unfold group_candidates.
  rewrite list_elem_of_fmap. setoid_rewrite list_elem_of_filter. setoid_rewrite elem_of_bmap_values. split.
  - intros (x & [= -> ->] & Hle & k & Hx). split; [|done]. exists g, x.
    by rewrite (Hk _ _ Hx).
  - intros [(g' & x & [= <-] & Hx & <-) Hle]. exists x. rewrite (Hk _ _ Hx). eauto 10.
Qed.

Lemma reap_group_member vs gid g mid :
  g_consumers (reap_group vs gid g) !! mid =
  if decide ((gid, mid) ∈ vs) then None else g_consumers g !! mid.
Proof.
  unfold reap_group. destruct (victims_in gid vs) as [|y l] eqn:E.
  - rewrite decide_False; [done|]. rewrite <-elem_of_victims_in, E. apply not_elem_of_nil.
  - simpl. case_decide as Hd; rewrite <-elem_of_victims_in, E in Hd.
    + apply map_lookup_filter_None. right. intros x _. simpl. auto.
    + destruct (g_consumers g !! mid) as [x|] eqn:Hx.
      * by apply map_lookup_filter_Some.
      * apply map_lookup_filter_None. by left.
Qed.

(** The members a reap removed, and what it did to their leases. *)
Definition reaped_oldest (c : ReapStaleMembersCommand) (m : BrokerStateMachine)
    (r : StaleMembersReapedResult) (m' : BrokerStateMachine) : Prop :=
  let gone h gid mid := member_at (m_state m) h gid mid ∧ ¬ member_at (m_state m') h gid mid in
  (∀ h gid mid, member_at (m_state m') h gid mid → member_at (m_state m) h gid mid) ∧
  (∀ h gid mid, gone h gid mid → h ≤ rp_stale_before_ms c ∧
     map_Forall (λ _ t, leased_by gid mid t = false) (m_tasks m')) ∧
  (∀ h gid mid h' gid' mid', gone h gid mid → member_at (m_state m') h' gid' mid' →
     h' ≤ rp_stale_before_ms c → ole (h, gid, mid) (h', gid', mid')) ∧
  sr_reaped_count r =
    N.min (rp_max_members c) (len (reap_candidates (rp_stale_before_ms c) (m_groups m))).

(** The state a successful reap leaves. *)
Lemma spec_reap_ok c s r s' :
  spec_reap c s = (Ok r, s') →
  sr_reaped_count r = len (reap_victims c s) ∧
  s_tasks s' = requeue_where (leased_by_any (reap_victims c s)) (s_tasks s) ∧
  s_groups s' = map_imap (λ gid g, Some (reap_group (reap_victims c s) gid g)) (s_groups s).
Proof.
  unfold spec_reap. case_match; [done|]. destruct (reap_victims c s) as [|v vs] eqn:E; simpl.
  - intros [= <- <-]. split_and!; [done|by rewrite requeue_where_id|].
    apply map_eq. intros i. rewrite map_lookup_imap. by destruct (s_groups s !! i).
  - destruct (next_revision _); [|done]. destruct (reap_check _ _ _); [|done]. by intros [= <- <-].
Qed.

Lemma sorted_take_N `{Ord A} n (l : list A) x y :
  sorted l → x ∈ take_N n l → y ∈ l → y ∉ take_N n l → ole x y.
Proof.
  rewrite take_N_take. intros Hs Hx Hy Hn. rewrite <-(take_drop (N.to_nat n) l) in Hs, Hy.
  apply elem_of_app in Hy as [?|Hy]; [done|].
  induction (take (N.to_nat n) l) as [|z k IH]; [by apply elem_of_nil in Hx|].
  simpl in Hs. apply sorted_cons_iff in Hs as [Hz Hs].
  apply elem_of_cons in Hx as [->|Hx]; [apply Hz, elem_of_app; by right|].
  apply IH; [done|done|]. intros ?. apply Hn. by right.
Qed.

Lemma member_at_unique s h h' gid mid : member_at s h gid mid → member_at s h' gid mid → h = h'.
Proof. intros (g & x & Hg & Hx & <-) (g' & x' & Hg' & Hx' & <-). by simplify_eq. Qed.

Lemma elem_of_reap_victims c s gid mid :
  (gid, mid) ∈ reap_victims c s ↔
  ∃ h, (h, gid, mid) ∈ take_N (rp_max_members c) (reap_candidates (rp_stale_before_ms c) (s_groups s)).
Proof.
  unfold reap_victims. rewrite list_elem_of_fmap. split.
  - intros ([[h g] m] & [= -> ->] & Hin). eauto.
  - intros [h Hin]. by exists (h, gid, mid).
Qed.

Lemma member_at_reaped vs s s' h gid mid :
  s_groups s' = map_imap (λ gid g, Some (reap_group vs gid g)) (s_groups s) →
  member_at s' h gid mid ↔ member_at s h gid mid ∧ (gid, mid) ∉ vs.
Proof.
  intros Hg. unfold member_at. rewrite Hg, map_lookup_imap.
  destruct (s_groups s !! gid) as [g|]; simpl; [|naive_solver]. split.
  - intros (g' & x & [= <-] & Hx & <-). rewrite reap_group_member in Hx.
    case_decide; [done|]. eauto 10.
  - intros [(g' & x & [= <-] & Hx & <-) Hn]. exists (reap_group vs gid g), x.
    rewrite reap_group_member, decide_False by done. done.
Qed.

(** A reap removes the least recently heard-from members over all groups,
    only stale ones and as many as the limit allows; no stale member it keeps
    is older than one it removed, and no task stays leased to a removed
    member. *)
Theorem reap_removes_oldest_stale c m r m' :
  Inv m → reap_stale_members c m = (Ok r, m') → reaped_oldest c m r m'.
Proof.
  intros [Hs Hi] Hr.
  destruct (reap_refines c m) as [Href _]; [intros; by eapply StateInv_keyed|done|].
  rewrite Hr in Href. symmetry in Href. apply spec_reap_ok in Href as (Hcnt & Htasks & Hgroups).
  simpl in Htasks, Hgroups. pose proof (λ h gid mid, member_at_reaped _ _ _ h gid mid Hgroups) as Hat.
  assert (∀ h gid mid, member_at (m_state m) h gid mid → (gid, mid) ∈ reap_victims c (m_state m) →
    (h, gid, mid) ∈ take_N (rp_max_members c)
      (reap_candidates (rp_stale_before_ms c) (m_groups m))) as Hvic.
  { intros h gid mid Hm [h' Hin]%elem_of_reap_victims.
    pose proof Hin as [Hm' _]%elem_of_take_N%elem_of_reap_candidates; [|done].
    by rewrite (member_at_unique _ _ _ _ _ Hm Hm'). }
  split_and!.
  - intros h gid mid [? _]%Hat. done.
  - intros h gid mid [Hm Hn]. rewrite Hat in Hn.
    assert ((gid, mid) ∈ reap_victims c (m_state m)) as Hv by (apply dec_stable; naive_solver).
    split; [by apply (Hvic h) in Hv as [_ ?]%elem_of_take_N%elem_of_reap_candidates|].
    rewrite Htasks. intros id t (u & Hu & ->)%requeue_where_lookup.
    destruct (leased_by_any _ u) eqn:Hany; [apply leased_by_requeued|].
    destruct (leased_by gid mid u) eqn:Hby; [|done].
    assert (leased_by_any (reap_victims c (m_state m)) u = true); [|congruence].
    apply existsb_exists. exists (gid, mid). split; [by apply list_elem_of_In|done].
  - intros h gid mid h' gid' mid' [Hm Hn] [Hm' Hn']%Hat Hle. rewrite Hat in Hn.
    apply (sorted_take_N (rp_max_members c) (reap_candidates (rp_stale_before_ms c) (m_groups m))).
    + apply reap_candidates_sorted.
    + apply Hvic; [done|]. apply dec_stable. naive_solver.
    + by apply elem_of_reap_candidates.
    + intros Hin. apply Hn', elem_of_reap_victims. eauto.
  - rewrite Hcnt. unfold reap_victims, len. rewrite length_fmap, take_N_take, length_take. lia.
Qed.

Lemma reap_removes_oldest_stale_witness :
  let c := {| rp_stale_before_ms := 50; rp_max_members := 1 |} in
  match reap_stale_members c busy_machine with
  | (Ok r, m') => reaped_oldest c busy_machine r m'
  | (Err _, _) => False
  end.
Proof.
  intros c. destruct (reap_stale_members c busy_machine) as [[r|e] m'] eqn:E.
  - apply reap_removes_oldest_stale; [apply busy_inv|exact E].
  - vm_compute in E. discriminate E.
Defined.

(** ** Pruning *)

(** The tasks a prune deleted. *)
Definition pruned_earliest (c : PruneCompletedTasksCommand) (m : BrokerStateMachine)
    (r : CompletedTasksPrunedResult) (m' : BrokerStateMachine) : Prop :=
  let due := filter (λ e : CompletedEntry, e.1 <= pr_completed_before_ms c)
               (completed_list (m_tasks m)) in
  (∀ id t, m_tasks m' !! id = Some t → m_tasks m !! id = Some t) ∧
  (∀ id t, m_tasks m !! id = Some t → m_tasks m' !! id = None →
     ∃ at_ms, completed_at at_ms t = true ∧ at_ms ≤ pr_completed_before_ms c ∧
       ∀ id' t' at_ms', m_tasks m' !! id' = Some t' → completed_at at_ms' t' = true →
         at_ms' ≤ pr_completed_before_ms c → ole (at_ms, id) (at_ms', id')) ∧
  cpr_pruned_count r = N.min (pr_max_tasks c) (len due).

Lemma spec_prune_ok c s r s' :
  spec_prune c s = (Ok r, s') →
  let victims := take_N (pr_max_tasks c)
    (filter (λ e, e.1 <= pr_completed_before_ms c) (completed_list (s_tasks s))) in
  cpr_pruned_count r = len victims ∧
  s_tasks s' = filter (λ kv, kv.1 ∉ victims.*2) (s_tasks s).
Proof.
  unfold spec_prune. case_match; [done|].
  destruct (take_N _ _) as [|v vs] eqn:E; cbn [is_nil].
  - intros [= <- <-]. cbv zeta. split; [done|]. symmetry. apply map_filter_id. intros.
    apply not_elem_of_nil.
  - destruct (next_revision _); [|done]. by intros [= <- <-].
Qed.

(** A prune deletes the earliest completions up to the cutoff, as many as
    the limit allows, and nothing else; no task it keeps was completed before
    one it deleted. *)
Theorem prune_deletes_earliest c m r m' :
  Inv m → prune_completed_tasks c m = (Ok r, m') → pruned_earliest c m r m'.
Proof.
  intros [Hs Hi] Hr. destruct (prune_refines c m Hi) as [Href _]. rewrite Hr in Href.
  symmetry in Href. apply spec_prune_ok in Href as [Hcnt Ht]. simpl in Ht.
  unfold pruned_earliest. set (due := filter _ _) in *. cbv zeta.
  assert (sorted due) as Hsort by apply sorted_filter, completed_list_sorted.
  assert (∀ c0 id, (c0, id) ∈ due ↔ c0 ≤ pr_completed_before_ms c ∧
    ∃ t, m_tasks m !! id = Some t ∧ completed_at c0 t = true) as Hdue.
  { intros c0 id. unfold due. by rewrite list_elem_of_filter, elem_of_completed_list. }
  split_and!.
  - intros id t. rewrite Ht. by intros [? _]%map_lookup_filter_Some.
  - intros id t Hid Hnone. rewrite Ht in Hnone.
    apply map_lookup_filter_None in Hnone as [?|Hin]; [congruence|].
    specialize (Hin t Hid). simpl in Hin. apply dec_stable in Hin.
    apply list_elem_of_fmap in Hin as ([at_ms i] & -> & Hv). simpl in Hid.
    pose proof Hv as [Hle (u & Hu & Hat)]%elem_of_take_N%Hdue. simplify_eq.
    exists at_ms. split_and!; [done..|]. intros id' t' at_ms' Hid' Hat' Hle'. rewrite Ht in Hid'.
    apply map_lookup_filter_Some in Hid' as [Hid' Hni]. simpl in Hni.
    apply (sorted_take_N (A:=CompletedEntry) (pr_max_tasks c) due (at_ms, i) (at_ms', id')); [done|done|apply Hdue; eauto|].
    intros Hin'. apply Hni, list_elem_of_fmap. by exists (at_ms', id').
  - rewrite Hcnt. apply len_take_N.
Qed.

Definition prune_scenario : BrokerStateMachine :=
  run (busy ++ [mk_complete "t2" "ga" "m1" 1 "l1" 20])%list.

Lemma prune_deletes_earliest_witness :
  let c := {| pr_completed_before_ms := 20; pr_max_tasks := 4 |} in
  match prune_completed_tasks c prune_scenario with
  | (Ok r, m') => pruned_earliest c prune_scenario r m'
  | (Err _, _) => False
  end.
Proof.
  intros c. destruct (prune_completed_tasks c prune_scenario) as [[r|e] m'] eqn:E.
  - apply prune_deletes_earliest; [apply run_inv; by_compute|exact E].
  - vm_compute in E. discriminate E.
Defined.

(** ** Terms *)

(** The term a command was issued under, if it carries one. *)
Definition command_term (cmd : BrokerCommand) : option Term :=
  match cmd with
  | ClaimTask c => Some (cl_expected_term c)
  | RenewTaskLease c => Some (rn_expected_term c)
  | CompleteTask c => Some (cp_expected_term c)
  | AdvanceTerm c => Some (at_expected_term c)
  | _ => None
  end.

Lemma stale_term_rejected cmd m t :
  command_term cmd = Some t → t ≠ s_term (m_state m) →
  (apply cmd m).1 = Err (StaleTerm t (s_term (m_state m))).
Proof.
  intros Hc Ht.
  assert (require_term t (clear_changes m) = Err (StaleTerm t (s_term (m_state m)))) as Hr.
  { unfold require_term. simpl. rewrite (proj2 (N.eqb_neq _ _)); [done|congruence]. }
  unfold apply. destruct cmd; simplify_eq/=;
    unfold claim_task, renew_task_lease, complete_task, advance_term; by rewrite Hr.
Qed.

Lemma run_term_mono cmds m :
  Inv m → admissible_run cmds m → s_term (m_state m) ≤ s_term (m_state (apply_all cmds m).2).
Proof.
  revert m. induction cmds as [|cmd cmds IH]; intros m Hi Ha; [done|]. destruct Ha as [Ha Hrun].
  destruct (apply_refines cmd m Hi Ha) as (Hi' & _). pose proof (apply_effect cmd m Hi Ha) as He.
  assert (s_term (m_state m) ≤ s_term (m_state (apply cmd m).2)) as Ht.
  { destruct (apply cmd m) as [[am|e] m']; simpl in *; [|by rewrite He].
    by destruct (effect_evolves _ _ (inv_state _ Hi) He). }
  specialize (IH _ Hi' Hrun). simpl. destruct (apply cmd m) as [r m1]. simpl in *.
  destruct (apply_all cmds m1) as [rs m2]. simpl in *. lia.
Qed.

(** Once the term has advanced past the one a command was issued under,
    that command is rejected as stale, now and after any further log of
    commands: a deposed leader's claims, renewals, completions and term changes
    never take effect. *)
Theorem deposed_term_is_fenced cmds cmd m t :
  Inv m → admissible_run cmds m → command_term cmd = Some t → t < s_term (m_state m) →
  let m' := (apply_all cmds m).2 in
  (apply cmd m').1 = Err (StaleTerm t (s_term (m_state m'))).
Proof.
  intros Hi Ha Hc Ht m'. apply stale_term_rejected; [done|].
  pose proof (run_term_mono cmds m Hi Ha). unfold m'. lia.
Qed.

Definition advanced : BrokerStateMachine :=
  run (busy ++ [AdvanceTerm {| at_expected_term := 1; at_new_term := 4 |}])%list.

Lemma deposed_term_is_fenced_witness :
  let m' := (apply_all [mk_publish "b" "t4" 7] advanced).2 in
  (apply (mk_complete "t2" "ga" "m1" 1 "l1" 20) m').1 = Err (StaleTerm 1 (s_term (m_state m'))).
Proof.
  apply (deposed_term_is_fenced [mk_publish "b" "t4" 7] _ advanced);
    [apply run_inv; by_compute|by_compute|reflexivity|vm_compute; reflexivity].
Defined.

(** ** Capacity *)

(** The limits carried by commands hold whenever the command adds
    something: a publication never leaves more tasks in its namespace than its
    limit, a registration never more groups in the namespace or namespaces in
    the broker, and a join never more members in the group. *)
Theorem capacity_limits_hold m :
  Inv m →
  (∀ c r m', publish_task c m = (Ok r, m') → m_state m' ≠ m_state m →
     count_by t_namespace_id (pt_namespace_id c) (m_tasks m') ≤ pt_max_namespace_tasks c) ∧
  (∀ c r m', ensure_consumer_group c m = (Ok r, m') → m_state m' ≠ m_state m →
     count_by g_namespace_id (eg_namespace_id c) (m_groups m') ≤ eg_max_namespace_groups c) ∧
  (∀ c r m', ensure_namespace c m = (Ok r, m') → m_state m' ≠ m_state m →
     msize (s_namespaces (m_state m')) ≤ en_max_namespaces c) ∧
  (∀ mid caps now max g g', Group_join mid caps now max g = (Ok Added, g') →
     consumer_count g' ≤ max).
Proof.
  intros [_ Hi]. split_and!.
  - intros c r m' Hp Hne. unfold publish_task in Hp.
    destruct (m_tasks m !! pt_task_id c) eqn:E; [by group_op|]. group_op.
    rewrite (ii_task_counts _ _ Hi) in *. rewrite count_by_insert_new, decide_True by done.
    rewrite N.leb_gt in *. lia.
  - intros c r m' Hp Hne. unfold ensure_consumer_group in Hp.
    destruct (m_groups m !! eg_group_id c) eqn:E; [by group_op|]. group_op.
    rewrite (ii_group_counts _ _ Hi) in *. rewrite count_by_insert_new, decide_True by done.
    rewrite N.leb_gt in *. lia.
  - intros c r m' Hp Hne. unfold ensure_namespace in Hp.
    destruct (s_namespaces (m_state m) !! en_namespace_id c) eqn:E; [by simplify_eq|]. group_op.
    unfold msize in *. rewrite map_size_insert_None by done. rewrite N.leb_gt in *. lia.
  - intros mid caps now max g g' Hj. unfold Group_join in Hj. group_op.
    unfold consumer_count, msize in *. simpl. rewrite map_size_insert_None by done.
    rewrite N.leb_gt in *. lia.
Qed.

Lemma capacity_limits_hold_witness :
  let c := {| pt_namespace_id := "b"; pt_task_id := "t4"; pt_objective := "work";
              pt_created_at_ms := 7; pt_max_namespace_tasks := 2 |} in
  count_by t_namespace_id "b" (m_tasks (publish_task c busy_machine).2) ≤ 2.
Proof.
  intros c. destruct (publish_task c busy_machine) as [[r|e] m'] eqn:E.
  - assert (m_revision (publish_task c busy_machine).2 = m_revision busy_machine + 1) as Hrev
      by (vm_compute; reflexivity).
    rewrite E in Hrev. simpl in Hrev |- *.
    apply (proj1 (capacity_limits_hold busy_machine busy_inv) c r m' E).
    intros Heq. rewrite Heq in Hrev. lia.
  - vm_compute in E. discriminate E.
Defined.

(** The task-count check of a prune never fires: a prune fails only for a
    zero limit or an exhausted revision counter. *)
Theorem prune_fails_only_on_limits c m e :
  Inv m → (prune_completed_tasks c m).1 = Err e →
  (pr_max_tasks c = 0 ∧ e = InvalidCapacity "max_tasks") ∨
  (m_revision m = u64_max ∨ u64_max < m_revision m) ∧ e = FencingValue (Overflow "revision").
Proof.
  intros [_ Hi] He. destruct (prune_refines c m Hi) as [Href _].
  assert ((spec_prune c (m_state m)).1 = Err e) as Hs by (rewrite <-Href; done).
  unfold spec_prune in Hs. destruct (N.eqb_spec (pr_max_tasks c) 0); [left; naive_solver|].
  case_match; [done|]. unfold next_revision in Hs.
  destruct (Revision_next (s_revision (m_state m))) as [x|x] eqn:Hn; [done|].
  apply counter_next_err in Hn as [-> Hr]. simpl in Hs. right. split; [lia|naive_solver].
Qed.

Lemma prune_fails_only_on_limits_witness :
  let c := {| pr_completed_before_ms := 20; pr_max_tasks := 0 |} in
  pr_max_tasks c = 0 ∧ InvalidCapacity "max_tasks" = InvalidCapacity "max_tasks" ∨
  (m_revision busy_machine = u64_max ∨ u64_max < m_revision busy_machine) ∧
  InvalidCapacity "max_tasks" = FencingValue (Overflow "revision").
Proof.
  intros c. apply (prune_fails_only_on_limits c busy_machine); [apply busy_inv|reflexivity].
Defined.
