(* ===== verification/Valid.v ===== *)
(** * Validated texts

    The newtypes of the source can only hold validated texts.  Here a newtype
    is its text, so the fact is an invariant: commands that carry validated
    texts keep a state of validated texts.  The sizes of groups stay machine
    words for the same reason. *)

From S2P Require Import Prelude Values Task Group Messages Machine Spec Invariant Refinement Effect.
From S2P Require Import Broker.

Definition valid_id (s : string) : Prop := validate_identifier s "" = Ok tt.
Definition valid_objective (s : string) : Prop := TaskObjective_new s = Ok s.
Definition valid_result (s : string) : Prop := TaskResult_new s = Ok s.
Definition valid_capabilities (c : Capabilities) : Prop := Capabilities_new c = Ok c.

Definition valid_task_state (st : TaskState) : Prop :=
  match st with
  | Queued _ => True
  | Leased l => valid_id (lt_lease_id l) ∧ valid_id (lt_owner_member_id l) ∧ valid_id (lt_group_id l)
  | Completed c => valid_id (ct_lease_id c) ∧ valid_id (ct_owner_member_id c) ∧
      valid_id (ct_group_id c) ∧ valid_result (ct_result c)
  end.

Definition valid_task (t : Task) : Prop :=
  valid_id (t_id t) ∧ valid_id (t_namespace_id t) ∧ valid_objective (t_objective t) ∧
  valid_task_state (t_state t).

Definition valid_consumer (c : Consumer) : Prop :=
  valid_id (c_id c) ∧ valid_capabilities (c_capabilities c).

Definition valid_group (g : ConsumerGroup) : Prop :=
  valid_id (g_id g) ∧ valid_id (g_namespace_id g) ∧
  map_Forall (λ _ c, valid_consumer c) (g_consumers g) ∧ consumer_count g ≤ u64_max.

Record valid_state (s : BrokerState) : Prop := {
  vs_namespaces : map_Forall (λ _ n, valid_id (n_id n)) (s_namespaces s);
  vs_tasks : map_Forall (λ _ t, valid_task t) (s_tasks s);
  vs_groups : map_Forall (λ _ g, valid_group g) (s_groups s);
}.

(** A command as the source can build it: validated texts, terms that are not
    zero, and limits that are machine words. *)
Definition valid_command (cmd : BrokerCommand) : Prop :=
  match cmd with
  | EnsureNamespace c => valid_id (en_namespace_id c) ∧ en_max_namespaces c ≤ u64_max
  | PublishTask c => valid_id (pt_namespace_id c) ∧ valid_id (pt_task_id c) ∧
      valid_objective (pt_objective c) ∧ pt_max_namespace_tasks c ≤ u64_max
  | EnsureConsumerGroup c => valid_id (eg_namespace_id c) ∧ valid_id (eg_group_id c) ∧
      eg_max_namespace_groups c ≤ u64_max
  | JoinConsumerGroup c => valid_id (jg_group_id c) ∧ valid_id (jg_member_id c) ∧
      valid_capabilities (jg_capabilities c) ∧ jg_max_group_members c ≤ u64_max
  | Heartbeat c => valid_id (hb_group_id c) ∧ valid_id (hb_member_id c)
  | LeaveConsumerGroup c => valid_id (lv_group_id c) ∧ valid_id (lv_member_id c)
  | ReapStaleMembers c => rp_max_members c ≤ u64_max
  | ClaimTask c => valid_id (cl_lease_id c) ∧ valid_id (cl_member_id c) ∧
      valid_id (cl_group_id c) ∧ 0 < cl_expected_term c
  | RenewTaskLease c => valid_id (rn_task_id c) ∧ valid_id (rn_group_id c) ∧
      valid_id (rn_member_id c) ∧ valid_id (rn_lease_id c) ∧ 0 < rn_expected_term c
  | CompleteTask c => valid_result (cp_result c) ∧ valid_id (cp_task_id c) ∧
      valid_id (cp_group_id c) ∧ valid_id (cp_member_id c) ∧ valid_id (cp_lease_id c) ∧
      0 < cp_expected_term c
  | PruneCompletedTasks c => pr_max_tasks c ≤ u64_max
  | AdvanceTerm c => 0 < at_expected_term c ∧ 0 < at_new_term c
  end.

(** Decidable, so that concrete states and commands are checked by evaluation. *)
#[export] Instance valid_id_dec s : Decision (valid_id s).
Proof. unfold valid_id. apply _. Defined.
#[export] Instance valid_objective_dec s : Decision (valid_objective s).
Proof. unfold valid_objective. apply _. Defined.
#[export] Instance valid_result_dec s : Decision (valid_result s).
Proof. unfold valid_result. apply _. Defined.
#[export] Instance valid_capabilities_dec c : Decision (valid_capabilities c).
Proof. unfold valid_capabilities. apply _. Defined.
#[export] Instance valid_task_dec t : Decision (valid_task t).
Proof. unfold valid_task, valid_task_state. destruct (t_state t); apply _. Defined.
#[export] Instance valid_group_dec g : Decision (valid_group g).
Proof. unfold valid_group, valid_consumer. apply _. Defined.
#[export] Instance valid_command_dec cmd : Decision (valid_command cmd).
Proof. destruct cmd; simpl; apply _. Defined.
#[export] Instance valid_state_dec s : Decision (valid_state s).
Proof.
  refine (cast_if (decide (map_Forall (λ _ n, valid_id (n_id n)) (s_namespaces s) ∧
    map_Forall (λ _ t, valid_task t) (s_tasks s) ∧ map_Forall (λ _ g, valid_group g) (s_groups s))));
    abstract (split || intros []; naive_solver).
Defined.

(** ** Preservation *)

Create HintDb valid.

Lemma valid_insert {K A} `{Countable K} (P : A → Prop) (m : gmap K A) k x :
  map_Forall (λ _ y, P y) m → P x → map_Forall (λ _ y, P y) (<[k := x]> m).
Proof. intros. by apply map_Forall_insert_2. Qed.

Lemma valid_filter {K A} `{Countable K} (P : A → Prop) (Q : K * A → Prop)
    `{∀ kv, Decision (Q kv)} (m : gmap K A) :
  map_Forall (λ _ y, P y) m → map_Forall (λ _ y, P y) (filter Q m).
Proof. intros Hm k x [Hk _]%map_lookup_filter_Some. by eapply Hm. Qed.

Lemma valid_requeued t : valid_task t → valid_task (requeued t).
Proof. unfold requeued. destruct (t_state t) eqn:E; [done| |done]. intros (? & ? & ? & _). done. Qed.

Lemma valid_requeue_where P tasks :
  map_Forall (λ _ t, valid_task t) tasks → map_Forall (λ _ t, valid_task t) (requeue_where P tasks).
Proof.
  intros Hv id t (u & Hu & ->)%requeue_where_lookup. specialize (Hv id u Hu). simpl in Hv.
  destruct (P u); [by apply valid_requeued|done].
Qed.

#[export] Hint Resolve valid_insert valid_filter valid_requeue_where : valid.

Lemma valid_renewed fence exp t r t' :
  Task_renew fence exp t = (r, t') → valid_task t → valid_task t'.
Proof.
  destruct r as [[]|].
  - intros (l & Hl & _ & _ & ->)%Task_renew_ok (? & ? & ? & Hs). rewrite Hl in Hs. done.
  - by intros ->%Task_renew_err.
Qed.

Lemma valid_completed fence res t r t' :
  Task_complete fence res t = (r, t') → valid_result res → valid_task t → valid_task t'.
Proof.
  destruct r as [[]|].
  - intros (l & Hl & _ & _ & ->)%Task_complete_ok Hr (? & ? & ? & Hs). rewrite Hl in Hs.
    destruct Hs as (? & ? & ?). done.
  - by intros [-> _]%Task_complete_already.
  - by intros ->%Task_complete_err.
Qed.

Lemma valid_group_set g gen rev cs :
  valid_group g → map_Forall (λ _ c, valid_consumer c) cs → msize cs ≤ u64_max →
  valid_group (group_set g gen rev cs).
Proof. by intros (? & ? & _ & _) ?. Qed.

Lemma valid_group_consumer g mid c :
  valid_group g → g_consumers g !! mid = Some c → valid_consumer c.
Proof. intros (_ & _ & Hc & _) Hm. by apply (Hc mid). Qed.

Lemma valid_group_beat g mid c gen rev now mrev :
  valid_group g → g_consumers g !! mid = Some c →
  valid_group (group_set g gen rev (<[mid := consumer_beat c now mrev]> (g_consumers g))).
Proof.
  intros Hg Hm. apply valid_group_set; [done|..].
  - apply valid_insert; [apply Hg|]. exact (valid_group_consumer g mid c Hg Hm).
  - unfold msize. rewrite map_size_insert_Some by (by exists c). apply Hg.
Qed.

Lemma valid_join mid caps now max g r g' :
  Group_join mid caps now max g = (r, g') → valid_id mid → valid_capabilities caps →
  max ≤ u64_max → valid_group g → valid_group g'.
Proof.
  unfold Group_join. intros Hj Hid Hc Hmax Hg.
  group_op; try done; [by apply valid_group_beat|apply valid_group_set; [done|..]].
  - apply valid_insert; [apply Hg|done].
  - unfold consumer_count, msize in *. rewrite map_size_insert_None by done.
    rewrite N.leb_gt in *. lia.
Qed.

Lemma valid_heartbeat mid gen now g r g' :
  Group_heartbeat mid gen now g = (r, g') → valid_group g → valid_group g'.
Proof.
  unfold Group_heartbeat. intros Hj Hg. group_op; try done. by apply valid_group_beat.
Qed.

Lemma valid_leave mid gen g r g' :
  Group_leave mid gen g = (r, g') → valid_group g → valid_group g'.
Proof.
  unfold Group_leave. intros Hj Hg. group_op; try done. apply valid_group_set; [done|..].
  - apply map_Forall_delete, Hg.
  - etrans; [|apply Hg]. apply msize_mono, delete_subseteq.
Qed.

Lemma valid_with_group {A} gid (op : ConsumerGroup → result A ConsumerGroupError * ConsumerGroup)
    groups r groups' :
  with_group_mut gid op groups = (r, groups') →
  (∀ g r' g', op g = (r', g') → valid_group g → valid_group g') →
  map_Forall (λ _ g, valid_group g) groups → map_Forall (λ _ g, valid_group g) groups'.
Proof.
  intros [(_ & _ & ->)|(g & r' & g' & Hg & Ho & _ & ->)]%with_group_mut_cases Hop Hv; [done|].
  apply valid_insert; [done|]. eapply Hop; [done|]. by apply (Hv gid).
Qed.

(** ** Commands *)

Definition keeps_valid {A} (s : BrokerState) (r : result A StateMachineError * BrokerState) : Prop :=
  valid_state s → valid_state r.2.

Lemma keeps_valid_same {A} s (r : result A StateMachineError) : keeps_valid s (r, s).
Proof. by intros Hs. Qed.

#[export] Hint Resolve keeps_valid_same : valid.

Ltac kept := solve [unfold on_state; simpl; auto with valid].

Lemma ensure_namespace_valid c s :
  valid_command (EnsureNamespace c) → keeps_valid s (on_state (ensure_namespace c (bare s))).
Proof.
  intros [Hid _]. unfold ensure_namespace. simpl.
  destruct (s_namespaces s !! _); [kept|]. do 2 (case_match; [kept|]).
  destruct (next_revision _); [|kept]. intros []. constructor; simpl; auto.
  apply (valid_insert (λ n, valid_id (n_id n))); done.
Qed.

Lemma publish_valid c s : valid_command (PublishTask c) → keeps_valid s (spec_publish c s).
Proof.
  intros (Hns & Hid & Hobj & _). unfold spec_publish, publish_task. simpl.
  destruct (require_namespace _ _); [|kept].
  destruct (s_tasks s !! _); [case_match; kept|]. do 2 (case_match; [kept|]).
  destruct (next_revision _); [|kept]. intros []. constructor; simpl; auto with valid.
  by apply valid_insert.
Qed.

Lemma ensure_group_valid c s :
  valid_command (EnsureConsumerGroup c) → keeps_valid s (spec_ensure_group c s).
Proof.
  intros (Hns & Hid & _). unfold spec_ensure_group, ensure_consumer_group. simpl.
  destruct (require_namespace _ _); [|kept].
  destruct (s_groups s !! _); [case_match; kept|]. do 2 (case_match; [kept|]).
  destruct (next_revision _); [|kept]. simpl. rewrite lookup_insert_eq. simpl.
  intros []. constructor; simpl; auto. apply valid_insert; [done|].
  split_and!; [done..|apply map_Forall_empty|done].
Qed.

Lemma groups_valid s groups :
  valid_state s → map_Forall (λ _ g, valid_group g) groups → valid_state (set_groups groups s).
Proof. by intros [] ?; constructor. Qed.

Lemma revision_valid s r : valid_state s → valid_state (set_revision r s).
Proof. by intros []; constructor. Qed.

Lemma join_valid c s :
  valid_command (JoinConsumerGroup c) → keeps_valid s (on_state (join_consumer_group c (bare s))).
Proof.
  intros (_ & Hid & Hc & Hmax) Hs. unfold join_consumer_group. simpl.
  destruct (next_revision _); [|done].
  destruct (Coordinator_join _ _ _ _ _ _) as [r groups] eqn:E.
  apply valid_with_group in E; [|intros g r' g' Ho; by apply (valid_join _ _ _ _ _ _ _ Ho)|apply Hs].
  pose proof (groups_valid s groups Hs E).
  destruct (map_err _ r); [|done]. simpl. destruct (groups !! _); [|done]. simpl.
  case_decide; [done|by apply (revision_valid (set_groups groups s))].
Qed.

Lemma heartbeat_valid c s : keeps_valid s (on_state (heartbeat c (bare s))).
Proof.
  intros Hs. unfold heartbeat. simpl. destruct (next_revision _); [|done].
  destruct (Coordinator_heartbeat _ _ _ _ _) as [r groups] eqn:E.
  apply valid_with_group in E; [|intros g r' g' Ho; by apply (valid_heartbeat _ _ _ _ _ _ Ho)|apply Hs].
  pose proof (groups_valid s groups Hs E).
  destruct (map_err _ r); [|done]. simpl. destruct (groups !! _) as [g|]; [|done]. simpl.
  destruct (g_consumers g !! _); [|done]. simpl.
  case_decide; [by apply (revision_valid (set_groups groups s))|done].
Qed.

Lemma leave_valid c s : keeps_valid s (spec_leave c s).
Proof.
  intros Hs. unfold spec_leave. destruct (next_revision _); [|done].
  destruct (requeue_check _ _ _); [|done].
  destruct (s_groups s !! lv_group_id c) as [g|] eqn:Hg; [|done].
  destruct (Group_leave _ _ g) as [[]] eqn:E; [|done]. destruct Hs.
  constructor; simpl; auto with valid. apply valid_insert; [done|].
  apply (valid_leave _ _ _ _ _ E). by apply (vs_groups0 (lv_group_id c)).
Qed.

Lemma reap_valid c s : keeps_valid s (spec_reap c s).
Proof.
  intros Hs. unfold spec_reap. case_match; [done|]. case_match; [done|].
  destruct (next_revision _); [|done]. destruct (reap_check _ _ _); [|done]. destruct Hs.
  constructor; simpl; auto with valid.
  intros gid g'. rewrite map_lookup_imap. intros (g & Hg & [= <-])%bind_Some.
  specialize (vs_groups0 gid g Hg). simpl in vs_groups0. unfold reap_group. case_match; [done|].
  apply valid_group_set; [done|apply valid_filter, vs_groups0|].
  etrans; [|apply vs_groups0]. apply msize_mono, map_filter_subseteq.
Qed.

Lemma claim_valid c s : valid_command (ClaimTask c) → keeps_valid s (spec_claim c s).
Proof.
  intros (Hl & Hm & Hg & _) Hs. unfold spec_claim. destruct (require_term _ _); [|done].
  destruct (require_group_member _ _ _ _) as [[ns gen]|]; [|done].
  destruct (lease_holder _ _); [by case_match|]. destruct (head _) as [[c0 id]|]; [|done].
  destruct (checked_deadline _ _); [|done]. destruct (next_revision _); [|done].
  destruct (requeue_where _ _ !! id) as [t|] eqn:Ht; [|done]. destruct Hs.
  constructor; simpl; auto. apply valid_insert; [auto with valid|].
  assert (valid_task t) as (? & ? & ? & _) by exact (valid_requeue_where _ _ vs_tasks0 _ _ Ht).
  done.
Qed.

Lemma tasks_valid s tasks :
  valid_state s → map_Forall (λ _ t, valid_task t) tasks → valid_state (set_tasks tasks s).
Proof. by intros [] ?; constructor. Qed.

Lemma renew_valid c s : keeps_valid s (on_state (renew_task_lease c (bare s))).
Proof.
  intros Hs. unfold renew_task_lease. simpl. destruct (require_term _ _); [|done].
  destruct (require_group_member _ _ _ _) as [[]|]; [|done].
  destruct (checked_deadline _ _) as [exp|]; [|done]. destruct (next_revision _) as [next|]; [|done].
  destruct (s_tasks s !! rn_task_id c) as [t|] eqn:Ht; [|done]. simpl.
  destruct (Task_renew _ exp t) as [r t'] eqn:E.
  pose proof (valid_renewed _ _ _ _ _ E (vs_tasks _ Hs _ _ Ht)) as Ht'.
  pose proof (tasks_valid s _ Hs (valid_insert _ _ (rn_task_id c) _ (vs_tasks _ Hs) Ht')) as Hs'.
  destruct r as [[]|]; simpl; [|done].
  apply Task_renew_ok in E as (l & _ & _ & _ & ->). simpl. destruct Hs'. by constructor.
Qed.

Lemma complete_valid c s :
  valid_command (CompleteTask c) → keeps_valid s (on_state (complete_task c (bare s))).
Proof.
  intros [Hr _] Hs. unfold complete_task. simpl. destruct (require_term _ _); [|done].
  destruct (require_group_member _ _ _ _) as [|]; [|done].
  destruct (next_revision _) as [next|]; [|done].
  destruct (s_tasks s !! cp_task_id c) as [t|] eqn:Ht; [|done]. simpl.
  destruct (Task_complete _ _ t) as [r t'] eqn:E.
  pose proof (valid_completed _ _ _ _ _ E Hr (vs_tasks _ Hs _ _ Ht)) as Ht'.
  pose proof (tasks_valid s _ Hs (valid_insert _ _ (cp_task_id c) _ (vs_tasks _ Hs) Ht')) as Hs'.
  destruct r as [[]|]; simpl; [| |done]; unfold on_state; simpl;
    rewrite ?m_state_remove_member_lease_task; [|done]. destruct Hs'. by constructor.
Qed.

Lemma prune_valid c s : keeps_valid s (spec_prune c s).
Proof.
  intros Hs. unfold spec_prune. case_match; [done|]. case_match; [done|].
  destruct (next_revision _); [|done]. destruct Hs. constructor; simpl; auto with valid.
Qed.

Lemma advance_term_valid c s : keeps_valid s (on_state (advance_term c (bare s))).
Proof.
  intros Hs. unfold advance_term. simpl. destruct (require_term _ _); [|done].
  case_match; [done|]. destruct (next_revision _); [|done]. destruct Hs. by constructor.
Qed.

Lemma keeps_valid_map {A B} (f : A → B) s r :
  keeps_valid s r → keeps_valid s (prod_map (map_ok f) id r).
Proof. by destruct r. Qed.

Lemma spec_handle_valid cmd s :
  valid_command cmd → valid_state s → valid_state (spec_handle cmd s).2.
Proof.
  intros Hc. change (keeps_valid s (spec_handle cmd s)).
  destruct cmd; cbn [spec_handle handle]; rewrite ?on_state_prod_map; apply keeps_valid_map.
  - by apply ensure_namespace_valid.
  - by apply publish_valid.
  - by apply ensure_group_valid.
  - by apply join_valid.
  - apply heartbeat_valid.
  - apply leave_valid.
  - apply reap_valid.
  - by apply claim_valid.
  - apply renew_valid.
  - by apply complete_valid.
  - apply prune_valid.
  - apply advance_term_valid.
Qed.
