(* ===== verification/Display.v ===== *)
(** * Application errors and the rendering of errors

    The codes and dispositions of [agent-broker-application/src/error.rs], and the
    [fmt::Display] implementations of the domain errors
    ([agent-broker-domain/src]), whose text ends up in application and storage
    errors. *)

From stdpp Require Import pretty.
From S2P Require Import Prelude Values Task Group Messages.

Class Display (E : Type) := to_string : E → string.

#[export] Instance string_display : Display string := id.

Definition IdentifierError_fmt (e : IdentifierError) : string :=
  "invalid " +:+ ie_kind e +:+ ": " +:+ ie_reason e.

Definition FencingValueError_fmt (e : FencingValueError) : string :=
  match e with
  | ZeroTerm => "broker term must be at least 1"
  | Overflow counter =>
      counter +:+ " overflowed and cannot advance without violating monotonic fencing"
  end.

Definition TaskTextError_fmt (e : TaskTextError) : string :=
  match e with
  | TextEmpty field => field +:+ " must be a non-empty string"
  | TextTooLarge field max_bytes =>
      field +:+ " exceeds the " +:+ pretty max_bytes +:+ "-byte limit"
  end.

Definition CapabilitiesError_fmt (e : CapabilitiesError) : string :=
  match e with
  | TooMany max => "capabilities supports at most " +:+ pretty max +:+ " values"
  | InvalidCapability reason => reason
  end.

(** The derived [Debug] of a status. *)
Definition TaskStatus_debug (s : TaskStatus) : string :=
  match s with
  | StatusQueued => "Queued" | StatusLeased => "Leased" | StatusCompleted => "Completed"
  end.

Definition TaskTransitionError_fmt (e : TaskTransitionError) : string :=
  match e with
  | NotQueued status => "task is not queued: " +:+ TaskStatus_debug status
  | NotLeased status => "task has no active lease: " +:+ TaskStatus_debug status
  | StaleGroup => "task lease belongs to another Consumer Group"
  | StaleOwner => "task lease belongs to another member"
  | TaskStaleGeneration => "task lease generation is stale"
  | StaleLeaseEpoch => "task lease epoch is stale"
  | StaleLeaseId => "task lease identity is stale"
  | LeaseExpired => "task lease has expired"
  | TaskAlreadyCompleted => "task is already completed"
  | TaskFencingValue e => FencingValueError_fmt e
  end.

Definition ConsumerGroupError_fmt (e : ConsumerGroupError) : string :=
  match e with
  | StaleGeneration expected actual =>
      "Consumer Group generation is stale: expected " +:+ pretty expected +:+
      ", actual " +:+ pretty actual
  | MemberNotFound id => "member " +:+ id +:+ " does not exist"
  | CapabilityConflict id => "member " +:+ id +:+ " rejoined with different capabilities"
  | MemberCapacityReached max => "Consumer Group member capacity reached (" +:+ pretty max +:+ ")"
  | InvalidMemberCapacity => "max_group_members must be positive"
  | GroupFencingValue e => FencingValueError_fmt e
  end.

Definition CheckpointError_fmt (e : CheckpointError) : string :=
  match e with
  | ZeroEntityRevision entity => entity +:+ " checkpoint revision must be positive"
  | DuplicateNamespace id => "duplicate namespace " +:+ id +:+ " in checkpoint"
  | DuplicateTask id => "duplicate task " +:+ id +:+ " in checkpoint"
  | DuplicateConsumerGroup id => "duplicate Consumer Group " +:+ id +:+ " in checkpoint"
  | DuplicateMember id => "duplicate member " +:+ id +:+ " in checkpoint"
  | DuplicateActiveLease id => "duplicate active lease " +:+ id +:+ " in checkpoint"
  | UnknownNamespace entity id => entity +:+ " checkpoint references unknown namespace " +:+ id
  end.

Definition StateMachineError_fmt (e : StateMachineError) : string :=
  match e with
  | InvalidCapacity field => field +:+ " must be positive"
  | CapacityExceeded resource max => resource +:+ " capacity reached (" +:+ pretty max +:+ ")"
  | NamespaceNotFound id => "namespace " +:+ id +:+ " does not exist"
  | TaskConflict id => "task " +:+ id +:+ " already exists with different content"
  | TaskNotFound id => "task " +:+ id +:+ " does not exist"
  | LeaseIdConflict id => "lease ID " +:+ id +:+ " is already in use"
  | StaleTerm expected actual =>
      "Broker term is stale: expected " +:+ pretty expected +:+ ", actual " +:+ pretty actual
  | NewTermNotGreater current proposed =>
      "new Broker term " +:+ pretty proposed +:+ " must be greater than current term " +:+
      pretty current
  | TaskCountUnderflow id => "namespace " +:+ id +:+ " task count underflow during pruning"
  | TimestampOverflow => "timestamp arithmetic overflowed"
  | TaskTransition e => TaskTransitionError_fmt e
  | ConsumerGroupConflict id => "Consumer Group " +:+ id +:+ " belongs to another namespace"
  | ConsumerGroupNotFound id => "Consumer Group " +:+ id +:+ " does not exist"
  | ConsumerGroupTransition e => ConsumerGroupError_fmt e
  | FencingValue e => FencingValueError_fmt e
  end.

#[export] Instance IdentifierError_display : Display IdentifierError := IdentifierError_fmt.
#[export] Instance FencingValueError_display : Display FencingValueError := FencingValueError_fmt.
#[export] Instance TaskTextError_display : Display TaskTextError := TaskTextError_fmt.
#[export] Instance CapabilitiesError_display : Display CapabilitiesError := CapabilitiesError_fmt.
#[export] Instance TaskTransitionError_display : Display TaskTransitionError := TaskTransitionError_fmt.
#[export] Instance ConsumerGroupError_display : Display ConsumerGroupError := ConsumerGroupError_fmt.
#[export] Instance CheckpointError_display : Display CheckpointError := CheckpointError_fmt.
#[export] Instance StateMachineError_display : Display StateMachineError := StateMachineError_fmt.

(** * Application errors ([agent-broker-application/src/error.rs])

    The stable error codes of the protocol and their assignment to the errors of
    the state machine. *)

Inductive BrokerErrorCode :=
  | InvalidRequest | NotFound | Conflict | CodeCapacityExceeded | StaleFence
  | PersistenceError | TransportError | CommitOutcomeUnknown | InternalError.

Inductive BrokerErrorDisposition := DispCommitted | DispRejected | DispUnknown.

#[export] Instance BrokerErrorCode_eq_dec : EqDecision BrokerErrorCode.
Proof. solve_decision. Defined.
#[export] Instance BrokerErrorDisposition_eq_dec : EqDecision BrokerErrorDisposition.
Proof. solve_decision. Defined.

Definition code_as_str (c : BrokerErrorCode) : string :=
  match c with
  | InvalidRequest => "INVALID_REQUEST"
  | NotFound => "NOT_FOUND"
  | Conflict => "CONFLICT"
  | CodeCapacityExceeded => "CAPACITY_EXCEEDED"
  | StaleFence => "STALE_FENCE"
  | PersistenceError => "PERSISTENCE_ERROR"
  | TransportError => "TRANSPORT_ERROR"
  | CommitOutcomeUnknown => "COMMIT_OUTCOME_UNKNOWN"
  | InternalError => "INTERNAL_ERROR"
  end.

Definition disposition_as_str (d : BrokerErrorDisposition) : string :=
  match d with
  | DispCommitted => "COMMITTED"
  | DispRejected => "REJECTED"
  | DispUnknown => "UNKNOWN"
  end.

Record BrokerError := {
  be_code : BrokerErrorCode;
  be_message : string;
  be_disposition : BrokerErrorDisposition;
}.

#[export] Instance BrokerError_eq_dec : EqDecision BrokerError.
Proof. solve_decision. Defined.

Definition BrokerError_new (code : BrokerErrorCode) (message : string) : BrokerError :=
  {| be_code := code; be_message := message; be_disposition := DispUnknown |}.

Definition with_disposition (d : BrokerErrorDisposition) (e : BrokerError) : BrokerError :=
  {| be_code := be_code e; be_message := be_message e; be_disposition := d |}.

Definition consumer_group_error_code (e : ConsumerGroupError) : BrokerErrorCode :=
  match e with
  | StaleGeneration _ _ => StaleFence
  | MemberNotFound _ => NotFound
  | CapabilityConflict _ => Conflict
  | MemberCapacityReached _ => CodeCapacityExceeded
  | InvalidMemberCapacity => InvalidRequest
  | GroupFencingValue _ => InternalError
  end.

Definition task_transition_error_code (e : TaskTransitionError) : BrokerErrorCode :=
  match e with
  | NotQueued _ | TaskAlreadyCompleted => Conflict
  | NotLeased _ | StaleGroup | StaleOwner | TaskStaleGeneration | StaleLeaseEpoch
  | StaleLeaseId | LeaseExpired => StaleFence
  | TaskFencingValue _ => InternalError
  end.

Definition state_machine_error_code (e : StateMachineError) : BrokerErrorCode :=
  match e with
  | InvalidCapacity _ | TimestampOverflow => InvalidRequest
  | CapacityExceeded _ _ => CodeCapacityExceeded
  | NamespaceNotFound _ | TaskNotFound _ | ConsumerGroupNotFound _ => NotFound
  | TaskConflict _ | LeaseIdConflict _ | ConsumerGroupConflict _ => Conflict
  | StaleTerm _ _ | NewTermNotGreater _ _ => StaleFence
  | ConsumerGroupTransition e => consumer_group_error_code e
  | TaskTransition e => task_transition_error_code e
  | TaskCountUnderflow _ | FencingValue _ => InternalError
  end.

(** [From<StateMachineError> for BrokerError] *)
Definition from_state_machine_error (e : StateMachineError) : BrokerError :=
  BrokerError_new (state_machine_error_code e) (to_string e).
