(* ===== verification/Wire.v ===== *)
(** * Snapshot representation ([agent-broker-storage/src/snapshot_v1.rs])

    The records written to disk, the conversion of a checkpoint to them and the
    strict conversion back.  The JSON text of a record is produced and read by
    [serde_json], which is a parameter: the class [JsonCodec] names the calls
    and [JsonLaws] what the storage layer relies on. *)

From stdpp Require Import pretty.
From S2P Require Import Prelude Values Task Group Messages Machine Recovery Spec Invariant Effect.
From S2P Require Import Broker RecoveryProps Scenarios Valid Display.

Abbreviation bytes := (list Ascii.ascii) (only parsing).

Definition newline : Ascii.ascii := Ascii.ascii_of_N 10.

(** ** Errors ([error.rs]) *)

Inductive StorageError :=
  | InvalidFormat (message : string)
  | UnsupportedSchemaVersion (version : N)
  | RevisionGap (expected actual : Revision)
  | BackwardTerm (current incoming : Term)
  | EntityRevisionRollback (entity : string)
  | Checkpoint (e : CheckpointError)
  | Serialization (message : string).

Definition StorageError_fmt (e : StorageError) : string :=
  match e with
  | InvalidFormat message | Serialization message => message
  | UnsupportedSchemaVersion version =>
      "unsupported Broker storage schema version " +:+ pretty version
  | RevisionGap expected actual =>
      "journal revision gap: expected " +:+ pretty expected +:+ ", received " +:+ pretty actual
  | BackwardTerm current incoming =>
      "journal term moved backward: current " +:+ pretty current +:+ ", incoming " +:+
      pretty incoming
  | EntityRevisionRollback entity => entity +:+ " local revision moved backward during replay"
  | Checkpoint e => "invalid Broker checkpoint: " +:+ to_string e
  end.

#[export] Instance StorageError_display : Display StorageError := StorageError_fmt.

(** ** Records *)

Record NamespaceWire := { nw_namespace_id : string; nw_revision : N }.

Record MemberWire := {
  mw_capabilities : list string;
  mw_joined_at_ms : N;
  mw_last_heartbeat_at_ms : N;
  mw_member_id : string;
  mw_revision : N;
}.

Record GroupWire := {
  gw_generation : N;
  gw_group_id : string;
  gw_members : list MemberWire;
  gw_namespace_id : string;
  gw_revision : N;
}.

Record TaskWire := {
  tw_completed_at_ms : option N;
  tw_created_at_ms : N;
  tw_lease_epoch : N;
  tw_lease_expires_at_ms : option N;
  tw_lease_generation : option N;
  tw_lease_group_id : option string;
  tw_lease_id : option string;
  tw_lease_owner_member_id : option string;
  tw_namespace_id : string;
  tw_objective : string;
  tw_result : option string;
  tw_revision : N;
  tw_status : string;
  tw_task_id : string;
}.

Record SnapshotWire := {
  sw_groups : list GroupWire;
  sw_namespaces : list NamespaceWire;
  sw_revision : N;
  sw_schema_version : N;
  sw_tasks : list TaskWire;
  sw_term : N;
}.

(** The journal record of [journal_v1.rs]. *)
Record JournalMutationWire := {
  jw_deleted_tasks : list string;
  jw_groups : list GroupWire;
  jw_namespaces : list NamespaceWire;
  jw_revision : N;
  jw_schema_version : N;
  jw_tasks : list TaskWire;
  jw_term : N;
}.

Definition SCHEMA_VERSION : N := 1.

(** ** The JSON library *)

Class JsonCodec := {
  snapshot_to_vec : SnapshotWire → result bytes string;
  snapshot_from_slice : bytes → result SnapshotWire string;
  journal_to_vec : JournalMutationWire → result bytes string;
  journal_from_slice : bytes → result JournalMutationWire string;
  json_value : bytes → bool;
}.

(** Compact JSON of a record of plain fields: it can always be written, holds
    no line feed (control characters are escaped in strings), reads back as the
    same record also when white space follows, and is a JSON value. *)
Class JsonLaws `(J : JsonCodec) : Prop := {
  snapshot_json w : ∃ b, snapshot_to_vec w = Ok b ∧ snapshot_from_slice b = Ok w;
  journal_json w : ∃ b, journal_to_vec w = Ok b ∧ (newline ∉ b) ∧
    journal_from_slice (b ++ [newline]) = Ok w ∧ json_value (b ++ [newline]) = true;
}.

(** ** Conversion to records *)

Definition namespace_to_wire (n : NamespaceCheckpoint) : NamespaceWire :=
  {| nw_namespace_id := nck_namespace_id n; nw_revision := nck_revision n |}.

Definition member_to_wire (m : MemberCheckpoint) : MemberWire := {|
  mw_capabilities := mck_capabilities m;
  mw_joined_at_ms := mck_joined_at_ms m;
  mw_last_heartbeat_at_ms := mck_last_heartbeat_at_ms m;
  mw_member_id := mck_member_id m;
  mw_revision := mck_revision m;
|}.

Definition group_to_wire (g : ConsumerGroupCheckpoint) : GroupWire := {|
  gw_generation := gck_generation g;
  gw_group_id := gck_group_id g;
  gw_members := sort_by_key mw_member_id (member_to_wire <$> gck_members g);
  gw_namespace_id := gck_namespace_id g;
  gw_revision := gck_revision g;
|}.

Definition task_to_wire (t : TaskCheckpoint) : TaskWire :=
  match tck_state t with
  | CkQueued lease_epoch => {|
      tw_completed_at_ms := None; tw_created_at_ms := tck_created_at_ms t;
      tw_lease_epoch := lease_epoch; tw_lease_expires_at_ms := None;
      tw_lease_generation := None; tw_lease_group_id := None; tw_lease_id := None;
      tw_lease_owner_member_id := None; tw_namespace_id := tck_namespace_id t;
      tw_objective := tck_objective t; tw_result := None; tw_revision := tck_revision t;
      tw_status := "queued"; tw_task_id := tck_task_id t |}
  | CkLeased lease_id owner_member_id group_id generation lease_epoch expires_at_ms => {|
      tw_completed_at_ms := None; tw_created_at_ms := tck_created_at_ms t;
      tw_lease_epoch := lease_epoch; tw_lease_expires_at_ms := Some expires_at_ms;
      tw_lease_generation := Some generation; tw_lease_group_id := Some group_id;
      tw_lease_id := Some lease_id; tw_lease_owner_member_id := Some owner_member_id;
      tw_namespace_id := tck_namespace_id t; tw_objective := tck_objective t;
      tw_result := None; tw_revision := tck_revision t;
      tw_status := "leased"; tw_task_id := tck_task_id t |}
  | CkCompleted lease_id owner_member_id group_id generation lease_epoch res completed_at_ms => {|
      tw_completed_at_ms := Some completed_at_ms; tw_created_at_ms := tck_created_at_ms t;
      tw_lease_epoch := lease_epoch; tw_lease_expires_at_ms := None;
      tw_lease_generation := Some generation; tw_lease_group_id := Some group_id;
      tw_lease_id := Some lease_id; tw_lease_owner_member_id := Some owner_member_id;
      tw_namespace_id := tck_namespace_id t; tw_objective := tck_objective t;
      tw_result := Some res; tw_revision := tck_revision t;
      tw_status := "completed"; tw_task_id := tck_task_id t |}
  end.

Definition checkpoint_to_wire (ck : BrokerCheckpoint) : SnapshotWire := {|
  sw_groups := sort_by_key gw_group_id (group_to_wire <$> bck_groups ck);
  sw_namespaces := sort_by_key nw_namespace_id (namespace_to_wire <$> bck_namespaces ck);
  sw_revision := bck_revision ck;
  sw_schema_version := SCHEMA_VERSION;
  sw_tasks := sort_by_key tw_task_id (task_to_wire <$> bck_tasks ck);
  sw_term := bck_term ck;
|}.

(** ** Conversion from records *)

Definition invalid_value {A E} `{Display E} (field : string) (r : result A E) :
    result A StorageError :=
  map_err (λ e, InvalidFormat (field +:+ " is invalid: " +:+ to_string e)) r.

Definition positive_revision (value : N) (field : string) : result Revision StorageError :=
  if value =? 0 then Err (InvalidFormat (field +:+ " must be positive")) else Ok value.

(** [required_u64] and [required_string]. *)
Definition required {A} (value : option A) (field : string) : result A StorageError :=
  ok_or value (InvalidFormat (field +:+ " is required")).

Definition required_id {E} `{Display E} (value : option string) (field : string)
    (constructor : string → result string E) : result string StorageError :=
  let^ raw := required value field in invalid_value field (constructor raw).

Definition namespace_from_wire (w : NamespaceWire) : result NamespaceCheckpoint StorageError :=
  let^ id := invalid_value "namespace_id" (NamespaceId_new (nw_namespace_id w)) in
  let^ rev := positive_revision (nw_revision w) "namespace.revision" in
  Ok {| nck_namespace_id := id; nck_revision := rev |}.

Definition member_from_wire (w : MemberWire) : result MemberCheckpoint StorageError :=
  let^ id := invalid_value "member_id" (ConsumerId_new (mw_member_id w)) in
  let^ caps := invalid_value "member.capabilities" (Capabilities_new (mw_capabilities w)) in
  let^ rev := positive_revision (mw_revision w) "member.revision" in
  Ok {| mck_member_id := id; mck_capabilities := caps; mck_joined_at_ms := mw_joined_at_ms w;
        mck_last_heartbeat_at_ms := mw_last_heartbeat_at_ms w; mck_revision := rev |}.

Definition group_from_wire (w : GroupWire) : result ConsumerGroupCheckpoint StorageError :=
  let^ id := invalid_value "group_id" (ConsumerGroupId_new (gw_group_id w)) in
  let^ ns := invalid_value "group.namespace_id" (NamespaceId_new (gw_namespace_id w)) in
  let^ rev := positive_revision (gw_revision w) "group.revision" in
  let^ members := try_map member_from_wire (gw_members w) in
  Ok {| gck_group_id := id; gck_namespace_id := ns; gck_generation := gw_generation w;
        gck_revision := rev; gck_members := members |}.

Definition is_some {A} (o : option A) : bool := match o with Some _ => true | None => false end.

Definition require_queued_task_fields (w : TaskWire) : result unit StorageError :=
  if is_some (tw_lease_id w) || is_some (tw_lease_owner_member_id w) ||
     is_some (tw_lease_group_id w) || is_some (tw_lease_generation w) ||
     is_some (tw_lease_expires_at_ms w) || is_some (tw_completed_at_ms w) ||
     is_some (tw_result w)
  then Err (InvalidFormat "queued task contains lease/completion fields") else Ok tt.

Definition require_leased_task_fields (w : TaskWire) : result unit StorageError :=
  if is_some (tw_result w) || is_some (tw_completed_at_ms w)
  then Err (InvalidFormat "leased task contains completion-only fields") else Ok tt.

(** The rendering of the unknown status in the last message is left out. *)
Definition task_state_from_wire (w : TaskWire) : result TaskCheckpointState StorageError :=
  let lease_epoch := tw_lease_epoch w in
  if decide (tw_status w = "queued") then
    let^ _ := require_queued_task_fields w in Ok (CkQueued lease_epoch)
  else if decide (tw_status w = "leased") then
    let^ _ := require_leased_task_fields w in
    let^ lease_id := required_id (tw_lease_id w) "task.lease_id" LeaseId_new in
    let^ owner := required_id (tw_lease_owner_member_id w) "task.lease_owner_member_id"
                    ConsumerId_new in
    let^ group_id := required_id (tw_lease_group_id w) "task.lease_group_id"
                       ConsumerGroupId_new in
    let^ generation := required (tw_lease_generation w) "task.lease_generation" in
    let^ expires := required (tw_lease_expires_at_ms w) "task.lease_expires_at_ms" in
    Ok (CkLeased lease_id owner group_id generation lease_epoch expires)
  else if decide (tw_status w = "completed") then
    if is_some (tw_lease_expires_at_ms w)
    then Err (InvalidFormat "completed task must not retain lease_expires_at_ms") else
    let^ lease_id := required_id (tw_lease_id w) "task.lease_id" LeaseId_new in
    let^ owner := required_id (tw_lease_owner_member_id w) "task.lease_owner_member_id"
                    ConsumerId_new in
    let^ group_id := required_id (tw_lease_group_id w) "task.lease_group_id"
                       ConsumerGroupId_new in
    let^ generation := required (tw_lease_generation w) "task.lease_generation" in
    let^ raw := required (tw_result w) "task.result" in
    let^ res := invalid_value "task.result" (TaskResult_new raw) in
    let^ completed := required (tw_completed_at_ms w) "task.completed_at_ms" in
    Ok (CkCompleted lease_id owner group_id generation lease_epoch res completed)
  else Err (InvalidFormat "unknown task status").

Definition task_from_wire (w : TaskWire) : result TaskCheckpoint StorageError :=
  let^ state := task_state_from_wire w in
  let^ id := invalid_value "task_id" (TaskId_new (tw_task_id w)) in
  let^ ns := invalid_value "task.namespace_id" (NamespaceId_new (tw_namespace_id w)) in
  let^ objective := invalid_value "task.objective" (TaskObjective_new (tw_objective w)) in
  let^ rev := positive_revision (tw_revision w) "task.revision" in
  Ok {| tck_task_id := id; tck_namespace_id := ns; tck_objective := objective;
        tck_created_at_ms := tw_created_at_ms w; tck_revision := rev; tck_state := state |}.

Definition snapshot_from_wire (w : SnapshotWire) : result BrokerCheckpoint StorageError :=
  if negb (sw_schema_version w =? SCHEMA_VERSION)
  then Err (UnsupportedSchemaVersion (sw_schema_version w)) else
  let^ term := invalid_value "term" (Term_new (sw_term w)) in
  let^ namespaces := try_map namespace_from_wire (sw_namespaces w) in
  let^ tasks := try_map task_from_wire (sw_tasks w) in
  let^ groups := try_map group_from_wire (sw_groups w) in
  let ck := {| bck_term := term; bck_revision := sw_revision w; bck_namespaces := namespaces;
               bck_tasks := tasks; bck_groups := groups |} in
  let^ _ := map_err Checkpoint (from_checkpoint ck) in
  Ok ck.

(** ** Encoding and decoding *)

Definition encode_snapshot `{JsonCodec} (ck : BrokerCheckpoint) : result bytes StorageError :=
  map_err Serialization (snapshot_to_vec (checkpoint_to_wire ck)).

Definition decode_snapshot `{JsonCodec} (b : bytes) : result BrokerCheckpoint StorageError :=
  let^ w := map_err (λ e, InvalidFormat ("invalid Broker snapshot JSON: " +:+ e))
             (snapshot_from_slice b) in
  snapshot_from_wire w.

(** * Snapshots read back

    Writing the checkpoint of a well-formed state and reading the text gives
    the checkpoint. *)

Lemma valid_id_new kind s : valid_id s → identifier_new kind s = Ok s.
Proof.
  unfold valid_id. intros Hv%validate_identifier_ok. unfold identifier_new.
  by rewrite (proj2 (validate_identifier_ok s kind) Hv).
Qed.

Lemma positive_revision_ok r field : 0 < r → positive_revision r field = Ok r.
Proof. intros Hr. unfold positive_revision. rewrite (proj2 (N.eqb_neq _ _)); [done|lia]. Qed.

(** Reads of required fields that are there and valid. *)
Lemma required_id_new kind field s :
  valid_id s → required_id (Some s) field (identifier_new kind) = Ok s.
Proof. intros Hs. unfold required_id. simpl. by rewrite valid_id_new. Qed.

Ltac read_ids :=
  unfold NamespaceId_new, TaskId_new, ConsumerGroupId_new, ConsumerId_new, LeaseId_new;
  rewrite ?valid_id_new, ?required_id_new by done; simpl.

Lemma namespace_wire n :
  valid_id (n_id n) → 0 < n_revision n →
  namespace_from_wire (namespace_to_wire (Namespace_checkpoint n)) = Ok (Namespace_checkpoint n).
Proof.
  intros Hid Hr. unfold namespace_from_wire. simpl. read_ids. by rewrite positive_revision_ok.
Qed.

Lemma member_wire c :
  valid_consumer c → 0 < c_revision c →
  member_from_wire (member_to_wire (Consumer_checkpoint c)) = Ok (Consumer_checkpoint c).
Proof.
  intros [Hid Hc] Hr. unfold member_from_wire. simpl. read_ids. rewrite Hc. simpl.
  by rewrite positive_revision_ok.
Qed.

Lemma group_wire g :
  valid_group g → group_ok g →
  group_from_wire (group_to_wire (Group_checkpoint g)) = Ok (Group_checkpoint g).
Proof.
  intros (Hid & Hns & Hv & _) Hok. unfold group_from_wire. simpl. read_ids.
  rewrite positive_revision_ok by apply Hok.
  rewrite sort_by_key_id; rewrite <-list_fmap_compose.
  - rewrite (try_map_fmap _ _ Consumer_checkpoint); [done|].
    intros c [id Hc]%elem_of_bmap_values. apply member_wire; [by eapply Hv|].
    by apply (proj2 Hok) in Hc as (_ & ? & _).
  - rewrite <-list_fmap_compose. apply (bmap_values_sorted c_id). by apply group_ok_keyed.
Qed.

Lemma task_wire_id t : tw_task_id (task_to_wire (Task_checkpoint t)) = t_id t.
Proof. unfold task_to_wire, Task_checkpoint. simpl. by destruct (t_state t). Qed.

Lemma task_wire t :
  valid_task t → 0 < t_revision t →
  task_from_wire (task_to_wire (Task_checkpoint t)) = Ok (Task_checkpoint t).
Proof.
  intros (Hid & Hns & Hobj & Hst) Hr. unfold task_from_wire, task_to_wire, Task_checkpoint. simpl.
  destruct (t_state t) as [q|l|c]; simpl in *; unfold task_state_from_wire; simpl.
  - read_ids. by rewrite Hobj, positive_revision_ok.
  - destruct Hst as (? & ? & ?). read_ids. by rewrite Hobj, positive_revision_ok.
  - destruct Hst as (? & ? & ? & Hres). read_ids. rewrite Hres. simpl. read_ids.
    by rewrite Hobj, positive_revision_ok.
Qed.

Lemma checkpoint_wire s :
  StateInv s → valid_state s →
  snapshot_from_wire (checkpoint_to_wire (BrokerState_checkpoint s)) = Ok (BrokerState_checkpoint s).
Proof.
  intros Hs Hv. destruct (recover s Hs) as (m & Hm & _).
  unfold snapshot_from_wire. simpl. unfold Term_new.
  rewrite (proj2 (N.eqb_neq _ _)) by (pose proof (si_term _ Hs); lia). simpl.
  rewrite !sort_by_key_id; rewrite <-!list_fmap_compose.
  - rewrite (try_map_fmap _ _ Namespace_checkpoint), (try_map_fmap _ _ Task_checkpoint),
      (try_map_fmap _ _ Group_checkpoint).
    + unfold BrokerState_checkpoint in Hm. by rewrite Hm.
    + intros g [id Hg]%elem_of_bmap_values.
      apply group_wire; [by apply (vs_groups _ Hv id)|by apply (si_groups _ Hs) in Hg as (_ & ? & _)].
    + intros t [id Ht]%elem_of_bmap_values.
      apply task_wire; [by apply (vs_tasks _ Hv id)|by apply (si_tasks _ Hs) in Ht as (_ & ? & _)].
    + intros n [id Hn]%elem_of_bmap_values.
      apply namespace_wire; [by apply (vs_namespaces _ Hv id)|by apply (si_namespaces _ Hs) in Hn as [_ ?]].
  - apply (bmap_values_sorted g_id).
    intros id g Hg. by apply (si_groups _ Hs) in Hg as [? _].
  - rewrite (list_fmap_ext _ t_id) by (intros i t _; apply task_wire_id).
    apply (bmap_values_sorted t_id). intros id t Ht. by apply (si_tasks _ Hs) in Ht as [? _].
  - apply (bmap_values_sorted n_id).
    intros id n Hn. by apply (si_namespaces _ Hs) in Hn as [? _].
Qed.

Lemma snapshot_reads_back `{JsonLaws} s :
  StateInv s → valid_state s →
  ∃ b, encode_snapshot (BrokerState_checkpoint s) = Ok b ∧
       decode_snapshot b = Ok (BrokerState_checkpoint s).
Proof.
  intros Hs Hv. destruct (snapshot_json (checkpoint_to_wire (BrokerState_checkpoint s)))
    as (b & Hb & Hr). exists b. unfold encode_snapshot, decode_snapshot.
  rewrite Hb, Hr. split; [done|]. by apply checkpoint_wire.
Qed.

(** ** A codec that satisfies the laws

    The storage theorems hold for every codec with the laws of [JsonLaws].
    This one writes a record as a line of binary digits; it shows that the laws
    can hold and lets concrete runs of the storage layer be evaluated. *)

#[export] Instance NamespaceWire_eq_dec : EqDecision NamespaceWire.
Proof. solve_decision. Defined.
#[export] Instance MemberWire_eq_dec : EqDecision MemberWire.
Proof. solve_decision. Defined.
#[export] Instance GroupWire_eq_dec : EqDecision GroupWire.
Proof. solve_decision. Defined.
#[export] Instance TaskWire_eq_dec : EqDecision TaskWire.
Proof. solve_decision. Defined.
#[export] Instance SnapshotWire_eq_dec : EqDecision SnapshotWire.
Proof. solve_decision. Defined.
#[export] Instance JournalMutationWire_eq_dec : EqDecision JournalMutationWire.
Proof. solve_decision. Defined.

#[export] Instance NamespaceWire_countable : Countable NamespaceWire.
Proof.
  refine (inj_countable' (λ w, (nw_namespace_id w, nw_revision w))
    (λ '(a, b), {| nw_namespace_id := a; nw_revision := b |}) _). by intros [].
Defined.

#[export] Instance MemberWire_countable : Countable MemberWire.
Proof.
  refine (inj_countable' (λ w, (mw_capabilities w, mw_joined_at_ms w, mw_last_heartbeat_at_ms w,
      mw_member_id w, mw_revision w))
    (λ '(a, b, c, d, e), {| mw_capabilities := a; mw_joined_at_ms := b;
       mw_last_heartbeat_at_ms := c; mw_member_id := d; mw_revision := e |}) _). by intros [].
Defined.

#[export] Instance GroupWire_countable : Countable GroupWire.
Proof.
  refine (inj_countable' (λ w, (gw_generation w, gw_group_id w, gw_members w, gw_namespace_id w,
      gw_revision w))
    (λ '(a, b, c, d, e), {| gw_generation := a; gw_group_id := b; gw_members := c;
       gw_namespace_id := d; gw_revision := e |}) _). by intros [].
Defined.

#[export] Instance TaskWire_countable : Countable TaskWire.
Proof.
  refine (inj_countable' (λ w, (tw_completed_at_ms w, tw_created_at_ms w, tw_lease_epoch w,
      tw_lease_expires_at_ms w, tw_lease_generation w, tw_lease_group_id w, tw_lease_id w,
      (tw_lease_owner_member_id w, tw_namespace_id w, tw_objective w, tw_result w, tw_revision w,
       tw_status w, tw_task_id w)))
    (λ '(a, b, c, d, e, f, g, (h, i, j, k, l, m, n)), {| tw_completed_at_ms := a;
       tw_created_at_ms := b; tw_lease_epoch := c; tw_lease_expires_at_ms := d;
       tw_lease_generation := e; tw_lease_group_id := f; tw_lease_id := g;
       tw_lease_owner_member_id := h; tw_namespace_id := i; tw_objective := j; tw_result := k;
       tw_revision := l; tw_status := m; tw_task_id := n |}) _). by intros [].
Defined.

#[export] Instance SnapshotWire_countable : Countable SnapshotWire.
Proof.
  refine (inj_countable' (λ w, (sw_groups w, sw_namespaces w, sw_revision w, sw_schema_version w,
      sw_tasks w, sw_term w))
    (λ '(a, b, c, d, e, f), {| sw_groups := a; sw_namespaces := b; sw_revision := c;
       sw_schema_version := d; sw_tasks := e; sw_term := f |}) _). by intros [].
Defined.

#[export] Instance JournalMutationWire_countable : Countable JournalMutationWire.
Proof.
  refine (inj_countable' (λ w, (jw_deleted_tasks w, jw_groups w, jw_namespaces w, jw_revision w,
      jw_schema_version w, jw_tasks w, jw_term w))
    (λ '(a, b, c, d, e, f, g), {| jw_deleted_tasks := a; jw_groups := b; jw_namespaces := c;
       jw_revision := d; jw_schema_version := e; jw_tasks := f; jw_term := g |}) _). by intros [].
Defined.

(** ** Digits *)

Definition space : Ascii.ascii := Ascii.ascii_of_N 32.

Definition digit (b : bool) : Ascii.ascii := if b then Ascii.ascii_of_N 49 else Ascii.ascii_of_N 48.

Fixpoint digits (p : positive) : bytes :=
  match p with
  | xH => []
  | xO p => digit false :: digits p
  | xI p => digit true :: digits p
  end.

Fixpoint undigits (b : bytes) : option positive :=
  match b with
  | [] => Some xH
  | c :: b =>
      if decide (c = digit false) then xO <$> undigits b
      else if decide (c = digit true) then xI <$> undigits b
      else if decide (c = newline ∨ c = space) then undigits b else None
  end.

Lemma undigits_digits p rest : undigits rest = Some xH → undigits (digits p ++ rest) = Some p.
Proof. intros Hr. induction p; simpl; [by rewrite IHp..|done]. Qed.

Lemma newline_digits p : newline ∉ digits p.
Proof.
  induction p as [p IH|p IH|]; simpl; [..|apply not_elem_of_nil];
    by apply not_elem_of_cons.
Qed.

#[export] Instance digit_codec : JsonCodec := {|
  snapshot_to_vec w := Ok (digits (encode w));
  snapshot_from_slice b := ok_or (undigits b ≫= decode) "not a record";
  journal_to_vec w := Ok (digits (encode w));
  journal_from_slice b := ok_or (undigits b ≫= decode) "not a record";
  json_value b := match undigits b with Some _ => true | None => false end;
|}.

#[export] Instance digit_laws : JsonLaws digit_codec.
Proof.
  split; intros w; exists (digits (encode w)); simpl.
  - split; [done|]. rewrite <-(app_nil_r (digits _)), undigits_digits by done.
    simpl. by rewrite decode_encode.
  - rewrite !undigits_digits by done. simpl. rewrite decode_encode.
    split_and!; [done|apply newline_digits|done..].
Qed.
