(* ===== verification/Journal.v ===== *)
(** * Journal records ([agent-broker-storage/src/journal_v1.rs])

    A change set is written as one record that holds the new value of every
    changed entity; replay applies a record to a checkpoint all or nothing. *)

From S2P Require Import Prelude Values Task Group Messages Machine Recovery Spec Invariant Effect.
From S2P Require Import Broker RecoveryProps Changes Scenarios Valid Display Wire.

Record JournalMutation := {
  jm_term : Term;
  jm_revision : Revision;
  jm_namespaces : list NamespaceCheckpoint;
  jm_tasks : list TaskCheckpoint;
  jm_deleted_tasks : list TaskId;
  jm_groups : list ConsumerGroupCheckpoint;
}.

(** ** Encoding *)

Definition missing_changed_entity (entity : string) : StorageError :=
  InvalidFormat ("changed " +:+ entity +:+ " is absent from authoritative state").

(** Some task is both updated and deleted. *)
Definition overlaps (updated deleted : list TaskId) : bool :=
  existsb (λ id, bool_decide (id ∈ (list_to_set updated : gset TaskId))) deleted.

Definition mutation_to_wire (s : BrokerState) (changes : StateChangeSet) :
    result JournalMutationWire StorageError :=
  if overlaps (sc_tasks changes) (sc_deleted_tasks changes)
  then Err (InvalidFormat "journal mutation cannot update and delete the same task") else
  let^ namespaces := try_map (λ id,
    ok_or (namespace_to_wire ∘ Namespace_checkpoint <$> s_namespaces s !! id)
      (missing_changed_entity "namespace")) (sc_namespaces changes) in
  let^ tasks := try_map (λ id,
    ok_or (task_to_wire ∘ Task_checkpoint <$> s_tasks s !! id)
      (missing_changed_entity "task")) (sc_tasks changes) in
  let^ groups := try_map (λ id,
    ok_or (group_to_wire ∘ Group_checkpoint <$> s_groups s !! id)
      (missing_changed_entity "Consumer Group")) (sc_groups changes) in
  Ok {| jw_deleted_tasks := sort_by_key id (sc_deleted_tasks changes);
        jw_groups := sort_by_key gw_group_id groups;
        jw_namespaces := sort_by_key nw_namespace_id namespaces;
        jw_revision := s_revision s;
        jw_schema_version := SCHEMA_VERSION;
        jw_tasks := sort_by_key tw_task_id tasks;
        jw_term := s_term s |}.

Definition encode_journal_mutation `{JsonCodec} (s : BrokerState) (changes : StateChangeSet) :
    result bytes StorageError :=
  let^ w := mutation_to_wire s changes in
  let^ encoded := map_err Serialization (journal_to_vec w) in
  Ok (encoded ++ [newline])%list.

(** ** Decoding *)

Definition mutation_from_wire (w : JournalMutationWire) : result JournalMutation StorageError :=
  if negb (jw_schema_version w =? SCHEMA_VERSION)
  then Err (UnsupportedSchemaVersion (jw_schema_version w)) else
  if jw_revision w =? 0 then Err (InvalidFormat "journal revision must be positive") else
  let^ deleted := try_map (λ id, invalid_value "deleted task ID" (TaskId_new id))
                    (jw_deleted_tasks w) in
  let^ tasks := try_map task_from_wire (jw_tasks w) in
  if overlaps (tck_task_id <$> tasks) deleted
  then Err (InvalidFormat "journal record updates and deletes the same task") else
  let^ term := invalid_value "term" (Term_new (jw_term w)) in
  let^ namespaces := try_map namespace_from_wire (jw_namespaces w) in
  let^ groups := try_map group_from_wire (jw_groups w) in
  Ok {| jm_term := term; jm_revision := jw_revision w; jm_namespaces := namespaces;
        jm_tasks := tasks; jm_deleted_tasks := deleted; jm_groups := groups |}.

Definition decode_journal_mutation `{JsonCodec} (b : bytes) : result JournalMutation StorageError :=
  let^ w := map_err (λ e, InvalidFormat ("invalid journal record JSON: " +:+ e))
             (journal_from_slice b) in
  mutation_from_wire w.

(** ** Replay *)

Definition ensure_local_revision (entity : string) (current incoming : Revision) :
    result unit StorageError :=
  if incoming <? current then Err (EntityRevisionRollback entity) else Ok tt.

(** Replace the first value with the key of [incoming], or append it. *)
Fixpoint upsert {A} (entity : string) (key : A → string) (rev : A → Revision)
    (values : list A) (incoming : A) : result (list A) StorageError :=
  match values with
  | [] => Ok [incoming]
  | existing :: values =>
      if decide (key existing = key incoming) then
        let^ _ := ensure_local_revision entity (rev existing) (rev incoming) in
        Ok (incoming :: values)
      else
        let^ values := upsert entity key rev values incoming in
        Ok (existing :: values)
  end.

Definition upsert_namespace := upsert "namespace" nck_namespace_id nck_revision.
Definition upsert_group := upsert "Consumer Group" gck_group_id gck_revision.
Definition upsert_task := upsert "task" tck_task_id tck_revision.

(** [for x in incoming { upsert(&mut values, x)?; }] *)
Fixpoint upsert_all {A} (up : list A → A → result (list A) StorageError)
    (values incoming : list A) : result (list A) StorageError :=
  match incoming with
  | [] => Ok values
  | x :: incoming => let^ values := up values x in upsert_all up values incoming
  end.

Definition sort_members (g : ConsumerGroupCheckpoint) : ConsumerGroupCheckpoint := {|
  gck_group_id := gck_group_id g; gck_namespace_id := gck_namespace_id g;
  gck_generation := gck_generation g; gck_revision := gck_revision g;
  gck_members := sort_by_key mck_member_id (gck_members g);
|}.

Definition sort_checkpoint (ck : BrokerCheckpoint) : BrokerCheckpoint := {|
  bck_term := bck_term ck;
  bck_revision := bck_revision ck;
  bck_namespaces := sort_by_key nck_namespace_id (bck_namespaces ck);
  bck_tasks := sort_by_key tck_task_id (bck_tasks ck);
  bck_groups := sort_members <$> sort_by_key gck_group_id (bck_groups ck);
|}.

(** The checkpoint a record leads to, before it is validated. *)
Definition mutated_checkpoint (ck : BrokerCheckpoint) (mutation : JournalMutation) :
    result BrokerCheckpoint StorageError :=
  let^ namespaces := upsert_all upsert_namespace (bck_namespaces ck) (jm_namespaces mutation) in
  let^ groups := upsert_all upsert_group (bck_groups ck) (jm_groups mutation) in
  let^ tasks := upsert_all upsert_task (bck_tasks ck) (jm_tasks mutation) in
  let deleted : gset TaskId := list_to_set (jm_deleted_tasks mutation) in
  Ok (sort_checkpoint {|
    bck_term := jm_term mutation; bck_revision := jm_revision mutation;
    bck_namespaces := namespaces;
    bck_tasks := filter (λ t, tck_task_id t ∉ deleted) tasks;
    bck_groups := groups |}).

Definition apply_journal_mutation (mutation : JournalMutation) (ck : BrokerCheckpoint) :
    result bool StorageError * BrokerCheckpoint :=
  if jm_revision mutation <=? bck_revision ck then (Ok false, ck) else
  let? expected := map_err (λ e, InvalidFormat (to_string e))
                     (Revision_next (bck_revision ck)) else ck in
  if negb (jm_revision mutation =? expected)
  then (Err (RevisionGap expected (jm_revision mutation)), ck) else
  if jm_term mutation <? bck_term ck
  then (Err (BackwardTerm (bck_term ck) (jm_term mutation)), ck) else
  let? candidate := mutated_checkpoint ck mutation else ck in
  let? _ := map_err Checkpoint (from_checkpoint candidate) else ck in
  (Ok true, candidate).

(** * Journal records carry the change

    Replaying the record written for one command on the checkpoint of the state
    before it gives the checkpoint of the state after it. *)

(** ** Sequences without repeated keys *)

Lemma NoDup_key_inj {A K} (key : A → K) l x y :
  NoDup (key <$> l) → x ∈ l → y ∈ l → key x = key y → x = y.
Proof.
  intros Hnd [i Hi]%list_elem_of_lookup [j Hj]%list_elem_of_lookup Hk.
  assert (i = j); [|congruence].
  apply (NoDup_lookup (key <$> l) i j (key x)); [done|..];
    rewrite list_lookup_fmap, ?Hi, ?Hj; simpl; congruence.
Qed.

Lemma NoDup_fmap_filter {A K} (key : A → K) (P : A → Prop) `{∀ x, Decision (P x)} l :
  NoDup (key <$> l) → NoDup (key <$> filter P l).
Proof.
  induction l as [|x l IH]; [done|]. rewrite fmap_cons, NoDup_cons, filter_cons. intros [Hx Hnd].
  case_decide; [|auto]. rewrite fmap_cons, NoDup_cons. split; [|auto].
  intros (y & Hy & [_ Hin]%list_elem_of_filter)%list_elem_of_fmap. apply Hx. rewrite Hy.
  by apply list_elem_of_fmap_2.
Qed.

Lemma sort_by_key_unique {A} `{Ord K} (key : A → K) (l k : list A) :
  NoDup (key <$> l) → NoDup (key <$> k) → (∀ x, x ∈ l ↔ x ∈ k) → sorted (key <$> k) →
  sort_by_key key l = k.
Proof.
  intros Hl Hk Hlk Hs.
  assert (l ≡ₚ k) as Hp by (apply NoDup_Permutation; [by eapply NoDup_fmap_1..|done]).
  assert (∀ l : list A, sorted (key <$> l) → StronglySorted (λ x y, ole (key x) (key y)) l) as Hss.
  { clear. induction l as [|x l IH]; [constructor|]. rewrite fmap_cons. intros [Hx Hs]%sorted_cons_iff.
    constructor; [auto|]. apply Forall_forall. intros y Hy. apply Hx. by apply list_elem_of_fmap_2. }
  eapply StronglySorted_unique_strong; [|by apply Hss, sort_by_key_sorted|by apply Hss|].
  - intros x y Hx Hy Hxy Hyx. rewrite sort_by_key_perm, Hp in Hx.
    eapply (NoDup_key_inj key); [exact Hk|done..|]. by apply ole_antisym.
  - by rewrite sort_by_key_perm.
Qed.

(** ** Upserts *)

Section upsert.
Context {A : Type} (entity : string) (key : A → string) (rev : A → Revision).

Lemma upsert_spec l x :
  NoDup (key <$> l) → (∀ y, y ∈ l → key y = key x → rev y ≤ rev x) →
  ∃ l', upsert entity key rev l x = Ok l' ∧ NoDup (key <$> l') ∧
    ∀ y, y ∈ l' ↔ y = x ∨ (y ∈ l ∧ key y ≠ key x).
Proof.
  induction l as [|z l IH]; intros Hnd Hrev; simpl.
  { exists [x]. split_and!; [done|apply NoDup_singleton|]. intros y.
    rewrite list_elem_of_singleton. set_solver. }
  rewrite fmap_cons in Hnd. apply NoDup_cons in Hnd as [Hz Hnd]. case_decide as Hk.
  - unfold ensure_local_revision. rewrite (proj2 (N.ltb_ge _ _)) by (apply Hrev; [by left|done]).
    eexists. split_and!; [done|rewrite fmap_cons; constructor; [by rewrite <-Hk|done]|].
    intros y. rewrite !elem_of_cons. split; [intros [->|Hy]; [by left|right]|].
    + split; [by right|]. intros Hy'. apply Hz. rewrite Hk, <-Hy'. by apply list_elem_of_fmap_2.
    + intros [->|[[->|Hy] Hne]]; [by left|done|by right].
  - destruct IH as (l' & -> & Hnd' & Hl'); [done|intros; apply Hrev; [by right|done]|].
    eexists. split_and!; [done| |].
    + rewrite fmap_cons. constructor; [|done]. intros (y & Hy & [->|[Hin _]]%Hl')%list_elem_of_fmap;
        [done|]. apply Hz. rewrite Hy. by apply list_elem_of_fmap_2.
    + intros y. rewrite !elem_of_cons, Hl'. split; [intros [->|[->|[]]]; eauto|].
      intros [->|[[->|]]]; eauto.
Qed.

Lemma upsert_all_spec incoming l :
  NoDup (key <$> l) → NoDup (key <$> incoming) →
  (∀ x y, x ∈ incoming → y ∈ l → key y = key x → rev y ≤ rev x) →
  ∃ l', upsert_all (upsert entity key rev) l incoming = Ok l' ∧ NoDup (key <$> l') ∧
    ∀ y, y ∈ l' ↔ y ∈ incoming ∨ (y ∈ l ∧ key y ∉ key <$> incoming).
Proof.
  revert l. induction incoming as [|x incoming IH]; intros l Hnd Hni Hrev.
  { exists l. split_and!; [done..|]. set_solver. }
  rewrite fmap_cons in Hni. apply NoDup_cons in Hni as [Hx Hni].
  destruct (upsert_spec l x) as (l1 & E1 & Hnd1 & Hl1); [done|intros; eapply Hrev; [by left|done..]|].
  destruct (IH l1) as (l2 & E2 & Hnd2 & Hl2); [done|done| |].
  { intros z y Hz [->|[Hy _]]%Hl1 Hk; [|eapply Hrev; [by right|done..]].
    destruct Hx. rewrite Hk. by apply list_elem_of_fmap_2. }
  exists l2. cbn [upsert_all]. rewrite E1. split_and!; [done..|]. intros y.
  rewrite Hl2, Hl1, elem_of_cons, fmap_cons, not_elem_of_cons. split.
  - intros [Hy|[[->|[Hy Hne]] Hni']]; auto.
  - intros [[->|Hy]|[Hy [Hne Hni']]]; auto 6.
Qed.
End upsert.

(** ** Replaying the changes of one map *)

Lemma elem_of_diff_deleted {V} (old new : gmap string V) k :
  k ∈ diff_deleted old new ↔ is_Some (old !! k) ∧ new !! k = None.
Proof. unfold diff_deleted. by rewrite elem_of_difference, elem_of_dom, not_elem_of_dom. Qed.

Section replay_map.
Context {V C : Type} `{EqDecision V} (ck : V → C) (entity : string) (key : C → string)
  (rev : C → Revision) (old new : gmap string V).
Hypothesis Hold : map_Forall (λ k v, key (ck v) = k) old.
Hypothesis Hnew : map_Forall (λ k v, key (ck v) = k) new.
Hypothesis Hrev : ∀ k v v', old !! k = Some v → new !! k = Some v' → rev (ck v) ≤ rev (ck v').

(** The new values of the changed keys, in key order. *)
Definition changed_values : list V := omap (λ k, new !! k) (bset_iter (diff_changed old new)).

Lemma elem_of_diff_changed k :
  k ∈ diff_changed old new ↔ ∃ v, new !! k = Some v ∧ old !! k ≠ Some v.
Proof.
  unfold diff_changed. rewrite elem_of_dom. unfold is_Some. by setoid_rewrite map_lookup_filter_Some.
Qed.

Lemma keys_of_values m : map_Forall (λ k v, key (ck v) = k) m →
  key <$> (ck <$> bmap_values m) = bmap_keys m.
Proof. intros Hm. rewrite <-list_fmap_compose. by apply bmap_values_keys. Qed.

Lemma keys_of_changed : key <$> (ck <$> changed_values) = bset_iter (diff_changed old new).
Proof.
  unfold changed_values.
  assert (Forall (λ k, ∃ v, new !! k = Some v) (bset_iter (diff_changed old new))) as Hall.
  { apply Forall_forall. intros k. rewrite elem_of_bset_iter, elem_of_diff_changed. naive_solver. }
  induction Hall as [|k l [v Hv] _ IH]; simpl; [done|]. rewrite Hv. simpl. f_equal; [|done].
  by apply Hnew.
Qed.

Lemma elem_of_changed_values v :
  v ∈ changed_values ↔ ∃ k, new !! k = Some v ∧ k ∈ diff_changed old new.
Proof.
  unfold changed_values. rewrite list_elem_of_omap. setoid_rewrite elem_of_bset_iter. naive_solver.
Qed.

Lemma replay_elem c :
  (c ∈ ck <$> changed_values ∨
   (c ∈ ck <$> bmap_values old ∧ key c ∉ key <$> (ck <$> changed_values))) ∧
  key c ∉ diff_deleted old new ↔ c ∈ ck <$> bmap_values new.
Proof.
  rewrite keys_of_changed, elem_of_bset_iter. unfold diff_deleted.
  rewrite not_elem_of_difference, not_elem_of_dom, elem_of_dom. split.
  - intros [[(v & -> & (k & Hk & _)%elem_of_changed_values)%list_elem_of_fmap|
             [(v & -> & [k Hk]%elem_of_bmap_values)%list_elem_of_fmap Hch]] Hdel].
    + apply list_elem_of_fmap_2, elem_of_bmap_values. eauto.
    + rewrite (Hold k v Hk) in *. destruct Hdel as [|[v' Hv']]; [congruence|].
      destruct (decide (v = v')) as [->|Hne]; [apply list_elem_of_fmap_2, elem_of_bmap_values; eauto|].
      destruct Hch. apply elem_of_diff_changed. exists v'. split; [done|congruence].
  - intros (v & -> & [k Hk]%elem_of_bmap_values)%list_elem_of_fmap. rewrite (Hnew k v Hk).
    split; [|eauto]. destruct (decide (k ∈ diff_changed old new)) as [Hch|Hch].
    + left. apply list_elem_of_fmap_2, elem_of_changed_values. eauto.
    + right. split; [|done]. apply list_elem_of_fmap_2, elem_of_bmap_values. exists k.
      destruct (decide (old !! k = Some v)); [done|]. destruct Hch. apply elem_of_diff_changed. eauto.
Qed.

Lemma replay_upserts :
  ∃ l, upsert_all (upsert entity key rev) (ck <$> bmap_values old) (ck <$> changed_values) = Ok l ∧
    sort_by_key key (filter (λ c, key c ∉ diff_deleted old new) l) = ck <$> bmap_values new.
Proof.
  destruct (upsert_all_spec entity key rev (ck <$> changed_values) (ck <$> bmap_values old))
    as (l & Hl & Hnd & Hin).
  - rewrite keys_of_values by done. apply bset_iter_nodup.
  - rewrite keys_of_changed. apply bset_iter_nodup.
  - intros x y (v' & -> & (k & Hk & _)%elem_of_changed_values)%list_elem_of_fmap.
    intros (v & -> & [k' Hk']%elem_of_bmap_values)%list_elem_of_fmap.
    rewrite (Hold _ _ Hk'), (Hnew _ _ Hk). intros ->. eauto.
  - exists l. split; [done|]. apply sort_by_key_unique.
    + by apply NoDup_fmap_filter.
    + rewrite keys_of_values by done. apply bset_iter_nodup.
    + intros c. rewrite list_elem_of_filter, Hin, <-replay_elem. tauto.
    + rewrite keys_of_values by done. apply bset_iter_sorted.
Qed.

(** When no key disappears nothing has to be filtered out. *)
Lemma replay_upserts_all :
  (∀ k, is_Some (old !! k) → is_Some (new !! k)) →
  ∃ l, upsert_all (upsert entity key rev) (ck <$> bmap_values old) (ck <$> changed_values) = Ok l ∧
    sort_by_key key l = ck <$> bmap_values new.
Proof.
  intros Hsub. destruct replay_upserts as (l & Hl & Hs). exists l. split; [done|].
  rewrite <-Hs. f_equal. symmetry. apply filter_all, Forall_forall. intros c _.
  intros [Ho Hn]%elem_of_diff_deleted. apply Hsub in Ho as [? ?]. congruence.
Qed.
End replay_map.

(** ** One record *)

(** A state change that is committed: both states are well formed, the change
    is one a command can make, and it advances the revision. *)
Record committed (s s' : BrokerState) : Prop := {
  cm_before : StateInv s;
  cm_after : StateInv s';
  cm_valid_before : valid_state s;
  cm_valid_after : valid_state s';
  cm_evolves : state_evolves s s';
  cm_revision : s_revision s' = s_revision s + 1;
  cm_bound : s_revision s' ≤ u64_max;
}.

Definition mutation_of (s s' : BrokerState) : JournalMutation := {|
  jm_term := s_term s';
  jm_revision := s_revision s';
  jm_namespaces := Namespace_checkpoint <$> changed_values (s_namespaces s) (s_namespaces s');
  jm_tasks := Task_checkpoint <$> changed_values (s_tasks s) (s_tasks s');
  jm_deleted_tasks := bset_iter (diff_deleted (s_tasks s) (s_tasks s'));
  jm_groups := Group_checkpoint <$> changed_values (s_groups s) (s_groups s');
|}.

Definition wire_of (s s' : BrokerState) : JournalMutationWire := {|
  jw_deleted_tasks := bset_iter (diff_deleted (s_tasks s) (s_tasks s'));
  jw_groups := group_to_wire ∘ Group_checkpoint <$> changed_values (s_groups s) (s_groups s');
  jw_namespaces :=
    namespace_to_wire ∘ Namespace_checkpoint <$> changed_values (s_namespaces s) (s_namespaces s');
  jw_revision := s_revision s';
  jw_schema_version := SCHEMA_VERSION;
  jw_tasks := task_to_wire ∘ Task_checkpoint <$> changed_values (s_tasks s) (s_tasks s');
  jw_term := s_term s';
|}.

Lemma StateInv_namespaces_keyed s : StateInv s → map_Forall (λ k n, n_id n = k) (s_namespaces s).
Proof. intros Hs k n Hn. by apply (si_namespaces _ Hs) in Hn as [? _]. Qed.

Lemma StateInv_group_ids s : StateInv s → map_Forall (λ k g, g_id g = k) (s_groups s).
Proof. intros Hs k g Hg. by apply (si_groups _ Hs) in Hg as [? _]. Qed.

Lemma try_map_lookup {V W E} (f : V → W) (e : E) (m : gmap string V) ids :
  (∀ k, k ∈ ids → is_Some (m !! k)) →
  try_map (λ k, ok_or (f <$> m !! k) e) ids = Ok (f <$> omap (λ k, m !! k) ids).
Proof.
  induction ids as [|k ids IH]; intros Hk; [done|]. cbn [try_map].
  destruct (Hk k) as [v Hv]; [by left|]. rewrite Hv. simpl. rewrite IH by (intros; apply Hk; by right).
  by rewrite Hv.
Qed.

(** Encoding the changed entities of one map. *)
Lemma encode_changed {V W E} `{EqDecision V} (f : V → W) (key : W → string) (e : E)
    (old new : gmap string V) :
  map_Forall (λ k v, key (f v) = k) new →
  try_map (λ k, ok_or (f <$> new !! k) e) (bset_iter (diff_changed old new)) =
    Ok (f <$> changed_values old new) ∧
  sort_by_key key (f <$> changed_values old new) = f <$> changed_values old new.
Proof.
  intros Hk. split.
  - apply try_map_lookup. intros k Hin%elem_of_bset_iter%elem_of_diff_changed. naive_solver.
  - apply sort_by_key_id. rewrite (keys_of_changed f key old new Hk). apply bset_iter_sorted.
Qed.

Lemma overlaps_diff (old new : gmap TaskId Task) :
  overlaps (bset_iter (diff_changed old new)) (bset_iter (diff_deleted old new)) = false.
Proof.
  apply not_true_iff_false. unfold overlaps. intros (id & Hd & Hc)%existsb_exists.
  apply bool_decide_eq_true in Hc. rewrite elem_of_list_to_set, elem_of_bset_iter in Hc.
  apply list_elem_of_In, elem_of_bset_iter in Hd. apply elem_of_diff_changed in Hc as (v & Hv & _).
  apply elem_of_diff_deleted in Hd as [_ Hd]. congruence.
Qed.

Lemma mutation_to_wire_diff s s' :
  StateInv s' → mutation_to_wire s' (state_diff s s') = Ok (wire_of s s').
Proof.
  intros Hs. unfold mutation_to_wire, state_diff, wire_of. simpl. rewrite overlaps_diff.
  destruct (encode_changed (namespace_to_wire ∘ Namespace_checkpoint) nw_namespace_id
    (missing_changed_entity "namespace") (s_namespaces s) (s_namespaces s')) as [-> ->];
    [by apply StateInv_namespaces_keyed|].
  destruct (encode_changed (task_to_wire ∘ Task_checkpoint) tw_task_id
    (missing_changed_entity "task") (s_tasks s) (s_tasks s')) as [-> ->].
  { intros k t Ht. simpl. rewrite task_wire_id. by apply StateInv_tasks_keyed in Ht. }
  destruct (encode_changed (group_to_wire ∘ Group_checkpoint) gw_group_id
    (missing_changed_entity "Consumer Group") (s_groups s) (s_groups s')) as [-> ->];
    [by apply StateInv_group_ids|].
  rewrite sort_by_key_id; [done|]. rewrite list_fmap_id. apply bset_iter_sorted.
Qed.

Lemma mutation_from_wire_diff s s' :
  committed s s' → mutation_from_wire (wire_of s s') = Ok (mutation_of s s').
Proof.
  intros [Hs Hs' Hv Hv' _ Hr _]. unfold mutation_from_wire, mutation_of. simpl.
  rewrite (proj2 (N.eqb_neq (s_revision s') 0)) by lia.
  rewrite <-(list_fmap_id (bset_iter (diff_deleted (s_tasks s) (s_tasks s')))) at 1.
  rewrite (try_map_fmap _ id id), list_fmap_id.
  2: { intros id [[t Ht] _]%elem_of_bset_iter%elem_of_diff_deleted. unfold TaskId_new.
       apply (vs_tasks _ Hv) in Ht as Hid. apply (StateInv_tasks_keyed _ Hs) in Ht. simpl.
       subst id. by rewrite valid_id_new by apply Hid. }
  rewrite (try_map_fmap _ _ Task_checkpoint).
  2: { intros t (id & Ht & _)%elem_of_changed_values. apply task_wire; [by apply (vs_tasks _ Hv' id)|].
       by apply (si_tasks _ Hs') in Ht as (_ & ? & _). }
  rewrite (keys_of_changed Task_checkpoint tck_task_id _ _ (StateInv_tasks_keyed _ Hs')).
  rewrite overlaps_diff. unfold Term_new.
  rewrite (proj2 (N.eqb_neq _ _)) by (pose proof (si_term _ Hs'); lia). simpl.
  rewrite (try_map_fmap _ _ Namespace_checkpoint).
  2: { intros n (id & Hn & _)%elem_of_changed_values.
       apply namespace_wire; [by apply (vs_namespaces _ Hv' id)|].
       by apply (si_namespaces _ Hs') in Hn as [_ ?]. }
  rewrite (try_map_fmap _ _ Group_checkpoint); [done|].
  intros g (id & Hg & _)%elem_of_changed_values. apply group_wire; [by apply (vs_groups _ Hv' id)|].
  by apply (si_groups _ Hs') in Hg as (_ & ? & _).
Qed.

Lemma sort_members_id g : group_ok g → sort_members (Group_checkpoint g) = Group_checkpoint g.
Proof.
  intros Hok. unfold sort_members. simpl. rewrite sort_by_key_id; [done|].
  rewrite <-list_fmap_compose. apply (bmap_values_sorted c_id). by apply group_ok_keyed.
Qed.

Lemma mutated_checkpoint_diff s s' :
  committed s s' →
  mutated_checkpoint (BrokerState_checkpoint s) (mutation_of s s') = Ok (BrokerState_checkpoint s').
Proof.
  intros [Hs Hs' _ _ [_ _ _ Ens Et Eg] _ _].
  unfold mutated_checkpoint, upsert_namespace, upsert_group, upsert_task. simpl.
  destruct (replay_upserts_all Namespace_checkpoint "namespace" nck_namespace_id nck_revision
    (s_namespaces s) (s_namespaces s')) as (ns & -> & Hns).
  { by apply StateInv_namespaces_keyed. } { by apply StateInv_namespaces_keyed. }
  { intros k v v' Hk Hk'. eapply lookup_weaken in Hk; [|exact Ens]. by simplify_eq. }
  { intros k [v Hk]. eapply lookup_weaken in Hk; [|exact Ens]. eauto. }
  destruct (replay_upserts_all Group_checkpoint "Consumer Group" gck_group_id gck_revision
    (s_groups s) (s_groups s')) as (gs & -> & Hgs).
  { by apply StateInv_group_ids. } { by apply StateInv_group_ids. }
  { intros k v v' Hk Hk'. destruct (Eg k v Hk) as (g & Hg & []). by simplify_eq. }
  { intros k [v Hk]. destruct (Eg k v Hk) as (g & Hg & _). eauto. }
  destruct (replay_upserts Task_checkpoint "task" tck_task_id tck_revision
    (s_tasks s) (s_tasks s')) as (ts & -> & Hts).
  { by apply StateInv_tasks_keyed. } { by apply StateInv_tasks_keyed. }
  { intros k v v' Hk Hk'. specialize (Et k v Hk). rewrite Hk' in Et. by destruct Et. }
  unfold sort_checkpoint, BrokerState_checkpoint. simpl.
  assert (list_to_set (bset_iter (diff_deleted (s_tasks s) (s_tasks s'))) =
    diff_deleted (s_tasks s) (s_tasks s')) as ->.
  { apply set_eq. intros x. by rewrite elem_of_list_to_set, elem_of_bset_iter. }
  rewrite Hns, Hgs, Hts. do 2 f_equal. rewrite <-list_fmap_compose. apply list_fmap_ext.
  intros i g Hi%list_elem_of_lookup_2. apply elem_of_bmap_values in Hi as [k Hk]. simpl.
  apply sort_members_id. by apply (si_groups _ Hs') in Hk as (_ & ? & _).
Qed.

Lemma journal_replays s s' :
  committed s s' →
  apply_journal_mutation (mutation_of s s') (BrokerState_checkpoint s) =
    (Ok true, BrokerState_checkpoint s').
Proof.
  intros Hc. pose proof (cm_revision _ _ Hc). pose proof (cm_bound _ _ Hc).
  unfold apply_journal_mutation, Revision_next. cbn [jm_revision jm_term mutation_of bck_revision bck_term
    BrokerState_checkpoint].
  rewrite (proj2 (N.leb_gt _ _)) by lia. rewrite counter_next_lt by lia. simpl.
  rewrite (proj2 (N.eqb_eq (s_revision s') (s_revision s + 1))) by done. simpl.
  rewrite (proj2 (N.ltb_ge (s_term s') (s_term s))) by apply (sv_term _ _ (cm_evolves _ _ Hc)).
  rewrite mutated_checkpoint_diff by done. simpl.
  destruct (recover s' (cm_after _ _ Hc)) as (m & -> & _). done.
Qed.

Lemma journal_ignores_stale s s' ck :
  s_revision s' ≤ bck_revision ck → apply_journal_mutation (mutation_of s s') ck = (Ok false, ck).
Proof. intros Hle. unfold apply_journal_mutation. simpl. by rewrite (proj2 (N.leb_le _ _)). Qed.

(** The text of the record: one line that reads back. *)
Lemma journal_line `{JsonLaws} s s' :
  committed s s' →
  ∃ b, encode_journal_mutation s' (state_diff s s') = Ok (b ++ [newline])%list ∧ (newline ∉ b) ∧
       json_value (b ++ [newline]) = true ∧
       decode_journal_mutation (b ++ [newline]) = Ok (mutation_of s s').
Proof.
  intros Hc. destruct (journal_json (wire_of s s')) as (b & Hb & Hn & Hr & Hj).
  exists b. unfold encode_journal_mutation, decode_journal_mutation.
  rewrite mutation_to_wire_diff by apply Hc. rewrite Hb, Hr. split_and!; [done..|].
  by apply mutation_from_wire_diff.
Qed.

(** Every command that advances the revision is such a change. *)
Lemma apply_committed cmd m am m' :
  Inv m → valid_state (m_state m) → admissible cmd m → valid_command cmd →
  apply cmd m = (Ok am, m') → m_revision m' ≠ m_revision m →
  committed (m_state m) (m_state m') ∧ am_changes am = state_diff (m_state m) (m_state m').
Proof.
  intros Hi Hv Ha Hc Hap Hne. destruct (apply_refines cmd m Hi Ha) as (Hi' & _ & Hs).
  pose proof (apply_effect cmd m Hi Ha) as He. pose proof (spec_handle_valid cmd _ Hc Hv) as Hv'.
  pose proof (spec_handle_fits cmd (m_state m)) as Hf. unfold revision_fits in Hf.
  rewrite <-Hs in Hv', Hf. rewrite Hap in *. simpl in *.
  pose proof (effect_evolves _ _ (inv_state _ Hi) He) as Hev.
  pose proof (sv_revision _ _ Hev). split; [|by eapply apply_changes; [apply Hi|]].
  constructor; [apply Hi|apply Hi'|done|done|done|lia|]. destruct Hf; [done|lia].
Qed.
