(* ===== verification/Repository.v ===== *)
(** * The durable repository ([agent-broker-storage/src/repository.rs],
    [filesystem_durability.rs])

    A snapshot file and an append-only journal.  The two files are the state of
    the disk; where they live (paths, parent directories) is not modelled.  A
    call on the file system either succeeds or fails; [Fault] says which call
    fails and what the failure, or a crash at that point, leaves of the file:
    nothing of the call, or the first bytes of an append, or the whole effect of
    a replace or truncation whose sync failed.  No fault means no failure.
    [f_source] is the text of the operating system's error. *)

From S2P Require Import Prelude Values Task Group Messages Machine Recovery Spec Invariant Effect.
From S2P Require Import Broker RecoveryProps Changes Scenarios Valid Display Wire Journal.

(** ** The disk *)

Record Disk := MkDisk { d_snapshot : option bytes; d_journal : option bytes }.

Definition with_snapshot (v : bytes) (d : Disk) : Disk := MkDisk (Some v) (d_journal d).
Definition with_journal (v : bytes) (d : Disk) : Disk := MkDisk (d_snapshot d) (Some v).

Inductive Site := SiteAppend | SiteSnapshot | SiteTruncate | SiteLoad.

#[export] Instance Site_eq_dec : EqDecision Site.
Proof. solve_decision. Defined.

Record Fault := { f_site : Site; f_operation : string; f_kept : option nat;
                 f_source : string }.

Inductive RepositoryError :=
  | InvalidConfiguration (message : string)
  | Storage (e : StorageError)
  | Io (operation source : string).

Definition RepositoryError_fmt (e : RepositoryError) : string :=
  match e with
  | InvalidConfiguration message => message
  | Storage e => to_string e
  | Io operation source => operation +:+ ": " +:+ source
  end.

#[export] Instance RepositoryError_display : Display RepositoryError := RepositoryError_fmt.

(** One file-system call. *)
Definition io_call (io : option Fault) (site : Site) (operation : string) :
    result unit RepositoryError :=
  match io with
  | Some f => if bool_decide (f_site f = site) && bool_decide (f_operation f = operation)
              then Err (Io operation (f_source f)) else Ok tt
  | None => Ok tt
  end.

(** What a failure leaves of a file operation that was under way. *)
Definition kept (io : option Fault) (before : Disk) (after : nat → Disk) : Disk :=
  match io with
  | Some {| f_kept := Some n |} => after n
  | _ => before
  end.

Definition sync_directory (io : option Fault) (site : Site) : result unit RepositoryError :=
  let^ _ := io_call io site "directory open for fsync failed" in
  io_call io site "directory fsync failed".

Definition ensure_parent_directory (io : option Fault) (site : Site) : result unit RepositoryError :=
  io_call io site "storage directory creation failed".

Definition append_synced (io : option Fault) (payload : bytes) (d : Disk) :
    result unit RepositoryError * Disk :=
  let call := io_call io SiteAppend in
  let? _ := ensure_parent_directory io SiteAppend else d in
  let? _ := call "journal existence check failed" else d in
  let created := negb (is_some (d_journal d)) in
  let? _ := call "journal open for append failed" else d in
  let content := default [] (d_journal d) in
  let torn := kept io d (λ n, with_journal (content ++ take n payload)%list d) in
  let? _ := call "journal append failed" else torn in
  let? _ := call "journal flush failed" else torn in
  let? _ := call "journal fsync failed" else torn in
  let? _ := (if created then sync_directory io SiteAppend else Ok tt) else torn in
  (Ok tt, with_journal (content ++ payload)%list d).

Definition write_snapshot_atomic (io : option Fault) (payload : bytes) (d : Disk) :
    result unit RepositoryError * Disk :=
  let call := io_call io SiteSnapshot in
  let? _ := ensure_parent_directory io SiteSnapshot else d in
  let? _ := call "snapshot tempfile creation failed" else d in
  let? _ := call "snapshot tempfile write failed" else d in
  let? _ := call "snapshot tempfile flush failed" else d in
  let? _ := call "snapshot tempfile fsync failed" else d in
  let? _ := call "atomic snapshot replace failed" else d in
  let replaced := with_snapshot payload d in
  let? _ := sync_directory io SiteSnapshot else kept io d (λ _, replaced) in
  (Ok tt, replaced).

Definition truncate_synced (io : option Fault) (d : Disk) :
    result unit RepositoryError * Disk :=
  let call := io_call io SiteTruncate in
  let? _ := ensure_parent_directory io SiteTruncate else d in
  let? _ := call "journal open for truncation failed" else d in
  let truncated := with_journal [] d in
  let? _ := call "journal truncation flush failed" else kept io d (λ _, truncated) in
  let? _ := call "journal truncation fsync failed" else kept io d (λ _, truncated) in
  let? _ := sync_directory io SiteTruncate else kept io d (λ _, truncated) in
  (Ok tt, truncated).

(** ** Compaction policy *)

Definition DEFAULT_COMPACT_EVERY : N := 4096.
Definition DEFAULT_MAX_JOURNAL_BYTES : N := 8 * 1024 * 1024.
Definition MIN_MAX_JOURNAL_BYTES : N := 4096.
Definition MAX_JOURNAL_RECORD_BYTES : N := 128 * 1024 * 1024.

Record JournalCompactionPolicy := { jp_compact_every : N; jp_max_journal_bytes : N }.

Definition JournalCompactionPolicy_new (compact_every max_journal_bytes : N) :
    result JournalCompactionPolicy RepositoryError :=
  if compact_every =? 0 then Err (InvalidConfiguration "compact_every must be positive") else
  if max_journal_bytes <? MIN_MAX_JOURNAL_BYTES
  then Err (InvalidConfiguration "max_journal_bytes must be at least 4096") else
  Ok {| jp_compact_every := compact_every; jp_max_journal_bytes := max_journal_bytes |}.

Definition JournalCompactionPolicy_default : JournalCompactionPolicy :=
  {| jp_compact_every := DEFAULT_COMPACT_EVERY; jp_max_journal_bytes := DEFAULT_MAX_JOURNAL_BYTES |}.

(** ** The repository *)

Record Repository := MkRepository {
  r_policy : JournalCompactionPolicy;
  r_commits_since_compaction : N;
  r_journal_bytes : N;
  r_compaction_deferred : bool;
}.

Definition Repository_new (policy : JournalCompactionPolicy) : Repository :=
  MkRepository policy 0 0 false.

Definition should_compact (r : Repository) : bool :=
  (jp_compact_every (r_policy r) <=? r_commits_since_compaction r) ||
  (jp_max_journal_bytes (r_policy r) <=? r_journal_bytes r).

Section repository.
Context `{J : JsonCodec}.

Definition compact (io : option Fault) (s : BrokerState) (r : Repository) (d : Disk) :
    result unit RepositoryError * (Repository * Disk) :=
  let? payload := map_err Storage (encode_snapshot (BrokerState_checkpoint s)) else (r, d) in
  let '(written, d) := write_snapshot_atomic io payload d in
  let? _ := written else (r, d) in
  let '(truncated, d) := truncate_synced io d in
  let? _ := truncated else (r, d) in
  (Ok tt, (MkRepository (r_policy r) 0 0 (r_compaction_deferred r), d)).

Definition commit (io : option Fault) (s : BrokerState) (changes : StateChangeSet)
    (r : Repository) (d : Disk) : result unit RepositoryError * (Repository * Disk) :=
  if r_compaction_deferred r then
    let '(compacted, (r, d)) := compact io s r d in
    let? _ := compacted else (r, d) in
    (Ok tt, (MkRepository (r_policy r) (r_commits_since_compaction r) (r_journal_bytes r) false, d))
  else
  let? payload := map_err Storage (encode_journal_mutation s changes) else (r, d) in
  let '(appended, d) := append_synced io payload d in
  let? _ := appended else (r, d) in
  let? journal_bytes := ok_or (checked_add (r_journal_bytes r) (len payload))
    (Storage (InvalidFormat "journal byte accounting overflowed")) else (r, d) in
  let r := MkRepository (r_policy r) (r_commits_since_compaction r) journal_bytes
             (r_compaction_deferred r) in
  let? commits := ok_or (checked_add (r_commits_since_compaction r) 1)
    (Storage (InvalidFormat "journal commit accounting overflowed")) else (r, d) in
  let r := MkRepository (r_policy r) commits (r_journal_bytes r) (r_compaction_deferred r) in
  if should_compact r then
    let '(compacted, (r, d)) := compact io s r d in
    (Ok tt, (MkRepository (r_policy r) (r_commits_since_compaction r) (r_journal_bytes r)
               (r_compaction_deferred r || negb (is_ok compacted)), d))
  else (Ok tt, (r, d)).

(** ** Recovery *)

Definition empty_checkpoint : BrokerCheckpoint := {|
  bck_term := Term_INITIAL; bck_revision := 0;
  bck_namespaces := []; bck_tasks := []; bck_groups := [];
|}.

Definition load_snapshot (io : option Fault) (d : Disk) : result BrokerCheckpoint RepositoryError :=
  let^ _ := io_call io SiteLoad "snapshot existence check failed" in
  match d_snapshot d with
  | None => Ok empty_checkpoint
  | Some payload =>
      let^ _ := io_call io SiteLoad "snapshot read failed" in
      map_err Storage (decode_snapshot payload)
  end.

(** Everything up to and including the next line feed, and the rest. *)
Fixpoint split_line (b : bytes) : bytes * bytes :=
  match b with
  | [] => ([], [])
  | c :: b =>
      if decide (c = newline) then ([c], b) else
      let '(line, rest) := split_line b in (c :: line, rest)
  end.

(** The length test of each buffered chunk amounts to one of the record. *)
Definition read_bounded_record (io : option Fault) (b : bytes) :
    result (bytes * bytes) RepositoryError :=
  let^ _ := io_call io SiteLoad "journal replay read failed" in
  let '(line, rest) := split_line b in
  if MAX_JOURNAL_RECORD_BYTES <? len line
  then Err (Storage (InvalidFormat "journal record exceeds 134217728 bytes"))
  else Ok (line, rest).

Definition ends_with_newline (line : bytes) : bool :=
  match last line with Some c => bool_decide (c = newline) | None => false end.

Definition truncate_torn_tail (io : option Fault) (offset : N) (d : Disk) :
    result unit RepositoryError * Disk :=
  let truncated := with_journal (take (N.to_nat offset) (default [] (d_journal d))) d in
  let? _ := io_call io SiteLoad "torn journal tail truncation failed" else d in
  let? _ := io_call io SiteLoad "torn journal tail fsync failed" else kept io d (λ _, truncated) in
  (Ok tt, truncated).

(** The loop of [replay_journal]; [fuel] bounds the records that are read, and
    one more than the bytes of the journal is enough. *)
Fixpoint replay_loop (fuel : nat) (io : option Fault) (size offset : N) (rest : bytes)
    (ck : BrokerCheckpoint) (d : Disk) :
    result unit RepositoryError * (BrokerCheckpoint * Disk) :=
  match fuel with
  | O => (Ok tt, (ck, d))
  | S fuel =>
      if negb (offset <? size) then (Ok tt, (ck, d)) else
      let? (line, rest) := read_bounded_record io rest else (ck, d) in
      if len line =? 0 then (Ok tt, (ck, d)) else
      let? next_offset := ok_or (checked_add offset (len line))
        (Storage (InvalidFormat "journal replay offset overflowed")) else (ck, d) in
      let is_final := next_offset =? size in
      if negb (ends_with_newline line) then
        if is_final then
          let '(r, d) := truncate_torn_tail io offset d in (r, (ck, d))
        else (Err (Storage (InvalidFormat "journal contains a torn record before its tail")), (ck, d))
      else if negb (json_value line) then
        if is_final then
          let '(r, d) := truncate_torn_tail io offset d in (r, (ck, d))
        else (Err (Storage (InvalidFormat "journal contains invalid JSON before its tail")), (ck, d))
      else
        let? mutation := map_err Storage (decode_journal_mutation line) else (ck, d) in
        let '(applied, ck) := apply_journal_mutation mutation ck in
        let? _ := map_err Storage applied else (ck, d) in
        replay_loop fuel io size next_offset rest ck d
  end.

Definition replay_journal (io : option Fault) (ck : BrokerCheckpoint) (d : Disk) :
    result unit RepositoryError * (BrokerCheckpoint * Disk) :=
  let? _ := io_call io SiteLoad "journal open for replay failed" else (ck, d) in
  let? _ := io_call io SiteLoad "journal metadata read failed" else (ck, d) in
  let? _ := io_call io SiteLoad "journal replay handle clone failed" else (ck, d) in
  let journal := default [] (d_journal d) in
  replay_loop (S (length journal)) io (len journal) 0 journal ck d.

Definition load (io : option Fault) (r : Repository) (d : Disk) :
    result BrokerCheckpoint RepositoryError * (Repository * Disk) :=
  let? checkpoint := load_snapshot io d else (r, d) in
  let snapshot_revision := bck_revision checkpoint in
  let? _ := io_call io SiteLoad "journal existence check failed" else (r, d) in
  let finish checkpoint journal_bytes d :=
    (Ok checkpoint,
     (MkRepository (r_policy r) (saturating_sub (bck_revision checkpoint) snapshot_revision)
        journal_bytes false, d)) in
  match d_journal d with
  | None => finish checkpoint (r_journal_bytes r) d
  | Some _ =>
      let '(replayed, (checkpoint, d)) := replay_journal io checkpoint d in
      let? _ := replayed else (r, d) in
      let? _ := io_call io SiteLoad "journal size read failed" else (r, d) in
      finish checkpoint (len (default [] (d_journal d))) d
  end.

End repository.

(** * Crash safety of the repository

    What the two files hold is a state: the snapshot, moved on by the journal
    records, possibly followed by the torn rest of an append.  Commits move the
    held state from one well-formed state to the next, and a failure or crash
    at any call leaves the state before or after. *)

Abbreviation content d := (default [] (d_journal d)).

(** ** Lines *)

Lemma split_line_record b rest :
  newline ∉ b → split_line (b ++ newline :: rest)%list = ((b ++ [newline])%list, rest).
Proof.
  induction b as [|c b IH]; intros Hn; cbn [split_line app]; [by rewrite decide_True|].
  rewrite decide_False by (intros ->; apply Hn; by left). rewrite IH; [done|].
  intros Hin. apply Hn. by right.
Qed.

Lemma split_line_tail b : newline ∉ b → split_line b = (b, []).
Proof.
  induction b as [|c b IH]; intros Hn; cbn [split_line]; [done|].
  rewrite decide_False by (intros ->; apply Hn; by left). rewrite IH; [done|].
  intros Hin. apply Hn. by right.
Qed.

Lemma ends_with_newline_record b : ends_with_newline (b ++ [newline])%list = true.
Proof. unfold ends_with_newline. rewrite last_snoc. by apply bool_decide_true. Qed.

Lemma ends_with_newline_tail b : newline ∉ b → ends_with_newline b = false.
Proof.
  intros Hn. unfold ends_with_newline. destruct (last b) as [c|] eqn:E; [|done].
  apply bool_decide_false. intros ->. by apply Hn, last_Some_elem_of.
Qed.

(** ** What a disk holds *)

Inductive replays : list JournalMutation → BrokerCheckpoint → BrokerCheckpoint → Prop :=
  | replays_nil ck : replays [] ck ck
  | replays_cons mu mus ck ck1 ck2 applied :
      apply_journal_mutation mu ck = (Ok applied, ck1) → replays mus ck1 ck2 →
      replays (mu :: mus) ck ck2.

Lemma replays_snoc mus mu ck ck1 ck2 applied :
  replays mus ck ck1 → apply_journal_mutation mu ck1 = (Ok applied, ck2) →
  replays (mus ++ [mu]) ck ck2.
Proof.
  induction 1 as [|mu' mus ck ck1' ck1 a Ha Hr IH]; intros Hmu; simpl.
  - econstructor; [done|constructor].
  - econstructor; [done|auto].
Qed.

Section holds.
Context `{L : JsonLaws}.

Record record_ok (line : bytes) (mu : JournalMutation) : Prop := {
  ro_line : ∃ b, line = (b ++ [newline])%list ∧ newline ∉ b;
  ro_length : len line ≤ MAX_JOURNAL_RECORD_BYTES;
  ro_json : json_value line = true;
  ro_decode : decode_journal_mutation line = Ok mu;
}.

(** The disk holds [s]; [tail] is what a torn append left behind. *)
Record holds (tail : bytes) (d : Disk) (s : BrokerState) : Prop := {
  ho_state : StateInv s;
  ho_valid : valid_state s;
  ho_size : len (content d) ≤ u64_max;
  ho_tail : newline ∉ tail;
  ho_tail_length : len tail ≤ MAX_JOURNAL_RECORD_BYTES;
  ho_journal : ∃ ck lines mus,
    load_snapshot None d = Ok ck ∧
    content d = (concat lines ++ tail)%list ∧
    Forall2 record_ok lines mus ∧
    Forall (λ mu, jm_revision mu ≤ s_revision s) mus ∧
    replays mus ck (BrokerState_checkpoint s);
}.

Definition recoverable (d : Disk) (s : BrokerState) : Prop := ∃ tail, holds tail d s.

Lemma stale_replays mus ck :
  Forall (λ mu, jm_revision mu ≤ bck_revision ck) mus → replays mus ck ck.
Proof.
  induction 1 as [|mu mus Hmu _ IH]; [constructor|]. econstructor; [|exact IH].
  unfold apply_journal_mutation. by rewrite (proj2 (N.leb_le _ _)).
Qed.

Lemma empty_disk_holds : holds [] (MkDisk None None) BrokerState_default.
Proof.
  constructor.
  - apply (inv_state _ default_inv).
  - constructor; apply map_Forall_empty.
  - done.
  - apply not_elem_of_nil.
  - done.
  - exists empty_checkpoint, [], []. split_and!; try done; constructor.
Qed.

(** ** Loading *)

Lemma io_call_cases io site op :
  io_call io site op = Ok tt ∨
  ∃ source, io_call io site op = Err (Io op source) ∧ io ≠ None.
Proof. unfold io_call. destruct io; [|auto]. case_match; naive_solver. Qed.

(** The next file-system call succeeds, or fails and the rest is immediate. *)
Ltac io_step :=
  match goal with
  | |- context [io_call ?io ?site ?op] =>
      destruct (io_call_cases io site op) as [->|(?&->&?)]; [|solve [eauto]]
  end.

Lemma read_line io b line rest :
  split_line b = (line, rest) → len line ≤ MAX_JOURNAL_RECORD_BYTES →
  read_bounded_record io b = Ok (line, rest) ∨
  (∃ e, read_bounded_record io b = Err e ∧ io ≠ None).
Proof.
  intros Hb Hlen. unfold read_bounded_record.
  destruct (io_call_cases io SiteLoad "journal replay read failed") as [->|(?&->&Hio)]; [|eauto].
  left. by rewrite Hb, (proj2 (N.ltb_ge _ _)).
Qed.

Lemma with_journal_same d j : d_journal d = Some j → with_journal j d = d.
Proof. destruct d as [sn jo]. simpl. by intros ->. Qed.

Lemma truncate_tail_spec io d pre tail :
  d_journal d = Some (pre ++ tail)%list →
  match truncate_torn_tail io (len pre) d with
  | (Ok _, d') => d' = with_journal pre d
  | (Err _, d') => io ≠ None ∧ (d' = d ∨ d' = with_journal pre d)
  end.
Proof.
  intros Hj. unfold truncate_torn_tail. rewrite Hj. simpl. unfold len.
  rewrite Nat2N.id, take_app_length.
  io_step.
  destruct (io_call_cases io SiteLoad "torn journal tail fsync failed") as [->|(?&->&?)]; [done|].
  split; [done|]. destruct io as [[? ? [n|]]|]; simpl; auto.
Qed.

(** The torn rest of an append is cut off. *)
Lemma replay_tail_spec io d pre tail ck fuel :
  newline ∉ tail → len tail ≤ MAX_JOURNAL_RECORD_BYTES →
  d_journal d = Some (pre ++ tail)%list → len (pre ++ tail) ≤ u64_max →
  (length tail < fuel)%nat →
  match replay_loop fuel io (len (pre ++ tail)) (len pre) tail ck d with
  | (Ok _, (c, d')) => c = ck ∧ d' = with_journal pre d
  | (Err _, (_, d')) => io ≠ None ∧ (d' = d ∨ d' = with_journal pre d)
  end.
Proof.
  intros Hn Hlen Hj Hsize Hfuel. destruct fuel as [|fuel]; [lia|]. cbn [replay_loop].
  rewrite len_app in *. destruct (decide (tail = [])) as [->|Hne].
  { rewrite len_nil, N.add_0_r, N.ltb_irrefl. simpl. split; [done|]. symmetry.
    apply with_journal_same. by rewrite app_nil_r in Hj. }
  assert (0 < len tail) as Hpos by (unfold len; destruct tail; [done|simpl; lia]).
  rewrite (proj2 (N.ltb_lt _ _)) by lia. cbn [negb].
  destruct (read_line io tail tail []) as [->|(e & -> & Hio)]; [by apply split_line_tail|done| |auto].
  rewrite (proj2 (N.eqb_neq _ _)) by lia.
  rewrite (proj2 (checked_add_Some _ _ _) (conj eq_refl Hsize)). cbn [ok_or].
  rewrite ends_with_newline_tail, N.eqb_refl by done. cbn [negb].
  pose proof (truncate_tail_spec io d pre tail Hj) as Ht.
  by destruct (truncate_torn_tail io (len pre) d) as [[[]|e] d'].
Qed.

(** Replay of complete records: an interrupted read, or on to the rest. *)
Lemma replay_records io d pre lines mus rest ck ck' fuel :
  Forall2 record_ok lines mus → replays mus ck ck' →
  len (pre ++ concat lines ++ rest) ≤ u64_max →
  let size := len (pre ++ concat lines ++ rest) in
  let loop := replay_loop (length lines + fuel) io size (len pre) (concat lines ++ rest) ck d in
  (∃ e ck1, loop = (Err e, (ck1, d)) ∧ io ≠ None) ∨
  loop = replay_loop fuel io size (len (pre ++ concat lines)) rest ck' d.
Proof.
  intros Hl. revert pre ck. induction Hl as [|line mu lines mus Hr Hl IH]; intros pre ck Hrep Hsize.
  { inversion Hrep; subst. simpl. rewrite app_nil_r. by right. }
  inversion Hrep as [|? ? ? ck1 ? applied Happ Hrep']; subst.
  destruct Hr as [(b & -> & Hb) Hlen Hjson Hdec].
  cbn [concat length plus] in *. rewrite <-!(assoc_L app) in *. cbn [app replay_loop] in *.
  assert (len (pre ++ b ++ newline :: concat lines ++ rest) =
          len pre + len (b ++ [newline]) + len (concat lines ++ rest)) as Hs.
  { rewrite !len_app. unfold len. simpl. rewrite ?length_app. lia. }
  assert (0 < len (b ++ [newline])) as Hpos by (rewrite len_app; unfold len; simpl; lia).
  rewrite (proj2 (N.ltb_lt _ _)) by lia. cbn [negb].
  destruct (read_line io (b ++ newline :: concat lines ++ rest) (b ++ [newline]) (concat lines ++ rest))
    as [->|(e & -> & Hio)]; [by apply split_line_record|done| |left; eauto].
  rewrite (proj2 (N.eqb_neq _ _)) by lia.
  assert (checked_add (len pre) (len (b ++ [newline])) = Some (len (pre ++ b ++ [newline]))) as ->.
  { apply checked_add_Some. rewrite len_app. split; [done|lia]. }
  cbn [ok_or]. rewrite ends_with_newline_record, Hjson. cbn [negb]. rewrite Hdec. cbn [map_err].
  rewrite Happ. cbn [map_err].
  specialize (IH (pre ++ b ++ [newline])%list ck1 Hrep').
  rewrite <-!(assoc_L app) in IH. cbn [app] in IH. by apply IH.
Qed.

Lemma records_length lines mus :
  Forall2 record_ok lines mus → (length lines ≤ length (concat lines))%nat.
Proof.
  induction 1 as [|line mu lines mus [(b & -> & _) _ _ _] _ IH]; simpl; [done|].
  rewrite !length_app. simpl. lia.
Qed.

(** Replay of the records of a journal, then of its tail. *)
Lemma replay_loop_spec io d lines mus tail ck ck' fuel :
  Forall2 record_ok lines mus → replays mus ck ck' →
  newline ∉ tail → len tail ≤ MAX_JOURNAL_RECORD_BYTES →
  d_journal d = Some (concat lines ++ tail)%list →
  len (concat lines ++ tail) ≤ u64_max →
  (length (concat lines ++ tail) < fuel)%nat →
  match replay_loop fuel io (len (concat lines ++ tail)) 0 (concat lines ++ tail) ck d with
  | (Ok _, (c, d')) => c = ck' ∧ d' = with_journal (concat lines) d
  | (Err _, (_, d')) => io ≠ None ∧ (d' = d ∨ d' = with_journal (concat lines) d)
  end.
Proof.
  intros Hl Hrep Hn Htl Hj Hsize Hfuel. pose proof (records_length _ _ Hl). rewrite length_app in Hfuel.
  replace fuel with (length lines + (fuel - length lines))%nat by lia.
  pose proof (replay_records io d [] lines mus tail ck ck' (fuel - length lines) Hl Hrep) as Hr.
  cbn [app] in Hr. change (len []) with 0 in Hr.
  destruct (Hr Hsize) as [(e & ck1 & -> & ?)| ->]; [auto|].
  apply (replay_tail_spec io d (concat lines)); [done..|lia].
Qed.

Lemma load_snapshot_io io d ck :
  load_snapshot None d = Ok ck →
  load_snapshot io d = Ok ck ∨ (∃ e, load_snapshot io d = Err e ∧ io ≠ None).
Proof.
  unfold load_snapshot. simpl. intros Hck.
  io_step.
  destruct (d_snapshot d); [|auto].
  destruct (io_call_cases io SiteLoad "snapshot read failed") as [->|(?&->&?)]; eauto.
Qed.

Lemma records_nonempty lines mus :
  Forall2 record_ok lines mus → concat lines = [] → lines = [] ∧ mus = [].
Proof.
  destruct 1 as [|line mu lines mus [(b & -> & _) _ _ _] _]; [done|]. simpl.
  by destruct b.
Qed.

(** Loading gives the held state and drops the torn rest; a load that fails
    leaves the state held. *)
Lemma load_spec io r d tail s :
  holds tail d s →
  match load io r d with
  | (Ok ck, (r', d')) => ck = BrokerState_checkpoint s ∧ holds [] d' s ∧
      r_policy r' = r_policy r ∧ r_compaction_deferred r' = false
  | (Err _, (_, d')) => io ≠ None ∧ recoverable d' s
  end.
Proof.
  intros Hh. pose proof Hh as [Hs Hv Hsize Htail Htlen (ck & lines & mus & Hck & Hc & Hl & Hrev & Hrep)].
  assert (recoverable d s) as Hd by by exists tail.
  unfold load. destruct (load_snapshot_io io d ck Hck) as [->|(e & -> & ?)]; [|done].
  io_step.
  destruct (d_journal d) as [j|] eqn:Hj; simpl in Hc, Hsize.
  2: { symmetry in Hc. apply app_eq_nil in Hc as [Hnil ->].
       apply (records_nonempty _ _ Hl) in Hnil as [-> ->]. inversion Hrep; subst. done. }
  assert (holds [] (with_journal (concat lines) d) s) as Hcut.
  { constructor; simpl; [done|done| |apply not_elem_of_nil|done|].
    - rewrite Hc, len_app in Hsize. lia.
    - exists ck, lines, mus. rewrite app_nil_r. done. }
  unfold replay_journal. rewrite Hj. simpl default.
  do 3 io_step.
  pose proof (replay_loop_spec io d lines mus tail ck _ (S (length j)) Hl Hrep Htail Htlen) as Hlp.
  rewrite <-Hc in Hlp. specialize (Hlp Hj Hsize ltac:(lia)).
  destruct (replay_loop _ _ _ _ _ _ _) as [[[]|e] [c d']].
  - destruct Hlp as [-> ->].
    destruct (io_call_cases io SiteLoad "journal size read failed") as [->|(?&->&?)].
    + done.
    + split; [done|]. by exists [].
  - destruct Hlp as [? [->| ->]]; [done|]. split; [done|]. by exists [].
Qed.

(** ** Appending *)

Lemma holds_append d s s' line :
  holds [] d s → committed s s' → record_ok line (mutation_of s s') →
  len (content d) + len line ≤ u64_max →
  holds [] (with_journal (content d ++ line) d) s'.
Proof.
  intros [_ _ _ _ _ (ck & lines & mus & Hck & Hc & Hl & Hrev & Hrep)] Hcm Hr Hsize.
  constructor; simpl; [apply Hcm|apply Hcm|by rewrite len_app|apply not_elem_of_nil|done|].
  exists ck, (lines ++ [line])%list, (mus ++ [mutation_of s s'])%list.
  pose proof (cm_revision _ _ Hcm). split_and!; [done| | | |].
  - rewrite concat_app, Hc, !app_nil_r. simpl. by rewrite app_nil_r.
  - apply Forall2_app; [done|]. by constructor.
  - apply Forall_app. split; [|by constructor]. eapply Forall_impl; [exact Hrev|]. simpl. lia.
  - eapply replays_snoc; [exact Hrep|]. by apply journal_replays.
Qed.

Lemma holds_torn d s t :
  holds [] d s → newline ∉ t → len t ≤ MAX_JOURNAL_RECORD_BYTES → len (content d) + len t ≤ u64_max →
  holds t (with_journal (content d ++ t) d) s.
Proof.
  intros [Hs Hv _ _ _ (ck & lines & mus & Hck & Hc & Hrest)] Hn Ht Hsize.
  constructor; simpl; [done|done|by rewrite len_app|done|done|].
  exists ck, lines, mus. rewrite Hc, app_nil_r. done.
Qed.

(** Any number of bytes of an append: a torn rest or the whole record. *)
Lemma holds_partial d s s' b n :
  holds [] d s → committed s s' → newline ∉ b → record_ok (b ++ [newline]) (mutation_of s s') →
  len (content d) + len (b ++ [newline]) ≤ u64_max →
  let d' := with_journal (content d ++ take n (b ++ [newline])) d in
  recoverable d' s ∨ recoverable d' s'.
Proof.
  intros Hh Hcm Hb Hr Hsize d'. unfold d'. destruct (decide (length b < n)%nat) as [Hn|Hn].
  - right. exists []. rewrite take_ge by (rewrite length_app; simpl; lia). by apply (holds_append d s).
  - left. exists (take n b). rewrite take_app_le by lia. apply holds_torn; [done| | |].
    + intros (i & Hi & _)%elem_of_take. apply Hb. by eapply list_elem_of_lookup_2.
    + pose proof (ro_length _ _ Hr) as Hlen. rewrite len_app in Hlen. unfold len in *.
      rewrite length_take. lia.
    + rewrite len_app in Hsize. unfold len in *. rewrite length_take. lia.
Qed.

(** The record of a change fits a line of the journal. *)
Definition record_fits (s s' : BrokerState) (d : Disk) : Prop :=
  match encode_journal_mutation s' (state_diff s s') with
  | Ok b => len b ≤ MAX_JOURNAL_RECORD_BYTES ∧ len (content d) + len b ≤ u64_max
  | Err _ => False
  end.

Lemma append_spec io d s s' payload :
  holds [] d s → committed s s' → record_fits s s' d →
  encode_journal_mutation s' (state_diff s s') = Ok payload →
  match append_synced io payload d with
  | (Ok _, d') => holds [] d' s'
  | (Err _, d') => io ≠ None ∧ (recoverable d' s ∨ recoverable d' s')
  end.
Proof.
  intros Hh Hcm Hfit Henc. destruct (journal_line s s' Hcm) as (b & Hb & Hn & Hj & Hdec).
  unfold record_fits in Hfit. rewrite Hb in Hfit, Henc. destruct Hfit as [Hlen Hsize].
  injection Henc as <-. assert (record_ok (b ++ [newline]) (mutation_of s s')) as Hr by (split; eauto).
  assert (recoverable d s) as Hd by by exists [].
  set (torn := kept io d (λ n, with_journal (content d ++ take n (b ++ [newline])) d)).
  assert (recoverable torn s ∨ recoverable torn s') as Htorn.
  { unfold torn, kept. destruct io as [[? ? [n|]]|]; [|by left..]. by apply holds_partial. }
  unfold append_synced, ensure_parent_directory.
  do 3 io_step.
  cbv zeta. fold torn.
  do 3 io_step.
  assert (holds [] (with_journal (content d ++ (b ++ [newline])) d) s') by by apply (holds_append d s).
  destruct (negb _); [|done]. unfold sync_directory.
  io_step.
  destruct (io_call_cases io SiteAppend "directory fsync failed") as [->|(?&->&?)]; auto.
Qed.

(** ** Compaction *)

(** A snapshot of a later state makes every record of the journal stale. *)
Lemma holds_snapshot d s s' payload j :
  holds [] d s → StateInv s' → valid_state s' → s_revision s ≤ s_revision s' →
  encode_snapshot (BrokerState_checkpoint s') = Ok payload →
  j = d_journal d ∨ j = Some [] → holds [] (MkDisk (Some payload) j) s'.
Proof.
  intros [_ _ Hsize _ _ (ck & lines & mus & _ & Hc & Hl & Hrev & _)] Hs Hv Hle Henc Hj.
  destruct (snapshot_reads_back s' Hs Hv) as (b & Hb & Hdec).
  assert (b = payload) as -> by congruence.
  assert (load_snapshot None (MkDisk (Some payload) j) = Ok (BrokerState_checkpoint s')) as Hload.
  { unfold load_snapshot. simpl. by rewrite Hdec. }
  constructor; simpl; [done|done|by destruct Hj as [-> | ->]|apply not_elem_of_nil|done|].
  destruct Hj as [-> | ->].
  - exists (BrokerState_checkpoint s'), lines, mus. split_and!; [done..| |].
    + eapply Forall_impl; [exact Hrev|]. simpl. lia.
    + apply stale_replays. eapply Forall_impl; [exact Hrev|]. simpl. lia.
  - exists (BrokerState_checkpoint s'), [], []. split_and!; try done; constructor.
Qed.

Lemma write_snapshot_spec io payload d :
  match write_snapshot_atomic io payload d with
  | (Ok _, d') => d' = with_snapshot payload d
  | (Err _, d') => io ≠ None ∧ (d' = d ∨ d' = with_snapshot payload d)
  end.
Proof.
  assert (kept io d (λ _, with_snapshot payload d) = d ∨
          kept io d (λ _, with_snapshot payload d) = with_snapshot payload d) as Hk.
  { unfold kept. destruct io as [[? ? [n|]]|]; auto. }
  unfold write_snapshot_atomic, ensure_parent_directory, sync_directory. by repeat io_step.
Qed.

Lemma truncate_spec io d :
  match truncate_synced io d with
  | (Ok _, d') => d' = with_journal [] d
  | (Err _, d') => io ≠ None ∧ (d' = d ∨ d' = with_journal [] d)
  end.
Proof.
  assert (kept io d (λ _, with_journal [] d) = d ∨
          kept io d (λ _, with_journal [] d) = with_journal [] d) as Hk.
  { unfold kept. destruct io as [[? ? [n|]]|]; auto. }
  unfold truncate_synced, ensure_parent_directory, sync_directory. by repeat io_step.
Qed.

Lemma compact_spec io s s' r d :
  holds [] d s → StateInv s' → valid_state s' → s_revision s ≤ s_revision s' →
  match compact io s' r d with
  | (Ok _, (_, d')) => holds [] d' s'
  | (Err _, (_, d')) => io ≠ None ∧ (holds [] d' s ∨ holds [] d' s')
  end.
Proof.
  intros Hh Hs Hv Hle. unfold compact.
  destruct (snapshot_reads_back s' Hs Hv) as (payload & Hb & _). rewrite Hb. simpl.
  pose proof (λ j, holds_snapshot d s s' payload j Hh Hs Hv Hle Hb) as Hsnap.
  pose proof (write_snapshot_spec io payload d) as Hw.
  destruct (write_snapshot_atomic io payload d) as [[[]|e] d1].
  - subst d1. pose proof (truncate_spec io (with_snapshot payload d)) as Ht.
    destruct (truncate_synced io _) as [[[]|e] d2].
    + subst d2. by apply Hsnap; right.
    + destruct Ht as [? [-> | ->]]; (split; [done|]); right; apply Hsnap; auto.
  - destruct Hw as [? [-> | ->]]; (split; [done|]); [by left|right; apply Hsnap; by left].
Qed.

(** ** Commits *)

(** A commit that is acknowledged moves the held state on; one that fails
    leaves the state before or after it held. *)
Lemma commit_spec io s s' r d :
  holds [] d s → committed s s' → record_fits s s' d →
  match commit io s' (state_diff s s') r d with
  | (Ok _, (_, d')) => holds [] d' s'
  | (Err _, (_, d')) => recoverable d' s ∨ recoverable d' s'
  end.
Proof.
  intros Hh Hcm Hfit. pose proof (cm_revision _ _ Hcm) as Hrev.
  unfold commit. destruct (r_compaction_deferred r).
  - pose proof (compact_spec io s s' r d Hh (cm_after _ _ Hcm) (cm_valid_after _ _ Hcm) ltac:(lia)) as Hc.
    destruct (compact io s' r d) as [[[]|e] [r1 d1]]; [done|].
    destruct Hc as [_ [Hc|Hc]]; [left|right]; by exists [].
  - destruct (encode_journal_mutation s' (state_diff s s')) as [payload|e] eqn:Henc; simpl;
      [|left; by exists []].
    pose proof (append_spec io d s s' payload Hh Hcm Hfit Henc) as Ha.
    destruct (append_synced io payload d) as [[[]|e] d1]; [|tauto].
    destruct (checked_add (r_journal_bytes r) _) as [jb|]; simpl; [|right; by exists []].
    destruct (checked_add (r_commits_since_compaction r) _) as [cs|]; simpl; [|right; by exists []].
    destruct (should_compact _); [|done].
    match goal with |- context [compact io s' ?r1 d1] =>
      pose proof (compact_spec io s' s' r1 d1 Ha (cm_after _ _ Hcm) (cm_valid_after _ _ Hcm)
        ltac:(lia)) as Hc;
      destruct (compact io s' r1 d1) as [[[]|e] [r2 d2]]; tauto
    end.
Qed.
End holds.
