(* ===== verification/Standalone.v ===== *)
(** * The standalone broker ([agent-broker-consensus/src/standalone.rs])

    The state machine behind a durable repository: a command is acknowledged
    only after its change is on disk, and a durability failure stops the
    adapter for good.  The second half puts the adapter into a world in which
    the process can crash and restart. *)

From S2P Require Import Prelude Values Task Group Messages Machine Recovery Spec Invariant Effect.
From S2P Require Import Broker RecoveryProps Changes Scenarios Valid Display Wire Journal.
From S2P Require Import Repository.

Record StandaloneConsensusAdapter := MkAdapter {
  sa_repository : Repository;
  sa_machine : BrokerStateMachine;
  sa_poisoned : bool;
}.

Definition FAIL_STOPPED_MESSAGE : string :=
  "Standalone Broker is fail-stopped after a durability failure.".

Definition persistence_error (e : RepositoryError) : BrokerError :=
  BrokerError_new PersistenceError (to_string e).

Section standalone.
Context `{J : JsonCodec}.

Definition Standalone_new (io : option Fault) (repository : Repository) (d : Disk) :
    result StandaloneConsensusAdapter BrokerError * Disk :=
  let '(loaded, (repository, d)) := load io repository d in
  let? checkpoint := map_err persistence_error loaded else d in
  let? machine := map_err
    (λ e, BrokerError_new PersistenceError
            ("durable Broker checkpoint is invalid: " +:+ to_string e))
    (from_checkpoint checkpoint) else d in
  (Ok (MkAdapter repository machine false), d).

Definition adapter_term (a : StandaloneConsensusAdapter) : Term := s_term (m_state (sa_machine a)).
Definition adapter_revision (a : StandaloneConsensusAdapter) : Revision := m_revision (sa_machine a).

Definition adapter_group_directory (a : StandaloneConsensusAdapter) :
    result ConsumerGroupDirectory BrokerError :=
  if sa_poisoned a then Err (BrokerError_new PersistenceError FAIL_STOPPED_MESSAGE)
  else Ok (group_directory (m_state (sa_machine a))).

Definition propose (io : option Fault) (cmd : BrokerCommand) (a : StandaloneConsensusAdapter)
    (d : Disk) : result BrokerMutationResult BrokerError * (StandaloneConsensusAdapter * Disk) :=
  if sa_poisoned a then (Err (BrokerError_new PersistenceError FAIL_STOPPED_MESSAGE), (a, d)) else
  let before_revision := m_revision (sa_machine a) in
  let '(applied, machine) := apply cmd (sa_machine a) in
  let a := MkAdapter (sa_repository a) machine (sa_poisoned a) in
  let? applied := map_err from_state_machine_error applied else (a, d) in
  if m_revision machine =? before_revision then (Ok (am_result applied), (a, d)) else
  match commit io (m_state machine) (am_changes applied) (sa_repository a) d with
  | (Err e, (repository, d)) => (Err (persistence_error e), (MkAdapter repository machine true, d))
  | (Ok _, (repository, d)) =>
      (Ok (am_result applied), (MkAdapter repository machine (sa_poisoned a), d))
  end.

(** ** A world with crashes *)

(** The running adapter, if the process is up, and the disk.  [w_acked] is the
    state after the last command that was answered; [w_doubt] the state of a
    command whose commit failed. *)
Record World := MkWorld {
  w_adapter : option StandaloneConsensusAdapter;
  w_disk : Disk;
  w_acked : BrokerState;
  w_doubt : option BrokerState;
}.

(** The command is admissible, carries validated texts, and the journal record
    of its change is within the limits of the file format. *)
Definition proposal_ok (cmd : BrokerCommand) (a : StandaloneConsensusAdapter) (d : Disk) : Prop :=
  let m := sa_machine a in
  let m' := (apply cmd m).2 in
  admissible cmd m ∧ valid_command cmd ∧
  (m_revision m' ≠ m_revision m → record_fits (m_state m) (m_state m') d).

Inductive world_step : World → World → Prop :=
  | step_propose io cmd a d acked doubt r a' d' :
      sa_poisoned a = false → proposal_ok cmd a d → propose io cmd a d = (r, (a', d')) →
      world_step (MkWorld (Some a) d acked doubt)
        (if sa_poisoned a' then MkWorld (Some a') d' acked (Some (m_state (sa_machine a')))
         else MkWorld (Some a') d' (m_state (sa_machine a')) None)
  | step_refused io cmd a d acked doubt r a' d' :
      sa_poisoned a = true → propose io cmd a d = (r, (a', d')) →
      world_step (MkWorld (Some a) d acked doubt) (MkWorld (Some a') d' acked doubt)
  | step_crash a d acked doubt :
      world_step (MkWorld (Some a) d acked doubt) (MkWorld None d acked doubt)
  | step_restart io policy d acked doubt a d' :
      Standalone_new io (Repository_new policy) d = (Ok a, d') →
      world_step (MkWorld None d acked doubt)
        (MkWorld (Some a) d' (m_state (sa_machine a)) None)
  | step_restart_fails io policy d acked doubt e d' :
      Standalone_new io (Repository_new policy) d = (Err e, d') →
      world_step (MkWorld None d acked doubt) (MkWorld None d' acked doubt).

(** An empty disk and no process. *)
Definition world_start : World := MkWorld None (MkDisk None None) BrokerState_default None.

End standalone.

(** * The standalone broker loses nothing it acknowledged *)

Section props.
Context `{L : JsonLaws}.

(** The disk holds the acknowledged state or the one in doubt; a running
    adapter that is not stopped serves exactly what the disk holds. *)
Definition disk_ok (w : World) : Prop :=
  recoverable (w_disk w) (w_acked w) ∨ ∃ s, w_doubt w = Some s ∧ recoverable (w_disk w) s.

Definition adapter_ok (w : World) : Prop :=
  ∀ a, w_adapter w = Some a → sa_poisoned a = false →
    Inv (sa_machine a) ∧ m_state (sa_machine a) = w_acked w ∧ w_doubt w = None ∧
    holds [] (w_disk w) (w_acked w).

Lemma recoverable_state d s : recoverable d s → StateInv s ∧ valid_state s.
Proof. intros [t []]. done. Qed.

(** One proposal to an adapter in good order. *)
Lemma propose_spec io cmd a d :
  Inv (sa_machine a) → sa_poisoned a = false → holds [] d (m_state (sa_machine a)) →
  proposal_ok cmd a d →
  let '(r, (a', d')) := propose io cmd a d in
  Inv (sa_machine a') ∧
  if sa_poisoned a' then
    recoverable d' (m_state (sa_machine a)) ∨ recoverable d' (m_state (sa_machine a'))
  else holds [] d' (m_state (sa_machine a')).
Proof.
  intros Hi Hp Hh (Ha & Hv & Hfit). unfold propose. rewrite Hp. simpl in Hfit.
  destruct (apply_refines cmd (sa_machine a) Hi Ha) as (Hi' & _ & _).
  pose proof (apply_effect cmd (sa_machine a) Hi Ha) as He.
  pose proof (λ am m', apply_committed cmd (sa_machine a) am m' Hi (ho_valid _ _ _ Hh) Ha Hv) as Hc.
  destruct (apply cmd (sa_machine a)) as [[am|e] m'] eqn:Hap; simpl in *; [|by rewrite He].
  destruct (N.eqb_spec (m_revision m') (m_revision (sa_machine a))) as [Heq|Hne].
  { simpl. split; [done|].
    by rewrite (sv_stamped _ _ (effect_evolves _ _ (inv_state _ Hi) He) Heq). }
  destruct (Hc am m' eq_refl Hne) as [Hcm ->].
  pose proof (commit_spec io _ _ (sa_repository a) d Hh Hcm (Hfit Hne)) as Hco.
  destruct (commit io _ _ _ d) as [[[]|e] [r1 d1]]; simpl; [done|]. split; [done|]. tauto.
Qed.

Lemma restart_spec io r d s :
  recoverable d s →
  match Standalone_new io r d with
  | (Ok a, d') => Inv (sa_machine a) ∧ m_state (sa_machine a) = s ∧ sa_poisoned a = false ∧
      holds [] d' s
  | (Err _, d') => io ≠ None ∧ recoverable d' s
  end.
Proof.
  intros [tail Hh]. unfold Standalone_new. pose proof (load_spec io r d tail s Hh) as Hl.
  destruct (load io r d) as [[ck|e] [r1 d1]]; simpl; [|done]. destruct Hl as (-> & Hd1 & _ & _).
  destruct (recover s (ho_state _ _ _ Hh)) as (m & -> & Hm & Hi). simpl. done.
Qed.

Lemma world_step_ok w w' :
  world_step w w' → disk_ok w → adapter_ok w → disk_ok w' ∧ adapter_ok w'.
Proof.
  destruct 1 as [io cmd a d acked doubt r a' d' Hp Hok Hpr|io cmd a d acked doubt r a' d' Hp Hpr|
    a d acked doubt|io policy d acked doubt a d' Hs|io policy d acked doubt e d' Hs];
    intros Hd Hadap.
  - destruct (Hadap a eq_refl Hp) as (Hi & Hst & Hdb & Hh). simpl in *. subst acked doubt.
    pose proof (propose_spec io cmd a d Hi Hp Hh Hok) as Hps. rewrite Hpr in Hps.
    destruct Hps as [Hi' Hps]. destruct (sa_poisoned a') eqn:Hp'.
    + split; [unfold disk_ok; simpl; naive_solver|]. intros b [= <-] Hb. congruence.
    + split; [left; by exists []|]. intros b [= <-] _. done.
  - unfold propose in Hpr. rewrite Hp in Hpr. injection Hpr as <- <- <-.
    split; [done|]. intros b [= <-] Hb. congruence.
  - split; [done|]. by intros b.
  - assert (∃ s, recoverable d s) as [s Hrec] by (destruct Hd as [?|(s & _ & ?)]; eauto).
    pose proof (restart_spec io (Repository_new policy) d s Hrec) as Hr. rewrite Hs in Hr.
    destruct Hr as (Hi & <- & Hp & Hh). split; [left; by exists []|].
    intros b [= <-] _. done.
  - split; [|by intros b]. unfold disk_ok in *. simpl in *.
    destruct Hd as [Hd|(s & Hs' & Hd)]; [left|right; exists s; split; [done|]];
      pose proof (restart_spec io (Repository_new policy) d _ Hd) as Hr; rewrite Hs in Hr; tauto.
Qed.

Lemma world_ok w : rtc world_step world_start w → disk_ok w ∧ adapter_ok w.
Proof.
  intros Hr. assert (disk_ok world_start ∧ adapter_ok world_start) as Hok.
  { split; [|by intros a]. left. exists []. apply empty_disk_holds. }
  revert Hok. generalize world_start, Hr. clear Hr. intros w0 Hr.
  induction Hr as [|w1 w2 w3 Hs _ IH]; [done|]. intros [Hd Ha]. apply IH. by eapply world_step_ok.
Qed.
End props.
