(* ===== verification/Durability.v ===== *)
(** * What the storage layer guarantees

    The main theorems about snapshots, the journal, the repository and the
    standalone broker, each with a concrete instance. *)

From S2P Require Import Prelude Values Task Group Messages Machine Recovery Spec Invariant Effect.
From S2P Require Import Broker RecoveryProps Changes Scenarios Valid Display Wire Journal.
From S2P Require Import Repository Standalone.

(** ** Evaluating a world *)

Inductive Event :=
  | EvPropose (io : option Fault) (cmd : BrokerCommand)
  | EvCrash
  | EvRestart (io : option Fault).

Definition default_repository : Repository := Repository_new JournalCompactionPolicy_default.

Definition world_next `{JsonCodec} (e : Event) (w : World) : World :=
  let '(MkWorld oa d acked doubt) := w in
  match e, oa with
  | EvPropose io cmd, Some a =>
      let '(_, (a', d')) := propose io cmd a d in
      if sa_poisoned a then MkWorld (Some a') d' acked doubt
      else if sa_poisoned a' then MkWorld (Some a') d' acked (Some (m_state (sa_machine a')))
      else MkWorld (Some a') d' (m_state (sa_machine a')) None
  | EvCrash, Some _ => MkWorld None d acked doubt
  | EvRestart io, None =>
      match Standalone_new io default_repository d with
      | (Ok a, d') => MkWorld (Some a) d' (m_state (sa_machine a)) None
      | (Err _, d') => MkWorld None d' acked doubt
      end
  | _, _ => w
  end.

Definition event_ok `{JsonCodec} (e : Event) (w : World) : Prop :=
  match e, w_adapter w with
  | EvPropose _ cmd, Some a => sa_poisoned a = false → proposal_ok cmd a (w_disk w)
  | EvCrash, Some _ | EvRestart _, None => True
  | _, _ => False
  end.

#[export] Instance record_fits_dec `{JsonCodec} s s' d : Decision (record_fits s s' d).
Proof. unfold record_fits. destruct (encode_journal_mutation _ _); apply _. Defined.

#[export] Instance event_ok_dec `{JsonCodec} e w : Decision (event_ok e w).
Proof. unfold event_ok, proposal_ok. destruct e, (w_adapter w); apply _. Defined.

Fixpoint events_ok `{JsonCodec} (es : list Event) (w : World) : Prop :=
  match es with
  | [] => True
  | e :: es => event_ok e w ∧ events_ok es (world_next e w)
  end.

#[export] Instance events_ok_dec `{JsonCodec} es w : Decision (events_ok es w).
Proof. revert w. induction es; intros w; simpl; apply _. Defined.

Definition world_run `{JsonCodec} (es : list Event) (w : World) : World :=
  foldl (λ w e, world_next e w) w es.

Lemma world_next_step `{JsonCodec} e w : event_ok e w → world_step w (world_next e w).
Proof.
  destruct w as [oa d acked doubt]. unfold event_ok. simpl.
  destruct e as [io cmd| |io], oa as [a|]; try done; intros Hok.
  - destruct (propose io cmd a d) as [r [a' d']] eqn:E. destruct (sa_poisoned a) eqn:Hp.
    + by eapply step_refused.
    + eapply step_propose; [done|by apply Hok|exact E].
  - constructor.
  - destruct (Standalone_new io default_repository d) as [[a|e] d'] eqn:E.
    + by eapply step_restart.
    + by eapply step_restart_fails.
Qed.

Lemma world_run_reachable `{JsonCodec} es w : events_ok es w → rtc world_step w (world_run es w).
Proof.
  revert w. induction es as [|e es IH]; intros w; [done|]. intros [He Hes].
  eapply rtc_l; [by apply world_next_step|]. by apply IH.
Qed.

(** An append of which 20 bytes reach the disk. *)
Definition torn_append : Fault :=
  {| f_site := SiteAppend; f_operation := "journal fsync failed"; f_kept := Some 20%nat;
     f_source := "device full" |}.

(** A broker that is stopped by a torn append, and crashes. *)
Definition crashed : World :=
  world_run [EvRestart None; EvPropose None (mk_namespace "a"); EvPropose None (mk_group "a" "ga");
             EvPropose (Some torn_append) (mk_publish "a" "t1" 2);
             EvPropose None (mk_publish "a" "t2" 3); EvCrash] world_start.

Lemma crashed_reachable : rtc world_step world_start crashed.
Proof. apply world_run_reachable. by_compute. Qed.

(** ** The standalone broker *)

(** A restart on the disk of [w] succeeds with the acknowledged state, or with
    the state of the one command whose commit failed; while a broker that has
    not stopped runs, there is no such command and its state is the one. *)
Definition restarts_right `{JsonCodec} (policy : JournalCompactionPolicy) (w : World) : Prop :=
  match Standalone_new None (Repository_new policy) (w_disk w) with
  | (Ok a, _) =>
      Inv (sa_machine a) ∧ sa_poisoned a = false ∧
      (m_state (sa_machine a) = w_acked w ∨ w_doubt w = Some (m_state (sa_machine a))) ∧
      (∀ b, w_adapter w = Some b → sa_poisoned b = false →
         m_state (sa_machine a) = m_state (sa_machine b))
  | (Err _, _) => False
  end.

(** C2: the standalone broker loses no acknowledged command.  Every proposed
    command is one that [proposal_ok] admits: admissible for the broker (no
    overflow of a claim, no task id reused while an expiration entry of another
    namespace names it), of validated texts, and with a journal record within the
    limits of the file format.  Then, whichever file-system calls fail and wherever
    the process crashes, also in the middle of an append, a snapshot replacement
    or a truncation, a restart recovers exactly the acknowledged state, or that
    state and the one command whose commit failed. *)
Theorem acknowledged_commands_survive (J : JsonCodec) (L : JsonLaws J) policy w :
  rtc world_step world_start w → restarts_right policy w.
Proof.
  intros [Hd Ha]%world_ok. unfold restarts_right.
  assert (∃ s, recoverable (w_disk w) s ∧ (s = w_acked w ∨ w_doubt w = Some s)) as (s & Hs & Hcase)
    by (destruct Hd as [?|(s & ? & ?)]; eauto).
  pose proof (restart_spec None (Repository_new policy) (w_disk w) s Hs) as Hr.
  destruct (Standalone_new _ _ _) as [[a|e] d']; [|by destruct Hr].
  destruct Hr as (Hi & -> & Hp & _). split_and!; [done|done|done|].
  intros b Hb Hpb. destruct (Ha b Hb Hpb) as (_ & -> & Hnone & _).
  destruct Hcase as [|Hc]; [done|congruence].
Qed.

Lemma acknowledged_commands_survive_witness :
  restarts_right JournalCompactionPolicy_default crashed.
Proof. apply acknowledged_commands_survive; [apply digit_laws|apply crashed_reachable]. Defined.

(** ** The repository *)

(** The counters of the repository have room for the record of the change. *)
Definition accounting_room `{JsonCodec} (s s' : BrokerState) (r : Repository) : Prop :=
  match encode_journal_mutation s' (state_diff s s') with
  | Ok b => r_journal_bytes r + len b ≤ u64_max ∧ r_commits_since_compaction r + 1 ≤ u64_max
  | Err _ => False
  end.

#[export] Instance accounting_room_dec `{JsonCodec} s s' r : Decision (accounting_room s s' r).
Proof. unfold accounting_room. destruct (encode_journal_mutation _ _); apply _. Defined.

(** Without a fault a commit is acknowledged. *)
Lemma commit_succeeds (J : JsonCodec) (L : JsonLaws J) s s' r d :
  holds [] d s → committed s s' → record_fits s s' d → accounting_room s s' r →
  is_ok (commit None s' (state_diff s s') r d).1 = true.
Proof.
  intros Hh Hcm Hfit Hroom. unfold commit. destruct (r_compaction_deferred r).
  - pose proof (compact_spec None s s' r d Hh (cm_after _ _ Hcm) (cm_valid_after _ _ Hcm)
      ltac:(pose proof (cm_revision _ _ Hcm); lia)) as Hc.
    destruct (compact None s' r d) as [[[]|e] [r1 d1]]; [done|]. by destruct Hc.
  - unfold accounting_room in Hroom.
    destruct (encode_journal_mutation s' (state_diff s s')) as [b|] eqn:Henc; [|done]. simpl.
    destruct Hroom as [H1 H2]. destruct (append_synced None b d) as [[[]|e] d1] eqn:Ea.
    2: { pose proof (append_spec None d s s' b Hh Hcm Hfit Henc) as Ha. rewrite Ea in Ha. by destruct Ha. }
    rewrite (proj2 (checked_add_Some _ _ _) (conj eq_refl H1)). simpl.
    rewrite (proj2 (checked_add_Some _ _ _) (conj eq_refl H2)). simpl.
    destruct (should_compact _); [|done]. by destruct (compact _ _ _ _) as [? []].
Qed.

(** What one commit of the change from [s] to [s'] does. *)
Definition commits_atomically `{JsonCodec} (io : option Fault) (s s' : BrokerState) (r : Repository)
    (d : Disk) : Prop :=
  match commit io s' (state_diff s s') r d with
  | (Ok _, (_, d')) => holds [] d' s'
  | (Err _, (_, d')) => io ≠ None ∧ (recoverable d' s ∨ recoverable d' s')
  end.

(** A commit is atomic and durable: on a disk that holds the state before
    it, an acknowledged commit leaves a disk that holds the state after it, with
    or without compaction and also when compaction fails; a commit fails only
    because a file-system call failed, and then the disk still holds the state
    before or after. *)
Theorem commit_is_atomic (J : JsonCodec) (L : JsonLaws J) io s s' r d :
  holds [] d s → committed s s' → record_fits s s' d → accounting_room s s' r →
  commits_atomically io s s' r d.
Proof.
  intros Hh Hcm Hfit Hroom. pose proof (commit_spec io s s' r d Hh Hcm Hfit) as Hc.
  pose proof (commit_succeeds J L s s' r d Hh Hcm Hfit Hroom) as Hok.
  unfold commits_atomically. destruct (commit io _ _ r d) as [[[]|e] [r' d']] eqn:E; [done|].
  split; [|done]. intros ->. by rewrite E in Hok.
Qed.

Definition one_namespace : BrokerStateMachine := run [mk_namespace "a"].

Lemma one_namespace_committed : committed BrokerState_default (m_state one_namespace).
Proof.
  destruct (apply (mk_namespace "a") BrokerStateMachine_default) as [[am|e] m'] eqn:E;
    [|vm_compute in E; discriminate E].
  assert (m' = one_namespace) as -> by (unfold one_namespace, run; cbn [apply_all]; by rewrite E).
  assert (m_revision one_namespace ≠ m_revision BrokerStateMachine_default) as Hne
    by (vm_compute; discriminate).
  refine (proj1 (apply_committed (mk_namespace "a") BrokerStateMachine_default am one_namespace
    default_inv _ _ _ E Hne)); by_compute.
Qed.

Lemma commit_is_atomic_witness :
  commits_atomically (Some torn_append) BrokerState_default (m_state one_namespace)
    default_repository (MkDisk None None).
Proof.
  apply commit_is_atomic;
    [apply digit_laws|apply empty_disk_holds|apply one_namespace_committed|by_compute|by_compute].
Defined.

(** ** Journal and snapshot *)

(** Replaying the journal record of a change on the checkpoint before it
    gives the checkpoint after it; on a checkpoint that already has the change
    the record is skipped. *)
Theorem journal_record_replays (J : JsonCodec) (L : JsonLaws J) s s' :
  committed s s' →
  ∃ b mu, encode_journal_mutation s' (state_diff s s') = Ok b ∧
    decode_journal_mutation b = Ok mu ∧
    apply_journal_mutation mu (BrokerState_checkpoint s) = (Ok true, BrokerState_checkpoint s') ∧
    (∀ ck, s_revision s' ≤ bck_revision ck → apply_journal_mutation mu ck = (Ok false, ck)).
Proof.
  intros Hc. destruct (journal_line s s' Hc) as (b & Hb & _ & _ & Hdec).
  exists (b ++ [newline])%list, (mutation_of s s'). split_and!; [done|done|by apply journal_replays|].
  intros ck. apply journal_ignores_stale.
Qed.

Lemma journal_record_replays_witness :
  ∃ b mu, encode_journal_mutation (m_state one_namespace)
      (state_diff BrokerState_default (m_state one_namespace)) = Ok b ∧
    decode_journal_mutation b = Ok mu ∧
    apply_journal_mutation mu (BrokerState_checkpoint BrokerState_default) =
      (Ok true, BrokerState_checkpoint (m_state one_namespace)) ∧
    (∀ ck, s_revision (m_state one_namespace) ≤ bck_revision ck →
       apply_journal_mutation mu ck = (Ok false, ck)).
Proof. apply journal_record_replays; [apply digit_laws|apply one_namespace_committed]. Defined.

(** Replay is transactional whatever record comes: a record is skipped
    exactly when its revision is not newer, an error leaves the checkpoint as it
    was, and an applied record advances the revision by one, never moves the
    term back, leaves none of the tasks it deletes and gives a checkpoint that
    restores. *)
Theorem replay_is_transactional mu ck :
  let '(r, ck') := apply_journal_mutation mu ck in
  match r with
  | Err _ => ck' = ck ∧ bck_revision ck < jm_revision mu
  | Ok false => ck' = ck ∧ jm_revision mu ≤ bck_revision ck
  | Ok true =>
      bck_revision ck' = bck_revision ck + 1 ∧ bck_term ck ≤ bck_term ck' ∧
      (∃ m, from_checkpoint ck' = Ok m) ∧
      Forall (λ t, tck_task_id t ∉ jm_deleted_tasks mu) (bck_tasks ck')
  end.
Proof.
  unfold apply_journal_mutation. destruct (N.leb_spec (jm_revision mu) (bck_revision ck)); [done|].
  unfold Revision_next. destruct (counter_next _ _) as [expected|] eqn:Hn; simpl; [|done].
  apply counter_next_ok in Hn as [-> _].
  destruct (N.eqb_spec (jm_revision mu) (bck_revision ck + 1)) as [Heq|]; simpl; [|done].
  destruct (N.ltb_spec (jm_term mu) (bck_term ck)); [done|].
  unfold mutated_checkpoint.
  destruct (upsert_all upsert_namespace _ _) as [ns|]; [|done].
  destruct (upsert_all upsert_group _ _) as [gs|]; [|done].
  destruct (upsert_all upsert_task _ _) as [ts|]; [|done].
  destruct (from_checkpoint _) as [m|] eqn:Hm; simpl; [|done].
  split_and!; [done|done|eauto|]. apply Forall_forall. intros t.
  rewrite sort_by_key_perm, list_elem_of_filter, elem_of_list_to_set. tauto.
Qed.

(** The snapshot of a well-formed state of validated texts reads back as
    the checkpoint it was written from. *)
Theorem snapshot_roundtrip (J : JsonCodec) (L : JsonLaws J) s :
  StateInv s → valid_state s →
  ∃ b, encode_snapshot (BrokerState_checkpoint s) = Ok b ∧
       decode_snapshot b = Ok (BrokerState_checkpoint s).
Proof. apply snapshot_reads_back. Qed.

Lemma snapshot_roundtrip_witness :
  ∃ b, encode_snapshot (BrokerState_checkpoint (m_state busy_machine)) = Ok b ∧
       decode_snapshot b = Ok (BrokerState_checkpoint (m_state busy_machine)).
Proof. apply snapshot_roundtrip; [apply digit_laws|apply busy_inv|by_compute]. Defined.

(** * Records beyond the limit of the journal reader

    The reader refuses records of more than 128 MiB; the writer has no such
    limit.  A change whose record is larger is acknowledged, and recovery fails
    from then on until the journal is compacted. *)







(** ** A codec that pads *)











