(* ===== verification/Replicated.v ===== *)
(** * Replicated commands and responses ([agent-broker-consensus/src/replicated_command.rs],
    [replicated_response.rs])

    The representation of commands and answers in the replicated log.  It holds
    plain values; reading it back runs every validating constructor again, so log
    data cannot bypass the invariants of the domain.  Words and sizes are 64
    bits. *)

From S2P Require Import Prelude Values Task Group Messages Display.

Inductive ReplicatedBrokerCommandV1 :=
  | V1EnsureNamespace (namespace_id : string) (max_namespaces : N)
  | V1PublishTask (namespace_id task_id objective : string) (created_at_ms max_namespace_tasks : N)
  | V1EnsureConsumerGroup (namespace_id group_id : string) (max_namespace_groups : N)
  | V1JoinConsumerGroup (group_id member_id : string) (capabilities : list string)
      (now_ms max_group_members : N)
  | V1Heartbeat (group_id member_id : string) (expected_generation now_ms : N)
  | V1LeaveConsumerGroup (group_id member_id : string) (expected_generation : N)
  | V1ReapStaleMembers (stale_before_ms max_members : N)
  | V1ClaimTask (group_id member_id : string) (expected_term expected_generation : N)
      (lease_id : string) (now_ms lease_duration_ms : N)
  | V1RenewTaskLease (task_id group_id member_id : string)
      (expected_term expected_generation expected_lease_epoch : N) (lease_id : string)
      (now_ms lease_duration_ms : N)
  | V1CompleteTask (task_id group_id member_id : string)
      (expected_term expected_generation expected_lease_epoch : N) (lease_id result : string)
      (completed_at_ms : N)
  | V1PruneCompletedTasks (completed_before_ms max_tasks : N)
  | V1AdvanceTerm (expected_term new_term : N)
  | V1AcquireCommandSessionOwner (session_id : string) (expected_owner_epoch : N)
      (owner_instance_id : string).

#[export] Instance ReplicatedBrokerCommandV1_eq_dec : EqDecision ReplicatedBrokerCommandV1.
Proof. solve_decision. Defined.

(** ** Retry matching

    Two proposals are the same client request when they agree on everything the
    client chose: times observed by the server and its capacity limits are
    ignored. *)

Definition same_claim_request (left right : ReplicatedBrokerCommandV1) : bool :=
  match left, right with
  | V1ClaimTask g m t gen l _ dur, V1ClaimTask g' m' t' gen' l' _ dur' =>
      bool_decide (g = g') && bool_decide (m = m') && (t =? t') && (gen =? gen') &&
      bool_decide (l = l') && (dur =? dur')
  | _, _ => false
  end.

Definition same_renew_request (left right : ReplicatedBrokerCommandV1) : bool :=
  match left, right with
  | V1RenewTaskLease id g m t gen ep l _ dur, V1RenewTaskLease id' g' m' t' gen' ep' l' _ dur' =>
      bool_decide (id = id') && bool_decide (g = g') && bool_decide (m = m') && (t =? t') &&
      (gen =? gen') && (ep =? ep') && bool_decide (l = l') && (dur =? dur')
  | _, _ => false
  end.

Definition same_complete_request (left right : ReplicatedBrokerCommandV1) : bool :=
  match left, right with
  | V1CompleteTask id g m t gen ep l r _, V1CompleteTask id' g' m' t' gen' ep' l' r' _ =>
      bool_decide (id = id') && bool_decide (g = g') && bool_decide (m = m') && (t =? t') &&
      (gen =? gen') && (ep =? ep') && bool_decide (l = l') && bool_decide (r = r')
  | _, _ => false
  end.

Definition same_identified_request (self other : ReplicatedBrokerCommandV1) : bool :=
  match self, other with
  | V1EnsureNamespace ns _, V1EnsureNamespace ns' _ => bool_decide (ns = ns')
  | V1PublishTask ns id obj _ _, V1PublishTask ns' id' obj' _ _ =>
      bool_decide (ns = ns') && bool_decide (id = id') && bool_decide (obj = obj')
  | V1EnsureConsumerGroup ns g _, V1EnsureConsumerGroup ns' g' _ =>
      bool_decide (ns = ns') && bool_decide (g = g')
  | V1JoinConsumerGroup g m caps _ _, V1JoinConsumerGroup g' m' caps' _ _ =>
      bool_decide (g = g') && bool_decide (m = m') && bool_decide (caps = caps')
  | V1Heartbeat g m gen _, V1Heartbeat g' m' gen' _ =>
      bool_decide (g = g') && bool_decide (m = m') && (gen =? gen')
  | V1LeaveConsumerGroup _ _ _, V1LeaveConsumerGroup _ _ _
  | V1ReapStaleMembers _ _, V1ReapStaleMembers _ _
  | V1PruneCompletedTasks _ _, V1PruneCompletedTasks _ _
  | V1AdvanceTerm _ _, V1AdvanceTerm _ _
  | V1AcquireCommandSessionOwner _ _ _, V1AcquireCommandSessionOwner _ _ _ =>
      bool_decide (self = other)
  | V1ClaimTask _ _ _ _ _ _ _, V1ClaimTask _ _ _ _ _ _ _ => same_claim_request self other
  | V1RenewTaskLease _ _ _ _ _ _ _ _ _, V1RenewTaskLease _ _ _ _ _ _ _ _ _ =>
      same_renew_request self other
  | V1CompleteTask _ _ _ _ _ _ _ _ _, V1CompleteTask _ _ _ _ _ _ _ _ _ =>
      same_complete_request self other
  | _, _ => false
  end.

(** ** Conversions *)

Record ReplicatedCommandError := { rce_message : string }.

Definition validation_error {A E} `{Display E} (r : result A E) : result A ReplicatedCommandError :=
  map_err (λ e, {| rce_message := "replicated Broker command failed domain validation: " +:+
                                  to_string e |}) r.

Definition usize_to_u64 (value : N) (field : string) : result N ReplicatedCommandError :=
  if value <=? u64_max then Ok value
  else Err {| rce_message := field +:+ " cannot be represented as u64" |}.

Definition u64_to_usize (value : N) (field : string) : result N ReplicatedCommandError :=
  if value <=? u64_max then Ok value
  else Err {| rce_message := field +:+ " exceeds platform usize" |}.

(** [TryFrom<BrokerCommand> for ReplicatedBrokerCommandV1] *)
Definition command_to_replicated (command : BrokerCommand) :
    result ReplicatedBrokerCommandV1 ReplicatedCommandError :=
  match command with
  | EnsureNamespace c =>
      let^ max := usize_to_u64 (en_max_namespaces c) "max_namespaces" in
      Ok (V1EnsureNamespace (en_namespace_id c) max)
  | PublishTask c =>
      let^ max := usize_to_u64 (pt_max_namespace_tasks c) "max_namespace_tasks" in
      Ok (V1PublishTask (pt_namespace_id c) (pt_task_id c) (pt_objective c) (pt_created_at_ms c) max)
  | EnsureConsumerGroup c =>
      let^ max := usize_to_u64 (eg_max_namespace_groups c) "max_namespace_groups" in
      Ok (V1EnsureConsumerGroup (eg_namespace_id c) (eg_group_id c) max)
  | JoinConsumerGroup c =>
      let^ max := usize_to_u64 (jg_max_group_members c) "max_group_members" in
      Ok (V1JoinConsumerGroup (jg_group_id c) (jg_member_id c) (jg_capabilities c) (jg_now_ms c) max)
  | Heartbeat c =>
      Ok (V1Heartbeat (hb_group_id c) (hb_member_id c) (hb_expected_generation c) (hb_now_ms c))
  | LeaveConsumerGroup c =>
      Ok (V1LeaveConsumerGroup (lv_group_id c) (lv_member_id c) (lv_expected_generation c))
  | ReapStaleMembers c =>
      let^ max := usize_to_u64 (rp_max_members c) "max_members" in
      Ok (V1ReapStaleMembers (rp_stale_before_ms c) max)
  | ClaimTask c =>
      Ok (V1ClaimTask (cl_group_id c) (cl_member_id c) (cl_expected_term c)
            (cl_expected_generation c) (cl_lease_id c) (cl_now_ms c) (cl_lease_duration_ms c))
  | RenewTaskLease c =>
      Ok (V1RenewTaskLease (rn_task_id c) (rn_group_id c) (rn_member_id c) (rn_expected_term c)
            (rn_expected_generation c) (rn_expected_lease_epoch c) (rn_lease_id c) (rn_now_ms c)
            (rn_lease_duration_ms c))
  | CompleteTask c =>
      Ok (V1CompleteTask (cp_task_id c) (cp_group_id c) (cp_member_id c) (cp_expected_term c)
            (cp_expected_generation c) (cp_expected_lease_epoch c) (cp_lease_id c) (cp_result c)
            (cp_completed_at_ms c))
  | PruneCompletedTasks c =>
      let^ max := usize_to_u64 (pr_max_tasks c) "max_tasks" in
      Ok (V1PruneCompletedTasks (pr_completed_before_ms c) max)
  | AdvanceTerm c => Ok (V1AdvanceTerm (at_expected_term c) (at_new_term c))
  end.

Definition convert_coordination_command (command : ReplicatedBrokerCommandV1) :
    result BrokerCommand ReplicatedCommandError :=
  match command with
  | V1EnsureNamespace namespace_id max_namespaces =>
      let^ ns := validation_error (NamespaceId_new namespace_id) in
      let^ max := u64_to_usize max_namespaces "max_namespaces" in
      Ok (EnsureNamespace {| en_namespace_id := ns; en_max_namespaces := max |})
  | V1PublishTask namespace_id task_id objective created_at_ms max_namespace_tasks =>
      let^ ns := validation_error (NamespaceId_new namespace_id) in
      let^ id := validation_error (TaskId_new task_id) in
      let^ obj := validation_error (TaskObjective_new objective) in
      let^ max := u64_to_usize max_namespace_tasks "max_namespace_tasks" in
      Ok (PublishTask {| pt_namespace_id := ns; pt_task_id := id; pt_objective := obj;
            pt_created_at_ms := created_at_ms; pt_max_namespace_tasks := max |})
  | V1EnsureConsumerGroup namespace_id group_id max_namespace_groups =>
      let^ ns := validation_error (NamespaceId_new namespace_id) in
      let^ g := validation_error (ConsumerGroupId_new group_id) in
      let^ max := u64_to_usize max_namespace_groups "max_namespace_groups" in
      Ok (EnsureConsumerGroup {| eg_namespace_id := ns; eg_group_id := g;
            eg_max_namespace_groups := max |})
  | V1JoinConsumerGroup group_id member_id capabilities now_ms max_group_members =>
      let^ g := validation_error (ConsumerGroupId_new group_id) in
      let^ m := validation_error (ConsumerId_new member_id) in
      let^ caps := validation_error (Capabilities_new capabilities) in
      let^ max := u64_to_usize max_group_members "max_group_members" in
      Ok (JoinConsumerGroup {| jg_group_id := g; jg_member_id := m; jg_capabilities := caps;
            jg_now_ms := now_ms; jg_max_group_members := max |})
  | V1Heartbeat group_id member_id expected_generation now_ms =>
      let^ g := validation_error (ConsumerGroupId_new group_id) in
      let^ m := validation_error (ConsumerId_new member_id) in
      Ok (Heartbeat {| hb_group_id := g; hb_member_id := m;
            hb_expected_generation := expected_generation; hb_now_ms := now_ms |})
  | V1LeaveConsumerGroup group_id member_id expected_generation =>
      let^ g := validation_error (ConsumerGroupId_new group_id) in
      let^ m := validation_error (ConsumerId_new member_id) in
      Ok (LeaveConsumerGroup {| lv_group_id := g; lv_member_id := m;
            lv_expected_generation := expected_generation |})
  | V1ReapStaleMembers stale_before_ms max_members =>
      let^ max := u64_to_usize max_members "max_members" in
      Ok (ReapStaleMembers {| rp_stale_before_ms := stale_before_ms; rp_max_members := max |})
  | _ => Err {| rce_message :=
           "replicated Broker command was routed to the wrong conversion family" |}
  end.

(** [TryFrom<ReplicatedBrokerCommandV1> for BrokerCommand] *)
Definition command_from_replicated (command : ReplicatedBrokerCommandV1) :
    result BrokerCommand ReplicatedCommandError :=
  match command with
  | V1EnsureNamespace _ _ | V1PublishTask _ _ _ _ _ | V1EnsureConsumerGroup _ _ _
  | V1JoinConsumerGroup _ _ _ _ _ | V1Heartbeat _ _ _ _ | V1LeaveConsumerGroup _ _ _
  | V1ReapStaleMembers _ _ => convert_coordination_command command
  | V1ClaimTask group_id member_id expected_term expected_generation lease_id now_ms
      lease_duration_ms =>
      let^ g := validation_error (ConsumerGroupId_new group_id) in
      let^ m := validation_error (ConsumerId_new member_id) in
      let^ term := validation_error (Term_new expected_term) in
      let^ lease := validation_error (LeaseId_new lease_id) in
      Ok (ClaimTask {| cl_group_id := g; cl_member_id := m; cl_expected_term := term;
            cl_expected_generation := expected_generation; cl_lease_id := lease;
            cl_now_ms := now_ms; cl_lease_duration_ms := lease_duration_ms |})
  | V1RenewTaskLease task_id group_id member_id expected_term expected_generation
      expected_lease_epoch lease_id now_ms lease_duration_ms =>
      let^ id := validation_error (TaskId_new task_id) in
      let^ g := validation_error (ConsumerGroupId_new group_id) in
      let^ m := validation_error (ConsumerId_new member_id) in
      let^ term := validation_error (Term_new expected_term) in
      let^ lease := validation_error (LeaseId_new lease_id) in
      Ok (RenewTaskLease {| rn_task_id := id; rn_group_id := g; rn_member_id := m;
            rn_expected_term := term; rn_expected_generation := expected_generation;
            rn_expected_lease_epoch := expected_lease_epoch; rn_lease_id := lease;
            rn_now_ms := now_ms; rn_lease_duration_ms := lease_duration_ms |})
  | V1CompleteTask task_id group_id member_id expected_term expected_generation
      expected_lease_epoch lease_id result completed_at_ms =>
      let^ id := validation_error (TaskId_new task_id) in
      let^ g := validation_error (ConsumerGroupId_new group_id) in
      let^ m := validation_error (ConsumerId_new member_id) in
      let^ term := validation_error (Term_new expected_term) in
      let^ lease := validation_error (LeaseId_new lease_id) in
      let^ res := validation_error (TaskResult_new result) in
      Ok (CompleteTask {| cp_task_id := id; cp_group_id := g; cp_member_id := m;
            cp_expected_term := term; cp_expected_generation := expected_generation;
            cp_expected_lease_epoch := expected_lease_epoch; cp_lease_id := lease;
            cp_result := res; cp_completed_at_ms := completed_at_ms |})
  | V1PruneCompletedTasks completed_before_ms max_tasks =>
      let^ max := u64_to_usize max_tasks "max_tasks" in
      Ok (PruneCompletedTasks {| pr_completed_before_ms := completed_before_ms;
            pr_max_tasks := max |})
  | V1AdvanceTerm expected_term new_term =>
      let^ expected := validation_error (Term_new expected_term) in
      let^ new := validation_error (Term_new new_term) in
      Ok (AdvanceTerm {| at_expected_term := expected; at_new_term := new |})
  | V1AcquireCommandSessionOwner _ _ _ => Err {| rce_message :=
      "command-session owner acquisition is consensus-owned and cannot become a Broker domain command" |}
  end.

(** * Replicated responses ([agent-broker-consensus/src/replicated_response.rs])

    What applying a log entry answers.  A domain failure is part of the answer,
    so that every replica gives the same one; the disposition of an error says
    whether it is a committed outcome or a rejection before application. *)

Inductive ReplicatedBrokerErrorDispositionV1 := V1Committed | V1Rejected | V1Unknown.

Inductive ReplicatedBrokerErrorCodeV1 :=
  | V1InvalidRequest | V1NotFound | V1Conflict | V1CapacityExceeded | V1StaleFence
  | V1PersistenceError | V1TransportError | V1CommitOutcomeUnknown | V1InternalError.

Definition disposition_to_replicated (d : BrokerErrorDisposition) : ReplicatedBrokerErrorDispositionV1 :=
  match d with
  | DispCommitted => V1Committed | DispRejected => V1Rejected | DispUnknown => V1Unknown
  end.

Definition disposition_from_replicated (d : ReplicatedBrokerErrorDispositionV1) : BrokerErrorDisposition :=
  match d with
  | V1Committed => DispCommitted | V1Rejected => DispRejected | V1Unknown => DispUnknown
  end.

Definition code_to_replicated (c : BrokerErrorCode) : ReplicatedBrokerErrorCodeV1 :=
  match c with
  | InvalidRequest => V1InvalidRequest
  | NotFound => V1NotFound
  | Conflict => V1Conflict
  | CodeCapacityExceeded => V1CapacityExceeded
  | StaleFence => V1StaleFence
  | PersistenceError => V1PersistenceError
  | TransportError => V1TransportError
  | CommitOutcomeUnknown => V1CommitOutcomeUnknown
  | InternalError => V1InternalError
  end.

Definition code_from_replicated (c : ReplicatedBrokerErrorCodeV1) : BrokerErrorCode :=
  match c with
  | V1InvalidRequest => InvalidRequest
  | V1NotFound => NotFound
  | V1Conflict => Conflict
  | V1CapacityExceeded => CodeCapacityExceeded
  | V1StaleFence => StaleFence
  | V1PersistenceError => PersistenceError
  | V1TransportError => TransportError
  | V1CommitOutcomeUnknown => CommitOutcomeUnknown
  | V1InternalError => InternalError
  end.

Record ReplicatedBrokerErrorV1 := {
  re_code : ReplicatedBrokerErrorCodeV1;
  re_message : string;
  re_disposition : ReplicatedBrokerErrorDispositionV1;
}.

(** [From<BrokerError> for ReplicatedBrokerErrorV1] *)
Definition error_to_replicated (e : BrokerError) : ReplicatedBrokerErrorV1 :=
  {| re_code := code_to_replicated (be_code e); re_message := be_message e;
     re_disposition := disposition_to_replicated (be_disposition e) |}.

(** [From<ReplicatedBrokerErrorV1> for BrokerError] *)
Definition error_from_replicated (e : ReplicatedBrokerErrorV1) : BrokerError :=
  with_disposition (disposition_from_replicated (re_disposition e))
    (BrokerError_new (code_from_replicated (re_code e)) (re_message e)).

(** ** Results *)

Record ReplicatedMutationMetadataV1 := { rm_term : N; rm_revision : N }.

Inductive ReplicatedTaskStatusV1 := V1Queued | V1Leased | V1Completed.

Inductive ReplicatedBrokerMutationResultV1 :=
  | V1RNamespace (metadata : ReplicatedMutationMetadataV1) (namespace_id : string)
      (namespace_revision : N)
  | V1RTaskPublished (metadata : ReplicatedMutationMetadataV1) (task_id : string)
      (task_revision : N) (status : ReplicatedTaskStatusV1)
  | V1RConsumerGroup (metadata : ReplicatedMutationMetadataV1) (group_id : string)
      (generation group_revision member_count : N)
  | V1RHeartbeat (metadata : ReplicatedMutationMetadataV1) (group_id member_id : string)
      (generation member_revision : N)
  | V1RStaleMembersReaped (metadata : ReplicatedMutationMetadataV1)
      (reaped_count affected_group_count : N)
  | V1RTaskClaim (metadata : ReplicatedMutationMetadataV1) (task_id objective : option string)
      (task_revision : option N) (lease_id : option string)
      (lease_epoch lease_expires_at_ms : option N) (generation : N)
  | V1RTaskLeaseRenewed (metadata : ReplicatedMutationMetadataV1) (task_id : string)
      (task_revision : N) (lease_id : string) (lease_epoch lease_expires_at_ms generation : N)
  | V1RTaskCompleted (metadata : ReplicatedMutationMetadataV1) (task_id : string)
      (task_revision : N) (status : ReplicatedTaskStatusV1)
  | V1RCompletedTasksPruned (metadata : ReplicatedMutationMetadataV1) (pruned_count : N)
  | V1RTermAdvanced (metadata : ReplicatedMutationMetadataV1).

Inductive ReplicatedBrokerResponseV1 :=
  | RaftControl
  | SessionOwnerAcquired (owner_epoch : N)
  | Success (r : ReplicatedBrokerMutationResultV1)
  | ApplicationError (e : ReplicatedBrokerErrorV1).

Record ReplicatedResponseError := { rre_message : string }.

Definition response_validation_error {A E} `{Display E} (r : result A E) :
    result A ReplicatedResponseError :=
  map_err (λ e, {| rre_message := "replicated Broker response failed domain validation: " +:+
                                  to_string e |}) r.

Definition count_to_u64 (value : N) (field : string) : result N ReplicatedResponseError :=
  if value <=? u64_max then Ok value
  else Err {| rre_message := field +:+ " cannot be represented as u64" |}.

Definition count_to_usize (value : N) (field : string) : result N ReplicatedResponseError :=
  if value <=? u64_max then Ok value
  else Err {| rre_message := field +:+ " exceeds platform usize" |}.

Definition metadata_to_replicated (m : MutationMetadata) : ReplicatedMutationMetadataV1 :=
  {| rm_term := md_term m; rm_revision := md_revision m |}.

Definition metadata_from_replicated (m : ReplicatedMutationMetadataV1) :
    result MutationMetadata ReplicatedResponseError :=
  let^ term := response_validation_error (Term_new (rm_term m)) in
  Ok {| md_term := term; md_revision := rm_revision m |}.

Definition status_to_replicated (s : TaskStatus) : ReplicatedTaskStatusV1 :=
  match s with
  | StatusQueued => V1Queued | StatusLeased => V1Leased | StatusCompleted => V1Completed
  end.

Definition status_from_replicated (s : ReplicatedTaskStatusV1) : TaskStatus :=
  match s with
  | V1Queued => StatusQueued | V1Leased => StatusLeased | V1Completed => StatusCompleted
  end.

(** [TryFrom<BrokerMutationResult> for ReplicatedBrokerMutationResultV1] *)
Definition result_to_replicated (r : BrokerMutationResult) :
    result ReplicatedBrokerMutationResultV1 ReplicatedResponseError :=
  match r with
  | RNamespace r => Ok (V1RNamespace (metadata_to_replicated (nr_metadata r)) (nr_namespace_id r)
      (nr_namespace_revision r))
  | RTaskPublished r => Ok (V1RTaskPublished (metadata_to_replicated (tp_metadata r)) (tp_task_id r)
      (tp_task_revision r) (status_to_replicated (tp_status r)))
  | RConsumerGroup r =>
      let^ members := count_to_u64 (gr_member_count r) "member_count" in
      Ok (V1RConsumerGroup (metadata_to_replicated (gr_metadata r)) (gr_group_id r)
            (gr_generation r) (gr_group_revision r) members)
  | RHeartbeat r => Ok (V1RHeartbeat (metadata_to_replicated (hr_metadata r)) (hr_group_id r)
      (hr_member_id r) (hr_generation r) (hr_member_revision r))
  | RStaleMembersReaped r =>
      let^ reaped := count_to_u64 (sr_reaped_count r) "reaped_count" in
      let^ affected := count_to_u64 (sr_affected_group_count r) "affected_group_count" in
      Ok (V1RStaleMembersReaped (metadata_to_replicated (sr_metadata r)) reaped affected)
  | RTaskClaim r => Ok (V1RTaskClaim (metadata_to_replicated (tc_metadata r)) (tc_task_id r)
      (tc_objective r) (tc_task_revision r) (tc_lease_id r) (tc_lease_epoch r)
      (tc_lease_expires_at_ms r) (tc_generation r))
  | RTaskLeaseRenewed r => Ok (V1RTaskLeaseRenewed (metadata_to_replicated (tr_metadata r))
      (tr_task_id r) (tr_task_revision r) (tr_lease_id r) (tr_lease_epoch r)
      (tr_lease_expires_at_ms r) (tr_generation r))
  | RTaskCompleted r => Ok (V1RTaskCompleted (metadata_to_replicated (td_metadata r))
      (td_task_id r) (td_task_revision r) (status_to_replicated (td_status r)))
  | RCompletedTasksPruned r =>
      let^ pruned := count_to_u64 (cpr_pruned_count r) "pruned_count" in
      Ok (V1RCompletedTasksPruned (metadata_to_replicated (cpr_metadata r)) pruned)
  | RTermAdvanced r => Ok (V1RTermAdvanced (metadata_to_replicated (ta_metadata r)))
  end.

Definition validate_claim_option_shape (task_id objective : option string)
    (task_revision : option N) (lease_id : option string)
    (lease_epoch lease_expires_at_ms : option N) : result unit ReplicatedResponseError :=
  let presence := [bool_decide (is_Some task_id); bool_decide (is_Some objective);
    bool_decide (is_Some task_revision); bool_decide (is_Some lease_id);
    bool_decide (is_Some lease_epoch); bool_decide (is_Some lease_expires_at_ms)] in
  if forallb id presence || forallb negb presence then Ok tt
  else Err {| rre_message := "replicated TaskClaim response contains a partial lease payload" |}.

(** [value.map(new).transpose().map_err(validation_error)] *)
Definition transpose_new {A B E} `{Display E} (new : A → result B E) (o : option A) :
    result (option B) ReplicatedResponseError :=
  match o with
  | None => Ok None
  | Some a => map_ok Some (response_validation_error (new a))
  end.

Definition convert_coordination_result (r : ReplicatedBrokerMutationResultV1) :
    result BrokerMutationResult ReplicatedResponseError :=
  match r with
  | V1RNamespace metadata namespace_id namespace_revision =>
      let^ md := metadata_from_replicated metadata in
      let^ ns := response_validation_error (NamespaceId_new namespace_id) in
      Ok (RNamespace {| nr_metadata := md; nr_namespace_id := ns;
            nr_namespace_revision := namespace_revision |})
  | V1RTaskPublished metadata task_id task_revision status =>
      let^ md := metadata_from_replicated metadata in
      let^ id := response_validation_error (TaskId_new task_id) in
      Ok (RTaskPublished {| tp_metadata := md; tp_task_id := id; tp_task_revision := task_revision;
            tp_status := status_from_replicated status |})
  | V1RConsumerGroup metadata group_id generation group_revision member_count =>
      let^ md := metadata_from_replicated metadata in
      let^ g := response_validation_error (ConsumerGroupId_new group_id) in
      let^ members := count_to_usize member_count "member_count" in
      Ok (RConsumerGroup {| gr_metadata := md; gr_group_id := g; gr_generation := generation;
            gr_group_revision := group_revision; gr_member_count := members |})
  | V1RHeartbeat metadata group_id member_id generation member_revision =>
      let^ md := metadata_from_replicated metadata in
      let^ g := response_validation_error (ConsumerGroupId_new group_id) in
      let^ m := response_validation_error (ConsumerId_new member_id) in
      Ok (RHeartbeat {| hr_metadata := md; hr_group_id := g; hr_member_id := m;
            hr_generation := generation; hr_member_revision := member_revision |})
  | V1RStaleMembersReaped metadata reaped_count affected_group_count =>
      let^ md := metadata_from_replicated metadata in
      let^ reaped := count_to_usize reaped_count "reaped_count" in
      let^ affected := count_to_usize affected_group_count "affected_group_count" in
      Ok (RStaleMembersReaped {| sr_metadata := md; sr_reaped_count := reaped;
            sr_affected_group_count := affected |})
  | _ => Err {| rre_message :=
           "replicated Broker response was routed to the wrong conversion family" |}
  end.

(** [TryFrom<ReplicatedBrokerMutationResultV1> for BrokerMutationResult] *)
Definition result_from_replicated (r : ReplicatedBrokerMutationResultV1) :
    result BrokerMutationResult ReplicatedResponseError :=
  match r with
  | V1RNamespace _ _ _ | V1RTaskPublished _ _ _ _ | V1RConsumerGroup _ _ _ _ _
  | V1RHeartbeat _ _ _ _ _ | V1RStaleMembersReaped _ _ _ => convert_coordination_result r
  | V1RTaskClaim metadata task_id objective task_revision lease_id lease_epoch
      lease_expires_at_ms generation =>
      let^ _ := validate_claim_option_shape task_id objective task_revision lease_id lease_epoch
                  lease_expires_at_ms in
      let^ md := metadata_from_replicated metadata in
      let^ id := transpose_new TaskId_new task_id in
      let^ obj := transpose_new TaskObjective_new objective in
      let^ lease := transpose_new LeaseId_new lease_id in
      Ok (RTaskClaim {| tc_metadata := md; tc_task_id := id; tc_objective := obj;
            tc_task_revision := task_revision; tc_lease_id := lease; tc_lease_epoch := lease_epoch;
            tc_lease_expires_at_ms := lease_expires_at_ms; tc_generation := generation |})
  | V1RTaskLeaseRenewed metadata task_id task_revision lease_id lease_epoch lease_expires_at_ms
      generation =>
      let^ md := metadata_from_replicated metadata in
      let^ id := response_validation_error (TaskId_new task_id) in
      let^ lease := response_validation_error (LeaseId_new lease_id) in
      Ok (RTaskLeaseRenewed {| tr_metadata := md; tr_task_id := id;
            tr_task_revision := task_revision; tr_lease_id := lease; tr_lease_epoch := lease_epoch;
            tr_lease_expires_at_ms := lease_expires_at_ms; tr_generation := generation |})
  | V1RTaskCompleted metadata task_id task_revision status =>
      let^ md := metadata_from_replicated metadata in
      let^ id := response_validation_error (TaskId_new task_id) in
      Ok (RTaskCompleted {| td_metadata := md; td_task_id := id; td_task_revision := task_revision;
            td_status := status_from_replicated status |})
  | V1RCompletedTasksPruned metadata pruned_count =>
      let^ md := metadata_from_replicated metadata in
      let^ pruned := count_to_usize pruned_count "pruned_count" in
      Ok (RCompletedTasksPruned {| cpr_metadata := md; cpr_pruned_count := pruned |})
  | V1RTermAdvanced metadata =>
      let^ md := metadata_from_replicated metadata in
      Ok (RTermAdvanced {| ta_metadata := md |})
  end.

(** ** Responses *)

Definition from_application_result (r : result BrokerMutationResult BrokerError) :
    result ReplicatedBrokerResponseV1 ReplicatedResponseError :=
  match r with
  | Ok r => let^ r := result_to_replicated r in Ok (Success r)
  | Err e => Ok (ApplicationError (error_to_replicated (with_disposition DispCommitted e)))
  end.

Definition from_pre_application_rejection (e : BrokerError) :
    result ReplicatedBrokerResponseV1 ReplicatedResponseError :=
  Ok (ApplicationError (error_to_replicated (with_disposition DispRejected e))).

Definition normalize_stored_session_outcome (r : ReplicatedBrokerResponseV1) :
    ReplicatedBrokerResponseV1 :=
  match r with
  | ApplicationError e => ApplicationError {| re_code := re_code e; re_message := re_message e;
                                              re_disposition := V1Committed |}
  | r => r
  end.

Definition into_application_result (r : ReplicatedBrokerResponseV1) :
    result (result BrokerMutationResult BrokerError) ReplicatedResponseError :=
  match r with
  | RaftControl | SessionOwnerAcquired _ => Err {| rre_message :=
      "consensus control entry does not contain a Broker application result" |}
  | Success r => let^ r := result_from_replicated r in Ok (Ok r)
  | ApplicationError e => Ok (Err (error_from_replicated e))
  end.
