(* ===== verification/ReplicatedProps.v ===== *)
(** * Commands and answers survive replication

    A command that the source can build comes back from the log unchanged, and
    whatever comes out of the log is such a command.  Every answer of the broker
    can be put into a response and read back. *)

From S2P Require Import Prelude Values Task Group Messages Machine Spec Invariant Reap Effect.
From S2P Require Import Broker Valid Display Wire Replicated.

(** ** Constructors *)

Lemma identifier_new_ok kind s s' : identifier_new kind s = Ok s' → s' = s ∧ valid_id s.
Proof.
  unfold identifier_new. destruct (validate_identifier s kind) as [[]|] eqn:E; [|done].
  intros [= <-]. split; [done|]. unfold valid_id.
  by apply validate_identifier_ok, (validate_identifier_ok s kind).
Qed.

Lemma validate_text_ok s field max s' : validate_text s field max = Ok s' → s' = s.
Proof. unfold validate_text. repeat case_match; naive_solver. Qed.

Lemma TaskObjective_new_ok s s' : TaskObjective_new s = Ok s' → s' = s ∧ valid_objective s.
Proof. intros H. assert (s' = s) as -> by by eapply validate_text_ok. done. Qed.

Lemma TaskResult_new_ok s s' : TaskResult_new s = Ok s' → s' = s ∧ valid_result s.
Proof. intros H. assert (s' = s) as -> by by eapply validate_text_ok. done. Qed.

Lemma Term_new_ok n t : Term_new n = Ok t ↔ t = n ∧ 0 < n.
Proof. unfold Term_new. destruct (N.eqb_spec n 0); split; [done|lia|intros [= ->]; lia|by intros [-> _]]. Qed.

(** Normalized capabilities are normalized again to themselves. *)
Lemma Capabilities_new_idem values caps :
  Capabilities_new values = Ok caps → valid_capabilities caps.
Proof.
  intros H. pose proof (Capabilities_new_ok _ _ H) as (Hs & Hnd & Hin & Hlen & Hv).
  unfold valid_capabilities, Capabilities_new.
  assert (len caps ≤ len values) as Hle.
  { unfold len. apply N2Z.inj_le. rewrite !nat_N_Z. apply inj_le.
    apply submseteq_length, NoDup_submseteq; [done|]. intros c. by rewrite Hin. }
  rewrite (proj2 (N.ltb_ge _ _)) by lia.
  assert (normalize_capabilities caps ∅ = Ok (list_to_set caps ∪ ∅)) as ->.
  { apply normalize_capabilities_ok. split; [done|]. rewrite Forall_forall in Hv |- *.
    intros c Hc. by apply Hv, Hin. }
  simpl. f_equal. apply sorted_unique; [apply bset_iter_sorted|done|apply bset_iter_nodup|done|].
  intros c. rewrite elem_of_bset_iter. set_solver.
Qed.

(** ** Commands *)

Lemma validation_error_ok {A E} `{Display E} (r : result A E) a :
  validation_error r = Ok a ↔ r = Ok a.
Proof. unfold validation_error. by destruct r; simpl; naive_solver. Qed.

Lemma u64_to_usize_ok n field m : u64_to_usize n field = Ok m ↔ m = n ∧ n ≤ u64_max.
Proof. unfold u64_to_usize. destruct (N.leb_spec n u64_max); naive_solver lia. Qed.

Lemma usize_to_u64_ok n field : n ≤ u64_max → usize_to_u64 n field = Ok n.
Proof. intros Hn. unfold usize_to_u64. by rewrite (proj2 (N.leb_le _ _) Hn). Qed.

Lemma u64_to_usize_fits n field : n ≤ u64_max → u64_to_usize n field = Ok n.
Proof. intros Hn. by apply u64_to_usize_ok. Qed.

Lemma Term_new_fits n : 0 < n → Term_new n = Ok n.
Proof. intros Hn. by apply Term_new_ok. Qed.

(** Run the conversions of valid fields. *)
Ltac to_log :=
  repeat first
    [ rewrite valid_id_new by done
    | rewrite Term_new_fits by done
    | rewrite usize_to_u64_ok by done
    | rewrite u64_to_usize_fits by done
    | match goal with H : _ = Ok ?x |- context [_ ?x] => rewrite H end
    | progress cbn [map_err] ].

(** A command that the source can build comes back from the log. *)
Lemma replicated_command_reads_back cmd :
  valid_command cmd →
  ∃ r, command_to_replicated cmd = Ok r ∧ command_from_replicated r = Ok cmd.
Proof.
  unfold valid_command, valid_objective, valid_result, valid_capabilities.
  destruct cmd as [[]|[]|[]|[]|[]|[]|[]|[]|[]|[]|[]|[]];
    cbn -[N.le N.lt valid_id]; intros; destruct_and?; unfold command_to_replicated; simpl; to_log;
    (eexists; split; [done|]); cbn [command_from_replicated convert_coordination_command];
    unfold validation_error, NamespaceId_new, TaskId_new, ConsumerGroupId_new, ConsumerId_new,
      LeaseId_new; by to_log.
Qed.

Ltac from_log :=
  repeat match goal with
  | H : (match ?x with Ok _ => _ | Err _ => _ end) = Ok _ |- _ => destruct x eqn:?; [|done]
  | H : validation_error _ = Ok _ |- _ => apply validation_error_ok in H
  | H : u64_to_usize _ _ = Ok _ |- _ => apply u64_to_usize_ok in H as [-> ?]
  | H : Term_new _ = Ok _ |- _ => apply Term_new_ok in H as [-> ?]
  | H : NamespaceId_new _ = Ok _ |- _ => apply identifier_new_ok in H as [-> ?]
  | H : TaskId_new _ = Ok _ |- _ => apply identifier_new_ok in H as [-> ?]
  | H : ConsumerGroupId_new _ = Ok _ |- _ => apply identifier_new_ok in H as [-> ?]
  | H : ConsumerId_new _ = Ok _ |- _ => apply identifier_new_ok in H as [-> ?]
  | H : LeaseId_new _ = Ok _ |- _ => apply identifier_new_ok in H as [-> ?]
  | H : TaskObjective_new _ = Ok _ |- _ => apply TaskObjective_new_ok in H as [-> ?]
  | H : TaskResult_new _ = Ok _ |- _ => apply TaskResult_new_ok in H as [-> ?]
  | H : Capabilities_new _ = Ok _ |- _ => apply Capabilities_new_idem in H
  end.

(** Whatever comes out of the log satisfies the invariants of the domain. *)
Lemma command_from_log_valid r cmd : command_from_replicated r = Ok cmd → valid_command cmd.
Proof.
  destruct r; simpl; intros H; by from_log; simplify_eq/=.
Qed.

(** ** Retry matching

    The part of a request that the client chose: times and limits added by the
    server are dropped. *)
Definition client_part (c : ReplicatedBrokerCommandV1) : ReplicatedBrokerCommandV1 :=
  match c with
  | V1EnsureNamespace ns _ => V1EnsureNamespace ns 0
  | V1PublishTask ns id obj _ _ => V1PublishTask ns id obj 0 0
  | V1EnsureConsumerGroup ns g _ => V1EnsureConsumerGroup ns g 0
  | V1JoinConsumerGroup g m caps _ _ => V1JoinConsumerGroup g m caps 0 0
  | V1Heartbeat g m gen _ => V1Heartbeat g m gen 0
  | V1ClaimTask g m t gen l _ dur => V1ClaimTask g m t gen l 0 dur
  | V1RenewTaskLease id g m t gen ep l _ dur => V1RenewTaskLease id g m t gen ep l 0 dur
  | V1CompleteTask id g m t gen ep l r _ => V1CompleteTask id g m t gen ep l r 0
  | c => c
  end.

Lemma same_identified_request_spec a b :
  same_identified_request a b = true ↔ client_part a = client_part b.
Proof.
  destruct a, b; simpl; try (split; intros; congruence);
    rewrite ?andb_true_iff, ?N.eqb_eq, ?bool_decide_eq_true; 
    (split; [intros; destruct_and?; congruence|intros [=]; subst; done]).
Qed.

(** ** Answers *)

(** An answer as the source can build it; a claim grants a whole lease or
    nothing. *)
Definition valid_outcome (r : BrokerMutationResult) : Prop :=
  match r with
  | RNamespace r => 0 < md_term (nr_metadata r) ∧ valid_id (nr_namespace_id r)
  | RTaskPublished r => 0 < md_term (tp_metadata r) ∧ valid_id (tp_task_id r)
  | RConsumerGroup r => 0 < md_term (gr_metadata r) ∧ valid_id (gr_group_id r) ∧
      gr_member_count r ≤ u64_max
  | RHeartbeat r => 0 < md_term (hr_metadata r) ∧ valid_id (hr_group_id r) ∧
      valid_id (hr_member_id r)
  | RStaleMembersReaped r => 0 < md_term (sr_metadata r) ∧ sr_reaped_count r ≤ u64_max ∧
      sr_affected_group_count r ≤ u64_max
  | RTaskClaim r => 0 < md_term (tc_metadata r) ∧
      match tc_task_id r, tc_objective r, tc_task_revision r, tc_lease_id r, tc_lease_epoch r,
            tc_lease_expires_at_ms r with
      | None, None, None, None, None, None => True
      | Some id, Some obj, Some _, Some lid, Some _, Some _ =>
          valid_id id ∧ valid_objective obj ∧ valid_id lid
      | _, _, _, _, _, _ => False
      end
  | RTaskLeaseRenewed r => 0 < md_term (tr_metadata r) ∧ valid_id (tr_task_id r) ∧
      valid_id (tr_lease_id r)
  | RTaskCompleted r => 0 < md_term (td_metadata r) ∧ valid_id (td_task_id r)
  | RCompletedTasksPruned r => 0 < md_term (cpr_metadata r) ∧ cpr_pruned_count r ≤ u64_max
  | RTermAdvanced r => 0 < md_term (ta_metadata r)
  end.

Lemma count_to_u64_ok n field : n ≤ u64_max → count_to_u64 n field = Ok n.
Proof. intros Hn. unfold count_to_u64. by rewrite (proj2 (N.leb_le _ _) Hn). Qed.

Lemma count_to_usize_ok n field : n ≤ u64_max → count_to_usize n field = Ok n.
Proof. intros Hn. unfold count_to_usize. by rewrite (proj2 (N.leb_le _ _) Hn). Qed.

Lemma metadata_reads_back md :
  0 < md_term md → metadata_from_replicated (metadata_to_replicated md) = Ok md.
Proof.
  intros Hm. unfold metadata_from_replicated. simpl. rewrite Term_new_fits by done. by destruct md.
Qed.

Lemma status_reads_back s : status_from_replicated (status_to_replicated s) = s.
Proof. by destruct s. Qed.

Ltac from_response :=
  repeat first
    [ rewrite valid_id_new by done
    | rewrite metadata_reads_back by done
    | rewrite count_to_usize_ok by done
    | rewrite status_reads_back
    | match goal with H : _ = Ok ?x |- context [_ ?x] => rewrite H end
    | progress cbn [map_err map_ok transpose_new] ].

Lemma replicated_result_reads_back r :
  valid_outcome r →
  ∃ v, result_to_replicated r = Ok v ∧ result_from_replicated v = Ok r.
Proof.
  unfold valid_outcome, valid_objective.
  destruct r as [[]|[]|[]|[]|[]|[? [] [] [] [] [] [] ?]|[]|[]|[]|[]];
    cbn -[N.le N.lt valid_id TaskObjective_new]; intros; destruct_and?; try done;
    rewrite ?count_to_u64_ok by done; (eexists; split; [done|]);
    cbn [result_from_replicated convert_coordination_result];
    unfold response_validation_error, NamespaceId_new, TaskId_new, ConsumerGroupId_new,
      ConsumerId_new, LeaseId_new, transpose_new, response_validation_error; by from_response.
Qed.

Lemma metadata_kept md md' : metadata_from_replicated (metadata_to_replicated md) = Ok md' → md' = md.
Proof.
  unfold metadata_from_replicated, response_validation_error. destruct md as [t r]. cbn.
  destruct (Term_new t) as [t'|] eqn:Ht; [|done]. apply Term_new_ok in Ht as [-> _]. by intros [= <-].
Qed.

Lemma transpose_kept {A E} `{Display E} (new : A → result A E) o o' :
  (∀ a a', new a = Ok a' → a' = a) → transpose_new new o = Ok o' → o' = o.
Proof.
  intros Hn. destruct o as [a|]; cbn; [|by intros [= <-]]. unfold response_validation_error.
  destruct (new a) as [a'|] eqn:Ha; [|done]. intros [= <-]. by rewrite (Hn _ _ Ha).
Qed.

Lemma response_validation_ok {A E} `{Display E} (r : result A E) a :
  response_validation_error r = Ok a → r = Ok a.
Proof. unfold response_validation_error. destruct r; [by intros [= <-]|done]. Qed.

Ltac kept :=
  repeat match goal with
  | H : (match ?x with Ok _ => _ | Err _ => _ end) = Ok _ |- _ => destruct x eqn:?; [|done]
  | H : response_validation_error _ = Ok _ |- _ => apply response_validation_ok in H
  | H : metadata_from_replicated _ = Ok _ |- _ => apply metadata_kept in H as ->
  | H : transpose_new TaskObjective_new _ = Ok _ |- _ =>
      apply transpose_kept in H as ->; [|by intros ?? [-> _]%TaskObjective_new_ok]
  | H : transpose_new _ _ = Ok _ |- _ =>
      apply transpose_kept in H as ->; [|by intros ?? [-> _]%identifier_new_ok]
  | H : NamespaceId_new _ = Ok _ |- _ => apply identifier_new_ok in H as [-> ?]
  | H : TaskId_new _ = Ok _ |- _ => apply identifier_new_ok in H as [-> ?]
  | H : ConsumerGroupId_new _ = Ok _ |- _ => apply identifier_new_ok in H as [-> ?]
  | H : ConsumerId_new _ = Ok _ |- _ => apply identifier_new_ok in H as [-> ?]
  | H : LeaseId_new _ = Ok _ |- _ => apply identifier_new_ok in H as [-> ?]
  | H : TaskObjective_new _ = Ok _ |- _ => apply TaskObjective_new_ok in H as [-> ?]
  | H : TaskResult_new _ = Ok _ |- _ => apply TaskResult_new_ok in H as [-> ?]
  | H : count_to_u64 _ _ = Ok _ |- _ => unfold count_to_u64 in H; destruct (_ <=? _); [|done]
  | H : count_to_usize _ _ = Ok _ |- _ => unfold count_to_usize in H; destruct (_ <=? _); [|done]
  end.

(** An answer that comes through the log comes through unchanged. *)
Lemma replicated_result_kept r v r' :
  result_to_replicated r = Ok v → result_from_replicated v = Ok r' → r' = r.
Proof.
  intros Hto Hfrom. destruct r as [[]|[]|[]|[]|[]|[]|[]|[]|[]|[]]; cbn [result_to_replicated] in Hto;
    kept; simplify_eq; cbn [result_from_replicated convert_coordination_result] in *; kept;
    simplify_eq; cbn; by rewrite ?status_reads_back.
Qed.

(** * Answers of the broker can be replicated

    Every answer that the specified broker gives to a valid command in a valid
    state is one that a response can carry. *)

Definition answers {A} (wrap : A → BrokerMutationResult)
    (r : result A StateMachineError * BrokerState) : Prop :=
  valid_state r.2 → 0 < s_term r.2 →
  match r.1 with Ok a => valid_outcome (wrap a) | Err _ => True end.

Lemma group_answer md g :
  0 < md_term md → valid_group g → valid_outcome (RConsumerGroup (consumer_group_result md g)).
Proof. intros Hm (Hid & _ & _ & Hn). done. Qed.

Lemma ensure_namespace_answer c s :
  valid_command (EnsureNamespace c) → answers RNamespace (on_state (ensure_namespace c (bare s))).
Proof.
  intros [Hid _]. unfold ensure_namespace. simpl.
  destruct (s_namespaces s !! _) as [n|] eqn:Hn.
  - intros [Hv _ _] Ht. split; [done|]. by apply (Hv (en_namespace_id c)).
  - do 2 (case_match; [done|]). by destruct (next_revision _).
Qed.

Lemma publish_answer c s :
  valid_command (PublishTask c) → answers RTaskPublished (spec_publish c s).
Proof.
  intros (_ & Hid & _). unfold spec_publish, publish_task. simpl.
  destruct (require_namespace _ _); [|done].
  destruct (s_tasks s !! _) as [t|] eqn:Ht.
  - case_match; [done|]. intros [_ Hv _] Hterm. split; [done|]. by apply (Hv (pt_task_id c)).
  - do 2 (case_match; [done|]). by destruct (next_revision _).
Qed.

Lemma ensure_group_answer c s : answers RConsumerGroup (spec_ensure_group c s).
Proof.
  unfold spec_ensure_group, ensure_consumer_group. simpl.
  destruct (require_namespace _ _); [|done].
  destruct (s_groups s !! _) as [g|] eqn:Hg.
  - case_match; [done|]. intros [_ _ Hv] Ht. apply group_answer; [done|]. by apply (Hv _ _ Hg).
  - do 2 (case_match; [done|]). destruct (next_revision _); [|done]. simpl.
    rewrite lookup_insert_eq. simpl. intros [_ _ Hv] Ht. apply group_answer; [done|].
    simpl in Hv. by apply (map_Forall_insert_1_1 _ _ _ _ Hv).
Qed.

Lemma join_answer c s : answers RConsumerGroup (on_state (join_consumer_group c (bare s))).
Proof.
  unfold join_consumer_group. simpl. destruct (next_revision _); [|done].
  destruct (Coordinator_join _ _ _ _ _ _) as [r groups]. destruct (map_err _ r); [|done]. simpl.
  destruct (groups !! _) as [g|] eqn:Hg; [|done]. simpl.
  intros Hs Ht. apply group_answer; case_decide; simpl in *; try done;
    by eapply (vs_groups _ Hs), Hg.
Qed.

Lemma heartbeat_answer c s :
  valid_command (Heartbeat c) → answers RHeartbeat (on_state (heartbeat c (bare s))).
Proof.
  intros [_ Hid]. unfold heartbeat. simpl. destruct (next_revision _); [|done].
  destruct (Coordinator_heartbeat _ _ _ _ _) as [r groups]. destruct (map_err _ r); [|done]. simpl.
  destruct (groups !! _) as [g|] eqn:Hg; [|done]. simpl.
  destruct (g_consumers g !! _) as [mem|]; [|done]. simpl. intros Hs Ht.
  assert (valid_group g) as (? & _).
  { case_decide; simpl in *; by eapply (vs_groups _ Hs), Hg. }
  by case_decide.
Qed.

Lemma leave_answer c s : answers RConsumerGroup (spec_leave c s).
Proof.
  unfold spec_leave. destruct (next_revision _); [|done]. destruct (requeue_check _ _ _); [|done].
  destruct (s_groups s !! lv_group_id c) as [g|]; [|done].
  destruct (Group_leave _ _ g) as [[mem|] g']; [|done]. simpl. intros [_ _ Hv] Ht.
  apply group_answer; [done|]. by apply (map_Forall_insert_1_1 _ _ _ _ Hv).
Qed.

Lemma len_bset_le {A B} `{Countable B, Ord B} (f : A → B) (l : list A) :
  len (bset_iter (list_to_set (f <$> l) : gset B)) ≤ len l.
Proof.
  unfold len. rewrite <-(length_fmap f l). apply N2Z.inj_le. rewrite !nat_N_Z. apply inj_le.
  apply submseteq_length, NoDup_submseteq; [apply bset_iter_nodup|].
  intros x. rewrite elem_of_bset_iter. set_solver.
Qed.

Lemma reap_answer c s :
  valid_command (ReapStaleMembers c) → answers RStaleMembersReaped (spec_reap c s).
Proof.
  intros Hmax. simpl in Hmax. unfold spec_reap. case_match; [done|]. case_match; [done|].
  destruct (next_revision _); [|done]. destruct (reap_check _ _ _); [|done]. simpl. intros _ Ht.
  assert (len (reap_victims c s) ≤ u64_max).
  { unfold reap_victims, len. rewrite length_fmap. fold (@len (N * string * string)).
    etrans; [|exact Hmax]. pose proof (len_take_N (rp_max_members c)
      (reap_candidates (rp_stale_before_ms c) (s_groups s))) as Hl. unfold len in Hl |- *. lia. }
  split_and!; [done..|]. etrans; [apply len_bset_le|done].
Qed.

Lemma claim_answer_shape generation t m :
  (∀ t', t = Some t' → valid_task t') → 0 < s_term (m_state m) →
  valid_outcome (RTaskClaim (task_claim_result generation t m)).
Proof.
  intros Hv Ht. unfold task_claim_result. destruct t as [t|]; [|done].
  destruct (t_state t) as [|l|] eqn:Hl; [done| |done].
  destruct (Hv t eq_refl) as (Hid & _ & Hobj & Hst). rewrite Hl in Hst. by destruct Hst.
Qed.

Lemma lease_holder_elem lid tasks t : lease_holder lid tasks = Some t → ∃ id, tasks !! id = Some t.
Proof.
  unfold lease_holder. intros Hh.
  assert (t ∈ filter (λ t, holds_lease lid t = true) (bmap_values tasks)) as Ht.
  { destruct (filter _ _); simplify_eq/=. by left. }
  apply list_elem_of_filter in Ht as [_ Ht]. by apply elem_of_bmap_values in Ht.
Qed.

Lemma claim_answer c s : answers RTaskClaim (spec_claim c s).
Proof.
  unfold spec_claim. destruct (require_term _ _); [|done].
  destruct (require_group_member _ _ _ _) as [[ns gen]|]; [|done].
  destruct (lease_holder _ _) as [t|] eqn:Hh.
  { case_match; [|done]. intros [_ Hv _] Ht. apply claim_answer_shape; [|done].
    intros ? [= <-]. apply lease_holder_elem in Hh as [id Hid]. by apply (Hv id). }
  destruct (head _) as [[c0 id]|]; [|intros _ Ht; by apply claim_answer_shape].
  destruct (checked_deadline _ _); [|done]. destruct (next_revision _); [|done].
  destruct (requeue_where _ _ !! id) as [t|]; [|done]. cbn [ok_or]. intros [_ Hv _] Ht.
  apply claim_answer_shape; [|done]. intros ? [= <-].
  by apply (map_Forall_insert_1_1 _ _ _ _ Hv).
Qed.

Lemma renew_answer c s :
  valid_command (RenewTaskLease c) →
  answers RTaskLeaseRenewed (on_state (renew_task_lease c (bare s))).
Proof.
  intros (Hid & _ & _ & Hl & _). unfold renew_task_lease. simpl.
  destruct (require_term _ _); [|done]. destruct (require_group_member _ _ _ _) as [[]|]; [|done].
  destruct (checked_deadline _ _); [|done]. destruct (next_revision _); [|done].
  destruct (s_tasks s !! rn_task_id c) as [t|]; [|done]. simpl.
  destruct (Task_renew _ _ t) as [[[]|] t']; simpl; [|done]. by destruct (t_state t').
Qed.

Lemma complete_answer c s :
  valid_command (CompleteTask c) → answers RTaskCompleted (on_state (complete_task c (bare s))).
Proof.
  intros (_ & Hid & _). unfold complete_task. simpl.
  destruct (require_term _ _); [|done]. destruct (require_group_member _ _ _ _); [|done].
  destruct (next_revision _); [|done]. destruct (s_tasks s !! cp_task_id c) as [t|]; [|done]. simpl.
  destruct (Task_complete _ _ t) as [[outcome|] t']; simpl; [|done].
  by destruct (decide (outcome = OutcomeCompleted)).
Qed.

Lemma prune_answer c s :
  valid_command (PruneCompletedTasks c) → answers RCompletedTasksPruned (spec_prune c s).
Proof.
  intros Hmax. simpl in Hmax. unfold spec_prune. case_match; [done|]. case_match; [done|].
  destruct (next_revision _); [|done]. simpl. intros _ Ht. split; [done|].
  rewrite len_take_N. etrans; [apply N.le_min_l|done].
Qed.

Lemma advance_term_answer c s : answers RTermAdvanced (on_state (advance_term c (bare s))).
Proof.
  unfold advance_term. simpl. destruct (require_term _ _); [|done]. case_match; [done|].
  destruct (next_revision _); [|done]. intros _ Ht. exact Ht.
Qed.

Lemma answers_map {A} (wrap : A → BrokerMutationResult) r :
  answers wrap r → answers id (prod_map (map_ok wrap) id r).
Proof. by destruct r as [[] s]. Qed.

Lemma spec_handle_answer cmd s : valid_command cmd → answers id (spec_handle cmd s).
Proof.
  intros Hc. destruct cmd; cbn [spec_handle handle]; rewrite ?on_state_prod_map; apply answers_map.
  - by apply ensure_namespace_answer.
  - by apply publish_answer.
  - apply ensure_group_answer.
  - apply join_answer.
  - by apply heartbeat_answer.
  - apply leave_answer.
  - by apply reap_answer.
  - apply claim_answer.
  - by apply renew_answer.
  - by apply complete_answer.
  - by apply prune_answer.
  - apply advance_term_answer.
Qed.
