(* ===== verification/Words.v ===== *)
(** * Machine words

    The counters and times of the state are unsigned 64-bit integers in the
    source and natural numbers here.  Commands keep them within 64 bits; with
    this, every answer of the broker is one that the wire can carry. *)

From S2P Require Import Prelude Values Task Group Messages Machine Spec Invariant Refinement Claim.
From S2P Require Import Reap Effect Broker Valid Replicated ReplicatedProps.

Definition word (n : N) : Prop := n ≤ u64_max.

(** The lease of a task in 64 bits. *)
Definition word_task_state (st : TaskState) : Prop :=
  match st with
  | Queued q => word (qt_lease_epoch q)
  | Leased l => word (lt_generation l) ∧ word (lt_lease_epoch l) ∧ word (lt_expires_at_ms l)
  | Completed c => word (ct_generation c) ∧ word (ct_lease_epoch c)
  end.

Definition word_task (t : Task) : Prop := word (t_revision t) ∧ word_task_state (t_state t).

Definition word_group (g : ConsumerGroup) : Prop :=
  word (g_generation g) ∧ word (g_revision g) ∧
  map_Forall (λ _ c, word (c_revision c)) (g_consumers g).

Record word_state (s : BrokerState) : Prop := {
  ws_term : word (s_term s);
  ws_revision : word (s_revision s);
  ws_namespaces : map_Forall (λ _ n, word (n_revision n)) (s_namespaces s);
  ws_tasks : map_Forall (λ _ t, word_task t) (s_tasks s);
  ws_groups : map_Forall (λ _ g, word_group g) (s_groups s);
}.

(** The term a command carries is a word; a claim finds room in the counters. *)
Definition word_command (cmd : BrokerCommand) (s : BrokerState) : Prop :=
  match cmd with
  | AdvanceTerm c => word (at_new_term c)
  | ClaimTask _ => counters_room s
  | _ => True
  end.

Create HintDb words.
#[export] Hint Resolve ws_term ws_revision ws_namespaces ws_tasks ws_groups : words.
#[export] Hint Resolve valid_insert valid_filter : words.

Lemma word_next r r' : next_revision r = Ok r' → word r'.
Proof.
  unfold next_revision, Revision_next. intros [-> ?]%map_err_ok%counter_next_ok. unfold word. lia.
Qed.

Lemma word_deadline now d t : checked_deadline now d = Ok t → word t.
Proof.
  unfold checked_deadline, word, checked_add, u64_max. destruct (N.leb_spec (now + d) 18446744073709551615); [|done].
  by intros [= <-].
Qed.
#[export] Hint Resolve word_next word_deadline : words.

(** ** Tasks and groups *)

Lemma word_renewed fence exp t r t' :
  Task_renew fence exp t = (r, t') → word exp → word_task t → word_task t'.
Proof.
  destruct r as [[]|].
  - intros (l & Hl & _ & Hr & ->)%Task_renew_ok He [_ Hs]. rewrite Hl in Hs.
    split; simpl; [unfold word; lia|naive_solver].
  - by intros ->%Task_renew_err.
Qed.

Lemma word_completed fence res t r t' :
  Task_complete fence res t = (r, t') → word_task t → word_task t'.
Proof.
  destruct r as [[]|].
  - intros (l & Hl & _ & Hr & ->)%Task_complete_ok [_ Hs]. rewrite Hl in Hs.
    split; simpl; [unfold word; lia|naive_solver].
  - by intros [-> _]%Task_complete_already.
  - by intros ->%Task_complete_err.
Qed.

Lemma word_requeued t : t_revision t < u64_max → word_task t → word_task (requeued t).
Proof.
  unfold requeued. intros Hr [Ht Hs]. destruct (t_state t) eqn:E; [by split; rewrite ?E..| |].
  - split; simpl in *; [unfold word; lia|tauto].
  - split; rewrite ?E; done.
Qed.

(** Requeueing tasks whose revisions have room. *)
Lemma word_requeue_where P tasks :
  map_Forall (λ _ t, P t = true → t_revision t < u64_max) tasks →
  map_Forall (λ _ t, word_task t) tasks → map_Forall (λ _ t, word_task t) (requeue_where P tasks).
Proof.
  intros Hr Hv id t (u & Hu & ->)%requeue_where_lookup. specialize (Hv id u Hu).
  specialize (Hr id u Hu). simpl in *. destruct (P u); [apply word_requeued; auto|done].
Qed.

Lemma word_group_set g gen rev cs :
  word gen → word rev → map_Forall (λ _ c, word (c_revision c)) cs → word_group (group_set g gen rev cs).
Proof. done. Qed.

Lemma word_beat g mid c now :
  word_group g → g_consumers g !! mid = Some c → c_revision c < u64_max →
  map_Forall (λ _ c, word (c_revision c))
    (<[mid := consumer_beat c now (c_revision c + 1)]> (g_consumers g)).
Proof.
  intros (_ & _ & Hg) Hm Hc. apply (valid_insert (λ c, word (c_revision c))); [done|].
  unfold word. simpl. lia.
Qed.

Lemma word_join mid caps now max g r g' :
  Group_join mid caps now max g = (r, g') → word_group g → word_group g'.
Proof.
  unfold Group_join. intros Hj Hg. pose proof Hg as (Hgen & Hrev & Hc).
  group_op; try done; (apply word_group_set; [by unfold word in *; lia..|]); [by apply word_beat|].
  by apply (valid_insert (λ c, word (c_revision c))).
Qed.

Lemma word_heartbeat mid gen now g r g' :
  Group_heartbeat mid gen now g = (r, g') → word_group g → word_group g'.
Proof.
  unfold Group_heartbeat. intros Hj Hg. pose proof Hg as (Hgen & Hrev & Hc).
  group_op; try done. apply word_group_set; [by unfold word in *; lia..|]. by apply word_beat.
Qed.

Lemma word_leave mid gen g r g' :
  Group_leave mid gen g = (r, g') → word_group g → word_group g'.
Proof.
  unfold Group_leave. intros Hj Hg. pose proof Hg as (Hgen & Hrev & Hc).
  group_op; try done. apply word_group_set; [by unfold word in *; lia..|].
  by apply map_Forall_delete.
Qed.

Lemma word_with_group {A} gid (op : ConsumerGroup → result A ConsumerGroupError * ConsumerGroup)
    groups r groups' :
  with_group_mut gid op groups = (r, groups') →
  (∀ g r' g', op g = (r', g') → word_group g → word_group g') →
  map_Forall (λ _ g, word_group g) groups → map_Forall (λ _ g, word_group g) groups'.
Proof.
  intros [(_ & _ & ->)|(g & r' & g' & Hg & Ho & _ & ->)]%with_group_mut_cases Hop Hv; [done|].
  apply valid_insert; [done|]. eapply Hop; [done|]. by apply (Hv gid).
Qed.

(** ** Commands *)

Definition keeps_words {A} (s : BrokerState) (r : result A StateMachineError * BrokerState) : Prop :=
  word_state s → word_state r.2.

Lemma keeps_words_same {A} s (r : result A StateMachineError) : keeps_words s (r, s).
Proof. by intros Hs. Qed.
#[export] Hint Resolve keeps_words_same : words.

Ltac same := solve [unfold on_state; simpl; auto with words].

Lemma word_one : word 1.
Proof. unfold word, u64_max. lia. Qed.
Lemma word_zero : word 0.
Proof. unfold word, u64_max. lia. Qed.
#[export] Hint Resolve word_one word_zero : words.

Lemma ensure_namespace_words c s : keeps_words s (on_state (ensure_namespace c (bare s))).
Proof.
  unfold ensure_namespace. simpl. destruct (s_namespaces s !! _); [same|].
  do 2 (case_match; [same|]). destruct (next_revision _) eqn:E; [|same]. intros [].
  constructor; simpl; eauto with words.
Qed.

Lemma publish_words c s : keeps_words s (spec_publish c s).
Proof.
  unfold spec_publish, publish_task. simpl. destruct (require_namespace _ _); [|same].
  destruct (s_tasks s !! _); [case_match; same|]. do 2 (case_match; [same|]).
  destruct (next_revision _) eqn:E; [|same]. intros []. constructor; simpl; eauto with words.
  apply valid_insert; [done|]. split; simpl; auto with words.
Qed.

Lemma ensure_group_words c s : keeps_words s (spec_ensure_group c s).
Proof.
  unfold spec_ensure_group, ensure_consumer_group. simpl. destruct (require_namespace _ _); [|same].
  destruct (s_groups s !! _); [case_match; same|]. do 2 (case_match; [same|]).
  destruct (next_revision _) eqn:E; [|same]. simpl. rewrite lookup_insert_eq. simpl.
  intros []. constructor; simpl; eauto with words. apply valid_insert; [done|].
  split_and!; simpl; auto with words. apply map_Forall_empty.
Qed.

Lemma groups_words s groups :
  word_state s → map_Forall (λ _ g, word_group g) groups → word_state (set_groups groups s).
Proof. by intros [] ?; constructor. Qed.

Lemma revision_words s r : word r → word_state s → word_state (set_revision r s).
Proof. by intros ? []; constructor. Qed.

Lemma tasks_words s tasks :
  word_state s → map_Forall (λ _ t, word_task t) tasks → word_state (set_tasks tasks s).
Proof. by intros [] ?; constructor. Qed.

Lemma join_words c s : keeps_words s (on_state (join_consumer_group c (bare s))).
Proof.
  intros Hs. unfold join_consumer_group. simpl. destruct (next_revision _) eqn:Hn; [|done].
  apply word_next in Hn. destruct (Coordinator_join _ _ _ _ _ _) as [r groups] eqn:E.
  apply word_with_group in E; [|intros g r' g' Ho; by apply (word_join _ _ _ _ _ _ _ Ho)|apply Hs].
  pose proof (groups_words s groups Hs E).
  destruct (map_err _ r); [|done]. simpl. destruct (groups !! _); [|done]. simpl.
  case_decide; [done|by apply (revision_words (set_groups groups s))].
Qed.

Lemma heartbeat_words c s : keeps_words s (on_state (heartbeat c (bare s))).
Proof.
  intros Hs. unfold heartbeat. simpl. destruct (next_revision _) eqn:Hn; [|done].
  apply word_next in Hn. destruct (Coordinator_heartbeat _ _ _ _ _) as [r groups] eqn:E.
  apply word_with_group in E; [|intros g r' g' Ho; by apply (word_heartbeat _ _ _ _ _ _ Ho)|apply Hs].
  pose proof (groups_words s groups Hs E).
  destruct (map_err _ r); [|done]. simpl. destruct (groups !! _) as [g|]; [|done]. simpl.
  destruct (g_consumers g !! _); [|done]. simpl.
  case_decide; [by apply (revision_words (set_groups groups s))|done].
Qed.

Lemma leave_words c s : keeps_words s (spec_leave c s).
Proof.
  intros Hs. unfold spec_leave. destruct (next_revision _) eqn:Hn; [|done].
  destruct (requeue_check _ _ _) eqn:Hr; [|done].
  destruct (s_groups s !! lv_group_id c) as [g|] eqn:Hg; [|done].
  destruct (Group_leave _ _ g) as [[]] eqn:E; [|done]. destruct Hs.
  constructor; simpl; eauto with words.
  - apply word_requeue_where; [|done]. intros id t Ht. by eapply requeue_check_ok.
  - apply valid_insert; [done|]. apply (word_leave _ _ _ _ _ E). by apply (ws_groups0 (lv_group_id c)).
Qed.

Lemma leased_by_any_victim vs t :
  leased_by_any vs t = true → ∃ gid mid, (gid, mid) ∈ vs ∧ leased_by gid mid t = true.
Proof.
  unfold leased_by_any. rewrite existsb_exists. intros ([gid mid] & Hin & Hl).
  apply list_elem_of_In in Hin. eauto.
Qed.

Lemma reap_words c s : keeps_words s (spec_reap c s).
Proof.
  intros Hs. unfold spec_reap. case_match; [done|]. case_match; [done|].
  destruct (next_revision _) eqn:Hn; [|done]. destruct (reap_check _ _ _) eqn:Hr; [|done].
  destruct Hs. constructor; simpl; eauto with words.
  - apply word_requeue_where; [|done]. intros id t Ht (gid & mid & Hin & Hl)%leased_by_any_victim.
    pose proof (reap_check_ok _ _ _ _ Hr gid) as [_ Hroom]; [|by eapply (Hroom mid); [apply elem_of_victims_in|..]].
    apply elem_of_bset_iter, elem_of_list_to_set, list_elem_of_fmap. by exists (gid, mid).
  - intros gid g'. rewrite map_lookup_imap. intros (g & Hg & [= <-])%bind_Some.
    specialize (ws_groups0 gid g Hg). simpl in ws_groups0. unfold reap_group.
    destruct (victims_in gid _) as [|mid mids] eqn:Hv; [done|].
    assert (mid ∈ victims_in gid (reap_victims c s)) as Hmid by (rewrite Hv; by left).
    apply elem_of_victims_in in Hmid.
    pose proof (reap_check_ok _ _ _ _ Hr gid) as [(g1 & Hg1 & ? & ?) _].
    { apply elem_of_bset_iter, elem_of_list_to_set, list_elem_of_fmap. by exists (gid, mid). }
    rewrite Hg in Hg1. injection Hg1 as <-.
    apply word_group_set; [unfold word; lia..|]. apply (valid_filter (λ c, word (c_revision c))), ws_groups0.
Qed.

Lemma member_generation_word gid mid gen m ns g :
  word_state (m_state m) → require_group_member gid mid gen m = Ok (ns, g) → word g.
Proof.
  unfold require_group_member, require_member. intros Hs Hm%map_err_ok.
  destruct (m_groups m !! gid) as [x|] eqn:Hx; [|done]. cbn [ok_or] in Hm.
  destruct (map_err _ _); [|done]. destruct (g_consumers x !! mid); [|done].
  injection Hm as <- <-. by apply (ws_groups _ Hs gid).
Qed.

Lemma claim_words c s : counters_room s → keeps_words s (spec_claim c s).
Proof.
  intros [Hrev Hroom] Hs. unfold spec_claim. destruct (require_term _ _); [|done].
  destruct (require_group_member _ _ _ _) as [[ns gen]|] eqn:Hm; [|done].
  apply (member_generation_word _ _ _ (bare s)) in Hm; [|done].
  destruct (lease_holder _ _); [by case_match|]. destruct (head _) as [[c0 id]|]; [|done].
  destruct (checked_deadline _ _) eqn:Hd; [|done]. destruct (next_revision _) eqn:Hn; [|done].
  destruct (requeue_where _ _ !! id) as [t|] eqn:Ht; [|done]. destruct Hs.
  constructor; simpl; eauto with words. apply valid_insert.
  - apply word_requeue_where; [|done]. intros id' t' Ht' _.
    specialize (Hroom id' t' Ht'). simpl in Hroom. lia.
  - apply requeue_where_lookup in Ht as (u & Hu & ->). specialize (Hroom id u Hu). simpl in Hroom.
    apply (requeued_room u (expired_in ns (cl_now_ms c) u)) in Hroom as [? ?].
    split; [unfold word; simpl; lia|]. split_and!; simpl; [done|unfold word; lia|].
    by eapply word_deadline.
Qed.

Lemma renew_words c s : keeps_words s (on_state (renew_task_lease c (bare s))).
Proof.
  intros Hs. unfold renew_task_lease. simpl. destruct (require_term _ _); [|done].
  destruct (require_group_member _ _ _ _) as [[]|]; [|done].
  destruct (checked_deadline _ _) as [exp|] eqn:Hd; [|done]. apply word_deadline in Hd.
  destruct (next_revision _) as [next|] eqn:Hn; [|done]. apply word_next in Hn.
  destruct (s_tasks s !! rn_task_id c) as [t|] eqn:Ht; [|done]. simpl.
  destruct (Task_renew _ exp t) as [r t'] eqn:E.
  pose proof (word_renewed _ _ _ _ _ E Hd (ws_tasks _ Hs _ _ Ht)) as Ht'.
  pose proof (tasks_words s _ Hs (valid_insert _ _ (rn_task_id c) _ (ws_tasks _ Hs) Ht')) as Hs'.
  destruct r as [[]|]; simpl; [|done].
  apply Task_renew_ok in E as (l & _ & _ & _ & ->). simpl. destruct Hs'. by constructor.
Qed.

Lemma complete_words c s : keeps_words s (on_state (complete_task c (bare s))).
Proof.
  intros Hs. unfold complete_task. simpl. destruct (require_term _ _); [|done].
  destruct (require_group_member _ _ _ _) as [|]; [|done].
  destruct (next_revision _) as [next|] eqn:Hn; [|done]. apply word_next in Hn.
  destruct (s_tasks s !! cp_task_id c) as [t|] eqn:Ht; [|done]. simpl.
  destruct (Task_complete _ _ t) as [r t'] eqn:E.
  pose proof (word_completed _ _ _ _ _ E (ws_tasks _ Hs _ _ Ht)) as Ht'.
  pose proof (tasks_words s _ Hs (valid_insert _ _ (cp_task_id c) _ (ws_tasks _ Hs) Ht')) as Hs'.
  destruct r as [[]|]; simpl; [| |done]; unfold on_state; simpl;
    rewrite ?m_state_remove_member_lease_task; [|done]. destruct Hs'. by constructor.
Qed.

Lemma prune_words c s : keeps_words s (spec_prune c s).
Proof.
  intros Hs. unfold spec_prune. case_match; [done|]. case_match; [done|].
  destruct (next_revision _) eqn:Hn; [|done]. destruct Hs. constructor; simpl; eauto with words.
Qed.

Lemma advance_term_words c s :
  word (at_new_term c) → keeps_words s (on_state (advance_term c (bare s))).
Proof.
  intros Hc Hs. unfold advance_term. simpl. destruct (require_term _ _); [|done].
  case_match; [done|]. destruct (next_revision _) eqn:Hn; [|done]. apply word_next in Hn.
  destruct Hs. by constructor.
Qed.

Lemma keeps_words_map {A B} (f : A → B) s r :
  keeps_words s r → keeps_words s (prod_map (map_ok f) id r).
Proof. by destruct r. Qed.

(** Commands keep the state within 64 bits. *)
Lemma spec_handle_words cmd s :
  word_command cmd s → word_state s → word_state (spec_handle cmd s).2.
Proof.
  intros Hc. change (keeps_words s (spec_handle cmd s)).
  destruct cmd; cbn [spec_handle handle]; rewrite ?on_state_prod_map; apply keeps_words_map.
  - apply ensure_namespace_words.
  - apply publish_words.
  - apply ensure_group_words.
  - apply join_words.
  - apply heartbeat_words.
  - apply leave_words.
  - apply reap_words.
  - by apply claim_words.
  - apply renew_words.
  - apply complete_words.
  - apply prune_words.
  - by apply advance_term_words.
Qed.

(** ** Answers *)

Definition positive_word (n : N) : Prop := 0 < n ≤ u64_max.

(** The numbers of an answer as the wire carries them: words, and revisions of
    entities that are not zero. *)
Definition word_outcome (r : BrokerMutationResult) : Prop :=
  match r with
  | RNamespace r => positive_word (nr_namespace_revision r)
  | RTaskPublished r => positive_word (tp_task_revision r)
  | RConsumerGroup r => word (gr_generation r) ∧ positive_word (gr_group_revision r)
  | RHeartbeat r => word (hr_generation r) ∧ positive_word (hr_member_revision r)
  | RTaskClaim r => word (tc_generation r) ∧
      from_option word True (tc_task_revision r) ∧ from_option word True (tc_lease_epoch r) ∧
      from_option word True (tc_lease_expires_at_ms r)
  | RTaskLeaseRenewed r => positive_word (tr_task_revision r) ∧ word (tr_lease_epoch r) ∧
      word (tr_lease_expires_at_ms r) ∧ word (tr_generation r)
  | RTaskCompleted r => positive_word (td_task_revision r)
  | RStaleMembersReaped _ | RCompletedTasksPruned _ | RTermAdvanced _ => True
  end.

Definition outcome_metadata (r : BrokerMutationResult) : MutationMetadata :=
  match r with
  | RNamespace r => nr_metadata r
  | RTaskPublished r => tp_metadata r
  | RConsumerGroup r => gr_metadata r
  | RHeartbeat r => hr_metadata r
  | RTaskClaim r => tc_metadata r
  | RTaskLeaseRenewed r => tr_metadata r
  | RTaskCompleted r => td_metadata r
  | RStaleMembersReaped r => sr_metadata r
  | RCompletedTasksPruned r => cpr_metadata r
  | RTermAdvanced r => ta_metadata r
  end.

Definition in_words {A} (wrap : A → BrokerMutationResult)
    (r : result A StateMachineError * BrokerState) : Prop :=
  word_state r.2 → StateInv r.2 →
  match r.1 with
  | Ok a => word_outcome (wrap a) ∧ outcome_metadata (wrap a) = metadata (bare r.2)
  | Err _ => True
  end.

Lemma task_words s id t : word_state s → StateInv s → s_tasks s !! id = Some t →
  positive_word (t_revision t) ∧ word_task_state (t_state t).
Proof.
  intros Hw Hi Ht. destruct (ws_tasks _ Hw _ _ Ht). by destruct (si_tasks _ Hi _ _ Ht) as (_ & ? & _).
Qed.

Lemma group_words s id g : word_state s → StateInv s → s_groups s !! id = Some g →
  word (g_generation g) ∧ positive_word (g_revision g) ∧
  map_Forall (λ _ c, positive_word (c_revision c)) (g_consumers g).
Proof.
  intros Hw Hi Hg. destruct (ws_groups _ Hw _ _ Hg) as (? & ? & Hc).
  destruct (si_groups _ Hi _ _ Hg) as (_ & [? Hm] & _). split_and!; [done..|].
  intros mid c Hmid. specialize (Hc _ _ Hmid). destruct (Hm _ _ Hmid) as (_ & ? & _). done.
Qed.

Lemma ensure_namespace_in_words c s : in_words RNamespace (on_state (ensure_namespace c (bare s))).
Proof.
  unfold ensure_namespace. simpl. destruct (s_namespaces s !! _) as [n|] eqn:Hn.
  - intros Hw Hi. split; [|done]. split; [by apply (si_namespaces _ Hi _ _ Hn)|].
    by apply (ws_namespaces _ Hw _ _ Hn).
  - do 2 (case_match; [done|]). by destruct (next_revision _).
Qed.

Lemma publish_in_words c s : in_words RTaskPublished (spec_publish c s).
Proof.
  unfold spec_publish, publish_task. simpl. destruct (require_namespace _ _); [|done].
  destruct (s_tasks s !! _) as [t|] eqn:Ht.
  - case_match; [done|]. intros Hw Hi. split; [|done]. by apply (task_words s _ t Hw Hi Ht).
  - do 2 (case_match; [done|]). by destruct (next_revision _).
Qed.

Lemma ensure_group_in_words c s : in_words RConsumerGroup (spec_ensure_group c s).
Proof.
  unfold spec_ensure_group, ensure_consumer_group. simpl.
  destruct (require_namespace _ _); [|done]. destruct (s_groups s !! _) as [g|] eqn:Hg.
  - case_match; [done|]. intros Hw Hi. split; [|done].
    by destruct (group_words s _ g Hw Hi Hg) as (? & ? & _).
  - do 2 (case_match; [done|]). destruct (next_revision _); [|done]. simpl.
    rewrite lookup_insert_eq. simpl. by split.
Qed.

Lemma join_in_words c s : in_words RConsumerGroup (on_state (join_consumer_group c (bare s))).
Proof.
  unfold join_consumer_group. simpl. destruct (next_revision _); [|done].
  destruct (Coordinator_join _ _ _ _ _ _) as [r groups]. destruct (map_err _ r); [|done]. simpl.
  destruct (groups !! _) as [g|] eqn:Hg; [|done]. simpl.
  case_decide; intros Hw Hi; (split; [|done]); by destruct (group_words _ _ g Hw Hi Hg) as (? & ? & _).
Qed.

Lemma heartbeat_in_words c s : in_words RHeartbeat (on_state (heartbeat c (bare s))).
Proof.
  unfold heartbeat. simpl. destruct (next_revision _); [|done].
  destruct (Coordinator_heartbeat _ _ _ _ _) as [r groups]. destruct (map_err _ r); [|done]. simpl.
  destruct (groups !! _) as [g|] eqn:Hg; [|done]. simpl.
  destruct (g_consumers g !! _) as [mem|] eqn:Hm; [|done]. simpl.
  case_decide; intros Hw Hi; (split; [|done]);
    destruct (group_words _ _ g Hw Hi Hg) as (? & _ & Hc); by split; [|apply (Hc _ _ Hm)].
Qed.

Lemma leave_in_words c s : in_words RConsumerGroup (spec_leave c s).
Proof.
  unfold spec_leave. destruct (next_revision _); [|done]. destruct (requeue_check _ _ _); [|done].
  destruct (s_groups s !! lv_group_id c) as [g|]; [|done].
  destruct (Group_leave _ _ g) as [[mem|] g']; [|done]. simpl. intros Hw Hi. split; [|done].
  destruct (group_words _ (lv_group_id c) g' Hw Hi) as (? & ? & _); [|done].
  simpl. by rewrite lookup_insert_eq.
Qed.

Lemma same_groups_word s s' gid mid expected ns gen :
  word_state s' → s_groups s' = s_groups s →
  require_group_member gid mid expected (bare s) = Ok (ns, gen) → word gen.
Proof.
  intros Hw Hg Hm. apply (member_generation_word gid mid expected (bare s') ns); [done|].
  unfold require_group_member, m_groups in *. simpl in *. by rewrite Hg.
Qed.

Lemma claim_result_words s gen t :
  word gen → (∀ u, t = Some u → word_task u) →
  word_outcome (RTaskClaim (task_claim_result gen t (bare s))) ∧
  tc_metadata (task_claim_result gen t (bare s)) = metadata (bare s).
Proof.
  intros Hg Ht. unfold task_claim_result. destruct t as [t|]; [|done].
  destruct (Ht t eq_refl) as [? Hs]. destruct (t_state t) as [|l|]; [done| |done].
  destruct Hs as (? & ? & ?). done.
Qed.

Lemma claim_in_words c s : in_words RTaskClaim (spec_claim c s).
Proof.
  unfold spec_claim. destruct (require_term _ _); [|done].
  destruct (require_group_member _ _ _ _) as [[ns gen]|] eqn:Hm; [|done].
  assert (∀ s', word_state s' → s_groups s' = s_groups s → word gen) as Hgen
    by eauto using same_groups_word.
  destruct (lease_holder _ _) as [t|] eqn:Hh.
  { case_match; [|done]. intros Hw Hi. apply claim_result_words; [by eapply Hgen|].
    intros ? [= <-]. apply lease_holder_elem in Hh as [id Hid]. by apply (ws_tasks _ Hw id). }
  destruct (head _) as [[c0 id]|].
  2: { intros Hw _. apply claim_result_words; [by eapply Hgen|done]. }
  destruct (checked_deadline _ _); [|done]. destruct (next_revision _); [|done].
  destruct (requeue_where _ _ !! id) as [t|]; [|done]. cbn [ok_or]. intros Hw _.
  apply claim_result_words; [by eapply Hgen|]. intros ? [= <-].
  by apply (map_Forall_insert_1_1 _ _ _ _ (ws_tasks _ Hw)).
Qed.

Lemma renew_in_words c s : in_words RTaskLeaseRenewed (on_state (renew_task_lease c (bare s))).
Proof.
  unfold renew_task_lease. simpl. destruct (require_term _ _); [|done].
  destruct (require_group_member _ _ _ _) as [[ns gen]|] eqn:Hm; [|done].
  destruct (checked_deadline _ _) eqn:Hd; [|done]. destruct (next_revision _); [|done].
  destruct (s_tasks s !! rn_task_id c) as [t|]; [|done]. simpl.
  destruct (Task_renew _ _ t) as [[[]|] t']; simpl; [|done].
  destruct (t_state t') eqn:Hl; [done| |done]. simpl. intros Hw Hi. split; [|done].
  destruct (task_words _ (rn_task_id c) t' Hw Hi) as [? Hs]; [simpl; by rewrite lookup_insert_eq|].
  rewrite Hl in Hs. destruct Hs as (_ & ? & _). split_and!; [done|done|by eapply word_deadline|].
  by apply (same_groups_word _ _ _ _ _ _ _ Hw eq_refl Hm).
Qed.

Lemma complete_in_words c s : in_words RTaskCompleted (on_state (complete_task c (bare s))).
Proof.
  unfold complete_task. simpl. destruct (require_term _ _); [|done].
  destruct (require_group_member _ _ _ _); [|done]. destruct (next_revision _); [|done].
  destruct (s_tasks s !! cp_task_id c) as [t|]; [|done]. simpl.
  destruct (Task_complete _ _ t) as [[outcome|] t']; simpl; [|done].
  intros Hw Hi. destruct (task_words _ (cp_task_id c) t' Hw Hi) as [? _]; [|by split].
  case_decide; simpl; rewrite ?m_state_remove_member_lease_task; simpl; by rewrite lookup_insert_eq.
Qed.

Lemma in_words_map {A} (wrap : A → BrokerMutationResult) r :
  in_words wrap r → in_words id (prod_map (map_ok wrap) id r).
Proof. by destruct r as [[] s]. Qed.

Lemma spec_handle_in_words cmd s : in_words id (spec_handle cmd s).
Proof.
  destruct cmd; cbn [spec_handle handle]; rewrite ?on_state_prod_map; apply in_words_map.
  - apply ensure_namespace_in_words.
  - apply publish_in_words.
  - apply ensure_group_in_words.
  - apply join_in_words.
  - apply heartbeat_in_words.
  - apply leave_in_words.
  - unfold spec_reap. case_match; [done|]. case_match; [done|].
    destruct (next_revision _); [|done]. by destruct (reap_check _ _ _).
  - apply claim_in_words.
  - apply renew_in_words.
  - apply complete_in_words.
  - unfold spec_prune. case_match; [done|]. case_match; [done|]. by destruct (next_revision _).
  - unfold advance_term. simpl. destruct (require_term _ _); [|done]. case_match; [done|].
    by destruct (next_revision _).
Qed.

(** ** Responses of the log *)

(** The numbers of a replicated response are [u64] fields. *)
Definition wordb (n : N) : bool := n <=? u64_max.

Definition wordb_opt (o : option N) : bool := match o with Some n => wordb n | None => true end.

Definition word_metadata (m : ReplicatedMutationMetadataV1) : bool :=
  wordb (rm_term m) && wordb (rm_revision m).

Definition word_result (r : ReplicatedBrokerMutationResultV1) : bool :=
  match r with
  | V1RNamespace md _ n | V1RTaskPublished md _ n _ | V1RTaskCompleted md _ n _ =>
      word_metadata md && wordb n
  | V1RConsumerGroup md _ g n c => word_metadata md && (wordb g && (wordb n && wordb c))
  | V1RHeartbeat md _ _ g n => word_metadata md && (wordb g && wordb n)
  | V1RStaleMembersReaped md n k => word_metadata md && (wordb n && wordb k)
  | V1RTaskClaim md _ _ n _ e x g =>
      word_metadata md && (wordb_opt n && (wordb_opt e && (wordb_opt x && wordb g)))
  | V1RTaskLeaseRenewed md _ n _ e x g => word_metadata md && (wordb n && (wordb e && (wordb x && wordb g)))
  | V1RCompletedTasksPruned md n => word_metadata md && wordb n
  | V1RTermAdvanced md => word_metadata md
  end.

Definition word_response (r : ReplicatedBrokerResponseV1) : bool :=
  match r with
  | RaftControl | ApplicationError _ => true
  | SessionOwnerAcquired e => wordb e
  | Success r => word_result r
  end.
