(* ===== verification/ErrorTexts.v ===== *)
(** * The texts of rejections are short

    A response whose message exceeds 4096 bytes is not encoded.  Rejections of
    the broker quote identifiers and numbers of the command and the state, which
    are bounded, so their texts stay below. *)

From stdpp Require Import pretty.
From S2P Require Import Prelude Values Task Group Messages Machine Spec Invariant Refinement Claim.
From S2P Require Import Reap Effect Broker Valid Words Display.

(** ** Lengths *)

Lemma str_len_app s1 s2 : str_len (s1 +:+ s2) = str_len s1 + str_len s2.
Proof.
  assert (String.length (s1 +:+ s2) = String.length s1 + String.length s2)%nat
    by (induction s1 as [|c s1 IH]; [done|]; simpl; by f_equal).
  unfold str_len. lia.
Qed.

Lemma pretty_go_length k x s :
  x < 10 ^ N.of_nat k → (String.length (pretty_N_go x s) ≤ k + String.length s)%nat.
Proof.
  revert x s. induction k as [|k IH]; intros x s Hx.
  { replace x with 0 by (simpl in Hx; lia). rewrite pretty_N_go_0. simpl. lia. }
  destruct (N.eq_dec x 0) as [->|Hne]; [rewrite pretty_N_go_0; lia|].
  rewrite pretty_N_go_step by lia.
  etrans; [apply IH|simpl; lia]. apply N.Div0.div_lt_upper_bound.
  rewrite Nat2N.inj_succ, N.pow_succ_r' in Hx. lia.
Qed.

Lemma pretty_length (n : N) : word n → str_len (pretty n) ≤ 20.
Proof.
  intros Hn. unfold str_len, pretty, pretty_N. destruct (decide _); [simpl; lia|].
  pose proof (pretty_go_length 20 n "") as Hl. simpl String.length in Hl.
  assert (n < 10 ^ N.of_nat 20) as Hlt; [|specialize (Hl Hlt); lia].
  unfold word, u64_max in Hn. eapply N.le_lt_trans; [exact Hn|]. vm_compute. done.
Qed.

Definition short (s : string) : Prop := str_len s ≤ 128.

Lemma valid_id_short id : valid_id id → short id.
Proof. by intros (c & rest & -> & Hl & _)%validate_identifier_ok. Qed.
#[export] Hint Resolve valid_id_short : words.

(** ** Errors with bounded contents *)

Definition bounded_fencing (e : FencingValueError) : Prop :=
  match e with ZeroTerm => True | Overflow counter => short counter end.

Definition bounded_transition (e : TaskTransitionError) : Prop :=
  match e with TaskFencingValue e => bounded_fencing e | _ => True end.

Definition bounded_group_error (e : ConsumerGroupError) : Prop :=
  match e with
  | StaleGeneration expected actual => word expected ∧ word actual
  | MemberNotFound id | CapabilityConflict id => short id
  | MemberCapacityReached max => word max
  | InvalidMemberCapacity => True
  | GroupFencingValue e => bounded_fencing e
  end.

Definition bounded_error (e : StateMachineError) : Prop :=
  match e with
  | InvalidCapacity field => short field
  | CapacityExceeded resource max => short resource ∧ word max
  | NamespaceNotFound id | TaskConflict id | TaskNotFound id | LeaseIdConflict id
  | TaskCountUnderflow id | ConsumerGroupConflict id | ConsumerGroupNotFound id => short id
  | StaleTerm a b | NewTermNotGreater a b => word a ∧ word b
  | TimestampOverflow => True
  | TaskTransition e => bounded_transition e
  | ConsumerGroupTransition e => bounded_group_error e
  | FencingValue e => bounded_fencing e
  end.

Ltac text_length :=
  unfold short in *; rewrite ?str_len_app; repeat match goal with
  | H : _ ∧ _ |- _ => destruct H
  | H : word ?n |- _ => apply pretty_length in H
  end;
  repeat match goal with |- context [str_len (String ?c ?s)] =>
    let n := eval vm_compute in (str_len (String c s)) in change (str_len (String c s)) with n
  end;
  lia.

Lemma bounded_fencing_text e : bounded_fencing e → str_len (FencingValueError_fmt e) ≤ 1024.
Proof. destruct e; cbn [bounded_fencing FencingValueError_fmt]; intros; text_length. Qed.

Lemma bounded_error_text e : bounded_error e → str_len (StateMachineError_fmt e) ≤ 1024.
Proof.
  destruct e; cbn [bounded_error StateMachineError_fmt]; intros; try text_length.
  - destruct e; cbn [bounded_transition TaskTransitionError_fmt TaskStatus_debug] in *;
      try text_length; [destruct status; cbn; text_length..|]. by apply bounded_fencing_text.
  - destruct e; cbn [bounded_group_error ConsumerGroupError_fmt] in *; try text_length.
    by apply bounded_fencing_text.
  - by apply bounded_fencing_text.
Qed.

(** ** Rejections *)

(** The numbers a command quotes in a rejection are words. *)
Definition bounded_command (cmd : BrokerCommand) : Prop :=
  valid_command cmd ∧
  match cmd with
  | Heartbeat c => word (hb_expected_generation c)
  | LeaveConsumerGroup c => word (lv_expected_generation c)
  | ClaimTask c => word (cl_expected_term c) ∧ word (cl_expected_generation c)
  | RenewTaskLease c => word (rn_expected_term c) ∧ word (rn_expected_generation c)
  | CompleteTask c => word (cp_expected_term c) ∧ word (cp_expected_generation c)
  | AdvanceTerm c => word (at_expected_term c) ∧ word (at_new_term c)
  | _ => True
  end.

Definition errs {A E} (P : E → Prop) (r : result A E) : Prop :=
  match r with Ok _ => True | Err e => P e end.

Lemma errs_map {A E F} (P : F → Prop) (f : E → F) (r : result A E) :
  errs (λ e, P (f e)) r → errs P (map_err f r).
Proof. by destruct r. Qed.

Lemma counter_next_bounded c v : short c → errs bounded_fencing (counter_next c v).
Proof. unfold counter_next. by destruct (checked_add v 1). Qed.

Lemma Revision_next_bounded v : errs bounded_fencing (Revision_next v).
Proof. apply counter_next_bounded. by vm_compute. Qed.
Lemma Generation_next_bounded v : errs bounded_fencing (Generation_next v).
Proof. apply counter_next_bounded. by vm_compute. Qed.

Lemma next_revision_bounded v : errs bounded_error (next_revision v).
Proof. apply errs_map, Revision_next_bounded. Qed.

Lemma require_term_bounded t m : word t → word_state (m_state m) → errs bounded_error (require_term t m).
Proof. intros Ht Hm. unfold require_term. case_match; [done|]. split; [done|apply Hm]. Qed.

Lemma require_namespace_bounded ns m : short ns → errs bounded_error (require_namespace ns m).
Proof. intros. unfold require_namespace. by case_match. Qed.

Lemma require_generation_bounded gen g :
  word gen → word_group g → errs bounded_group_error (require_generation gen g).
Proof. intros Hg [? _]. unfold require_generation. by case_match. Qed.

(** One case of a chain of fallible steps: the error is that of the step. *)
Ltac err_step lem :=
  match goal with
  | |- context [match ?r with Ok _ => _ | Err _ => _ end] =>
      let H := fresh in pose proof (lem : errs _ r) as H; destruct r; cbn [errs] in H; [|done]
  end.

Lemma Group_join_bounded mid caps now max g :
  short mid → word max → errs bounded_group_error (Group_join mid caps now max g).1.
Proof.
  intros Hm Hx. unfold Group_join. destruct (g_consumers g !! mid).
  - case_match; [done|]. case_match; [done|].
    err_step (errs_map bounded_group_error GroupFencingValue _ (Revision_next_bounded (c_revision c))).
    by err_step (errs_map bounded_group_error GroupFencingValue _ (Revision_next_bounded (g_revision g))).
  - case_match; [done|]. case_match; [done|].
    err_step (errs_map bounded_group_error GroupFencingValue _ (Generation_next_bounded (g_generation g))).
    by err_step (errs_map bounded_group_error GroupFencingValue _ (Revision_next_bounded (g_revision g))).
Qed.

Lemma Group_heartbeat_bounded mid gen now g :
  short mid → word gen → word_group g →
  errs bounded_group_error (Group_heartbeat mid gen now g).1.
Proof.
  intros Hm Hg Hw. unfold Group_heartbeat. err_step (require_generation_bounded gen g Hg Hw).
  destruct (g_consumers g !! mid); [|done]. cbn [ok_or]. case_match; [done|].
  err_step (errs_map bounded_group_error GroupFencingValue _ (Revision_next_bounded (c_revision c))).
  by err_step (errs_map bounded_group_error GroupFencingValue _ (Revision_next_bounded (g_revision g))).
Qed.

Lemma Group_leave_bounded mid gen g :
  short mid → word gen → word_group g → errs bounded_group_error (Group_leave mid gen g).1.
Proof.
  intros Hm Hg Hw. unfold Group_leave. err_step (require_generation_bounded gen g Hg Hw).
  destruct (g_consumers g !! mid); [|done]. cbn [ok_or].
  err_step (errs_map bounded_group_error GroupFencingValue _ (Generation_next_bounded (g_generation g))).
  by err_step (errs_map bounded_group_error GroupFencingValue _ (Revision_next_bounded (g_revision g))).
Qed.

Lemma with_group_bounded {A} gid (op : ConsumerGroup → result A ConsumerGroupError * ConsumerGroup)
    groups :
  short gid → (∀ g, groups !! gid = Some g → errs bounded_group_error (op g).1) →
  errs bounded_error (map_err from_coordinator_error (with_group_mut gid op groups).1).
Proof.
  intros Hid Hop. destruct (with_group_mut gid op groups) as [r groups'] eqn:E.
  apply with_group_mut_cases in E as [(_ & -> & _)|(g & r' & g' & Hg & Ho & -> & _)]; [done|].
  specialize (Hop g Hg). rewrite Ho in Hop. by destruct r'.
Qed.

Lemma require_group_member_bounded gid mid gen m :
  short gid → short mid → word gen → word_state (m_state m) →
  errs bounded_error (require_group_member gid mid gen m).
Proof.
  intros Hg Hm Hw Hs. unfold require_group_member, require_member.
  destruct (m_groups m !! gid) as [g|] eqn:E; [|done]. cbn [ok_or].
  pose proof (require_generation_bounded gen g Hw (ws_groups _ Hs _ _ E)) as Hr.
  destruct (require_generation gen g); [|done]. cbn [map_err].
  by destruct (g_consumers g !! mid).
Qed.

Lemma requeue_check_bounded gid mid tasks : errs bounded_error (requeue_check gid mid tasks).
Proof. unfold requeue_check. case_decide; [done|]. by vm_compute. Qed.

Lemma checked_deadline_bounded now d : errs bounded_error (checked_deadline now d).
Proof. unfold checked_deadline. by destruct (checked_add now d). Qed.

Lemma require_active_lease_bounded fence t : errs bounded_transition (require_active_lease fence t).
Proof. unfold require_active_lease. by repeat case_match. Qed.

Lemma Task_renew_bounded fence exp t : errs bounded_transition (Task_renew fence exp t).1.
Proof.
  unfold Task_renew. err_step (require_active_lease_bounded fence t).
  err_step (errs_map bounded_transition TaskFencingValue _ (Revision_next_bounded (t_revision t))).
  by destruct (t_state t).
Qed.

Lemma Task_complete_bounded fence res t : errs bounded_transition (Task_complete fence res t).1.
Proof.
  unfold Task_complete. destruct (t_state t) as [q|l|d]; [| |by case_match];
    err_step (require_active_lease_bounded fence t);
    by err_step (errs_map bounded_transition TaskFencingValue _ (Revision_next_bounded (t_revision t))).
Qed.

(** ** Commands *)

Definition rejects_short {A} (r : result A StateMachineError * BrokerState) : Prop :=
  errs bounded_error r.1.

Lemma ensure_namespace_short c s :
  bounded_command (EnsureNamespace c) → rejects_short (on_state (ensure_namespace c (bare s))).
Proof.
  intros [[Hid Hmax] _]. unfold rejects_short, ensure_namespace, on_state. cbn [fst].
  destruct (s_namespaces _ !! _); [done|]. case_match; [by vm_compute|].
  case_match; [by split; [vm_compute|]|].
  by err_step (next_revision_bounded (m_revision (bare s))).
Qed.

Lemma publish_short c s : bounded_command (PublishTask c) → rejects_short (spec_publish c s).
Proof.
  intros [(Hns & Hid & _ & Hmax) _]. unfold rejects_short, spec_publish, publish_task, on_state.
  cbn [fst]. err_step (require_namespace_bounded (pt_namespace_id c)
    (with_namespace_task_counts {[ pt_namespace_id c :=
      count_by t_namespace_id (pt_namespace_id c) (s_tasks s) ]} (bare s)) (valid_id_short _ Hns)).
  destruct (m_tasks _ !! _); [case_match; [by apply valid_id_short|done]|].
  case_match; [by vm_compute|]. case_match; [by split; [vm_compute|]|].
  by err_step (next_revision_bounded (s_revision s)).
Qed.

Lemma ensure_group_short c s :
  bounded_command (EnsureConsumerGroup c) → rejects_short (spec_ensure_group c s).
Proof.
  intros [(Hns & Hid & Hmax) _].
  unfold rejects_short, spec_ensure_group, ensure_consumer_group, on_state. cbn [fst].
  err_step (require_namespace_bounded (eg_namespace_id c)
    (with_namespace_group_counts {[ eg_namespace_id c :=
      count_by g_namespace_id (eg_namespace_id c) (s_groups s) ]} (bare s)) (valid_id_short _ Hns)).
  destruct (m_groups _ !! _); [case_match; [by apply valid_id_short|done]|].
  case_match; [by vm_compute|]. case_match; [by split; [vm_compute|]|].
  err_step (next_revision_bounded (s_revision s)).
  destruct (ok_or _ _) eqn:E; [done|]. cbn in E. by rewrite lookup_insert_eq in E.
Qed.

Lemma join_short c s :
  bounded_command (JoinConsumerGroup c) → rejects_short (on_state (join_consumer_group c (bare s))).
Proof.
  intros [(Hg & Hid & Hc & Hmax) _]. unfold rejects_short, join_consumer_group, on_state. cbn [fst].
  err_step (next_revision_bounded (m_revision (bare s))).
  pose proof (with_group_bounded (jg_group_id c) (Group_join (jg_member_id c) (jg_capabilities c)
    (jg_now_ms c) (jg_max_group_members c)) (m_groups (bare s)) (valid_id_short _ Hg)) as Hb.
  unfold Coordinator_join. destruct (with_group_mut _ _ _) as [r groups].
  specialize (Hb (λ g _, Group_join_bounded _ _ _ _ g (valid_id_short _ Hid) Hmax)).
  cbn [fst] in Hb. destruct (map_err _ r); [|done]. cbn.
  destruct (groups !! _); [done|]. by apply valid_id_short.
Qed.

Lemma heartbeat_short c s :
  bounded_command (Heartbeat c) → word_state s → rejects_short (on_state (heartbeat c (bare s))).
Proof.
  intros [(Hg & Hid) Hw] Hs. unfold rejects_short, heartbeat, on_state. cbn [fst].
  err_step (next_revision_bounded (m_revision (bare s))).
  pose proof (with_group_bounded (hb_group_id c) (Group_heartbeat (hb_member_id c)
    (hb_expected_generation c) (hb_now_ms c)) (m_groups (bare s)) (valid_id_short _ Hg)) as Hb.
  unfold Coordinator_heartbeat. destruct (with_group_mut _ _ _) as [r groups].
  specialize (Hb (λ g Hl, Group_heartbeat_bounded _ _ _ g (valid_id_short _ Hid) Hw
    (ws_groups _ Hs _ _ Hl))).
  cbn [fst] in Hb. destruct (map_err _ r); [|done]. cbn.
  destruct (groups !! _) as [g|]; [|by apply valid_id_short]. cbn.
  destruct (g_consumers g !! _); [done|]. by apply valid_id_short.
Qed.

Lemma leave_short c s :
  bounded_command (LeaveConsumerGroup c) → word_state s → rejects_short (spec_leave c s).
Proof.
  intros [(Hg & Hid) Hw] Hs. unfold rejects_short, spec_leave.
  err_step (next_revision_bounded (s_revision s)).
  err_step (requeue_check_bounded (lv_group_id c) (lv_member_id c) (s_tasks s)).
  destruct (s_groups s !! _) as [g|] eqn:E; [|by apply valid_id_short].
  pose proof (Group_leave_bounded _ _ g (valid_id_short _ Hid) Hw (ws_groups _ Hs _ _ E)) as Hl.
  by destruct (Group_leave _ _ g) as [[]].
Qed.

Lemma claim_short c s :
  bounded_command (ClaimTask c) → word_state s → rejects_short (spec_claim c s).
Proof.
  intros [(Hl & Hm & Hg & _) [Ht Hw]] Hs. unfold rejects_short, spec_claim.
  err_step (require_term_bounded (cl_expected_term c) (bare s) Ht Hs).
  err_step (require_group_member_bounded (cl_group_id c) (cl_member_id c)
    (cl_expected_generation c) (bare s) (valid_id_short _ Hg) (valid_id_short _ Hm) Hw Hs).
  case_match. destruct (lease_holder _ _); [case_match; [done|by apply valid_id_short]|].
  destruct (head _) as [[c0 id]|] eqn:Eh; [|done].
  err_step (checked_deadline_bounded (cl_now_ms c) (cl_lease_duration_ms c)).
  err_step (next_revision_bounded (s_revision s)).
  destruct (requeue_where _ _ !! id) as [t|] eqn:E; [done|].
  pose proof (head_Some_elem_of _ _ Eh) as Hin.
  apply elem_of_ready_list in Hin as (t & Hin & _). congruence.
Qed.

Lemma renew_short c s :
  bounded_command (RenewTaskLease c) → word_state s →
  rejects_short (on_state (renew_task_lease c (bare s))).
Proof.
  intros [(Hid & Hg & Hm & _) [Ht Hw]] Hs. unfold rejects_short, renew_task_lease, on_state.
  cbn [fst]. err_step (require_term_bounded (rn_expected_term c) (bare s) Ht Hs).
  err_step (require_group_member_bounded (rn_group_id c) (rn_member_id c)
    (rn_expected_generation c) (bare s) (valid_id_short _ Hg) (valid_id_short _ Hm) Hw Hs).
  case_match. err_step (checked_deadline_bounded (rn_now_ms c) (rn_lease_duration_ms c)).
  err_step (next_revision_bounded (m_revision (bare s))).
  destruct (m_tasks _ !! _) as [t|]; [|by apply valid_id_short]. cbn [ok_or].
  match goal with |- context [Task_renew ?f ?e t] =>
    pose proof (Task_renew_bounded f e t); destruct (Task_renew f e t) as [[]] end; [|done].
  cbn [map_err]. by destruct (t_state _).
Qed.

Lemma complete_short c s :
  bounded_command (CompleteTask c) → word_state s →
  rejects_short (on_state (complete_task c (bare s))).
Proof.
  intros [(_ & Hid & Hg & Hm & _) [Ht Hw]] Hs. unfold rejects_short, complete_task, on_state.
  cbn [fst]. err_step (require_term_bounded (cp_expected_term c) (bare s) Ht Hs).
  err_step (require_group_member_bounded (cp_group_id c) (cp_member_id c)
    (cp_expected_generation c) (bare s) (valid_id_short _ Hg) (valid_id_short _ Hm) Hw Hs).
  err_step (next_revision_bounded (m_revision (bare s))).
  destruct (m_tasks _ !! _) as [t|]; [|by apply valid_id_short]. cbn [ok_or].
  match goal with |- context [Task_complete ?f ?e t] =>
    pose proof (Task_complete_bounded f e t); by destruct (Task_complete f e t) as [[]] end.
Qed.

Lemma advance_term_short c s :
  bounded_command (AdvanceTerm c) → word_state s →
  rejects_short (on_state (advance_term c (bare s))).
Proof.
  intros [_ [Ht Hw]] Hs. unfold rejects_short, advance_term, on_state. cbn [fst].
  err_step (require_term_bounded (at_expected_term c) (bare s) Ht Hs).
  case_match; [by split; [apply Hs|]|]. by err_step (next_revision_bounded (m_revision (bare s))).
Qed.

Lemma prune_short c s : rejects_short (spec_prune c s).
Proof.
  unfold rejects_short, spec_prune. case_match; [by vm_compute|]. case_match; [done|].
  by err_step (next_revision_bounded (s_revision s)).
Qed.

Lemma requeue_checks_bounded gid mids tasks : errs bounded_error (requeue_checks gid mids tasks).
Proof.
  induction mids as [|mid mids IH]; cbn [requeue_checks]; [done|].
  by err_step (requeue_check_bounded gid mid tasks).
Qed.

Lemma reap_check_bounded gids vs s :
  Forall (λ gid, is_Some (s_groups s !! gid)) gids → errs bounded_error (reap_check gids vs s).
Proof.
  induction 1 as [|gid gids [g Hg] _ IH]; cbn [reap_check]; [done|]. rewrite Hg. cbn [ok_or].
  err_step (errs_map bounded_error FencingValue _ (Generation_next_bounded (g_generation g))).
  err_step (errs_map bounded_error FencingValue _ (Revision_next_bounded (g_revision g))).
  by err_step (requeue_checks_bounded gid (victims_in gid vs) (s_tasks s)).
Qed.

Lemma reap_short c s : StateInv s → rejects_short (spec_reap c s).
Proof.
  intros Hi. unfold rejects_short, spec_reap. case_match; [by vm_compute|]. case_match; [done|].
  err_step (next_revision_bounded (s_revision s)).
  assert (Forall (λ gid, is_Some (s_groups s !! gid))
    (bset_iter (list_to_set (reap_victims c s).*1))) as Hg;
    [|by err_step (reap_check_bounded _ (reap_victims c s) s Hg)].
  apply Forall_forall. intros gid Hgid%elem_of_bset_iter%elem_of_list_to_set.
  apply list_elem_of_fmap in Hgid as ([g mid] & -> & Hin).
  apply victims_are_members in Hin as (x & Hx & _); [by exists x|].
  intros id x Hx. by apply group_ok_keyed, (si_groups _ Hi _ _ Hx).
Qed.

(** Every rejection of the broker has a short text. *)
Lemma rejection_short cmd s e s' :
  bounded_command cmd → word_state s → StateInv s → spec_handle cmd s = (Err e, s') →
  str_len (be_message (from_state_machine_error e)) ≤ 1024.
Proof.
  intros Hc Hs Hi He. apply bounded_error_text.
  assert (rejects_short (spec_handle cmd s)) as Hr; [|unfold rejects_short in Hr; by rewrite He in Hr].
  assert (∀ A (f : A → BrokerMutationResult) r,
    rejects_short r → rejects_short (prod_map (map_ok f) (id : BrokerState → _) r)) as Hmap.
  { intros A f r. unfold rejects_short. destruct r as [[]]; done. }
  clear He e s'. destruct cmd; cbn [spec_handle handle]; rewrite ?on_state_prod_map; apply Hmap.
  - by apply ensure_namespace_short.
  - by apply publish_short.
  - by apply ensure_group_short.
  - by apply join_short.
  - by apply heartbeat_short.
  - by apply leave_short.
  - by apply reap_short.
  - by apply claim_short.
  - by apply renew_short.
  - by apply complete_short.
  - by apply prune_short.
  - by apply advance_term_short.
Qed.
