(* ===== verification/Sessions.v ===== *)
(** * Command identities and sessions ([agent-broker-application/src/command_identity.rs],
    [agent-broker-consensus/src/replicated_proposal.rs], [raft_state_machine.rs])

    A client session, the incarnation of its owner and the sequence number of a
    command within the session; the proposal that carries a command and its
    identity through the log; and the session table that a replica keeps. *)

From stdpp Require Import pretty.
From S2P Require Import Prelude Values Task Group Messages Machine Display Replicated.

Abbreviation CommandSessionId := string (only parsing).
Abbreviation SessionOwnerInstanceId := string (only parsing).
Abbreviation CommandSequence := N (only parsing).
Abbreviation SessionOwnerEpoch := N (only parsing).

Inductive CommandIdentityError :=
  | InvalidSessionId (reason : string)
  | InvalidOwnerInstanceId (reason : string)
  | ZeroOwnerEpoch
  | ZeroSequence.

Definition CommandIdentityError_fmt (e : CommandIdentityError) : string :=
  match e with
  | InvalidSessionId reason => "invalid command_session_id: " +:+ reason
  | InvalidOwnerInstanceId reason => "invalid command_session_owner_instance_id: " +:+ reason
  | ZeroOwnerEpoch => "command_session_owner_epoch must be greater than zero"
  | ZeroSequence => "command_sequence must be greater than zero"
  end.

#[export] Instance CommandIdentityError_display : Display CommandIdentityError :=
  CommandIdentityError_fmt.

Definition MAX_COMMAND_SESSION_ID_BYTES : N := 128.
Definition MAX_OWNER_INSTANCE_ID_BYTES : N := 128.

(** [validate_identifier] of this file. *)
Definition validate_session_text (value : string) (max_bytes : N) : result unit string :=
  match value with
  | EmptyString => Err "must not be empty"
  | String first rest =>
      if max_bytes <? str_len value then Err "must be at most 128 ASCII bytes"
      else if negb (is_ascii_alphanumeric first)
      then Err "must start with an ASCII alphanumeric character"
      else if negb (all_bytes (λ b, is_ascii_alphanumeric b || is_identifier_punct b) rest)
      then Err "contains unsupported characters"
      else Ok tt
  end.

Definition CommandSessionId_new (value : string) : result CommandSessionId CommandIdentityError :=
  let^ _ := map_err InvalidSessionId (validate_session_text value MAX_COMMAND_SESSION_ID_BYTES) in
  Ok value.

Definition SessionOwnerInstanceId_new (value : string) :
    result SessionOwnerInstanceId CommandIdentityError :=
  let^ _ := map_err InvalidOwnerInstanceId
              (validate_session_text value MAX_OWNER_INSTANCE_ID_BYTES) in
  Ok value.

Definition CommandSequence_new (value : N) : result CommandSequence CommandIdentityError :=
  if value =? 0 then Err ZeroSequence else Ok value.

Definition SessionOwnerEpoch_INITIAL : SessionOwnerEpoch := 1.

Definition SessionOwnerEpoch_new (value : N) : result SessionOwnerEpoch CommandIdentityError :=
  if value =? 0 then Err ZeroOwnerEpoch else Ok value.

Record CommandIdentity := {
  ci_session_id : CommandSessionId;
  ci_owner_epoch : SessionOwnerEpoch;
  ci_owner_instance_id : option SessionOwnerInstanceId;
  ci_sequence : CommandSequence;
}.

#[export] Instance CommandIdentity_eq_dec : EqDecision CommandIdentity.
Proof. solve_decision. Defined.

Definition CommandIdentity_new (session_id : CommandSessionId) (sequence : CommandSequence) :
    CommandIdentity :=
  {| ci_session_id := session_id; ci_owner_epoch := SessionOwnerEpoch_INITIAL;
     ci_owner_instance_id := None; ci_sequence := sequence |}.

Definition new_with_owner_epoch (session_id : CommandSessionId) (owner_epoch : SessionOwnerEpoch)
    (sequence : CommandSequence) : CommandIdentity :=
  {| ci_session_id := session_id; ci_owner_epoch := owner_epoch;
     ci_owner_instance_id := None; ci_sequence := sequence |}.

Definition new_with_owner (session_id : CommandSessionId) (owner_epoch : SessionOwnerEpoch)
    (owner_instance_id : SessionOwnerInstanceId) (sequence : CommandSequence) : CommandIdentity :=
  {| ci_session_id := session_id; ci_owner_epoch := owner_epoch;
     ci_owner_instance_id := Some owner_instance_id; ci_sequence := sequence |}.

(** ** Proposals *)

Record ReplicatedCommandIdentityV1 := {
  ri_session_id : string;
  ri_owner_epoch : N;
  ri_owner_instance_id : option string;
  ri_sequence : N;
}.

Record ReplicatedBrokerProposalV1 := {
  rp_identity : option ReplicatedCommandIdentityV1;
  rp_command : ReplicatedBrokerCommandV1;
}.

Definition identity_validation_error {A} (r : result A CommandIdentityError) :
    result A ReplicatedCommandError :=
  map_err (λ e, {| rce_message := "invalid replicated command identity: " +:+ to_string e |}) r.

(** [From<&CommandIdentity> for ReplicatedCommandIdentityV1] *)
Definition identity_to_replicated (i : CommandIdentity) : ReplicatedCommandIdentityV1 :=
  {| ri_session_id := ci_session_id i; ri_owner_epoch := ci_owner_epoch i;
     ri_owner_instance_id := ci_owner_instance_id i; ri_sequence := ci_sequence i |}.

(** [TryFrom<ReplicatedCommandIdentityV1> for CommandIdentity] *)
Definition identity_from_replicated (i : ReplicatedCommandIdentityV1) :
    result CommandIdentity ReplicatedCommandError :=
  let^ session_id := identity_validation_error (CommandSessionId_new (ri_session_id i)) in
  let^ owner_epoch := identity_validation_error (SessionOwnerEpoch_new (ri_owner_epoch i)) in
  let^ owner := match ri_owner_instance_id i with
                | None => Ok None
                | Some o => map_ok Some (identity_validation_error (SessionOwnerInstanceId_new o))
                end in
  let^ sequence := identity_validation_error (CommandSequence_new (ri_sequence i)) in
  Ok match owner with
     | Some owner => new_with_owner session_id owner_epoch owner sequence
     | None => new_with_owner_epoch session_id owner_epoch sequence
     end.

Definition legacy (command : ReplicatedBrokerCommandV1) : ReplicatedBrokerProposalV1 :=
  {| rp_identity := None; rp_command := command |}.

Definition identified (identity : CommandIdentity) (command : ReplicatedBrokerCommandV1) :
    ReplicatedBrokerProposalV1 :=
  {| rp_identity := Some (identity_to_replicated identity); rp_command := command |}.

Definition into_parts (p : ReplicatedBrokerProposalV1) :
    result (option CommandIdentity * ReplicatedBrokerCommandV1) ReplicatedCommandError :=
  let^ identity := match rp_identity p with
                   | None => Ok None
                   | Some i => map_ok Some (identity_from_replicated i)
                   end in
  Ok (identity, rp_command p).

(** [TryFrom<BrokerCommand> for ReplicatedBrokerProposalV1] *)
Definition proposal_of_command (command : BrokerCommand) :
    result ReplicatedBrokerProposalV1 ReplicatedCommandError :=
  let^ c := command_to_replicated command in Ok (legacy c).

(** * Command sessions ([agent-broker-consensus/src/raft_state_machine.rs])

    The part of the replicated state machine that applies proposals: the broker
    and the table of client sessions.  A session remembers the owner it obeys and
    the outcome of its last command, so a command that is proposed again is
    answered from memory instead of being applied again. *)

Definition MAX_COMMAND_SESSIONS : N := 4096.

Record CommandSessionOutcome := {
  co_sequence : CommandSequence;
  co_command : ReplicatedBrokerCommandV1;
  co_response : ReplicatedBrokerResponseV1;
}.

Record CommandSessionRecord := {
  cs_owner_epoch : SessionOwnerEpoch;
  cs_owner_instance_id : option SessionOwnerInstanceId;
  cs_last_outcome : option CommandSessionOutcome;
}.

Abbreviation Sessions := (gmap CommandSessionId CommandSessionRecord) (only parsing).

(** The fields [broker] and [command_sessions] of [AgentBrokerRaftStateMachine]. *)
Record SessionMachine := MkSessions {
  sm_broker : BrokerStateMachine;
  sm_sessions : Sessions;
}.

(** [io::Error] of kind [InvalidData], by its message. *)
Definition invalid_state_machine_data {A E} (text : E → string) (r : result A E) : result A string :=
  map_err text r.

Definition replicated_application_error (code : BrokerErrorCode) (message : string) :
    result ReplicatedBrokerResponseV1 string :=
  invalid_state_machine_data rre_message
    (from_pre_application_rejection (with_disposition DispRejected (BrokerError_new code message))).

Definition apply_replicated_command (command : ReplicatedBrokerCommandV1) (m : SessionMachine) :
    result ReplicatedBrokerResponseV1 string * SessionMachine :=
  let? command := invalid_state_machine_data rce_message (command_from_replicated command) else m in
  let '(applied, broker) := apply command (sm_broker m) in
  let application_result := map_err from_state_machine_error (map_ok am_result applied) in
  (invalid_state_machine_data rre_message (from_application_result application_result),
   MkSessions broker (sm_sessions m)).

(** The checks of [apply_identified] against the session table: [Some] when the
    proposal is answered without being applied. *)
Definition check_identity (identity : CommandIdentity) (command : ReplicatedBrokerCommandV1)
    (sessions : Sessions) : option (result ReplicatedBrokerResponseV1 string) :=
  let session := ci_session_id identity in
  let epoch := ci_owner_epoch identity in
  let sequence := ci_sequence identity in
  let reject code message := Some (replicated_application_error code message) in
  match sessions !! session with
  | Some record =>
      if negb (epoch =? cs_owner_epoch record) then
        reject StaleFence ("command session " +:+ session +:+ " owner epoch " +:+ pretty epoch +:+
          " does not match broker-authoritative epoch " +:+ pretty (cs_owner_epoch record))
      else if negb (bool_decide (ci_owner_instance_id identity = cs_owner_instance_id record)) then
        reject StaleFence ("command session " +:+ session +:+
          " owner instance does not match broker-authoritative owner instance")
      else
      match cs_last_outcome record with
      | Some last =>
          if sequence <? co_sequence last then
            reject StaleFence ("command_sequence " +:+ pretty sequence +:+
              " is older than committed sequence " +:+ pretty (co_sequence last) +:+
              " for session " +:+ session)
          else if sequence =? co_sequence last then
            if same_identified_request command (co_command last) then Some (Ok (co_response last))
            else reject Conflict ("command_sequence " +:+ pretty sequence +:+ " for session " +:+
                   session +:+ " is already committed with different command content")
          else None
      | None =>
          if negb (sequence =? 1) then
            reject StaleFence ("new owner epoch " +:+ pretty epoch +:+ " for session " +:+ session +:+
              " must restart command_sequence at 1, got " +:+ pretty sequence)
          else None
      end
  | None =>
      if negb (epoch =? SessionOwnerEpoch_INITIAL) then
        reject StaleFence ("new command session " +:+ session +:+
          " must begin at broker-authoritative owner epoch 1, got " +:+ pretty epoch)
      else if bool_decide (is_Some (ci_owner_instance_id identity)) then
        reject StaleFence ("new command session " +:+ session +:+
          " cannot self-authorize an owner instance before broker acquisition")
      else if MAX_COMMAND_SESSIONS <=? msize sessions then
        reject CodeCapacityExceeded "command session capacity reached: max 4096 active sessions"
      else None
  end.

Definition apply_identified (identity : CommandIdentity) (command : ReplicatedBrokerCommandV1)
    (m : SessionMachine) : result ReplicatedBrokerResponseV1 string * SessionMachine :=
  match check_identity identity command (sm_sessions m) with
  | Some answer => (answer, m)
  | None =>
      let! response, m := apply_replicated_command command m in
      (Ok response, MkSessions (sm_broker m)
        (<[ci_session_id identity := {|
             cs_owner_epoch := ci_owner_epoch identity;
             cs_owner_instance_id := ci_owner_instance_id identity;
             cs_last_outcome := Some {| co_sequence := ci_sequence identity;
               co_command := command; co_response := response |} |}]> (sm_sessions m)))
  end.

Definition acquire_command_session_owner (session_id : string) (expected_owner_epoch : N)
    (owner_instance_id : string) (m : SessionMachine) :
    result ReplicatedBrokerResponseV1 string * SessionMachine :=
  let? session_id := invalid_state_machine_data to_string (CommandSessionId_new session_id)
    else m in
  let? expected := invalid_state_machine_data to_string (SessionOwnerEpoch_new expected_owner_epoch)
    else m in
  let? owner := invalid_state_machine_data to_string (SessionOwnerInstanceId_new owner_instance_id)
    else m in
  let session_capacity_reached := MAX_COMMAND_SESSIONS <=? msize (sm_sessions m) in
  let store record := MkSessions (sm_broker m) (<[session_id := record]> (sm_sessions m)) in
  match sm_sessions m !! session_id with
  | None =>
      if negb (expected =? SessionOwnerEpoch_INITIAL) then
        (replicated_application_error StaleFence ("new command session " +:+ session_id +:+
           " must begin at broker-authoritative owner epoch 1, got " +:+ pretty expected), m)
      else if session_capacity_reached then
        (replicated_application_error CodeCapacityExceeded
           "command session capacity reached: max 4096 active sessions", m)
      else
        (Ok (SessionOwnerAcquired SessionOwnerEpoch_INITIAL),
         store {| cs_owner_epoch := SessionOwnerEpoch_INITIAL;
                  cs_owner_instance_id := Some owner; cs_last_outcome := None |})
  | Some record =>
      let current_epoch := cs_owner_epoch record in
      let retry_epoch := checked_add expected 1 in
      if bool_decide (cs_owner_instance_id record = Some owner) &&
         ((current_epoch =? expected) || bool_decide (retry_epoch = Some current_epoch))
      then (Ok (SessionOwnerAcquired current_epoch), m)
      else if negb (cs_owner_epoch record =? expected) then
        (replicated_application_error StaleFence ("command session " +:+ session_id +:+
           " expected owner epoch " +:+ pretty expected +:+
           " but broker-authoritative epoch is " +:+ pretty (cs_owner_epoch record)), m)
      else
      match checked_add (cs_owner_epoch record) 1 with
      | None =>
          (replicated_application_error CodeCapacityExceeded ("command session " +:+ session_id +:+
             " owner epoch is exhausted"), m)
      | Some next_owner_epoch =>
          let? next := invalid_state_machine_data to_string (SessionOwnerEpoch_new next_owner_epoch)
            else m in
          (Ok (SessionOwnerAcquired next),
           store {| cs_owner_epoch := next; cs_owner_instance_id := Some owner;
                    cs_last_outcome := None |})
      end
  end.

Definition apply_proposal (proposal : ReplicatedBrokerProposalV1) (m : SessionMachine) :
    result ReplicatedBrokerResponseV1 string * SessionMachine :=
  let? (caller, command) := invalid_state_machine_data rce_message (into_parts proposal) else m in
  match command with
  | V1AcquireCommandSessionOwner session_id expected_owner_epoch owner_instance_id =>
      match caller with
      | Some _ => (Err "command-session owner acquisition must not carry identified mutation identity", m)
      | None => acquire_command_session_owner session_id expected_owner_epoch owner_instance_id m
      end
  | command =>
      match caller with
      | Some caller => apply_identified caller command m
      | None => apply_replicated_command command m
      end
  end.
