(* ===== verification/SessionsProps.v ===== *)
(** * Sessions apply a command at most once

    What every proposal keeps true of the session table, what a proposal leaves
    behind, and that a valid proposal is always answered. *)

From S2P Require Import Prelude Values Task Group Messages Machine Spec Invariant Effect Broker.
From S2P Require Import Valid Display Replicated ReplicatedProps Sessions.

(** ** A log of proposals *)

Fixpoint apply_proposals (ps : list ReplicatedBrokerProposalV1) (m : SessionMachine) :
    list (result ReplicatedBrokerResponseV1 string) * SessionMachine :=
  match ps with
  | [] => ([], m)
  | p :: ps =>
      let '(r, m) := apply_proposal p m in
      let '(rs, m) := apply_proposals ps m in (r :: rs, m)
  end.

(** ** The session table only moves forward *)

(** The identity lies behind the session: its owner was superseded, or a command
    with its sequence number or a later one was applied.  When the last command
    has exactly this number it is [c], answered with [r]. *)
Definition spent (i : CommandIdentity) (c : ReplicatedBrokerCommandV1)
    (r : ReplicatedBrokerResponseV1) (sessions : gmap CommandSessionId CommandSessionRecord) : Prop :=
  ∃ record, sessions !! ci_session_id i = Some record ∧
    (ci_owner_epoch i < cs_owner_epoch record ∨
     (ci_owner_epoch i = cs_owner_epoch record ∧ ∃ last, cs_last_outcome record = Some last ∧
        (ci_sequence i < co_sequence last ∨
         (ci_sequence i = co_sequence last ∧ c = co_command last ∧ r = co_response last)))).

Definition is_rejection (r : result ReplicatedBrokerResponseV1 string) : Prop :=
  ∃ e, r = Ok (ApplicationError e) ∧ re_disposition e = V1Rejected.

Lemma rejection code message : is_rejection (replicated_application_error code message).
Proof. by eexists. Qed.

Lemma check_identity_spent i c r sessions c' :
  spent i c r sessions →
  ∃ answer, check_identity i c' sessions = Some answer ∧
    (is_rejection answer ∨ (answer = Ok r ∧ same_identified_request c' c = true)).
Proof.
  intros (record & Hr & Hs). unfold check_identity. rewrite Hr.
  destruct (N.eqb_spec (ci_owner_epoch i) (cs_owner_epoch record)) as [He|He]; simpl;
    [|eauto using rejection].
  case_bool_decide; simpl; [|eauto using rejection].
  destruct Hs as [Hs|(_ & last & -> & [Hq|(Hq & -> & ->)])]; [lia|..].
  - rewrite (proj2 (N.ltb_lt _ _) Hq). eauto using rejection.
  - rewrite (proj2 (N.ltb_ge _ _)), (proj2 (N.eqb_eq _ _)) by lia.
    destruct (same_identified_request c' (co_command last)) eqn:E; eauto using rejection.
Qed.

(** A proposal that passes the checks comes from the current owner of its
    session and is newer than everything applied for it. *)
Lemma check_identity_none i c sessions record :
  check_identity i c sessions = None → sessions !! ci_session_id i = Some record →
  ci_owner_epoch i = cs_owner_epoch record ∧
  ∀ last, cs_last_outcome record = Some last → co_sequence last < ci_sequence i.
Proof.
  unfold check_identity. intros H Hr. rewrite Hr in H.
  destruct (N.eqb_spec (ci_owner_epoch i) (cs_owner_epoch record)); [|done]. split; [done|].
  intros last Hl. rewrite Hl in H. simpl in H. case_bool_decide; [|done]. simpl in H.
  destruct (N.ltb_spec (ci_sequence i) (co_sequence last)); [done|].
  destruct (N.eqb_spec (ci_sequence i) (co_sequence last)); [by case_match|]. lia.
Qed.

Lemma apply_replicated_sessions c m : sm_sessions (apply_replicated_command c m).2 = sm_sessions m.
Proof. unfold apply_replicated_command. case_match; [|done]. by destruct (apply _ _). Qed.

(** What one proposal does to the table: nothing, one applied command, or one
    change of owner. *)
Definition table_step (sessions sessions' : gmap CommandSessionId CommandSessionRecord) : Prop :=
  sessions' = sessions ∨
  (∃ i c r, check_identity i c sessions = None ∧
     sessions' = <[ci_session_id i := {| cs_owner_epoch := ci_owner_epoch i;
        cs_owner_instance_id := ci_owner_instance_id i;
        cs_last_outcome := Some {| co_sequence := ci_sequence i; co_command := c;
                                   co_response := r |} |}]> sessions) ∨
  (∃ s epoch owner,
     (∀ record, sessions !! s = Some record → cs_owner_epoch record < epoch) ∧
     sessions' = <[s := {| cs_owner_epoch := epoch; cs_owner_instance_id := Some owner;
                           cs_last_outcome := None |}]> sessions).

Lemma apply_identified_step i c m :
  table_step (sm_sessions m) (sm_sessions (apply_identified i c m).2).
Proof.
  unfold apply_identified. destruct (check_identity _ _ _) eqn:Hc; [by left|].
  pose proof (apply_replicated_sessions c m) as Hs.
  destruct (apply_replicated_command c m) as [[r|e] m']; simpl in *; rewrite Hs; [|by left].
  right; left. by exists i, c, r.
Qed.

Lemma acquire_step s e o m :
  table_step (sm_sessions m) (sm_sessions (acquire_command_session_owner s e o m).2).
Proof.
  unfold acquire_command_session_owner.
  destruct (CommandSessionId_new s) as [s'|]; [|by left]. cbn [invalid_state_machine_data map_err].
  destruct (SessionOwnerEpoch_new e) as [e'|]; [|by left]. cbn [invalid_state_machine_data map_err].
  destruct (SessionOwnerInstanceId_new o) as [o'|]; [|by left].
  cbn [invalid_state_machine_data map_err].
  destruct (sm_sessions m !! s') as [record|] eqn:Hs.
  - case_match; [by left|]. case_match; [by left|].
    destruct (checked_add (cs_owner_epoch record) 1) as [next|] eqn:Hn; [|by left].
    unfold checked_add in Hn. case_match; simplify_eq.
    destruct (SessionOwnerEpoch_new _) as [next|] eqn:Hnew; [|by left]. simpl.
    right; right. exists s', next, o'. split; [|done]. intros ? Hr. rewrite Hs in Hr. simplify_eq.
    unfold SessionOwnerEpoch_new in Hnew. case_match; simplify_eq. lia.
  - case_match; [by left|]. case_match; [by left|]. right; right.
    exists s', SessionOwnerEpoch_INITIAL, o'. split; [naive_solver|done].
Qed.

Lemma apply_proposal_step p m :
  table_step (sm_sessions m) (sm_sessions (apply_proposal p m).2).
Proof.
  unfold apply_proposal. destruct (into_parts p) as [[i c]|]; [|by left].
  cbn [invalid_state_machine_data map_err].
  destruct c, i; try apply apply_identified_step; try apply acquire_step;
    try (left; apply apply_replicated_sessions); by left.
Qed.

Lemma table_step_spent i c r sessions sessions' :
  table_step sessions sessions' → spent i c r sessions → spent i c r sessions'.
Proof.
  intros [->|[(i' & c' & r' & Hc & ->)|(s & epoch & owner & He & ->)]]
    (record & Hr & Hs); [by exists record|..].
  - destruct (decide (ci_session_id i' = ci_session_id i)) as [Heq|Hne].
    + rewrite <-Heq in Hr. destruct (check_identity_none _ _ _ _ Hc Hr) as [Hep Hsq].
      eexists. rewrite Heq, lookup_insert_eq. split; [done|]. simpl. rewrite Hep.
      destruct Hs as [Hs|(Hs & last & Hl & Hq)]; [by left|]. right. split; [done|].
      eexists. split; [done|]. left. specialize (Hsq last Hl). simpl. lia.
    + exists record. by rewrite lookup_insert_ne.
  - destruct (decide (s = ci_session_id i)) as [->|Hne].
    + eexists. rewrite lookup_insert_eq. split; [done|]. simpl. specialize (He record Hr).
      left. destruct Hs as [Hs|(Hs & _)]; lia.
    + exists record. by rewrite lookup_insert_ne.
Qed.

Lemma apply_proposals_spent ps i c r m :
  spent i c r (sm_sessions m) → spent i c r (sm_sessions (apply_proposals ps m).2).
Proof.
  revert m. induction ps as [|p ps IH]; intros m Hs; [done|]. simpl.
  pose proof (apply_proposal_step p m) as Hst. destruct (apply_proposal p m) as [r' m'].
  specialize (IH m' (table_step_spent _ _ _ _ _ Hst Hs)).
  by destruct (apply_proposals ps m').
Qed.

(** What the checks answer is a rejection or the remembered outcome. *)
Lemma check_identity_some i c sessions answer :
  check_identity i c sessions = Some answer →
  is_rejection answer ∨
  ∃ c' r, answer = Ok r ∧ same_identified_request c c' = true ∧ spent i c' r sessions.
Proof.
  unfold check_identity. destruct (sessions !! ci_session_id i) as [record|] eqn:Hr;
    [|repeat case_match; intros; simplify_eq; eauto using rejection].
  destruct (N.eqb_spec (ci_owner_epoch i) (cs_owner_epoch record)) as [He|He]; simpl;
    [|intros [= <-]; eauto using rejection].
  case_bool_decide; simpl; [|intros [= <-]; eauto using rejection].
  destruct (cs_last_outcome record) as [last|] eqn:Hl;
    [|case_match; intros; simplify_eq; eauto using rejection].
  case_match; [intros [= <-]; eauto using rejection|].
  destruct (N.eqb_spec (ci_sequence i) (co_sequence last)) as [Hq|Hq]; [|done].
  case_match eqn:Hsame; intros [= <-]; [|eauto using rejection].
  right. exists (co_command last), (co_response last). split_and!; [done..|].
  exists record. split; [done|]. right. split; [done|]. exists last. eauto.
Qed.

Lemma same_identified_request_refl c : same_identified_request c c = true.
Proof. by apply same_identified_request_spec. Qed.

(** A command that is answered without a rejection is the last one its session
    remembers. *)
Lemma apply_identified_spent i c m r m' :
  apply_identified i c m = (Ok r, m') → ¬ is_rejection (Ok r) →
  ∃ c', same_identified_request c c' = true ∧ spent i c' r (sm_sessions m').
Proof.
  unfold apply_identified. destruct (check_identity i c (sm_sessions m)) as [answer|] eqn:Hc.
  - intros [= -> <-] Hrej. apply check_identity_some in Hc as [?|(c' & r' & [= <-] & Hc')]; [done|].
    eauto.
  - destruct (apply_replicated_command c m) as [[r'|e] m1]; [|done]. intros [= -> <-] _.
    exists c. split; [apply same_identified_request_refl|]. eexists. simpl.
    rewrite lookup_insert_eq. split; [done|]. right. split; [done|]. eexists. split; [done|].
    right. done.
Qed.

(** ** The invariant of the replicated state *)

Definition valid_session (s : string) : Prop :=
  validate_session_text s MAX_COMMAND_SESSION_ID_BYTES = Ok tt.

Definition readable (r : ReplicatedBrokerResponseV1) : Prop :=
  is_ok (into_application_result r) = true ∧ normalize_stored_session_outcome r = r.

Definition valid_owner (o : option SessionOwnerInstanceId) : Prop :=
  match o with None => True | Some o => valid_session o end.

(** The remembered outcome is of a command that the log can carry, with an
    answer that can be read back. *)
Definition valid_last_outcome (o : CommandSessionOutcome) : Prop :=
  0 < co_sequence o ∧ is_ok (command_from_replicated (co_command o)) = true ∧
  readable (co_response o).

Definition valid_record (r : CommandSessionRecord) : Prop :=
  0 < cs_owner_epoch r ∧ valid_owner (cs_owner_instance_id r) ∧
  match cs_last_outcome r with None => True | Some o => valid_last_outcome o end.

Record SessionInv (m : SessionMachine) : Prop := {
  xi_broker : Inv (sm_broker m);
  xi_valid : valid_state (m_state (sm_broker m));
  xi_records : map_Forall (λ s r, valid_session s ∧ valid_record r) (sm_sessions m);
  xi_bound : msize (sm_sessions m) ≤ MAX_COMMAND_SESSIONS;
}.

(** A proposal as the source builds them: a valid identity; an owner acquisition
    with valid fields and no identity, or a command of the domain. *)
Definition valid_identity (i : ReplicatedCommandIdentityV1) : Prop :=
  valid_session (ri_session_id i) ∧ 0 < ri_owner_epoch i ∧ valid_owner (ri_owner_instance_id i) ∧
  0 < ri_sequence i.

Definition valid_proposal (p : ReplicatedBrokerProposalV1) (m : SessionMachine) : Prop :=
  match rp_identity p with None => True | Some i => valid_identity i end ∧
  match rp_command p with
  | V1AcquireCommandSessionOwner s e o =>
      rp_identity p = None ∧ valid_session s ∧ 0 < e ∧ valid_session o
  | c => match command_from_replicated c with
         | Ok cmd => admissible cmd (sm_broker m)
         | Err _ => False
         end
  end.

Lemma session_id_ok s : valid_session s → CommandSessionId_new s = Ok s.
Proof. unfold CommandSessionId_new. by intros ->. Qed.

Lemma owner_instance_ok s : valid_session s → SessionOwnerInstanceId_new s = Ok s.
Proof.
  unfold SessionOwnerInstanceId_new. change MAX_OWNER_INSTANCE_ID_BYTES with MAX_COMMAND_SESSION_ID_BYTES.
  by intros ->.
Qed.

Lemma owner_epoch_ok n : 0 < n → SessionOwnerEpoch_new n = Ok n.
Proof. intros. unfold SessionOwnerEpoch_new. by rewrite (proj2 (N.eqb_neq _ _)) by lia. Qed.

Lemma sequence_ok n : 0 < n → CommandSequence_new n = Ok n.
Proof. intros. unfold CommandSequence_new. by rewrite (proj2 (N.eqb_neq _ _)) by lia. Qed.

(** The identity of a proposal, as a function. *)
Definition identity_of (i : ReplicatedCommandIdentityV1) : CommandIdentity :=
  {| ci_session_id := ri_session_id i; ci_owner_epoch := ri_owner_epoch i;
     ci_owner_instance_id := ri_owner_instance_id i; ci_sequence := ri_sequence i |}.

Lemma identity_from_ok i : valid_identity i → identity_from_replicated i = Ok (identity_of i).
Proof.
  intros (Hs & He & Ho & Hq). unfold identity_from_replicated.
  rewrite session_id_ok, owner_epoch_ok, sequence_ok by done. simpl.
  destruct i as [s e [o|] q]; simpl in *; [|done]. by rewrite owner_instance_ok.
Qed.

(** The validating constructors return their argument. *)
Lemma session_id_inv s s' : CommandSessionId_new s = Ok s' → s' = s.
Proof. unfold CommandSessionId_new. by destruct (validate_session_text _ _); intros [= ->]. Qed.

Lemma owner_instance_inv s s' : SessionOwnerInstanceId_new s = Ok s' → s' = s.
Proof. unfold SessionOwnerInstanceId_new. by destruct (validate_session_text _ _); intros [= ->]. Qed.

Lemma owner_epoch_inv n n' : SessionOwnerEpoch_new n = Ok n' → n' = n.
Proof. unfold SessionOwnerEpoch_new. case_match; by intros [= ->]. Qed.

Lemma sequence_inv n n' : CommandSequence_new n = Ok n' → n' = n.
Proof. unfold CommandSequence_new. case_match; by intros [= ->]. Qed.

Lemma identity_from_inv i ci : identity_from_replicated i = Ok ci → ci = identity_of i.
Proof.
  unfold identity_from_replicated, identity_of. destruct (CommandSessionId_new _) as [s|] eqn:Hs; [|done].
  apply session_id_inv in Hs as ->. cbn [identity_validation_error map_err].
  destruct (SessionOwnerEpoch_new _) as [e|] eqn:He; [|done]. apply owner_epoch_inv in He as ->.
  cbn [identity_validation_error map_err].
  destruct (CommandSequence_new _) as [q|] eqn:Hq.
  2: { destruct (ri_owner_instance_id i) as [o|]; [|done]. by destruct (SessionOwnerInstanceId_new o). }
  apply sequence_inv in Hq as ->. cbn [identity_validation_error map_err].
  destruct (ri_owner_instance_id i) as [o|]; [|by intros [= <-]].
  destruct (SessionOwnerInstanceId_new o) as [o'|] eqn:Ho; [|done]. apply owner_instance_inv in Ho as ->.
  by intros [= <-].
Qed.

Lemma into_parts_ok p :
  match rp_identity p with None => True | Some i => valid_identity i end →
  into_parts p = Ok (identity_of <$> rp_identity p, rp_command p).
Proof.
  unfold into_parts. destruct (rp_identity p); [|done]. intros Hi. by rewrite identity_from_ok.
Qed.

(** A command of the domain is applied, and its answer can be stored. *)
Lemma apply_replicated_total c cmd m :
  SessionInv m → command_from_replicated c = Ok cmd → admissible cmd (sm_broker m) →
  ∃ r, apply_replicated_command c m = (Ok r, MkSessions (apply cmd (sm_broker m)).2 (sm_sessions m)) ∧
    readable r ∧ ¬ is_rejection (Ok r) ∧
    SessionInv (MkSessions (apply cmd (sm_broker m)).2 (sm_sessions m)).
Proof.
  intros [Hb Hv Hr Hn] Hc Ha. pose proof (command_from_log_valid _ _ Hc) as Hcmd.
  destruct (apply_refines cmd _ Hb Ha) as (Hi & Hres & Hst).
  pose proof (spec_handle_valid cmd _ Hcmd Hv) as Hv'.
  pose proof (spec_handle_answer cmd (m_state (sm_broker m)) Hcmd Hv') as Hans.
  rewrite <-Hst in Hv', Hans. specialize (Hans (si_term _ (inv_state _ Hi))). rewrite <-Hres in Hans.
  unfold apply_replicated_command. rewrite Hc. cbn [invalid_state_machine_data map_err].
  destruct (apply cmd (sm_broker m)) as [[am|e] b'] eqn:Happ; cbn [map_ok map_err fst snd] in *.
  - destruct (replicated_result_reads_back _ Hans) as (v & Hto & Hfrom).
    unfold from_application_result. cbn [id] in Hto. rewrite Hto. eexists. split; [done|].
    split_and!; [|by intros (? & [=] & _)|by constructor].
    split; [|done]. unfold into_application_result. by rewrite Hfrom.
  - eexists. split; [done|]. split_and!; [done|by intros (? & [= <-] & [=])|by constructor].
Qed.

Lemma insert_bound {V} (m : gmap string V) k v n :
  msize m ≤ n → (m !! k = None → msize m < n) → msize (<[k := v]> m) ≤ n.
Proof.
  intros Hn Hk. unfold msize in *. destruct (m !! k) eqn:E.
  - by rewrite map_size_insert_Some by (by eexists).
  - rewrite map_size_insert_None by done. specialize (Hk eq_refl). lia.
Qed.

Lemma check_identity_room i c sessions :
  check_identity i c sessions = None → sessions !! ci_session_id i = None →
  msize sessions < MAX_COMMAND_SESSIONS.
Proof.
  unfold check_identity. intros H Hn. rewrite Hn in H. do 2 (case_match; [done|]).
  destruct (N.leb_spec MAX_COMMAND_SESSIONS (msize sessions)); done.
Qed.

Lemma apply_identified_total i c cmd m :
  SessionInv m → valid_identity i → command_from_replicated c = Ok cmd →
  admissible cmd (sm_broker m) →
  ∃ r m', apply_identified (identity_of i) c m = (Ok r, m') ∧ SessionInv m'.
Proof.
  intros Hinv (Hs & He & Ho & Hq) Hc Ha. unfold apply_identified.
  destruct (check_identity _ _ _) as [answer|] eqn:Hck.
  - apply check_identity_some in Hck as [(e & -> & _)|(? & r & -> & _)]; eauto.
  - destruct (apply_replicated_total c cmd m Hinv Hc Ha) as (r & -> & Hr & _ & [Hb Hv Hrec Hn]).
    eexists _, _. split; [done|]. constructor; simpl; [done..| |].
    + apply map_Forall_insert_2; [|done]. split; [done|]. split_and!; [done..|].
      refine (conj Hq (conj _ Hr)). cbn [co_command]. by rewrite Hc.
    + apply insert_bound; [done|]. intros Hnone. by eapply check_identity_room.
Qed.

Lemma acquire_total s e o m :
  SessionInv m → valid_session s → 0 < e → valid_session o →
  ∃ r m', acquire_command_session_owner s e o m = (Ok r, m') ∧ SessionInv m'.
Proof.
  intros [Hb Hv Hrec Hn] Hs He Ho. unfold acquire_command_session_owner.
  rewrite session_id_ok, owner_epoch_ok, owner_instance_ok by done.
  cbn [invalid_state_machine_data map_err].
  assert (∀ epoch, 0 < epoch → (sm_sessions m !! s = None → msize (sm_sessions m) < MAX_COMMAND_SESSIONS) →
    SessionInv (MkSessions (sm_broker m) (<[s := {| cs_owner_epoch := epoch;
      cs_owner_instance_id := Some o; cs_last_outcome := None |}]> (sm_sessions m)))) as Hst.
  { intros epoch Hep Hroom. constructor; simpl; [done..| |by apply insert_bound].
    apply map_Forall_insert_2; [|done]. by split_and!. }
  destruct (sm_sessions m !! s) as [record|] eqn:Hlk.
  - case_match; [by eauto using SessionInv|]. case_match; [by eauto using SessionInv|].
    destruct (checked_add (cs_owner_epoch record) 1) as [next|] eqn:Hnext;
      [|by eauto using SessionInv].
    assert (0 < next) by (unfold checked_add in Hnext; case_match; simplify_eq; lia).
    rewrite owner_epoch_ok by done. simpl. eexists _, _. split; [done|]. by apply Hst.
  - case_match; [by eauto using SessionInv|].
    destruct (N.leb_spec MAX_COMMAND_SESSIONS (msize (sm_sessions m)));
      [by eauto using SessionInv|]. eexists _, _. split; [done|]. by apply Hst.
Qed.

Lemma apply_proposal_total p m :
  SessionInv m → valid_proposal p m →
  ∃ r m', apply_proposal p m = (Ok r, m') ∧ SessionInv m'.
Proof.
  intros Hinv [Hi Hc]. unfold apply_proposal. rewrite into_parts_ok by done.
  cbn [invalid_state_machine_data map_err].
  destruct (rp_command p) eqn:Hcmd;
    try (destruct (command_from_replicated _) as [cmd|] eqn:Hfrom in Hc; [|done];
         destruct (rp_identity p) as [i|];
         [by eapply apply_identified_total|];
         destruct (apply_replicated_total _ cmd m Hinv Hfrom Hc) as (r & Happ & _ & _ & Hinv');
         cbn [fmap option_fmap option_map]; rewrite Happ; eauto).
  destruct Hc as (Hnone & Hs & He & Ho). rewrite Hnone. by apply acquire_total.
Qed.
