(* ===== verification/ApplyOnce.v ===== *)
(** * A log applies an identified command at most once

    The applications of an identity in a log are listed by an executable
    function; the list has at most one element, and an answer that is not a
    rejection is the response of that one application. *)

From S2P Require Import Prelude Values Task Group Messages Machine Display Replicated.
From S2P Require Import ReplicatedProps Sessions SessionsProps.

Definition is_acquisition (c : ReplicatedBrokerCommandV1) : bool :=
  match c with V1AcquireCommandSessionOwner _ _ _ => true | _ => false end.

(** The application of the identity by this proposal, if it is one: the command
    passes the checks of the session table and is answered. *)
Definition applied_now (i : CommandIdentity) (p : ReplicatedBrokerProposalV1) (m : SessionMachine) :
    option (ReplicatedBrokerCommandV1 * ReplicatedBrokerResponseV1) :=
  match into_parts p with
  | Ok (Some i', c) =>
      if is_acquisition c || negb (bool_decide (i' = i)) then None else
      match check_identity i' c (sm_sessions m), (apply_replicated_command c m).1 with
      | None, Ok r => Some (c, r)
      | _, _ => None
      end
  | _ => None
  end.

Fixpoint applications (i : CommandIdentity) (ps : list ReplicatedBrokerProposalV1)
    (m : SessionMachine) : list (ReplicatedBrokerCommandV1 * ReplicatedBrokerResponseV1) :=
  match ps with
  | [] => []
  | p :: ps =>
      let later := applications i ps (apply_proposal p m).2 in
      match applied_now i p m with Some a => a :: later | None => later end
  end.

Definition after (ps : list ReplicatedBrokerProposalV1) (m : SessionMachine) : SessionMachine :=
  (apply_proposals ps m).2.

Lemma after_cons p ps m : after (p :: ps) m = after ps (apply_proposal p m).2.
Proof.
  unfold after. cbn [apply_proposals]. destruct (apply_proposal p m) as [r m']. cbn [snd].
  by destruct (apply_proposals ps m').
Qed.

Lemma after_app ps qs m : after (ps ++ qs) m = after qs (after ps m).
Proof.
  revert m. induction ps as [|p ps IH]; intros m; [done|]. cbn [app]. by rewrite !after_cons, IH.
Qed.

Lemma applications_app i ps qs m :
  applications i (ps ++ qs) m = (applications i ps m ++ applications i qs (after ps m))%list.
Proof.
  revert m. induction ps as [|p ps IH]; intros m; [done|]. cbn [app applications].
  rewrite after_cons, IH. by case_match.
Qed.

(** ** At most once *)

Lemma apply_identified_proposal p i c m :
  into_parts p = Ok (Some i, c) → is_acquisition c = false →
  apply_proposal p m = apply_identified i c m.
Proof. unfold apply_proposal. intros ->. cbn [invalid_state_machine_data map_err]. by destruct c. Qed.

(** The session remembers the identity's command with this response. *)
Definition remembers (i : CommandIdentity) (c : ReplicatedBrokerCommandV1)
    (r : ReplicatedBrokerResponseV1) (sessions : gmap CommandSessionId CommandSessionRecord) : Prop :=
  sessions !! ci_session_id i = Some {| cs_owner_epoch := ci_owner_epoch i;
    cs_owner_instance_id := ci_owner_instance_id i;
    cs_last_outcome := Some {| co_sequence := ci_sequence i; co_command := c; co_response := r |} |}.

Lemma remembers_spent i c r sessions : remembers i c r sessions → spent i c r sessions.
Proof. intros H. eexists. split; [done|]. right. split; [done|]. eexists. split; [done|]. by right. Qed.

Lemma applied_now_inv i p m c r :
  applied_now i p m = Some (c, r) →
  into_parts p = Ok (Some i, c) ∧ is_acquisition c = false ∧
  check_identity i c (sm_sessions m) = None ∧ (apply_replicated_command c m).1 = Ok r.
Proof.
  unfold applied_now. destruct (into_parts p) as [[[i'|] c']|] eqn:Hp; try done.
  destruct (is_acquisition c') eqn:Ha; [done|]. case_bool_decide as Hi; [|done]. subst i'.
  cbn [orb negb]. destruct (check_identity i c' _) eqn:Hc; [done|].
  destruct (apply_replicated_command c' m).1 eqn:Hr; [|done]. by intros [= <- <-].
Qed.

Lemma applied_is_remembered i p m c r :
  applied_now i p m = Some (c, r) → remembers i c r (sm_sessions (apply_proposal p m).2).
Proof.
  intros (Hp & Ha & Hc & Hr)%applied_now_inv. rewrite (apply_identified_proposal p i c) by done.
  unfold apply_identified. rewrite Hc. destruct (apply_replicated_command c m) as [[r'|] m'];
    simplify_eq/=. unfold remembers. cbn. by rewrite lookup_insert_eq.
Qed.

Lemma spent_not_applied i p m c r : spent i c r (sm_sessions m) → applied_now i p m = None.
Proof.
  intros Hs. destruct (applied_now i p m) as [[c' r']|] eqn:Ha; [|done].
  apply applied_now_inv in Ha as (_ & _ & Hc & _).
  destruct (check_identity_spent i c r _ c' Hs) as (a & Hc' & _). congruence.
Qed.

Lemma applications_after_spent i ps m c r :
  spent i c r (sm_sessions m) → applications i ps m = [].
Proof.
  revert m. induction ps as [|p ps IH]; intros m Hs; [done|]. cbn [applications].
  rewrite (spent_not_applied i p m c r Hs). apply IH.
  by eapply table_step_spent, Hs; apply apply_proposal_step.
Qed.

Lemma applications_at_most_once i ps m :
  applications i ps m = [] ∨ ∃ c r, applications i ps m = [(c, r)].
Proof.
  revert m. induction ps as [|p ps IH]; intros m; [by left|]. cbn [applications].
  destruct (applied_now i p m) as [[c r]|] eqn:Ha; [|apply IH]. right. exists c, r.
  rewrite (applications_after_spent i ps _ c r); [done|].
  by apply remembers_spent, applied_is_remembered.
Qed.

(** ** What a session remembers was applied *)

Lemma acquisition_forgets s e o m :
  let sessions := sm_sessions (acquire_command_session_owner s e o m).2 in
  sessions = sm_sessions m ∨
  ∃ s record, cs_last_outcome record = None ∧ sessions = <[s := record]> (sm_sessions m).
Proof.
  cbn zeta. unfold acquire_command_session_owner, invalid_state_machine_data, map_err.
  repeat case_match; simplify_eq/=;
    first [by left|right; eexists _, _; split; [|reflexivity]; done].
Qed.

Lemma remembered_step i c r p m :
  remembers i c r (sm_sessions (apply_proposal p m).2) →
  remembers i c r (sm_sessions m) ∨ applied_now i p m = Some (c, r).
Proof.
  unfold applied_now. destruct (into_parts p) as [[[i'|] c']|] eqn:Hp.
  - destruct (is_acquisition c') eqn:Ha.
    { unfold apply_proposal. rewrite Hp. by destruct c'; auto. }
    rewrite (apply_identified_proposal p i' c') by done. unfold apply_identified.
    destruct (check_identity i' c' _); [by left|]. pose proof (apply_replicated_sessions c' m) as Hs.
    destruct (apply_replicated_command c' m) as [[r'|] m']; cbn [fst snd sm_sessions] in *;
      rewrite Hs; [|by left].
    unfold remembers. destruct (decide (ci_session_id i' = ci_session_id i)) as [Heq|Hne];
      [|rewrite lookup_insert_ne by done; by left].
    rewrite Heq, lookup_insert_eq. intros [= He Ho Hq -> ->]. right.
    assert (i' = i) as -> by (destruct i, i'; by simplify_eq/=). by rewrite bool_decide_eq_true_2.
  - unfold apply_proposal. rewrite Hp. cbn [invalid_state_machine_data map_err].
    destruct (is_acquisition c') eqn:Ha; destruct c'; try done; left;
      try (by rewrite apply_replicated_sessions in *).
    destruct (acquisition_forgets session_id expected_owner_epoch owner_instance_id m)
      as [Hs|(s & record & Hn & Hs)]; rewrite Hs in *; [done|]. unfold remembers in *.
    destruct (decide (s = ci_session_id i)) as [->|Hne]; [|by rewrite lookup_insert_ne in *].
    rewrite lookup_insert_eq in *. by simplify_eq/=.
  - unfold apply_proposal. rewrite Hp. by left.
Qed.

Lemma remembered_was_applied i c r ps m :
  remembers i c r (sm_sessions (after ps m)) →
  remembers i c r (sm_sessions m) ∨ (c, r) ∈ applications i ps m.
Proof.
  revert m. induction ps as [|p ps IH]; intros m; [by left|]. rewrite after_cons.
  cbn [applications]. intros [Hr|Hin]%IH.
  - apply remembered_step in Hr as [?| ->]; [by left|right; left].
  - right. case_match; [by right|done].
Qed.

(** An answer from memory is what the session remembers. *)
Lemma check_identity_replays i c r sessions :
  check_identity i c sessions = Some (Ok r) → ¬ is_rejection (Ok r) →
  ∃ c', same_identified_request c c' = true ∧ remembers i c' r sessions.
Proof.
  intros Hc Hn. unfold remembers.
  apply check_identity_some in Hc as Hs. destruct Hs as [[e [[= ->] He]]|(c' & r' & [= <-] & Hsame & Hs)];
    [destruct Hn; by exists e|].
  revert Hc. unfold check_identity. destruct Hs as (record & Hr & Hs). rewrite Hr.
  destruct (N.eqb_spec (ci_owner_epoch i) (cs_owner_epoch record)) as [He|]; cbn [negb];
    [|intros [= <-]; by destruct Hn; eexists].
  case_bool_decide as Ho; cbn [negb]; [|intros [= <-]; by destruct Hn; eexists].
  destruct Hs as [Hs|(_ & last & Hl & Hs)]; [lia|]. rewrite Hl.
  destruct (N.ltb_spec (ci_sequence i) (co_sequence last)); [intros [= <-]; by destruct Hn; eexists|].
  destruct (N.eqb_spec (ci_sequence i) (co_sequence last)) as [Hq|]; [|done].
  destruct (same_identified_request c (co_command last)) eqn:Hsm;
    [|intros [= <-]; by destruct Hn; eexists].
  intros [= Hlast]. exists (co_command last). split; [done|].
  destruct record as [re ro rl], last as [lq lc lr]. by simplify_eq/=.
Qed.

(** An identity that was answered without a rejection, and had not been spent
    before, was applied once in the log: with this response, and a command that
    asks the same. *)
Lemma answered_applied_once i c r ps qs m :
  let p := identified i c in
  is_acquisition c = false → into_parts p = Ok (Some i, c) →
  (∀ c r, ¬ spent i c r (sm_sessions m)) →
  (apply_proposal p (after ps m)).1 = Ok r → ¬ is_rejection (Ok r) →
  ∃ c', same_identified_request c c' = true ∧
    applications i (ps ++ p :: qs) m = [(c', r)].
Proof.
  intros p Ha Hp Hfresh Hr Hrej.
  assert (∃ c', same_identified_request c c' = true ∧
    remembers i c' r (sm_sessions (apply_proposal p (after ps m)).2)) as (c' & Hsame & Hrem).
  { rewrite (apply_identified_proposal p i c) in * by done. revert Hr. unfold apply_identified.
    destruct (check_identity i c _) as [answer|] eqn:Hc.
    - cbn [fst snd]. intros ->. by apply check_identity_replays in Hc.
    - destruct (apply_replicated_command c (after ps m)) as [[r'|] m']; [|done]. intros [= ->].
      exists c. split; [apply same_identified_request_refl|]. unfold remembers. cbn.
      by rewrite lookup_insert_eq. }
  exists c'. split; [done|].
  change (p :: qs) with ([p] ++ qs)%list. rewrite app_assoc, applications_app.
  assert (after (ps ++ [p]) m = (apply_proposal p (after ps m)).2) as Hm.
  { by rewrite after_app, after_cons. }
  rewrite Hm, (applications_after_spent i qs _ c' r) by (by apply remembers_spent).
  rewrite app_nil_r. rewrite <-Hm in Hrem. apply remembered_was_applied in Hrem as [Hrem|Hin].
  { apply remembers_spent in Hrem. by destruct (Hfresh _ _ Hrem). }
  destruct (applications_at_most_once i (ps ++ [p]) m) as [Hnil|(c1 & r1 & Hone)].
  - rewrite Hnil in Hin. set_solver.
  - rewrite Hone in *. set_solver.
Qed.
