(* ===== verification/RaftSnapshot.v ===== *)
(** * Consensus snapshots ([agent-broker-consensus/src/raft_state_machine.rs])

    The bytes that a replica saves or sends to another one: a header with a
    magic number, a version and two big-endian lengths, then the broker snapshot
    and the session table.  Data without the magic number is a broker snapshot
    from before sessions existed. *)

From stdpp Require Import pretty.
From S2P Require Import Prelude Values Task Group Messages Machine Recovery Spec Invariant Effect.
From S2P Require Import Broker RecoveryProps Stale Valid Display Wire Replicated.
From S2P Require Import ReplicatedProps Sessions SessionsProps.

(** ** Big-endian words *)

(** [to_be_bytes] of a word of [n] bytes. *)
Fixpoint to_be_bytes (n : nat) (v : N) : bytes :=
  match n with
  | O => []
  | S n => Ascii.ascii_of_N (v / 256 ^ N.of_nat n) :: to_be_bytes n (v mod 256 ^ N.of_nat n)
  end.

(** [from_be_bytes] *)
Definition from_be_bytes (b : bytes) : N := foldl (λ acc c, acc * 256 + Ascii.N_of_ascii c) 0 b.

(** [&data[from..to]] *)
Definition slice (from to : nat) (data : bytes) : bytes := take (to - from) (drop from data).

Definition CONSENSUS_SNAPSHOT_MAGIC : bytes := String.list_ascii_of_string "ABCSNP01".
Definition CONSENSUS_SNAPSHOT_VERSION : N := 1.
Definition CONSENSUS_SNAPSHOT_HEADER_BYTES : N := 8 + 4 + 8 + 8.

(** ** Records *)

Record CommandSessionSnapshotRecordV1 := {
  sr_session_id : string;
  sr_owner_epoch : N;
  sr_owner_instance_id : option string;
  sr_sequence : option N;
  sr_command : option ReplicatedBrokerCommandV1;
  sr_response : option ReplicatedBrokerResponseV1;
}.

Record CommandSessionsSnapshotV1 := {
  ss_version : N;
  ss_records : list CommandSessionSnapshotRecordV1;
}.

(** [serde_json] on the session table: what is written reads back as the same
    value; absent fields are left out and read back as absent. *)
Class SidecarCodec := {
  sidecar_to_vec : CommandSessionsSnapshotV1 → result bytes string;
  sidecar_from_slice : bytes → result CommandSessionsSnapshotV1 string;
}.

Class SidecarLaws `(C : SidecarCodec) : Prop := {
  sidecar_json w : ∃ b, sidecar_to_vec w = Ok b ∧ sidecar_from_slice b = Ok w;
}.

Record DecodedConsensusSnapshot := {
  dc_checkpoint : BrokerCheckpoint;
  dc_command_sessions : Sessions;
}.

(** ** Encoding *)

Definition session_to_record (e : CommandSessionId * CommandSessionRecord) :
    CommandSessionSnapshotRecordV1 :=
  let '(session_id, record) := e in
  {| sr_session_id := session_id; sr_owner_epoch := cs_owner_epoch record;
     sr_owner_instance_id := cs_owner_instance_id record;
     sr_sequence := co_sequence <$> cs_last_outcome record;
     sr_command := co_command <$> cs_last_outcome record;
     sr_response := co_response <$> cs_last_outcome record |}.

Definition length_to_u64 (b : bytes) (message : string) : result N string :=
  if len b <=? u64_max then Ok (len b) else Err message.

Section snapshot.
Context `{J : JsonCodec} `{C : SidecarCodec}.

Definition encode_consensus_snapshot (checkpoint : BrokerCheckpoint) (command_sessions : Sessions) :
    result bytes string :=
  let^ broker_snapshot := map_err to_string (encode_snapshot checkpoint) in
  let sidecar := {| ss_version := CONSENSUS_SNAPSHOT_VERSION;
                    ss_records := session_to_record <$> bmap_iter command_sessions |} in
  let^ encoded_sidecar := sidecar_to_vec sidecar in
  let^ broker_len := length_to_u64 broker_snapshot "Broker snapshot length exceeds u64" in
  let^ sidecar_len := length_to_u64 encoded_sidecar "command session snapshot length exceeds u64" in
  Ok (CONSENSUS_SNAPSHOT_MAGIC ++ to_be_bytes 4 CONSENSUS_SNAPSHOT_VERSION ++
      to_be_bytes 8 broker_len ++ to_be_bytes 8 sidecar_len ++ broker_snapshot ++
      encoded_sidecar)%list.

(** ** Decoding *)

Definition decode_checkpoint (data : bytes) : result BrokerCheckpoint string :=
  let^ checkpoint := map_err to_string (decode_snapshot data) in
  let^ _ := map_err to_string (from_checkpoint checkpoint) in
  Ok checkpoint.

Definition decode_command_session_outcome (sequence : option N)
    (command : option ReplicatedBrokerCommandV1) (response : option ReplicatedBrokerResponseV1) :
    result (option CommandSessionOutcome) string :=
  match sequence, command, response with
  | None, None, None => Ok None
  | Some sequence, Some command, Some response =>
      let^ sequence := map_err to_string (CommandSequence_new sequence) in
      let^ _ := map_err rce_message (command_from_replicated command) in
      let response := normalize_stored_session_outcome response in
      let^ _ := map_err rre_message (into_application_result response) in
      Ok (Some {| co_sequence := sequence; co_command := command; co_response := response |})
  | _, _, _ =>
      Err "command session snapshot outcome fields must be all present or all absent"
  end.

Definition decode_command_session_record (record : CommandSessionSnapshotRecordV1) :
    result (CommandSessionId * CommandSessionRecord) string :=
  let^ session_id := map_err to_string (CommandSessionId_new (sr_session_id record)) in
  let^ owner_epoch := map_err to_string (SessionOwnerEpoch_new (sr_owner_epoch record)) in
  let^ owner := match sr_owner_instance_id record with
                | None => Ok None
                | Some o => map_ok Some (map_err to_string (SessionOwnerInstanceId_new o))
                end in
  let^ last_outcome := decode_command_session_outcome (sr_sequence record) (sr_command record)
                         (sr_response record) in
  Ok (session_id, {| cs_owner_epoch := owner_epoch; cs_owner_instance_id := owner;
                     cs_last_outcome := last_outcome |}).

(** The loop of [decode_command_session_records]. *)
Fixpoint insert_session_records (records : list CommandSessionSnapshotRecordV1)
    (command_sessions : Sessions) : result Sessions string :=
  match records with
  | [] => Ok command_sessions
  | record :: records =>
      let^ (session_id, decoded) := decode_command_session_record record in
      match command_sessions !! session_id with
      | Some _ => Err "command session snapshot contains duplicate session_id"
      | None => insert_session_records records (<[session_id := decoded]> command_sessions)
      end
  end.

Definition decode_command_session_records (records : list CommandSessionSnapshotRecordV1) :
    result Sessions string := insert_session_records records ∅.

Definition decode_consensus_snapshot (data : bytes) : result DecodedConsensusSnapshot string :=
  if negb (bool_decide (CONSENSUS_SNAPSHOT_MAGIC `prefix_of` data)) then
    let^ checkpoint := decode_checkpoint data in
    Ok {| dc_checkpoint := checkpoint; dc_command_sessions := ∅ |}
  else if len data <? CONSENSUS_SNAPSHOT_HEADER_BYTES then
    Err "consensus snapshot header is truncated"
  else
  let version := from_be_bytes (slice 8 12 data) in
  if negb (version =? CONSENSUS_SNAPSHOT_VERSION)
  then Err ("unsupported consensus snapshot version " +:+ pretty version) else
  let broker_len := from_be_bytes (slice 12 20 data) in
  let sidecar_len := from_be_bytes (slice 20 28 data) in
  let^ broker_end := ok_or (checked_add CONSENSUS_SNAPSHOT_HEADER_BYTES broker_len)
                       "consensus snapshot Broker length overflow" in
  let^ expected_end := ok_or (checked_add broker_end sidecar_len)
                         "consensus snapshot sidecar length overflow" in
  if negb (expected_end =? len data)
  then Err "consensus snapshot length fields do not match payload length" else
  let^ checkpoint := decode_checkpoint (slice 28 (N.to_nat broker_end) data) in
  let^ sidecar := sidecar_from_slice (drop (N.to_nat broker_end) data) in
  if negb (ss_version sidecar =? CONSENSUS_SNAPSHOT_VERSION)
  then Err ("unsupported command session snapshot version " +:+ pretty (ss_version sidecar)) else
  if MAX_COMMAND_SESSIONS <? len (ss_records sidecar)
  then Err "command session snapshot exceeds capacity 4096" else
  let^ command_sessions := decode_command_session_records (ss_records sidecar) in
  Ok {| dc_checkpoint := checkpoint; dc_command_sessions := command_sessions |}.

End snapshot.

(** * A codec for session tables

    Shows that the laws of [SidecarLaws] can hold: commands and responses are
    countable, so a table is written as a line of binary digits. *)

(** ** Commands: a tag, the strings and the numbers *)

Definition command_cells (c : ReplicatedBrokerCommandV1) : N * list string * list N :=
  match c with
  | V1EnsureNamespace a x => (0, [a], [x])
  | V1PublishTask a b c x y => (1, [a; b; c], [x; y])
  | V1EnsureConsumerGroup a b x => (2, [a; b], [x])
  | V1JoinConsumerGroup a b caps x y => (3, a :: b :: caps, [x; y])
  | V1Heartbeat a b x y => (4, [a; b], [x; y])
  | V1LeaveConsumerGroup a b x => (5, [a; b], [x])
  | V1ReapStaleMembers x y => (6, [], [x; y])
  | V1ClaimTask a b x y c z w => (7, [a; b; c], [x; y; z; w])
  | V1RenewTaskLease a b c x y z d u v => (8, [a; b; c; d], [x; y; z; u; v])
  | V1CompleteTask a b c x y z d e u => (9, [a; b; c; d; e], [x; y; z; u])
  | V1PruneCompletedTasks x y => (10, [], [x; y])
  | V1AdvanceTerm x y => (11, [], [x; y])
  | V1AcquireCommandSessionOwner a x b => (12, [a; b], [x])
  end.

Definition cells_command (r : N * list string * list N) : option ReplicatedBrokerCommandV1 :=
  match r with
  | (0, [a], [x]) => Some (V1EnsureNamespace a x)
  | (1, [a; b; c], [x; y]) => Some (V1PublishTask a b c x y)
  | (2, [a; b], [x]) => Some (V1EnsureConsumerGroup a b x)
  | (3, a :: b :: caps, [x; y]) => Some (V1JoinConsumerGroup a b caps x y)
  | (4, [a; b], [x; y]) => Some (V1Heartbeat a b x y)
  | (5, [a; b], [x]) => Some (V1LeaveConsumerGroup a b x)
  | (6, [], [x; y]) => Some (V1ReapStaleMembers x y)
  | (7, [a; b; c], [x; y; z; w]) => Some (V1ClaimTask a b x y c z w)
  | (8, [a; b; c; d], [x; y; z; u; v]) => Some (V1RenewTaskLease a b c x y z d u v)
  | (9, [a; b; c; d; e], [x; y; z; u]) => Some (V1CompleteTask a b c x y z d e u)
  | (10, [], [x; y]) => Some (V1PruneCompletedTasks x y)
  | (11, [], [x; y]) => Some (V1AdvanceTerm x y)
  | (12, [a; b], [x]) => Some (V1AcquireCommandSessionOwner a x b)
  | _ => None
  end.

#[export] Instance command_countable : Countable ReplicatedBrokerCommandV1.
Proof. refine (inj_countable command_cells cells_command _). by intros []. Defined.

(** ** Results and responses *)

#[export] Instance metadata_eq_dec : EqDecision ReplicatedMutationMetadataV1.
Proof. solve_decision. Defined.
#[export] Instance status_eq_dec : EqDecision ReplicatedTaskStatusV1.
Proof. solve_decision. Defined.
#[export] Instance mutation_result_eq_dec : EqDecision ReplicatedBrokerMutationResultV1.
Proof. solve_decision. Defined.
#[export] Instance disposition_eq_dec : EqDecision ReplicatedBrokerErrorDispositionV1.
Proof. solve_decision. Defined.
#[export] Instance error_code_eq_dec : EqDecision ReplicatedBrokerErrorCodeV1.
Proof. solve_decision. Defined.
#[export] Instance replicated_error_eq_dec : EqDecision ReplicatedBrokerErrorV1.
Proof. solve_decision. Defined.
#[export] Instance response_eq_dec : EqDecision ReplicatedBrokerResponseV1.
Proof. solve_decision. Defined.

Definition status_cell (s : ReplicatedTaskStatusV1) : option N :=
  Some match s with V1Queued => 0 | V1Leased => 1 | V1Completed => 2 end.

Definition cell_status (n : N) : ReplicatedTaskStatusV1 :=
  match n with 0 => V1Queued | 1 => V1Leased | _ => V1Completed end.

Abbreviation result_cells_type := (N * N * N * list (option string) * list (option N))%type.

Definition result_cells (r : ReplicatedBrokerMutationResultV1) : result_cells_type :=
  let md m := (rm_term m, rm_revision m) in
  match r with
  | V1RNamespace m a x => (md m, 0, [Some a], [Some x])
  | V1RTaskPublished m a x s => (md m, 1, [Some a], [Some x; status_cell s])
  | V1RConsumerGroup m a x y z => (md m, 2, [Some a], [Some x; Some y; Some z])
  | V1RHeartbeat m a b x y => (md m, 3, [Some a; Some b], [Some x; Some y])
  | V1RStaleMembersReaped m x y => (md m, 4, [], [Some x; Some y])
  | V1RTaskClaim m a b x c y z w => (md m, 5, [a; b; c], [x; y; z; Some w])
  | V1RTaskLeaseRenewed m a x b y z w => (md m, 6, [Some a; Some b], [Some x; Some y; Some z; Some w])
  | V1RTaskCompleted m a x s => (md m, 7, [Some a], [Some x; status_cell s])
  | V1RCompletedTasksPruned m x => (md m, 8, [], [Some x])
  | V1RTermAdvanced m => (md m, 9, [], [])
  end.

Definition cells_result (r : result_cells_type) : option ReplicatedBrokerMutationResultV1 :=
  let '(t, v, tag, ss, ns) := r in
  let m := {| rm_term := t; rm_revision := v |} in
  match tag, ss, ns with
  | 0, [Some a], [Some x] => Some (V1RNamespace m a x)
  | 1, [Some a], [Some x; Some s] => Some (V1RTaskPublished m a x (cell_status s))
  | 2, [Some a], [Some x; Some y; Some z] => Some (V1RConsumerGroup m a x y z)
  | 3, [Some a; Some b], [Some x; Some y] => Some (V1RHeartbeat m a b x y)
  | 4, [], [Some x; Some y] => Some (V1RStaleMembersReaped m x y)
  | 5, [a; b; c], [x; y; z; Some w] => Some (V1RTaskClaim m a b x c y z w)
  | 6, [Some a; Some b], [Some x; Some y; Some z; Some w] =>
      Some (V1RTaskLeaseRenewed m a x b y z w)
  | 7, [Some a], [Some x; Some s] => Some (V1RTaskCompleted m a x (cell_status s))
  | 8, [], [Some x] => Some (V1RCompletedTasksPruned m x)
  | 9, [], [] => Some (V1RTermAdvanced m)
  | _, _, _ => None
  end.

#[export] Instance mutation_result_countable : Countable ReplicatedBrokerMutationResultV1.
Proof.
  refine (inj_countable result_cells cells_result _).
  intros r. destruct r; repeat match goal with
    m : ReplicatedMutationMetadataV1 |- _ => destruct m | s : ReplicatedTaskStatusV1 |- _ => destruct s
    end; done.
Defined.

Definition disposition_cell (d : ReplicatedBrokerErrorDispositionV1) : N :=
  match d with V1Committed => 0 | V1Rejected => 1 | V1Unknown => 2 end.

Definition cell_disposition (n : N) : ReplicatedBrokerErrorDispositionV1 :=
  match n with 0 => V1Committed | 1 => V1Rejected | _ => V1Unknown end.

Definition code_cell (c : ReplicatedBrokerErrorCodeV1) : N :=
  match c with
  | V1InvalidRequest => 0 | V1NotFound => 1 | V1Conflict => 2 | V1CapacityExceeded => 3
  | V1StaleFence => 4 | V1PersistenceError => 5 | V1TransportError => 6
  | V1CommitOutcomeUnknown => 7 | V1InternalError => 8
  end.

Definition cell_code (n : N) : ReplicatedBrokerErrorCodeV1 :=
  match n with
  | 0 => V1InvalidRequest | 1 => V1NotFound | 2 => V1Conflict | 3 => V1CapacityExceeded
  | 4 => V1StaleFence | 5 => V1PersistenceError | 6 => V1TransportError
  | 7 => V1CommitOutcomeUnknown | _ => V1InternalError
  end.

Definition response_cells (r : ReplicatedBrokerResponseV1) :
    option N + (ReplicatedBrokerMutationResultV1 + N * string * N) :=
  match r with
  | RaftControl => inl None
  | SessionOwnerAcquired e => inl (Some e)
  | Success r => inr (inl r)
  | ApplicationError e => inr (inr (code_cell (re_code e), re_message e, disposition_cell (re_disposition e)))
  end.

Definition cells_response (r : option N + (ReplicatedBrokerMutationResultV1 + N * string * N)) :
    ReplicatedBrokerResponseV1 :=
  match r with
  | inl None => RaftControl
  | inl (Some e) => SessionOwnerAcquired e
  | inr (inl r) => Success r
  | inr (inr (c, m, d)) => ApplicationError {| re_code := cell_code c; re_message := m;
                                               re_disposition := cell_disposition d |}
  end.

#[export] Instance response_countable : Countable ReplicatedBrokerResponseV1.
Proof.
  refine (inj_countable' response_cells cells_response _).
  intros [| | |[c m d]]; [done..|]. by destruct c, d.
Defined.

(** ** Tables *)

#[export] Instance session_record_eq_dec : EqDecision CommandSessionSnapshotRecordV1.
Proof. solve_decision. Defined.
#[export] Instance session_table_eq_dec : EqDecision CommandSessionsSnapshotV1.
Proof. solve_decision. Defined.

#[export] Instance session_record_countable : Countable CommandSessionSnapshotRecordV1.
Proof.
  refine (inj_countable' (λ w, (sr_session_id w, sr_owner_epoch w, sr_owner_instance_id w,
      sr_sequence w, sr_command w, sr_response w))
    (λ '(a, b, c, d, e, f), {| sr_session_id := a; sr_owner_epoch := b; sr_owner_instance_id := c;
       sr_sequence := d; sr_command := e; sr_response := f |}) _). by intros [].
Defined.

#[export] Instance session_table_countable : Countable CommandSessionsSnapshotV1.
Proof.
  refine (inj_countable' (λ w, (ss_version w, ss_records w))
    (λ '(a, b), {| ss_version := a; ss_records := b |}) _). by intros [].
Defined.

#[export] Instance digit_sidecar : SidecarCodec := {|
  sidecar_to_vec w := Ok (digits (encode w));
  sidecar_from_slice b := ok_or (undigits b ≫= decode) "not a session table";
|}.

#[export] Instance digit_sidecar_laws : SidecarLaws digit_sidecar.
Proof.
  split. intros w. exists (digits (encode w)). simpl. split; [done|].
  rewrite <-(app_nil_r (digits _)), undigits_digits by done. simpl. by rewrite decode_encode.
Qed.

(** * A consensus snapshot carries the whole replicated state

    Decoding the snapshot of a replica gives back its checkpoint and its session
    table; the restored replica then answers every log of proposals as the one
    the snapshot was taken from. *)

(** ** Big-endian words *)

Lemma to_be_bytes_length n v : length (to_be_bytes n v) = n.
Proof. revert v. induction n; intros v; simpl; auto. Qed.

Lemma be_bytes_acc n v acc :
  v < 256 ^ N.of_nat n →
  foldl (λ acc c, acc * 256 + Ascii.N_of_ascii c) acc (to_be_bytes n v) = acc * 256 ^ N.of_nat n + v.
Proof.
  revert v acc. induction n as [|n IH]; intros v acc Hv; [simpl in *; lia|].
  rewrite Nat2N.inj_succ, N.pow_succ_r' in *. set (p := 256 ^ N.of_nat n) in *.
  assert (0 < p) by (apply N.neq_0_lt_0, N.pow_nonzero; lia).
  simpl. fold p. rewrite Ascii.N_ascii_embedding by (apply N.Div0.div_lt_upper_bound; lia).
  rewrite IH by (apply N.mod_lt; lia). fold p. pose proof (N.div_mod v p). nia.
Qed.

Lemma be_bytes_inv n v : v < 256 ^ N.of_nat n → from_be_bytes (to_be_bytes n v) = v.
Proof. intros Hv. unfold from_be_bytes. rewrite be_bytes_acc by done. lia. Qed.

(** The header of a snapshot: the fields are where decoding looks for them. *)
Lemma slice_app (a b c : bytes) from to :
  length a = from → (from + length b)%nat = to → slice from to (a ++ b ++ c) = b.
Proof.
  intros <- <-. unfold slice. rewrite drop_app_length.
  replace (length a + length b - length a)%nat with (length b) by lia. apply take_app_length.
Qed.

(** ** The session table *)

Lemma normalize_readable r : readable r → normalize_stored_session_outcome r = r.
Proof. by intros [_ ?]. Qed.

Lemma outcome_reads_back o :
  valid_last_outcome o →
  decode_command_session_outcome (Some (co_sequence o)) (Some (co_command o)) (Some (co_response o))
  = Ok (Some o).
Proof.
  intros (Hq & Hc & Hr & Hn). unfold decode_command_session_outcome.
  rewrite sequence_ok by done. cbn [map_err].
  destruct (command_from_replicated _); [|done]. cbn [map_err]. rewrite Hn.
  destruct (into_application_result _); [|done]. cbn [map_err]. by destruct o.
Qed.

Lemma record_reads_back s r :
  valid_session s → valid_record r →
  decode_command_session_record (session_to_record (s, r)) = Ok (s, r).
Proof.
  intros Hs (He & Ho & Hl). unfold decode_command_session_record.
  assert (decode_command_session_outcome (co_sequence <$> cs_last_outcome r)
    (co_command <$> cs_last_outcome r) (co_response <$> cs_last_outcome r) = Ok (cs_last_outcome r)) as Hd.
  { destruct (cs_last_outcome r) as [o|]; [|done]. by apply outcome_reads_back. }
  cbn [session_to_record sr_session_id sr_owner_epoch sr_owner_instance_id sr_sequence sr_command
    sr_response]. rewrite session_id_ok, owner_epoch_ok, Hd by done. cbn [map_err].
  destruct r as [e [o|] last]; simpl in *; [|done]. by rewrite owner_instance_ok.
Qed.

Lemma insert_records_spec l sessions :
  NoDup l.*1 → (∀ kv, kv ∈ l → sessions !! kv.1 = None) →
  Forall (λ kv, valid_session kv.1 ∧ valid_record kv.2) l →
  insert_session_records (session_to_record <$> l) sessions = Ok (insert_all l sessions).
Proof.
  revert sessions. induction l as [|[s r] l IH]; intros sessions Hnd Hf Hv; [done|].
  apply insert_all_fresh in Hf as (Hs & Hnd' & Hf'); [|done].
  apply Forall_cons in Hv as [[Hvs Hvr] Hv]. cbn [fmap list_fmap insert_session_records].
  rewrite record_reads_back by done. cbn [fst snd] in *. rewrite Hs. by apply IH.
Qed.

Lemma table_reads_back sessions :
  map_Forall (λ s r, valid_session s ∧ valid_record r) sessions →
  decode_command_session_records (session_to_record <$> bmap_iter sessions) = Ok sessions.
Proof.
  intros Hv. unfold decode_command_session_records. rewrite insert_records_spec.
  - by rewrite insert_all_bmap_iter.
  - apply bmap_iter_nodup_keys.
  - intros. apply lookup_empty.
  - apply Forall_forall. intros [s r] Hin%elem_of_bmap_iter. by apply Hv.
Qed.

(** ** The whole snapshot *)

Definition sidecar_of (sessions : gmap CommandSessionId CommandSessionRecord) :
    CommandSessionsSnapshotV1 :=
  {| ss_version := CONSENSUS_SNAPSHOT_VERSION; ss_records := session_to_record <$> bmap_iter sessions |}.

Section roundtrip.
Context `{J : JsonCodec} `{L : !JsonLaws J} `{C : SidecarCodec} `{CL : !SidecarLaws C}.

Lemma checkpoint_decodes s :
  StateInv s → valid_state s →
  ∃ b, encode_snapshot (BrokerState_checkpoint s) = Ok b ∧
       decode_checkpoint b = Ok (BrokerState_checkpoint s).
Proof.
  intros Hs Hv. destruct (snapshot_reads_back s Hs Hv) as (b & Hb & Hr). exists b. split; [done|].
  unfold decode_checkpoint. rewrite Hr. cbn [map_err].
  destruct (recover s Hs) as (m & -> & _). done.
Qed.

(** Taking a snapshot apart gives its two parts. *)
Lemma decode_parts bs sc :
  CONSENSUS_SNAPSHOT_HEADER_BYTES + len bs + len sc ≤ u64_max →
  decode_consensus_snapshot (CONSENSUS_SNAPSHOT_MAGIC ++ to_be_bytes 4 CONSENSUS_SNAPSHOT_VERSION ++
    to_be_bytes 8 (len bs) ++ to_be_bytes 8 (len sc) ++ bs ++ sc)%list =
  let^ checkpoint := decode_checkpoint bs in
  let^ sidecar := sidecar_from_slice sc in
  if negb (ss_version sidecar =? CONSENSUS_SNAPSHOT_VERSION)
  then Err ("unsupported command session snapshot version " +:+ pretty.pretty (ss_version sidecar)) else
  if MAX_COMMAND_SESSIONS <? len (ss_records sidecar)
  then Err "command session snapshot exceeds capacity 4096" else
  let^ command_sessions := decode_command_session_records (ss_records sidecar) in
  Ok {| dc_checkpoint := checkpoint; dc_command_sessions := command_sessions |}.
Proof.
  intros Hlen. set (v4 := to_be_bytes 4 CONSENSUS_SNAPSHOT_VERSION). set (b8 := to_be_bytes 8 (len bs)).
  set (s8 := to_be_bytes 8 (len sc)).
  assert (length v4 = 4 ∧ length b8 = 8 ∧ length s8 = 8)%nat as (L4 & Lb & Ls)
    by (unfold v4, b8, s8; rewrite !to_be_bytes_length; done).
  assert (from_be_bytes v4 = 1 ∧ from_be_bytes b8 = len bs ∧ from_be_bytes s8 = len sc) as (V4 & Vb & Vs).
  { unfold CONSENSUS_SNAPSHOT_HEADER_BYTES, u64_max in Hlen.
    split_and!; [done|apply be_bytes_inv..]; change (256 ^ N.of_nat 8) with 18446744073709551616; lia. }
  set (data := (CONSENSUS_SNAPSHOT_MAGIC ++ v4 ++ b8 ++ s8 ++ bs ++ sc)%list).
  assert (len data = CONSENSUS_SNAPSHOT_HEADER_BYTES + len bs + len sc) as Hdata.
  { unfold len, data. rewrite !length_app, L4, Lb, Ls. change (length CONSENSUS_SNAPSHOT_MAGIC) with 8%nat.
    unfold CONSENSUS_SNAPSHOT_HEADER_BYTES. lia. }
  unfold decode_consensus_snapshot. rewrite bool_decide_true by (eexists; done). cbn [negb].
  rewrite (proj2 (N.ltb_ge _ _)) by lia.
  assert (slice 8 12 data = v4) as ->.
  { apply (slice_app CONSENSUS_SNAPSHOT_MAGIC v4); [done|]. by rewrite L4. }
  assert (slice 12 20 data = b8) as ->.
  { unfold data. rewrite app_assoc. apply (slice_app (CONSENSUS_SNAPSHOT_MAGIC ++ v4)%list b8);
      [by rewrite length_app, L4|by rewrite Lb]. }
  assert (slice 20 28 data = s8) as ->.
  { unfold data. rewrite app_assoc, app_assoc.
    apply (slice_app ((CONSENSUS_SNAPSHOT_MAGIC ++ v4) ++ b8)%list s8);
      [by rewrite !length_app, L4, Lb|by rewrite Ls]. }
  rewrite V4, Vb, Vs. cbn [N.eqb Pos.eqb negb CONSENSUS_SNAPSHOT_VERSION].
  unfold checked_add. rewrite (proj2 (N.leb_le _ _)) by lia. cbn [ok_or].
  rewrite (proj2 (N.leb_le _ _)) by lia. cbn [ok_or]. rewrite Hdata, N.eqb_refl. cbn [negb].
  assert (data = (((CONSENSUS_SNAPSHOT_MAGIC ++ v4) ++ b8) ++ s8) ++ bs ++ sc)%list as Hassoc
    by (unfold data; by rewrite !app_assoc).
  set (header := (((CONSENSUS_SNAPSHOT_MAGIC ++ v4) ++ b8) ++ s8)%list) in *.
  assert (length header = 28%nat) as Hh by (unfold header; rewrite !length_app, L4, Lb, Ls; done).
  assert (N.to_nat (CONSENSUS_SNAPSHOT_HEADER_BYTES + len bs) = 28 + length bs)%nat as ->.
  { unfold CONSENSUS_SNAPSHOT_HEADER_BYTES, len. lia. }
  assert (slice 28 (28 + length bs) data = bs) as ->.
  { rewrite Hassoc. by apply slice_app. }
  assert (drop (28 + length bs) data = sc) as ->; [|done].
  rewrite Hassoc, app_assoc, drop_app_length'; [done|]. by rewrite length_app, Hh.
Qed.

Lemma consensus_snapshot_reads_back m :
  SessionInv m →
  ∃ bs sc, encode_snapshot (BrokerState_checkpoint (m_state (sm_broker m))) = Ok bs ∧
    sidecar_to_vec (sidecar_of (sm_sessions m)) = Ok sc ∧
    (CONSENSUS_SNAPSHOT_HEADER_BYTES + len bs + len sc ≤ u64_max →
     ∃ b, encode_consensus_snapshot (BrokerState_checkpoint (m_state (sm_broker m))) (sm_sessions m)
            = Ok b ∧
       decode_consensus_snapshot b =
         Ok {| dc_checkpoint := BrokerState_checkpoint (m_state (sm_broker m));
               dc_command_sessions := sm_sessions m |}).
Proof.
  intros [Hb Hv Hr Hn]. destruct (checkpoint_decodes _ (inv_state _ Hb) Hv) as (bs & Hbs & Hdec).
  destruct (sidecar_json (sidecar_of (sm_sessions m))) as (sc & Hsc & Hfrom).
  exists bs, sc. split_and!; [done..|]. intros Hlen. unfold encode_consensus_snapshot.
  fold (sidecar_of (sm_sessions m)). rewrite Hbs, Hsc. cbn [map_err]. unfold length_to_u64.
  rewrite !(proj2 (N.leb_le _ _)) by lia. eexists. split; [done|].
  rewrite decode_parts, Hdec, Hfrom by done. cbn [negb N.eqb ss_version sidecar_of ss_records].
  cbn [CONSENSUS_SNAPSHOT_VERSION Pos.eqb N.eqb negb].
  rewrite (proj2 (N.ltb_ge _ _)).
  - by rewrite table_reads_back.
  - unfold len. rewrite length_fmap, <-(length_fmap fst), fst_bmap_iter.
    unfold bmap_keys, bset_iter. rewrite merge_sort_Permutation.
    change (length (elements (dom (sm_sessions m)))) with (size (dom (sm_sessions m))).
    rewrite size_dom. exact Hn.
Qed.

End roundtrip.
