(* ===== verification/LogStorage.v ===== *)
(** * Raft persistence and log storage ([agent-broker-consensus/src/raft_type_config.rs],
    [raft_persistence.rs], [raft_log_storage.rs])

    [raft_type_config.rs] instantiates OpenRaft's types for the broker: proposals
    are the entries' data, node ids are 64-bit words.  OpenRaft and redb are
    libraries: leader ids, memberships and votes are parameters, and the database
    is an interface with the transactional behaviour redb documents.  On it stand
    the table operations and the log storage that OpenRaft calls. *)

From stdpp Require Import pretty.
From S2P Require Import Prelude Values Wire Replicated Sessions.

(** ** OpenRaft's data *)

Class RaftTypes := {
  LeaderId : Type;
  Membership : Type;
  Vote : Type;
  leader_id_fmt : LeaderId → string;
  membership_default : Membership;
}.

Section types.
Context `{R : RaftTypes}.

Record LogId := { li_leader_id : LeaderId; li_index : N }.

Record StoredMembership := {
  sb_log_id : option LogId;
  sb_membership : Membership;
}.

Definition StoredMembership_default : StoredMembership :=
  {| sb_log_id := None; sb_membership := membership_default |}.

Inductive EntryPayload :=
  | PayloadBlank
  | PayloadNormal (data : ReplicatedBrokerProposalV1)
  | PayloadMembership (membership : Membership).

Record Entry := { en_log_id : LogId; en_payload : EntryPayload }.

Record LogState := {
  ls_last_purged_log_id : option LogId;
  ls_last_log_id : option LogId;
}.

Record SnapshotMeta := {
  sn_last_log_id : option LogId;
  sn_last_membership : StoredMembership;
  sn_snapshot_id : string;
}.

Record Snapshot := { sp_meta : SnapshotMeta; sp_data : bytes }.

(** What a storage error is about: the subject and verb of [StorageIOError]. *)
Inductive StorageSubject :=
  | SubjRead | SubjWrite | SubjReadLogs | SubjWriteLogs | SubjWriteLogEntry (id : LogId)
  | SubjReadVote | SubjWriteVote | SubjReadStateMachine
  | SubjReadSnapshot (meta : option SnapshotMeta) | SubjWriteSnapshot (meta : option SnapshotMeta).

Record StorageIOError := { si_subject : StorageSubject; si_message : string }.

Definition storage_error (subject : StorageSubject) {A} (r : result A string) :
    result A StorageIOError :=
  map_err (λ e, {| si_subject := subject; si_message := e |}) r.

(** ** serde_json on these types *)

Class RaftJson := {
  entry_to_vec : Entry → result bytes string;
  entry_from_slice : bytes → result Entry string;
  log_id_to_vec : LogId → result bytes string;
  log_id_from_slice : bytes → result LogId string;
  vote_to_vec : Vote → result bytes string;
  vote_from_slice : bytes → result Vote string;
  meta_to_vec : SnapshotMeta → result bytes string;
  meta_from_slice : bytes → result SnapshotMeta string;
}.

(** JSON has one spelling of the absent value; a log id is an object. *)
Definition json_null : bytes := String.list_ascii_of_string "null".

Class RaftJsonLaws (J : RaftJson) : Prop := {
  entry_json e : ∃ b, entry_to_vec e = Ok b ∧ entry_from_slice b = Ok e;
  log_id_json i : ∃ b, log_id_to_vec i = Ok b ∧ log_id_from_slice b = Ok i;
  vote_json v : ∃ b, vote_to_vec v = Ok b ∧ vote_from_slice b = Ok v;
  meta_json m : ∃ b, meta_to_vec m = Ok b ∧ meta_from_slice b = Ok m;
  log_id_not_null : ∃ e, log_id_from_slice json_null = Err e;
}.

End types.

(** ** redb *)

(** The two tables of the database. *)
Record Tables := {
  tb_log : gmap N bytes;
  tb_meta : gmap string bytes;
}.

Definition with_log (log : gmap N bytes) (t : Tables) : Tables :=
  {| tb_log := log; tb_meta := tb_meta t |}.
Definition with_meta (meta : gmap string bytes) (t : Tables) : Tables :=
  {| tb_log := tb_log t; tb_meta := meta |}.

(** A database: what a read transaction sees, a read transaction and a write
    transaction.  Either may fail, at any of its steps. *)
Class Redb := {
  Database : Type;
  db_tables : Database → Tables;
  db_read : Database → result Tables string;
  db_write : (Tables → Tables) → Database → result unit string * Database;
}.

(** Transactions are isolated and atomic: a read sees the committed tables; a
    write that commits installs its tables, one that fails leaves the old tables
    or, when the failure came after the commit point, the new ones. *)
Class RedbLaws (D : Redb) : Prop := {
  db_read_ok d t : db_read d = Ok t → t = db_tables d;
  db_write_ok f d d' : db_write f d = (Ok tt, d') → db_tables d' = f (db_tables d);
  db_write_err f d e d' : db_write f d = (Err e, d') →
    db_tables d' = db_tables d ∨ db_tables d' = f (db_tables d);
}.

(** * Raft persistence ([agent-broker-consensus/src/raft_persistence.rs])

    The byte store below the log and the snapshots: a table of log entries by
    index and a table of named values, each operation one transaction. *)

(** ** What the operations do to the tables *)

(** [table.range(start..end)] and [table.range(start..)], in key order. *)
Definition in_range (start_inclusive : N) (end_exclusive : option N) (i : N) : bool :=
  (start_inclusive <=? i) && match end_exclusive with Some e => i <? e | None => true end.

Definition log_range (start_inclusive : N) (end_exclusive : option N) (log : gmap N bytes) :
    list (N * bytes) :=
  filter (λ kv, in_range start_inclusive end_exclusive kv.1 = true) (bmap_iter log).

Definition log_last (log : gmap N bytes) : option (N * bytes) := last (bmap_iter log).

Definition log_insert_all (entries : list (N * bytes)) (log : gmap N bytes) : gmap N bytes :=
  foldl (λ log kv, <[kv.1 := kv.2]> log) log entries.

(** [table.retain] *)
Definition log_retain (keep : N → Prop) `{!∀ i, Decision (keep i)} (log : gmap N bytes) :
    gmap N bytes := filter (λ kv, keep kv.1) log.

(** [saturating_add(1)] on a 64-bit word. *)
Definition saturating_succ (n : N) : N := if n <? u64_max then n + 1 else u64_max.

(** The check over [entries.windows(2)]. *)
Fixpoint batch_contiguous (entries : list (N * bytes)) : bool :=
  match entries with
  | a :: ((b :: _) as rest) => (b.1 =? saturating_succ a.1) && batch_contiguous rest
  | _ => true
  end.

Section persistence.
Context `{D : Redb}.

Definition ensure_tables (d : Database) : result unit string * Database := db_write id d.

Definition read_log_range (start_inclusive : N) (end_exclusive : option N) (d : Database) :
    result (list (N * bytes)) string :=
  let^ t := db_read d in Ok (log_range start_inclusive end_exclusive (tb_log t)).

Definition read_last_log (d : Database) : result (option (N * bytes)) string :=
  let^ t := db_read d in Ok (log_last (tb_log t)).

Definition append_log_batch (entries : list (N * bytes)) (d : Database) :
    result unit string * Database :=
  if bool_decide (entries = []) then (Ok tt, d) else
  if negb (batch_contiguous entries)
  then (Err "Raft append batch contains a log index hole", d)
  else db_write (λ t, with_log (log_insert_all entries (tb_log t)) t) d.

Definition truncate_from (index : N) (d : Database) : result unit string * Database :=
  db_write (λ t, with_log (log_retain (λ i, i < index) (tb_log t)) t) d.

Definition purge_through_and_write_meta (index : N) (meta_key : string) (meta_value : bytes)
    (d : Database) : result unit string * Database :=
  db_write (λ t, with_meta (<[meta_key := meta_value]> (tb_meta t))
                   (with_log (log_retain (λ i, index < i) (tb_log t)) t)) d.

Definition read_meta (key : string) (d : Database) : result (option bytes) string :=
  let^ t := db_read d in Ok (tb_meta t !! key).

Definition read_meta_pair (first_key second_key : string) (d : Database) :
    result (option bytes * option bytes) string :=
  let^ t := db_read d in Ok (tb_meta t !! first_key, tb_meta t !! second_key).

Definition write_meta (key : string) (value : bytes) (d : Database) : result unit string * Database :=
  db_write (λ t, with_meta (<[key := value]> (tb_meta t)) t) d.

Definition write_meta_pair (first_key : string) (first_value : bytes) (second_key : string)
    (second_value : bytes) (d : Database) : result unit string * Database :=
  db_write (λ t, with_meta (<[second_key := second_value]> (<[first_key := first_value]> (tb_meta t))) t) d.

End persistence.

(** * Raft log storage ([agent-broker-consensus/src/raft_log_storage.rs])

    OpenRaft's log and vote over the byte store.  A write operation returns its
    result with the new database; [append] also says what its flush callback was
    told. *)

Definition VOTE_KEY : string := "vote_v1".
Definition COMMITTED_KEY : string := "committed_v1".
Definition LAST_PURGED_KEY : string := "last_purged_v1".

(** ** Ranges *)

Inductive Bound := Unbounded | Included (value : N) | Excluded (value : N).

Definition normalize_range (start_bound end_bound : Bound) : result (option (N * option N)) string :=
  let^ start := match start_bound with
                | Unbounded => Ok 0
                | Included value => Ok value
                | Excluded value =>
                    ok_or (checked_add value 1) "excluded Raft range start overflows u64"
                end in
  let end_exclusive := match end_bound with
                       | Unbounded => None
                       | Excluded value => Some value
                       | Included value => checked_add value 1
                       end in
  if match end_exclusive with Some e => e <=? start | None => false end then Ok None
  else Ok (Some (start, end_exclusive)).

Section log_storage.
Context `{R : RaftTypes} `{J : RaftJson} `{D : Redb}.

Definition decode_stored_log_entry (stored_index : N) (encoded : bytes) : result Entry string :=
  let^ entry := entry_from_slice encoded in
  if negb (li_index (en_log_id entry) =? stored_index)
  then Err ("Raft log key/index mismatch: key=" +:+ pretty stored_index +:+ ", entry=" +:+
            pretty (li_index (en_log_id entry)))
  else Ok entry.

(** [AgentBrokerRaftLogStorage::read_meta], decoding with [from_slice]. *)
Definition log_read_meta {A} (from_slice : bytes → result A string) (key : string) (d : Database) :
    result (option A) StorageIOError :=
  let^ encoded := storage_error SubjRead (read_meta key d) in
  match encoded with
  | None => Ok None
  | Some b => storage_error SubjRead (map_ok Some (from_slice b))
  end.

(** [AgentBrokerRaftLogStorage::write_meta] of the encoded value. *)
Definition log_write_meta (encoded : result bytes string) (key : string) (d : Database) :
    result unit StorageIOError * Database :=
  let? encoded := storage_error SubjWrite encoded else d in
  let '(r, d) := write_meta key encoded d in (storage_error SubjWrite r, d).

Definition try_get_log_entries (start_bound end_bound : Bound) (d : Database) :
    result (list Entry) StorageIOError :=
  let^ range := storage_error SubjRead (normalize_range start_bound end_bound) in
  match range with
  | None => Ok []
  | Some (start, end_exclusive) =>
      let^ encoded_entries := storage_error SubjReadLogs (read_log_range start end_exclusive d) in
      storage_error SubjReadLogs
        (try_map (λ kv, decode_stored_log_entry kv.1 kv.2) encoded_entries)
  end.

Definition get_log_state (d : Database) : result LogState StorageIOError :=
  let^ last_purged := log_read_meta log_id_from_slice LAST_PURGED_KEY d in
  let^ last_present := storage_error SubjReadLogs (read_last_log d) in
  let^ last_present := match last_present with
                       | None => Ok None
                       | Some (stored_index, encoded) =>
                           storage_error SubjReadLogs
                             (map_ok (λ e, Some (en_log_id e))
                                (decode_stored_log_entry stored_index encoded))
                       end in
  Ok {| ls_last_purged_log_id := last_purged;
        ls_last_log_id := match last_present with Some i => Some i | None => last_purged end |}.

Definition save_vote (vote : Vote) (d : Database) : result unit StorageIOError * Database :=
  let? encoded := storage_error SubjWriteVote (vote_to_vec vote) else d in
  let '(r, d) := write_meta VOTE_KEY encoded d in (storage_error SubjWriteVote r, d).

Definition read_vote (d : Database) : result (option Vote) StorageIOError :=
  let^ encoded := storage_error SubjReadVote (read_meta VOTE_KEY d) in
  match encoded with
  | None => Ok None
  | Some b => storage_error SubjReadVote (map_ok Some (vote_from_slice b))
  end.

(** The value written is the option: [null] when there is none. *)
Definition save_committed (committed : option LogId) (d : Database) :
    result unit StorageIOError * Database :=
  log_write_meta (match committed with Some i => log_id_to_vec i | None => Ok json_null end)
    COMMITTED_KEY d.

Definition read_committed (d : Database) : result (option LogId) StorageIOError :=
  log_read_meta log_id_from_slice COMMITTED_KEY d.

(** The loop of [append] that encodes the entries. *)
Fixpoint encode_entries (entries : list Entry) : result (list (N * bytes)) (LogId * string) :=
  match entries with
  | [] => Ok []
  | entry :: entries =>
      match entry_to_vec entry with
      | Ok payload =>
          let^ encoded := encode_entries entries in
          Ok ((li_index (en_log_id entry), payload) :: encoded)
      | Err message => Err (en_log_id entry, message)
      end
  end.

(** The second component is what [callback.log_io_completed] receives. *)
Definition append (entries : list Entry) (d : Database) :
    result unit StorageIOError * result unit string * Database :=
  match encode_entries entries with
  | Err (log_id, message) =>
      (Err {| si_subject := SubjWriteLogEntry log_id; si_message := message |}, Err message, d)
  | Ok encoded =>
      let '(r, d) := append_log_batch encoded d in (storage_error SubjWriteLogs r, r, d)
  end.

Definition truncate (log_id : LogId) (d : Database) : result unit StorageIOError * Database :=
  let '(r, d) := truncate_from (li_index log_id) d in (storage_error SubjWriteLogs r, d).

Definition purge (log_id : LogId) (d : Database) : result unit StorageIOError * Database :=
  let? encoded := storage_error SubjWrite (log_id_to_vec log_id) else d in
  let '(r, d) := purge_through_and_write_meta (li_index log_id) LAST_PURGED_KEY encoded d in
  (storage_error SubjWriteLogs r, d).

End log_storage.
