(* ===== verification/LogStorageProps.v ===== *)
(** * The log storage implements Raft's log

    An abstract log (a gap-free sequence of entries after a purged prefix, with
    the vote and what was last saved as the commit pointer) and the simulation between its operations
    and those of the storage. *)

From S2P Require Import Prelude Values Wire LogStorage.

Section spec.
Context `{R : RaftTypes}.

Abbreviation index e := (li_index (en_log_id e)).

(** ** The abstract log *)

Record RaftLog := {
  rl_start : N;
  rl_entries : list Entry;
  rl_purged : option LogId;
  rl_vote : option Vote;
  rl_committed : option (option LogId);  (** [Some None] once it was cleared *)
}.

Definition rl_end (g : RaftLog) : N := rl_start g + len (rl_entries g).

Definition RaftLog_empty : RaftLog :=
  {| rl_start := 0; rl_entries := []; rl_purged := None; rl_vote := None; rl_committed := None |}.

(** The entries have the consecutive indexes from [start] on. *)
Definition contiguous (start : N) (l : list Entry) : Prop :=
  ∀ k e, l !! k = Some e → index e = start + N.of_nat k.

Inductive LogOp :=
  | OpAppend (entries : list Entry)
  | OpTruncate (log_id : LogId)
  | OpPurge (log_id : LogId)
  | OpSaveVote (vote : Vote)
  | OpSaveCommitted (committed : option LogId).

(** What OpenRaft promises: it appends at the end of the log, with indexes that
    fit 64 bits, and purges forward. *)
Definition op_ok (op : LogOp) (g : RaftLog) : Prop :=
  match op with
  | OpAppend es => contiguous (rl_end g) es ∧ rl_end g + len es ≤ u64_max
  | OpPurge i => rl_start g ≤ li_index i + 1 ∧ li_index i < u64_max
  | _ => True
  end.

Definition spec_op (op : LogOp) (g : RaftLog) : RaftLog :=
  let 'Build_RaftLog start entries purged vote committed := g in
  match op with
  | OpAppend es => Build_RaftLog start (entries ++ es)%list purged vote committed
  | OpTruncate i =>
      Build_RaftLog start (take (N.to_nat (li_index i - start)) entries) purged vote committed
  | OpPurge i =>
      Build_RaftLog (li_index i + 1) (drop (N.to_nat (li_index i + 1 - start)) entries)
        (Some i) vote committed
  | OpSaveVote v => Build_RaftLog start entries purged (Some v) committed
  | OpSaveCommitted c => Build_RaftLog start entries purged vote (Some c)
  end.

(** The entries between two bounds. *)
Definition after_start (b : Bound) (i : N) : bool :=
  match b with Unbounded => true | Included v => v <=? i | Excluded v => v <? i end.
Definition before_end (b : Bound) (i : N) : bool :=
  match b with Unbounded => true | Included v => i <=? v | Excluded v => i <? v end.

Definition spec_range (s e : Bound) (g : RaftLog) : list Entry :=
  filter (λ x, after_start s (index x) && before_end e (index x) = true) (rl_entries g).

Definition spec_log_state (g : RaftLog) : LogState :=
  {| ls_last_purged_log_id := rl_purged g;
     ls_last_log_id := match last (rl_entries g) with
                       | Some e => Some (en_log_id e) | None => rl_purged g end |}.

(** ** Contiguous sequences *)

Lemma contiguous_cons start e l :
  contiguous start (e :: l) ↔ index e = start ∧ contiguous (start + 1) l.
Proof.
  split.
  - intros H. split; [rewrite (H 0%nat e) by done; simpl; lia|].
    intros k x Hk. rewrite (H (S k) x) by done. lia.
  - intros [He H] [|k] x Hk; simpl in Hk; [simplify_eq; simpl; lia|]. rewrite (H k x Hk). lia.
Qed.

Lemma contiguous_app start l k :
  contiguous start (l ++ k) ↔ contiguous start l ∧ contiguous (start + len l) k.
Proof.
  revert start. induction l as [|e l IH]; intros start; cbn [app].
  - unfold len. simpl. rewrite N.add_0_r. split; [|tauto]. split; [|done]. by intros [].
  - rewrite !contiguous_cons, IH.
    replace (start + len (e :: l)) with (start + 1 + len l) by (unfold len; simpl length; lia).
    tauto.
Qed.

Lemma contiguous_bounds start l e :
  contiguous start l → e ∈ l → start ≤ index e ∧ index e < start + len l.
Proof.
  intros H (k & Hk)%list_elem_of_lookup. rewrite (H k e Hk). apply lookup_lt_Some in Hk. unfold len. lia.
Qed.

Lemma contiguous_drop start l n :
  contiguous start l → contiguous (start + N.of_nat n) (drop n l).
Proof. intros H k e Hk. rewrite lookup_drop in Hk. rewrite (H _ _ Hk). lia. Qed.

Lemma contiguous_take start l n : contiguous start l → contiguous start (take n l).
Proof. intros H k e [Hk _]%lookup_take_Some. by apply H. Qed.

Lemma filter_below start l i :
  contiguous start l → filter (λ e, index e < i) l = take (N.to_nat (i - start)) l.
Proof.
  revert start. induction l as [|e l IH]; intros start; [by rewrite take_nil|].
  rewrite contiguous_cons. intros [He H]. rewrite filter_cons. case_decide as Hi.
  - replace (N.to_nat (i - start)) with (S (N.to_nat (i - (start + 1)))) by lia.
    simpl. f_equal. by apply IH.
  - replace (N.to_nat (i - start)) with 0%nat by lia. rewrite take_0. apply filter_none, Forall_forall.
    intros x Hx. pose proof (contiguous_bounds _ _ _ H Hx). lia.
Qed.

Lemma filter_above start l i :
  contiguous start l → filter (λ e, i < index e) l = drop (N.to_nat (i + 1 - start)) l.
Proof.
  revert start. induction l as [|e l IH]; intros start; [by rewrite drop_nil|].
  rewrite contiguous_cons. intros [He H]. rewrite filter_cons. case_decide as Hi.
  - replace (N.to_nat (i + 1 - start)) with 0%nat by lia. rewrite drop_0. f_equal.
    apply filter_all, Forall_forall. intros x Hx. pose proof (contiguous_bounds _ _ _ H Hx). lia.
  - replace (N.to_nat (i + 1 - start)) with (S (N.to_nat (i + 1 - (start + 1)))) by lia.
    simpl. by apply IH.
Qed.

End spec.

(** ** Representation *)

Definition encoded (r : result bytes string) : bytes := match r with Ok b => b | Err _ => [] end.

Section refinement.
Context `{R : RaftTypes} `{J : !RaftJson} `{L : !RaftJsonLaws J} `{D : Redb} `{DL : !RedbLaws D}.

Abbreviation index e := (li_index (en_log_id e)).

Definition cell (e : Entry) : N * bytes := (index e, encoded (entry_to_vec e)).

Definition committed_cell (c : option LogId) : bytes :=
  match c with Some i => encoded (log_id_to_vec i) | None => json_null end.

(** The tables hold the abstract log. *)
Record log_rep (t : Tables) (g : RaftLog) : Prop := {
  lr_log : bmap_iter (tb_log t) = cell <$> rl_entries g;
  lr_contiguous : contiguous (rl_start g) (rl_entries g);
  lr_bound : rl_end g ≤ u64_max;
  lr_purged : tb_meta t !! LAST_PURGED_KEY = (λ i, encoded (log_id_to_vec i)) <$> rl_purged g;
  lr_vote : tb_meta t !! VOTE_KEY = (λ v, encoded (vote_to_vec v)) <$> rl_vote g;
  lr_committed : tb_meta t !! COMMITTED_KEY = committed_cell <$> rl_committed g;
}.

Lemma encoded_entry e : entry_to_vec e = Ok (encoded (entry_to_vec e)) ∧
  entry_from_slice (encoded (entry_to_vec e)) = Ok e.
Proof. destruct (entry_json e) as (b & -> & ?). done. Qed.

Lemma encoded_log_id i : log_id_to_vec i = Ok (encoded (log_id_to_vec i)) ∧
  log_id_from_slice (encoded (log_id_to_vec i)) = Ok i.
Proof. destruct (log_id_json i) as (b & -> & ?). done. Qed.

Lemma encoded_vote v : vote_to_vec v = Ok (encoded (vote_to_vec v)) ∧
  vote_from_slice (encoded (vote_to_vec v)) = Ok v.
Proof. destruct (vote_json v) as (b & -> & ?). done. Qed.

Lemma committed_encoded c :
  (match c with Some i => log_id_to_vec i | None => Ok json_null end) = Ok (committed_cell c).
Proof. destruct c as [i|]; [apply encoded_log_id|done]. Qed.

Lemma decode_cell e : decode_stored_log_entry (cell e).1 (cell e).2 = Ok e.
Proof.
  unfold decode_stored_log_entry, cell. cbn [fst snd]. rewrite (proj2 (encoded_entry e)).
  by rewrite N.eqb_refl.
Qed.

Lemma encode_entries_ok es : encode_entries es = Ok (cell <$> es).
Proof.
  induction es as [|e es IH]; [done|]. cbn [encode_entries].
  rewrite (proj1 (encoded_entry e)), IH. done.
Qed.

Lemma filter_cells (P : N → Prop) `{!∀ kv : N * bytes, Decision (P kv.1)}
    `{!∀ e : Entry, Decision (P (index e))} (es : list Entry) :
  filter (λ kv : N * bytes, P kv.1) (cell <$> es) = cell <$> filter (λ e, P (index e)) es.
Proof.
  induction es as [|e es IH]; [done|]. rewrite fmap_cons, !filter_cons.
  destruct (decide (P (index e))); destruct (decide (P (cell e).1)); rewrite IH; done.
Qed.

Lemma cell_keys_sorted start (es : list Entry) :
  contiguous start es → NoDup (cell <$> es).*1 ∧ sorted (cell <$> es).*1.
Proof.
  revert start. induction es as [|e es IH]; intros start; [by repeat constructor|].
  rewrite contiguous_cons. intros [He H]. destruct (IH _ H) as [IH1 IH2].
  assert (∀ k, k ∈ (cell <$> es).*1 → start < k) as Hk.
  { intros k (? & -> & (x & -> & Hx)%list_elem_of_fmap)%list_elem_of_fmap.
    pose proof (contiguous_bounds _ _ _ H Hx). simpl. lia. }
  rewrite !fmap_cons. split.
  - constructor; [|done]. intros Hin%Hk. simpl in Hin. lia.
  - apply sorted_cons_iff. split; [|done]. intros k Hin%Hk. simpl. unfold ole. simpl. lia.
Qed.

(** Appending past the end. *)
Lemma insert_cells start (es new : list Entry) log :
  contiguous start (es ++ new) → bmap_iter log = cell <$> es →
  bmap_iter (log_insert_all (cell <$> new) log) = cell <$> (es ++ new)%list.
Proof.
  revert es log. induction new as [|e new IH]; intros es log Hc Hl; [by rewrite app_nil_r|].
  rewrite (cons_middle e es new), (app_assoc es [e] new) in *.
  apply (IH (es ++ [e])%list (<[(cell e).1 := (cell e).2]> log)); [done|].
  apply contiguous_app in Hc as [Hc _].
  destruct (cell_keys_sorted _ _ Hc) as [Hnd Hs]. apply bmap_iter_unique; [done..|].
  intros k v. rewrite fmap_app, elem_of_app, <-Hl, elem_of_bmap_iter. simpl. rewrite list_elem_of_singleton.
  rewrite lookup_insert. apply contiguous_app in Hc as [Hc [He _]%contiguous_cons].
  unfold cell. case_decide as Hk; [|naive_solver]. subst k. split; [|naive_solver].
  intros [Hin|?]; [|naive_solver]. exfalso. apply elem_of_bmap_iter in Hin. rewrite Hl in Hin.
  apply list_elem_of_fmap in Hin as (x & [= Hx _] & Hin).
  pose proof (contiguous_bounds _ _ _ Hc Hin). lia.
Qed.

Lemma batch_ok start (es : list Entry) :
  contiguous start es → start + len es ≤ u64_max → batch_contiguous (cell <$> es) = true.
Proof.
  revert start. induction es as [|e es IH]; intros start; [done|].
  rewrite contiguous_cons. intros [He H] Hb. destruct es as [|e' es]; [done|].
  assert (start + 1 + len (e' :: es) ≤ u64_max) as Hb' by (unfold len in *; simpl in *; lia).
  specialize (IH _ H Hb'). rewrite fmap_cons. cbn [batch_contiguous]. rewrite fmap_cons in *.
  rewrite IH, andb_true_r. apply N.eqb_eq. simpl.
  apply contiguous_cons in H as [He' _]. unfold saturating_succ. rewrite He, He'.
  rewrite (proj2 (N.ltb_lt _ _)); [done|]. unfold len in *. simpl in *. lia.
Qed.

(** ** Write operations *)

Definition run_op (op : LogOp) (d : Database) : result unit StorageIOError * Database :=
  match op with
  | OpAppend es => let '(r, _, d) := append es d in (r, d)
  | OpTruncate i => truncate i d
  | OpPurge i => purge i d
  | OpSaveVote v => save_vote v d
  | OpSaveCommitted c => save_committed c d
  end.

(** A write transaction whose update carries the representation over. *)
Lemma write_simulates f d g g' subject :
  log_rep (db_tables d) g → log_rep (f (db_tables d)) g' →
  let '(r, d') := db_write f d in
  match storage_error subject r with
  | Ok _ => log_rep (db_tables d') g'
  | Err _ => log_rep (db_tables d') g ∨ log_rep (db_tables d') g'
  end.
Proof.
  intros H H'. destruct (db_write f d) as [[[]|e] d'] eqn:E; simpl.
  - by rewrite (db_write_ok _ _ _ E).
  - destruct (db_write_err _ _ _ _ E) as [-> | ->]; auto.
Qed.

Ltac keep_meta := rewrite ?lookup_insert_eq, ?lookup_insert_ne by done.

Lemma append_rep es t g :
  log_rep t g → op_ok (OpAppend es) g →
  log_rep (with_log (log_insert_all (cell <$> es) (tb_log t)) t) (spec_op (OpAppend es) g).
Proof.
  intros [Hl Hc Hb ???] [He Hbe]. destruct g as [start entries purged vote committed]; simpl in *.
  assert (contiguous start (entries ++ es)) as Hce by (by apply contiguous_app).
  constructor; simpl; [|done| |done..].
  - by eapply insert_cells.
  - unfold rl_end, len in *. simpl in *. rewrite length_app. lia.
Qed.

Lemma truncate_rep i t g :
  log_rep t g →
  log_rep (with_log (log_retain (λ k, k < li_index i) (tb_log t)) t) (spec_op (OpTruncate i) g).
Proof.
  intros [Hl Hc Hb ???]. destruct g as [start entries purged vote committed]; simpl in *.
  constructor; simpl; [|by apply contiguous_take| |done..].
  - unfold log_retain. rewrite bmap_iter_filter, Hl.
    etrans; [apply (filter_cells (λ k, k < li_index i))|]. f_equal. by apply (filter_below start).
  - unfold rl_end, len in *. simpl in *. rewrite length_take. lia.
Qed.

Lemma purge_rep i t g :
  log_rep t g → op_ok (OpPurge i) g →
  log_rep (with_meta (<[LAST_PURGED_KEY := encoded (log_id_to_vec i)]> (tb_meta t))
             (with_log (log_retain (λ k, li_index i < k) (tb_log t)) t)) (spec_op (OpPurge i) g).
Proof.
  intros [Hl Hc Hb ???] [Hi Hm]. destruct g as [start entries purged vote committed]; simpl in *.
  constructor; simpl; keep_meta; try done.
  - unfold log_retain. rewrite bmap_iter_filter, Hl.
    etrans; [apply (filter_cells (λ k, li_index i < k))|]. f_equal. by apply (filter_above start).
  - replace (li_index i + 1) with (start + N.of_nat (N.to_nat (li_index i + 1 - start))) at 1 by lia.
    by apply contiguous_drop.
  - unfold rl_end, len in *. simpl in *. rewrite length_drop. lia.
Qed.

Lemma vote_rep v t g :
  log_rep t g →
  log_rep (with_meta (<[VOTE_KEY := encoded (vote_to_vec v)]> (tb_meta t)) t) (spec_op (OpSaveVote v) g).
Proof.
  intros []. destruct g; simpl in *. constructor; simpl; keep_meta; done.
Qed.

Lemma committed_rep c t g :
  log_rep t g →
  log_rep (with_meta (<[COMMITTED_KEY := committed_cell c]> (tb_meta t)) t)
    (spec_op (OpSaveCommitted c) g).
Proof.
  intros []. destruct g; simpl in *. constructor; simpl; keep_meta; done.
Qed.

(** The operation is one write transaction; [H] says what its update represents. *)
Ltac by_transaction subject Hr H :=
  lazymatch goal with |- context [db_write ?f ?d] =>
    let Hw := fresh in pose proof (write_simulates f d _ _ subject Hr H) as Hw;
    destruct (db_write f d); exact Hw end.

(** One step of the simulation. *)
Lemma run_op_simulates op d g :
  log_rep (db_tables d) g → op_ok op g →
  let '(r, d') := run_op op d in
  match r with
  | Ok _ => log_rep (db_tables d') (spec_op op g)
  | Err _ => log_rep (db_tables d') g ∨ log_rep (db_tables d') (spec_op op g)
  end.
Proof.
  intros Hr Hok. destruct op as [es|i|i|v|c]; cbn [run_op].
  - pose proof (append_rep es _ _ Hr Hok) as Hr'. unfold append. rewrite encode_entries_ok.
    unfold append_log_batch. case_bool_decide as He.
    { apply fmap_nil_inv in He as ->. simpl. simpl in Hr'. by destruct (db_tables d). }
    destruct Hok as [Hc Hb]. rewrite (batch_ok _ _ Hc Hb). cbn [negb].
    by_transaction SubjWriteLogs Hr Hr'.
  - unfold truncate, truncate_from.
    by_transaction SubjWriteLogs Hr (truncate_rep i _ _ Hr).
  - unfold purge, purge_through_and_write_meta. rewrite (proj1 (encoded_log_id i)). simpl.
    by_transaction SubjWriteLogs Hr (purge_rep i _ _ Hr Hok).
  - unfold save_vote, write_meta. rewrite (proj1 (encoded_vote v)). simpl.
    by_transaction SubjWriteVote Hr (vote_rep v _ _ Hr).
  - unfold save_committed, log_write_meta, write_meta. rewrite committed_encoded. simpl.
    by_transaction SubjWrite Hr (committed_rep c _ _ Hr).
Qed.

(** ** Read operations *)

Lemma try_map_cells es : try_map (λ kv, decode_stored_log_entry kv.1 kv.2) (cell <$> es) = Ok es.
Proof. rewrite (try_map_fmap _ cell id es) by (intros; apply decode_cell). by rewrite list_fmap_id. Qed.

(** The bounds as the store sees them select the same entries. *)
Lemma normalize_range_spec s e i :
  i ≤ u64_max → s ≠ Excluded u64_max → (∀ v, s = Excluded v → v ≤ u64_max) →
  ∃ r, normalize_range s e = Ok r ∧
    match r with
    | None => after_start s i && before_end e i = false
    | Some (a, b) => in_range a b i = after_start s i && before_end e i
    end.
Proof.
  intros Hi Hs Hv. unfold normalize_range.
  assert (∃ a, match s with Unbounded => Ok 0 | Included v => Ok v
     | Excluded v => ok_or (checked_add v 1) "excluded Raft range start overflows u64" end = Ok a ∧
     (a <=? i) = after_start s i) as (a & -> & Ha).
  { destruct s as [|v|v]; simpl; [by exists 0; destruct i|by exists v|].
    specialize (Hv v eq_refl). assert (v ≠ u64_max) by congruence.
    exists (v + 1). unfold checked_add. rewrite (proj2 (N.leb_le _ _)) by lia. split; [done|].
    apply Bool.eq_iff_eq_true. rewrite N.leb_le, N.ltb_lt. lia. }
  set (b := match e with Unbounded => None | Included v => checked_add v 1 | Excluded v => Some v end).
  assert ((match b with Some x => i <? x | None => true end) = before_end e i) as Hb.
  { unfold b. destruct e as [|v|v]; simpl; try done. unfold checked_add.
    destruct (N.leb_spec (v + 1) u64_max); apply Bool.eq_iff_eq_true; rewrite ?N.leb_le, ?N.ltb_lt;
      [lia|]. split; [intros; lia|done]. }
  destruct (match b with Some x => x <=? a | None => false end) eqn:Hemp.
  - eexists. split; [done|]. simpl. rewrite <-Ha, <-Hb. destruct b as [x|]; [|done].
    apply N.leb_le in Hemp. destruct (N.leb_spec a i), (N.ltb_spec i x); simpl; try done. lia.
  - eexists. split; [done|]. simpl. unfold in_range. by rewrite Ha, Hb.
Qed.

Lemma read_range_rep s e d t g :
  log_rep (db_tables d) g → db_read d = Ok t →
  s ≠ Excluded u64_max → (∀ v, s = Excluded v → v ≤ u64_max) →
  try_get_log_entries s e d = Ok (spec_range s e g).
Proof.
  intros Hr Hd Hs Hv. pose proof (db_read_ok _ _ Hd) as ->. destruct Hr as [Hl Hc Hb _ _ _].
  assert (∀ x, x ∈ rl_entries g → index x ≤ u64_max) as Hix.
  { intros x Hx. pose proof (contiguous_bounds _ _ _ Hc Hx). unfold rl_end in Hb. lia. }
  pose proof (λ i Hi, normalize_range_spec s e i Hi Hs Hv) as Hn. unfold try_get_log_entries, spec_range.
  destruct (Hn 0 ltac:(done)) as (r & Hr & _). rewrite Hr in *. cbn [storage_error map_err].
  assert (∀ x, x ∈ rl_entries g → match r with
     | None => after_start s (index x) && before_end e (index x) = false
     | Some (a, b) => in_range a b (index x) = after_start s (index x) && before_end e (index x) end) as Hx.
  { intros x Hx. destruct (Hn (index x) (Hix x Hx)) as (r' & [= <-] & ?). done. }
  destruct r as [[a b]|].
  - unfold read_log_range. rewrite Hd. cbn [storage_error map_err]. unfold log_range. rewrite Hl.
    rewrite (filter_cells (λ i, in_range a b i = true)), try_map_cells. simpl. f_equal.
    apply filter_ext_in. intros x Hin. by rewrite Hx.
  - f_equal. symmetry. apply filter_none, Forall_forall. intros x Hin. by rewrite Hx.
Qed.

Lemma log_state_rep d t g :
  log_rep (db_tables d) g → db_read d = Ok t → get_log_state d = Ok (spec_log_state g).
Proof.
  intros Hr Hd. pose proof (db_read_ok _ _ Hd) as ->. destruct Hr as [Hl _ _ Hp _ _].
  unfold get_log_state, log_read_meta, read_meta, read_last_log. rewrite Hd. cbn [storage_error map_err].
  rewrite Hp. destruct (rl_purged g) as [i|] eqn:Ei; cbn [fmap option_fmap option_map];
    rewrite ?(proj2 (encoded_log_id _)); cbn [storage_error map_err map_ok];
    unfold log_last, spec_log_state; rewrite Hl, fmap_last, Ei;
    destruct (last (rl_entries g)) as [e|]; cbn [fmap option_fmap option_map]; try done.
  all: pose proof (decode_cell e) as He; unfold cell in *; cbn [fst snd] in He; by rewrite He.
Qed.

Lemma vote_read_rep d t g :
  log_rep (db_tables d) g → db_read d = Ok t → read_vote d = Ok (rl_vote g).
Proof.
  intros Hr Hd. pose proof (db_read_ok _ _ Hd) as ->. unfold read_vote, read_meta. rewrite Hd.
  cbn [storage_error map_err]. rewrite (lr_vote _ _ Hr). destruct (rl_vote g) as [v|]; [|done].
  cbn [fmap option_fmap option_map]. by rewrite (proj2 (encoded_vote v)).
Qed.

(** What reading the commit pointer answers.  A cleared pointer is stored as
    [null], which is not a log id. *)
Definition committed_reads (saved : option (option LogId))
    (r : result (option LogId) StorageIOError) : Prop :=
  match saved with
  | None => r = Ok None
  | Some (Some i) => r = Ok (Some i)
  | Some None => ∃ e, r = Err e
  end.

Lemma committed_read_rep d t g :
  log_rep (db_tables d) g → db_read d = Ok t → committed_reads (rl_committed g) (read_committed d).
Proof.
  intros Hr Hd. pose proof (db_read_ok _ _ Hd) as ->. unfold read_committed, log_read_meta, read_meta.
  rewrite Hd. cbn [storage_error map_err]. rewrite (lr_committed _ _ Hr).
  destruct (rl_committed g) as [[i|]|]; cbn [fmap option_fmap option_map committed_cell]; [| |done].
  - by rewrite (proj2 (encoded_log_id i)).
  - destruct log_id_not_null as (e & ->). by eexists.
Qed.

End refinement.
