(* ===== verification/Observation.v ===== *)
(** * The observation cell ([agent-broker-consensus/src/raft_observation.rs])

    The replica publishes the committed state to synchronous readers through one
    lock and four atomics.  [update] is a sequence of single stores; readers may
    load between any two of them.  Loads and stores are interleaved on one
    memory: acquire loads of released stores, by a single writer. *)

From S2P Require Import Prelude Values Task Group Messages Machine Recovery.

Record RaftBrokerObservation := {
  ob_term : N;
  ob_revision : N;
  ob_directory : ConsumerGroupDirectory;
  ob_has_applied_index : bool;
  ob_applied_index : N;
}.

Definition Observation_new (s : BrokerState) (applied_index : option N) : RaftBrokerObservation := {|
  ob_term := s_term s; ob_revision := s_revision s; ob_directory := group_directory s;
  ob_has_applied_index := bool_decide (is_Some applied_index);
  ob_applied_index := default 0 applied_index |}.

(** ** Updates, store by store *)

Inductive ObsStore :=
  | StoreDirectory (d : ConsumerGroupDirectory)
  | StoreTerm (t : N)
  | StoreRevision (r : N)
  | StoreHas (b : bool)
  | StoreIndex (i : N).

Definition store (st : ObsStore) (o : RaftBrokerObservation) : RaftBrokerObservation :=
  let 'Build_RaftBrokerObservation t r d h i := o in
  match st with
  | StoreDirectory d => Build_RaftBrokerObservation t r d h i
  | StoreTerm t => Build_RaftBrokerObservation t r d h i
  | StoreRevision r => Build_RaftBrokerObservation t r d h i
  | StoreHas h => Build_RaftBrokerObservation t r d h i
  | StoreIndex i => Build_RaftBrokerObservation t r d h i
  end.

Definition update_stores (s : BrokerState) (applied_index : option N) : list ObsStore :=
  [StoreDirectory (group_directory s); StoreTerm (s_term s); StoreRevision (s_revision s);
   StoreHas false] ++
  match applied_index with Some i => [StoreIndex i; StoreHas true] | None => [] end%list.

Definition Observation_update (s : BrokerState) (applied_index : option N)
    (o : RaftBrokerObservation) : RaftBrokerObservation :=
  foldl (λ o st, store st o) o (update_stores s applied_index).

(** ** Readers *)

Definition term_value (o : RaftBrokerObservation) : N := ob_term o.
Definition observed_revision (o : RaftBrokerObservation) : Revision := ob_revision o.
Definition observed_directory (o : RaftBrokerObservation) : ConsumerGroupDirectory := ob_directory o.
Definition validated_term (o : RaftBrokerObservation) : result Term FencingValueError :=
  Term_new (term_value o).

(** [applied_index] is two loads, which may see different moments. *)
Definition applied_index (first second : RaftBrokerObservation) : option N :=
  if ob_has_applied_index first then Some (ob_applied_index second) else None.

(** A completed update shows exactly the state it was given. *)
Lemma update_is_new s i o :
  match i with
  | Some _ => Observation_update s i o = Observation_new s i
  | None => ob_has_applied_index (Observation_update s i o) = false ∧
            ob_term (Observation_update s i o) = s_term s ∧
            ob_revision (Observation_update s i o) = s_revision s ∧
            ob_directory (Observation_update s i o) = group_directory s
  end.
Proof. by destruct o, i. Qed.

(** ** The writer as a transition system *)

(** The cell, the updates begun so far (the initial value first), and the stores
    of the last one that are still to come. *)
Record Writer := {
  wr_cell : RaftBrokerObservation;
  wr_updates : list (BrokerState * option N);
  wr_pending : list ObsStore;
}.

Definition writer_start (s : BrokerState) (i : option N) : Writer :=
  {| wr_cell := Observation_new s i; wr_updates := [(s, i)]; wr_pending := [] |}.

Inductive writer_step : Writer → Writer → Prop :=
  | step_begin cell updates s i :
      writer_step {| wr_cell := cell; wr_updates := updates; wr_pending := [] |}
        {| wr_cell := cell; wr_updates := (updates ++ [(s, i)])%list; wr_pending := update_stores s i |}
  | step_store cell updates st rest :
      writer_step {| wr_cell := cell; wr_updates := updates; wr_pending := st :: rest |}
        {| wr_cell := store st cell; wr_updates := updates; wr_pending := rest |}.

(** The versions of the four values: the update each was stored by. *)
Record Versions := { ve_directory : nat; ve_term : nat; ve_revision : nat; ve_index : nat }.

Definition versions_le (v v' : Versions) : Prop :=
  (ve_directory v ≤ ve_directory v')%nat ∧ (ve_term v ≤ ve_term v')%nat ∧
  (ve_revision v ≤ ve_revision v')%nat ∧ (ve_index v ≤ ve_index v')%nat.

(** Which stores are to come, given the newest update and the versions. *)
Inductive phase (n : nat) (s : BrokerState) (i : option N) (v : Versions) : list ObsStore → Prop :=
  | phase_idle : phase n s i v []
  | phase_begun : phase n s i v (update_stores s i)
  | phase_directory : ve_directory v = n → phase n s i v (drop 1 (update_stores s i))
  | phase_term : ve_directory v = n → ve_term v = n → phase n s i v (drop 2 (update_stores s i))
  | phase_revision : ve_directory v = n → ve_term v = n → ve_revision v = n →
      phase n s i v (drop 3 (update_stores s i))
  | phase_cleared j : i = Some j → ve_directory v = n → ve_term v = n → ve_revision v = n →
      phase n s i v [StoreIndex j; StoreHas true]
  | phase_index j : i = Some j → ve_index v = n → phase n s i v [StoreHas true].

Definition is_indexed (us : list (BrokerState * option N)) (n : nat) : Prop :=
  ∃ s i, us !! n = Some (s, Some i).

Record writer_inv (w : Writer) (v : Versions) : Prop := {
  wi_directory : ∃ s i, wr_updates w !! ve_directory v = Some (s, i) ∧
                        ob_directory (wr_cell w) = group_directory s;
  wi_term : ∃ s i, wr_updates w !! ve_term v = Some (s, i) ∧ ob_term (wr_cell w) = s_term s;
  wi_revision : ∃ s i, wr_updates w !! ve_revision v = Some (s, i) ∧
                       ob_revision (wr_cell w) = s_revision s;
  wi_index : ∃ s i, wr_updates w !! ve_index v = Some (s, i) ∧
                    ob_applied_index (wr_cell w) = default 0 i;
  wi_order : (ve_index v ≤ ve_revision v)%nat ∧ (ve_revision v ≤ ve_term v)%nat ∧
             (ve_term v ≤ ve_directory v)%nat;
  wi_has : ob_has_applied_index (wr_cell w) = true → is_indexed (wr_updates w) (ve_index v);
  wi_phase : ∃ us s i, wr_updates w = (us ++ [(s, i)])%list ∧ phase (length us) s i v (wr_pending w);
}.

Lemma writer_start_inv s i : writer_inv (writer_start s i) (Build_Versions 0 0 0 0).
Proof.
  constructor; simpl; try (by exists s, i); [done| |].
  - rewrite bool_decide_eq_true. intros [j ->]. by exists s, j.
  - exists [], s, i. split; [done|]. constructor.
Qed.

Lemma newest (us : list (BrokerState * option N)) x : (us ++ [x])%list !! length us = Some x.
Proof. by rewrite lookup_app_r, Nat.sub_diag by lia. Qed.

Lemma is_indexed_app us x n : is_indexed us n → is_indexed (us ++ [x])%list n.
Proof. intros (s & i & Hn). exists s, i. by apply lookup_app_l_Some. Qed.

(** Beginning an update changes no value. *)
Lemma begin_inv cell us s i v :
  writer_inv (Build_Writer cell us []) v →
  writer_inv (Build_Writer cell (us ++ [(s, i)])%list (update_stores s i)) v.
Proof.
  intros [Hd Ht Hr Hi Ho Hh _]. constructor; simpl in *; [| | | |done| |].
  1-4: destruct Hd as (? & ? & ? & ?), Ht as (? & ? & ? & ?), Hr as (? & ? & ? & ?), Hi as (? & ? & ? & ?);
    eexists _, _; split; [by apply lookup_app_l_Some|done].
  - intros H%Hh. by apply is_indexed_app.
  - exists us, s, i. split; [done|]. constructor.
Qed.

Lemma version_bound w v : writer_inv w v → (ve_directory v < length (wr_updates w))%nat.
Proof. intros [(? & ? & H%lookup_lt_Some & _) _ _ _ _ _ _]. done. Qed.

Lemma newest_indexed us s j : is_indexed (us ++ [(s, Some j)])%list (length us).
Proof. exists s, j. apply newest. Qed.

(** Each store moves one value to the newest version, and the order of the
    stores keeps the versions ordered. *)
Lemma store_inv cell us st rest v :
  writer_inv (Build_Writer cell us (st :: rest)) v →
  ∃ v', writer_inv (Build_Writer (store st cell) us rest) v' ∧ versions_le v v' ∧
    (is_indexed us (ve_index v) → is_indexed us (ve_index v')).
Proof.
  intros Hinv. pose proof (version_bound _ _ Hinv) as Hlt.
  destruct Hinv as [Hd Ht Hr Hi Ho Hh (us' & s & i & Hus & Hph)]. simpl in *. subst us.
  rewrite length_app in Hlt. simpl in Hlt. destruct cell as [t r d h x], v as [vd vt vr vi]. simpl in *.
  set (n := length us') in *. pose proof (newest us' (s, i)) as Hnew. fold n in Hnew.
  inversion Hph as [|Heq|He Heq|He1 He2 Heq|He1 He2 He3 Heq|j Hj He1 He2 He3 Heq|j Hj He Heq];
    simpl in *; simplify_eq/=.
  - exists (Build_Versions n vt vr vi). split; [|split; [unfold versions_le; simpl; lia|by eauto using newest_indexed]].
    constructor; simpl; eauto; [lia|]. exists us', s, i. split; [done|]. by apply phase_directory.
  - exists (Build_Versions n n vr vi). split; [|split; [unfold versions_le; simpl; lia|by eauto using newest_indexed]].
    constructor; simpl; eauto; [lia|]. exists us', s, i. split; [done|]. by apply phase_term.
  - exists (Build_Versions n n n vi). split; [|split; [unfold versions_le; simpl; lia|by eauto using newest_indexed]].
    constructor; simpl; eauto; [lia|]. exists us', s, i. split; [done|]. by apply phase_revision.
  - exists (Build_Versions n n n vi). split; [|split; [unfold versions_le; simpl; lia|by eauto using newest_indexed]].
    constructor; simpl; eauto; try done; try lia. exists us', s, i. split; [done|].
    destruct i as [j|]; [by apply (phase_cleared _ _ _ _ j)|constructor].
  - exists (Build_Versions n n n n). split; [|split; [unfold versions_le; simpl; lia|by eauto using newest_indexed]].
    constructor; simpl; eauto; try lia; [by exists s, j|].
    exists us', s, (Some j). split; [done|]. by apply (phase_index _ _ _ _ j).
  - exists (Build_Versions vd vt vr n). split; [|split; [unfold versions_le; simpl; lia|by eauto using newest_indexed]].
    constructor; simpl; eauto; try lia; [by exists s, j|]. exists us', s, (Some j). split; [done|]. constructor.
Qed.

Lemma writer_step_inv w w' v :
  writer_inv w v → writer_step w w' →
  ∃ v', writer_inv w' v' ∧ versions_le v v' ∧
    (is_indexed (wr_updates w) (ve_index v) → is_indexed (wr_updates w') (ve_index v')).
Proof.
  intros Hinv Hst. destruct Hst.
  - exists v. split; [by apply begin_inv|]. unfold versions_le. split; [lia|]. apply is_indexed_app.
  - by apply store_inv.
Qed.

Lemma writer_steps_inv w w' v :
  writer_inv w v → rtc writer_step w w' →
  ∃ v', writer_inv w' v' ∧ versions_le v v' ∧
    (is_indexed (wr_updates w) (ve_index v) → is_indexed (wr_updates w') (ve_index v')).
Proof.
  intros Hinv Hst. revert v Hinv. induction Hst as [|w w1 w' Hst _ IH]; intros v Hinv.
  - exists v. split; [done|]. unfold versions_le. split; [lia|done].
  - destruct (writer_step_inv _ _ _ Hinv Hst) as (v1 & H1 & Hle & Hix).
    destruct (IH v1 H1) as (v' & H' & Hle' & Hix'). exists v'. split; [done|].
    unfold versions_le in *. split; [lia|auto].
Qed.

(** Nothing that was begun is forgotten. *)
Lemma updates_grow w w' n u :
  rtc writer_step w w' → wr_updates w !! n = Some u → wr_updates w' !! n = Some u.
Proof.
  induction 1 as [|w w1 w' Hst _ IH]; [done|]. intros Hn. apply IH.
  destruct Hst; simpl in *; [by apply lookup_app_l_Some|done].
Qed.

(** ** What a reader may rely on *)

(** Later updates carry later log indexes, terms and revisions. *)
Definition history_ordered (us : list (BrokerState * option N)) : Prop :=
  ∀ n m s s' i i', (n < m)%nat → us !! n = Some (s, i) → us !! m = Some (s', i') →
    s_term s ≤ s_term s' ∧ s_revision s ≤ s_revision s' ∧
    (∀ a b, i = Some a → i' = Some b → a < b).

Lemma history_le us n m s s' i i' :
  history_ordered us → (n ≤ m)%nat → us !! n = Some (s, i) → us !! m = Some (s', i') →
  s_term s ≤ s_term s' ∧ s_revision s ≤ s_revision s'.
Proof.
  intros Ho Hle Hn Hm. destruct (decide (n = m)) as [->|]; [by simplify_eq|].
  destruct (Ho n m s s' i i') as (? & ? & _); [lia|done..].
Qed.

(** A reader that sees an applied index (its flag loaded at one moment, the
    index at a later one) and then loads the group directory, the term and the
    revision gets values at least as new as those published with that index,
    whatever the writer does in between. *)
Theorem observed_index_is_backed s0 i0 w0 w1 w2 n s i :
  rtc writer_step (writer_start s0 i0) w0 → rtc writer_step w0 w1 → rtc writer_step w1 w2 →
  history_ordered (wr_updates w2) →
  applied_index (wr_cell w0) (wr_cell w1) = Some i → wr_updates w1 !! n = Some (s, Some i) →
  s_term s ≤ term_value (wr_cell w2) ∧ s_revision s ≤ observed_revision (wr_cell w2) ∧
  ∃ m s' i', (n ≤ m)%nat ∧ wr_updates w2 !! m = Some (s', i') ∧
    observed_directory (wr_cell w2) = group_directory s'.
Proof.
  intros H0 H1 H2 Ho Happ Hn. unfold applied_index in Happ.
  destruct (ob_has_applied_index (wr_cell w0)) eqn:Hhas; [|done]. injection Happ as Hi.
  destruct (writer_steps_inv _ _ _ (writer_start_inv s0 i0) H0) as (v0 & I0 & _).
  destruct (writer_steps_inv _ _ _ I0 H1) as (v1 & I1 & _ & Hix).
  destruct (Hix (wi_has _ _ I0 Hhas)) as (sx & x & Hx).
  destruct (wi_index _ _ I1) as (? & ? & Hx' & Hval). rewrite Hx in Hx'. simplify_eq/=.
  pose proof (updates_grow _ _ _ _ H2 Hn) as Hn2. pose proof (updates_grow _ _ _ _ H2 Hx) as Hx2.
  assert (ve_index v1 = n) as <-.
  { destruct (lt_eq_lt_dec (ve_index v1) n) as [[Hlt|]|Hlt]; [|done|].
    - destruct (Ho _ _ _ _ _ _ Hlt Hx2 Hn2) as (_ & _ & Hab). specialize (Hab _ _ eq_refl eq_refl). lia.
    - destruct (Ho _ _ _ _ _ _ Hlt Hn2 Hx2) as (_ & _ & Hab). specialize (Hab _ _ eq_refl eq_refl). lia. }
  destruct (writer_steps_inv _ _ _ I1 H2) as (v2 & I2 & Hle & _). unfold versions_le in Hle.
  pose proof (wi_order _ _ I1) as Ho1. destruct I2 as [(sd & id & Hd & Ed) (st & it & Ht & Et) (sr & ir & Hr & Er) _ _ _ _].
  unfold term_value, observed_revision, observed_directory. rewrite Et, Er, Ed. split_and!.
  - eapply (history_le _ _ _ _ _ _ _ Ho); [|exact Hn2|exact Ht]. lia.
  - eapply (history_le _ _ _ _ _ _ _ Ho); [|exact Hn2|exact Hr]. lia.
  - exists (ve_directory v2), sd, id. split_and!; [lia|done..].
Qed.

(** A reader during the second of two updates. *)
Definition observed_state (r : N) : BrokerState := set_revision r BrokerState_default.

Definition first_update : Writer :=
  {| wr_cell := Observation_new (observed_state 3) (Some 7);
     wr_updates := [(BrokerState_default, None); (observed_state 3, Some 7)]; wr_pending := [] |}.

Definition second_update : Writer :=
  {| wr_cell := store (StoreHas false) (store (StoreRevision 4) (store (StoreTerm 1)
       (store (StoreDirectory (group_directory (observed_state 4))) (wr_cell first_update))));
     wr_updates := (wr_updates first_update ++ [(observed_state 4, Some 8)])%list;
     wr_pending := [StoreIndex 8; StoreHas true] |}.


Lemma observed_index_is_backed_witness :
  s_term (observed_state 3) ≤ term_value (wr_cell second_update) ∧
  s_revision (observed_state 3) ≤ observed_revision (wr_cell second_update) ∧
  ∃ m s' i', (1 ≤ m)%nat ∧ wr_updates second_update !! m = Some (s', i') ∧
    observed_directory (wr_cell second_update) = group_directory s'.
Proof.
  apply (observed_index_is_backed BrokerState_default None first_update first_update second_update 1
    (observed_state 3) 7).
  - eapply rtc_l; [apply (step_begin _ _ (observed_state 3) (Some 7))|].
    do 6 (eapply rtc_l; [apply step_store|]). apply rtc_refl.
  - apply rtc_refl.
  - eapply rtc_l; [apply (step_begin _ _ (observed_state 4) (Some 8))|].
    do 4 (eapply rtc_l; [apply step_store|]). apply rtc_refl.
  - intros [|[|[|n]]] [|[|[|m]]] s s' i i' Hlt Hn Hm; simpl in *; simplify_eq; try lia;
      (split_and!; [by vm_compute|by vm_compute|intros ????; simplify_eq; lia]).
  - reflexivity.
  - reflexivity.
Defined.
