(* ===== verification/Replica.v ===== *)
(** * The replica ([agent-broker-consensus/src/raft_state_machine.rs])

    The state machine OpenRaft drives: it applies log entries to the broker and
    the sessions, saves and installs snapshots, and publishes what it applied.
    Its persistence is the database passed along. *)

From stdpp Require Import pretty.
From S2P Require Import Prelude Values Task Group Messages Machine Recovery Spec Invariant Effect.
From S2P Require Import Broker RecoveryProps Stale Valid Display Wire Replicated ReplicatedProps.
From S2P Require Import Sessions SessionsProps RaftSnapshot LogStorage LogStorageProps Observation.

Definition SNAPSHOT_META_KEY : string := "snapshot_meta_v1".
Definition SNAPSHOT_DATA_KEY : string := "snapshot_data_v1".

Section replica.
Context `{R : RaftTypes} `{J : !RaftJson} `{D : Redb} `{Sj : JsonCodec} `{C : SidecarCodec}.

Record AgentBrokerRaftStateMachine := {
  rs_machine : SessionMachine;
  rs_observation : RaftBrokerObservation;
  rs_last_applied : option LogId;
  rs_last_membership : StoredMembership;
}.

Definition rs_state (r : AgentBrokerRaftStateMachine) : BrokerState :=
  m_state (sm_broker (rs_machine r)).

(** ** The saved snapshot *)

Definition persist_snapshot (meta : SnapshotMeta) (data : bytes) (d : Database) :
    result unit StorageIOError * Database :=
  let? encoded_meta := storage_error (SubjWriteSnapshot (Some meta)) (meta_to_vec meta) else d in
  let '(r, d) := write_meta_pair SNAPSHOT_META_KEY encoded_meta SNAPSHOT_DATA_KEY data d in
  (storage_error (SubjWriteSnapshot (Some meta)) r, d).

Definition read_snapshot_pair (d : Database) : result (option (SnapshotMeta * bytes)) StorageIOError :=
  let^ stored := storage_error SubjRead (read_meta_pair SNAPSHOT_META_KEY SNAPSHOT_DATA_KEY d) in
  match stored with
  | (None, None) => Ok None
  | (Some encoded_meta, Some data) =>
      let^ meta := storage_error SubjRead (meta_from_slice encoded_meta) in
      Ok (Some (meta, data))
  | _ => storage_error SubjRead (Err "persisted Raft snapshot metadata/data pair is incomplete")
  end.

Definition snapshot_id (last_applied : option LogId) (revision : N) : string :=
  match last_applied with
  | Some log_id => "agent-broker-" +:+ leader_id_fmt (li_leader_id log_id) +:+ "-" +:+
                   pretty (li_index log_id) +:+ "-" +:+ pretty revision
  | None => "agent-broker-empty-" +:+ pretty revision
  end.

(** ** Start *)

Definition load (observation : RaftBrokerObservation) (d : Database) :
    result AgentBrokerRaftStateMachine StorageIOError :=
  let^ persisted := read_snapshot_pair d in
  match persisted with
  | Some (meta, data) =>
      let^ decoded := storage_error (SubjReadSnapshot (Some meta)) (decode_consensus_snapshot data) in
      let^ broker := storage_error SubjReadStateMachine
                       (map_err to_string (from_checkpoint (dc_checkpoint decoded))) in
      Ok {| rs_machine := MkSessions broker (dc_command_sessions decoded);
            rs_observation := Observation_update (m_state broker)
              (li_index <$> sn_last_log_id meta) observation;
            rs_last_applied := sn_last_log_id meta;
            rs_last_membership := sn_last_membership meta |}
  | None =>
      let checkpoint := BrokerState_checkpoint BrokerState_default in
      let^ broker := storage_error SubjReadStateMachine
                       (map_err to_string (from_checkpoint checkpoint)) in
      Ok {| rs_machine := MkSessions broker ∅;
            rs_observation := Observation_update (m_state broker) None observation;
            rs_last_applied := None;
            rs_last_membership := StoredMembership_default |}
  end.

(** ** Applying entries *)

Definition applied_state (r : AgentBrokerRaftStateMachine) : option LogId * StoredMembership :=
  (rs_last_applied r, rs_last_membership r).

(** One turn of the loop of [apply]. *)
Definition apply_entry (entry : Entry) (r : AgentBrokerRaftStateMachine) :
    result ReplicatedBrokerResponseV1 StorageIOError * AgentBrokerRaftStateMachine :=
  let log_id := en_log_id entry in
  let finish machine membership :=
    {| rs_machine := machine;
       rs_observation := Observation_update (m_state (sm_broker machine)) (Some (li_index log_id))
         (rs_observation r);
       rs_last_applied := Some log_id; rs_last_membership := membership |} in
  match en_payload entry with
  | PayloadBlank => (Ok RaftControl, finish (rs_machine r) (rs_last_membership r))
  | PayloadMembership membership =>
      (Ok RaftControl, finish (rs_machine r)
         {| sb_log_id := Some log_id; sb_membership := membership |})
  | PayloadNormal data =>
      match apply_proposal data (rs_machine r) with
      | (Ok response, machine) => (Ok response, finish machine (rs_last_membership r))
      | (Err e, machine) =>
          (storage_error SubjReadStateMachine (Err e),
           {| rs_machine := machine; rs_observation := rs_observation r;
              rs_last_applied := rs_last_applied r; rs_last_membership := rs_last_membership r |})
      end
  end.

Fixpoint apply_entries (entries : list Entry) (r : AgentBrokerRaftStateMachine) :
    result (list ReplicatedBrokerResponseV1) StorageIOError * AgentBrokerRaftStateMachine :=
  match entries with
  | [] => (Ok [], r)
  | entry :: entries =>
      let! response, r := apply_entry entry r in
      let! responses, r := apply_entries entries r in
      (Ok (response :: responses), r)
  end.

(** ** Snapshots *)

Record AgentBrokerRaftSnapshotBuilder := {
  bd_checkpoint : BrokerCheckpoint;
  bd_command_sessions : Sessions;
  bd_last_applied : option LogId;
  bd_last_membership : StoredMembership;
}.

Definition get_snapshot_builder (r : AgentBrokerRaftStateMachine) : AgentBrokerRaftSnapshotBuilder :=
  {| bd_checkpoint := BrokerState_checkpoint (rs_state r);
     bd_command_sessions := sm_sessions (rs_machine r);
     bd_last_applied := rs_last_applied r; bd_last_membership := rs_last_membership r |}.

Definition build_snapshot (b : AgentBrokerRaftSnapshotBuilder) (d : Database) :
    result Snapshot StorageIOError * Database :=
  let? data := storage_error SubjReadStateMachine
                 (encode_consensus_snapshot (bd_checkpoint b) (bd_command_sessions b)) else d in
  let meta := {| sn_last_log_id := bd_last_applied b; sn_last_membership := bd_last_membership b;
                 sn_snapshot_id := snapshot_id (bd_last_applied b) (bck_revision (bd_checkpoint b)) |} in
  let! _, d := persist_snapshot meta data d in
  (Ok {| sp_meta := meta; sp_data := data |}, d).

Definition begin_receiving_snapshot : bytes := [].

Definition install_snapshot (meta : SnapshotMeta) (data : bytes) (r : AgentBrokerRaftStateMachine)
    (d : Database) : result unit StorageIOError * (AgentBrokerRaftStateMachine * Database) :=
  let? decoded := storage_error (SubjReadSnapshot (Some meta)) (decode_consensus_snapshot data)
    else (r, d) in
  let? replacement := storage_error (SubjReadSnapshot (Some meta))
                        (map_err to_string (from_checkpoint (dc_checkpoint decoded))) else (r, d) in
  match persist_snapshot meta data d with
  | (Err e, d) => (Err e, (r, d))
  | (Ok _, d) =>
      (Ok tt, ({| rs_machine := MkSessions replacement (dc_command_sessions decoded);
                  rs_observation := Observation_update (m_state replacement)
                    (li_index <$> sn_last_log_id meta) (rs_observation r);
                  rs_last_applied := sn_last_log_id meta;
                  rs_last_membership := sn_last_membership meta |}, d))
  end.

Definition get_current_snapshot (d : Database) : result (option Snapshot) StorageIOError :=
  let^ persisted := read_snapshot_pair d in
  match persisted with
  | None => Ok None
  | Some (meta, data) =>
      let^ _ := storage_error (SubjReadSnapshot (Some meta)) (decode_consensus_snapshot data) in
      Ok (Some {| sp_meta := meta; sp_data := data |})
  end.

End replica.

(** * Replicas agree

    A replica that restarts from its saved snapshot, or installs the snapshot of
    another one, behaves on every further log entry like the replica the snapshot
    was taken from; valid entries are always answered. *)

(** ** Machines that cannot be told apart *)

Record same_sessions (m1 m2 : SessionMachine) : Prop := {
  ss_broker : same_machine (sm_broker m1) (sm_broker m2);
  ss_sessions : sm_sessions m2 = sm_sessions m1;
}.

Lemma same_replicated_command c m1 m2 :
  same_sessions m1 m2 →
  (∀ cmd, command_from_replicated c = Ok cmd → admissible cmd (sm_broker m1)) →
  (apply_replicated_command c m2).1 = (apply_replicated_command c m1).1 ∧
  same_sessions (apply_replicated_command c m1).2 (apply_replicated_command c m2).2.
Proof.
  intros [Hb Hs] Ha. unfold apply_replicated_command.
  destruct (command_from_replicated c) as [cmd|e]; [|done]. cbn [invalid_state_machine_data map_err].
  destruct (same_machine_apply cmd _ _ Hb (Ha cmd eq_refl)) as (_ & Hr & Hb').
  destruct (apply cmd (sm_broker m1)) as [r1 b1], (apply cmd (sm_broker m2)) as [r2 b2].
  cbn [fst snd] in *. subst r2. split; [done|]. by constructor.
Qed.

Lemma same_identified i c m1 m2 :
  same_sessions m1 m2 →
  (∀ cmd, command_from_replicated c = Ok cmd → admissible cmd (sm_broker m1)) →
  (apply_identified i c m2).1 = (apply_identified i c m1).1 ∧
  same_sessions (apply_identified i c m1).2 (apply_identified i c m2).2.
Proof.
  intros Hm Ha. pose proof (same_replicated_command c m1 m2 Hm Ha) as [Hr Hm'].
  unfold apply_identified. rewrite (ss_sessions _ _ Hm).
  destruct (check_identity i c (sm_sessions m1)); [done|].
  destruct (apply_replicated_command c m1) as [r1 n1], (apply_replicated_command c m2) as [r2 n2].
  cbn [fst snd] in *. subst r2. destruct r1 as [r|e]; [|done]. destruct Hm' as [Hb Hs].
  split; [done|]. constructor; [done|]. simpl. by rewrite Hs.
Qed.

Lemma same_acquire s e o m1 m2 :
  same_sessions m1 m2 →
  (acquire_command_session_owner s e o m2).1 = (acquire_command_session_owner s e o m1).1 ∧
  same_sessions (acquire_command_session_owner s e o m1).2 (acquire_command_session_owner s e o m2).2.
Proof.
  intros [Hb Hs]. unfold acquire_command_session_owner. rewrite Hs.
  repeat (first [done | (split; [done|by constructor]) | case_match]).
Qed.

(** The proposal's command, if it is one of the domain, is admissible. *)
Definition admissible_proposal (p : ReplicatedBrokerProposalV1) (m : SessionMachine) : Prop :=
  match command_from_replicated (rp_command p) with
  | Ok cmd => admissible cmd (sm_broker m)
  | Err _ => True
  end.

Lemma same_proposal p m1 m2 :
  same_sessions m1 m2 → admissible_proposal p m1 →
  (apply_proposal p m2).1 = (apply_proposal p m1).1 ∧
  same_sessions (apply_proposal p m1).2 (apply_proposal p m2).2.
Proof.
  intros Hm Ha. unfold apply_proposal.
  assert (∀ ic, into_parts p = Ok ic → ic.2 = rp_command p) as Hc.
  { unfold into_parts. intros ic. destruct (rp_identity p); [|by intros [= <-]].
    destruct (identity_from_replicated _); [|done]. by intros [= <-]. }
  destruct (into_parts p) as [[i c]|e]; [|done]. specialize (Hc _ eq_refl). simpl in Hc.
  cbn [invalid_state_machine_data map_err].
  assert (∀ cmd, command_from_replicated c = Ok cmd → admissible cmd (sm_broker m1)) as Hadm.
  { intros cmd E. unfold admissible_proposal in Ha. subst c. by rewrite E in Ha. }
  clear Hc. destruct c; destruct i; try done;
    first [by apply same_acquire | by apply same_identified | by apply same_replicated_command].
Qed.

Section replicas.
Context `{R : RaftTypes}.

Definition same_replica (r1 r2 : AgentBrokerRaftStateMachine) : Prop :=
  same_sessions (rs_machine r1) (rs_machine r2) ∧
  rs_last_applied r2 = rs_last_applied r1 ∧ rs_last_membership r2 = rs_last_membership r1.

(** Every proposal of the entries is valid when its turn comes. *)
Fixpoint valid_entries (es : list Entry) (r : AgentBrokerRaftStateMachine) : Prop :=
  match es with
  | [] => True
  | e :: es =>
      match en_payload e with
      | PayloadNormal p => valid_proposal p (rs_machine r)
      | _ => True
      end ∧ valid_entries es (apply_entry e r).2
  end.

Lemma valid_admissible p m : valid_proposal p m → admissible_proposal p m.
Proof.
  intros [_ Hc]. unfold admissible_proposal.
  destruct (rp_command p); try done; by destruct (command_from_replicated _) in *.
Qed.

Lemma same_entry e r1 r2 :
  same_replica r1 r2 →
  match en_payload e with PayloadNormal p => valid_proposal p (rs_machine r1) | _ => True end →
  (apply_entry e r2).1 = (apply_entry e r1).1 ∧
  same_replica (apply_entry e r1).2 (apply_entry e r2).2.
Proof.
  intros (Hm & Ha & Hb) Hv. unfold apply_entry. destruct (en_payload e) as [|p|ms].
  - split; [done|]. by split_and!.
  - destruct (same_proposal p _ _ Hm (valid_admissible _ _ Hv)) as [Hr Hm'].
    destruct (apply_proposal p (rs_machine r1)) as [x1 n1], (apply_proposal p (rs_machine r2)) as [x2 n2].
    cbn [fst snd] in *. subst x2. destruct x1; (split; [done|]); by split_and!.
  - split; [done|]. by split_and!.
Qed.

Lemma same_entries es r1 r2 :
  same_replica r1 r2 → valid_entries es r1 →
  (apply_entries es r2).1 = (apply_entries es r1).1 ∧
  same_replica (apply_entries es r1).2 (apply_entries es r2).2.
Proof.
  revert r1 r2. induction es as [|e es IH]; intros r1 r2 Hr Hv; [done|]. destruct Hv as [Hv Hvs].
  destruct (same_entry e r1 r2 Hr Hv) as [Hx Hr']. cbn [apply_entries].
  destruct (apply_entry e r1) as [x1 n1], (apply_entry e r2) as [x2 n2]. cbn [fst snd] in *. subst x2.
  destruct x1 as [x|err]; [|done]. destruct (IH n1 n2 Hr' Hvs) as [Hy Hr''].
  destruct (apply_entries es n1) as [y1 k1], (apply_entries es n2) as [y2 k2]. cbn [fst snd] in *.
  subst y2. by destruct y1.
Qed.

(** Valid entries are always answered, one response each. *)
Lemma apply_entry_total e r :
  SessionInv (rs_machine r) →
  match en_payload e with PayloadNormal p => valid_proposal p (rs_machine r) | _ => True end →
  ∃ x r', apply_entry e r = (Ok x, r') ∧ SessionInv (rs_machine r') ∧
    rs_last_applied r' = Some (en_log_id e) ∧
    rs_observation r' = Observation_new (rs_state r') (Some (li_index (en_log_id e))).
Proof.
  intros Hi Hv. unfold apply_entry. destruct (en_payload e) as [|p|ms].
  - eexists _, _. split; [done|]. split_and!; [done..|]. apply (update_is_new _ (Some _)).
  - destruct (apply_proposal_total p _ Hi Hv) as (x & m' & -> & Hi'). eexists _, _. split; [done|].
    split_and!; [done..|]. apply (update_is_new _ (Some _)).
  - eexists _, _. split; [done|]. split_and!; [done..|]. apply (update_is_new _ (Some _)).
Qed.

Lemma apply_entries_total es r :
  SessionInv (rs_machine r) → valid_entries es r →
  ∃ xs r', apply_entries es r = (Ok xs, r') ∧ length xs = length es ∧ SessionInv (rs_machine r') ∧
    rs_last_applied r' = match last es with Some e => Some (en_log_id e) | None => rs_last_applied r end.
Proof.
  revert r. induction es as [|e es IH]; intros r Hi Hv; [by exists [], r|]. destruct Hv as [Hv Hvs].
  destruct (apply_entry_total e r Hi Hv) as (x & r1 & He & Hi1 & Ha1 & _). rewrite He in Hvs.
  destruct (IH r1 Hi1 Hvs) as (xs & r' & Hes & Hlen & Hi' & Ha').
  exists (x :: xs), r'. cbn [apply_entries]. rewrite He, Hes. split_and!; [done|by simpl; f_equal|done|].
  rewrite Ha', last_cons. by destruct (last es).
Qed.

End replicas.

(** ** Composing agreements *)

Lemma same_machine_trans m1 m2 m3 : same_machine m1 m2 → same_machine m2 m3 → same_machine m1 m3.
Proof.
  intros [] []. constructor; [done..|congruence|]. intros ns e He. auto.
Qed.

Lemma same_sessions_refl m : Inv (sm_broker m) → same_sessions m m.
Proof. intros Hi. constructor; [|done]. constructor; [done..|]. by intros ns e. Qed.

Lemma same_sessions_trans m1 m2 m3 : same_sessions m1 m2 → same_sessions m2 m3 → same_sessions m1 m3.
Proof. intros [] []. constructor; [by eapply same_machine_trans|congruence]. Qed.

Lemma same_replica_trans `{RaftTypes} r1 r2 r3 :
  same_replica r1 r2 → same_replica r2 r3 → same_replica r1 r3.
Proof.
  intros (? & ? & ?) (? & ? & ?). split_and!; [by eapply same_sessions_trans|congruence..].
Qed.

Lemma same_sessions_inv m1 m2 : same_sessions m1 m2 → SessionInv m1 → SessionInv m2.
Proof.
  intros [[? ? Hs ?] Ht] []. constructor; [done|by rewrite Hs|by rewrite Ht..].
Qed.

(** ** Snapshots *)

Section snapshots.
Context `{R : RaftTypes} `{J : !RaftJson} `{L : !RaftJsonLaws J} `{D : Redb} `{DL : !RedbLaws D}.
Context `{Sj : JsonCodec} `{SL : !JsonLaws Sj} `{C : SidecarCodec} `{CL : !SidecarLaws C}.

(** A snapshot (its metadata and bytes) of the replica [r]. *)
Definition snapshot_of (r : AgentBrokerRaftStateMachine) (meta : SnapshotMeta) (data : bytes) : Prop :=
  sn_last_log_id meta = rs_last_applied r ∧ sn_last_membership meta = rs_last_membership r ∧
  decode_consensus_snapshot data =
    Ok {| dc_checkpoint := BrokerState_checkpoint (rs_state r);
          dc_command_sessions := sm_sessions (rs_machine r) |}.

Lemma encode_decodes m b :
  SessionInv m →
  encode_consensus_snapshot (BrokerState_checkpoint (m_state (sm_broker m))) (sm_sessions m) = Ok b →
  len b ≤ u64_max →
  decode_consensus_snapshot b = Ok {| dc_checkpoint := BrokerState_checkpoint (m_state (sm_broker m));
                                      dc_command_sessions := sm_sessions m |}.
Proof.
  intros Hi He Hlen. destruct (consensus_snapshot_reads_back m Hi) as (bs & sc & Hbs & Hsc & Hrt).
  assert (CONSENSUS_SNAPSHOT_HEADER_BYTES + len bs + len sc ≤ u64_max) as Hfit.
  { unfold encode_consensus_snapshot in He. fold (sidecar_of (sm_sessions m)) in He.
    rewrite Hbs, Hsc in He. cbn [map_err] in He. unfold length_to_u64 in He.
    destruct (len bs <=? u64_max); [|done]. destruct (len sc <=? u64_max); [|done].
    apply (f_equal (λ r, match r with Ok b => len b | Err _ => 0 end)) in He.
    unfold len in *. rewrite !length_app, !to_be_bytes_length in He.
    change (length CONSENSUS_SNAPSHOT_MAGIC) with 8%nat in He.
    unfold CONSENSUS_SNAPSHOT_HEADER_BYTES. lia. }
  destruct (Hrt Hfit) as (b' & Hb' & Hd). congruence.
Qed.

(** The tables hold a snapshot that [P] is true of, or none. *)
Definition saved (P : SnapshotMeta → bytes → Prop) (t : Tables) : Prop :=
  (tb_meta t !! SNAPSHOT_META_KEY = None ∧ tb_meta t !! SNAPSHOT_DATA_KEY = None) ∨
  ∃ meta data, tb_meta t !! SNAPSHOT_META_KEY = Some (encoded (meta_to_vec meta)) ∧
    tb_meta t !! SNAPSHOT_DATA_KEY = Some data ∧ P meta data.

Lemma encoded_meta m : meta_to_vec m = Ok (encoded (meta_to_vec m)) ∧
  meta_from_slice (encoded (meta_to_vec m)) = Ok m.
Proof. destruct (meta_json m) as (b & -> & ?). done. Qed.

Lemma persist_snapshot_saves (P : SnapshotMeta → bytes → Prop) meta data d :
  saved P (db_tables d) → P meta data → saved P (db_tables (persist_snapshot meta data d).2).
Proof.
  intros Hs HP. unfold persist_snapshot. rewrite (proj1 (encoded_meta meta)). cbn [storage_error map_err].
  unfold write_meta_pair. match goal with |- context [db_write ?f d] => set (up := f) end.
  assert (saved P (up (db_tables d))) as Hup.
  { right. exists meta, data. unfold up. simpl. by rewrite lookup_insert_ne, !lookup_insert_eq. }
  destruct (db_write up d) as [[[]|e] d'] eqn:E; simpl.
  - by rewrite (db_write_ok _ _ _ E).
  - by destruct (db_write_err _ _ _ _ E) as [-> | ->].
Qed.

(** Log operations leave the snapshot alone. *)
Definition snapshot_cells (t : Tables) : option bytes * option bytes :=
  (tb_meta t !! SNAPSHOT_META_KEY, tb_meta t !! SNAPSHOT_DATA_KEY).

Lemma saved_cells (P : SnapshotMeta → bytes → Prop) t t' :
  snapshot_cells t' = snapshot_cells t → saved P t → saved P t'.
Proof. unfold snapshot_cells, saved. by intros [= -> ->]. Qed.

Lemma write_frame f d :
  (∀ t, snapshot_cells (f t) = snapshot_cells t) →
  snapshot_cells (db_tables (db_write f d).2) = snapshot_cells (db_tables d).
Proof.
  intros Hf. destruct (db_write f d) as [[[]|e] d'] eqn:E; simpl.
  - by rewrite (db_write_ok _ _ _ E).
  - by destruct (db_write_err _ _ _ _ E) as [-> | ->].
Qed.

Ltac by_frame :=
  lazymatch goal with |- context [db_write ?f ?d] =>
    let H := fresh in pose proof (write_frame f d) as H; destruct (db_write f d); apply H;
    intros t; unfold snapshot_cells; simpl; by rewrite ?lookup_insert_ne by done end.

Lemma run_op_frame op d :
  snapshot_cells (db_tables (run_op op d).2) = snapshot_cells (db_tables d).
Proof.
  destruct op as [es|i|i|v|c]; cbn [run_op].
  - unfold append. destruct (encode_entries es) as [cells|[]]; [|done]. unfold append_log_batch.
    case_bool_decide; [done|]. destruct (negb _); [done|]. by_frame.
  - unfold truncate, truncate_from. by_frame.
  - unfold purge, purge_through_and_write_meta. destruct (log_id_to_vec i); [|done]. simpl. by_frame.
  - unfold save_vote, write_meta. destruct (vote_to_vec v); [|done]. simpl. by_frame.
  - unfold save_committed, log_write_meta, write_meta.
    destruct (match c with Some _ => _ | None => _ end); [|done]. simpl. by_frame.
Qed.

Lemma run_ops_frame ops d :
  snapshot_cells (db_tables (foldl (λ d op, (run_op op d).2) d ops)) = snapshot_cells (db_tables d).
Proof.
  revert d. induction ops as [|op ops IH]; intros d; [done|]. simpl. by rewrite IH, run_op_frame.
Qed.

(** Restoring a snapshot gives a machine that agrees with its replica. *)
Lemma machine_restores r :
  SessionInv (rs_machine r) →
  ∃ b, from_checkpoint (BrokerState_checkpoint (rs_state r)) = Ok b ∧
    same_sessions (rs_machine r) (MkSessions b (sm_sessions (rs_machine r))).
Proof.
  intros Hi. destruct (recover_same _ (xi_broker _ Hi)) as (b & Hb & Hm).
  exists b. split; [done|]. by constructor.
Qed.

(** A saved snapshot loads as a replica that agrees with its own. *)
Lemma load_saved r observation d t :
  SessionInv (rs_machine r) → saved (snapshot_of r) (db_tables d) → db_read d = Ok t →
  tb_meta (db_tables d) !! SNAPSHOT_DATA_KEY ≠ None →
  ∃ r', load observation d = Ok r' ∧ same_replica r r'.
Proof.
  intros Hi Hs Hd Hsome. pose proof (db_read_ok _ _ Hd) as ->.
  destruct Hs as [[_ ?]|(meta & data & Hm & Hda & Hl & Hmem & Hdec)]; [done|].
  unfold load, read_snapshot_pair, read_meta_pair. rewrite Hd. cbn [storage_error map_err].
  rewrite Hm, Hda, (proj2 (encoded_meta meta)). cbn [storage_error map_err]. rewrite Hdec.
  cbn [storage_error map_err dc_checkpoint dc_command_sessions].
  destruct (machine_restores r Hi) as (b & -> & Hb). eexists. split; [done|]. by split_and!.
Qed.

(** Building a snapshot saves it. *)
Lemma build_saves r d0 snap d1 :
  SessionInv (rs_machine r) → build_snapshot (get_snapshot_builder r) d0 = (Ok snap, d1) →
  len (sp_data snap) ≤ u64_max →
  snapshot_of r (sp_meta snap) (sp_data snap) ∧
  snapshot_cells (db_tables d1) = (Some (encoded (meta_to_vec (sp_meta snap))), Some (sp_data snap)).
Proof.
  intros Hi. unfold build_snapshot.
  destruct (encode_consensus_snapshot _ _) as [data|] eqn:He; [|done]. cbn [storage_error map_err].
  match goal with |- context [persist_snapshot ?m data d0] => set (meta := m) end.
  unfold persist_snapshot. rewrite (proj1 (encoded_meta meta)). cbn [storage_error map_err].
  unfold write_meta_pair. destruct (db_write _ d0) as [[[]|] d'] eqn:E; [|done].
  intros [= <- <-] Hlen. split.
  - split_and!; [done..|]. by apply (encode_decodes _ _ Hi He).
  - rewrite (db_write_ok _ _ _ E). unfold snapshot_cells. simpl. by rewrite lookup_insert_ne, !lookup_insert_eq.
Qed.

End snapshots.
