(* ===== verification/Cluster.v ===== *)
(** * A cluster of replicas

    The nodes of a cluster around one agreed log: each applies a prefix of the
    log, builds snapshots, installs snapshots of other nodes, crashes and starts
    again.  The agreed log is what OpenRaft provides: the entries it hands to a
    replica follow the last one the replica applied. *)

From S2P Require Import Prelude Values Task Group Messages Machine Recovery Spec Invariant Effect.
From S2P Require Import Broker RecoveryProps Stale Scenarios Valid Display Wire Replicated.
From S2P Require Import ReplicatedProps Sessions SessionsProps RaftSnapshot LogStorage.
From S2P Require Import LogStorageProps Observation Replica.

Section cluster.
Context `{R : RaftTypes} `{J : !RaftJson} `{L : !RaftJsonLaws J} `{D : Redb} `{DL : !RedbLaws D}.
Context `{Sj : JsonCodec} `{SL : !JsonLaws Sj} `{C : SidecarCodec} `{CL : !SidecarLaws C}.

(** ** Nodes and steps *)

(** A node: its replica while it runs, the snapshot builders it handed out, and
    its database. *)
Record Node := {
  nd_replica : option AgentBrokerRaftStateMachine;
  nd_builders : list AgentBrokerRaftSnapshotBuilder;
  nd_db : Database;
}.

Record Cluster := {
  cl_nodes : gmap N Node;
  cl_snapshots : list Snapshot;
}.

(** The entries of the agreed log after a position. *)
Definition entries_after (log : list Entry) (last : option LogId) : list Entry :=
  match last with
  | None => log
  | Some id => filter (λ e, li_index id < li_index (en_log_id e)) log
  end.

Section steps.
Context (log : list Entry).

Definition set_node (i : N) (nd : Node) (c : Cluster) : Cluster :=
  {| cl_nodes := <[i := nd]> (cl_nodes c); cl_snapshots := cl_snapshots c |}.

Inductive cluster_step (c : Cluster) : Cluster → Prop :=
  | cs_start i bs d observation r :
      cl_nodes c !! i = Some (Build_Node None bs d) → load observation d = Ok r →
      cluster_step c (set_node i (Build_Node (Some r) [] d) c)
  | cs_crash i nd :
      cl_nodes c !! i = Some nd → cluster_step c (set_node i (Build_Node None [] (nd_db nd)) c)
  | cs_apply i r bs d es rest :
      cl_nodes c !! i = Some (Build_Node (Some r) bs d) →
      entries_after log (rs_last_applied r) = (es ++ rest)%list →
      cluster_step c (set_node i (Build_Node (Some (apply_entries es r).2) bs d) c)
  | cs_builder i r bs d :
      cl_nodes c !! i = Some (Build_Node (Some r) bs d) →
      cluster_step c (set_node i (Build_Node (Some r) (get_snapshot_builder r :: bs) d) c)
  | cs_build i r bs b d snap d' :
      cl_nodes c !! i = Some (Build_Node (Some r) bs d) → b ∈ bs →
      build_snapshot b d = (Ok snap, d') → len (sp_data snap) ≤ u64_max →
      cluster_step c {| cl_nodes := <[i := Build_Node (Some r) bs d']> (cl_nodes c);
                        cl_snapshots := snap :: cl_snapshots c |}
  | cs_install i r bs d snap res r' d' :
      cl_nodes c !! i = Some (Build_Node (Some r) bs d) → snap ∈ cl_snapshots c →
      install_snapshot (sp_meta snap) (sp_data snap) r d = (res, (r', d')) →
      cluster_step c (set_node i (Build_Node (Some r') bs d') c)
  | cs_log i nd op :
      cl_nodes c !! i = Some nd →
      cluster_step c (set_node i (Build_Node (nd_replica nd) (nd_builders nd) (run_op op (nd_db nd)).2) c).

(** The cluster before anything happened: no node runs, no snapshot is saved. *)
Definition cluster_start (c : Cluster) : Prop :=
  cl_snapshots c = [] ∧
  map_Forall (λ _ nd, nd_replica nd = None ∧ nd_builders nd = [] ∧
    tb_meta (db_tables (nd_db nd)) !! SNAPSHOT_META_KEY = None ∧
    tb_meta (db_tables (nd_db nd)) !! SNAPSHOT_DATA_KEY = None) (cl_nodes c).

(** ** The replica after a prefix of the log *)

Definition fresh_replica : AgentBrokerRaftStateMachine :=
  {| rs_machine := MkSessions BrokerStateMachine_default ∅;
     rs_observation := Observation_new BrokerState_default None;
     rs_last_applied := None; rs_last_membership := StoredMembership_default |}.

Definition replay (n : nat) : AgentBrokerRaftStateMachine :=
  (apply_entries (take n log) fresh_replica).2.

(** The agreed log: consecutive indexes, and valid proposals in their turn. *)
Hypothesis Hlog : contiguous 0 log.
Hypothesis Hvalid : valid_entries log fresh_replica.

Lemma fresh_inv : SessionInv (rs_machine fresh_replica).
Proof.
  constructor; simpl; [apply default_inv|by_compute|apply map_Forall_empty|done].
Qed.

Lemma apply_entries_app es1 es2 r :
  SessionInv (rs_machine r) → valid_entries (es1 ++ es2) r →
  valid_entries es1 r ∧ valid_entries es2 (apply_entries es1 r).2 ∧
  (apply_entries (es1 ++ es2) r).2 = (apply_entries es2 (apply_entries es1 r).2).2.
Proof.
  revert r. induction es1 as [|e es1 IH]; intros r Hi Hv; [done|]. destruct Hv as [Hv Hvs].
  destruct (apply_entry_total e r Hi Hv) as (x & r1 & He & Hi1 & _). cbn [app].
  cbn [apply_entries valid_entries]. rewrite He in *. cbn [snd] in *.
  destruct (IH r1 Hi1 Hvs) as (H1 & H2 & H3).
  destruct (apply_entries_total es1 r1 Hi1 H1) as (xs & r2 & Ha & _). rewrite Ha in *. cbn [snd] in *.
  split_and!; [done|done|done|]. by destruct (apply_entries (es1 ++ es2)%list r1) as [[]], (apply_entries es2 r2) as [[]].
Qed.

(** A longer prefix is reached from a shorter one. *)
Lemma replay_extend n es rest :
  drop n log = (es ++ rest)%list →
  valid_entries es (replay n) ∧ replay (n + length es) = (apply_entries es (replay n)).2.
Proof.
  intros Hd. assert (log = (take n log ++ es) ++ rest)%list as Heq.
  { rewrite <-app_assoc, <-Hd. by rewrite take_drop. }
  pose proof Hvalid as Hv. rewrite Heq in Hv.
  apply apply_entries_app in Hv as (Hv & _ & _); [|apply fresh_inv].
  pose proof (apply_entries_app _ _ _ fresh_inv Hv) as (_ & Hes & Hrun). split; [done|].
  unfold replay. rewrite <-Hrun. f_equal. f_equal.
  by rewrite <-take_take_drop, Hd, take_app_length.
Qed.

Lemma replay_inv n : SessionInv (rs_machine (replay n)).
Proof.
  pose proof Hvalid as Hv. rewrite <-(take_drop n log) in Hv.
  apply apply_entries_app in Hv as (Hv & _ & _); [|apply fresh_inv].
  destruct (apply_entries_total _ _ fresh_inv Hv) as (xs & r' & Hr & _ & Hi & _).
  unfold replay. by rewrite Hr.
Qed.

Lemma replay_last n :
  rs_last_applied (replay n) = en_log_id <$> last (take n log).
Proof.
  pose proof Hvalid as Hv. rewrite <-(take_drop n log) in Hv.
  apply apply_entries_app in Hv as (Hv & _ & _); [|apply fresh_inv].
  destruct (apply_entries_total _ _ fresh_inv Hv) as (xs & r' & Hr & _ & _ & Ha).
  unfold replay. rewrite Hr. simpl. rewrite Ha. by destruct (last _).
Qed.

(** A replica knows its position in the log. *)
Lemma replay_position n :
  (n ≤ length log)%nat → entries_after log (rs_last_applied (replay n)) = drop n log.
Proof.
  intros Hn. rewrite replay_last. destruct n as [|n]; [by rewrite take_0|].
  destruct (lookup_lt_is_Some_2 log n Hn) as [e He].
  rewrite (take_S_r _ _ _ He), last_snoc. simpl.
  rewrite (filter_above 0 log _ Hlog), (Hlog n e He). f_equal. lia.
Qed.

Lemma replay_last_inj n m :
  (n ≤ length log)%nat → (m ≤ length log)%nat →
  rs_last_applied (replay n) = rs_last_applied (replay m) → n = m.
Proof.
  intros Hn Hm Heq. pose proof (replay_position n Hn) as H1. rewrite Heq, replay_position in H1 by done.
  apply (f_equal length) in H1. rewrite !length_drop in H1. lia.
Qed.

(** ** The invariant *)

Definition replica_good (r : AgentBrokerRaftStateMachine) : Prop :=
  ∃ n, (n ≤ length log)%nat ∧ same_replica (replay n) r.

Definition snapshot_good (meta : SnapshotMeta) (data : bytes) : Prop :=
  ∃ n, (n ≤ length log)%nat ∧ snapshot_of (replay n) meta data.

Definition builder_good (b : AgentBrokerRaftSnapshotBuilder) : Prop :=
  ∃ n, (n ≤ length log)%nat ∧ b = get_snapshot_builder (replay n).

Record node_good (nd : Node) : Prop := {
  ng_replica : match nd_replica nd with None => True | Some r => replica_good r end;
  ng_builders : Forall builder_good (nd_builders nd);
  ng_db : saved snapshot_good (db_tables (nd_db nd));
}.

Definition cluster_good (c : Cluster) : Prop :=
  map_Forall (λ _ nd, node_good nd) (cl_nodes c) ∧
  Forall (λ s, snapshot_good (sp_meta s) (sp_data s)) (cl_snapshots c).

Lemma fresh_agrees observation :
  same_replica (replay 0)
    {| rs_machine := MkSessions BrokerStateMachine_default ∅; rs_observation := observation;
       rs_last_applied := None; rs_last_membership := StoredMembership_default |}.
Proof.
  unfold replay. rewrite take_0. split_and!; [|done..]. apply same_sessions_refl, default_inv.
Qed.

Lemma fresh_checkpoint :
  from_checkpoint (BrokerState_checkpoint BrokerState_default) = Ok BrokerStateMachine_default.
Proof. by vm_compute. Qed.

(** Starting from the saved snapshot. *)
Lemma load_good observation d r :
  saved snapshot_good (db_tables d) → load observation d = Ok r → replica_good r.
Proof.
  intros Hs. unfold load, read_snapshot_pair, read_meta_pair.
  destruct (db_read d) as [t|] eqn:Hd; [|done]. pose proof (db_read_ok _ _ Hd) as ->.
  cbn [storage_error map_err]. destruct Hs as [[-> ->]|(meta & data & -> & -> & n & Hn & Hl & Hm & Hdec)].
  - rewrite fresh_checkpoint. intros [= <-]. exists 0%nat. split; [lia|apply fresh_agrees].
  - rewrite (proj2 (encoded_meta meta)). cbn [storage_error map_err]. rewrite Hdec.
    cbn [storage_error map_err dc_checkpoint dc_command_sessions].
    destruct (machine_restores _ (replay_inv n)) as (b & -> & Hb).
    intros [= <-]. exists n. split; [done|]. by split_and!.
Qed.

Lemma install_good meta data r d res r' d' :
  saved snapshot_good (db_tables d) → snapshot_good meta data → replica_good r →
  install_snapshot meta data r d = (res, (r', d')) →
  replica_good r' ∧ saved snapshot_good (db_tables d').
Proof.
  intros Hs Hg Hr. pose proof (persist_snapshot_saves snapshot_good meta data d Hs Hg) as Hp.
  destruct Hg as (n & Hn & Hl & Hm & Hdec). unfold install_snapshot. rewrite Hdec.
  cbn [storage_error map_err dc_checkpoint dc_command_sessions].
  destruct (machine_restores _ (replay_inv n)) as (b & -> & Hb). cbn [map_err].
  destruct (persist_snapshot meta data d) as [[[]|e] d1]; intros [= <- <- <-]; [|done].
  split; [|done]. exists n. split; [done|]. by split_and!.
Qed.

Lemma builder_agrees n r :
  same_replica (replay n) r → get_snapshot_builder r = get_snapshot_builder (replay n).
Proof.
  intros ([[_ _ Hst _] Hse] & Hla & Hme). unfold get_snapshot_builder, rs_state. by rewrite Hst, Hse, Hla, Hme.
Qed.

Lemma build_good b d snap d' :
  saved snapshot_good (db_tables d) → builder_good b → build_snapshot b d = (Ok snap, d') →
  len (sp_data snap) ≤ u64_max →
  snapshot_good (sp_meta snap) (sp_data snap) ∧ saved snapshot_good (db_tables d').
Proof.
  intros Hs (n & Hn & ->). unfold build_snapshot.
  destruct (encode_consensus_snapshot _ _) as [data|] eqn:He; [|done]. cbn [storage_error map_err].
  match goal with |- context [persist_snapshot ?m data d] => set (meta := m) end.
  intros Hb Hlen. assert (snapshot_good meta data) as Hg.
  { exists n. split; [done|]. split_and!; [done..|]. apply (encode_decodes _ _ (replay_inv n) He).
    destruct (persist_snapshot meta data d) as [[[]|] ?]; [|done]. by injection Hb as <- _. }
  pose proof (persist_snapshot_saves snapshot_good meta data d Hs Hg) as Hp.
  destruct (persist_snapshot meta data d) as [[[]|] ?]; [|done]. by injection Hb as <- <-.
Qed.

Lemma apply_good es rest r :
  replica_good r → entries_after log (rs_last_applied r) = (es ++ rest)%list →
  replica_good (apply_entries es r).2.
Proof.
  intros (n & Hn & Hsame) Hes. pose proof Hsame as (_ & Hla & _). rewrite Hla, replay_position in Hes by done.
  destruct (replay_extend n es rest Hes) as [Hv Hrun].
  destruct (same_entries es _ _ Hsame Hv) as [_ Hsame']. exists (n + length es)%nat. rewrite Hrun.
  split; [|done]. apply (f_equal length) in Hes. rewrite length_drop, length_app in Hes. lia.
Qed.

Lemma set_node_good i nd c : cluster_good c → node_good nd → cluster_good (set_node i nd c).
Proof. intros [Hn Hs] Hnd. split; [|done]. by apply map_Forall_insert_2. Qed.

Lemma cluster_step_good c c' : cluster_good c → cluster_step c c' → cluster_good c'.
Proof.
  intros Hc Hst. pose proof Hc as [Hn Hs]. destruct Hst as
    [i bs d obs r Hi Hl|i nd Hi|i r bs d es rest Hi Hes|i r bs d Hi|i r bs b d snap d' Hi Hb Hbuild Hlen
    |i r bs d snap res r' d' Hi Hin Hinst|i nd op Hi]; pose proof (Hn _ _ Hi) as [Hr Hbs Hd]; simpl in *.
  - apply set_node_good; [done|]. constructor; simpl; [by eapply load_good|done..].
  - apply set_node_good; [done|]. by constructor.
  - apply set_node_good; [done|]. constructor; simpl; [by eapply apply_good|done..].
  - apply set_node_good; [done|]. constructor; simpl; [done| |done]. constructor; [|done].
    destruct Hr as (n & Hle & Hsame). exists n. split; [done|]. by apply builder_agrees.
  - rewrite Forall_forall in Hbs. destruct (build_good b d snap d' Hd (Hbs _ Hb) Hbuild Hlen) as [Hg Hd'].
    split; simpl; [|by constructor]. apply map_Forall_insert_2; [|done].
    constructor; simpl; [done|by apply Forall_forall|done].
  - rewrite Forall_forall in Hs. destruct (install_good _ _ _ _ _ _ _ Hd (Hs _ Hin) Hr Hinst).
    apply set_node_good; [done|]. by constructor.
  - apply set_node_good; [done|]. constructor; simpl; [done..|].
    by eapply saved_cells; [apply run_op_frame|].
Qed.

Lemma cluster_start_good c : cluster_start c → cluster_good c.
Proof.
  intros [Hs Hn]. split; [|by rewrite Hs]. intros i nd Hi. destruct (Hn i nd Hi) as (Hr & Hb & Hm & Hd).
  constructor; [by rewrite Hr|by rewrite Hb|]. by left.
Qed.

Lemma cluster_reachable_good c0 c : cluster_start c0 → rtc cluster_step c0 c → cluster_good c.
Proof.
  intros H0 Hst. apply cluster_start_good in H0. revert H0.
  induction Hst as [|c c1 c' Hst _ IH]; [done|]. intros Hc. by eapply IH, cluster_step_good.
Qed.

End steps.
End cluster.
