(* ===== verification/Consensus.v ===== *)
(** * What replication guarantees

    The main theorems about sessions, replicas, log storage and snapshots, each
    with a concrete instance. *)

From stdpp Require Import pretty.
From S2P Require Import Prelude Values Task Group Messages Machine Recovery Spec Invariant Effect.
From S2P Require Import Broker RecoveryProps Stale Scenarios Valid Display Wire Replicated.
From S2P Require Import ReplicatedProps Sessions SessionsProps RaftSnapshot LogStorage.
From S2P Require Import LogStorageProps Observation Replica Cluster.

(** ** Concrete libraries

    Instances of the interfaces of OpenRaft's types, their JSON codec and the
    database, to evaluate replicas and to show that the laws can hold. *)

(** Leaders are numbered by term; a membership lists the voters. *)
#[export] Instance simple_raft : RaftTypes := {|
  LeaderId := N; Membership := list N; Vote := N; leader_id_fmt := pretty; membership_default := [];
|}.

#[export] Instance leader_eq_dec : EqDecision (@LeaderId simple_raft) := N.eq_dec.
#[export] Instance leader_countable : Countable (@LeaderId simple_raft) := N_countable.
#[export] Instance membership_eq_dec : EqDecision (@Membership simple_raft) := list_eq_dec.
#[export] Instance membership_countable : Countable (@Membership simple_raft) := list_countable.

#[export] Instance log_id_eq_dec : EqDecision (@LogId simple_raft).
Proof. intros [a b] [c d]. unfold Decision. decide equality; apply N.eq_dec. Defined.
#[export] Instance log_id_countable : Countable (@LogId simple_raft).
Proof.
  refine (inj_countable' (λ i, (li_leader_id i, li_index i))
    (λ '(a, b), {| li_leader_id := a; li_index := b |}) _). by intros [].
Defined.

#[export] Instance identity_eq_dec : EqDecision ReplicatedCommandIdentityV1.
Proof. solve_decision. Defined.
#[export] Instance identity_countable : Countable ReplicatedCommandIdentityV1.
Proof.
  refine (inj_countable' (λ i, (ri_session_id i, ri_owner_epoch i, ri_owner_instance_id i, ri_sequence i))
    (λ '(a, b, c, d), {| ri_session_id := a; ri_owner_epoch := b; ri_owner_instance_id := c;
                         ri_sequence := d |}) _). by intros [].
Defined.

#[export] Instance proposal_eq_dec : EqDecision ReplicatedBrokerProposalV1.
Proof. solve_decision. Defined.
#[export] Instance proposal_countable : Countable ReplicatedBrokerProposalV1.
Proof.
  refine (inj_countable' (λ p, (rp_identity p, rp_command p))
    (λ '(a, b), {| rp_identity := a; rp_command := b |}) _). by intros [].
Defined.

Abbreviation payload_cells := (unit + (ReplicatedBrokerProposalV1 + list N))%type.

Definition entry_cells (e : @Entry simple_raft) : @LogId simple_raft * payload_cells :=
  (en_log_id e, match en_payload e with
                | PayloadBlank => inl tt
                | PayloadNormal p => inr (inl p)
                | PayloadMembership m => inr (inr m)
                end).

Definition cells_entry (c : @LogId simple_raft * payload_cells) : @Entry simple_raft :=
  {| en_log_id := c.1; en_payload := match c.2 with
       | inl _ => PayloadBlank | inr (inl p) => PayloadNormal p | inr (inr m) => PayloadMembership m
       end |}.

Lemma cells_entry_cells e : cells_entry (entry_cells e) = e.
Proof. by destruct e as [i []]. Qed.

Definition meta_cells (m : @SnapshotMeta simple_raft) :
    option (@LogId simple_raft) * (option (@LogId simple_raft) * list N) * string :=
  (sn_last_log_id m, (sb_log_id (sn_last_membership m), sb_membership (sn_last_membership m)),
   sn_snapshot_id m).

Definition cells_meta (c : option (@LogId simple_raft) * (option (@LogId simple_raft) * list N) * string) :
    @SnapshotMeta simple_raft :=
  let '(a, (b, m), s) := c in
  {| sn_last_log_id := a; sn_last_membership := {| sb_log_id := b; sb_membership := m |};
     sn_snapshot_id := s |}.

Lemma cells_meta_cells m : cells_meta (meta_cells m) = m.
Proof. by destruct m as [? [] ?]. Qed.

(** A value as a line of digits, through an encoding of it. *)
Definition digits_of {A B} `{Countable B} (f : A → B) (x : A) : result bytes string :=
  Ok (digits (encode (f x))).

Definition of_digits {A B} `{Countable B} (g : B → A) (b : bytes) : result A string :=
  map_ok g (ok_or (undigits b ≫= decode) "not a record").

Lemma of_digits_of {A B} `{Countable B} (f : A → B) (g : B → A) :
  (∀ x, g (f x) = x) → ∀ x, ∃ b, digits_of f x = Ok b ∧ of_digits g b = Ok x.
Proof.
  intros Hgf x. exists (digits (encode (f x))). split; [done|]. unfold of_digits.
  rewrite <-(app_nil_r (digits _)), undigits_digits by done. simpl. rewrite decode_encode. simpl. by rewrite Hgf.
Qed.

#[export] Instance simple_raft_json : @RaftJson simple_raft := {|
  entry_to_vec := digits_of entry_cells; entry_from_slice := of_digits cells_entry;
  log_id_to_vec := digits_of id; log_id_from_slice := of_digits id;
  vote_to_vec := digits_of (id : Vote → N); vote_from_slice := of_digits (id : N → Vote);
  meta_to_vec := digits_of meta_cells; meta_from_slice := of_digits cells_meta;
|}.

#[export] Instance simple_raft_json_laws : RaftJsonLaws simple_raft_json.
Proof.
  split; [apply of_digits_of, cells_entry_cells|by apply of_digits_of|by apply of_digits_of
         |apply of_digits_of, cells_meta_cells|by eexists].
Qed.

(** A database that never fails. *)
#[export] Instance simple_redb : Redb := {|
  Database := Tables; db_tables d := d; db_read d := Ok d; db_write f d := (Ok tt, f d);
|}.

#[export] Instance simple_redb_laws : RedbLaws simple_redb.
Proof. split; [by intros ?? [= ->]|by intros ??? [= <-]|done]. Qed.

Definition empty_tables : Tables := {| tb_log := ∅; tb_meta := ∅ |}.

(** ** Concrete proposals *)

Definition owned (epoch : N) (owner : option string) (sequence : N) : ReplicatedCommandIdentityV1 :=
  {| ri_session_id := "s1"; ri_owner_epoch := epoch; ri_owner_instance_id := owner; ri_sequence := sequence |}.

Definition ensure_proposal (i : option ReplicatedCommandIdentityV1) (ns : string) :
    ReplicatedBrokerProposalV1 :=
  {| rp_identity := i; rp_command := V1EnsureNamespace ns 10 |}.

Definition acquire_proposal (epoch : N) (owner : string) : ReplicatedBrokerProposalV1 :=
  {| rp_identity := None; rp_command := V1AcquireCommandSessionOwner "s1" epoch owner |}.

Definition fresh_sessions : SessionMachine := MkSessions BrokerStateMachine_default ∅.

(** ** Sessions *)

(** What a proposal that carries an identity comes to. *)
Lemma apply_proposal_identified p i ci m :
  rp_identity p = Some i → identity_from_replicated i = Ok ci →
  apply_proposal p m = apply_identified ci (rp_command p) m ∨
  ∃ e, apply_proposal p m = (Err e, m).
Proof.
  intros Hp Hi. unfold apply_proposal, into_parts. rewrite Hp, Hi. cbn [invalid_state_machine_data map_err].
  destruct (rp_command p); eauto.
Qed.

Lemma apply_identified_behind ci c r c2 m :
  spent ci c r (sm_sessions m) →
  (apply_identified ci c2 m).2 = m ∧
  (is_rejection (apply_identified ci c2 m).1 ∨
   ((apply_identified ci c2 m).1 = Ok r ∧ same_identified_request c2 c = true)).
Proof.
  intros Hs. destruct (check_identity_spent _ _ _ _ c2 Hs) as (answer & Hc & Hr).
  unfold apply_identified. rewrite Hc. split; [done|]. exact Hr.
Qed.

(** C5: an identified command takes effect at most once.  After it was answered
    (not rejected), and after any further proposals, proposing a command under
    the same identity again leaves the machine as it is; the answer is a
    rejection, a refusal of the log data, or the first answer again, and the
    latter only for the same client request. *)
Theorem identified_command_applies_once p p2 i m r m' ps :
  rp_identity p = Some i → rp_identity p2 = Some i →
  apply_proposal p m = (Ok r, m') → ¬ is_rejection (Ok r) →
  let m2 := (apply_proposals ps m').2 in
  (apply_proposal p2 m2).2 = m2 ∧
  ∀ r2, (apply_proposal p2 m2).1 = Ok r2 →
    is_rejection (Ok r2) ∨ (r2 = r ∧ client_part (rp_command p2) = client_part (rp_command p)).
Proof.
  intros Hp Hp2 Happ Hrej m2.
  destruct (identity_from_replicated i) as [ci|e] eqn:Hi.
  2: { unfold apply_proposal, into_parts in Happ. by rewrite Hp, Hi in Happ. }
  destruct (apply_proposal_identified p i ci m Hp Hi) as [Heq|[e Heq]]; [|congruence].
  rewrite Heq in Happ. destruct (apply_identified_spent _ _ _ _ _ Happ Hrej) as (c' & Hsame & Hsp).
  pose proof (apply_proposals_spent ps _ _ _ _ Hsp) as Hsp2. fold m2 in Hsp2.
  destruct (apply_proposal_identified p2 i ci m2 Hp2 Hi) as [->|[e ->]]; [|done].
  destruct (apply_identified_behind _ _ _ (rp_command p2) _ Hsp2) as [Hm Hr]. split; [done|].
  intros r2 Hr2. destruct Hr as [Hr|[Hr Hs2]]; [left; by rewrite <-Hr2|]. right. split; [congruence|].
  apply same_identified_request_spec in Hsame, Hs2. congruence.
Qed.

Lemma identified_command_applies_once_witness :
  let p := ensure_proposal (Some (owned 1 None 1)) "a" in
  let m' := (apply_proposal p fresh_sessions).2 in
  let m2 := (apply_proposals [ensure_proposal None "b"] m').2 in
  (apply_proposal p m2).2 = m2 ∧
  ∀ r2, (apply_proposal p m2).1 = Ok r2 →
    is_rejection (Ok r2) ∨
    (Ok r2 = (apply_proposal p fresh_sessions).1 ∧ client_part (rp_command p) = client_part (rp_command p)).
Proof.
  intros p m' m2. destruct (apply_proposal p fresh_sessions) as [[r|e] m1] eqn:E.
  - destruct (identified_command_applies_once p p (owned 1 None 1) fresh_sessions r m1
      [ensure_proposal None "b"] eq_refl eq_refl E) as [H1 H2].
    + intros (err & Herr & _). vm_compute in E. injection E as <- _. discriminate Herr.
    + split; [exact H1|]. intros r2 Hr2. destruct (H2 r2 Hr2) as [?|[-> ?]]; auto.
  - vm_compute in E. discriminate E.
Defined.

(** The identity does not speak for the owner its session obeys. *)
Definition deposed (i : CommandIdentity) (sessions : gmap CommandSessionId CommandSessionRecord) : Prop :=
  ∃ record, sessions !! ci_session_id i = Some record ∧
    (ci_owner_epoch i < cs_owner_epoch record ∨
     (ci_owner_epoch i = cs_owner_epoch record ∧ ci_owner_instance_id i ≠ cs_owner_instance_id record)).

Lemma check_identity_owner i c sessions record :
  check_identity i c sessions = None → sessions !! ci_session_id i = Some record →
  ci_owner_instance_id i = cs_owner_instance_id record.
Proof.
  unfold check_identity. intros H Hr. rewrite Hr in H.
  destruct (negb (_ =? _)); [done|]. by case_bool_decide.
Qed.

Lemma table_step_deposed i sessions sessions' :
  table_step sessions sessions' → deposed i sessions → deposed i sessions'.
Proof.
  intros [->|[(i' & c' & r' & Hc & ->)|(s & epoch & owner & He & ->)]] (record & Hr & Hd);
    [by exists record|..].
  - destruct (decide (ci_session_id i' = ci_session_id i)) as [Heq|Hne].
    + rewrite <-Heq in Hr. destruct (check_identity_none _ _ _ _ Hc Hr) as [Hep _].
      pose proof (check_identity_owner _ _ _ _ Hc Hr) as Hown.
      eexists. rewrite Heq, lookup_insert_eq. split; [done|]. simpl. by rewrite Hep, Hown.
    + exists record. by rewrite lookup_insert_ne.
  - destruct (decide (s = ci_session_id i)) as [->|Hne].
    + eexists. rewrite lookup_insert_eq. split; [done|]. simpl. specialize (He record Hr). left. lia.
    + exists record. by rewrite lookup_insert_ne.
Qed.

Lemma apply_proposals_deposed ps i m :
  deposed i (sm_sessions m) → deposed i (sm_sessions (apply_proposals ps m).2).
Proof.
  revert m. induction ps as [|p ps IH]; intros m Hs; [done|]. simpl.
  pose proof (apply_proposal_step p m) as Hst. destruct (apply_proposal p m) as [r' m'].
  specialize (IH m' (table_step_deposed _ _ _ Hst Hs)). by destruct (apply_proposals ps m').
Qed.

Lemma check_identity_deposed i c sessions :
  deposed i sessions → ∃ answer, check_identity i c sessions = Some answer ∧ is_rejection answer.
Proof.
  intros (record & Hr & Hd). unfold check_identity. rewrite Hr.
  destruct (N.eqb_spec (ci_owner_epoch i) (cs_owner_epoch record)); simpl; [|eauto using rejection].
  rewrite bool_decide_false; [simpl; eauto using rejection|]. destruct Hd as [?|[_ ?]]; [lia|done].
Qed.

(** What an acquisition leaves in the table. *)
Lemma acquire_records s e o n m m' :
  acquire_command_session_owner s e o m = (Ok (SessionOwnerAcquired n), m') →
  ∃ record, sm_sessions m' !! s = Some record ∧ cs_owner_epoch record = n ∧
    cs_owner_instance_id record = Some o.
Proof.
  unfold acquire_command_session_owner.
  destruct (CommandSessionId_new s) as [s'|] eqn:Hs; [|done]. apply session_id_inv in Hs as ->.
  cbn [invalid_state_machine_data map_err]. destruct (SessionOwnerEpoch_new e) as [e'|]; [|done].
  cbn [invalid_state_machine_data map_err].
  destruct (SessionOwnerInstanceId_new o) as [o'|] eqn:Ho; [|done]. apply owner_instance_inv in Ho as ->.
  cbn [invalid_state_machine_data map_err].
  destruct (sm_sessions m !! s) as [record|] eqn:Hlk.
  - case_match eqn:Hown; [intros [= <- <-]; exists record; apply andb_true_iff in Hown as [Hown _];
      apply bool_decide_eq_true in Hown; done|].
    case_match; [done|]. destruct (checked_add (cs_owner_epoch record) 1); [|done].
    destruct (SessionOwnerEpoch_new _) as [next|]; [|done]. cbn [invalid_state_machine_data map_err].
    intros [= <- <-]. eexists. simpl. by rewrite lookup_insert_eq.
  - case_match; [done|]. case_match; [done|]. intros [= <- <-]. eexists. simpl.
    by rewrite lookup_insert_eq.
Qed.

(** C14: once a session has a new owner, every command of an earlier epoch, or of
    another instance in the same epoch, is rejected without effect, now and after
    any further proposals. *)
Theorem deposed_owner_is_fenced s e o n m m' ps p i :
  apply_proposal {| rp_identity := None; rp_command := V1AcquireCommandSessionOwner s e o |} m
    = (Ok (SessionOwnerAcquired n), m') →
  rp_identity p = Some i → ri_session_id i = s →
  (ri_owner_epoch i < n ∨ (ri_owner_epoch i = n ∧ ri_owner_instance_id i ≠ Some o)) →
  let m2 := (apply_proposals ps m').2 in
  (apply_proposal p m2).2 = m2 ∧
  ∀ r, (apply_proposal p m2).1 = Ok r → is_rejection (Ok r).
Proof.
  intros Hacq Hp Hs Hold m2. destruct (acquire_records s e o n m m' Hacq) as (record & Hr & Hn & Ho).
  destruct (identity_from_replicated i) as [ci|err] eqn:Hi.
  2: { unfold apply_proposal, into_parts. rewrite Hp, Hi. done. }
  assert (deposed ci (sm_sessions m')) as Hd.
  { apply identity_from_inv in Hi as ->. exists record. simpl. by rewrite Hs, Hn, Ho. }
  apply (apply_proposals_deposed ps) in Hd. fold m2 in Hd.
  destruct (apply_proposal_identified p i ci m2 Hp Hi) as [->|[x ->]]; [|done].
  destruct (check_identity_deposed _ (rp_command p) _ Hd) as (answer & Hc & Hrej).
  unfold apply_identified. rewrite Hc. split; [done|]. simpl. by intros r <-.
Qed.

Lemma deposed_owner_is_fenced_witness :
  let m' := (apply_proposal (acquire_proposal 1 "new") fresh_sessions).2 in
  let p := ensure_proposal (Some (owned 1 (Some "old") 1)) "a" in
  let m2 := (apply_proposals [ensure_proposal None "b"] m').2 in
  (apply_proposal p m2).2 = m2 ∧
  ∀ r, (apply_proposal p m2).1 = Ok r → is_rejection (Ok r).
Proof.
  intros m' p m2. apply (deposed_owner_is_fenced "s1" 1 "new" 1 fresh_sessions m'
    [ensure_proposal None "b"] p (owned 1 (Some "old") 1)); [vm_compute; reflexivity..|].
  right. split; [reflexivity|discriminate].
Defined.

(** ** Replicas *)

(** C6: replicas that applied the same entry agree.  Let the log be gap-free from
    zero, with every proposal in it valid when its turn comes: a valid identity,
    and a command that is admissible for the broker (a running replica and one
    restored from a snapshot treat other commands differently).  Whatever the nodes
    of a cluster went through (batches of entries, snapshots taken and installed,
    failed writes, crashes and restarts), two running replicas with the same last
    applied log id hold the same broker state, the same sessions and the same
    membership: those obtained by applying the log up to that entry to an empty
    replica. *)
Theorem replicas_agree (R : RaftTypes) (J : RaftJson) (L : RaftJsonLaws J) (D : Redb)
    (DL : RedbLaws D) (Sj : JsonCodec) (SL : JsonLaws Sj) (C : SidecarCodec) (CL : SidecarLaws C)
    log c0 c i j n1 n2 r1 r2 :
  contiguous 0 log → valid_entries log fresh_replica →
  cluster_start c0 → rtc (cluster_step log) c0 c →
  cl_nodes c !! i = Some n1 → nd_replica n1 = Some r1 →
  cl_nodes c !! j = Some n2 → nd_replica n2 = Some r2 →
  rs_last_applied r1 = rs_last_applied r2 →
  ∃ n, let r := (apply_entries (take n log) fresh_replica).2 in
    rs_last_applied r1 = rs_last_applied r ∧
    rs_state r1 = rs_state r ∧ rs_state r2 = rs_state r ∧
    sm_sessions (rs_machine r1) = sm_sessions (rs_machine r) ∧
    sm_sessions (rs_machine r2) = sm_sessions (rs_machine r) ∧
    rs_last_membership r1 = rs_last_membership r ∧ rs_last_membership r2 = rs_last_membership r.
Proof.
  intros Hlog Hv H0 Hst H1 Hr1 H2 Hr2 Hla.
  destruct (cluster_reachable_good log Hlog Hv c0 c H0 Hst) as [Hn _].
  destruct (Hn i n1 H1) as [G1 _ _], (Hn j n2 H2) as [G2 _ _]. rewrite Hr1 in G1. rewrite Hr2 in G2.
  destruct G1 as (a & Ha & [[_ _ S1 _] T1] & L1 & M1), G2 as (b & Hb & [[_ _ S2 _] T2] & L2 & M2).
  assert (a = b) as <-.
  { apply (replay_last_inj log Hlog Hv); [done..|]. congruence. }
  exists a. by split_and!.
Qed.

Definition raft_entry (index : N) (payload : @EntryPayload simple_raft) : @Entry simple_raft :=
  {| en_log_id := {| li_leader_id := 1 : LeaderId; li_index := index |}; en_payload := payload |}.

Definition small_log : list (@Entry simple_raft) :=
  [raft_entry 0 (PayloadMembership ([1; 2] : Membership));
   raft_entry 1 (PayloadNormal (ensure_proposal (Some (owned 1 None 1)) "a"))].

Lemma small_log_contiguous : contiguous 0 small_log.
Proof. intros [|[|k]] e He; simpl in He; simplify_eq/=; done. Qed.

Lemma small_log_valid : valid_entries small_log fresh_replica.
Proof. split; [done|]. split; [|done]. split; [by vm_compute|]. by vm_compute. Qed.

Definition empty_db : @Database simple_redb := empty_tables.

Definition idle_node : Node := Build_Node None [] empty_db.
Definition node_of (r : AgentBrokerRaftStateMachine) (bs : list AgentBrokerRaftSnapshotBuilder)
    (d : Database) : Node := Build_Node (Some r) bs d.

Definition two_nodes : Cluster :=
  {| cl_nodes := {[ 1 := idle_node; 2 := idle_node ]}; cl_snapshots := [] |}.

Definition no_observation : RaftBrokerObservation := Observation_new BrokerState_default None.

(** The first node starts, applies the log and builds a snapshot; the second one
    starts and installs it. *)
Definition started : AgentBrokerRaftStateMachine :=
  match load no_observation empty_db with Ok r => r | Err _ => fresh_replica end.
Definition ahead : AgentBrokerRaftStateMachine := (apply_entries small_log started).2.
Definition built : result Snapshot StorageIOError * Database :=
  build_snapshot (get_snapshot_builder ahead) empty_db.
Definition sent : Snapshot :=
  match built.1 with Ok s => s | Err _ => {| sp_meta := {| sn_last_log_id := None;
    sn_last_membership := StoredMembership_default; sn_snapshot_id := "" |}; sp_data := [] |} end.
Definition caught_up : result unit StorageIOError * (AgentBrokerRaftStateMachine * Database) :=
  install_snapshot (sp_meta sent) (sp_data sent) started empty_db.

Definition one_applied : Cluster :=
  set_node 1 (node_of ahead [get_snapshot_builder ahead] empty_db)
    (set_node 1 (node_of ahead [] empty_db) (set_node 1 (node_of started [] empty_db) two_nodes)).
Definition one_built : Cluster :=
  {| cl_nodes := <[1 := node_of ahead [get_snapshot_builder ahead] built.2]> (cl_nodes one_applied);
     cl_snapshots := sent :: cl_snapshots one_applied |}.
Definition two_nodes_after : Cluster :=
  set_node 2 (node_of caught_up.2.1 [] caught_up.2.2) (set_node 2 (node_of started [] empty_db) one_built).

Lemma two_nodes_run : rtc (cluster_step small_log) two_nodes two_nodes_after.
Proof.
  eapply rtc_l; [by apply (cs_start _ _ 1 [] empty_db no_observation started)|].
  eapply rtc_l; [by apply (cs_apply _ _ 1 started [] empty_db small_log [])|].
  eapply rtc_l; [by apply (cs_builder _ _ 1 ahead [] empty_db)|].
  eapply rtc_l; [apply (cs_build _ _ 1 ahead [get_snapshot_builder ahead] (get_snapshot_builder ahead) empty_db sent built.2);
    [done|by left|by vm_compute|by vm_compute]|].
  eapply rtc_l; [by apply (cs_start _ _ 2 [] empty_db no_observation started)|].
  eapply rtc_l; [|apply rtc_refl].
  apply (cs_install _ _ 2 started [] empty_db sent caught_up.1 caught_up.2.1 caught_up.2.2);
    [done|by left|by vm_compute].
Qed.

Lemma replicas_agree_witness :
  ∃ n, let r := (apply_entries (take n small_log) fresh_replica).2 in
    rs_last_applied ahead = rs_last_applied r ∧
    rs_state ahead = rs_state r ∧ rs_state caught_up.2.1 = rs_state r ∧
    sm_sessions (rs_machine ahead) = sm_sessions (rs_machine r) ∧
    sm_sessions (rs_machine caught_up.2.1) = sm_sessions (rs_machine r) ∧
    rs_last_membership ahead = rs_last_membership r ∧
    rs_last_membership caught_up.2.1 = rs_last_membership r.
Proof.
  apply (replicas_agree simple_raft simple_raft_json simple_raft_json_laws simple_redb simple_redb_laws
    digit_codec digit_laws digit_sidecar digit_sidecar_laws small_log two_nodes two_nodes_after 1 2
    (node_of ahead [get_snapshot_builder ahead] built.2) (node_of caught_up.2.1 [] caught_up.2.2)
    ahead caught_up.2.1).
  - apply small_log_contiguous.
  - apply small_log_valid.
  - split; [reflexivity|]. by_compute.
  - apply two_nodes_run.
  - reflexivity.
  - reflexivity.
  - reflexivity.
  - reflexivity.
  - vm_compute. reflexivity.
Defined.

(** C25: a node that restarts catches up with the node it was.  Take a replica
    with a well-formed session machine that saved a snapshot, of at most 64-bit
    length; let the log storage do any operations after that, which leave a log of
    which the proposals after the snapshot are valid and admissible when their turn
    comes; and restart from the database, which can be read.  Loading succeeds, the
    log storage returns the entries that follow the snapshot, and applying them
    gives the responses, the state, the sessions and the membership of the replica
    that kept running. *)
Theorem restart_catches_up (R : RaftTypes) (J : RaftJson) (L : RaftJsonLaws J) (D : Redb)
    (DL : RedbLaws D) (Sj : JsonCodec) (SL : JsonLaws Sj) (C : SidecarCodec) (CL : SidecarLaws C)
    r observation d0 snap d1 ops g t :
  let d := foldl (λ d op, (run_op op d).2) d1 ops in
  let from := match rs_last_applied r with Some i => Excluded (li_index i) | None => Unbounded end in
  let es := spec_range from Unbounded g in
  SessionInv (rs_machine r) →
  build_snapshot (get_snapshot_builder r) d0 = (Ok snap, d1) → len (sp_data snap) ≤ u64_max →
  log_rep (db_tables d) g → db_read d = Ok t →
  (∀ i, rs_last_applied r = Some i → li_index i < u64_max) → valid_entries es r →
  ∃ r', load observation d = Ok r' ∧ rs_last_applied r' = rs_last_applied r ∧
    try_get_log_entries from Unbounded d = Ok es ∧
    (apply_entries es r').1 = (apply_entries es r).1 ∧
    same_replica (apply_entries es r).2 (apply_entries es r').2.
Proof.
  intros d from es Hi Hbuild Hlen Hrep Hd Hla Hv.
  destruct (build_saves r d0 snap d1 Hi Hbuild Hlen) as [Hsnap Hcells].
  rewrite <-(run_ops_frame ops d1) in Hcells. fold d in Hcells. injection Hcells as Hm Hda.
  destruct (load_saved r observation d t Hi) as (r' & Hl & Hsame); [|done|by rewrite Hda|].
  { right. by exists (sp_meta snap), (sp_data snap). }
  exists r'. split_and!; [done|apply Hsame| |by apply same_entries..].
  apply (read_range_rep _ _ _ t); [done|done|..]; unfold from; destruct (rs_last_applied r) as [i|] eqn:E;
    try done; specialize (Hla i eq_refl).
  - intros [= Hx]. lia.
  - intros v [= <-]. lia.
Qed.

(** A replica saves a snapshot after the first entry; the log goes on and its
    covered part is purged. *)
Definition saver : AgentBrokerRaftStateMachine := (apply_entries (take 1 small_log) fresh_replica).2.
Definition saver_built : result Snapshot StorageIOError * Database :=
  build_snapshot (get_snapshot_builder saver) empty_db.
Definition saver_snapshot : Snapshot := match saver_built.1 with Ok s => s | Err _ => sent end.
Definition saver_ops : list LogOp := [OpAppend small_log; OpPurge (en_log_id (raft_entry 0 PayloadBlank))].
Definition saver_log : RaftLog := foldl (λ g op, spec_op op g) RaftLog_empty saver_ops.
Definition saver_db : Database := foldl (λ d op, (run_op op d).2) saver_built.2 saver_ops.

Lemma saver_inv : SessionInv (rs_machine saver).
Proof. apply (replay_inv small_log small_log_valid 1). Qed.

Lemma saver_rep : log_rep (db_tables saver_db) saver_log.
Proof.
  assert (log_rep (db_tables saver_built.2) RaftLog_empty) as H0.
  { constructor; by vm_compute. }
  assert (log_rep (db_tables (run_op (OpAppend small_log) saver_built.2).2)
    (spec_op (OpAppend small_log) RaftLog_empty)) as H1.
  { refine (run_op_simulates (OpAppend small_log) saver_built.2 RaftLog_empty H0 _).
    split; [apply small_log_contiguous|by vm_compute]. }
  refine (run_op_simulates (OpPurge _) _ _ H1 _). by vm_compute.
Qed.

Lemma restart_catches_up_witness :
  let es := [raft_entry 1 (PayloadNormal (ensure_proposal (Some (owned 1 None 1)) "a"))] in
  ∃ r', load no_observation saver_db = Ok r' ∧ rs_last_applied r' = rs_last_applied saver ∧
    try_get_log_entries (Excluded 0) Unbounded saver_db = Ok es ∧
    (apply_entries es r').1 = (apply_entries es saver).1 ∧
    same_replica (apply_entries es saver).2 (apply_entries es r').2.
Proof.
  apply (restart_catches_up simple_raft simple_raft_json simple_raft_json_laws simple_redb simple_redb_laws
    digit_codec digit_laws digit_sidecar digit_sidecar_laws saver no_observation empty_db saver_snapshot
    saver_built.2 saver_ops saver_log saver_db).
  - apply saver_inv.
  - vm_compute. reflexivity.
  - vm_compute. discriminate.
  - apply saver_rep.
  - reflexivity.
  - intros i Hi. vm_compute in Hi. injection Hi as <-. reflexivity.
  - split; [|exact I]. split; by vm_compute.
Defined.

(** ** The log storage *)

(** What the read operations answer for an abstract log, when the database can
    be read. *)
Definition reads_agree `{R : RaftTypes} `{J : !RaftJson} `{D : Redb} (d : Database) (g : RaftLog) : Prop :=
  ∀ t, db_read d = Ok t →
    get_log_state d = Ok (spec_log_state g) ∧ read_vote d = Ok (rl_vote g) ∧
    committed_reads (rl_committed g) (read_committed d) ∧
    ∀ s e, (∀ v, s = Excluded v → v < u64_max) → try_get_log_entries s e d = Ok (spec_range s e g).

(** C26: the log storage implements Raft's log.  Every write of the log storage
    (append, truncate, purge, save of the vote, and save of the commit pointer,
    present or absent), under what OpenRaft promises of it (entries are appended
    gap-free at the end with indexes that fit 64 bits, and purges go forward), has
    the effect of the abstract operation when it succeeds; when it fails, the
    tables hold the old log or the new one, never a mixture.  In either case every
    later read transaction that succeeds answers from that log: the log state, the
    vote, the entries of a range (whose excluded start, if it has one, is below the
    largest index), and the commit pointer, which reads as what was
    saved last, or as an error once it was saved as absent. *)
Theorem log_storage_implements_raft_log (R : RaftTypes) (J : RaftJson) (L : RaftJsonLaws J) (D : Redb)
    (DL : RedbLaws D) op d g :
  log_rep (db_tables d) g → op_ok op g →
  let '(r, d') := run_op op d in
  match r with
  | Ok _ => log_rep (db_tables d') (spec_op op g) ∧ reads_agree d' (spec_op op g)
  | Err _ => (log_rep (db_tables d') g ∧ reads_agree d' g) ∨
             (log_rep (db_tables d') (spec_op op g) ∧ reads_agree d' (spec_op op g))
  end.
Proof.
  intros Hr Hok. pose proof (run_op_simulates op d g Hr Hok) as Hs.
  assert (∀ d g, log_rep (db_tables d) g → log_rep (db_tables d) g ∧ reads_agree d g) as Hreads.
  { intros d' g' Hr'. split; [done|]. intros t Ht. split_and!.
    - by eapply log_state_rep.
    - by eapply vote_read_rep.
    - by eapply committed_read_rep.
    - intros s e Hv. eapply read_range_rep; [done..| |].
      + intros ->. specialize (Hv _ eq_refl). lia.
      + intros v ->. specialize (Hv _ eq_refl). lia. }
  destruct (run_op op d) as [[]]; [by apply Hreads|]. destruct Hs; [left|right]; by apply Hreads.
Qed.

Lemma log_storage_implements_raft_log_witness :
  let op := OpTruncate (en_log_id (raft_entry 1 PayloadBlank)) in
  let '(r, d') := run_op op saver_db in
  match r with
  | Ok _ => log_rep (db_tables d') (spec_op op saver_log) ∧ reads_agree d' (spec_op op saver_log)
  | Err _ => (log_rep (db_tables d') saver_log ∧ reads_agree d' saver_log) ∨
             (log_rep (db_tables d') (spec_op op saver_log) ∧ reads_agree d' (spec_op op saver_log))
  end.
Proof.
  apply (log_storage_implements_raft_log simple_raft simple_raft_json simple_raft_json_laws simple_redb
    simple_redb_laws); [apply saver_rep|exact I].
Defined.

(** ** Two weak spots *)



(** Saving a snapshot leaves the log alone. *)
Lemma build_frame `{R : RaftTypes} `{J : !RaftJson} `{L : !RaftJsonLaws J} `{D : Redb} `{DL : !RedbLaws D}
    `{Sj : JsonCodec} `{C : SidecarCodec} b d snap d' g :
  log_rep (db_tables d) g → build_snapshot b d = (Ok snap, d') → log_rep (db_tables d') g.
Proof.
  intros [] . unfold build_snapshot, persist_snapshot, write_meta_pair.
  destruct (encode_consensus_snapshot _ _) as [data|]; [|done]. cbn [storage_error map_err].
  destruct (meta_to_vec _) as [m|]; [|done]. cbn [storage_error map_err].
  destruct (db_write _ d) as [[[]|] d1] eqn:E; [|done]. intros [= _ <-].
  rewrite (db_write_ok _ _ _ E). constructor; simpl; rewrite ?lookup_insert_ne by done; done.
Qed.

(** C40: a builder that finishes late loses entries.  Take any node whose database
    holds a snapshot of the replica [newer], with its log purged through the last
    entry [j] of that snapshot, so that a restart comes back at [j].  A builder that
    was taken from an earlier replica [r], at [i] before [j], and is run now
    succeeds: building never compares with the saved snapshot.  A restart after
    that comes back at [i], and no entry from after [i] through [j] is in the log
    any more. *)
Theorem late_builder_loses_entries (R : RaftTypes) (J : RaftJson) (L : RaftJsonLaws J) (D : Redb)
    (DL : RedbLaws D) (Sj : JsonCodec) (SL : JsonLaws Sj) (C : SidecarCodec) (CL : SidecarLaws C)
    r newer observation d snap d' g i j t t' :
  SessionInv (rs_machine r) → SessionInv (rs_machine newer) →
  saved (snapshot_of newer) (db_tables d) → tb_meta (db_tables d) !! SNAPSHOT_DATA_KEY ≠ None →
  log_rep (db_tables d) g → rl_start g = li_index j + 1 →
  rs_last_applied r = Some i → rs_last_applied newer = Some j →
  li_index i < li_index j → li_index j ≤ u64_max →
  build_snapshot (get_snapshot_builder r) d = (Ok snap, d') → len (sp_data snap) ≤ u64_max →
  db_read d = Ok t → db_read d' = Ok t' →
  (∃ r1, load observation d = Ok r1 ∧ rs_last_applied r1 = Some j) ∧
  ∃ r2 es, load observation d' = Ok r2 ∧ rs_last_applied r2 = Some i ∧ same_replica r r2 ∧
    try_get_log_entries (Excluded (li_index i)) Unbounded d' = Ok es ∧
    Forall (λ e, li_index j < li_index (en_log_id e)) es.
Proof.
  intros Hi Hn Hsaved Hdata Hrep Hstart Hri Hnj Hlt Hmax Hb Hlen Ht Ht'. split.
  { destruct (load_saved newer observation d t Hn Hsaved Ht Hdata) as (r1 & Hl & _ & Hla & _).
    exists r1. split; [done|]. congruence. }
  destruct (build_saves r d snap d' Hi Hb Hlen) as [Hsnap [= Hm Hda]].
  destruct (load_saved r observation d' t' Hi) as (r2 & Hl & Hsame); [|done|by rewrite Hda|].
  { right. by exists (sp_meta snap), (sp_data snap). }
  pose proof (build_frame _ _ _ _ _ Hrep Hb) as Hrep'.
  exists r2, (spec_range (Excluded (li_index i)) Unbounded g).
  split_and!; [done| |done| |].
  - destruct Hsame as (_ & Hla & _). congruence.
  - apply (read_range_rep _ _ _ t'); [done..|intros [= ?]; lia|intros v [= <-]; lia].
  - apply Forall_forall. intros e [_ He]%list_elem_of_filter.
    pose proof (contiguous_bounds _ _ _ (lr_contiguous _ _ Hrep) He). lia.
Qed.

(** A node that took a builder after the first entry, then installed a snapshot
    that covers the second one and purged its log. *)
Definition overtaken_ops : list LogOp :=
  [OpAppend small_log; OpPurge (en_log_id (raft_entry 1 PayloadBlank))].
Definition overtaken_db : Database :=
  foldl (λ d op, (run_op op d).2) (install_snapshot (sp_meta sent) (sp_data sent) saver empty_db).2.2
    overtaken_ops.
Definition overtaken_log : RaftLog := foldl (λ g op, spec_op op g) RaftLog_empty overtaken_ops.
Definition late_snapshot : Snapshot :=
  match (build_snapshot (get_snapshot_builder saver) overtaken_db).1 with Ok s => s | Err _ => sent end.
Definition late_db : Database := (build_snapshot (get_snapshot_builder saver) overtaken_db).2.
Definition overtaker : AgentBrokerRaftStateMachine := (apply_entries (take 2 small_log) fresh_replica).2.

Lemma overtaken_rep : log_rep (db_tables overtaken_db) overtaken_log.
Proof.
  set (d := (install_snapshot (sp_meta sent) (sp_data sent) saver empty_db).2.2).
  assert (log_rep (db_tables d) RaftLog_empty) as H0 by (constructor; by vm_compute).
  assert (log_rep (db_tables (run_op (OpAppend small_log) d).2)
    (spec_op (OpAppend small_log) RaftLog_empty)) as H1.
  { refine (run_op_simulates (OpAppend small_log) d RaftLog_empty H0 _).
    split; [apply small_log_contiguous|by vm_compute]. }
  refine (run_op_simulates (OpPurge _) _ _ H1 _). by vm_compute.
Qed.

Lemma late_builder_loses_entries_witness :
  (∃ r1, load no_observation overtaken_db = Ok r1 ∧
         rs_last_applied r1 = Some (en_log_id (raft_entry 1 PayloadBlank))) ∧
  ∃ r2 es, load no_observation late_db = Ok r2 ∧
    rs_last_applied r2 = Some (en_log_id (raft_entry 0 PayloadBlank)) ∧ same_replica saver r2 ∧
    try_get_log_entries (Excluded 0) Unbounded late_db = Ok es ∧
    Forall (λ e, 1 < li_index (en_log_id e)) es.
Proof.
  apply (late_builder_loses_entries simple_raft simple_raft_json simple_raft_json_laws simple_redb
    simple_redb_laws digit_codec digit_laws digit_sidecar digit_sidecar_laws saver overtaker
    no_observation overtaken_db late_snapshot late_db overtaken_log
    (en_log_id (raft_entry 0 PayloadBlank)) (en_log_id (raft_entry 1 PayloadBlank))
    overtaken_db late_db).
  - apply saver_inv.
  - apply (replay_inv small_log small_log_valid 2).
  - right. exists (sp_meta sent), (sp_data sent). split_and!; [by vm_compute..|]. split_and!; by vm_compute.
  - by vm_compute.
  - apply overtaken_rep.
  - by vm_compute.
  - by vm_compute.
  - by vm_compute.
  - by vm_compute.
  - by vm_compute.
  - by vm_compute.
  - by vm_compute.
  - reflexivity.
  - reflexivity.
Defined.
