(* ===== verification/Service.v ===== *)
(** * The application service ([agent-broker-application/src])

    The typed use cases of the broker over an abstract consensus adapter.  The
    trait [ConsensusAdapter] of [consensus.rs] is a class over the type of the
    adapter's state, so that the service and everything above it is written
    once against the interface; [service.rs] is the rest of the file. *)

From S2P Require Import Prelude Values Task Group Messages Machine Display Sessions.

(** ** The consensus boundary *)

(** A [&mut self] method returns its result and the new state of the adapter. *)
Class ConsensusAdapter (C : Type) := {
  ca_term : C → Term;
  ca_revision : C → Revision;
  ca_group_directory : C → result ConsumerGroupDirectory BrokerError * C;
  ca_maintenance_authority : C → result bool BrokerError * C;
  ca_propose : BrokerCommand → C → result BrokerMutationResult BrokerError * C;
  ca_propose_identified :
    CommandIdentity → BrokerCommand → C → result BrokerMutationResult BrokerError * C;
  ca_acquire_command_session_owner :
    CommandSessionId → SessionOwnerEpoch → SessionOwnerInstanceId → C →
    result SessionOwnerEpoch BrokerError * C;
}.

(** The bodies the trait gives to the methods an adapter does not override. *)
Definition default_group_directory {C} (c : C) : result ConsumerGroupDirectory BrokerError * C :=
  (Err (BrokerError_new InternalError
     "Consumer Group directory reads are unavailable for this consensus adapter"), c).

Definition default_maintenance_authority {C} (c : C) : result bool BrokerError * C := (Ok true, c).

Definition default_propose_identified {C} (_ : CommandIdentity) (_ : BrokerCommand) (c : C) :
    result BrokerMutationResult BrokerError * C :=
  (Err (BrokerError_new InvalidRequest
     "identified consensus proposals are not supported by this adapter"), c).

Definition default_acquire_command_session_owner {C} (_ : CommandSessionId)
    (_ : SessionOwnerEpoch) (_ : SessionOwnerInstanceId) (c : C) :
    result SessionOwnerEpoch BrokerError * C :=
  (Err (BrokerError_new InvalidRequest
     "command-session owner acquisition is not supported by this adapter"), c).

(** ** Inputs and the service *)

Record BrokerHealth := {
  bh_term : Term;
  bh_revision : Revision;
  bh_protocol_version : N;
}.

Record ClaimTaskInput := {
  ci_group_id : ConsumerGroupId;
  ci_member_id : ConsumerId;
  ci_expected_term : Term;
  ci_expected_generation : Generation;
  ci_lease_id : LeaseId;
  ci_now_ms : TimestampMs;
  ci_lease_duration : N;
}.

Record RenewTaskLeaseInput := {
  ri_task_id : TaskId;
  ri_group_id : ConsumerGroupId;
  ri_member_id : ConsumerId;
  ri_expected_term : Term;
  ri_expected_generation : Generation;
  ri_expected_lease_epoch : LeaseEpoch;
  ri_lease_id : LeaseId;
  ri_now_ms : TimestampMs;
  ri_lease_duration : N;
}.

Record CompleteTaskInput := {
  oi_task_id : TaskId;
  oi_group_id : ConsumerGroupId;
  oi_member_id : ConsumerId;
  oi_expected_term : Term;
  oi_expected_generation : Generation;
  oi_expected_lease_epoch : LeaseEpoch;
  oi_lease_id : LeaseId;
  oi_result : TaskResult;
  oi_completed_at_ms : TimestampMs;
}.

Record BrokerApplicationService (C : Type) := MkService {
  svc_consensus : C;
  svc_capacity : BrokerCapacityPolicy;
}.
Arguments MkService {C} _ _.
Arguments svc_consensus {C} _.
Arguments svc_capacity {C} _.

(** ** Typed answers *)

Definition unexpected_result (expected : string) : BrokerError :=
  BrokerError_new InternalError
    ("consensus returned an unexpected result variant; expected " +:+ expected).

Definition expect_namespace (r : BrokerMutationResult) : result NamespaceResult BrokerError :=
  match r with RNamespace r => Ok r | _ => Err (unexpected_result "Namespace") end.

Definition expect_task_published (r : BrokerMutationResult) :
    result TaskPublishedResult BrokerError :=
  match r with RTaskPublished r => Ok r | _ => Err (unexpected_result "TaskPublished") end.

Definition expect_consumer_group (r : BrokerMutationResult) :
    result ConsumerGroupResult BrokerError :=
  match r with RConsumerGroup r => Ok r | _ => Err (unexpected_result "ConsumerGroup") end.

Definition expect_heartbeat (r : BrokerMutationResult) : result HeartbeatResult BrokerError :=
  match r with RHeartbeat r => Ok r | _ => Err (unexpected_result "Heartbeat") end.

Definition expect_stale_members_reaped (r : BrokerMutationResult) :
    result StaleMembersReapedResult BrokerError :=
  match r with
  | RStaleMembersReaped r => Ok r | _ => Err (unexpected_result "StaleMembersReaped")
  end.

Definition expect_task_claim (r : BrokerMutationResult) : result TaskClaimResult BrokerError :=
  match r with RTaskClaim r => Ok r | _ => Err (unexpected_result "TaskClaim") end.

Definition expect_task_lease_renewed (r : BrokerMutationResult) :
    result TaskLeaseRenewedResult BrokerError :=
  match r with RTaskLeaseRenewed r => Ok r | _ => Err (unexpected_result "TaskLeaseRenewed") end.

Definition expect_task_completed (r : BrokerMutationResult) :
    result TaskCompletedResult BrokerError :=
  match r with RTaskCompleted r => Ok r | _ => Err (unexpected_result "TaskCompleted") end.

Definition expect_completed_tasks_pruned (r : BrokerMutationResult) :
    result CompletedTasksPrunedResult BrokerError :=
  match r with
  | RCompletedTasksPruned r => Ok r | _ => Err (unexpected_result "CompletedTasksPruned")
  end.

Definition expect_term_advanced (r : BrokerMutationResult) :
    result TermAdvancedResult BrokerError :=
  match r with RTermAdvanced r => Ok r | _ => Err (unexpected_result "TermAdvanced") end.

(** ** Use cases *)

Section service.
Context {C : Type} `{A : ConsensusAdapter C}.

Abbreviation Service := (BrokerApplicationService C).

(** A call on the adapter inside the service. *)
Definition with_consensus {R} (f : C → result R BrokerError * C) (s : Service) :
    result R BrokerError * Service :=
  let '(r, c) := f (svc_consensus s) in (r, MkService c (svc_capacity s)).

Definition svc_health (s : Service) : BrokerHealth := {|
  bh_term := ca_term (svc_consensus s);
  bh_revision := ca_revision (svc_consensus s);
  bh_protocol_version := 1;
|}.

Definition svc_group_directory (s : Service) :
    result ConsumerGroupDirectory BrokerError * Service :=
  with_consensus ca_group_directory s.

Definition svc_maintenance_authority (s : Service) : result bool BrokerError * Service :=
  with_consensus ca_maintenance_authority s.

Definition svc_propose_identified (identity : CommandIdentity) (command : BrokerCommand)
    (s : Service) : result BrokerMutationResult BrokerError * Service :=
  with_consensus (ca_propose_identified identity command) s.

Definition svc_acquire_command_session_owner (session_id : CommandSessionId)
    (expected_owner_epoch : SessionOwnerEpoch) (owner_instance_id : SessionOwnerInstanceId)
    (s : Service) : result SessionOwnerEpoch BrokerError * Service :=
  with_consensus (ca_acquire_command_session_owner session_id expected_owner_epoch
                    owner_instance_id) s.

Definition svc_ensure_namespace (namespace_id : NamespaceId) (s : Service) :
    result NamespaceResult BrokerError * Service :=
  let! r, s := with_consensus (ca_propose
    (EnsureNamespace {| en_namespace_id := namespace_id;
      en_max_namespaces := max_namespaces (svc_capacity s) |})) s in
  (expect_namespace r, s).

Definition svc_publish_task (namespace_id : NamespaceId) (task_id : TaskId)
    (objective : TaskObjective) (created_at_ms : TimestampMs) (s : Service) :
    result TaskPublishedResult BrokerError * Service :=
  let! r, s := with_consensus (ca_propose
    (PublishTask {| pt_namespace_id := namespace_id; pt_task_id := task_id;
      pt_objective := objective; pt_created_at_ms := created_at_ms;
      pt_max_namespace_tasks := max_tasks_per_namespace (svc_capacity s) |})) s in
  (expect_task_published r, s).

Definition svc_ensure_consumer_group (namespace_id : NamespaceId)
    (group_id : ConsumerGroupId) (s : Service) :
    result ConsumerGroupResult BrokerError * Service :=
  let! r, s := with_consensus (ca_propose
    (EnsureConsumerGroup {| eg_namespace_id := namespace_id; eg_group_id := group_id;
      eg_max_namespace_groups := max_groups_per_namespace (svc_capacity s) |})) s in
  (expect_consumer_group r, s).

Definition svc_join_consumer_group (group_id : ConsumerGroupId)
    (member_id : ConsumerId) (capabilities : Capabilities) (now_ms : TimestampMs) (s : Service) :
    result ConsumerGroupResult BrokerError * Service :=
  let! r, s := with_consensus (ca_propose
    (JoinConsumerGroup {| jg_group_id := group_id; jg_member_id := member_id;
      jg_capabilities := capabilities; jg_now_ms := now_ms;
      jg_max_group_members := max_members_per_group (svc_capacity s) |})) s in
  (expect_consumer_group r, s).

Definition svc_heartbeat (group_id : ConsumerGroupId) (member_id : ConsumerId)
    (expected_generation : Generation) (now_ms : TimestampMs) (s : Service) :
    result HeartbeatResult BrokerError * Service :=
  let! r, s := with_consensus (ca_propose
    (Heartbeat {| hb_group_id := group_id; hb_member_id := member_id;
      hb_expected_generation := expected_generation; hb_now_ms := now_ms |})) s in
  (expect_heartbeat r, s).

Definition svc_leave_consumer_group (group_id : ConsumerGroupId)
    (member_id : ConsumerId) (expected_generation : Generation) (s : Service) :
    result ConsumerGroupResult BrokerError * Service :=
  let! r, s := with_consensus (ca_propose
    (LeaveConsumerGroup {| lv_group_id := group_id; lv_member_id := member_id;
      lv_expected_generation := expected_generation |})) s in
  (expect_consumer_group r, s).

Definition svc_reap_stale_members (stale_before_ms : TimestampMs)
    (limit : N) (s : Service) :
    result StaleMembersReapedResult BrokerError * Service :=
  let! r, s := with_consensus (ca_propose
    (ReapStaleMembers {| rp_stale_before_ms := stale_before_ms; rp_max_members := limit |})) s in
  (expect_stale_members_reaped r, s).

Definition svc_claim_task (input : ClaimTaskInput) (s : Service) :
    result TaskClaimResult BrokerError * Service :=
  let! r, s := with_consensus (ca_propose
    (ClaimTask {| cl_group_id := ci_group_id input; cl_member_id := ci_member_id input;
      cl_expected_term := ci_expected_term input;
      cl_expected_generation := ci_expected_generation input; cl_lease_id := ci_lease_id input;
      cl_now_ms := ci_now_ms input; cl_lease_duration_ms := ci_lease_duration input |})) s in
  (expect_task_claim r, s).

Definition svc_renew_task_lease (input : RenewTaskLeaseInput) (s : Service) :
    result TaskLeaseRenewedResult BrokerError * Service :=
  let! r, s := with_consensus (ca_propose
    (RenewTaskLease {| rn_task_id := ri_task_id input; rn_group_id := ri_group_id input;
      rn_member_id := ri_member_id input; rn_expected_term := ri_expected_term input;
      rn_expected_generation := ri_expected_generation input;
      rn_expected_lease_epoch := ri_expected_lease_epoch input; rn_lease_id := ri_lease_id input;
      rn_now_ms := ri_now_ms input; rn_lease_duration_ms := ri_lease_duration input |})) s in
  (expect_task_lease_renewed r, s).

Definition svc_complete_task (input : CompleteTaskInput) (s : Service) :
    result TaskCompletedResult BrokerError * Service :=
  let! r, s := with_consensus (ca_propose
    (CompleteTask {| cp_task_id := oi_task_id input; cp_group_id := oi_group_id input;
      cp_member_id := oi_member_id input; cp_expected_term := oi_expected_term input;
      cp_expected_generation := oi_expected_generation input;
      cp_expected_lease_epoch := oi_expected_lease_epoch input; cp_lease_id := oi_lease_id input;
      cp_result := oi_result input; cp_completed_at_ms := oi_completed_at_ms input |})) s in
  (expect_task_completed r, s).

Definition svc_prune_completed_tasks (completed_before_ms : TimestampMs)
    (limit : N) (s : Service) :
    result CompletedTasksPrunedResult BrokerError * Service :=
  let! r, s := with_consensus (ca_propose
    (PruneCompletedTasks {| pr_completed_before_ms := completed_before_ms;
      pr_max_tasks := limit |})) s in
  (expect_completed_tasks_pruned r, s).

Definition svc_advance_term (expected_term new_term : Term) (s : Service) :
    result TermAdvancedResult BrokerError * Service :=
  let! r, s := with_consensus (ca_propose
    (AdvanceTerm {| at_expected_term := expected_term; at_new_term := new_term |})) s in
  (expect_term_advanced r, s).

(** The identified variants. *)

Definition svc_ensure_namespace_identified (identity : CommandIdentity)
    (namespace_id : NamespaceId) (s : Service) :
    result NamespaceResult BrokerError * Service :=
  let! r, s := svc_propose_identified identity
    (EnsureNamespace {| en_namespace_id := namespace_id;
      en_max_namespaces := max_namespaces (svc_capacity s) |}) s in
  (expect_namespace r, s).

Definition svc_publish_task_identified (identity : CommandIdentity)
    (namespace_id : NamespaceId) (task_id : TaskId)
    (objective : TaskObjective) (created_at_ms : TimestampMs) (s : Service) :
    result TaskPublishedResult BrokerError * Service :=
  let! r, s := svc_propose_identified identity
    (PublishTask {| pt_namespace_id := namespace_id; pt_task_id := task_id;
      pt_objective := objective; pt_created_at_ms := created_at_ms;
      pt_max_namespace_tasks := max_tasks_per_namespace (svc_capacity s) |}) s in
  (expect_task_published r, s).

Definition svc_ensure_consumer_group_identified (identity : CommandIdentity)
    (namespace_id : NamespaceId)
    (group_id : ConsumerGroupId) (s : Service) :
    result ConsumerGroupResult BrokerError * Service :=
  let! r, s := svc_propose_identified identity
    (EnsureConsumerGroup {| eg_namespace_id := namespace_id; eg_group_id := group_id;
      eg_max_namespace_groups := max_groups_per_namespace (svc_capacity s) |}) s in
  (expect_consumer_group r, s).

Definition svc_join_consumer_group_identified (identity : CommandIdentity)
    (group_id : ConsumerGroupId)
    (member_id : ConsumerId) (capabilities : Capabilities) (now_ms : TimestampMs) (s : Service) :
    result ConsumerGroupResult BrokerError * Service :=
  let! r, s := svc_propose_identified identity
    (JoinConsumerGroup {| jg_group_id := group_id; jg_member_id := member_id;
      jg_capabilities := capabilities; jg_now_ms := now_ms;
      jg_max_group_members := max_members_per_group (svc_capacity s) |}) s in
  (expect_consumer_group r, s).

Definition svc_heartbeat_identified (identity : CommandIdentity)
    (group_id : ConsumerGroupId) (member_id : ConsumerId)
    (expected_generation : Generation) (now_ms : TimestampMs) (s : Service) :
    result HeartbeatResult BrokerError * Service :=
  let! r, s := svc_propose_identified identity
    (Heartbeat {| hb_group_id := group_id; hb_member_id := member_id;
      hb_expected_generation := expected_generation; hb_now_ms := now_ms |}) s in
  (expect_heartbeat r, s).

Definition svc_leave_consumer_group_identified (identity : CommandIdentity)
    (group_id : ConsumerGroupId)
    (member_id : ConsumerId) (expected_generation : Generation) (s : Service) :
    result ConsumerGroupResult BrokerError * Service :=
  let! r, s := svc_propose_identified identity
    (LeaveConsumerGroup {| lv_group_id := group_id; lv_member_id := member_id;
      lv_expected_generation := expected_generation |}) s in
  (expect_consumer_group r, s).

Definition svc_claim_task_identified (identity : CommandIdentity)
    (input : ClaimTaskInput) (s : Service) :
    result TaskClaimResult BrokerError * Service :=
  let! r, s := svc_propose_identified identity
    (ClaimTask {| cl_group_id := ci_group_id input; cl_member_id := ci_member_id input;
      cl_expected_term := ci_expected_term input;
      cl_expected_generation := ci_expected_generation input; cl_lease_id := ci_lease_id input;
      cl_now_ms := ci_now_ms input; cl_lease_duration_ms := ci_lease_duration input |}) s in
  (expect_task_claim r, s).

Definition svc_renew_task_lease_identified (identity : CommandIdentity)
    (input : RenewTaskLeaseInput) (s : Service) :
    result TaskLeaseRenewedResult BrokerError * Service :=
  let! r, s := svc_propose_identified identity
    (RenewTaskLease {| rn_task_id := ri_task_id input; rn_group_id := ri_group_id input;
      rn_member_id := ri_member_id input; rn_expected_term := ri_expected_term input;
      rn_expected_generation := ri_expected_generation input;
      rn_expected_lease_epoch := ri_expected_lease_epoch input; rn_lease_id := ri_lease_id input;
      rn_now_ms := ri_now_ms input; rn_lease_duration_ms := ri_lease_duration input |}) s in
  (expect_task_lease_renewed r, s).

Definition svc_complete_task_identified (identity : CommandIdentity)
    (input : CompleteTaskInput) (s : Service) :
    result TaskCompletedResult BrokerError * Service :=
  let! r, s := svc_propose_identified identity
    (CompleteTask {| cp_task_id := oi_task_id input; cp_group_id := oi_group_id input;
      cp_member_id := oi_member_id input; cp_expected_term := oi_expected_term input;
      cp_expected_generation := oi_expected_generation input;
      cp_expected_lease_epoch := oi_expected_lease_epoch input; cp_lease_id := oi_lease_id input;
      cp_result := oi_result input; cp_completed_at_ms := oi_completed_at_ms input |}) s in
  (expect_task_completed r, s).

End service.
