(* ===== verification/Dispatch.v ===== *)
(** * Protocol messages and dispatch ([agent-broker-protocol/src/request.rs],
    [response.rs], [dispatch.rs])

    The validated requests of the protocol, the operations they name, the typed
    responses before they are serialized, and the dispatcher that performs a
    request on the service. *)

From stdpp Require Import pretty.
From S2P Require Import Prelude Values Task Group Messages Machine Display Sessions Service.

Definition PROTOCOL_VERSION : N := 1.
Definition MAX_REQUEST_ID_BYTES : N := 128.
Definition MAX_DECLARED_CAPABILITIES : N := 64.

(** ** Request identifiers *)

Abbreviation RequestId := string (only parsing).

Inductive RequestIdError := MkRequestIdError.

#[export] Instance RequestIdError_display : Display RequestIdError :=
  λ _, "request_id contains unsupported characters or length".

Definition is_request_id_byte (b : Ascii.ascii) : bool :=
  is_ascii_alphanumeric b || is_identifier_punct b.

Definition RequestId_new (value : string) : result RequestId RequestIdError :=
  match value with
  | EmptyString => Err MkRequestIdError
  | String first rest =>
      if (MAX_REQUEST_ID_BYTES <? str_len value) || negb (is_ascii_alphanumeric first)
      then Err MkRequestIdError
      else if negb (all_bytes is_request_id_byte rest) then Err MkRequestIdError
      else Ok value
  end.

(** ** Declared capabilities *)

(** Order and duplicates are kept as declared. *)
Abbreviation DeclaredCapabilities := (list string) (only parsing).

Definition DeclaredCapabilities_new (values : list string) :
    result DeclaredCapabilities CapabilitiesError :=
  if MAX_DECLARED_CAPABILITIES <? len values then Err (TooMany MAX_DECLARED_CAPABILITIES) else
  let^ _ := try_map Capability_new values in
  Ok values.

Definition into_normalized (declared : DeclaredCapabilities) :
    result Capabilities CapabilitiesError :=
  Capabilities_new declared.

(** ** Operations *)

Inductive Operation :=
  | OpHealth | OpEnsureNamespace | OpPublishTask | OpEnsureConsumerGroup | OpJoinConsumerGroup
  | OpHeartbeat | OpLeaveConsumerGroup | OpClaimTask | OpRenewTaskLease | OpCompleteTask.

#[export] Instance Operation_eq_dec : EqDecision Operation.
Proof. solve_decision. Defined.

Definition Operation_as_str (o : Operation) : string :=
  match o with
  | OpHealth => "health"
  | OpEnsureNamespace => "namespace.ensure"
  | OpPublishTask => "task.publish"
  | OpEnsureConsumerGroup => "group.ensure"
  | OpJoinConsumerGroup => "group.join"
  | OpHeartbeat => "group.heartbeat"
  | OpLeaveConsumerGroup => "group.leave"
  | OpClaimTask => "task.claim"
  | OpRenewTaskLease => "task.renew"
  | OpCompleteTask => "task.complete"
  end.

(** [TryFrom<&str>]; the error carries the text. *)
Definition Operation_try_from (value : string) : result Operation string :=
  if decide (value = "health") then Ok OpHealth
  else if decide (value = "namespace.ensure") then Ok OpEnsureNamespace
  else if decide (value = "task.publish") then Ok OpPublishTask
  else if decide (value = "group.ensure") then Ok OpEnsureConsumerGroup
  else if decide (value = "group.join") then Ok OpJoinConsumerGroup
  else if decide (value = "group.heartbeat") then Ok OpHeartbeat
  else if decide (value = "group.leave") then Ok OpLeaveConsumerGroup
  else if decide (value = "task.claim") then Ok OpClaimTask
  else if decide (value = "task.renew") then Ok OpRenewTaskLease
  else if decide (value = "task.complete") then Ok OpCompleteTask
  else Err value.

(** ** Requests *)

Record HealthRequest := {
  qq_request_id : RequestId;
}.

Record EnsureNamespaceRequest := {
  qn_request_id : RequestId;
  qn_namespace_id : NamespaceId;
}.

Record PublishTaskRequest := {
  qp_request_id : RequestId;
  qp_namespace_id : NamespaceId;
  qp_task_id : TaskId;
  qp_objective : TaskObjective;
}.

Record EnsureConsumerGroupRequest := {
  qg_request_id : RequestId;
  qg_namespace_id : NamespaceId;
  qg_group_id : ConsumerGroupId;
}.

Record JoinConsumerGroupRequest := {
  qj_request_id : RequestId;
  qj_group_id : ConsumerGroupId;
  qj_member_id : ConsumerId;
  qj_capabilities : DeclaredCapabilities;
}.

Record HeartbeatRequest := {
  qh_request_id : RequestId;
  qh_group_id : ConsumerGroupId;
  qh_member_id : ConsumerId;
  qh_expected_generation : Generation;
}.

Record LeaveConsumerGroupRequest := {
  ql_request_id : RequestId;
  ql_group_id : ConsumerGroupId;
  ql_member_id : ConsumerId;
  ql_expected_generation : Generation;
}.

Record ClaimTaskRequest := {
  qc_request_id : RequestId;
  qc_group_id : ConsumerGroupId;
  qc_member_id : ConsumerId;
  qc_expected_term : Term;
  qc_expected_generation : Generation;
  qc_lease_id : LeaseId;
  qc_lease_duration : N;
}.

Record RenewTaskLeaseRequest := {
  qr_request_id : RequestId;
  qr_task_id : TaskId;
  qr_group_id : ConsumerGroupId;
  qr_member_id : ConsumerId;
  qr_expected_term : Term;
  qr_expected_generation : Generation;
  qr_expected_lease_epoch : LeaseEpoch;
  qr_lease_id : LeaseId;
  qr_lease_duration : N;
}.

Record CompleteTaskRequest := {
  qd_request_id : RequestId;
  qd_task_id : TaskId;
  qd_group_id : ConsumerGroupId;
  qd_member_id : ConsumerId;
  qd_expected_term : Term;
  qd_expected_generation : Generation;
  qd_expected_lease_epoch : LeaseEpoch;
  qd_lease_id : LeaseId;
  qd_result : TaskResult;
}.

Inductive BrokerRequest :=
  | ReqHealth (r : HealthRequest)
  | ReqEnsureNamespace (r : EnsureNamespaceRequest)
  | ReqPublishTask (r : PublishTaskRequest)
  | ReqEnsureConsumerGroup (r : EnsureConsumerGroupRequest)
  | ReqJoinConsumerGroup (r : JoinConsumerGroupRequest)
  | ReqHeartbeat (r : HeartbeatRequest)
  | ReqLeaveConsumerGroup (r : LeaveConsumerGroupRequest)
  | ReqClaimTask (r : ClaimTaskRequest)
  | ReqRenewTaskLease (r : RenewTaskLeaseRequest)
  | ReqCompleteTask (r : CompleteTaskRequest).

#[export] Instance BrokerRequest_eq_dec : EqDecision BrokerRequest.
Proof.
  assert (EqDecision HealthRequest) by solve_decision.
  assert (EqDecision EnsureNamespaceRequest) by solve_decision.
  assert (EqDecision PublishTaskRequest) by solve_decision.
  assert (EqDecision EnsureConsumerGroupRequest) by solve_decision.
  assert (EqDecision JoinConsumerGroupRequest) by solve_decision.
  assert (EqDecision HeartbeatRequest) by solve_decision.
  assert (EqDecision LeaveConsumerGroupRequest) by solve_decision.
  assert (EqDecision ClaimTaskRequest) by solve_decision.
  assert (EqDecision RenewTaskLeaseRequest) by solve_decision.
  assert (EqDecision CompleteTaskRequest) by solve_decision.
  solve_decision.
Defined.

Definition request_operation (r : BrokerRequest) : Operation :=
  match r with
  | ReqHealth _ => OpHealth
  | ReqEnsureNamespace _ => OpEnsureNamespace
  | ReqPublishTask _ => OpPublishTask
  | ReqEnsureConsumerGroup _ => OpEnsureConsumerGroup
  | ReqJoinConsumerGroup _ => OpJoinConsumerGroup
  | ReqHeartbeat _ => OpHeartbeat
  | ReqLeaveConsumerGroup _ => OpLeaveConsumerGroup
  | ReqClaimTask _ => OpClaimTask
  | ReqRenewTaskLease _ => OpRenewTaskLease
  | ReqCompleteTask _ => OpCompleteTask
  end.

Definition request_request_id (r : BrokerRequest) : RequestId :=
  match r with
  | ReqHealth r => qq_request_id r
  | ReqEnsureNamespace r => qn_request_id r
  | ReqPublishTask r => qp_request_id r
  | ReqEnsureConsumerGroup r => qg_request_id r
  | ReqJoinConsumerGroup r => qj_request_id r
  | ReqHeartbeat r => qh_request_id r
  | ReqLeaveConsumerGroup r => ql_request_id r
  | ReqClaimTask r => qc_request_id r
  | ReqRenewTaskLease r => qr_request_id r
  | ReqCompleteTask r => qd_request_id r
  end.

(** ** Results of a dispatch ([dispatch.rs]) *)

Inductive DispatchResult :=
  | DHealth (h : BrokerHealth)
  | DNamespace (r : NamespaceResult)
  | DTaskPublished (r : TaskPublishedResult)
  | DConsumerGroup (r : ConsumerGroupResult)
  | DHeartbeat (r : HeartbeatResult)
  | DTaskClaimed (r : TaskClaimResult)
  | DTaskLeaseRenewed (r : TaskLeaseRenewedResult)
  | DTaskCompleted (r : TaskCompletedResult)
  | DSessionOwnerAcquired (owner_epoch : SessionOwnerEpoch).

(** ** Responses ([response.rs]) *)

Inductive SuccessPayload :=
  | SHealth (protocol_version : N) (term : Term) (revision : Revision)
  | SNamespace (term : Term) (revision : Revision) (namespace_id : NamespaceId)
      (namespace_revision : Revision)
  | STaskPublished (term : Term) (revision : Revision) (task_id : TaskId)
      (task_revision : Revision) (status : TaskStatus)
  | SConsumerGroup (term : Term) (revision : Revision) (group_id : ConsumerGroupId)
      (generation : Generation) (group_revision : Revision) (member_count : N)
  | SHeartbeat (term : Term) (revision : Revision) (group_id : ConsumerGroupId)
      (member_id : ConsumerId) (generation : Generation) (member_revision : Revision)
  | STaskClaimed (term : Term) (revision : Revision) (task_id : option TaskId)
      (objective : option TaskObjective) (task_revision : option Revision)
      (lease_id : option LeaseId) (lease_epoch : option LeaseEpoch)
      (lease_expires_at_ms : option TimestampMs) (generation : Generation)
  | STaskLeaseRenewed (term : Term) (revision : Revision) (task_id : TaskId)
      (task_revision : Revision) (lease_id : LeaseId) (lease_epoch : LeaseEpoch)
      (lease_expires_at_ms : TimestampMs) (generation : Generation)
  | STaskCompleted (term : Term) (revision : Revision) (task_id : TaskId)
      (task_revision : Revision) (status : TaskStatus)
  | SSessionOwnerAcquired (owner_epoch : SessionOwnerEpoch).

#[export] Instance SuccessPayload_eq_dec : EqDecision SuccessPayload.
Proof. solve_decision. Defined.

(** [From<DispatchResult> for SuccessPayload] *)
Definition success_of_dispatch (d : DispatchResult) : SuccessPayload :=
  match d with
  | DHealth r => SHealth (bh_protocol_version r) (bh_term r) (bh_revision r)
  | DNamespace r =>
      SNamespace (md_term (nr_metadata r)) (md_revision (nr_metadata r)) (nr_namespace_id r)
        (nr_namespace_revision r)
  | DTaskPublished r =>
      STaskPublished (md_term (tp_metadata r)) (md_revision (tp_metadata r)) (tp_task_id r)
        (tp_task_revision r) (tp_status r)
  | DConsumerGroup r =>
      SConsumerGroup (md_term (gr_metadata r)) (md_revision (gr_metadata r)) (gr_group_id r)
        (gr_generation r) (gr_group_revision r) (gr_member_count r)
  | DHeartbeat r =>
      SHeartbeat (md_term (hr_metadata r)) (md_revision (hr_metadata r)) (hr_group_id r)
        (hr_member_id r) (hr_generation r) (hr_member_revision r)
  | DTaskClaimed r =>
      STaskClaimed (md_term (tc_metadata r)) (md_revision (tc_metadata r)) (tc_task_id r)
        (tc_objective r) (tc_task_revision r) (tc_lease_id r) (tc_lease_epoch r)
        (tc_lease_expires_at_ms r) (tc_generation r)
  | DTaskLeaseRenewed r =>
      STaskLeaseRenewed (md_term (tr_metadata r)) (md_revision (tr_metadata r)) (tr_task_id r)
        (tr_task_revision r) (tr_lease_id r) (tr_lease_epoch r) (tr_lease_expires_at_ms r)
        (tr_generation r)
  | DTaskCompleted r =>
      STaskCompleted (md_term (td_metadata r)) (md_revision (td_metadata r)) (td_task_id r)
        (td_task_revision r) (td_status r)
  | DSessionOwnerAcquired owner_epoch => SSessionOwnerAcquired owner_epoch
  end.

Record ErrorPayload := {
  ep_code : BrokerErrorCode;
  ep_message : string;
  ep_disposition : BrokerErrorDisposition;
}.

(** [From<BrokerError> for ErrorPayload] *)
Definition error_payload (e : BrokerError) : ErrorPayload := {|
  ep_code := be_code e;
  ep_message := be_message e;
  ep_disposition := be_disposition e;
|}.

Inductive BrokerResponse :=
  | ResponseSuccess (request_id : RequestId) (payload : SuccessPayload)
  | ResponseError (request_id : RequestId) (error : ErrorPayload).

#[export] Instance BrokerResponse_eq_dec : EqDecision BrokerResponse.
Proof. assert (EqDecision ErrorPayload) by solve_decision. solve_decision. Defined.

Definition response_success (request_id : RequestId) (d : DispatchResult) : BrokerResponse :=
  ResponseSuccess request_id (success_of_dispatch d).

Definition response_error (request_id : RequestId) (e : BrokerError) : BrokerResponse :=
  ResponseError request_id (error_payload e).

Definition response_request_id (r : BrokerResponse) : RequestId :=
  match r with ResponseSuccess id _ | ResponseError id _ => id end.

(** * The request dispatcher ([agent-broker-protocol/src/dispatch.rs])

    Validated requests mapped onto the use cases of the application service.
    The observation time is supplied by the caller, so the mapping is a
    function.  The dispatcher holds nothing but the service. *)

Section dispatch.
Context {C : Type} `{A : ConsensusAdapter C}.

Abbreviation Service := (BrokerApplicationService C).

Definition map_result {R S} (f : R → S) (r : result R BrokerError * Service) :
    result S BrokerError * Service :=
  (map_ok f r.1, r.2).

Definition dispatch_owner_acquisition (session_id : CommandSessionId)
    (expected_owner_epoch : SessionOwnerEpoch) (owner_instance_id : SessionOwnerInstanceId)
    (s : Service) : result DispatchResult BrokerError * Service :=
  map_result DSessionOwnerAcquired
    (svc_acquire_command_session_owner session_id expected_owner_epoch owner_instance_id s).

Definition claim_input (r : ClaimTaskRequest) (observed_at_ms : TimestampMs) : ClaimTaskInput := {|
  ci_group_id := qc_group_id r;
  ci_member_id := qc_member_id r;
  ci_expected_term := qc_expected_term r;
  ci_expected_generation := qc_expected_generation r;
  ci_lease_id := qc_lease_id r;
  ci_now_ms := observed_at_ms;
  ci_lease_duration := qc_lease_duration r;
|}.

Definition renew_input (r : RenewTaskLeaseRequest) (observed_at_ms : TimestampMs) :
    RenewTaskLeaseInput := {|
  ri_task_id := qr_task_id r;
  ri_group_id := qr_group_id r;
  ri_member_id := qr_member_id r;
  ri_expected_term := qr_expected_term r;
  ri_expected_generation := qr_expected_generation r;
  ri_expected_lease_epoch := qr_expected_lease_epoch r;
  ri_lease_id := qr_lease_id r;
  ri_now_ms := observed_at_ms;
  ri_lease_duration := qr_lease_duration r;
|}.

Definition complete_input (r : CompleteTaskRequest) (observed_at_ms : TimestampMs) :
    CompleteTaskInput := {|
  oi_task_id := qd_task_id r;
  oi_group_id := qd_group_id r;
  oi_member_id := qd_member_id r;
  oi_expected_term := qd_expected_term r;
  oi_expected_generation := qd_expected_generation r;
  oi_expected_lease_epoch := qd_expected_lease_epoch r;
  oi_lease_id := qd_lease_id r;
  oi_result := qd_result r;
  oi_completed_at_ms := observed_at_ms;
|}.

Definition normalization_error (e : CapabilitiesError) : BrokerError :=
  BrokerError_new InvalidRequest (to_string e).

Definition dispatch (request : BrokerRequest) (observed_at_ms : TimestampMs) (s : Service) :
    result DispatchResult BrokerError * Service :=
  match request with
  | ReqHealth _ => (Ok (DHealth (svc_health s)), s)
  | ReqEnsureNamespace r => map_result DNamespace (svc_ensure_namespace (qn_namespace_id r) s)
  | ReqPublishTask r =>
      map_result DTaskPublished (svc_publish_task (qp_namespace_id r) (qp_task_id r)
        (qp_objective r) observed_at_ms s)
  | ReqEnsureConsumerGroup r =>
      map_result DConsumerGroup
        (svc_ensure_consumer_group (qg_namespace_id r) (qg_group_id r) s)
  | ReqJoinConsumerGroup r =>
      let? capabilities :=
        map_err normalization_error (into_normalized (qj_capabilities r)) else s in
      map_result DConsumerGroup (svc_join_consumer_group (qj_group_id r) (qj_member_id r)
        capabilities observed_at_ms s)
  | ReqHeartbeat r =>
      map_result DHeartbeat (svc_heartbeat (qh_group_id r) (qh_member_id r)
        (qh_expected_generation r) observed_at_ms s)
  | ReqLeaveConsumerGroup r =>
      map_result DConsumerGroup (svc_leave_consumer_group (ql_group_id r) (ql_member_id r)
        (ql_expected_generation r) s)
  | ReqClaimTask r =>
      map_result DTaskClaimed (svc_claim_task (claim_input r observed_at_ms) s)
  | ReqRenewTaskLease r =>
      map_result DTaskLeaseRenewed (svc_renew_task_lease (renew_input r observed_at_ms) s)
  | ReqCompleteTask r =>
      map_result DTaskCompleted (svc_complete_task (complete_input r observed_at_ms) s)
  end.

Definition dispatch_identified_join (identity : CommandIdentity) (r : JoinConsumerGroupRequest)
    (observed_at_ms : TimestampMs) (s : Service) : result DispatchResult BrokerError * Service :=
  let? capabilities := map_err normalization_error (into_normalized (qj_capabilities r)) else s in
  map_result DConsumerGroup (svc_join_consumer_group_identified identity (qj_group_id r)
    (qj_member_id r) capabilities observed_at_ms s).

Definition dispatch_identified_claim (identity : CommandIdentity) (r : ClaimTaskRequest)
    (observed_at_ms : TimestampMs) (s : Service) : result DispatchResult BrokerError * Service :=
  map_result DTaskClaimed (svc_claim_task_identified identity (claim_input r observed_at_ms) s).

Definition dispatch_identified_renew (identity : CommandIdentity) (r : RenewTaskLeaseRequest)
    (observed_at_ms : TimestampMs) (s : Service) : result DispatchResult BrokerError * Service :=
  map_result DTaskLeaseRenewed
    (svc_renew_task_lease_identified identity (renew_input r observed_at_ms) s).

Definition dispatch_identified_complete (identity : CommandIdentity) (r : CompleteTaskRequest)
    (observed_at_ms : TimestampMs) (s : Service) : result DispatchResult BrokerError * Service :=
  map_result DTaskCompleted
    (svc_complete_task_identified identity (complete_input r observed_at_ms) s).

Definition dispatch_identified (identity : CommandIdentity) (request : BrokerRequest)
    (observed_at_ms : TimestampMs) (s : Service) : result DispatchResult BrokerError * Service :=
  match request with
  | ReqHealth _ =>
      (Err (BrokerError_new InvalidRequest "identified protocol requests are mutation-only"), s)
  | ReqEnsureNamespace r =>
      map_result DNamespace (svc_ensure_namespace_identified identity (qn_namespace_id r) s)
  | ReqPublishTask r =>
      map_result DTaskPublished (svc_publish_task_identified identity (qp_namespace_id r)
        (qp_task_id r) (qp_objective r) observed_at_ms s)
  | ReqEnsureConsumerGroup r =>
      map_result DConsumerGroup (svc_ensure_consumer_group_identified identity
        (qg_namespace_id r) (qg_group_id r) s)
  | ReqJoinConsumerGroup r => dispatch_identified_join identity r observed_at_ms s
  | ReqHeartbeat r =>
      map_result DHeartbeat (svc_heartbeat_identified identity (qh_group_id r)
        (qh_member_id r) (qh_expected_generation r) observed_at_ms s)
  | ReqLeaveConsumerGroup r =>
      map_result DConsumerGroup (svc_leave_consumer_group_identified identity (ql_group_id r)
        (ql_member_id r) (ql_expected_generation r) s)
  | ReqClaimTask r => dispatch_identified_claim identity r observed_at_ms s
  | ReqRenewTaskLease r => dispatch_identified_renew identity r observed_at_ms s
  | ReqCompleteTask r => dispatch_identified_complete identity r observed_at_ms s
  end.

End dispatch.
