(* ===== verification/DispatchProps.v ===== *)
(** * Dispatching a request performs the specified operation

    The service and the dispatcher are verified against what an adapter
    promises, the class [AdapterLaws]: a successful proposal is a step of the
    specified broker, possibly after commands of its own, and a refused one has
    the error of the specified broker or is a failure of the adapter.  The
    standalone adapter keeps the promise. *)

From S2P Require Import Prelude Values Task Group Messages Machine Recovery Spec Invariant Effect.
From S2P Require Import Broker Changes Valid Display Wire Journal Repository Standalone Sessions.
From S2P Require Import Service Dispatch.

(** ** What an adapter promises *)

Definition adapter_failure (e : BrokerError) : Prop :=
  be_code e ∈ [PersistenceError; TransportError; CommitOutcomeUnknown; InternalError].

(** The outcome of a proposal that was applied to [s0]: the answer of the
    specified broker, or a failure after which the command has taken effect or
    not. *)
Definition proposed (cmd : BrokerCommand) (s0 : BrokerState)
    (r : result BrokerMutationResult BrokerError) (s' : BrokerState) : Prop :=
  match r with
  | Ok m => spec_handle cmd s0 = (Ok m, s')
  | Err e =>
      (∃ err, spec_handle cmd s0 = (Err err, s') ∧ e = from_state_machine_error err) ∨
      (adapter_failure e ∧ (s' = s0 ∨ s' = (spec_handle cmd s0).2))
  end.

Class AdapterLaws (C : Type) `{A : ConsensusAdapter C} := {
  al_state : C → BrokerState;
  al_inv : C → Prop;
  (** the commands the promise covers *)
  al_fit : BrokerCommand → C → Prop;
  (** the state a command is applied to, after what the adapter does first *)
  al_ready : BrokerState → BrokerState → Prop;
  al_term c : al_inv c → ca_term c = s_term (al_state c);
  al_revision c : al_inv c → ca_revision c = s_revision (al_state c);
  al_propose cmd c r c' :
    al_inv c → al_fit cmd c → ca_propose cmd c = (r, c') →
    al_inv c' ∧ ∃ s0, al_ready (al_state c) s0 ∧ proposed cmd s0 r (al_state c');
}.
Arguments al_state {C A _} _.
Arguments al_inv {C A _} _.
Arguments al_fit {C A _} _ _.
Arguments al_ready {C A _} _ _.

(** ** Requests as commands *)

(** The command a request stands for: none for the health probe. *)
Definition request_command (p : BrokerCapacityPolicy) (request : BrokerRequest)
    (t : TimestampMs) : result (option BrokerCommand) CapabilitiesError :=
  match request with
  | ReqHealth _ => Ok None
  | ReqEnsureNamespace r => Ok (Some (EnsureNamespace {| en_namespace_id := qn_namespace_id r;
      en_max_namespaces := max_namespaces p |}))
  | ReqPublishTask r => Ok (Some (PublishTask {| pt_namespace_id := qp_namespace_id r;
      pt_task_id := qp_task_id r; pt_objective := qp_objective r; pt_created_at_ms := t;
      pt_max_namespace_tasks := max_tasks_per_namespace p |}))
  | ReqEnsureConsumerGroup r => Ok (Some (EnsureConsumerGroup {|
      eg_namespace_id := qg_namespace_id r; eg_group_id := qg_group_id r;
      eg_max_namespace_groups := max_groups_per_namespace p |}))
  | ReqJoinConsumerGroup r => map_ok (λ caps, Some (JoinConsumerGroup {|
      jg_group_id := qj_group_id r; jg_member_id := qj_member_id r; jg_capabilities := caps;
      jg_now_ms := t; jg_max_group_members := max_members_per_group p |}))
      (Capabilities_new (qj_capabilities r))
  | ReqHeartbeat r => Ok (Some (Heartbeat {| hb_group_id := qh_group_id r;
      hb_member_id := qh_member_id r; hb_expected_generation := qh_expected_generation r;
      hb_now_ms := t |}))
  | ReqLeaveConsumerGroup r => Ok (Some (LeaveConsumerGroup {| lv_group_id := ql_group_id r;
      lv_member_id := ql_member_id r; lv_expected_generation := ql_expected_generation r |}))
  | ReqClaimTask r => Ok (Some (ClaimTask {| cl_group_id := qc_group_id r;
      cl_member_id := qc_member_id r; cl_expected_term := qc_expected_term r;
      cl_expected_generation := qc_expected_generation r; cl_lease_id := qc_lease_id r;
      cl_now_ms := t; cl_lease_duration_ms := qc_lease_duration r |}))
  | ReqRenewTaskLease r => Ok (Some (RenewTaskLease {| rn_task_id := qr_task_id r;
      rn_group_id := qr_group_id r; rn_member_id := qr_member_id r;
      rn_expected_term := qr_expected_term r;
      rn_expected_generation := qr_expected_generation r;
      rn_expected_lease_epoch := qr_expected_lease_epoch r; rn_lease_id := qr_lease_id r;
      rn_now_ms := t; rn_lease_duration_ms := qr_lease_duration r |}))
  | ReqCompleteTask r => Ok (Some (CompleteTask {| cp_task_id := qd_task_id r;
      cp_group_id := qd_group_id r; cp_member_id := qd_member_id r;
      cp_expected_term := qd_expected_term r;
      cp_expected_generation := qd_expected_generation r;
      cp_expected_lease_epoch := qd_expected_lease_epoch r; cp_lease_id := qd_lease_id r;
      cp_result := qd_result r; cp_completed_at_ms := t |}))
  end.

(** The dispatch result that carries an answer, if the protocol has one. *)
Definition dispatched (m : BrokerMutationResult) : option DispatchResult :=
  match m with
  | RNamespace r => Some (DNamespace r)
  | RTaskPublished r => Some (DTaskPublished r)
  | RConsumerGroup r => Some (DConsumerGroup r)
  | RHeartbeat r => Some (DHeartbeat r)
  | RTaskClaim r => Some (DTaskClaimed r)
  | RTaskLeaseRenewed r => Some (DTaskLeaseRenewed r)
  | RTaskCompleted r => Some (DTaskCompleted r)
  | RStaleMembersReaped _ | RCompletedTasksPruned _ | RTermAdvanced _ => None
  end.

(** The operation that a success payload answers. *)
Definition answers_operation (o : Operation) (p : SuccessPayload) : Prop :=
  match o, p with
  | OpHealth, SHealth _ _ _ => True
  | OpEnsureNamespace, SNamespace _ _ _ _ => True
  | OpPublishTask, STaskPublished _ _ _ _ _ => True
  | (OpEnsureConsumerGroup | OpJoinConsumerGroup | OpLeaveConsumerGroup),
    SConsumerGroup _ _ _ _ _ _ => True
  | OpHeartbeat, SHeartbeat _ _ _ _ _ _ => True
  | OpClaimTask, STaskClaimed _ _ _ _ _ _ _ _ _ => True
  | OpRenewTaskLease, STaskLeaseRenewed _ _ _ _ _ _ _ _ => True
  | OpCompleteTask, STaskCompleted _ _ _ _ _ => True
  | _, _ => False
  end.

(** A successful answer of the specified broker has the variant of its command. *)
Lemma spec_answer_variant cmd s m s' :
  spec_handle cmd s = (Ok m, s') →
  match cmd with
  | EnsureNamespace _ => ∃ r, m = RNamespace r
  | PublishTask _ => ∃ r, m = RTaskPublished r
  | EnsureConsumerGroup _ | JoinConsumerGroup _ | LeaveConsumerGroup _ => ∃ r, m = RConsumerGroup r
  | Heartbeat _ => ∃ r, m = RHeartbeat r
  | ReapStaleMembers _ => ∃ r, m = RStaleMembersReaped r
  | ClaimTask _ => ∃ r, m = RTaskClaim r
  | RenewTaskLease _ => ∃ r, m = RTaskLeaseRenewed r
  | CompleteTask _ => ∃ r, m = RTaskCompleted r
  | PruneCompletedTasks _ => ∃ r, m = RCompletedTasksPruned r
  | AdvanceTerm _ => ∃ r, m = RTermAdvanced r
  end.
Proof.
  destruct cmd; cbn [spec_handle handle on_state]; unfold on_state, prod_map; cbn [fst snd];
    intros [= Hm _];
    match type of Hm with map_ok _ ?r = _ => destruct r; simplify_eq/=; eauto end.
Qed.

(** ** The dispatcher *)

Section dispatch.
Context {C : Type} `{L : AdapterLaws C}.

(** The adapter went from one state to the other by [cmd], with this result. *)
Definition performed (cmd : BrokerCommand) (s : BrokerApplicationService C)
    (res : result DispatchResult BrokerError) (s' : BrokerApplicationService C) : Prop :=
  svc_capacity s' = svc_capacity s ∧ al_inv (svc_consensus s') ∧
  ∃ s0, al_ready (al_state (svc_consensus s)) s0 ∧
    match res with
    | Ok d => ∃ m, proposed cmd s0 (Ok m) (al_state (svc_consensus s')) ∧ dispatched m = Some d
    | Err e => proposed cmd s0 (Err e) (al_state (svc_consensus s'))
    end.

(** What a dispatch of [request] at time [t] must do. *)
Definition dispatch_spec (request : BrokerRequest) (t : TimestampMs)
    (s : BrokerApplicationService C) (res : result DispatchResult BrokerError)
    (s' : BrokerApplicationService C) : Prop :=
  match request_command (svc_capacity s) request t with
  | Err e => res = Err (normalization_error e) ∧ s' = s
  | Ok None => res = Ok (DHealth {| bh_term := s_term (al_state (svc_consensus s));
      bh_revision := s_revision (al_state (svc_consensus s)); bh_protocol_version := 1 |}) ∧ s' = s
  | Ok (Some cmd) => performed cmd s res s'
  end.

Lemma use_case_performs {R} (wrap : R → DispatchResult) (expect : _ → result R BrokerError) cmd
    (s : BrokerApplicationService C) :
  (∀ s0 m s1, spec_handle cmd s0 = (Ok m, s1) →
     ∃ r, expect m = Ok r ∧ dispatched m = Some (wrap r)) →
  al_inv (svc_consensus s) → al_fit cmd (svc_consensus s) →
  let out := map_result wrap (let! r, s := with_consensus (ca_propose cmd) s in (expect r, s)) in
  performed cmd s out.1 out.2.
Proof.
  intros Hv Hi Hf. unfold with_consensus.
  destruct (ca_propose cmd (svc_consensus s)) as [r c'] eqn:E.
  destruct (al_propose cmd _ r c' Hi Hf E) as (Hi' & s0 & Hr & Hp).
  unfold performed, map_result. simpl. destruct r as [m|e]; simpl.
  - destruct (Hv _ _ _ Hp) as (r & -> & Hd). simpl. eauto 10.
  - eauto.
Qed.

Lemma dispatch_meets_spec request t (s : BrokerApplicationService C) :
  al_inv (svc_consensus s) →
  (∀ cmd, request_command (svc_capacity s) request t = Ok (Some cmd) →
     al_fit cmd (svc_consensus s)) →
  dispatch_spec request t s (dispatch request t s).1 (dispatch request t s).2.
Proof.
  intros Hi Hf. unfold dispatch_spec.
  destruct request as [r|r|r|r|r|r|r|r|r|r]; cbn [request_command dispatch] in *;
    try (apply use_case_performs; [|done|by apply Hf];
         intros s0 m s1 [a ->]%spec_answer_variant; eexists; done).
  - split; [|done]. cbn [fst]. unfold svc_health. by rewrite al_term, al_revision.
  - unfold into_normalized. destruct (Capabilities_new (qj_capabilities r)) as [caps|e];
      cbn [map_ok map_err fst snd] in *; [|done].
    apply use_case_performs; [|done|by apply Hf].
    intros s0 m s1 [a ->]%spec_answer_variant. eexists. done.
Qed.

Lemma dispatch_answers_operation request t (s s' : BrokerApplicationService C) d :
  dispatch_spec request t s (Ok d) s' →
  answers_operation (request_operation request) (success_of_dispatch d).
Proof.
  unfold dispatch_spec. destruct request as [r|r|r|r|r|r|r|r|r|r]; cbn [request_command];
    try (intros (_ & _ & s0 & _ & m & [a ->]%spec_answer_variant & [= <-]); done).
  - intros [[= ->] _]. done.
  - destruct (Capabilities_new _) as [caps|e]; cbn [map_ok]; [|by intros []].
    by intros (_ & _ & s0 & _ & m & [a ->]%spec_answer_variant & [= <-]).
Qed.
End dispatch.

(** ** The standalone adapter keeps the promise *)

(** The adapter with its disk and the faults of the coming file-system calls. *)
Record StandaloneNode := MkStandaloneNode {
  sn_adapter : StandaloneConsensusAdapter;
  sn_disk : Disk;
  sn_faults : list (option Fault);
}.

Section standalone.
Context `{L : JsonLaws}.

Definition node_propose (cmd : BrokerCommand) (n : StandaloneNode) :
    result BrokerMutationResult BrokerError * StandaloneNode :=
  let '(r, (a, d)) := propose (default None (head (sn_faults n))) cmd (sn_adapter n) (sn_disk n) in
  (r, MkStandaloneNode a d (tail (sn_faults n))).

#[export] Instance standalone_consensus : ConsensusAdapter StandaloneNode := {|
  ca_term n := adapter_term (sn_adapter n);
  ca_revision n := adapter_revision (sn_adapter n);
  ca_group_directory n := (adapter_group_directory (sn_adapter n), n);
  ca_maintenance_authority := default_maintenance_authority;
  ca_propose := node_propose;
  ca_propose_identified := default_propose_identified;
  ca_acquire_command_session_owner := default_acquire_command_session_owner;
|}.

Definition node_inv (n : StandaloneNode) : Prop :=
  Inv (sa_machine (sn_adapter n)) ∧
  (sa_poisoned (sn_adapter n) = false → holds [] (sn_disk n) (m_state (sa_machine (sn_adapter n)))).

(** What a proposal answers, whatever happens to the disk. *)
Lemma propose_answer io cmd a d :
  Inv (sa_machine a) → admissible cmd (sa_machine a) →
  let '(r, (a', _)) := propose io cmd a d in
  proposed cmd (m_state (sa_machine a)) r (m_state (sa_machine a')).
Proof.
  intros Hi Ha. unfold propose.
  assert (∀ text, adapter_failure (BrokerError_new PersistenceError text)) as Hpe
    by (intros; unfold adapter_failure; simpl; set_solver).
  destruct (sa_poisoned a); [right; split; [apply Hpe|by left]|].
  destruct (apply_refines cmd (sa_machine a) Hi Ha) as (_ & Hr & Hs).
  unfold proposed.
  rewrite (surjective_pairing (spec_handle cmd (m_state (sa_machine a)))), <-Hr, <-Hs.
  destruct (apply cmd (sa_machine a)) as [[am|e] m']; cbn [fst snd map_ok map_err] in *; [|eauto].
  destruct (_ =? _); [done|].
  destruct (commit io _ _ _ d) as [[[]|e] [r1 d1]]; cbn [sa_machine]; [done|].
  right. split; [apply Hpe|by right].
Qed.

Lemma node_propose_keeps cmd n r n' :
  node_inv n → proposal_ok cmd (sn_adapter n) (sn_disk n) → node_propose cmd n = (r, n') →
  node_inv n' ∧ ∃ s0, m_state (sa_machine (sn_adapter n)) = s0 ∧
    proposed cmd s0 r (m_state (sa_machine (sn_adapter n'))).
Proof.
  destruct n as [a d fs]. intros [Hi Hh] Hok. unfold node_propose.
  cbn [sn_adapter sn_disk sn_faults] in *. set (io := default None (head fs)).
  pose proof (propose_answer io cmd a d Hi (proj1 Hok)) as Hans.
  assert (node_inv (MkStandaloneNode (propose io cmd a d).2.1 (propose io cmd a d).2.2 (tail fs)))
    as Hinv.
  { destruct (sa_poisoned a) eqn:Hp.
    - unfold propose, node_inv. rewrite Hp. simpl. split; [done|]. congruence.
    - pose proof (propose_spec io cmd a d Hi Hp (Hh eq_refl) Hok) as Hps.
      destruct (propose io cmd a d) as [r0 [a' d']]. destruct Hps as [Hi' Hps].
      split; [done|]. simpl. intros Hp'. by rewrite Hp' in Hps. }
  destruct (propose io cmd a d) as [r0 [a' d']]. intros [= <- <-]. split; [done|]. by eexists.
Qed.

#[export] Instance standalone_laws : AdapterLaws StandaloneNode := {|
  al_state n := m_state (sa_machine (sn_adapter n));
  al_inv := node_inv;
  al_fit cmd n := proposal_ok cmd (sn_adapter n) (sn_disk n);
  al_ready := eq;
  al_term _ _ := eq_refl;
  al_revision _ _ := eq_refl;
  al_propose := node_propose_keeps;
|}.
End standalone.
