(* ===== verification/Json.v ===== *)
(** * JSON values and derived deserialization

    The part of [serde] and [serde_json] the protocol codecs use.  Reading text
    into a tree and writing a tree as text belong to [serde_json] and are a
    parameter, the class [SerdeJson], with what the codecs rely on in
    [SerdeJsonLaws].  What [#[derive(Deserialize)]] makes of a struct
    declaration is modelled: the fields by name from an object, or by position
    from an array, with duplicate and (where denied) unknown fields refused. *)

From S2P Require Import Prelude Values Wire.

(** A number is a non-negative integer of 64 bits, or something else (negative,
    fractional, out of range), which no field of the protocol accepts.  An
    object is its members in order; a tree read from text may repeat a name. *)
Inductive Value :=
  | VNull
  | VBool (b : bool)
  | VNumber (n : N)
  | VOther (text : string)
  | VString (s : string)
  | VArray (vs : list Value)
  | VObject (kvs : list (string * Value)).

(** ** Objects as ordered maps ([serde_json::Map], a [BTreeMap]) *)

(** [BTreeMap::insert]: in key order, replacing the value of an equal key. *)
Fixpoint obj_insert (k : string) (v : Value) (kvs : list (string * Value)) :
    list (string * Value) :=
  match kvs with
  | [] => [(k, v)]
  | (k', v') :: kvs' =>
      match String.compare k k' with
      | Lt => (k, v) :: kvs
      | Eq => (k, v) :: kvs'
      | Gt => (k', v') :: obj_insert k v kvs'
      end
  end.

Fixpoint obj_get (k : string) (kvs : list (string * Value)) : option Value :=
  match kvs with
  | [] => None
  | (k', v) :: kvs => if String.eqb k k' then Some v else obj_get k kvs
  end.

(** The [object] helper of the codecs: entries collected into a [BTreeMap]. *)
Definition object (entries : list (string * Value)) : Value :=
  VObject (foldl (λ kvs kv, obj_insert kv.1 kv.2 kvs) [] entries).

(** A tree as a [Value]: members collected into an ordered map, at every level. *)
Fixpoint to_value (v : Value) : Value :=
  match v with
  | VArray vs => VArray (map to_value vs)
  | VObject kvs =>
      VObject ((fix go kvs acc :=
        match kvs with
        | [] => acc
        | (k, v) :: kvs => go kvs (obj_insert k (to_value v) acc)
        end) kvs [])
  | _ => v
  end.

(** Nesting of arrays and objects. *)
Fixpoint depth (v : Value) : nat :=
  match v with
  | VArray vs => S (foldr (λ v n, Nat.max (depth v) n) 0%nat vs)
  | VObject kvs => S (foldr (λ kv n, Nat.max (depth kv.2) n) 0%nat kvs)
  | _ => 0%nat
  end.

(** A bound on the compact text: a control character takes at most six bytes,
    as [\u00XX], a quote or backslash two, any other byte one; a 64-bit number
    at most twenty. *)
Definition char_bound (c : Ascii.ascii) : N :=
  let n := Ascii.N_of_ascii c in
  if n <? 32 then 6 else if (n =? 34) || (n =? 92) then 2 else 1.

Fixpoint string_bound (s : string) : N :=
  match s with EmptyString => 2 | String c s => char_bound c + string_bound s end.

Fixpoint text_bound (v : Value) : N :=
  match v with
  | VNull => 4
  | VBool _ => 5
  | VNumber _ => 20
  | VOther t => str_len t
  | VString s => string_bound s
  | VArray vs => 2 + foldr (λ v n, text_bound v + 1 + n) 0 vs
  | VObject kvs => 2 + foldr (λ kv n, string_bound kv.1 + 2 + text_bound kv.2 + n) 0 kvs
  end.

(** What a [Value] can be, fractional and negative numbers apart: members in
    strict key order, numbers of 64 bits. *)
Fixpoint ascending (ks : list string) : bool :=
  match ks with
  | [] => true
  | k :: ks =>
      forallb (λ k', match String.compare k k' with Lt => true | _ => false end) ks && ascending ks
  end.

Fixpoint plain (v : Value) : bool :=
  match v with
  | VNumber n => n <=? u64_max
  | VOther _ => false
  | VArray vs => forallb plain vs
  | VObject kvs => ascending (map fst kvs) && forallb (λ kv, plain kv.2) kvs
  | _ => true
  end.

(** Any tree whose numbers are integers of 64 bits, in whatever member order. *)
Fixpoint tree (v : Value) : bool :=
  match v with
  | VNumber n => n <=? u64_max
  | VOther _ => false
  | VArray vs => forallb tree vs
  | VObject kvs => forallb (λ kv, tree kv.2) kvs
  | _ => true
  end.

(** ** Derived deserialization *)

(** The members of a struct with the fields [names]: by name from an object,
    by position from an array that is not longer.  [deny] is
    [deny_unknown_fields]. *)
Definition count_key (k : string) (kvs : list (string * Value)) : nat :=
  length (List.filter (λ kv, String.eqb k kv.1) kvs).

Definition struct_fields (deny : bool) (names : list string) (v : Value) :
    option (list (option Value)) :=
  match v with
  | VObject kvs =>
      if forallb (λ n, Nat.leb (count_key n kvs) 1) names &&
         (negb deny || forallb (λ kv, existsb (String.eqb kv.1) names) kvs)
      then Some (map (λ n, obj_get n kvs) names) else None
  | VArray vs =>
      if Nat.leb (length vs) (length names)
      then Some (map Some vs ++ replicate (length names - length vs) None)%list else None
  | _ => None
  end.

(** A required field, and an optional one ([Option<T>] with [serde(default)]). *)
Definition field {A} (f : Value → option A) (o : option Value) : option A :=
  match o with Some v => f v | None => None end.

Definition opt_field {A} (f : Value → option A) (o : option Value) : option (option A) :=
  match o with
  | None | Some VNull => Some None
  | Some v => match f v with Some a => Some (Some a) | None => None end
  end.

Definition as_string (v : Value) : option string :=
  match v with VString s => Some s | _ => None end.

Definition as_u64 (v : Value) : option N :=
  match v with VNumber n => if n <=? u64_max then Some n else None | _ => None end.

Definition u32_max : N := 4294967295.

Definition as_u32 (v : Value) : option N :=
  match v with VNumber n => if n <=? u32_max then Some n else None | _ => None end.

Definition as_bool (v : Value) : option bool :=
  match v with VBool b => Some b | _ => None end.

Fixpoint collect {A} (f : Value → option A) (vs : list Value) : option (list A) :=
  match vs with
  | [] => Some []
  | v :: vs =>
      match f v with
      | Some a => match collect f vs with Some l => Some (a :: l) | None => None end
      | None => None
      end
  end.

Definition as_strings (v : Value) : option (list string) :=
  match v with VArray vs => collect as_string vs | _ => None end.

Definition as_value (v : Value) : option Value := Some (to_value v).

(** ** [serde_json] *)

(** [json_read] is the parser, giving the tree of the text; [json_write] is
    [to_vec], on a [Value] or on the tree of a struct with its members in the
    order of their declaration; the two error texts are those of [from_slice] and
    [from_value] for the named type.  [debug_str] is the [Debug] form of a
    string, which depends on the Unicode tables of the standard library. *)
Class SerdeJson := {
  json_read : bytes → option Value;
  json_write : Value → result bytes string;
  slice_error : string → bytes → string;
  value_error : string → Value → string;
  debug_str : string → string;
}.

(** The parser refuses more than 127 levels; within that, a value that was
    written reads back, with or without a line feed after it, and its text holds
    no raw line feed and is as compact as JSON allows.  Quoting does not shorten
    a string. *)
Class SerdeJsonLaws (J : SerdeJson) : Prop := {
  json_tree_reads_back v : tree v = true → (depth v ≤ 127)%nat → ∃ b,
    json_write v = Ok b ∧ json_read b = Some v ∧ json_read (b ++ [newline])%list = Some v ∧
    newline ∉ b;
  json_writes_within v b : plain v = true → json_write v = Ok b → len b ≤ text_bound v;
  debug_str_long s : str_len s ≤ str_len (debug_str s);
}.

Section serde.
Context `{J : SerdeJson}.

Definition from_slice {A} (name : string) (de : Value → option A) (b : bytes) : result A string :=
  match json_read b with
  | Some v => ok_or (de v) (slice_error name b)
  | None => Err (slice_error name b)
  end.

Definition from_value {A} (name : string) (de : Value → option A) (v : Value) : result A string :=
  ok_or (de v) (value_error name v).

End serde.

(** ** Values as they are *)

(** Induction that reaches the members. *)
Fixpoint Value_nested_ind (P : Value → Prop) (Hnull : P VNull) (Hbool : ∀ b, P (VBool b))
    (Hnum : ∀ n, P (VNumber n)) (Hother : ∀ t, P (VOther t)) (Hstr : ∀ s, P (VString s))
    (Harr : ∀ vs, Forall P vs → P (VArray vs))
    (Hobj : ∀ kvs, Forall (λ kv, P kv.2) kvs → P (VObject kvs)) (v : Value) : P v :=
  let go := Value_nested_ind P Hnull Hbool Hnum Hother Hstr Harr Hobj in
  match v with
  | VNull => Hnull
  | VBool b => Hbool b
  | VNumber n => Hnum n
  | VOther t => Hother t
  | VString s => Hstr s
  | VArray vs => Harr vs ((fix all vs : Forall P vs :=
      match vs with [] => Forall_nil_2 _ | v :: vs => Forall_cons_2 _ _ _ (go v) (all vs) end) vs)
  | VObject kvs => Hobj kvs ((fix all kvs : Forall (λ kv, P kv.2) kvs :=
      match kvs with
      | [] => Forall_nil_2 _
      | kv :: kvs => Forall_cons_2 _ _ _ (go kv.2) (all kvs)
      end) kvs)
  end.

Lemma plain_tree v : plain v = true → tree v = true.
Proof.
  induction v as [| | | | |vs IH|kvs IH] using Value_nested_ind; try done; cbn [plain tree].
  - rewrite !forallb_forall. rewrite Forall_forall in IH. intros Hp v Hv.
    apply IH; [by apply list_elem_of_In|auto].
  - intros [_ Hp]%andb_true_iff. revert Hp. rewrite !forallb_forall. rewrite Forall_forall in IH.
    intros Hp kv Hkv. apply IH; [by apply list_elem_of_In|auto].
Qed.

Lemma json_reads_back {J : SerdeJson} {L : SerdeJsonLaws J} v :
  plain v = true → (depth v ≤ 127)%nat → ∃ b,
    json_write v = Ok b ∧ json_read b = Some v ∧ json_read (b ++ [newline])%list = Some v ∧
    newline ∉ b.
Proof. intros Hp. by apply json_tree_reads_back, plain_tree. Qed.

Lemma obj_insert_last k v kvs :
  Forall (λ kv, String.compare kv.1 k = Lt) kvs → obj_insert k v kvs = (kvs ++ [(k, v)])%list.
Proof.
  induction 1 as [|[k' v'] kvs Hk _ IH]; [done|]. simpl in *.
  rewrite String.compare_antisym, Hk. simpl. by rewrite IH.
Qed.

Lemma ascending_cons k ks :
  ascending (k :: ks) = true ↔ Forall (λ k', String.compare k k' = Lt) ks ∧ ascending ks = true.
Proof.
  simpl. rewrite andb_true_iff, forallb_forall, Forall_forall.
  setoid_rewrite <-list_elem_of_In. split; intros [H1 H2]; (split; [|done]); intros k' Hk';
    specialize (H1 k' Hk'); by destruct (String.compare k k').
Qed.

Lemma to_value_plain v : plain v = true → to_value v = v.
Proof.
  induction v as [| | | | |vs IH|kvs IH] using Value_nested_ind; try done; simpl.
  - intros Hp. f_equal. induction IH as [|v vs Hv _ IHvs]; [done|]. simpl in *.
    apply andb_true_iff in Hp as [Hp1 Hp2]. rewrite Hv by done. by rewrite IHvs.
  - intros [Ha Hp]%andb_true_iff. f_equal.
    assert (∀ acc, Forall (λ kv, Forall (λ k, String.compare kv.1 k = Lt) (map fst kvs)) acc →
      (fix go kvs acc := match kvs with
         | [] => acc | (k, v) :: kvs => go kvs (obj_insert k (to_value v) acc) end) kvs acc =
      (acc ++ kvs)%list) as Hgo; [|by apply (Hgo [])].
    induction IH as [|[k v] kvs Hv _ IHk]; intros acc Hacc; [by rewrite app_nil_r|].
    cbn [map fst forallb snd] in *. apply andb_true_iff in Hp as [Hp1 Hp2].
    apply ascending_cons in Ha as [Hk Ha]. rewrite (Hv Hp1), obj_insert_last.
    + rewrite IHk, <-app_assoc; [done..|]. apply Forall_app; split; [|by repeat constructor].
      eapply Forall_impl; [exact Hacc|]. intros kv Hkv. by apply Forall_cons in Hkv as [_ ?].
    + eapply Forall_impl; [exact Hacc|]. intros kv Hkv. by apply Forall_cons in Hkv as [? _].
Qed.
