(* ===== verification/WireSchema.v ===== *)
(** * Wire structures ([wire_v1.rs], [wire_v2.rs], [wire_v3.rs])

    The structs the codecs deserialize into, with the reader that
    [#[derive(Deserialize)]] gives each of them. *)

From S2P Require Import Prelude Values Wire Json.

(** ** Protocol v1 *)

Record ResponseErrorWire := {
  rwe_code : string;
  rwe_message : string;
}.

Definition ResponseErrorWire_de (v : Value) : option ResponseErrorWire :=
  match struct_fields true ["code"; "message"] v with
  | Some [code; message] =>
      code ← field as_string code;
      message ← field as_string message;
      Some {| rwe_code := code; rwe_message := message |}
  | _ => None
  end.

Record RequestEnvelopeWire := {
  re_version : N;
  re_request_id : string;
  re_operation : string;
  re_payload : Value;
}.

Definition RequestEnvelopeWire_de (v : Value) : option RequestEnvelopeWire :=
  match struct_fields true ["version"; "request_id"; "operation"; "payload"] v with
  | Some [version; request_id; operation; payload] =>
      version ← field as_u32 version;
      request_id ← field as_string request_id;
      operation ← field as_string operation;
      payload ← field as_value payload;
      Some {| re_version := version; re_request_id := request_id; re_operation := operation;
        re_payload := payload |}
  | _ => None
  end.

Record EmptyPayload := MkEmptyPayload {}.

Definition EmptyPayload_de (v : Value) : option EmptyPayload :=
  match struct_fields true [] v with
  | Some [] =>
      Some MkEmptyPayload
  | _ => None
  end.

Record NamespacePayload := {
  np_namespace_id : string;
}.

Definition NamespacePayload_de (v : Value) : option NamespacePayload :=
  match struct_fields true ["namespace_id"] v with
  | Some [namespace_id] =>
      namespace_id ← field as_string namespace_id;
      Some {| np_namespace_id := namespace_id |}
  | _ => None
  end.

Record PublishTaskPayload := {
  pp_namespace_id : string;
  pp_task_id : string;
  pp_objective : string;
}.

Definition PublishTaskPayload_de (v : Value) : option PublishTaskPayload :=
  match struct_fields true ["namespace_id"; "task_id"; "objective"] v with
  | Some [namespace_id; task_id; objective] =>
      namespace_id ← field as_string namespace_id;
      task_id ← field as_string task_id;
      objective ← field as_string objective;
      Some {| pp_namespace_id := namespace_id; pp_task_id := task_id; pp_objective := objective |}
  | _ => None
  end.

Record EnsureGroupPayload := {
  gp_namespace_id : string;
  gp_group_id : string;
}.

Definition EnsureGroupPayload_de (v : Value) : option EnsureGroupPayload :=
  match struct_fields true ["namespace_id"; "group_id"] v with
  | Some [namespace_id; group_id] =>
      namespace_id ← field as_string namespace_id;
      group_id ← field as_string group_id;
      Some {| gp_namespace_id := namespace_id; gp_group_id := group_id |}
  | _ => None
  end.

Record JoinGroupPayload := {
  jp_group_id : string;
  jp_member_id : string;
  jp_capabilities : list string;
}.

Definition JoinGroupPayload_de (v : Value) : option JoinGroupPayload :=
  match struct_fields true ["group_id"; "member_id"; "capabilities"] v with
  | Some [group_id; member_id; capabilities] =>
      group_id ← field as_string group_id;
      member_id ← field as_string member_id;
      capabilities ← field as_strings capabilities;
      Some {| jp_group_id := group_id; jp_member_id := member_id;
        jp_capabilities := capabilities |}
  | _ => None
  end.

Record MembershipPayload := {
  mp_group_id : string;
  mp_member_id : string;
  mp_expected_generation : N;
}.

Definition MembershipPayload_de (v : Value) : option MembershipPayload :=
  match struct_fields true ["group_id"; "member_id"; "expected_generation"] v with
  | Some [group_id; member_id; expected_generation] =>
      group_id ← field as_string group_id;
      member_id ← field as_string member_id;
      expected_generation ← field as_u64 expected_generation;
      Some {| mp_group_id := group_id; mp_member_id := member_id;
        mp_expected_generation := expected_generation |}
  | _ => None
  end.

Record ClaimTaskPayload := {
  cpl_group_id : string;
  cpl_member_id : string;
  cpl_expected_term : N;
  cpl_expected_generation : N;
  cpl_lease_id : string;
  cpl_lease_duration_ms : N;
}.

Definition ClaimTaskPayload_de (v : Value) : option ClaimTaskPayload :=
  match struct_fields true
    ["group_id"; "member_id"; "expected_term"; "expected_generation"; "lease_id";
        "lease_duration_ms"] v with
  | Some [group_id; member_id; expected_term; expected_generation; lease_id; lease_duration_ms] =>
      group_id ← field as_string group_id;
      member_id ← field as_string member_id;
      expected_term ← field as_u64 expected_term;
      expected_generation ← field as_u64 expected_generation;
      lease_id ← field as_string lease_id;
      lease_duration_ms ← field as_u64 lease_duration_ms;
      Some {| cpl_group_id := group_id; cpl_member_id := member_id;
        cpl_expected_term := expected_term; cpl_expected_generation := expected_generation;
        cpl_lease_id := lease_id; cpl_lease_duration_ms := lease_duration_ms |}
  | _ => None
  end.

Record RenewTaskPayload := {
  rpl_task_id : string;
  rpl_group_id : string;
  rpl_member_id : string;
  rpl_expected_term : N;
  rpl_expected_generation : N;
  rpl_expected_lease_epoch : N;
  rpl_lease_id : string;
  rpl_lease_duration_ms : N;
}.

Definition RenewTaskPayload_de (v : Value) : option RenewTaskPayload :=
  match struct_fields true
    ["task_id"; "group_id"; "member_id"; "expected_term"; "expected_generation";
        "expected_lease_epoch"; "lease_id"; "lease_duration_ms"] v with
  | Some [task_id; group_id; member_id; expected_term; expected_generation;
        expected_lease_epoch; lease_id; lease_duration_ms] =>
      task_id ← field as_string task_id;
      group_id ← field as_string group_id;
      member_id ← field as_string member_id;
      expected_term ← field as_u64 expected_term;
      expected_generation ← field as_u64 expected_generation;
      expected_lease_epoch ← field as_u64 expected_lease_epoch;
      lease_id ← field as_string lease_id;
      lease_duration_ms ← field as_u64 lease_duration_ms;
      Some {| rpl_task_id := task_id; rpl_group_id := group_id; rpl_member_id := member_id;
        rpl_expected_term := expected_term; rpl_expected_generation := expected_generation;
        rpl_expected_lease_epoch := expected_lease_epoch; rpl_lease_id := lease_id;
        rpl_lease_duration_ms := lease_duration_ms |}
  | _ => None
  end.

Record CompleteTaskPayload := {
  dpl_task_id : string;
  dpl_group_id : string;
  dpl_member_id : string;
  dpl_expected_term : N;
  dpl_expected_generation : N;
  dpl_expected_lease_epoch : N;
  dpl_lease_id : string;
  dpl_result : string;
}.

Definition CompleteTaskPayload_de (v : Value) : option CompleteTaskPayload :=
  match struct_fields true
    ["task_id"; "group_id"; "member_id"; "expected_term"; "expected_generation";
        "expected_lease_epoch"; "lease_id"; "result"] v with
  | Some [task_id; group_id; member_id; expected_term; expected_generation;
        expected_lease_epoch; lease_id; result'] =>
      task_id ← field as_string task_id;
      group_id ← field as_string group_id;
      member_id ← field as_string member_id;
      expected_term ← field as_u64 expected_term;
      expected_generation ← field as_u64 expected_generation;
      expected_lease_epoch ← field as_u64 expected_lease_epoch;
      lease_id ← field as_string lease_id;
      result' ← field as_string result';
      Some {| dpl_task_id := task_id; dpl_group_id := group_id; dpl_member_id := member_id;
        dpl_expected_term := expected_term; dpl_expected_generation := expected_generation;
        dpl_expected_lease_epoch := expected_lease_epoch; dpl_lease_id := lease_id;
        dpl_result := result' |}
  | _ => None
  end.

Record ResponseEnvelopeWire := {
  rw_version : N;
  rw_request_id : string;
  rw_ok : bool;
  rw_result : option Value;
  rw_error : option ResponseErrorWire;
}.

Definition ResponseEnvelopeWire_de (v : Value) : option ResponseEnvelopeWire :=
  match struct_fields true ["version"; "request_id"; "ok"; "result"; "error"] v with
  | Some [version; request_id; ok; result'; error] =>
      version ← field as_u32 version;
      request_id ← field as_string request_id;
      ok ← field as_bool ok;
      result' ← opt_field as_value result';
      error ← opt_field ResponseErrorWire_de error;
      Some {| rw_version := version; rw_request_id := request_id; rw_ok := ok;
        rw_result := result'; rw_error := error |}
  | _ => None
  end.

Record HealthResultWire := {
  hrw_protocol_version : N;
  hrw_term : N;
  hrw_revision : N;
}.

Definition HealthResultWire_de (v : Value) : option HealthResultWire :=
  match struct_fields true ["protocol_version"; "term"; "revision"] v with
  | Some [protocol_version; term; revision] =>
      protocol_version ← field as_u32 protocol_version;
      term ← field as_u64 term;
      revision ← field as_u64 revision;
      Some {| hrw_protocol_version := protocol_version; hrw_term := term;
        hrw_revision := revision |}
  | _ => None
  end.

Record NamespaceResultWire := {
  nrw_term : N;
  nrw_revision : N;
  nrw_namespace_id : string;
  nrw_namespace_revision : N;
}.

Definition NamespaceResultWire_de (v : Value) : option NamespaceResultWire :=
  match struct_fields true ["term"; "revision"; "namespace_id"; "namespace_revision"] v with
  | Some [term; revision; namespace_id; namespace_revision] =>
      term ← field as_u64 term;
      revision ← field as_u64 revision;
      namespace_id ← field as_string namespace_id;
      namespace_revision ← field as_u64 namespace_revision;
      Some {| nrw_term := term; nrw_revision := revision; nrw_namespace_id := namespace_id;
        nrw_namespace_revision := namespace_revision |}
  | _ => None
  end.

Record TaskPublishedResultWire := {
  prw_term : N;
  prw_revision : N;
  prw_task_id : string;
  prw_task_revision : N;
  prw_status : string;
}.

Definition TaskPublishedResultWire_de (v : Value) : option TaskPublishedResultWire :=
  match struct_fields true ["term"; "revision"; "task_id"; "task_revision"; "status"] v with
  | Some [term; revision; task_id; task_revision; status] =>
      term ← field as_u64 term;
      revision ← field as_u64 revision;
      task_id ← field as_string task_id;
      task_revision ← field as_u64 task_revision;
      status ← field as_string status;
      Some {| prw_term := term; prw_revision := revision; prw_task_id := task_id;
        prw_task_revision := task_revision; prw_status := status |}
  | _ => None
  end.

Record ConsumerGroupResultWire := {
  grw_term : N;
  grw_revision : N;
  grw_group_id : string;
  grw_generation : N;
  grw_group_revision : N;
  grw_member_count : N;
}.

Definition ConsumerGroupResultWire_de (v : Value) : option ConsumerGroupResultWire :=
  match struct_fields true
    ["term"; "revision"; "group_id"; "generation"; "group_revision"; "member_count"] v with
  | Some [term; revision; group_id; generation; group_revision; member_count] =>
      term ← field as_u64 term;
      revision ← field as_u64 revision;
      group_id ← field as_string group_id;
      generation ← field as_u64 generation;
      group_revision ← field as_u64 group_revision;
      member_count ← field as_u64 member_count;
      Some {| grw_term := term; grw_revision := revision; grw_group_id := group_id;
        grw_generation := generation; grw_group_revision := group_revision;
        grw_member_count := member_count |}
  | _ => None
  end.

Record HeartbeatResultWire := {
  brw_term : N;
  brw_revision : N;
  brw_group_id : string;
  brw_member_id : string;
  brw_generation : N;
  brw_member_revision : N;
}.

Definition HeartbeatResultWire_de (v : Value) : option HeartbeatResultWire :=
  match struct_fields true
    ["term"; "revision"; "group_id"; "member_id"; "generation"; "member_revision"] v with
  | Some [term; revision; group_id; member_id; generation; member_revision] =>
      term ← field as_u64 term;
      revision ← field as_u64 revision;
      group_id ← field as_string group_id;
      member_id ← field as_string member_id;
      generation ← field as_u64 generation;
      member_revision ← field as_u64 member_revision;
      Some {| brw_term := term; brw_revision := revision; brw_group_id := group_id;
        brw_member_id := member_id; brw_generation := generation;
        brw_member_revision := member_revision |}
  | _ => None
  end.

Record TaskClaimResultWire := {
  crw_term : N;
  crw_revision : N;
  crw_task_id : option string;
  crw_objective : option string;
  crw_task_revision : option N;
  crw_lease_id : option string;
  crw_lease_epoch : option N;
  crw_lease_expires_at_ms : option N;
  crw_generation : N;
}.

Definition TaskClaimResultWire_de (v : Value) : option TaskClaimResultWire :=
  match struct_fields true
    ["term"; "revision"; "task_id"; "objective"; "task_revision"; "lease_id"; "lease_epoch";
        "lease_expires_at_ms"; "generation"] v with
  | Some [term; revision; task_id; objective; task_revision; lease_id; lease_epoch;
        lease_expires_at_ms; generation] =>
      term ← field as_u64 term;
      revision ← field as_u64 revision;
      task_id ← opt_field as_string task_id;
      objective ← opt_field as_string objective;
      task_revision ← opt_field as_u64 task_revision;
      lease_id ← opt_field as_string lease_id;
      lease_epoch ← opt_field as_u64 lease_epoch;
      lease_expires_at_ms ← opt_field as_u64 lease_expires_at_ms;
      generation ← field as_u64 generation;
      Some {| crw_term := term; crw_revision := revision; crw_task_id := task_id;
        crw_objective := objective; crw_task_revision := task_revision;
        crw_lease_id := lease_id; crw_lease_epoch := lease_epoch;
        crw_lease_expires_at_ms := lease_expires_at_ms; crw_generation := generation |}
  | _ => None
  end.

Record TaskLeaseRenewedResultWire := {
  lrw_term : N;
  lrw_revision : N;
  lrw_task_id : string;
  lrw_task_revision : N;
  lrw_lease_id : string;
  lrw_lease_epoch : N;
  lrw_lease_expires_at_ms : N;
  lrw_generation : N;
}.

Definition TaskLeaseRenewedResultWire_de (v : Value) : option TaskLeaseRenewedResultWire :=
  match struct_fields true
    ["term"; "revision"; "task_id"; "task_revision"; "lease_id"; "lease_epoch";
        "lease_expires_at_ms"; "generation"] v with
  | Some [term; revision; task_id; task_revision; lease_id; lease_epoch; lease_expires_at_ms;
        generation] =>
      term ← field as_u64 term;
      revision ← field as_u64 revision;
      task_id ← field as_string task_id;
      task_revision ← field as_u64 task_revision;
      lease_id ← field as_string lease_id;
      lease_epoch ← field as_u64 lease_epoch;
      lease_expires_at_ms ← field as_u64 lease_expires_at_ms;
      generation ← field as_u64 generation;
      Some {| lrw_term := term; lrw_revision := revision; lrw_task_id := task_id;
        lrw_task_revision := task_revision; lrw_lease_id := lease_id;
        lrw_lease_epoch := lease_epoch; lrw_lease_expires_at_ms := lease_expires_at_ms;
        lrw_generation := generation |}
  | _ => None
  end.

Record TaskCompletedResultWire := {
  drw_term : N;
  drw_revision : N;
  drw_task_id : string;
  drw_task_revision : N;
  drw_status : string;
}.

Definition TaskCompletedResultWire_de (v : Value) : option TaskCompletedResultWire :=
  match struct_fields true ["term"; "revision"; "task_id"; "task_revision"; "status"] v with
  | Some [term; revision; task_id; task_revision; status] =>
      term ← field as_u64 term;
      revision ← field as_u64 revision;
      task_id ← field as_string task_id;
      task_revision ← field as_u64 task_revision;
      status ← field as_string status;
      Some {| drw_term := term; drw_revision := revision; drw_task_id := task_id;
        drw_task_revision := task_revision; drw_status := status |}
  | _ => None
  end.

(** ** Protocol v2 *)

Record ResponseErrorV2 := {
  rwe2_code : string;
  rwe2_message : string;
}.

Definition ResponseErrorV2_de (v : Value) : option ResponseErrorV2 :=
  match struct_fields true ["code"; "message"] v with
  | Some [code; message] =>
      code ← field as_string code;
      message ← field as_string message;
      Some {| rwe2_code := code; rwe2_message := message |}
  | _ => None
  end.

Record VersionProbe := {
  vp_version : N;
}.

Definition VersionProbe_de (v : Value) : option VersionProbe :=
  match struct_fields false ["version"] v with
  | Some [version] =>
      version ← field as_u32 version;
      Some {| vp_version := version |}
  | _ => None
  end.

Record RequestEnvelopeV2 := {
  re2_version : N;
  re2_request_id : string;
  re2_operation : string;
  re2_command_session_id : string;
  re2_command_sequence : N;
  re2_payload : Value;
}.

Definition RequestEnvelopeV2_de (v : Value) : option RequestEnvelopeV2 :=
  match struct_fields true
    ["version"; "request_id"; "operation"; "command_session_id"; "command_sequence";
        "payload"] v with
  | Some [version; request_id; operation; command_session_id; command_sequence; payload] =>
      version ← field as_u32 version;
      request_id ← field as_string request_id;
      operation ← field as_string operation;
      command_session_id ← field as_string command_session_id;
      command_sequence ← field as_u64 command_sequence;
      payload ← field as_value payload;
      Some {| re2_version := version; re2_request_id := request_id; re2_operation := operation;
        re2_command_session_id := command_session_id; re2_command_sequence := command_sequence;
        re2_payload := payload |}
  | _ => None
  end.

Record ResponseEnvelopeV2 := {
  rw2_version : N;
  rw2_request_id : string;
  rw2_ok : bool;
  rw2_result : option Value;
  rw2_error : option ResponseErrorV2;
}.

Definition ResponseEnvelopeV2_de (v : Value) : option ResponseEnvelopeV2 :=
  match struct_fields true ["version"; "request_id"; "ok"; "result"; "error"] v with
  | Some [version; request_id; ok; result'; error] =>
      version ← field as_u32 version;
      request_id ← field as_string request_id;
      ok ← field as_bool ok;
      result' ← opt_field as_value result';
      error ← opt_field ResponseErrorV2_de error;
      Some {| rw2_version := version; rw2_request_id := request_id; rw2_ok := ok;
        rw2_result := result'; rw2_error := error |}
  | _ => None
  end.

(** ** Protocol v3 *)

Record ResponseErrorV3 := {
  rwe3_code : string;
  rwe3_message : string;
  rwe3_disposition : string;
}.

Definition ResponseErrorV3_de (v : Value) : option ResponseErrorV3 :=
  match struct_fields true ["code"; "message"; "disposition"] v with
  | Some [code; message; disposition] =>
      code ← field as_string code;
      message ← field as_string message;
      disposition ← field as_string disposition;
      Some {| rwe3_code := code; rwe3_message := message; rwe3_disposition := disposition |}
  | _ => None
  end.

Record RequestEnvelopeV3 := {
  re3_version : N;
  re3_request_id : string;
  re3_operation : string;
  re3_command_session_id : string;
  re3_expected_owner_epoch : option N;
  re3_owner_epoch : option N;
  re3_owner_instance_id : string;
  re3_command_sequence : option N;
  re3_payload : Value;
}.

Definition RequestEnvelopeV3_de (v : Value) : option RequestEnvelopeV3 :=
  match struct_fields true
    ["version"; "request_id"; "operation"; "command_session_id"; "expected_owner_epoch";
        "owner_epoch"; "owner_instance_id"; "command_sequence"; "payload"] v with
  | Some [version; request_id; operation; command_session_id; expected_owner_epoch; owner_epoch;
        owner_instance_id; command_sequence; payload] =>
      version ← field as_u32 version;
      request_id ← field as_string request_id;
      operation ← field as_string operation;
      command_session_id ← field as_string command_session_id;
      expected_owner_epoch ← opt_field as_u64 expected_owner_epoch;
      owner_epoch ← opt_field as_u64 owner_epoch;
      owner_instance_id ← field as_string owner_instance_id;
      command_sequence ← opt_field as_u64 command_sequence;
      payload ← field as_value payload;
      Some {| re3_version := version; re3_request_id := request_id; re3_operation := operation;
        re3_command_session_id := command_session_id;
        re3_expected_owner_epoch := expected_owner_epoch; re3_owner_epoch := owner_epoch;
        re3_owner_instance_id := owner_instance_id; re3_command_sequence := command_sequence;
        re3_payload := payload |}
  | _ => None
  end.

Record ResponseEnvelopeV3 := {
  rw3_version : N;
  rw3_request_id : string;
  rw3_ok : bool;
  rw3_result : option Value;
  rw3_error : option ResponseErrorV3;
}.

Definition ResponseEnvelopeV3_de (v : Value) : option ResponseEnvelopeV3 :=
  match struct_fields true ["version"; "request_id"; "ok"; "result"; "error"] v with
  | Some [version; request_id; ok; result'; error] =>
      version ← field as_u32 version;
      request_id ← field as_string request_id;
      ok ← field as_bool ok;
      result' ← opt_field as_value result';
      error ← opt_field ResponseErrorV3_de error;
      Some {| rw3_version := version; rw3_request_id := request_id; rw3_ok := ok;
        rw3_result := result'; rw3_error := error |}
  | _ => None
  end.
