(* ===== verification/WireV1.v ===== *)
(** * Protocol v1 ([agent-broker-protocol/src/wire_v1.rs])

    The strict JSON codec of requests and responses, one frame per line.  The
    helpers [object], [ensure_frame_limit] and [encode_bounded] are repeated
    with the same text in [wire_v2.rs] and [wire_v3.rs]. *)

From stdpp Require Import pretty.
From S2P Require Import Prelude Values Task Group Messages Display Wire Sessions Service Dispatch.
From S2P Require Import Json WireSchema.

Definition DEFAULT_MAX_FRAME_BYTES : N := 128 * 1024.
Definition MAX_ERROR_MESSAGE_BYTES : N := 4 * 1024.

(** ** Errors *)

Inductive ProtocolCodecError :=
  | FrameTooLarge (actual max : N)
  | CodecInvalidRequest (message : string)
  | ErrorMessageTooLarge (actual max : N)
  | CodecSerialization (message : string).

Inductive ResponseDecodeError :=
  | RdProtocol (e : ProtocolCodecError)
  | RdBroker (e : BrokerError).

Definition ProtocolCodecError_fmt (e : ProtocolCodecError) : string :=
  match e with
  | FrameTooLarge actual max =>
      "protocol frame is " +:+ pretty actual +:+ " bytes; maximum is " +:+ pretty max
  | CodecInvalidRequest message | CodecSerialization message => message
  | ErrorMessageTooLarge actual max =>
      "protocol error message is " +:+ pretty actual +:+ " bytes; maximum is " +:+ pretty max
  end.

#[export] Instance ProtocolCodecError_display : Display ProtocolCodecError :=
  ProtocolCodecError_fmt.

Definition PolicyError_fmt (e : PolicyError) : string :=
  match e with
  | LeaseDurationOutOfRange => "lease_duration_ms must be between 1000 and 1800000 milliseconds"
  | MaintenanceBatchOutOfRange field =>
      field +:+ " must be between 1 and " +:+ pretty MAX_MAINTENANCE_BATCH
  | ZeroCapacity field => field +:+ " must be positive"
  end.

#[export] Instance PolicyError_display : Display PolicyError := PolicyError_fmt.

Definition invalid_request (message : string) : ProtocolCodecError := CodecInvalidRequest message.

Definition invalid_field {E} `{Display E} (name : string) (e : E) : ProtocolCodecError :=
  invalid_request (name +:+ " is invalid: " +:+ to_string e).

(** [new(..).map_err(|error| invalid_field(field, &error))] *)
Definition checked {A E} `{Display E} (name : string) (r : result A E) :
    result A ProtocolCodecError :=
  map_err (invalid_field name) r.

(** ** Frames *)

Definition ensure_frame_limit (actual max : N) : result unit ProtocolCodecError :=
  if actual <=? max then Ok () else Err (FrameTooLarge actual max).

Definition ensure_error_message_bound (message : string) : result unit ProtocolCodecError :=
  if str_len message <=? MAX_ERROR_MESSAGE_BYTES then Ok ()
  else Err (ErrorMessageTooLarge (str_len message) MAX_ERROR_MESSAGE_BYTES).

Section v1.
Context `{J : SerdeJson}.

Definition encode_bounded (value : Value) (max_frame_bytes : N) : result bytes ProtocolCodecError :=
  let^ encoded := map_err CodecSerialization (json_write value) in
  let frame := (encoded ++ [newline])%list in
  let^ _ := ensure_frame_limit (len frame) max_frame_bytes in
  Ok frame.

Definition decode_payload {A} (name : string) (de : Value → option A) (payload : Value) :
    result A ProtocolCodecError :=
  map_err (λ e, invalid_request ("Request payload does not match schema: " +:+ e))
    (from_value name de payload).

(** ** Decoding requests *)

Definition decode_health (request_id : RequestId) (payload : Value) :
    result BrokerRequest ProtocolCodecError :=
  let^ _ := decode_payload "EmptyPayload" EmptyPayload_de payload in
  Ok (ReqHealth {| qq_request_id := request_id |}).

Definition decode_namespace (request_id : RequestId) (payload : Value) :
    result BrokerRequest ProtocolCodecError :=
  let^ p := decode_payload "NamespacePayload" NamespacePayload_de payload in
  let^ namespace_id := checked "namespace_id" (NamespaceId_new (np_namespace_id p)) in
  Ok (ReqEnsureNamespace {| qn_request_id := request_id; qn_namespace_id := namespace_id |}).

Definition decode_publish (request_id : RequestId) (payload : Value) :
    result BrokerRequest ProtocolCodecError :=
  let^ p := decode_payload "PublishTaskPayload" PublishTaskPayload_de payload in
  let^ namespace_id := checked "namespace_id" (NamespaceId_new (pp_namespace_id p)) in
  let^ task_id := checked "task_id" (TaskId_new (pp_task_id p)) in
  let^ objective := checked "objective" (TaskObjective_new (pp_objective p)) in
  Ok (ReqPublishTask {| qp_request_id := request_id; qp_namespace_id := namespace_id;
        qp_task_id := task_id; qp_objective := objective |}).

Definition decode_ensure_group (request_id : RequestId) (payload : Value) :
    result BrokerRequest ProtocolCodecError :=
  let^ p := decode_payload "EnsureGroupPayload" EnsureGroupPayload_de payload in
  let^ namespace_id := checked "namespace_id" (NamespaceId_new (gp_namespace_id p)) in
  let^ group_id := checked "group_id" (ConsumerGroupId_new (gp_group_id p)) in
  Ok (ReqEnsureConsumerGroup {| qg_request_id := request_id; qg_namespace_id := namespace_id;
        qg_group_id := group_id |}).

Definition decode_join_group (request_id : RequestId) (payload : Value) :
    result BrokerRequest ProtocolCodecError :=
  let^ p := decode_payload "JoinGroupPayload" JoinGroupPayload_de payload in
  let^ group_id := checked "group_id" (ConsumerGroupId_new (jp_group_id p)) in
  let^ member_id := checked "member_id" (ConsumerId_new (jp_member_id p)) in
  let^ capabilities := checked "capabilities" (DeclaredCapabilities_new (jp_capabilities p)) in
  Ok (ReqJoinConsumerGroup {| qj_request_id := request_id; qj_group_id := group_id;
        qj_member_id := member_id; qj_capabilities := capabilities |}).

Definition decode_heartbeat (request_id : RequestId) (payload : Value) :
    result BrokerRequest ProtocolCodecError :=
  let^ p := decode_payload "MembershipPayload" MembershipPayload_de payload in
  let^ group_id := checked "group_id" (ConsumerGroupId_new (mp_group_id p)) in
  let^ member_id := checked "member_id" (ConsumerId_new (mp_member_id p)) in
  Ok (ReqHeartbeat {| qh_request_id := request_id; qh_group_id := group_id;
        qh_member_id := member_id; qh_expected_generation := mp_expected_generation p |}).

Definition decode_leave_group (request_id : RequestId) (payload : Value) :
    result BrokerRequest ProtocolCodecError :=
  let^ p := decode_payload "MembershipPayload" MembershipPayload_de payload in
  let^ group_id := checked "group_id" (ConsumerGroupId_new (mp_group_id p)) in
  let^ member_id := checked "member_id" (ConsumerId_new (mp_member_id p)) in
  Ok (ReqLeaveConsumerGroup {| ql_request_id := request_id; ql_group_id := group_id;
        ql_member_id := member_id; ql_expected_generation := mp_expected_generation p |}).

Definition decode_claim (request_id : RequestId) (payload : Value) :
    result BrokerRequest ProtocolCodecError :=
  let^ p := decode_payload "ClaimTaskPayload" ClaimTaskPayload_de payload in
  let^ group_id := checked "group_id" (ConsumerGroupId_new (cpl_group_id p)) in
  let^ member_id := checked "member_id" (ConsumerId_new (cpl_member_id p)) in
  let^ expected_term := checked "expected_term" (Term_new (cpl_expected_term p)) in
  let^ lease_id := checked "lease_id" (LeaseId_new (cpl_lease_id p)) in
  let^ lease_duration :=
    checked "lease_duration_ms" (LeaseDurationMs_new (cpl_lease_duration_ms p)) in
  Ok (ReqClaimTask {| qc_request_id := request_id; qc_group_id := group_id;
        qc_member_id := member_id; qc_expected_term := expected_term;
        qc_expected_generation := cpl_expected_generation p; qc_lease_id := lease_id;
        qc_lease_duration := lease_duration |}).

Definition decode_renew (request_id : RequestId) (payload : Value) :
    result BrokerRequest ProtocolCodecError :=
  let^ p := decode_payload "RenewTaskPayload" RenewTaskPayload_de payload in
  let^ task_id := checked "task_id" (TaskId_new (rpl_task_id p)) in
  let^ group_id := checked "group_id" (ConsumerGroupId_new (rpl_group_id p)) in
  let^ member_id := checked "member_id" (ConsumerId_new (rpl_member_id p)) in
  let^ expected_term := checked "expected_term" (Term_new (rpl_expected_term p)) in
  let^ lease_id := checked "lease_id" (LeaseId_new (rpl_lease_id p)) in
  let^ lease_duration :=
    checked "lease_duration_ms" (LeaseDurationMs_new (rpl_lease_duration_ms p)) in
  Ok (ReqRenewTaskLease {| qr_request_id := request_id; qr_task_id := task_id;
        qr_group_id := group_id; qr_member_id := member_id; qr_expected_term := expected_term;
        qr_expected_generation := rpl_expected_generation p;
        qr_expected_lease_epoch := rpl_expected_lease_epoch p; qr_lease_id := lease_id;
        qr_lease_duration := lease_duration |}).

Definition decode_complete (request_id : RequestId) (payload : Value) :
    result BrokerRequest ProtocolCodecError :=
  let^ p := decode_payload "CompleteTaskPayload" CompleteTaskPayload_de payload in
  let^ task_id := checked "task_id" (TaskId_new (dpl_task_id p)) in
  let^ group_id := checked "group_id" (ConsumerGroupId_new (dpl_group_id p)) in
  let^ member_id := checked "member_id" (ConsumerId_new (dpl_member_id p)) in
  let^ expected_term := checked "expected_term" (Term_new (dpl_expected_term p)) in
  let^ lease_id := checked "lease_id" (LeaseId_new (dpl_lease_id p)) in
  let^ task_result := checked "result" (TaskResult_new (dpl_result p)) in
  Ok (ReqCompleteTask {| qd_request_id := request_id; qd_task_id := task_id;
        qd_group_id := group_id; qd_member_id := member_id; qd_expected_term := expected_term;
        qd_expected_generation := dpl_expected_generation p;
        qd_expected_lease_epoch := dpl_expected_lease_epoch p; qd_lease_id := lease_id;
        qd_result := task_result |}).

Definition decode_operation (operation : Operation) (request_id : RequestId) (payload : Value) :
    result BrokerRequest ProtocolCodecError :=
  match operation with
  | OpHealth => decode_health request_id payload
  | OpEnsureNamespace => decode_namespace request_id payload
  | OpPublishTask => decode_publish request_id payload
  | OpEnsureConsumerGroup => decode_ensure_group request_id payload
  | OpJoinConsumerGroup => decode_join_group request_id payload
  | OpHeartbeat => decode_heartbeat request_id payload
  | OpLeaveConsumerGroup => decode_leave_group request_id payload
  | OpClaimTask => decode_claim request_id payload
  | OpRenewTaskLease => decode_renew request_id payload
  | OpCompleteTask => decode_complete request_id payload
  end.

Definition decode_request_with_limit (frame : bytes) (max_frame_bytes : N) :
    result BrokerRequest ProtocolCodecError :=
  let^ _ := ensure_frame_limit (len frame) max_frame_bytes in
  let^ envelope := map_err
    (λ e, invalid_request ("Request frame must be valid protocol-v1 JSON: " +:+ e))
    (from_slice "RequestEnvelopeWire" RequestEnvelopeWire_de frame) in
  if negb (re_version envelope =? PROTOCOL_VERSION)
  then Err (invalid_request ("Unsupported protocol version " +:+ pretty (re_version envelope) +:+
                             "."))
  else
  let^ request_id := checked "request_id" (RequestId_new (re_request_id envelope)) in
  let^ operation := map_err
    (λ text, invalid_request ("unsupported Broker operation " +:+ debug_str text))
    (Operation_try_from (re_operation envelope)) in
  decode_operation operation request_id (re_payload envelope).

Definition decode_request (frame : bytes) : result BrokerRequest ProtocolCodecError :=
  decode_request_with_limit frame DEFAULT_MAX_FRAME_BYTES.

(** ** Encoding requests *)

Definition membership_payload (group_id : ConsumerGroupId) (member_id : ConsumerId)
    (expected_generation : N) : Value :=
  object [("expected_generation", VNumber expected_generation); ("group_id", VString group_id);
          ("member_id", VString member_id)].

Definition claim_payload (r : ClaimTaskRequest) : Value :=
  object [("expected_generation", VNumber (qc_expected_generation r));
          ("expected_term", VNumber (qc_expected_term r));
          ("group_id", VString (qc_group_id r));
          ("lease_duration_ms", VNumber (qc_lease_duration r));
          ("lease_id", VString (qc_lease_id r));
          ("member_id", VString (qc_member_id r))].

Definition renew_payload (r : RenewTaskLeaseRequest) : Value :=
  object [("expected_generation", VNumber (qr_expected_generation r));
          ("expected_lease_epoch", VNumber (qr_expected_lease_epoch r));
          ("expected_term", VNumber (qr_expected_term r));
          ("group_id", VString (qr_group_id r));
          ("lease_duration_ms", VNumber (qr_lease_duration r));
          ("lease_id", VString (qr_lease_id r));
          ("member_id", VString (qr_member_id r));
          ("task_id", VString (qr_task_id r))].

Definition complete_payload (r : CompleteTaskRequest) : Value :=
  object [("expected_generation", VNumber (qd_expected_generation r));
          ("expected_lease_epoch", VNumber (qd_expected_lease_epoch r));
          ("expected_term", VNumber (qd_expected_term r));
          ("group_id", VString (qd_group_id r));
          ("lease_id", VString (qd_lease_id r));
          ("member_id", VString (qd_member_id r));
          ("result", VString (qd_result r));
          ("task_id", VString (qd_task_id r))].

Definition request_payload (request : BrokerRequest) : Value :=
  match request with
  | ReqHealth _ => object []
  | ReqEnsureNamespace r => object [("namespace_id", VString (qn_namespace_id r))]
  | ReqPublishTask r =>
      object [("namespace_id", VString (qp_namespace_id r));
              ("objective", VString (qp_objective r)); ("task_id", VString (qp_task_id r))]
  | ReqEnsureConsumerGroup r =>
      object [("group_id", VString (qg_group_id r)); ("namespace_id", VString (qg_namespace_id r))]
  | ReqJoinConsumerGroup r =>
      object [("capabilities", VArray (map VString (qj_capabilities r)));
              ("group_id", VString (qj_group_id r)); ("member_id", VString (qj_member_id r))]
  | ReqHeartbeat r =>
      membership_payload (qh_group_id r) (qh_member_id r) (qh_expected_generation r)
  | ReqLeaveConsumerGroup r =>
      membership_payload (ql_group_id r) (ql_member_id r) (ql_expected_generation r)
  | ReqClaimTask r => claim_payload r
  | ReqRenewTaskLease r => renew_payload r
  | ReqCompleteTask r => complete_payload r
  end.

Definition encode_request_with_limit (request : BrokerRequest) (max_frame_bytes : N) :
    result bytes ProtocolCodecError :=
  let root := object
    [("operation", VString (Operation_as_str (request_operation request)));
     ("payload", request_payload request);
     ("request_id", VString (request_request_id request));
     ("version", VNumber PROTOCOL_VERSION)] in
  encode_bounded root max_frame_bytes.

Definition encode_request (request : BrokerRequest) : result bytes ProtocolCodecError :=
  encode_request_with_limit request DEFAULT_MAX_FRAME_BYTES.

End v1.

(** * Protocol v1 responses ([agent-broker-protocol/src/wire_v1.rs]) *)

(** ** Shared checks *)

Definition require_object_keys (value : Value) (expected : list string) (label : string) :
    result unit ProtocolCodecError :=
  match value with
  | VObject kvs =>
      if negb (Nat.eqb (length kvs) (length expected)) ||
         existsb (λ key, match obj_get key kvs with Some _ => false | None => true end) expected
      then Err (invalid_request (label +:+ " fields do not match the protocol-v1 schema."))
      else Ok ()
  | _ => Err (invalid_request (label +:+ " must be a JSON object."))
  end.

Definition wire_term (value : N) (name : string) : result Term ProtocolCodecError :=
  checked name (Term_new value).

Definition wire_positive_revision (value : N) (name : string) :
    result Revision ProtocolCodecError :=
  if value =? 0 then Err (invalid_request (name +:+ " must be positive.")) else Ok value.

Definition task_status_str (status : TaskStatus) : string :=
  match status with
  | StatusQueued => "queued" | StatusLeased => "leased" | StatusCompleted => "completed"
  end.

Section v1.
Context `{J : SerdeJson}.

Definition task_status (value : string) : result TaskStatus ProtocolCodecError :=
  if decide (value = "queued") then Ok StatusQueued
  else if decide (value = "leased") then Ok StatusLeased
  else if decide (value = "completed") then Ok StatusCompleted
  else Err (invalid_request ("Unknown task status " +:+ debug_str value +:+ ".")).

Definition parse_error_code (value : string) : result BrokerErrorCode ProtocolCodecError :=
  if decide (value = "INVALID_REQUEST") then Ok InvalidRequest
  else if decide (value = "NOT_FOUND") then Ok NotFound
  else if decide (value = "CONFLICT") then Ok Conflict
  else if decide (value = "CAPACITY_EXCEEDED") then Ok CodeCapacityExceeded
  else if decide (value = "STALE_FENCE") then Ok StaleFence
  else if decide (value = "PERSISTENCE_ERROR") then Ok PersistenceError
  else if decide (value = "TRANSPORT_ERROR") then Ok TransportError
  else if decide (value = "COMMIT_OUTCOME_UNKNOWN") then Ok CommitOutcomeUnknown
  else if decide (value = "INTERNAL_ERROR") then Ok InternalError
  else Err (invalid_request ("Unknown Broker error code " +:+ debug_str value +:+ ".")).

(** ** Decoding results *)

Definition decode_health_result (value : Value) : result SuccessPayload ProtocolCodecError :=
  let^ _ := require_object_keys value ["protocol_version"; "revision"; "term"] "health result" in
  let^ wire := decode_payload "HealthResultWire" HealthResultWire_de value in
  if negb (hrw_protocol_version wire =? PROTOCOL_VERSION)
  then Err (invalid_request "Health protocol_version does not match protocol-v1.") else
  let^ term := wire_term (hrw_term wire) "term" in
  Ok (SHealth (hrw_protocol_version wire) term (hrw_revision wire)).

Definition decode_namespace_result (value : Value) : result SuccessPayload ProtocolCodecError :=
  let^ _ := require_object_keys value
    ["namespace_id"; "namespace_revision"; "revision"; "term"] "namespace result" in
  let^ wire := decode_payload "NamespaceResultWire" NamespaceResultWire_de value in
  let^ term := wire_term (nrw_term wire) "term" in
  let^ namespace_id := checked "namespace_id" (NamespaceId_new (nrw_namespace_id wire)) in
  let^ namespace_revision :=
    wire_positive_revision (nrw_namespace_revision wire) "namespace_revision" in
  Ok (SNamespace term (nrw_revision wire) namespace_id namespace_revision).

Definition decode_task_published_result (value : Value) :
    result SuccessPayload ProtocolCodecError :=
  let^ _ := require_object_keys value
    ["revision"; "status"; "task_id"; "task_revision"; "term"] "task publish result" in
  let^ wire := decode_payload "TaskPublishedResultWire" TaskPublishedResultWire_de value in
  let^ term := wire_term (prw_term wire) "term" in
  let^ task_id := checked "task_id" (TaskId_new (prw_task_id wire)) in
  let^ task_revision := wire_positive_revision (prw_task_revision wire) "task_revision" in
  let^ status := task_status (prw_status wire) in
  Ok (STaskPublished term (prw_revision wire) task_id task_revision status).

Definition decode_consumer_group_result (value : Value) :
    result SuccessPayload ProtocolCodecError :=
  let^ _ := require_object_keys value
    ["generation"; "group_id"; "group_revision"; "member_count"; "revision"; "term"]
    "Consumer Group result" in
  let^ wire := decode_payload "ConsumerGroupResultWire" ConsumerGroupResultWire_de value in
  let^ term := wire_term (grw_term wire) "term" in
  let^ group_id := checked "group_id" (ConsumerGroupId_new (grw_group_id wire)) in
  let^ group_revision := wire_positive_revision (grw_group_revision wire) "group_revision" in
  Ok (SConsumerGroup term (grw_revision wire) group_id (grw_generation wire) group_revision
        (grw_member_count wire)).

Definition decode_heartbeat_result (value : Value) : result SuccessPayload ProtocolCodecError :=
  let^ _ := require_object_keys value
    ["generation"; "group_id"; "member_id"; "member_revision"; "revision"; "term"]
    "heartbeat result" in
  let^ wire := decode_payload "HeartbeatResultWire" HeartbeatResultWire_de value in
  let^ term := wire_term (brw_term wire) "term" in
  let^ group_id := checked "group_id" (ConsumerGroupId_new (brw_group_id wire)) in
  let^ member_id := checked "member_id" (ConsumerId_new (brw_member_id wire)) in
  let^ member_revision := wire_positive_revision (brw_member_revision wire) "member_revision" in
  Ok (SHeartbeat term (brw_revision wire) group_id member_id (brw_generation wire)
        member_revision).

(** [.map(new).transpose()] *)
Definition transposed {A B E} (new : A → result B E) (o : option A) : result (option B) E :=
  match o with None => Ok None | Some a => map_ok Some (new a) end.

Definition present {A} (o : option A) : bool := match o with Some _ => true | None => false end.

Definition decode_task_claim_result (value : Value) : result SuccessPayload ProtocolCodecError :=
  let^ _ := require_object_keys value
    ["generation"; "lease_epoch"; "lease_expires_at_ms"; "lease_id"; "objective"; "revision";
     "task_id"; "task_revision"; "term"] "task claim result" in
  let^ wire := decode_payload "TaskClaimResultWire" TaskClaimResultWire_de value in
  let^ task_id := checked "task_id" (transposed TaskId_new (crw_task_id wire)) in
  let^ objective := checked "objective" (transposed TaskObjective_new (crw_objective wire)) in
  let^ lease_id := checked "lease_id" (transposed LeaseId_new (crw_lease_id wire)) in
  let populated := present task_id in
  if existsb (λ b, negb (Bool.eqb b populated))
       [present objective; present (crw_task_revision wire); present lease_id;
        present (crw_lease_epoch wire); present (crw_lease_expires_at_ms wire)]
  then Err (invalid_request
    "Task claim result must contain either a complete lease payload or all null fields.") else
  let^ term := wire_term (crw_term wire) "term" in
  Ok (STaskClaimed term (crw_revision wire) task_id objective (crw_task_revision wire) lease_id
        (crw_lease_epoch wire) (crw_lease_expires_at_ms wire) (crw_generation wire)).

Definition decode_task_lease_renewed_result (value : Value) :
    result SuccessPayload ProtocolCodecError :=
  let^ _ := require_object_keys value
    ["generation"; "lease_epoch"; "lease_expires_at_ms"; "lease_id"; "revision"; "task_id";
     "task_revision"; "term"] "task renew result" in
  let^ wire := decode_payload "TaskLeaseRenewedResultWire" TaskLeaseRenewedResultWire_de value in
  let^ term := wire_term (lrw_term wire) "term" in
  let^ task_id := checked "task_id" (TaskId_new (lrw_task_id wire)) in
  let^ task_revision := wire_positive_revision (lrw_task_revision wire) "task_revision" in
  let^ lease_id := checked "lease_id" (LeaseId_new (lrw_lease_id wire)) in
  Ok (STaskLeaseRenewed term (lrw_revision wire) task_id task_revision lease_id
        (lrw_lease_epoch wire) (lrw_lease_expires_at_ms wire) (lrw_generation wire)).

Definition decode_task_completed_result (value : Value) :
    result SuccessPayload ProtocolCodecError :=
  let^ _ := require_object_keys value
    ["revision"; "status"; "task_id"; "task_revision"; "term"] "task complete result" in
  let^ wire := decode_payload "TaskCompletedResultWire" TaskCompletedResultWire_de value in
  let^ term := wire_term (drw_term wire) "term" in
  let^ task_id := checked "task_id" (TaskId_new (drw_task_id wire)) in
  let^ task_revision := wire_positive_revision (drw_task_revision wire) "task_revision" in
  let^ status := task_status (drw_status wire) in
  Ok (STaskCompleted term (drw_revision wire) task_id task_revision status).

Definition decode_success_payload (operation : Operation) (value : Value) :
    result SuccessPayload ProtocolCodecError :=
  match operation with
  | OpHealth => decode_health_result value
  | OpEnsureNamespace => decode_namespace_result value
  | OpPublishTask => decode_task_published_result value
  | OpEnsureConsumerGroup | OpJoinConsumerGroup | OpLeaveConsumerGroup =>
      decode_consumer_group_result value
  | OpHeartbeat => decode_heartbeat_result value
  | OpClaimTask => decode_task_claim_result value
  | OpRenewTaskLease => decode_task_lease_renewed_result value
  | OpCompleteTask => decode_task_completed_result value
  end.

(** Protocol errors convert into the error of a response decoder with [?]. *)
Definition as_protocol {A} (r : result A ProtocolCodecError) : result A ResponseDecodeError :=
  map_err RdProtocol r.

Definition decode_response_for_operation_with_limit (frame : bytes)
    (expected_request_id : RequestId) (operation : Operation) (max_frame_bytes : N) :
    result SuccessPayload ResponseDecodeError :=
  let^ _ := as_protocol (ensure_frame_limit (len frame) max_frame_bytes) in
  let^ envelope := as_protocol (map_err
    (λ e, invalid_request ("Response frame must be valid protocol-v1 JSON: " +:+ e))
    (from_slice "ResponseEnvelopeWire" ResponseEnvelopeWire_de frame)) in
  if negb (rw_version envelope =? PROTOCOL_VERSION)
  then Err (RdProtocol (invalid_request ("Unsupported response protocol version " +:+
              pretty (rw_version envelope) +:+ ".")))
  else if negb (String.eqb (rw_request_id envelope) expected_request_id)
  then Err (RdProtocol (invalid_request "Response request_id does not match the request."))
  else if negb (rw_ok envelope) then
    if present (rw_result envelope)
    then Err (RdProtocol (invalid_request "Error response must not contain result.")) else
    let^ error := as_protocol
      (ok_or (rw_error envelope) (invalid_request "Error response must contain error.")) in
    let^ _ := as_protocol (ensure_error_message_bound (rwe_message error)) in
    let^ code := as_protocol (parse_error_code (rwe_code error)) in
    Err (RdBroker (BrokerError_new code (rwe_message error)))
  else if present (rw_error envelope)
  then Err (RdProtocol (invalid_request "Success response must not contain error."))
  else
  let^ value := as_protocol
    (ok_or (rw_result envelope) (invalid_request "Success response must contain result.")) in
  as_protocol (decode_success_payload operation value).

Definition decode_response_for_operation (frame : bytes) (expected_request_id : RequestId)
    (operation : Operation) : result SuccessPayload ResponseDecodeError :=
  decode_response_for_operation_with_limit frame expected_request_id operation
    DEFAULT_MAX_FRAME_BYTES.

(** ** Encoding responses *)

Definition option_u64 (o : option N) : Value :=
  match o with None => VNull | Some n => VNumber n end.

Definition option_string (o : option string) : Value :=
  match o with None => VNull | Some s => VString s end.

Definition member_count_u64 (member_count : N) : result N ProtocolCodecError :=
  if member_count <=? u64_max then Ok member_count
  else Err (CodecSerialization ("member_count cannot be serialized: " +:+
              "out of range integral type conversion attempted")).

Definition health_success_payload (protocol_version : N) (term : Term) (revision : Revision) :
    Value :=
  object [("protocol_version", VNumber protocol_version); ("revision", VNumber revision);
          ("term", VNumber term)].

Definition namespace_success_payload (term : Term) (revision : Revision)
    (namespace_id : NamespaceId) (namespace_revision : Revision) : Value :=
  object [("namespace_id", VString namespace_id);
          ("namespace_revision", VNumber namespace_revision); ("revision", VNumber revision);
          ("term", VNumber term)].

Definition consumer_group_success_payload (term : Term) (revision : Revision)
    (group_id : ConsumerGroupId) (generation : Generation) (group_revision : Revision)
    (member_count : N) : result Value ProtocolCodecError :=
  let^ member_count := member_count_u64 member_count in
  Ok (object [("generation", VNumber generation); ("group_id", VString group_id);
              ("group_revision", VNumber group_revision); ("member_count", VNumber member_count);
              ("revision", VNumber revision); ("term", VNumber term)]).

Definition heartbeat_success_payload (term : Term) (revision : Revision)
    (group_id : ConsumerGroupId) (member_id : ConsumerId) (generation : Generation)
    (member_revision : Revision) : Value :=
  object [("generation", VNumber generation); ("group_id", VString group_id);
          ("member_id", VString member_id); ("member_revision", VNumber member_revision);
          ("revision", VNumber revision); ("term", VNumber term)].

Definition task_status_payload (term : Term) (revision : Revision) (task_id : TaskId)
    (task_revision : Revision) (status : TaskStatus) : Value :=
  object [("revision", VNumber revision); ("status", VString (task_status_str status));
          ("task_id", VString task_id); ("task_revision", VNumber task_revision);
          ("term", VNumber term)].

Definition claim_success_payload (term : Term) (revision : Revision) (task_id : option TaskId)
    (objective : option TaskObjective) (task_revision : option Revision)
    (lease_id : option LeaseId) (lease_epoch : option LeaseEpoch)
    (lease_expires_at_ms : option TimestampMs) (generation : Generation) : Value :=
  object [("generation", VNumber generation); ("lease_epoch", option_u64 lease_epoch);
          ("lease_expires_at_ms", option_u64 lease_expires_at_ms);
          ("lease_id", option_string lease_id); ("objective", option_string objective);
          ("revision", VNumber revision); ("task_id", option_string task_id);
          ("task_revision", option_u64 task_revision); ("term", VNumber term)].

Definition claimed_success_from_payload (payload : SuccessPayload) :
    result Value ProtocolCodecError :=
  match payload with
  | STaskClaimed term revision task_id objective task_revision lease_id lease_epoch
      lease_expires_at_ms generation =>
      Ok (claim_success_payload term revision task_id objective task_revision lease_id lease_epoch
            lease_expires_at_ms generation)
  | _ => Err (CodecSerialization "internal TaskClaimed response mapping mismatch")
  end.

Definition renewed_success_payload (term : Term) (revision : Revision) (task_id : TaskId)
    (task_revision : Revision) (lease_id : LeaseId) (lease_epoch : LeaseEpoch)
    (lease_expires_at_ms : TimestampMs) (generation : Generation) : Value :=
  object [("generation", VNumber generation); ("lease_epoch", VNumber lease_epoch);
          ("lease_expires_at_ms", VNumber lease_expires_at_ms); ("lease_id", VString lease_id);
          ("revision", VNumber revision); ("task_id", VString task_id);
          ("task_revision", VNumber task_revision); ("term", VNumber term)].

Definition renewed_success_from_payload (payload : SuccessPayload) :
    result Value ProtocolCodecError :=
  match payload with
  | STaskLeaseRenewed term revision task_id task_revision lease_id lease_epoch
      lease_expires_at_ms generation =>
      Ok (renewed_success_payload term revision task_id task_revision lease_id lease_epoch
            lease_expires_at_ms generation)
  | _ => Err (CodecSerialization "internal TaskLeaseRenewed response mapping mismatch")
  end.

Definition success_payload (payload : SuccessPayload) : result Value ProtocolCodecError :=
  match payload with
  | SHealth protocol_version term revision =>
      Ok (health_success_payload protocol_version term revision)
  | SNamespace term revision namespace_id namespace_revision =>
      Ok (namespace_success_payload term revision namespace_id namespace_revision)
  | STaskPublished term revision task_id task_revision status
  | STaskCompleted term revision task_id task_revision status =>
      Ok (task_status_payload term revision task_id task_revision status)
  | SConsumerGroup term revision group_id generation group_revision member_count =>
      consumer_group_success_payload term revision group_id generation group_revision member_count
  | SHeartbeat term revision group_id member_id generation member_revision =>
      Ok (heartbeat_success_payload term revision group_id member_id generation member_revision)
  | STaskClaimed _ _ _ _ _ _ _ _ _ => claimed_success_from_payload payload
  | STaskLeaseRenewed _ _ _ _ _ _ _ _ => renewed_success_from_payload payload
  | SSessionOwnerAcquired _ =>
      Err (CodecInvalidRequest "command-session owner acquisition is not a protocol-v1 response")
  end.

(** The tree of a response frame. *)
Definition response_root (response : BrokerResponse) : result Value ProtocolCodecError :=
  match response with
  | ResponseSuccess request_id payload =>
      let^ value := success_payload payload in
      Ok (object [("ok", VBool true); ("request_id", VString request_id); ("result", value);
                  ("version", VNumber PROTOCOL_VERSION)])
  | ResponseError request_id error =>
      let^ _ := ensure_error_message_bound (ep_message error) in
      Ok (object [("error", object [("code", VString (code_as_str (ep_code error)));
                                    ("message", VString (ep_message error))]);
                  ("ok", VBool false); ("request_id", VString request_id);
                  ("version", VNumber PROTOCOL_VERSION)])
  end.

Definition encode_response_with_limit (response : BrokerResponse) (max_frame_bytes : N) :
    result bytes ProtocolCodecError :=
  let^ root := response_root response in
  encode_bounded root max_frame_bytes.

Definition encode_response (response : BrokerResponse) : result bytes ProtocolCodecError :=
  encode_response_with_limit response DEFAULT_MAX_FRAME_BYTES.

End v1.
