(* ===== verification/WireV1Props.v ===== *)
(** * Protocol v1: what is encoded is decoded, what is decoded is valid *)

From S2P Require Import Prelude Values Task Group Messages Valid Display ReplicatedProps Sessions.
From S2P Require Import Wire Service Dispatch Json WireSchema WireV1.

(** ** Valid requests *)

Definition valid_request_id (id : RequestId) : Prop := RequestId_new id = Ok id.

Definition valid_declared (caps : DeclaredCapabilities) : Prop :=
  len caps ≤ MAX_DECLARED_CAPABILITIES ∧ Forall (λ c, Capability_new c = Ok c) caps.

Definition valid_duration (d : N) : Prop := MIN_LEASE_DURATION_MS ≤ d ≤ MAX_LEASE_DURATION_MS.

(** What the constructors of the field types guarantee; the numbers have 64 bits. *)
Definition valid_request (request : BrokerRequest) : Prop :=
  valid_request_id (request_request_id request) ∧
  match request with
  | ReqHealth _ => True
  | ReqEnsureNamespace r => valid_id (qn_namespace_id r)
  | ReqPublishTask r =>
      valid_id (qp_namespace_id r) ∧ valid_id (qp_task_id r) ∧ valid_objective (qp_objective r)
  | ReqEnsureConsumerGroup r => valid_id (qg_namespace_id r) ∧ valid_id (qg_group_id r)
  | ReqJoinConsumerGroup r =>
      valid_id (qj_group_id r) ∧ valid_id (qj_member_id r) ∧ valid_declared (qj_capabilities r)
  | ReqHeartbeat r =>
      valid_id (qh_group_id r) ∧ valid_id (qh_member_id r) ∧ qh_expected_generation r ≤ u64_max
  | ReqLeaveConsumerGroup r =>
      valid_id (ql_group_id r) ∧ valid_id (ql_member_id r) ∧ ql_expected_generation r ≤ u64_max
  | ReqClaimTask r =>
      valid_id (qc_group_id r) ∧ valid_id (qc_member_id r) ∧ 0 < qc_expected_term r ≤ u64_max ∧
      qc_expected_generation r ≤ u64_max ∧ valid_id (qc_lease_id r) ∧
      valid_duration (qc_lease_duration r)
  | ReqRenewTaskLease r =>
      valid_id (qr_task_id r) ∧ valid_id (qr_group_id r) ∧ valid_id (qr_member_id r) ∧
      0 < qr_expected_term r ≤ u64_max ∧ qr_expected_generation r ≤ u64_max ∧
      qr_expected_lease_epoch r ≤ u64_max ∧ valid_id (qr_lease_id r) ∧
      valid_duration (qr_lease_duration r)
  | ReqCompleteTask r =>
      valid_id (qd_task_id r) ∧ valid_id (qd_group_id r) ∧ valid_id (qd_member_id r) ∧
      0 < qd_expected_term r ≤ u64_max ∧ qd_expected_generation r ≤ u64_max ∧
      qd_expected_lease_epoch r ≤ u64_max ∧ valid_id (qd_lease_id r) ∧ valid_result (qd_result r)
  end.

(** ** Frames *)

Section frames.
Context `{L : SerdeJsonLaws}.

Lemma ensure_frame_limit_ok n max u : ensure_frame_limit n max = Ok u ↔ n ≤ max.
Proof. destruct u. unfold ensure_frame_limit. destruct (N.leb_spec n max); split; (done || lia). Qed.

(** A frame is the text of a value and a line feed. *)
Definition framed (v : Value) (f : bytes) : Prop :=
  ∃ b, json_write v = Ok b ∧ f = (b ++ [newline])%list.

Lemma encode_bounded_framed v max f : encode_bounded v max = Ok f → framed v f ∧ len f ≤ max.
Proof.
  unfold encode_bounded. destruct (json_write v) as [b|] eqn:Hb; [|done]. cbn [map_err].
  destruct (ensure_frame_limit _ _) as [u|] eqn:Hl; [|done]. apply ensure_frame_limit_ok in Hl.
  intros [= <-]. split; [by exists b|done].
Qed.

(** A bounded frame of a plain value is its text and a line feed, and reads
    back; it fails only by its length. *)
Lemma encode_bounded_spec v max :
  plain v = true → (depth v ≤ 127)%nat →
  match encode_bounded v max with
  | Ok f => len f ≤ max ∧ json_read f = Some v ∧ (∃ b, f = b ++ [newline] ∧ newline ∉ b)%list
  | Err e => ∃ n, e = FrameTooLarge n max ∧ max < n
  end.
Proof.
  intros Hp Hd. destruct (json_reads_back v Hp Hd) as (b & Hw & _ & Hr & Hn).
  unfold encode_bounded. rewrite Hw. cbn [map_err]. unfold ensure_frame_limit.
  destruct (N.leb_spec (len (b ++ [newline])%list) max); eauto.
Qed.
End frames.

(** ** Requests read back *)

Lemma RequestId_new_inv s s' : RequestId_new s = Ok s' → s' = s ∧ valid_request_id s.
Proof.
  unfold valid_request_id. intros H. assert (s' = s) as ->; [|done].
  unfold RequestId_new in H. repeat case_match; naive_solver.
Qed.

Lemma Operation_reads_back o : Operation_try_from (Operation_as_str o) = Ok o.
Proof. by destruct o. Qed.

Lemma LeaseDurationMs_new_ok d d' : LeaseDurationMs_new d = Ok d' ↔ d' = d ∧ valid_duration d.
Proof.
  unfold LeaseDurationMs_new, valid_duration.
  destruct (N.ltb_spec d MIN_LEASE_DURATION_MS), (N.ltb_spec MAX_LEASE_DURATION_MS d); simpl;
    split; try done; (lia || naive_solver lia).
Qed.

Lemma LeaseDurationMs_new_fits d : valid_duration d → LeaseDurationMs_new d = Ok d.
Proof. intros H. by apply LeaseDurationMs_new_ok. Qed.

Lemma Capability_new_inv s s' : Capability_new s = Ok s' → s' = s.
Proof. unfold Capability_new. repeat case_match; naive_solver. Qed.

Lemma DeclaredCapabilities_new_ok l l' :
  DeclaredCapabilities_new l = Ok l' ↔ l' = l ∧ valid_declared l.
Proof.
  unfold DeclaredCapabilities_new, valid_declared.
  destruct (N.ltb_spec MAX_DECLARED_CAPABILITIES (len l)); [split; [done|naive_solver lia]|].
  assert ((∃ l0, try_map Capability_new l = Ok l0) ↔ Forall (λ c, Capability_new c = Ok c) l) as Hf.
  { clear. induction l as [|c l IH]; [split; eauto|]. cbn [try_map]. rewrite Forall_cons, <-IH.
    destruct (Capability_new c) as [c'|] eqn:Hc; [|naive_solver].
    pose proof (Capability_new_inv _ _ Hc) as ->. destruct (try_map Capability_new l); naive_solver. }
  destruct (try_map Capability_new l) as [l0|]; [|naive_solver].
  split; [intros [= <-]; naive_solver|naive_solver].
Qed.

Lemma DeclaredCapabilities_new_fits l : valid_declared l → DeclaredCapabilities_new l = Ok l.
Proof. intros H. by apply DeclaredCapabilities_new_ok. Qed.

Lemma as_u64_fits n : n ≤ u64_max → as_u64 (VNumber n) = Some n.
Proof. intros H. unfold as_u64. by rewrite (proj2 (N.leb_le _ _) H). Qed.

Lemma objective_fits s : valid_objective s → TaskObjective_new s = Ok s.
Proof. done. Qed.

Lemma task_result_fits s : valid_result s → TaskResult_new s = Ok s.
Proof. done. Qed.

Lemma duration_fits d : valid_duration d → d ≤ u64_max.
Proof. unfold valid_duration, MAX_LEASE_DURATION_MS, u64_max. lia. Qed.

Lemma collect_strings l : collect as_string (map VString l) = Some l.
Proof. induction l as [|s l IH]; [done|]. simpl in *. by rewrite IH. Qed.

Lemma plain_strings l : plain (VArray (map VString l)) = true.
Proof. simpl. by induction l. Qed.

Lemma depth_strings l : depth (VArray (map VString l)) = 1%nat.
Proof. simpl. f_equal. by induction l. Qed.

(** Put the members of an object in order. *)
Ltac eval_object :=
  match goal with
  | |- context [object ?l] =>
      let v := eval vm_compute in (object l) in change (object l) with v
  end.

(** Evaluate the fields of a struct, then read them. *)
Ltac read_struct :=
  match goal with
  | |- context [struct_fields ?d ?n ?v] =>
      let f := eval vm_compute in (struct_fields d n v) in
      change (struct_fields d n v) with f
  end;
  cbn [field opt_field as_string as_bool as_value as_strings mbind option_bind ok_or map_err].

(** Run the constructors of valid fields. *)
Ltac construct :=
  unfold checked, NamespaceId_new, TaskId_new, ConsumerGroupId_new, ConsumerId_new, LeaseId_new;
  repeat first
    [ rewrite as_u64_fits by (done || lia || by apply duration_fits)
    | progress cbn [mbind option_bind ok_or map_err]
    | rewrite valid_id_new by done
    | rewrite Term_new_fits by (done || lia)
    | rewrite LeaseDurationMs_new_fits by done
    | rewrite DeclaredCapabilities_new_fits by done
    | rewrite objective_fits by done
    | rewrite task_result_fits by done ].

Section requests.
Context `{L : SerdeJsonLaws}.

Lemma request_payload_plain r :
  valid_request r → plain (request_payload r) = true ∧ (depth (request_payload r) ≤ 2)%nat.
Proof.
  intros [_ Hr]. destruct r as [r|r|r|r|r|r|r|r|r|r]; cbn [request_payload].
  5: { pose proof (plain_strings (qj_capabilities r)) as Hp.
       pose proof (depth_strings (qj_capabilities r)) as Hd.
       revert Hp Hd. generalize (VArray (map VString (qj_capabilities r))). intros v Hp Hd.
       eval_object. simpl. rewrite Hp, Hd. split; [done|lia]. }
  all: unfold membership_payload, claim_payload, renew_payload, complete_payload; eval_object;
    (split; [|simpl; lia]); cbn [plain forallb snd];
    rewrite ?(λ n, proj2 (N.leb_le n u64_max))
      by (destruct_and?; done || lia || by apply duration_fits); done.
Qed.

Lemma decode_operation_reads_back r :
  valid_request r →
  decode_operation (request_operation r) (request_request_id r) (request_payload r) = Ok r.
Proof.
  unfold valid_request.
  destruct r as [[]|[]|[]|[]|[]|[]|[]|[]|[]|[]];
    cbn -[N.le N.lt valid_id valid_declared valid_objective valid_result valid_duration];
    intros; destruct_and?;
    unfold decode_operation, decode_health, decode_namespace, decode_publish, decode_ensure_group,
      decode_join_group, decode_heartbeat, decode_leave_group, decode_claim, decode_renew,
      decode_complete, decode_payload, from_value, EmptyPayload_de, NamespacePayload_de,
      PublishTaskPayload_de, EnsureGroupPayload_de, JoinGroupPayload_de, MembershipPayload_de,
      ClaimTaskPayload_de, RenewTaskPayload_de, CompleteTaskPayload_de, membership_payload,
      claim_payload, renew_payload, complete_payload;
    cbn [request_payload].
  5: generalize (collect_strings qj_capabilities); generalize (map VString qj_capabilities);
     intros vs Hvs.
  all: try read_struct; rewrite ?Hvs; by construct.
Qed.
(** The tree of a request frame. *)
Definition request_root (operation request_id : string) (payload : Value) : Value :=
  VObject [("operation", VString operation); ("payload", payload);
           ("request_id", VString request_id); ("version", VNumber PROTOCOL_VERSION)].

Lemma request_root_plain operation request_id payload :
  plain payload = true → (depth payload ≤ 2)%nat →
  plain (request_root operation request_id payload) = true ∧
  (depth (request_root operation request_id payload) ≤ 127)%nat.
Proof. intros Hp Hd. simpl. rewrite Hp. split; [done|lia]. Qed.

Lemma request_root_envelope operation request_id payload :
  RequestEnvelopeWire_de (request_root operation request_id payload) =
  Some {| re_version := 1; re_request_id := request_id; re_operation := operation;
          re_payload := to_value payload |}.
Proof. done. Qed.

(** A frame that holds a request, whoever wrote it. *)
Lemma decode_request_root f max r :
  valid_request r → len f ≤ max →
  json_read f = Some (request_root (Operation_as_str (request_operation r)) (request_request_id r)
                        (request_payload r)) →
  decode_request_with_limit f max = Ok r.
Proof.
  intros Hr Hl Hf. unfold decode_request_with_limit.
  rewrite (proj2 (ensure_frame_limit_ok _ _ ()) Hl). unfold from_slice. rewrite Hf.
  destruct (request_payload_plain r Hr) as [Hp _]. apply to_value_plain in Hp.
  pose proof (decode_operation_reads_back r Hr) as Hd. destruct Hr as [Hid _].
  rewrite request_root_envelope, Hp. cbn [ok_or map_err re_version re_request_id re_operation re_payload].
  change (negb (1 =? PROTOCOL_VERSION)) with false. cbn iota.
  rewrite Hid. cbn [map_err checked]. by rewrite Operation_reads_back.
Qed.

(** Encoding fails only by the frame limit, and what it gives is decoded. *)
Lemma encode_request_spec r max :
  valid_request r →
  match encode_request_with_limit r max with
  | Ok f =>
      len f ≤ max ∧ (∃ b, f = b ++ [newline] ∧ newline ∉ b)%list ∧
      json_read f = Some (request_root (Operation_as_str (request_operation r))
                            (request_request_id r) (request_payload r)) ∧
      decode_request_with_limit f max = Ok r
  | Err e => ∃ n, e = FrameTooLarge n max ∧ max < n
  end.
Proof.
  intros Hr. destruct (request_payload_plain r Hr) as [Hp Hd]. unfold encode_request_with_limit.
  destruct (request_root_plain (Operation_as_str (request_operation r)) (request_request_id r)
    _ Hp Hd) as [Hrp Hrd].
  match goal with |- context [encode_bounded ?v max] =>
    change v with (request_root (Operation_as_str (request_operation r)) (request_request_id r)
                     (request_payload r)) end.
  pose proof (encode_bounded_spec _ max Hrp Hrd) as He.
  destruct (encode_bounded _ max) as [f|e]; [|done]. destruct He as (Hl & Hf & Hb).
  split_and!; [done..|]. by apply decode_request_root.
Qed.

(** ** Decoded requests are valid *)

Lemma field_u64 o n : field as_u64 o = Some n → n ≤ u64_max.
Proof.
  destruct o as [v|]; simpl; [|done]. destruct v; simpl; try done.
  destruct (N.leb_spec n0 u64_max); [|done]. by intros [= <-].
Qed.

Lemma checked_ok {A E} `{Display E} name (r : result A E) a : checked name r = Ok a → r = Ok a.
Proof. destruct r; simpl; congruence. Qed.

Lemma decode_payload_ok {A} name (de : Value → option A) v p :
  decode_payload name de v = Ok p → de v = Some p.
Proof. unfold decode_payload, from_value. destruct (de v); simpl; congruence. Qed.

End requests.

(** Invert a decoder that succeeded. *)
Ltac decoded :=
  repeat match goal with
  | H : (match ?x with Ok _ => _ | Err _ => _ end) = Ok _ |- _ => destruct x eqn:?; [|done]
  | H : checked _ _ = Ok _ |- _ => apply checked_ok in H
  | H : decode_payload _ _ _ = Ok _ |- _ => apply decode_payload_ok in H
  | H : Term_new _ = Ok _ |- _ => apply Term_new_ok in H as [-> ?]
  | H : NamespaceId_new _ = Ok _ |- _ => apply identifier_new_ok in H as [-> ?]
  | H : TaskId_new _ = Ok _ |- _ => apply identifier_new_ok in H as [-> ?]
  | H : ConsumerGroupId_new _ = Ok _ |- _ => apply identifier_new_ok in H as [-> ?]
  | H : ConsumerId_new _ = Ok _ |- _ => apply identifier_new_ok in H as [-> ?]
  | H : LeaseId_new _ = Ok _ |- _ => apply identifier_new_ok in H as [-> ?]
  | H : TaskObjective_new _ = Ok _ |- _ => apply TaskObjective_new_ok in H as [-> ?]
  | H : TaskResult_new _ = Ok _ |- _ => apply TaskResult_new_ok in H as [-> ?]
  | H : LeaseDurationMs_new _ = Ok _ |- _ => apply LeaseDurationMs_new_ok in H as [-> ?]
  | H : DeclaredCapabilities_new _ = Ok _ |- _ => apply DeclaredCapabilities_new_ok in H as [-> ?]
  end.

(** Invert the reader of a struct. *)
Ltac read_inv :=
  repeat match goal with
  | H : (match ?x with Some _ => _ | None => _ end) = Some _ |- _ => destruct x eqn:?; [|done]
  | H : (match ?l with [] => _ | _ :: _ => _ end) = Some _ |- _ => destruct l; try done
  | H : _ ≫= _ = Some _ |- _ => apply bind_Some in H as (? & ? & ?)
  | H : field as_u64 _ = Some _ |- _ => apply field_u64 in H
  end; simplify_eq/=.

Section decoded.
Context `{J : SerdeJson}.

Lemma decode_operation_valid o id v r :
  valid_request_id id → decode_operation o id v = Ok r →
  valid_request r ∧ request_request_id r = id ∧ request_operation r = o.
Proof.
  intros Hid. unfold valid_request.
  destruct o; cbn [decode_operation];
    unfold decode_health, decode_namespace, decode_publish, decode_ensure_group,
      decode_join_group, decode_heartbeat, decode_leave_group, decode_claim, decode_renew,
      decode_complete; intros Hd; decoded;
    unfold MembershipPayload_de, ClaimTaskPayload_de, RenewTaskPayload_de, CompleteTaskPayload_de in *;
    read_inv; done.
Qed.

Lemma decode_request_valid f max r :
  decode_request_with_limit f max = Ok r → valid_request r ∧ len f ≤ max.
Proof.
  unfold decode_request_with_limit. intros Hd.
  destruct (ensure_frame_limit _ _) as [u|] eqn:Hl; [|done]. apply ensure_frame_limit_ok in Hl.
  destruct (map_err _ _) as [envelope|]; [|done]. destruct (negb _); [done|].
  destruct (checked "request_id" _) as [id|] eqn:Hid; [|done].
  apply checked_ok, RequestId_new_inv in Hid as [-> Hid].
  destruct (map_err _ _) as [o|]; [|done]. by apply decode_operation_valid in Hd as [? _].
Qed.
End decoded.
