(* ===== verification/WireResponseProps.v ===== *)
(** * Protocol v1 responses read back, and their sizes

    Every response of the protocol decodes to what was encoded, and its frame is
    within the default limit. *)

From S2P Require Import Prelude Values Task Group Messages Valid Display Wire ReplicatedProps Words.
From S2P Require Import ErrorTexts Sessions Service Dispatch DispatchProps Json WireSchema WireV1.
From S2P Require Import WireV1Props.

(** ** Valid payloads *)


(** All or none of the fields of a claimed task. *)
Definition claim_shape (task_id : option TaskId) (objective : option TaskObjective)
    (task_revision : option Revision) (lease_id : option LeaseId) (lease_epoch : option LeaseEpoch)
    (lease_expires_at_ms : option TimestampMs) : Prop :=
  match task_id, objective, task_revision, lease_id, lease_epoch, lease_expires_at_ms with
  | Some t, Some o, Some r, Some l, Some e, Some x =>
      valid_id t ∧ valid_objective o ∧ word r ∧ valid_id l ∧ word e ∧ word x
  | None, None, None, None, None, None => True
  | _, _, _, _, _, _ => False
  end.

Definition valid_payload (p : SuccessPayload) : Prop :=
  match p with
  | SHealth protocol_version term revision =>
      protocol_version = PROTOCOL_VERSION ∧ positive_word term ∧ word revision
  | SNamespace term revision namespace_id namespace_revision =>
      positive_word term ∧ word revision ∧ valid_id namespace_id ∧
      positive_word namespace_revision
  | STaskPublished term revision task_id task_revision _
  | STaskCompleted term revision task_id task_revision _ =>
      positive_word term ∧ word revision ∧ valid_id task_id ∧ positive_word task_revision
  | SConsumerGroup term revision group_id generation group_revision member_count =>
      positive_word term ∧ word revision ∧ valid_id group_id ∧ word generation ∧
      positive_word group_revision ∧ word member_count
  | SHeartbeat term revision group_id member_id generation member_revision =>
      positive_word term ∧ word revision ∧ valid_id group_id ∧ valid_id member_id ∧
      word generation ∧ positive_word member_revision
  | STaskClaimed term revision task_id objective task_revision lease_id lease_epoch
      lease_expires_at_ms generation =>
      positive_word term ∧ word revision ∧ word generation ∧
      claim_shape task_id objective task_revision lease_id lease_epoch lease_expires_at_ms
  | STaskLeaseRenewed term revision task_id task_revision lease_id lease_epoch
      lease_expires_at_ms generation =>
      positive_word term ∧ word revision ∧ valid_id task_id ∧ positive_word task_revision ∧
      valid_id lease_id ∧ word lease_epoch ∧ word lease_expires_at_ms ∧ word generation
  | SSessionOwnerAcquired owner_epoch => positive_word owner_epoch
  end.

(** ** Results *)

Lemma parse_error_code_reads_back `{SerdeJson} c : parse_error_code (code_as_str c) = Ok c.
Proof. by destruct c. Qed.

Lemma task_status_reads_back `{SerdeJson} s : task_status (task_status_str s) = Ok s.
Proof. by destruct s. Qed.

Lemma positive_revision_fits n name : 0 < n → wire_positive_revision n name = Ok n.
Proof. intros Hn. unfold wire_positive_revision. by destruct (N.eqb_spec n 0); [lia|]. Qed.

Lemma wire_term_fits n name : 0 < n → wire_term n name = Ok n.
Proof. intros Hn. unfold wire_term, checked. by rewrite Term_new_fits. Qed.

Lemma word_leb n : word n → (n <=? u64_max) = true.
Proof. apply N.leb_le. Qed.

Lemma positive_word_leb n : positive_word n → (n <=? u64_max) = true.
Proof. intros []. by apply N.leb_le. Qed.

Ltac check_keys :=
  match goal with
  | |- context [require_object_keys ?v ?ks ?l] =>
      let r := eval vm_compute in (require_object_keys v ks l) in
      change (require_object_keys v ks l) with r
  end.

(** Read a written payload: its words, its keys, its fields. *)
Ltac words :=
  change (PROTOCOL_VERSION <=? u64_max) with true;
  change (1 <=? u64_max) with true;
  repeat first [rewrite word_leb by done | rewrite positive_word_leb by done].

Ltac open_payload :=
  eval_object; (split; [cbn [plain forallb snd]; words; done|]);
  (split; [simpl; lia|]);
  cbn [decode_success_payload];
  unfold decode_health_result, decode_namespace_result, decode_task_published_result,
    decode_consumer_group_result, decode_heartbeat_result, decode_task_claim_result,
    decode_task_lease_renewed_result, decode_task_completed_result;
  check_keys; cbn iota beta; unfold decode_payload, from_value, HealthResultWire_de,
    NamespaceResultWire_de, TaskPublishedResultWire_de, ConsumerGroupResultWire_de,
    HeartbeatResultWire_de, TaskClaimResultWire_de, TaskLeaseRenewedResultWire_de,
    TaskCompletedResultWire_de;
  read_struct; unfold as_u64; words; cbn [mbind option_bind ok_or map_err].

Ltac read_payload :=
  open_payload;
  unfold checked, NamespaceId_new, TaskId_new, ConsumerGroupId_new, ConsumerId_new, LeaseId_new;
  repeat first
    [ rewrite wire_term_fits by (unfold positive_word in *; simpl; lia)
    | rewrite positive_revision_fits by (unfold positive_word in *; simpl; lia)
    | rewrite valid_id_new by done
    | rewrite objective_fits by done
    | progress cbn [map_err transposed map_ok crw_task_id crw_objective crw_lease_id] ].

Definition word_opt (o : option N) : Prop := match o with Some n => word n | None => True end.

(** The numbers of a payload have 64 bits. *)
Definition word_payload (p : SuccessPayload) : Prop :=
  match p with
  | SHealth protocol_version term revision => word protocol_version ∧ word term ∧ word revision
  | SNamespace term revision _ namespace_revision => word term ∧ word revision ∧ word namespace_revision
  | STaskPublished term revision _ task_revision _
  | STaskCompleted term revision _ task_revision _ => word term ∧ word revision ∧ word task_revision
  | SConsumerGroup term revision _ generation group_revision member_count =>
      word term ∧ word revision ∧ word generation ∧ word group_revision ∧ word member_count
  | SHeartbeat term revision _ _ generation member_revision =>
      word term ∧ word revision ∧ word generation ∧ word member_revision
  | STaskClaimed term revision _ _ task_revision _ lease_epoch lease_expires_at_ms generation =>
      word term ∧ word revision ∧ word_opt task_revision ∧ word_opt lease_epoch ∧
      word_opt lease_expires_at_ms ∧ word generation
  | STaskLeaseRenewed term revision _ task_revision _ lease_epoch lease_expires_at_ms generation =>
      word term ∧ word revision ∧ word task_revision ∧ word lease_epoch ∧
      word lease_expires_at_ms ∧ word generation
  | SSessionOwnerAcquired owner_epoch => word owner_epoch
  end.

Lemma wire_term_inv n name t : wire_term n name = Ok t → t = n.
Proof.
  unfold wire_term, checked. destruct (Term_new n) as [t'|] eqn:Ht; [|done].
  apply Term_new_ok in Ht as [-> _]. by intros [= <-].
Qed.

Lemma wire_positive_revision_inv n name t : wire_positive_revision n name = Ok t → t = n.
Proof. unfold wire_positive_revision. case_match; by intros [= <-]. Qed.

Lemma checked_id_inv kind name s t : checked name (identifier_new kind s) = Ok t → t = s.
Proof.
  unfold checked. destruct (identifier_new kind s) as [t'|] eqn:Ht; [|done].
  apply identifier_new_ok in Ht as [-> _]. by intros [= <-].
Qed.

Lemma transposed_inv {A F} (new : A → result A F) o o' :
  (∀ a a', new a = Ok a' → a' = a) → transposed new o = Ok o' → o' = o.
Proof.
  intros Hn. destruct o as [a|]; cbn; [|by intros [= <-]]. destruct (new a) eqn:E; [|done].
  intros [= <-]. by rewrite (Hn _ _ E).
Qed.

Lemma checked_transposed_inv {A F} `{Display F} name (new : A → result A F) o o' :
  (∀ a a', new a = Ok a' → a' = a) → checked name (transposed new o) = Ok o' → o' = o.
Proof.
  intros Hn. unfold checked. destruct (transposed new o) as [x|] eqn:Ht; [|done].
  intros [= <-]. by eapply transposed_inv.
Qed.

(** Take the steps of a decoder that succeeded: each field is what was read. *)
Ltac trust :=
  let q := fresh "q" in intros q;
  repeat match goal with
  | |- match ?r with Ok _ => _ | Err _ => _ end = Ok q → _ =>
      let E := fresh "E" in destruct r eqn:E; [|discriminate];
      first [apply wire_term_inv in E | apply wire_positive_revision_inv in E
            | apply checked_id_inv in E
            | apply checked_transposed_inv in E;
              [|by first [intros ?? [-> _]%identifier_new_ok | intros ?? [-> _]%TaskObjective_new_ok]]
            | rewrite task_status_reads_back in E; injection E as E]; subst
  | |- (if ?b then _ else _) = Ok q → _ => destruct b; [discriminate|]
  end; by intros [= <-].

Section responses.
Context `{L : SerdeJsonLaws}.

(** A valid payload is written as a plain flat object that reads back. *)
Lemma success_reads_back o p :
  answers_operation o p → valid_payload p →
  ∃ v, success_payload p = Ok v ∧ plain v = true ∧ (depth v ≤ 1)%nat ∧
    decode_success_payload o v = Ok p.
Proof.
  destruct o, p; cbn [answers_operation valid_payload]; try done; intros _ Hv; destruct_and?;
    unfold success_payload, consumer_group_success_payload, member_count_u64,
      claimed_success_from_payload, renewed_success_from_payload;
    words; (eexists; split; [reflexivity|]);
    unfold health_success_payload, namespace_success_payload, task_status_payload,
      heartbeat_success_payload, claim_success_payload, renewed_success_payload.
  all: try (destruct status); unfold claim_shape in *; repeat case_match; try done;
    destruct_and?; subst; read_payload; try done.
  cbn -[wire_term]. rewrite wire_term_fits; [done|apply H1].
Qed.

(** Of a payload in 64 bits, whatever else it is, a client reads nothing but the
    payload. *)
Lemma success_trusted o p v :
  o ≠ OpHealth → answers_operation o p → word_payload p → success_payload p = Ok v →
  plain v = true ∧ (depth v ≤ 1)%nat ∧ ∀ q, decode_success_payload o v = Ok q → q = p.
Proof.
  destruct o, p; cbn [answers_operation word_payload]; try done; intros _ _ Hv; destruct_and?;
    unfold success_payload, consumer_group_success_payload, member_count_u64,
      claimed_success_from_payload, renewed_success_from_payload;
    words; intros [= <-];
    unfold health_success_payload, namespace_success_payload, task_status_payload,
      heartbeat_success_payload, claim_success_payload, renewed_success_payload.
  all: try (destruct status);
    try (destruct task_id, objective, task_revision, lease_id, lease_epoch, lease_expires_at_ms;
         cbn [word_opt option_u64 option_string] in *);
    open_payload;
    unfold NamespaceId_new, TaskId_new, ConsumerGroupId_new, ConsumerId_new, LeaseId_new;
    cbn -[checked wire_term wire_positive_revision task_status transposed existsb]; trust.
Qed.

(** The tree of a success frame and of an error frame. *)
Definition success_root (request_id : RequestId) (value : Value) : Value :=
  VObject [("ok", VBool true); ("request_id", VString request_id); ("result", value);
           ("version", VNumber PROTOCOL_VERSION)].

Definition error_root (request_id : RequestId) (code message : string) : Value :=
  VObject [("error", VObject [("code", VString code); ("message", VString message)]);
           ("ok", VBool false); ("request_id", VString request_id);
           ("version", VNumber PROTOCOL_VERSION)].

(** A frame that holds a success or an error, whoever wrote it. *)
Lemma decode_success_root f max o id v :
  len f ≤ max → json_read f = Some (success_root id v) → plain v = true → v ≠ VNull →
  decode_response_for_operation_with_limit f id o max =
    as_protocol (decode_success_payload o v).
Proof.
  intros Hl Hf Hp Hn. unfold decode_response_for_operation_with_limit.
  rewrite (proj2 (ensure_frame_limit_ok _ _ ()) Hl). unfold from_slice. rewrite Hf.
  assert (ResponseEnvelopeWire_de (success_root id v) =
    Some {| rw_version := 1; rw_request_id := id; rw_ok := true; rw_result := Some v;
            rw_error := None |}) as ->.
  { pose proof (to_value_plain v Hp) as Hv. unfold ResponseEnvelopeWire_de, success_root.
    read_struct. destruct v; try done; by rewrite Hv. }
  cbn [ok_or map_err as_protocol rw_version rw_request_id rw_ok rw_result rw_error present].
  change (negb (1 =? PROTOCOL_VERSION)) with false. by rewrite String.eqb_refl.
Qed.

Lemma decode_error_root f max o id code message :
  len f ≤ max → json_read f = Some (error_root id (code_as_str code) message) →
  str_len message ≤ MAX_ERROR_MESSAGE_BYTES →
  decode_response_for_operation_with_limit f id o max =
    Err (RdBroker (BrokerError_new code message)).
Proof.
  intros Hl Hf Hm. unfold decode_response_for_operation_with_limit.
  rewrite (proj2 (ensure_frame_limit_ok _ _ ()) Hl). unfold from_slice. rewrite Hf.
  assert (ResponseEnvelopeWire_de (error_root id (code_as_str code) message) =
    Some {| rw_version := 1; rw_request_id := id; rw_ok := false; rw_result := None;
            rw_error := Some {| rwe_code := code_as_str code; rwe_message := message |} |}) as ->
    by by destruct code.
  cbn [ok_or map_err as_protocol rw_version rw_request_id rw_ok rw_result rw_error present].
  change (negb (1 =? PROTOCOL_VERSION)) with false. rewrite String.eqb_refl.
  cbn [negb rwe_message rwe_code].
  unfold ensure_error_message_bound. rewrite (proj2 (N.leb_le _ _) Hm). cbn [map_err].
  by rewrite parse_error_code_reads_back.
Qed.

Lemma object_not_null o p v : answers_operation o p → success_payload p = Ok v → v ≠ VNull.
Proof.
  destruct o, p; try done; intros _; cbn [success_payload];
    try (intros [= <-]; done).
  all: unfold consumer_group_success_payload; destruct (member_count_u64 _); [|done];
    intros [= <-]; done.
Qed.

(** What a response is to the client that waits for it. *)
Definition delivered (response : BrokerResponse) : result SuccessPayload ResponseDecodeError :=
  match response with
  | ResponseSuccess _ p => Ok p
  | ResponseError _ e => Err (RdBroker (BrokerError_new (ep_code e) (ep_message e)))
  end.

(** What the broker answers to an operation: a payload of that operation with
    values in range, or any error. *)
Definition proper_response (o : Operation) (response : BrokerResponse) : Prop :=
  match response with
  | ResponseSuccess _ p => answers_operation o p ∧ valid_payload p
  | ResponseError _ _ => True
  end.

(** The text of an error, which the encoders bound. *)
Definition error_text (response : BrokerResponse) : string :=
  match response with ResponseSuccess _ _ => "" | ResponseError _ e => ep_message e end.

(** A proper response whose error text is within the bound. *)
Definition valid_response (o : Operation) (response : BrokerResponse) : Prop :=
  match response with
  | ResponseSuccess _ p => answers_operation o p ∧ valid_payload p
  | ResponseError _ e => str_len (ep_message e) ≤ MAX_ERROR_MESSAGE_BYTES
  end.

Lemma proper_valid o response :
  proper_response o response → str_len (error_text response) ≤ MAX_ERROR_MESSAGE_BYTES →
  valid_response o response.
Proof. by destruct response. Qed.

(** A longer text is refused before anything is encoded. *)
Definition text_refused (response : BrokerResponse) : ProtocolCodecError :=
  ErrorMessageTooLarge (str_len (error_text response)) MAX_ERROR_MESSAGE_BYTES.

Lemma long_text_refused response max :
  MAX_ERROR_MESSAGE_BYTES < str_len (error_text response) →
  encode_response_with_limit response max = Err (text_refused response).
Proof.
  destruct response as [id p|id e]; cbn [error_text]; [done|]. intros Hm.
  unfold encode_response_with_limit, response_root, ensure_error_message_bound.
  by rewrite (proj2 (N.leb_gt _ _) Hm).
Qed.

Lemma encoded_text_fits response max f :
  encode_response_with_limit response max = Ok f →
  str_len (error_text response) ≤ MAX_ERROR_MESSAGE_BYTES.
Proof.
  intros He. destruct (N.le_gt_cases (str_len (error_text response)) MAX_ERROR_MESSAGE_BYTES) as [|Hl];
    [done|]. by rewrite (long_text_refused _ max Hl) in He.
Qed.

(** The tree of a valid response. *)
Lemma response_root_spec o response :
  valid_response o response →
  ∃ root, response_root response = Ok root ∧ plain root = true ∧ (depth root ≤ 127)%nat ∧
    ∀ f max, len f ≤ max → json_read f = Some root →
      decode_response_for_operation_with_limit f (response_request_id response) o max =
        delivered response.
Proof.
  destruct response as [id p|id e]; cbn [valid_response response_root].
  - intros [Ho Hv]. destruct (success_reads_back o p Ho Hv) as (v & Hs & Hp & Hd & Hdec).
    rewrite Hs. exists (success_root id v). split_and!; [done|simpl; by rewrite Hp|simpl; lia|].
    intros f max Hl Hf. cbn [response_request_id delivered].
    rewrite (decode_success_root f max o id v) by (done || by eapply object_not_null).
    by rewrite Hdec.
  - intros Hm. unfold ensure_error_message_bound. rewrite (proj2 (N.leb_le _ _) Hm).
    exists (error_root id (code_as_str (ep_code e)) (ep_message e)).
    split_and!; [done|done|simpl; lia|]. intros f max Hl Hf. by apply decode_error_root.
Qed.

Lemma encode_response_spec o response max :
  valid_response o response →
  match encode_response_with_limit response max with
  | Ok f =>
      len f ≤ max ∧ (∃ b, f = b ++ [newline] ∧ newline ∉ b)%list ∧
      decode_response_for_operation_with_limit f (response_request_id response) o max =
        delivered response
  | Err e => ∃ n, e = FrameTooLarge n max ∧ max < n
  end.
Proof.
  intros Hv. destruct (response_root_spec o response Hv) as (root & Hr & Hp & Hd & Hdec).
  unfold encode_response_with_limit. rewrite Hr.
  pose proof (encode_bounded_spec root max Hp Hd) as He.
  destruct (encode_bounded root max) as [f|e]; [|done]. destruct He as (Hl & Hf & Hb).
  split_and!; auto.
Qed.
End responses.

(** * Sizes of responses

    The largest response carries a claimed objective of 16 KiB, every byte of
    which may be escaped to six.  It fits the default frame limit of 128 KiB, so
    under that limit (or a higher one) every valid answer can be encoded. *)

Abbreviation entries_bound :=
  (foldr (λ kv n, string_bound kv.1 + 2 + text_bound kv.2 + n) 0).

Lemma obj_insert_bound k v kvs :
  entries_bound (obj_insert k v kvs) ≤ string_bound k + 2 + text_bound v + entries_bound kvs.
Proof.
  induction kvs as [|[k' v'] kvs IH]; cbn [obj_insert]; [done|].
  destruct (String.compare k k'); cbn [foldr fst snd] in *; lia.
Qed.

Lemma object_bound entries : text_bound (object entries) ≤ 2 + entries_bound entries.
Proof.
  unfold object. cbn [text_bound].
  assert (∀ acc, entries_bound (foldl (λ kvs kv, obj_insert kv.1 kv.2 kvs) acc entries) ≤
    entries_bound entries + entries_bound acc) as H; [|specialize (H []); cbn in H; lia].
  induction entries as [|[k v] es IH]; intros acc; cbn [foldl foldr fst snd]; [lia|].
  etrans; [apply IH|]. pose proof (obj_insert_bound k v acc). lia.
Qed.

(** In general six bytes for one; identifiers need no escapes. *)
Lemma string_bound_le s : string_bound s ≤ 6 * str_len s + 2.
Proof.
  unfold str_len. induction s as [|c s IH]; cbn [string_bound String.length]; [lia|].
  assert (char_bound c ≤ 6) by (unfold char_bound; repeat case_match; lia). lia.
Qed.

Lemma plain_string_bound s :
  all_bytes (λ c, is_ascii_alphanumeric c || is_identifier_punct c) s = true →
  string_bound s = str_len s + 2.
Proof.
  unfold str_len. induction s as [|c s IH]; cbn [all_bytes string_bound String.length]; [lia|].
  intros [Hc Hs]%andb_true_iff. rewrite IH by done.
  assert (char_bound c = 1); [|lia]. revert Hc. clear.
  destruct c as [[] [] [] [] [] [] [] []]; vm_compute; congruence.
Qed.

Lemma id_bound id : valid_id id → string_bound id ≤ 130.
Proof.
  intros (c & rest & -> & Hl & Hc & Hr)%validate_identifier_ok.
  rewrite plain_string_bound; [lia|]. cbn [all_bytes]. by rewrite Hc, Hr.
Qed.

Lemma valid_objective_size o : valid_objective o → string_bound o ≤ 98306.
Proof.
  intros Ho. assert (str_len o ≤ 16384); [|pose proof (string_bound_le o); lia].
  revert Ho. unfold valid_objective, TaskObjective_new, validate_text, MAX_OBJECTIVE_BYTES.
  do 2 (case_match; [done|]). intros _. by apply N.ltb_ge.
Qed.

Lemma request_id_size id : valid_request_id id → string_bound id ≤ 770.
Proof.
  intros Hid. assert (str_len id ≤ 128); [|pose proof (string_bound_le id); lia].
  revert Hid. unfold valid_request_id, RequestId_new, MAX_REQUEST_ID_BYTES. destruct id; [done|].
  case_match; [done|]. intros _. rewrite orb_false_iff, N.ltb_ge in *. naive_solver.
Qed.

(** Bound an object of known entries. *)
Ltac entries_size :=
  cbn [foldr fst snd text_bound];
  repeat match goal with |- context [string_bound (String ?c ?s)] =>
    let n := eval vm_compute in (string_bound (String c s)) in
    change (string_bound (String c s)) with n
  end.

Ltac object_size := etrans; [apply object_bound|]; entries_size.

Lemma option_u64_size o : text_bound (option_u64 o) ≤ 20.
Proof. destruct o; cbn; lia. Qed.

Definition MAX_SUCCESS_BYTES : N := 110000.

Lemma success_payload_size p v :
  valid_payload p → success_payload p = Ok v → text_bound v ≤ MAX_SUCCESS_BYTES.
Proof.
  unfold MAX_SUCCESS_BYTES.
  destruct p; cbn [valid_payload success_payload claimed_success_from_payload
    renewed_success_from_payload]; intros Hp Hv; try done;
    try (injection Hv as <-);
    repeat match goal with
    | H : _ ∧ _ |- _ => destruct H
    | H : valid_id _ |- _ => apply id_bound in H
    end.
  - object_size. lia.
  - object_size. lia.
  - object_size. assert (string_bound (task_status_str status) ≤ 20) by (by destruct status). lia.
  - unfold consumer_group_success_payload in Hv. destruct (member_count_u64 _); [|done].
    injection Hv as <-. object_size. lia.
  - object_size. lia.
  - object_size.
    pose proof (option_u64_size lease_epoch). pose proof (option_u64_size lease_expires_at_ms).
    pose proof (option_u64_size task_revision).
    assert (text_bound (option_string lease_id) ≤ 1000 ∧ text_bound (option_string task_id) ≤ 1000 ∧
      text_bound (option_string objective) ≤ 98306) as (? & ? & ?); [|lia].
    unfold claim_shape in *. repeat case_match; try done; destruct_and?; cbn [option_string text_bound];
      repeat match goal with
      | H : valid_id _ |- _ => apply id_bound in H
      | H : valid_objective _ |- _ => apply valid_objective_size in H
      end; split_and!; lia.
  - object_size. lia.
  - object_size. assert (string_bound (task_status_str status) ≤ 20) by (by destruct status). lia.
Qed.

Lemma code_size c : string_bound (code_as_str c) ≤ 32.
Proof. by destruct c. Qed.

Section sizes.
Context `{L : SerdeJsonLaws}.

Lemma response_root_size o response root :
  valid_response o response → valid_request_id (response_request_id response) →
  response_root response = Ok root → text_bound root + 1 ≤ DEFAULT_MAX_FRAME_BYTES.
Proof.
  intros Hv Hid%request_id_size. change DEFAULT_MAX_FRAME_BYTES with 131072.
  destruct response as [id p|id e]; cbn [valid_response response_root response_request_id] in *.
  - destruct Hv as [_ Hv]. destruct (success_payload p) as [v|] eqn:Hs; [|done]. intros [= <-].
    pose proof (success_payload_size p v Hv Hs) as Hsz. unfold MAX_SUCCESS_BYTES in Hsz.
    assert (text_bound (object [("ok", VBool true); ("request_id", VString id); ("result", v);
      ("version", VNumber PROTOCOL_VERSION)]) ≤ 130000); [|lia]. object_size. lia.
  - destruct (ensure_error_message_bound _); [|done]. intros [= <-].
    change MAX_ERROR_MESSAGE_BYTES with 4096 in Hv. pose proof (code_size (ep_code e)). pose proof (string_bound_le (ep_message e)).
    assert (text_bound (object [("code", VString (code_as_str (ep_code e)));
      ("message", VString (ep_message e))]) ≤ 30000) as Ho by (object_size; lia).
    match goal with |- ?b + 1 ≤ _ => assert (b ≤ 130000); [|lia] end. object_size. lia.
Qed.

(** Under the default limit every valid response can be encoded. *)
Lemma response_fits o response max :
  valid_response o response → valid_request_id (response_request_id response) →
  DEFAULT_MAX_FRAME_BYTES ≤ max → ∃ f, encode_response_with_limit response max = Ok f.
Proof.
  intros Hv Hid Hmax. destruct (response_root_spec o response Hv) as (root & Hr & Hp & Hd & _).
  pose proof (response_root_size o response root Hv Hid Hr) as Hsz.
  unfold encode_response_with_limit. rewrite Hr. unfold encode_bounded.
  destruct (json_reads_back root Hp Hd) as (b & Hw & _). rewrite Hw. cbn [map_err].
  pose proof (json_writes_within root b Hp Hw) as Hb. unfold ensure_frame_limit.
  rewrite (proj2 (N.leb_le _ _)); [by eexists|].
  unfold len in *. rewrite length_app. simpl. lia.
Qed.
End sizes.
