(* ===== verification/WireVersions.v ===== *)
(** * Protocols v2 and v3 ([agent-broker-protocol/src/wire_v2.rs], [wire_v3.rs])

    Owner acquisition, owner-aware mutations and identified requests.  A frame of
    either is a v1 frame with the session in its envelope; the codecs go through
    the v1 codec. *)

From stdpp Require Import pretty.
From S2P Require Import Prelude Values Task Group Messages Display Wire Sessions Service Dispatch.
From S2P Require Import Json WireSchema WireV1.

Definition PROTOCOL_VERSION_V3 : N := 3.
Definition ACQUIRE_COMMAND_SESSION_OWNER_OPERATION : string := "acquire_command_session_owner".

(** ** Requests *)

Record OwnerAcquisitionRequestV3 := {
  oa_request_id : RequestId;
  oa_session_id : CommandSessionId;
  oa_expected_owner_epoch : SessionOwnerEpoch;
  oa_owner_instance_id : SessionOwnerInstanceId;
}.

Record OwnerIdentifiedBrokerRequestV3 := MkOwnerIdentified {
  om_identity : CommandIdentity;
  om_request : BrokerRequest;
}.

Definition OwnerIdentified_new (identity : CommandIdentity) (request : BrokerRequest) :
    result OwnerIdentifiedBrokerRequestV3 ProtocolCodecError :=
  if negb (present (ci_owner_instance_id identity))
  then Err (invalid_request
    "protocol-v3 owner-aware mutation requires command_session_owner_instance_id")
  else if decide (request_operation request = OpHealth)
  then Err (invalid_request ("protocol-v3 owner-aware requests are mutation-only; " +:+
                             "health remains protocol-v1/read-only"))
  else Ok (MkOwnerIdentified identity request).

Inductive BrokerRequestV3 :=
  | AcquireOwner (r : OwnerAcquisitionRequestV3)
  | Mutation (r : OwnerIdentifiedBrokerRequestV3).

Definition v3_request_id (r : BrokerRequestV3) : RequestId :=
  match r with
  | AcquireOwner r => oa_request_id r
  | Mutation r => request_request_id (om_request r)
  end.

(** [Value::as_object], [Value::get_mut] by name *)
Definition as_object (v : Value) : option (list (string * Value)) :=
  match v with VObject kvs => Some kvs | _ => None end.

Definition value_get (k : string) (v : Value) : option Value :=
  match v with VObject kvs => obj_get k kvs | _ => None end.

(** [.map_err(|error| invalid_request(error.to_string()))] *)
Definition invalid {A E} `{Display E} (r : result A E) : result A ProtocolCodecError :=
  map_err (λ e, invalid_request (to_string e)) r.

Section v3.
Context `{J : SerdeJson}.

Definition decode_owner_acquisition (envelope : RequestEnvelopeV3) :
    result BrokerRequestV3 ProtocolCodecError :=
  if present (re3_owner_epoch envelope) || present (re3_command_sequence envelope)
  then Err (invalid_request
    "protocol-v3 owner acquisition must not contain owner_epoch or command_sequence") else
  let^ expected_owner_epoch := ok_or (re3_expected_owner_epoch envelope)
    (invalid_request "protocol-v3 owner acquisition requires expected_owner_epoch") in
  if negb (match as_object (re3_payload envelope) with Some [] => true | _ => false end)
  then Err (invalid_request "protocol-v3 owner acquisition payload must be an empty object") else
  let^ request_id := invalid (RequestId_new (re3_request_id envelope)) in
  let^ session_id := invalid (CommandSessionId_new (re3_command_session_id envelope)) in
  let^ expected_owner_epoch := invalid (SessionOwnerEpoch_new expected_owner_epoch) in
  let^ owner_instance_id := invalid (SessionOwnerInstanceId_new (re3_owner_instance_id envelope)) in
  Ok (AcquireOwner {| oa_request_id := request_id; oa_session_id := session_id;
        oa_expected_owner_epoch := expected_owner_epoch;
        oa_owner_instance_id := owner_instance_id |}).

Definition decode_owner_mutation (envelope : RequestEnvelopeV3) (max_frame_bytes : N) :
    result BrokerRequestV3 ProtocolCodecError :=
  if present (re3_expected_owner_epoch envelope)
  then Err (invalid_request
    "protocol-v3 owner-aware mutation must not contain expected_owner_epoch") else
  let^ owner_epoch := ok_or (re3_owner_epoch envelope)
    (invalid_request "protocol-v3 owner-aware mutation requires owner_epoch") in
  let^ command_sequence := ok_or (re3_command_sequence envelope)
    (invalid_request "protocol-v3 owner-aware mutation requires command_sequence") in
  let^ session_id := invalid (CommandSessionId_new (re3_command_session_id envelope)) in
  let^ owner_epoch := invalid (SessionOwnerEpoch_new owner_epoch) in
  let^ owner_instance_id := invalid (SessionOwnerInstanceId_new (re3_owner_instance_id envelope)) in
  let^ sequence := invalid (CommandSequence_new command_sequence) in
  let identity := new_with_owner session_id owner_epoch owner_instance_id sequence in
  let v1 := object
    [("operation", VString (re3_operation envelope)); ("payload", re3_payload envelope);
     ("request_id", VString (re3_request_id envelope)); ("version", VNumber PROTOCOL_VERSION)] in
  let^ v1_frame := encode_bounded v1 max_frame_bytes in
  let^ request := decode_request_with_limit v1_frame max_frame_bytes in
  map_ok Mutation (OwnerIdentified_new identity request).

Definition decode_request_v3_with_limit (frame : bytes) (max_frame_bytes : N) :
    result BrokerRequestV3 ProtocolCodecError :=
  let^ _ := ensure_frame_limit (len frame) max_frame_bytes in
  let^ envelope := map_err
    (λ e, invalid_request ("Request frame must be valid protocol-v3 JSON: " +:+ e))
    (from_slice "RequestEnvelopeV3" RequestEnvelopeV3_de frame) in
  if negb (re3_version envelope =? PROTOCOL_VERSION_V3)
  then Err (invalid_request ("Unsupported protocol-v3 request version " +:+
              pretty (re3_version envelope) +:+ "."))
  else if decide (re3_operation envelope = ACQUIRE_COMMAND_SESSION_OWNER_OPERATION)
  then decode_owner_acquisition envelope
  else decode_owner_mutation envelope max_frame_bytes.

Definition encode_owner_acquisition_request_with_limit (r : OwnerAcquisitionRequestV3)
    (max_frame_bytes : N) : result bytes ProtocolCodecError :=
  let root := object
    [("command_session_id", VString (oa_session_id r));
     ("expected_owner_epoch", VNumber (oa_expected_owner_epoch r));
     ("operation", VString ACQUIRE_COMMAND_SESSION_OWNER_OPERATION);
     ("owner_instance_id", VString (oa_owner_instance_id r));
     ("payload", VObject []);
     ("request_id", VString (oa_request_id r));
     ("version", VNumber PROTOCOL_VERSION_V3)] in
  encode_bounded root max_frame_bytes.

(** The payload of a v1 request, through its encoding. *)
Definition encoded_payload (request : BrokerRequest) (max_frame_bytes : N) :
    result Value ProtocolCodecError :=
  let^ v1_frame := encode_request_with_limit request max_frame_bytes in
  let^ v1 := map_err CodecSerialization (from_slice "Value" as_value v1_frame) in
  ok_or (value_get "payload" v1)
    (invalid_request "internal protocol-v1 request encoding omitted payload").

Definition encode_owner_mutation_request_with_limit (r : OwnerIdentifiedBrokerRequestV3)
    (max_frame_bytes : N) : result bytes ProtocolCodecError :=
  let^ payload := encoded_payload (om_request r) max_frame_bytes in
  let identity := om_identity r in
  let^ owner_instance_id := ok_or (ci_owner_instance_id identity)
    (invalid_request "protocol-v3 owner-aware mutation omitted owner instance identity") in
  let root := object
    [("command_sequence", VNumber (ci_sequence identity));
     ("command_session_id", VString (ci_session_id identity));
     ("operation", VString (Operation_as_str (request_operation (om_request r))));
     ("owner_epoch", VNumber (ci_owner_epoch identity));
     ("owner_instance_id", VString owner_instance_id);
     ("payload", payload);
     ("request_id", VString (request_request_id (om_request r)));
     ("version", VNumber PROTOCOL_VERSION_V3)] in
  encode_bounded root max_frame_bytes.

(** ** Responses *)

(** The root of a v1 response, through its encoding. *)
Definition encoded_response_members (response : BrokerResponse) (max_frame_bytes : N) :
    result (list (string * Value)) ProtocolCodecError :=
  let^ v1_frame := encode_response_with_limit response max_frame_bytes in
  let^ root := map_err CodecSerialization (from_slice "Value" as_value v1_frame) in
  ok_or (as_object root)
    (invalid_request "internal protocol-v1 response encoding was not an object").

Definition encode_response_v3_with_limit (response : BrokerResponse) (max_frame_bytes : N) :
    result bytes ProtocolCodecError :=
  match response with
  | ResponseSuccess request_id (SSessionOwnerAcquired owner_epoch) =>
      encode_bounded (object
        [("ok", VBool true); ("request_id", VString request_id);
         ("result", object [("owner_epoch", VNumber owner_epoch)]);
         ("version", VNumber PROTOCOL_VERSION_V3)]) max_frame_bytes
  | _ =>
      let^ members := encoded_response_members response max_frame_bytes in
      let^ members :=
        match response with
        | ResponseError _ error =>
            let^ error_object := ok_or
              (match obj_get "error" members with Some v => as_object v | None => None end)
              (invalid_request "internal protocol-v1 error encoding omitted error") in
            Ok (obj_insert "error" (VObject (obj_insert "disposition"
                  (VString (disposition_as_str (ep_disposition error))) error_object)) members)
        | _ => Ok members
        end in
      encode_bounded (VObject (obj_insert "version" (VNumber PROTOCOL_VERSION_V3) members))
        max_frame_bytes
  end.

Definition parse_error_disposition (value : string) :
    result BrokerErrorDisposition ProtocolCodecError :=
  if decide (value = "COMMITTED") then Ok DispCommitted
  else if decide (value = "REJECTED") then Ok DispRejected
  else if decide (value = "UNKNOWN") then Ok DispUnknown
  else Err (invalid_request ("Unsupported protocol-v3 error disposition " +:+ value +:+ ".")).

Definition read_envelope_v3 (frame : bytes) (max_frame_bytes : N) :
    result ResponseEnvelopeV3 ProtocolCodecError :=
  let^ _ := ensure_frame_limit (len frame) max_frame_bytes in
  map_err (λ e, invalid_request ("Response frame must be valid protocol-v3 JSON: " +:+ e))
    (from_slice "ResponseEnvelopeV3" ResponseEnvelopeV3_de frame).

Definition response_error_disposition (frame : bytes) (max_frame_bytes : N) :
    result (option BrokerErrorDisposition) ProtocolCodecError :=
  let^ envelope := read_envelope_v3 frame max_frame_bytes in
  transposed (λ error, parse_error_disposition (rwe3_disposition error)) (rw3_error envelope).

(** A v1 error frame for the given code and message. *)
Definition v1_error (request_id code message : string) : Value :=
  object [("error", object [("code", VString code); ("message", VString message)]);
          ("ok", VBool false); ("request_id", VString request_id);
          ("version", VNumber PROTOCOL_VERSION)].

Definition v3_response_to_v1 (frame : bytes) (max_frame_bytes : N) :
    result Value ProtocolCodecError :=
  let^ envelope := read_envelope_v3 frame max_frame_bytes in
  if negb (rw3_version envelope =? PROTOCOL_VERSION_V3)
  then Err (invalid_request ("Unsupported response protocol-v3 version " +:+
              pretty (rw3_version envelope) +:+ "."))
  else
  match rw3_ok envelope, rw3_result envelope, rw3_error envelope with
  | true, Some value, None =>
      Ok (object [("ok", VBool true); ("request_id", VString (rw3_request_id envelope));
                  ("result", value); ("version", VNumber PROTOCOL_VERSION)])
  | false, None, Some error =>
      Ok (v1_error (rw3_request_id envelope) (rwe3_code error) (rwe3_message error))
  | true, _, _ =>
      Err (invalid_request "protocol-v3 success response must contain result and no error")
  | false, _, _ =>
      Err (invalid_request "protocol-v3 error response must contain error and no result")
  end.

Definition decode_owner_mutation_response_with_limit (frame : bytes)
    (expected_request_id : RequestId) (operation : Operation) (max_frame_bytes : N) :
    result SuccessPayload ResponseDecodeError :=
  let^ disposition := as_protocol (response_error_disposition frame max_frame_bytes) in
  let^ root := as_protocol (v3_response_to_v1 frame max_frame_bytes) in
  let^ v1_frame := as_protocol (encode_bounded root max_frame_bytes) in
  match decode_response_for_operation_with_limit v1_frame expected_request_id operation
          max_frame_bytes with
  | Err (RdBroker error) =>
      let^ disposition := as_protocol (ok_or disposition
        (invalid_request "protocol-v3 error response omitted disposition")) in
      Err (RdBroker (with_disposition disposition error))
  | other => other
  end.

Definition decode_owner_acquisition_response_with_limit (frame : bytes)
    (expected_request_id : RequestId) (max_frame_bytes : N) :
    result SessionOwnerEpoch ResponseDecodeError :=
  let^ envelope := as_protocol (read_envelope_v3 frame max_frame_bytes) in
  if negb (rw3_version envelope =? PROTOCOL_VERSION_V3)
  then Err (RdProtocol (invalid_request ("Unsupported response protocol-v3 version " +:+
              pretty (rw3_version envelope) +:+ ".")))
  else
  let^ request_id := as_protocol (invalid (RequestId_new (rw3_request_id envelope))) in
  if negb (String.eqb request_id expected_request_id)
  then Err (RdProtocol (invalid_request "Response request_id does not match request."))
  else
  match rw3_ok envelope, rw3_result envelope, rw3_error envelope with
  | true, Some value, None =>
      let^ members := as_protocol (ok_or (as_object value)
        (invalid_request "protocol-v3 owner acquisition result must be an object")) in
      if negb (Nat.eqb (length members) 1)
      then Err (RdProtocol (invalid_request
        "protocol-v3 owner acquisition result contains unknown fields")) else
      let^ owner_epoch := as_protocol (ok_or
        (match obj_get "owner_epoch" members with Some v => as_u64 v | None => None end)
        (invalid_request "protocol-v3 owner acquisition result requires owner_epoch")) in
      as_protocol (invalid (SessionOwnerEpoch_new owner_epoch))
  | false, None, Some error =>
      let^ disposition := as_protocol (parse_error_disposition (rwe3_disposition error)) in
      let root := v1_error request_id (rwe3_code error) (rwe3_message error) in
      let^ v1_frame := as_protocol (encode_bounded root max_frame_bytes) in
      match decode_response_for_operation_with_limit v1_frame expected_request_id
              OpEnsureNamespace max_frame_bytes with
      | Err (RdBroker error) => Err (RdBroker (with_disposition disposition error))
      | Err error => Err error
      | Ok _ => Err (RdProtocol (invalid_request
          "protocol-v3 owner acquisition error decoded as success"))
      end
  | true, _, _ => Err (RdProtocol (invalid_request
      "protocol-v3 success response must contain result and no error"))
  | false, _, _ => Err (RdProtocol (invalid_request
      "protocol-v3 error response must contain error and no result"))
  end.

End v3.

(** * Protocol v2 and version selection ([agent-broker-protocol/src/wire_v2.rs])

    Mutations with a command identity, and the decoder that picks the protocol
    by the version of the frame. *)

Definition PROTOCOL_VERSION_V2 : N := 2.

Record IdentifiedBrokerRequest := MkIdentified {
  ib_identity : CommandIdentity;
  ib_request : BrokerRequest;
}.

Definition Identified_new (identity : CommandIdentity) (request : BrokerRequest) :
    result IdentifiedBrokerRequest ProtocolCodecError :=
  if decide (request_operation request = OpHealth)
  then Err (invalid_request ("protocol-v2 identified requests are mutation-only; " +:+
                             "health remains protocol-v1/read-only"))
  else Ok (MkIdentified identity request).

Inductive BrokerWireRequest :=
  | WireV1 (r : BrokerRequest)
  | WireV2 (r : IdentifiedBrokerRequest)
  | WireV3 (r : BrokerRequestV3).

Definition wire_request_id (r : BrokerWireRequest) : RequestId :=
  match r with
  | WireV1 r => request_request_id r
  | WireV2 r => request_request_id (ib_request r)
  | WireV3 r => v3_request_id r
  end.

Definition wire_protocol_version (r : BrokerWireRequest) : N :=
  match r with
  | WireV1 _ => PROTOCOL_VERSION
  | WireV2 _ => PROTOCOL_VERSION_V2
  | WireV3 _ => PROTOCOL_VERSION_V3
  end.

Section v2.
Context `{J : SerdeJson}.

Definition request_version_hint (frame : bytes) : option N :=
  match from_slice "VersionProbe" VersionProbe_de frame with
  | Ok probe => Some (vp_version probe)
  | Err _ => None
  end.

Definition decode_identified_request_with_limit (frame : bytes) (max_frame_bytes : N) :
    result IdentifiedBrokerRequest ProtocolCodecError :=
  let^ _ := ensure_frame_limit (len frame) max_frame_bytes in
  let^ envelope := map_err
    (λ e, invalid_request ("Request frame must be valid protocol-v2 JSON: " +:+ e))
    (from_slice "RequestEnvelopeV2" RequestEnvelopeV2_de frame) in
  if negb (re2_version envelope =? PROTOCOL_VERSION_V2)
  then Err (invalid_request ("Unsupported protocol-v2 request version " +:+
              pretty (re2_version envelope) +:+ "."))
  else
  let^ session_id := invalid (CommandSessionId_new (re2_command_session_id envelope)) in
  let^ sequence := invalid (CommandSequence_new (re2_command_sequence envelope)) in
  let identity := CommandIdentity_new session_id sequence in
  let v1 := object
    [("operation", VString (re2_operation envelope)); ("payload", re2_payload envelope);
     ("request_id", VString (re2_request_id envelope)); ("version", VNumber PROTOCOL_VERSION)] in
  let^ v1_frame := encode_bounded v1 max_frame_bytes in
  let^ request := decode_request_with_limit v1_frame max_frame_bytes in
  Identified_new identity request.

Definition decode_wire_request_with_limit (frame : bytes) (max_frame_bytes : N) :
    result BrokerWireRequest ProtocolCodecError :=
  let^ _ := ensure_frame_limit (len frame) max_frame_bytes in
  let^ probe := map_err
    (λ e, invalid_request ("Request frame must be valid Broker JSON: " +:+ e))
    (from_slice "VersionProbe" VersionProbe_de frame) in
  if vp_version probe =? PROTOCOL_VERSION
  then map_ok WireV1 (decode_request_with_limit frame max_frame_bytes)
  else if vp_version probe =? PROTOCOL_VERSION_V2
  then map_ok WireV2 (decode_identified_request_with_limit frame max_frame_bytes)
  else if vp_version probe =? PROTOCOL_VERSION_V3
  then map_ok WireV3 (decode_request_v3_with_limit frame max_frame_bytes)
  else Err (invalid_request ("Unsupported protocol version " +:+ pretty (vp_version probe) +:+
              ".")).

Definition decode_wire_request (frame : bytes) : result BrokerWireRequest ProtocolCodecError :=
  decode_wire_request_with_limit frame DEFAULT_MAX_FRAME_BYTES.

Definition encode_identified_request_with_limit (r : IdentifiedBrokerRequest)
    (max_frame_bytes : N) : result bytes ProtocolCodecError :=
  let^ payload := encoded_payload (ib_request r) max_frame_bytes in
  let root := object
    [("command_sequence", VNumber (ci_sequence (ib_identity r)));
     ("command_session_id", VString (ci_session_id (ib_identity r)));
     ("operation", VString (Operation_as_str (request_operation (ib_request r))));
     ("payload", payload);
     ("request_id", VString (request_request_id (ib_request r)));
     ("version", VNumber PROTOCOL_VERSION_V2)] in
  encode_bounded root max_frame_bytes.

Definition encode_identified_request (r : IdentifiedBrokerRequest) :
    result bytes ProtocolCodecError :=
  encode_identified_request_with_limit r DEFAULT_MAX_FRAME_BYTES.

Definition encode_response_v2_with_limit (response : BrokerResponse) (max_frame_bytes : N) :
    result bytes ProtocolCodecError :=
  let^ members := encoded_response_members response max_frame_bytes in
  encode_bounded (VObject (obj_insert "version" (VNumber PROTOCOL_VERSION_V2) members))
    max_frame_bytes.

Definition encode_response_v2 (response : BrokerResponse) : result bytes ProtocolCodecError :=
  encode_response_v2_with_limit response DEFAULT_MAX_FRAME_BYTES.

Definition decode_response_v2_for_operation_with_limit (frame : bytes)
    (expected_request_id : RequestId) (operation : Operation) (max_frame_bytes : N) :
    result SuccessPayload ResponseDecodeError :=
  let^ _ := as_protocol (ensure_frame_limit (len frame) max_frame_bytes) in
  let^ envelope := as_protocol (map_err
    (λ e, invalid_request ("Response frame must be valid protocol-v2 JSON: " +:+ e))
    (from_slice "ResponseEnvelopeV2" ResponseEnvelopeV2_de frame)) in
  if negb (rw2_version envelope =? PROTOCOL_VERSION_V2)
  then Err (RdProtocol (invalid_request ("Unsupported response protocol-v2 version " +:+
              pretty (rw2_version envelope) +:+ ".")))
  else
  let^ root :=
    match rw2_ok envelope, rw2_result envelope, rw2_error envelope with
    | true, Some value, None =>
        Ok (object [("ok", VBool true); ("request_id", VString (rw2_request_id envelope));
                    ("result", value); ("version", VNumber PROTOCOL_VERSION)])
    | false, None, Some error =>
        Ok (v1_error (rw2_request_id envelope) (rwe2_code error) (rwe2_message error))
    | true, _, _ => Err (RdProtocol (invalid_request
        "protocol-v2 success response must contain result and no error"))
    | false, _, _ => Err (RdProtocol (invalid_request
        "protocol-v2 error response must contain error and no result"))
    end in
  let^ v1_frame := as_protocol (encode_bounded root max_frame_bytes) in
  decode_response_for_operation_with_limit v1_frame expected_request_id operation max_frame_bytes.

Definition decode_response_v2_for_operation (frame : bytes) (expected_request_id : RequestId)
    (operation : Operation) : result SuccessPayload ResponseDecodeError :=
  decode_response_v2_for_operation_with_limit frame expected_request_id operation
    DEFAULT_MAX_FRAME_BYTES.

End v2.
