(* ===== verification/WireVersionsProps.v ===== *)
(** * Protocols v2 and v3 read back

    Both go through the v1 codec, so the proofs follow the frames: the tree that
    is embedded in the larger envelope is the tree of the v1 frame. *)

From S2P Require Import Prelude Values Task Group Messages Valid Display Wire ReplicatedProps Words.
From S2P Require Import Sessions SessionsProps Service Dispatch DispatchProps Json WireSchema.
From S2P Require Import WireV1 WireV1Props WireResponseProps WireVersions.

(** ** Valid requests of every version *)

Definition valid_session_id (s : CommandSessionId) : Prop := CommandSessionId_new s = Ok s.
Definition valid_instance (s : SessionOwnerInstanceId) : Prop := SessionOwnerInstanceId_new s = Ok s.

Definition mutation_request (r : BrokerRequest) : Prop :=
  valid_request r ∧ request_operation r ≠ OpHealth.

(** The identity of a v2 request has the first owner epoch and no instance. *)
Definition valid_wire_request (r : BrokerWireRequest) : Prop :=
  match r with
  | WireV1 r => valid_request r
  | WireV2 r =>
      mutation_request (ib_request r) ∧ valid_session_id (ci_session_id (ib_identity r)) ∧
      positive_word (ci_sequence (ib_identity r)) ∧
      ib_identity r = CommandIdentity_new (ci_session_id (ib_identity r))
        (ci_sequence (ib_identity r))
  | WireV3 (AcquireOwner r) =>
      valid_request_id (oa_request_id r) ∧ valid_session_id (oa_session_id r) ∧
      positive_word (oa_expected_owner_epoch r) ∧ valid_instance (oa_owner_instance_id r)
  | WireV3 (Mutation r) =>
      mutation_request (om_request r) ∧ valid_session_id (ci_session_id (om_identity r)) ∧
      positive_word (ci_owner_epoch (om_identity r)) ∧
      positive_word (ci_sequence (om_identity r)) ∧
      match ci_owner_instance_id (om_identity r) with Some i => valid_instance i | None => False end
  end.

(** The encoder of the version of a request. *)
Definition encode_wire_request_with_limit `{SerdeJson} (r : BrokerWireRequest) (max : N) :
    result bytes ProtocolCodecError :=
  match r with
  | WireV1 r => encode_request_with_limit r max
  | WireV2 r => encode_identified_request_with_limit r max
  | WireV3 (AcquireOwner r) => encode_owner_acquisition_request_with_limit r max
  | WireV3 (Mutation r) => encode_owner_mutation_request_with_limit r max
  end.

Lemma sequence_fits n : positive_word n → CommandSequence_new n = Ok n.
Proof. intros [? _]. unfold CommandSequence_new. by destruct (N.eqb_spec n 0); [lia|]. Qed.

Lemma owner_epoch_fits n : positive_word n → SessionOwnerEpoch_new n = Ok n.
Proof. intros [? _]. unfold SessionOwnerEpoch_new. by destruct (N.eqb_spec n 0); [lia|]. Qed.

Lemma as_u64_word n : positive_word n → as_u64 (VNumber n) = Some n.
Proof. intros []. by apply as_u64_fits. Qed.

Section requests.
Context `{L : SerdeJsonLaws}.

Lemma encoded_payload_spec r max :
  valid_request r →
  match encoded_payload r max with
  | Ok v => v = request_payload r ∧ ∃ f, encode_request_with_limit r max = Ok f ∧
      decode_request_with_limit f max = Ok r
  | Err e => ∃ n, e = FrameTooLarge n max ∧ max < n
  end.
Proof.
  intros Hr. unfold encoded_payload. pose proof (encode_request_spec r max Hr) as He.
  destruct (encode_request_with_limit r max) as [f|e] eqn:Hf; [|done].
  destruct He as (_ & _ & Hj & Hd). unfold from_slice. rewrite Hj.
  destruct (request_payload_plain r Hr) as [Hp Hdep].
  destruct (request_root_plain (Operation_as_str (request_operation r)) (request_request_id r)
    _ Hp Hdep) as [Hrp _].
  unfold as_value. rewrite (to_value_plain _ Hrp). cbn. eauto.
Qed.

(** A v1 object built from the parts of an envelope is the v1 frame again. *)
Lemma rebuilt_frame r max f :
  encode_request_with_limit r max = Ok f →
  encode_bounded (object [("operation", VString (Operation_as_str (request_operation r)));
     ("payload", request_payload r); ("request_id", VString (request_request_id r));
     ("version", VNumber PROTOCOL_VERSION)]) max = Ok f.
Proof. done. Qed.

Lemma wire_v1_reads_back r max :
  valid_request r →
  match encode_request_with_limit r max with
  | Ok f => decode_wire_request_with_limit f max = Ok (WireV1 r) ∧
      (∃ b, f = b ++ [newline] ∧ newline ∉ b)%list
  | Err e => ∃ n, e = FrameTooLarge n max ∧ max < n
  end.
Proof.
  intros Hr. pose proof (encode_request_spec r max Hr) as He.
  destruct (encode_request_with_limit r max) as [f|e]; [|done].
  destruct He as (Hl & Hb & Hj & Hd). split; [|done]. unfold decode_wire_request_with_limit.
  rewrite (proj2 (ensure_frame_limit_ok _ _ ()) Hl). unfold from_slice. rewrite Hj.
  assert (VersionProbe_de (request_root (Operation_as_str (request_operation r))
    (request_request_id r) (request_payload r)) = Some {| vp_version := 1 |}) as -> by done.
  cbn [ok_or map_err vp_version]. by rewrite Hd.
Qed.

Lemma wire_v2_reads_back r max :
  valid_wire_request (WireV2 r) →
  match encode_identified_request_with_limit r max with
  | Ok f => decode_wire_request_with_limit f max = Ok (WireV2 r) ∧
      (∃ b, f = b ++ [newline] ∧ newline ∉ b)%list
  | Err e => ∃ n, e = FrameTooLarge n max ∧ max < n
  end.
Proof.
  intros ([Hr Hop] & Hs & Hq & Hi). unfold encode_identified_request_with_limit.
  pose proof (encoded_payload_spec _ max Hr) as Hp.
  destruct (encoded_payload (ib_request r) max) as [v|e]; [|done].
  destruct Hp as (-> & f1 & Hf1 & Hd1). destruct (request_payload_plain _ Hr) as [Hp Hdep].
  set (root := object _).
  assert (plain root = true ∧ (depth root ≤ 127)%nat) as [Hrp Hrd].
  { unfold root. clear -Hp Hdep Hq. revert Hp Hdep. generalize (request_payload (ib_request r)).
    intros v Hp Hdep. eval_object. cbn [plain forallb snd]. words. rewrite Hp. simpl. split; [done|lia]. }
  pose proof (encode_bounded_spec root max Hrp Hrd) as He.
  destruct (encode_bounded root max) as [f|e]; [|done]. destruct He as (Hl & Hj & Hb).
  split; [|done]. unfold decode_wire_request_with_limit, decode_identified_request_with_limit.
  rewrite (proj2 (ensure_frame_limit_ok _ _ ()) Hl). unfold from_slice. rewrite Hj.
  assert (VersionProbe_de root = Some {| vp_version := 2 |}) as -> by done.
  assert (RequestEnvelopeV2_de root = Some {| re2_version := 2;
    re2_request_id := request_request_id (ib_request r);
    re2_operation := Operation_as_str (request_operation (ib_request r));
    re2_command_session_id := ci_session_id (ib_identity r);
    re2_command_sequence := ci_sequence (ib_identity r);
    re2_payload := request_payload (ib_request r) |}) as ->.
  { rewrite <-(to_value_plain _ Hp) at 1. unfold root.
    generalize (request_payload (ib_request r)), (Operation_as_str (request_operation (ib_request r))),
      (request_request_id (ib_request r)). intros v o id.
    unfold RequestEnvelopeV2_de. read_struct. by rewrite as_u64_word. }
  cbn [ok_or map_err vp_version].
  change (2 =? PROTOCOL_VERSION) with false. change (2 =? PROTOCOL_VERSION_V2) with true.
  cbn [re2_version re2_request_id re2_operation re2_command_session_id re2_command_sequence
    re2_payload negb]. change (2 =? PROTOCOL_VERSION_V2) with true. cbn [negb].
  rewrite Hs. cbn [invalid map_err]. rewrite sequence_fits by done. cbn [invalid map_err].
  rewrite (rebuilt_frame _ _ _ Hf1), Hd1. unfold Identified_new. rewrite decide_False by done.
  cbn [map_ok]. rewrite <-Hi. by destruct r.
Qed.

Lemma wire_v3_acquisition_reads_back r max :
  valid_wire_request (WireV3 (AcquireOwner r)) →
  match encode_owner_acquisition_request_with_limit r max with
  | Ok f => decode_wire_request_with_limit f max = Ok (WireV3 (AcquireOwner r)) ∧
      (∃ b, f = b ++ [newline] ∧ newline ∉ b)%list
  | Err e => ∃ n, e = FrameTooLarge n max ∧ max < n
  end.
Proof.
  intros (Hid & Hs & He & Ho). unfold encode_owner_acquisition_request_with_limit.
  set (root := object _).
  assert (plain root = true ∧ (depth root ≤ 127)%nat) as [Hrp Hrd].
  { unfold root. eval_object. cbn [plain forallb snd]. words. simpl. split; [done|lia]. }
  pose proof (encode_bounded_spec root max Hrp Hrd) as Hb.
  destruct (encode_bounded root max) as [f|e]; [|done]. destruct Hb as (Hl & Hj & Hb).
  split; [|done]. unfold decode_wire_request_with_limit, decode_request_v3_with_limit.
  rewrite (proj2 (ensure_frame_limit_ok _ _ ()) Hl). unfold from_slice. rewrite Hj.
  assert (VersionProbe_de root = Some {| vp_version := 3 |}) as -> by done.
  assert (RequestEnvelopeV3_de root = Some {| re3_version := 3; re3_request_id := oa_request_id r;
    re3_operation := ACQUIRE_COMMAND_SESSION_OWNER_OPERATION;
    re3_command_session_id := oa_session_id r;
    re3_expected_owner_epoch := Some (oa_expected_owner_epoch r); re3_owner_epoch := None;
    re3_owner_instance_id := oa_owner_instance_id r; re3_command_sequence := None;
    re3_payload := VObject [] |}) as ->.
  { unfold root, RequestEnvelopeV3_de. read_struct. by rewrite as_u64_word. }
  cbn -[CommandSessionId_new SessionOwnerInstanceId_new SessionOwnerEpoch_new RequestId_new].
  rewrite Hid, Hs, Ho, owner_epoch_fits by done. by destruct r.
Qed.

Lemma wire_v3_mutation_reads_back r max :
  valid_wire_request (WireV3 (Mutation r)) →
  match encode_owner_mutation_request_with_limit r max with
  | Ok f => decode_wire_request_with_limit f max = Ok (WireV3 (Mutation r)) ∧
      (∃ b, f = b ++ [newline] ∧ newline ∉ b)%list
  | Err e => ∃ n, e = FrameTooLarge n max ∧ max < n
  end.
Proof.
  intros ([Hr Hop] & Hs & Hep & Hq & Hin). unfold encode_owner_mutation_request_with_limit.
  pose proof (encoded_payload_spec _ max Hr) as Hp.
  destruct (encoded_payload (om_request r) max) as [v|e]; [|done].
  destruct Hp as (-> & f1 & Hf1 & Hd1). destruct (request_payload_plain _ Hr) as [Hp Hdep].
  destruct r as [[session epoch [inst|] sequence] req]; [|done].
  cbn [om_request om_identity ci_session_id ci_owner_epoch ci_owner_instance_id ci_sequence
    ok_or] in *.
  set (root := object _).
  assert (plain root = true ∧ (depth root ≤ 127)%nat) as [Hrp Hrd].
  { unfold root. clear -Hp Hdep Hq Hep. revert Hp Hdep. generalize (request_payload req).
    intros v Hp Hdep. eval_object. cbn [plain forallb snd]. words. rewrite Hp. simpl. split; [done|lia]. }
  pose proof (encode_bounded_spec root max Hrp Hrd) as He.
  destruct (encode_bounded root max) as [f|e]; [|done]. destruct He as (Hl & Hj & Hb).
  split; [|done]. unfold decode_wire_request_with_limit, decode_request_v3_with_limit.
  rewrite (proj2 (ensure_frame_limit_ok _ _ ()) Hl). unfold from_slice. rewrite Hj.
  assert (VersionProbe_de root = Some {| vp_version := 3 |}) as -> by done.
  assert (RequestEnvelopeV3_de root = Some {| re3_version := 3;
    re3_request_id := request_request_id req;
    re3_operation := Operation_as_str (request_operation req); re3_command_session_id := session;
    re3_expected_owner_epoch := None; re3_owner_epoch := Some epoch; re3_owner_instance_id := inst;
    re3_command_sequence := Some sequence; re3_payload := request_payload req |}) as ->.
  { rewrite <-(to_value_plain _ Hp) at 1. unfold root.
    generalize (request_payload req), (Operation_as_str (request_operation req)),
      (request_request_id req). intros v o id.
    unfold RequestEnvelopeV3_de. read_struct. by rewrite !as_u64_word. }
  cbn [ok_or map_err vp_version re3_version re3_operation].
  change (3 =? PROTOCOL_VERSION) with false. change (3 =? PROTOCOL_VERSION_V2) with false.
  change (3 =? PROTOCOL_VERSION_V3) with true. cbn [negb].
  rewrite decide_False by (by destruct req). unfold decode_owner_mutation.
  cbn [re3_request_id re3_operation re3_command_session_id re3_expected_owner_epoch
    re3_owner_epoch re3_owner_instance_id re3_command_sequence re3_payload present ok_or].
  rewrite Hs. cbn [invalid map_err]. rewrite owner_epoch_fits by done. cbn [invalid map_err].
  rewrite Hin. cbn [invalid map_err]. rewrite sequence_fits by done. cbn [invalid map_err].
  rewrite (rebuilt_frame _ _ _ Hf1), Hd1. unfold OwnerIdentified_new, new_with_owner.
  cbn [ci_owner_instance_id present negb]. by rewrite decide_False.
Qed.

(** Every version: encoding fails only by the frame limit, and the frame decodes
    to the request. *)
Lemma wire_request_reads_back r max :
  valid_wire_request r →
  match encode_wire_request_with_limit r max with
  | Ok f => decode_wire_request_with_limit f max = Ok r ∧
      (∃ b, f = b ++ [newline] ∧ newline ∉ b)%list
  | Err e => ∃ n, e = FrameTooLarge n max ∧ max < n
  end.
Proof.
  destruct r as [r|r|[r|r]]; cbn [encode_wire_request_with_limit].
  - apply wire_v1_reads_back.
  - apply wire_v2_reads_back.
  - apply wire_v3_acquisition_reads_back.
  - apply wire_v3_mutation_reads_back.
Qed.
End requests.

(** ** Decoded requests of every version are valid *)

Section decoded.
Context `{J : SerdeJson}.

Lemma opt_u64 o n : opt_field as_u64 o = Some (Some n) → n ≤ u64_max.
Proof.
  destruct o as [[]|]; simpl; try done.
  destruct (N.leb_spec n0 u64_max); [|done]. by intros [= <-].
Qed.

Lemma invalid_ok {A E} `{Display E} (r : result A E) a : invalid r = Ok a → r = Ok a.
Proof. destruct r; simpl; congruence. Qed.

Lemma sequence_new_inv n n' : CommandSequence_new n = Ok n' → n' = n ∧ 0 < n.
Proof. unfold CommandSequence_new. destruct (N.eqb_spec n 0); [done|]. intros [= <-]. lia. Qed.

Lemma owner_epoch_new_inv n n' : SessionOwnerEpoch_new n = Ok n' → n' = n ∧ 0 < n.
Proof. unfold SessionOwnerEpoch_new. destruct (N.eqb_spec n 0); [done|]. intros [= <-]. lia. Qed.

Lemma from_slice_ok {A} name (de : Value → option A) f a :
  from_slice name de f = Ok a → ∃ v, de v = Some a.
Proof. unfold from_slice. destruct (json_read f); [|done]. destruct (de v) eqn:E; naive_solver. Qed.

Lemma from_slice_read {A F} name (de : Value → option A) (text : string → F) f a :
  map_err text (from_slice name de f) = Ok a → ∃ v, de v = Some a.
Proof. destruct (from_slice name de f) eqn:E; [|done]. intros [= <-]. by eapply from_slice_ok. Qed.

Lemma wire_v2_valid f max r :
  decode_identified_request_with_limit f max = Ok r → valid_wire_request (WireV2 r).
Proof.
  unfold decode_identified_request_with_limit. intros Hd.
  destruct (ensure_frame_limit _ _); [|done].
  destruct (map_err _ _) as [envelope|] eqn:He; [|done]. apply from_slice_read in He as [v He].
  destruct (negb _); [done|].
  destruct (invalid (CommandSessionId_new _)) as [session|] eqn:Hs; [|done].
  destruct (invalid (CommandSequence_new _)) as [sequence|] eqn:Hq; [|done].
  apply invalid_ok in Hs, Hq. pose proof (session_id_inv _ _ Hs) as Hs'. rewrite <-Hs' in Hs.
  apply sequence_new_inv in Hq as [-> Hq].
  assert (re2_command_sequence envelope ≤ u64_max).
  { unfold RequestEnvelopeV2_de in He. by read_inv. }
  destruct (encode_bounded _ max) as [f1|]; [|done].
  destruct (decode_request_with_limit f1 max) as [q|] eqn:E; [|done].
  apply decode_request_valid in E as [E _]. unfold Identified_new in Hd.
  case_decide; [done|]. injection Hd as <-. done.
Qed.

Lemma wire_v3_valid f max r :
  decode_request_v3_with_limit f max = Ok r → valid_wire_request (WireV3 r).
Proof.
  unfold decode_request_v3_with_limit. intros Hd.
  destruct (ensure_frame_limit _ _); [|done].
  destruct (map_err _ _) as [envelope|] eqn:He; [|done]. apply from_slice_read in He as [v He].
  destruct (negb _); [done|].
  assert (∀ n, re3_expected_owner_epoch envelope = Some n ∨ re3_owner_epoch envelope = Some n ∨
    re3_command_sequence envelope = Some n → n ≤ u64_max) as Hword.
  { unfold RequestEnvelopeV3_de in He. read_inv.
    intros n [->|[->| ->]]; by eapply opt_u64. }
  clear He v. case_decide.
  - unfold decode_owner_acquisition in Hd. destruct (_ || _); [done|].
    destruct (re3_expected_owner_epoch envelope) as [e|] eqn:Hx; [|done]. cbn [ok_or] in Hd.
    destruct (negb _); [done|].
    destruct (invalid (RequestId_new _)) as [id|] eqn:Hid; [|done].
    destruct (invalid (CommandSessionId_new _)) as [session|] eqn:Hs; [|done].
    destruct (invalid (SessionOwnerEpoch_new _)) as [e'|] eqn:Hep; [|done].
    destruct (invalid (SessionOwnerInstanceId_new _)) as [o|] eqn:Ho; [|done].
    apply invalid_ok in Hid, Hs, Hep, Ho. injection Hd as <-.
    apply RequestId_new_inv in Hid as [-> Hid]. apply owner_epoch_new_inv in Hep as [-> Hep].
    pose proof (session_id_inv _ _ Hs) as ->. pose proof (owner_instance_inv _ _ Ho) as ->.
    split_and!; [done..| |done]. split; [done|]. auto.
  - unfold decode_owner_mutation in Hd. destruct (present _); [done|].
    destruct (re3_owner_epoch envelope) as [e|] eqn:Hx; [|done]. cbn [ok_or] in Hd.
    destruct (re3_command_sequence envelope) as [n|] eqn:Hn; [|done]. cbn [ok_or] in Hd.
    destruct (invalid (CommandSessionId_new _)) as [session|] eqn:Hs; [|done].
    destruct (invalid (SessionOwnerEpoch_new _)) as [e'|] eqn:Hep; [|done].
    destruct (invalid (SessionOwnerInstanceId_new _)) as [o|] eqn:Ho; [|done].
    destruct (invalid (CommandSequence_new _)) as [n'|] eqn:Hq; [|done].
    apply invalid_ok in Hs, Hep, Ho, Hq.
    apply owner_epoch_new_inv in Hep as [-> Hep]. apply sequence_new_inv in Hq as [-> Hq].
    pose proof (session_id_inv _ _ Hs) as ->. pose proof (owner_instance_inv _ _ Ho) as ->.
    destruct (encode_bounded _ max) as [f1|]; [|done].
    destruct (decode_request_with_limit f1 max) as [q|] eqn:E; [|done].
    apply decode_request_valid in E as [E _]. unfold OwnerIdentified_new in Hd. simpl in Hd.
    case_decide; [done|]. injection Hd as <-.
    unfold valid_wire_request, mutation_request, positive_word. simpl. split_and!; auto.
Qed.

Lemma wire_request_valid f max r :
  decode_wire_request_with_limit f max = Ok r → valid_wire_request r ∧ len f ≤ max.
Proof.
  unfold decode_wire_request_with_limit. intros Hd.
  destruct (ensure_frame_limit _ _) as [u|] eqn:Hl; [|done]. apply ensure_frame_limit_ok in Hl.
  split; [|done]. destruct (map_err _ _) as [probe|]; [|done].
  destruct (_ =? PROTOCOL_VERSION).
  { destruct (decode_request_with_limit f max) as [q|] eqn:E; [|done]. injection Hd as <-.
    by apply decode_request_valid in E as [? _]. }
  destruct (_ =? PROTOCOL_VERSION_V2); [|destruct (_ =? PROTOCOL_VERSION_V3); [|done]].
  - destruct (decode_identified_request_with_limit f max) as [q|] eqn:E; [|done].
    injection Hd as <-. by eapply wire_v2_valid.
  - destruct (decode_request_v3_with_limit f max) as [q|] eqn:E; [|done].
    injection Hd as <-. by eapply wire_v3_valid.
Qed.
End decoded.

(** * Responses of protocols v2 and v3 read back *)

Section responses.
Context `{L : SerdeJsonLaws}.

(** The v1 tree of a response, by its kind. *)
Lemma response_shape o response :
  valid_response o response →
  match response with
  | ResponseSuccess id p => ∃ v,
      response_root response = Ok (success_root id v) ∧ plain v = true ∧ (depth v ≤ 1)%nat ∧
      v ≠ VNull ∧ decode_success_payload o v = Ok p
  | ResponseError id e =>
      response_root response = Ok (error_root id (code_as_str (ep_code e)) (ep_message e))
  end.
Proof.
  destruct response as [id p|id e]; cbn [valid_response response_root].
  - intros [Ho Hv]. destruct (success_reads_back o p Ho Hv) as (v & Hs & Hp & Hd & Hdec).
    rewrite Hs. exists v. split_and!; try done. by eapply object_not_null.
  - intros Hm. unfold ensure_error_message_bound. by rewrite (proj2 (N.leb_le _ _) Hm).
Qed.

(** Going through the v1 frame gives the members of its tree. *)
Lemma encoded_members_spec response members max :
  response_root response = Ok (VObject members) →
  plain (VObject members) = true → (depth (VObject members) ≤ 127)%nat →
  match encoded_response_members response max with
  | Ok m => m = members ∧ ∃ f, encode_bounded (VObject members) max = Ok f ∧ len f ≤ max ∧
      json_read f = Some (VObject members)
  | Err e => ∃ n, e = FrameTooLarge n max ∧ max < n
  end.
Proof.
  intros Hr Hp Hd. unfold encoded_response_members, encode_response_with_limit. rewrite Hr.
  pose proof (encode_bounded_spec _ max Hp Hd) as He.
  destruct (encode_bounded (VObject members) max) as [f|e]; [|done].
  destruct He as (Hl & Hf & _). unfold from_slice. rewrite Hf. unfold as_value.
  rewrite (to_value_plain _ Hp). cbn. eauto.
Qed.

(** One line, with its line feed. *)
Definition is_line (f : bytes) : Prop := (∃ b, f = b ++ [newline] ∧ newline ∉ b)%list.

(** Response frames of any version. *)
Definition success_at (version : N) (id : RequestId) (v : Value) : Value :=
  VObject [("ok", VBool true); ("request_id", VString id); ("result", v);
           ("version", VNumber version)].

Definition error_at (version : N) (id : RequestId) (error : list (string * Value)) : Value :=
  VObject [("error", VObject error); ("ok", VBool false); ("request_id", VString id);
           ("version", VNumber version)].

Lemma success_at_spec version id v max :
  version ≤ 3 → plain v = true → (depth v ≤ 1)%nat →
  match encode_bounded (success_at version id v) max with
  | Ok f => len f ≤ max ∧ json_read f = Some (success_at version id v) ∧ is_line f
  | Err e => ∃ n, e = FrameTooLarge n max ∧ max < n
  end.
Proof.
  intros Hv Hp Hd. pose proof (encode_bounded_spec (success_at version id v) max) as Hb.
  unfold success_at in Hb at 1 2. cbn [plain forallb snd] in Hb.
  rewrite Hp, word_leb in Hb by (unfold word, u64_max; lia).
  destruct (encode_bounded _ max); naive_solver lia.
Qed.

Lemma error_at_spec version id error max :
  version ≤ 3 → plain (VObject error) = true → depth (VObject error) = 1%nat →
  match encode_bounded (error_at version id error) max with
  | Ok f => len f ≤ max ∧ json_read f = Some (error_at version id error) ∧ is_line f
  | Err e => ∃ n, e = FrameTooLarge n max ∧ max < n
  end.
Proof.
  intros Hv Hp Hd. pose proof (encode_bounded_spec (error_at version id error) max) as Hb.
  assert (plain (error_at version id error) = true) as Hpl.
  { unfold error_at. cbn [plain forallb snd]. cbn [plain] in Hp. rewrite Hp.
    by rewrite word_leb by (unfold word, u64_max; lia). }
  assert ((depth (error_at version id error) ≤ 127)%nat) as Hdep.
  { unfold error_at. revert Hd. generalize (VObject error). intros v Hd. simpl. lia. }
  specialize (Hb Hpl Hdep). destruct (encode_bounded _ max); naive_solver.
Qed.

(** The version of a v1 tree is replaced. *)
Lemma response_v2_success o id p max :
  valid_response o (ResponseSuccess id p) →
  match encode_response_v2_with_limit (ResponseSuccess id p) max with
  | Ok f => decode_response_v2_for_operation_with_limit f id o max = Ok p
  | Err e => ∃ n, e = FrameTooLarge n max ∧ max < n
  end.
Proof.
  intros Hv. destruct (response_shape o _ Hv) as (v & Hr & Hp & Hd & Hn & Hdec).
  unfold encode_response_v2_with_limit. pose proof (encoded_members_spec _ _ max Hr) as Hm.
  destruct (encoded_response_members _ max) as [m|e]; [|apply Hm; simpl; [by rewrite Hp|lia]].
  destruct Hm as (-> & f1 & Hf1 & Hl1 & Hj1); [simpl; by rewrite Hp|simpl; lia|].
  change (VObject (obj_insert _ _ _)) with (success_at 2 id v).
  pose proof (success_at_spec 2 id v max) as Hb.
  destruct (encode_bounded (success_at 2 id v) max) as [f|e]; [|by apply Hb].
  destruct Hb as (Hl & Hj & Hline); [done..|]. unfold decode_response_v2_for_operation_with_limit.
  rewrite (proj2 (ensure_frame_limit_ok _ _ ()) Hl). unfold from_slice. rewrite Hj.
  assert (ResponseEnvelopeV2_de (success_at 2 id v) = Some {| rw2_version := 2;
    rw2_request_id := id; rw2_ok := true; rw2_result := Some v; rw2_error := None |}) as ->.
  { pose proof (to_value_plain v Hp) as Hv'. unfold ResponseEnvelopeV2_de, success_at.
    read_struct. destruct v; try done; by rewrite Hv'. }
  cbn [ok_or map_err as_protocol rw2_version rw2_request_id rw2_ok rw2_result rw2_error].
  change (negb (2 =? PROTOCOL_VERSION_V2)) with false. cbn iota.
  change (object _) with (success_root id v). unfold success_root. rewrite Hf1. cbn [as_protocol map_err].
  rewrite (decode_success_root f1 max o id v) by done. by rewrite Hdec.
Qed.

Lemma response_v2_error o id e max :
  valid_response o (ResponseError id e) →
  match encode_response_v2_with_limit (ResponseError id e) max with
  | Ok f => decode_response_v2_for_operation_with_limit f id o max =
      Err (RdBroker (BrokerError_new (ep_code e) (ep_message e)))
  | Err e => ∃ n, e = FrameTooLarge n max ∧ max < n
  end.
Proof.
  intros Hv. pose proof (response_shape o _ Hv) as Hr.
  unfold encode_response_v2_with_limit. pose proof (encoded_members_spec _ _ max Hr eq_refl) as Hm.
  destruct (encoded_response_members _ max) as [m|e']; [|apply Hm; simpl; lia].
  destruct Hm as (-> & f1 & Hf1 & Hl1 & Hj1); [simpl; lia|].
  change (VObject (obj_insert _ _ _)) with (error_at 2 id
    [("code", VString (code_as_str (ep_code e))); ("message", VString (ep_message e))]).
  pose proof (error_at_spec 2 id [("code", VString (code_as_str (ep_code e)));
    ("message", VString (ep_message e))] max) as Hb.
  destruct (encode_bounded (error_at 2 id _) max) as [f|e']; [|by apply Hb].
  destruct Hb as (Hl & Hj & Hline); [done..|]. unfold decode_response_v2_for_operation_with_limit.
  rewrite (proj2 (ensure_frame_limit_ok _ _ ()) Hl). unfold from_slice. rewrite Hj.
  assert (ResponseEnvelopeV2_de (error_at 2 id [("code", VString (code_as_str (ep_code e)));
    ("message", VString (ep_message e))]) = Some {| rw2_version := 2; rw2_request_id := id;
    rw2_ok := false; rw2_result := None; rw2_error := Some {|
      rwe2_code := code_as_str (ep_code e); rwe2_message := ep_message e |} |}) as -> by done.
  cbn [ok_or map_err as_protocol rw2_version rw2_request_id rw2_ok rw2_result rw2_error
    rwe2_code rwe2_message].
  change (negb (2 =? PROTOCOL_VERSION_V2)) with false. cbn iota.
  change (v1_error _ _ _) with (error_root id (code_as_str (ep_code e)) (ep_message e)).
  unfold error_root. rewrite Hf1. cbn [as_protocol map_err]. by apply decode_error_root.
Qed.

Lemma response_v2_reads_back o response max :
  valid_response o response →
  match encode_response_v2_with_limit response max with
  | Ok f =>
      decode_response_v2_for_operation_with_limit f (response_request_id response) o max =
        delivered response
  | Err e => ∃ n, e = FrameTooLarge n max ∧ max < n
  end.
Proof.
  destruct response as [id p|id e]; [apply response_v2_success|apply response_v2_error].
Qed.

(** ** Version 3 *)

Lemma disposition_reads_back d : parse_error_disposition (disposition_as_str d) = Ok d.
Proof. by destruct d. Qed.

(** What a v3 client gets: the disposition is kept. *)
Definition delivered_v3 (response : BrokerResponse) : result SuccessPayload ResponseDecodeError :=
  match response with
  | ResponseSuccess _ p => Ok p
  | ResponseError _ e => Err (RdBroker {| be_code := ep_code e; be_message := ep_message e;
      be_disposition := ep_disposition e |})
  end.

Lemma read_success_v3 f max id v :
  len f ≤ max → json_read f = Some (success_at 3 id v) → plain v = true → v ≠ VNull →
  read_envelope_v3 f max = Ok {| rw3_version := 3; rw3_request_id := id; rw3_ok := true;
    rw3_result := Some v; rw3_error := None |}.
Proof.
  intros Hl Hj Hp Hn. unfold read_envelope_v3.
  rewrite (proj2 (ensure_frame_limit_ok _ _ ()) Hl). unfold from_slice. rewrite Hj.
  pose proof (to_value_plain v Hp) as Hv'. unfold ResponseEnvelopeV3_de, success_at.
  read_struct. destruct v; try done; by rewrite Hv'.
Qed.

Lemma read_error_v3 f max id code message disposition :
  len f ≤ max →
  json_read f = Some (error_at 3 id [("code", VString code); ("disposition", VString disposition);
    ("message", VString message)]) →
  read_envelope_v3 f max = Ok {| rw3_version := 3; rw3_request_id := id; rw3_ok := false;
    rw3_result := None; rw3_error := Some {| rwe3_code := code; rwe3_message := message;
      rwe3_disposition := disposition |} |}.
Proof.
  intros Hl Hj. unfold read_envelope_v3.
  rewrite (proj2 (ensure_frame_limit_ok _ _ ()) Hl). unfold from_slice. by rewrite Hj.
Qed.

(** The frame of a success, by the tree of its payload. *)
Lemma response_v3_success_frame id p v max :
  success_payload p = Ok v → plain v = true → (depth v ≤ 1)%nat →
  match encode_response_v3_with_limit (ResponseSuccess id p) max with
  | Ok f => encode_bounded (success_at 3 id v) max = Ok f ∧
      ∃ f1, encode_bounded (success_root id v) max = Ok f1 ∧ len f1 ≤ max ∧
        json_read f1 = Some (success_root id v)
  | Err e => ∃ n, e = FrameTooLarge n max ∧ max < n
  end.
Proof.
  intros Hs Hp Hd.
  assert (encode_response_v3_with_limit (ResponseSuccess id p) max =
    (let^ members := encoded_response_members (ResponseSuccess id p) max in
     encode_bounded (VObject (obj_insert "version" (VNumber PROTOCOL_VERSION_V3) members)) max)) as ->
    by (by destruct p).
  assert (response_root (ResponseSuccess id p) = Ok (success_root id v)) as Hr
    by (cbn [response_root]; by rewrite Hs).
  pose proof (encoded_members_spec _ _ max Hr) as Hm.
  destruct (encoded_response_members _ max) as [m|e]; [|apply Hm; simpl; [by rewrite Hp|lia]].
  destruct Hm as (-> & f1 & Hf1 & Hl1 & Hj1); [simpl; by rewrite Hp|simpl; lia|].
  change (VObject (obj_insert _ _ _)) with (success_at 3 id v).
  pose proof (success_at_spec 3 id v max) as Hb.
  destruct (encode_bounded (success_at 3 id v) max) as [f|e]; [|by apply Hb]. eauto.
Qed.

Lemma response_v3_tree o id p v max :
  success_payload p = Ok v → plain v = true → (depth v ≤ 1)%nat → v ≠ VNull →
  match encode_response_v3_with_limit (ResponseSuccess id p) max with
  | Ok f => is_line f ∧ decode_owner_mutation_response_with_limit f id o max =
      as_protocol (decode_success_payload o v)
  | Err e => ∃ n, e = FrameTooLarge n max ∧ max < n
  end.
Proof.
  intros Hs Hp Hd Hn. pose proof (response_v3_success_frame id p v max Hs Hp Hd) as Hf.
  destruct (encode_response_v3_with_limit _ max) as [f|e]; [|done].
  destruct Hf as (Hf & f1 & Hf1 & Hl1 & Hj1).
  pose proof (success_at_spec 3 id v max) as Hb. rewrite Hf in Hb.
  destruct Hb as (Hl & Hj & Hline); [done..|]. split; [done|].
  unfold decode_owner_mutation_response_with_limit, response_error_disposition, v3_response_to_v1.
  rewrite (read_success_v3 f max id v) by done.
  cbn [transposed as_protocol map_err rw3_version rw3_request_id rw3_ok rw3_result rw3_error].
  change (negb (3 =? PROTOCOL_VERSION_V3)) with false. cbn [map_err].
  change (object _) with (success_root id v). unfold success_root.
  cbn [as_protocol map_err]. unfold success_root in *. rewrite Hf1. cbn [as_protocol map_err].
  rewrite (decode_success_root f1 max o id v) by done. by destruct (decode_success_payload o v).
Qed.

Lemma response_v3_success o id p max :
  valid_response o (ResponseSuccess id p) →
  match encode_response_v3_with_limit (ResponseSuccess id p) max with
  | Ok f => decode_owner_mutation_response_with_limit f id o max = Ok p
  | Err e => ∃ n, e = FrameTooLarge n max ∧ max < n
  end.
Proof.
  intros [Ho Hv]. destruct (success_reads_back o p Ho Hv) as (v & Hs & Hp & Hd & Hdec).
  pose proof (response_v3_tree o id p v max Hs Hp Hd (object_not_null o p v Ho Hs)) as Ht.
  destruct (encode_response_v3_with_limit _ _); [|done]. destruct Ht as [_ ->]. by rewrite Hdec.
Qed.

(** The members of the error of a version 3 response. *)
Definition error_members (e : ErrorPayload) : list (string * Value) :=
  [("code", VString (code_as_str (ep_code e)));
   ("disposition", VString (disposition_as_str (ep_disposition e)));
   ("message", VString (ep_message e))].

Lemma response_v3_error_frame id e max :
  str_len (ep_message e) ≤ MAX_ERROR_MESSAGE_BYTES →
  match encode_response_v3_with_limit (ResponseError id e) max with
  | Ok f => encode_bounded (error_at 3 id (error_members e)) max = Ok f ∧
      ∃ f1, encode_bounded (error_root id (code_as_str (ep_code e)) (ep_message e)) max = Ok f1 ∧
        len f1 ≤ max ∧
        json_read f1 = Some (error_root id (code_as_str (ep_code e)) (ep_message e))
  | Err e => ∃ n, e = FrameTooLarge n max ∧ max < n
  end.
Proof.
  intros Hv. pose proof (response_shape OpHealth (ResponseError id e) Hv) as Hr.
  unfold encode_response_v3_with_limit. pose proof (encoded_members_spec _ _ max Hr eq_refl) as Hm.
  destruct (encoded_response_members _ max) as [m|e']; [|apply Hm; simpl; lia].
  destruct Hm as (-> & f1 & Hf1 & Hl1 & Hj1); [simpl; lia|].
  match goal with
  | |- context [match ?x with Ok members => encode_bounded _ _ | Err _ => _ end] =>
      change x with (Ok [("error", VObject (error_members e)); ("ok", VBool false);
        ("request_id", VString id); ("version", VNumber PROTOCOL_VERSION)] :
        result _ ProtocolCodecError)
  end; cbv beta iota.
  change (VObject (obj_insert _ _ _)) with (error_at 3 id (error_members e)).
  pose proof (error_at_spec 3 id (error_members e) max) as Hb.
  destruct (encode_bounded (error_at 3 id _) max) as [f|e']; [|by apply Hb]. eauto.
Qed.

Lemma response_v3_error o id e max :
  valid_response o (ResponseError id e) →
  match encode_response_v3_with_limit (ResponseError id e) max with
  | Ok f => is_line f ∧
      decode_owner_mutation_response_with_limit f id o max = delivered_v3 (ResponseError id e)
  | Err e => ∃ n, e = FrameTooLarge n max ∧ max < n
  end.
Proof.
  intros Hv. pose proof (response_v3_error_frame id e max Hv) as Hf.
  destruct (encode_response_v3_with_limit _ max) as [f|e']; [|done].
  destruct Hf as (Hf & f1 & Hf1 & Hl1 & Hj1).
  pose proof (error_at_spec 3 id (error_members e) max) as Hb. rewrite Hf in Hb.
  destruct Hb as (Hl & Hj & Hline); [done..|]. split; [done|].
  unfold decode_owner_mutation_response_with_limit, response_error_disposition, v3_response_to_v1.
  rewrite (read_error_v3 _ _ _ _ _ _ Hl Hj).
  cbn [transposed as_protocol map_err map_ok rw3_version rw3_request_id rw3_ok rw3_result rw3_error
    rwe3_code rwe3_message rwe3_disposition].
  rewrite disposition_reads_back. cbn [map_ok map_err].
  change (negb (3 =? PROTOCOL_VERSION_V3)) with false. cbn [map_err].
  change (v1_error _ _ _) with (error_root id (code_as_str (ep_code e)) (ep_message e)).
  unfold error_root in *. cbn [as_protocol map_err]. rewrite Hf1. cbn [as_protocol map_err].
  by rewrite (decode_error_root f1 max o id (ep_code e) (ep_message e)).
Qed.

Lemma response_v3_reads_back o response max :
  valid_response o response →
  match encode_response_v3_with_limit response max with
  | Ok f => decode_owner_mutation_response_with_limit f (response_request_id response) o max =
      delivered_v3 response
  | Err e => ∃ n, e = FrameTooLarge n max ∧ max < n
  end.
Proof.
  destruct response as [id p|id e]; [apply response_v3_success|]. intros Hv.
  pose proof (response_v3_error o id e max Hv) as He.
  by destruct (encode_response_v3_with_limit _ _); [destruct He|].
Qed.

Lemma response_v3_error_bound id e max f :
  encode_response_v3_with_limit (ResponseError id e) max = Ok f →
  str_len (ep_message e) ≤ MAX_ERROR_MESSAGE_BYTES.
Proof.
  unfold encode_response_v3_with_limit, encoded_response_members, encode_response_with_limit,
    response_root, ensure_error_message_bound.
  by destruct (N.leb_spec (str_len (ep_message e)) MAX_ERROR_MESSAGE_BYTES).
Qed.

Lemma response_v3_payload o id p max f :
  answers_operation o p → encode_response_v3_with_limit (ResponseSuccess id p) max = Ok f →
  ∃ v, success_payload p = Ok v.
Proof.
  intros Ho. cbn [encode_response_v3_with_limit]. destruct p; try done; try (by eexists).
  - unfold encoded_response_members, encode_response_with_limit, response_root.
    destruct (success_payload _); [by eexists|done].
  - by destruct o.
Qed.

(** A response of an owner-aware mutation whose numbers have 64 bits is one line,
    of which the client reads the payload, or the error with its disposition, or
    nothing that it takes for an answer. *)
Lemma response_v3_trusted o response max f :
  o ≠ OpHealth →
  match response with ResponseSuccess _ p => answers_operation o p ∧ word_payload p | _ => True end →
  encode_response_v3_with_limit response max = Ok f →
  is_line f ∧
  (decode_owner_mutation_response_with_limit f (response_request_id response) o max =
     delivered_v3 response ∨
   ∃ e, decode_owner_mutation_response_with_limit f (response_request_id response) o max =
     Err (RdProtocol e)).
Proof.
  intros Hop. destruct response as [id p|id e]; cbn [response_request_id].
  - intros [Ho Hw] He. destruct (response_v3_payload o id p max f Ho He) as [v Hs].
    destruct (success_trusted o p v Hop Ho Hw Hs) as (Hp & Hd & Hq).
    pose proof (response_v3_tree o id p v max Hs Hp Hd (object_not_null o p v Ho Hs)) as Ht.
    rewrite He in Ht. destruct Ht as [Hl ->]. split; [done|].
    destruct (decode_success_payload o v) as [q|e] eqn:Hdec; [|by right; eexists].
    left. by rewrite (Hq q).
  - intros _ He. pose proof (response_v3_error_bound _ _ _ _ He) as Hm.
    pose proof (response_v3_error o id e max Hm) as Ht. rewrite He in Ht. destruct Ht. auto.
Qed.

(** An acquisition is answered with the epoch. *)
Lemma acquisition_reads_back id epoch max :
  valid_request_id id → positive_word epoch →
  match encode_response_v3_with_limit (ResponseSuccess id (SSessionOwnerAcquired epoch)) max with
  | Ok f => decode_owner_acquisition_response_with_limit f id max = Ok epoch
  | Err e => ∃ n, e = FrameTooLarge n max ∧ max < n
  end.
Proof.
  intros Hid He. cbn [encode_response_v3_with_limit].
  change (object _) with (success_at 3 id (VObject [("owner_epoch", VNumber epoch)])).
  pose proof (success_at_spec 3 id (VObject [("owner_epoch", VNumber epoch)]) max) as Hb.
  cbn [plain forallb snd] in Hb. rewrite positive_word_leb in Hb by done.
  destruct (encode_bounded _ max) as [f|e]; [|by apply Hb].
  destruct Hb as (Hl & Hj & _); [done|done|simpl; lia|].
  unfold decode_owner_acquisition_response_with_limit.
  rewrite (read_success_v3 f max id (VObject [("owner_epoch", VNumber epoch)]));
    [|done..|cbn [plain forallb snd]; by rewrite positive_word_leb|done].
  cbn [as_protocol map_err rw3_version rw3_request_id rw3_ok rw3_result rw3_error].
  change (negb (3 =? PROTOCOL_VERSION_V3)) with false. rewrite Hid. cbn [invalid map_err].
  cbn [as_protocol map_err]. rewrite String.eqb_refl. cbn -[as_u64 SessionOwnerEpoch_new]. rewrite as_u64_word by done.
  cbn [ok_or as_protocol map_err]. by rewrite owner_epoch_fits.
Qed.

(** A refused acquisition is answered with the error and its disposition. *)
Lemma acquisition_error_reads_back id e max :
  valid_request_id id → str_len (ep_message e) ≤ MAX_ERROR_MESSAGE_BYTES →
  match encode_response_v3_with_limit (ResponseError id e) max with
  | Ok f => decode_owner_acquisition_response_with_limit f id max =
      Err (RdBroker {| be_code := ep_code e; be_message := ep_message e;
                       be_disposition := ep_disposition e |})
  | Err e => ∃ n, e = FrameTooLarge n max ∧ max < n
  end.
Proof.
  intros Hid Hm. pose proof (response_v3_error_frame id e max Hm) as Hf.
  destruct (encode_response_v3_with_limit _ max) as [f|e']; [|done].
  destruct Hf as (Hf & f1 & Hf1 & Hl1 & Hj1).
  pose proof (error_at_spec 3 id (error_members e) max) as Hb. rewrite Hf in Hb.
  destruct Hb as (Hl & Hj & _); [done..|]. unfold decode_owner_acquisition_response_with_limit.
  rewrite (read_error_v3 _ _ _ _ _ _ Hl Hj).
  cbn [as_protocol map_err rw3_version rw3_request_id rw3_ok rw3_result rw3_error rwe3_code
    rwe3_message rwe3_disposition].
  change (negb (3 =? PROTOCOL_VERSION_V3)) with false. rewrite Hid. cbn [invalid map_err].
  cbn [as_protocol map_err]. rewrite String.eqb_refl, disposition_reads_back. cbn [negb map_err].
  change (v1_error _ _ _) with (error_root id (code_as_str (ep_code e)) (ep_message e)).
  unfold error_root in *. rewrite Hf1. cbn [as_protocol map_err].
  by rewrite (decode_error_root f1 max OpEnsureNamespace id (ep_code e) (ep_message e)).
Qed.

(** The text of an error is bounded in every version. *)
Lemma long_text_refused_v2 response max :
  MAX_ERROR_MESSAGE_BYTES < str_len (error_text response) →
  encode_response_v2_with_limit response max = Err (text_refused response).
Proof.
  intros Hl. unfold encode_response_v2_with_limit, encoded_response_members.
  by rewrite (long_text_refused _ max Hl).
Qed.

Lemma long_text_refused_v3 response max :
  MAX_ERROR_MESSAGE_BYTES < str_len (error_text response) →
  encode_response_v3_with_limit response max = Err (text_refused response).
Proof.
  intros Hl. destruct response as [id p|id e]; [done|].
  unfold encode_response_v3_with_limit, encoded_response_members.
  by rewrite (long_text_refused _ max Hl).
Qed.
End responses.
