(* ===== verification/SessionStore.v ===== *)
(** * The durable client session ([agent-broker-client/src/session_store.rs])

    The local state of one command session: its owner, a pending acquisition,
    the next sequence and the command in flight, one JSON file that every change
    replaces atomically before anything is sent.  Paths and permission bits are
    not modelled; the file is its content, or absent.  A call on the file system
    fails when the fault says so; [sf_replaced] says whether a failure after the
    replacement, or a crash there, leaves the new file. *)

From stdpp Require Import pretty.
From S2P Require Import Prelude Values Wire Display Sessions Dispatch Json WireV1.

Inductive ClientSessionStoreError :=
  | StoreIo (context source : string)
  | StoreProtocol (e : ProtocolCodecError)
  | InvalidState (message : string)
  | SessionAlreadyOwned
  | OperationBlocked (message : string)
  | SequenceExhausted.

Definition ClientSessionStoreError_fmt (e : ClientSessionStoreError) : string :=
  match e with
  | StoreIo context source => context +:+ ": " +:+ source
  | StoreProtocol e => to_string e
  | InvalidState message => "invalid client session state: " +:+ message
  | SessionAlreadyOwned => "client session state is already owned by another process"
  | OperationBlocked message => message
  | SequenceExhausted => "client command sequence is exhausted"
  end.

#[export] Instance ClientSessionStoreError_display : Display ClientSessionStoreError :=
  ClientSessionStoreError_fmt.

(** ** What callers see *)

Record PendingOwnerAcquisition := {
  pa_session_id : CommandSessionId;
  pa_expected_owner_epoch : SessionOwnerEpoch;
  pa_owner_instance_id : SessionOwnerInstanceId;
}.

Record ReservedCommand := MkReserved {
  rv_identity : CommandIdentity;
  rv_request : BrokerRequest;
}.

Record DurableSessionOwner := MkOwnerOf {
  do_owner_epoch : SessionOwnerEpoch;
  do_owner_instance_id : SessionOwnerInstanceId;
}.

(** ** The file *)

Definition SESSION_STORE_VERSION : N := 1.

Record PersistedOwner := {
  po_owner_epoch : N;
  po_owner_instance_id : string;
}.

Record PersistedPendingOwnerAcquisition := {
  pp_expected_owner_epoch : N;
  pp_owner_instance_id : string;
}.

Record PersistedInFlight := {
  pf_owner_epoch : N;
  pf_owner_instance_id : string;
  pf_sequence : N;
  pf_request_frame : string;
}.

Record PersistedSessionState := {
  ps_version : N;
  ps_session_id : string;
  ps_owner : option PersistedOwner;
  ps_pending_owner_acquisition : option PersistedPendingOwnerAcquisition;
  ps_next_sequence : N;
  ps_in_flight : option PersistedInFlight;
}.

(** What [#[derive(Serialize)]] and [#[derive(Deserialize)]] make of them. *)
Definition opt_ser {A} (f : A → Value) (o : option A) : Value :=
  match o with Some a => f a | None => VNull end.

Definition PersistedOwner_ser (o : PersistedOwner) : Value :=
  VObject [("owner_epoch", VNumber (po_owner_epoch o));
           ("owner_instance_id", VString (po_owner_instance_id o))].

Definition PersistedOwner_de (v : Value) : option PersistedOwner :=
  match struct_fields true ["owner_epoch"; "owner_instance_id"] v with
  | Some [owner_epoch; owner_instance_id] =>
      owner_epoch ← field as_u64 owner_epoch;
      owner_instance_id ← field as_string owner_instance_id;
      Some {| po_owner_epoch := owner_epoch; po_owner_instance_id := owner_instance_id |}
  | _ => None
  end.

Definition PersistedPending_ser (p : PersistedPendingOwnerAcquisition) : Value :=
  VObject [("expected_owner_epoch", VNumber (pp_expected_owner_epoch p));
           ("owner_instance_id", VString (pp_owner_instance_id p))].

Definition PersistedPending_de (v : Value) : option PersistedPendingOwnerAcquisition :=
  match struct_fields true ["expected_owner_epoch"; "owner_instance_id"] v with
  | Some [expected_owner_epoch; owner_instance_id] =>
      expected_owner_epoch ← field as_u64 expected_owner_epoch;
      owner_instance_id ← field as_string owner_instance_id;
      Some {| pp_expected_owner_epoch := expected_owner_epoch;
              pp_owner_instance_id := owner_instance_id |}
  | _ => None
  end.

Definition PersistedInFlight_ser (f : PersistedInFlight) : Value :=
  VObject [("owner_epoch", VNumber (pf_owner_epoch f));
           ("owner_instance_id", VString (pf_owner_instance_id f));
           ("sequence", VNumber (pf_sequence f));
           ("request_frame", VString (pf_request_frame f))].

Definition PersistedInFlight_de (v : Value) : option PersistedInFlight :=
  match struct_fields true ["owner_epoch"; "owner_instance_id"; "sequence"; "request_frame"] v with
  | Some [owner_epoch; owner_instance_id; sequence; request_frame] =>
      owner_epoch ← field as_u64 owner_epoch;
      owner_instance_id ← field as_string owner_instance_id;
      sequence ← field as_u64 sequence;
      request_frame ← field as_string request_frame;
      Some {| pf_owner_epoch := owner_epoch; pf_owner_instance_id := owner_instance_id;
              pf_sequence := sequence; pf_request_frame := request_frame |}
  | _ => None
  end.

Definition PersistedSessionState_ser (s : PersistedSessionState) : Value :=
  VObject [("version", VNumber (ps_version s));
           ("session_id", VString (ps_session_id s));
           ("owner", opt_ser PersistedOwner_ser (ps_owner s));
           ("pending_owner_acquisition",
             opt_ser PersistedPending_ser (ps_pending_owner_acquisition s));
           ("next_sequence", VNumber (ps_next_sequence s));
           ("in_flight", opt_ser PersistedInFlight_ser (ps_in_flight s))].

Definition PersistedSessionState_de (v : Value) : option PersistedSessionState :=
  match struct_fields true ["version"; "session_id"; "owner"; "pending_owner_acquisition";
          "next_sequence"; "in_flight"] v with
  | Some [version; session_id; owner; pending_owner_acquisition; next_sequence; in_flight] =>
      version ← field as_u32 version;
      session_id ← field as_string session_id;
      owner ← opt_field PersistedOwner_de owner;
      pending ← opt_field PersistedPending_de pending_owner_acquisition;
      next_sequence ← field as_u64 next_sequence;
      in_flight ← opt_field PersistedInFlight_de in_flight;
      Some {| ps_version := version; ps_session_id := session_id; ps_owner := owner;
              ps_pending_owner_acquisition := pending; ps_next_sequence := next_sequence;
              ps_in_flight := in_flight |}
  | _ => None
  end.

Definition PersistedSessionState_new (session_id : CommandSessionId) : PersistedSessionState :=
  {| ps_version := SESSION_STORE_VERSION; ps_session_id := session_id; ps_owner := None;
     ps_pending_owner_acquisition := None; ps_next_sequence := 1; ps_in_flight := None |}.

Definition PersistedOwner_from (o : DurableSessionOwner) : PersistedOwner :=
  {| po_owner_epoch := do_owner_epoch o; po_owner_instance_id := do_owner_instance_id o |}.

Definition PersistedPending_from (p : PendingOwnerAcquisition) : PersistedPendingOwnerAcquisition :=
  {| pp_expected_owner_epoch := pa_expected_owner_epoch p;
     pp_owner_instance_id := pa_owner_instance_id p |}.

Definition from_reserved (reserved : ReservedCommand) (request_frame : string) :
    PersistedInFlight :=
  {| pf_owner_epoch := ci_owner_epoch (rv_identity reserved);
     pf_owner_instance_id := default EmptyString (ci_owner_instance_id (rv_identity reserved));
     pf_sequence := ci_sequence (rv_identity reserved);
     pf_request_frame := request_frame |}.

(** The state with one change ([let mut next = self.state.clone()]). *)
Definition with_pending (p : option PersistedPendingOwnerAcquisition) (s : PersistedSessionState) :
    PersistedSessionState :=
  {| ps_version := ps_version s; ps_session_id := ps_session_id s; ps_owner := ps_owner s;
     ps_pending_owner_acquisition := p; ps_next_sequence := ps_next_sequence s;
     ps_in_flight := ps_in_flight s |}.

Definition with_in_flight (f : option PersistedInFlight) (s : PersistedSessionState) :
    PersistedSessionState :=
  {| ps_version := ps_version s; ps_session_id := ps_session_id s; ps_owner := ps_owner s;
     ps_pending_owner_acquisition := ps_pending_owner_acquisition s;
     ps_next_sequence := ps_next_sequence s; ps_in_flight := f |}.

Definition with_next_sequence (n : N) (s : PersistedSessionState) : PersistedSessionState :=
  {| ps_version := ps_version s; ps_session_id := ps_session_id s; ps_owner := ps_owner s;
     ps_pending_owner_acquisition := ps_pending_owner_acquisition s; ps_next_sequence := n;
     ps_in_flight := ps_in_flight s |}.

Definition with_owner (o : option PersistedOwner) (s : PersistedSessionState) :
    PersistedSessionState :=
  {| ps_version := ps_version s; ps_session_id := ps_session_id s; ps_owner := o;
     ps_pending_owner_acquisition := ps_pending_owner_acquisition s;
     ps_next_sequence := ps_next_sequence s; ps_in_flight := ps_in_flight s |}.

(** ** Validation *)

Definition invalid_state {A E} `{Display E} (r : result A E) : result A ClientSessionStoreError :=
  map_err (λ e, InvalidState (to_string e)) r.

Definition decode_owner (owner : PersistedOwner) :
    result DurableSessionOwner ClientSessionStoreError :=
  let^ owner_epoch := invalid_state (SessionOwnerEpoch_new (po_owner_epoch owner)) in
  let^ owner_instance_id :=
    invalid_state (SessionOwnerInstanceId_new (po_owner_instance_id owner)) in
  Ok {| do_owner_epoch := owner_epoch; do_owner_instance_id := owner_instance_id |}.

Definition decode_pending (session_id : CommandSessionId)
    (pending : PersistedPendingOwnerAcquisition) :
    result PendingOwnerAcquisition ClientSessionStoreError :=
  let^ expected_owner_epoch :=
    invalid_state (SessionOwnerEpoch_new (pp_expected_owner_epoch pending)) in
  let^ owner_instance_id :=
    invalid_state (SessionOwnerInstanceId_new (pp_owner_instance_id pending)) in
  Ok {| pa_session_id := session_id; pa_expected_owner_epoch := expected_owner_epoch;
        pa_owner_instance_id := owner_instance_id |}.

Definition validate_acquired_epoch (expected actual : SessionOwnerEpoch)
    (replacing_confirmed_owner : bool) : result unit ClientSessionStoreError :=
  let advanced := checked_add expected 1 in
  if replacing_confirmed_owner && bool_decide (advanced = Some actual) then Ok tt
  else if negb replacing_confirmed_owner &&
          ((actual =? expected) || bool_decide (advanced = Some actual)) then Ok tt
  else Err (InvalidState ("Broker returned owner epoch " +:+ pretty actual +:+
         " for expected epoch " +:+ pretty expected)).

Definition validate_state_relationships (state : PersistedSessionState)
    (owner : option DurableSessionOwner) (pending : option PendingOwnerAcquisition)
    (in_flight : option ReservedCommand) : result unit ClientSessionStoreError :=
  if present pending && present in_flight then
    Err (InvalidState "owner acquisition and command cannot both be in flight")
  else if negb (present owner) && negb (ps_next_sequence state =? 1) then
    Err (InvalidState "unowned session must keep next_sequence at 1")
  else
  match owner, in_flight with
  | Some owner, Some in_flight =>
      let identity := rv_identity in_flight in
      if negb (ci_owner_epoch identity =? do_owner_epoch owner) ||
         negb (bool_decide (ci_owner_instance_id identity = Some (do_owner_instance_id owner))) ||
         negb (ci_sequence identity =? ps_next_sequence state)
      then Err (InvalidState
        "in-flight command identity does not match durable owner/next sequence")
      else Ok tt
  | None, Some _ => Err (InvalidState "in-flight command requires a confirmed owner")
  | _, None => Ok tt
  end.

Section validation.
Context `{J : SerdeJson}.

Definition decode_in_flight (session_id : CommandSessionId) (in_flight : PersistedInFlight) :
    result ReservedCommand ClientSessionStoreError :=
  let^ owner_epoch := invalid_state (SessionOwnerEpoch_new (pf_owner_epoch in_flight)) in
  let^ owner_instance_id :=
    invalid_state (SessionOwnerInstanceId_new (pf_owner_instance_id in_flight)) in
  let^ sequence := invalid_state (CommandSequence_new (pf_sequence in_flight)) in
  let^ request := map_err StoreProtocol
    (decode_request (String.list_ascii_of_string (pf_request_frame in_flight))) in
  if bool_decide (request_operation request = OpHealth)
  then Err (InvalidState "in-flight durable command cannot be health")
  else Ok {| rv_identity := new_with_owner session_id owner_epoch owner_instance_id sequence;
             rv_request := request |}.

Definition validate_state (state : PersistedSessionState) (expected_session_id : CommandSessionId) :
    result unit ClientSessionStoreError :=
  if negb (ps_version state =? SESSION_STORE_VERSION)
  then Err (InvalidState ("unsupported version " +:+ pretty (ps_version state))) else
  let^ stored_session_id := invalid_state (CommandSessionId_new (ps_session_id state)) in
  if negb (String.eqb stored_session_id expected_session_id)
  then Err (InvalidState ("session id mismatch: expected " +:+ expected_session_id +:+ ", found " +:+
         ps_session_id state)) else
  let^ _ := invalid_state (CommandSequence_new (ps_next_sequence state)) in
  let^ owner := transposed decode_owner (ps_owner state) in
  let^ pending := transposed (decode_pending expected_session_id)
                    (ps_pending_owner_acquisition state) in
  let^ in_flight := transposed (decode_in_flight expected_session_id) (ps_in_flight state) in
  validate_state_relationships state owner pending in_flight.

End validation.

(** ** File operations *)

Inductive StoreSite := SiteLock | SiteRead | SitePersist.

#[export] Instance StoreSite_eq_dec : EqDecision StoreSite.
Proof. solve_decision. Defined.

Record StoreFault := {
  sf_site : StoreSite;
  sf_context : string;
  sf_replaced : bool;
  sf_source : string;
}.

(** The state file, and whether another process holds the lock file. *)
Record SessionFile := MkFile {
  fl_content : option bytes;
  fl_locked_elsewhere : bool;
}.

Definition with_content (b : bytes) (d : SessionFile) : SessionFile :=
  MkFile (Some b) (fl_locked_elsewhere d).

Definition store_call (io : option StoreFault) (site : StoreSite) (context : string) :
    result unit ClientSessionStoreError :=
  match io with
  | Some f => if bool_decide (sf_site f = site) && bool_decide (sf_context f = context)
              then Err (StoreIo context (sf_source f)) else Ok tt
  | None => Ok tt
  end.

Definition ensure_parent (io : option StoreFault) (site : StoreSite) :
    result unit ClientSessionStoreError :=
  store_call io site "client session directory creation failed".

Definition sync_session_directory (io : option StoreFault) (site : StoreSite) :
    result unit ClientSessionStoreError :=
  let^ _ := store_call io site "client session directory open failed" in
  store_call io site "client session directory fsync failed".

Definition acquire_state_lock (io : option StoreFault) (d : SessionFile) :
    result unit ClientSessionStoreError :=
  let^ _ := ensure_parent io SiteLock in
  let^ _ := store_call io SiteLock "client session lock open failed" in
  let^ _ := store_call io SiteLock "client session lock acquisition failed" in
  if fl_locked_elsewhere d then Err SessionAlreadyOwned
  else sync_session_directory io SiteLock.

Section store.
Context `{J : SerdeJson}.

Definition persist_state (io : option StoreFault) (state : PersistedSessionState)
    (d : SessionFile) : result unit ClientSessionStoreError * SessionFile :=
  let call := store_call io SitePersist in
  let? _ := ensure_parent io SitePersist else d in
  let? encoded := map_err (λ e, InvalidState ("state JSON encode failed: " +:+ e))
                    (json_write (PersistedSessionState_ser state)) else d in
  let? _ := call "client session tempfile creation failed" else d in
  let? _ := call "client session file mode setup failed" else d in
  let? _ := call "client session tempfile write failed" else d in
  let? _ := call "client session tempfile flush failed" else d in
  let? _ := call "client session tempfile fsync failed" else d in
  let? _ := call "client session atomic replace failed" else d in
  let replaced := with_content encoded d in
  let after := match io with Some {| sf_replaced := false |} => d | _ => replaced end in
  let? _ := sync_session_directory io SitePersist else after in
  (Ok tt, replaced).

(** [fs::read] of an existing file. *)
Definition load_state (io : option StoreFault) (content : bytes)
    (expected_session_id : CommandSessionId) :
    result PersistedSessionState ClientSessionStoreError :=
  let^ _ := store_call io SiteRead "client session state read failed" in
  let^ state := map_err (λ e, InvalidState ("state JSON decode failed: " +:+ e))
    (from_slice "PersistedSessionState" PersistedSessionState_de content) in
  let^ _ := validate_state state expected_session_id in
  Ok state.

(** ** The store *)

Record DurableClientSessionStore := MkStore {
  ds_session_id : CommandSessionId;
  ds_state : PersistedSessionState;
}.

Definition open_or_create (io : option StoreFault) (session_id : CommandSessionId)
    (d : SessionFile) : result DurableClientSessionStore ClientSessionStoreError * SessionFile :=
  let? _ := acquire_state_lock io d else d in
  let? _ := store_call io SiteRead "client session existence check failed" else d in
  match fl_content d with
  | Some content =>
      let? state := load_state io content session_id else d in
      (Ok (MkStore session_id state), d)
  | None =>
      let state := PersistedSessionState_new session_id in
      let '(persisted, d) := persist_state io state d in
      let? _ := persisted else d in
      (Ok (MkStore session_id state), d)
  end.

Definition next_sequence (s : DurableClientSessionStore) :
    result CommandSequence ClientSessionStoreError :=
  invalid_state (CommandSequence_new (ps_next_sequence (ds_state s))).

Definition owner (s : DurableClientSessionStore) :
    result (option DurableSessionOwner) ClientSessionStoreError :=
  transposed decode_owner (ps_owner (ds_state s)).

Definition pending_owner_acquisition (s : DurableClientSessionStore) :
    result (option PendingOwnerAcquisition) ClientSessionStoreError :=
  transposed (decode_pending (ds_session_id s)) (ps_pending_owner_acquisition (ds_state s)).

Definition in_flight (s : DurableClientSessionStore) :
    result (option ReservedCommand) ClientSessionStoreError :=
  transposed (decode_in_flight (ds_session_id s)) (ps_in_flight (ds_state s)).

(** [self.state] changes only after the file was replaced and synced. *)
Definition commit_state (io : option StoreFault) (next : PersistedSessionState)
    (w : DurableClientSessionStore * SessionFile) :
    result unit ClientSessionStoreError * (DurableClientSessionStore * SessionFile) :=
  let '(s, d) := w in
  let? _ := validate_state next (ds_session_id s) else (s, d) in
  let '(persisted, d) := persist_state io next d in
  let? _ := persisted else (s, d) in
  (Ok tt, (MkStore (ds_session_id s) next, d)).

Definition begin_owner_acquisition (io : option StoreFault)
    (owner_instance_id : SessionOwnerInstanceId) (w : DurableClientSessionStore * SessionFile) :
    result PendingOwnerAcquisition ClientSessionStoreError *
      (DurableClientSessionStore * SessionFile) :=
  let s := w.1 in
  if present (ps_in_flight (ds_state s)) then
    (Err (OperationBlocked
       "cannot acquire a new session owner while an in-flight command is unresolved"), w)
  else if present (ps_pending_owner_acquisition (ds_state s)) then
    (Err (OperationBlocked "session owner acquisition is already pending"), w)
  else
  let? current_owner := owner s else w in
  if match current_owner with
     | Some o => String.eqb (do_owner_instance_id o) owner_instance_id
     | None => false
     end
  then (Err (OperationBlocked
    "confirmed owner instance must continue its current sequence domain instead of reacquiring ownership"), w)
  else
  let pending := {|
    pa_session_id := ds_session_id s;
    pa_expected_owner_epoch :=
      match current_owner with Some o => do_owner_epoch o | None => SessionOwnerEpoch_INITIAL end;
    pa_owner_instance_id := owner_instance_id |} in
  let! _, w := commit_state io (with_pending (Some (PersistedPending_from pending)) (ds_state s)) w in
  (Ok pending, w).

Definition confirm_owner_acquisition (io : option StoreFault) (owner_epoch : SessionOwnerEpoch)
    (w : DurableClientSessionStore * SessionFile) :
    result DurableSessionOwner ClientSessionStoreError *
      (DurableClientSessionStore * SessionFile) :=
  let s := w.1 in
  let? pending := pending_owner_acquisition s else w in
  let? pending := ok_or pending (InvalidState
    "owner acquisition response received without a durable pending acquisition") else w in
  let? _ := validate_acquired_epoch (pa_expected_owner_epoch pending) owner_epoch
              (present (ps_owner (ds_state s))) else w in
  let o := {| do_owner_epoch := owner_epoch;
              do_owner_instance_id := pa_owner_instance_id pending |} in
  let next := with_in_flight None (with_next_sequence 1 (with_pending None
    (with_owner (Some (PersistedOwner_from o)) (ds_state s)))) in
  let! _, w := commit_state io next w in
  (Ok o, w).

(** The text that [serde_json] writes is UTF-8, so [String::from_utf8] accepts
    the frame. *)
Definition reserve_command (io : option StoreFault) (request : BrokerRequest)
    (w : DurableClientSessionStore * SessionFile) :
    result ReservedCommand ClientSessionStoreError * (DurableClientSessionStore * SessionFile) :=
  let s := w.1 in
  if present (ps_pending_owner_acquisition (ds_state s)) then
    (Err (OperationBlocked "cannot reserve a command while owner acquisition is unresolved"), w)
  else if present (ps_in_flight (ds_state s)) then
    (Err (OperationBlocked
       "cannot reserve a second command while an in-flight command is unresolved"), w)
  else if bool_decide (request_operation request = OpHealth) then
    (Err (OperationBlocked "durable command sessions are mutation-only"), w)
  else if ps_next_sequence (ds_state s) =? u64_max then (Err SequenceExhausted, w)
  else
  let? current_owner := owner s else w in
  let? current_owner := ok_or current_owner
    (OperationBlocked "cannot reserve a command before Broker owner acquisition") else w in
  let? sequence := invalid_state (CommandSequence_new (ps_next_sequence (ds_state s))) else w in
  let identity := new_with_owner (ds_session_id s) (do_owner_epoch current_owner)
                    (do_owner_instance_id current_owner) sequence in
  let? frame := map_err StoreProtocol (encode_request request) else w in
  let reserved := {| rv_identity := identity; rv_request := request |} in
  let next := with_in_flight
    (Some (from_reserved reserved (String.string_of_list_ascii frame))) (ds_state s) in
  let! _, w := commit_state io next w in
  (Ok reserved, w).

Definition acknowledge_in_flight_outcome (io : option StoreFault) (identity : CommandIdentity)
    (w : DurableClientSessionStore * SessionFile) :
    result unit ClientSessionStoreError * (DurableClientSessionStore * SessionFile) :=
  let s := w.1 in
  let? flying := in_flight s else w in
  let? flying := ok_or flying (InvalidState
    "cannot acknowledge an outcome without an in-flight command") else w in
  if negb (bool_decide (rv_identity flying = identity)) then
    (Err (InvalidState "outcome identity does not match durable in-flight command"), w)
  else
  let? following := ok_or (checked_add (ci_sequence identity) 1) SequenceExhausted else w in
  commit_state io (with_in_flight None (with_next_sequence following (ds_state s))) w.

Definition release_rejected_in_flight (io : option StoreFault) (identity : CommandIdentity)
    (w : DurableClientSessionStore * SessionFile) :
    result unit ClientSessionStoreError * (DurableClientSessionStore * SessionFile) :=
  let s := w.1 in
  let? flying := in_flight s else w in
  let? flying := ok_or flying (InvalidState
    "cannot release a rejected command without an in-flight command") else w in
  if negb (bool_decide (rv_identity flying = identity)) then
    (Err (InvalidState "rejected outcome identity does not match durable in-flight command"), w)
  else commit_state io (with_in_flight None (ds_state s)) w.

End store.
