(* ===== verification/SessionStoreProps.v ===== *)
(** * The session file keeps what was promised

    The state file reads back what was written; every operation of the store
    keeps the state valid, and a command that was reserved is found in the file
    again, whatever fails or crashes, until its outcome is settled. *)

From S2P Require Import Prelude Values Wire Display Sessions SessionsProps Dispatch Json WireV1.
From S2P Require Import WireV1Props SessionStore.

(** ** The state in 64 bits *)

Definition word_owner (o : PersistedOwner) : Prop := po_owner_epoch o ≤ u64_max.
Definition word_pending (p : PersistedPendingOwnerAcquisition) : Prop :=
  pp_expected_owner_epoch p ≤ u64_max.
Definition word_in_flight (f : PersistedInFlight) : Prop :=
  pf_owner_epoch f ≤ u64_max ∧ pf_sequence f ≤ u64_max.

Record word_session (s : PersistedSessionState) : Prop := {
  wn_version : ps_version s ≤ u32_max;
  wn_owner : ∀ o, ps_owner s = Some o → word_owner o;
  wn_pending : ∀ p, ps_pending_owner_acquisition s = Some p → word_pending p;
  wn_next : ps_next_sequence s ≤ u64_max;
  wn_in_flight : ∀ f, ps_in_flight s = Some f → word_in_flight f;
}.

Section file.
Context {J : SerdeJson} {L : SerdeJsonLaws J}.

Ltac word_tree := repeat (rewrite (proj2 (N.leb_le _ u64_max)) by (done || lia)).

Lemma session_tree s :
  word_session s →
  tree (PersistedSessionState_ser s) = true ∧ (depth (PersistedSessionState_ser s) ≤ 127)%nat.
Proof.
  destruct s as [v i o p n f]. intros [Hv Ho Hp Hn Hf]. cbn in Hv, Ho, Hp, Hn, Hf.
  assert (v ≤ u64_max) by (unfold u32_max, u64_max in *; lia).
  split; cbn; word_tree; cbn.
  - destruct o as [[e x]|]; cbn; [specialize (Ho _ eq_refl); unfold word_owner in Ho; cbn in Ho; word_tree|];
    (destruct p as [[e' x']|]; cbn; [specialize (Hp _ eq_refl); unfold word_pending in Hp; cbn in Hp; word_tree|]);
    (destruct f as [[e'' x'' q r]|]; cbn;
      [specialize (Hf _ eq_refl); unfold word_in_flight in Hf; cbn in Hf; destruct Hf; word_tree|]); done.
  - destruct o, p, f; cbn; lia.
Qed.

Lemma owner_reads_back o :
  match o with Some o => word_owner o | None => True end →
  opt_field PersistedOwner_de (Some (opt_ser PersistedOwner_ser o)) = Some o.
Proof.
  destruct o as [[e i]|]; [|done]. intros Hw. cbn [opt_ser opt_field PersistedOwner_ser].
  unfold PersistedOwner_de. read_struct. by rewrite as_u64_fits.
Qed.

Lemma pending_reads_back p :
  match p with Some p => word_pending p | None => True end →
  opt_field PersistedPending_de (Some (opt_ser PersistedPending_ser p)) = Some p.
Proof.
  destruct p as [[e i]|]; [|done]. intros Hw. cbn [opt_ser opt_field PersistedPending_ser].
  unfold PersistedPending_de. read_struct. by rewrite as_u64_fits.
Qed.

Lemma in_flight_reads_back f :
  match f with Some f => word_in_flight f | None => True end →
  opt_field PersistedInFlight_de (Some (opt_ser PersistedInFlight_ser f)) = Some f.
Proof.
  destruct f as [[e i q r]|]; [|done]. intros [He Hq]. cbn [opt_ser opt_field PersistedInFlight_ser].
  unfold PersistedInFlight_de. read_struct. cbn in He, Hq. rewrite as_u64_fits by done.
  cbn [mbind option_bind]. by rewrite as_u64_fits.
Qed.

Lemma session_reads_back s :
  word_session s → PersistedSessionState_de (PersistedSessionState_ser s) = Some s.
Proof.
  destruct s as [v i o p n f]. intros [Hv Ho Hp Hn Hf]. cbn in Hv, Ho, Hp, Hn, Hf.
  unfold PersistedSessionState_de, PersistedSessionState_ser.
  cbn [ps_version ps_session_id ps_owner ps_pending_owner_acquisition ps_next_sequence ps_in_flight].
  pose proof (owner_reads_back o ltac:(destruct o; auto)) as Eo.
  pose proof (pending_reads_back p ltac:(destruct p; auto)) as Ep.
  pose proof (in_flight_reads_back f ltac:(destruct f; auto)) as Ef.
  set (ov := opt_ser _ o) in *. set (pv := opt_ser _ p) in *. set (fv := opt_ser _ f) in *.
  clearbody ov pv fv.
  match goal with
  | |- context [struct_fields ?d ?n ?v] =>
      let f := eval vm_compute in (struct_fields d n v) in change (struct_fields d n v) with f
  end.
  cbn [field as_string mbind option_bind]. unfold as_u32. rewrite (proj2 (N.leb_le _ _) Hv), Eo, Ep.
  cbn [mbind option_bind]. rewrite as_u64_fits, Ef by done. done.
Qed.

(** ** What a commit leaves *)

Definition session_sound (sid : CommandSessionId) (s : PersistedSessionState) : Prop :=
  validate_state s sid = Ok tt ∧ word_session s.

Definition on_file (s : PersistedSessionState) (d : SessionFile) : Prop :=
  ∃ b, json_write (PersistedSessionState_ser s) = Ok b ∧ fl_content d = Some b.

Lemma persist_outcome io s d r d' :
  persist_state io s d = (r, d') →
  match r with Ok _ => on_file s d' | Err _ => d' = d ∨ on_file s d' end.
Proof.
  unfold persist_state, on_file, map_err. intros H.
  repeat (case_match; simplify_eq/=; try by eauto).
Qed.

Lemma persist_succeeds s d : word_session s → ∃ d', persist_state None s d = (Ok tt, d').
Proof.
  intros [Ht Hd]%session_tree. destruct (json_tree_reads_back _ Ht Hd) as (b & Hb & _).
  unfold persist_state. cbn [ensure_parent store_call]. rewrite Hb. by eexists.
Qed.

Lemma load_on_file io s sid b :
  session_sound sid s → json_write (PersistedSessionState_ser s) = Ok b →
  load_state io b sid = Ok s ∨
  ∃ e, io = Some e ∧ load_state io b sid = Err (StoreIo "client session state read failed" (sf_source e)).
Proof.
  intros [Hv Hw] Hb. destruct (session_tree s Hw) as [Ht Hd].
  destruct (json_tree_reads_back _ Ht Hd) as (b' & Hb' & Hr & _). rewrite Hb in Hb'.
  injection Hb' as <-. unfold load_state, from_slice. rewrite Hr, session_reads_back by done.
  cbn [ok_or map_err]. unfold store_call. destruct io as [f|]; [|by left; rewrite Hv].
  destruct (_ && _); [by right; eauto|]. left. by rewrite Hv.
Qed.

(** Opening an existing sound file returns its state, or fails and changes
    nothing. *)
Lemma open_existing io sid s d r d' :
  session_sound sid s → on_file s d → open_or_create io sid d = (r, d') →
  d' = d ∧ match r with Ok st => st = MkStore sid s | Err _ => True end.
Proof.
  intros Hs (b & Hb & Hc). unfold open_or_create. destruct (acquire_state_lock io d); [|by intros [= <- <-]].
  destruct (store_call _ _ _); [|by intros [= <- <-]]. rewrite Hc.
  destruct (load_on_file io s sid b Hs Hb) as [->|(e & _ & ->)]; by intros [= <- <-].
Qed.

Lemma reopens sid s d :
  session_sound sid s → on_file s d → fl_locked_elsewhere d = false →
  open_or_create None sid d = (Ok (MkStore sid s), d).
Proof.
  intros Hs (b & Hb & Hc) Hl. unfold open_or_create, acquire_state_lock.
  rewrite Hl, Hc. cbn [ensure_parent store_call sync_session_directory].
  destruct (load_on_file None s sid b Hs Hb) as [->|(e & [=] & _)]. done.
Qed.

Lemma commit_outcome io next s d r w :
  word_session next → commit_state io next (s, d) = (r, w) →
  match r with
  | Ok _ => w.1 = MkStore (ds_session_id s) next ∧ on_file next w.2 ∧ session_sound (ds_session_id s) next
  | Err _ => w.1 = s ∧ (w.2 = d ∨ on_file next w.2 ∧ session_sound (ds_session_id s) next)
  end.
Proof.
  intros Hw. unfold commit_state. destruct (validate_state next _) as [[]|] eqn:Hv;
    [|intros [= <- <-]; auto].
  destruct (persist_state io next d) as [[[]|e] d'] eqn:Hp; apply persist_outcome in Hp;
    intros [= <- <-]; [done|]. split; [done|]. by destruct Hp; [left|right].
Qed.

(** ** Every operation keeps the session valid *)

(** The state in memory and the state on file are both sound. *)
Definition kept (sid : CommandSessionId) (w : DurableClientSessionStore * SessionFile) : Prop :=
  ds_session_id w.1 = sid ∧ session_sound sid (ds_state w.1) ∧ ∃ s, on_file s w.2 ∧ session_sound sid s.

Lemma commit_keeps sid io next w r w' :
  kept sid w → word_session next → commit_state io next w = (r, w') → kept sid w'.
Proof.
  destruct w as [s d]. intros (Hid & Hm & s0 & Hf) Hw Hc. cbn in Hid.
  pose proof (commit_outcome _ _ _ _ _ _ Hw Hc) as H. rewrite Hid in H. destruct r.
  - destruct H as (Hw1 & Hon & Hs). split_and!; rewrite ?Hw1; eauto.
  - destruct H as (Hw1 & Hd). split_and!; rewrite ?Hw1; try done. destruct Hd as [->|[]]; eauto.
Qed.

Lemma word_with_in_flight f s :
  match f with Some f => word_in_flight f | None => True end → word_session s →
  word_session (with_in_flight f s).
Proof. intros Hf []. constructor; cbn; try done. by intros ? ->. Qed.

Lemma word_with_pending p s :
  match p with Some p => word_pending p | None => True end → word_session s →
  word_session (with_pending p s).
Proof. intros Hf []. constructor; cbn; try done. by intros ? ->. Qed.

Lemma word_with_owner o s :
  match o with Some o => word_owner o | None => True end → word_session s →
  word_session (with_owner o s).
Proof. intros Hf []. constructor; cbn; try done. by intros ? ->. Qed.

Lemma word_with_next n s : n ≤ u64_max → word_session s → word_session (with_next_sequence n s).
Proof. intros Hn []. by constructor. Qed.

Lemma owner_word st o : word_session (ds_state st) → owner st = Ok (Some o) → do_owner_epoch o ≤ u64_max.
Proof.
  unfold owner. intros [_ Ho _ _ _]. destruct (ps_owner (ds_state st)) as [p|]; [|done].
  cbn [transposed]. specialize (Ho p eq_refl). unfold decode_owner, word_owner in *.
  destruct (SessionOwnerEpoch_new _) as [e|] eqn:He; [|done].
  destruct (SessionOwnerInstanceId_new _); [|done]. apply owner_epoch_inv in He as ->.
  by intros [= <-].
Qed.

Lemma checked_add_word n k m : checked_add n k = Some m → m ≤ u64_max.
Proof. unfold checked_add. destruct (N.leb_spec (n + k) u64_max); by intros [= <-]. Qed.

(** The operations that change a session. *)
Inductive StoreOp :=
  | DoBegin (o : SessionOwnerInstanceId)
  | DoConfirm (e : SessionOwnerEpoch)
  | DoReserve (request : BrokerRequest)
  | DoAcknowledge (i : CommandIdentity)
  | DoRelease (i : CommandIdentity).

Definition run_store_op (io : option StoreFault) (op : StoreOp)
    (w : DurableClientSessionStore * SessionFile) : DurableClientSessionStore * SessionFile :=
  match op with
  | DoBegin o => (begin_owner_acquisition io o w).2
  | DoConfirm e => (confirm_owner_acquisition io e w).2
  | DoReserve request => (reserve_command io request w).2
  | DoAcknowledge i => (acknowledge_in_flight_outcome io i w).2
  | DoRelease i => (release_rejected_in_flight io i w).2
  end.

(** Each of them either changes nothing or commits one state of 64-bit numbers. *)
Definition commits_or_not {A} (io : option StoreFault) (w : DurableClientSessionStore * SessionFile)
    (res : result A ClientSessionStoreError * (DurableClientSessionStore * SessionFile)) : Prop :=
  res.2 = w ∨ ∃ next, word_session next ∧ res.2 = (commit_state io next w).2.

Lemma after_commit {A} (r : A) c :
  ((let! _, w := c in (Ok r, w)) :
    result A ClientSessionStoreError * (DurableClientSessionStore * SessionFile)).2 =
  (c : result unit ClientSessionStoreError * _).2.
Proof. by destruct c as [[]]. Qed.

Lemma begin_commits io o w :
  word_session (ds_state w.1) → commits_or_not io w (begin_owner_acquisition io o w).
Proof.
  intros Hw. unfold commits_or_not, begin_owner_acquisition. do 2 (case_match; [by left|]).
  destruct (owner w.1) as [cur|] eqn:Ho; [|by left]. case_match; [by left|]. right.
  eexists (with_pending (Some (PersistedPending_from _)) (ds_state w.1)).
  split; [|apply after_commit].
  apply word_with_pending; [|done]. unfold word_pending. cbn.
  destruct cur; [by eapply owner_word|]. unfold SessionOwnerEpoch_INITIAL, u64_max. lia.
Qed.

Lemma confirm_commits io e w :
  word_session (ds_state w.1) → commits_or_not io w (confirm_owner_acquisition io e w).
Proof.
  intros Hw. unfold commits_or_not, confirm_owner_acquisition.
  destruct (pending_owner_acquisition w.1) as [[p|]|] eqn:Hp; [|by left..]. cbn [ok_or].
  destruct (validate_acquired_epoch _ _ _) as [[]|] eqn:He; [|by left]. right. cbn [map_err].
  eexists. split; [|apply after_commit].
  assert (e ≤ u64_max) as Hu.
  { unfold pending_owner_acquisition in Hp.
    destruct (ps_pending_owner_acquisition (ds_state w.1)) as [pp|] eqn:Hpp; [|done].
    pose proof (wn_pending _ Hw pp Hpp) as Hpw. unfold word_pending in Hpw. cbn [transposed] in Hp.
    unfold decode_pending in Hp. destruct (SessionOwnerEpoch_new _) as [x|] eqn:Hx; [|done].
    apply owner_epoch_inv in Hx as ->. destruct (SessionOwnerInstanceId_new _); [|done].
    injection Hp as <-. cbn in He. unfold validate_acquired_epoch in He.
    destruct (present _); cbn in He; repeat case_bool_decide; try done;
      try (by eapply checked_add_word).
    destruct (N.eqb_spec e (pp_expected_owner_epoch pp)) as [->|]; done. }
  by apply word_with_in_flight, word_with_next, word_with_pending, word_with_owner.
Qed.

Lemma reserve_commits io request w :
  word_session (ds_state w.1) → commits_or_not io w (reserve_command io request w).
Proof.
  intros Hw. unfold commits_or_not, reserve_command. do 4 (case_match; [by left|]).
  destruct (owner w.1) as [[o|]|] eqn:Ho; [|by left..]. cbn [ok_or].
  destruct (CommandSequence_new _) as [q|] eqn:Hq; [|by left]. cbn [invalid_state map_err].
  destruct (encode_request request) as [frame|]; [|by left]. cbn [map_err]. right.
  eexists. split; [|apply after_commit]. apply word_with_in_flight; [|done]. split; cbn.
  - by eapply owner_word.
  - apply sequence_inv in Hq as ->. apply Hw.
Qed.

Lemma acknowledge_commits io i w :
  word_session (ds_state w.1) → commits_or_not io w (acknowledge_in_flight_outcome io i w).
Proof.
  intros Hw. unfold commits_or_not, acknowledge_in_flight_outcome.
  destruct (in_flight w.1) as [[f|]|]; [|by left..]. cbn [ok_or]. case_match; [by left|].
  destruct (checked_add _ _) as [n|] eqn:Hn; [|by left]. cbn [ok_or]. right.
  eexists. split; [|done]. apply word_with_in_flight, word_with_next; try done.
  by eapply checked_add_word.
Qed.

Lemma release_commits io i w :
  word_session (ds_state w.1) → commits_or_not io w (release_rejected_in_flight io i w).
Proof.
  intros Hw. unfold commits_or_not, release_rejected_in_flight.
  destruct (in_flight w.1) as [[f|]|]; [|by left..]. cbn [ok_or]. case_match; [by left|]. right.
  eexists. split; [|done]. by apply word_with_in_flight.
Qed.

Lemma store_op_keeps sid io op w : kept sid w → kept sid (run_store_op io op w).
Proof.
  intros Hk. assert (word_session (ds_state w.1)) as Hw by apply Hk.
  assert (∀ A (res : result A ClientSessionStoreError * _), commits_or_not io w res → kept sid res.2) as Hc.
  { intros A res [->|(next & Hn & ->)]; [done|].
    by apply (commit_keeps sid io next w (commit_state io next w).1); [..|apply surjective_pairing]. }
  destruct op; apply Hc; auto using begin_commits, confirm_commits, reserve_commits,
    acknowledge_commits, release_commits.
Qed.

(** ** Faults and crashes *)

(** An operation under a fault, or a crash of the process followed by an attempt
    to open the session again, which another process may hold. *)
Inductive StoreEvent :=
  | Perform (io : option StoreFault) (op : StoreOp)
  | Reopen (io : option StoreFault) (locked_elsewhere : bool).

Definition run_event (sid : CommandSessionId) (ev : StoreEvent)
    (w : option DurableClientSessionStore * SessionFile) :
    option DurableClientSessionStore * SessionFile :=
  match ev, w with
  | Perform io op, (Some s, d) => let '(s, d) := run_store_op io op (s, d) in (Some s, d)
  | Perform _ _, (None, d) => (None, d)
  | Reopen io locked, (_, d) =>
      match open_or_create io sid (MkFile (fl_content d) locked) with
      | (Ok s, d) => (Some s, d)
      | (Err _, d) => (None, d)
      end
  end.

Definition run_events (sid : CommandSessionId) (evs : list StoreEvent)
    (w : option DurableClientSessionStore * SessionFile) :
    option DurableClientSessionStore * SessionFile :=
  foldl (λ w ev, run_event sid ev w) w evs.

(** The file, before and after the session is created. *)
Definition session_kept (sid : CommandSessionId)
    (w : option DurableClientSessionStore * SessionFile) : Prop :=
  match w with
  | (Some s, d) => kept sid (s, d)
  | (None, d) => fl_content d = None ∨ ∃ s, on_file s d ∧ session_sound sid s
  end.

Lemma fresh_sound sid : CommandSessionId_new sid = Ok sid → session_sound sid (PersistedSessionState_new sid).
Proof.
  intros Hs. split.
  - unfold validate_state. cbn. rewrite Hs. cbn. by rewrite String.eqb_refl.
  - constructor; cbn; unfold u32_max, u64_max; (lia || done).
Qed.

Lemma open_keeps sid io d r d' :
  CommandSessionId_new sid = Ok sid → session_kept sid (None, d) → open_or_create io sid d = (r, d') →
  session_kept sid (match r with Ok s => Some s | Err _ => None end, d').
Proof.
  intros Hid [Hn|(s & Hon & Hs)].
  - unfold open_or_create. destruct (acquire_state_lock io d); [|by intros [= <- <-]; left].
    destruct (store_call _ _ _); [|by intros [= <- <-]; left]. rewrite Hn.
    destruct (persist_state io _ d) as [[[]|e] d1] eqn:Hp; apply persist_outcome in Hp;
      intros [= <- <-]; cbn.
    + pose proof (fresh_sound sid Hid) as Hf. split_and!; [done..|]. eauto.
    + destruct Hp as [->|Hp]; [by left|]. right. eauto using fresh_sound.
  - intros Ho. destruct (open_existing io sid s d r d' Hs Hon Ho) as [-> Hr].
    destruct r as [st|]; [subst st; split_and!; [done..|]; eauto|]. right. eauto.
Qed.

Lemma kept_file sid w : session_kept sid w → session_kept sid (None, w.2).
Proof. destruct w as [[s|] d]; [|done]. intros (_ & _ & H). by right. Qed.

Lemma event_keeps sid ev w :
  CommandSessionId_new sid = Ok sid → session_kept sid w → session_kept sid (run_event sid ev w).
Proof.
  intros Hid Hk. destruct ev as [io op|io locked].
  - destruct w as [[s|] d]; [|done]. cbn [run_event].
    pose proof (store_op_keeps sid io op (s, d) Hk) as Hk'. by destruct (run_store_op _ _ _).
  - cbn [run_event]. destruct w as [s d]. apply kept_file in Hk.
    assert (session_kept sid (None, MkFile (fl_content d) locked)) as Hk' by apply Hk.
    destruct (open_or_create _ _ _) as [r d'] eqn:Ho.
    pose proof (open_keeps sid io _ r d' Hid Hk' Ho). by destruct r.
Qed.

Lemma events_keep sid evs w :
  CommandSessionId_new sid = Ok sid → session_kept sid w → session_kept sid (run_events sid evs w).
Proof.
  intros Hid. revert w. induction evs as [|ev evs IH]; [done|]. intros w Hk. cbn.
  by apply IH, event_keeps.
Qed.

(** ** A command in flight stays *)

(** The state on file, and in memory if the session is open, holds the command. *)
Definition flying (sid : CommandSessionId) (r : ReservedCommand)
    (w : option DurableClientSessionStore * SessionFile) : Prop :=
  ∃ s, on_file s w.2 ∧ session_sound sid s ∧
    transposed (decode_in_flight sid) (ps_in_flight s) = Ok (Some r) ∧
    match w.1 with Some st => st = MkStore sid s | None => True end.

Lemma validate_parts s sid :
  validate_state s sid = Ok tt →
  ∃ o p f, transposed decode_owner (ps_owner s) = Ok o ∧
    transposed (decode_pending sid) (ps_pending_owner_acquisition s) = Ok p ∧
    transposed (decode_in_flight sid) (ps_in_flight s) = Ok f ∧
    validate_state_relationships s o p f = Ok tt.
Proof.
  unfold validate_state. case_match; [done|]. destruct (CommandSessionId_new _); [|done].
  cbn [invalid_state map_err]. case_match; [done|].
  destruct (CommandSequence_new _); [|done]. cbn [invalid_state map_err].
  destruct (transposed decode_owner _) as [o|]; [|done].
  destruct (transposed (decode_pending sid) _) as [p|]; [|done].
  destruct (transposed (decode_in_flight sid) _) as [f|]; [|done]. cbn. eauto 10.
Qed.

Lemma transposed_present {A B} (f : A → result B ClientSessionStoreError) o b :
  transposed f o = Ok b → present o = present b.
Proof. unfold transposed. by destruct o as [a|]; [destruct (f a)|]; intros [= <-]. Qed.

(** A command in flight excludes a pending acquisition, and has the next
    sequence of the confirmed owner. *)
Lemma in_flight_relations sid s r :
  session_sound sid s → transposed (decode_in_flight sid) (ps_in_flight s) = Ok (Some r) →
  present (ps_pending_owner_acquisition s) = false ∧ present (ps_in_flight s) = true ∧
  ci_sequence (rv_identity r) = ps_next_sequence s.
Proof.
  intros [(o & p & f & _ & Hp & Hf & Hr)%validate_parts _] Hfly. rewrite Hfly in Hf.
  injection Hf as <-. apply transposed_present in Hp, Hfly. rewrite Hp, Hfly.
  unfold validate_state_relationships in Hr. cbn in Hr. rewrite andb_true_r in Hr.
  destruct (present p); [done|]. case_match; [done|]. destruct o as [o|]; [|done].
  case_match eqn:Hids; [done|]. apply orb_false_iff in Hids as [_ Hq].
  apply negb_false_iff, N.eqb_eq in Hq. done.
Qed.

Definition settles (r : ReservedCommand) (ev : StoreEvent) : Prop :=
  match ev with
  | Perform _ (DoAcknowledge i) | Perform _ (DoRelease i) => i = rv_identity r
  | _ => False
  end.

(** Only settling a command in flight changes the state. *)
Lemma blocked_by_in_flight sid r s d io op :
  session_sound sid s → transposed (decode_in_flight sid) (ps_in_flight s) = Ok (Some r) →
  ¬ settles r (Perform io op) → run_store_op io op (MkStore sid s, d) = (MkStore sid s, d).
Proof.
  intros Hs Hf Hn. destruct (in_flight_relations sid s r Hs Hf) as (Hp & Hi & _).
  destruct op; cbn in Hn |- *.
  - unfold begin_owner_acquisition. cbn. by rewrite Hi.
  - unfold confirm_owner_acquisition, pending_owner_acquisition. cbn.
    by destruct (ps_pending_owner_acquisition s).
  - unfold reserve_command. cbn. by rewrite Hp, Hi.
  - unfold acknowledge_in_flight_outcome, in_flight. cbn [fst ds_session_id ds_state]. rewrite Hf.
    cbn [ok_or]. rewrite bool_decide_eq_false_2; [done|]. naive_solver.
  - unfold release_rejected_in_flight, in_flight. cbn [fst ds_session_id ds_state]. rewrite Hf.
    cbn [ok_or]. rewrite bool_decide_eq_false_2; [done|]. naive_solver.
Qed.

Lemma event_keeps_flying sid r ev w :
  flying sid r w → ¬ settles r ev → flying sid r (run_event sid ev w).
Proof.
  intros (s & Hon & Hs & Hf & Hw) Hn. destruct ev as [io op|io locked].
  - destruct w as [[st|] d]; cbn [fst snd] in *; [subst st|by exists s]. cbn [run_event].
    rewrite (blocked_by_in_flight sid r) by done. by exists s.
  - destruct w as [st d]. cbn [run_event fst snd] in *.
    destruct (open_or_create _ _ _) as [res d'] eqn:Ho.
    apply (open_existing io sid s) in Ho as [-> Hres]; [|done..].
    exists s. by destruct res.
Qed.

Lemma events_keep_flying sid r evs w :
  flying sid r w → Forall (λ ev, ¬ settles r ev) evs → flying sid r (run_events sid evs w).
Proof.
  intros Hf Hn. revert w Hf. induction Hn as [|ev evs Hev _ IH]; intros w Hf; [done|]. cbn.
  by apply IH, event_keeps_flying.
Qed.

Lemma owner_valid st o :
  owner st = Ok (Some o) →
  SessionOwnerEpoch_new (do_owner_epoch o) = Ok (do_owner_epoch o) ∧
  SessionOwnerInstanceId_new (do_owner_instance_id o) = Ok (do_owner_instance_id o).
Proof.
  unfold owner. destruct (ps_owner (ds_state st)) as [p|]; [|done]. cbn [transposed].
  unfold decode_owner. destruct (SessionOwnerEpoch_new _) as [e|] eqn:He; [|done].
  destruct (SessionOwnerInstanceId_new _) as [i|] eqn:Hi; [|done]. cbn. intros [= <-].
  pose proof (owner_epoch_inv _ _ He) as ->. by pose proof (owner_instance_inv _ _ Hi) as ->.
Qed.

Lemma decoded_reservation sid st o q request frame :
  owner st = Ok (Some o) → CommandSequence_new (ps_next_sequence (ds_state st)) = Ok q →
  request_operation request ≠ OpHealth → valid_request request →
  encode_request request = Ok frame →
  let reserved := {| rv_identity := new_with_owner sid (do_owner_epoch o) (do_owner_instance_id o) q;
                     rv_request := request |} in
  decode_in_flight sid (from_reserved reserved (String.string_of_list_ascii frame)) = Ok reserved.
Proof.
  intros [He Hi]%owner_valid Hq Hop Hr Hf. pose proof (sequence_inv _ _ Hq) as ->.
  unfold decode_in_flight. cbn [from_reserved pf_owner_epoch pf_owner_instance_id pf_sequence
    pf_request_frame rv_identity new_with_owner ci_owner_epoch ci_owner_instance_id ci_sequence
    default from_option id].
  rewrite He, Hi, Hq. cbn [invalid_state map_err]. rewrite String.list_ascii_of_string_of_list_ascii.
  pose proof (encode_request_spec request DEFAULT_MAX_FRAME_BYTES Hr) as Hspec. unfold encode_request in Hf.
  rewrite Hf in Hspec. destruct Hspec as (_ & _ & _ & Hd). unfold decode_request. rewrite Hd.
  cbn [map_err]. by rewrite bool_decide_eq_false_2.
Qed.

(** A reservation that succeeds is on file. *)
Lemma reserved_is_flying io request s d r w :
  session_sound (ds_session_id s) (ds_state s) → valid_request request →
  reserve_command io request (s, d) = (Ok r, w) →
  rv_request r = request ∧ flying (ds_session_id s) r (Some w.1, w.2).
Proof.
  intros Hs Hr.
  unfold reserve_command. cbn [fst]. do 2 (case_match; [done|]).
  case_bool_decide as Hop; [done|]. case_match; [done|].
  destruct (owner s) as [[o|]|] eqn:Ho; [|done..]. cbn [ok_or].
  destruct (CommandSequence_new _) as [q|] eqn:Hq; [|done]. cbn [invalid_state map_err].
  destruct (encode_request request) as [frame|] eqn:He; [|done]. cbn [map_err].
  destruct (commit_state io _ (s, d)) as [[u|] w1] eqn:Hcm; [|done]. intros [= <- <-]. split; [done|].
  apply commit_outcome in Hcm as (Hw & Hon & Hsound).
  2: { apply word_with_in_flight; [|apply Hs]. split; cbn; [by eapply owner_word, Ho; apply Hs|].
       apply sequence_inv in Hq as ->. apply Hs. }
  eexists. split_and!; [done..| |done]. cbn [ps_in_flight with_in_flight transposed].
  pose proof (decoded_reservation (ds_session_id s) s o q request frame Ho Hq Hop Hr He) as Hd.
  cbn zeta in Hd. by rewrite Hd.
Qed.

End file.
