(* ===== verification/Runtime.v ===== *)
(** * Runtime policies and maintenance ([agent-broker-runtime/src])

    Errors of the runtime, the listener configuration of [tcp_server.rs], the
    clock reading and the maintenance ticks of [standalone_maintenance.rs]. *)

From stdpp Require Import pretty.
From S2P Require Import Prelude Values Task Group Messages Machine Display Sessions Wire Service.
From S2P Require Import Dispatch Json WireSchema WireV1.

(** ** Errors *)

Inductive RuntimeError :=
  | InvalidConfiguration (message : string)
  | StateAlreadyOwned
  | RuntimeIo (operation source : string)
  | StateOwnerSaturated
  | StateOwnerStopped
  | StateOwnerReplyDropped
  | ClockBeforeUnixEpoch
  | RuntimeProtocol (e : ProtocolCodecError).

Definition RuntimeError_fmt (e : RuntimeError) : string :=
  match e with
  | InvalidConfiguration message => message
  | StateAlreadyOwned => "Broker state is already owned by another process"
  | RuntimeIo operation source => operation +:+ ": " +:+ source
  | StateOwnerSaturated => "Broker state owner queue is saturated"
  | StateOwnerStopped => "Broker state owner is not running"
  | StateOwnerReplyDropped => "Broker state owner dropped a response"
  | ClockBeforeUnixEpoch => "system clock is before the Unix epoch"
  | RuntimeProtocol e => to_string e
  end.

#[export] Instance RuntimeError_display : Display RuntimeError := RuntimeError_fmt.

(** ** Clock ([clock.rs]) *)

(** The milliseconds since the epoch, a [u128]; [None] when the clock is before it. *)
Definition system_clock_ms (since_epoch : option N) : result TimestampMs RuntimeError :=
  let^ millis := ok_or since_epoch ClockBeforeUnixEpoch in
  if millis <=? u64_max then Ok millis
  else Err (InvalidConfiguration "system clock millisecond value exceeds u64").

(** ** Listener configuration ([tcp_server.rs]) *)

Definition MIN_FRAME_BYTES : N := 4096.
Definition MAX_FRAME_BYTES : N := 1024 * 1024.
Definition DEFAULT_MAX_CONNECTIONS : N := 256.
Definition MAX_CONNECTIONS : N := 4096.

(** Durations in nanoseconds. *)
Definition DEFAULT_CONNECTION_IO_TIMEOUT : N := 30 * 1000000000.
Definition MAX_CONNECTION_IO_TIMEOUT : N := 5 * 60 * 1000000000.

Inductive BrokerBindPolicy := LocalOnly | ContainerBridge.

#[export] Instance BrokerBindPolicy_eq_dec : EqDecision BrokerBindPolicy.
Proof. solve_decision. Defined.

(** The address is reduced to what is checked of it. *)
Record BrokerServerConfig := {
  bs_loopback : bool;
  bs_max_frame_bytes : N;
  bs_max_connections : N;
  bs_connection_io_timeout : N;
}.

Definition BrokerServerConfig_default : BrokerServerConfig := {|
  bs_loopback := true;
  bs_max_frame_bytes := DEFAULT_MAX_FRAME_BYTES;
  bs_max_connections := DEFAULT_MAX_CONNECTIONS;
  bs_connection_io_timeout := DEFAULT_CONNECTION_IO_TIMEOUT;
|}.

Definition in_range (lo hi n : N) : bool := (lo <=? n) && (n <=? hi).

Definition validate_with_policy (bind_policy : BrokerBindPolicy) (c : BrokerServerConfig) :
    result BrokerServerConfig RuntimeError :=
  if bool_decide (bind_policy = LocalOnly) && negb (bs_loopback c)
  then Err (InvalidConfiguration "Broker server address must be loopback-only")
  else if negb (in_range MIN_FRAME_BYTES MAX_FRAME_BYTES (bs_max_frame_bytes c))
  then Err (InvalidConfiguration "max_frame_bytes must be between 4096 and 1048576")
  else if negb (in_range 1 MAX_CONNECTIONS (bs_max_connections c))
  then Err (InvalidConfiguration "max_connections must be between 1 and 4096")
  else if (bs_connection_io_timeout c =? 0) ||
          (MAX_CONNECTION_IO_TIMEOUT <? bs_connection_io_timeout c)
  then Err (InvalidConfiguration "connection_io_timeout must be between 1ns and 300s")
  else Ok c.

Definition validate (c : BrokerServerConfig) : result BrokerServerConfig RuntimeError :=
  validate_with_policy LocalOnly c.

(** ** Maintenance ([standalone_maintenance.rs]) *)

Record StandaloneMaintenancePolicy := {
  mt_completed_task_retention_ms : N;
  mt_member_timeout_ms : N;
  mt_interval_ms : N;
  mt_prune_batch : N;
  mt_max_prune_batches_per_tick : N;
  mt_reap_batch : N;
  mt_max_reap_batches_per_tick : N;
}.

Definition StandaloneMaintenancePolicy_default : StandaloneMaintenancePolicy := {|
  mt_completed_task_retention_ms := 24 * 60 * 60 * 1000;
  mt_member_timeout_ms := 45000;
  mt_interval_ms := 5000;
  mt_prune_batch := 1024;
  mt_max_prune_batches_per_tick := 4;
  mt_reap_batch := 1024;
  mt_max_reap_batches_per_tick := 4;
|}.

Definition StandaloneMaintenancePolicy_new (completed_task_retention_ms member_timeout_ms
    interval_ms prune_batch max_prune_batches_per_tick reap_batch max_reap_batches_per_tick : N) :
    result StandaloneMaintenancePolicy RuntimeError :=
  if negb (in_range 100 3600000 interval_ms)
  then Err (InvalidConfiguration "maintenance interval_ms must be between 100 and 3600000")
  else if negb (in_range 1 4096 prune_batch)
  then Err (InvalidConfiguration "maintenance prune_batch must be between 1 and 4096")
  else if negb (in_range 1 64 max_prune_batches_per_tick)
  then Err (InvalidConfiguration "max_prune_batches_per_tick must be between 1 and 64")
  else if negb (in_range 1 4096 reap_batch)
  then Err (InvalidConfiguration "maintenance reap_batch must be between 1 and 4096")
  else if negb (in_range 1 64 max_reap_batches_per_tick)
  then Err (InvalidConfiguration "max_reap_batches_per_tick must be between 1 and 64")
  else Ok {| mt_completed_task_retention_ms := completed_task_retention_ms;
             mt_member_timeout_ms := member_timeout_ms; mt_interval_ms := interval_ms;
             mt_prune_batch := prune_batch;
             mt_max_prune_batches_per_tick := max_prune_batches_per_tick;
             mt_reap_batch := reap_batch;
             mt_max_reap_batches_per_tick := max_reap_batches_per_tick |}.

Record StandaloneMaintenanceResult := {
  mr_pruned_completed_tasks : N;
  mr_reaped_stale_members : N;
}.

Inductive LeaderMaintenanceResult :=
  | SkippedNotLeader
  | MaintenanceApplied (r : StandaloneMaintenanceResult).

Inductive MaintenanceRunError :=
  | MrRuntime (message : string)
  | MrBroker (e : BrokerError).

Definition saturating_add (a b : N) : N := N.min (a + b) u64_max.

Section maintenance.
Context {C : Type} `{A : ConsensusAdapter C}.

(** A batch loop: at most [n] batches, until one is not full. *)
Fixpoint batches (n : nat) (batch : N)
    (run : BrokerApplicationService C → result N BrokerError * BrokerApplicationService C)
    (total : N) (s : BrokerApplicationService C) :
    result N BrokerError * BrokerApplicationService C :=
  match n with
  | O => (Ok total, s)
  | S n =>
      let! count, s := run s in
      let total := saturating_add total count in
      if count <? batch then (Ok total, s) else batches n batch run total s
  end.

Definition reap_batch_run (stale_before_ms : TimestampMs) (limit : N)
    (s : BrokerApplicationService C) : result N BrokerError * BrokerApplicationService C :=
  let! r, s := svc_reap_stale_members stale_before_ms limit s in (Ok (sr_reaped_count r), s).

Definition prune_batch_run (completed_before_ms : TimestampMs) (limit : N)
    (s : BrokerApplicationService C) : result N BrokerError * BrokerApplicationService C :=
  let! r, s := svc_prune_completed_tasks completed_before_ms limit s in
  (Ok (cpr_pruned_count r), s).

Definition limit_error (e : PolicyError) : BrokerError :=
  BrokerError_new InternalError (to_string e).

Definition run_once (policy : StandaloneMaintenancePolicy) (now_ms : TimestampMs)
    (s : BrokerApplicationService C) :
    result StandaloneMaintenanceResult BrokerError * BrokerApplicationService C :=
  let? reap_limit := map_err limit_error (ReapMemberLimit_new (mt_reap_batch policy)) else s in
  let? prune_limit := map_err limit_error (PruneTaskLimit_new (mt_prune_batch policy)) else s in
  let stale_before_ms := saturating_sub now_ms (mt_member_timeout_ms policy) in
  let completed_before_ms := saturating_sub now_ms (mt_completed_task_retention_ms policy) in
  let! reaped, s := batches (N.to_nat (mt_max_reap_batches_per_tick policy))
    (mt_reap_batch policy) (reap_batch_run stale_before_ms reap_limit) 0 s in
  let! pruned, s := batches (N.to_nat (mt_max_prune_batches_per_tick policy))
    (mt_prune_batch policy) (prune_batch_run completed_before_ms prune_limit) 0 s in
  (Ok {| mr_pruned_completed_tasks := pruned; mr_reaped_stale_members := reaped |}, s).

Definition run_once_if_authoritative (policy : StandaloneMaintenancePolicy) (now_ms : TimestampMs)
    (s : BrokerApplicationService C) :
    result LeaderMaintenanceResult BrokerError * BrokerApplicationService C :=
  let! authoritative, s := svc_maintenance_authority s in
  if negb authoritative then (Ok SkippedNotLeader, s) else
  let '(r, s) := run_once policy now_ms s in (map_ok MaintenanceApplied r, s).

End maintenance.
