(* ===== verification/StateOwner.v ===== *)
(** * The state owner ([agent-broker-runtime/src/state_owner.rs])

    One thread owns the dispatcher and takes jobs from a bounded channel;
    connection and maintenance threads submit jobs through cloned handles.  The
    loop body is [serve_job]; the threads are a step relation in which every
    atomic access and every channel operation is a step of its own. *)

From S2P Require Import Prelude Values Task Group Messages Machine Display Wire Sessions Service.
From S2P Require Import Dispatch Json WireSchema WireV1 WireVersions Runtime.

(** A job, with the receiver of its reply left out: a reply channel of capacity
    one takes the single reply. *)
Inductive StateOwnerJob :=
  | JobDispatch (request : BrokerWireRequest) (observed_at_ms : TimestampMs)
  | JobMaintenance (policy : StandaloneMaintenancePolicy) (now_ms : TimestampMs)
  | JobLeaderMaintenance (policy : StandaloneMaintenancePolicy) (now_ms : TimestampMs)
  | JobGroupDirectory.

Inductive StateOwnerReply :=
  | ReplyDispatch (response : BrokerResponse)
  | ReplyMaintenance (r : result StandaloneMaintenanceResult BrokerError)
  | ReplyLeaderMaintenance (r : result LeaderMaintenanceResult BrokerError)
  | ReplyGroupDirectory (r : result ConsumerGroupDirectory BrokerError).

(** [StateOwnerLoad]: what [load] reads. *)
Record StateOwnerLoad := {
  sl_active_jobs : N;
  sl_queued_jobs : N;
  sl_capacity : N;
}.

Section owner.
Context {C : Type} `{A : ConsensusAdapter C}.

Abbreviation Service := (BrokerApplicationService C).

(** ** The body of the loop *)

Definition dispatch_wire_request (request : BrokerWireRequest) (observed_at_ms : TimestampMs)
    (s : Service) : result DispatchResult BrokerError * Service :=
  match request with
  | WireV1 r => dispatch r observed_at_ms s
  | WireV2 r => dispatch_identified (ib_identity r) (ib_request r) observed_at_ms s
  | WireV3 (AcquireOwner r) =>
      dispatch_owner_acquisition (oa_session_id r) (oa_expected_owner_epoch r)
        (oa_owner_instance_id r) s
  | WireV3 (Mutation r) => dispatch_identified (om_identity r) (om_request r) observed_at_ms s
  end.

Definition respond (request_id : RequestId) (r : result DispatchResult BrokerError) :
    BrokerResponse :=
  match r with
  | Ok d => response_success request_id d
  | Err e => response_error request_id e
  end.

Definition serve_job (job : StateOwnerJob) (s : Service) : StateOwnerReply * Service :=
  match job with
  | JobDispatch request t =>
      let '(r, s) := dispatch_wire_request request t s in
      (ReplyDispatch (respond (wire_request_id request) r), s)
  | JobMaintenance policy t =>
      let '(r, s) := run_once policy t s in (ReplyMaintenance r, s)
  | JobLeaderMaintenance policy t =>
      let '(r, s) := run_once_if_authoritative policy t s in (ReplyLeaderMaintenance r, s)
  | JobGroupDirectory =>
      let '(r, s) := svc_group_directory s in (ReplyGroupDirectory r, s)
  end.

(** ** Threads *)

(** A submitter in [try_send]: it has announced its job, or its job was refused
    and the announcement is not yet taken back. *)
Inductive Submitter := Announced (job : StateOwnerJob) | Refused.

(** The owner thread between two receives. *)
Inductive OwnerPhase :=
  | Waiting
  | Received (job : StateOwnerJob)
  | Counted (job : StateOwnerJob)
  | Active (job : StateOwnerJob)
  | Replied.

(** The two counters are [AtomicUsize]; [so_sent] and [so_log] record, for the
    statements, the jobs in the order the channel took them and the jobs served
    with their replies. *)
Record OwnerState := MkOwner {
  so_queue : list StateOwnerJob;
  so_queued_jobs : N;
  so_active_jobs : N;
  so_submitters : list Submitter;
  so_phase : OwnerPhase;
  so_service : Service;
  so_sent : list StateOwnerJob;
  so_log : list (StateOwnerJob * StateOwnerReply);
}.

(** [fetch_add] and [fetch_sub] on a [usize] wrap around. *)
Definition fetch_add (n : N) : N := (n + 1) mod (u64_max + 1).
Definition fetch_sub (n : N) : N := (n + u64_max) mod (u64_max + 1).

Definition owner_load (capacity : N) (o : OwnerState) : StateOwnerLoad := {|
  sl_active_jobs := so_active_jobs o;
  sl_queued_jobs := so_queued_jobs o;
  sl_capacity := capacity;
|}.

(** The handle after [spawn]: no jobs, nothing counted. *)
Definition owner_start (s : Service) : OwnerState := MkOwner [] 0 0 [] Waiting s [] [].

Definition owner_spawn (max_inflight_requests : N) (s : Service) :
    result OwnerState RuntimeError :=
  if max_inflight_requests =? 0
  then Err (InvalidConfiguration "max_inflight_requests must be positive")
  else Ok (owner_start s).

Inductive owner_step (capacity : N) : OwnerState → OwnerState → Prop :=
  | step_announce job q n a subs ph s sent log :
      owner_step capacity (MkOwner q n a subs ph s sent log)
        (MkOwner q (fetch_add n) a (subs ++ [Announced job]) ph s sent log)
  | step_send job q n a before after ph s sent log :
      len q < capacity →
      owner_step capacity (MkOwner q n a (before ++ Announced job :: after) ph s sent log)
        (MkOwner (q ++ [job]) n a (before ++ after) ph s (sent ++ [job]) log)
  | step_refuse job q n a before after ph s sent log :
      capacity ≤ len q →
      owner_step capacity (MkOwner q n a (before ++ Announced job :: after) ph s sent log)
        (MkOwner q n a (before ++ Refused :: after) ph s sent log)
  | step_take_back q n a before after ph s sent log :
      owner_step capacity (MkOwner q n a (before ++ Refused :: after) ph s sent log)
        (MkOwner q (fetch_sub n) a (before ++ after) ph s sent log)
  | step_receive job q n a subs s sent log :
      owner_step capacity (MkOwner (job :: q) n a subs Waiting s sent log)
        (MkOwner q n a subs (Received job) s sent log)
  | step_count job q n a subs s sent log :
      owner_step capacity (MkOwner q n a subs (Received job) s sent log)
        (MkOwner q (fetch_sub n) a subs (Counted job) s sent log)
  | step_activate job q n a subs s sent log :
      owner_step capacity (MkOwner q n a subs (Counted job) s sent log)
        (MkOwner q n 1 subs (Active job) s sent log)
  | step_serve job q n a subs s sent log reply s' :
      serve_job job s = (reply, s') →
      owner_step capacity (MkOwner q n a subs (Active job) s sent log)
        (MkOwner q n a subs Replied s' sent (log ++ [(job, reply)]))
  | step_finish q n a subs s sent log :
      owner_step capacity (MkOwner q n a subs Replied s sent log)
        (MkOwner q n 0 subs Waiting s sent log).

(** ** What the owner does, one job after the other *)

Fixpoint serve_all (jobs : list StateOwnerJob) (s : Service) :
    list (StateOwnerJob * StateOwnerReply) * Service :=
  match jobs with
  | [] => ([], s)
  | job :: jobs =>
      let '(reply, s) := serve_job job s in
      let '(log, s) := serve_all jobs s in ((job, reply) :: log, s)
  end.

Lemma serve_all_app jobs1 jobs2 s :
  serve_all (jobs1 ++ jobs2)%list s =
    let '(log1, s) := serve_all jobs1 s in
    let '(log2, s) := serve_all jobs2 s in ((log1 ++ log2)%list, s).
Proof.
  revert s. induction jobs1 as [|job jobs1 IH]; intros s; simpl.
  - by destruct (serve_all jobs2 s).
  - destruct (serve_job job s) as [reply s1]. rewrite IH. destruct (serve_all jobs1 s1) as [l1 s2].
    by destruct (serve_all jobs2 s2).
Qed.

(** The job in the owner's hands that is not yet served. *)
Definition in_hand (ph : OwnerPhase) : list StateOwnerJob :=
  match ph with Received job | Counted job | Active job => [job] | Waiting | Replied => [] end.

Definition counted_again (ph : OwnerPhase) : N := match ph with Received _ => 1 | _ => 0 end.

Record owner_ok (capacity : N) (s0 : Service) (o : OwnerState) : Prop := {
  oo_order : so_sent o = (map fst (so_log o) ++ in_hand (so_phase o) ++ so_queue o)%list;
  oo_serial : serve_all (map fst (so_log o)) s0 = (so_log o, so_service o);
  oo_bounded : len (so_queue o) ≤ capacity;
  oo_counter : so_queued_jobs o =
    (len (so_queue o) + len (so_submitters o) + counted_again (so_phase o)) mod (u64_max + 1);
  oo_active : so_active_jobs o = match so_phase o with Active _ | Replied => 1 | _ => 0 end;
}.
End owner.

(** * The state owner serves jobs one by one, in order, and all of them *)

Lemma fetch_add_mod n : fetch_add (n mod (u64_max + 1)) = (n + 1) mod (u64_max + 1).
Proof. unfold fetch_add. by rewrite N.Div0.add_mod_idemp_l. Qed.

Lemma fetch_sub_mod n : 0 < n → fetch_sub (n mod (u64_max + 1)) = (n - 1) mod (u64_max + 1).
Proof.
  intros Hn. unfold fetch_sub. rewrite N.Div0.add_mod_idemp_l.
  replace (n + u64_max) with ((n - 1) + 1 * (u64_max + 1)) by lia.
  by rewrite N.Div0.mod_add.
Qed.

Section owner.
Context {C : Type} `{A : ConsensusAdapter C} (capacity : N).

Lemma owner_step_ok s0 (o o' : OwnerState (C := C)) :
  owner_step capacity o o' → owner_ok capacity s0 o → owner_ok capacity s0 o'.
Proof.
  destruct 1; intros [Ho Hs Hb Hc Ha]; constructor;
    cbn [so_queue so_queued_jobs so_active_jobs so_submitters so_phase so_service so_sent so_log
         in_hand counted_again] in *; rewrite ?Hc, ?len_app, ?len_cons, ?len_nil in *; try done.
  all: try (rewrite fetch_add_mod || (rewrite fetch_sub_mod by lia)); try (f_equal; lia); try lia.
  - by rewrite Ho, <-!app_assoc.
  - by rewrite Ho, map_app, <-app_assoc.
  - rewrite map_app, serve_all_app, Hs. simpl. by destruct (serve_job job s) as [? ?]; simplify_eq.
Qed.

Lemma owner_start_ok s0 : owner_ok capacity s0 (owner_start s0).
Proof. constructor; try done. unfold len. simpl. lia. Qed.

Lemma owner_reachable_ok s0 (o : OwnerState (C := C)) :
  rtc (owner_step capacity) (owner_start s0) o → owner_ok capacity s0 o.
Proof.
  intros Hr. pose proof (owner_start_ok s0) as Hok. revert Hok.
  induction Hr as [|x y z Hs _ IH]; [done|]. intros Hx. apply IH. by eapply owner_step_ok.
Qed.

(** The owner thread alone finishes the job in hand and empties the queue. *)
Lemma owner_finishes q n a subs ph s sent log :
  ∃ n' log' s',
    rtc (owner_step capacity) (MkOwner (C := C) q n a subs ph s sent log)
      (MkOwner q n' 0 subs Waiting s' sent log') ∨
    (ph = Waiting ∧ n' = n ∧ log' = log ∧ s' = s).
Proof.
  destruct ph as [|job|job|job|].
  2-4: destruct (serve_job job s) as [reply s'] eqn:E.
  - exists n, log, s. by right.
  - exists (fetch_sub n), (log ++ [(job, reply)])%list, s'. left.
    eapply rtc_l; [apply step_count|]. eapply rtc_l; [apply step_activate|].
    eapply rtc_l; [by apply step_serve|]. apply rtc_once, step_finish.
  - exists n, (log ++ [(job, reply)])%list, s'. left. eapply rtc_l; [apply step_activate|].
    eapply rtc_l; [by apply step_serve|]. apply rtc_once, step_finish.
  - exists n, (log ++ [(job, reply)])%list, s'. left.
    eapply rtc_l; [by apply step_serve|]. apply rtc_once, step_finish.
  - exists n, log, s. left. apply rtc_once, step_finish.
Qed.

Lemma owner_drains q n a subs s sent log :
  ∃ n' a' log' s',
    rtc (owner_step capacity) (MkOwner (C := C) q n a subs Waiting s sent log)
      (MkOwner [] n' a' subs Waiting s' sent log').
Proof.
  revert n a s log. induction q as [|job q IH]; intros n a s log.
  - exists n, a, log, s. done.
  - destruct (owner_finishes q n a subs (Received job) s sent log) as (n1 & log1 & s1 & [Hr|[? _]]);
      [|done].
    destruct (IH n1 0 s1 log1) as (n' & a' & log' & s' & Hr'). exists n', a', log', s'.
    eapply rtc_l; [apply step_receive|]. by etrans.
Qed.

Lemma owner_serves_all (o : OwnerState (C := C)) :
  ∃ o', rtc (owner_step capacity) o o' ∧ so_submitters o' = so_submitters o ∧
    so_sent o' = so_sent o ∧ so_phase o' = Waiting ∧ so_queue o' = [].
Proof.
  destruct o as [q n a subs ph s sent log].
  destruct (owner_finishes q n a subs ph s sent log) as (n1 & log1 & s1 & [Hr|(-> & -> & -> & ->)]).
  - destruct (owner_drains q n1 0 subs s1 sent log1) as (n' & a' & log' & s' & Hr').
    eexists. split; [by etrans|done].
  - destruct (owner_drains q n a subs s sent log) as (n' & a' & log' & s' & Hr').
    eexists. split; [exact Hr'|done].
Qed.
End owner.
