(* ===== verification/Server.v ===== *)
(** * The TCP server ([agent-broker-runtime/src/tcp_server.rs])

    Framing and the connection loop.  A connection is the sequence of what
    [fill_buf] delivers: non-empty buffers, an error, and the end of the stream
    after the last one.  Where a buffer ends is up to the network. *)

From stdpp Require Import relations.
From S2P Require Import Prelude Values Task Group Messages Machine Display Wire Sessions Service.
From S2P Require Import Dispatch Json WireSchema WireV1 WireVersions Runtime StateOwner.

(** ** Reading a frame *)

Inductive FrameRead :=
  | FrameEof
  | FrameData (frame : bytes)
  | FrameExceeds.

(** [iter().position(|byte| *byte == b'\n')] *)
Fixpoint newline_position (b : bytes) : option nat :=
  match b with
  | [] => None
  | c :: b =>
      if Ascii.eqb c newline then Some 0%nat
      else match newline_position b with Some n => Some (S n) | None => None end
  end.

(** What the reader holds after [consume(n)] of the buffer in front. *)
Definition consume (n : nat) (buffer : bytes) (rest : list (result bytes string)) :
    list (result bytes string) :=
  match drop n buffer with [] => rest | unread => Ok unread :: rest end.

(** [read_request_frame]; [frame] is what was read before. *)
Fixpoint read_request_frame (max_frame_bytes : N) (reader : list (result bytes string))
    (frame : bytes) : result FrameRead RuntimeError * list (result bytes string) :=
  match reader with
  | [] => (Ok FrameEof, [])
  | Err e :: rest => (Err (RuntimeIo "Broker request read failed" e), rest)
  | Ok [] :: rest => (Ok FrameEof, rest)
  | Ok available :: rest =>
      let consumed :=
        match newline_position available with
        | Some position => S position
        | None => length available
        end in
      if max_frame_bytes <? len frame + N.of_nat consumed then (Ok FrameExceeds, reader) else
      let frame := (frame ++ take consumed available)%list in
      match newline_position available with
      | Some _ => (Ok (FrameData frame), consume consumed available rest)
      | None => read_request_frame max_frame_bytes rest frame
      end
  end.

(** ** The connection loop *)

(** The outside of a connection thread: the state owner, the clock and the
    socket's write side, over some state. *)
Record ConnectionEnv (S : Type) := {
  ce_dispatch : BrokerWireRequest → TimestampMs → S → result BrokerResponse RuntimeError * S;
  ce_clock : S → result TimestampMs RuntimeError * S;
  ce_write : bytes → S → result unit RuntimeError * S;
}.
Arguments ce_dispatch {S} _ _ _ _.
Arguments ce_clock {S} _ _.
Arguments ce_write {S} _ _ _.

Definition fallback_request_id : RequestId := "unknown".

Section server.
Context `{J : SerdeJson}.

Definition encode_error (request_id : RequestId) (code : BrokerErrorCode) (message : string)
    (max_frame_bytes : N) : result bytes RuntimeError :=
  map_err RuntimeProtocol (encode_response_with_limit
    (response_error request_id (BrokerError_new code message)) max_frame_bytes).

Definition encode_error_v2 (request_id : RequestId) (code : BrokerErrorCode) (message : string)
    (max_frame_bytes : N) : result bytes RuntimeError :=
  map_err RuntimeProtocol (encode_response_v2_with_limit
    (response_error request_id (BrokerError_new code message)) max_frame_bytes).

Definition encode_error_v3 (request_id : RequestId) (code : BrokerErrorCode) (message : string)
    (max_frame_bytes : N) : result bytes RuntimeError :=
  map_err RuntimeProtocol (encode_response_v3_with_limit
    (response_error request_id (BrokerError_new code message)) max_frame_bytes).

(** The answer to a frame that does not decode. *)
Definition encode_rejection (frame : bytes) (error : ProtocolCodecError) (max_frame_bytes : N) :
    result bytes RuntimeError :=
  let^ response :=
    encode_error fallback_request_id InvalidRequest (to_string error) max_frame_bytes in
  if decide (request_version_hint frame = Some PROTOCOL_VERSION_V2)
  then encode_error_v2 fallback_request_id InvalidRequest (to_string error) max_frame_bytes
  else if decide (request_version_hint frame = Some PROTOCOL_VERSION_V3)
  then encode_error_v3 fallback_request_id InvalidRequest (to_string error) max_frame_bytes
  else Ok response.

Definition encode_for_version (version : N) (response : BrokerResponse) (max_frame_bytes : N) :
    result bytes RuntimeError :=
  map_err RuntimeProtocol
    (if version =? PROTOCOL_VERSION_V2 then encode_response_v2_with_limit response max_frame_bytes
     else if version =? PROTOCOL_VERSION_V3
     then encode_response_v3_with_limit response max_frame_bytes
     else encode_response_with_limit response max_frame_bytes).

Definition unexpected_failure : BrokerError :=
  BrokerError_new InternalError "Broker request failed unexpectedly.".

Definition queue_saturated : BrokerError :=
  with_disposition DispRejected
    (BrokerError_new CodeCapacityExceeded "Broker request queue is saturated.").

Section connection.
Context {S : Type} (env : ConnectionEnv S) (max_frame_bytes : N).

(** The response to a decoded request. *)
Definition answer (request : BrokerWireRequest) (s : S) : BrokerResponse * S :=
  let request_id := wire_request_id request in
  match ce_clock env s with
  | (Ok observed_at_ms, s) =>
      match ce_dispatch env request observed_at_ms s with
      | (Ok response, s) => (response, s)
      | (Err StateOwnerSaturated, s) => (response_error request_id queue_saturated, s)
      | (Err _, s) => (response_error request_id unexpected_failure, s)
      end
  | (Err _, s) => (response_error request_id unexpected_failure, s)
  end.

(** One frame: decoded, dispatched, answered, written. *)
Definition handle_frame (frame : bytes) (s : S) : result unit RuntimeError * S :=
  match decode_wire_request_with_limit frame max_frame_bytes with
  | Err error =>
      let? response := encode_rejection frame error max_frame_bytes else s in
      ce_write env response s
  | Ok request =>
      let '(response, s) := answer request s in
      let? encoded :=
        encode_for_version (wire_protocol_version request) response max_frame_bytes else s in
      ce_write env encoded s
  end.

(** The loop over the frames of a connection; [None] when the fuel is used up. *)
Fixpoint handle_connection (fuel : nat) (reader : list (result bytes string)) (s : S) :
    option (result unit RuntimeError * S) :=
  match fuel with
  | O => None
  | Datatypes.S fuel =>
      match read_request_frame max_frame_bytes reader [] with
      | (Err e, _) => Some (Err e, s)
      | (Ok FrameEof, _) => Some (Ok (), s)
      | (Ok FrameExceeds, _) =>
          Some (let? frame := encode_error fallback_request_id InvalidRequest
                  "Request frame exceeds the configured byte limit." max_frame_bytes else s in
                ce_write env frame s)
      | (Ok (FrameData frame), reader) =>
          match handle_frame frame s with
          | (Ok _, s) => handle_connection fuel reader s
          | (Err e, s) => Some (Err e, s)
          end
      end
  end.

End connection.
End server.

(** ** The listener *)

(** [serve_until]: the accept loop and the connection threads share the counter
    of active connections.  [li_open] is, for the statements, the number of
    connection threads that hold a [ConnectionCountGuard] or are being spawned. *)
Inductive ListenerPhase :=
  | Accepting
  | Admitting (before : N)
  | Stopped (result : result unit RuntimeError).

Record Listener := MkListener {
  li_serving : bool;
  li_active_connections : N;
  li_open : N;
  li_phase : ListenerPhase;
}.

Record BrokerServerLoad := {
  bl_serving : bool;
  bl_active_connections : N;
  bl_max_connections : N;
}.

(** [BrokerServerObserver::load] *)
Definition listener_load (max_connections : N) (l : Listener) : BrokerServerLoad := {|
  bl_serving := li_serving l;
  bl_active_connections := li_active_connections l;
  bl_max_connections := max_connections;
|}.

Definition listener_start : Listener := MkListener true 0 0 Accepting.

Inductive listener_step (max_connections : N) : Listener → Listener → Prop :=
  | accept_connection n open :
      listener_step max_connections (MkListener true n open Accepting)
        (MkListener true (fetch_add n) open (Admitting n))
  | refuse_connection n open before :
      max_connections ≤ before →
      listener_step max_connections (MkListener true n open (Admitting before))
        (MkListener true (fetch_sub n) open Accepting)
  | spawn_connection n open before :
      before < max_connections →
      listener_step max_connections (MkListener true n open (Admitting before))
        (MkListener true n (open + 1) Accepting)
  | spawn_failed n open before e :
      before < max_connections →
      listener_step max_connections (MkListener true n open (Admitting before))
        (MkListener false (fetch_sub n) open
          (Stopped (Err (RuntimeIo "Broker connection thread spawn failed" e))))
  | accept_failed n open e :
      listener_step max_connections (MkListener true n open Accepting)
        (MkListener false n open (Stopped (Err (RuntimeIo "Broker TCP accept failed" e))))
  | stop_requested n open :
      listener_step max_connections (MkListener true n open Accepting)
        (MkListener false n open (Stopped (Ok ())))
  | close_connection serving n open ph :
      0 < open →
      listener_step max_connections (MkListener serving n open ph)
        (MkListener serving (fetch_sub n) (open - 1) ph).

(** * Connections, line by line

    However the network cuts the byte stream of a connection into buffers, the
    server reads the same frames, answers them one after the other in order, and
    returns.  The listener never holds more connections than configured. *)

(** ** The reference: a stream as lines *)

(** The complete lines of a stream, with their line feeds, and what follows the
    last one. *)
Fixpoint lines (b : bytes) : list bytes * bytes :=
  match b with
  | [] => ([], [])
  | c :: b =>
      let '(ls, tail) := lines b in
      if Ascii.eqb c newline then ([c] :: ls, tail)
      else match ls with
           | [] => ([], c :: tail)
           | l :: ls => ((c :: l) :: ls, tail)
           end
  end.

(** The reader of a connection: the buffers as they arrive, then the end of the
    stream or an error. *)
Definition reader_of (chunks : list bytes) (ending : option string) :
    list (result bytes string) :=
  (map Ok chunks ++ match ending with None => [] | Some e => [Err e] end)%list.

Section connection.
Context `{J : SerdeJson} {W : Type} (env : ConnectionEnv W) (max : N).

Definition answer_too_large (s : W) : result unit RuntimeError * W :=
  let? frame := encode_error fallback_request_id InvalidRequest
    "Request frame exceeds the configured byte limit." max else s in
  ce_write env frame s.

Fixpoint serve_lines (ls : list bytes) (tail : bytes) (ending : option string) (s : W) :
    result unit RuntimeError * W :=
  match ls with
  | [] =>
      if max <? len tail then answer_too_large s
      else (match ending with
            | None => Ok ()
            | Some e => Err (RuntimeIo "Broker request read failed" e)
            end, s)
  | l :: ls =>
      if max <? len l then answer_too_large s
      else match handle_frame env max l s with
           | (Ok _, s) => serve_lines ls tail ending s
           | (Err e, s) => (Err e, s)
           end
  end.

(** ** Reading one frame *)

Lemma newline_position_app b1 b2 :
  newline_position (b1 ++ b2)%list =
    match newline_position b1 with
    | Some p => Some p
    | None => option_map (Nat.add (length b1)) (newline_position b2)
    end.
Proof.
  induction b1 as [|c b1 IH]; simpl; [by destruct (newline_position b2)|].
  destruct (Ascii.eqb c newline); [done|]. rewrite IH.
  destruct (newline_position b1); [done|]. by destruct (newline_position b2).
Qed.

Lemma newline_position_none b : newline ∉ b → newline_position b = None.
Proof.
  induction b as [|c b IH]; [done|]. rewrite not_elem_of_cons. intros [Hc Hb].
  cbn [newline_position]. rewrite (IH Hb). destruct (Ascii.eqb_spec c newline); [congruence|done].
Qed.

Lemma newline_position_lt b p : newline_position b = Some p → (p < length b)%nat.
Proof.
  revert p. induction b as [|c b IH]; intros p; simpl; [done|].
  destruct (Ascii.eqb c newline); [intros [= <-]; lia|].
  destruct (newline_position b); [|done]. intros [= <-]. specialize (IH _ eq_refl). lia.
Qed.

Lemma lines_first b :
  lines b = match newline_position b with
            | Some p => let '(ls, tail) := lines (drop (S p) b) in
                        (take (S p) b :: ls, tail)
            | None => ([], b)
            end.
Proof.
  induction b as [|c b IH]; [done|]. cbn [lines newline_position].
  destruct (Ascii.eqb c newline).
  { change (drop 1 (c :: b)) with b. by destruct (lines b). }
  rewrite IH. destruct (newline_position b) as [p|]; [|done].
  change (drop (S (S p)) (c :: b)) with (drop (S p) b). by destruct (lines (drop (S p) b)).
Qed.

Definition frame_outcome (frame b : bytes) (ending : option string) :
    result FrameRead RuntimeError :=
  match newline_position b with
  | Some p =>
      if max <? len frame + N.of_nat (S p) then Ok FrameExceeds
      else Ok (FrameData (frame ++ take (S p) b)%list)
  | None =>
      if max <? len frame + len b then Ok FrameExceeds
      else match ending with
           | None => Ok FrameEof
           | Some e => Err (RuntimeIo "Broker request read failed" e)
           end
  end.

(** A buffer without a line feed goes into the frame. *)
Lemma frame_outcome_chunk frame c b ending :
  newline_position c = None →
  frame_outcome (frame ++ c)%list b ending = frame_outcome frame (c ++ b)%list ending.
Proof.
  intros Hp. unfold frame_outcome. rewrite newline_position_app, Hp.
  destruct (newline_position b) as [p|]; cbn [option_map].
  - replace (len (frame ++ c) + N.of_nat (S p)) with (len frame + N.of_nat (S (length c + p)))
      by (unfold len; rewrite length_app; lia).
    rewrite take_app_ge, app_assoc by lia. by replace (S (length c + p) - length c)%nat with (S p) by lia.
  - replace (len (frame ++ c) + len b) with (len frame + len (c ++ b)%list)
      by (unfold len; rewrite !length_app; lia). done.
Qed.

Lemma frame_outcome_exceeds frame c b ending :
  max < len frame + len c → newline_position c = None →
  frame_outcome frame (c ++ b)%list ending = Ok FrameExceeds.
Proof.
  unfold frame_outcome, len. intros Hm Hp. rewrite newline_position_app, Hp, length_app.
  destruct (newline_position b); cbn [option_map]; by rewrite (proj2 (N.ltb_lt _ _)) by lia.
Qed.

Lemma drop_chunk {A} p (c b : list A) :
  (p < length c)%nat → drop (S p) (c ++ b)%list = (drop (S p) c ++ b)%list.
Proof. intros. rewrite drop_app_le by lia. done. Qed.

Lemma read_frame_spec chunks ending frame :
  Forall (λ c, c ≠ []) chunks → len frame ≤ max →
  let '(r, reader) := read_request_frame max (reader_of chunks ending) frame in
  r = frame_outcome frame (concat chunks) ending ∧
  (∀ f, r = Ok (FrameData f) → ∃ chunks' p, Forall (λ c, c ≠ []) chunks' ∧
    reader = reader_of chunks' ending ∧ newline_position (concat chunks) = Some p ∧
    concat chunks' = drop (S p) (concat chunks)).
Proof.
  intros Hne. revert frame. induction Hne as [|c chunks Hc Hne IH]; intros frame Hf.
  { unfold frame_outcome. cbn [concat newline_position].
    assert ((max <? len frame + len (@nil Ascii.ascii)) = false) as ->
      by (unfold len in *; simpl; apply N.ltb_ge; lia).
    destruct ending; cbn; by split. }
  change (reader_of (c :: chunks) ending) with (Ok c :: reader_of chunks ending).
  destruct c as [|a c]; [done|]. set (c' := a :: c) in *.
  cbn [read_request_frame concat]. unfold c' at 1. cbv iota beta zeta. fold c'.
  destruct (newline_position c') as [p|] eqn:Hp.
  - assert (Hlt := newline_position_lt _ _ Hp). unfold frame_outcome.
    rewrite newline_position_app, Hp. destruct (max <? _); [done|].
    rewrite take_app_le by lia. split; [done|]. intros f [= <-].
    pose proof (drop_chunk p c' (concat chunks) Hlt) as Hd. unfold consume. destruct (drop (S p) c') as [|x u].
    + by exists chunks, p.
    + exists ((x :: u) :: chunks), p. split_and!; [by constructor|done..].
  - destruct (N.ltb_spec max (len frame + N.of_nat (length c'))) as [Hm|Hm].
    { split; [|done]. by rewrite frame_outcome_exceeds. }
    rewrite firstn_all. specialize (IH (frame ++ c')%list).
    destruct (read_request_frame max _ _) as [r reader].
    destruct IH as [-> IH]; [unfold len in *; rewrite length_app; lia|].
    rewrite frame_outcome_chunk in * by done. split; [done|].
    intros f Hr. destruct (IH f Hr) as (cs & p & ? & ? & Hp' & Hcs).
    exists cs, (length c' + p)%nat. rewrite newline_position_app, Hp, Hp'. split_and!; [done..|].
    rewrite Hcs, drop_app_ge by lia. f_equal. lia.
Qed.

(** ** The whole connection *)

Lemma lines_length b : (length (fst (lines b)) ≤ length b)%nat.
Proof.
  induction b as [|c b IH]; [done|]. simpl. destruct (lines b) as [[|l ls] t]; simpl in *;
    destruct (Ascii.eqb c newline); simpl; lia.
Qed.

Lemma connection_serves_lines fuel chunks ending s :
  Forall (λ c, c ≠ []) chunks →
  (length (fst (lines (concat chunks))) < fuel)%nat →
  handle_connection env max fuel (reader_of chunks ending) s =
    let '(ls, tail) := lines (concat chunks) in Some (serve_lines ls tail ending s).
Proof.
  revert chunks s. induction fuel as [|fuel IH]; intros chunks s Hne Hf; [lia|].
  cbn [handle_connection]. pose proof (read_frame_spec chunks ending [] Hne) as Hr.
  destruct (read_request_frame max _ []) as [r reader].
  destruct Hr as [-> Hr]; [unfold len; simpl; lia|].
  rewrite lines_first in *. unfold frame_outcome in *.
  destruct (newline_position (concat chunks)) as [p|] eqn:Hp.
  - assert (len (take (S p) (concat chunks)) = N.of_nat (S p)) as Hl.
    { apply newline_position_lt in Hp. unfold len. rewrite length_take. lia. }
    change (len [] + ?n) with n in *. destruct (lines (drop _ _)) as [ls tail] eqn:El.
    cbn [serve_lines fst length] in *. rewrite Hl. destruct (max <? _); [done|].
    cbn [app] in *. destruct (Hr _ eq_refl) as (cs & p' & Hcs & -> & [= <-] & Hdrop).
    destruct (handle_frame _ _ _ _) as [[u|e] s']; [|done].
    rewrite IH; rewrite ?Hdrop, ?El; [done..|simpl; lia].
  - cbn [serve_lines]. change (len [] + ?n) with n. destruct (max <? _); [done|].
    by destruct ending.
Qed.
End connection.

(** ** The listener *)

Record listener_ok (max_connections : N) (l : Listener) : Prop := {
  lo_open : li_open l ≤ max_connections;
  lo_active : li_active_connections l =
    li_open l + match li_phase l with Admitting _ => 1 | _ => 0 end;
  lo_admitting before : li_phase l = Admitting before → li_open l ≤ before;
  lo_serving : li_serving l = match li_phase l with Stopped _ => false | _ => true end;
}.

Lemma fetch_add_exact n : n < u64_max → fetch_add n = n + 1.
Proof. intros. unfold fetch_add. apply N.mod_small. unfold u64_max in *. lia. Qed.

Lemma fetch_sub_exact n : 0 < n → n ≤ u64_max → fetch_sub n = n - 1.
Proof.
  intros. unfold fetch_sub. replace (n + u64_max) with (n - 1 + 1 * (u64_max + 1)) by lia.
  rewrite N.Div0.mod_add. apply N.mod_small. lia.
Qed.

Lemma listener_step_ok max_connections l l' :
  max_connections < u64_max → listener_ok max_connections l →
  listener_step max_connections l l' → listener_ok max_connections l'.
Proof.
  intros Hmax [Ho Ha Had Hs] Hstep. destruct Hstep; cbn [li_open li_active_connections li_phase
    li_serving] in *; subst;
    rewrite ?fetch_add_exact, ?fetch_sub_exact by (try destruct ph; lia);
    (split; cbn [li_open li_active_connections li_phase li_serving]);
    try naive_solver lia.
  - specialize (Had _ eq_refl). lia.
  - intros b Hb. specialize (Had b Hb). lia.
Qed.

Lemma listener_reachable_ok max_connections l :
  max_connections < u64_max → rtc (listener_step max_connections) listener_start l →
  listener_ok max_connections l.
Proof.
  intros Hmax. assert (listener_ok max_connections listener_start) as Hok
    by (split; simpl; [lia|done..]).
  generalize dependent listener_start. intros l0 Hok Hr.
  induction Hr as [|l0 l1 l2 Hs Hr IH]; [done|]. apply IH. by eapply listener_step_ok.
Qed.
