(* ===== verification/Client.v ===== *)
(** * The synchronous client ([agent-broker-client/src/client.rs], [error.rs])

    Typed requests over one reusable connection, and the durable execution of
    owner-aware mutations.  The socket is the class [Network]: connecting to an
    address, and writing a frame, which gives what the reads after it deliver, in
    the buffers they arrive in, an error of the socket included.  The end of the
    list is the end of the stream. *)

From stdpp Require Import pretty.
From S2P Require Import Prelude Values Task Group Messages Display Wire Sessions Service Dispatch.
From S2P Require Import Json WireSchema WireV1 WireVersions Server SessionStore.

Inductive ClientError :=
  | Transport (e : string)
  | Protocol (e : ProtocolCodecError)
  | Broker (e : BrokerError)
  | UnexpectedPayload (o : Operation)
  | RequestIdExhausted.

Definition ClientError_fmt (e : ClientError) : string :=
  match e with
  | Transport e => "Broker transport failed: " +:+ e
  | Protocol e => to_string e
  | Broker e => be_message e
  | UnexpectedPayload o => "Broker response payload does not match " +:+ Operation_as_str o
  | RequestIdExhausted => "Broker client request IDs exhausted"
  end.

#[export] Instance ClientError_display : Display ClientError := ClientError_fmt.

Inductive DurableExecutionError :=
  | DurableClient (e : ClientError)
  | DurableStore (e : ClientSessionStoreError).

Definition DurableExecutionError_fmt (e : DurableExecutionError) : string :=
  match e with DurableClient e => to_string e | DurableStore e => to_string e end.

(** ** Configuration *)

(** An address is its text and what is checked of it. *)
Record SocketAddr := MkAddr { sa_text : string; sa_is_loopback : bool }.

#[export] Instance SocketAddr_eq_dec : EqDecision SocketAddr.
Proof. solve_decision. Defined.

Definition CLIENT_MIN_FRAME_BYTES : N := 4096.
Definition CLIENT_MAX_FRAME_BYTES : N := 1024 * 1024.

Record BrokerClientConfig := {
  bcc_address : SocketAddr;
  bcc_timeout : N;
  bcc_max_response_frame_bytes : N;
}.

Definition BrokerClientConfig_default : BrokerClientConfig := {|
  bcc_address := MkAddr "127.0.0.1:8811" true;
  bcc_timeout := 5 * 1000000000;
  bcc_max_response_frame_bytes := 128 * 1024 |}.

Definition validate_client (c : BrokerClientConfig) : result BrokerClientConfig ClientError :=
  if negb (sa_is_loopback (bcc_address c))
  then Err (Protocol (CodecInvalidRequest "Broker client address must be loopback-only."))
  else if negb ((CLIENT_MIN_FRAME_BYTES <=? bcc_max_response_frame_bytes c) &&
                (bcc_max_response_frame_bytes c <=? CLIENT_MAX_FRAME_BYTES))
  then Err (Protocol (CodecInvalidRequest
    "max_response_frame_bytes must be between 4096 and 1048576."))
  else if bcc_timeout c =? 0
  then Err (Protocol (CodecInvalidRequest "Broker client timeout must be positive."))
  else Ok c.

Record ClaimInput := {
  cin_group_id : ConsumerGroupId;
  cin_member_id : ConsumerId;
  cin_expected_term : Term;
  cin_expected_generation : Generation;
  cin_lease_id : LeaseId;
  cin_lease_duration : N;
}.

Record RenewInput := {
  rin_task_id : TaskId;
  rin_group_id : ConsumerGroupId;
  rin_member_id : ConsumerId;
  rin_expected_term : Term;
  rin_expected_generation : Generation;
  rin_expected_lease_epoch : LeaseEpoch;
  rin_lease_id : LeaseId;
  rin_lease_duration : N;
}.

Record CompleteInput := {
  pin_task_id : TaskId;
  pin_group_id : ConsumerGroupId;
  pin_member_id : ConsumerId;
  pin_expected_term : Term;
  pin_expected_generation : Generation;
  pin_expected_lease_epoch : LeaseEpoch;
  pin_lease_id : LeaseId;
  pin_result : TaskResult;
}.

(** ** Payloads as results *)

Definition payload_metadata (term : Term) (revision : Revision) : MutationMetadata :=
  {| md_term := term; md_revision := revision |}.

Definition namespace_result (payload : SuccessPayload) : result NamespaceResult ClientError :=
  match payload with
  | SNamespace term revision namespace_id namespace_revision =>
      Ok {| nr_metadata := payload_metadata term revision; nr_namespace_id := namespace_id;
            nr_namespace_revision := namespace_revision |}
  | _ => Err (UnexpectedPayload OpEnsureNamespace)
  end.

Definition task_published_result (payload : SuccessPayload) :
    result TaskPublishedResult ClientError :=
  match payload with
  | STaskPublished term revision task_id task_revision status =>
      Ok {| tp_metadata := payload_metadata term revision; tp_task_id := task_id;
            tp_task_revision := task_revision; tp_status := status |}
  | _ => Err (UnexpectedPayload OpPublishTask)
  end.

(** Joining and leaving use this converter too, and its error names the
    operation of the first. *)
Definition client_consumer_group_result (payload : SuccessPayload) :
    result ConsumerGroupResult ClientError :=
  match payload with
  | SConsumerGroup term revision group_id generation group_revision member_count =>
      Ok {| gr_metadata := payload_metadata term revision; gr_group_id := group_id;
            gr_generation := generation; gr_group_revision := group_revision;
            gr_member_count := member_count |}
  | _ => Err (UnexpectedPayload OpEnsureConsumerGroup)
  end.

Definition heartbeat_result (payload : SuccessPayload) : result HeartbeatResult ClientError :=
  match payload with
  | SHeartbeat term revision group_id member_id generation member_revision =>
      Ok {| hr_metadata := payload_metadata term revision; hr_group_id := group_id;
            hr_member_id := member_id; hr_generation := generation;
            hr_member_revision := member_revision |}
  | _ => Err (UnexpectedPayload OpHeartbeat)
  end.

Definition client_task_claim_result (payload : SuccessPayload) :
    result TaskClaimResult ClientError :=
  match payload with
  | STaskClaimed term revision task_id objective task_revision lease_id lease_epoch
      lease_expires_at_ms generation =>
      Ok {| tc_metadata := payload_metadata term revision; tc_task_id := task_id;
            tc_objective := objective; tc_task_revision := task_revision;
            tc_lease_id := lease_id; tc_lease_epoch := lease_epoch;
            tc_lease_expires_at_ms := lease_expires_at_ms; tc_generation := generation |}
  | _ => Err (UnexpectedPayload OpClaimTask)
  end.

Definition task_lease_renewed_result (payload : SuccessPayload) :
    result TaskLeaseRenewedResult ClientError :=
  match payload with
  | STaskLeaseRenewed term revision task_id task_revision lease_id lease_epoch lease_expires_at_ms
      generation =>
      Ok {| tr_metadata := payload_metadata term revision; tr_task_id := task_id;
            tr_task_revision := task_revision; tr_lease_id := lease_id;
            tr_lease_epoch := lease_epoch; tr_lease_expires_at_ms := lease_expires_at_ms;
            tr_generation := generation |}
  | _ => Err (UnexpectedPayload OpRenewTaskLease)
  end.

Definition task_completed_result (payload : SuccessPayload) :
    result TaskCompletedResult ClientError :=
  match payload with
  | STaskCompleted term revision task_id task_revision status =>
      Ok {| td_metadata := payload_metadata term revision; td_task_id := task_id;
            td_task_revision := task_revision; td_status := status |}
  | _ => Err (UnexpectedPayload OpCompleteTask)
  end.

Definition health_result (payload : SuccessPayload) : result BrokerHealth ClientError :=
  match payload with
  | SHealth protocol_version term revision =>
      Ok {| bh_term := term; bh_revision := revision; bh_protocol_version := protocol_version |}
  | _ => Err (UnexpectedPayload OpHealth)
  end.

(** ** The connection *)

Class Network (W : Type) := {
  nw_connect : SocketAddr → W → result unit string * W;
  nw_send : bytes → W → result (list (result bytes string)) string * W;
}.

(** The client; an open connection is what its reader has not read yet. *)
Record BrokerClient := MkClient {
  bc_config : BrokerClientConfig;
  bc_connection : option (list (result bytes string));
  bc_request_sequence : N;
}.

Definition BrokerClient_new (config : BrokerClientConfig) : result BrokerClient ClientError :=
  let^ config := validate_client config in Ok (MkClient config None 0).

Definition close (c : BrokerClient) : BrokerClient :=
  MkClient (bc_config c) None (bc_request_sequence c).

Fixpoint read_bounded_frame (max_bytes : N) (reader : list (result bytes string)) (frame : bytes) :
    result bytes ClientError * list (result bytes string) :=
  match reader with
  | [] => (Err (Transport "Broker closed the connection before a complete response"), [])
  | Err e :: rest => (Err (Transport e), rest)
  | Ok [] :: rest =>
      (Err (Transport "Broker closed the connection before a complete response"), rest)
  | Ok available :: rest =>
      let consumed :=
        match newline_position available with
        | Some position => S position
        | None => length available
        end in
      if max_bytes <? len frame + N.of_nat consumed
      then (Err (Protocol (FrameTooLarge (len frame + N.of_nat consumed) max_bytes)), reader) else
      let frame := (frame ++ take consumed available)%list in
      match newline_position available with
      | Some _ => (Ok frame, consume consumed available rest)
      | None => read_bounded_frame max_bytes rest frame
      end
  end.

Definition next_request_id (c : BrokerClient) : result RequestId ClientError * BrokerClient :=
  let? sequence := ok_or (checked_add (bc_request_sequence c) 1) RequestIdExhausted else c in
  (map_err (λ e, Protocol (CodecInvalidRequest (to_string e)))
     (RequestId_new ("rust-client-" +:+ pretty sequence)),
   MkClient (bc_config c) (bc_connection c) sequence).

(** [match … { Ok(p) => Ok(p), Err(Protocol(e)) => …, Err(Broker(e)) => … }] *)
Definition response_error_to_client (e : ResponseDecodeError) : ClientError :=
  match e with RdProtocol e => Protocol e | RdBroker e => Broker e end.

(** [if matches!(result, Err(Transport(_) | Protocol(_))) { self.close() }] *)
Definition close_unless_usable {A} (r : result A ClientError) (c : BrokerClient) : BrokerClient :=
  match r with Err (Transport _ | Protocol _) => close c | _ => c end.

(** ** Attempts of a durable command

    The loop of [execute_reserved_durable], over the state [X] that an attempt
    changes: the same for the synchronous and the asynchronous client. *)

Abbreviation Local := (DurableClientSessionStore * SessionFile)%type.

Section attempts.
Context {X : Type}.

(** The store call that settles an attempt, then the outcome. *)
Definition settle {A} (settled : result unit ClientSessionStoreError * Local)
    (outcome : result A DurableExecutionError) (x : X) :
    result A DurableExecutionError * (X * Local) :=
  let '(r, l) := settled in
  let? _ := map_err DurableStore r else (x, l) in
  (outcome, (x, l)).

(** [attempts] are left; [acknowledge] and [release] are the two calls of the
    store on the command's identity. *)
Fixpoint retry_attempts (exhausted : string)
    (attempt : X → result SuccessPayload ClientError * X)
    (acknowledge release : Local → result unit ClientSessionStoreError * Local)
    (attempts : nat) (x : X) (l : Local) :
    result SuccessPayload DurableExecutionError * (X * Local) :=
  match attempts with
  | O => (Err (DurableStore (InvalidState exhausted)), (x, l))
  | S more =>
      let '(r, x) := attempt x in
      let again (e : ClientError) :=
        match more with
        | O => (Err (DurableClient e), (x, l))
        | S _ => retry_attempts exhausted attempt acknowledge release more x l
        end in
      match r with
      | Ok payload => settle (acknowledge l) (Ok payload) x
      | Err (Broker e) =>
          match be_disposition e with
          | DispCommitted => settle (acknowledge l) (Err (DurableClient (Broker e))) x
          | DispRejected => settle (release l) (Err (DurableClient (Broker e))) x
          | DispUnknown => again (Broker e)
          end
      | Err (Transport e) => again (Transport e)
      | Err e => (Err (DurableClient e), (x, l))
      end
  end.

End attempts.

Section client.
Context `{J : SerdeJson} {W : Type} `{Net : Network W}.

Abbreviation State := (BrokerClient * W)%type.

Definition ensure_connection (s : State) : result unit ClientError * State :=
  let '(c, w) := s in
  match bc_connection c with
  | Some _ => (Ok tt, (c, w))
  | None =>
      let '(connected, w) := nw_connect (bcc_address (bc_config c)) w in
      let? _ := map_err Transport connected else (c, w) in
      (Ok tt, (MkClient (bc_config c) (Some []) (bc_request_sequence c), w))
  end.

(** The closure of [round_trip_frame]. *)
Definition try_round_trip (frame : bytes) (s : State) : result bytes ClientError * State :=
  let! _, s := ensure_connection s in
  let '(c, w) := s in
  let? unread := ok_or (bc_connection c) (Transport "Broker connection was not established")
    else (c, w) in
  let '(sent, w) := nw_send frame w in
  let? delivered := map_err Transport sent else (c, w) in
  let '(response, rest) :=
    read_bounded_frame (bcc_max_response_frame_bytes (bc_config c)) (unread ++ delivered) [] in
  (response, (MkClient (bc_config c) (Some rest) (bc_request_sequence c), w)).

Definition round_trip_frame (frame : bytes) (s : State) : result bytes ClientError * State :=
  let '(response, (c, w)) := try_round_trip frame s in
  (response, (if is_ok response then c else close c, w)).

Abbreviation response_limit s := (bcc_max_response_frame_bytes (bc_config s.1)) (only parsing).

Definition execute_frame (frame : bytes) (request_id : RequestId) (operation : Operation)
    (s : State) : result SuccessPayload ClientError * State :=
  let max := response_limit s in
  let! response, s := round_trip_frame frame s in
  (map_err response_error_to_client
     (decode_response_for_operation_with_limit response request_id operation max), s).

Definition execute (request : BrokerRequest) (s : State) :
    result SuccessPayload ClientError * State :=
  let? frame := map_err Protocol (encode_request request) else s in
  let '(r, (c, w)) :=
    execute_frame frame (request_request_id request) (request_operation request) s in
  (r, (close_unless_usable r c, w)).

Definition execute_identified (identity : CommandIdentity) (request : BrokerRequest) (s : State) :
    result SuccessPayload ClientError * State :=
  let max := response_limit s in
  let? identified := map_err Protocol (Identified_new identity request) else s in
  let? frame := map_err Protocol (encode_identified_request identified) else s in
  let! response, s := round_trip_frame frame s in
  let '(c, w) := s in
  let r := map_err response_error_to_client
    (decode_response_v2_for_operation_with_limit response (request_request_id request)
       (request_operation request) max) in
  (r, (close_unless_usable r c, w)).

Definition client_acquire_owner (session_id : CommandSessionId)
    (expected_owner_epoch : SessionOwnerEpoch) (owner_instance_id : SessionOwnerInstanceId)
    (s : State) : result SessionOwnerEpoch ClientError * State :=
  let max := response_limit s in
  let '(id, c) := next_request_id s.1 in
  let s := (c, s.2) in
  let? request_id := id else s in
  let request := {| oa_request_id := request_id; oa_session_id := session_id;
                    oa_expected_owner_epoch := expected_owner_epoch;
                    oa_owner_instance_id := owner_instance_id |} in
  let? frame := map_err Protocol (encode_owner_acquisition_request_with_limit request max) else s in
  let! response, s := round_trip_frame frame s in
  let '(c, w) := s in
  let r := map_err response_error_to_client
    (decode_owner_acquisition_response_with_limit response request_id max) in
  (r, (close_unless_usable r c, w)).

Definition execute_owned (identity : CommandIdentity) (request : BrokerRequest) (s : State) :
    result SuccessPayload ClientError * State :=
  let max := response_limit s in
  let? owned := map_err Protocol (OwnerIdentified_new identity request) else s in
  let? frame := map_err Protocol (encode_owner_mutation_request_with_limit owned max) else s in
  let! response, s := round_trip_frame frame s in
  let '(c, w) := s in
  let r := map_err response_error_to_client
    (decode_owner_mutation_response_with_limit response (request_request_id request)
       (request_operation request) max) in
  (r, (close_unless_usable r c, w)).

(** ** The typed operations *)

(** One with the request built from the next request id and the payload read as
    the result. *)
Definition typed {A} (build : RequestId → BrokerRequest)
    (convert : SuccessPayload → result A ClientError) (s : State) : result A ClientError * State :=
  let '(id, c) := next_request_id s.1 in
  let s := (c, s.2) in
  let? request_id := id else s in
  let! payload, s := execute (build request_id) s in
  (convert payload, s).

Definition client_health : State → result BrokerHealth ClientError * State :=
  typed (λ id, ReqHealth {| qq_request_id := id |}) health_result.

Definition client_ensure_namespace (namespace_id : NamespaceId) :
    State → result NamespaceResult ClientError * State :=
  typed (λ id, ReqEnsureNamespace {| qn_request_id := id; qn_namespace_id := namespace_id |})
    namespace_result.

Definition client_publish_task (namespace_id : NamespaceId) (task_id : TaskId)
    (objective : TaskObjective) : State → result TaskPublishedResult ClientError * State :=
  typed (λ id, ReqPublishTask {| qp_request_id := id; qp_namespace_id := namespace_id;
                                 qp_task_id := task_id; qp_objective := objective |})
    task_published_result.

Definition client_ensure_consumer_group (namespace_id : NamespaceId) (group_id : ConsumerGroupId) :
    State → result ConsumerGroupResult ClientError * State :=
  typed (λ id, ReqEnsureConsumerGroup {| qg_request_id := id; qg_namespace_id := namespace_id;
                                         qg_group_id := group_id |})
    client_consumer_group_result.

Definition client_join_consumer_group (group_id : ConsumerGroupId) (member_id : ConsumerId)
    (capabilities : DeclaredCapabilities) : State → result ConsumerGroupResult ClientError * State :=
  typed (λ id, ReqJoinConsumerGroup {| qj_request_id := id; qj_group_id := group_id;
                                       qj_member_id := member_id; qj_capabilities := capabilities |})
    client_consumer_group_result.

Definition client_heartbeat (group_id : ConsumerGroupId) (member_id : ConsumerId)
    (expected_generation : Generation) : State → result HeartbeatResult ClientError * State :=
  typed (λ id, ReqHeartbeat {| qh_request_id := id; qh_group_id := group_id;
                               qh_member_id := member_id;
                               qh_expected_generation := expected_generation |})
    heartbeat_result.

Definition client_leave_consumer_group (group_id : ConsumerGroupId) (member_id : ConsumerId)
    (expected_generation : Generation) : State → result ConsumerGroupResult ClientError * State :=
  typed (λ id, ReqLeaveConsumerGroup {| ql_request_id := id; ql_group_id := group_id;
                                        ql_member_id := member_id;
                                        ql_expected_generation := expected_generation |})
    client_consumer_group_result.

Definition client_claim_task (input : ClaimInput) :
    State → result TaskClaimResult ClientError * State :=
  typed (λ id, ReqClaimTask {| qc_request_id := id; qc_group_id := cin_group_id input;
      qc_member_id := cin_member_id input; qc_expected_term := cin_expected_term input;
      qc_expected_generation := cin_expected_generation input;
      qc_lease_id := cin_lease_id input; qc_lease_duration := cin_lease_duration input |})
    client_task_claim_result.

Definition client_renew_task_lease (input : RenewInput) :
    State → result TaskLeaseRenewedResult ClientError * State :=
  typed (λ id, ReqRenewTaskLease {| qr_request_id := id; qr_task_id := rin_task_id input;
      qr_group_id := rin_group_id input; qr_member_id := rin_member_id input;
      qr_expected_term := rin_expected_term input;
      qr_expected_generation := rin_expected_generation input;
      qr_expected_lease_epoch := rin_expected_lease_epoch input;
      qr_lease_id := rin_lease_id input; qr_lease_duration := rin_lease_duration input |})
    task_lease_renewed_result.

Definition client_complete_task (input : CompleteInput) :
    State → result TaskCompletedResult ClientError * State :=
  typed (λ id, ReqCompleteTask {| qd_request_id := id; qd_task_id := pin_task_id input;
      qd_group_id := pin_group_id input; qd_member_id := pin_member_id input;
      qd_expected_term := pin_expected_term input;
      qd_expected_generation := pin_expected_generation input;
      qd_expected_lease_epoch := pin_expected_lease_epoch input;
      qd_lease_id := pin_lease_id input; qd_result := pin_result input |})
    task_completed_result.

(** ** Durable execution *)

Definition execute_reserved_durable (io : option StoreFault) (reserved : ReservedCommand)
    (attempts : nat) (s : State) (l : Local) :
    result SuccessPayload DurableExecutionError * (State * Local) :=
  retry_attempts "durable retry loop exhausted without returning a classified outcome"
    (execute_owned (rv_identity reserved) (rv_request reserved))
    (acknowledge_in_flight_outcome io (rv_identity reserved))
    (release_rejected_in_flight io (rv_identity reserved)) attempts s l.

Definition execute_durable (io_reserve io : option StoreFault) (request : BrokerRequest)
    (max_attempts : nat) (s : State) (l : Local) :
    result SuccessPayload DurableExecutionError * (State * Local) :=
  let '(reserved, l) := reserve_command io_reserve request l in
  let? reserved := map_err DurableStore reserved else (s, l) in
  execute_reserved_durable io reserved max_attempts s l.

Definition recover_durable_in_flight (io : option StoreFault) (max_attempts : nat) (s : State)
    (l : Local) : result SuccessPayload DurableExecutionError * (State * Local) :=
  let? reserved := map_err DurableStore (in_flight l.1) else (s, l) in
  let? reserved := ok_or reserved (DurableStore (InvalidState
    "cannot recover durable execution without an in-flight command")) else (s, l) in
  execute_reserved_durable io reserved max_attempts s l.

End client.
