(* ===== verification/Durable.v ===== *)
(** * Durable commands take effect once

    The class [SessionNetwork] is what a client relies on: behind the network a
    session machine moves by a log of proposals, and an owner-aware mutation that
    is answered was applied in that log.  From this, and whatever else the
    network loses, repeats or answers, a durable command that was settled took
    effect once, with the answer the caller gets; one that was not settled is
    still in flight. *)

From S2P Require Import Prelude Values Task Group Messages Machine Display Wire Replicated.
From S2P Require Import ReplicatedProps Sessions SessionsProps ApplyOnce Service Dispatch.
From S2P Require Import DispatchProps Json WireSchema WireV1 WireV1Props WireVersions.
From S2P Require Import WireResponseProps WireVersionsProps SessionStore SessionStoreProps Server Client.

(** ** What the network promises *)

Definition evolves (m m' : SessionMachine) : Prop := ∃ ps, m' = after ps m.

Lemma evolves_refl m : evolves m m.
Proof. by exists []. Qed.

Lemma evolves_trans m1 m2 m3 : evolves m1 m2 → evolves m2 m3 → evolves m1 m3.
Proof. intros [ps ->] [qs ->]. exists (ps ++ qs)%list. by rewrite after_app. Qed.
#[export] Hint Resolve evolves_refl : core.

(** The command that a request becomes in the log, at some server's clock and
    capacity policy. *)
Definition commanded (request : BrokerRequest) (c : ReplicatedBrokerCommandV1) : Prop :=
  ∃ policy t command, request_command policy request t = Ok (Some command) ∧
    command_to_replicated command = Ok c.

(** The answer that a response of the log is to the client. *)
Definition outcome_of (r : ReplicatedBrokerResponseV1) (res : result SuccessPayload BrokerError) :
    Prop :=
  match res with
  | Ok payload => ∃ m d, into_application_result r = Ok (Ok m) ∧ dispatched m = Some d ∧
      payload = success_of_dispatch d
  | Err e => into_application_result r = Ok (Err e)
  end.

(** Between [m] and [m'] the identified request was proposed and answered. *)
Definition settled (i : CommandIdentity) (request : BrokerRequest)
    (res : result SuccessPayload BrokerError) (m m' : SessionMachine) : Prop :=
  ∃ c r ps qs, commanded request c ∧ outcome_of r res ∧
    (apply_proposal (identified i c) (after ps m)).1 = Ok r ∧
    m' = after (ps ++ identified i c :: qs)%list m.

(** Nothing is left to read but the end of the stream or an error. *)
Definition quiet (reader : list (result bytes string)) : Prop :=
  Forall (λ r, match r with Ok (_ :: _) => False | _ => True end) reader.

Definition valid_owned (i : CommandIdentity) (request : BrokerRequest) : Prop :=
  valid_wire_request (WireV3 (Mutation (MkOwnerIdentified i request))).

(** What a response says about an owner-aware mutation: a success, or an error
    that is marked committed, was applied. *)
Definition answered (i : CommandIdentity) (request : BrokerRequest) (response : BrokerResponse)
    (m m' : SessionMachine) : Prop :=
  match response with
  | ResponseSuccess _ p =>
      answers_operation (request_operation request) p ∧ word_payload p ∧
      settled i request (Ok p) m m'
  | ResponseError _ e => ep_disposition e = DispCommitted →
      settled i request (Err {| be_code := ep_code e; be_message := ep_message e;
        be_disposition := ep_disposition e |}) m m'
  end.

Section network.
Context {J : SerdeJson}.

(** A line of another protocol, as the operations listener writes. *)
Definition foreign_line (line : bytes) : Prop :=
  ∃ kvs v, framed (VObject kvs) line ∧ json_read line = Some (VObject kvs) ∧
    plain (VObject kvs) = true ∧ (depth (VObject kvs) ≤ 127)%nat ∧
    obj_get "schema_version" kvs = Some v ∧ obj_get "version" kvs = None.

Class SessionNetwork (W : Type) `{Net : Network W} := {
  sn_machine : W → SessionMachine;
  (** the frame limit of the servers *)
  sn_limit : N;
  sn_connects a w : evolves (sn_machine w) (sn_machine (nw_connect a w).2);
  sn_sends f w : evolves (sn_machine w) (sn_machine (nw_send f w).2);
  (** an owner-aware mutation is answered with one line and nothing after it,
      the response of the broker to this request or a line of another protocol *)
  sn_responds i request f w reads w' line rest :
    valid_owned i request →
    encode_owner_mutation_request_with_limit (MkOwnerIdentified i request) sn_limit = Ok f →
    nw_send f w = (Ok reads, w') → read_bounded_frame sn_limit reads [] = (Ok line, rest) →
    quiet rest ∧
    (foreign_line line ∨
     ∃ response, encode_response_v3_with_limit response sn_limit = Ok line ∧
       response_request_id response = request_request_id request ∧
       answered i request response (sn_machine w) (sn_machine w'));
}.

End network.
Arguments sn_machine {J W Net _} _.
Arguments sn_limit {J W Net _}.

(** ** One attempt *)

(** A member that a struct does not have is refused. *)
Lemma foreign_key_refused k v names kvs :
  obj_get k kvs = Some v → existsb (String.eqb k) names = false →
  struct_fields true names (VObject kvs) = None.
Proof.
  intros Hk Hn. cbn [struct_fields negb orb].
  assert (forallb (λ kv, existsb (String.eqb kv.1) names) kvs = false) as ->;
    [|by rewrite andb_false_r].
  induction kvs as [|[k' v'] kvs IH]; [done|]. cbn in *.
  destruct (String.eqb_spec k k') as [<-|]; [by rewrite Hn|]. rewrite IH by done. apply andb_false_r.
Qed.

Lemma foreign_line_refused {J : SerdeJson} line id o max :
  foreign_line line →
  ∃ e, decode_owner_mutation_response_with_limit line id o max = Err (RdProtocol e).
Proof.
  intros (kvs & v & _ & Hj & _ & _ & Hk & _).
  unfold decode_owner_mutation_response_with_limit, response_error_disposition, read_envelope_v3.
  destruct (ensure_frame_limit _ _); [|by eexists]. unfold from_slice. rewrite Hj.
  unfold ResponseEnvelopeV3_de. rewrite (foreign_key_refused _ _ _ _ Hk) by done. by eexists.
Qed.

Section attempt.
Context {J : SerdeJson} {L : SerdeJsonLaws J} {W : Type} {Net : Network W}.
Context {Srv : SessionNetwork W}.

(** What the Rust client makes of the line. *)
Lemma sn_answers i request f w reads w' line rest :
  valid_owned i request →
  encode_owner_mutation_request_with_limit (MkOwnerIdentified i request) sn_limit = Ok f →
  nw_send f w = (Ok reads, w') → read_bounded_frame sn_limit reads [] = (Ok line, rest) →
  quiet rest ∧
  match decode_owner_mutation_response_with_limit line (request_request_id request)
          (request_operation request) sn_limit with
  | Ok payload => settled i request (Ok payload) (sn_machine w) (sn_machine w')
  | Err (RdBroker e) => be_disposition e = DispCommitted →
      settled i request (Err e) (sn_machine w) (sn_machine w')
  | Err (RdProtocol _) => True
  end.
Proof.
  intros Hv Hf Hsend Hread.
  destruct (sn_responds i request f w reads w' line rest Hv Hf Hsend Hread) as [Hq Hline].
  split; [done|]. destruct Hline as [Hl|(response & He & Hid & Ha)].
  { by destruct (foreign_line_refused line (request_request_id request) (request_operation request)
      sn_limit Hl) as [e ->]. }
  destruct (response_v3_trusted (request_operation request) response sn_limit line) as [_ Ht];
    [apply Hv|by destruct response; naive_solver|done|].
  rewrite Hid in Ht. destruct Ht as [->|[e ->]]; [|done].
  destruct response as [id p|id e]; cbn [delivered_v3]; [apply Ha|done].
Qed.

(** The client reads with the limit of the servers, on a connection without
    leftovers. *)
Definition client_ready (c : BrokerClient) : Prop :=
  bcc_max_response_frame_bytes (bc_config c) = sn_limit ∧
  match bc_connection c with Some unread => quiet unread | None => True end.

Lemma client_ready_close c : client_ready c → client_ready (close c).
Proof. intros [Hl _]. by split. Qed.

Lemma ensure_connection_outcome s r s' :
  client_ready s.1 → ensure_connection s = (r, s') →
  client_ready s'.1 ∧ evolves (sn_machine s.2) (sn_machine s'.2).
Proof.
  destruct s as [c w]. unfold ensure_connection. intros Hc.
  destruct (bc_connection c) as [unread|] eqn:Hu; [by intros [= <- <-]|].
  pose proof (sn_connects (bcc_address (bc_config c)) w) as Hw. destruct (nw_connect _ w) as [[[]|e] w1];
    cbn [map_err snd] in *; intros [= <- <-]; cbn [fst snd]; [|done].
  split; [|done]. split; [apply Hc|]. constructor.
Qed.

Definition not_broker {A} (r : result A ClientError) : Prop :=
  match r with Err (Broker _) => False | _ => True end.

Lemma ensure_connection_error s r s' : ensure_connection s = (r, s') → not_broker r.
Proof.
  destruct s as [c w]. unfold ensure_connection. case_match; [by intros [= <- _]|].
  destruct (nw_connect _ _) as [[[]|]]; by intros [= <- _].
Qed.

Lemma read_bounded_error max reader frame r rest :
  read_bounded_frame max reader frame = (r, rest) → not_broker r.
Proof.
  revert frame. induction reader as [|x reader IH]; intros frame; cbn [read_bounded_frame];
    [by intros [= <- _]|].
  destruct x as [[|b bs]|e]; [by intros [= <- _]| |by intros [= <- _]].
  case_match; [by intros [= <- _]|]. case_match; [by intros [= <- _]|]. apply IH.
Qed.

(** What was left to read is not mistaken for a response. *)
Lemma read_after_quiet max unread reads line rest :
  quiet unread → read_bounded_frame max (unread ++ reads) [] = (Ok line, rest) →
  read_bounded_frame max reads [] = (Ok line, rest).
Proof. destruct 1 as [|r unread Hr _]; [done|]. by destruct r as [[|]|]. Qed.

(** A response that arrives is the one that the request was given. *)
Lemma round_trip_outcome f s r s' :
  (∀ w reads w' line rest, nw_send f w = (Ok reads, w') →
     read_bounded_frame sn_limit reads [] = (Ok line, rest) → quiet rest) →
  client_ready s.1 → round_trip_frame f s = (r, s') →
  client_ready s'.1 ∧ evolves (sn_machine s.2) (sn_machine s'.2) ∧
  match r with
  | Ok line => ∃ w reads rest, evolves (sn_machine s.2) (sn_machine w) ∧
      nw_send f w = (Ok reads, s'.2) ∧ read_bounded_frame sn_limit reads [] = (Ok line, rest)
  | Err (Broker _) => False
  | Err _ => True
  end.
Proof.
  intros Hquiet Hc. unfold round_trip_frame, try_round_trip.
  destruct (ensure_connection s) as [[u|e] [c1 w1]] eqn:He;
    pose proof (ensure_connection_error _ _ _ He) as Hee;
    apply ensure_connection_outcome in He as [Hc1 Hev]; try done; cbn [fst snd] in *;
    pose proof Hc1 as [Hl Hq].
  2: { intros [= <- <-]. split_and!; [by apply client_ready_close|done|]. by destruct e. }
  destruct (bc_connection c1) as [unread|] eqn:Hcon; cbn [ok_or].
  2: { intros [= <- <-]. split_and!; [by apply client_ready_close|done|done]. }
  pose proof (sn_sends f w1) as Hs.
  destruct (nw_send f w1) as [[reads|e] w2] eqn:Hsend; cbn [map_err fst snd] in *.
  2: { intros [= <- <-]. split_and!; [by apply client_ready_close|by eapply evolves_trans|done]. }
  destruct (read_bounded_frame _ _ _) as [[line|e] rest] eqn:Hr; intros [= <- <-]; cbn [is_ok fst snd].
  - rewrite Hl in Hr. apply read_after_quiet in Hr; [|done].
    split_and!; [split; [done|by eapply Hquiet]|by eapply evolves_trans|].
    by exists w1, reads, rest.
  - split_and!; [done|by eapply evolves_trans|]. by apply read_bounded_error in Hr; destruct e.
Qed.

(** What an attempt of an owner-aware mutation comes to. *)
Definition attempt_outcome (i : CommandIdentity) (request : BrokerRequest)
    (r : result SuccessPayload ClientError) (m m' : SessionMachine) : Prop :=
  evolves m m' ∧
  match r with
  | Ok payload => ∃ m0, evolves m m0 ∧ settled i request (Ok payload) m0 m'
  | Err (Broker e) => be_disposition e = DispCommitted →
      ∃ m0, evolves m m0 ∧ settled i request (Err e) m0 m'
  | _ => True
  end.

Lemma owned_attempt_outcome i request s r s' :
  valid_owned i request → client_ready s.1 → execute_owned i request s = (r, s') →
  client_ready s'.1 ∧ attempt_outcome i request r (sn_machine s.2) (sn_machine s'.2).
Proof.
  intros Hv Hc. unfold execute_owned, attempt_outcome. pose proof Hc as [Hl _]. rewrite Hl.
  destruct (OwnerIdentified_new i request) as [owned|] eqn:Hown; [|by intros [= <- <-]].
  assert (owned = MkOwnerIdentified i request) as ->.
  { unfold OwnerIdentified_new in Hown. repeat case_match; by simplify_eq. }
  cbn [map_err]. destruct (encode_owner_mutation_request_with_limit _ _) as [f|] eqn:Hf;
    [|by intros [= <- <-]]. cbn [map_err].
  destruct (round_trip_frame f s) as [[line|e] [c1 w1]] eqn:Hrt;
    apply round_trip_outcome in Hrt as (Hc1 & Hev & Hline); try done;
    try (intros; by eapply (sn_answers i request f)); cbn [fst snd] in *.
  2: { intros [= <- <-]. split_and!; [done..|]. by destruct e. }
  destruct Hline as (w0 & reads & rest & Hev0 & Hsend & Hread).
  destruct (sn_answers i request f w0 reads w1 line rest Hv Hf Hsend Hread) as [_ Hans].
  destruct (decode_owner_mutation_response_with_limit _ _ _ _) as [payload|[e|e]];
    cbn [map_err response_error_to_client]; intros [= <- <-]; cbn [fst snd close_unless_usable].
  - split_and!; [done..|]. eauto.
  - by split_and!; [apply client_ready_close|..].
  - split_and!; [done..|]. eauto.
Qed.
End attempt.

(** ** Settling *)

Lemma settled_between i request res m0 m m' m1 :
  evolves m0 m → settled i request res m m' → evolves m' m1 → settled i request res m0 m1.
Proof.
  intros [ps0 ->] (c & r & ps & qs & Hc & Ho & Hr & ->) [qs1 ->].
  exists c, r, (ps0 ++ ps)%list, (qs ++ qs1)%list. split_and!; [done..| |].
  - by rewrite after_app.
  - rewrite <-!after_app. f_equal. by rewrite <-!app_assoc.
Qed.

(** The store after a command in flight was settled: the next sequence is as given. *)
Definition cleared (next : N) (s : DurableClientSessionStore) : Prop :=
  ps_in_flight (ds_state s) = None ∧ ps_next_sequence (ds_state s) = next.

Section settle.
Context {J : SerdeJson}.

Lemma commit_state_memory io next w r w' :
  commit_state io next w = (r, w') →
  match r with Ok _ => w'.1 = MkStore (ds_session_id w.1) next | Err _ => w'.1 = w.1 end.
Proof.
  destruct w as [s d]. unfold commit_state. destruct (validate_state _ _); [|by intros [= <- <-]].
  destruct (persist_state _ _ _) as [[[]|]]; by intros [= <- <-].
Qed.

Lemma acknowledge_outcome io reserved l r l' :
  in_flight l.1 = Ok (Some reserved) →
  acknowledge_in_flight_outcome io (rv_identity reserved) l = (r, l') →
  match r with
  | Ok _ => cleared (ci_sequence (rv_identity reserved) + 1) l'.1
  | Err _ => l'.1 = l.1
  end.
Proof.
  intros Hf. unfold acknowledge_in_flight_outcome. rewrite Hf. cbn [ok_or].
  rewrite bool_decide_eq_true_2 by done. cbn [negb].
  unfold checked_add. destruct (_ <=? _); cbn [ok_or]; [|by intros [= <- <-]].
  intros Hc%commit_state_memory. destruct r; [by rewrite Hc|done].
Qed.

Lemma release_outcome io reserved l r l' :
  in_flight l.1 = Ok (Some reserved) →
  release_rejected_in_flight io (rv_identity reserved) l = (r, l') →
  match r with
  | Ok _ => cleared (ps_next_sequence (ds_state l.1)) l'.1
  | Err _ => l'.1 = l.1
  end.
Proof.
  intros Hf. unfold release_rejected_in_flight. rewrite Hf. cbn [ok_or].
  rewrite bool_decide_eq_true_2 by done. cbn [negb].
  intros Hc%commit_state_memory. destruct r; [by rewrite Hc|done].
Qed.
End settle.

(** ** The whole execution *)

(** What the durable execution of a reserved command comes to, from the state of
    the log when it was reserved; [left_as] is what a failed store call leaves. *)
Definition durable_outcome (left_as : Local → Local → Prop) (reserved : ReservedCommand)
    (m m' : SessionMachine) (res : result SuccessPayload DurableExecutionError) (l l' : Local) :
    Prop :=
  let i := rv_identity reserved in
  match res with
  | Ok payload =>
      settled i (rv_request reserved) (Ok payload) m m' ∧ cleared (ci_sequence i + 1) l'.1
  | Err (DurableClient (Broker e)) =>
      match be_disposition e with
      | DispCommitted =>
          settled i (rv_request reserved) (Err e) m m' ∧ cleared (ci_sequence i + 1) l'.1
      | DispRejected => cleared (ps_next_sequence (ds_state l.1)) l'.1
      | DispUnknown => l' = l
      end
  | Err (DurableClient _) => l' = l
  | Err (DurableStore _) => left_as l l'
  end.

(** The loop of attempts, for whatever client makes them and whatever store
    settles them. *)
Section retry.
Context {X : Type} (machine : X → SessionMachine) (usable : X → Prop).
Context (reserved : ReservedCommand) (left_as : Local → Local → Prop) (l : Local).
Context (attempt : X → result SuccessPayload ClientError * X).
Context (acknowledge release : Local → result unit ClientSessionStoreError * Local).

Hypothesis left_refl : left_as l l.
Hypothesis attempt_ok : ∀ x r x', usable x → attempt x = (r, x') →
  usable x' ∧ attempt_outcome (rv_identity reserved) (rv_request reserved) r (machine x) (machine x').
Hypothesis acknowledge_ok : ∀ r l', acknowledge l = (r, l') →
  match r with
  | Ok _ => cleared (ci_sequence (rv_identity reserved) + 1) l'.1
  | Err _ => left_as l l'
  end.
Hypothesis release_ok : ∀ r l', release l = (r, l') →
  match r with
  | Ok _ => cleared (ps_next_sequence (ds_state l.1)) l'.1
  | Err _ => left_as l l'
  end.

Lemma settle_acknowledged m x answer outcome res x' l' :
  evolves m (machine x) → settled (rv_identity reserved) (rv_request reserved) answer m (machine x) →
  outcome = match answer with Ok p => Ok p | Err e => Err (DurableClient (Broker e)) end →
  match answer with Ok _ => True | Err e => be_disposition e = DispCommitted end →
  settle (acknowledge l) outcome x = (res, (x', l')) →
  x' = x ∧ durable_outcome left_as reserved m (machine x') res l l'.
Proof.
  intros Hev Hs -> Ha. unfold settle. destruct (acknowledge l) as [[u|e] l1];
    pose proof (acknowledge_ok _ _ eq_refl) as Hk; intros [= <- <- <-]; (split; [done|]); [|done].
  destruct answer as [p|e]; [done|]. cbn. by rewrite Ha.
Qed.

Lemma retry_outcome exhausted n x res x' l' m :
  usable x → evolves m (machine x) →
  retry_attempts exhausted attempt acknowledge release n x l = (res, (x', l')) →
  usable x' ∧ evolves m (machine x') ∧ durable_outcome left_as reserved m (machine x') res l l'.
Proof.
  revert x. induction n as [|n IH]; intros x Hc Hev; cbn [retry_attempts]; [by intros [= <- <- <-]|].
  destruct (attempt x) as [r x1] eqn:Hx. apply attempt_ok in Hx as (Hc1 & Hev1 & Hr); [|done].
  pose proof (evolves_trans _ _ _ Hev Hev1) as Hev2.
  assert (∀ answer, (∃ m0, evolves (machine x) m0 ∧
      settled (rv_identity reserved) (rv_request reserved) answer m0 (machine x1)) →
    settled (rv_identity reserved) (rv_request reserved) answer m (machine x1)) as Hset.
  { intros answer (m0 & H0 & H1).
    exact (settled_between _ _ _ _ _ _ _ (evolves_trans _ _ _ Hev H0) H1 (evolves_refl _)). }
  assert (∀ e, match e with Broker e => be_disposition e = DispUnknown | _ => True end →
    (match n with
     | O => (Err (DurableClient e), (x1, l))
     | S _ => retry_attempts exhausted attempt acknowledge release n x1 l
     end) = (res, (x', l')) →
    usable x' ∧ evolves m (machine x') ∧ durable_outcome left_as reserved m (machine x') res l l')
    as Hagain.
  { intros e He. destruct n; [|by apply IH]. intros [= <- <- <-]. split_and!; [done..|].
    destruct e; try done. cbn. by rewrite He. }
  destruct r as [payload|[e|e|e|o|]]; try (by intros [= <- <- <-]); [|by apply Hagain|].
  - intros Hk. eapply (settle_acknowledged m x1 (Ok payload)) in Hk as [-> Hk]; auto.
  - destruct (be_disposition e) eqn:Hd; [| |by apply Hagain].
    + intros Hk. eapply (settle_acknowledged m x1 (Err e)) in Hk as [-> Hk]; auto.
    + unfold settle. destruct (release l) as [[u|e'] l1]; pose proof (release_ok _ _ eq_refl) as Hk;
        intros [= <- <- <-]; split_and!; try done. cbn. by rewrite Hd.
Qed.
End retry.

Definition same_store (l l' : Local) : Prop := l'.1 = l.1.

Section durable.
Context {J : SerdeJson} {L : SerdeJsonLaws J} {W : Type} {Net : Network W}.
Context {Srv : SessionNetwork W}.

Lemma durable_execution io reserved n s l res s' l' m :
  valid_owned (rv_identity reserved) (rv_request reserved) → client_ready s.1 →
  evolves m (sn_machine s.2) → in_flight l.1 = Ok (Some reserved) →
  execute_reserved_durable io reserved n s l = (res, (s', l')) →
  client_ready s'.1 ∧ evolves m (sn_machine s'.2) ∧
  durable_outcome same_store reserved m (sn_machine s'.2) res l l'.
Proof.
  intros Hv Hc Hev Hf.
  apply (retry_outcome (λ s, sn_machine s.2) (λ s, client_ready s.1)); try done.
  - intros x r x' Hx. by apply owned_attempt_outcome.
  - intros r l1. by apply acknowledge_outcome.
  - intros r l1. by apply release_outcome.
Qed.
End durable.

(** ** Once *)

(** The request was applied exactly once between [m] and [m'], with this answer. *)
Definition took_effect_once (i : CommandIdentity) (request : BrokerRequest)
    (res : result SuccessPayload BrokerError) (m m' : SessionMachine) : Prop :=
  ∃ ps c c0 r, m' = after ps m ∧ applications i ps m = [(c, r)] ∧
    commanded request c0 ∧ same_identified_request c0 c = true ∧ outcome_of r res.

Lemma commanded_not_acquisition request c : commanded request c → is_acquisition c = false.
Proof.
  intros (policy & t & command & _ & Hc). destruct command; cbn in Hc; unfold map_err in Hc;
    repeat case_match; by simplify_eq.
Qed.

Lemma owned_parts i request c :
  valid_owned i request → into_parts (identified i c) = Ok (Some i, c).
Proof.
  intros (_ & Hs & [He _] & [Hq _] & Ho). rewrite into_parts_ok; [by destruct i|].
  unfold valid_session_id, CommandSessionId_new in Hs.
  split; [|split; [done|split; [|done]]]; cbn in *; unfold valid_owner, valid_session.
  - by destruct (validate_session_text _ _) as [[]|].
  - destruct (ci_owner_instance_id i) as [o|]; [|done].
    unfold valid_instance, SessionOwnerInstanceId_new in Ho.
    by destruct (validate_session_text o _) as [[]|] eqn:E in Ho.
Qed.

Lemma settled_took_effect_once i request res m m' :
  valid_owned i request → (∀ c r, ¬ spent i c r (sm_sessions m)) →
  match res with Ok _ => True | Err e => be_disposition e = DispCommitted end →
  settled i request res m m' → took_effect_once i request res m m'.
Proof.
  intros Hv Hfresh Hres (c & r & ps & qs & Hc & Ho & Hr & ->).
  destruct (answered_applied_once i c r ps qs m) as (c' & Hsame & Happ); try done.
  - by eapply commanded_not_acquisition.
  - by eapply owned_parts.
  - intros (e & [= ->] & He). destruct res as [p|err]; cbn in Ho.
    + by destruct Ho as (? & ? & [=] & _).
    + injection Ho as <-. cbn in Hres. by rewrite He in Hres.
  - exists (ps ++ identified i c :: qs)%list, c', c, r. done.
Qed.

(** ** Reservations *)

Lemma sound_session_id {J : SerdeJson} sid s : session_sound sid s → valid_session_id sid.
Proof.
  intros [Hv _]. revert Hv. unfold validate_state, valid_session_id. case_match; [done|].
  destruct (CommandSessionId_new (ps_session_id s)) as [stored|] eqn:Hs; [|done].
  cbn [invalid_state map_err]. pose proof (session_id_inv _ _ Hs) as ->.
  destruct (String.eqb_spec (ps_session_id s) sid) as [<-|]; [by rewrite Hs|done].
Qed.

(** A reserved command is one that the protocol carries. *)
Lemma reserved_is_owned {J : SerdeJson} io request s d r w :
  session_sound (ds_session_id s) (ds_state s) → valid_request request →
  reserve_command io request (s, d) = (Ok r, w) →
  valid_owned (rv_identity r) (rv_request r) ∧ ci_session_id (rv_identity r) = ds_session_id s.
Proof.
  intros Hs Hr. unfold reserve_command. cbn [fst]. do 2 (case_match; [done|]).
  case_bool_decide as Hop; [done|]. case_match; [done|].
  destruct (owner s) as [[o|]|] eqn:Ho; [|done..]. cbn [ok_or].
  destruct (CommandSequence_new _) as [q|] eqn:Hq; [|done]. cbn [invalid_state map_err].
  destruct (encode_request request) as [frame|]; [|done]. cbn [map_err].
  destruct (commit_state _ _ _) as [[u|] w1]; [|done]. intros [= <- _]. split; [|done].
  pose proof (sequence_new_inv _ _ Hq) as [-> Hpos].
  pose proof (owner_word s o (proj2 Hs) Ho) as Hw. apply owner_valid in Ho as [He Hi].
  apply owner_epoch_new_inv in He as [_ Hep]. split_and!.
  - done.
  - by eapply sound_session_id.
  - by split.
  - split; [done|]. apply Hs.
  - exact Hi.
Qed.
