(* ===== verification/Router.v ===== *)
(** * Routing to the leader of a static cluster ([agent-broker-client/src/router.rs])

    The router asks the operations listener of each of three nodes whether it is
    ready for writes, and sends a frame, serialized once, to the only one that
    is.  Sockets are the class [Network] of the client. *)

From stdpp Require Import pretty.
From S2P Require Import Prelude Values Messages Display Wire Sessions Service Dispatch.
From S2P Require Import Json WireSchema WireV1 WireVersions Server SessionStore Client.

Record StaticClusterNode := MkNode {
  sn_node_id : N;
  sn_broker_address : SocketAddr;
  sn_operations_address : SocketAddr;
}.

(** The source has an array of three nodes. *)
Record StaticClusterRouterConfig := {
  sr_nodes : list StaticClusterNode;
  sr_timeout : N;
  sr_max_response_frame_bytes : N;
  sr_max_attempts : nat;
}.

Inductive StaticClusterRoutingError :=
  | RouterInvalidConfiguration (reason : string)
  | InvalidOperationsResponse (node_id : N) (reason : string)
  | NoWriteReadyLeader
  | MultipleWriteReadyLeaders (node_ids : list N)
  | RoutingClient (e : ClientError).

(** [{node_ids:?}] *)
Definition debug_ids (ids : list N) : string := "[" +:+ String.concat ", " (map pretty ids) +:+ "]".

Definition StaticClusterRoutingError_fmt (e : StaticClusterRoutingError) : string :=
  match e with
  | RouterInvalidConfiguration reason =>
      "invalid static cluster router configuration: " +:+ reason
  | InvalidOperationsResponse node_id reason =>
      "invalid operations-v1 response from node " +:+ pretty node_id +:+ ": " +:+ reason
  | NoWriteReadyLeader => "static cluster has no observed write-ready leader"
  | MultipleWriteReadyLeaders node_ids =>
      "static cluster reported multiple write-ready leaders: " +:+ debug_ids node_ids
  | RoutingClient e => to_string e
  end.

(** ** Configuration *)

Definition StaticClusterRouterConfig_default : StaticClusterRouterConfig := {|
  sr_nodes := [MkNode 1 (MkAddr "127.0.0.1:8811" true) (MkAddr "127.0.0.1:9811" true);
               MkNode 2 (MkAddr "127.0.0.1:8812" true) (MkAddr "127.0.0.1:9812" true);
               MkNode 3 (MkAddr "127.0.0.1:8813" true) (MkAddr "127.0.0.1:9813" true)];
  sr_timeout := 2 * 1000000000;
  sr_max_response_frame_bytes := 128 * 1024;
  sr_max_attempts := 3 |}.

Definition validate_node (node : StaticClusterNode) : result unit StaticClusterRoutingError :=
  if sn_node_id node =? 0
  then Err (RouterInvalidConfiguration "static cluster node_id must be positive")
  else if negb (sa_is_loopback (sn_broker_address node)) ||
          negb (sa_is_loopback (sn_operations_address node))
  then Err (RouterInvalidConfiguration
    "static cluster Broker and operations addresses must be loopback-only")
  else if bool_decide (sn_broker_address node = sn_operations_address node)
  then Err (RouterInvalidConfiguration
    "static cluster Broker and operations addresses must be distinct")
  else Ok tt.

Fixpoint validate_nodes (nodes : list StaticClusterNode) : result unit StaticClusterRoutingError :=
  match nodes with
  | [] => Ok tt
  | node :: nodes => let^ _ := validate_node node in validate_nodes nodes
  end.

Definition clash (a b : StaticClusterNode) : bool :=
  (sn_node_id a =? sn_node_id b) ||
  bool_decide (sn_broker_address a = sn_broker_address b) ||
  bool_decide (sn_operations_address a = sn_operations_address b).

(** The two loops over the pairs [left < right]. *)
Fixpoint distinct_nodes (nodes : list StaticClusterNode) : result unit StaticClusterRoutingError :=
  match nodes with
  | [] => Ok tt
  | node :: rest =>
      if existsb (clash node) rest
      then Err (RouterInvalidConfiguration
        "static cluster node IDs and endpoint addresses must be unique")
      else distinct_nodes rest
  end.

Definition validate_router (c : StaticClusterRouterConfig) :
    result StaticClusterRouterConfig StaticClusterRoutingError :=
  if sr_timeout c =? 0
  then Err (RouterInvalidConfiguration "static cluster router timeout must be positive")
  else if negb ((CLIENT_MIN_FRAME_BYTES <=? sr_max_response_frame_bytes c) &&
                (sr_max_response_frame_bytes c <=? CLIENT_MAX_FRAME_BYTES))
  then Err (RouterInvalidConfiguration
    "static cluster router max_response_frame_bytes must be in 4096..=1048576")
  else
  let^ _ := validate_nodes (sr_nodes c) in
  let^ _ := distinct_nodes (sr_nodes c) in
  Ok c.

(** ** Readiness reports *)

Definition ROUTER_SCHEMA_VERSION : N := 1.

Definition quoted (s : string) : string :=
  String (Ascii.ascii_of_N 34) (s +:+ String (Ascii.ascii_of_N 34) EmptyString).

Definition OPERATIONS_READINESS_REQUEST : bytes :=
  (String.list_ascii_of_string ("{" +:+ quoted "schema_version" +:+ ":1," +:+ quoted "operation" +:+
     ":" +:+ quoted "readiness" +:+ "}") ++ [newline])%list.

Definition get_u64 (k : string) (object : list (string * Value)) : option N :=
  v ← obj_get k object; as_u64 v.

Definition get_bool (k : string) (object : list (string * Value)) : option bool :=
  v ← obj_get k object; as_bool v.

Definition get_text (k : string) (object : list (string * Value)) : option string :=
  v ← obj_get k object; as_string v.

Definition get_object (k : string) (object : list (string * Value)) :
    option (list (string * Value)) :=
  v ← obj_get k object; as_object v.

(** What a write-ready report must also say. *)
Definition validate_authority (node : StaticClusterNode) (object : list (string * Value)) :
    result (option unit) StaticClusterRoutingError :=
  let invalid reason := InvalidOperationsResponse (sn_node_id node) reason in
  if negb (bool_decide (get_bool "live" object = Some true)) ||
     negb (bool_decide (get_text "reason" object = Some "ready")) ||
     negb (bool_decide (get_bool "maintenance_authority" object = Some true))
  then Err (invalid "write-ready response lacked live/ready/maintenance authority") else
  let^ consensus := ok_or (get_object "consensus" object)
    (invalid "consensus must be an object") in
  if negb (bool_decide (get_text "status" consensus = Some "ready")) ||
     negb (bool_decide (get_bool "write_ready" consensus = Some true))
  then Err (invalid "write-ready response had non-ready consensus") else
  let^ progress := ok_or (get_object "progress" consensus)
    (invalid "write-ready consensus lacked progress") in
  let^ reported_node := ok_or (get_u64 "node_id" progress)
    (invalid "progress.node_id must be unsigned") in
  let^ current_leader := ok_or (get_u64 "current_leader" progress)
    (invalid "progress.current_leader must be unsigned") in
  if negb (reported_node =? sn_node_id node) || negb (current_leader =? sn_node_id node)
  then Err (invalid ("write-ready identity mismatch: configured=" +:+ pretty (sn_node_id node) +:+
         ", reported=" +:+ pretty reported_node +:+ ", current_leader=" +:+ pretty current_leader))
  else Ok (Some tt).

Definition validate_readiness (node : StaticClusterNode) (value : Value) :
    result (option unit) StaticClusterRoutingError :=
  let invalid reason := InvalidOperationsResponse (sn_node_id node) reason in
  let^ object := ok_or (as_object value) (invalid "response must be a JSON object") in
  if negb (bool_decide (get_u64 "schema_version" object = Some ROUTER_SCHEMA_VERSION)) ||
     negb (bool_decide (get_text "operation" object = Some "readiness"))
  then Err (invalid "schema_version/operation mismatch") else
  let^ write_ready := ok_or (get_bool "write_ready" object)
    (invalid "write_ready must be boolean") in
  if negb write_ready then Ok None else validate_authority node object.

Inductive OperationsReadError := ReadTransport | ReadFrameTooLarge.

Fixpoint read_bounded_operations_frame (max_bytes : N) (reader : list (result bytes string))
    (frame : bytes) : result bytes OperationsReadError :=
  match reader with
  | [] | Err _ :: _ | Ok [] :: _ => Err ReadTransport
  | Ok available :: rest =>
      let consumed :=
        match newline_position available with
        | Some position => S position
        | None => length available
        end in
      if max_bytes <? len frame + N.of_nat consumed then Err ReadFrameTooLarge else
      let frame := (frame ++ take consumed available)%list in
      match newline_position available with
      | Some _ => Ok frame
      | None => read_bounded_operations_frame max_bytes rest frame
      end
  end.

(** ** Discovery and routing *)

Definition should_rediscover (e : ClientError) : bool :=
  match e with
  | Transport _ => true
  | Broker e => bool_decide (be_disposition e = DispUnknown)
  | Protocol _ | UnexpectedPayload _ | RequestIdExhausted => false
  end.

Record StaticClusterRouter := MkRouter {
  sr_config : StaticClusterRouterConfig;
  sr_request_sequence : N;
}.

Definition StaticClusterRouter_new (config : StaticClusterRouterConfig) :
    result StaticClusterRouter StaticClusterRoutingError :=
  let^ config := validate_router config in Ok (MkRouter config 0).

Definition router_next_request_id (r : StaticClusterRouter) :
    result RequestId StaticClusterRoutingError * StaticClusterRouter :=
  let? sequence := ok_or (checked_add (sr_request_sequence r) 1)
    (RoutingClient RequestIdExhausted) else r in
  (map_err (λ e, RoutingClient (Protocol (CodecInvalidRequest (to_string e))))
     (RequestId_new ("rust-cluster-router-" +:+ pretty sequence)),
   MkRouter (sr_config r) sequence).

Section router.
Context `{J : SerdeJson} {W : Type} `{Net : Network W}.

(** What the frame that came back says; an unreachable node is unavailable. *)
Definition read_report (node : StaticClusterNode) (max : N) (reader : list (result bytes string)) :
    result (option unit) StaticClusterRoutingError :=
  match read_bounded_operations_frame max reader [] with
  | Err ReadTransport => Ok None
  | Err ReadFrameTooLarge =>
      Err (InvalidOperationsResponse (sn_node_id node) "response frame exceeded configured bound")
  | Ok frame =>
      let^ value := map_err
        (λ e, InvalidOperationsResponse (sn_node_id node) ("invalid JSON: " +:+ e))
        (from_slice "Value" as_value frame) in
      validate_readiness node value
  end.

Definition probe_operations (node : StaticClusterNode) (max : N) (w : W) :
    result (option unit) StaticClusterRoutingError * W :=
  match nw_connect (sn_operations_address node) w with
  | (Err _, w) => (Ok None, w)
  | (Ok _, w) =>
      match nw_send OPERATIONS_READINESS_REQUEST w with
      | (Err _, w) => (Ok None, w)
      | (Ok reader, w) => (read_report node max reader, w)
      end
  end.

(** The loop over the nodes, with those found ready before. *)
Fixpoint probe_nodes (max : N) (nodes ready : list StaticClusterNode) (w : W) :
    result (list StaticClusterNode) StaticClusterRoutingError * W :=
  match nodes with
  | [] => (Ok ready, w)
  | node :: nodes =>
      let! found, w := probe_operations node max w in
      probe_nodes max nodes
        (match found with Some _ => ready ++ [node] | None => ready end) w
  end.

Definition single_leader (ready : list StaticClusterNode) :
    result StaticClusterNode StaticClusterRoutingError :=
  match ready with
  | [leader] => Ok leader
  | [] => Err NoWriteReadyLeader
  | _ => Err (MultipleWriteReadyLeaders (map sn_node_id ready))
  end.

Definition discover_write_leader (c : StaticClusterRouterConfig) (w : W) :
    result StaticClusterNode StaticClusterRoutingError * W :=
  let! ready, w := probe_nodes (sr_max_response_frame_bytes c) (sr_nodes c) [] w in
  (single_leader ready, w).

(** One attempt on the leader: a client of its own and one round trip. *)
Definition send_to_leader {T} (c : StaticClusterRouterConfig) (leader : StaticClusterNode)
    (frame : bytes) (decode : bytes → result T ClientError) (w : W) :
    result (result T ClientError) StaticClusterRoutingError * W :=
  let? client := map_err RoutingClient (BrokerClient_new {|
      bcc_address := sn_broker_address leader; bcc_timeout := sr_timeout c;
      bcc_max_response_frame_bytes := sr_max_response_frame_bytes c |}) else w in
  let '(response, (_, w)) := round_trip_frame frame (client, w) in
  (Ok (let^ response := response in decode response), w).

(** The loop of [route_exact_frame] over the attempts that are left. *)
Fixpoint route_exact_frame {T} (c : StaticClusterRouterConfig) (frame : bytes)
    (decode : bytes → result T ClientError) (attempts : nat) (w : W) :
    result T StaticClusterRoutingError * W :=
  match attempts with
  | O => (Err NoWriteReadyLeader, w)
  | S more =>
      let! leader, w := discover_write_leader c w in
      let! outcome, w := send_to_leader c leader frame decode w in
      match outcome with
      | Ok value => (Ok value, w)
      | Err e =>
          if should_rediscover e && negb (Nat.eqb more 0)
          then route_exact_frame c frame decode more w
          else (Err (RoutingClient e), w)
      end
  end.

Definition router_acquire_owner (session_id : CommandSessionId)
    (expected_owner_epoch : SessionOwnerEpoch) (owner_instance_id : SessionOwnerInstanceId)
    (r : StaticClusterRouter) (w : W) :
    result SessionOwnerEpoch StaticClusterRoutingError * (StaticClusterRouter * W) :=
  let c := sr_config r in
  let max := sr_max_response_frame_bytes c in
  let '(id, r) := router_next_request_id r in
  let? request_id := id else (r, w) in
  let request := {| oa_request_id := request_id; oa_session_id := session_id;
                    oa_expected_owner_epoch := expected_owner_epoch;
                    oa_owner_instance_id := owner_instance_id |} in
  let? frame := map_err (λ e, RoutingClient (Protocol e))
    (encode_owner_acquisition_request_with_limit request max) else (r, w) in
  let '(epoch, w) := route_exact_frame c frame
    (λ response, map_err response_error_to_client
       (decode_owner_acquisition_response_with_limit response request_id max))
    (sr_max_attempts c) w in
  (epoch, (r, w)).

Definition router_execute_owned (identity : CommandIdentity) (request : BrokerRequest)
    (r : StaticClusterRouter) (w : W) : result SuccessPayload StaticClusterRoutingError * W :=
  let c := sr_config r in
  let max := sr_max_response_frame_bytes c in
  let? owned := map_err (λ e, RoutingClient (Protocol e)) (OwnerIdentified_new identity request)
    else w in
  let? frame := map_err (λ e, RoutingClient (Protocol e))
    (encode_owner_mutation_request_with_limit owned max) else w in
  route_exact_frame c frame
    (λ response, map_err response_error_to_client
       (decode_owner_mutation_response_with_limit response (request_request_id request)
          (request_operation request) max))
    (sr_max_attempts c) w.

End router.
