(* ===== verification/AsyncClient.v ===== *)
(** * The asynchronous client ([agent-broker-client/src/async_client.rs],
    [async_session_store.rs], [async_router.rs])

    One connection per request under one deadline: a socket operation that the
    deadline cuts off reports the error of the deadline.  [in_instant_range] says
    whether the deadline is representable.  The store is the synchronous one on
    the blocking pool, behind a gate of one permit.  The probes of the three nodes
    run concurrently on sockets of their own; here they run one after the other,
    and all of them, before any result is looked at. *)

From stdpp Require Import pretty.
From S2P Require Import Prelude Values Task Group Messages Display Wire Sessions Service Dispatch.
From S2P Require Import Json WireSchema WireV1 WireVersions Server SessionStore Client Durable Router.

(** ** The store behind its gate *)

(** What becomes of a call on the blocking pool: it runs, or the gate is closed,
    or an earlier call panicked under the lock, or the task fails, before the
    call or after it. *)
Inductive BlockingFate :=
  | BlockingRuns
  | GateClosed
  | LockPoisoned
  | JoinFailed (ran : bool) (e : string).

Definition join_error (e : string) : ClientSessionStoreError :=
  InvalidState ("async durable client session blocking task failed: " +:+ e).

Definition with_store {A} (fate : BlockingFate)
    (operation : Local → result A ClientSessionStoreError * Local) (l : Local) :
    result A ClientSessionStoreError * Local :=
  match fate with
  | BlockingRuns => operation l
  | GateClosed => (Err (InvalidState
      "async durable client session admission gate closed unexpectedly"), l)
  | LockPoisoned => (Err (InvalidState
      "async durable client session store lock was poisoned"), l)
  | JoinFailed ran e => (Err (join_error e), if ran then (operation l).2 else l)
  end.

Section store.
Context `{J : SerdeJson}.

Definition async_open_or_create (fate : BlockingFate) (io : option StoreFault)
    (session_id : CommandSessionId) (d : SessionFile) :
    result DurableClientSessionStore ClientSessionStoreError * SessionFile :=
  match fate with
  | JoinFailed ran e =>
      (Err (join_error e), if ran then (open_or_create io session_id d).2 else d)
  | _ => open_or_create io session_id d
  end.

(** A reader leaves the store as it is. *)
Definition reading {A} (read : DurableClientSessionStore → result A ClientSessionStoreError)
    (l : Local) : result A ClientSessionStoreError * Local := (read l.1, l).

Definition async_next_sequence (fate : BlockingFate) := with_store fate (reading next_sequence).
Definition async_owner (fate : BlockingFate) := with_store fate (reading owner).
Definition async_pending_owner_acquisition (fate : BlockingFate) :=
  with_store fate (reading pending_owner_acquisition).
Definition async_in_flight (fate : BlockingFate) := with_store fate (reading in_flight).

Definition async_begin_owner_acquisition (fate : BlockingFate) (io : option StoreFault)
    (owner_instance_id : SessionOwnerInstanceId) :=
  with_store fate (begin_owner_acquisition io owner_instance_id).

Definition async_confirm_owner_acquisition (fate : BlockingFate) (io : option StoreFault)
    (owner_epoch : SessionOwnerEpoch) :=
  with_store fate (confirm_owner_acquisition io owner_epoch).

Definition async_reserve_command (fate : BlockingFate) (io : option StoreFault)
    (request : BrokerRequest) := with_store fate (reserve_command io request).

Definition async_acknowledge_in_flight_outcome (fate : BlockingFate) (io : option StoreFault)
    (identity : CommandIdentity) := with_store fate (acknowledge_in_flight_outcome io identity).

Definition async_release_rejected_in_flight (fate : BlockingFate) (io : option StoreFault)
    (identity : CommandIdentity) := with_store fate (release_rejected_in_flight io identity).

End store.

(** ** The client *)

Record AsyncBrokerClient := MkAsync {
  ac_config : BrokerClientConfig;
  ac_request_sequence : N;
}.

Definition instant_range_error : ClientError :=
  Transport "Broker async timeout exceeds the platform instant range".

Definition AsyncBrokerClient_new (in_instant_range : bool) (config : BrokerClientConfig) :
    result AsyncBrokerClient ClientError :=
  let^ config := validate_client config in
  if in_instant_range then Ok (MkAsync config 0) else Err instant_range_error.

(** [fetch_update] on the shared counter. *)
Definition async_next_request_id (c : AsyncBrokerClient) :
    result RequestId ClientError * AsyncBrokerClient :=
  let? sequence := ok_or (checked_add (ac_request_sequence c) 1) RequestIdExhausted else c in
  (map_err (λ e, Protocol (CodecInvalidRequest (to_string e)))
     (RequestId_new ("rust-async-client-" +:+ pretty sequence)),
   MkAsync (ac_config c) sequence).

Section client.
Context `{J : SerdeJson} {W : Type} `{Net : Network W} (in_instant_range : bool).

Definition async_round_trip_encoded (config : BrokerClientConfig) (frame : bytes) (w : W) :
    result bytes ClientError * W :=
  if negb in_instant_range then (Err instant_range_error, w) else
  let '(connected, w) := nw_connect (bcc_address config) w in
  let? _ := map_err Transport connected else w in
  let '(sent, w) := nw_send frame w in
  let? delivered := map_err Transport sent else w in
  ((read_bounded_frame (bcc_max_response_frame_bytes config) delivered []).1, w).

Definition async_execute (config : BrokerClientConfig) (request : BrokerRequest) (w : W) :
    result SuccessPayload ClientError * W :=
  let? frame := map_err Protocol (encode_request request) else w in
  let! response, w := async_round_trip_encoded config frame w in
  (map_err response_error_to_client
     (decode_response_for_operation_with_limit response (request_request_id request)
        (request_operation request) (bcc_max_response_frame_bytes config)), w).

Definition async_execute_identified (config : BrokerClientConfig) (identity : CommandIdentity)
    (request : BrokerRequest) (w : W) : result SuccessPayload ClientError * W :=
  let? identified := map_err Protocol (Identified_new identity request) else w in
  let? frame := map_err Protocol (encode_identified_request identified) else w in
  let! response, w := async_round_trip_encoded config frame w in
  (map_err response_error_to_client
     (decode_response_v2_for_operation_with_limit response (request_request_id request)
        (request_operation request) (bcc_max_response_frame_bytes config)), w).

Definition async_acquire_owner_with_request_id (config : BrokerClientConfig)
    (request_id : RequestId) (session_id : CommandSessionId)
    (expected_owner_epoch : SessionOwnerEpoch) (owner_instance_id : SessionOwnerInstanceId)
    (w : W) : result SessionOwnerEpoch ClientError * W :=
  let max := bcc_max_response_frame_bytes config in
  let request := {| oa_request_id := request_id; oa_session_id := session_id;
                    oa_expected_owner_epoch := expected_owner_epoch;
                    oa_owner_instance_id := owner_instance_id |} in
  let? frame := map_err Protocol (encode_owner_acquisition_request_with_limit request max) else w in
  let! response, w := async_round_trip_encoded config frame w in
  (map_err response_error_to_client
     (decode_owner_acquisition_response_with_limit response request_id max), w).

(** An attempt with the frame of an owner-aware mutation. *)
Definition async_owned_attempt (config : BrokerClientConfig) (request : BrokerRequest)
    (frame : bytes) (w : W) : result SuccessPayload ClientError * W :=
  let! response, w := async_round_trip_encoded config frame w in
  (map_err response_error_to_client
     (decode_owner_mutation_response_with_limit response (request_request_id request)
        (request_operation request) (bcc_max_response_frame_bytes config)), w).

Definition async_execute_owned (config : BrokerClientConfig) (identity : CommandIdentity)
    (request : BrokerRequest) (w : W) : result SuccessPayload ClientError * W :=
  let? owned := map_err Protocol (OwnerIdentified_new identity request) else w in
  let? frame := map_err Protocol
    (encode_owner_mutation_request_with_limit owned (bcc_max_response_frame_bytes config)) else w in
  async_owned_attempt config request frame w.

(** The frame is serialized once, before the first attempt; [settle_fate] is the
    fate of the store call that settles the outcome. *)
Definition async_execute_reserved_durable (config : BrokerClientConfig)
    (settle_fate : BlockingFate) (io : option StoreFault) (reserved : ReservedCommand)
    (attempts : nat) (w : W) (l : Local) :
    result SuccessPayload DurableExecutionError * (W * Local) :=
  let identity := rv_identity reserved in
  let request := rv_request reserved in
  let failed e := DurableClient (Protocol e) in
  let? owned := map_err failed (OwnerIdentified_new identity request) else (w, l) in
  let? frame := map_err failed
    (encode_owner_mutation_request_with_limit owned (bcc_max_response_frame_bytes config))
    else (w, l) in
  retry_attempts "async durable retry loop exhausted without returning a classified outcome"
    (async_owned_attempt config request frame)
    (async_acknowledge_in_flight_outcome settle_fate io identity)
    (async_release_rejected_in_flight settle_fate io identity) attempts w l.

Definition async_execute_durable (config : BrokerClientConfig) (fate settle_fate : BlockingFate)
    (io_reserve io : option StoreFault) (request : BrokerRequest) (max_attempts : nat) (w : W)
    (l : Local) : result SuccessPayload DurableExecutionError * (W * Local) :=
  let '(reserved, l) := async_reserve_command fate io_reserve request l in
  let? reserved := map_err DurableStore reserved else (w, l) in
  async_execute_reserved_durable config settle_fate io reserved max_attempts w l.

Definition async_recover_durable_in_flight (config : BrokerClientConfig)
    (fate settle_fate : BlockingFate) (io : option StoreFault) (max_attempts : nat) (w : W)
    (l : Local) :
    result SuccessPayload DurableExecutionError * (W * Local) :=
  let '(reserved, l) := async_in_flight fate l in
  let? reserved := map_err DurableStore reserved else (w, l) in
  let? reserved := ok_or reserved (DurableStore (InvalidState
    "cannot recover durable execution without an in-flight command")) else (w, l) in
  async_execute_reserved_durable config settle_fate io reserved max_attempts w l.

(** ** The typed operations *)

Definition async_typed {A} (build : RequestId → BrokerRequest)
    (convert : SuccessPayload → result A ClientError) (s : AsyncBrokerClient * W) :
    result A ClientError * (AsyncBrokerClient * W) :=
  let '(id, c) := async_next_request_id s.1 in
  let? request_id := id else (c, s.2) in
  let '(executed, w) := async_execute (ac_config c) (build request_id) s.2 in
  let? payload := executed else (c, w) in
  (convert payload, (c, w)).

Definition async_acquire_owner (session_id : CommandSessionId)
    (expected_owner_epoch : SessionOwnerEpoch) (owner_instance_id : SessionOwnerInstanceId)
    (s : AsyncBrokerClient * W) : result SessionOwnerEpoch ClientError * (AsyncBrokerClient * W) :=
  let '(id, c) := async_next_request_id s.1 in
  let? request_id := id else (c, s.2) in
  let '(epoch, w) := async_acquire_owner_with_request_id (ac_config c) request_id session_id
    expected_owner_epoch owner_instance_id s.2 in
  (epoch, (c, w)).

Definition async_health := async_typed (λ id, ReqHealth {| qq_request_id := id |}) health_result.

Definition async_ensure_namespace (namespace_id : NamespaceId) :=
  async_typed (λ id, ReqEnsureNamespace {| qn_request_id := id; qn_namespace_id := namespace_id |})
    namespace_result.

Definition async_publish_task (namespace_id : NamespaceId) (task_id : TaskId)
    (objective : TaskObjective) :=
  async_typed (λ id, ReqPublishTask {| qp_request_id := id; qp_namespace_id := namespace_id;
                                       qp_task_id := task_id; qp_objective := objective |})
    task_published_result.

Definition async_ensure_consumer_group (namespace_id : NamespaceId) (group_id : ConsumerGroupId) :=
  async_typed (λ id, ReqEnsureConsumerGroup {| qg_request_id := id;
                 qg_namespace_id := namespace_id; qg_group_id := group_id |})
    client_consumer_group_result.

Definition async_join_consumer_group (group_id : ConsumerGroupId) (member_id : ConsumerId)
    (capabilities : DeclaredCapabilities) :=
  async_typed (λ id, ReqJoinConsumerGroup {| qj_request_id := id; qj_group_id := group_id;
                 qj_member_id := member_id; qj_capabilities := capabilities |})
    client_consumer_group_result.

Definition async_heartbeat (group_id : ConsumerGroupId) (member_id : ConsumerId)
    (expected_generation : Generation) :=
  async_typed (λ id, ReqHeartbeat {| qh_request_id := id; qh_group_id := group_id;
                 qh_member_id := member_id; qh_expected_generation := expected_generation |})
    heartbeat_result.

Definition async_leave_consumer_group (group_id : ConsumerGroupId) (member_id : ConsumerId)
    (expected_generation : Generation) :=
  async_typed (λ id, ReqLeaveConsumerGroup {| ql_request_id := id; ql_group_id := group_id;
                 ql_member_id := member_id; ql_expected_generation := expected_generation |})
    client_consumer_group_result.

Definition async_claim_task (input : ClaimInput) :=
  async_typed (λ id, ReqClaimTask {| qc_request_id := id; qc_group_id := cin_group_id input;
      qc_member_id := cin_member_id input; qc_expected_term := cin_expected_term input;
      qc_expected_generation := cin_expected_generation input;
      qc_lease_id := cin_lease_id input; qc_lease_duration := cin_lease_duration input |})
    client_task_claim_result.

Definition async_renew_task_lease (input : RenewInput) :=
  async_typed (λ id, ReqRenewTaskLease {| qr_request_id := id; qr_task_id := rin_task_id input;
      qr_group_id := rin_group_id input; qr_member_id := rin_member_id input;
      qr_expected_term := rin_expected_term input;
      qr_expected_generation := rin_expected_generation input;
      qr_expected_lease_epoch := rin_expected_lease_epoch input;
      qr_lease_id := rin_lease_id input; qr_lease_duration := rin_lease_duration input |})
    task_lease_renewed_result.

Definition async_complete_task (input : CompleteInput) :=
  async_typed (λ id, ReqCompleteTask {| qd_request_id := id; qd_task_id := pin_task_id input;
      qd_group_id := pin_group_id input; qd_member_id := pin_member_id input;
      qd_expected_term := pin_expected_term input;
      qd_expected_generation := pin_expected_generation input;
      qd_expected_lease_epoch := pin_expected_lease_epoch input;
      qd_lease_id := pin_lease_id input; qd_result := pin_result input |})
    task_completed_result.

(** ** The router *)

Definition AsyncStaticClusterRouter_new (config : StaticClusterRouterConfig) :
    result StaticClusterRouter StaticClusterRoutingError :=
  let^ config := validate_router config in
  if in_instant_range then Ok (MkRouter config 0)
  else Err (RouterInvalidConfiguration
    "static cluster async timeout exceeds the platform instant range").

Definition async_router_next_request_id (r : StaticClusterRouter) :
    result RequestId StaticClusterRoutingError * StaticClusterRouter :=
  let? sequence := ok_or (checked_add (sr_request_sequence r) 1)
    (RoutingClient RequestIdExhausted) else r in
  (map_err (λ e, RoutingClient (Protocol (CodecInvalidRequest (to_string e))))
     (RequestId_new ("rust-async-cluster-router-" +:+ pretty sequence)),
   MkRouter (sr_config r) sequence).

Definition async_probe_operations (node : StaticClusterNode) (max : N) (w : W) :
    result bool StaticClusterRoutingError * W :=
  if negb in_instant_range then (Err (RouterInvalidConfiguration
    "static cluster async timeout exceeds the platform instant range"), w) else
  match nw_connect (sn_operations_address node) w with
  | (Err _, w) => (Ok false, w)
  | (Ok _, w) =>
      match nw_send OPERATIONS_READINESS_REQUEST w with
      | (Err _, w) => (Ok false, w)
      | (Ok reader, w) => (map_ok present (read_report node max reader), w)
      end
  end.

(** [tokio::join!] of the probes. *)
Fixpoint async_probe_all (max : N) (nodes : list StaticClusterNode) (w : W) :
    list (StaticClusterNode * result bool StaticClusterRoutingError) * W :=
  match nodes with
  | [] => ([], w)
  | node :: nodes =>
      let '(r, w) := async_probe_operations node max w in
      let '(rs, w) := async_probe_all max nodes w in
      ((node, r) :: rs, w)
  end.

(** The loop over the results. *)
Fixpoint async_ready (results : list (StaticClusterNode * result bool StaticClusterRoutingError))
    (ready : list StaticClusterNode) : result (list StaticClusterNode) StaticClusterRoutingError :=
  match results with
  | [] => Ok ready
  | (node, r) :: results =>
      let^ found := r in
      async_ready results (if found : bool then ready ++ [node] else ready)
  end.

Definition async_discover_write_leader (c : StaticClusterRouterConfig) (w : W) :
    result StaticClusterNode StaticClusterRoutingError * W :=
  let '(results, w) := async_probe_all (sr_max_response_frame_bytes c) (sr_nodes c) w in
  let? ready := async_ready results [] else w in
  (single_leader ready, w).

Fixpoint async_route_exact_frame {T} (c : StaticClusterRouterConfig) (frame : bytes)
    (decode : bytes → result T ClientError) (attempts : nat) (w : W) :
    result T StaticClusterRoutingError * W :=
  match attempts with
  | O => (Err NoWriteReadyLeader, w)
  | S more =>
      let! leader, w := async_discover_write_leader c w in
      let? client := map_err RoutingClient (AsyncBrokerClient_new in_instant_range {|
        bcc_address := sn_broker_address leader; bcc_timeout := sr_timeout c;
        bcc_max_response_frame_bytes := sr_max_response_frame_bytes c |}) else w in
      let '(response, w) := async_round_trip_encoded (ac_config client) frame w in
      match (let^ response := response in decode response) with
      | Ok value => (Ok value, w)
      | Err e =>
          if should_rediscover e && negb (Nat.eqb more 0)
          then async_route_exact_frame c frame decode more w
          else (Err (RoutingClient e), w)
      end
  end.

Definition async_router_acquire_owner_with_request_id (request_id : RequestId)
    (session_id : CommandSessionId) (expected_owner_epoch : SessionOwnerEpoch)
    (owner_instance_id : SessionOwnerInstanceId) (r : StaticClusterRouter) (w : W) :
    result SessionOwnerEpoch StaticClusterRoutingError * W :=
  let c := sr_config r in
  let max := sr_max_response_frame_bytes c in
  let request := {| oa_request_id := request_id; oa_session_id := session_id;
                    oa_expected_owner_epoch := expected_owner_epoch;
                    oa_owner_instance_id := owner_instance_id |} in
  let? frame := map_err (λ e, RoutingClient (Protocol e))
    (encode_owner_acquisition_request_with_limit request max) else w in
  async_route_exact_frame c frame
    (λ response, map_err response_error_to_client
       (decode_owner_acquisition_response_with_limit response request_id max))
    (sr_max_attempts c) w.

Definition async_router_acquire_owner (session_id : CommandSessionId)
    (expected_owner_epoch : SessionOwnerEpoch) (owner_instance_id : SessionOwnerInstanceId)
    (r : StaticClusterRouter) (w : W) :
    result SessionOwnerEpoch StaticClusterRoutingError * (StaticClusterRouter * W) :=
  let '(id, r) := async_router_next_request_id r in
  let? request_id := id else (r, w) in
  let '(epoch, w) := async_router_acquire_owner_with_request_id request_id session_id
    expected_owner_epoch owner_instance_id r w in
  (epoch, (r, w)).

Definition async_router_execute_owned (identity : CommandIdentity) (request : BrokerRequest)
    (r : StaticClusterRouter) (w : W) : result SuccessPayload StaticClusterRoutingError * W :=
  let c := sr_config r in
  let max := sr_max_response_frame_bytes c in
  let? owned := map_err (λ e, RoutingClient (Protocol e)) (OwnerIdentified_new identity request)
    else w in
  let? frame := map_err (λ e, RoutingClient (Protocol e))
    (encode_owner_mutation_request_with_limit owned max) else w in
  async_route_exact_frame c frame
    (λ response, map_err response_error_to_client
       (decode_owner_mutation_response_with_limit response (request_request_id request)
          (request_operation request) max))
    (sr_max_attempts c) w.

End client.

(** ** Durable commands of the asynchronous client *)

(** The store after a failed call of the blocking pool: as it was, or with the
    command settled by a call whose reply was lost. *)
Definition maybe_settled (reserved : ReservedCommand) (l l' : Local) : Prop :=
  l'.1 = l.1 ∨ cleared (ci_sequence (rv_identity reserved) + 1) l'.1 ∨
  cleared (ps_next_sequence (ds_state l.1)) l'.1.

Section durable.
Context {J : SerdeJson} {L : SerdeJsonLaws J} {W : Type} {Net : Network W}.
Context {Srv : SessionNetwork W}.
Context (in_instant_range : bool).

Lemma async_attempt_outcome config i request f w r w' :
  valid_owned i request → bcc_max_response_frame_bytes config = sn_limit →
  encode_owner_mutation_request_with_limit (MkOwnerIdentified i request) sn_limit = Ok f →
  async_owned_attempt in_instant_range config request f w = (r, w') →
  attempt_outcome i request r (sn_machine w) (sn_machine w').
Proof.
  intros Hv Hlim Hf. unfold async_owned_attempt, async_round_trip_encoded, attempt_outcome.
  rewrite Hlim. destruct in_instant_range; cbn [negb]; [|by intros [= <- <-]].
  pose proof (sn_connects (bcc_address config) w) as H1.
  destruct (nw_connect _ w) as [[u|e] w1]; cbn [map_err snd] in *; [|by intros [= <- <-]].
  pose proof (sn_sends f w1) as H2. pose proof (evolves_trans _ _ _ H1 H2) as H12.
  destruct (nw_send f w1) as [[reads|e] w2] eqn:Hsend; cbn [map_err snd] in *; [|by intros [= <- <-]].
  destruct (read_bounded_frame sn_limit reads []) as [line rest] eqn:Hread.
  pose proof (read_bounded_error _ _ _ _ _ Hread) as Hnb. cbn [fst].
  destruct line as [line|e]; [|intros [= <- <-]; by destruct e].
  destruct (sn_answers i request f w1 reads w2 line rest Hv Hf Hsend Hread) as [_ Hans].
  destruct (decode_owner_mutation_response_with_limit _ _ _ _) as [payload|[e|e]];
    cbn [map_err response_error_to_client]; intros [= <- <-]; (split; [done|]); eauto.
Qed.

Lemma with_store_outcome {A} fate (operation : Local → result A ClientSessionStoreError * Local)
    reserved (next : N) l r l' :
  next = (ci_sequence (rv_identity reserved) + 1) ∨ next = ps_next_sequence (ds_state l.1) →
  (∀ r l', operation l = (r, l') →
     match r with Ok _ => cleared next l'.1 | Err _ => l'.1 = l.1 end) →
  with_store fate operation l = (r, l') →
  match r with Ok _ => cleared next l'.1 | Err _ => maybe_settled reserved l l' end.
Proof.
  intros Hn Ho. unfold with_store, maybe_settled.
  destruct (operation l) as [r0 l0] eqn:He. specialize (Ho _ _ eq_refl).
  destruct fate as [| | |[] e]; intros [= <- <-]; auto; cbn [snd].
  - destruct r0; auto.
  - destruct r0; [|auto]. destruct Hn as [-> | ->]; auto.
Qed.

Lemma async_durable_execution config fate io reserved n w l res w' l' m :
  valid_owned (rv_identity reserved) (rv_request reserved) →
  bcc_max_response_frame_bytes config = sn_limit → evolves m (sn_machine w) →
  in_flight l.1 = Ok (Some reserved) →
  async_execute_reserved_durable in_instant_range config fate io reserved n w l = (res, (w', l')) →
  evolves m (sn_machine w') ∧
  durable_outcome (maybe_settled reserved) reserved m (sn_machine w') res l l'.
Proof.
  intros Hv Hlim Hev Hf. unfold async_execute_reserved_durable. rewrite Hlim.
  destruct (OwnerIdentified_new _ _) as [owned|] eqn:Hown; [|by intros [= <- <- <-]].
  assert (owned = MkOwnerIdentified (rv_identity reserved) (rv_request reserved)) as ->.
  { unfold OwnerIdentified_new in Hown. repeat case_match; by simplify_eq. }
  cbn [map_err]. destruct (encode_owner_mutation_request_with_limit _ _) as [f|] eqn:He;
    [|by intros [= <- <- <-]]. cbn [map_err]. intros Hx.
  apply (retry_outcome sn_machine (λ _, True) reserved (maybe_settled reserved)) with (m := m)
    in Hx as (_ & Hout); try done; [by left|..].
  - intros x r x' _ Hx'. split; [done|]. by eapply async_attempt_outcome.
  - intros r l1. apply with_store_outcome; [by left|]. intros r0 l0. by apply acknowledge_outcome.
  - intros r l1. apply with_store_outcome; [by right|]. intros r0 l0. by apply release_outcome.
Qed.
End durable.
