(* ===== verification/JsonText.v ===== *)
(** * JSON text

    A printer and a parser of compact JSON text which satisfy [SerdeJsonLaws].
    They show that the laws can hold, and concrete runs of the wire layer are
    evaluated with them.  The printer escapes as [serde_json] does; the parser
    reads what the printer writes, and leaves white space between tokens,
    negative and fractional numbers and other escapes to the real one. *)

From Stdlib Require Import Ascii DecimalN.
From S2P Require Import Prelude Values Wire Json.

(** ** Numbers *)

Fixpoint digits_text (d : Decimal.uint) : bytes :=
  match d with
  | Decimal.Nil => []
  | Decimal.D0 d => "0"%char :: digits_text d
  | Decimal.D1 d => "1"%char :: digits_text d
  | Decimal.D2 d => "2"%char :: digits_text d
  | Decimal.D3 d => "3"%char :: digits_text d
  | Decimal.D4 d => "4"%char :: digits_text d
  | Decimal.D5 d => "5"%char :: digits_text d
  | Decimal.D6 d => "6"%char :: digits_text d
  | Decimal.D7 d => "7"%char :: digits_text d
  | Decimal.D8 d => "8"%char :: digits_text d
  | Decimal.D9 d => "9"%char :: digits_text d
  end.

Definition digit_of (c : Ascii.ascii) : option (Decimal.uint → Decimal.uint) :=
  match c with
  | "0"%char => Some Decimal.D0 | "1"%char => Some Decimal.D1 | "2"%char => Some Decimal.D2
  | "3"%char => Some Decimal.D3 | "4"%char => Some Decimal.D4 | "5"%char => Some Decimal.D5
  | "6"%char => Some Decimal.D6 | "7"%char => Some Decimal.D7 | "8"%char => Some Decimal.D8
  | "9"%char => Some Decimal.D9
  | _ => None
  end.

Fixpoint read_digits (b : bytes) : Decimal.uint * bytes :=
  match b with
  | [] => (Decimal.Nil, [])
  | c :: b' =>
      match digit_of c with
      | Some D => let '(d, rest) := read_digits b' in (D d, rest)
      | None => (Decimal.Nil, b)
      end
  end.

(** ** Strings *)

Definition hex_digit (n : N) : Ascii.ascii :=
  Ascii.ascii_of_N (if n <? 10 then 48 + n else 87 + n).

(** [ESCAPE] of [serde_json]. *)
Definition escape (c : Ascii.ascii) : bytes :=
  let n := Ascii.N_of_ascii c in
  if n =? 34 then ["\"%char; c]
  else if n =? 92 then ["\"%char; c]
  else if n =? 8 then ["\"%char; "b"%char]
  else if n =? 9 then ["\"%char; "t"%char]
  else if n =? 10 then ["\"%char; "n"%char]
  else if n =? 12 then ["\"%char; "f"%char]
  else if n =? 13 then ["\"%char; "r"%char]
  else if n <? 32
  then ["\"%char; "u"%char; "0"%char; "0"%char; hex_digit (n / 16); hex_digit (n mod 16)]
  else [c].

Definition quote_char : Ascii.ascii := Ascii.ascii_of_N 34.

Fixpoint string_text (s : string) : bytes :=
  match s with
  | EmptyString => [quote_char]
  | String c s => (escape c ++ string_text s)%list
  end.

Definition hex_value (c : Ascii.ascii) : option N :=
  let n := Ascii.N_of_ascii c in
  if (48 <=? n) && (n <=? 57) then Some (n - 48)
  else if (97 <=? n) && (n <=? 102) then Some (n - 87)
  else None.

(** The characters up to the closing quote. *)
Fixpoint read_chars (b : bytes) : option (string * bytes) :=
  let put c r := match r with Some (s, rest) => Some (String c s, rest) | None => None end in
  match b with
  | [] => None
  | c :: b =>
      let n := Ascii.N_of_ascii c in
      if n =? 34 then Some (EmptyString, b)
      else if n =? 92 then
        match b with
        | "b"%char :: b => put (Ascii.ascii_of_N 8) (read_chars b)
        | "t"%char :: b => put (Ascii.ascii_of_N 9) (read_chars b)
        | "n"%char :: b => put (Ascii.ascii_of_N 10) (read_chars b)
        | "f"%char :: b => put (Ascii.ascii_of_N 12) (read_chars b)
        | "r"%char :: b => put (Ascii.ascii_of_N 13) (read_chars b)
        | "u"%char :: "0"%char :: "0"%char :: h :: l :: b =>
            match hex_value h, hex_value l with
            | Some h, Some l => put (Ascii.ascii_of_N (16 * h + l)) (read_chars b)
            | _, _ => None
            end
        | c :: b =>
            if (Ascii.N_of_ascii c =? 34) || (Ascii.N_of_ascii c =? 92)
            then put c (read_chars b) else None
        | [] => None
        end
      else if n <? 32 then None
      else put c (read_chars b)
  end.

(** ** Values *)

Fixpoint json_text (v : Value) : bytes :=
  match v with
  | VNull => String.list_ascii_of_string "null"
  | VBool true => String.list_ascii_of_string "true"
  | VBool false => String.list_ascii_of_string "false"
  | VNumber n => digits_text (N.to_uint n)
  | VOther text => String.list_ascii_of_string text
  | VString s => quote_char :: string_text s
  | VArray vs =>
      "["%char :: match vs with
      | [] => ["]"%char]
      | v :: vs => json_text v ++ (fix tail vs :=
          match vs with
          | [] => ["]"%char]
          | v :: vs => ","%char :: json_text v ++ tail vs
          end) vs
      end
  | VObject kvs =>
      "{"%char :: match kvs with
      | [] => ["}"%char]
      | (k, v) :: kvs =>
          quote_char :: string_text k ++ ":"%char :: json_text v ++ (fix tail kvs :=
            match kvs with
            | [] => ["}"%char]
            | (k, v) :: kvs =>
                ","%char :: quote_char :: string_text k ++ ":"%char :: json_text v ++ tail kvs
            end) kvs
      end
  end%list.

Definition read_literal (text : string) (v : Value) (b : bytes) : option (Value * bytes) :=
  let t := String.list_ascii_of_string text in
  if decide (take (length t) b = t) then Some (v, drop (length t) b) else None.

(** The fuel bounds the number of tokens. *)
Fixpoint read_text (fuel : nat) (b : bytes) : option (Value * bytes) :=
  match fuel with
  | O => None
  | S fuel =>
      match b with
      | "["%char :: "]"%char :: b => Some (VArray [], b)
      | "["%char :: b =>
          match read_elements fuel b with Some (vs, b) => Some (VArray vs, b) | None => None end
      | "{"%char :: "}"%char :: b => Some (VObject [], b)
      | "{"%char :: b =>
          match read_members fuel b with Some (kvs, b) => Some (VObject kvs, b) | None => None end
      | "n"%char :: _ => read_literal "null" VNull b
      | "t"%char :: _ => read_literal "true" (VBool true) b
      | "f"%char :: _ => read_literal "false" (VBool false) b
      | c :: b' =>
          if Ascii.N_of_ascii c =? 34
          then match read_chars b' with Some (s, b) => Some (VString s, b) | None => None end
          else match read_digits b with
               | (Decimal.Nil, _) => None
               | (d, b) => Some (VNumber (N.of_uint d), b)
               end
      | [] => None
      end
  end
with read_elements (fuel : nat) (b : bytes) : option (list Value * bytes) :=
  match fuel with
  | O => None
  | S fuel =>
      match read_text fuel b with
      | Some (v, "]"%char :: b) => Some ([v], b)
      | Some (v, ","%char :: b) =>
          match read_elements fuel b with Some (vs, b) => Some (v :: vs, b) | None => None end
      | _ => None
      end
  end
with read_members (fuel : nat) (b : bytes) : option (list (string * Value) * bytes) :=
  match fuel with
  | O => None
  | S fuel =>
      match b with
      | c :: b =>
          if Ascii.N_of_ascii c =? 34 then
            match read_chars b with
            | Some (k, ":"%char :: b) =>
                match read_text fuel b with
                | Some (v, "}"%char :: b) => Some ([(k, v)], b)
                | Some (v, ","%char :: b) =>
                    match read_members fuel b with
                    | Some (kvs, b) => Some ((k, v) :: kvs, b)
                    | None => None
                    end
                | _ => None
                end
            | _ => None
            end
          else None
      | [] => None
      end
  end.

Definition white_space (c : Ascii.ascii) : bool :=
  let n := Ascii.N_of_ascii c in (n =? 32) || (n =? 10) || (n =? 13) || (n =? 9).

Definition json_parse (b : bytes) : option Value :=
  match read_text (length b) b with
  | Some (v, rest) => if forallb white_space rest then Some v else None
  | None => None
  end.

(** ** What is written reads back *)

Definition no_digit (b : bytes) : Prop := match b with c :: _ => digit_of c = None | [] => True end.

Lemma read_digits_text d rest : no_digit rest → read_digits (digits_text d ++ rest)%list = (d, rest).
Proof.
  intros Hr. induction d as [|d IH|d IH|d IH|d IH|d IH|d IH|d IH|d IH|d IH|d IH]; simpl;
    [|by rewrite IH..].
  destruct rest as [|c rest]; [done|]. simpl in *. by rewrite Hr.
Qed.

Lemma read_escape c b :
  read_chars (escape c ++ b)%list =
    match read_chars b with Some (s, rest) => Some (String c s, rest) | None => None end.
Proof. destruct c as [[] [] [] [] [] [] [] []]; reflexivity. Qed.

Lemma read_string_text s rest : read_chars (string_text s ++ rest)%list = Some (s, rest).
Proof.
  induction s as [|c s IH]; [reflexivity|]. cbn [string_text].
  by rewrite <-app_assoc, read_escape, IH.
Qed.

(** The texts after the first element and the first member. *)
Fixpoint elements_tail (vs : list Value) : bytes :=
  match vs with
  | [] => ["]"%char]
  | v :: vs => ","%char :: json_text v ++ elements_tail vs
  end%list.

Fixpoint members_tail (kvs : list (string * Value)) : bytes :=
  match kvs with
  | [] => ["}"%char]
  | (k, v) :: kvs =>
      ","%char :: quote_char :: string_text k ++ ":"%char :: json_text v ++ members_tail kvs
  end%list.

Definition reads (v : Value) : Prop :=
  ∀ fuel rest, no_digit rest → (length (json_text v) ≤ fuel)%nat →
    read_text fuel (json_text v ++ rest)%list = Some (v, rest).

Lemma no_digit_elements vs rest : no_digit (elements_tail vs ++ rest)%list.
Proof. by destruct vs. Qed.

Lemma no_digit_members kvs rest : no_digit (members_tail kvs ++ rest)%list.
Proof. by destruct kvs as [|[k v] kvs]. Qed.

Lemma read_elements_text v vs fuel rest :
  reads v → Forall reads vs →
  (length (json_text v) + length (elements_tail vs) ≤ fuel)%nat →
  read_elements fuel (json_text v ++ elements_tail vs ++ rest)%list = Some (v :: vs, rest).
Proof.
  intros Hv Hvs. revert v fuel Hv. induction Hvs as [|w vs Hw Hvs IH]; intros v [|fuel] Hv Hf;
    [simpl in Hf; lia| |simpl in Hf; lia|].
  - cbn [read_elements]. rewrite Hv by (apply no_digit_elements || (simpl in Hf; lia)). done.
  - cbn [read_elements]. rewrite Hv by (apply no_digit_elements || (simpl in Hf; lia)).
    cbn [elements_tail app]. rewrite <-app_assoc, IH; [done|done|].
    cbn [elements_tail length] in Hf. rewrite length_app in Hf. lia.
Qed.

Lemma read_members_text k v kvs fuel rest :
  reads v → Forall (λ kv, reads kv.2) kvs →
  (length (json_text v) + length (members_tail kvs) ≤ fuel)%nat →
  read_members fuel
    (quote_char :: string_text k ++ ":"%char :: json_text v ++ members_tail kvs ++ rest)%list =
    Some ((k, v) :: kvs, rest).
Proof.
  intros Hv Hvs. revert k v fuel Hv. induction Hvs as [|[k' w] kvs Hw Hvs IH];
    intros k v [|fuel] Hv Hf; [simpl in Hf; lia| |simpl in Hf; lia|]; cbn [read_members];
    change (Ascii.N_of_ascii quote_char =? 34) with true; cbv iota; rewrite read_string_text;
    rewrite Hv by (apply no_digit_members || (simpl in Hf; lia)); [done|].
  cbn [members_tail app]. rewrite <-!app_assoc. cbn [app]. rewrite <-!app_assoc, IH; [done..|].
  cbn [members_tail length] in Hf. rewrite length_app in Hf. cbn [length] in Hf.
  rewrite length_app in Hf. lia.
Qed.

Lemma to_uint_digits n : N.to_uint n ≠ Decimal.Nil.
Proof. destruct n; [done|]. apply DecimalPos.Unsigned.to_uint_nonnil. Qed.

Lemma read_number n : reads (VNumber n).
Proof.
  intros [|fuel] rest Hr Hf; unfold json_text in *; pose proof (to_uint_digits n) as Hn.
  { by destruct (N.to_uint n); simpl in Hf; try lia. }
  pose proof (read_digits_text (N.to_uint n) rest Hr) as Hd.
  pose proof (DecimalN.Unsigned.of_to n) as Ho.
  destruct (N.to_uint n); [done|..]; cbn [digits_text app] in *; cbn -[N.of_uint read_digits];
    by rewrite Hd, Ho.
Qed.

(** The first character of a text is not a closing bracket. *)
Lemma json_text_head v : tree v = true → ∃ c b, json_text v = c :: b ∧ c ≠ "]"%char.
Proof.
  destruct v as [|[]|n|t|s|vs|kvs]; cbn [tree]; intros Hp; try done; try by (do 2 eexists).
  unfold json_text. pose proof (to_uint_digits n). by destruct (N.to_uint n); [done|do 2 eexists..].
Qed.

Lemma read_array c b fuel :
  c ≠ "]"%char →
  read_text (S fuel) ("["%char :: c :: b) =
    match read_elements fuel (c :: b) with Some (vs, b) => Some (VArray vs, b) | None => None end.
Proof. intros Hc. destruct c as [[] [] [] [] [] [] [] []]; first [reflexivity|by destruct Hc]. Qed.

Lemma all_holds {A} (f : A → Value) (P : Value → Prop) l :
  Forall (λ a, tree (f a) = true → P (f a)) l → forallb (λ a, tree (f a)) l = true →
  Forall (λ a, P (f a)) l.
Proof.
  induction 1 as [|a l Ha Hl IH]; cbn [forallb]; [done|].
  intros [? ?]%andb_true_iff. constructor; auto.
Qed.

Lemma json_text_reads v : tree v = true → reads v.
Proof.
  induction v as [|[]|n|t|s|vs IH|kvs IH] using Value_nested_ind; cbn [tree]; intros Hp;
    try done; try (intros [|fuel] rest Hr Hf; [simpl in Hf; lia|]).
  - reflexivity.
  - reflexivity.
  - reflexivity.
  - apply read_number.
  - cbn [json_text app read_text]. cbn -[read_chars].
    by rewrite read_string_text.
  - destruct vs as [|v vs]; [reflexivity|]. cbn [forallb] in Hp. apply andb_true_iff in Hp as [Hv Hp].
    apply Forall_cons in IH as [IHv IH].
    pose proof (all_holds (λ v, v) reads vs IH Hp) as IH'.
    change (json_text (VArray (v :: vs))) with ("["%char :: json_text v ++ elements_tail vs)%list in *.
    destruct (json_text_head v Hv) as (c & b & Ht & Hc). cbn [app]. rewrite <-app_assoc.
    pose proof (read_elements_text v vs fuel rest (IHv Hv) IH') as He. cbn [length] in Hf.
    rewrite length_app in Hf. specialize (He ltac:(lia)).
    rewrite Ht in *. cbn [app] in *. by rewrite read_array, He.
  - destruct kvs as [|[k v] kvs]; [reflexivity|].
    cbn [forallb snd] in Hp. apply andb_true_iff in Hp as [Hv Hp].
    apply Forall_cons in IH as [IHv IH].
    pose proof (all_holds snd reads kvs IH Hp) as IH'.
    change (json_text (VObject ((k, v) :: kvs))) with ("{"%char :: quote_char :: string_text k ++
      ":"%char :: json_text v ++ members_tail kvs)%list in *.
    cbn [app length] in *. rewrite length_app in Hf. cbn [length] in Hf. rewrite length_app in Hf.
    pose proof (read_members_text k v kvs fuel rest (IHv Hv) IH' ltac:(lia)) as He.
    rewrite <-app_assoc. cbn [app]. rewrite <-app_assoc.
    unfold quote_char in *. cbn -[read_members string_text json_text members_tail app] in *.
    by rewrite He.
Qed.

(** ** The text has no line feed and quoting does not shorten *)

Definition one_line (b : bytes) : Prop := newline ∉ b.

Lemma one_line_nil : one_line [].
Proof. apply not_elem_of_nil. Qed.

Lemma one_line_cons c b : Ascii.eqb newline c = false → one_line b → one_line (c :: b).
Proof.
  unfold one_line. intros Hc Hb. rewrite elem_of_cons. intros [<-|?]; [|done].
  by rewrite Ascii.eqb_refl in Hc.
Qed.

Lemma one_line_app b1 b2 : one_line b1 → one_line b2 → one_line (b1 ++ b2)%list.
Proof. unfold one_line. rewrite elem_of_app. tauto. Qed.

Create HintDb one_line.
#[local] Hint Resolve one_line_nil one_line_app : one_line.
#[local] Hint Extern 1 (one_line (_ :: _)) =>
  (apply one_line_cons; [reflexivity|]) : one_line.

Lemma escape_one_line c : one_line (escape c).
Proof.
  destruct c as [[] [] [] [] [] [] [] []];
    match goal with |- one_line (escape ?c) =>
      let b := eval vm_compute in (escape c) in change (one_line b) end;
    auto 10 with one_line nocore.
Qed.
#[local] Hint Resolve escape_one_line : one_line.

Lemma string_one_line s : one_line (string_text s).
Proof. induction s; cbn [string_text]; auto with one_line nocore. Qed.
#[local] Hint Resolve string_one_line : one_line.

Lemma digits_one_line d : one_line (digits_text d).
Proof. induction d; cbn [digits_text]; auto with one_line nocore. Qed.

Lemma elements_one_line vs :
  Forall (λ v, one_line (json_text v)) vs → one_line (elements_tail vs).
Proof. induction 1; cbn [elements_tail]; auto with one_line nocore. Qed.

Lemma members_one_line kvs :
  Forall (λ kv, one_line (json_text kv.2)) kvs → one_line (members_tail kvs).
Proof. induction 1 as [|[k v] kvs]; cbn [members_tail]; auto 10 with one_line nocore. Qed.

Lemma json_one_line v : tree v = true → one_line (json_text v).
Proof.
  induction v as [|[]|n|t|s|vs IH|kvs IH] using Value_nested_ind; cbn [tree]; intros Hp; try done.
  - cbv [json_text]. cbn. auto 10 with one_line nocore.
  - cbv [json_text]. cbn. auto 10 with one_line nocore.
  - cbv [json_text]. cbn. auto 10 with one_line nocore.
  - apply digits_one_line.
  - cbn [json_text]. auto with one_line nocore.
  - destruct vs as [|v vs]; [cbn; auto with one_line nocore|].
    pose proof (all_holds (λ v, v) (λ v, one_line (json_text v)) _ IH Hp) as [Hv Hvs]%Forall_cons.
    change (json_text (VArray (v :: vs))) with ("["%char :: json_text v ++ elements_tail vs)%list.
    apply elements_one_line in Hvs. auto with one_line nocore.
  - destruct kvs as [|[k v] kvs]; [cbn; auto with one_line nocore|].
    pose proof (all_holds snd (λ v, one_line (json_text v)) _ IH Hp) as [Hv Hvs]%Forall_cons.
    change (json_text (VObject ((k, v) :: kvs))) with ("{"%char :: quote_char :: string_text k ++
      ":"%char :: json_text v ++ members_tail kvs)%list.
    apply members_one_line in Hvs. auto 10 with one_line nocore.
Qed.

Lemma string_text_long s : (String.length s ≤ length (string_text s))%nat.
Proof.
  induction s as [|c s IH]; cbn [string_text String.length]; [lia|]. rewrite length_app.
  assert (1 ≤ length (escape c))%nat by (destruct c as [[] [] [] [] [] [] [] []]; vm_compute; lia).
  lia.
Qed.

(** ** The text is within its bound *)

Lemma string_text_bound s : len (string_text s) + 1 ≤ string_bound s.
Proof.
  induction s as [|c s IH]; cbn [string_text string_bound]; [by vm_compute|].
  rewrite len_app. assert (len (escape c) ≤ char_bound c); [|lia].
  destruct c as [[] [] [] [] [] [] [] []]; by vm_compute.
Qed.

Lemma digits_text_length d : length (digits_text d) = Decimal.nb_digits d.
Proof. induction d; cbn [digits_text length Decimal.nb_digits]; by f_equal. Qed.

Lemma of_uint_acc_ge d p :
  N.pos p * 10 ^ N.of_nat (Decimal.nb_digits d) ≤ N.pos (Pos.of_uint_acc d p).
Proof.
  revert p. induction d as [|d IH|d IH|d IH|d IH|d IH|d IH|d IH|d IH|d IH|d IH]; intros p;
    cbn [Pos.of_uint_acc Decimal.nb_digits]; [rewrite N.mul_1_r; lia|..];
    (etrans; [|apply IH]; rewrite Nat2N.inj_succ, N.pow_succ_r', N.mul_assoc;
     apply N.mul_le_mono_r; lia).
Qed.

(** A number written without leading zeros. *)
Lemma to_uint_head n d : N.to_uint n = Decimal.D0 d → d = Decimal.Nil.
Proof.
  intros Hn. destruct (Decimal.uint_eq_dec d Decimal.Nil) as [|Hd]; [done|].
  pose proof (DecimalN.Unsigned.to_of (N.to_uint n)) as H.
  rewrite DecimalN.Unsigned.of_to, Hn in H. cbn [Decimal.unorm] in H.
  pose proof (DecimalFacts.nb_digits_unorm d Hd) as Hle.
  assert (Decimal.nb_digits (Decimal.D0 d) ≤ Decimal.nb_digits d)%nat as Hlt; [|simpl in Hlt; lia].
  rewrite H at 1. etrans; [|exact Hle]. by destruct d.
Qed.

Lemma number_text_bound n : n ≤ u64_max → len (digits_text (N.to_uint n)) ≤ 20.
Proof.
  unfold len. rewrite digits_text_length. intros Hn.
  pose proof (DecimalN.Unsigned.of_to n) as Ho. pose proof (to_uint_head n) as Hz.
  destruct (Nat.le_gt_cases (Decimal.nb_digits (N.to_uint n)) 20) as [?|Hgt]; [lia|exfalso].
  assert (∀ d p, (20 ≤ Decimal.nb_digits d)%nat → n = N.pos (Pos.of_uint_acc d p) → False) as Hbig.
  { intros d p Hd ->. pose proof (of_uint_acc_ge d p) as Hge.
    assert (10 ^ 20 ≤ 10 ^ N.of_nat (Decimal.nb_digits d)) as Hp by (apply N.pow_le_mono_r; lia).
    change (10 ^ 20) with 100000000000000000000 in Hp. unfold u64_max in Hn. nia. }
  destruct (N.to_uint n) as [|d|d|d|d|d|d|d|d|d|d]; [simpl in Hgt; lia| |..].
  { rewrite (Hz d eq_refl) in Hgt. simpl in Hgt. lia. }
  all: eapply Hbig; [|symmetry; exact Ho]; simpl in Hgt; lia.
Qed.

Lemma elements_bound vs :
  Forall (λ v, len (json_text v) ≤ text_bound v) vs →
  len (elements_tail vs) ≤ 1 + foldr (λ v n, text_bound v + 1 + n) 0 vs.
Proof.
  induction 1 as [|v vs Hv _ IH]; cbn [elements_tail foldr]; [by vm_compute|].
  rewrite len_cons, len_app. lia.
Qed.

Lemma members_bound kvs :
  Forall (λ kv, len (json_text kv.2) ≤ text_bound kv.2) kvs →
  len (members_tail kvs) ≤ 1 + foldr (λ kv n, string_bound kv.1 + 2 + text_bound kv.2 + n) 0 kvs.
Proof.
  induction 1 as [|[k v] kvs Hv _ IH]; cbn [members_tail foldr fst snd] in *; [by vm_compute|].
  pose proof (string_text_bound k). rewrite !len_cons, len_app, len_cons, len_app. lia.
Qed.

Lemma json_text_bound v : tree v = true → len (json_text v) ≤ text_bound v.
Proof.
  induction v as [|[]|n|t|s|vs IH|kvs IH] using Value_nested_ind; cbn [tree]; intros Hp;
    try done; try by vm_compute.
  - apply number_text_bound. by apply N.leb_le.
  - cbn [json_text text_bound]. pose proof (string_text_bound s). rewrite len_cons. lia.
  - destruct vs as [|v vs]; [by vm_compute|].
    pose proof (all_holds (λ v, v) (λ v, len (json_text v) ≤ text_bound v) _ IH Hp)
      as [Hv Hvs%elements_bound]%Forall_cons.
    change (json_text (VArray (v :: vs))) with ("["%char :: json_text v ++ elements_tail vs)%list.
    rewrite len_cons, len_app. cbn [text_bound foldr]. lia.
  - destruct kvs as [|[k v] kvs]; [by vm_compute|].
    pose proof (all_holds snd (λ v, len (json_text v) ≤ text_bound v) _ IH Hp)
      as [Hv Hvs%members_bound]%Forall_cons. cbn [snd] in Hv. pose proof (string_text_bound k).
    change (json_text (VObject ((k, v) :: kvs))) with ("{"%char :: quote_char :: string_text k ++
      ":"%char :: json_text v ++ members_tail kvs)%list.
    rewrite !len_cons, len_app, len_cons, len_app. cbn [text_bound foldr fst snd]. lia.
Qed.

Lemma string_of_list_length b : String.length (String.string_of_list_ascii b) = length b.
Proof. induction b; simpl; by f_equal. Qed.

(** ** The instance *)

#[export] Instance text_json : SerdeJson := {|
  json_read := json_parse;
  json_write v := Ok (json_text v);
  slice_error name _ := "invalid " +:+ name;
  value_error name _ := "invalid " +:+ name;
  debug_str s := String.string_of_list_ascii (quote_char :: string_text s);
|}.

Lemma json_parse_text v rest :
  tree v = true → no_digit rest → forallb white_space rest = true →
  json_parse (json_text v ++ rest)%list = Some v.
Proof.
  intros Hp Hr Hw. unfold json_parse.
  rewrite (json_text_reads v Hp) by (done || rewrite length_app; lia). by rewrite Hw.
Qed.

#[export] Instance text_json_laws : SerdeJsonLaws text_json.
Proof.
  split.
  - intros v Hp _. exists (json_text v). cbn [json_write json_read text_json]. split_and!.
    + done.
    + rewrite <-(app_nil_r (json_text v)). by apply json_parse_text.
    + by apply json_parse_text.
    + by apply json_one_line.
  - intros v b Hp [= <-]. by apply json_text_bound, plain_tree.
  - intros s. cbn [debug_str text_json]. unfold str_len.
    pose proof (string_text_long s). cbn [String.string_of_list_ascii String.length].
    rewrite string_of_list_length. lia.
Qed.
