(* ===== verification/PyProtocol.v ===== *)
(** * The Python SDK: values, protocol and operations protocol
    ([sdks/python/src/agent_broker]: [errors.py], [models.py], [protocol.py],
    [operations_protocol.py])

    A [str] is its UTF-8 bytes, an [int] is a [Z], a frozen dataclass is a record
    or a constructor, and a function that raises returns a [result].  Arguments
    have their annotated types, so of [isinstance(x, bool) or not isinstance(x,
    int) or x <= 0] the comparison is left; values that come out of [json.loads]
    have every type, and there the checks are complete.

    [json.dumps] with [ensure_ascii=False], compact separators and sorted keys is
    [json_text] of the sorted object; [json.loads] and what else the package uses
    of the standard library is the class [PyStd]. *)

From stdpp Require Import pretty.
From S2P Require Import Prelude Values Task Group Display Wire Service Dispatch Json JsonText.

(** ** The standard library *)

(** A number that is not a non-negative integer is a [VOther], negative integers
    and fractions alike. *)
Class PyStd := {
  (** [json.loads]; [None] is a [UnicodeDecodeError] or a [JSONDecodeError] *)
  json_loads : bytes → option Value;
  json_loads_error : bytes → string;
  (** [{value!r}] *)
  py_repr : Value → string;
  (** of such a number: [value == n], finite, and an [int] *)
  other_equals : string → N → bool;
  other_finite : string → bool;
  other_is_int : string → bool;
  (** [ip_address]: [None] is a [ValueError], else [is_loopback] *)
  ip_is_loopback : string → option bool;
  sha256_hexdigest : string → string;
}.

(** What the package relies on: [json.loads] reads compact JSON text, and a
    digest is 64 hexadecimal digits. *)
Definition is_hex_digit (c : Ascii.ascii) : bool :=
  let n := Ascii.N_of_ascii c in ((48 <=? n) && (n <=? 57)) || ((97 <=? n) && (n <=? 102)).

Class PyStdLaws (P : PyStd) : Prop := {
  loads_reads v : plain v = true → (depth v ≤ 127)%nat →
    json_loads (json_text v ++ [newline])%list = Some v;
  sha256_hex s : String.length (sha256_hexdigest s) = 64%nat ∧
    all_bytes is_hex_digit (sha256_hexdigest s) = true;
}.

(** ** Errors ([errors.py]) *)

Inductive OperationsErrorCode :=
  | READ_AUTHORITY_UNAVAILABLE | BROKER_FAIL_STOPPED | BROKER_READ_FAILED
  | STATE_OWNER_SATURATED | STATE_OWNER_UNAVAILABLE | NOT_FOUND.

(** The exceptions of the package, and [ValueError].  [BrokerErrorCode] and
    [ErrorDisposition] have the members of the broker's types. *)
Inductive PyError :=
  | PyValueError (message : string)
  | PyProtocolError (message : string)
  | PyTransportError (message : string)
  | PyBrokerError (code : BrokerErrorCode) (message : string)
      (disposition : option BrokerErrorDisposition)
  | PyOperationsError (code : OperationsErrorCode)
  | PyClusterRoutingError (message : string)
  | PyNoWriteReadyLeader (message : string)
  | PyMultipleWriteReadyLeaders (node_ids : list N)
  | PyInvalidOperationsResponse (node_id : N) (reason : string).

(** [BrokerErrorCode(value)], [ErrorDisposition(value)] and
    [OperationsErrorCode(value)]: the member with this value, or a [ValueError]. *)
Definition BrokerErrorCode_of (value : string) : option BrokerErrorCode :=
  if decide (value = "INVALID_REQUEST") then Some InvalidRequest
  else if decide (value = "NOT_FOUND") then Some NotFound
  else if decide (value = "CONFLICT") then Some Conflict
  else if decide (value = "CAPACITY_EXCEEDED") then Some CodeCapacityExceeded
  else if decide (value = "STALE_FENCE") then Some StaleFence
  else if decide (value = "PERSISTENCE_ERROR") then Some PersistenceError
  else if decide (value = "TRANSPORT_ERROR") then Some TransportError
  else if decide (value = "COMMIT_OUTCOME_UNKNOWN") then Some CommitOutcomeUnknown
  else if decide (value = "INTERNAL_ERROR") then Some InternalError
  else None.

Definition ErrorDisposition_of (value : string) : option BrokerErrorDisposition :=
  if decide (value = "COMMITTED") then Some DispCommitted
  else if decide (value = "REJECTED") then Some DispRejected
  else if decide (value = "UNKNOWN") then Some DispUnknown
  else None.

Definition OperationsErrorCode_of (value : string) : option OperationsErrorCode :=
  if decide (value = "read_authority_unavailable") then Some READ_AUTHORITY_UNAVAILABLE
  else if decide (value = "broker_fail_stopped") then Some BROKER_FAIL_STOPPED
  else if decide (value = "broker_read_failed") then Some BROKER_READ_FAILED
  else if decide (value = "state_owner_saturated") then Some STATE_OWNER_SATURATED
  else if decide (value = "state_owner_unavailable") then Some STATE_OWNER_UNAVAILABLE
  else if decide (value = "not_found") then Some NOT_FOUND
  else None.

(** ** Configuration ([models.py]) *)

Definition PY_DEFAULT_MAX_FRAME_BYTES : Z := 128 * 1024.
Definition PY_MIN_MAX_FRAME_BYTES : Z := 4 * 1024.
Definition PY_MAX_MAX_FRAME_BYTES : Z := 1024 * 1024.
Definition PY_DEFAULT_OPERATIONS_MAX_FRAME_BYTES : Z := 16 * 1024.
Definition PY_MIN_OPERATIONS_MAX_FRAME_BYTES : Z := 256.
Definition PY_MAX_OPERATIONS_MAX_FRAME_BYTES : Z := 16 * 1024.

Definition between (low n high : Z) : bool := (low <=? n)%Z && (n <=? high)%Z.

(** Of [models.py]. *)
Definition py_positive_int (value : Z) (label : string) : result unit PyError :=
  if (value <=? 0)%Z then Err (PyValueError (label +:+ " must be a positive integer")) else Ok tt.

Definition py_non_empty (value label : string) : result unit PyError :=
  if String.eqb value "" then Err (PyValueError (label +:+ " must be a non-empty string"))
  else Ok tt.

(** A timeout is in nanoseconds. *)
Record PyBrokerClientConfig := {
  pc_host : string;
  pc_port : Z;
  pc_timeout_seconds : Z;
  pc_max_response_frame_bytes : Z;
}.

Record PyOperationsClientConfig := {
  po_host : string;
  po_port : Z;
  po_timeout_seconds : Z;
  po_max_response_frame_bytes : Z;
}.

Record PyStaticClusterNode := {
  pn_node_id : Z;
  pn_broker_port : Z;
  pn_operations_port : Z;
  pn_host : string;
}.

Record PyStaticClusterConfig := {
  ps_nodes : list PyStaticClusterNode;
  pcl_timeout_seconds : Z;
  pcl_max_response_frame_bytes : Z;
  pcl_retry : Z;
}.

Record PyCommandIdentity := {
  pi_session_id : string;
  pi_owner_epoch : Z;
  pi_owner_instance_id : string;
  pi_sequence : Z;
}.

Section models.
Context `{P : PyStd}.

Definition py_check_host (host : string) : result unit PyError :=
  match ip_is_loopback host with
  | None => Err (PyValueError "host must be a literal loopback IP address")
  | Some false => Err (PyValueError "host must be a loopback IP address")
  | Some true => Ok tt
  end.

(** The [__post_init__] of the frozen dataclasses. *)
Definition BrokerClientConfig_post_init (c : PyBrokerClientConfig) : result unit PyError :=
  let^ _ := py_check_host (pc_host c) in
  if negb (between 1 (pc_port c) 65535) then Err (PyValueError "port must be in 1..=65535")
  else if (pc_timeout_seconds c <=? 0)%Z then Err (PyValueError "timeout_seconds must be positive")
  else if negb (between PY_MIN_MAX_FRAME_BYTES (pc_max_response_frame_bytes c)
                  PY_MAX_MAX_FRAME_BYTES)
  then Err (PyValueError "max_response_frame_bytes must be in 4096..=1048576")
  else Ok tt.

Definition OperationsClientConfig_post_init (c : PyOperationsClientConfig) :
    result unit PyError :=
  let^ _ := py_check_host (po_host c) in
  if negb (between 1 (po_port c) 65535) then Err (PyValueError "port must be in 1..=65535")
  else if (po_timeout_seconds c <=? 0)%Z then Err (PyValueError "timeout_seconds must be positive")
  else if negb (between PY_MIN_OPERATIONS_MAX_FRAME_BYTES (po_max_response_frame_bytes c)
                  PY_MAX_OPERATIONS_MAX_FRAME_BYTES)
  then Err (PyValueError "max_response_frame_bytes must be in 256..=16384")
  else Ok tt.

Definition RetryPolicy_post_init (max_attempts : Z) : result unit PyError :=
  py_positive_int max_attempts "max_attempts".

Definition StaticClusterNode_post_init (n : PyStaticClusterNode) : result unit PyError :=
  let^ _ := py_positive_int (pn_node_id n) "node_id" in
  let^ _ := py_check_host (pn_host n) in
  if negb (between 1 (pn_broker_port n) 65535)
  then Err (PyValueError "broker_port must be in 1..=65535")
  else if negb (between 1 (pn_operations_port n) 65535)
  then Err (PyValueError "operations_port must be in 1..=65535")
  else Ok tt.

(** [len({f(node) for node in nodes}) != 3] *)
Definition not_three {A} `{EqDecision A} (f : PyStaticClusterNode → A)
    (nodes : list PyStaticClusterNode) : bool :=
  negb (Nat.eqb (length (remove_dups (map f nodes))) 3).

Definition StaticClusterConfig_post_init (c : PyStaticClusterConfig) : result unit PyError :=
  if negb (Nat.eqb (length (ps_nodes c)) 3)
  then Err (PyValueError "static cluster requires exactly three nodes")
  else if not_three pn_node_id (ps_nodes c)
  then Err (PyValueError "static cluster node_id values must be unique")
  else if not_three (λ n, (pn_host n, pn_broker_port n)) (ps_nodes c) ||
          not_three (λ n, (pn_host n, pn_operations_port n)) (ps_nodes c)
  then Err (PyValueError "static cluster broker and operations endpoints must be unique")
  else if (pcl_timeout_seconds c <=? 0)%Z
  then Err (PyValueError "timeout_seconds must be positive")
  else if negb (between PY_MIN_MAX_FRAME_BYTES (pcl_max_response_frame_bytes c)
                  PY_MAX_MAX_FRAME_BYTES)
  then Err (PyValueError "max_response_frame_bytes must be in 4096..=1048576")
  else Ok tt.

Definition CommandIdentity_post_init (i : PyCommandIdentity) : result unit PyError :=
  let^ _ := py_non_empty (pi_session_id i) "session_id" in
  let^ _ := py_positive_int (pi_owner_epoch i) "owner_epoch" in
  let^ _ := py_non_empty (pi_owner_instance_id i) "owner_instance_id" in
  py_positive_int (pi_sequence i) "sequence".

End models.

(** The results of mutations, the members of [BrokerResult]. *)
Inductive PyBrokerResult :=
  | PyNamespaceResult (term revision : N) (namespace_id : string) (namespace_revision : N)
  | PyTaskPublishedResult (term revision : N) (task_id : string) (task_revision : N)
      (status : string)
  | PyConsumerGroupResult (term revision : N) (group_id : string)
      (generation group_revision member_count : N)
  | PyHeartbeatResult (term revision : N) (group_id member_id : string)
      (generation member_revision : N)
  | PyTaskClaimResult (term revision : N) (task_id objective : option string)
      (task_revision : option N) (lease_id : option string)
      (lease_epoch lease_expires_at_ms : option N) (generation : N)
  | PyTaskLeaseRenewedResult (term revision : N) (task_id : string) (task_revision : N)
      (lease_id : string) (lease_epoch lease_expires_at_ms generation : N)
  | PyTaskCompletedResult (term revision : N) (task_id : string) (task_revision : N)
      (status : string).

Record PyHealthResult := MkPyHealth {
  ph_protocol_version : N; ph_term : N; ph_revision : N;
}.

Record PyConsumerGroupSummary := MkPySummary {
  pg_group_id : string; pg_namespace_id : string; pg_generation : N; pg_group_revision : N;
  pg_consumer_count : N;
}.

Record PyConsumerGroupDescription := MkPyDescription {
  pd_broker_term : N; pd_broker_revision : N; pd_group : PyConsumerGroupSummary;
}.

Record PyConsumerGroupPage := MkPyPage {
  pp_broker_term : N; pp_broker_revision : N; pp_groups : list PyConsumerGroupSummary;
  pp_next_after_group_id : option string;
}.

(** ** Requests ([protocol.py]) *)

Definition PY_PROTOCOL_V1 : N := 1.
Definition PY_PROTOCOL_V3 : N := 3.
Definition PY_OWNER_ACQUIRE_OPERATION : string := "acquire_command_session_owner".

Inductive PyOperation :=
  | HEALTH | ENSURE_NAMESPACE | PUBLISH_TASK | ENSURE_GROUP | JOIN_GROUP | HEARTBEAT
  | LEAVE_GROUP | CLAIM_TASK | RENEW_TASK | COMPLETE_TASK.

#[export] Instance PyOperation_eq_dec : EqDecision PyOperation.
Proof. solve_decision. Defined.

(** [operation.value] *)
Definition PyOperation_value (o : PyOperation) : string :=
  match o with
  | HEALTH => "health"
  | ENSURE_NAMESPACE => "namespace.ensure"
  | PUBLISH_TASK => "task.publish"
  | ENSURE_GROUP => "group.ensure"
  | JOIN_GROUP => "group.join"
  | HEARTBEAT => "group.heartbeat"
  | LEAVE_GROUP => "group.leave"
  | CLAIM_TASK => "task.claim"
  | RENEW_TASK => "task.renew"
  | COMPLETE_TASK => "task.complete"
  end.

(** [^[A-Za-z0-9][A-Za-z0-9_.:-]{0,127}$] with [fullmatch]. *)
Definition id_re_fullmatch (s : string) : bool :=
  match s with
  | EmptyString => false
  | String first rest =>
      is_ascii_alphanumeric first && (str_len rest <=? 127) &&
      all_bytes (λ c, is_ascii_alphanumeric c || is_identifier_punct c) rest
  end.

Definition py_validate_request_id (request_id : string) : result string PyError :=
  if id_re_fullmatch request_id then Ok request_id
  else Err (PyValueError
    "request_id must be 1..=128 ASCII bytes, start alphanumeric, and then use only alphanumeric/_/./:/-").

(** An [int] as a JSON value. *)
Definition py_int (z : Z) : Value :=
  match z with
  | Zneg p => VOther ("-" +:+ pretty (Npos p))
  | _ => VNumber (Z.to_N z)
  end.

(** [_serialize] of a [dict]: its text is a [str] without lone surrogates, so
    there is nothing to refuse. *)
Definition py_serialize (envelope : list (string * Value)) : bytes :=
  (json_text (object envelope) ++ [newline])%list.

Definition encode_health (request_id : string) : result bytes PyError :=
  let^ _ := py_validate_request_id request_id in
  Ok (py_serialize [("version", VNumber PY_PROTOCOL_V1); ("request_id", VString request_id);
                    ("operation", VString (PyOperation_value HEALTH)); ("payload", VObject [])]).

Definition encode_mutation_v1 (request_id : string) (operation : PyOperation) (payload : Value) :
    result bytes PyError :=
  if decide (operation = HEALTH)
  then Err (PyValueError "health is read-only and must use encode_health") else
  let^ _ := py_validate_request_id request_id in
  Ok (py_serialize [("version", VNumber PY_PROTOCOL_V1); ("request_id", VString request_id);
                    ("operation", VString (PyOperation_value operation)); ("payload", payload)]).

Definition encode_owner_acquire (request_id session_id : string) (expected_owner_epoch : Z)
    (owner_instance_id : string) : result bytes PyError :=
  let^ _ := py_validate_request_id request_id in
  if (expected_owner_epoch <=? 0)%Z
  then Err (PyValueError "expected_owner_epoch must be a positive integer")
  else Ok (py_serialize [("version", VNumber PY_PROTOCOL_V3); ("request_id", VString request_id);
                         ("operation", VString PY_OWNER_ACQUIRE_OPERATION);
                         ("command_session_id", VString session_id);
                         ("expected_owner_epoch", py_int expected_owner_epoch);
                         ("owner_instance_id", VString owner_instance_id);
                         ("payload", VObject [])]).

Definition encode_owner_mutation (request_id : string) (operation : PyOperation) (payload : Value)
    (session_id : string) (owner_epoch : Z) (owner_instance_id : string) (sequence : Z) :
    result bytes PyError :=
  if decide (operation = HEALTH)
  then Err (PyValueError "health is protocol-v1 read-only and cannot use owner-aware mutation") else
  let^ _ := py_validate_request_id request_id in
  Ok (py_serialize [("version", VNumber PY_PROTOCOL_V3); ("request_id", VString request_id);
                    ("operation", VString (PyOperation_value operation));
                    ("command_session_id", VString session_id);
                    ("owner_epoch", py_int owner_epoch);
                    ("owner_instance_id", VString owner_instance_id);
                    ("command_sequence", py_int sequence); ("payload", payload)]).

(** ** Responses ([protocol.py]) *)

(** [dict.get], and [dict[k]] of a key that was required. *)
Definition py_get (k : string) (value : list (string * Value)) : Value :=
  default VNull (obj_get k value).

Definition has_key (k : string) (value : list (string * Value)) : bool :=
  match obj_get k value with Some _ => true | None => false end.

Definition is_none (v : Value) : bool := match v with VNull => true | _ => false end.

(** [value == s] for a [str]. *)
Definition py_eq_str (v : Value) (s : string) : bool :=
  match v with VString s' => String.eqb s' s | _ => false end.

(** [set(value) != expected] *)
Definition key_mismatch (value : list (string * Value)) (expected : list string) : bool :=
  negb (forallb (λ kv, bool_decide (kv.1 ∈ expected)) value &&
        forallb (λ k, has_key k value) expected).

Definition py_require_keys (value : list (string * Value)) (expected : list string)
    (label : string) : result unit PyError :=
  if key_mismatch value expected
  then Err (PyProtocolError (label +:+ " fields do not match the protocol schema")) else Ok tt.

Definition py_integer (value : Value) (label : string) : result N PyError :=
  match value with
  | VNumber n => Ok n
  | _ => Err (PyProtocolError (label +:+ " must be an unsigned integer"))
  end.

Definition py_optional_integer (value : Value) (label : string) : result (option N) PyError :=
  if is_none value then Ok None else map_ok Some (py_integer value label).

Definition py_string (value : Value) (label : string) : result string PyError :=
  match value with
  | VString s => Ok s
  | _ => Err (PyProtocolError (label +:+ " must be a string"))
  end.

Definition py_optional_string (value : Value) (label : string) : result (option string) PyError :=
  if is_none value then Ok None else map_ok Some (py_string value label).

Section protocol.
Context `{P : PyStd}.

(** [value == n] for an [int]: [True] is 1, and 1.0 is 1. *)
Definition py_eq_int (v : Value) (n : N) : bool :=
  match v with
  | VNumber m => m =? n
  | VBool b => (if b then 1 else 0) =? n
  | VOther t => other_equals t n
  | _ => false
  end.

Definition py_task_status (value : Value) : result string PyError :=
  let^ status := py_string value "status" in
  if bool_decide (status ∈ ["queued"; "leased"; "completed"]) then Ok status
  else Err (PyProtocolError ("unknown task status " +:+ py_repr (VString status))).

(** What [json.loads] gives has only JSON types and [str] keys; a [dict] keeps
    one value for a key. *)
Fixpoint py_normalize_json_value (value : Value) : result Value PyError :=
  match value with
  | VOther t =>
      if other_finite t then Ok value
      else Err (PyProtocolError "response frame contains a non-finite JSON number")
  | VArray vs =>
      map_ok VArray ((fix go vs := match vs with
        | [] => Ok []
        | v :: vs => let^ v := py_normalize_json_value v in let^ vs := go vs in Ok (v :: vs)
        end) vs)
  | VObject kvs =>
      map_ok VObject ((fix go kvs := match kvs with
        | [] => Ok []
        | (k, v) :: kvs =>
            let^ v := py_normalize_json_value v in let^ kvs := go kvs in Ok ((k, v) :: kvs)
        end) kvs)
  | _ => Ok value
  end.

(** The error of an error response: it is raised. *)
Definition py_response_error (error : list (string * Value)) (disposition_required : bool) :
    PyError :=
  let raised : result PyError PyError :=
    let^ _ := py_require_keys error
      (if disposition_required then ["code"; "message"; "disposition"] else ["code"; "message"])
      "error" in
    let^ text := py_string (py_get "code" error) "error.code" in
    let^ code := ok_or (BrokerErrorCode_of text)
      (PyProtocolError ("unknown Broker error code " +:+ py_repr (py_get "code" error))) in
    let^ message := py_string (py_get "message" error) "error.message" in
    if 4096 <? str_len message then Err (PyProtocolError "error.message exceeds 4096 bytes") else
    if disposition_required then
      let^ text := py_string (py_get "disposition" error) "error.disposition" in
      let^ disposition := ok_or (ErrorDisposition_of text)
        (PyProtocolError ("unknown error disposition " +:+ py_repr (py_get "disposition" error))) in
      Ok (PyBrokerError code message (Some disposition))
    else Ok (PyBrokerError code message None) in
  match raised with Ok e => e | Err e => e end.

Definition py_decode_envelope (frame : bytes) (request_id : string) (version : N)
    (disposition_required : bool) : result (list (string * Value)) PyError :=
  let^ raw_value := ok_or (json_loads frame)
    (PyProtocolError ("response frame is not valid JSON: " +:+ json_loads_error frame)) in
  let^ value := py_normalize_json_value raw_value in
  match value with
  | VObject value =>
      if negb (py_eq_int (py_get "version" value) version)
      then Err (PyProtocolError ("unsupported response protocol version " +:+
                  py_repr (py_get "version" value)))
      else if negb (py_eq_str (py_get "request_id" value) request_id)
      then Err (PyProtocolError ("response request_id " +:+ py_repr (py_get "request_id" value) +:+
                  " does not match expected " +:+ py_repr (VString request_id)))
      else
      match py_get "ok" value with
      | VBool true =>
          if negb (has_key "result" value) || negb (is_none (py_get "error" value))
          then Err (PyProtocolError "success response must contain result and no error")
          else Ok value
      | VBool false =>
          if negb (is_none (py_get "result" value)) || negb (has_key "error" value)
          then Err (PyProtocolError "error response must contain error and no result")
          else
          match py_get "error" value with
          | VObject error => Err (py_response_error error disposition_required)
          | _ => Err (PyProtocolError "error must be a JSON object")
          end
      | _ => Err (PyProtocolError "response ok must be boolean")
      end
  | _ => Err (PyProtocolError "response frame must be a JSON object")
  end.

Definition py_success_result (envelope : list (string * Value)) :
    result (list (string * Value)) PyError :=
  match py_get "result" envelope with
  | VObject result => Ok result
  | _ => Err (PyProtocolError "success result must be a JSON object")
  end.

Definition py_namespace_result (r : list (string * Value)) : result PyBrokerResult PyError :=
  let^ _ := py_require_keys r ["term"; "revision"; "namespace_id"; "namespace_revision"]
    "namespace result" in
  let^ term := py_integer (py_get "term" r) "term" in
  let^ revision := py_integer (py_get "revision" r) "revision" in
  let^ namespace_id := py_string (py_get "namespace_id" r) "namespace_id" in
  let^ namespace_revision := py_integer (py_get "namespace_revision" r) "namespace_revision" in
  Ok (PyNamespaceResult term revision namespace_id namespace_revision).

(** Publication and completion answer alike. *)
Definition py_task_status_result
    (build : N → N → string → N → string → PyBrokerResult) (label : string)
    (r : list (string * Value)) : result PyBrokerResult PyError :=
  let^ _ := py_require_keys r ["term"; "revision"; "task_id"; "task_revision"; "status"] label in
  let^ term := py_integer (py_get "term" r) "term" in
  let^ revision := py_integer (py_get "revision" r) "revision" in
  let^ task_id := py_string (py_get "task_id" r) "task_id" in
  let^ task_revision := py_integer (py_get "task_revision" r) "task_revision" in
  let^ status := py_task_status (py_get "status" r) in
  Ok (build term revision task_id task_revision status).

Definition py_consumer_group_result (r : list (string * Value)) : result PyBrokerResult PyError :=
  let^ _ := py_require_keys r
    ["term"; "revision"; "group_id"; "generation"; "group_revision"; "member_count"]
    "consumer group result" in
  let^ term := py_integer (py_get "term" r) "term" in
  let^ revision := py_integer (py_get "revision" r) "revision" in
  let^ group_id := py_string (py_get "group_id" r) "group_id" in
  let^ generation := py_integer (py_get "generation" r) "generation" in
  let^ group_revision := py_integer (py_get "group_revision" r) "group_revision" in
  let^ member_count := py_integer (py_get "member_count" r) "member_count" in
  Ok (PyConsumerGroupResult term revision group_id generation group_revision member_count).

Definition py_heartbeat_result (r : list (string * Value)) : result PyBrokerResult PyError :=
  let^ _ := py_require_keys r
    ["term"; "revision"; "group_id"; "member_id"; "generation"; "member_revision"]
    "heartbeat result" in
  let^ term := py_integer (py_get "term" r) "term" in
  let^ revision := py_integer (py_get "revision" r) "revision" in
  let^ group_id := py_string (py_get "group_id" r) "group_id" in
  let^ member_id := py_string (py_get "member_id" r) "member_id" in
  let^ generation := py_integer (py_get "generation" r) "generation" in
  let^ member_revision := py_integer (py_get "member_revision" r) "member_revision" in
  Ok (PyHeartbeatResult term revision group_id member_id generation member_revision).

Definition py_task_claim_result (r : list (string * Value)) : result PyBrokerResult PyError :=
  let^ _ := py_require_keys r
    ["term"; "revision"; "task_id"; "objective"; "task_revision"; "lease_id"; "lease_epoch";
     "lease_expires_at_ms"; "generation"] "task claim result" in
  let optional := map (λ k, py_get k r)
    ["task_id"; "objective"; "task_revision"; "lease_id"; "lease_epoch"; "lease_expires_at_ms"] in
  if existsb is_none optional && negb (forallb is_none optional)
  then Err (PyProtocolError
    "task claim result must contain a complete lease payload or all null fields") else
  let^ term := py_integer (py_get "term" r) "term" in
  let^ revision := py_integer (py_get "revision" r) "revision" in
  let^ task_id := py_optional_string (py_get "task_id" r) "task_id" in
  let^ objective := py_optional_string (py_get "objective" r) "objective" in
  let^ task_revision := py_optional_integer (py_get "task_revision" r) "task_revision" in
  let^ lease_id := py_optional_string (py_get "lease_id" r) "lease_id" in
  let^ lease_epoch := py_optional_integer (py_get "lease_epoch" r) "lease_epoch" in
  let^ lease_expires_at_ms :=
    py_optional_integer (py_get "lease_expires_at_ms" r) "lease_expires_at_ms" in
  let^ generation := py_integer (py_get "generation" r) "generation" in
  Ok (PyTaskClaimResult term revision task_id objective task_revision lease_id lease_epoch
        lease_expires_at_ms generation).

Definition py_task_renewed_result (r : list (string * Value)) : result PyBrokerResult PyError :=
  let^ _ := py_require_keys r
    ["term"; "revision"; "task_id"; "task_revision"; "lease_id"; "lease_epoch";
     "lease_expires_at_ms"; "generation"] "task renew result" in
  let^ term := py_integer (py_get "term" r) "term" in
  let^ revision := py_integer (py_get "revision" r) "revision" in
  let^ task_id := py_string (py_get "task_id" r) "task_id" in
  let^ task_revision := py_integer (py_get "task_revision" r) "task_revision" in
  let^ lease_id := py_string (py_get "lease_id" r) "lease_id" in
  let^ lease_epoch := py_integer (py_get "lease_epoch" r) "lease_epoch" in
  let^ lease_expires_at_ms := py_integer (py_get "lease_expires_at_ms" r) "lease_expires_at_ms" in
  let^ generation := py_integer (py_get "generation" r) "generation" in
  Ok (PyTaskLeaseRenewedResult term revision task_id task_revision lease_id lease_epoch
        lease_expires_at_ms generation).

Definition py_decode_mutation_result (r : list (string * Value)) (operation : PyOperation) :
    result PyBrokerResult PyError :=
  match operation with
  | ENSURE_NAMESPACE => py_namespace_result r
  | PUBLISH_TASK => py_task_status_result PyTaskPublishedResult "task publish result" r
  | ENSURE_GROUP | JOIN_GROUP | LEAVE_GROUP => py_consumer_group_result r
  | HEARTBEAT => py_heartbeat_result r
  | CLAIM_TASK => py_task_claim_result r
  | RENEW_TASK => py_task_renewed_result r
  | COMPLETE_TASK => py_task_status_result PyTaskCompletedResult "task complete result" r
  | HEALTH => Err (PyProtocolError ("unsupported mutation response operation: " +:+
                     PyOperation_value operation))
  end.

Definition decode_health_response (frame : bytes) (request_id : string) :
    result PyHealthResult PyError :=
  let^ envelope := py_decode_envelope frame request_id PY_PROTOCOL_V1 false in
  let^ r := py_success_result envelope in
  let^ _ := py_require_keys r ["protocol_version"; "term"; "revision"] "health result" in
  let^ protocol_version := py_integer (py_get "protocol_version" r) "protocol_version" in
  if negb (protocol_version =? PY_PROTOCOL_V1)
  then Err (PyProtocolError "health protocol_version does not match protocol-v1") else
  let^ term := py_integer (py_get "term" r) "term" in
  let^ revision := py_integer (py_get "revision" r) "revision" in
  Ok (MkPyHealth protocol_version term revision).

Definition decode_owner_acquire_response (frame : bytes) (request_id : string) :
    result N PyError :=
  let^ envelope := py_decode_envelope frame request_id PY_PROTOCOL_V3 true in
  let^ r := py_success_result envelope in
  let^ _ := py_require_keys r ["owner_epoch"] "owner acquisition result" in
  let^ epoch := py_integer (py_get "owner_epoch" r) "owner_epoch" in
  if epoch =? 0 then Err (PyProtocolError "owner_epoch must be positive") else Ok epoch.

Definition decode_mutation_response (frame : bytes) (request_id : string)
    (operation : PyOperation) : result PyBrokerResult PyError :=
  let^ envelope := py_decode_envelope frame request_id PY_PROTOCOL_V3 true in
  let^ r := py_success_result envelope in
  py_decode_mutation_result r operation.

Definition decode_mutation_response_v1 (frame : bytes) (request_id : string)
    (operation : PyOperation) : result PyBrokerResult PyError :=
  let^ envelope := py_decode_envelope frame request_id PY_PROTOCOL_V1 false in
  let^ r := py_success_result envelope in
  py_decode_mutation_result r operation.

(** [type(result).__name__] *)
Definition py_type_name (r : PyBrokerResult) : string :=
  match r with
  | PyNamespaceResult _ _ _ _ => "NamespaceResult"
  | PyTaskPublishedResult _ _ _ _ _ => "TaskPublishedResult"
  | PyConsumerGroupResult _ _ _ _ _ _ => "ConsumerGroupResult"
  | PyHeartbeatResult _ _ _ _ _ _ => "HeartbeatResult"
  | PyTaskClaimResult _ _ _ _ _ _ _ _ _ => "TaskClaimResult"
  | PyTaskLeaseRenewedResult _ _ _ _ _ _ _ _ => "TaskLeaseRenewedResult"
  | PyTaskCompletedResult _ _ _ _ _ => "TaskCompletedResult"
  end.

Definition expect_mutation_result_type (decoded_result : PyBrokerResult)
    (expected_result_type : string) (operation : PyOperation) : result PyBrokerResult PyError :=
  if String.eqb (py_type_name decoded_result) expected_result_type then Ok decoded_result
  else Err (PyProtocolError (PyOperation_value operation +:+ " returned unexpected result type " +:+
              py_type_name decoded_result)).

(** ** The operations protocol ([operations_protocol.py]) *)

Definition PY_OPERATIONS_SCHEMA_VERSION : N := 1.
Definition PY_MAX_GROUP_PAGE_SIZE : N := 8.

Definition validate_group_id (group_id : string) : result string PyError :=
  if id_re_fullmatch group_id then Ok group_id
  else Err (PyValueError
    "group_id must be 1..=128 ASCII bytes, start alphanumeric, and then use only alphanumeric/_/./:/-").

Definition encode_describe_group (group_id : string) : result bytes PyError :=
  let^ group_id := validate_group_id group_id in
  Ok (py_serialize [("schema_version", VNumber PY_OPERATIONS_SCHEMA_VERSION);
                    ("operation", VString "describe_group"); ("group_id", VString group_id)]).

Definition encode_list_groups (limit : Z) (after_group_id : option string) :
    result bytes PyError :=
  if negb (between 1 limit (Z.of_N PY_MAX_GROUP_PAGE_SIZE))
  then Err (PyValueError ("limit must be in 1..=" +:+ pretty PY_MAX_GROUP_PAGE_SIZE)) else
  let request := [("schema_version", VNumber PY_OPERATIONS_SCHEMA_VERSION);
                  ("operation", VString "list_groups"); ("limit", py_int limit)] in
  match after_group_id with
  | None => Ok (py_serialize request)
  | Some id =>
      let^ id := validate_group_id id in
      Ok (py_serialize (request ++ [("after_group_id", VString id)])%list)
  end.

Definition py_require_fields (value : list (string * Value)) (expected : list string) :
    result unit PyError :=
  if key_mismatch value expected
  then Err (PyProtocolError ("operations response fields mismatch: expected " +:+
              py_repr (VArray (map VString (merge_sort String.le expected)))))
  else Ok tt.

Definition py_operations_positive_int (value : Value) (label : string) : result N PyError :=
  match value with
  | VNumber n =>
      if n =? 0
      then Err (PyProtocolError ("operations " +:+ label +:+ " must be a positive integer"))
      else Ok n
  | _ => Err (PyProtocolError ("operations " +:+ label +:+ " must be a positive integer"))
  end.

Definition py_non_negative_int (value : Value) (label : string) : result N PyError :=
  match value with
  | VNumber n => Ok n
  | _ => Err (PyProtocolError ("operations " +:+ label +:+ " must be a non-negative integer"))
  end.

Definition py_decode_frame (frame : bytes) : result (list (string * Value)) PyError :=
  if negb (bool_decide (last frame = Some newline))
  then Err (PyProtocolError "operations response lacked newline terminator") else
  let^ value := ok_or (json_loads frame)
    (PyProtocolError ("invalid operations JSON: " +:+ json_loads_error frame)) in
  match value with
  | VObject value => Ok value
  | _ => Err (PyProtocolError "operations response must be a JSON object")
  end.

(** Raises if the response is an error. *)
Definition py_raise_operations_error (value : list (string * Value)) : result unit PyError :=
  if negb (py_eq_str (py_get "status" value) "error") then Ok tt else
  let^ _ := py_require_fields value ["schema_version"; "status"; "code"] in
  if negb (py_eq_int (py_get "schema_version" value) PY_OPERATIONS_SCHEMA_VERSION)
  then Err (PyProtocolError "operations error schema_version mismatch") else
  match py_get "code" value with
  | VString code =>
      match OperationsErrorCode_of code with
      | Some parsed => Err (PyOperationsError parsed)
      | None => Err (PyProtocolError ("unknown operations error code: " +:+ code))
      end
  | _ => Err (PyProtocolError "operations error code must be a string")
  end.

Definition py_decode_group_summary (value : list (string * Value)) :
    result PyConsumerGroupSummary PyError :=
  let^ _ := py_require_fields value
    ["group_id"; "namespace_id"; "generation"; "group_revision"; "consumer_count"] in
  match py_get "group_id" value with
  | VString group_id =>
      match py_get "namespace_id" value with
      | VString namespace_id =>
          let^ _ := validate_group_id group_id in
          if negb (id_re_fullmatch namespace_id)
          then Err (PyProtocolError "namespace_id violated identifier contract") else
          let^ generation := py_operations_positive_int (py_get "generation" value) "generation" in
          let^ group_revision :=
            py_operations_positive_int (py_get "group_revision" value) "group_revision" in
          let^ consumer_count :=
            py_non_negative_int (py_get "consumer_count" value) "consumer_count" in
          Ok (MkPySummary group_id namespace_id generation group_revision consumer_count)
      | _ => Err (PyProtocolError "namespace_id must be a string")
      end
  | _ => Err (PyProtocolError "group_id must be a string")
  end.

Definition decode_describe_group (frame : bytes) : result PyConsumerGroupDescription PyError :=
  let^ value := py_decode_frame frame in
  let^ _ := py_raise_operations_error value in
  let^ _ := py_require_fields value
    ["schema_version"; "operation"; "status"; "broker_term"; "broker_revision"; "group"] in
  if negb (py_eq_int (py_get "schema_version" value) PY_OPERATIONS_SCHEMA_VERSION) ||
     negb (py_eq_str (py_get "operation" value) "describe_group")
  then Err (PyProtocolError "operations describe_group schema/operation mismatch")
  else if negb (py_eq_str (py_get "status" value) "ok")
  then Err (PyProtocolError "operations describe_group status must be ok") else
  match py_get "group" value with
  | VObject group_value =>
      let^ broker_term := py_operations_positive_int (py_get "broker_term" value) "broker_term" in
      let^ broker_revision := py_non_negative_int (py_get "broker_revision" value) "broker_revision" in
      let^ group := py_decode_group_summary group_value in
      Ok (MkPyDescription broker_term broker_revision group)
  | _ => Err (PyProtocolError "operations describe_group group must be an object")
  end.

Definition py_decode_group_entry (item : Value) : result PyConsumerGroupSummary PyError :=
  match item with
  | VObject item => py_decode_group_summary item
  | _ => Err (PyProtocolError "operations list_groups group entry must be an object")
  end.

Definition decode_list_groups (frame : bytes) : result PyConsumerGroupPage PyError :=
  let^ value := py_decode_frame frame in
  let^ _ := py_raise_operations_error value in
  let^ _ := py_require_fields value
    ["schema_version"; "operation"; "status"; "broker_term"; "broker_revision"; "groups";
     "next_after_group_id"] in
  if negb (py_eq_int (py_get "schema_version" value) PY_OPERATIONS_SCHEMA_VERSION) ||
     negb (py_eq_str (py_get "operation" value) "list_groups")
  then Err (PyProtocolError "operations list_groups schema/operation mismatch")
  else if negb (py_eq_str (py_get "status" value) "ok")
  then Err (PyProtocolError "operations list_groups status must be ok") else
  match py_get "groups" value with
  | VArray groups_value =>
      if PY_MAX_GROUP_PAGE_SIZE <? len groups_value
      then Err (PyProtocolError "operations list_groups exceeded page-size bound") else
      let^ groups := try_map py_decode_group_entry groups_value in
      let^ next_after :=
        match py_get "next_after_group_id" value with
        | VNull => Ok None
        | VString id => map_ok Some (validate_group_id id)
        | _ => Err (PyProtocolError "operations next_after_group_id must be string or null")
        end in
      let^ broker_term := py_operations_positive_int (py_get "broker_term" value) "broker_term" in
      let^ broker_revision := py_non_negative_int (py_get "broker_revision" value) "broker_revision" in
      Ok (MkPyPage broker_term broker_revision groups next_after)
  | _ => Err (PyProtocolError "operations list_groups groups must be an array")
  end.

End protocol.
