(* ===== verification/PyClient.v ===== *)
(** * The Python SDK: clients
    ([sdks/python/src/agent_broker]: [client.py], [standalone.py], [cluster.py],
    [operations.py] and their [async_*.py])

    A socket is the class [Network] of the Rust client: connecting, and sending a
    frame, which gives the buffers that the reads after it deliver.  An [OSError]
    is an error of either; the deadline of an asynchronous call shows as one.  A
    method that raises returns its error with the state it leaves. *)

From stdpp Require Import pretty.
From S2P Require Import Prelude Values Task Group Display Wire Service Dispatch Json JsonText Server.
From S2P Require Import SessionStore Client PyProtocol.

(** ** Reading a line *)

(** [BufferedReader.readline(limit)]: up to and with the line feed, at most
    [limit] bytes, fewer only at the end of the stream. *)
Fixpoint py_readline (limit : N) (reader : list (result bytes string)) (line : bytes) :
    result bytes string * list (result bytes string) :=
  match reader with
  | [] => (Ok line, [])
  | Err e :: rest => (Err e, rest)
  | Ok [] :: rest => (Ok line, rest)
  | Ok chunk :: rest =>
      let wanted := take_N limit chunk in
      match newline_position wanted with
      | Some p => (Ok (line ++ take (S p) chunk)%list, consume (S p) chunk rest)
      | None =>
          if limit <=? len chunk
          then (Ok (line ++ wanted)%list, consume (length wanted) chunk rest)
          else py_readline (limit - len chunk) rest (line ++ chunk)%list
      end
  end.

Definition PY_LIMIT_OVERRUN : string := "Broker response exceeded the configured bounded frame".

(** [StreamReader.readuntil] with the limit of the reader, as [_round_trip_frame]
    reports it. *)
Fixpoint py_readuntil (limit : N) (reader : list (result bytes string)) (buffer : bytes) :
    result bytes PyError :=
  match reader with
  | [] | Ok [] :: _ =>
      Err (PyTransportError "Broker closed the connection before a complete response")
  | Err e :: _ => Err (PyTransportError e)
  | Ok chunk :: rest =>
      let buffer := (buffer ++ chunk)%list in
      match newline_position buffer with
      | Some p => if limit <? N.of_nat p then Err (PyProtocolError PY_LIMIT_OVERRUN)
                  else Ok (take (S p) buffer)
      | None => if limit <? len buffer then Err (PyProtocolError PY_LIMIT_OVERRUN)
                else py_readuntil limit rest buffer
      end
  end.

(** [StreamReader.readline]: the end of the stream returns what there is, and a
    line above the limit raises [ValueError]. *)
Fixpoint py_async_readline (limit : N) (reader : list (result bytes string)) (buffer : bytes) :
    result bytes PyError :=
  match reader with
  | [] | Ok [] :: _ => Ok buffer
  | Err e :: _ => Err (PyTransportError ("operations transport failed: " +:+ e))
  | Ok chunk :: rest =>
      let buffer := (buffer ++ chunk)%list in
      match newline_position buffer with
      | Some p => if limit <? N.of_nat p
                  then Err (PyValueError "Separator is found, but chunk is longer than limit")
                  else Ok (take (S p) buffer)
      | None => if limit <? len buffer
                then Err (PyValueError "Separator is not found, and chunk exceed the limit")
                else py_async_readline limit rest buffer
      end
  end.

Definition ends_with_newline (b : bytes) : bool := bool_decide (last b = Some newline).

Definition py_address (host : string) (port : Z) : SocketAddr :=
  MkAddr (host +:+ ":" +:+ pretty port) true.

(** [request_id or default] *)
Definition request_id_or (request_id : option string) (default : string) : string :=
  match request_id with
  | Some id => if String.eqb id "" then default else id
  | None => default
  end.

(** ** The typed methods

    Every client class has the same ones over its own way of sending a mutation:
    the payload is built, sent, and the type of the result is checked. *)

Section methods.
Context {S : Type} (mutate : PyOperation → Value → S → result PyBrokerResult PyError * S).

Definition mutate_typed (operation : PyOperation) (expected : string) (payload : Value) (s : S) :
    result PyBrokerResult PyError * S :=
  let! decoded, s := mutate operation payload s in
  (expect_mutation_result_type decoded expected operation, s).

Definition method_ensure_namespace (namespace_id : string) :=
  mutate_typed ENSURE_NAMESPACE "NamespaceResult" (object [("namespace_id", VString namespace_id)]).

Definition method_publish_task (namespace_id task_id objective : string) :=
  mutate_typed PUBLISH_TASK "TaskPublishedResult"
    (object [("namespace_id", VString namespace_id); ("task_id", VString task_id);
             ("objective", VString objective)]).

Definition method_ensure_group (namespace_id group_id : string) :=
  mutate_typed ENSURE_GROUP "ConsumerGroupResult"
    (object [("namespace_id", VString namespace_id); ("group_id", VString group_id)]).

Definition method_join_group (group_id member_id : string) (capabilities : list string) (s : S) :
    result PyBrokerResult PyError * S :=
  if 64 <? len capabilities
  then (Err (PyValueError "capabilities may contain at most 64 entries"), s)
  else mutate_typed JOIN_GROUP "ConsumerGroupResult"
    (object [("group_id", VString group_id); ("member_id", VString member_id);
             ("capabilities", VArray (map VString capabilities))]) s.

Definition method_heartbeat (group_id member_id : string) (expected_generation : Z) :=
  mutate_typed HEARTBEAT "HeartbeatResult"
    (object [("group_id", VString group_id); ("member_id", VString member_id);
             ("expected_generation", py_int expected_generation)]).

Definition method_leave_group (group_id member_id : string) (expected_generation : Z) :=
  mutate_typed LEAVE_GROUP "ConsumerGroupResult"
    (object [("group_id", VString group_id); ("member_id", VString member_id);
             ("expected_generation", py_int expected_generation)]).

Definition method_claim_task (group_id member_id : string)
    (expected_term expected_generation : Z) (lease_id : string) (lease_duration_ms : Z) :=
  mutate_typed CLAIM_TASK "TaskClaimResult"
    (object [("group_id", VString group_id); ("member_id", VString member_id);
             ("expected_term", py_int expected_term);
             ("expected_generation", py_int expected_generation);
             ("lease_id", VString lease_id); ("lease_duration_ms", py_int lease_duration_ms)]).

Definition method_renew_task (task_id group_id member_id : string)
    (expected_term expected_generation expected_lease_epoch : Z) (lease_id : string)
    (lease_duration_ms : Z) :=
  mutate_typed RENEW_TASK "TaskLeaseRenewedResult"
    (object [("task_id", VString task_id); ("group_id", VString group_id);
             ("member_id", VString member_id); ("expected_term", py_int expected_term);
             ("expected_generation", py_int expected_generation);
             ("expected_lease_epoch", py_int expected_lease_epoch);
             ("lease_id", VString lease_id); ("lease_duration_ms", py_int lease_duration_ms)]).

Definition method_complete_task (task_id group_id member_id : string)
    (expected_term expected_generation expected_lease_epoch : Z) (lease_id result : string) :=
  mutate_typed COMPLETE_TASK "TaskCompletedResult"
    (object [("task_id", VString task_id); ("group_id", VString group_id);
             ("member_id", VString member_id); ("expected_term", py_int expected_term);
             ("expected_generation", py_int expected_generation);
             ("expected_lease_epoch", py_int expected_lease_epoch);
             ("lease_id", VString lease_id); ("result", VString result)]).

End methods.

(** ** The synchronous client ([client.py]) *)

(** [_reader] with what it has not delivered yet, and the next request number. *)
Record PyBrokerClient := MkPyClient {
  pb_config : PyBrokerClientConfig;
  pb_reader : option (list (result bytes string));
  pb_request_ids : N;
}.

Definition PyBrokerClient_new (config : PyBrokerClientConfig) : PyBrokerClient :=
  MkPyClient config None 1.

Definition py_close (c : PyBrokerClient) : PyBrokerClient :=
  MkPyClient (pb_config c) None (pb_request_ids c).

Definition py_next_request_id (c : PyBrokerClient) : string * PyBrokerClient :=
  ("py-client-" +:+ pretty (pb_request_ids c),
   MkPyClient (pb_config c) (pb_reader c) (pb_request_ids c + 1)).

Section sync.
Context `{P : PyStd} {W : Type} `{Net : Network W}.

Abbreviation State := (PyBrokerClient * W)%type.

Definition py_ensure_connection (s : State) : result unit PyError * State :=
  let '(c, w) := s in
  match pb_reader c with
  | Some _ => (Ok tt, (c, w))
  | None =>
      let '(connected, w) := nw_connect (py_address (pc_host (pb_config c)) (pc_port (pb_config c))) w in
      match connected with
      | Ok _ => (Ok tt, (MkPyClient (pb_config c) (Some []) (pb_request_ids c), w))
      | Err e => (Err (PyTransportError e), (py_close c, w))
      end
  end.

(** What [_round_trip] makes of the line it read. *)
Definition py_check_response (response : bytes) (max : Z) : result bytes PyError :=
  match response with
  | [] => Err (PyTransportError "Broker closed the connection before a complete response")
  | _ =>
      if (max <? Z.of_N (len response))%Z
      then Err (PyProtocolError ("protocol frame is at least " +:+ pretty (len response) +:+
                  " bytes; maximum is " +:+ pretty max))
      else if negb (ends_with_newline response)
      then Err (PyProtocolError
        "Broker response exceeded the bounded frame or lacked a newline terminator")
      else Ok response
  end.

(** The body of the [try]. *)
Definition py_try_round_trip (frame : bytes) (s : State) : result bytes PyError * State :=
  let! _, s := py_ensure_connection s in
  let '(c, w) := s in
  match pb_reader c with
  | None => (Err (PyTransportError "Broker connection was not initialized"), (c, w))
  | Some unread =>
      let max := pc_max_response_frame_bytes (pb_config c) in
      let '(sent, w) := nw_send frame w in
      match sent with
      | Err e => (Err (PyTransportError e), (c, w))
      | Ok delivered =>
          let '(line, rest) := py_readline (Z.to_N (max + 1)) (unread ++ delivered) [] in
          let c := MkPyClient (pb_config c) (Some rest) (pb_request_ids c) in
          match line with
          | Err e => (Err (PyTransportError e), (c, w))
          | Ok response => (py_check_response response max, (c, w))
          end
      end
  end.

Definition py_round_trip (frame : bytes) (s : State) : result bytes PyError * State :=
  let '(response, (c, w)) := py_try_round_trip frame s in
  (response, (if is_ok response then c else py_close c, w)).

(** The loop of [_retry_exact], with the attempts that are left. *)
Fixpoint py_retry_exact {T} (frame : bytes) (decode : bytes → result T PyError) (attempts : nat)
    (s : State) : result T PyError * State :=
  match attempts with
  | O => (Err (PyTransportError "retry policy completed without an attempt result"), s)
  | S more =>
      let '(response, s) := py_round_trip frame s in
      let r := let^ response := response in decode response in
      let again := match more with
        | O => (r, s)
        | S _ => py_retry_exact frame decode more (py_close s.1, s.2)
        end in
      match r with
      | Err (PyBrokerError _ _ (Some DispUnknown)) => again
      | Err (PyTransportError _) => again
      | _ => (r, s)
      end
  end.

(** [request_id or self._next_request_id()] *)
Definition py_with_request_id {T} (request_id : option string)
    (k : string → State → result T PyError * State) (s : State) : result T PyError * State :=
  let fresh := let '(id, c) := py_next_request_id s.1 in k id (c, s.2) in
  match request_id with
  | Some id => if String.eqb id "" then fresh else k id s
  | None => fresh
  end.

Definition py_health (request_id : option string) : State → result PyHealthResult PyError * State :=
  py_with_request_id request_id (λ id s,
    let? frame := encode_health id else s in
    let! response, s := py_round_trip frame s in
    (decode_health_response response id, s)).

Definition py_acquire_owner (session_id : string) (expected_owner_epoch : Z)
    (owner_instance_id : string) (request_id : option string) (max_attempts : Z) :
    State → result N PyError * State :=
  py_with_request_id request_id (λ id s,
    let? frame := encode_owner_acquire id session_id expected_owner_epoch owner_instance_id else s in
    py_retry_exact frame (λ response, decode_owner_acquire_response response id)
      (Z.to_nat max_attempts) s).

Definition py_mutate (identity : PyCommandIdentity) (request_id : option string)
    (max_attempts : Z) (operation : PyOperation) (payload : Value) :
    State → result PyBrokerResult PyError * State :=
  py_with_request_id request_id (λ id s,
    let? frame := encode_owner_mutation id operation payload (pi_session_id identity)
      (pi_owner_epoch identity) (pi_owner_instance_id identity) (pi_sequence identity) else s in
    py_retry_exact frame (λ response, decode_mutation_response response id operation)
      (Z.to_nat max_attempts) s).

Definition py_ensure_namespace i namespace_id request_id retry :=
  method_ensure_namespace (py_mutate i request_id retry) namespace_id.
Definition py_publish_task i namespace_id task_id objective request_id retry :=
  method_publish_task (py_mutate i request_id retry) namespace_id task_id objective.
Definition py_ensure_group i namespace_id group_id request_id retry :=
  method_ensure_group (py_mutate i request_id retry) namespace_id group_id.
Definition py_join_group i group_id member_id capabilities request_id retry :=
  method_join_group (py_mutate i request_id retry) group_id member_id capabilities.
Definition py_heartbeat i group_id member_id expected_generation request_id retry :=
  method_heartbeat (py_mutate i request_id retry) group_id member_id expected_generation.
Definition py_leave_group i group_id member_id expected_generation request_id retry :=
  method_leave_group (py_mutate i request_id retry) group_id member_id expected_generation.
Definition py_claim_task i group_id member_id expected_term expected_generation lease_id
    lease_duration_ms request_id retry :=
  method_claim_task (py_mutate i request_id retry) group_id member_id expected_term
    expected_generation lease_id lease_duration_ms.
Definition py_renew_task i task_id group_id member_id expected_term expected_generation
    expected_lease_epoch lease_id lease_duration_ms request_id retry :=
  method_renew_task (py_mutate i request_id retry) task_id group_id member_id expected_term
    expected_generation expected_lease_epoch lease_id lease_duration_ms.
Definition py_complete_task i task_id group_id member_id expected_term expected_generation
    expected_lease_epoch lease_id result request_id retry :=
  method_complete_task (py_mutate i request_id retry) task_id group_id member_id expected_term
    expected_generation expected_lease_epoch lease_id result.

(** ** The standalone client ([standalone.py]) *)

Definition py_mutate_once (request_id : option string) (operation : PyOperation)
    (payload : Value) : State → result PyBrokerResult PyError * State :=
  py_with_request_id request_id (λ id s,
    let? frame := encode_mutation_v1 id operation payload else s in
    let! response, s := py_round_trip frame s in
    (decode_mutation_response_v1 response id operation, s)).

Definition standalone_health : option string → State → result PyHealthResult PyError * State :=
  py_health.
Definition standalone_ensure_namespace namespace_id request_id :=
  method_ensure_namespace (py_mutate_once request_id) namespace_id.
Definition standalone_publish_task namespace_id task_id objective request_id :=
  method_publish_task (py_mutate_once request_id) namespace_id task_id objective.
Definition standalone_ensure_group namespace_id group_id request_id :=
  method_ensure_group (py_mutate_once request_id) namespace_id group_id.
Definition standalone_join_group group_id member_id capabilities request_id :=
  method_join_group (py_mutate_once request_id) group_id member_id capabilities.
Definition standalone_heartbeat group_id member_id expected_generation request_id :=
  method_heartbeat (py_mutate_once request_id) group_id member_id expected_generation.
Definition standalone_leave_group group_id member_id expected_generation request_id :=
  method_leave_group (py_mutate_once request_id) group_id member_id expected_generation.
Definition standalone_claim_task group_id member_id expected_term expected_generation lease_id
    lease_duration_ms request_id :=
  method_claim_task (py_mutate_once request_id) group_id member_id expected_term
    expected_generation lease_id lease_duration_ms.
Definition standalone_renew_task task_id group_id member_id expected_term expected_generation
    expected_lease_epoch lease_id lease_duration_ms request_id :=
  method_renew_task (py_mutate_once request_id) task_id group_id member_id expected_term
    expected_generation expected_lease_epoch lease_id lease_duration_ms.
Definition standalone_complete_task task_id group_id member_id expected_term expected_generation
    expected_lease_epoch lease_id result request_id :=
  method_complete_task (py_mutate_once request_id) task_id group_id member_id expected_term
    expected_generation expected_lease_epoch lease_id result.

End sync.

(** ** The cluster client ([cluster.py]) *)

Definition PY_READINESS_REQUEST : bytes :=
  let quoted s := (String.String quote_char s +:+ String.String quote_char "")%string in
  (String.list_ascii_of_string ("{" +:+ quoted "schema_version" +:+ ":1," +:+ quoted "operation" +:+
     ":" +:+ quoted "readiness" +:+ "}") ++ [newline])%list.

Record PyClusterClient := MkPyCluster {
  pl_config : PyStaticClusterConfig;
  pl_request_ids : N;
}.

Definition cluster_next_request_id (c : PyClusterClient) : string * PyClusterClient :=
  ("py-cluster-" +:+ pretty (pl_request_ids c), MkPyCluster (pl_config c) (pl_request_ids c + 1)).

Section cluster.
Context `{P : PyStd}.

(** [value.get(k) is True] *)
Definition is_true (v : Value) : bool := match v with VBool true => true | _ => false end.

(** A configured node id is positive. *)
Abbreviation node_id n := (Z.to_N (pn_node_id n)) (only parsing).

(** [isinstance(value, int)] and no [bool] *)
Definition is_int (v : Value) : bool :=
  match v with VNumber _ => true | VOther t => other_is_int t | _ => false end.

Definition py_validate_progress (node : PyStaticClusterNode) (progress : list (string * Value)) :
    result bool PyError :=
  let invalid reason := Err (PyInvalidOperationsResponse (node_id node) reason) in
  let reported_node := py_get "node_id" progress in
  let current_leader := py_get "current_leader" progress in
  if negb (is_int reported_node) then invalid "progress.node_id must be unsigned"
  else if negb (is_int current_leader) then invalid "progress.current_leader must be unsigned"
  else
  match reported_node, current_leader with
  | VNumber reported_node, VNumber current_leader =>
      if negb (Z.of_N reported_node =? pn_node_id node)%Z ||
         negb (Z.of_N current_leader =? pn_node_id node)%Z
      then invalid ("write-ready identity mismatch: configured=" +:+ pretty (pn_node_id node) +:+
             ", reported=" +:+ pretty reported_node +:+ ", current_leader=" +:+
             pretty current_leader)
      else Ok true
  | _, _ => invalid "progress identity values must be unsigned"
  end.

Definition py_validate_readiness (node : PyStaticClusterNode) (value : Value) :
    result bool PyError :=
  let invalid reason := Err (PyInvalidOperationsResponse (node_id node) reason) in
  match value with
  | VObject value =>
      if negb (py_eq_int (py_get "schema_version" value) 1) ||
         negb (py_eq_str (py_get "operation" value) "readiness")
      then invalid "schema_version/operation mismatch" else
      match py_get "write_ready" value with
      | VBool false => Ok false
      | VBool true =>
          if negb (is_true (py_get "live" value)) ||
             negb (py_eq_str (py_get "reason" value) "ready") ||
             negb (is_true (py_get "maintenance_authority" value))
          then invalid "write-ready response lacked live/ready/maintenance authority" else
          match py_get "consensus" value with
          | VObject consensus =>
              if negb (py_eq_str (py_get "status" consensus) "ready") ||
                 negb (is_true (py_get "write_ready" consensus))
              then invalid "write-ready response had non-ready consensus" else
              match py_get "progress" consensus with
              | VObject progress => py_validate_progress node progress
              | _ => invalid "write-ready consensus lacked progress"
              end
          | _ => invalid "consensus must be an object"
          end
      | _ => invalid "write_ready must be boolean"
      end
  | _ => invalid "response must be a JSON object"
  end.

(** What [_probe_readiness] makes of the line it read. *)
Definition py_read_report (node : PyStaticClusterNode) (max : Z) (response : bytes) :
    result bool PyError :=
  let invalid reason := Err (PyInvalidOperationsResponse (node_id node) reason) in
  match response with
  | [] => Ok false
  | _ =>
      if (max <? Z.of_N (len response))%Z then invalid "response frame exceeded configured bound"
      else if negb (ends_with_newline response) then invalid "response lacked newline terminator"
      else
      match json_loads response with
      | None => invalid ("invalid JSON: " +:+ json_loads_error response)
      | Some value => py_validate_readiness node value
      end
  end.

Context {W : Type} `{Net : Network W}.

Definition py_probe_readiness (config : PyStaticClusterConfig) (node : PyStaticClusterNode) (w : W) :
    result bool PyError * W :=
  let max := pcl_max_response_frame_bytes config in
  let '(connected, w) := nw_connect (py_address (pn_host node) (pn_operations_port node)) w in
  match connected with
  | Err _ => (Ok false, w)
  | Ok _ =>
      let '(sent, w) := nw_send PY_READINESS_REQUEST w in
      match sent with
      | Err _ => (Ok false, w)
      | Ok delivered =>
          match (py_readline (Z.to_N (max + 1)) delivered []).1 with
          | Err _ => (Ok false, w)
          | Ok response => (py_read_report node max response, w)
          end
      end
  end.

Fixpoint py_probe_nodes (config : PyStaticClusterConfig) (nodes ready : list PyStaticClusterNode)
    (w : W) : result (list PyStaticClusterNode) PyError * W :=
  match nodes with
  | [] => (Ok ready, w)
  | node :: nodes =>
      let! is_ready, w := py_probe_readiness config node w in
      py_probe_nodes config nodes (if is_ready then ready ++ [node] else ready)%list w
  end.

Definition py_single_leader (ready : list PyStaticClusterNode) : result PyStaticClusterNode PyError :=
  match ready with
  | [] => Err (PyNoWriteReadyLeader "no write-ready leader was verified")
  | [leader] => Ok leader
  | _ => Err (PyMultipleWriteReadyLeaders (map (λ n, node_id n) ready))
  end.

Definition py_discover_write_leader (config : PyStaticClusterConfig) (w : W) :
    result PyStaticClusterNode PyError * W :=
  let! ready, w := py_probe_nodes config (ps_nodes config) [] w in
  (py_single_leader ready, w).

(** [BrokerClientConfig(...)] of a node, its [__post_init__] included. *)
Definition py_direct_config (config : PyStaticClusterConfig) (node : PyStaticClusterNode) :
    result PyBrokerClientConfig PyError :=
  let c := {| pc_host := pn_host node; pc_port := pn_broker_port node;
              pc_timeout_seconds := pcl_timeout_seconds config;
              pc_max_response_frame_bytes := pcl_max_response_frame_bytes config |} in
  let^ _ := BrokerClientConfig_post_init c in Ok c.

Fixpoint py_route_exact {T} (config : PyStaticClusterConfig) (frame : bytes)
    (decode : bytes → result T PyError) (attempts : nat) (w : W) : result T PyError * W :=
  match attempts with
  | O => (Err (PyClusterRoutingError "cluster retry policy completed without an attempt result"), w)
  | S more =>
      let! leader, w := py_discover_write_leader config w in
      let? direct := py_direct_config config leader else w in
      let '(response, (_, w)) := py_round_trip frame (PyBrokerClient_new direct, w) in
      let r := let^ response := response in decode response in
      let again := match more with
        | O => (r, w)
        | S _ => py_route_exact config frame decode more w
        end in
      match r with
      | Err (PyBrokerError _ _ (Some DispUnknown)) => again
      | Err (PyTransportError _) => again
      | _ => (r, w)
      end
  end.

Abbreviation State := (PyClusterClient * W)%type.

(** A call that leaves the client as it is. *)
Definition on_world {A} (f : W → A * W) (s : State) : A * State :=
  let '(a, w) := f s.2 in (a, (s.1, w)).

Definition cluster_with_request_id {T} (request_id : option string)
    (k : string → State → result T PyError * State) (s : State) : result T PyError * State :=
  let fresh := let '(id, c) := cluster_next_request_id s.1 in k id (c, s.2) in
  match request_id with
  | Some id => if String.eqb id "" then fresh else k id s
  | None => fresh
  end.

(** [retry or self.config.retry] *)
Definition cluster_attempts (retry : option Z) (s : State) : nat :=
  Z.to_nat (default (pcl_retry (pl_config s.1)) retry).

Definition cluster_health (request_id : option string) (s : State) :
    result PyHealthResult PyError * State :=
  on_world (λ w,
    let! leader, w := py_discover_write_leader (pl_config s.1) w in
    let? direct := py_direct_config (pl_config s.1) leader else w in
    let '(r, (_, w)) := py_health request_id (PyBrokerClient_new direct, w) in
    (r, w)) s.

Definition cluster_acquire_owner (session_id : string) (expected_owner_epoch : Z)
    (owner_instance_id : string) (request_id : option string) (retry : option Z) :
    State → result N PyError * State :=
  cluster_with_request_id request_id (λ id s,
    let? frame := encode_owner_acquire id session_id expected_owner_epoch owner_instance_id else s in
    on_world (py_route_exact (pl_config s.1) frame
      (λ response, decode_owner_acquire_response response id) (cluster_attempts retry s)) s).

Definition cluster_mutate (identity : PyCommandIdentity) (request_id : option string)
    (retry : option Z) (operation : PyOperation) (payload : Value) :
    State → result PyBrokerResult PyError * State :=
  cluster_with_request_id request_id (λ id s,
    let? frame := encode_owner_mutation id operation payload (pi_session_id identity)
      (pi_owner_epoch identity) (pi_owner_instance_id identity) (pi_sequence identity) else s in
    on_world (py_route_exact (pl_config s.1) frame
      (λ response, decode_mutation_response response id operation) (cluster_attempts retry s)) s).

Definition cluster_ensure_namespace i namespace_id request_id retry :=
  method_ensure_namespace (cluster_mutate i request_id retry) namespace_id.
Definition cluster_publish_task i namespace_id task_id objective request_id retry :=
  method_publish_task (cluster_mutate i request_id retry) namespace_id task_id objective.
Definition cluster_ensure_group i namespace_id group_id request_id retry :=
  method_ensure_group (cluster_mutate i request_id retry) namespace_id group_id.
Definition cluster_join_group i group_id member_id capabilities request_id retry :=
  method_join_group (cluster_mutate i request_id retry) group_id member_id capabilities.
Definition cluster_heartbeat i group_id member_id expected_generation request_id retry :=
  method_heartbeat (cluster_mutate i request_id retry) group_id member_id expected_generation.
Definition cluster_leave_group i group_id member_id expected_generation request_id retry :=
  method_leave_group (cluster_mutate i request_id retry) group_id member_id expected_generation.
Definition cluster_claim_task i group_id member_id expected_term expected_generation lease_id
    lease_duration_ms request_id retry :=
  method_claim_task (cluster_mutate i request_id retry) group_id member_id expected_term
    expected_generation lease_id lease_duration_ms.
Definition cluster_renew_task i task_id group_id member_id expected_term expected_generation
    expected_lease_epoch lease_id lease_duration_ms request_id retry :=
  method_renew_task (cluster_mutate i request_id retry) task_id group_id member_id expected_term
    expected_generation expected_lease_epoch lease_id lease_duration_ms.
Definition cluster_complete_task i task_id group_id member_id expected_term expected_generation
    expected_lease_epoch lease_id result request_id retry :=
  method_complete_task (cluster_mutate i request_id retry) task_id group_id member_id expected_term
    expected_generation expected_lease_epoch lease_id result.

End cluster.

(** ** The asynchronous clients ([async_client.py], [async_standalone.py],
    [async_cluster.py]) *)

Section request_ids.
Context `{P : PyStd}.

(** The separator is the control character 31. *)
Definition separator : string := String.String (Ascii.ascii_of_N 31) EmptyString.

Definition hexdigest_32 (material : string) : string :=
  String.substring 0 32 (sha256_hexdigest material).

Definition py_owner_request_id (session_id : string) (expected_owner_epoch : Z)
    (owner_instance_id : string) : string :=
  "py-async-owner-" +:+ hexdigest_32 (session_id +:+ separator +:+ pretty expected_owner_epoch +:+
    separator +:+ owner_instance_id).

Definition py_owned_request_id (identity : PyCommandIdentity) : string :=
  "py-async-owned-" +:+ hexdigest_32 (pi_session_id identity +:+ separator +:+
    pretty (pi_owner_epoch identity) +:+ separator +:+ pi_owner_instance_id identity +:+ separator +:+
    pretty (pi_sequence identity)).
End request_ids.

Record PyAsyncBrokerClient := MkPyAsync {
  pa_config : PyBrokerClientConfig;
  pa_request_ids : N;
}.

Definition async_client_next_request_id (c : PyAsyncBrokerClient) : string * PyAsyncBrokerClient :=
  ("py-async-client-" +:+ pretty (pa_request_ids c), MkPyAsync (pa_config c) (pa_request_ids c + 1)).

Section async.
Context `{P : PyStd} {W : Type} `{Net : Network W}.

Definition py_round_trip_frame (host : string) (port max : Z) (frame : bytes) (w : W) :
    result bytes PyError * W :=
  let '(connected, w) := nw_connect (py_address host port) w in
  let? _ := map_err PyTransportError connected else w in
  let '(sent, w) := nw_send frame w in
  let? delivered := map_err PyTransportError sent else w in
  let? response := py_readuntil (Z.to_N (max + 1)) delivered [] else w in
  (if (max <? Z.of_N (len response))%Z
   then Err (PyProtocolError ("protocol frame is at least " +:+ pretty (len response) +:+
               " bytes; maximum is " +:+ pretty max))
   else Ok response, w).

Definition async_client_round_trip (config : PyBrokerClientConfig) : bytes → W → result bytes PyError * W :=
  py_round_trip_frame (pc_host config) (pc_port config) (pc_max_response_frame_bytes config).

Fixpoint async_retry_exact {T} (config : PyBrokerClientConfig) (frame : bytes)
    (decode : bytes → result T PyError) (attempts : nat) (w : W) : result T PyError * W :=
  match attempts with
  | O => (Err (PyTransportError "retry policy completed without an attempt result"), w)
  | S more =>
      let '(response, w) := async_client_round_trip config frame w in
      let r := let^ response := response in decode response in
      let again := match more with
        | O => (r, w)
        | S _ => async_retry_exact config frame decode more w
        end in
      match r with
      | Err (PyBrokerError _ _ (Some DispUnknown)) => again
      | Err (PyTransportError _) => again
      | _ => (r, w)
      end
  end.

Abbreviation State := (PyAsyncBrokerClient * W)%type.

(** A coroutine that leaves the client as it is. *)
Definition async_on_world {A} (f : W → A * W) (s : State) : A * State :=
  let '(a, w) := f s.2 in (a, (s.1, w)).

Definition async_with_request_id {T} (request_id : option string)
    (k : string → State → result T PyError * State) (s : State) : result T PyError * State :=
  let fresh := let '(id, c) := async_client_next_request_id s.1 in k id (c, s.2) in
  match request_id with
  | Some id => if String.eqb id "" then fresh else k id s
  | None => fresh
  end.

Definition async_client_health (request_id : option string) :
    State → result PyHealthResult PyError * State :=
  async_with_request_id request_id (λ id s,
    let? frame := encode_health id else s in
    let! response, s := async_on_world (async_client_round_trip (pa_config s.1) frame) s in
    (decode_health_response response id, s)).

Definition async_client_acquire_owner (session_id : string) (expected_owner_epoch : Z)
    (owner_instance_id : string) (request_id : option string) (max_attempts : Z) (s : State) :
    result N PyError * State :=
  let id := request_id_or request_id
    (py_owner_request_id session_id expected_owner_epoch owner_instance_id) in
  let? frame := encode_owner_acquire id session_id expected_owner_epoch owner_instance_id else s in
  async_on_world (async_retry_exact (pa_config s.1) frame
    (λ response, decode_owner_acquire_response response id) (Z.to_nat max_attempts)) s.

Definition async_client_mutate (identity : PyCommandIdentity) (request_id : option string)
    (max_attempts : Z) (operation : PyOperation) (payload : Value) (s : State) :
    result PyBrokerResult PyError * State :=
  let id := request_id_or request_id (py_owned_request_id identity) in
  let? frame := encode_owner_mutation id operation payload (pi_session_id identity)
    (pi_owner_epoch identity) (pi_owner_instance_id identity) (pi_sequence identity) else s in
  async_on_world (async_retry_exact (pa_config s.1) frame
    (λ response, decode_mutation_response response id operation) (Z.to_nat max_attempts)) s.

Definition async_client_ensure_namespace i namespace_id request_id retry :=
  method_ensure_namespace (async_client_mutate i request_id retry) namespace_id.
Definition async_client_publish_task i namespace_id task_id objective request_id retry :=
  method_publish_task (async_client_mutate i request_id retry) namespace_id task_id objective.
Definition async_client_ensure_group i namespace_id group_id request_id retry :=
  method_ensure_group (async_client_mutate i request_id retry) namespace_id group_id.
Definition async_client_join_group i group_id member_id capabilities request_id retry :=
  method_join_group (async_client_mutate i request_id retry) group_id member_id capabilities.
Definition async_client_heartbeat i group_id member_id expected_generation request_id retry :=
  method_heartbeat (async_client_mutate i request_id retry) group_id member_id
      expected_generation.
Definition async_client_leave_group i group_id member_id expected_generation request_id retry :=
  method_leave_group (async_client_mutate i request_id retry) group_id member_id
      expected_generation.
Definition async_client_claim_task i group_id member_id expected_term expected_generation
    lease_id lease_duration_ms request_id retry :=
  method_claim_task (async_client_mutate i request_id retry) group_id member_id expected_term
      expected_generation lease_id lease_duration_ms.
Definition async_client_renew_task i task_id group_id member_id expected_term
    expected_generation expected_lease_epoch lease_id lease_duration_ms request_id retry :=
  method_renew_task (async_client_mutate i request_id retry) task_id group_id member_id
      expected_term expected_generation expected_lease_epoch lease_id lease_duration_ms.
Definition async_client_complete_task i task_id group_id member_id expected_term
    expected_generation expected_lease_epoch lease_id result request_id retry :=
  method_complete_task (async_client_mutate i request_id retry) task_id group_id member_id
      expected_term expected_generation expected_lease_epoch lease_id result.

(** [async_standalone.py] *)
Definition async_mutate_once (request_id : option string) (operation : PyOperation)
    (payload : Value) : State → result PyBrokerResult PyError * State :=
  async_with_request_id request_id (λ id s,
    let? frame := encode_mutation_v1 id operation payload else s in
    let! response, s := async_on_world (async_client_round_trip (pa_config s.1) frame) s in
    (decode_mutation_response_v1 response id operation, s)).

Definition async_standalone_health : option string → State → result PyHealthResult PyError * State :=
  async_client_health.
Definition async_standalone_ensure_namespace namespace_id request_id :=
  method_ensure_namespace (async_mutate_once request_id) namespace_id.
Definition async_standalone_publish_task namespace_id task_id objective request_id :=
  method_publish_task (async_mutate_once request_id) namespace_id task_id objective.
Definition async_standalone_ensure_group namespace_id group_id request_id :=
  method_ensure_group (async_mutate_once request_id) namespace_id group_id.
Definition async_standalone_join_group group_id member_id capabilities request_id :=
  method_join_group (async_mutate_once request_id) group_id member_id capabilities.
Definition async_standalone_heartbeat group_id member_id expected_generation request_id :=
  method_heartbeat (async_mutate_once request_id) group_id member_id expected_generation.
Definition async_standalone_leave_group group_id member_id expected_generation request_id :=
  method_leave_group (async_mutate_once request_id) group_id member_id expected_generation.
Definition async_standalone_claim_task group_id member_id expected_term expected_generation
    lease_id lease_duration_ms request_id :=
  method_claim_task (async_mutate_once request_id) group_id member_id expected_term
      expected_generation lease_id lease_duration_ms.
Definition async_standalone_renew_task task_id group_id member_id expected_term
    expected_generation expected_lease_epoch lease_id lease_duration_ms request_id :=
  method_renew_task (async_mutate_once request_id) task_id group_id member_id expected_term
      expected_generation expected_lease_epoch lease_id lease_duration_ms.
Definition async_standalone_complete_task task_id group_id member_id expected_term
    expected_generation expected_lease_epoch lease_id result request_id :=
  method_complete_task (async_mutate_once request_id) task_id group_id member_id expected_term
      expected_generation expected_lease_epoch lease_id result.

(** [async_cluster.py] *)

(** A probe that returns its error. *)
Definition async_probe_readiness (config : PyStaticClusterConfig) (node : PyStaticClusterNode)
    (w : W) : bool * option PyError * W :=
  let invalid reason := PyInvalidOperationsResponse (Z.to_N (pn_node_id node)) reason in
  let '(response, w) := py_round_trip_frame (pn_host node) (pn_operations_port node)
    (pcl_max_response_frame_bytes config) PY_READINESS_REQUEST w in
  match response with
  | Err (PyProtocolError e) => (false, Some (invalid e), w)
  | Err _ => (false, None, w)
  | Ok response =>
      match json_loads response with
      | None => (false, Some (invalid ("invalid JSON: " +:+ json_loads_error response)), w)
      | Some value =>
          match py_validate_readiness node value with
          | Ok is_ready => (is_ready, None, w)
          | Err e => (false, Some e, w)
          end
      end
  end.

(** The task group: every probe runs, here one after the other. *)
Fixpoint async_probe_nodes (config : PyStaticClusterConfig) (nodes : list PyStaticClusterNode)
    (w : W) : list (PyStaticClusterNode * (bool * option PyError)) * W :=
  match nodes with
  | [] => ([], w)
  | node :: nodes =>
      let '(r, w) := async_probe_readiness config node w in
      let '(rs, w) := async_probe_nodes config nodes w in
      ((node, r) :: rs, w)
  end.

(** The loop over the results, in the order of the nodes. *)
Fixpoint async_ready_nodes (results : list (PyStaticClusterNode * (bool * option PyError)))
    (ready : list PyStaticClusterNode) : result (list PyStaticClusterNode) PyError :=
  match results with
  | [] => Ok ready
  | (_, (_, Some e)) :: _ => Err e
  | (node, (is_ready, None)) :: results =>
      async_ready_nodes results (if is_ready then ready ++ [node] else ready)%list
  end.

Definition async_cluster_discover (config : PyStaticClusterConfig) (w : W) :
    result PyStaticClusterNode PyError * W :=
  let '(results, w) := async_probe_nodes config (ps_nodes config) w in
  (let^ ready := async_ready_nodes results [] in py_single_leader ready, w).

Fixpoint async_cluster_route_exact {T} (config : PyStaticClusterConfig) (frame : bytes)
    (decode : bytes → result T PyError) (attempts : nat) (w : W) : result T PyError * W :=
  match attempts with
  | O => (Err (PyClusterRoutingError "cluster retry policy completed without an attempt result"), w)
  | S more =>
      let! leader, w := async_cluster_discover config w in
      let? direct := py_direct_config config leader else w in
      let '(response, w) := async_client_round_trip direct frame w in
      let r := let^ response := response in decode response in
      let again := match more with
        | O => (r, w)
        | S _ => async_cluster_route_exact config frame decode more w
        end in
      match r with
      | Err (PyBrokerError _ _ (Some DispUnknown)) => again
      | Err (PyTransportError _) => again
      | _ => (r, w)
      end
  end.

Definition async_cluster_health (config : PyStaticClusterConfig) (request_id : option string)
    (w : W) : result PyHealthResult PyError * W :=
  let! leader, w := async_cluster_discover config w in
  let? direct := py_direct_config config leader else w in
  let '(r, (_, w)) := async_client_health request_id (MkPyAsync direct 1, w) in
  (r, w).

Definition async_cluster_acquire_owner (config : PyStaticClusterConfig) (session_id : string)
    (expected_owner_epoch : Z) (owner_instance_id : string) (request_id : option string)
    (retry : option Z) (w : W) : result N PyError * W :=
  let id := request_id_or request_id
    (py_owner_request_id session_id expected_owner_epoch owner_instance_id) in
  let? frame := encode_owner_acquire id session_id expected_owner_epoch owner_instance_id else w in
  async_cluster_route_exact config frame (λ response, decode_owner_acquire_response response id)
    (Z.to_nat (default (pcl_retry config) retry)) w.

Definition async_cluster_mutate (config : PyStaticClusterConfig) (identity : PyCommandIdentity)
    (request_id : option string) (retry : option Z) (operation : PyOperation) (payload : Value)
    (w : W) : result PyBrokerResult PyError * W :=
  let id := request_id_or request_id (py_owned_request_id identity) in
  let? frame := encode_owner_mutation id operation payload (pi_session_id identity)
    (pi_owner_epoch identity) (pi_owner_instance_id identity) (pi_sequence identity) else w in
  async_cluster_route_exact config frame
    (λ response, decode_mutation_response response id operation)
    (Z.to_nat (default (pcl_retry config) retry)) w.

Definition async_cluster_ensure_namespace c i namespace_id request_id retry :=
  method_ensure_namespace (async_cluster_mutate c i request_id retry) namespace_id.
Definition async_cluster_publish_task c i namespace_id task_id objective request_id retry :=
  method_publish_task (async_cluster_mutate c i request_id retry) namespace_id task_id objective.
Definition async_cluster_ensure_group c i namespace_id group_id request_id retry :=
  method_ensure_group (async_cluster_mutate c i request_id retry) namespace_id group_id.
Definition async_cluster_join_group c i group_id member_id capabilities request_id retry :=
  method_join_group (async_cluster_mutate c i request_id retry) group_id member_id capabilities.
Definition async_cluster_heartbeat c i group_id member_id expected_generation request_id retry
    :=
  method_heartbeat (async_cluster_mutate c i request_id retry) group_id member_id
      expected_generation.
Definition async_cluster_leave_group c i group_id member_id expected_generation request_id retry
    :=
  method_leave_group (async_cluster_mutate c i request_id retry) group_id member_id
      expected_generation.
Definition async_cluster_claim_task c i group_id member_id expected_term expected_generation
    lease_id lease_duration_ms request_id retry :=
  method_claim_task (async_cluster_mutate c i request_id retry) group_id member_id expected_term
      expected_generation lease_id lease_duration_ms.
Definition async_cluster_renew_task c i task_id group_id member_id expected_term
    expected_generation expected_lease_epoch lease_id lease_duration_ms request_id retry :=
  method_renew_task (async_cluster_mutate c i request_id retry) task_id group_id member_id
      expected_term expected_generation expected_lease_epoch lease_id lease_duration_ms.
Definition async_cluster_complete_task c i task_id group_id member_id expected_term
    expected_generation expected_lease_epoch lease_id result request_id retry :=
  method_complete_task (async_cluster_mutate c i request_id retry) task_id group_id member_id
      expected_term expected_generation expected_lease_epoch lease_id result.

End async.

(** ** The operations clients ([operations.py], [async_operations.py]) *)

Section operations.
Context `{P : PyStd} {W : Type} `{Net : Network W}.

(** What both make of the line they read. *)
Definition operations_response (max : Z) (response : bytes) : result bytes PyError :=
  match response with
  | [] => Err (PyTransportError "operations server closed without a response")
  | _ =>
      if (max <? Z.of_N (len response))%Z
      then Err (PyTransportError "operations response frame exceeded configured bound")
      else Ok response
  end.

Definition operations_failed (e : string) : PyError :=
  PyTransportError ("operations transport failed: " +:+ e).

Definition operations_round_trip (c : PyOperationsClientConfig) (frame : bytes) (w : W) :
    result bytes PyError * W :=
  let max := po_max_response_frame_bytes c in
  let '(connected, w) := nw_connect (py_address (po_host c) (po_port c)) w in
  let? _ := map_err operations_failed connected else w in
  let '(sent, w) := nw_send frame w in
  let? delivered := map_err operations_failed sent else w in
  let? response := map_err operations_failed (py_readline (Z.to_N (max + 1)) delivered []).1 else w in
  (operations_response max response, w).

(** [except asyncio.LimitOverrunError] does not see the [ValueError] that
    [readline] raises instead. *)
Definition async_operations_round_trip (c : PyOperationsClientConfig) (frame : bytes) (w : W) :
    result bytes PyError * W :=
  let max := po_max_response_frame_bytes c in
  let '(connected, w) := nw_connect (py_address (po_host c) (po_port c)) w in
  let? _ := map_err operations_failed connected else w in
  let '(sent, w) := nw_send frame w in
  let? delivered := map_err operations_failed sent else w in
  let? response := py_async_readline (Z.to_N (max + 1)) delivered [] else w in
  (operations_response max response, w).

Definition describe_group (c : PyOperationsClientConfig) (group_id : string) (w : W) :
    result PyConsumerGroupDescription PyError * W :=
  let? frame := encode_describe_group group_id else w in
  let! response, w := operations_round_trip c frame w in
  (decode_describe_group response, w).

Definition list_groups (c : PyOperationsClientConfig) (limit : Z) (after_group_id : option string)
    (w : W) : result PyConsumerGroupPage PyError * W :=
  let? frame := encode_list_groups limit after_group_id else w in
  let! response, w := operations_round_trip c frame w in
  (decode_list_groups response, w).

Definition async_describe_group (c : PyOperationsClientConfig) (group_id : string) (w : W) :
    result PyConsumerGroupDescription PyError * W :=
  let? frame := encode_describe_group group_id else w in
  let! response, w := async_operations_round_trip c frame w in
  (decode_describe_group response, w).

Definition async_list_groups (c : PyOperationsClientConfig) (limit : Z)
    (after_group_id : option string) (w : W) : result PyConsumerGroupPage PyError * W :=
  let? frame := encode_list_groups limit after_group_id else w in
  let! response, w := async_operations_round_trip c frame w in
  (decode_list_groups response, w).

End operations.
