(* ===== verification/EndToEnd.v ===== *)
(** * From bytes to answers

    The standalone broker behind its TCP server: a client that writes requests
    and reads lines gets, request by request, the answer of the specified
    broker.  The connection has the state owner for itself; [StateOwner.v]
    shows that jobs of several connections are served one at a time. *)

From S2P Require Import Prelude Values Task Group Messages Machine Recovery Spec Invariant Effect.
From S2P Require Import Broker Changes Valid ReplicatedProps Words ErrorTexts Display Wire Journal.
From S2P Require Import Repository Standalone Sessions Service Dispatch DispatchProps Json.
From S2P Require Import WireSchema WireV1 WireV1Props WireResponseProps WireVersions.
From S2P Require Import WireVersionsProps Runtime StateOwner Server.

(** ** Answers the wire can carry *)

Definition wire_sound (s : BrokerState) : Prop := StateInv s ∧ valid_state s ∧ word_state s.

Lemma spec_handle_sound cmd s :
  valid_command cmd → word_command cmd s → StateInv (spec_handle cmd s).2 →
  wire_sound s → wire_sound (spec_handle cmd s).2.
Proof.
  intros Hv Hw Hi (_ & Hs & Hws). split_and!; [done|by apply spec_handle_valid|].
  by apply spec_handle_words.
Qed.

Lemma metadata_words s md :
  md = metadata (bare s) → wire_sound s → positive_word (md_term md) ∧ word (md_revision md).
Proof. intros -> (Hi & _ & [Ht Hr _ _ _]). split; [split; [apply Hi|done]|done]. Qed.

Lemma outcome_payload cmd s m s' d :
  valid_command cmd → spec_handle cmd s = (Ok m, s') → wire_sound s' →
  dispatched m = Some d → valid_payload (success_of_dispatch d).
Proof.
  intros Hc Hm Hs Hd. pose proof Hs as (Hi & Hv & Hw).
  pose proof (spec_handle_answer cmd s Hc) as Ha. pose proof (spec_handle_in_words cmd s) as Hin.
  unfold answers, in_words in *. rewrite Hm in Ha, Hin. cbn [fst snd] in *.
  specialize (Ha Hv (si_term _ Hi)). destruct (Hin Hw Hi) as [Hn Hmd].
  destruct (metadata_words s' _ Hmd Hs) as [Hterm Hrev]. clear Hin Hmd Hm.
  destruct m as [[]|[]|[]|[]|[]|[? [] [] [] [] [] [] ?]|[]|[]|[]|[]]; simplify_eq/=; try done;
    cbn [valid_payload success_of_dispatch] in *; simpl in *; unfold claim_shape; naive_solver.
Qed.

(** ** Requests as commands *)

Definition word_policy (p : BrokerCapacityPolicy) : Prop :=
  word (max_namespaces p) ∧ word (max_tasks_per_namespace p) ∧
  word (max_groups_per_namespace p) ∧ word (max_members_per_group p).

Lemma normalize_fits values acc :
  Forall (λ c, Capability_new c = Ok c) values → ∃ s, normalize_capabilities values acc = Ok s.
Proof.
  intros Hv. revert acc. induction Hv as [|c values Hc Hv IH]; intros acc; cbn; [eauto|].
  rewrite Hc. apply IH.
Qed.

Lemma declared_normalizes caps :
  valid_declared caps → ∃ c, Capabilities_new caps = Ok c ∧ valid_capabilities c.
Proof.
  intros [Hl Hv]. destruct (normalize_fits caps ∅ Hv) as [s Hs].
  assert (Capabilities_new caps = Ok (bset_iter s)) as Hc.
  { unfold Capabilities_new. rewrite Hs.
    by rewrite (proj2 (N.ltb_ge _ _) (Hl : len caps ≤ MAX_CAPABILITIES)). }
  exists (bset_iter s). split; [done|]. by eapply Capabilities_new_idem.
Qed.

Lemma request_command_bounded p r t :
  valid_request r → word_policy p →
  ∃ c, request_command p r t = Ok c ∧ from_option bounded_command True c.
Proof.
  unfold valid_request, word_policy, word. intros [_ Hr] Hp.
  destruct r as [r|r|r|r|r|r|r|r|r|r]; cbn [request_command] in *; try (eexists; split; [done|]).
  5: { destruct Hr as (? & ? & Hd). apply declared_normalizes in Hd as (c & -> & Hc).
       eexists. split; [done|]. split; [split_and!; naive_solver|done]. }
  all: cbn; unfold bounded_command, word; cbn; naive_solver.
Qed.

(** ** The specified answer to a request *)

(** The broker as a client sees it: the answer to a request at time [t], and the
    state after it. *)
Definition spec_answer (p : BrokerCapacityPolicy) (r : BrokerRequest) (t : TimestampMs)
    (s : BrokerState) : result DispatchResult BrokerError * BrokerState :=
  match request_command p r t with
  | Err e => (Err (normalization_error e), s)
  | Ok None => (Ok (DHealth {| bh_term := s_term s; bh_revision := s_revision s;
      bh_protocol_version := 1 |}), s)
  | Ok (Some cmd) =>
      let '(m, s') := spec_handle cmd s in
      match m with
      | Ok m => (ok_or (dispatched m) (unexpected_result "answer"), s')
      | Err e => (Err (from_state_machine_error e), s')
      end
  end.

(** The answer is the specified one, or the adapter failed, with or without
    the effect. *)
Definition answered (p : BrokerCapacityPolicy) (r : BrokerRequest) (t : TimestampMs)
    (s : BrokerState) (res : result DispatchResult BrokerError) (s' : BrokerState) : Prop :=
  spec_answer p r t s = (res, s') ∨
  ∃ e, res = Err e ∧ adapter_failure e ∧ (s' = s ∨ s' = (spec_answer p r t s).2).

Section node.
Context `{L : JsonLaws}.

Abbreviation Service := (BrokerApplicationService StandaloneNode).

Definition node_state (s : Service) : BrokerState := al_state (svc_consensus s).

(** The request's command is one the standalone adapter's promise covers. *)
Definition request_fits (r : BrokerRequest) (t : TimestampMs) (s : Service) : Prop :=
  ∀ cmd, request_command (svc_capacity s) r t = Ok (Some cmd) → al_fit cmd (svc_consensus s).

Record node_ok (s : Service) : Prop := {
  no_inv : al_inv (svc_consensus s);
  no_sound : wire_sound (node_state s);
  no_policy : word_policy (svc_capacity s);
}.

(** The request is dispatched as specified, the node stays sound, and the answer
    can be carried by a response unless it is a failure with a long text. *)
Definition deliverable (r : BrokerRequest) (res : result DispatchResult BrokerError) : Prop :=
  match res with
  | Ok d => answers_operation (request_operation r) (success_of_dispatch d) ∧
      valid_payload (success_of_dispatch d)
  | Err e => adapter_failure e ∨ str_len (be_message e) ≤ MAX_ERROR_MESSAGE_BYTES
  end.

Lemma performed_answer (s s' : Service) r t cmd res :
  request_command (svc_capacity s) r t = Ok (Some cmd) → performed cmd s res s' →
  answered (svc_capacity s) r t (node_state s) res (node_state s').
Proof.
  intros Hc (_ & _ & s0 & <- & Hp). unfold answered, spec_answer, node_state, proposed in *.
  rewrite Hc. destruct res as [d|e].
  - destruct Hp as (m & Hp & Hd). left. rewrite Hp. by rewrite Hd.
  - destruct Hp as [(err & Hp & ->)|[Hf Hp]]; [left; by rewrite Hp|right].
    exists e. split_and!; [done..|]. destruct Hp as [Hp|Hp]; [by left|right].
    rewrite Hp. by destruct (spec_handle cmd _) as [[m|x] s1].
Qed.

Lemma performed_state (s s' : Service) cmd res :
  performed cmd s res s' →
  node_state s' = node_state s ∨ node_state s' = (spec_handle cmd (node_state s)).2.
Proof.
  intros (_ & _ & s0 & <- & Hr). unfold node_state, proposed in *. destruct res as [d|e].
  - destruct Hr as (m & Hr & _). right. by rewrite Hr.
  - destruct Hr as [(err & Hr & _)|[_ Hr]]; [right; by rewrite Hr|done].
Qed.

Lemma performed_sound (s s' : Service) cmd res :
  node_ok s → bounded_command cmd → al_fit cmd (svc_consensus s) → performed cmd s res s' →
  node_ok s'.
Proof.
  intros [Hi Hs Hp] [Hv Hb] (Ha & _) Hr. pose proof Hr as (Hc & Hi' & _).
  split; [done| |by rewrite Hc].
  assert (word_command cmd (node_state s)) as Hw by (destruct cmd; cbn in *; naive_solver).
  destruct (performed_state _ _ _ _ Hr) as [->|Hst]; [done|].
  rewrite Hst. apply spec_handle_sound; try done. rewrite <-Hst. exact (inv_state _ (proj1 Hi')).
Qed.

Lemma performed_deliverable (s s' : Service) r t cmd res :
  node_ok s → node_ok s' → bounded_command cmd →
  request_command (svc_capacity s) r t = Ok (Some cmd) → performed cmd s res s' →
  deliverable r res.
Proof.
  intros Hs Hs' Hb Hc Hr. destruct res as [d|e].
  - split.
    + apply (dispatch_answers_operation r t s s' d). unfold dispatch_spec. by rewrite Hc.
    + destruct Hr as (_ & _ & s0 & <- & m & Hp & Hd).
      eapply (outcome_payload cmd _ m); [apply Hb|exact Hp|apply Hs'|done].
  - destruct Hr as (_ & _ & s0 & <- & [(err & Hp & ->)|[Hf _]]); [right|by left].
    destruct (no_sound _ Hs) as (Hi & _ & Hw).
    etrans; [by eapply rejection_short|]. by vm_compute.
Qed.

Lemma dispatch_step (s : Service) r t :
  node_ok s → valid_request r → request_fits r t s →
  let '(res, s') := dispatch r t s in
  answered (svc_capacity s) r t (node_state s) res (node_state s') ∧
  node_ok s' ∧ svc_capacity s' = svc_capacity s ∧ deliverable r res.
Proof.
  intros Hs Hr Hf. pose proof (dispatch_meets_spec r t s (no_inv _ Hs) Hf) as Hd.
  destruct (dispatch r t s) as [res s']. cbn [fst snd] in Hd. unfold dispatch_spec in Hd.
  destruct (request_command_bounded _ r t Hr (no_policy _ Hs)) as (c & Hc & Hb).
  rewrite Hc in Hd. destruct c as [cmd|].
  - pose proof (performed_sound _ _ _ _ Hs Hb (Hf cmd Hc) Hd) as Hs'.
    split_and!; [by eapply performed_answer|done|apply Hd|].
    exact (performed_deliverable _ _ _ _ _ _ Hs Hs' Hb Hc Hd).
  - destruct Hd as [-> ->]. split_and!; [|done..|].
    + left. unfold spec_answer. by rewrite Hc.
    + destruct r; try done; [split; [done|]|].
      * destruct (metadata_words (node_state s) _ eq_refl (no_sound _ Hs)). done.
      * cbn in Hc. by destruct (Capabilities_new _).
Qed.

(** ** Conversations *)

(** The server process as one connection sees it: the service, the readings of
    the system clock to come, and the frames written. *)
Record ServerState := MkServer {
  sv_service : Service;
  sv_clock : list (option N);
  sv_out : list bytes;
}.

Definition standalone_env : ConnectionEnv ServerState := {|
  ce_dispatch request t w :=
    let '(r, service) := dispatch_wire_request request t (sv_service w) in
    (Ok (respond (wire_request_id request) r), MkServer service (sv_clock w) (sv_out w));
  ce_clock w := (system_clock_ms (default None (head (sv_clock w))),
    MkServer (sv_service w) (tail (sv_clock w)) (sv_out w));
  ce_write frame w := (Ok (), MkServer (sv_service w) (sv_clock w) (sv_out w ++ [frame])%list);
|}.

(** The requests are valid, the clock fits 64 bits, and every command fits when
    its turn comes. *)
Fixpoint orderly (requests : list BrokerRequest) (times : list TimestampMs) (s : Service) : Prop :=
  match requests, times with
  | [], _ => True
  | r :: rs, t :: ts =>
      valid_request r ∧ word t ∧ request_fits r t s ∧ orderly rs ts (dispatch r t s).2
  | _ :: _, [] => False
  end.

End node.

(** What the client of a request reads in the answer. *)
Definition received (res : result DispatchResult BrokerError) :
    result SuccessPayload ResponseDecodeError :=
  match res with
  | Ok d => Ok (success_of_dispatch d)
  | Err e => Err (RdBroker (BrokerError_new (be_code e) (be_message e)))
  end.

Section conversation.
Context `{LJ : JsonLaws} `{LS : SerdeJsonLaws} (max : N).

(** The frames answer the requests in order, each with the answer of the broker
    to it. *)
Fixpoint spoken (p : BrokerCapacityPolicy) (requests : list BrokerRequest)
    (times : list TimestampMs) (frames : list bytes) (s s' : BrokerState) : Prop :=
  match requests, times, frames with
  | [], _, [] => s' = s
  | r :: rs, t :: ts, f :: fs => ∃ res s1,
      answered p r t s res s1 ∧
      decode_response_for_operation_with_limit f (request_request_id r) (request_operation r) max =
        received res ∧
      spoken p rs ts fs s1 s'
  | _, _, _ => False
  end.

Lemma respond_valid r res :
  deliverable r res → (∀ e, res = Err e → str_len (be_message e) ≤ MAX_ERROR_MESSAGE_BYTES) →
  valid_response (request_operation r) (respond (request_request_id r) res).
Proof. destruct res as [d|e]; [done|]. intros _ He. by apply He. Qed.

Lemma respond_reads_back r res f :
  deliverable r res → encode_response_with_limit (respond (request_request_id r) res) max = Ok f →
  decode_response_for_operation_with_limit f (request_request_id r) (request_operation r) max =
    received res.
Proof.
  intros Hd He. assert (∀ e, res = Err e → str_len (be_message e) ≤ MAX_ERROR_MESSAGE_BYTES) as Hm.
  { intros e ->. cbn in He. unfold encode_response_with_limit, response_root,
      ensure_error_message_bound in He. cbn in He.
    by destruct (N.leb_spec (str_len (be_message e)) MAX_ERROR_MESSAGE_BYTES). }
  pose proof (encode_response_spec _ _ max (respond_valid r res Hd Hm)) as Hr.
  rewrite He in Hr. destruct Hr as (_ & _ & Hr).
  replace (request_request_id r) with (response_request_id (respond (request_request_id r) res))
    by (by destruct res). rewrite Hr. by destruct res.
Qed.

Lemma lines_frames frames :
  Forall (λ f, ∃ b, f = b ++ [newline] ∧ newline ∉ b)%list frames →
  lines (concat frames) = (frames, []).
Proof.
  induction 1 as [|f fs (b & -> & Hb) _ IH]; [done|]. cbn [concat]. rewrite lines_first.
  rewrite <-app_assoc, newline_position_app, (newline_position_none b Hb).
  change (newline_position ([newline] ++ concat fs)%list) with (Some 0%nat). cbn [option_map].
  replace (S (length b + 0)) with (length (b ++ [newline]))%list by (rewrite length_app; simpl; lia).
  change (newline :: concat fs) with ([newline] ++ concat fs)%list. rewrite app_assoc.
  rewrite drop_app_length, take_app_length. by rewrite IH.
Qed.

(** One request of a conversation. *)
Lemma handle_request_frame (s : BrokerApplicationService StandaloneNode) r t f clock out :
  valid_request r → word t → encode_request_with_limit r max = Ok f →
  handle_frame standalone_env max f (MkServer s (Some t :: clock) out) =
    let '(res, s') := dispatch r t s in
    match encode_response_with_limit (respond (request_request_id r) res) max with
    | Ok frame => (Ok (), MkServer s' clock (out ++ [frame])%list)
    | Err e => (Err (RuntimeProtocol e), MkServer s' clock out)
    end.
Proof.
  intros Hr Ht Hf. pose proof (wire_request_reads_back (WireV1 r) max Hr) as Hd.
  cbn [encode_wire_request_with_limit] in Hd. rewrite Hf in Hd. destruct Hd as [Hd _].
  unfold handle_frame. rewrite Hd. unfold answer.
  change (ce_clock standalone_env (MkServer s (Some t :: clock) out))
    with (system_clock_ms (Some t), MkServer s clock out).
  unfold system_clock_ms. cbn [ok_or]. rewrite word_leb by done.
  cbn [ce_dispatch standalone_env dispatch_wire_request sv_service]. destruct (dispatch r t s) as [res s'].
  unfold encode_for_version. cbn -[encode_response_with_limit].
  by destruct (encode_response_with_limit _ max).
Qed.

(** An answer that cannot be encoded: under the default frame limit it is a
    failure of the adapter with a text of more than 4 KiB. *)
Definition undeliverable (r : BrokerRequest) (res : result DispatchResult BrokerError)
    (e : ProtocolCodecError) : Prop :=
  encode_response_with_limit (respond (request_request_id r) res) max = Err e ∧
  (DEFAULT_MAX_FRAME_BYTES ≤ max → ∃ err,
    res = Err err ∧ adapter_failure err ∧ MAX_ERROR_MESSAGE_BYTES < str_len (be_message err)).

Lemma deliverable_fits r res e :
  valid_request r → deliverable r res →
  encode_response_with_limit (respond (request_request_id r) res) max = Err e →
  undeliverable r res e.
Proof.
  intros Hr Hd He. split; [done|]. intros Hmax.
  assert (¬ ∀ err, res = Err err → str_len (be_message err) ≤ MAX_ERROR_MESSAGE_BYTES) as Hm.
  { intros Hm. destruct (response_fits _ _ max (respond_valid r res Hd Hm)) as [f Hf];
      [|done|congruence]. destruct res; apply Hr. }
  destruct res as [d|err]; [exfalso; by apply Hm|]. exists err. split; [done|].
  destruct (N.le_gt_cases (str_len (be_message err)) MAX_ERROR_MESSAGE_BYTES).
  - exfalso. apply Hm. by intros ? [= <-].
  - destruct Hd as [Hd|Hd]; [done|lia].
Qed.

(** How far a conversation went: to the end, or to a request that was
    performed but whose answer could not be encoded. *)
Definition conversed (p : BrokerCapacityPolicy) (requests : list BrokerRequest)
    (times : list TimestampMs) (out : list bytes) (s s' : BrokerState)
    (outcome : result unit RuntimeError) : Prop :=
  (outcome = Ok () ∧ spoken p requests times out s s') ∨
  ∃ before r after t res s1 e,
    requests = (before ++ r :: after)%list ∧ times !! length before = Some t ∧
    spoken p before times out s s1 ∧ answered p r t s1 res s' ∧
    undeliverable r res e ∧ outcome = Err (RuntimeProtocol e).

Lemma serve_conversation (s : BrokerApplicationService StandaloneNode) requests times frames out :
  node_ok s → orderly requests times s →
  Forall2 (λ r f, encode_request_with_limit r max = Ok f) requests frames →
  let '(r, w) := serve_lines standalone_env max frames [] None
                   (MkServer s (map Some times) out) in
  ∃ said, sv_out w = (out ++ said)%list ∧ node_ok (sv_service w) ∧
    conversed (svc_capacity s) requests times said (node_state s) (node_state (sv_service w)) r.
Proof.
  intros Hs Ho Hf. revert s times out Hs Ho.
  induction Hf as [|r f rs fs Hf Hfs IH]; intros s times out Hs Ho.
  { cbn [serve_lines]. change (len []) with 0. destruct (N.ltb_spec max 0); [lia|].
    exists []. rewrite app_nil_r. split_and!; [done..|]. by left. }
  destruct times as [|t ts]; [done|]. destruct Ho as (Hr & Ht & Hfit & Ho).
  cbn [serve_lines map]. pose proof (encode_request_spec r max Hr) as He. rewrite Hf in He.
  destruct He as (Hl & _). rewrite (proj2 (N.ltb_ge _ _) Hl).
  rewrite (handle_request_frame s r t f _ out Hr Ht Hf).
  pose proof (dispatch_step s r t Hs Hr Hfit) as Hd.
  destruct (dispatch r t s) as [res s']. cbn [snd] in Ho. destruct Hd as (Ha & Hs' & Hc & Hdel).
  destruct (encode_response_with_limit _ max) as [frame|e] eqn:Hrsp.
  - specialize (IH s' ts (out ++ [frame])%list Hs' Ho).
    destruct (serve_lines _ _ fs _ _ _) as [rr w]. destruct IH as (said & Hout & Hw & IH).
    exists (frame :: said). rewrite Hout, <-app_assoc. split_and!; [done..|]. rewrite Hc in IH.
    pose proof (respond_reads_back r res frame Hdel Hrsp) as Hdec.
    destruct IH as [[-> IH]|(before & rq & after & tq & resq & s1 & e & -> & Htq & Hsp & IH)];
      [left; split; [done|by exists res, (node_state s')]|right].
    exists (r :: before), rq, after, tq, resq, s1, e.
    split_and!; [done|done|by exists res, (node_state s')|apply IH..].
  - exists []. rewrite app_nil_r. split_and!; [done..|]. right.
    exists [], r, rs, t, res, (node_state s), e. split_and!; try done. by apply deliverable_fits.
Qed.

Lemma connection_conversation (s : BrokerApplicationService StandaloneNode) requests times frames
    chunks fuel :
  node_ok s → orderly requests times s →
  Forall2 (λ r f, encode_request_with_limit r max = Ok f) requests frames →
  Forall (λ c, c ≠ []) chunks → concat chunks = concat frames →
  (length requests < fuel)%nat →
  ∃ r w, handle_connection standalone_env max fuel (reader_of chunks None)
           (MkServer s (map Some times) []) = Some (r, w) ∧
    node_ok (sv_service w) ∧
    conversed (svc_capacity s) requests times (sv_out w) (node_state s)
      (node_state (sv_service w)) r.
Proof.
  intros Hs Ho Hf Hne Hch Hfuel.
  assert (lines (concat chunks) = (frames, [])) as Hl.
  { rewrite Hch. apply lines_frames. clear -Hf Ho LS. revert times s Ho.
    induction Hf as [|r f rs fs Hf Hfs IH]; intros times s Ho; [constructor|].
    destruct times as [|t ts]; [done|]. destruct Ho as (Hr & _ & _ & Ho).
    constructor; [|by eapply IH]. pose proof (encode_request_spec r max Hr) as He.
    rewrite Hf in He. by destruct He as (_ & ? & _). }
  rewrite connection_serves_lines by (try done; rewrite Hl; cbn; by rewrite <-(Forall2_length _ _ _ Hf)).
  rewrite Hl. pose proof (serve_conversation s requests times frames [] Hs Ho Hf) as Hc.
  destruct (serve_lines _ _ _ _ _ _) as [r w]. destruct Hc as (said & Hout & Hw & Hc).
  exists r, w. cbn in Hout. by rewrite Hout.
Qed.
End conversation.
