(* ===== verification/ClusterNode.v ===== *)
(** * The cluster node ([agent-broker-consensus/src/cluster_raft.rs])

    The adapter that puts the application service on one member of an OpenRaft
    cluster.  OpenRaft is a parameter, the class [RaftEngine]: its calls, over
    some engine state, and the readings of the observation cell, the clock and
    the RPC listener that the controller makes between them. *)

From stdpp Require Import pretty.
From S2P Require Import Prelude Values Task Group Messages Machine Recovery Display Replicated.
From S2P Require Import Sessions Observation Service.

(** ** Configuration *)

(** Durations are in nanoseconds.  [cc_nodes] is what [validate] reads of an
    advertised address: whether it parses as a socket address. *)
Record ClusterRaftConfig := {
  cc_node_id : N;
  cc_nodes : gmap N bool;
  cc_bootstrap : bool;
  cc_snapshot_log_interval : N;
  cc_replication_lag_threshold : N;
  cc_max_in_snapshot_log_to_keep : N;
  cc_identified_write_timeout : N;
  cc_rpc_connect_timeout : N;
  cc_election_timeout_min_ms : N;
  cc_election_timeout_max_ms : N;
  cc_heartbeat_interval_ms : N;
}.

Definition THREE_NODE_CLUSTER_SIZE : N := 3.
Definition MAX_IDENTIFIED_WRITE_TIMEOUT : N := 60 * 1000000000.
Definition MAX_RPC_CONNECT_TIMEOUT : N := 30 * 1000000000.

Definition invalid_config (message : string) : BrokerError := BrokerError_new InvalidRequest message.

Definition validate_snapshot_catch_up_policy (c : ClusterRaftConfig) : result unit BrokerError :=
  if cc_snapshot_log_interval c =? 0
  then Err (invalid_config "cluster Raft snapshot log interval must be greater than zero")
  else if cc_replication_lag_threshold c <=? cc_snapshot_log_interval c
  then Err (invalid_config
    "cluster Raft replication lag threshold must exceed the snapshot log interval")
  else Ok ().

Definition validate_identified_write_timeout (c : ClusterRaftConfig) : result unit BrokerError :=
  if (cc_identified_write_timeout c =? 0) ||
     (MAX_IDENTIFIED_WRITE_TIMEOUT <? cc_identified_write_timeout c)
  then Err (invalid_config "cluster identified write timeout must be between 1ns and 60s")
  else Ok ().

Definition validate_rpc_connect_timeout (c : ClusterRaftConfig) : result unit BrokerError :=
  if (cc_rpc_connect_timeout c =? 0) || (MAX_RPC_CONNECT_TIMEOUT <? cc_rpc_connect_timeout c)
  then Err (invalid_config "cluster Raft RPC connect timeout must be between 1ns and 30s")
  else Ok ().

Definition validate_raft_timing (c : ClusterRaftConfig) : result unit BrokerError :=
  if cc_election_timeout_max_ms c <=? cc_election_timeout_min_ms c
  then Err (invalid_config "cluster election_timeout_min must be below election_timeout_max")
  else if cc_election_timeout_min_ms c <=? cc_heartbeat_interval_ms c
  then Err (invalid_config "cluster election_timeout_min must be greater than heartbeat_interval")
  else Ok ().

(** [tls] is the outcome of [ClusterRaftTlsConfig::validate]. *)
Definition validate_cluster (tls : result unit BrokerError) (c : ClusterRaftConfig) :
    result unit BrokerError :=
  if cc_node_id c =? 0
  then Err (invalid_config "cluster Raft node_id must be greater than zero")
  else if negb (msize (cc_nodes c) =? THREE_NODE_CLUSTER_SIZE)
  then Err (invalid_config "initial Agent Broker cluster topology must contain exactly three nodes")
  else if negb (bool_decide (is_Some (cc_nodes c !! cc_node_id c)))
  then Err (invalid_config "cluster Raft topology does not contain the local node_id")
  else if existsb (λ kv, (kv.1 =? 0) || negb kv.2) (bmap_iter (cc_nodes c))
  then Err (invalid_config ("cluster Raft node IDs must be positive and advertised addresses " +:+
    "must be pre-resolved IP socket addresses"))
  else
    let^ _ := validate_snapshot_catch_up_policy c in
    let^ _ := validate_identified_write_timeout c in
    let^ _ := validate_rpc_connect_timeout c in
    let^ _ := tls in
    validate_raft_timing c.

Definition ClusterRaftConfig_new (node_id : N) (nodes : gmap N bool) (tls : result unit BrokerError)
    (bootstrap : bool) : result ClusterRaftConfig BrokerError :=
  let config := {|
    cc_node_id := node_id; cc_nodes := nodes; cc_bootstrap := bootstrap;
    cc_snapshot_log_interval := 256; cc_replication_lag_threshold := 5000;
    cc_max_in_snapshot_log_to_keep := 1000; cc_identified_write_timeout := 2 * 1000000000;
    cc_rpc_connect_timeout := 1000000000; cc_election_timeout_min_ms := 1000;
    cc_election_timeout_max_ms := 2000; cc_heartbeat_interval_ms := 100 |} in
  let^ _ := validate_cluster tls config in
  Ok config.

Definition with_snapshot_catch_up_policy (interval lag keep : N) (c : ClusterRaftConfig) :
    result ClusterRaftConfig BrokerError :=
  let c := {| cc_node_id := cc_node_id c; cc_nodes := cc_nodes c; cc_bootstrap := cc_bootstrap c;
    cc_snapshot_log_interval := interval; cc_replication_lag_threshold := lag;
    cc_max_in_snapshot_log_to_keep := keep;
    cc_identified_write_timeout := cc_identified_write_timeout c;
    cc_rpc_connect_timeout := cc_rpc_connect_timeout c;
    cc_election_timeout_min_ms := cc_election_timeout_min_ms c;
    cc_election_timeout_max_ms := cc_election_timeout_max_ms c;
    cc_heartbeat_interval_ms := cc_heartbeat_interval_ms c |} in
  let^ _ := validate_snapshot_catch_up_policy c in
  Ok c.

Definition with_snapshot_log_interval (interval : N) (c : ClusterRaftConfig) :
    result ClusterRaftConfig BrokerError :=
  with_snapshot_catch_up_policy interval (cc_replication_lag_threshold c)
    (cc_max_in_snapshot_log_to_keep c) c.

Definition with_identified_write_timeout (timeout : N) (c : ClusterRaftConfig) :
    result ClusterRaftConfig BrokerError :=
  let c := {| cc_node_id := cc_node_id c; cc_nodes := cc_nodes c; cc_bootstrap := cc_bootstrap c;
    cc_snapshot_log_interval := cc_snapshot_log_interval c;
    cc_replication_lag_threshold := cc_replication_lag_threshold c;
    cc_max_in_snapshot_log_to_keep := cc_max_in_snapshot_log_to_keep c;
    cc_identified_write_timeout := timeout; cc_rpc_connect_timeout := cc_rpc_connect_timeout c;
    cc_election_timeout_min_ms := cc_election_timeout_min_ms c;
    cc_election_timeout_max_ms := cc_election_timeout_max_ms c;
    cc_heartbeat_interval_ms := cc_heartbeat_interval_ms c |} in
  let^ _ := validate_identified_write_timeout c in
  Ok c.

Definition with_rpc_connect_timeout (timeout : N) (c : ClusterRaftConfig) :
    result ClusterRaftConfig BrokerError :=
  let c := {| cc_node_id := cc_node_id c; cc_nodes := cc_nodes c; cc_bootstrap := cc_bootstrap c;
    cc_snapshot_log_interval := cc_snapshot_log_interval c;
    cc_replication_lag_threshold := cc_replication_lag_threshold c;
    cc_max_in_snapshot_log_to_keep := cc_max_in_snapshot_log_to_keep c;
    cc_identified_write_timeout := cc_identified_write_timeout c;
    cc_rpc_connect_timeout := timeout;
    cc_election_timeout_min_ms := cc_election_timeout_min_ms c;
    cc_election_timeout_max_ms := cc_election_timeout_max_ms c;
    cc_heartbeat_interval_ms := cc_heartbeat_interval_ms c |} in
  let^ _ := validate_rpc_connect_timeout c in
  Ok c.

(** [duration_millis_u64] on nanoseconds. *)
Definition duration_millis_u64 (duration : N) (label : string) : result N BrokerError :=
  let millis := duration / 1000000 in
  if u64_max <? millis then Err (invalid_config (label +:+ " exceeds u64 milliseconds"))
  else if millis =? 0 then Err (invalid_config (label +:+ " must be at least one millisecond"))
  else Ok millis.

Definition with_raft_timing (election_min election_max heartbeat : N) (c : ClusterRaftConfig) :
    result ClusterRaftConfig BrokerError :=
  let^ election_min := duration_millis_u64 election_min "cluster election_timeout_min" in
  let^ election_max := duration_millis_u64 election_max "cluster election_timeout_max" in
  let^ heartbeat := duration_millis_u64 heartbeat "cluster heartbeat_interval" in
  let c := {| cc_node_id := cc_node_id c; cc_nodes := cc_nodes c; cc_bootstrap := cc_bootstrap c;
    cc_snapshot_log_interval := cc_snapshot_log_interval c;
    cc_replication_lag_threshold := cc_replication_lag_threshold c;
    cc_max_in_snapshot_log_to_keep := cc_max_in_snapshot_log_to_keep c;
    cc_identified_write_timeout := cc_identified_write_timeout c;
    cc_rpc_connect_timeout := cc_rpc_connect_timeout c;
    cc_election_timeout_min_ms := election_min; cc_election_timeout_max_ms := election_max;
    cc_heartbeat_interval_ms := heartbeat |} in
  let^ _ := validate_raft_timing c in
  Ok c.

(** ** Progress and readiness *)

Record ClusterRaftProgress := {
  cp_node_id : N;
  cp_raft_rpc_addr : string;
  cp_raft_rpc_queued_connections : N;
  cp_raft_rpc_active_connections : N;
  cp_raft_term : N;
  cp_last_log_index : option N;
  cp_committed_index : option N;
  cp_applied_index : option N;
  cp_snapshot_index : option N;
  cp_purged_index : option N;
  cp_broker_term : Term;
  cp_broker_revision : Revision;
  cp_current_leader : option N;
  cp_voters : gset N;
  cp_learners : gset N;
}.

Inductive ClusterRaftReadinessStatus :=
  | RdReady | RdFollower | RdNoLeader | RdQuorumUnavailable | RdConsensusFailStopped
  | RdConsensusUnavailable | RdObservationSaturated | RdProbeTimedOut.

#[export] Instance readiness_eq_dec : EqDecision ClusterRaftReadinessStatus.
Proof. solve_decision. Defined.

Definition readiness_as_str (s : ClusterRaftReadinessStatus) : string :=
  match s with
  | RdReady => "ready"
  | RdFollower => "follower"
  | RdNoLeader => "no_leader"
  | RdQuorumUnavailable => "quorum_unavailable"
  | RdConsensusFailStopped => "consensus_fail_stopped"
  | RdConsensusUnavailable => "consensus_unavailable"
  | RdObservationSaturated => "observation_saturated"
  | RdProbeTimedOut => "probe_timed_out"
  end.

Record ClusterRaftReadiness := MkReadiness {
  rd_status : ClusterRaftReadinessStatus;
  rd_progress : option ClusterRaftProgress;
}.

Definition is_write_ready (r : ClusterRaftReadiness) : bool :=
  match rd_status r with RdReady => true | _ => false end.

(** ** The engine *)

Record RaftMetrics := {
  rx_current_term : N;
  rx_last_log_index : option N;
  rx_snapshot : option N;
  rx_purged : option N;
  rx_current_leader : option N;
  rx_voters : gset N;
  rx_learners : gset N;
}.

(** What the receiver of [client_write_ff] delivers within the write timeout. *)
Inductive WriteReceipt :=
  | WriteTimedOut
  | WriteDropped (e : string)
  | WriteAnswered (r : result ReplicatedBrokerResponseV1 string).

(** What [ensure_linearizable] gives within the rest of the deadline. *)
Inductive Confirmation :=
  | ConfirmTimedOut
  | Confirmed
  | QuorumNotEnough
  | ForwardToLeader
  | ConfirmFatal.

(** The RPC listener: address, queued and active connections. *)
Record RpcServer := { rs_local_addr : string; rs_queued : N; rs_active : N }.

Class RaftEngine (R : Type) := {
  re_current_leader : R → option N * R;
  re_vote_term : R → result N string * R;
  re_committed : R → result (option N) string * R;
  re_metrics : R → RaftMetrics * R;
  re_client_write : ReplicatedBrokerProposalV1 → R → result ReplicatedBrokerResponseV1 string * R;
  re_client_write_ff : ReplicatedBrokerProposalV1 → R → result WriteReceipt string * R;
  re_linearizable : R → Confirmation * R;
  (** a load of the observation cell, the deadline check, the RPC listener *)
  re_observe : R → RaftBrokerObservation * R;
  re_deadline_passed : R → bool * R;
  re_rpc_server : R → option RpcServer;
  (** the [Debug] form of an unexpected result and response *)
  debug_result : BrokerMutationResult → string;
  debug_response : ReplicatedBrokerResponseV1 → string;
}.

Definition raft_fatal_error (e : string) : BrokerError :=
  BrokerError_new PersistenceError ("cluster Raft engine failed: " +:+ e).

Definition raft_engine_error (operation e : string) : BrokerError :=
  BrokerError_new TransportError ("cluster Raft " +:+ operation +:+ " failed: " +:+ e).

Definition not_leader_error (node_id : N) (leader : option N) : BrokerError :=
  BrokerError_new TransportError
    match leader with
    | Some leader => "cluster node " +:+ pretty node_id +:+ " is not leader; current leader is " +:+
                     pretty leader
    | None => "cluster node " +:+ pretty node_id +:+ " is not leader and no current leader is known"
    end.

Definition internal_error (prefix text : string) : BrokerError :=
  BrokerError_new InternalError (prefix +:+ text).

(** ** The controller ([RunningClusterRaft]) *)

Section controller.
Context {R : Type} `{E : RaftEngine R} (node_id : N).

Definition current_raft_term (r : R) : result N BrokerError * R :=
  let '(term, r) := re_vote_term r in (map_err raft_fatal_error term, r).

Definition observed_term (r : R) : result Term BrokerError * R :=
  let '(o, r) := re_observe r in
  (map_err (λ e, BrokerError_new InternalError (to_string e)) (validated_term o), r).

(** [observation.applied_index()]: two loads. *)
Definition observed_applied_index (r : R) : option N * R :=
  let '(o1, r) := re_observe r in
  let '(o2, r) := re_observe r in
  (applied_index o1 o2, r).

Definition sync_broker_term_to_raft (r : R) : result unit BrokerError * R :=
  let! raft_term, r := current_raft_term r in
  let! broker_term, r := observed_term r in
  if raft_term <? broker_term
  then (Err (BrokerError_new PersistenceError ("cluster Raft term " +:+ pretty raft_term +:+
          " is behind committed Broker term " +:+ pretty broker_term)), r)
  else if raft_term =? broker_term then (Ok (), r) else
  let? new_term := map_err (λ e, internal_error
    "cluster Raft produced invalid Broker fencing term: " (to_string e)) (Term_new raft_term)
    else r in
  let? data := map_err (λ e, internal_error
    "failed to encode cluster term-advance command: " (rce_message e))
    (command_to_replicated
       (AdvanceTerm {| at_expected_term := broker_term; at_new_term := new_term |})) else r in
  let '(response, r) := re_client_write (legacy data) r in
  let? response := map_err (raft_engine_error "term synchronization") response else r in
  let? outcome := map_err (λ e, internal_error "failed to decode cluster term response: "
    (rre_message e)) (into_application_result response) else r in
  match outcome with
  | Ok (RTermAdvanced _) => (Ok (), r)
  | Ok other => (Err (internal_error
      "cluster term synchronization returned unexpected result: " (debug_result other)), r)
  | Err e => (Err (internal_error
      "cluster term synchronization was rejected: " (be_message e)), r)
  end.

(** The leader check and the term synchronization before every proposal. *)
Definition ready_to_write (r : R) : result unit BrokerError * R :=
  let '(leader, r) := re_current_leader r in
  if negb (bool_decide (leader = Some node_id))
  then (Err (not_leader_error node_id leader), r)
  else sync_broker_term_to_raft r.

Definition running_propose (command : BrokerCommand) (r : R) :
    result BrokerMutationResult BrokerError * R :=
  let! _, r := ready_to_write r in
  let? data := map_err (λ e, internal_error
    "failed to encode Broker command for cluster Raft: " (rce_message e))
    (command_to_replicated command) else r in
  let '(response, r) := re_client_write (legacy data) r in
  let? response := map_err (raft_engine_error "client_write") response else r in
  let? outcome := map_err (λ e, internal_error
    "failed to decode committed cluster Raft response: " (rre_message e))
    (into_application_result response) else r in
  (outcome, r).

Definition running_propose_identified (identity : CommandIdentity) (command : BrokerCommand)
    (r : R) : result BrokerMutationResult BrokerError * R :=
  let! _, r := ready_to_write r in
  let? data := map_err (λ e, internal_error
    "failed to encode identified Broker command for cluster Raft: " (rce_message e))
    (command_to_replicated command) else r in
  let '(receipt, r) := re_client_write_ff (identified identity data) r in
  let? receipt := map_err raft_fatal_error receipt else r in
  match receipt with
  | WriteTimedOut => (Err (BrokerError_new CommitOutcomeUnknown
      ("identified mutation response deadline elapsed after submission: session=" +:+
       ci_session_id identity +:+ " sequence=" +:+ pretty (ci_sequence identity))), r)
  | WriteDropped e => (Err (raft_engine_error "identified client_write response" e), r)
  | WriteAnswered response =>
      let? response := map_err (raft_engine_error "identified client_write") response else r in
      let? outcome := map_err (λ e, internal_error
        "failed to decode committed identified Raft response: " (rre_message e))
        (into_application_result response) else r in
      (outcome, r)
  end.

Definition running_acquire (session_id : CommandSessionId)
    (expected_owner_epoch : SessionOwnerEpoch) (owner_instance_id : SessionOwnerInstanceId) (r : R) :
    result SessionOwnerEpoch BrokerError * R :=
  let! _, r := ready_to_write r in
  let '(response, r) := re_client_write (legacy (V1AcquireCommandSessionOwner session_id
    expected_owner_epoch owner_instance_id)) r in
  let? response := map_err (raft_engine_error "command-session owner acquisition") response else r in
  (match response with
   | SessionOwnerAcquired owner_epoch => map_err (λ e, internal_error
       "committed command-session owner epoch was invalid: " (to_string e))
       (SessionOwnerEpoch_new owner_epoch)
   | ApplicationError e => Err (error_from_replicated e)
   | other => Err (internal_error
       "command-session owner acquisition returned unexpected response: " (debug_response other))
   end, r).

Definition running_progress (r : R) : result ClusterRaftProgress BrokerError * R :=
  let '(metrics, r) := re_metrics r in
  let '(committed, r) := re_committed r in
  let? committed := map_err raft_fatal_error committed else r in
  let! broker_term, r := observed_term r in
  match re_rpc_server r with
  | None => (Err (BrokerError_new InternalError "cluster Raft RPC server is unavailable"), r)
  | Some server =>
      let '(applied, r) := observed_applied_index r in
      let '(o, r) := re_observe r in
      (Ok {| cp_node_id := node_id; cp_raft_rpc_addr := rs_local_addr server;
             cp_raft_rpc_queued_connections := rs_queued server;
             cp_raft_rpc_active_connections := rs_active server;
             cp_raft_term := rx_current_term metrics;
             cp_last_log_index := rx_last_log_index metrics; cp_committed_index := committed;
             cp_applied_index := applied; cp_snapshot_index := rx_snapshot metrics;
             cp_purged_index := rx_purged metrics; cp_broker_term := broker_term;
             cp_broker_revision := observed_revision o;
             cp_current_leader := rx_current_leader metrics; cp_voters := rx_voters metrics;
             cp_learners := rx_learners metrics |}, r)
  end.

(** The status of a member that is not the leader. *)
Definition follower_status (p : ClusterRaftProgress) : ClusterRaftReadinessStatus :=
  match cp_current_leader p with Some _ => RdFollower | None => RdNoLeader end.

Definition running_readiness (r : R) : ClusterRaftReadiness * R :=
  let '(progress, r) := running_progress r in
  match progress with
  | Err _ => (MkReadiness RdConsensusFailStopped None, r)
  | Ok initial =>
      if negb (bool_decide (cp_current_leader initial = Some node_id))
      then (MkReadiness (follower_status initial) (Some initial), r) else
      let '(passed, r) := re_deadline_passed r in
      if passed then (MkReadiness RdProbeTimedOut (Some initial), r) else
      let '(confirmation, r) := re_linearizable r in
      match confirmation with
      | ConfirmTimedOut => (MkReadiness RdProbeTimedOut (Some initial), r)
      | Confirmed =>
          let '(progress, r) := running_progress r in
          match progress with
          | Ok p => (MkReadiness
              (if bool_decide (cp_current_leader p = Some node_id) then RdReady
               else follower_status p) (Some p), r)
          | Err _ => (MkReadiness RdConsensusFailStopped None, r)
          end
      | QuorumNotEnough => (MkReadiness RdQuorumUnavailable (Some initial), r)
      | ForwardToLeader =>
          let '(progress, r) := running_progress r in
          match progress with
          | Ok p => (MkReadiness (follower_status p) (Some p), r)
          | Err _ => (MkReadiness RdConsensusFailStopped None, r)
          end
      | ConfirmFatal => (MkReadiness RdConsensusFailStopped (Some initial), r)
      end
  end.

Definition running_group_directory (r : R) : result ConsumerGroupDirectory BrokerError * R :=
  let '(readiness, r) := running_readiness r in
  if decide (rd_status readiness = RdReady)
  then let '(o, r) := re_observe r in (Ok (observed_directory o), r)
  else (Err (BrokerError_new TransportError
          ("Consumer Group directory read is unavailable: " +:+
           readiness_as_str (rd_status readiness))), r).

(** The controller's answer to a readiness request: one that waited past its
    deadline is not probed. *)
Definition controller_readiness (r : R) : ClusterRaftReadiness * R :=
  let '(passed, r) := re_deadline_passed r in
  if passed then (MkReadiness RdProbeTimedOut None, r) else running_readiness r.
End controller.

(** ** The observer *)

(** What comes of a readiness request to the controller: the queue is full or
    closed, or the reply arrives in time or not or is dropped. *)
Inductive ProbeOutcome :=
  | ProbeQueueFull
  | ProbeQueueClosed
  | ProbeAnswered (r : ClusterRaftReadiness)
  | ProbeTimeout
  | ProbeDropped.

(** [ClusterRaftObserver::readiness], with the shared fail-stop flag before and
    after. *)
Definition observer_readiness (fail_stopped : bool) (outcome : ProbeOutcome) :
    ClusterRaftReadiness * bool :=
  if fail_stopped then (MkReadiness RdConsensusFailStopped None, true) else
  match outcome with
  | ProbeQueueFull => (MkReadiness RdObservationSaturated None, false)
  | ProbeQueueClosed => (MkReadiness RdConsensusUnavailable None, false)
  | ProbeAnswered r => (r, bool_decide (rd_status r = RdConsensusFailStopped))
  | ProbeTimeout => (MkReadiness RdProbeTimedOut None, false)
  | ProbeDropped => (MkReadiness RdConsensusUnavailable None, false)
  end.

(** ** The adapter *)

(** The controller thread: it serves requests, or accepts one more and drops its
    reply, or is gone.  The observation cell outlives it. *)
Inductive Controller (R : Type) := Running (r : R) | Dying (r : R) | Gone (r : R).
Arguments Running {R} _.
Arguments Dying {R} _.
Arguments Gone {R} _.

Definition controller_engine {R} (c : Controller R) : R :=
  match c with Running r | Dying r | Gone r => r end.

Record ClusterRaftConsensusAdapter (R : Type) := MkCluster {
  cr_node_id : N;
  cr_controller : Controller R;
  cr_fail_stopped : bool;
}.
Arguments MkCluster {R} _ _ _.
Arguments cr_node_id {R} _.
Arguments cr_controller {R} _.
Arguments cr_fail_stopped {R} _.

Definition should_poison (e : BrokerError) : bool :=
  match be_code e with PersistenceError | InternalError => true | _ => false end.

Section adapter.
Context {R : Type} `{E : RaftEngine R}.

Abbreviation Adapter := (ClusterRaftConsensusAdapter R).

Definition ensure_available (a : Adapter) : result unit BrokerError :=
  if cr_fail_stopped a
  then Err (BrokerError_new PersistenceError
    "cluster Raft consensus adapter is fail-stopped after an engine failure")
  else Ok ().

(** [request]: the outer error is that of the channel. *)
Definition request {T} (serve : R → T * R) (a : Adapter) : result T BrokerError * Adapter :=
  match cr_controller a with
  | Running r =>
      let '(t, r) := serve r in (Ok t, MkCluster (cr_node_id a) (Running r) (cr_fail_stopped a))
  | Dying r => (Err (BrokerError_new PersistenceError
      "cluster Raft controller dropped the response: receiving on a closed channel"),
      MkCluster (cr_node_id a) (Gone r) (cr_fail_stopped a))
  | Gone _ => (Err (BrokerError_new PersistenceError
      "cluster Raft controller is unavailable: sending on a closed channel"), a)
  end.

Definition poison (a : Adapter) : Adapter := MkCluster (cr_node_id a) (cr_controller a) true.

(** A mutation through the controller: a failed channel or a fatal error stops
    the adapter for good. *)
Definition submit {T} (serve : R → result T BrokerError * R) (a : Adapter) :
    result T BrokerError * Adapter :=
  let '(reply, a) := request serve a in
  match reply with
  | Err e => (Err e, poison a)
  | Ok (Err e) => (Err e, if should_poison e then poison a else a)
  | Ok (Ok t) => (Ok t, a)
  end.

Definition term_owned_by_raft : BrokerError :=
  BrokerError_new InvalidRequest "Broker term is owned by Raft in cluster consensus mode".

Definition cluster_term (a : Adapter) : Term :=
  match validated_term (re_observe (controller_engine (cr_controller a))).1 with
  | Ok t => t
  | Err _ => 1
  end.

Definition cluster_revision (a : Adapter) : Revision :=
  observed_revision (re_observe (controller_engine (cr_controller a))).1.

Definition cluster_progress (a : Adapter) : result ClusterRaftProgress BrokerError * Adapter :=
  let? _ := ensure_available a else a in
  let! progress, a := request (running_progress (cr_node_id a)) a in (progress, a).

Definition cluster_group_directory (a : Adapter) :
    result ConsumerGroupDirectory BrokerError * Adapter :=
  let? _ := ensure_available a else a in
  let! directory, a := request (running_group_directory (cr_node_id a)) a in (directory, a).

Definition cluster_maintenance_authority (a : Adapter) : result bool BrokerError * Adapter :=
  let! progress, a := cluster_progress a in
  (Ok (bool_decide (cp_current_leader progress = Some (cr_node_id a))), a).

Definition cluster_propose (command : BrokerCommand) (a : Adapter) :
    result BrokerMutationResult BrokerError * Adapter :=
  let? _ := ensure_available a else a in
  match command with
  | AdvanceTerm _ => (Err term_owned_by_raft, a)
  | command => submit (running_propose (cr_node_id a) command) a
  end.

Definition cluster_propose_identified (identity : CommandIdentity) (command : BrokerCommand)
    (a : Adapter) : result BrokerMutationResult BrokerError * Adapter :=
  let? _ := ensure_available a else a in
  match command with
  | AdvanceTerm _ => (Err term_owned_by_raft, a)
  | command => submit (running_propose_identified (cr_node_id a) identity command) a
  end.

Definition cluster_acquire (session_id : CommandSessionId)
    (expected_owner_epoch : SessionOwnerEpoch) (owner_instance_id : SessionOwnerInstanceId)
    (a : Adapter) : result SessionOwnerEpoch BrokerError * Adapter :=
  let? _ := ensure_available a else a in
  submit (running_acquire (cr_node_id a) session_id expected_owner_epoch owner_instance_id) a.

#[export] Instance cluster_consensus : ConsensusAdapter Adapter := {|
  ca_term := cluster_term;
  ca_revision := cluster_revision;
  ca_group_directory := cluster_group_directory;
  ca_maintenance_authority := cluster_maintenance_authority;
  ca_propose := cluster_propose;
  ca_propose_identified := cluster_propose_identified;
  ca_acquire_command_session_owner := cluster_acquire;
|}.
End adapter.
