(* ===== verification/ClusterStartup.v ===== *)
(** * Start-up and shutdown of a cluster node ([agent-broker-consensus/src/cluster_raft.rs])

    [RunningClusterRaft::open] from the point where the engine and its RPC
    listener exist: the bootstrap of the three-member group, the wait for the
    recovered log, and the term synchronization; and [stop].  A wait polls until
    its deadline; the loops take fuel and give [None] when it runs out. *)

From stdpp Require Import pretty.
From S2P Require Import Prelude Values Task Group Messages Machine Recovery Display Replicated.
From S2P Require Import Sessions Observation Service ClusterNode.

(** The engine's calls of start-up and shutdown.  [rl_expired] is the check of
    the deadline of the loop that makes it; [rl_stop_server] takes the RPC
    listener and stops it, [None] when there is none. *)
Class RaftLifecycle (R : Type) := {
  rl_engine :: RaftEngine R;
  rl_expired : R → bool * R;
  rl_is_initialized : R → result bool string * R;
  rl_initialize : N → R → result unit string * R;
  rl_elect : R → result unit string * R;
  rl_add_learner : N → R → result unit string * R;
  rl_change_membership : gset N → R → result unit string * R;
  rl_stop_server : R → option (result unit string) * R;
  rl_shutdown : R → result unit string * R;
}.

Section polling.
Context {R : Type} `{L : RaftLifecycle R}.

(** A wait: look, give up once the deadline has passed, sleep, look again. *)
Fixpoint poll {A} (fuel : nat) (look : R → option A * R) (late : A) (r : R) : option (A * R) :=
  match fuel with
  | O => None
  | S fuel =>
      let '(found, r) := look r in
      match found with
      | Some a => Some (a, r)
      | None =>
          let '(expired, r) := rl_expired r in
          if expired then Some (late, r) else poll fuel look late r
      end
  end.

Definition leader_is (node_id : N) (r : R) : option bool * R :=
  let '(leader, r) := re_current_leader r in
  (if bool_decide (leader = Some node_id) then Some true else None, r).

Definition wait_for_leader (fuel : nat) (node_id : N) (r : R) : option (bool * R) :=
  poll fuel (leader_is node_id) false r.

Definition applied_reaches (committed : N) (r : R) : option (result unit BrokerError) * R :=
  let '(applied, r) := observed_applied_index r in
  (match applied with
   | Some applied => if committed <=? applied then Some (Ok ()) else None
   | None => None
   end, r).

(** [fatal] and [late] are the errors of the calling module. *)
Definition wait_until_applied (fuel : nat) (fatal : string → BrokerError) (late : BrokerError)
    (r : R) : option (result unit BrokerError * R) :=
  let '(committed, r) := re_committed r in
  match map_err fatal committed with
  | Err e => Some (Err e, r)
  | Ok None => Some (Ok (), r)
  | Ok (Some committed) => poll fuel (applied_reaches committed) (Err late) r
  end.
End polling.

Section startup.
Context {R : Type} `{L : RaftLifecycle R} (node_id : N).

Definition wait_until_committed_is_applied (fuel : nat) (r : R) :
    option (result unit BrokerError * R) :=
  wait_until_applied fuel raft_fatal_error (BrokerError_new PersistenceError
    "cluster Raft committed log was not applied before the startup deadline") r.

Definition ensure_local_leader (fuel : nat) (r : R) : option (result unit BrokerError * R) :=
  '(elected, r) ← wait_for_leader fuel node_id r;
  if elected : bool then Some (Ok (), r) else
  let '(triggered, r) := rl_elect r in
  match map_err raft_fatal_error triggered with
  | Err e => Some (Err e, r)
  | Ok _ =>
      '(elected, r) ← wait_for_leader fuel node_id r;
      if elected : bool then Some (Ok (), r) else
      Some (Err (BrokerError_new TransportError ("cluster bootstrap node " +:+ pretty node_id +:+
        " did not become leader before the deadline")), r)
  end.

Definition current_voters (r : R) : gset N * R :=
  let '(metrics, r) := re_metrics r in (rx_voters metrics, r).

Definition current_members (r : R) : gset N * R :=
  let '(metrics, r) := re_metrics r in (rx_voters metrics ∪ rx_learners metrics, r).

Fixpoint converge_voters (fuel : nat) (desired : gset N) (r : R) :
    option (result unit BrokerError * R) :=
  match fuel with
  | O => None
  | S fuel =>
      let '(voters, r) := current_voters r in
      if bool_decide (voters = desired) then Some (Ok (), r) else
      let '(changed, r) := rl_change_membership desired r in
      let '(failed, r) :=
        match changed with
        | Ok _ => (None, r)
        | Err e => let '(expired, r) := rl_expired r in (if expired : bool then Some e else None, r)
        end in
      match failed with
      | Some e => Some (Err (raft_engine_error "change cluster membership" e), r)
      | None =>
          let '(expired, r) := rl_expired r in
          if negb expired then converge_voters fuel desired r else
          let '(voters, r) := current_voters r in
          if bool_decide (voters = desired) then converge_voters fuel desired r else
          Some (Err (BrokerError_new TransportError
            "cluster membership did not converge to three voters before the deadline"), r)
      end
  end.

Fixpoint add_learners (ids : list N) (r : R) : result unit BrokerError * R :=
  match ids with
  | [] => (Ok (), r)
  | id :: ids =>
      if id =? node_id then add_learners ids r else
      let '(members, r) := current_members r in
      if bool_decide (id ∈ members) then add_learners ids r else
      let '(added, r) := rl_add_learner id r in
      let? _ := map_err (raft_engine_error "add cluster learner") added else r in
      add_learners ids r
  end.

(** The rest of [bootstrap] once the local node leads. *)
Definition extend_membership (fuel : nat) (nodes : gmap N bool) (r : R) :
    option (result unit BrokerError * R) :=
  let desired := dom nodes in
  let '(voters, r) := current_voters r in
  if bool_decide (voters = desired) then Some (Ok (), r) else
  let '(added, r) := add_learners (bmap_iter nodes).*1 r in
  match added with
  | Err e => Some (Err e, r)
  | Ok _ => converge_voters fuel desired r
  end.

(** [if !initialized { … }] *)
Definition initialize_local (nodes : gmap N bool) (r : R) : result unit BrokerError * R :=
  match nodes !! node_id with
  | None => (Err (BrokerError_new InvalidRequest "bootstrap topology is missing the local node"), r)
  | Some _ =>
      let '(initialized, r) := rl_initialize node_id r in
      (map_err (raft_engine_error "initialize bootstrap node") initialized, r)
  end.

Definition bootstrap (fuel : nat) (nodes : gmap N bool) (r : R) :
    option (result unit BrokerError * R) :=
  let '(initialized, r) := rl_is_initialized r in
  match map_err raft_fatal_error initialized with
  | Err e => Some (Err e, r)
  | Ok initialized =>
      let '(complete, r) :=
        if initialized : bool
        then let '(voters, r) := current_voters r in (bool_decide (voters = dom nodes), r)
        else (false, r) in
      if complete : bool then Some (Ok (), r) else
      let '(ready, r) := if initialized then (Ok (), r) else initialize_local nodes r in
      match ready with
      | Err e => Some (Err e, r)
      | Ok _ =>
          '(leads, r) ← ensure_local_leader fuel r;
          match leads with
          | Err e => Some (Err e, r)
          | Ok _ => extend_membership fuel nodes r
          end
      end
  end.

(** [open] after the engine and its listener have been created. *)
Definition running_open (fuel : nat) (config : ClusterRaftConfig) (r : R) :
    option (result unit BrokerError * R) :=
  '(ready, r) ← (if cc_bootstrap config then bootstrap fuel (cc_nodes config) r
                 else Some (Ok (), r));
  match ready with
  | Err e => Some (Err e, r)
  | Ok _ =>
      '(caught_up, r) ← wait_until_committed_is_applied fuel r;
      match caught_up with
      | Err e => Some (Err e, r)
      | Ok _ =>
          let '(leader, r) := re_current_leader r in
          Some (if bool_decide (leader = Some node_id)
                then sync_broker_term_to_raft r else (Ok (), r))
      end
  end.

Definition running_stop (r : R) : result unit BrokerError * R :=
  let '(stopped, r) := rl_stop_server r in
  let? _ := match stopped with
            | Some stopped => map_err (λ e, BrokerError_new TransportError
                ("cluster Raft RPC server shutdown failed: " +:+ e)) stopped
            | None => Ok ()
            end else r in
  let '(down, r) := rl_shutdown r in
  (map_err (λ e, BrokerError_new InternalError ("cluster Raft shutdown failed: " +:+ e)) down, r).
End startup.

(** [shutdown]; [panicked] says how the controller thread ended. *)
Definition cluster_shutdown {R} `{L : RaftLifecycle R} (panicked : bool)
    (a : ClusterRaftConsensusAdapter R) : result unit BrokerError :=
  let joined := if panicked
    then Err (BrokerError_new InternalError "cluster Raft controller thread panicked")
    else Ok () in
  if cr_fail_stopped a then joined else
  let^ stopped := (request running_stop a).1 in
  let^ _ := stopped in
  joined.
