(* ===== verification/OneNode.v ===== *)
(** * The one-node Raft adapter ([agent-broker-consensus/src/one_node_raft.rs])

    The adapter of the one-node group: the same engine, no leader check, the
    term and revision cached with every reply, and a fail-stop on any error of
    the controller; with its start-up, its snapshot trigger and its shutdown.
    [on_remote_attempts] is the counter of [one_node_network.rs]: every RPC to a
    peer increments it and fails. *)

From stdpp Require Import pretty.
From S2P Require Import Prelude Values Task Group Messages Machine Recovery Display Replicated.
From S2P Require Import Sessions Observation Service ClusterNode ClusterStartup.

Record OneNodeRaftProgress := {
  op_raft_term : N;
  op_last_log_index : option N;
  op_committed_index : option N;
  op_applied_index : option N;
  op_broker_term : Term;
  op_broker_revision : Revision;
  op_current_leader : option N;
  op_remote_attempt_count : N;
}.

Definition ONE_NODE_ID : N := 1.

Record OneNodeRaftConfig := {
  oc_state_path : string;
  oc_snapshot_log_interval : N;
}.

Definition OneNodeRaftConfig_new (state_path : string) : OneNodeRaftConfig :=
  {| oc_state_path := state_path; oc_snapshot_log_interval := 256 |}.

Definition one_node_with_snapshot_log_interval (interval : N) (c : OneNodeRaftConfig) :
    result OneNodeRaftConfig BrokerError :=
  if interval =? 0
  then Err (BrokerError_new InvalidRequest
    "one-node Raft snapshot log interval must be greater than zero")
  else Ok {| oc_state_path := oc_state_path c; oc_snapshot_log_interval := interval |}.

(** The text of the I/O error behind [Unreachable]. *)
Definition unreachable (target : N) : string :=
  "one-node Raft has no remote transport for target node " +:+ pretty target.

(** [append_entries], [vote] and [full_snapshot] of [OneNodeRaftNetwork], on the
    shared counter, whose [fetch_add] wraps. *)
Definition remote_attempt (target : N) (remote_attempts : N) : result unit string * N :=
  (Err (unreachable target), (remote_attempts + 1) mod (u64_max + 1)).

Class OneNodeEngine (R : Type) := {
  on_engine :: RaftLifecycle R;
  on_remote_attempts : R → N;
  on_trigger_snapshot : R → result unit string * R;
  (** the current snapshot, if any, and the index of its last log entry *)
  on_get_snapshot : R → result (option (option N)) string * R;
}.

Definition one_fatal_error (e : string) : BrokerError :=
  BrokerError_new PersistenceError ("one-node Raft engine failed: " +:+ e).

Definition one_engine_error (operation e : string) : BrokerError :=
  BrokerError_new TransportError ("one-node Raft " +:+ operation +:+ " failed: " +:+ e).

Section controller.
Context {R : Type} `{E : OneNodeEngine R}.

Definition one_sync_broker_term (r : R) : result unit BrokerError * R :=
  let '(raft_term, r) := re_vote_term r in
  let? raft_term := map_err one_fatal_error raft_term else r in
  let! broker_term, r := observed_term r in
  if raft_term <? broker_term
  then (Err (BrokerError_new PersistenceError ("Raft term " +:+ pretty raft_term +:+
          " is behind committed Broker term " +:+ pretty broker_term)), r)
  else if raft_term =? broker_term then (Ok (), r) else
  let? new_term := map_err (λ e, internal_error
    "Raft produced an invalid Broker fencing term: " (to_string e)) (Term_new raft_term) else r in
  let? data := map_err (λ e, internal_error
    "failed to encode internal Raft term-advance command: " (rce_message e))
    (command_to_replicated
       (AdvanceTerm {| at_expected_term := broker_term; at_new_term := new_term |})) else r in
  let '(response, r) := re_client_write (legacy data) r in
  let? response := map_err (one_engine_error "term synchronization") response else r in
  let? outcome := map_err (λ e, internal_error "failed to decode internal Raft term response: "
    (rre_message e)) (into_application_result response) else r in
  match outcome with
  | Ok (RTermAdvanced _) => (Ok (), r)
  | Ok other => (Err (internal_error
      "Raft term synchronization returned unexpected result: " (debug_result other)), r)
  | Err e => (Err (internal_error
      "Raft term synchronization was rejected by Broker state: " (be_message e)), r)
  end.

Definition one_progress (r : R) : result OneNodeRaftProgress BrokerError * R :=
  let '(metrics, r) := re_metrics r in
  let '(committed, r) := re_committed r in
  let? committed := map_err one_fatal_error committed else r in
  let! broker_term, r := observed_term r in
  let '(applied, r) := observed_applied_index r in
  let '(o, r) := re_observe r in
  (Ok {| op_raft_term := rx_current_term metrics; op_last_log_index := rx_last_log_index metrics;
         op_committed_index := committed; op_applied_index := applied;
         op_broker_term := broker_term; op_broker_revision := observed_revision o;
         op_current_leader := rx_current_leader metrics;
         op_remote_attempt_count := on_remote_attempts r |}, r).

(** [ControllerProposeReply]: the outcome of the command, and the progress. *)
Definition one_running_propose (command : BrokerCommand) (r : R) :
    result (result BrokerMutationResult BrokerError * OneNodeRaftProgress) BrokerError * R :=
  let! _, r := one_sync_broker_term r in
  let? data := map_err (λ e, internal_error
    "failed to encode Broker command for Raft: " (rce_message e))
    (command_to_replicated command) else r in
  let '(response, r) := re_client_write (legacy data) r in
  let? response := map_err (one_engine_error "client_write") response else r in
  let? outcome := map_err (λ e, internal_error
    "failed to decode committed Raft application response: " (rre_message e))
    (into_application_result response) else r in
  let! progress, r := one_progress r in
  if negb (op_remote_attempt_count progress =? 0)
  then (Err (BrokerError_new InternalError
    "one-node Raft unexpectedly attempted a remote RPC while committing a command"), r)
  else (Ok (outcome, progress), r).

(** One look of the loop of [trigger_snapshot] at the current snapshot. *)
Definition snapshot_reaches (target : option N) (r : R) : option (result unit BrokerError) * R :=
  let '(snapshot, r) := on_get_snapshot r in
  (match map_err (one_engine_error "read current snapshot") snapshot with
   | Err e => Some (Err e)
   | Ok snapshot =>
       let reached :=
         match target with
         | Some target => match mjoin snapshot with Some index => target <=? index | None => false end
         | None => bool_decide (is_Some snapshot)
         end in
       if reached then Some (Ok ()) else None
   end, r).

Definition one_running_trigger_snapshot (fuel : nat) (r : R) :
    option (result OneNodeRaftProgress BrokerError * R) :=
  let '(triggered, r) := on_trigger_snapshot r in
  match map_err one_fatal_error triggered with
  | Err e => Some (Err e, r)
  | Ok _ =>
      let '(target, r) := observed_applied_index r in
      '(reached, r) ← poll fuel (snapshot_reaches target) (Err (BrokerError_new PersistenceError
        "one-node Raft snapshot did not reach the applied log before the deadline")) r;
      match reached with
      | Err e => Some (Err e, r)
      | Ok _ => Some (one_progress r)
      end
  end.

(** The election of [open]: a wait, a forced election, another wait, and the
    engine shut down when node 1 still does not lead. *)
Definition elect_local (fuel : nat) (r : R) : option (result unit BrokerError * R) :=
  '(elected, r) ← wait_for_leader fuel ONE_NODE_ID r;
  if elected : bool then Some (Ok (), r) else
  let '(triggered, r) := rl_elect r in
  match map_err one_fatal_error triggered with
  | Err e => Some (Err e, r)
  | Ok _ =>
      '(elected, r) ← wait_for_leader fuel ONE_NODE_ID r;
      if elected : bool then Some (Ok (), r) else
      let '(_, r) := rl_shutdown r in
      Some (Err (BrokerError_new TransportError
        "one-node Raft did not elect node 1 as leader within the startup deadline"), r)
  end.

Definition one_initialize (r : R) : result unit BrokerError * R :=
  let '(initialized, r) := rl_is_initialized r in
  let? initialized := map_err one_fatal_error initialized else r in
  if initialized : bool then (Ok (), r) else
  let '(done, r) := rl_initialize ONE_NODE_ID r in
  (map_err (one_engine_error "initialize") done, r).

(** [open] after the engine has been created. *)
Definition one_running_open (fuel : nat) (r : R) : option (result unit BrokerError * R) :=
  let '(initialized, r) := one_initialize r in
  match initialized with
  | Err e => Some (Err e, r)
  | Ok _ =>
      '(elected, r) ← elect_local fuel r;
      match elected with
      | Err e => Some (Err e, r)
      | Ok _ =>
          '(caught_up, r) ← wait_until_applied fuel one_fatal_error
            (BrokerError_new PersistenceError
              "one-node Raft committed log was not applied before the startup deadline") r;
          match caught_up with
          | Err e => Some (Err e, r)
          | Ok _ =>
              let '(synced, r) := one_sync_broker_term r in
              match synced with
              | Err e => Some (Err e, r)
              | Ok _ =>
                  Some (if negb (on_remote_attempts r =? 0)
                        then Err (BrokerError_new InternalError
                          "one-node Raft unexpectedly attempted a remote RPC during startup")
                        else Ok (), r)
              end
          end
      end
  end.

Definition one_running_shutdown (r : R) : result unit BrokerError * R :=
  let '(down, r) := rl_shutdown r in
  (map_err (λ e, BrokerError_new InternalError
     ("one-node Raft shutdown join failed: " +:+ e)) down, r).
End controller.

Record OneNodeRaftConsensusAdapter (R : Type) := MkOneNode {
  on_controller : Controller R;
  on_term : Term;
  on_revision : Revision;
  on_poisoned : bool;
}.
Arguments MkOneNode {R} _ _ _ _.
Arguments on_controller {R} _.
Arguments on_term {R} _.
Arguments on_revision {R} _.
Arguments on_poisoned {R} _.

Section adapter.
Context {R : Type} `{E : OneNodeEngine R}.

Abbreviation Adapter := (OneNodeRaftConsensusAdapter R).

Definition one_ensure_available (a : Adapter) : result unit BrokerError :=
  if on_poisoned a
  then Err (BrokerError_new PersistenceError
    "one-node Raft consensus adapter is fail-stopped after an engine failure")
  else Ok ().

Definition one_request {T} (serve : R → T * R) (a : Adapter) : result T BrokerError * Adapter :=
  let with_controller c := MkOneNode c (on_term a) (on_revision a) (on_poisoned a) in
  match on_controller a with
  | Running r => let '(t, r) := serve r in (Ok t, with_controller (Running r))
  | Dying r => (Err (BrokerError_new PersistenceError
      "one-node Raft controller dropped the response: receiving on a closed channel"),
      with_controller (Gone r))
  | Gone _ => (Err (BrokerError_new PersistenceError
      "one-node Raft controller is unavailable: sending on a closed channel"), a)
  end.

(** The cached term and revision follow the progress of a reply. *)
Definition cache_progress (p : OneNodeRaftProgress) (a : Adapter) : Adapter :=
  MkOneNode (on_controller a) (op_broker_term p) (op_broker_revision p) (on_poisoned a).

Definition one_poison (a : Adapter) : Adapter :=
  MkOneNode (on_controller a) (on_term a) (on_revision a) true.

Definition one_node_progress (a : Adapter) : result OneNodeRaftProgress BrokerError * Adapter :=
  let? _ := one_ensure_available a else a in
  let! reply, a := one_request one_progress a in
  let? progress := reply else a in
  (Ok progress, cache_progress progress a).

Definition one_node_propose (command : BrokerCommand) (a : Adapter) :
    result BrokerMutationResult BrokerError * Adapter :=
  let? _ := one_ensure_available a else a in
  match command with
  | AdvanceTerm _ => (Err (BrokerError_new InvalidRequest
      "Broker term is owned by Raft in one-node consensus mode"), a)
  | command =>
      let '(reply, a) := one_request (one_running_propose command) a in
      match reply with
      | Err e | Ok (Err e) => (Err e, one_poison a)
      | Ok (Ok (outcome, progress)) => (outcome, cache_progress progress a)
      end
  end.

(** [trigger_snapshot]; [None] when the fuel runs out. *)
Definition one_node_trigger_snapshot (fuel : nat) (a : Adapter) :
    option (result OneNodeRaftProgress BrokerError * Adapter) :=
  let serve r := match one_running_trigger_snapshot fuel r with
                 | Some (reply, r) => (Some reply, r)
                 | None => (None, r)
                 end in
  match one_ensure_available a with
  | Err e => Some (Err e, a)
  | Ok _ =>
      let '(reply, a) := one_request serve a in
      match reply with
      | Err e | Ok (Some (Err e)) => Some (Err e, a)
      | Ok (Some (Ok progress)) => Some (Ok progress, cache_progress progress a)
      | Ok None => None
      end
  end.

(** [shutdown]; [panicked] says how the controller thread ended. *)
Definition one_node_shutdown (panicked : bool) (a : Adapter) : result unit BrokerError :=
  let joined := if panicked
    then Err (BrokerError_new InternalError "one-node Raft controller thread panicked")
    else Ok () in
  if on_poisoned a then joined else
  let^ stopped := (one_request one_running_shutdown a).1 in
  let^ _ := stopped in
  joined.

#[export] Instance one_node_consensus : ConsensusAdapter Adapter := {|
  ca_term := on_term;
  ca_revision := on_revision;
  ca_group_directory := default_group_directory;
  ca_maintenance_authority := default_maintenance_authority;
  ca_propose := one_node_propose;
  ca_propose_identified := default_propose_identified;
  ca_acquire_command_session_owner := default_acquire_command_session_owner;
|}.
End adapter.
