(* ===== verification/Transport.v ===== *)
(** * Traffic between the members of a cluster
    ([agent-broker-consensus/src/cluster_tls.rs], [cluster_transport.rs])

    OpenRaft's remote calls travel as one length-prefixed JSON frame each way, a
    snapshot as a frame and a body, over a TLS session in which each side checks
    the other's certificate against the one pinned for its node id.  rustls and
    its PEM reader, OpenRaft and the sockets are parameters; a connection is
    described by what each of its calls will report.  Durations and instants are
    in nanoseconds. *)

From stdpp Require Import pretty.
From S2P Require Import Prelude Values Display Wire Replicated Sessions RaftSnapshot.
From S2P Require Import LogStorage Json StateOwner.

(** ** I/O errors *)

Inductive ErrorKind :=
  | KInvalidData | KInvalidInput | KPermissionDenied | KTimedOut | KBrokenPipe | KUnexpectedEof
  | KWouldBlock | KInterrupted | KWriteZero | KOther | KSystem (code : N).

#[export] Instance error_kind_eq_dec : EqDecision ErrorKind.
Proof. solve_decision. Defined.

Record IoError := MkIo { io_kind : ErrorKind; io_message : string }.

#[export] Instance io_error_eq_dec : EqDecision IoError.
Proof. solve_decision. Defined.

(** [io::Error::other] *)
Definition io_other (message : string) : IoError := MkIo KOther message.

Definition invalid_data (error : string) : IoError := MkIo KInvalidData error.

Definition interrupted (e : IoError) : bool := bool_decide (io_kind e = KInterrupted).

(** A blocking call that may also never return, which is [None]. *)
Notation "'let%' x ':=' r 'in' k" :=
  (match r with Some (Ok x) => k | Some (Err e) => Some (Err e) | None => None end)
  (at level 10, x pattern, r at level 100, k at level 200) : broker_scope.

(** ** Streams of bytes *)

(** What the successive [read] calls report: bytes, none of them at the end of
    the stream, or an error.  A call with a smaller buffer leaves the rest. *)
Abbreviation Reader := (list (result bytes IoError)).

Definition drop_N {A} (n : N) (l : list A) : list A := drop (N.to_nat n) l.

(** [Read::read_exact] into a buffer of [n] bytes. *)
Fixpoint read_exact (n : N) (r : Reader) : result bytes IoError * Reader :=
  if n =? 0 then (Ok [], r) else
  match r with
  | [] | Ok [] :: _ => (Err (MkIo KUnexpectedEof "failed to fill whole buffer"), r)
  | Err e :: r => if interrupted e then read_exact n r else (Err e, r)
  | Ok chunk :: r =>
      if n <? len chunk then (Ok (take_N n chunk), Ok (drop_N n chunk) :: r)
      else let! rest, r := read_exact (n - len chunk) r in (Ok (chunk ++ rest)%list, r)
  end.

(** What one [write] call reports: how many bytes it took at most, or an error.
    A writer whose list is used up takes everything. *)
Inductive WriteOutcome := Takes (n : N) | WriteFails (e : IoError).

Record Writer := MkWriter {
  wr_sent : bytes;
  wr_writes : list WriteOutcome;
  wr_flushes : list (result unit IoError);
}.

Fixpoint write_all_loop (writes : list WriteOutcome) (buf sent : bytes) :
    result unit IoError * (bytes * list WriteOutcome) :=
  match buf, writes with
  | [], _ => (Ok (), (sent, writes))
  | _, [] => (Ok (), ((sent ++ buf)%list, []))
  | _, Takes n :: writes =>
      if n =? 0 then (Err (MkIo KWriteZero "failed to write whole buffer"), (sent, writes))
      else write_all_loop writes (drop_N n buf) (sent ++ take_N n buf)%list
  | _, WriteFails e :: writes =>
      if interrupted e then write_all_loop writes buf sent else (Err e, (sent, writes))
  end.

(** [Write::write_all] *)
Definition write_all (buf : bytes) (w : Writer) : result unit IoError * Writer :=
  let '(res, (sent, writes)) := write_all_loop (wr_writes w) buf (wr_sent w) in
  (res, MkWriter sent writes (wr_flushes w)).

Definition flush (w : Writer) : result unit IoError * Writer :=
  match wr_flushes w with
  | [] => (Ok (), w)
  | res :: flushes => (res, MkWriter (wr_sent w) (wr_writes w) flushes)
  end.

(** ** Frames *)

Definition MAX_RAFT_FRAME_BYTES : N := 256 * 1024 * 1024.
Definition MAX_RAFT_SNAPSHOT_BYTES : N := 256 * 1024 * 1024.
Definition SNAPSHOT_IO_CHUNK_BYTES : N := 64 * 1024.

Definition write_frame (payload : bytes) (w : Writer) : result unit IoError * Writer :=
  if MAX_RAFT_FRAME_BYTES <? len payload
  then (Err (invalid_data "Raft RPC frame exceeds the configured byte limit"), w)
  else if u32_max <? len payload
  then (Err (invalid_data "Raft RPC frame length cannot be represented as u32"), w)
  else
    let! _, w := write_all (to_be_bytes 4 (len payload)) w in
    let! _, w := write_all payload w in
    flush w.

(** A [usize] has 64 bits: the length always fits. *)
Definition read_frame (r : Reader) : result bytes IoError * Reader :=
  let! length_bytes, r := read_exact 4 r in
  let length := from_be_bytes length_bytes in
  if MAX_RAFT_FRAME_BYTES <? length
  then (Err (invalid_data "Raft RPC frame exceeds the configured byte limit"), r)
  else read_exact length r.

(** [chunks(n)]: consecutive pieces of [n], the last one shorter.  Every piece
    takes at least one element, so the length of the slice is fuel enough. *)
Fixpoint chunks_loop {A} (fuel : nat) (n : N) (l : list A) : list (list A) :=
  match fuel, l with
  | S fuel, _ :: _ => take_N n l :: chunks_loop fuel n (drop_N n l)
  | _, _ => []
  end.

Definition chunks {A} (n : N) (l : list A) : list (list A) := chunks_loop (length l) n l.

Fixpoint write_chunks (pieces : list bytes) (w : Writer) : result unit IoError * Writer :=
  match pieces with
  | [] => (Ok (), w)
  | piece :: pieces => let! _, w := write_all piece w in write_chunks pieces w
  end.

Definition write_snapshot_body (data : bytes) (w : Writer) : result unit IoError * Writer :=
  if MAX_RAFT_SNAPSHOT_BYTES <? len data
  then (Err (invalid_data "Raft snapshot exceeds the configured byte limit"), w)
  else
    let! _, w := write_chunks (chunks SNAPSHOT_IO_CHUNK_BYTES data) w in
    flush w.

(** [chunks_mut] on a buffer of [n] zero bytes: each piece is filled in turn. *)
Fixpoint read_snapshot_pieces (fuel : nat) (n : N) (r : Reader) : result bytes IoError * Reader :=
  match fuel with
  | O => (Ok [], r)
  | S fuel =>
      if n =? 0 then (Ok [], r) else
      let piece := N.min SNAPSHOT_IO_CHUNK_BYTES n in
      let! head, r := read_exact piece r in
      let! rest, r := read_snapshot_pieces fuel (n - piece) r in
      (Ok (head ++ rest)%list, r)
  end.

Definition read_snapshot_body_into (n : N) (r : Reader) : result bytes IoError * Reader :=
  read_snapshot_pieces (N.to_nat (n / SNAPSHOT_IO_CHUNK_BYTES + 1)) n r.

Definition read_snapshot_body (data_len : N) (r : Reader) : result bytes IoError * Reader :=
  if MAX_RAFT_SNAPSHOT_BYTES <? data_len
  then (Err (invalid_data "Raft snapshot exceeds the configured byte limit"), r)
  else read_snapshot_body_into data_len r.

(** ** Certificates ([cluster_tls.rs]) *)

Abbreviation CertificateDer := bytes (only parsing).

(** rustls and its PEM reader.  [None] is a failure of the call. *)
Class Rustls := {
  PemFile : Type;
  PrivateKeyDer : Type;
  RootCertStore : Type;
  ClientConfig : Type;
  ServerConfig : Type;
  ClientVerifier : Type;
  ServerName : Type;
  file_open : string → option PemFile;
  pemfile_certs : PemFile → list (result CertificateDer string);
  pemfile_private_key : PemFile → result (option PrivateKeyDer) string;
  roots_empty : RootCertStore;
  roots_add : CertificateDer → RootCertStore → option RootCertStore;
  client_supports_tls13 : bool;
  with_client_auth_cert : RootCertStore → list CertificateDer → PrivateKeyDer → option ClientConfig;
  client_verifier_build : RootCertStore → option ClientVerifier;
  server_supports_tls13 : bool;
  with_single_cert : ClientVerifier → list CertificateDer → PrivateKeyDer → option ServerConfig;
  server_name_try_from : string → option ServerName;
  client_connection_new : ClientConfig → ServerName → bool;
  server_connection_new : ServerConfig → bool;
}.

Definition DEFAULT_TLS_HANDSHAKE_TIMEOUT : N := 2 * 1000000000.
Definition MAX_TLS_HANDSHAKE_TIMEOUT : N := 30 * 1000000000.
Definition CA_CERTIFICATE_FILE : string := "ca.pem".

Definition invalid_tls_configuration (message : string) : BrokerError :=
  BrokerError_new InvalidRequest message.

Record ClusterRaftTlsConfig := {
  tc_directory : string;
  tc_handshake_timeout : N;
}.

(** [Path::join] with a plain file name. *)
Definition path_join (directory name : string) : string :=
  if String.eqb directory "" then name
  else if bool_decide (last (String.list_ascii_of_string directory) = Some (Ascii.ascii_of_N 47))
  then directory +:+ name
  else directory +:+ "/" +:+ name.

Definition node_certificate_path (directory : string) (node_id : N) : string :=
  path_join directory ("node-" +:+ pretty node_id +:+ ".pem").

Definition node_key_path (directory : string) (node_id : N) : string :=
  path_join directory ("node-" +:+ pretty node_id +:+ "-key.pem").

Definition validate_tls (c : ClusterRaftTlsConfig) : result unit BrokerError :=
  if String.eqb (tc_directory c) ""
  then Err (invalid_tls_configuration "cluster Raft TLS directory must not be empty")
  else if (tc_handshake_timeout c =? 0) || (MAX_TLS_HANDSHAKE_TIMEOUT <? tc_handshake_timeout c)
  then Err (invalid_tls_configuration
    "cluster Raft TLS handshake timeout must be between 1ns and 30s")
  else Ok ().

Definition ClusterRaftTlsConfig_new (directory : string) : result ClusterRaftTlsConfig BrokerError :=
  let config := {| tc_directory := directory;
                   tc_handshake_timeout := DEFAULT_TLS_HANDSHAKE_TIMEOUT |} in
  let^ _ := validate_tls config in
  Ok config.

Definition with_handshake_timeout (timeout : N) (c : ClusterRaftTlsConfig) :
    result ClusterRaftTlsConfig BrokerError :=
  let c := {| tc_directory := tc_directory c; tc_handshake_timeout := timeout |} in
  let^ _ := validate_tls c in
  Ok c.

Section tls.
Context `{T : Rustls}.

Record LoadedClusterRaftTls := {
  lt_local_node_id : N;
  lt_client_config : ClientConfig;
  lt_server_config : ServerConfig;
  lt_pinned_peer_certificates : gmap N CertificateDer;
  lt_handshake_timeout : N;
}.

Definition read_certificates (path : string) : result (list CertificateDer) BrokerError :=
  let^ file := ok_or (file_open path)
    (invalid_tls_configuration "cluster Raft TLS certificate file is unavailable") in
  map_err (λ _, invalid_tls_configuration "cluster Raft TLS certificate PEM is invalid")
    (try_map id (pemfile_certs file)).

Definition read_private_key (path : string) : result PrivateKeyDer BrokerError :=
  let^ file := ok_or (file_open path)
    (invalid_tls_configuration "cluster Raft TLS identity key file is unavailable") in
  let^ key := map_err
    (λ _, invalid_tls_configuration "cluster Raft TLS identity key PEM is invalid")
    (pemfile_private_key file) in
  ok_or key (invalid_tls_configuration "cluster Raft TLS identity key file contains no key").

Fixpoint add_roots (ca_chain : list CertificateDer) (roots : RootCertStore) :
    result RootCertStore BrokerError :=
  match ca_chain with
  | [] => Ok roots
  | certificate :: ca_chain =>
      let^ roots := ok_or (roots_add certificate roots)
        (invalid_tls_configuration "cluster Raft TLS CA certificate is invalid") in
      add_roots ca_chain roots
  end.

Fixpoint pin_peers (directory : string) (node_ids : list N) (pinned : gmap N CertificateDer) :
    result (gmap N CertificateDer) BrokerError :=
  match node_ids with
  | [] => Ok pinned
  | node_id :: node_ids =>
      let^ peer_chain := read_certificates (node_certificate_path directory node_id) in
      let^ peer_leaf := ok_or (head peer_chain)
        (invalid_tls_configuration "cluster Raft TLS peer certificate chain is empty") in
      if bool_decide (is_Some (pinned !! node_id))
      then Err (invalid_tls_configuration
        "cluster Raft TLS peer certificate map contains a duplicate node id")
      else pin_peers directory node_ids (<[node_id := peer_leaf]> pinned)
  end.

Definition build_client_config (roots : RootCertStore) (local_chain : list CertificateDer)
    (local_key : PrivateKeyDer) : result ClientConfig BrokerError :=
  if negb client_supports_tls13
  then Err (invalid_tls_configuration "cluster Raft TLS client protocol configuration failed")
  else ok_or (with_client_auth_cert roots local_chain local_key)
    (invalid_tls_configuration "cluster Raft TLS client identity is invalid").

Definition build_server_config (roots : RootCertStore) (local_chain : list CertificateDer)
    (local_key : PrivateKeyDer) : result ServerConfig BrokerError :=
  let^ client_verifier := ok_or (client_verifier_build roots)
    (invalid_tls_configuration "cluster Raft TLS client verifier configuration failed") in
  if negb server_supports_tls13
  then Err (invalid_tls_configuration "cluster Raft TLS server protocol configuration failed")
  else ok_or (with_single_cert client_verifier local_chain local_key)
    (invalid_tls_configuration "cluster Raft TLS server identity is invalid").

(** [ClusterRaftTlsConfig::load] *)
Definition load_tls (c : ClusterRaftTlsConfig) (local_node_id : N) (node_ids : list N) :
    result LoadedClusterRaftTls BrokerError :=
  let^ _ := validate_tls c in
  let^ ca_chain := read_certificates (path_join (tc_directory c) CA_CERTIFICATE_FILE) in
  if bool_decide (ca_chain = [])
  then Err (invalid_tls_configuration
    "cluster Raft TLS CA bundle must contain at least one certificate")
  else
  let^ roots := add_roots ca_chain roots_empty in
  let^ local_chain := read_certificates (node_certificate_path (tc_directory c) local_node_id) in
  if bool_decide (local_chain = [])
  then Err (invalid_tls_configuration "cluster Raft TLS local certificate chain is empty")
  else
  let^ local_key := read_private_key (node_key_path (tc_directory c) local_node_id) in
  let^ pinned := pin_peers (tc_directory c) node_ids ∅ in
  if negb (bool_decide (is_Some (pinned !! local_node_id)))
  then Err (invalid_tls_configuration
    "cluster Raft TLS peer certificate map does not contain local node id")
  else
  let^ client_config := build_client_config roots local_chain local_key in
  let^ server_config := build_server_config roots local_chain local_key in
  Ok {| lt_local_node_id := local_node_id; lt_client_config := client_config;
        lt_server_config := server_config; lt_pinned_peer_certificates := pinned;
        lt_handshake_timeout := tc_handshake_timeout c |}.

Definition pinned_peer_certificate (node_id : N) (tls : LoadedClusterRaftTls) :
    option CertificateDer :=
  lt_pinned_peer_certificates tls !! node_id.

Definition matches_pinned_peer_certificate (node_id : N) (certificate : CertificateDer)
    (tls : LoadedClusterRaftTls) : bool :=
  match pinned_peer_certificate node_id tls with
  | Some expected => bool_decide (expected = certificate)
  | None => false
  end.

Definition peer_server_name (node_id : N) : result ServerName BrokerError :=
  ok_or (server_name_try_from ("node-" +:+ pretty node_id +:+ ".agent-broker.internal"))
    (invalid_tls_configuration "cluster Raft TLS peer server name is invalid").

Definition verify_pinned_peer_certificate (tls : LoadedClusterRaftTls) (node_id : N)
    (peer_certificates : option (list CertificateDer)) : result unit IoError :=
  match pinned_peer_certificate node_id tls with
  | None => Err (MkIo KPermissionDenied "Raft TLS peer identity is unknown")
  | Some _ =>
      let^ actual := ok_or (peer_certificates ≫= head)
        (MkIo KPermissionDenied "Raft TLS peer certificate is missing") in
      if negb (matches_pinned_peer_certificate node_id actual tls)
      then Err (MkIo KPermissionDenied
        "Raft TLS peer certificate does not match configured node identity")
      else Ok ()
  end.

Definition verify_claimed_peer_certificate (tls : LoadedClusterRaftTls) (claimed_node_id : N)
    (peer_certificates : option (list CertificateDer)) : result unit IoError :=
  verify_pinned_peer_certificate tls claimed_node_id peer_certificates.
End tls.

(** ** TLS sessions over sockets ([cluster_transport.rs]) *)

Definition RPC_IO_TIMEOUT : N := 30 * 1000000000.
Definition TLS_HANDSHAKE_POLL_INTERVAL : N := 1000000.

(** One turn of the handshake loop: what [complete_io] reports, whether the
    handshake goes on after it, and the instant read then. *)
Record HandshakeRound := {
  hr_progress : result unit IoError;
  hr_handshaking : bool;
  hr_now : N;
}.

(** A session: its handshake, the certificates the peer has shown in it, and the
    bytes that the application reads and writes through it. *)
Record TlsSession := MkSession {
  ts_handshaking : bool;
  ts_started : N;
  ts_rounds : nat → HandshakeRound;
  ts_peer_certificates : option (list CertificateDer);
  ts_reader : Reader;
  ts_writer : Writer;
}.

(** A socket, its options, what the calls that set them report ([None] when the
    call succeeds), and the session that runs over it. *)
Record TcpStream := MkStream {
  so_nodelay : bool;
  so_nonblocking : bool;
  so_read_timeout : option N;
  so_write_timeout : option N;
  so_refusals : list (option IoError);
  so_session : TlsSession;
}.

Definition set_option (update : TcpStream → TcpStream) (s : TcpStream) :
    result TcpStream IoError :=
  let rest refusals := MkStream (so_nodelay s) (so_nonblocking s) (so_read_timeout s)
    (so_write_timeout s) refusals (so_session s) in
  match so_refusals s with
  | [] => Ok (update s)
  | None :: refusals => Ok (update (rest refusals))
  | Some e :: _ => Err e
  end.

Definition set_nodelay (b : bool) : TcpStream → result TcpStream IoError :=
  set_option (λ s, MkStream b (so_nonblocking s) (so_read_timeout s) (so_write_timeout s)
    (so_refusals s) (so_session s)).

Definition set_nonblocking (b : bool) : TcpStream → result TcpStream IoError :=
  set_option (λ s, MkStream (so_nodelay s) b (so_read_timeout s) (so_write_timeout s)
    (so_refusals s) (so_session s)).

(** A timeout of zero is refused. *)
Definition zero_timeout : IoError := MkIo KInvalidInput "cannot set a 0 duration timeout".

Definition set_read_timeout (timeout : N) (s : TcpStream) : result TcpStream IoError :=
  if timeout =? 0 then Err zero_timeout else
  set_option (λ s, MkStream (so_nodelay s) (so_nonblocking s) (Some timeout) (so_write_timeout s)
    (so_refusals s) (so_session s)) s.

Definition set_write_timeout (timeout : N) (s : TcpStream) : result TcpStream IoError :=
  if timeout =? 0 then Err zero_timeout else
  set_option (λ s, MkStream (so_nodelay s) (so_nonblocking s) (so_read_timeout s) (Some timeout)
    (so_refusals s) (so_session s)) s.

(** Reading and writing through the session. *)
Definition on_reader {A} (f : Reader → result A IoError * Reader) (s : TcpStream) :
    result A IoError * TcpStream :=
  let t := so_session s in
  let '(res, reader) := f (ts_reader t) in
  (res, MkStream (so_nodelay s) (so_nonblocking s) (so_read_timeout s) (so_write_timeout s)
          (so_refusals s) (MkSession (ts_handshaking t) (ts_started t) (ts_rounds t)
            (ts_peer_certificates t) reader (ts_writer t))).

Definition on_writer {A} (f : Writer → result A IoError * Writer) (s : TcpStream) :
    result A IoError * TcpStream :=
  let t := so_session s in
  let '(res, writer) := f (ts_writer t) in
  (res, MkStream (so_nodelay s) (so_nonblocking s) (so_read_timeout s) (so_write_timeout s)
          (so_refusals s) (MkSession (ts_handshaking t) (ts_started t) (ts_rounds t)
            (ts_peer_certificates t) (ts_reader t) writer)).

(** The handshake loop from its turn [i].  A turn without progress sleeps for a
    millisecond, so the timeout bounds the number of turns; [fuel] does. *)
Fixpoint tls_handshake_loop (fuel : nat) (failed timed_out : string) (deadline : N)
    (rounds : nat → HandshakeRound) (i : nat) (handshaking : bool) : option (result unit IoError) :=
  if negb handshaking then Some (Ok ()) else
  match fuel with
  | O => None
  | S fuel =>
      let round := rounds i in
      let go :=
        if deadline <=? hr_now round then Some (Err (MkIo KTimedOut timed_out))
        else tls_handshake_loop fuel failed timed_out deadline rounds (S i) (hr_handshaking round) in
      match hr_progress round with
      | Ok _ => go
      | Err e => if bool_decide (io_kind e = KWouldBlock) then go else Some (Err (io_other failed))
      end
  end.

Definition handshake_fuel (timeout : N) : nat := N.to_nat (timeout / TLS_HANDSHAKE_POLL_INTERVAL) + 2.

Definition complete_tls_handshake (failed timed_out : string) (timeout : N) (s : TcpStream) :
    option (result TcpStream IoError) :=
  let% s := Some (set_nonblocking true s) in
  let t := so_session s in
  let% _ := tls_handshake_loop (handshake_fuel timeout) failed timed_out (ts_started t + timeout)
              (ts_rounds t) 0 (ts_handshaking t) in
  Some (Ok s).

Definition complete_client_tls_handshake : N → TcpStream → option (result TcpStream IoError) :=
  complete_tls_handshake "Raft TLS client handshake failed" "Raft TLS client handshake timed out".

Definition complete_server_tls_handshake : N → TcpStream → option (result TcpStream IoError) :=
  complete_tls_handshake "Raft TLS server handshake failed" "Raft TLS server handshake timed out".

(** The calls that make sockets. *)
Class Sockets := {
  SocketAddr : Type;
  parse_socket_addr : string → option SocketAddr;
  connect_timeout : SocketAddr → N → result TcpStream IoError;
}.

Section sessions.
Context `{T : Rustls} `{S : Sockets}.

Definition connect_peer (address : string) (timeout : N) : result TcpStream IoError :=
  let^ socket_addr := ok_or (parse_socket_addr address)
    (MkIo KInvalidInput "Raft peer address must be a pre-resolved IP socket address") in
  if timeout =? 0 then Err zero_timeout else connect_timeout socket_addr timeout.

Definition connect_tls_peer (address : string) (target_node_id connect_limit io_timeout : N)
    (tls : LoadedClusterRaftTls) : option (result TcpStream IoError) :=
  let% socket := Some (connect_peer address connect_limit) in
  let% socket := Some (set_nodelay true socket) in
  let% server_name := Some (map_err (λ _, MkIo KInvalidInput "Raft TLS peer name invalid")
                              (peer_server_name target_node_id)) in
  if negb (client_connection_new (lt_client_config tls) server_name)
  then Some (Err (io_other "Raft TLS client configuration failed"))
  else
  let% socket := complete_client_tls_handshake (lt_handshake_timeout tls) socket in
  let% _ := Some (verify_pinned_peer_certificate tls target_node_id
                    (ts_peer_certificates (so_session socket))) in
  let% socket := Some (set_nonblocking false socket) in
  let% socket := Some (set_read_timeout io_timeout socket) in
  Some (set_write_timeout io_timeout socket).

Definition accept_tls_peer (socket : TcpStream) (tls : LoadedClusterRaftTls) :
    option (result TcpStream IoError) :=
  let% socket := Some (set_nodelay true socket) in
  if negb (server_connection_new (lt_server_config tls))
  then Some (Err (io_other "Raft TLS server configuration failed"))
  else
  let% socket := complete_server_tls_handshake (lt_handshake_timeout tls) socket in
  let% socket := Some (set_nonblocking false socket) in
  let% socket := Some (set_read_timeout RPC_IO_TIMEOUT socket) in
  Some (set_write_timeout RPC_IO_TIMEOUT socket).
End sessions.

(** ** Remote calls *)

(** OpenRaft's messages, and the only errors its calls give back. *)
Class RaftRpcTypes := {
  AppendEntriesRequest : Type;
  AppendEntriesResponse : Type;
  VoteRequest : Type;
  VoteResponse : Type;
  SnapshotResponse : Type;
  Fatal : Type;
}.

Section messages.
Context `{R : RaftTypes} `{M : RaftRpcTypes}.

Inductive ClusterRpcRequest :=
  | RpcAppendEntries (rpc : AppendEntriesRequest)
  | RpcVote (rpc : VoteRequest)
  | RpcFullSnapshot (vote : Vote) (meta : SnapshotMeta) (data_len : N).

Record ClusterRpcEnvelope := {
  ev_source_node_id : N;
  ev_request : ClusterRpcRequest;
}.

Inductive ClusterRpcResponse :=
  | RespAppendEntries (response : result AppendEntriesResponse Fatal)
  | RespVote (response : result VoteResponse Fatal)
  | RespFullSnapshot (response : result SnapshotResponse Fatal).

Record SnapshotRequest := {
  sq_vote : Vote;
  sq_meta : SnapshotMeta;
  sq_data : bytes;
}.

(** [RaftError] of a call without errors of its own. *)
Inductive RaftError :=
  | RaftFatal (error : Fatal)
  | RaftAPIError (never : Empty_set).

Definition raft_error_to_fatal (error : RaftError) : Fatal :=
  match error with
  | RaftFatal error => error
  | RaftAPIError never => match never with end
  end.

(** serde_json on the envelope and the response, and the [Debug] form of the latter. *)
Class RpcJson := {
  envelope_to_vec : ClusterRpcEnvelope → result bytes string;
  envelope_from_slice : bytes → result ClusterRpcEnvelope string;
  response_to_vec : ClusterRpcResponse → result bytes string;
  response_from_slice : bytes → result ClusterRpcResponse string;
  debug_rpc_response : ClusterRpcResponse → string;
}.

(** The calls of a local [Raft] that the listener makes. *)
Class RaftServer (Q : Type) := {
  raft_append_entries : AppendEntriesRequest → Q → result AppendEntriesResponse RaftError * Q;
  raft_vote : VoteRequest → Q → result VoteResponse RaftError * Q;
  raft_install_full_snapshot : Vote → Snapshot → Q → result SnapshotResponse Fatal * Q;
}.
End messages.

(** ** The serving side of a connection *)

Section serving.
Context `{T : Rustls} `{R : RaftTypes} `{M : RaftRpcTypes} `{J : !RpcJson}.
Context {Q : Type} `{V : !RaftServer Q} (tls : LoadedClusterRaftTls).

(** The call of the local Raft for a request; a snapshot's body follows its frame. *)
Definition dispatch_rpc (request : ClusterRpcRequest) (c : TcpStream * Q) :
    result ClusterRpcResponse IoError * (TcpStream * Q) :=
  let '(stream, raft) := c in
  match request with
  | RpcAppendEntries request =>
      let '(res, raft) := raft_append_entries request raft in
      (Ok (RespAppendEntries (map_err raft_error_to_fatal res)), (stream, raft))
  | RpcVote request =>
      let '(res, raft) := raft_vote request raft in
      (Ok (RespVote (map_err raft_error_to_fatal res)), (stream, raft))
  | RpcFullSnapshot vote meta data_len =>
      let '(data, stream) := on_reader (read_snapshot_body data_len) stream in
      let? data := data else (stream, raft) in
      let '(res, raft) := raft_install_full_snapshot vote {| sp_meta := meta; sp_data := data |} raft in
      (Ok (RespFullSnapshot res), (stream, raft))
  end.

(** [handle_connection], after the handshake *)
Definition serve_request (c : TcpStream * Q) : result unit IoError * (TcpStream * Q) :=
  let '(stream, raft) := c in
  let '(frame, stream) := on_reader read_frame stream in
  let? frame := frame else (stream, raft) in
  let? envelope := map_err invalid_data (envelope_from_slice frame) else (stream, raft) in
  let? _ := verify_claimed_peer_certificate tls (ev_source_node_id envelope)
              (ts_peer_certificates (so_session stream)) else (stream, raft) in
  let! response, c := dispatch_rpc (ev_request envelope) (stream, raft) in
  let? encoded := map_err invalid_data (response_to_vec response) else c in
  let '(res, stream) := on_writer (write_frame encoded) c.1 in
  (res, (stream, c.2)).

Definition handle_connection (stream : TcpStream) (raft : Q) :
    option (result unit IoError * (TcpStream * Q)) :=
  match accept_tls_peer stream tls with
  | None => None
  | Some (Err e) => Some (Err e, (stream, raft))
  | Some (Ok stream) => Some (serve_request (stream, raft))
  end.
End serving.

(** ** The calling side *)

Section calling.
Context `{T : Rustls} `{S : Sockets} `{R : RaftTypes} `{M : RaftRpcTypes} `{J : !RpcJson}.

Definition read_response (stream : TcpStream) : result ClusterRpcResponse IoError * TcpStream :=
  let! response, stream := on_reader read_frame stream in
  (map_err invalid_data (response_from_slice response), stream).

Definition exchange_request (source_node_id : N) (request : ClusterRpcRequest) (stream : TcpStream) :
    result ClusterRpcResponse IoError * TcpStream :=
  let envelope := {| ev_source_node_id := source_node_id; ev_request := request |} in
  let? encoded := map_err invalid_data (envelope_to_vec envelope) else stream in
  let! _, stream := on_writer (write_frame encoded) stream in
  read_response stream.

(** What a call gives: its result, and the connection it used, if it had one. *)
Definition on_connection {A} (connected : option (result TcpStream IoError))
    (f : TcpStream → result A IoError * TcpStream) : option (result A IoError * option TcpStream) :=
  match connected with
  | None => None
  | Some (Err e) => Some (Err e, None)
  | Some (Ok stream) => let '(res, stream) := f stream in Some (res, Some stream)
  end.

Definition blocking_request (address : string) (source_node_id target_node_id : N)
    (connect_limit io_timeout : N) (tls : LoadedClusterRaftTls) (request : ClusterRpcRequest) :
    option (result ClusterRpcResponse IoError * option TcpStream) :=
  on_connection (connect_tls_peer address target_node_id connect_limit io_timeout tls)
    (exchange_request source_node_id request).

(** [option.hard_ttl()] is [hard_ttl]. *)
Definition bounded_rpc_io_timeout (hard_ttl : N) : N :=
  if hard_ttl =? 0 then 1000000 else N.min hard_ttl RPC_IO_TIMEOUT.

Definition write_snapshot_request (source_node_id : N) (vote : Vote) (meta : SnapshotMeta)
    (data : bytes) (w : Writer) : result unit IoError * Writer :=
  if MAX_RAFT_SNAPSHOT_BYTES <? len data
  then (Err (invalid_data "Raft snapshot exceeds the configured byte limit"), w)
  else if u64_max <? len data
  then (Err (invalid_data "Raft snapshot length cannot be represented as u64"), w)
  else
  let header := {| ev_source_node_id := source_node_id;
                   ev_request := RpcFullSnapshot vote meta (len data) |} in
  let? encoded := map_err invalid_data (envelope_to_vec header) else w in
  let! _, w := write_frame encoded w in
  write_snapshot_body data w.

Definition exchange_snapshot (source_node_id : N) (snapshot : SnapshotRequest) (stream : TcpStream) :
    result ClusterRpcResponse IoError * TcpStream :=
  let! _, stream := on_writer (write_snapshot_request source_node_id (sq_vote snapshot)
                                 (sq_meta snapshot) (sq_data snapshot)) stream in
  read_response stream.

Definition blocking_snapshot_request (address : string) (source_node_id target_node_id : N)
    (connect_limit : N) (tls : LoadedClusterRaftTls) (snapshot : SnapshotRequest) :
    option (result ClusterRpcResponse IoError * option TcpStream) :=
  on_connection (connect_tls_peer address target_node_id connect_limit RPC_IO_TIMEOUT tls)
    (exchange_snapshot source_node_id snapshot).

(** ** OpenRaft's network *)

Record TcpRaftNetworkFactory := {
  nf_source_node_id : N;
  nf_connect_timeout : N;
  nf_tls : LoadedClusterRaftTls;
}.

Record TcpRaftNetwork := {
  nw_target : N;
  nw_addr : string;
  nw_source_node_id : N;
  nw_connect_timeout : N;
  nw_tls : LoadedClusterRaftTls;
}.

Definition new_client (target : N) (addr : string) (f : TcpRaftNetworkFactory) : TcpRaftNetwork := {|
  nw_target := target; nw_addr := addr; nw_source_node_id := nf_source_node_id f;
  nw_connect_timeout := nf_connect_timeout f; nw_tls := nf_tls f |}.

(** The errors of a remote call: the peer could not be asked, or its Raft failed. *)
Inductive RPCError :=
  | RpcUnreachable (error : IoError)
  | RpcRemote (target : N) (addr : string) (error : RaftError).

Inductive StreamingError :=
  | StreamingUnreachable (error : IoError)
  | StreamingRemote (target : N) (addr : string) (error : Fatal).

Definition unreachable_rpc_error (error : IoError) : RPCError := RpcUnreachable error.

Definition protocol_rpc_error (operation : string) (response : ClusterRpcResponse) : RPCError :=
  RpcUnreachable (invalid_data
    ("unexpected Raft " +:+ operation +:+ " RPC response: " +:+ debug_rpc_response response)).

(** [joined]: how the blocking task ended, [Some] when it panicked or was cancelled. *)
Definition joined_result {A} (joined : option string) (r : result A IoError) : result A IoError :=
  match joined with Some e => Err (io_other e) | None => r end.

Definition network_request (net : TcpRaftNetwork) (hard_ttl : N) (joined : option string)
    (request : ClusterRpcRequest) : option (result ClusterRpcResponse IoError * option TcpStream) :=
  let io_timeout := bounded_rpc_io_timeout hard_ttl in
  let connect_limit := N.min (nw_connect_timeout net) io_timeout in
  '(res, stream) ← blocking_request (nw_addr net) (nw_source_node_id net) (nw_target net)
                     connect_limit io_timeout (nw_tls net) request;
  Some (joined_result joined res, stream).

Definition network_snapshot_request (net : TcpRaftNetwork) (joined : option string)
    (snapshot : SnapshotRequest) : option (result ClusterRpcResponse IoError * option TcpStream) :=
  '(res, stream) ← blocking_snapshot_request (nw_addr net) (nw_source_node_id net) (nw_target net)
                     (nw_connect_timeout net) (nw_tls net) snapshot;
  Some (joined_result joined res, stream).

Definition append_entries_response (net : TcpRaftNetwork) (res : result ClusterRpcResponse IoError) :
    result AppendEntriesResponse RPCError :=
  let^ response := map_err unreachable_rpc_error res in
  match response with
  | RespAppendEntries (Ok response) => Ok response
  | RespAppendEntries (Err error) => Err (RpcRemote (nw_target net) (nw_addr net) (RaftFatal error))
  | other => Err (protocol_rpc_error "append_entries" other)
  end.

Definition network_append_entries (net : TcpRaftNetwork) (rpc : AppendEntriesRequest) (hard_ttl : N)
    (joined : option string) : option (result AppendEntriesResponse RPCError * option TcpStream) :=
  '(res, stream) ← network_request net hard_ttl joined (RpcAppendEntries rpc);
  Some (append_entries_response net res, stream).

Definition vote_response (net : TcpRaftNetwork) (res : result ClusterRpcResponse IoError) :
    result VoteResponse RPCError :=
  let^ response := map_err unreachable_rpc_error res in
  match response with
  | RespVote (Ok response) => Ok response
  | RespVote (Err error) => Err (RpcRemote (nw_target net) (nw_addr net) (RaftFatal error))
  | other => Err (protocol_rpc_error "vote" other)
  end.

Definition network_vote (net : TcpRaftNetwork) (rpc : VoteRequest) (hard_ttl : N)
    (joined : option string) : option (result VoteResponse RPCError * option TcpStream) :=
  '(res, stream) ← network_request net hard_ttl joined (RpcVote rpc);
  Some (vote_response net res, stream).

Definition full_snapshot_response (net : TcpRaftNetwork) (res : result ClusterRpcResponse IoError) :
    result SnapshotResponse StreamingError :=
  let^ response := map_err StreamingUnreachable res in
  match response with
  | RespFullSnapshot (Ok response) => Ok response
  | RespFullSnapshot (Err error) => Err (StreamingRemote (nw_target net) (nw_addr net) error)
  | other => Err (StreamingUnreachable (invalid_data
      ("unexpected Raft snapshot RPC response: " +:+ debug_rpc_response other)))
  end.

Definition network_full_snapshot (net : TcpRaftNetwork) (vote : Vote) (snapshot : Snapshot)
    (joined : option string) : option (result SnapshotResponse StreamingError * option TcpStream) :=
  '(res, stream) ← network_snapshot_request net joined
     {| sq_vote := vote; sq_meta := sp_meta snapshot; sq_data := sp_data snapshot |};
  Some (full_snapshot_response net res, stream).
End calling.

(** ** The listener *)

Definition RPC_CONNECTION_WORKERS : nat := 8.
Definition RPC_CONNECTION_QUEUE_CAPACITY : N := 64.

(** Where the accept thread is in [serve_rpc]. *)
Inductive AcceptPhase :=
  | Polling                          (* at the head of the loop *)
  | Listening                        (* the stop flag was clear *)
  | Accepted (stream : TcpStream)    (* not yet counted as queued *)
  | Offering (stream : TcpStream)    (* counted, before [try_send] *)
  | Refusing (stream : TcpStream)    (* the queue was full *)
  | Orphaned (stream : TcpStream)    (* no worker is left *)
  | Sleeping
  | AcceptReturned (res : result unit IoError).

(** Where a worker is in [serve_rpc_connections].  The receiver's mutex is held
    while receiving. *)
Inductive WorkerPhase :=
  | Locking
  | Receiving
  | Received (stream : TcpStream)    (* still counted as queued *)
  | Uncounted (stream : TcpStream)   (* before the stop flag is read *)
  | Entering (stream : TcpStream)    (* the stop flag was clear *)
  | Handling (stream : TcpStream)    (* counted as active *)
  | Handled                          (* still counted as active *)
  | WorkerReturned (res : result unit IoError)
  | WorkerPanicked.

(** The threads and what they share.  For the statements, [rq_accepted] lists
    the connections accepted so far and [rq_ended] those that are over. *)
Record RpcServerState (Q : Type) := MkRpc {
  rq_stop : bool;
  rq_queued : N;
  rq_active : N;
  rq_poisoned : bool;
  rq_queue : list TcpStream;
  rq_accept : AcceptPhase;
  rq_workers : list WorkerPhase;
  rq_raft : Q;
  rq_accepted : list TcpStream;
  rq_ended : list TcpStream;
}.
Arguments MkRpc {Q} _ _ _ _ _ _ _ _ _ _.
Arguments rq_stop {Q} _.
Arguments rq_queued {Q} _.
Arguments rq_active {Q} _.
Arguments rq_poisoned {Q} _.
Arguments rq_queue {Q} _.
Arguments rq_accept {Q} _.
Arguments rq_workers {Q} _.
Arguments rq_raft {Q} _.
Arguments rq_accepted {Q} _.
Arguments rq_ended {Q} _.

(** A worker that still holds the receiver. *)
Definition alive (w : WorkerPhase) : bool :=
  match w with WorkerReturned _ | WorkerPanicked => false | _ => true end.

Definition is_receiving (w : WorkerPhase) : bool :=
  match w with Receiving => true | _ => false end.

Section listener.
Context `{T : Rustls} `{R : RaftTypes} `{M : RaftRpcTypes} `{J : !RpcJson}.
Context {Q : Type} `{V : !RaftServer Q} (tls : LoadedClusterRaftTls).
Implicit Types (n a : N) (p : bool) (q acc fin : list TcpStream) (ws : list WorkerPhase) (r : Q).

(** One turn of the accept thread. *)
Inductive accept_step : RpcServerState Q → RpcServerState Q → Prop :=
  | poll_stopped n a p q ws r acc fin :
      accept_step (MkRpc true n a p q Polling ws r acc fin)
        (MkRpc true n a p q (AcceptReturned (Ok ())) ws r acc fin)
  | poll_running n a p q ws r acc fin :
      accept_step (MkRpc false n a p q Polling ws r acc fin)
        (MkRpc false n a p q Listening ws r acc fin)
  | accept_stream b n a p q ws r acc fin stream :
      accept_step (MkRpc b n a p q Listening ws r acc fin)
        (MkRpc b n a p q (Accepted stream) ws r (acc ++ [stream]) fin)
  | accept_would_block b n a p q ws r acc fin :
      accept_step (MkRpc b n a p q Listening ws r acc fin) (MkRpc b n a p q Sleeping ws r acc fin)
  | accept_fails b n a p q ws r acc fin e :
      io_kind e ≠ KWouldBlock →
      accept_step (MkRpc b n a p q Listening ws r acc fin)
        (MkRpc b n a p q (AcceptReturned (Err e)) ws r acc fin)
  | accept_wakes b n a p q ws r acc fin :
      accept_step (MkRpc b n a p q Sleeping ws r acc fin) (MkRpc b n a p q Polling ws r acc fin)
  | count_stream b n a p q ws r acc fin stream :
      accept_step (MkRpc b n a p q (Accepted stream) ws r acc fin)
        (MkRpc b (fetch_add n) a p q (Offering stream) ws r acc fin)
  | send_stream b n a p q ws r acc fin stream :
      existsb alive ws = true → len q < RPC_CONNECTION_QUEUE_CAPACITY →
      accept_step (MkRpc b n a p q (Offering stream) ws r acc fin)
        (MkRpc b n a p (q ++ [stream]) Polling ws r acc fin)
  | send_full b n a p q ws r acc fin stream :
      existsb alive ws = true → RPC_CONNECTION_QUEUE_CAPACITY ≤ len q →
      accept_step (MkRpc b n a p q (Offering stream) ws r acc fin)
        (MkRpc b n a p q (Refusing stream) ws r acc fin)
  | send_disconnected b n a p q ws r acc fin stream :
      existsb alive ws = false →
      accept_step (MkRpc b n a p q (Offering stream) ws r acc fin)
        (MkRpc b n a p q (Orphaned stream) ws r acc fin)
  | refuse_stream b n a p q ws r acc fin stream :
      accept_step (MkRpc b n a p q (Refusing stream) ws r acc fin)
        (MkRpc b (fetch_sub n) a p q Polling ws r acc (fin ++ [stream]))
  | orphan_stream b n a p q ws r acc fin stream :
      accept_step (MkRpc b n a p q (Orphaned stream) ws r acc fin)
        (MkRpc b (fetch_sub n) a p q (AcceptReturned (Err (MkIo KBrokenPipe
           "Raft RPC connection workers stopped unexpectedly"))) ws r acc (fin ++ [stream])).

(** One turn of worker [i]. *)
Inductive worker_step (i : nat) : RpcServerState Q → RpcServerState Q → Prop :=
  | worker_locks b n a q ph ws r acc fin :
      ws !! i = Some Locking → existsb is_receiving ws = false →
      worker_step i (MkRpc b n a false q ph ws r acc fin)
        (MkRpc b n a false q ph (<[i := Receiving]> ws) r acc fin)
  | worker_poisoned b n a q ph ws r acc fin :
      ws !! i = Some Locking → existsb is_receiving ws = false →
      worker_step i (MkRpc b n a true q ph ws r acc fin)
        (MkRpc b n a true q ph (<[i := WorkerReturned (Err
           (io_other "Raft RPC connection queue mutex was poisoned"))]> ws) r acc fin)
  | worker_receives b n a p q ph ws r acc fin stream :
      ws !! i = Some Receiving →
      worker_step i (MkRpc b n a p (stream :: q) ph ws r acc fin)
        (MkRpc b n a p q ph (<[i := Received stream]> ws) r acc fin)
  | worker_disconnected b n a p res ws r acc fin :
      ws !! i = Some Receiving →
      worker_step i (MkRpc b n a p [] (AcceptReturned res) ws r acc fin)
        (MkRpc b n a p [] (AcceptReturned res) (<[i := WorkerReturned (Ok ())]> ws) r acc fin)
  | worker_uncounts b n a p q ph ws r acc fin stream :
      ws !! i = Some (Received stream) →
      worker_step i (MkRpc b n a p q ph ws r acc fin)
        (MkRpc b (fetch_sub n) a p q ph (<[i := Uncounted stream]> ws) r acc fin)
  | worker_shuts n a p q ph ws r acc fin stream :
      ws !! i = Some (Uncounted stream) →
      worker_step i (MkRpc true n a p q ph ws r acc fin)
        (MkRpc true n a p q ph (<[i := Locking]> ws) r acc (fin ++ [stream]))
  | worker_admits n a p q ph ws r acc fin stream :
      ws !! i = Some (Uncounted stream) →
      worker_step i (MkRpc false n a p q ph ws r acc fin)
        (MkRpc false n a p q ph (<[i := Entering stream]> ws) r acc fin)
  | worker_begins b n a p q ph ws r acc fin stream :
      ws !! i = Some (Entering stream) →
      worker_step i (MkRpc b n a p q ph ws r acc fin)
        (MkRpc b n (fetch_add a) p q ph (<[i := Handling stream]> ws) r acc fin)
  | worker_handles b n a p q ph ws r acc fin stream res after :
      ws !! i = Some (Handling stream) →
      handle_connection tls stream r = Some (res, after) →
      worker_step i (MkRpc b n a p q ph ws r acc fin)
        (MkRpc b n a p q ph (<[i := Handled]> ws) after.2 acc (fin ++ [stream]))
  | worker_panics b n a p q ph ws r acc fin stream r' :
      ws !! i = Some (Handling stream) →
      r' = r ∨ (∃ res after, handle_connection tls stream r = Some (res, after) ∧ r' = after.2) →
      worker_step i (MkRpc b n a p q ph ws r acc fin)
        (MkRpc b n a p q ph (<[i := WorkerPanicked]> ws) r' acc (fin ++ [stream]))
  | worker_ends b n a p q ph ws r acc fin :
      ws !! i = Some Handled →
      worker_step i (MkRpc b n a p q ph ws r acc fin)
        (MkRpc b n (fetch_sub a) p q ph (<[i := Locking]> ws) r acc fin).

(** The threads, and the owner of the handle setting the stop flag. *)
Inductive rpc_step (s s' : RpcServerState Q) : Prop :=
  | accept_turn : accept_step s s' → rpc_step s s'
  | worker_turn i : worker_step i s s' → rpc_step s s'
  | stop_stored :
      rq_stop s = false →
      s' = MkRpc true (rq_queued s) (rq_active s) (rq_poisoned s) (rq_queue s) (rq_accept s)
             (rq_workers s) (rq_raft s) (rq_accepted s) (rq_ended s) →
      rpc_step s s'.

(** ** Starting and stopping it *)

(** What the calls of [start_raft_rpc_server] report; thread 8 is the accept thread. *)
Record StartEnv := {
  se_bind : result unit IoError;
  se_nonblocking : result unit IoError;
  se_local_addr : result string IoError;
  se_spawn : nat → result unit IoError;
}.

Definition with_workers (n : nat) (accept : AcceptPhase) (raft : Q) : RpcServerState Q :=
  MkRpc false 0 0 false [] accept (replicate n Locking) raft [] [].

(** The workers that were spawned, and the error that ended the loop, if any. *)
Fixpoint spawn_workers (spawn : nat → result unit IoError) (remaining i : nat) : nat * option IoError :=
  match remaining with
  | O => (i, None)
  | S remaining =>
      match spawn i with Ok _ => spawn_workers spawn remaining (S i) | Err e => (i, Some e) end
  end.

(** A failure to spawn drops the senders and joins the workers spawned so far,
    which are given with the error. *)
Definition start_raft_rpc_server (env : StartEnv) (raft : Q) :
    result (string * RpcServerState Q) (IoError * option (RpcServerState Q)) :=
  let^ _ := map_err (λ e, (e, None)) (se_bind env) in
  let^ _ := map_err (λ e, (e, None)) (se_nonblocking env) in
  let^ local_addr := map_err (λ e, (e, None)) (se_local_addr env) in
  let '(spawned, failure) := spawn_workers (se_spawn env) RPC_CONNECTION_WORKERS 0 in
  let abandoned := with_workers spawned (AcceptReturned (Ok ())) raft in
  match failure with
  | Some e => Err (e, Some abandoned)
  | None =>
      let^ _ := map_err (λ e, (e, Some abandoned)) (se_spawn env RPC_CONNECTION_WORKERS) in
      Ok (local_addr, with_workers spawned Polling raft)
  end.
End listener.

(** A thread's result, [None] when it panicked. *)
Definition join_rpc_thread (joined : option (result unit IoError)) (panic_message : string) :
    result unit IoError :=
  match joined with Some res => res | None => Err (io_other panic_message) end.

Definition joined_worker (w : WorkerPhase) : option (option (result unit IoError)) :=
  match w with
  | WorkerReturned res => Some (Some res)
  | WorkerPanicked => Some None
  | _ => None
  end.

(** [RaftRpcServerHandle::stop] once every thread has ended; [None] while it waits. *)
Definition rpc_server_stop {Q} (s : RpcServerState Q) : option (result unit IoError) :=
  match rq_accept s, mapM joined_worker (rq_workers s) with
  | AcceptReturned res, Some workers =>
      let accept_result := join_rpc_thread (Some res) "Raft RPC accept thread panicked" in
      let worker_result := foldl (λ worker_result thread,
        match join_rpc_thread thread "Raft RPC worker thread panicked" with
        | Ok _ => worker_result
        | Err error => Err error
        end) (Ok ()) workers in
      Some (match accept_result with Ok _ => worker_result | Err e => Err e end)
  | _, _ => None
  end.
