(* ===== verification/ClusterNodeProps.v ===== *)
(** * Writes through a cluster node

    What the controller of [cluster_raft.rs] needs of OpenRaft is the class
    [EngineLaws]: the engine applies a log of proposals to the session machine,
    a write that is answered was applied at some point of that log, and the
    observation cell shows the term of some state already applied.  Nothing is
    assumed of the proposals of the log.  Then a proposal answered through the
    node was applied to the broker, at a broker term no older than the term the
    node leads in. *)

From S2P Require Import Prelude Values Task Group Messages Machine Recovery Spec Invariant Effect.
From S2P Require Import Broker Valid Display Replicated ReplicatedProps Sessions SessionsProps.
From S2P Require Import Observation Service Dispatch DispatchProps ClusterNode.

(** ** The term of the broker

    Whatever the command and the state, applying it never lowers the term: the
    handlers other than [advance_term] leave it as it is. *)

Abbreviation term_of m := (s_term (m_state m)) (only parsing).

Ltac keeps :=
  unfold mark_task, mark_group, remove_member_lease_task in *; repeat case_match; simplify_eq/=;
  try done.

Lemma requeue_tasks_term gid mid ids n m : term_of (requeue_tasks gid mid ids n m).2 = term_of m.
Proof.
  revert n m. induction ids as [|id ids IH]; intros n m; [done|]. simpl.
  repeat (case_match; simplify_eq/=; rewrite ?IH; try done).
Qed.
Lemma requeue_member_leases_term gid mid m : term_of (requeue_member_leases gid mid m).2 = term_of m.
Proof. unfold requeue_member_leases. by rewrite requeue_tasks_term. Qed.

Lemma requeue_removed_term gid removed m : term_of (requeue_removed gid removed m).2 = term_of m.
Proof.
  revert m. induction removed as [|c removed IH]; intros m; [done|]. simpl.
  pose proof (requeue_member_leases_term gid (c_id c) m) as H.
  destruct (requeue_member_leases gid (c_id c) m) as [[] m1]; [|done]. by rewrite IH.
Qed.

Lemma reap_groups_term stale selected n affected m :
  term_of (reap_groups stale selected n affected m).2 = term_of m.
Proof.
  revert n affected m. induction selected as [|[gid ids] selected IH]; intros n affected m; [done|].
  simpl. destruct (Coordinator_reap_stale_members _ _ _ _) as [r groups].
  destruct (map_err _ r) as [removed|]; [|done]. destruct (is_nil removed); [by rewrite IH|].
  pose proof (requeue_removed_term gid removed (with_groups groups m)) as H.
  destruct (requeue_removed _ _ _) as [[] m1]; [|done]. by rewrite IH.
Qed.

Lemma requeue_expired_term ns now ids n m : term_of (requeue_expired ns now ids n m).2 = term_of m.
Proof.
  revert n m. induction ids as [|id ids IH]; intros n m; [done|]. simpl.
  unfold remove_member_lease_task.
  repeat (case_match; simplify_eq/=; rewrite ?IH; try done).
Qed.

Lemma recover_expired_term ns now m : term_of (recover_expired_leases ns now m).2 = term_of m.
Proof.
  unfold recover_expired_leases. case_match; [|done]. case_match. by rewrite requeue_expired_term.
Qed.

Lemma prune_loop_term cutoff target pruned heap m :
  term_of (prune_loop cutoff target pruned heap m).2 = term_of m.
Proof.
  revert pruned m. induction heap as [|[at_ms id] heap IH]; intros pruned m; simpl;
  repeat (case_match; simplify_eq/=; rewrite ?IH; try done).
Qed.

Lemma pop_ready_term ns m : term_of (pop_ready_task ns m).2 = term_of m.
Proof. unfold pop_ready_task. by repeat case_match. Qed.

Lemma lease_task_term c ns g id m : term_of (lease_task c ns g id m).2 = term_of m.
Proof. unfold lease_task. repeat (case_match; simplify_eq/=; try done). Qed.

(** Runs a handler through its guards, using the lemma of each loop it calls. *)
Ltac frame_term :=
  repeat match goal with
  | H : s_term _ = s_term _ |- s_term _ = s_term _ => solve [exact H|congruence]
  | |- context [recover_expired_leases ?ns ?now ?m] =>
      pose proof (recover_expired_term ns now m); destruct (recover_expired_leases ns now m) as [[]]
  | |- context [pop_ready_task ?ns ?m] =>
      pose proof (pop_ready_term ns m); destruct (pop_ready_task ns m) as [[]]
  | |- context [lease_task] => rewrite lease_task_term
  | |- context [requeue_member_leases ?g ?c ?m] =>
      pose proof (requeue_member_leases_term g c m); destruct (requeue_member_leases g c m) as [[]]
  | |- context [reap_groups ?a ?b ?c ?d ?m] =>
      pose proof (reap_groups_term a b c d m); destruct (reap_groups a b c d m) as [[[]|]]
  | |- context [prune_loop ?a ?b ?c ?d ?m] =>
      pose proof (prune_loop_term a b c d m); destruct (prune_loop a b c d m) as [[]]
  | _ => progress (cbn [fst snd] in *)
  | _ => case_match; simplify_eq/=; try done
  end.

(** Only the advancement of the term changes it, and only upwards. *)
Lemma handle_term cmd m :
  term_of m ≤ term_of (handle cmd m).2.
Proof.
  destruct cmd; cbn [handle]; unfold prod_map; cbn [snd id].
  - unfold ensure_namespace. keeps.
  - unfold publish_task. keeps.
  - unfold ensure_consumer_group. keeps.
  - unfold join_consumer_group. keeps.
  - unfold heartbeat. keeps.
  - apply N.eq_le_incl. symmetry. unfold leave_consumer_group. frame_term.
  - apply N.eq_le_incl. symmetry. unfold reap_stale_members. frame_term.
  - apply N.eq_le_incl. symmetry. unfold claim_task. frame_term.
  - unfold renew_task_lease. keeps.
  - unfold complete_task. keeps.
  - apply N.eq_le_incl. symmetry. unfold prune_completed_tasks. frame_term.
  - unfold advance_term. destruct (require_term _ _); [|done].
    destruct (N.leb_spec (at_new_term c) (term_of m)); [done|].
    destruct (next_revision _); [|done]. cbn. lia.
Qed.

Lemma apply_term cmd m : term_of m ≤ term_of (apply cmd m).2.
Proof.
  unfold apply. pose proof (handle_term cmd (clear_changes m)) as H.
  by destruct (handle cmd (clear_changes m)) as [[] m'].
Qed.

(** ** The log *)

Abbreviation broker_state m := (m_state (sm_broker m)) (only parsing).

Lemma apply_replicated_term c m :
  s_term (broker_state m) ≤ s_term (broker_state (apply_replicated_command c m).2).
Proof.
  unfold apply_replicated_command. destruct (command_from_replicated c) as [cmd|]; [|done].
  cbn [invalid_state_machine_data map_err]. pose proof (apply_term cmd (sm_broker m)) as H.
  by destruct (apply cmd (sm_broker m)).
Qed.

Lemma apply_proposal_term p m :
  s_term (broker_state m) ≤ s_term (broker_state (apply_proposal p m).2).
Proof.
  unfold apply_proposal. destruct (into_parts p) as [[caller c]|]; [|done].
  cbn [invalid_state_machine_data map_err].
  assert (∀ i c, s_term (broker_state m) ≤ s_term (broker_state (apply_identified i c m).2)) as Hi.
  { intros i c'. unfold apply_identified. destruct (check_identity _ _ _); [done|].
    pose proof (apply_replicated_term c' m). by destruct (apply_replicated_command c' m) as [[]]. }
  assert (∀ s e o, sm_broker (acquire_command_session_owner s e o m).2 = sm_broker m) as Hacq.
  { intros. unfold acquire_command_session_owner. by repeat case_match. }
  destruct c, caller; try apply Hi; try apply apply_replicated_term; [done|]. by rewrite Hacq.
Qed.

(** The states a log of proposals leads to, whatever the proposals. *)
Definition commits (m m' : SessionMachine) : Prop := ∃ ps, m' = (apply_proposals ps m).2.

Lemma apply_log_app ps qs m :
  (apply_proposals (ps ++ qs) m).2 = (apply_proposals qs (apply_proposals ps m).2).2.
Proof.
  revert m. induction ps as [|p ps IH]; intros m; [done|]. simpl.
  destruct (apply_proposal p m) as [r m1]. specialize (IH m1).
  destruct (apply_proposals (ps ++ qs) m1), (apply_proposals ps m1). done.
Qed.

#[export] Instance commits_preorder : PreOrder commits.
Proof.
  split; [by exists []|]. intros m m1 m2 [ps ->] [qs ->]. exists (ps ++ qs)%list.
  by rewrite apply_log_app.
Qed.

Lemma commits_step p m : commits m (apply_proposal p m).2.
Proof. exists [p]. simpl. by destruct (apply_proposal p m). Qed.

Lemma commits_term m m' : commits m m' → s_term (broker_state m) ≤ s_term (broker_state m').
Proof.
  intros [ps ->]. revert m. induction ps as [|p ps IH]; intros m; [done|]. simpl.
  pose proof (apply_proposal_term p m) as Hp. destruct (apply_proposal p m) as [r m1].
  specialize (IH m1). destruct (apply_proposals ps m1) as [rs m2]. cbn [snd] in *. by etrans.
Qed.

(** ** What OpenRaft promises *)

(** The answer to a proposal that was applied at some point of the log. *)
Definition written (p : ReplicatedBrokerProposalV1) (response : ReplicatedBrokerResponseV1)
    (m m' : SessionMachine) : Prop :=
  ∃ m0, commits m m0 ∧ (apply_proposal p m0).1 = Ok response ∧
    commits (apply_proposal p m0).2 m'.

Class EngineLaws (R : Type) `{E : RaftEngine R} := {
  el_machine : R → SessionMachine;
  el_leader r : commits (el_machine r) (el_machine (re_current_leader r).2);
  el_vote_term r : commits (el_machine r) (el_machine (re_vote_term r).2);
  (** a load may be stale, but what it shows has been applied *)
  el_observe r : commits (el_machine r) (el_machine (re_observe r).2) ∧
    ∃ m0, commits m0 (el_machine (re_observe r).2) ∧
          ob_term (re_observe r).1 = s_term (broker_state m0);
  el_write p r response :
    (re_client_write p r).1 = Ok response →
    written p response (el_machine r) (el_machine (re_client_write p r).2);
}.
Arguments el_machine {R E _} _.

(** ** A write *)

(** How a committed rejection reaches the caller. *)
Definition committed_error (e : StateMachineError) : BrokerError :=
  with_disposition DispCommitted (from_state_machine_error e).

Lemma error_reads_back e : error_from_replicated (error_to_replicated e) = e.
Proof. by destruct e as [[] ? []]. Qed.

(** What the broker answers to a command, as the caller of the node sees it. *)
Definition committed_answer (command : BrokerCommand) (m : SessionMachine) :
    result BrokerMutationResult BrokerError :=
  map_err committed_error (map_ok am_result (apply command (sm_broker m)).1).

(** An unidentified command is applied to the broker whatever its state, and the
    answer that is read back is the answer of the broker. *)
Lemma legacy_application c cmd m response :
  command_from_replicated c = Ok cmd → (apply_proposal (legacy c) m).1 = Ok response →
  (apply_proposal (legacy c) m).2 = MkSessions (apply cmd (sm_broker m)).2 (sm_sessions m) ∧
  ∀ res, into_application_result response = Ok res → res = committed_answer cmd m.
Proof.
  intros Hc.
  assert (apply_proposal (legacy c) m = apply_replicated_command c m) as ->.
  { unfold apply_proposal. by destruct c. }
  unfold apply_replicated_command, committed_answer. rewrite Hc.
  cbn [invalid_state_machine_data map_err].
  destruct (apply cmd (sm_broker m)) as [[am|e] b']; cbn [map_ok map_err fst snd].
  - unfold from_application_result, into_application_result.
    destruct (result_to_replicated _) as [v|] eqn:Hto; [|done]. intros [= <-]. split; [done|].
    intros res. destruct (result_from_replicated v) as [r|] eqn:Hfrom; [|done]. intros [= <-].
    by rewrite (replicated_result_kept _ _ _ Hto Hfrom).
  - intros [= <-]. split; [done|]. unfold into_application_result. rewrite error_reads_back.
    by intros res [= <-].
Qed.

(** The answer of a broker that is well formed, to a command it takes, is the
    specified one. *)
Lemma committed_answer_spec cmd m :
  Inv (sm_broker m) → admissible cmd (sm_broker m) →
  committed_answer cmd m = map_err committed_error (spec_handle cmd (broker_state m)).1 ∧
  m_state (apply cmd (sm_broker m)).2 = (spec_handle cmd (broker_state m)).2.
Proof.
  intros Hi Ha. destruct (apply_refines cmd _ Hi Ha) as (_ & Hres & Hst). split; [|done].
  unfold committed_answer. by rewrite <-Hres.
Qed.

(** The term a command is written for. *)
Definition fencing_term (cmd : BrokerCommand) : option Term :=
  match cmd with
  | ClaimTask c => Some (cl_expected_term c)
  | RenewTaskLease c => Some (rn_expected_term c)
  | CompleteTask c => Some (cp_expected_term c)
  | AdvanceTerm c => Some (at_expected_term c)
  | _ => None
  end.

(** A command written for another term is refused and changes nothing. *)
Lemma fenced_command cmd expected m :
  fencing_term cmd = Some expected → expected ≠ s_term (m_state m) →
  apply cmd m = (Err (StaleTerm expected (s_term (m_state m))), clear_changes m).
Proof.
  intros Hf Hne. assert (require_term expected (clear_changes m) =
    Err (StaleTerm expected (s_term (m_state m)))) as Hr.
  { unfold require_term. cbn. by destruct (N.eqb_spec (s_term (m_state m)) expected). }
  destruct cmd; try discriminate Hf; injection Hf as <-; unfold apply; cbn [handle];
    unfold claim_task, renew_task_lease, complete_task, advance_term; by rewrite Hr.
Qed.

Lemma advanced_term c m res m' :
  apply (AdvanceTerm c) m = (Ok res, m') → s_term (m_state m') = at_new_term c.
Proof.
  unfold apply. cbn [handle]. unfold advance_term, prod_map. destruct (require_term _ _); [|done].
  destruct (_ <=? _); [done|]. destruct (next_revision _); [|done]. by intros [= _ <-].
Qed.

Ltac fail_code := unfold adapter_failure; cbn; set_solver.

Section writes.
Context {R : Type} {E : RaftEngine R} {L : EngineLaws R}.

(** Synchronization leaves the broker in the term of the engine or a later one. *)
Lemma sync_reaches_term r r' :
  sync_broker_term_to_raft r = (Ok (), r') →
  commits (el_machine r) (el_machine r') ∧
  ∃ t, (re_vote_term r).1 = Ok t ∧ t ≤ s_term (broker_state (el_machine r')).
Proof.
  unfold sync_broker_term_to_raft, current_raft_term, observed_term.
  pose proof (el_vote_term r) as Hv. destruct (re_vote_term r) as [[t|e] r1]; [|done].
  cbn [map_err fst snd] in *.
  pose proof (el_observe r1) as [Ho (m0 & Hm0 & Hterm)].
  destruct (re_observe r1) as [o r2]. cbn [fst snd] in *. unfold validated_term, term_value.
  destruct (Term_new (ob_term o)) as [bt|] eqn:Hbt; [|done]. cbn [map_err].
  apply Term_new_ok in Hbt as [-> Hpos]. rewrite Hterm in *.
  assert (commits (el_machine r) (el_machine r2)) as H02 by (by etrans).
  apply commits_term in Hm0 as Hle.
  destruct (N.ltb_spec t (s_term (broker_state m0))); [done|].
  destruct (N.eqb_spec t (s_term (broker_state m0))) as [->|Hne].
  { intros [= <-]. eauto. }
  destruct (Term_new t) as [nt|] eqn:Hnt; [|done]. cbn [map_err].
  apply Term_new_ok in Hnt as [-> Htpos].
  set (cmd := AdvanceTerm _).
  destruct (replicated_command_reads_back cmd) as (c & -> & Hc); [by split|]. cbn [map_err].
  pose proof (el_write (legacy c) r2) as Hw.
  destruct (re_client_write (legacy c) r2) as [[resp|e] r3]; [|done]. cbn [map_err fst snd] in *.
  destruct (Hw resp eq_refl) as (m1 & Hc1 & Happ & Hc2).
  destruct (legacy_application c cmd m1 resp Hc Happ) as [Hst Hres].
  destruct (into_application_result resp) as [out|]; [|done]. rewrite (Hres out eq_refl). cbn [map_err].
  assert (commits (el_machine r) (el_machine r3)) as H03.
  { etrans; [done|]. etrans; [done|]. etrans; [apply commits_step|done]. }
  unfold committed_answer. apply commits_term in Hc2. rewrite Hst in Hc2. cbn [sm_broker] in Hc2.
  destruct (apply cmd (sm_broker m1)) as [[am|err] b'] eqn:Hap; cbn [map_ok map_err fst snd] in *;
    [|done].
  destruct (am_result am); try done. intros [= <-]. split; [done|].
  exists t. split; [done|]. apply advanced_term in Hap. by rewrite Hap in Hc2.
Qed.

(** What a proposal through the controller comes to.  [t] is the term in which
    the node leads: the log reaches a state [m0] of that term or a later one, the
    command is applied there, and the answer is the answer of that application. *)
Definition write_outcome (command : BrokerCommand) (t : N) (m m' : SessionMachine)
    (res : result BrokerMutationResult BrokerError) : Prop :=
  ∃ m0, commits m m0 ∧ t ≤ s_term (broker_state m0) ∧
    res = committed_answer command m0 ∧
    commits (MkSessions (apply command (sm_broker m0)).2 (sm_sessions m0)) m' ∧
    (∀ expected, fencing_term command = Some expected → expected < t →
       res = Err (committed_error (StaleTerm expected (s_term (broker_state m0)))) ∧
       m_state (apply command (sm_broker m0)).2 = broker_state m0) ∧
    (Inv (sm_broker m0) → admissible command (sm_broker m0) →
       res = map_err committed_error (spec_handle command (broker_state m0)).1 ∧
       m_state (apply command (sm_broker m0)).2 = (spec_handle command (broker_state m0)).2).

Lemma sync_failure r e r' : sync_broker_term_to_raft r = (Err e, r') → adapter_failure e.
Proof.
  unfold sync_broker_term_to_raft, current_raft_term, observed_term, map_err.
  intros H. repeat case_match; simplify_eq/=; unfold adapter_failure; simpl; fail_code.
Qed.

Lemma propose_outcome node_id command r res r' :
  valid_command command → running_propose node_id command r = (res, r') →
  (∃ t, (re_current_leader r).1 = Some node_id ∧
        (re_vote_term (re_current_leader r).2).1 = Ok t ∧
        write_outcome command t (el_machine r) (el_machine r') res) ∨
  (∃ e, res = Err e ∧ adapter_failure e).
Proof.
  intros Hv. unfold running_propose, ready_to_write.
  pose proof (el_leader r) as Hl. destruct (re_current_leader r) as [leader r1]. cbn [fst snd] in *.
  case_bool_decide as Hlead; cbn [negb].
  2: { intros [= <- _]. right. eexists. split; [done|]. fail_code. }
  destruct (sync_broker_term_to_raft r1) as [[[]|e] r2] eqn:Hs.
  2: { intros [= <- _]. eauto using sync_failure. }
  apply sync_reaches_term in Hs as (Hc2 & t & Hvote & Ht).
  destruct (replicated_command_reads_back command Hv) as (c & -> & Hc). cbn [map_err].
  pose proof (el_write (legacy c) r2) as Hw.
  destruct (re_client_write (legacy c) r2) as [[resp|e] r3]; cbn [map_err fst snd] in *.
  2: { intros [= <- _]. right. eexists. split; [done|]. fail_code. }
  destruct (Hw resp eq_refl) as (m0 & Hc0 & Happ & Hc3). apply commits_term in Hc0 as Hle.
  destruct (legacy_application c command m0 resp Hc Happ) as [Hst Hres]. rewrite Hst in Hc3.
  destruct (into_application_result resp) as [outcome|e]; cbn [map_err].
  2: { intros [= <- _]. right. eexists. split; [done|]. fail_code. }
  intros [= <- <-]. left. exists t. split_and!; [done..|]. rewrite (Hres outcome eq_refl).
  exists m0. split_and!; [do 2 (etrans; [done|]); done|by etrans|done|done| |apply committed_answer_spec].
  intros expected Hf Hlt. unfold committed_answer.
  rewrite (fenced_command _ _ _ Hf); [done|]. intros ->. lia.
Qed.
End writes.

(** ** The fail-stop *)

(** The calls the service makes of the adapter. *)
Inductive ClusterCall :=
  | CallPropose (command : BrokerCommand)
  | CallIdentified (identity : CommandIdentity) (command : BrokerCommand)
  | CallAcquire (session : CommandSessionId) (epoch : SessionOwnerEpoch)
      (owner : SessionOwnerInstanceId)
  | CallDirectory
  | CallAuthority.

Section fail_stop.
Context {R : Type} {E : RaftEngine R}.

(** The error a call ends with, if it does, and the adapter afterwards. *)
Definition run_call (c : ClusterCall) (a : ClusterRaftConsensusAdapter R) :
    option BrokerError * ClusterRaftConsensusAdapter R :=
  let failed {T} (r : result T BrokerError * ClusterRaftConsensusAdapter R) :=
    (match r.1 with Ok _ => None | Err e => Some e end, r.2) in
  match c with
  | CallPropose command => failed (cluster_propose command a)
  | CallIdentified identity command => failed (cluster_propose_identified identity command a)
  | CallAcquire session epoch owner => failed (cluster_acquire session epoch owner a)
  | CallDirectory => failed (cluster_group_directory a)
  | CallAuthority => failed (cluster_maintenance_authority a)
  end.

Definition fail_stopped_error : BrokerError := BrokerError_new PersistenceError
  "cluster Raft consensus adapter is fail-stopped after an engine failure".

Lemma stopped_call c (a : ClusterRaftConsensusAdapter R) :
  cr_fail_stopped a = true → run_call c a = (Some fail_stopped_error, a).
Proof.
  intros Hf. destruct c; simpl;
    unfold cluster_propose, cluster_propose_identified, cluster_acquire, cluster_group_directory,
      cluster_maintenance_authority, cluster_progress, ensure_available; by rewrite Hf.
Qed.

Lemma submit_stops {T} (serve : R → result T BrokerError * R) a e a' :
  submit serve a = (Err e, a') → should_poison e = true → cr_fail_stopped a' = true.
Proof.
  unfold submit. destruct (request serve a) as [[[t|e0]|e0] a0]; intros [= <- <-] Hp; [|done].
  by rewrite Hp.
Qed.

Definition is_mutation (c : ClusterCall) : bool :=
  match c with CallPropose _ | CallIdentified _ _ | CallAcquire _ _ _ => true | _ => false end.

Lemma fatal_call c (a : ClusterRaftConsensusAdapter R) e a' :
  is_mutation c = true → run_call c a = (Some e, a') → should_poison e = true →
  cr_fail_stopped a' = true.
Proof.
  intros Hm Hr Hp.
  destruct (cr_fail_stopped a) eqn:Hf.
  { rewrite stopped_call in Hr by done. by injection Hr as <- <-. }
  destruct c; try done; simpl in Hr;
    unfold cluster_propose, cluster_propose_identified, cluster_acquire, ensure_available in Hr;
    rewrite Hf in Hr; repeat case_match; simplify_eq/=; try done;
    (eapply submit_stops; [|done]); by apply injective_projections.
Qed.
End fail_stop.

(** ** Readiness *)

Lemma ready_means_confirmed {R} {E : RaftEngine R} node_id r p r' :
  running_readiness node_id r = (MkReadiness RdReady p, r') →
  ∃ before after r1 r2 r3,
    running_progress node_id r = (Ok before, r1) ∧ cp_current_leader before = Some node_id ∧
    re_deadline_passed r1 = (false, r2) ∧ re_linearizable r2 = (Confirmed, r3) ∧
    running_progress node_id r3 = (Ok after, r') ∧ cp_current_leader after = Some node_id ∧
    p = Some after.
Proof.
  unfold running_readiness, follower_status.
  destruct (running_progress node_id r) as [[before|] r1]; [|done].
  case_bool_decide as Hb; cbn [negb]; [|by destruct (cp_current_leader before)].
  destruct (re_deadline_passed r1) as [[] r2] eqn:Hd; [done|].
  destruct (re_linearizable r2) as [[] r3] eqn:Hl; try done;
    destruct (running_progress node_id r3) as [[after|] r4] eqn:Ha; try done.
  - case_bool_decide as Hb'; [|by destruct (cp_current_leader after)].
    intros [= <- <-]. by exists before, after, r1, r2, r3.
  - by destruct (cp_current_leader after).
Qed.
