(* ===== verification/ClusterStartupProps.v ===== *)
(** * Start-up returns

    Every wait of start-up has a deadline.  The class [ClockLaws] counts the
    checks that are left before deadlines pass; with more fuel than that, opening
    a node returns.  [LocalEngine] is an engine that satisfies the laws of this
    file and of the writes: one replica that applies what it is given. *)

From S2P Require Import Prelude Values Task Group Messages Machine Recovery Spec Invariant Effect.
From S2P Require Import Broker Valid Display Replicated ReplicatedProps Sessions SessionsProps.
From S2P Require Import Words Observation Service ClusterNode ClusterNodeProps ClusterStartup OneNode.

(** [cl_left] bounds the checks that find a deadline still ahead.  No voter
    joins between two readings with no call in between. *)
Class ClockLaws (R : Type) `{L : RaftLifecycle R} := {
  cl_left : R → nat;
  cl_expired r r' : rl_expired r = (false, r') → (cl_left r' < cl_left r)%nat;
  cl_checked r : (cl_left (rl_expired r).2 ≤ cl_left r)%nat;
  cl_leader r : (cl_left (re_current_leader r).2 ≤ cl_left r)%nat;
  cl_committed r : (cl_left (re_committed r).2 ≤ cl_left r)%nat;
  cl_metrics r : (cl_left (re_metrics r).2 ≤ cl_left r)%nat;
  cl_observe r : (cl_left (re_observe r).2 ≤ cl_left r)%nat;
  cl_is_initialized r : (cl_left (rl_is_initialized r).2 ≤ cl_left r)%nat;
  cl_initialize id r : (cl_left (rl_initialize id r).2 ≤ cl_left r)%nat;
  cl_elect r : (cl_left (rl_elect r).2 ≤ cl_left r)%nat;
  cl_add_learner id r : (cl_left (rl_add_learner id r).2 ≤ cl_left r)%nat;
  cl_change ids r : (cl_left (rl_change_membership ids r).2 ≤ cl_left r)%nat;
  cl_voters r : rx_voters (re_metrics (re_metrics r).2).1 = rx_voters (re_metrics r).1;
}.
Arguments cl_left {R L _} _.

(** Take one call apart, keeping what it costs. *)
Tactic Notation "call" constr(law) "as" ident(a) ident(r) :=
  let H := fresh "Hleft" in
  pose proof law as H;
  match type of H with
  | (cl_left ?t.2 ≤ _)%nat => destruct t as [a r] eqn:?; cbn [fst snd] in *
  end.

Section termination.
Context {R : Type} {L : RaftLifecycle R} {C : ClockLaws R}.

(** A computation that returns, later on the clock. *)
Definition returns {A} (r : R) (x : option (A * R)) : Prop :=
  ∃ a r', x = Some (a, r') ∧ (cl_left r' ≤ cl_left r)%nat.

Lemma returns_some {A} r r' (a : A) : (cl_left r' ≤ cl_left r)%nat → returns r (Some (a, r')).
Proof. by exists a, r'. Qed.

Lemma returns_later {A} r r' (x : option (A * R)) :
  (cl_left r' ≤ cl_left r)%nat → returns r' x → returns r x.
Proof. intros Hle (a & r2 & -> & Hle'). exists a, r2. split; [done|lia]. Qed.

Lemma poll_returns {A} fuel (look : R → option A * R) late r :
  (∀ r, (cl_left (look r).2 ≤ cl_left r)%nat) → (cl_left r < fuel)%nat →
  returns r (poll fuel look late r).
Proof.
  intros Hlook. revert r. induction fuel as [|fuel IH]; intros r Hf; [lia|]. cbn [poll].
  pose proof (Hlook r) as Hl. destruct (look r) as [[a|] r1]; cbn [fst snd] in *.
  { by apply returns_some. }
  pose proof (cl_checked r1) as Hc. destruct (rl_expired r1) as [[] r2] eqn:He; cbn [fst snd] in *.
  { apply returns_some. lia. }
  apply cl_expired in He. eapply returns_later; [|apply IH]; lia.
Qed.

Lemma wait_for_leader_returns fuel id r :
  (cl_left r < fuel)%nat → returns r (wait_for_leader fuel id r).
Proof. apply poll_returns. intros r0. unfold leader_is. by call (cl_leader r0) as leader r1. Qed.

Lemma observed_applied_left r : (cl_left (observed_applied_index r).2 ≤ cl_left r)%nat.
Proof.
  unfold observed_applied_index. call (cl_observe r) as o1 r1. call (cl_observe r1) as o2 r2. lia.
Qed.

Lemma wait_until_applied_returns fuel fatal late r :
  (cl_left r < fuel)%nat → returns r (wait_until_applied fuel fatal late r).
Proof.
  intros Hf. unfold wait_until_applied. call (cl_committed r) as committed r0.
  destruct (map_err fatal _) as [[c|]|]; [|by apply returns_some..].
  eapply returns_later; [done|]. apply poll_returns; [|lia]. intros r1. unfold applied_reaches.
  by call (observed_applied_left r1) as applied r2.
Qed.

Lemma ensure_local_leader_returns fuel id r :
  (cl_left r < fuel)%nat → returns r (ensure_local_leader id fuel r).
Proof.
  intros Hf. unfold ensure_local_leader.
  destruct (wait_for_leader_returns fuel id r Hf) as ([] & r1 & -> & H1); cbn [mbind option_bind].
  { by apply returns_some. }
  call (cl_elect r1) as triggered r0. destruct (map_err _ _); [|apply returns_some; lia].
  destruct (wait_for_leader_returns fuel id r0) as ([] & r2 & -> & H2); [lia| |];
    apply returns_some; lia.
Qed.

Lemma add_learners_left id ids r : (cl_left (add_learners id ids r).2 ≤ cl_left r)%nat.
Proof.
  revert r. induction ids as [|i ids IH]; intros r; [done|]. cbn [add_learners].
  destruct (i =? id); [by apply IH|]. unfold current_members. call (cl_metrics r) as metrics r0.
  case_bool_decide; [by etrans; [apply IH|]|]. call (cl_add_learner i r0) as added r1.
  destruct (map_err _ _); [etrans; [apply IH|]|]; simpl; lia.
Qed.

Lemma converged fuel r r1 m :
  re_metrics r = (m, r1) → returns r1 (converge_voters (S fuel) (rx_voters m) r1).
Proof.
  intros Hm. cbn [converge_voters]. unfold current_voters.
  pose proof (cl_voters r) as Hv. rewrite Hm in Hv. cbn [fst snd] in Hv. call (cl_metrics r1) as m' r2.
  rewrite bool_decide_true by done. by apply returns_some.
Qed.

(** One more round than deadline checks: the last one only reads the voters. *)
Lemma converge_voters_returns fuel desired r :
  (cl_left r + 1 < fuel)%nat → returns r (converge_voters fuel desired r).
Proof.
  revert r. induction fuel as [|fuel IH]; intros r Hf; [lia|]. cbn [converge_voters].
  unfold current_voters at 1. call (cl_metrics r) as m r0. case_bool_decide; [by apply returns_some|].
  call (cl_change desired r0) as changed r2.
  assert (∃ failed r3, (match changed with
    | Ok _ => (None, r2)
    | Err e => let '(expired, r) := rl_expired r2 in (if expired : bool then Some e else None, r)
    end) = (failed, r3) ∧ (cl_left r3 ≤ cl_left r2)%nat) as (failed & r3 & -> & H3).
  { destruct changed as [u|e]; [by eexists _, _|]. call (cl_checked r2) as late r4. by eexists _, _. }
  destruct failed as [e|]; [apply returns_some; lia|].
  pose proof (cl_checked r3) as Hc. destruct (rl_expired r3) as [[] r4] eqn:He; cbn [fst snd negb] in *.
  2: { apply cl_expired in He. eapply returns_later; [|apply IH]; lia. }
  unfold current_voters. call (cl_metrics r4) as m5 r5. case_bool_decide as Hd; [|apply returns_some; lia].
  destruct fuel as [|fuel]; [lia|]. rewrite <-Hd.
  eapply returns_later; [|by eapply converged]. lia.
Qed.

Lemma extend_membership_returns fuel id nodes r :
  (cl_left r + 1 < fuel)%nat → returns r (extend_membership id fuel nodes r).
Proof.
  intros Hf. unfold extend_membership, current_voters. call (cl_metrics r) as m r0.
  case_bool_decide; [by apply returns_some|].
  call (add_learners_left id (bmap_iter nodes).*1 r0) as added r1.
  destruct added; [|apply returns_some; lia].
  eapply returns_later; [|apply converge_voters_returns]; lia.
Qed.

Lemma initialize_local_left id nodes r :
  (cl_left (initialize_local id nodes r).2 ≤ cl_left r)%nat.
Proof.
  unfold initialize_local. destruct (nodes !! id); [|done]. by call (cl_initialize id r) as x r0.
Qed.

(** From a node that is initialized, or has just been. *)
Lemma bootstrap_tail_returns fuel id nodes (ready : result unit BrokerError) r :
  (cl_left r + 1 < fuel)%nat →
  returns r match ready with
            | Err e => Some (Err e, r)
            | Ok _ =>
                '(leads, r) ← ensure_local_leader id fuel r;
                match leads with
                | Err e => Some (Err e, r)
                | Ok _ => extend_membership id fuel nodes r
                end
            end.
Proof.
  intros Hf. destruct ready; [|by apply returns_some].
  destruct (ensure_local_leader_returns fuel id r) as ([[]|e] & r1 & -> & H1);
    [lia| |by apply returns_some].
  cbn [mbind option_bind]. eapply returns_later; [|apply extend_membership_returns]; lia.
Qed.

Lemma bootstrap_returns fuel id nodes r :
  (cl_left r + 1 < fuel)%nat → returns r (bootstrap id fuel nodes r).
Proof.
  intros Hf. unfold bootstrap. call (cl_is_initialized r) as initialized r0.
  destruct (map_err _ _) as [[]|]; [| |by apply returns_some].
  - unfold current_voters. call (cl_metrics r0) as m r1.
    case_bool_decide; [apply returns_some; lia|].
    eapply returns_later; [|apply (bootstrap_tail_returns fuel id nodes (Ok ()))]; lia.
  - call (initialize_local_left id nodes r0) as ready r1.
    eapply returns_later; [|apply bootstrap_tail_returns]; lia.
Qed.

Lemma running_open_returns fuel id config r :
  (cl_left r + 1 < fuel)%nat → ∃ res r', running_open id fuel config r = Some (res, r').
Proof.
  intros Hf. unfold running_open.
  assert (returns r (if cc_bootstrap config then bootstrap id fuel (cc_nodes config) r
                     else Some (Ok (), r))) as (ready & r1 & -> & H1).
  { destruct (cc_bootstrap config); [by apply bootstrap_returns|by apply returns_some]. }
  cbn [mbind option_bind]. destruct ready; [|eauto].
  destruct (wait_until_applied_returns fuel raft_fatal_error (BrokerError_new PersistenceError
    "cluster Raft committed log was not applied before the startup deadline") r1)
    as (caught_up & r2 & Hw & H2); [lia|].
  unfold wait_until_committed_is_applied. rewrite Hw. cbn [mbind option_bind].
  destruct caught_up; [|eauto]. destruct (re_current_leader r2) as [leader r3].
  destruct (if bool_decide _ then _ else _) as [res r4]. eauto.
Qed.
End termination.

Section one_node.
Context {R : Type} {O : OneNodeEngine R} {C : ClockLaws R}.

Lemma elect_local_returns fuel r :
  (cl_left r < fuel)%nat →
  ∃ res r', elect_local fuel r = Some (res, r') ∧ (res = Ok () → (cl_left r' ≤ cl_left r)%nat).
Proof.
  intros Hf. unfold elect_local.
  destruct (wait_for_leader_returns fuel ONE_NODE_ID r Hf) as ([] & r1 & -> & H1);
    cbn [mbind option_bind]; [by eexists _, _|].
  call (cl_elect r1) as triggered r0. destruct (map_err _ _); [|by eexists _, _].
  destruct (wait_for_leader_returns fuel ONE_NODE_ID r0) as ([] & r2 & -> & H2); [lia| |];
    cbn [mbind option_bind]; [eexists _, _; split; [done|lia]|].
  destruct (rl_shutdown r2). by eexists _, _.
Qed.

Lemma one_running_open_returns fuel r :
  (cl_left r < fuel)%nat → ∃ res r', one_running_open fuel r = Some (res, r').
Proof.
  intros Hf. unfold one_running_open, one_initialize. call (cl_is_initialized r) as done r0.
  assert (∃ res r1, (let? initialized := map_err one_fatal_error done else r0 in
    if initialized : bool then (Ok (), r0) else
    let '(d, r) := rl_initialize ONE_NODE_ID r0 in
    (map_err (one_engine_error "initialize") d, r)) = (res, r1) ∧ (cl_left r1 ≤ cl_left r0)%nat)
    as (res & r1 & -> & H1).
  { destruct (map_err _ _) as [[]|]; [by eexists _, _| |by eexists _, _].
    call (cl_initialize ONE_NODE_ID r0) as d r2. by eexists _, _. }
  destruct res; [|eauto].
  destruct (elect_local_returns fuel r1) as ([[]|e] & r2 & -> & H2); [lia| |eauto].
  specialize (H2 eq_refl). cbn [mbind option_bind].
  destruct (wait_until_applied_returns fuel one_fatal_error (BrokerError_new PersistenceError
    "one-node Raft committed log was not applied before the startup deadline") r2)
    as ([] & r3 & -> & H3); [lia| |eauto].
  cbn [mbind option_bind]. destruct (one_sync_broker_term r3) as [[] r4]; eauto.
Qed.
End one_node.

(** ** An engine *)

(** A replica that applies each proposal it is given, with its vote, its leader,
    its members and the checks left on its clock. *)
Record LocalEngine := MkLocal {
  le_machine : SessionMachine;
  le_index : N;
  le_term : N;
  le_leader : option N;
  le_voters : gset N;
  le_learners : gset N;
  le_clock : nat;
}.

Definition local_metrics (r : LocalEngine) : RaftMetrics := {|
  rx_current_term := le_term r; rx_last_log_index := Some (le_index r); rx_snapshot := None;
  rx_purged := None; rx_current_leader := le_leader r; rx_voters := le_voters r;
  rx_learners := le_learners r |}.

Definition local_write (p : ReplicatedBrokerProposalV1) (r : LocalEngine) :
    result ReplicatedBrokerResponseV1 string * LocalEngine :=
  let '(answer, m) := apply_proposal p (le_machine r) in
  (answer, MkLocal m (le_index r + 1) (le_term r) (le_leader r) (le_voters r) (le_learners r)
             (le_clock r)).

Definition local_members (voters learners : gset N) (r : LocalEngine) : LocalEngine :=
  MkLocal (le_machine r) (le_index r) (le_term r) (le_leader r) voters learners (le_clock r).

#[export] Instance local_engine : RaftEngine LocalEngine := {|
  re_current_leader r := (le_leader r, r);
  re_vote_term r := (Ok (le_term r), r);
  re_committed r := (Ok (Some (le_index r)), r);
  re_metrics r := (local_metrics r, r);
  re_client_write := local_write;
  re_client_write_ff p r :=
    let '(answer, r) := local_write p r in
    (Ok match answer with
        | Ok response => if word_response response then WriteAnswered (Ok response)
                         else WriteDropped "response out of range"
        | Err e => WriteAnswered (Err e)
        end, r);
  re_linearizable r := (Confirmed, r);
  re_observe r := (Observation_new (m_state (sm_broker (le_machine r))) (Some (le_index r)), r);
  re_deadline_passed r := (false, r);
  re_rpc_server _ := Some {| rs_local_addr := "127.0.0.1:7001"; rs_queued := 0; rs_active := 0 |};
  debug_result _ := "result";
  debug_response _ := "response";
|}.

#[export] Instance local_lifecycle : RaftLifecycle LocalEngine := {|
  rl_expired r := match le_clock r with
    | O => (true, r)
    | S n => (false, MkLocal (le_machine r) (le_index r) (le_term r) (le_leader r) (le_voters r)
                       (le_learners r) n)
    end;
  rl_is_initialized r := (Ok (negb (bool_decide (le_voters r = ∅))), r);
  rl_initialize id r := (Ok (), local_members {[id]} ∅ r);
  rl_elect r := (Ok (), r);
  rl_add_learner id r := (Ok (), local_members (le_voters r) ({[id]} ∪ le_learners r) r);
  rl_change_membership ids r := (Ok (), local_members ids (le_learners r ∖ ids) r);
  rl_stop_server r := (Some (Ok ()), r);
  rl_shutdown r := (Ok (), r);
|}.

#[export] Program Instance local_laws : EngineLaws LocalEngine := {| el_machine := le_machine |}.
Next Obligation. done. Qed.
Next Obligation. done. Qed.
Next Obligation. intros r. split; [done|]. by exists (le_machine r). Qed.
Next Obligation.
  intros p r response. cbn. unfold local_write. exists (le_machine r). split; [done|].
  by destruct (apply_proposal p (le_machine r)) as [answer m].
Qed.

#[export] Program Instance local_clock : ClockLaws LocalEngine := {| cl_left := le_clock |}.
Next Obligation. intros r r'. cbn. destruct (le_clock r) eqn:E; intros [= <-]. simpl. lia. Qed.
Next Obligation. intros r. cbn. destruct (le_clock r) eqn:E; simpl; lia. Qed.
Solve Obligations with done.
