(* ===== verification/ClientServer.v ===== *)
(** * A cluster behind the network

    The promise [SessionNetwork] that clients rely on, kept by the server of a
    cluster node: a request frame goes through the codec, the state owner, the
    service and the controller into the log, and the answer comes back on the
    same connection, unless the network, the queue or the engine loses one of the
    two.  Of OpenRaft this needs [EngineLog]: whatever a call returns, the
    machine moves by proposals only, and a write that is answered was applied. *)

From S2P Require Import Prelude Values Task Group Messages Machine Recovery Display Wire Replicated.
From S2P Require Import ReplicatedProps Words Sessions SessionsProps ApplyOnce Observation Service.
From S2P Require Import Dispatch DispatchProps Json WireSchema WireV1 WireV1Props WireResponseProps.
From S2P Require Import WireVersions WireVersionsProps Runtime StateOwner Server SessionStore Client.
From S2P Require Import Durable ClusterNode ClusterNodeProps ClusterStartupProps.

(** ** The engine *)

Definition proposed_as (p : ReplicatedBrokerProposalV1) (r : ReplicatedBrokerResponseV1)
    (m m' : SessionMachine) : Prop :=
  ∃ ps qs, (apply_proposal p (after ps m)).1 = Ok r ∧ m' = after (ps ++ p :: qs)%list m.

Lemma proposed_between p r m0 m m' m1 :
  evolves m0 m → proposed_as p r m m' → evolves m' m1 → proposed_as p r m0 m1.
Proof.
  intros [ps0 ->] (ps & qs & Hr & ->) [qs1 ->]. exists (ps0 ++ ps)%list, (qs ++ qs1)%list. split.
  - by rewrite after_app.
  - rewrite <-!after_app. f_equal. by rewrite <-!app_assoc.
Qed.

Lemma proposed_evolves p r m m' : proposed_as p r m m' → evolves m m'.
Proof. intros (ps & qs & _ & ->). by eexists. Qed.

Class EngineLog (R : Type) `{E : RaftEngine R} := {
  lg_machine : R → SessionMachine;
  lg_leader r : evolves (lg_machine r) (lg_machine (re_current_leader r).2);
  lg_vote_term r : evolves (lg_machine r) (lg_machine (re_vote_term r).2);
  lg_observe r : evolves (lg_machine r) (lg_machine (re_observe r).2);
  lg_write p r : evolves (lg_machine r) (lg_machine (re_client_write p r).2);
  lg_write_ff p r : evolves (lg_machine r) (lg_machine (re_client_write_ff p r).2);
  (** a response that is delivered was given to the proposal, and its numbers
      have the width of their fields *)
  lg_answered p r response r' :
    re_client_write_ff p r = (Ok (WriteAnswered (Ok response)), r') →
    word_response response = true ∧ proposed_as p response (lg_machine r) (lg_machine r');
}.
Arguments lg_machine {R E _} _.

#[export] Program Instance local_log : EngineLog LocalEngine := {| lg_machine := le_machine |}.
Next Obligation. intros r. apply evolves_refl. Qed.
Next Obligation. intros r. apply evolves_refl. Qed.
Next Obligation. intros r. apply evolves_refl. Qed.
Next Obligation.
  intros p r. exists [p]. rewrite after_cons. cbn. unfold local_write. by destruct (apply_proposal p (le_machine r)).
Qed.
Next Obligation.
  intros p r. exists [p]. rewrite after_cons. cbn. unfold local_write. by destruct (apply_proposal p (le_machine r)).
Qed.
Next Obligation.
  intros p r response r'. cbn. unfold local_write.
  destruct (apply_proposal p (le_machine r)) as [[answer|e] m] eqn:Ha; [|done].
  destruct (word_response answer) eqn:Hw; [|done]. intros [= <- <-]. split; [done|].
  exists [], []. cbn [app]. rewrite after_cons. unfold after. cbn. by rewrite Ha.
Qed.

(** ** The controller and the adapter *)

Section node.
Context {R : Type} {E : RaftEngine R} {Lg : EngineLog R}.

Lemma sync_evolves r : evolves (lg_machine r) (lg_machine (sync_broker_term_to_raft r).2).
Proof.
  unfold sync_broker_term_to_raft, current_raft_term, observed_term.
  pose proof (lg_vote_term r) as H1. destruct (re_vote_term r) as [[t|] r1]; [|done].
  cbn [map_err snd] in *. pose proof (lg_observe r1) as H2. destruct (re_observe r1) as [o r2].
  cbn [snd] in *. pose proof (evolves_trans _ _ _ H1 H2) as H12.
  destruct (map_err _ (validated_term o)); [|done]. do 2 (case_match; [done|]).
  destruct (map_err _ (Term_new t)); [|done]. destruct (map_err _ (command_to_replicated _)); [|done].
  match goal with |- context [re_client_write ?p r2] => pose proof (lg_write p r2) as H3;
    destruct (re_client_write p r2) as [[resp|] r3] end; cbn [map_err snd] in *;
    pose proof (evolves_trans _ _ _ H12 H3); [|done].
  destruct (map_err _ (into_application_result resp)) as [[[]|]|]; done.
Qed.

Lemma ready_evolves node_id r : evolves (lg_machine r) (lg_machine (ready_to_write node_id r).2).
Proof.
  unfold ready_to_write. pose proof (lg_leader r) as H1. destruct (re_current_leader r) as [leader r1].
  cbn [snd] in *. case_bool_decide; [|done]. exact (evolves_trans _ _ _ H1 (sync_evolves r1)).
Qed.

Lemma propose_evolves node_id command r :
  evolves (lg_machine r) (lg_machine (running_propose node_id command r).2).
Proof.
  unfold running_propose. pose proof (ready_evolves node_id r) as H1.
  destruct (ready_to_write node_id r) as [[u|] r1]; [|done]. cbn [snd] in *.
  destruct (map_err _ (command_to_replicated command)) as [c|]; [|done].
  pose proof (lg_write (legacy c) r1) as H2. pose proof (evolves_trans _ _ _ H1 H2) as H12.
  destruct (re_client_write _ r1) as [[resp|] r2]; cbn [map_err snd] in *; [|done].
  by destruct (map_err _ (into_application_result resp)).
Qed.

Lemma acquire_evolves node_id s e o r :
  evolves (lg_machine r) (lg_machine (running_acquire node_id s e o r).2).
Proof.
  unfold running_acquire. pose proof (ready_evolves node_id r) as H1.
  destruct (ready_to_write node_id r) as [[u|] r1]; [|done]. cbn [snd] in *.
  match goal with |- context [re_client_write ?p r1] => pose proof (lg_write p r1) as H2 end.
  pose proof (evolves_trans _ _ _ H1 H2) as H12.
  by destruct (re_client_write _ r1) as [[resp|] r2].
Qed.

(** What an identified command comes to: an answer of the log, or an error of
    unknown outcome. *)
Definition identified_outcome (i : CommandIdentity) (command : BrokerCommand)
    (res : result BrokerMutationResult BrokerError) (m m' : SessionMachine) : Prop :=
  match res with
  | Err e => be_disposition e = DispUnknown
  | Ok _ => False
  end ∨
  ∃ c r, command_to_replicated command = Ok c ∧ word_response r = true ∧
    into_application_result r = Ok res ∧ proposed_as (identified i c) r m m'.

Lemma sync_unknown r e r' : sync_broker_term_to_raft r = (Err e, r') → be_disposition e = DispUnknown.
Proof.
  unfold sync_broker_term_to_raft, current_raft_term, observed_term, map_err.
  intros H. by repeat case_match; simplify_eq/=.
Qed.

Lemma ready_unknown node_id r e r' :
  ready_to_write node_id r = (Err e, r') → be_disposition e = DispUnknown.
Proof.
  unfold ready_to_write. destruct (re_current_leader r) as [leader r1]. case_bool_decide.
  - apply sync_unknown.
  - by intros [= <- _].
Qed.

Lemma propose_identified_outcome node_id i command r res r' :
  running_propose_identified node_id i command r = (res, r') →
  evolves (lg_machine r) (lg_machine r') ∧
  identified_outcome i command res (lg_machine r) (lg_machine r').
Proof.
  unfold running_propose_identified. pose proof (ready_evolves node_id r) as H1.
  destruct (ready_to_write node_id r) as [[u|e] r1] eqn:Hready; cbn [snd] in *.
  2: { intros [= <- <-]. split; [done|]. left. by eapply ready_unknown. }
  destruct (command_to_replicated command) as [c|e] eqn:Hc; cbn [map_err].
  2: { intros [= <- <-]. split; [done|]. by left. }
  pose proof (lg_write_ff (identified i c) r1) as H2.
  destruct (re_client_write_ff _ r1) as [receipt r2] eqn:Hff. cbn [snd] in *.
  pose proof (evolves_trans _ _ _ H1 H2) as H12.
  destruct receipt as [[|e|[response|e]]|e]; cbn [map_err];
    try (intros [= <- <-]; split; [done|]; by left).
  destruct (lg_answered _ _ _ _ Hff) as [Hw Hp].
  destruct (into_application_result response) as [outcome|e] eqn:Ho; cbn [map_err];
    intros [= <- <-]; (split; [done|]); [|by left].
  right. exists c, response. split_and!; [done..|].
  exact (proposed_between _ _ _ _ _ _ H1 Hp (evolves_refl _)).
Qed.

(** The machine behind an adapter, and behind the service on it. *)
Definition node_machine (a : ClusterRaftConsensusAdapter R) : SessionMachine :=
  lg_machine (controller_engine (cr_controller a)).

Lemma submit_evolves {T} (serve : R → result T BrokerError * R) a :
  (∀ r, evolves (lg_machine r) (lg_machine (serve r).2)) →
  evolves (node_machine a) (node_machine (submit serve a).2).
Proof.
  intros Hs. unfold submit, request, node_machine. destruct (cr_controller a) as [r|r|r] eqn:Hc.
  - specialize (Hs r). destruct (serve r) as [[t|e] r']; cbn in *; [done|]. by destruct (should_poison e).
  - apply evolves_refl.
  - cbn. rewrite Hc. apply evolves_refl.
Qed.

Lemma submit_outcome {T} (serve : R → result T BrokerError * R) a res a' :
  submit serve a = (res, a') →
  (∃ r r', cr_controller a = Running r ∧ serve r = (res, r') ∧ cr_controller a' = Running r') ∨
  (∃ e, res = Err e ∧ be_disposition e = DispUnknown ∧ node_machine a' = node_machine a).
Proof.
  unfold submit, request, node_machine. destruct (cr_controller a) as [r|r|r] eqn:Hc.
  - destruct (serve r) as [[t|e] r'] eqn:Hs; intros [= <- <-]; left; exists r, r'; [done|].
    by destruct (should_poison e).
  - intros [= <- <-]. right. by eexists.
  - intros [= <- <-]. right. eexists. split; [done|]. split; [done|]. cbn. by rewrite Hc.
Qed.

Lemma adapter_propose_evolves command a :
  evolves (node_machine a) (node_machine (ca_propose command a).2).
Proof.
  cbn [ca_propose cluster_consensus]. unfold cluster_propose. destruct (ensure_available a); [|done].
  destruct command; try (apply submit_evolves, propose_evolves). done.
Qed.

Lemma adapter_acquire_evolves s e o a :
  evolves (node_machine a) (node_machine (ca_acquire_command_session_owner s e o a).2).
Proof.
  cbn [ca_acquire_command_session_owner cluster_consensus]. unfold cluster_acquire.
  destruct (ensure_available a); [|done]. apply submit_evolves, acquire_evolves.
Qed.

Lemma adapter_identified_outcome i command a res a' :
  ca_propose_identified i command a = (res, a') →
  evolves (node_machine a) (node_machine a') ∧
  identified_outcome i command res (node_machine a) (node_machine a').
Proof.
  cbn [ca_propose_identified cluster_consensus]. unfold cluster_propose_identified, ensure_available.
  destruct (cr_fail_stopped a); [by intros [= <- <-]; split; [|left]|].
  assert (submit (running_propose_identified (cr_node_id a) i command) a = (res, a') →
    evolves (node_machine a) (node_machine a') ∧
    identified_outcome i command res (node_machine a) (node_machine a')) as Hs.
  { intros [(r & r' & Hr & Hs & Hr')|(e & -> & Hd & ->)]%submit_outcome; [|by split; [|left]].
    unfold node_machine. rewrite Hr, Hr'. by eapply propose_identified_outcome. }
  destruct command; try exact Hs. by intros [= <- <-]; split; [|left].
Qed.

(** ** The service and the dispatcher *)

Abbreviation Service := (BrokerApplicationService (ClusterRaftConsensusAdapter R)).

Definition service_machine (s : Service) : SessionMachine := node_machine (svc_consensus s).

(** What an identified request comes to. *)
Definition request_outcome (i : CommandIdentity) (request : BrokerRequest)
    (res : result DispatchResult BrokerError) (m m' : SessionMachine) : Prop :=
  match res with
  | Err e => be_disposition e = DispUnknown
  | Ok _ => False
  end ∨
  ∃ c r, commanded request c ∧ word_response r = true ∧ proposed_as (identified i c) r m m' ∧
    match res with
    | Ok d => answers_operation (request_operation request) (success_of_dispatch d) ∧
        ∃ x, into_application_result r = Ok (Ok x) ∧ dispatched x = Some d
    | Err e => into_application_result r = Ok (Err e)
    end.

Lemma identified_use_case {A} (wrap : A → DispatchResult) (expect : _ → result A BrokerError)
    request t i command (s s' : Service) res :
  (∀ x, match expect x with
        | Ok a => dispatched x = Some (wrap a)
        | Err e => be_disposition e = DispUnknown
        end) →
  (∀ a, answers_operation (request_operation request) (success_of_dispatch (wrap a))) →
  request_command (svc_capacity s) request t = Ok (Some command) →
  map_result wrap (let! r, s := svc_propose_identified i command s in (expect r, s)) = (res, s') →
  evolves (service_machine s) (service_machine s') ∧
  request_outcome i request res (service_machine s) (service_machine s').
Proof.
  intros Hexp Hop Hcmd. unfold map_result, svc_propose_identified, with_consensus, service_machine.
  destruct (ca_propose_identified i command (svc_consensus s)) as [r a'] eqn:Hp.
  apply adapter_identified_outcome in Hp as [Hev Hout].
  assert (∀ c, command_to_replicated command = Ok c → commanded request c) as Hco.
  { intros c Hc. by exists (svc_capacity s), t, command. }
  destruct r as [x|e]; intros [= <- <-]; cbn [svc_consensus]; (split; [done|]).
  - destruct Hout as [[]|(c & r & Hc & Hw & Hr & Hp)]. specialize (Hexp x).
    destruct (expect x) as [a|e]; cbn [map_ok fst]; [|by left]. right. exists c, r. eauto 10.
  - destruct Hout as [Hd|(c & r & Hc & Hw & Hr & Hp)]; [by left|]. right. exists c, r. eauto 10.
Qed.

Lemma dispatch_identified_outcome i request t (s s' : Service) res :
  dispatch_identified i request t s = (res, s') →
  evolves (service_machine s) (service_machine s') ∧
  request_outcome i request res (service_machine s) (service_machine s').
Proof.
  destruct request as [r|r|r|r|r|r|r|r|r|r]; cbn [dispatch_identified];
    try (apply (identified_use_case _ _ _ t); [by intros []|done|done]).
  - intros [= <- <-]. split; [done|]. by left.
  - unfold dispatch_identified_join, into_normalized.
    destruct (Capabilities_new (qj_capabilities r)) as [caps|e] eqn:Hcaps; cbn [map_err].
    + apply (identified_use_case _ _ _ t); [by intros []|done|]. cbn [request_command].
      by rewrite Hcaps.
    + intros [= <- <-]. split; [done|]. by left.
Qed.

Lemma use_case_evolves {A} (wrap : A → DispatchResult) (expect : _ → result A BrokerError) command
    (s : Service) :
  evolves (service_machine s) (service_machine
    (map_result wrap (let! r, s := with_consensus (ca_propose command) s in (expect r, s))).2).
Proof.
  unfold map_result, with_consensus, service_machine.
  pose proof (adapter_propose_evolves command (svc_consensus s)) as H.
  by destruct (ca_propose command (svc_consensus s)) as [[x|e] a'].
Qed.

Lemma dispatch_wire_evolves request t (s : Service) :
  evolves (service_machine s) (service_machine (dispatch_wire_request request t s).2).
Proof.
  assert (∀ i r, evolves (service_machine s) (service_machine (dispatch_identified i r t s).2)) as Hid.
  { intros i r. destruct (dispatch_identified i r t s) as [res s'] eqn:Hd.
    by apply dispatch_identified_outcome in Hd as [? _]. }
  destruct request as [r|r|[r|r]]; cbn [dispatch_wire_request]; try apply Hid.
  - destruct r; cbn [dispatch]; try (apply use_case_evolves); [apply evolves_refl|].
    destruct (map_err _ (into_normalized _)); [apply use_case_evolves|apply evolves_refl].
  - unfold dispatch_owner_acquisition, map_result, svc_acquire_command_session_owner, with_consensus,
      service_machine. pose proof (adapter_acquire_evolves (oa_session_id r)
      (oa_expected_owner_epoch r) (oa_owner_instance_id r) (svc_consensus s)) as H.
    by destruct (ca_acquire_command_session_owner _ _ _ _).
Qed.
End node.

(** ** Answers in 64 bits *)

Lemma word_outcome r x d :
  word_response r = true → into_application_result r = Ok (Ok x) → dispatched x = Some d →
  word_payload (success_of_dispatch d).
Proof.
  destruct r as [| |r|]; [done..| |done]. cbn [word_response into_application_result].
  assert (∀ md md', metadata_from_replicated md = Ok md' → word_metadata md = true →
    word (md_term md') ∧ word (md_revision md')) as Hmd.
  { intros [t v] md'. unfold metadata_from_replicated, word_metadata. cbn.
    destruct (Term_new t) as [t'|] eqn:Ht; [|done]. apply Term_new_ok in Ht as [-> _].
    intros [= <-] [?%N.leb_le ?%N.leb_le]%andb_true_iff. done. }
  assert (∀ o, wordb_opt o = true → word_opt o) as Hopt.
  { intros [n|]; [|done]. by intros ?%N.leb_le. }
  intros Hw Hr Hd. destruct (result_from_replicated r) as [x'|] eqn:Hx; [|done]. injection Hr as ->.
  destruct r; cbn [result_from_replicated convert_coordination_result word_result] in *;
    repeat match goal with
    | H : _ && _ = true |- _ => apply andb_true_iff in H as [? ?]
    | H : wordb _ = true |- _ => apply N.leb_le in H
    | H : wordb_opt _ = true |- _ => apply Hopt in H
    | H : context [metadata_from_replicated ?md], W : word_metadata ?md = true |- _ =>
        let E := fresh "E" in destruct (metadata_from_replicated md) as [?|] eqn:E; [|try done];
        [apply Hmd in E as [? ?]; [|done]]
    end.
  all: repeat case_match; simplify_eq/=; try done.
  - unfold count_to_usize in *. case_match; by simplify_eq.
  - edestruct Hmd; eauto 10.
Qed.

(** ** Delivery *)

(** The bytes of a reply, cut into the buffers of the reader; what is not cut off
    is lost. *)
Fixpoint cut (sizes : list nat) (b : bytes) : list bytes :=
  match sizes with
  | [] => []
  | n :: sizes => take n b :: cut sizes (drop n b)
  end.

Lemma cut_nothing sizes ending : quiet (reader_of (cut sizes []) ending).
Proof.
  unfold reader_of, quiet. apply Forall_app. split; [|by destruct ending; repeat constructor].
  induction sizes as [|n sizes IH]; cbn [cut map]; [constructor|].
  rewrite take_nil, drop_nil. by constructor.
Qed.

Lemma read_quiet max reader frame r rest :
  quiet reader → read_bounded_frame max reader frame = (r, rest) → is_ok r = false.
Proof.
  destruct 1 as [|x reader Hx]; [by intros [= <- _]|]. destruct x as [[|]|]; try done; by intros [= <- _].
Qed.

(** Of one line, in whatever buffers, a reader gets the line or an error. *)
Lemma read_cut_line max sizes ending b1 b2 line rest :
  is_line (b1 ++ b2)%list → newline ∉ b1 →
  read_bounded_frame max (reader_of (cut sizes b2) ending) b1 = (Ok line, rest) →
  line = (b1 ++ b2)%list ∧ quiet rest.
Proof.
  revert b1 b2. induction sizes as [|n sizes IH]; intros b1 b2 Hline Hb1; [by destruct ending|].
  unfold reader_of. cbn [cut map app]. fold (reader_of (cut sizes (drop n b2)) ending).
  destruct (take n b2) as [|c chunk] eqn:Hchunk; [done|].
  cbn [read_bounded_frame]. rewrite <-Hchunk. clear c chunk Hchunk.
  destruct (newline_position (take n b2)) as [p|] eqn:Hp.
  - case_match; [done|]. intros [= <- <-].
    destruct Hline as (b & Hb & Hn).
    assert (newline_position (b1 ++ b2)%list = Some (length b)) as Hpos.
    { rewrite Hb, newline_position_app, newline_position_none by done. cbn. by rewrite Nat.add_0_r. }
    rewrite <-(take_drop n b2), newline_position_app, newline_position_none in Hpos by done.
    rewrite newline_position_app, Hp in Hpos. cbn in Hpos. injection Hpos as Hpos.
    pose proof (newline_position_lt _ _ Hp) as Hlt.
    apply (f_equal length) in Hb. rewrite !length_app in Hb. cbn in Hb.
    pose proof (f_equal length (take_drop n b2)) as Hlen. rewrite length_app in Hlen.
    assert (length (drop n b2) = 0%nat) as Hdrop by lia. apply length_zero_iff_nil in Hdrop.
    rewrite take_ge by lia. rewrite <-(take_drop n b2) at 2. rewrite Hdrop, app_nil_r.
    split; [done|]. unfold consume. rewrite drop_ge by lia. apply cut_nothing.
  - case_match; [done|]. intros Hr. rewrite firstn_all in Hr.
    apply IH in Hr as [-> Hq].
    + split; [|done]. by rewrite <-app_assoc, take_drop.
    + by rewrite <-app_assoc, take_drop.
    + intros [?|Hin]%elem_of_app; [done|]. clear -Hp Hin.
      induction (take n b2) as [|c b IH]; [by apply elem_of_nil in Hin|]. cbn [newline_position] in Hp.
      destruct (Ascii.eqb_spec c newline); [done|]. destruct (newline_position b); [done|].
      apply elem_of_cons in Hin as [Heq|Hin]; [congruence|auto].
Qed.

(** ** The network *)

(** What the state owner does with the request: serve it, refuse it because its
    queue is full, or serve it and lose the reply. *)
Inductive OwnerFate := OwnerServes | OwnerSaturated | OwnerDrops.

(** One exchange: the requests of other connections that are served first,
    whether the request arrives, what the owner and the clock do, how the reply
    is cut up and what the reads end with, and whether the client's own write
    reports an error. *)
Record Exchange := {
  ex_before : list (BrokerWireRequest * TimestampMs);
  ex_arrives : bool;
  ex_owner : OwnerFate;
  ex_clock : option N;
  ex_sizes : list nat;
  ex_ending : option string;
  ex_write_error : option string;
}.

Record ClusterWorld (R : Type) := MkWorld {
  cw_service : BrokerApplicationService (ClusterRaftConsensusAdapter R);
  cw_connects : list (result unit string);
  cw_exchanges : list Exchange;
}.
Arguments MkWorld {R} _ _ _.
Arguments cw_service {R} _.
Arguments cw_connects {R} _.
Arguments cw_exchanges {R} _.

Section world.
Context {J : SerdeJson} {R : Type} {E : RaftEngine R} (max : N).

Abbreviation Service := (BrokerApplicationService (ClusterRaftConsensusAdapter R)).

Definition exchange_env (x : Exchange) : ConnectionEnv (Service * bytes) := {|
  ce_dispatch request t w :=
    match ex_owner x with
    | OwnerSaturated => (Err StateOwnerSaturated, w)
    | OwnerServes =>
        let '(r, s) := dispatch_wire_request request t w.1 in
        (Ok (respond (wire_request_id request) r), (s, w.2))
    | OwnerDrops => (Err StateOwnerReplyDropped, ((dispatch_wire_request request t w.1).2, w.2))
    end;
  ce_clock w := (system_clock_ms (ex_clock x), w);
  ce_write frame w := (Ok (), (w.1, w.2 ++ frame)%list);
|}.

Definition serve_others (jobs : list (BrokerWireRequest * TimestampMs)) (s : Service) : Service :=
  foldl (λ s job, (dispatch_wire_request job.1 job.2 s).2) s jobs.

(** The service after an exchange and the bytes the server writes. *)
Definition serve_exchange (x : Exchange) (frame : bytes) (s : Service) : Service * bytes :=
  let s := serve_others (ex_before x) s in
  if ex_arrives x then (handle_frame (exchange_env x) max frame (s, [])).2 else (s, []).

Definition cluster_network : Network (ClusterWorld R) := {|
  nw_connect _ w :=
    (default (Err "connection refused") (head (cw_connects w)),
     MkWorld (cw_service w) (tail (cw_connects w)) (cw_exchanges w));
  nw_send frame w :=
    match cw_exchanges w with
    | [] => (Err "connection reset", w)
    | x :: xs =>
        let '(s, reply) := serve_exchange x frame (cw_service w) in
        (match ex_write_error x with
         | Some e => Err e
         | None => Ok (reader_of (cut (ex_sizes x) reply) (ex_ending x))
         end, MkWorld s (cw_connects w) xs)
    end;
|}.

Context {Lg : EngineLog R}.

Lemma serve_others_evolves jobs (s : Service) :
  evolves (service_machine s) (service_machine (serve_others jobs s)).
Proof.
  revert s. induction jobs as [|[r t] jobs IH]; intros s; [apply evolves_refl|].
  exact (evolves_trans _ _ _ (dispatch_wire_evolves r t s) (IH _)).
Qed.

Lemma exchange_answer_evolves x request w :
  evolves (service_machine w.1) (service_machine (answer (exchange_env x) request w).2.1).
Proof.
  unfold answer. cbn [ce_clock ce_dispatch exchange_env].
  destruct (system_clock_ms _) as [t|]; [|apply evolves_refl].
  pose proof (dispatch_wire_evolves request t w.1) as Hev.
  destruct (ex_owner x); [|apply evolves_refl|]; by destruct (dispatch_wire_request _ _ _).
Qed.

Lemma exchange_evolves x frame (s : Service) :
  evolves (service_machine s) (service_machine (serve_exchange x frame s).1).
Proof.
  unfold serve_exchange. pose proof (serve_others_evolves (ex_before x) s) as Hb.
  destruct (ex_arrives x); [|done]. unfold handle_frame.
  destruct (decode_wire_request_with_limit _ _) as [request|e].
  - pose proof (exchange_answer_evolves x request (serve_others (ex_before x) s, [])) as Ha.
    destruct (answer _ _ _) as [response [s' out]]. cbn [fst snd] in *.
    pose proof (evolves_trans _ _ _ Hb Ha) as H.
    by destruct (encode_for_version _ _ _); cbn.
  - by destruct (encode_rejection _ _ _); cbn.
Qed.

(** What the server answers to an owner-aware mutation: an error of unknown
    outcome or a rejection, or the answer of the log. *)
Lemma exchange_answer x i request w response w' :
  answer (exchange_env x) (WireV3 (Mutation (MkOwnerIdentified i request))) w = (response, w') →
  w'.2 = w.2 ∧ response_request_id response = request_request_id request ∧
  match response with
  | ResponseError _ e => ep_disposition e = DispCommitted →
      ∃ c r, commanded request c ∧ proposed_as (identified i c) r (service_machine w.1)
        (service_machine w'.1) ∧ into_application_result r = Ok (Err {| be_code := ep_code e;
          be_message := ep_message e; be_disposition := ep_disposition e |})
  | ResponseSuccess _ p =>
      answers_operation (request_operation request) p ∧ word_payload p ∧
      ∃ c r x d, commanded request c ∧ proposed_as (identified i c) r (service_machine w.1)
        (service_machine w'.1) ∧ into_application_result r = Ok (Ok x) ∧
        dispatched x = Some d ∧ p = success_of_dispatch d
  end.
Proof.
  unfold answer. cbn [ce_clock ce_dispatch exchange_env].
  destruct (system_clock_ms _) as [t|]; [|by intros [= <- <-]].
  destruct (ex_owner x); [|by intros [= <- <-]|by intros [= <- <-]].
  cbn [dispatch_wire_request om_identity om_request].
  destruct (dispatch_identified i request t w.1) as [r s] eqn:Hd.
  apply dispatch_identified_outcome in Hd as [_ Hout]. intros [= <- <-]. cbn [snd fst].
  split; [done|]. split; [by destruct r|].
  destruct r as [d|e]; cbn [respond response_success response_error] in *.
  - destruct Hout as [[]|(c & r & Hc & Hw & Hp & Hop & x0 & Hx & Hdi)].
    split; [done|]. split; [by eapply word_outcome|]. by exists c, r, x0, d.
  - cbn. intros Hcom. destruct Hout as [Hd|(c & r & Hc & Hw & Hp & Hx)]; [congruence|].
    exists c, r. split_and!; [done..|]. rewrite Hx. by destruct e.
Qed.

Context {L : SerdeJsonLaws J}.

(** The frame of an owner-aware mutation is answered with at most one line, the
    answer of the log. *)
Lemma exchange_reply x i request f (s s' : Service) reply :
  valid_owned i request →
  encode_owner_mutation_request_with_limit (MkOwnerIdentified i request) max = Ok f →
  serve_exchange x f s = (s', reply) →
  reply = [] ∨
  is_line reply ∧ ∃ response, encode_response_v3_with_limit response max = Ok reply ∧
    response_request_id response = request_request_id request ∧
    answered i request response (service_machine s) (service_machine s').
Proof.
  intros Hv Hf. unfold serve_exchange. destruct (ex_arrives x); [|intros [= <- <-]; by left].
  pose proof (serve_others_evolves (ex_before x) s) as Hb.
  set (s0 := serve_others (ex_before x) s) in *.
  pose proof (wire_v3_mutation_reads_back (MkOwnerIdentified i request) max Hv) as Hdec.
  rewrite Hf in Hdec. destruct Hdec as [Hdec _]. unfold handle_frame. rewrite Hdec.
  destruct (answer _ _ (s0, [])) as [response w] eqn:Ha.
  apply exchange_answer in Ha as (Hout & Hid & Hres). cbn [fst snd] in *.
  unfold encode_for_version. cbn [wire_protocol_version].
  change (PROTOCOL_VERSION_V3 =? PROTOCOL_VERSION_V2) with false.
  change (PROTOCOL_VERSION_V3 =? PROTOCOL_VERSION_V3) with true. cbn iota.
  destruct (encode_response_v3_with_limit response max) as [encoded|] eqn:He; cbn [map_err].
  2: { cbn. destruct w. cbn in *. intros [= <- <-]. by left. }
  cbn [ce_write exchange_env fst snd]. intros [= <- <-]. right. rewrite Hout. cbn [app].
  destruct (response_v3_trusted (request_operation request) response max encoded)
    as [Hline _]; [apply Hv|by destruct response; naive_solver|done|].
  split; [done|]. exists response. split_and!; [done..|].
  destruct response as [id p|id e]; cbn [answered].
  - destruct Hres as (Hop & Hw & c & r & x0 & d & Hc & Hp & Hx & Hd & ->). split_and!; [done..|].
    destruct (proposed_between _ _ _ _ _ _ Hb Hp (evolves_refl _)) as (ps & qs & Hr & Hm).
    exists c, r, ps, qs. split_and!; [done| |done..]. by exists x0, d.
  - intros Hcom. destruct (Hres Hcom) as (c & r & Hc & Hp & Hx).
    destruct (proposed_between _ _ _ _ _ _ Hb Hp (evolves_refl _)) as (ps & qs & Hr & Hm).
    exists c, r, ps, qs. by split_and!.
Qed.

#[export] Program Instance cluster_sessions : @SessionNetwork J (ClusterWorld R) cluster_network := {|
  sn_machine w := service_machine (cw_service w);
  sn_limit := max;
|}.
Next Obligation. intros a w. apply evolves_refl. Qed.
Next Obligation.
  intros f w. cbn. destruct (cw_exchanges w) as [|x xs]; [apply evolves_refl|].
  pose proof (exchange_evolves x f (cw_service w)) as He. by destruct (serve_exchange _ _ _).
Qed.
Next Obligation.
  intros i request f w reads w' line rest Hv Hf. cbn.
  destruct (cw_exchanges w) as [|x xs]; [done|].
  destruct (serve_exchange x f (cw_service w)) as [s' reply] eqn:He.
  destruct (ex_write_error x); [done|]. intros [= <- <-] Hread.
  apply (exchange_reply x i request) in He as [->|[Hline Hans]]; [| |done..].
  - pose proof (read_quiet _ _ _ _ _ (cut_nothing _ _) Hread). done.
  - apply (read_cut_line max (ex_sizes x) (ex_ending x) []) in Hread as [-> Hq];
      [split; [done|by right]|done|apply not_elem_of_nil].
Qed.
End world.
