(* ===== verification/Operations.v ===== *)
(** * The operations server ([agent-broker-runtime/src/operations.rs])

    The separate read-only listener: its configuration, the readiness snapshot of
    a cluster node, and one request and one response per connection.  What the
    observers read (loads, readiness, the state owner's directory) is an argument. *)

From S2P Require Import Prelude Values Task Group Messages Machine Recovery Display Wire Service.
From S2P Require Import Json WireSchema Runtime StateOwner Server Observation ClusterNode.

Definition OPERATIONS_SCHEMA_VERSION : N := 1.
Definition OPERATIONS_DEFAULT_MAX_FRAME_BYTES : N := 4 * 1024.
Definition OPERATIONS_MAX_FRAME_BYTES : N := 16 * 1024.
Definition OPERATIONS_MAX_CONNECTIONS : N := 256.
Definition OPERATIONS_MAX_CONNECTION_IO_TIMEOUT : N := 30 * 1000000000.
Definition MAX_REPORTED_MEMBERS : nat := 64.
Definition DEFAULT_GROUP_PAGE_LIMIT : N := 8.
Definition MAX_GROUP_PAGE_LIMIT : N := 8.

(** ** Configuration *)

Inductive OperationsBindPolicy := OpsLocalOnly | OpsContainerBridge.

(** Of the address, whether it is a loopback one; the timeout in nanoseconds. *)
Record OperationsServerConfig := {
  oo_loopback : bool;
  oo_max_frame_bytes : N;
  oo_max_connections : N;
  oo_connection_io_timeout : N;
}.

Definition OperationsServerConfig_default : OperationsServerConfig := {|
  oo_loopback := true; oo_max_frame_bytes := OPERATIONS_DEFAULT_MAX_FRAME_BYTES;
  oo_max_connections := 32; oo_connection_io_timeout := 2 * 1000000000 |}.

Definition validate_operations (policy : OperationsBindPolicy) (c : OperationsServerConfig) :
    result OperationsServerConfig RuntimeError :=
  if match policy with OpsLocalOnly => negb (oo_loopback c) | OpsContainerBridge => false end
  then Err (InvalidConfiguration "operations server address must be loopback-only")
  else if negb ((256 <=? oo_max_frame_bytes c) && (oo_max_frame_bytes c <=? OPERATIONS_MAX_FRAME_BYTES))
  then Err (InvalidConfiguration "operations max_frame_bytes must be between 256 and 16384")
  else if negb ((1 <=? oo_max_connections c) && (oo_max_connections c <=? OPERATIONS_MAX_CONNECTIONS))
  then Err (InvalidConfiguration "operations max_connections must be between 1 and 256")
  else if (oo_connection_io_timeout c =? 0) ||
          (OPERATIONS_MAX_CONNECTION_IO_TIMEOUT <? oo_connection_io_timeout c)
  then Err (InvalidConfiguration "operations connection_io_timeout must be between 1ns and 30s")
  else Ok c.

(** ** The snapshot *)

Inductive ClusterOperationsReason :=
  | ReasonReady
  | BrokerServerNotServing
  | ReasonStateOwnerSaturated
  | ReasonConsensus (status : ClusterRaftReadinessStatus).

Definition reason_as_str (r : ClusterOperationsReason) : string :=
  match r with
  | ReasonReady => "ready"
  | BrokerServerNotServing => "broker_server_not_serving"
  | ReasonStateOwnerSaturated => "state_owner_saturated"
  | ReasonConsensus status => readiness_as_str status
  end.

Record ClusterOperationsSnapshot := {
  os_live : bool;
  os_write_ready : bool;
  os_reason : ClusterOperationsReason;
  os_broker_server : BrokerServerLoad;
  os_state_owner : StateOwnerLoad;
  os_consensus : ClusterRaftReadiness;
  os_maintenance_authority : bool;
}.

Definition operations_snapshot (broker_server : BrokerServerLoad) (state_owner : StateOwnerLoad)
    (consensus : ClusterRaftReadiness) : ClusterOperationsSnapshot :=
  let state_owner_saturated := sl_capacity state_owner <=? sl_queued_jobs state_owner in
  let live := bl_serving broker_server in
  let reason :=
    if negb live then BrokerServerNotServing
    else if negb (is_write_ready consensus) then ReasonConsensus (rd_status consensus)
    else if state_owner_saturated then ReasonStateOwnerSaturated
    else ReasonReady in
  let write_ready := match reason with ReasonReady => true | _ => false end in
  let maintenance_authority := write_ready &&
    match rd_progress consensus with
    | Some p => bool_decide (cp_current_leader p = Some (cp_node_id p))
    | None => false
    end in
  {| os_live := live; os_write_ready := write_ready; os_reason := reason;
     os_broker_server := broker_server; os_state_owner := state_owner; os_consensus := consensus;
     os_maintenance_authority := maintenance_authority |}.

(** What an observer reads: the standalone one has no consensus to ask. *)
Inductive OperationsObserver :=
  | ObserveCluster (broker_server : BrokerServerLoad) (state_owner : StateOwnerLoad)
      (consensus : ClusterRaftReadiness)
  | ObserveStandalone (broker_server : BrokerServerLoad).

Definition liveness (o : OperationsObserver) : bool :=
  match o with ObserveCluster b _ _ | ObserveStandalone b => bl_serving b end.

(** ** Requests *)

Inductive OperationsRequest :=
  | OpsLiveness
  | OpsReadiness
  | OpsStatus
  | OpsDescribeGroup (group_id : ConsumerGroupId)
  | OpsListGroups (after_group_id : option ConsumerGroupId) (limit : N).

Definition parse_exact_status_request (object : list (string * Value)) (r : OperationsRequest) :
    result OperationsRequest string :=
  if negb (Nat.eqb (length object) 2) then Err "unexpected_fields" else Ok r.

Definition get_str (k : string) (object : list (string * Value)) : option string :=
  match obj_get k object with Some v => as_string v | None => None end.

Definition parse_describe_group_request (object : list (string * Value)) :
    result OperationsRequest string :=
  if negb (Nat.eqb (length object) 3) then Err "unexpected_fields" else
  let^ group_id := ok_or (get_str "group_id" object) "group_id_required" in
  let^ group_id := map_err (λ _, "invalid_group_id") (ConsumerGroupId_new group_id) in
  Ok (OpsDescribeGroup group_id).

Definition parse_list_groups_request (object : list (string * Value)) :
    result OperationsRequest string :=
  if negb (Nat.leb (length object) 4) then Err "unexpected_fields" else
  if existsb (λ kv, negb (existsb (String.eqb kv.1)
       ["schema_version"; "operation"; "limit"; "after_group_id"])) object
  then Err "unexpected_fields" else
  let^ limit := match obj_get "limit" object with
                | None => Ok DEFAULT_GROUP_PAGE_LIMIT
                | Some v => ok_or (as_u64 v) "invalid_limit"
                end in
  if negb ((1 <=? limit) && (limit <=? MAX_GROUP_PAGE_LIMIT)) then Err "invalid_limit" else
  let^ after := match obj_get "after_group_id" object with
                | None | Some VNull => Ok None
                | Some v =>
                    let^ id := ok_or (as_string v) "invalid_after_group_id" in
                    map_ok Some (map_err (λ _, "invalid_after_group_id") (ConsumerGroupId_new id))
                end in
  Ok (OpsListGroups after limit).

Definition parse_operations `{J : SerdeJson} (frame : bytes) : result OperationsRequest string :=
  match json_read frame with
  | None => Err "invalid_json"
  | Some v =>
      match to_value v with
      | VObject object =>
          if negb (bool_decide
               ((v ← obj_get "schema_version" object; as_u64 v) = Some OPERATIONS_SCHEMA_VERSION))
          then Err "unsupported_schema_version" else
          match get_str "operation" object with
          | Some "liveness" => parse_exact_status_request object OpsLiveness
          | Some "readiness" => parse_exact_status_request object OpsReadiness
          | Some "status" => parse_exact_status_request object OpsStatus
          | Some "describe_group" => parse_describe_group_request object
          | Some "list_groups" => parse_list_groups_request object
          | _ => Err "unsupported_operation"
          end
      | _ => Err "request_must_be_object"
      end
  end.

(** ** Responses *)

Definition operations_error_json (code : string) : Value :=
  object [("schema_version", VNumber OPERATIONS_SCHEMA_VERSION); ("status", VString "error");
          ("code", VString code)].

Definition group_summary_json (g : ConsumerGroupSummary) : Value :=
  object [("group_id", VString (gs_group_id g)); ("namespace_id", VString (gs_namespace_id g));
          ("generation", VNumber (gs_generation g)); ("group_revision", VNumber (gs_revision g));
          ("consumer_count", VNumber (gs_consumer_count g))].

(** [slice::partition_point], on a slice that the predicate partitions. *)
Fixpoint partition_point {A} (p : A → bool) (l : list A) : nat :=
  match l with
  | [] => 0
  | a :: l => if p a then S (partition_point p l) else 0
  end.

(** The page after the cursor, and the cursor of the next one. *)
Definition group_page (d : ConsumerGroupDirectory) (after : option ConsumerGroupId) (limit : N) :
    list ConsumerGroupSummary * option ConsumerGroupId :=
  let groups := gd_groups d in
  let start := match after with
               | None => 0%nat
               | Some id => partition_point (λ g, bool_decide (ole (gs_group_id g) id)) groups
               end in
  let finish := Nat.min (start + N.to_nat limit) (length groups) in
  let page := take (finish - start) (drop start groups) in
  (page, if Nat.ltb finish (length groups) then gs_group_id <$> last page else None).

Definition group_page_json (d : ConsumerGroupDirectory) (after : option ConsumerGroupId) (limit : N) :
    Value :=
  let '(page, next) := group_page d after limit in
  object [("schema_version", VNumber OPERATIONS_SCHEMA_VERSION);
          ("operation", VString "list_groups"); ("status", VString "ok");
          ("broker_term", VNumber (gd_term d)); ("broker_revision", VNumber (gd_revision d));
          ("groups", VArray (group_summary_json <$> page));
          ("next_after_group_id", match next with Some id => VString id | None => VNull end)].

Definition describe_group_json (d : ConsumerGroupDirectory) (group_id : ConsumerGroupId) : Value :=
  match Directory_group group_id d with
  | Some g =>
      object [("schema_version", VNumber OPERATIONS_SCHEMA_VERSION);
              ("operation", VString "describe_group"); ("status", VString "ok");
              ("broker_term", VNumber (gd_term d)); ("broker_revision", VNumber (gd_revision d));
              ("group", group_summary_json g)]
  | None => operations_error_json "group_not_found"
  end.

Definition group_directory_value
    (directory : result (result ConsumerGroupDirectory BrokerError) RuntimeError)
    (build : ConsumerGroupDirectory → Value) : Value :=
  match directory with
  | Ok (Ok d) => build d
  | Ok (Err e) => operations_error_json
      match be_code e with
      | TransportError => "read_authority_unavailable"
      | PersistenceError => "broker_fail_stopped"
      | _ => "broker_read_failed"
      end
  | Err StateOwnerSaturated => operations_error_json "state_owner_saturated"
  | Err (StateOwnerStopped | StateOwnerReplyDropped) => operations_error_json "state_owner_unavailable"
  | Err _ => operations_error_json "broker_read_failed"
  end.

Definition opt_number (o : option N) : Value :=
  match o with Some n => VNumber n | None => VNull end.

Definition progress_json (p : ClusterRaftProgress) : Value :=
  let members s := VArray (VNumber <$> take MAX_REPORTED_MEMBERS (bset_iter s)) in
  object [("node_id", VNumber (cp_node_id p)); ("raft_rpc_addr", VString (cp_raft_rpc_addr p));
          ("raft_rpc_queued_connections", VNumber (cp_raft_rpc_queued_connections p));
          ("raft_rpc_active_connections", VNumber (cp_raft_rpc_active_connections p));
          ("raft_term", VNumber (cp_raft_term p));
          ("last_log_index", opt_number (cp_last_log_index p));
          ("committed_index", opt_number (cp_committed_index p));
          ("applied_index", opt_number (cp_applied_index p));
          ("snapshot_index", opt_number (cp_snapshot_index p));
          ("purged_index", opt_number (cp_purged_index p));
          ("broker_term", VNumber (cp_broker_term p));
          ("broker_revision", VNumber (cp_broker_revision p));
          ("current_leader", opt_number (cp_current_leader p));
          ("voters", members (cp_voters p)); ("learners", members (cp_learners p));
          ("membership_truncated",
           VBool (Nat.ltb MAX_REPORTED_MEMBERS (size (cp_voters p)) ||
                  Nat.ltb MAX_REPORTED_MEMBERS (size (cp_learners p))))].

Definition snapshot_json (operation : string) (s : ClusterOperationsSnapshot) : Value :=
  let b := os_broker_server s in
  let o := os_state_owner s in
  let c := os_consensus s in
  object [("schema_version", VNumber OPERATIONS_SCHEMA_VERSION); ("operation", VString operation);
          ("live", VBool (os_live s)); ("write_ready", VBool (os_write_ready s));
          ("reason", VString (reason_as_str (os_reason s)));
          ("maintenance_authority", VBool (os_maintenance_authority s));
          ("broker_server", object [("serving", VBool (bl_serving b));
             ("active_connections", VNumber (bl_active_connections b));
             ("max_connections", VNumber (bl_max_connections b));
             ("saturated", VBool (bl_max_connections b <=? bl_active_connections b))]);
          ("state_owner", object [("active_jobs", VNumber (sl_active_jobs o));
             ("queued_jobs", VNumber (sl_queued_jobs o)); ("capacity", VNumber (sl_capacity o));
             ("saturated", VBool (sl_capacity o <=? sl_queued_jobs o))]);
          ("consensus", object [("status", VString (readiness_as_str (rd_status c)));
             ("write_ready", VBool (is_write_ready c));
             ("progress", match rd_progress c with Some p => progress_json p | None => VNull end)])].

Section encoding.
Context `{J : SerdeJson}.

Definition operations_encode_bounded (v : Value) (max_frame_bytes : N) : result bytes RuntimeError :=
  let^ encoded := map_err (RuntimeIo "operations response serialization failed") (json_write v) in
  let encoded := (encoded ++ [newline])%list in
  if max_frame_bytes <? len encoded
  then Err (InvalidConfiguration "operations response exceeded configured max_frame_bytes")
  else Ok encoded.

Definition operations_value (request : OperationsRequest) (observer : OperationsObserver)
    (directory : result (result ConsumerGroupDirectory BrokerError) RuntimeError) : Value :=
  let snapshot operation :=
    match observer with
    | ObserveCluster b o c => snapshot_json operation (operations_snapshot b o c)
    | ObserveStandalone _ => operations_error_json "unsupported_operation_for_topology"
    end in
  match request with
  | OpsLiveness => object [("schema_version", VNumber OPERATIONS_SCHEMA_VERSION);
      ("operation", VString "liveness"); ("live", VBool (liveness observer))]
  | OpsReadiness => snapshot "readiness"
  | OpsStatus => snapshot "status"
  | OpsDescribeGroup group_id => group_directory_value directory (λ d, describe_group_json d group_id)
  | OpsListGroups after limit => group_directory_value directory (λ d, group_page_json d after limit)
  end.

(** One connection: what is written, if anything. *)
Definition handle_operations_connection (observer : OperationsObserver)
    (directory : result (result ConsumerGroupDirectory BrokerError) RuntimeError)
    (max_frame_bytes : N) (reader : list (result bytes string)) :
    result (option bytes) RuntimeError :=
  let^ frame := (read_request_frame max_frame_bytes reader []).1 in
  match frame with
  | FrameEof => Ok None
  | FrameExceeds => map_ok Some (operations_encode_bounded (operations_error_json "frame_too_large") max_frame_bytes)
  | FrameData frame =>
      map_ok Some (operations_encode_bounded
        match parse_operations frame with
        | Ok request => operations_value request observer directory
        | Err code => operations_error_json code
        end max_frame_bytes)
  end.
End encoding.
