(* ===== verification/OperationsProps.v ===== *)
(** * The operations server answers, in full and within its frame

    Following the cursor lists every group once, also while groups are being
    added; a node is reported ready for writes only when everything it depends
    on is; and under the default limit every request line is answered. *)

From stdpp Require Import sorting.
From S2P Require Import Prelude Values Task Group Messages Machine Recovery Invariant Valid Display.
From S2P Require Import Wire Service Json WireSchema WireV1 Words WireResponseProps Runtime.
From S2P Require Import StateOwner Server Observation ClusterNode Operations.

(** ** Pages *)

(** Ask for pages until there is no next cursor; each page is read from the
    directory of its moment. *)
Fixpoint follow (ds : list ConsumerGroupDirectory) (after : option ConsumerGroupId) (limit : N) :
    option (list ConsumerGroupSummary) :=
  match ds with
  | [] => None
  | d :: ds =>
      let '(page, next) := group_page d after limit in
      match next with
      | None => Some page
      | Some id => app page <$> follow ds (Some id) limit
      end
  end.

Abbreviation ids l := (gs_group_id <$> l) (only parsing).

Definition id_lt (a b : ConsumerGroupId) : Prop := ole a b ∧ a ≠ b.

Definition directory_sorted (d : ConsumerGroupDirectory) : Prop :=
  StronglySorted id_lt (ids (gd_groups d)).

(** Beyond the cursor. *)
Definition beyond (after : option ConsumerGroupId) (id : ConsumerGroupId) : Prop :=
  match after with None => True | Some c => ¬ ole id c end.

Lemma id_lt_not_le a b : id_lt a b ↔ ¬ ole b a.
Proof.
  unfold id_lt. split.
  - intros [Hab Hne] Hba. apply Hne. by apply (anti_symm ole).
  - intros Hba. destruct (total ole a b); [|done]. split; [done|]. by intros ->.
Qed.

(** What lies beyond the cursor is what [partition_point] leaves. *)
Lemma partition_point_spec d c g :
  directory_sorted d →
  g ∈ drop (partition_point (λ g, bool_decide (ole (gs_group_id g) c)) (gd_groups d)) (gd_groups d) ↔
  g ∈ gd_groups d ∧ beyond (Some c) (gs_group_id g).
Proof.
  unfold directory_sorted. generalize (gd_groups d). induction l as [|g0 l IH]; intros Hs; simpl.
  { rewrite elem_of_nil. naive_solver. }
  cbn [fmap list_fmap] in Hs. apply StronglySorted_inv in Hs as [Hs Hall]. rewrite elem_of_cons.
  case_bool_decide as Hle; cbn [drop].
  - rewrite IH by done. simpl. split; [naive_solver|]. intros [[->|Hg] Hb]; [done|naive_solver].
  - rewrite elem_of_cons. split; [|naive_solver]. intros Hg. split; [done|]. simpl.
    destruct Hg as [->|Hg]; [done|]. rewrite Forall_forall in Hall.
    assert (id_lt (gs_group_id g0) (gs_group_id g)) as [Hlt _]
      by (apply Hall, list_elem_of_fmap; eauto).
    intros Hgc. apply Hle. by etrans.
Qed.

Definition rest (d : ConsumerGroupDirectory) (after : option ConsumerGroupId) :
    list ConsumerGroupSummary :=
  match after with
  | None => gd_groups d
  | Some c => drop (partition_point (λ g, bool_decide (ole (gs_group_id g) c)) (gd_groups d)) (gd_groups d)
  end.

Lemma elem_of_rest d after g :
  directory_sorted d → g ∈ rest d after ↔ g ∈ gd_groups d ∧ beyond after (gs_group_id g).
Proof.
  intros Hs. destruct after; [by apply partition_point_spec|]. simpl. naive_solver.
Qed.

Lemma sorted_drop {A} (R : relation A) n l : StronglySorted R l → StronglySorted R (drop n l).
Proof.
  revert n. induction l as [|a l IH]; intros [|n] H; try done. simpl. by apply IH; apply StronglySorted_inv in H as [? _].
Qed.

Lemma rest_sorted d after : directory_sorted d → StronglySorted id_lt (ids (rest d after)).
Proof.
  intros Hs. destruct after; [|done]. simpl. rewrite fmap_drop. by apply sorted_drop.
Qed.

Lemma group_page_rest d after limit :
  (group_page d after limit).1 = take (N.to_nat limit) (rest d after) ∧
  (group_page d after limit).2 =
    if Nat.ltb (N.to_nat limit) (length (rest d after))
    then gs_group_id <$> last (take (N.to_nat limit) (rest d after)) else None.
Proof.
  assert (∀ start, (start ≤ length (gd_groups d))%nat →
    take (Nat.min (start + N.to_nat limit) (length (gd_groups d)) - start) (drop start (gd_groups d)) =
    take (N.to_nat limit) (drop start (gd_groups d))) as Ht.
  { intros start Hle. destruct (decide (start + N.to_nat limit ≤ length (gd_groups d))%nat).
    - f_equal. lia.
    - rewrite !take_ge; [done|rewrite length_drop; lia..]. }
  assert (∀ p : ConsumerGroupSummary → bool, (partition_point p (gd_groups d) ≤ length (gd_groups d))%nat)
    as Hp.
  { intros p. clear. induction (gd_groups d) as [|g l IH]; simpl; [lia|]. destruct (p g); lia. }
  assert (∀ start, (start ≤ length (gd_groups d))%nat →
    Nat.ltb (Nat.min (start + N.to_nat limit) (length (gd_groups d))) (length (gd_groups d)) =
    Nat.ltb (N.to_nat limit) (length (drop start (gd_groups d)))) as Hl.
  { intros start Hle. rewrite length_drop. apply eq_true_iff_eq. rewrite !Nat.ltb_lt. lia. }
  unfold group_page, rest. destruct after as [c|]; cbn [fst snd].
  - by rewrite Ht, Hl by apply Hp.
  - rewrite (Ht 0%nat), (Hl 0%nat) by lia. by rewrite drop_0.
Qed.

(** Groups are never removed between two readings. *)
Fixpoint growing (ds : list ConsumerGroupDirectory) : Prop :=
  match ds with
  | d :: (d' :: _) as ds' => ids (gd_groups d) ⊆ ids (gd_groups d') ∧ growing ds'
  | _ => True
  end.

(** A page and its cursor: the page lies up to the cursor, the rest beyond it. *)
Lemma page_splits d after limit page c :
  directory_sorted d → 0 < limit → group_page d after limit = (page, Some c) →
  StronglySorted id_lt (ids page) ∧ Forall (beyond after) (ids page) ∧
  page ⊆ gd_groups d ∧ c ∈ ids page ∧ Forall (λ id, ole id c) (ids page) ∧
  ∀ id, id ∈ ids (gd_groups d) → beyond after id → id ∈ ids page ∨ beyond (Some c) id.
Proof.
  intros Hs Hlim Hp. pose proof (group_page_rest d after limit) as [H1 H2]. rewrite Hp in H1, H2.
  cbn [fst snd] in *. case_match; [|done]. symmetry in H2.
  apply fmap_Some in H2 as (g & Hlast & ->). apply last_Some in Hlast as [pre Hpre].
  pose proof (rest_sorted d after Hs) as Hrs.
  rewrite <-(take_drop (N.to_nat limit) (rest d after)), fmap_app in Hrs.
  rewrite <-H1 in Hpre, Hrs. apply StronglySorted_app in Hrs as (Hcross & Hsp & _).
  assert (∀ g0, g0 ∈ page → g0 ∈ rest d after) as Hin
    by (intros g0; rewrite H1, elem_of_take; intros (i & Hi & _); by eapply list_elem_of_lookup_2).
  split_and!; [done| | | | |].
  - apply Forall_fmap, Forall_forall. intros g0 Hg0%Hin. by apply elem_of_rest in Hg0 as [_ ?].
  - intros g0 Hg0%Hin. by apply elem_of_rest in Hg0 as [? _].
  - rewrite Hpre, fmap_app. set_solver.
  - rewrite Hpre, fmap_app in Hsp |- *. apply StronglySorted_app in Hsp as (Hx & _ & _).
    apply Forall_app. split; [|by repeat constructor]. apply Forall_forall. intros id Hid.
    apply Hx; [done|]. by constructor.
  - intros id (g0 & -> & Hg0)%list_elem_of_fmap Hb.
    assert (g0 ∈ rest d after) as Hr by (by apply elem_of_rest).
    rewrite <-(take_drop (N.to_nat limit) (rest d after)), <-H1 in Hr.
    apply elem_of_app in Hr as [Hr|Hr]; [left; apply list_elem_of_fmap; eauto|right]. simpl.
    apply id_lt_not_le, Hcross; apply list_elem_of_fmap; [|by eauto]. exists g. split; [done|].
    rewrite Hpre. set_solver.
Qed.

Lemma last_page d after limit page :
  directory_sorted d → group_page d after limit = (page, None) → 0 < limit → page = rest d after.
Proof.
  intros Hs Hp Hlim. pose proof (group_page_rest d after limit) as [H1 H2]. rewrite Hp in H1, H2.
  cbn [fst snd] in *. case_match eqn:Hlt.
  - symmetry in H2. apply fmap_None, last_None, (f_equal length) in H2.
    apply Nat.ltb_lt in Hlt. rewrite length_take in H2. simpl in H2. lia.
  - apply Nat.ltb_ge in Hlt. by rewrite take_ge in H1 by done.
Qed.

Lemma follow_step d ds after limit :
  follow (d :: ds) after limit =
  match group_page d after limit with
  | (page, None) => Some page
  | (page, Some id) => app page <$> follow ds (Some id) limit
  end.
Proof. simpl. by destruct (group_page d after limit) as [page []]. Qed.

Lemma follow_lists ds d after limit l :
  Forall directory_sorted (d :: ds) → growing (d :: ds) → 0 < limit →
  follow (d :: ds) after limit = Some l →
  StronglySorted id_lt (ids l) ∧ Forall (beyond after) (ids l) ∧
  (∀ g, g ∈ l → ∃ d', d' ∈ d :: ds ∧ g ∈ gd_groups d') ∧
  ∀ id, id ∈ ids (gd_groups d) → beyond after id → id ∈ ids l.
Proof.
  revert d after l. induction ds as [|d1 ds IH]; intros d after l Hs Hg Hlim;
    apply Forall_cons in Hs as [Hd Hs]; rewrite follow_step;
    destruct (group_page d after limit) as [page [c|]] eqn:Hp; try done.
  1, 3: intros [= <-]; apply last_page in Hp as ->; [|done..]; split_and!;
    [by apply rest_sorted
    |apply Forall_fmap, Forall_forall; intros g Hg'; by apply elem_of_rest in Hg' as [_ ?]
    |intros g Hg'; apply elem_of_rest in Hg' as [? _]; [|done]; exists d; set_solver
    |intros id (g & -> & Hin)%list_elem_of_fmap Hb; apply list_elem_of_fmap; exists g;
     by rewrite elem_of_rest].
  destruct Hg as [Hgrow Hg].
  destruct (follow (d1 :: ds) (Some c) limit) as [l'|] eqn:Hf; [|done].
  intros [= <-]. destruct (IH d1 (Some c) l' Hs Hg Hlim Hf) as (Hs' & Hb' & Hfrom & Hall).
  destruct (page_splits d after limit page c Hd Hlim Hp) as (Hsp & Hbp & Hsub & _ & Hle & Hcov).
  rewrite fmap_app. rewrite Forall_forall in Hle, Hb'. split_and!.
  - apply StronglySorted_app. split_and!; [|done..]. intros x y Hx%Hle Hy%Hb'.
    apply id_lt_not_le. intros Hyx. apply Hy. by etrans.
  - apply Forall_app. split; [done|]. apply Forall_forall. intros y Hy%Hb'. destruct after as [a|]; [|done].
    simpl in *. intros Hya. apply Hy.
    assert (¬ ole c a) as Hca.
    { destruct (page_splits d (Some a) limit page c Hd Hlim Hp) as (_ & Hb2 & _ & Hc & _).
      rewrite Forall_forall in Hb2. by apply Hb2 in Hc. }
    destruct (total ole y c) as [?|Hcy]; [done|]. destruct Hca. by etrans.
  - intros g [Hin%Hsub|(d' & Hd' & Hin)%Hfrom]%elem_of_app; [exists d|exists d']; set_solver.
  - intros id Hid Hb. apply elem_of_app. destruct (Hcov id Hid Hb); [by left|right]. apply Hall; [|done].
    by apply Hgrow.
Qed.

Lemma id_lt_nodup l : StronglySorted id_lt l → NoDup l.
Proof.
  induction 1 as [|id l _ IH Hall]; constructor; [|done]. intros Hin. rewrite Forall_forall in Hall.
  by destruct (Hall id Hin).
Qed.

Lemma rest_nodup d after : directory_sorted d → NoDup (rest d after).
Proof. intros Hs. eapply NoDup_fmap_1. by apply id_lt_nodup, rest_sorted. Qed.

(** Each page moves the cursor on. *)
Lemma follow_returns d limit n after :
  directory_sorted d → 0 < limit → (length (rest d after) < n)%nat →
  is_Some (follow (replicate n d) after limit).
Proof.
  intros Hs Hlim. revert after. induction n as [|n IH]; intros after Hn; [lia|]. cbn [replicate follow].
  destruct (group_page d after limit) as [page [c|]] eqn:Hp; [|done].
  apply fmap_is_Some, IH.
  destruct (page_splits d after limit page c Hs Hlim Hp) as (_ & Hb & Hsub & Hc & _).
  enough (length (rest d (Some c)) < length (rest d after))%nat by lia.
  apply list_elem_of_fmap in Hc as (g & -> & Hg).
  assert (g ∈ rest d after) as Hga.
  { apply elem_of_rest; [done|]. split; [by apply Hsub|]. rewrite Forall_forall in Hb.
    apply Hb, list_elem_of_fmap. eauto. }
  assert (g :: rest d (Some (gs_group_id g)) ⊆+ rest d after) as Hlen%submseteq_length; [|simpl in *; lia].
  apply NoDup_submseteq.
  - apply NoDup_cons. split; [|by apply rest_nodup]. rewrite elem_of_rest by done.
    intros [_ Hn']. by apply Hn'.
  - intros g0 [->|Hg0]%elem_of_cons; [done|]. apply elem_of_rest in Hg0 as [Hin Hb0]; [|done].
    apply elem_of_rest; [done|]. split; [done|]. destruct after as [a|]; [|done].
    apply elem_of_rest in Hga as [_ Hga]; [|done]. simpl in *. intros Hle. apply Hga.
    destruct (total ole (gs_group_id g) a); [done|]. destruct Hb0. by etrans.
Qed.

(** The directory of a state is in order, and grows with the state. *)
Lemma directory_is_sorted s : StateInv s → directory_sorted (group_directory s).
Proof.
  intros Hs. unfold directory_sorted, group_directory, group_summaries. cbn [gd_groups].
  rewrite <-list_fmap_compose.
  change (gs_group_id ∘ Group_summary) with g_id.
  rewrite bmap_values_keys by (intros id g Hg; by apply (si_groups _ Hs id g)).
  assert (∀ l, sorted l → NoDup l → StronglySorted id_lt l) as H;
    [|apply H; [apply bset_iter_sorted|apply bset_iter_nodup]].
  intros l Hl Hnd. induction Hl as [|id l _ IH Hall]; constructor; apply NoDup_cons in Hnd as [Hn Hnd].
  - by apply IH.
  - rewrite Forall_forall in *. intros id' Hid'. split; [by apply Hall|]. by intros ->.
Qed.

Lemma directory_ids s id : id ∈ ids (gd_groups (group_directory s)) ↔
  ∃ k g, s_groups s !! k = Some g ∧ id = g_id g.
Proof.
  unfold group_directory, group_summaries. cbn [gd_groups]. rewrite <-list_fmap_compose.
  rewrite list_elem_of_fmap. setoid_rewrite elem_of_bmap_values. naive_solver.
Qed.

(** ** Readiness *)

Lemma write_ready_iff b o c :
  os_write_ready (operations_snapshot b o c) = true ↔
  bl_serving b = true ∧ rd_status c = RdReady ∧ sl_queued_jobs o < sl_capacity o.
Proof.
  unfold operations_snapshot, is_write_ready. cbn [os_write_ready].
  destruct (bl_serving b), (rd_status c); cbn [negb]; try (split; naive_solver).
  destruct (N.leb_spec (sl_capacity o) (sl_queued_jobs o)); split; naive_solver lia.
Qed.

(** ** Sizes *)

Definition sound (n : nat) (v : Value) : Prop := plain v = true ∧ (depth v ≤ n)%nat.

Lemma obj_insert_keys k v kvs :
  map fst (obj_insert k v kvs) ⊆ k :: map fst kvs.
Proof.
  induction kvs as [|[k' v'] kvs IH]; [done|]. simpl. case_match; simpl; set_solver.
Qed.

Lemma String_compare_trans a b c :
  String.compare a b = Lt → String.compare b c = Lt → String.compare a c = Lt.
Proof.
  revert b c. induction a as [|x a IH]; intros [|y b] [|z c]; try done. cbn [String.compare].
  unfold Ascii.compare.
  destruct (N.compare_spec (Ascii.N_of_ascii x) (Ascii.N_of_ascii y)) as [Hxy|Hxy|Hxy]; [| |done];
    destruct (N.compare_spec (Ascii.N_of_ascii y) (Ascii.N_of_ascii z)) as [Hyz|Hyz|Hyz]; try done;
    destruct (N.compare_spec (Ascii.N_of_ascii x) (Ascii.N_of_ascii z)); try lia; try done.
  by apply IH.
Qed.

Lemma obj_insert_ascending k v kvs :
  ascending (map fst kvs) = true → ascending (map fst (obj_insert k v kvs)) = true.
Proof.
  induction kvs as [|[k' v'] kvs IH]; [done|]. cbn [map fst obj_insert].
  intros [Hall Ha]%ascending_cons.
  destruct (String.compare k k') eqn:Hc; cbn [map fst]; apply ascending_cons.
  - apply String.compare_eq_iff in Hc as ->. done.
  - split; [|by apply ascending_cons]. constructor; [done|]. eapply Forall_impl; [exact Hall|].
    intros k2 Hk2. by eapply String_compare_trans.
  - split; [|by apply IH]. apply Forall_forall. intros k2 Hk2%obj_insert_keys.
    rewrite Forall_forall in Hall. apply elem_of_cons in Hk2 as [->|Hk2]; [|by apply Hall].
    by rewrite String.compare_antisym, Hc.
Qed.

Lemma obj_insert_elem k v kvs kv : kv ∈ obj_insert k v kvs → kv = (k, v) ∨ kv ∈ kvs.
Proof.
  induction kvs as [|[k' v'] kvs IH]; simpl; [set_solver|]. case_match; set_solver.
Qed.

Lemma plain_object kvs :
  ascending (map fst kvs) = true → Forall (λ kv, plain kv.2 = true) kvs → plain (VObject kvs) = true.
Proof.
  intros Ha Hf. cbn [plain]. rewrite Ha. simpl. apply forallb_forall. intros kv Hkv.
  rewrite Forall_forall in Hf. by apply Hf, list_elem_of_In.
Qed.

Lemma depth_members {A} (f : A → Value) l n :
  Forall (λ a, (depth (f a) ≤ n)%nat) l → (foldr (λ a m, Nat.max (depth (f a)) m) 0 l ≤ n)%nat.
Proof. induction 1; simpl; lia. Qed.

(** An object of sound members is sound, whatever their order. *)
Lemma object_sound n entries :
  Forall (λ kv, sound n kv.2) entries → sound (S n) (object entries).
Proof.
  intros He. unfold object.
  assert (∀ acc, ascending (map fst acc) = true → Forall (λ kv, sound n kv.2) acc →
    let kvs := foldl (λ kvs kv, obj_insert kv.1 kv.2 kvs) acc entries in
    ascending (map fst kvs) = true ∧ Forall (λ kv, sound n kv.2) kvs) as H.
  { induction He as [|[k v] es Hv _ IH]; intros acc Ha Hacc; [done|]. cbn [foldl fst snd].
    apply IH; [by apply obj_insert_ascending|]. rewrite Forall_forall in *.
    intros kv [->|?]%obj_insert_elem; auto. }
  destruct (H [] eq_refl (Forall_nil_2 _)) as [Ha Hf]. split.
  - apply plain_object; [done|]. eapply Forall_impl; [exact Hf|]. by intros kv [? _].
  - cbn [depth]. apply le_n_S, depth_members. eapply Forall_impl; [exact Hf|]. by intros kv [_ ?].
Qed.

Lemma array_sound {A} n (f : A → Value) l :
  Forall (λ a, sound n (f a)) l → sound (S n) (VArray (f <$> l)).
Proof.
  intros Hl. split.
  - cbn [plain]. induction Hl as [|a l [Hp _] _ IH]; [done|]. simpl. by rewrite Hp.
  - cbn [depth]. apply le_n_S, (depth_members id), Forall_fmap. eapply Forall_impl; [exact Hl|].
    by intros a [_ ?].
Qed.

Lemma number_sound n m : word m → sound n (VNumber m).
Proof. intros Hw. split; [by apply N.leb_le|simpl; lia]. Qed.
Lemma text_sound n s : sound n (VString s).
Proof. split; [done|simpl; lia]. Qed.
Lemma bool_sound n b : sound n (VBool b).
Proof. split; [done|simpl; lia]. Qed.
Lemma null_sound n : sound n VNull.
Proof. split; [done|simpl; lia]. Qed.

Lemma sound_mono n m v : (n ≤ m)%nat → sound n v → sound m v.
Proof. intros ? []. split; [done|lia]. Qed.

Create HintDb sound.
#[export] Hint Resolve number_sound text_sound bool_sound null_sound : sound.

(** Sound members of an object of known entries. *)
Ltac members :=
  apply object_sound; repeat (apply Forall_cons_2; [cbn [snd]|]); [..|apply Forall_nil_2];
  auto with sound.

(** What the observers report, in 64 bits; a socket address takes at most 58
    characters (IPv6 with a scope and a port). *)
Definition word_progress (p : ClusterRaftProgress) : Prop :=
  Forall word [cp_node_id p; cp_raft_rpc_queued_connections p; cp_raft_rpc_active_connections p;
               cp_raft_term p; cp_broker_term p; cp_broker_revision p] ∧
  Forall (λ o, from_option word True o) [cp_last_log_index p; cp_committed_index p;
    cp_applied_index p; cp_snapshot_index p; cp_purged_index p; cp_current_leader p] ∧
  set_Forall word (cp_voters p) ∧ set_Forall word (cp_learners p) ∧
  string_bound (cp_raft_rpc_addr p) ≤ 60.

Definition word_observer (o : OperationsObserver) : Prop :=
  match o with
  | ObserveCluster b w c =>
      Forall word [bl_active_connections b; bl_max_connections b; sl_active_jobs w;
                   sl_queued_jobs w; sl_capacity w] ∧ from_option word_progress True (rd_progress c)
  | ObserveStandalone _ => True
  end.

Definition word_summary (g : ConsumerGroupSummary) : Prop :=
  valid_id (gs_group_id g) ∧ valid_id (gs_namespace_id g) ∧ word (gs_generation g) ∧
  word (gs_revision g) ∧ word (gs_consumer_count g).

Definition word_directory (d : ConsumerGroupDirectory) : Prop :=
  word (gd_term d) ∧ word (gd_revision d) ∧ Forall word_summary (gd_groups d).

Lemma summary_sound g : word_summary g → sound 1 (group_summary_json g).
Proof.
  intros (_ & _ & H1 & H2 & H3). by members.
Qed.

Lemma summary_size g : word_summary g → text_bound (group_summary_json g) ≤ 400.
Proof.
  intros (Hg%id_bound & Hn%id_bound & _). unfold group_summary_json. object_size. lia.
Qed.

Lemma array_size {A} (f : A → Value) l n k :
  Forall (λ a, text_bound (f a) ≤ n) l → (length l ≤ k)%nat →
  text_bound (VArray (f <$> l)) ≤ 2 + N.of_nat k * (n + 1).
Proof.
  intros Hl Hk. cbn [text_bound].
  enough (foldr (λ v m, text_bound v + 1 + m) 0 (f <$> l) ≤ N.of_nat (length l) * (n + 1)) by nia.
  clear Hk. induction Hl as [|a l Ha _ IH]; [done|].
  rewrite fmap_cons. cbn [foldr length]. rewrite Nat2N.inj_succ, N.mul_succ_l. lia.
Qed.

Lemma page_words d after limit :
  word_directory d → directory_sorted d → limit ≤ MAX_GROUP_PAGE_LIMIT →
  Forall word_summary (group_page d after limit).1 ∧ (length (group_page d after limit).1 ≤ 8)%nat ∧
  from_option valid_id True (group_page d after limit).2.
Proof.
  intros (_ & _ & Hw) Hs Hl. unfold MAX_GROUP_PAGE_LIMIT in Hl.
  destruct (group_page_rest d after limit) as [-> ->].
  assert (Forall word_summary (take (N.to_nat limit) (rest d after))) as Ht.
  { apply Forall_take, Forall_forall. intros g Hg. apply elem_of_rest in Hg as [Hg _]; [|done].
    rewrite Forall_forall in Hw. by apply Hw. }
  split_and!; [done|rewrite length_take; lia|]. case_match; [|done].
  destruct (last _) as [g|] eqn:Hg; [|done]. simpl. apply last_Some_elem_of in Hg.
  rewrite Forall_forall in Ht. by apply Ht.
Qed.

Lemma error_value code :
  string_bound code ≤ 60 →
  sound 126 (operations_error_json code) ∧ text_bound (operations_error_json code) ≤ 200.
Proof.
  intros Hc. split; [|unfold operations_error_json; object_size; lia].
  apply (sound_mono 1); [lia|]. by members; apply number_sound.
Qed.

Lemma page_value d after limit :
  word_directory d → directory_sorted d → limit ≤ MAX_GROUP_PAGE_LIMIT →
  sound 126 (group_page_json d after limit) ∧ text_bound (group_page_json d after limit) ≤ 4000.
Proof.
  intros Hw Hs Hl. destruct (page_words d after limit Hw Hs Hl) as (Hp & Hlen & Hn).
  destruct Hw as (Ht & Hr & _). unfold group_page_json.
  destruct (group_page d after limit) as [page next]. cbn [fst snd] in *.
  pose proof (Forall_impl _ _ _ Hp summary_sound) as Hps%array_sound.
  pose proof (array_size group_summary_json page 400 8 (Forall_impl _ _ _ Hp summary_size) Hlen) as Hsize.
  revert Hps Hsize. generalize (VArray (group_summary_json <$> page)). intros groups Hps Hsize. split.
  - apply (sound_mono 3); [lia|]. members; [by apply number_sound|by destruct next; auto with sound].
  - object_size. destruct next as [id|]; cbn [text_bound]; [apply id_bound in Hn|]; lia.
Qed.

Lemma directory_group_words d id g :
  word_directory d → Directory_group id d = Some g → word_summary g.
Proof.
  intros (_ & _ & Hw). unfold Directory_group. destruct (binary_search _ _); [|done].
  rewrite Forall_lookup in Hw. by apply Hw.
Qed.

Lemma describe_value d id :
  word_directory d →
  sound 126 (describe_group_json d id) ∧ text_bound (describe_group_json d id) ≤ 4000.
Proof.
  intros Hw. unfold describe_group_json. destruct (Directory_group id d) as [g|] eqn:Hg.
  2: { destruct (error_value "group_not_found") as [? ?]; [done|]. split; [done|lia]. }
  apply directory_group_words in Hg; [|done]. pose proof (summary_size _ Hg) as Hsize.
  apply summary_sound in Hg. destruct Hw as (Ht & Hr & _). split.
  - apply (sound_mono 2); [lia|]. members. by apply number_sound.
  - object_size. lia.
Qed.

Lemma opt_number_sound n o : from_option word True o → sound n (opt_number o).
Proof. destruct o; simpl; auto with sound. Qed.

Lemma opt_number_size o : text_bound (opt_number o) ≤ 20.
Proof. destruct o; simpl; lia. Qed.

Lemma members_sound s :
  set_Forall word s → sound 1 (VArray (VNumber <$> take MAX_REPORTED_MEMBERS (bset_iter s))).
Proof.
  intros Hs. apply array_sound, Forall_take, Forall_forall. intros n Hn%elem_of_bset_iter%Hs.
  by apply number_sound.
Qed.

Lemma members_size s :
  text_bound (VArray (VNumber <$> take MAX_REPORTED_MEMBERS (bset_iter s))) ≤ 1346.
Proof.
  etrans; [apply (array_size VNumber _ 20 64); [by apply Forall_true|]|done].
  rewrite length_take. unfold MAX_REPORTED_MEMBERS. lia.
Qed.

Lemma progress_value p :
  word_progress p → sound 2 (progress_json p) ∧ text_bound (progress_json p) ≤ 3300.
Proof.
  intros (Hw & Ho & Hv & Hl & Ha). apply members_sound in Hv, Hl.
  pose proof (members_size (cp_voters p)) as Hvs. pose proof (members_size (cp_learners p)) as Hls.
  rewrite !Forall_cons in Hw. rewrite !Forall_cons in Ho. destruct_and!. unfold progress_json. revert Hv Hl Hvs Hls.
  generalize (VArray (VNumber <$> take MAX_REPORTED_MEMBERS (bset_iter (cp_voters p)))).
  generalize (VArray (VNumber <$> take MAX_REPORTED_MEMBERS (bset_iter (cp_learners p)))).
  intros learners voters Hv Hl Hvs Hls. split.
  - members; by apply opt_number_sound.
  - object_size.
    repeat match goal with |- context [text_bound (opt_number ?o)] =>
      pose proof (opt_number_size o); generalize dependent (text_bound (opt_number o)) end.
    intros. lia.
Qed.

Lemma snapshot_value operation b o c :
  word_observer (ObserveCluster b o c) → string_bound operation ≤ 11 →
  sound 126 (snapshot_json operation (operations_snapshot b o c)) ∧
  text_bound (snapshot_json operation (operations_snapshot b o c)) ≤ 4090.
Proof.
  intros [Hw Hp] Hop. rewrite !Forall_cons in Hw. destruct_and!.
  generalize (operations_snapshot b o c) (eq_refl : os_broker_server (operations_snapshot b o c) = b)
    (eq_refl : os_state_owner (operations_snapshot b o c) = o)
    (eq_refl : os_consensus (operations_snapshot b o c) = c).
  intros s Hb Ho Hc. unfold snapshot_json. rewrite Hb, Ho, Hc. cbv zeta.
  assert (∃ v, v = match rd_progress c with Some p => progress_json p | None => VNull end ∧
    sound 2 v ∧ text_bound v ≤ 3300) as (v & <- & Hv & Hvs).
  { eexists. split; [done|]. destruct (rd_progress c); [by apply progress_value|].
    split; [auto with sound|simpl; lia]. }
  assert (string_bound (reason_as_str (os_reason s)) ≤ 30) by (by destruct (os_reason s) as [| | |[]]).
  assert (string_bound (readiness_as_str (rd_status c)) ≤ 30) by (by destruct (rd_status c)).
  split.
  - apply (sound_mono 4); [lia|]. members; [by apply number_sound|..];
      apply (sound_mono 3); try lia; [apply (sound_mono 1); [lia|]..|]; members.
  - etrans; [apply object_bound|]. cbn [foldr fst snd].
    repeat match goal with |- context [text_bound (object ?l)] =>
      let H := fresh in pose proof (object_bound l) as H; revert H; generalize (text_bound (object l)) end.
    entries_size. lia.
Qed.

(** ** Every line is answered *)

Lemma parse_error_short `{J : SerdeJson} f code :
  parse_operations f = Err code → string_bound code ≤ 60.
Proof.
  unfold parse_operations, parse_exact_status_request, parse_describe_group_request,
    parse_list_groups_request, ok_or, map_err, map_ok.
  intros H. repeat case_match; simplify_eq; by vm_compute.
Qed.

Definition bounded_request (r : OperationsRequest) : Prop :=
  match r with OpsListGroups _ limit => 1 ≤ limit ≤ MAX_GROUP_PAGE_LIMIT | _ => True end.

Lemma parse_bounded `{J : SerdeJson} f r : parse_operations f = Ok r → bounded_request r.
Proof.
  unfold parse_operations, parse_exact_status_request, parse_describe_group_request,
    parse_list_groups_request, ok_or, map_err, map_ok.
  intros H. repeat case_match; simplify_eq; try done;
    match goal with H : negb ((1 <=? _) && _) = false |- _ =>
      apply negb_false_iff, andb_true_iff in H as [?%N.leb_le ?%N.leb_le] end; by split.
Qed.

Definition word_reply (reply : result (result ConsumerGroupDirectory BrokerError) RuntimeError) : Prop :=
  match reply with Ok (Ok d) => word_directory d ∧ directory_sorted d | _ => True end.

Lemma directory_value reply build :
  word_reply reply →
  (∀ d, word_directory d → directory_sorted d →
    sound 126 (build d) ∧ text_bound (build d) ≤ 4000) →
  sound 126 (group_directory_value reply build) ∧
  text_bound (group_directory_value reply build) ≤ 4000.
Proof.
  intros Hr Hb. unfold group_directory_value.
  assert (∀ code, string_bound code ≤ 60 →
    sound 126 (operations_error_json code) ∧ text_bound (operations_error_json code) ≤ 4000) as He.
  { intros code Hc. destruct (error_value code Hc). split; [done|lia]. }
  destruct reply as [[d|e]|e]; [by destruct Hr; apply Hb| |]; [destruct (be_code e)|destruct e];
    by apply He.
Qed.

Lemma operations_value_fits request observer reply :
  bounded_request request → word_observer observer → word_reply reply →
  sound 126 (operations_value request observer reply) ∧
  text_bound (operations_value request observer reply) ≤ 4090.
Proof.
  intros Hq Ho Hr.
  assert (sound 126 (operations_error_json "unsupported_operation_for_topology") ∧
    text_bound (operations_error_json "unsupported_operation_for_topology") ≤ 4090) as He.
  { destruct (error_value "unsupported_operation_for_topology") as [? ?]; [done|]. split; [done|lia]. }
  assert (∀ build, (∀ d, word_directory d → directory_sorted d →
      sound 126 (build d) ∧ text_bound (build d) ≤ 4000) →
    sound 126 (group_directory_value reply build) ∧
    text_bound (group_directory_value reply build) ≤ 4090) as Hd.
  { intros build Hb. destruct (directory_value reply build Hr Hb). split; [done|lia]. }
  destruct request as [| | |id|after limit]; cbn [operations_value].
  - split; [apply (sound_mono 1); [lia|]; members; by apply number_sound|].
    object_size. lia.
  - destruct observer; [by apply snapshot_value|done].
  - destruct observer; [by apply snapshot_value|done].
  - apply Hd. intros d Hw _. by apply describe_value.
  - apply Hd. intros d Hw Hs. apply page_value; [done..|]. by destruct Hq.
Qed.

Section answers.
Context {J : SerdeJson} {L : SerdeJsonLaws J}.

Lemma operations_encode_fits v max :
  sound 126 v → text_bound v < max →
  ∃ b, operations_encode_bounded v max = Ok (b ++ [newline])%list ∧ json_write v = Ok b ∧
       json_read b = Some v ∧ json_read (b ++ [newline])%list = Some v ∧ (newline ∉ b) ∧
       len b ≤ text_bound v.
Proof.
  intros [Hp Hd] Hb. destruct (json_reads_back v Hp) as (b & Hw & Hr & Hr' & Hn); [lia|].
  pose proof (json_writes_within v b Hp Hw).
  exists b. unfold operations_encode_bounded. rewrite Hw. cbn [map_err]. split; [|done]. destruct (N.ltb_spec max (len (b ++ [newline])%list)) as [Hlt|];
    [|done]. unfold len in *. rewrite length_app in Hlt. simpl in Hlt. lia.
Qed.

(** The value a request line is answered with. *)
Definition operations_answer (frame : option bytes) (observer : OperationsObserver)
    (reply : result (result ConsumerGroupDirectory BrokerError) RuntimeError) : Value :=
  match frame with
  | None => operations_error_json "frame_too_large"
  | Some frame =>
      match parse_operations frame with
      | Ok request => operations_value request observer reply
      | Err code => operations_error_json code
      end
  end.

Lemma connection_answers_line observer reply max reader frame :
  4095 < max → word_observer observer → word_reply reply →
  (read_request_frame max reader []).1 =
    Ok match frame with Some f => FrameData f | None => FrameExceeds end →
  ∃ b, handle_operations_connection observer reply max reader = Ok (Some (b ++ [newline])%list) ∧
       json_write (operations_answer frame observer reply) = Ok b ∧
       json_read b = Some (operations_answer frame observer reply) ∧
       json_read (b ++ [newline])%list = Some (operations_answer frame observer reply) ∧
       sound 126 (operations_answer frame observer reply) ∧ (newline ∉ b) ∧ len b ≤ 4090.
Proof.
  intros Hm Ho Hr Hf.
  assert (sound 126 (operations_answer frame observer reply) ∧
    text_bound (operations_answer frame observer reply) ≤ 4090) as [Hs Hb].
  { assert (∀ code, string_bound code ≤ 60 → sound 126 (operations_error_json code) ∧
      text_bound (operations_error_json code) ≤ 4090) as He.
    { intros code Hc. destruct (error_value code Hc). split; [done|lia]. }
    destruct frame as [f|]; simpl; [|by apply He]. destruct (parse_operations f) eqn:Hp.
    - apply operations_value_fits; [by eapply parse_bounded|done..].
    - by eapply He, parse_error_short. }
  destruct (operations_encode_fits _ max Hs) as (b & He & Hw & Hrd & Hrl & Hn & Hlen); [lia|].
  exists b. split; [|split_and!; (done || lia)]. unfold handle_operations_connection. rewrite Hf.
  destruct frame as [f|]; cbn [operations_answer] in He; by rewrite He.
Qed.

Lemma connection_answers observer reply max reader frame :
  4095 < max → word_observer observer → word_reply reply →
  (read_request_frame max reader []).1 =
    Ok match frame with Some f => FrameData f | None => FrameExceeds end →
  ∃ b, handle_operations_connection observer reply max reader = Ok (Some (b ++ [newline])%list) ∧
       json_read b = Some (operations_answer frame observer reply) ∧ newline ∉ b.
Proof.
  intros Hm Ho Hr Hf. destruct (connection_answers_line _ _ _ _ _ Hm Ho Hr Hf)
    as (b & Hh & _ & Hj & _ & _ & Hn & _). by exists b.
Qed.
End answers.
