(* ===== verification/RouterProps.v ===== *)
(** * The router finds the leader

    The readiness report of a node's operations listener, as the router reads it,
    says that the node is ready exactly when it is ready for writes and leads the
    cluster; discovery returns a node only when it is the single ready one; and a
    command that is routed, over whatever changes of the leader, takes effect
    once. *)

From S2P Require Import Prelude Values Task Group Messages Machine Display Wire Words Sessions.
From S2P Require Import SessionsProps ApplyOnce Service Dispatch Json WireSchema WireV1 WireV1Props.
From S2P Require Import WireResponseProps WireVersions WireVersionsProps Runtime StateOwner Server.
From S2P Require Import SessionStore Client Durable Router ClusterNode ClientServer Operations.
From S2P Require Import OperationsProps.

(** ** Readiness *)

(** The node that made the report is the configured one, leads, and is ready. *)
Definition leads (node : StaticClusterNode) (b : BrokerServerLoad) (o : StateOwnerLoad)
    (c : ClusterRaftReadiness) : Prop :=
  os_write_ready (operations_snapshot b o c) = true ∧
  ∃ p, rd_progress c = Some p ∧ cp_node_id p = sn_node_id node ∧
    cp_current_leader p = Some (sn_node_id node).

Definition readiness_object (b : BrokerServerLoad) (o : StateOwnerLoad) (c : ClusterRaftReadiness) :
    Value := snapshot_json "readiness" (operations_snapshot b o c).

(** The members that the router reads. *)
Lemma readiness_members b o c :
  ∃ kvs, readiness_object b o c = VObject kvs ∧
    obj_get "schema_version" kvs = Some (VNumber OPERATIONS_SCHEMA_VERSION) ∧
    obj_get "operation" kvs = Some (VString "readiness") ∧
    obj_get "write_ready" kvs = Some (VBool (os_write_ready (operations_snapshot b o c))) ∧
    obj_get "live" kvs = Some (VBool (os_live (operations_snapshot b o c))) ∧
    obj_get "reason" kvs = Some (VString (reason_as_str (os_reason (operations_snapshot b o c)))) ∧
    obj_get "maintenance_authority" kvs =
      Some (VBool (os_maintenance_authority (operations_snapshot b o c))) ∧
    ∃ cons, obj_get "consensus" kvs = Some (VObject cons) ∧
      obj_get "status" cons = Some (VString (readiness_as_str (rd_status c))) ∧
      obj_get "write_ready" cons = Some (VBool (is_write_ready c)) ∧
      obj_get "progress" cons =
        Some match rd_progress c with Some p => progress_json p | None => VNull end.
Proof.
  unfold readiness_object, snapshot_json.
  change (os_consensus (operations_snapshot b o c)) with c.
  generalize (operations_snapshot b o c). intros s.
  generalize (match rd_progress c with Some p => progress_json p | None => VNull end). intros v.
  unfold object at 1. eexists. split; [reflexivity|]. cbn [foldl fst snd].
  repeat (split; [reflexivity|]). eexists. repeat (split; [reflexivity|]). reflexivity.
Qed.

Lemma progress_members p :
  ∃ kvs, progress_json p = VObject kvs ∧ obj_get "node_id" kvs = Some (VNumber (cp_node_id p)) ∧
    obj_get "current_leader" kvs = Some (opt_number (cp_current_leader p)).
Proof.
  unfold progress_json.
  generalize (VArray (VNumber <$> take MAX_REPORTED_MEMBERS (bset_iter (cp_voters p)))).
  generalize (VArray (VNumber <$> take MAX_REPORTED_MEMBERS (bset_iter (cp_learners p)))).
  intros learners voters. unfold object. eexists. split; [reflexivity|]. split; reflexivity.
Qed.

Definition misreport (node : StaticClusterNode) (r : result (option unit) StaticClusterRoutingError) :
    Prop := ∃ reason, r = Err (InvalidOperationsResponse (sn_node_id node) reason).

Lemma write_ready_parts b o c :
  let s := operations_snapshot b o c in
  os_write_ready s = true →
  os_live s = true ∧ os_reason s = ReasonReady ∧ rd_status c = RdReady ∧
  os_maintenance_authority s =
    match rd_progress c with
    | Some p => bool_decide (cp_current_leader p = Some (cp_node_id p))
    | None => false
    end.
Proof.
  cbn zeta. unfold operations_snapshot, is_write_ready.
  cbn [os_write_ready os_live os_reason os_maintenance_authority].
  destruct (bl_serving b), (rd_status c); cbn [negb]; try done. by destruct (_ <=? _).
Qed.

Lemma authority_verdict node b o c kvs :
  word_observer (ObserveCluster b o c) → os_write_ready (operations_snapshot b o c) = true →
  readiness_object b o c = VObject kvs →
  (leads node b o c → validate_authority node kvs = Ok (Some tt)) ∧
  (¬ leads node b o c → misreport node (validate_authority node kvs)).
Proof.
  intros [_ Hword] Hready Hobj.
  destruct (readiness_members b o c) as (kvs' & Hk & _ & _ & _ & Hlive & Hreason & Hauth & cons &
    Hcons & Hstatus & Hwr & Hprog). rewrite Hobj in Hk. injection Hk as <-.
  destruct (write_ready_parts b o c Hready) as (Hl & Hr & Hs & Ha).
  unfold validate_authority, get_bool, get_text, get_object.
  rewrite Hlive, Hreason, Hauth, Hcons, Hl, Hr, Ha.
  cbn [mbind option_bind as_bool as_string as_object reason_as_str ok_or].
  rewrite Hstatus, Hwr, Hprog. unfold is_write_ready. rewrite Hs.
  unfold leads. destruct (rd_progress c) as [p|]; cbn [from_option] in Hword.
  2: { split; [intros (_ & p & [=] & _)|]. intros _. by eexists. }
  destruct (progress_members p) as (pm & -> & Hnode & Hleader). unfold get_u64.
  cbn [mbind option_bind as_bool as_string as_object readiness_as_str ok_or].
  rewrite Hnode, Hleader. destruct Hword as (Hw & Ho & _). rewrite !Forall_cons in Hw. rewrite !Forall_cons in Ho.
  destruct Hw as (Hid & _). destruct Ho as (_ & _ & _ & _ & _ & Hlw & _).
  cbn [mbind option_bind]. rewrite as_u64_fits by done. cbn [ok_or].
  case_bool_decide as Hlead; cbn [negb orb].
  - rewrite !bool_decide_eq_true_2 by done. cbn [negb orb]. rewrite Hlead in *. cbn [opt_number].
    rewrite as_u64_fits by done. cbn [ok_or]. rewrite orb_diag.
    destruct (N.eqb_spec (cp_node_id p) (sn_node_id node)) as [He|He]; cbn [negb].
    + split; [done|]. intros Hn. destruct Hn. split; [done|]. exists p. by rewrite Hlead, He.
    + split; [intros (_ & p' & [= <-] & ? & _); done|]. intros _. by eexists.
  - split; [|by intros _; eexists].
    intros (_ & p' & [= <-] & Hn & Hcl). destruct Hlead. congruence.
Qed.

(** How the router takes the report of a node. *)
Lemma readiness_verdict node b o c :
  word_observer (ObserveCluster b o c) →
  let verdict := validate_readiness node (readiness_object b o c) in
  if os_write_ready (operations_snapshot b o c)
  then (leads node b o c → verdict = Ok (Some tt)) ∧ (¬ leads node b o c → misreport node verdict)
  else verdict = Ok None.
Proof.
  intros Hw. cbn zeta. destruct (readiness_members b o c) as (kvs & Hk & Hsv & Hop & Hwr & _).
  pose proof (authority_verdict node b o c kvs Hw) as Ha.
  rewrite Hk in *. unfold validate_readiness, get_u64, get_bool, get_text.
  cbn [as_object ok_or]. rewrite Hsv, Hop, Hwr. cbn [mbind option_bind as_string as_bool].
  change (as_u64 (VNumber OPERATIONS_SCHEMA_VERSION)) with (Some OPERATIONS_SCHEMA_VERSION).
  rewrite !bool_decide_eq_true_2 by done. cbn [negb orb ok_or].
  destruct (os_write_ready _); cbn [negb]; [by apply Ha|done].
Qed.

(** ** The request of the router and the report of the node *)

Definition readiness_request_tree : Value :=
  VObject [("schema_version", VNumber 1); ("operation", VString "readiness")].

Section report.
Context {J : SerdeJson} {L : SerdeJsonLaws J}.

Lemma readiness_request_parses f :
  json_read f = Some readiness_request_tree → parse_operations f = Ok OpsReadiness.
Proof. unfold parse_operations. by intros ->. Qed.

(** The operations listener answers the router's request with one line; read
    back in full, it is taken as the verdict on the node. *)
Lemma report_verdict node b o c reply max reader :
  4095 < max → word_observer (ObserveCluster b o c) → word_reply reply →
  json_read OPERATIONS_READINESS_REQUEST = Some readiness_request_tree →
  (read_request_frame max reader []).1 = Ok (FrameData OPERATIONS_READINESS_REQUEST) →
  ∃ f, handle_operations_connection (ObserveCluster b o c) reply max reader = Ok (Some f) ∧
    ∀ limit delivered, read_bounded_operations_frame limit delivered [] = Ok f →
      read_report node limit delivered = validate_readiness node (readiness_object b o c).
Proof.
  intros Hm Ho Hr Hj Hread.
  destruct (connection_answers_line (ObserveCluster b o c) reply max reader
    (Some OPERATIONS_READINESS_REQUEST)) as (f & Hh & _ & _ & Hf & [Hp _] & _); [done..|].
  cbn [operations_answer] in Hf, Hp. rewrite (readiness_request_parses _ Hj) in Hf, Hp.
  cbn [operations_value] in Hf, Hp. fold (readiness_object b o c) in Hf, Hp.
  eexists. split; [exact Hh|]. intros limit delivered Hd. unfold read_report. rewrite Hd.
  unfold from_slice, as_value. rewrite Hf, to_value_plain by done. done.
Qed.
End report.

(** ** Discovery *)

Section discovery.
Context {J : SerdeJson} {W : Type} {Net : Network W}.

(** The nodes were asked in order and each answered as listed. *)
Fixpoint surveyed (max : N) (nodes : list StaticClusterNode) (w : W) (found : list bool) (w' : W) :
    Prop :=
  match nodes, found with
  | [], [] => w' = w
  | node :: nodes, ready :: found => ∃ w1,
      probe_operations node max w = (Ok (if ready then Some tt else None), w1) ∧
      surveyed max nodes w1 found w'
  | _, _ => False
  end.

Definition ready_nodes (nodes : list StaticClusterNode) (found : list bool) :
    list StaticClusterNode :=
  (List.filter (λ x, x.2) (zip nodes found)).*1.

Lemma probe_nodes_survey max nodes ready w res w' :
  probe_nodes max nodes ready w = (Ok res, w') →
  ∃ found, surveyed max nodes w found w' ∧ res = (ready ++ ready_nodes nodes found)%list.
Proof.
  revert ready w. induction nodes as [|node nodes IH]; intros ready w; cbn [probe_nodes].
  { intros [= <- <-]. exists []. by rewrite app_nil_r. }
  destruct (probe_operations node max w) as [[f|e] w1] eqn:Hp; [|done].
  intros (found & Hs & ->)%IH. exists (match f with Some _ => true | None => false end :: found).
  destruct f as [[]|]; (split; [by exists w1|]); cbn; [|done]. by rewrite <-app_assoc.
Qed.

(** A leader that is found is the only node that reported itself ready. *)
Lemma discovery_outcome c w leader w' :
  discover_write_leader c w = (Ok leader, w') →
  ∃ found, surveyed (sr_max_response_frame_bytes c) (sr_nodes c) w found w' ∧
    ready_nodes (sr_nodes c) found = [leader].
Proof.
  unfold discover_write_leader. destruct (probe_nodes _ _ _ w) as [[ready|e] w1] eqn:Hp; [|done].
  apply probe_nodes_survey in Hp as (found & Hs & ->). cbn [app].
  destruct (ready_nodes (sr_nodes c) found) as [|n [|]] eqn:Hn; try done. intros [= <- <-].
  by exists found.
Qed.
End discovery.

(** ** Routing *)

Section routing.
Context {J : SerdeJson} {L : SerdeJsonLaws J} {W : Type} {Net : Network W} {Srv : SessionNetwork W}.

Lemma probe_evolves node max w : evolves (sn_machine w) (sn_machine (probe_operations node max w).2).
Proof.
  unfold probe_operations. pose proof (sn_connects (sn_operations_address node) w) as H1.
  destruct (nw_connect _ w) as [[u|] w1]; [|done]. cbn [snd] in H1.
  pose proof (sn_sends OPERATIONS_READINESS_REQUEST w1) as H2.
  destruct (nw_send _ w1) as [[r|] w2]; exact (evolves_trans _ _ _ H1 H2).
Qed.

Lemma discovery_evolves c w :
  evolves (sn_machine w) (sn_machine (discover_write_leader c w).2).
Proof.
  unfold discover_write_leader.
  assert (∀ nodes ready w, evolves (sn_machine w)
    (sn_machine (probe_nodes (sr_max_response_frame_bytes c) nodes ready w).2)) as Hp.
  { induction nodes as [|node nodes IH]; intros ready w0; [apply evolves_refl|].
    cbn [probe_nodes]. pose proof (probe_evolves node (sr_max_response_frame_bytes c) w0) as H1.
    destruct (probe_operations node _ w0) as [[f|] w1]; [|done].
    exact (evolves_trans _ _ _ H1 (IH _ w1)). }
  specialize (Hp (sr_nodes c) [] w). by destruct (probe_nodes _ _ _ w) as [[]].
Qed.

(** What routing an owner-aware mutation comes to. *)
Definition routed_outcome (i : CommandIdentity) (request : BrokerRequest)
    (res : result SuccessPayload StaticClusterRoutingError) (m m' : SessionMachine) : Prop :=
  match res with
  | Ok payload => settled i request (Ok payload) m m'
  | Err (RoutingClient (Broker e)) => be_disposition e = DispCommitted →
      settled i request (Err e) m m'
  | _ => True
  end.

Lemma probe_error node max w e w' :
  probe_operations node max w = (Err e, w') → misreport node (Err e).
Proof.
  unfold probe_operations, read_report, validate_readiness, validate_authority, misreport, map_err,
    ok_or.
  intros H. repeat case_match; simplify_eq; eauto.
Qed.

Lemma discovery_error c w e w' :
  discover_write_leader c w = (Err e, w') → match e with RoutingClient _ => False | _ => True end.
Proof.
  unfold discover_write_leader.
  assert (∀ nodes ready w w', probe_nodes (sr_max_response_frame_bytes c) nodes ready w = (Err e, w') →
    ∃ node, misreport node (Err e)) as Hp.
  { induction nodes as [|node nodes IH]; intros ready w0 w0'; [done|]. cbn [probe_nodes].
    destruct (probe_operations node _ w0) as [[f|e0] w1] eqn:Hp; [apply IH|].
    intros [= -> _]. exists node. by eapply probe_error. }
  destruct (probe_nodes _ _ _ w) as [[ready|e0] w1] eqn:Hn.
  - unfold single_leader. destruct ready as [|? [|]]; by intros [= <- _].
  - intros [= -> _]. apply Hp in Hn as (node & reason & [= ->]). done.
Qed.

Lemma validate_client_outcome config r :
  validate_client config = r →
  match r with Ok config' => config' = config | Err (Protocol _) => True | Err _ => False end.
Proof. unfold validate_client. intros <-. repeat case_match; by simplify_eq. Qed.

(** One attempt on the leader that was found. *)
Lemma send_outcome c leader i request f w res w' :
  valid_owned i request → sr_max_response_frame_bytes c = sn_limit →
  encode_owner_mutation_request_with_limit (MkOwnerIdentified i request) sn_limit = Ok f →
  send_to_leader c leader f (λ response, map_err response_error_to_client
    (decode_owner_mutation_response_with_limit response (request_request_id request)
       (request_operation request) sn_limit)) w = (res, w') →
  evolves (sn_machine w) (sn_machine w') ∧
  match res with
  | Ok (Ok payload) => ∃ m, evolves (sn_machine w) m ∧ settled i request (Ok payload) m (sn_machine w')
  | Ok (Err (Broker e)) => be_disposition e = DispCommitted →
      ∃ m, evolves (sn_machine w) m ∧ settled i request (Err e) m (sn_machine w')
  | Err (RoutingClient (Broker _)) => False
  | _ => True
  end.
Proof.
  intros Hv Hlim Hf. unfold send_to_leader, BrokerClient_new.
  destruct (validate_client _) as [cfg|e] eqn:Hc; apply validate_client_outcome in Hc; cbn [map_err].
  2: { intros [= <- <-]. split; [apply evolves_refl|]. by destruct e. }
  subst cfg. destruct (round_trip_frame f _) as [r [c1 w1]] eqn:Hrt.
  apply round_trip_outcome in Hrt as (_ & Hev & Hr);
    [|intros; by eapply (sn_answers i request f)|by split].
  cbn [fst snd] in *. intros [= <- <-]. split; [done|].
  destruct r as [line|e]; [|by destruct e]. destruct Hr as (w0 & reads & rest & Hev0 & Hsend & Hread).
  destruct (sn_answers i request f w0 reads w1 line rest Hv Hf Hsend Hread) as [_ Hans].
  destruct (decode_owner_mutation_response_with_limit _ _ _ _) as [payload|[e|e]]; cbn; eauto.
Qed.

Lemma route_exact_outcome c i request f n w res w' m :
  valid_owned i request → sr_max_response_frame_bytes c = sn_limit →
  encode_owner_mutation_request_with_limit (MkOwnerIdentified i request) sn_limit = Ok f →
  evolves m (sn_machine w) →
  route_exact_frame c f (λ response, map_err response_error_to_client
    (decode_owner_mutation_response_with_limit response (request_request_id request)
       (request_operation request) sn_limit)) n w = (res, w') →
  evolves m (sn_machine w') ∧ routed_outcome i request res m (sn_machine w').
Proof.
  intros Hv Hlim Hf. revert w. induction n as [|n IH]; intros w Hm; cbn [route_exact_frame];
    [by intros [= <- <-]|].
  pose proof (discovery_evolves c w) as H1.
  destruct (discover_write_leader c w) as [[leader|e] w1] eqn:Hdisc; cbn [snd] in H1;
    pose proof (evolves_trans _ _ _ Hm H1) as Hm1.
  2: { intros [= <- <-]. split; [done|]. apply discovery_error in Hdisc. by destruct e. }
  destruct (send_to_leader c leader f _ w1) as [outcome w2] eqn:Hsend.
  apply (send_outcome c leader i request f) in Hsend as [H2 Hout]; [|done..].
  pose proof (evolves_trans _ _ _ Hm1 H2) as Hm2.
  assert (∀ answer, (∃ m0, evolves (sn_machine w1) m0 ∧ settled i request answer m0 (sn_machine w2)) →
    settled i request answer m (sn_machine w2)) as Hset.
  { intros answer (m0 & He & Hs).
    exact (settled_between _ _ _ _ _ _ _ (evolves_trans _ _ _ Hm1 He) Hs (evolves_refl _)). }
  destruct outcome as [[payload|e]|e].
  - intros [= <- <-]. split; [done|]. by apply Hset.
  - destruct (should_rediscover e && negb (Nat.eqb n 0)); [by apply IH|]. intros [= <- <-].
    split; [done|]. destruct e; try done. cbn. intros Hd. by apply Hset, Hout.
  - intros [= <- <-]. split; [done|]. by destruct e as [| | | |[]].
Qed.

Lemma router_outcome i request r w res w' m :
  valid_owned i request → sr_max_response_frame_bytes (sr_config r) = sn_limit →
  evolves m (sn_machine w) → router_execute_owned i request r w = (res, w') →
  evolves m (sn_machine w') ∧ routed_outcome i request res m (sn_machine w').
Proof.
  intros Hv Hlim Hm. unfold router_execute_owned. rewrite Hlim.
  destruct (OwnerIdentified_new i request) as [owned|] eqn:Hown; [|by intros [= <- <-]].
  assert (owned = MkOwnerIdentified i request) as ->.
  { unfold OwnerIdentified_new in Hown. repeat case_match; by simplify_eq. }
  cbn [map_err]. destruct (encode_owner_mutation_request_with_limit _ _) as [f|] eqn:Hf;
    [|by intros [= <- <-]]. cbn [map_err]. by apply route_exact_outcome.
Qed.
End routing.

(** ** A site: the operations listeners beside the broker *)

(** The answers of an operations listener are of another protocol. *)
Definition foreign_tree (value : Value) : Prop :=
  ∃ kvs v, value = VObject kvs ∧ obj_get "schema_version" kvs = Some v ∧ obj_get "version" kvs = None.

Ltac foreign := unfold object at 1; eexists _, _; split_and!; reflexivity.

Lemma operations_answer_foreign {J : SerdeJson} frame observer reply :
  foreign_tree (operations_answer frame observer reply).
Proof.
  assert (∀ code, foreign_tree (operations_error_json code)) as He.
  { intros code. unfold operations_error_json. foreign. }
  assert (∀ op, foreign_tree match observer with
      | ObserveCluster b o c => snapshot_json op (operations_snapshot b o c)
      | ObserveStandalone _ => operations_error_json "unsupported_operation_for_topology"
      end) as Hs.
  { intros op. destruct observer as [b o c|b]; [|apply He]. unfold snapshot_json. foreign. }
  assert (∀ build, (∀ d, foreign_tree (build d)) → foreign_tree (group_directory_value reply build))
    as Hd.
  { intros build Hb. unfold group_directory_value. destruct reply as [[d|e]|[]]; auto. }
  unfold operations_answer. destruct frame as [f|]; [|apply He].
  destruct (parse_operations f) as [[| | |id|after limit]|code]; [..|apply He]; cbn [operations_value].
  - foreign.
  - apply Hs.
  - apply Hs.
  - apply Hd. intros d. unfold describe_group_json. destruct (Directory_group id d); [|apply He].
    foreign.
  - apply Hd. intros d. unfold group_page_json. destruct (group_page d after limit) as [page next].
    foreign.
Qed.

(** What an observer reads has the width of its fields. *)
Definition TypedObserver := {o : OperationsObserver | word_observer o}.

(** The broker of the leader behind its address, operations listeners behind
    theirs, and the listener that the last connection reached, if not the
    broker. *)
Record Site (R : Type) := MkSite {
  st_world : ClusterWorld R;
  st_broker : SocketAddr;
  st_operations : list (SocketAddr * TypedObserver);
  st_target : option TypedObserver;
}.
Arguments MkSite {R} _ _ _ _.
Arguments st_world {R} _.
Arguments st_broker {R} _.
Arguments st_operations {R} _.
Arguments st_target {R} _.

Section site.
Context {J : SerdeJson} {L : SerdeJsonLaws J} {R : Type} {E : RaftEngine R} {Lg : EngineLog R}.
Context (max : N).

Definition retarget (s : Site R) (w : ClusterWorld R) (target : option TypedObserver) : Site R :=
  MkSite w (st_broker s) (st_operations s) target.

Definition listener_at (a : SocketAddr) (s : Site R) : option TypedObserver :=
  snd <$> List.find (λ x, bool_decide (x.1 = a)) (st_operations s).

Definition listener_reply (o : TypedObserver) (frame : bytes) : list (result bytes string) :=
  match handle_operations_connection (proj1_sig o) (Err StateOwnerStopped)
          OPERATIONS_DEFAULT_MAX_FRAME_BYTES [Ok frame] with
  | Ok (Some reply) => [Ok reply]
  | _ => []
  end.

Definition site_network : Network (Site R) := {|
  nw_connect a s :=
    if bool_decide (a = st_broker s) then
      let '(r, w) := nw_connect (Network := cluster_network max) a (st_world s) in
      (r, retarget s w None)
    else match listener_at a s with
         | Some o => (Ok tt, retarget s (st_world s) (Some o))
         | None => (Err "connection refused", s)
         end;
  nw_send frame s :=
    match st_target s with
    | Some o => (Ok (listener_reply o frame), s)
    | None =>
        let '(r, w) := nw_send (Network := cluster_network max) frame (st_world s) in
        (r, retarget s w None)
    end;
|}.

Lemma listener_reply_line o frame :
  listener_reply o frame = [] ∨
  ∃ line, listener_reply o frame = [Ok line] ∧ is_line line ∧ foreign_line line.
Proof.
  unfold listener_reply. set (max0 := OPERATIONS_DEFAULT_MAX_FRAME_BYTES).
  assert (∀ f, (read_request_frame max0 [Ok frame] []).1 =
      Ok match f with Some f => FrameData f | None => FrameExceeds end →
    ∃ line, handle_operations_connection (proj1_sig o) (Err StateOwnerStopped) max0 [Ok frame] =
      Ok (Some line) ∧ is_line line ∧ foreign_line line) as Hline.
  { intros f Hr. destruct (connection_answers_line (proj1_sig o) (Err StateOwnerStopped) max0
      [Ok frame] f) as (b & -> & Hw & _ & Hj & [Hp Hd] & Hn & _); [done|apply (proj2_sig o)|done..|].
    eexists. split; [done|]. split; [by exists b|].
    destruct (operations_answer_foreign f (proj1_sig o) (Err StateOwnerStopped))
      as (kvs & v & Hv & Hs & Hver). rewrite Hv in *.
    exists kvs, v. split_and!; [by exists b|done..|lia|done|done]. }
  destruct ((read_request_frame max0 [Ok frame] []).1) as [[|f|]|] eqn:Hr.
  - left. unfold handle_operations_connection. by rewrite Hr.
  - right. destruct (Hline (Some f) eq_refl) as (line & -> & ? & ?). eauto.
  - right. destruct (Hline None eq_refl) as (line & -> & ? & ?). eauto.
  - left. unfold handle_operations_connection. by rewrite Hr.
Qed.

#[export] Program Instance site_sessions : @SessionNetwork J (Site R) site_network := {|
  sn_machine s := service_machine (cw_service (st_world s));
  sn_limit := max;
|}.
Next Obligation.
  intros a s. cbn [nw_connect site_network cluster_network]. case_bool_decide; [apply evolves_refl|].
  destruct (listener_at a s); apply evolves_refl.
Qed.
Next Obligation.
  intros f s. cbn [nw_send site_network]. destruct (st_target s) as [o|] eqn:Ht; [apply evolves_refl|].
  pose proof (sn_sends (SessionNetwork := cluster_sessions max) f (st_world s)) as H.
  by destruct (nw_send (Network := cluster_network max) f (st_world s)).
Qed.
Next Obligation.
  intros i request f s reads s' line rest Hv Hf. cbn [nw_send site_network].
  destruct (st_target s) as [o|].
  - intros [= <- <-] Hread. destruct (listener_reply_line o f) as [Hnil|(l & Hl & Hline & Hj)].
    { by rewrite Hnil in Hread. }
    rewrite Hl in Hread.
    assert (reader_of (cut [length l] l) None = [Ok l]) as Hcut.
    { unfold reader_of. cbn. by rewrite firstn_all. }
    rewrite <-Hcut in Hread. apply (read_cut_line max _ None []) in Hread as [-> Hq];
      [|done|apply not_elem_of_nil].
    split; [done|]. by left.
  - destruct (nw_send (Network := cluster_network max) f (st_world s)) as [r w] eqn:Hs. intros [= -> <-] Hread.
    exact (sn_responds (SessionNetwork := cluster_sessions max) i request f (st_world s) reads w line
      rest Hv Hf Hs Hread).
Qed.
End site.
