(* ===== verification/Serving.v ===== *)
(** * What the wire protocol and a running server guarantee

    The main theorems about the three versions of the protocol, for every JSON
    implementation with the laws of [SerdeJsonLaws], and about a connection, the
    dispatcher, the state owner and the listener, each with a concrete instance,
    and two behaviours of the response limits that a client would not expect. *)

From stdpp Require Import relations.
From S2P Require Import Prelude Values Task Group Messages Machine Recovery Spec Invariant Effect.
From S2P Require Import Broker Scenarios Valid Display Wire Journal Repository Standalone.
From S2P Require Import Durability Service Dispatch DispatchProps Json WireSchema WireV1.
From S2P Require Import WireV1Props Words WireResponseProps WireVersions Runtime StateOwner.
From S2P Require Import ErrorTexts Server JsonText EndToEnd Sessions WireVersionsProps.

(** ** Requests *)


(** A claim of thirty seconds. *)
Definition sample_claim : BrokerRequest := ReqClaimTask {|
  qc_request_id := "req-1"; qc_group_id := "ga"; qc_member_id := "m1"; qc_expected_term := 1;
  qc_expected_generation := 1; qc_lease_id := "l1"; qc_lease_duration := 30000 |}.



(** C27: whatever bytes arrive, a request that is decoded from them satisfies
    every rule of the input types: identifiers, texts, capabilities, positive
    terms and epochs, lease durations in range, 64-bit numbers; and its frame
    was within the limit. *)
Theorem decoded_requests_are_valid (J : SerdeJson) f max r :
  decode_wire_request_with_limit f max = Ok r → valid_wire_request r ∧ len f ≤ max.
Proof. apply wire_request_valid. Qed.

Definition sample_frame : bytes :=
  match encode_request_with_limit sample_claim 4096 with Ok f => f | Err _ => [] end.

Lemma decoded_requests_are_valid_witness :
  valid_wire_request (WireV1 sample_claim) ∧ len sample_frame ≤ 4096.
Proof. apply (decoded_requests_are_valid text_json). by vm_compute. Defined.

(** ** Responses *)

(** What the client reads of the frame of a response.  A text above the bound of
    4 KiB is refused by the encoder; otherwise there is a frame, or it would be
    above the limit. *)
Definition read_by {A} (decode : bytes → A) (max : N) (response : BrokerResponse)
    (frame : result bytes ProtocolCodecError) (expected : A) : Prop :=
  if str_len (error_text response) <=? MAX_ERROR_MESSAGE_BYTES then
    match frame with
    | Ok f => decode f = expected
    | Err e => ∃ n, e = FrameTooLarge n max ∧ max < n
    end
  else frame = Err (text_refused response).

(** The answer to an owner acquisition, and what its client is given. *)
Definition acquisition_response (id : RequestId) (answer : result SessionOwnerEpoch ErrorPayload) :
    BrokerResponse :=
  match answer with
  | Ok epoch => ResponseSuccess id (SSessionOwnerAcquired epoch)
  | Err e => ResponseError id e
  end.

Definition delivered_epoch (answer : result SessionOwnerEpoch ErrorPayload) :
    result SessionOwnerEpoch ResponseDecodeError :=
  map_err (λ e, RdBroker {| be_code := ep_code e; be_message := ep_message e;
                            be_disposition := ep_disposition e |}) answer.

(** C16: the client that sent a request decodes from the response frame exactly
    the result or the error that the server encoded.  In each of the three
    versions this holds for every payload of the operation with valid values (terms
    and revisions of 64 bits, identifiers, a whole lease or none) and for every
    error; version three keeps the disposition of an error as well.
    It holds also for the answer to an owner acquisition in version three, the
    granted epoch or the error, under a valid request id.  Two responses have no
    frame: an error with a text above 4 KiB, which every encoder refuses with
    [ErrorMessageTooLarge], and otherwise a frame above the limit. *)
Theorem responses_roundtrip (J : SerdeJson) (L : SerdeJsonLaws J) max :
  (∀ o response, proper_response o response →
     let id := response_request_id response in
     read_by (λ f, decode_response_for_operation_with_limit f id o max) max response
       (encode_response_with_limit response max) (delivered response) ∧
     read_by (λ f, decode_response_v2_for_operation_with_limit f id o max) max response
       (encode_response_v2_with_limit response max) (delivered response) ∧
     read_by (λ f, decode_owner_mutation_response_with_limit f id o max) max response
       (encode_response_v3_with_limit response max) (delivered_v3 response)) ∧
  (∀ id answer, valid_request_id id → (∀ epoch, answer = Ok epoch → positive_word epoch) →
     let response := acquisition_response id answer in
     read_by (λ f, decode_owner_acquisition_response_with_limit f id max) max response
       (encode_response_v3_with_limit response max) (delivered_epoch answer)).
Proof.
  split.
  - intros o response Hp id. unfold read_by.
    destruct (N.leb_spec (str_len (error_text response)) MAX_ERROR_MESSAGE_BYTES) as [Hm|Hm].
    2: { split_and!; [by apply long_text_refused|by apply long_text_refused_v2|by apply long_text_refused_v3]. }
    pose proof (proper_valid o response Hp Hm) as Hv. split_and!.
    + pose proof (encode_response_spec o response max Hv) as H.
      by destruct (encode_response_with_limit response max) as [f|e]; [destruct H as (_ & _ & H)|].
    + by apply response_v2_reads_back.
    + by apply response_v3_reads_back.
  - intros id answer Hid Ha response. unfold read_by.
    destruct (N.leb_spec (str_len (error_text response)) MAX_ERROR_MESSAGE_BYTES) as [Hm|Hm].
    2: { by apply long_text_refused_v3. }
    unfold response in *. destruct answer as [epoch|e].
    + apply acquisition_reads_back; [done|by apply Ha].
    + by apply acquisition_error_reads_back.
Qed.

Definition sample_response : BrokerResponse :=
  ResponseSuccess "req-1" (STaskClaimed 1 7 (Some "t1") (Some "write the report") (Some 7)
    (Some "l1") (Some 1) (Some 31000) 1).

Lemma sample_response_valid : valid_response OpClaimTask sample_response.
Proof. vm_compute. repeat split; by (done || discriminate). Qed.

Lemma responses_roundtrip_witness :
  (let id := response_request_id sample_response in
   read_by (λ f, decode_response_for_operation_with_limit f id OpClaimTask 4096) 4096 sample_response
     (encode_response_with_limit sample_response 4096) (delivered sample_response) ∧
   read_by (λ f, decode_response_v2_for_operation_with_limit f id OpClaimTask 4096) 4096 sample_response
     (encode_response_v2_with_limit sample_response 4096) (delivered sample_response) ∧
   read_by (λ f, decode_owner_mutation_response_with_limit f id OpClaimTask 4096) 4096 sample_response
     (encode_response_v3_with_limit sample_response 4096) (delivered_v3 sample_response)) ∧
  read_by (λ f, decode_owner_acquisition_response_with_limit f "req-2" 4096) 4096
    (acquisition_response "req-2" (Ok 3))
    (encode_response_v3_with_limit (acquisition_response "req-2" (Ok 3)) 4096) (Ok 3).
Proof.
  destruct (responses_roundtrip text_json text_json_laws 4096) as [Hr Ha]. split.
  - apply (Hr OpClaimTask sample_response). apply sample_response_valid.
  - apply (Ha "req-2" (Ok 3)); [by vm_compute|]. intros epoch [= <-]. by vm_compute.
Defined.

(** Under the default frame limit, or a larger one, every response the
    protocol admits has a frame: a task objective of full length made of
    characters that take six bytes each still fits. *)
Theorem responses_fit_default_frame (J : SerdeJson) (L : SerdeJsonLaws J) o response max :
  valid_response o response → valid_request_id (response_request_id response) →
  DEFAULT_MAX_FRAME_BYTES ≤ max → ∃ f, encode_response_with_limit response max = Ok f ∧ len f ≤ max.
Proof.
  intros Hv Hid Hm. destruct (response_fits o response max Hv Hid Hm) as [f Hf]. exists f.
  split; [done|]. pose proof (encode_response_spec o response max Hv) as H. rewrite Hf in H. by destruct H.
Qed.

Lemma responses_fit_default_frame_witness :
  ∃ f, encode_response_with_limit sample_response DEFAULT_MAX_FRAME_BYTES = Ok f ∧
       len f ≤ DEFAULT_MAX_FRAME_BYTES.
Proof.
  apply (responses_fit_default_frame text_json text_json_laws OpClaimTask);
    [apply sample_response_valid|by vm_compute|done].
Defined.

(** ** A broker on an empty disk *)

Definition first_start : result StandaloneConsensusAdapter BrokerError * Disk :=
  Standalone_new None default_repository (MkDisk None None).

Definition fresh_node : StandaloneNode :=
  match first_start with
  | (Ok a, d) => MkStandaloneNode a d []
  | (Err _, d) => MkStandaloneNode (MkAdapter default_repository BrokerStateMachine_default true) d []
  end.

Definition fresh_service : BrokerApplicationService StandaloneNode :=
  MkService fresh_node BrokerCapacityPolicy_default.

Lemma fresh_node_ok : node_ok fresh_service.
Proof.
  assert (recoverable (MkDisk None None) BrokerState_default) as Hrec
    by (exists []; apply empty_disk_holds).
  pose proof (restart_spec None default_repository _ _ Hrec) as Hs.
  unfold fresh_service, fresh_node, first_start.
  destruct (Standalone_new None default_repository (MkDisk None None)) as [[a|e] d];
    [|by destruct Hs].
  destruct Hs as (Hi & Hst & Hp & Hh). split.
  - split; simpl; [done|]. intros _. by rewrite Hst.
  - unfold node_state, wire_sound. cbn. rewrite Hst.
    destruct (recoverable_state _ _ Hrec) as [HS HV]. split_and!; [done..|].
    constructor; by (apply map_Forall_empty || vm_compute).
  - by vm_compute.
Qed.

(** ** A connection *)

(** C4: a client of the standalone broker that sends version-one requests over
    one connection, cut into buffers in any way, gets its answers.  The requests
    are orderly: valid, at times of 64 bits, each with a command that is
    admissible for the broker when its turn comes and whose journal record fits.
    Then the connection returns, and the frames written decode, for the requests
    in order, to the answers of the specified broker, each performed on the state
    the previous one left, except that a failure of the adapter may take the place
    of an answer, with the state before or after it.  The conversation ends early
    only at an answer that cannot be encoded: above the frame limit, or, with the
    default limit or a larger one, a failure of the adapter with a text above
    4 KiB. *)
Theorem client_gets_specified_answers (J : JsonCodec) (LJ : JsonLaws J) (S : SerdeJson)
    (LS : SerdeJsonLaws S) max (s : BrokerApplicationService StandaloneNode) requests times frames
    chunks fuel :
  node_ok s → orderly requests times s →
  Forall2 (λ r f, encode_request_with_limit r max = Ok f) requests frames →
  Forall (λ c, c ≠ []) chunks → concat chunks = concat frames →
  (length requests < fuel)%nat →
  ∃ r w, handle_connection standalone_env max fuel (reader_of chunks None)
           (MkServer s (map Some times) []) = Some (r, w) ∧
    node_ok (sv_service w) ∧
    conversed max (svc_capacity s) requests times (sv_out w) (node_state s)
      (node_state (sv_service w)) r.
Proof. apply connection_conversation. Qed.

Definition hello : list BrokerRequest := [
  ReqHealth {| qq_request_id := "r1" |};
  ReqEnsureNamespace {| qn_request_id := "r2"; qn_namespace_id := "a" |}].

Definition frame_of (r : BrokerRequest) : bytes :=
  match encode_request_with_limit r 4096 with Ok f => f | Err _ => [] end.

(** The two frames, cut after the tenth byte. *)
Definition hello_chunks : list bytes :=
  let b := concat (map frame_of hello) in [take 10 b; drop 10 b].

(** [orderly], evaluated. *)
Definition fits_now (r : BrokerRequest) (t : TimestampMs)
    (s : BrokerApplicationService StandaloneNode) : Prop :=
  match request_command (svc_capacity s) r t with
  | Ok (Some cmd) => proposal_ok cmd (sn_adapter (svc_consensus s)) (sn_disk (svc_consensus s))
  | _ => True
  end.

#[export] Instance fits_now_dec r t s : Decision (fits_now r t s).
Proof.
  unfold fits_now, proposal_ok. destruct (request_command _ _ _) as [[cmd|]|]; apply _.
Defined.

Lemma fits_now_ok r t s : fits_now r t s → request_fits r t s.
Proof. unfold fits_now, request_fits. intros H cmd Hc. by rewrite Hc in H. Qed.

Lemma hello_orderly : orderly hello [1; 2] fresh_service.
Proof.
  unfold hello, orderly. split_and!;
    [by vm_compute|by vm_compute|apply fits_now_ok; by_compute|
     by vm_compute|by vm_compute|apply fits_now_ok; by_compute|done].
Qed.

Lemma client_gets_specified_answers_witness :
  ∃ r w, handle_connection standalone_env 4096 3 (reader_of hello_chunks None)
           (MkServer fresh_service (map Some [1; 2]) []) = Some (r, w) ∧
    node_ok (sv_service w) ∧
    conversed 4096 BrokerCapacityPolicy_default hello [1; 2] (sv_out w) (node_state fresh_service)
      (node_state (sv_service w)) r.
Proof.
  apply (client_gets_specified_answers digit_codec digit_laws text_json text_json_laws 4096
    fresh_service hello [1; 2] (map frame_of hello));
    [apply fresh_node_ok|apply hello_orderly|by repeat constructor|by repeat constructor|
     by vm_compute|simpl; lia].
Defined.

(** A connection always returns, whatever the client sends and however the
    network cuts the stream: with more fuel than there are lines, the loop does
    exactly what the line-by-line reference does, which handles each line once
    in order and stops at the first line above the limit, at a failed answer, or
    at the end of the stream. *)
Theorem connection_returns_whatever_the_chunks (S : SerdeJson) {W} (env : ConnectionEnv W) max fuel
    chunks ending s :
  Forall (λ c, c ≠ []) chunks → (length (fst (lines (concat chunks))) < fuel)%nat →
  handle_connection env max fuel (reader_of chunks ending) s =
    let '(ls, tail) := lines (concat chunks) in Some (serve_lines env max ls tail ending s).
Proof. apply connection_serves_lines. Qed.

Lemma connection_returns_whatever_the_chunks_witness :
  handle_connection standalone_env 4096 3 (reader_of hello_chunks (Some "connection reset"))
    (MkServer fresh_service (map Some [1; 2]) []) =
    let '(ls, tail) := lines (concat hello_chunks) in
    Some (serve_lines standalone_env 4096 ls tail (Some "connection reset")
            (MkServer fresh_service (map Some [1; 2]) [])).
Proof.
  apply (connection_returns_whatever_the_chunks text_json); [by repeat constructor|].
  apply Nat.ltb_lt. by vm_compute.
Defined.

(** ** The dispatcher *)

(** Over any consensus adapter that keeps its promise, dispatching a request
    performs exactly the command the request stands for, with the service's
    capacity policy and the given time, and hands back the answer; a health
    probe reports the term and revision and changes nothing; a capability list
    that does not normalize is refused without reaching the adapter; and a
    success has the variant of the operation. *)
Theorem dispatch_performs_the_request (C : Type) (A : ConsensusAdapter C) (L : AdapterLaws C)
    request t (s : BrokerApplicationService C) :
  al_inv (svc_consensus s) →
  (∀ cmd, request_command (svc_capacity s) request t = Ok (Some cmd) →
     al_fit cmd (svc_consensus s)) →
  let '(res, s') := dispatch request t s in
  dispatch_spec request t s res s' ∧
  (∀ d, res = Ok d → answers_operation (request_operation request) (success_of_dispatch d)).
Proof.
  intros Hi Hf. pose proof (dispatch_meets_spec request t s Hi Hf) as Hd.
  destruct (dispatch request t s) as [res s']. split; [done|]. intros d ->.
  by eapply dispatch_answers_operation.
Qed.

Lemma dispatch_performs_the_request_witness :
  let '(res, s') := dispatch (ReqEnsureNamespace {| qn_request_id := "r2"; qn_namespace_id := "a" |})
                      2 fresh_service in
  dispatch_spec (ReqEnsureNamespace {| qn_request_id := "r2"; qn_namespace_id := "a" |}) 2
    fresh_service res s' ∧
  (∀ d, res = Ok d → answers_operation OpEnsureNamespace (success_of_dispatch d)).
Proof.
  apply (dispatch_performs_the_request StandaloneNode standalone_consensus standalone_laws);
    [apply (no_inv _ fresh_node_ok)|apply fits_now_ok; by_compute].
Defined.

(** ** The state owner *)

(** C20: whatever threads submit jobs and however their steps interleave with
    the owner's, the owner serves the jobs one at a time in the order the queue
    accepted them: the replies and the service are those of running that list
    of jobs alone; every accepted job is answered, in hand or queued; and the
    queue never exceeds its capacity. *)
Theorem state_owner_serializes (C : Type) (A : ConsensusAdapter C) capacity
    (s0 : BrokerApplicationService C) o :
  rtc (owner_step capacity) (owner_start s0) o →
  so_sent o = (map fst (so_log o) ++ in_hand (so_phase o) ++ so_queue o)%list ∧
  serve_all (map fst (so_log o)) s0 = (so_log o, so_service o) ∧ len (so_queue o) ≤ capacity.
Proof. by intros [Ho Hs Hb _ _]%owner_reachable_ok. Qed.

(** Two threads announce a job each, the second is accepted first. *)
Definition two_jobs : OwnerState (C := StandaloneNode) :=
  MkOwner [JobMaintenance StandaloneMaintenancePolicy_default 5] 2 0 [Announced JobGroupDirectory] Waiting
    fresh_service [JobMaintenance StandaloneMaintenancePolicy_default 5] [].

Lemma two_jobs_reachable : rtc (owner_step 1) (owner_start fresh_service) two_jobs.
Proof.
  eapply rtc_l; [apply (step_announce 1 JobGroupDirectory)|].
  eapply rtc_l; [apply (step_announce 1 (JobMaintenance StandaloneMaintenancePolicy_default 5))|].
  eapply rtc_l; [|apply rtc_refl].
  apply (step_send 1 (JobMaintenance StandaloneMaintenancePolicy_default 5) [] 2 0
    [Announced JobGroupDirectory] [] Waiting fresh_service [] []). done.
Qed.

Lemma state_owner_serializes_witness :
  so_sent two_jobs =
    (map fst (so_log two_jobs) ++ in_hand (so_phase two_jobs) ++ so_queue two_jobs)%list ∧
  serve_all (map fst (so_log two_jobs)) fresh_service = (so_log two_jobs, so_service two_jobs) ∧
  len (so_queue two_jobs) ≤ 1.
Proof. apply (state_owner_serializes StandaloneNode _ 1), two_jobs_reachable. Defined.

(** C21: every accepted job is answered: from any reachable state, with no step of
    any submitter, the owner thread alone can run until the queue is empty and
    it waits again, and then every job ever accepted has its reply, the one of
    serving the jobs in order. *)
Theorem state_owner_answers_every_job (C : Type) (A : ConsensusAdapter C) capacity
    (s0 : BrokerApplicationService C) o :
  rtc (owner_step capacity) (owner_start s0) o →
  ∃ o', rtc (owner_step capacity) o o' ∧ so_submitters o' = so_submitters o ∧
    so_sent o' = so_sent o ∧ so_phase o' = Waiting ∧ so_queue o' = [] ∧
    (so_log o', so_service o') = serve_all (so_sent o) s0.
Proof.
  intros Hr. destruct (owner_serves_all capacity o) as (o' & Hr' & Hsub & Hsent & Hph & Hq).
  exists o'. split_and!; [done..|].
  destruct (owner_reachable_ok capacity s0 o') as [Ho Hs _ _ _]; [by etrans|].
  rewrite Hph, Hq, Hsent in Ho. simpl in Ho. rewrite app_nil_r in Ho. by rewrite Ho, Hs.
Qed.

Lemma state_owner_answers_every_job_witness :
  ∃ o', rtc (owner_step 1) two_jobs o' ∧ so_submitters o' = so_submitters two_jobs ∧
    so_sent o' = so_sent two_jobs ∧ so_phase o' = Waiting ∧ so_queue o' = [] ∧
    (so_log o', so_service o') = serve_all (so_sent two_jobs) fresh_service.
Proof. apply state_owner_answers_every_job, two_jobs_reachable. Defined.

(** ** The listener *)

(** Whatever connections arrive, close and fail to start, and however the
    accept loop interleaves with the connection threads, there are never more
    connections than configured; the shared counter is exact, one above the
    connections only while one is being admitted; and the server reports itself
    serving until the accept loop stops. *)
Theorem listener_bounds_connections max_connections l :
  max_connections < u64_max → rtc (listener_step max_connections) listener_start l →
  li_open l ≤ max_connections ∧
  li_active_connections l = li_open l + (match li_phase l with Admitting _ => 1 | _ => 0 end) ∧
  bl_serving (listener_load max_connections l) =
    match li_phase l with Stopped _ => false | _ => true end.
Proof. intros Hm Hr. by destruct (listener_reachable_ok max_connections l Hm Hr). Qed.

Definition one_connection : Listener := MkListener true 1 1 Accepting.

Lemma listener_bounds_connections_witness :
  li_open one_connection ≤ 1 ∧
  li_active_connections one_connection =
    li_open one_connection + (match li_phase one_connection with Admitting _ => 1 | _ => 0 end) ∧
  bl_serving (listener_load 1 one_connection) =
    match li_phase one_connection with Stopped _ => false | _ => true end.
Proof.
  apply listener_bounds_connections; [done|].
  eapply rtc_l; [apply accept_connection|]. eapply rtc_l; [|apply rtc_refl].
  by apply spawn_connection.
Defined.

(** ** Limits on responses *)

Lemma unknown_operation name :
  MAX_ERROR_MESSAGE_BYTES < str_len name → Operation_try_from name = Err name.
Proof.
  intros Hn. unfold Operation_try_from.
  repeat (destruct (decide (name = _)) as [->|_]; [by vm_compute in Hn|]). done.
Qed.

(** A request whose operation name is unknown and longer than 4 KiB gets no
    INVALID_REQUEST answer: the error text repeats the name, the response
    encoder refuses the text, and the connection ends with nothing written,
    though the frame was within the limit. *)
Theorem long_operation_gets_no_answer (S : SerdeJson) (L : SerdeJsonLaws S) {W}
    (env : ConnectionEnv W) max name id payload frame s :
  valid_request_id id → MAX_ERROR_MESSAGE_BYTES < str_len name → len frame ≤ max →
  json_read frame = Some (request_root name id payload) →
  ∃ n, handle_frame env max frame s =
    (Err (RuntimeProtocol (ErrorMessageTooLarge n MAX_ERROR_MESSAGE_BYTES)), s).
Proof.
  intros Hid Hlong Hl Hf.
  assert (decode_wire_request_with_limit frame max =
    Err (invalid_request ("unsupported Broker operation " +:+ debug_str name))) as Hd.
  { unfold decode_wire_request_with_limit, decode_request_with_limit.
    rewrite (proj2 (ensure_frame_limit_ok _ _ ()) Hl). unfold from_slice. rewrite Hf.
    rewrite request_root_envelope. cbn -[RequestId_new debug_str Operation_try_from].
    rewrite Hid. cbn -[debug_str Operation_try_from]. by rewrite unknown_operation. }
  unfold handle_frame. rewrite Hd. unfold encode_rejection, encode_error, encode_response_with_limit.
  cbn [response_error response_root]. unfold ensure_error_message_bound.
  pose proof (debug_str_long name) as Hq.
  set (text := ep_message _). assert (str_len (debug_str name) ≤ str_len text) as Ht.
  { change text with ("unsupported Broker operation " +:+ debug_str name). rewrite str_len_app. lia. }
  destruct (N.leb_spec (str_len text) MAX_ERROR_MESSAGE_BYTES); [lia|]. cbn [map_err]. by eexists.
Qed.

Definition long_name : string := String.concat "" (repeat "0123456789abcdef" 257).

Definition long_frame : bytes :=
  match json_write (request_root long_name "r1" (VObject [])) with Ok b => b | Err _ => [] end.

Lemma long_operation_gets_no_answer_witness :
  ∃ n, handle_frame standalone_env DEFAULT_MAX_FRAME_BYTES long_frame
         (MkServer fresh_service [Some 1] []) =
    (Err (RuntimeProtocol (ErrorMessageTooLarge n MAX_ERROR_MESSAGE_BYTES)),
     MkServer fresh_service [Some 1] []).
Proof.
  apply (long_operation_gets_no_answer text_json text_json_laws standalone_env _ long_name "r1"
    (VObject [])); by vm_compute.
Defined.

(** An objective that a 4096-byte frame can publish. *)
Definition bulky : string := String.concat "" (repeat "0123456789abcdef" 244).

Definition bulky_publish : BrokerRequest := ReqPublishTask {|
  qp_request_id := "r1"; qp_namespace_id := "a"; qp_task_id := "t1"; qp_objective := bulky |}.

Definition bulky_claim : BrokerCommand := ClaimTask {|
  cl_group_id := "g"; cl_member_id := "m"; cl_expected_term := 1; cl_expected_generation := 1;
  cl_lease_id := "l"; cl_now_ms := 5; cl_lease_duration_ms := 30000 |}.

Definition bulky_machine : BrokerStateMachine :=
  (apply_all [mk_namespace "a";
     PublishTask {| pt_namespace_id := "a"; pt_task_id := "t1"; pt_objective := bulky;
       pt_created_at_ms := 2; pt_max_namespace_tasks := 4096 |};
     mk_group "a" "g"; mk_join "g" "m" 4] BrokerStateMachine_default).2.

Definition small_frames : BrokerServerConfig := {|
  bs_loopback := true; bs_max_frame_bytes := MIN_FRAME_BYTES;
  bs_max_connections := DEFAULT_MAX_CONNECTIONS;
  bs_connection_io_timeout := DEFAULT_CONNECTION_IO_TIMEOUT |}.

(** With a frame limit that the configuration accepts, a task can be published
    whose claim cannot be answered: the request that publishes it fits a frame of
    4096 bytes, the claim leases the task to the member, and the response that
    would tell the member which task it holds does not fit. *)
Theorem claim_answer_can_exceed_accepted_limit :
  validate small_frames = Ok small_frames ∧
  is_ok (encode_request_with_limit bulky_publish MIN_FRAME_BYTES) = true ∧
  match apply bulky_claim bulky_machine with
  | (Ok applied, m) => ∃ r lease,
      am_result applied = RTaskClaim r ∧ tc_task_id r = Some "t1" ∧
      (t_state <$> s_tasks (m_state m) !! "t1") = Some (Leased lease) ∧
      encode_response_with_limit (respond "r5" (Ok (DTaskClaimed r))) MIN_FRAME_BYTES =
        Err (FrameTooLarge 4101 MIN_FRAME_BYTES)
  | (Err _, _) => False
  end.
Proof.
  split; [done|]. split; [by vm_compute|].
  destruct (apply bulky_claim bulky_machine) as [[applied|e] m] eqn:E; [|by vm_compute in E].
  vm_compute in E. injection E as <- <-. eexists _, _. split_and!; [done|done|done|].
  by vm_compute.
Qed.
