(* ===== verification/Clustering.v ===== *)
(** * What a cluster node and its operations server guarantee

    The main theorems about writes through a node, its start-up, its fail-stop
    and its readiness, and about the operations listener, each with a concrete
    instance. *)

From stdpp Require Import relations.
From S2P Require Import Prelude Values Task Group Messages Machine Recovery Spec Invariant Effect.
From S2P Require Import Broker Scenarios Valid Display Wire Replicated ReplicatedProps Words.
From S2P Require Import Sessions SessionsProps Observation Consensus Service Dispatch DispatchProps.
From S2P Require Import Json WireSchema Runtime StateOwner Server JsonText EndToEnd ClusterNode.
From S2P Require Import ClusterNodeProps ClusterStartup OneNode ClusterStartupProps Operations.
From S2P Require Import OperationsProps.

(** ** Writes *)

(** A node that leads in term 3 over a broker still in term 1. *)
Definition new_leader : LocalEngine :=
  MkLocal fresh_sessions 0 3 (Some 1) {[1; 2; 3]} ∅ 5.

(** C7: a proposal of a valid command that a cluster node answers was applied to
    the replicated broker.  The node was the leader when it submitted it; the
    state it was applied to is one that the log of proposals, whatever they are,
    reached from there, at a broker term no older than the Raft term in which the
    node leads; the answer is the answer of that application, with a rejection
    marked as committed, and the state that the log continues from is the one the
    application left.  So a command written for an earlier term is refused and
    changes nothing.  Where the broker is well formed at that point and the command
    is admissible there (no overflow, no reused task id), answer and effect are
    those of the specified broker.  Any other error is a failure of the transport,
    the storage or the node. *)
Theorem cluster_write_is_a_fenced_step (R : Type) (E : RaftEngine R) (L : EngineLaws R) node_id
    command r res r' :
  valid_command command → running_propose node_id command r = (res, r') →
  (∃ t, (re_current_leader r).1 = Some node_id ∧
        (re_vote_term (re_current_leader r).2).1 = Ok t ∧
        write_outcome command t (el_machine r) (el_machine r') res) ∨
  (∃ e, res = Err e ∧ adapter_failure e).
Proof. apply propose_outcome. Qed.

Definition new_leader_answer : result BrokerMutationResult BrokerError * LocalEngine :=
  running_propose 1 (mk_namespace "a") new_leader.

Lemma cluster_write_is_a_fenced_step_witness :
  (∃ t, (re_current_leader new_leader).1 = Some 1 ∧
        (re_vote_term (re_current_leader new_leader).2).1 = Ok t ∧
        write_outcome (mk_namespace "a") t (el_machine new_leader) (el_machine new_leader_answer.2)
          new_leader_answer.1) ∨
  (∃ e, new_leader_answer.1 = Err e ∧ adapter_failure e).
Proof.
  apply (cluster_write_is_a_fenced_step LocalEngine local_engine local_laws 1 (mk_namespace "a")
    new_leader); [by_compute|].
  unfold new_leader_answer. by destruct (running_propose 1 (mk_namespace "a") new_leader).
Defined.

(** The fail-stop of a node is final: once a proposal, an identified
    proposal or an owner acquisition has ended in a persistence or internal
    error, or the controller is gone, every later call of the service on the
    adapter is refused with the fail-stop error and leaves the node as it is. *)
Theorem fail_stop_is_final (R : Type) (E : RaftEngine R) c (a : ClusterRaftConsensusAdapter R) e a'
    (later : list ClusterCall) :
  is_mutation c = true → run_call c a = (Some e, a') → should_poison e = true →
  Forall (λ c, run_call c a' = (Some fail_stopped_error, a')) later.
Proof.
  intros Hm Hr Hp. apply Forall_forall. intros c' _. apply stopped_call. by eapply fatal_call.
Qed.

(** A controller that dies with a proposal in its hands. *)
Definition dying_node : ClusterRaftConsensusAdapter LocalEngine :=
  MkCluster 1 (Dying new_leader) false.

Lemma fail_stop_is_final_witness :
  Forall (λ c, run_call c (run_call (CallPropose (mk_namespace "a")) dying_node).2 =
    (Some fail_stopped_error, (run_call (CallPropose (mk_namespace "a")) dying_node).2))
    [CallPropose (mk_namespace "a"); CallDirectory; CallAuthority].
Proof.
  by eapply (fail_stop_is_final LocalEngine local_engine (CallPropose (mk_namespace "a")) dying_node).
Defined.

(** ** Start-up *)

(** Opening a node returns, with a running node or an error, whatever the
    other members do: every wait for a leader, for the recovered log and for the
    membership to converge ends at its deadline.  The fuel needed is two more
    than the deadline checks that the clock allows. *)
Theorem node_start_returns (R : Type) (L : RaftLifecycle R) (C : ClockLaws R) fuel node_id config r :
  (cl_left r + 1 < fuel)%nat → ∃ res r', running_open node_id fuel config r = Some (res, r').
Proof. apply running_open_returns. Qed.

(** The designated node of a new cluster, which nobody elects. *)
Definition lonely : LocalEngine := MkLocal fresh_sessions 0 1 None ∅ ∅ 4.

Definition bootstrap_config : ClusterRaftConfig := {|
  cc_node_id := 1; cc_nodes := {[1 := true; 2 := true; 3 := true]}; cc_bootstrap := true;
  cc_snapshot_log_interval := 256; cc_replication_lag_threshold := 5000;
  cc_max_in_snapshot_log_to_keep := 1000; cc_identified_write_timeout := 2000000000;
  cc_rpc_connect_timeout := 1000000000; cc_election_timeout_min_ms := 1000;
  cc_election_timeout_max_ms := 2000; cc_heartbeat_interval_ms := 100 |}.

Lemma node_start_returns_witness :
  ∃ res r', running_open 1 6 bootstrap_config lonely = Some (res, r').
Proof. apply (node_start_returns LocalEngine _ local_clock). simpl. lia. Defined.

(** ** The operations listener *)

(** The states of a broker over time: each comes from the one before by commands. *)
Fixpoint history (ss : list BrokerState) : Prop :=
  match ss with
  | s :: (s' :: _) as ss' => StateInv s ∧ rtc state_evolves s s' ∧ history ss'
  | [s] => StateInv s
  | [] => True
  end.

Lemma evolves_keeps_groups s s' id :
  rtc state_evolves s s' → is_Some (s_groups s !! id) → is_Some (s_groups s' !! id).
Proof.
  induction 1 as [|s s1 s2 He _ IH]; [done|]. intros [g Hg]. apply IH.
  destruct (sv_groups _ _ He id g Hg) as (g' & Hg' & _). by eexists.
Qed.

Lemma state_ids s id :
  StateInv s → id ∈ gs_group_id <$> gd_groups (group_directory s) ↔ is_Some (s_groups s !! id).
Proof.
  intros Hs. rewrite directory_ids. split.
  - intros (k & g & Hg & ->). destruct (si_groups _ Hs k g Hg) as [-> _]. by eexists.
  - intros [g Hg]. exists id, g. split; [done|]. by destruct (si_groups _ Hs id g Hg) as [-> _].
Qed.

Lemma history_directories ss :
  history ss → Forall directory_sorted (group_directory <$> ss) ∧ growing (group_directory <$> ss).
Proof.
  induction ss as [|s [|s' ss] IH]; [done| |].
  - intros Hs. split; [|done]. by repeat constructor; apply directory_is_sorted.
  - intros (Hs & He & Hss). destruct (IH Hss) as [Hsort Hgrow].
    split; [constructor; [by apply directory_is_sorted|done]|]. split; [|done].
    assert (StateInv s') as Hs' by (destruct ss; [done|apply Hss]).
    intros id. rewrite !state_ids by done. by apply evolves_keeps_groups.
Qed.

(** An operator who follows the cursor of the group listing sees every group
    exactly once and in order, also when commands are applied between the pages:
    what is listed is strictly increasing, contains every group that existed
    when the first page was read, and nothing that did not exist when its page
    was; and on a broker at rest the listing ends after at most one page more
    than there are groups. *)
Theorem group_listing_is_complete s ss limit :
  history (s :: ss) → 0 < limit →
  (∀ l, follow (group_directory <$> s :: ss) None limit = Some l →
    StronglySorted id_lt (gs_group_id <$> l) ∧
    (∀ id, is_Some (s_groups s !! id) → id ∈ gs_group_id <$> l) ∧
    (∀ g, g ∈ l → ∃ s', s' ∈ s :: ss ∧ g ∈ gd_groups (group_directory s'))) ∧
  is_Some (follow (replicate (S (length (group_summaries s))) (group_directory s)) None limit).
Proof.
  intros Hh Hlim. destruct (history_directories _ Hh) as [Hsort Hgrow].
  assert (StateInv s) as Hs by (destruct ss; [done|apply Hh]). split.
  - intros l Hf. rewrite fmap_cons in *.
    destruct (follow_lists _ _ None limit l Hsort Hgrow Hlim Hf) as (H1 & _ & H2 & H3).
    split_and!; [done| |].
    + intros id Hid. apply H3; [by apply state_ids|done].
    + intros g (d & Hd & Hg)%H2. rewrite <-fmap_cons in Hd.
      apply list_elem_of_fmap in Hd as (s' & -> & Hs'). eauto.
  - apply follow_returns; [by apply directory_is_sorted|done|]. simpl. lia.
Qed.

Definition busier : BrokerState := m_state (apply (mk_group "a" "gz") busy_machine).2.

Lemma busy_history : history [m_state busy_machine; busier].
Proof.
  assert (admissible (mk_group "a" "gz") busy_machine) as Ha by done.
  destruct (apply_refines (mk_group "a" "gz") busy_machine busy_inv Ha) as (Hi & _ & _).
  cbn [history]. split_and!; [apply (inv_state _ busy_inv)| |exact (inv_state _ Hi)].
  apply rtc_once. pose proof (apply_effect (mk_group "a" "gz") busy_machine busy_inv Ha) as He.
  unfold busier. destruct (apply (mk_group "a" "gz") busy_machine) as [[am|e] m']; cbn [fst snd] in *.
  - apply effect_evolves; [apply busy_inv|done].
  - rewrite He. apply state_evolves_refl.
Qed.

Lemma group_listing_is_complete_witness :
  (∀ l, follow (group_directory <$> [m_state busy_machine; busier]) None 1 = Some l →
    StronglySorted id_lt (gs_group_id <$> l) ∧
    (∀ id, is_Some (s_groups (m_state busy_machine) !! id) → id ∈ gs_group_id <$> l) ∧
    (∀ g, g ∈ l → ∃ s', s' ∈ [m_state busy_machine; busier] ∧ g ∈ gd_groups (group_directory s'))) ∧
  is_Some (follow (replicate (S (length (group_summaries (m_state busy_machine))))
    (group_directory (m_state busy_machine))) None 1).
Proof. apply (group_listing_is_complete (m_state busy_machine) [busier] 1); [apply busy_history|done]. Defined.

(** With the default frame limit, or a larger one, every line sent to the
    operations listener is answered with one line of JSON: a malformed, unknown
    or oversized request with its error code, any other with the report or the
    page it asks for; no readiness report or page of groups is too large to be
    sent. *)
Theorem operations_lines_are_answered (J : SerdeJson) (L : SerdeJsonLaws J) observer reply max
    reader frame :
  OPERATIONS_DEFAULT_MAX_FRAME_BYTES ≤ max → word_observer observer → word_reply reply →
  (read_request_frame max reader []).1 =
    Ok match frame with Some f => FrameData f | None => FrameExceeds end →
  ∃ b, handle_operations_connection observer reply max reader = Ok (Some (b ++ [newline])%list) ∧
       json_read b = Some (operations_answer frame observer reply) ∧ newline ∉ b.
Proof. intros Hm. apply connection_answers. unfold OPERATIONS_DEFAULT_MAX_FRAME_BYTES in Hm. lia. Qed.

Definition bad_line : bytes := [Ascii.Ascii true true false true true true true false; newline].

Lemma operations_lines_are_answered_witness :
  ∃ b, handle_operations_connection (ObserveStandalone {| bl_serving := true;
         bl_active_connections := 0; bl_max_connections := 4 |}) (Err StateOwnerStopped) 4096
         [Ok bad_line] = Ok (Some (b ++ [newline])%list) ∧
       json_read b = Some (operations_answer (Some bad_line) (ObserveStandalone {| bl_serving := true;
         bl_active_connections := 0; bl_max_connections := 4 |}) (Err StateOwnerStopped)) ∧
       newline ∉ b.
Proof. by apply (operations_lines_are_answered text_json text_json_laws). Defined.

(** C33: a node is reported ready for writes only when it can accept them: the
    broker listener is serving, the state owner's queue has room, and the
    consensus probe saw this node as the leader, had its leadership confirmed by
    a quorum, and then saw it as the leader again. *)
Theorem ready_node_is_confirmed_leader (R : Type) (E : RaftEngine R) node_id (r : R) b o readiness r' :
  running_readiness node_id r = (readiness, r') →
  os_write_ready (operations_snapshot b o readiness) = true →
  bl_serving b = true ∧ sl_queued_jobs o < sl_capacity o ∧
  ∃ before after r1 r2 r3,
    running_progress node_id r = (Ok before, r1) ∧ cp_current_leader before = Some node_id ∧
    re_deadline_passed r1 = (false, r2) ∧ re_linearizable r2 = (Confirmed, r3) ∧
    running_progress node_id r3 = (Ok after, r') ∧ cp_current_leader after = Some node_id ∧
    rd_progress readiness = Some after.
Proof.
  intros Hr (Hb & Hs & Ho)%write_ready_iff. split_and!; [done..|].
  destruct readiness as [status p]. simpl in *. subst status. by apply ready_means_confirmed.
Qed.

Definition steady_load : BrokerServerLoad :=
  {| bl_serving := true; bl_active_connections := 0; bl_max_connections := 4 |}.
Definition idle_owner : StateOwnerLoad :=
  {| sl_active_jobs := 0; sl_queued_jobs := 0; sl_capacity := 8 |}.

Lemma ready_node_is_confirmed_leader_witness :
  bl_serving steady_load = true ∧ sl_queued_jobs idle_owner < sl_capacity idle_owner ∧
  ∃ before after r1 r2 r3,
    running_progress 1 new_leader = (Ok before, r1) ∧ cp_current_leader before = Some 1 ∧
    re_deadline_passed r1 = (false, r2) ∧ re_linearizable r2 = (Confirmed, r3) ∧
    running_progress 1 r3 = (Ok after, (running_readiness 1 new_leader).2) ∧
    cp_current_leader after = Some 1 ∧ rd_progress (running_readiness 1 new_leader).1 = Some after.
Proof.
  apply (ready_node_is_confirmed_leader LocalEngine local_engine); [|by vm_compute].
  by destruct (running_readiness 1 new_leader).
Defined.
