(* ===== verification/Clients.v ===== *)
(** * What the client guarantees

    The main theorems about durable commands, from the reservation in the session
    file to the log of the cluster and back, and about the session file, each
    with a concrete instance. *)

From S2P Require Import Prelude Values Task Group Messages Machine Display Wire Replicated.
From S2P Require Import ReplicatedProps Words Sessions SessionsProps ApplyOnce Consensus Service.
From S2P Require Import Dispatch DispatchProps Json WireSchema WireV1 WireV1Props WireVersions.
From S2P Require Import WireVersionsProps SessionStore SessionStoreProps Server Client Durable.
From S2P Require Import JsonText Runtime StateOwner ClusterNode ClusterNodeProps ClusterStartupProps.
From S2P Require Import ClientServer Router AsyncClient Operations OperationsProps RouterProps.

(** ** The session file *)

(** Once a command was reserved, the session file holds it: whatever store
    operations follow, with whatever faults of the file system, and whatever
    crashes and failed attempts to open the session again, as long as the outcome
    of this command is not settled.  Opening the file then returns a session
    with this command in flight. *)
Theorem reserved_command_survives (J : SerdeJson) (L : SerdeJsonLaws J) io request s d reserved w
    evs :
  session_sound (ds_session_id s) (ds_state s) → valid_request request →
  reserve_command io request (s, d) = (Ok reserved, w) →
  Forall (λ ev, ¬ settles reserved ev) evs →
  let '(session, file) := run_events (ds_session_id s) evs (Some w.1, w.2) in
  (∀ st, session = Some st → in_flight st = Ok (Some reserved)) ∧
  ∃ st, open_or_create None (ds_session_id s) (MkFile (fl_content file) false) =
          (Ok st, MkFile (fl_content file) false) ∧
        in_flight st = Ok (Some reserved).
Proof.
  intros Hs Hr Hres Hevs. destruct (reserved_is_flying io request s d reserved w Hs Hr Hres) as [_ Hf].
  apply (events_keep_flying _ _ evs) in Hf; [|done].
  destruct (run_events _ _ _) as [session file]. destruct Hf as (st & Hon & Hsound & Hfly & Hmem).
  cbn [fst snd] in *. split; [intros st' ->; by subst st'|].
  exists (MkStore (ds_session_id s) st). split; [|done]. by apply reopens.
Qed.

Definition sample_request : BrokerRequest :=
  ReqEnsureNamespace {| qn_request_id := "r1"; qn_namespace_id := "jobs" |}.

(** A session with a confirmed owner. *)
Definition sample_store : DurableClientSessionStore :=
  MkStore "s1" {| ps_version := 1; ps_session_id := "s1";
    ps_owner := Some {| po_owner_epoch := 1; po_owner_instance_id := "o1" |};
    ps_pending_owner_acquisition := None; ps_next_sequence := 1; ps_in_flight := None |}.

Lemma sample_store_sound : session_sound (J := text_json) "s1" (ds_state sample_store).
Proof. split; [by vm_compute|]. constructor; cbn; intros; simplify_eq; by vm_compute. Qed.

Lemma sample_request_valid : valid_request sample_request.
Proof. by vm_compute. Qed.

Definition sample_reservation : result ReservedCommand ClientSessionStoreError * Local :=
  reserve_command (J := text_json) None sample_request (sample_store, MkFile None false).

Definition sample_reserved : ReservedCommand :=
  MkReserved (new_with_owner "s1" 1 "o1" 1) sample_request.

Definition replace_fault : StoreFault := {| sf_site := SitePersist;
  sf_context := "client session atomic replace failed"; sf_replaced := false;
  sf_source := "disk full" |}.

(** A second reservation, a refused opening and a crash come in between. *)
Definition sample_events : list StoreEvent :=
  [Perform (Some replace_fault) (DoReserve sample_request); Reopen None true;
   Perform None (DoBegin "o2"); Reopen None false].

Lemma reserved_command_survives_witness :
  let '(session, file) := run_events (J := text_json) "s1" sample_events
    (Some sample_reservation.2.1, sample_reservation.2.2) in
  (∀ st, session = Some st → in_flight (J := text_json) st = Ok (Some sample_reserved)) ∧
  ∃ st, open_or_create (J := text_json) None "s1" (MkFile (fl_content file) false) =
          (Ok st, MkFile (fl_content file) false) ∧
        in_flight (J := text_json) st = Ok (Some sample_reserved).
Proof.
  apply (reserved_command_survives text_json text_json_laws None sample_request sample_store
    (MkFile None false) sample_reserved sample_reservation.2 sample_events).
  - exact sample_store_sound.
  - exact sample_request_valid.
  - by vm_compute.
  - repeat constructor; by intros [].
Defined.

(** The session file is always one that can be opened: from a fresh path,
    after any operations, faults, crashes and openings, the file is absent or
    holds a state that passes validation, and so does an open session in
    memory; opening it without a fault succeeds. *)
Theorem session_file_stays_valid (J : SerdeJson) (L : SerdeJsonLaws J) sid evs :
  CommandSessionId_new sid = Ok sid →
  let '(session, file) := run_events sid evs (None, MkFile None false) in
  (∀ st, session = Some st →
     ds_session_id st = sid ∧ validate_state (ds_state st) sid = Ok tt) ∧
  ∃ st file', open_or_create None sid (MkFile (fl_content file) false) = (Ok st, file') ∧
    validate_state (ds_state st) sid = Ok tt.
Proof.
  intros Hid. pose proof (events_keep sid evs (None, MkFile None false) Hid (or_introl eq_refl)) as Hk.
  destruct (run_events sid evs _) as [session file]. split.
  { intros st ->. destruct Hk as (Hsid & [Hv _] & _). done. }
  apply kept_file in Hk as [Hn|(s & Hon & Hs)]; cbn [snd] in *.
  - unfold open_or_create, acquire_state_lock. cbn [fl_content fl_locked_elsewhere]. rewrite Hn.
    cbn [ensure_parent store_call sync_session_directory].
    destruct (persist_succeeds (PersistedSessionState_new sid) (MkFile None false)) as [d' ->].
    { apply (fresh_sound sid Hid). }
    eexists _, _. split; [done|]. apply (fresh_sound sid Hid).
  - exists (MkStore sid s), (MkFile (fl_content file) false). split; [|apply Hs].
    by apply reopens.
Qed.

Lemma session_file_stays_valid_witness :
  let '(session, file) := run_events (J := text_json) "s1"
    (Reopen None false :: sample_events) (None, MkFile None false) in
  (∀ st, session = Some st →
     ds_session_id st = "s1" ∧ validate_state (J := text_json) (ds_state st) "s1" = Ok tt) ∧
  ∃ st file', open_or_create (J := text_json) None "s1" (MkFile (fl_content file) false) =
      (Ok st, file') ∧ validate_state (J := text_json) (ds_state st) "s1" = Ok tt.
Proof.
  apply (session_file_stays_valid text_json text_json_laws "s1" (Reopen None false :: sample_events)).
  by vm_compute.
Defined.

(** ** Durable commands *)

(** C3: a durable command against a cluster takes effect once.  From the moment
    of its reservation, when its identity was fresh, the log of the cluster moves
    on in any way, and the client sends the command any number of times to a
    server whose network, queue and engine may lose the request or the answer.
    If the execution ends with a result or with an error marked as committed,
    the log holds exactly one application of the command, for the same request,
    and that is its answer; the session moves to the next sequence.  A rejection
    frees the sequence again; with any other end the command stays in flight. *)
Theorem durable_command_applies_once (J : SerdeJson) (L : SerdeJsonLaws J) (R : Type)
    (E : RaftEngine R) (Lg : EngineLog R) max io reserved n m (c c' : BrokerClient)
    (w w' : ClusterWorld R) l l' res :
  let Net := cluster_network max in
  let Srv := cluster_sessions max in
  let i := rv_identity reserved in
  valid_owned i (rv_request reserved) →
  (∀ cmd r, ¬ spent i cmd r (sm_sessions m)) →
  client_ready c → evolves m (service_machine (cw_service w)) →
  in_flight l.1 = Ok (Some reserved) →
  execute_reserved_durable io reserved n (c, w) l = (res, ((c', w'), l')) →
  let once answer := took_effect_once i (rv_request reserved) answer m (service_machine (cw_service w')) in
  match res with
  | Ok payload => once (Ok payload) ∧ cleared (ci_sequence i + 1) l'.1
  | Err (DurableClient (Broker e)) =>
      match be_disposition e with
      | DispCommitted => once (Err e) ∧ cleared (ci_sequence i + 1) l'.1
      | DispRejected => cleared (ps_next_sequence (ds_state l.1)) l'.1
      | DispUnknown => l' = l
      end
  | Err (DurableClient _) => l' = l
  | Err (DurableStore _) => l'.1 = l.1
  end.
Proof.
  intros Net Srv i Hv Hfresh Hc Hev Hf Hx once.
  apply (durable_execution io reserved n (c, w) l res (c', w') l' m) in Hx as (_ & _ & Hout); try done.
  destruct res as [payload|[[e|e|e|o|]|e]]; try done.
  - destruct Hout as [Hs Hcl]. split; [|done]. by apply settled_took_effect_once.
  - cbn in Hout. destruct (be_disposition e) eqn:Hd; try done. destruct Hout as [Hs Hcl].
    split; [|done]. by apply settled_took_effect_once.
Qed.

(** A leader whose broker has the session, and a server on it. *)
Definition owned_sessions : SessionMachine :=
  (acquire_command_session_owner "s1" 1 "o1" fresh_sessions).2.

Definition session_leader : LocalEngine := MkLocal owned_sessions 1 1 (Some 1) {[1; 2; 3]} ∅ 5.

Definition session_world (exchanges : list Exchange) : ClusterWorld LocalEngine :=
  MkWorld (MkService (MkCluster 1 (Running session_leader) false) BrokerCapacityPolicy_default)
    [Ok tt; Ok tt] exchanges.

(** The first answer is lost, the second arrives in two buffers. *)
Definition exchange (sizes : list nat) (fate : OwnerFate) : Exchange := {|
  ex_before := []; ex_arrives := true; ex_owner := fate; ex_clock := Some 1000; ex_sizes := sizes;
  ex_ending := None; ex_write_error := None |}.

Definition lost_then_answered : ClusterWorld LocalEngine :=
  session_world [exchange [] OwnerServes; exchange [20%nat; 200%nat] OwnerServes].

Definition sample_client : BrokerClient :=
  MkClient {| bcc_address := MkAddr "127.0.0.1:8811" true; bcc_timeout := 1000000000;
              bcc_max_response_frame_bytes := 4096 |} None 0.

Definition sample_local : Local := sample_reservation.2.

Definition sample_durable (w : ClusterWorld LocalEngine) :
    result SuccessPayload DurableExecutionError * (BrokerClient * ClusterWorld LocalEngine * Local) :=
  execute_reserved_durable (J := text_json) (Net := cluster_network 4096) None sample_reserved 2
    (sample_client, w) sample_local.

Lemma sample_fresh cmd r : ¬ spent (rv_identity sample_reserved) cmd r (sm_sessions owned_sessions).
Proof.
  intros (record & Hr & Hs). vm_compute in Hr. injection Hr as <-.
  destruct Hs as [Hs|(_ & last & Hl & _)]; [by vm_compute in Hs|done].
Qed.

Lemma sample_owned : valid_owned (rv_identity sample_reserved) (rv_request sample_reserved).
Proof. repeat split; by vm_compute. Qed.

Lemma durable_command_applies_once_witness :
  let payload := SNamespace 1 1 "jobs" 1 in
  (sample_durable lost_then_answered).1 = Ok payload ∧
  took_effect_once (rv_identity sample_reserved) sample_request (Ok payload) owned_sessions
    (service_machine (cw_service (sample_durable lost_then_answered).2.1.2)) ∧
  cleared 2 (sample_durable lost_then_answered).2.2.1.
Proof.
  split; [by vm_compute|].
  apply (durable_command_applies_once text_json text_json_laws LocalEngine local_engine local_log 4096
    None sample_reserved 2 owned_sessions sample_client
    (sample_durable lost_then_answered).2.1.1 lost_then_answered
    (sample_durable lost_then_answered).2.1.2 sample_local (sample_durable lost_then_answered).2.2
    (Ok (SNamespace 1 1 "jobs" 1))).
  - exact sample_owned.
  - exact sample_fresh.
  - by split.
  - apply evolves_refl.
  - by vm_compute.
  - by vm_compute.
Defined.

(** The asynchronous client keeps the same promise.  It opens a connection
    per attempt, and its store runs on a pool of threads where a call may be
    refused, or done and its reply lost: a settled outcome is again the answer of
    the one application in the log, and an error of the client that is neither
    committed nor a rejection leaves the command in flight. *)
Theorem async_durable_command_applies_once (J : SerdeJson) (L : SerdeJsonLaws J) (R : Type)
    (E : RaftEngine R) (Lg : EngineLog R) max in_instant_range config fate io reserved n m
    (w w' : ClusterWorld R) l l' res :
  let Net := cluster_network max in
  let i := rv_identity reserved in
  valid_owned i (rv_request reserved) → bcc_max_response_frame_bytes config = max →
  (∀ cmd r, ¬ spent i cmd r (sm_sessions m)) → evolves m (service_machine (cw_service w)) →
  in_flight l.1 = Ok (Some reserved) →
  async_execute_reserved_durable in_instant_range config fate io reserved n w l = (res, (w', l')) →
  let once answer := took_effect_once i (rv_request reserved) answer m (service_machine (cw_service w')) in
  match res with
  | Ok payload => once (Ok payload) ∧ cleared (ci_sequence i + 1) l'.1
  | Err (DurableClient (Broker e)) =>
      match be_disposition e with
      | DispCommitted => once (Err e) ∧ cleared (ci_sequence i + 1) l'.1
      | DispRejected => cleared (ps_next_sequence (ds_state l.1)) l'.1
      | DispUnknown => l' = l
      end
  | Err (DurableClient _) => l' = l
  | Err (DurableStore _) => maybe_settled reserved l l'
  end.
Proof.
  intros Net i Hv Hlim Hfresh Hev Hf Hx once.
  apply (async_durable_execution (Srv := cluster_sessions max)) with (m := m) in Hx as [_ Hout];
    try done.
  destruct res as [payload|[[e|e|e|o|]|e]]; try done.
  - destruct Hout as [Hs Hcl]. split; [|done]. by apply settled_took_effect_once.
  - cbn in Hout. destruct (be_disposition e) eqn:Hd; try done. destruct Hout as [Hs Hcl].
    split; [|done]. by apply settled_took_effect_once.
Qed.

Definition sample_async : result SuccessPayload DurableExecutionError *
    (ClusterWorld LocalEngine * Local) :=
  async_execute_reserved_durable (J := text_json) (Net := cluster_network 4096) true
    (bc_config sample_client) BlockingRuns None sample_reserved 2 lost_then_answered sample_local.

Lemma async_durable_command_applies_once_witness :
  took_effect_once (rv_identity sample_reserved) sample_request (Ok (SNamespace 1 1 "jobs" 1))
    owned_sessions (service_machine (cw_service sample_async.2.1)) ∧
  cleared 2 sample_async.2.2.1.
Proof.
  apply (async_durable_command_applies_once text_json text_json_laws LocalEngine local_engine local_log
    4096 true (bc_config sample_client) BlockingRuns None sample_reserved 2 owned_sessions
    lost_then_answered sample_async.2.1 sample_local sample_async.2.2
    (Ok (SNamespace 1 1 "jobs" 1))).
  - exact sample_owned.
  - done.
  - exact sample_fresh.
  - apply evolves_refl.
  - by vm_compute.
  - by vm_compute.
Defined.

(** C8: a crash of the client loses no durable command and repeats none.  A
    command is reserved; after any faults, crashes and openings of the session
    file that do not settle it, and whatever the cluster did meanwhile with the
    attempts made before the crash, recovering the command in flight sends the
    reserved request again under the reserved identity, and its result is the
    answer of the one application in the log since the reservation. *)
Theorem crash_recovery_applies_once (J : SerdeJson) (L : SerdeJsonLaws J) (R : Type)
    (E : RaftEngine R) (Lg : EngineLog R) max io_reserve io request n m s d reserved w0 evs st file
    (c c' : BrokerClient) (w w' : ClusterWorld R) l' payload :
  let Net := cluster_network max in
  let Srv := cluster_sessions max in
  session_sound (ds_session_id s) (ds_state s) → valid_request request →
  reserve_command io_reserve request (s, d) = (Ok reserved, w0) →
  (∀ cmd r, ¬ spent (rv_identity reserved) cmd r (sm_sessions m)) →
  Forall (λ ev, ¬ settles reserved ev) evs →
  run_events (ds_session_id s) evs (Some w0.1, w0.2) = (Some st, file) →
  client_ready c → evolves m (service_machine (cw_service w)) →
  recover_durable_in_flight io n (c, w) (st, file) = (Ok payload, ((c', w'), l')) →
  took_effect_once (rv_identity reserved) request (Ok payload) m (service_machine (cw_service w')) ∧
  cleared (ci_sequence (rv_identity reserved) + 1) l'.1.
Proof.
  intros Net Srv Hs Hr Hres Hfresh Hevs Hrun Hc Hev Hx.
  destruct (reserved_is_flying _ _ _ _ _ _ Hs Hr Hres) as [Hreq Hf].
  destruct (reserved_is_owned _ _ _ _ _ _ Hs Hr Hres) as [Hown _].
  apply (events_keep_flying _ _ evs) in Hf; [|done]. rewrite Hrun in Hf.
  destruct Hf as (ps & _ & _ & Hfly & Hst). cbn [fst] in Hst. subst st.
  unfold recover_durable_in_flight in Hx. cbn [fst] in Hx.
  assert (in_flight (MkStore (ds_session_id s) ps) = Ok (Some reserved)) as Hin by exact Hfly.
  rewrite Hin in Hx. cbn [map_err ok_or] in Hx.
  apply (durable_execution io reserved n (c, w) _ _ (c', w') l' m) in Hx as (_ & _ & Hs' & Hcl); try done.
  split; [|done]. rewrite <-Hreq. by apply settled_took_effect_once.
Qed.

(** The process dies after sending; the session is opened again and recovered. *)
Definition reopened : option DurableClientSessionStore * SessionFile :=
  run_events (J := text_json) "s1" sample_events
    (Some sample_reservation.2.1, sample_reservation.2.2).

Definition sent_frame : bytes :=
  match encode_owner_mutation_request_with_limit (J := text_json)
    (MkOwnerIdentified (rv_identity sample_reserved) sample_request) 4096 with
  | Ok f => f
  | Err _ => []
  end.

Definition after_crash : ClusterWorld LocalEngine :=
  (nw_send (Network := cluster_network (J := text_json) 4096) sent_frame lost_then_answered).2.

Definition recovered : result SuccessPayload DurableExecutionError *
    (BrokerClient * ClusterWorld LocalEngine * Local) :=
  recover_durable_in_flight (J := text_json) (Net := cluster_network 4096) None 1
    (sample_client, after_crash) (default sample_store reopened.1, reopened.2).

Lemma crash_recovery_applies_once_witness :
  took_effect_once (rv_identity sample_reserved) sample_request (Ok (SNamespace 1 1 "jobs" 1))
    owned_sessions (service_machine (cw_service recovered.2.1.2)) ∧
  cleared 2 recovered.2.2.1.
Proof.
  apply (crash_recovery_applies_once text_json text_json_laws LocalEngine local_engine local_log 4096
    None None sample_request 1 owned_sessions sample_store (MkFile None false) sample_reserved
    sample_reservation.2 sample_events (default sample_store reopened.1) reopened.2 sample_client
    recovered.2.1.1 after_crash recovered.2.1.2 recovered.2.2).
  - exact sample_store_sound.
  - exact sample_request_valid.
  - by vm_compute.
  - exact sample_fresh.
  - repeat constructor; by intros [].
  - by vm_compute.
  - by split.
  - exact (sn_sends (SessionNetwork := cluster_sessions (L := text_json_laws) 4096) sent_frame
      lost_then_answered).
  - by vm_compute.
Defined.

(** ** A rejection after a lost answer *)

Section released.
Context {J : SerdeJson} {L : SerdeJsonLaws J}.

(** What a reservation leaves in memory, and what its identity is made of. *)
Lemma reserve_memory io request s d reserved l :
  reserve_command io request (s, d) = (Ok reserved, l) →
  (∃ p, l.1 = MkStore (ds_session_id s) (with_in_flight (Some p) (ds_state s))) ∧
  with_in_flight None (ds_state s) = ds_state s ∧
  ∃ o q, owner s = Ok (Some o) ∧ CommandSequence_new (ps_next_sequence (ds_state s)) = Ok q ∧
    rv_identity reserved =
      new_with_owner (ds_session_id s) (do_owner_epoch o) (do_owner_instance_id o) q.
Proof.
  unfold reserve_command. cbn [fst]. case_match; [done|].
  destruct (ps_in_flight (ds_state s)) eqn:Hf; [done|]. cbn [present].
  case_bool_decide; [done|]. case_match; [done|].
  destruct (owner s) as [[o|]|]; [|done..]. cbn [ok_or].
  destruct (CommandSequence_new _) as [q|]; [|done]. cbn [invalid_state map_err].
  destruct (encode_request request) as [frame|]; [|done]. cbn [map_err].
  destruct (commit_state io _ (s, d)) as [[u|] w1] eqn:Hcm; [|done]. intros [= <- <-].
  apply commit_state_memory in Hcm. split_and!; [by eexists| |by exists o, q].
  destruct (ds_state s); cbn in *. by rewrite Hf.
Qed.

(** Releasing a reserved command puts the session back where it was. *)
Lemma release_restores request s d reserved l :
  session_sound (ds_session_id s) (ds_state s) → valid_request request →
  reserve_command None request (s, d) = (Ok reserved, l) →
  ∃ d', release_rejected_in_flight None (rv_identity reserved) l = (Ok tt, (s, d')).
Proof.
  intros Hs Hr Hres. destruct (reserved_is_flying _ _ _ _ _ _ Hs Hr Hres) as [_ (ps & _ & _ & Hfly & Hst)].
  destruct (reserve_memory _ _ _ _ _ _ Hres) as ((p & Hl) & Hclear & _).
  destruct l as [st f]. cbn [fst] in *. subst st.
  assert (in_flight (MkStore (ds_session_id s) ps) = Ok (Some reserved)) as Hin by exact Hfly.
  unfold release_rejected_in_flight. cbn [fst]. rewrite Hin. cbn [ok_or].
  rewrite bool_decide_eq_true_2 by done. cbn [negb]. injection Hl as ->. unfold commit_state.
  cbn [ds_session_id ds_state].
  assert (with_in_flight None (with_in_flight (Some p) (ds_state s)) = ds_state s) as -> by exact Hclear.
  destruct Hs as [Hv Hw]. rewrite Hv. destruct (persist_succeeds (ds_state s) f Hw) as [d' ->].
  exists d'. by destruct s.
Qed.

(** Two reservations from the same state of the session have the same identity. *)
Lemma same_identity io io' request other s d d' reserved again l l' :
  reserve_command io request (s, d) = (Ok reserved, l) →
  reserve_command io' other (s, d') = (Ok again, l') → rv_identity again = rv_identity reserved.
Proof.
  intros (_ & _ & o & q & Ho & Hq & ->)%reserve_memory (_ & _ & o' & q' & Ho' & Hq' & ->)%reserve_memory.
  congruence.
Qed.
End released.

(** C35: the retry of a durable command trusts a rejection that says nothing about
    the earlier attempts.  Take any session and any network: a command is
    reserved, the first attempt ends in a transport error, and the second is
    answered as rejected.  Then the durable execution returns that rejection and
    puts the session back where it was before the reservation.  If the first
    attempt had been applied, so that its identity is spent in the session table
    of the broker, the session is stuck: whatever is reserved next gets the same
    identity, and however the log goes on, the broker refuses every command that
    is not the same request as the applied one under it, as a rejection that
    changes nothing, which releases the sequence again. *)
Theorem rejected_retry_wedges_session (J : SerdeJson) (L : SerdeJsonLaws J) (W : Type)
    (Net : Network W) s d request reserved l more x x1 x2 e1 e2 cmd reply m :
  session_sound (ds_session_id s) (ds_state s) → valid_request request →
  reserve_command None request (s, d) = (Ok reserved, l) →
  let i := rv_identity reserved in
  execute_owned i request x = (Err (Transport e1), x1) →
  execute_owned i request x1 = (Err (Broker e2), x2) → be_disposition e2 = DispRejected →
  spent i cmd reply (sm_sessions m) →
  ∃ d', execute_durable None None request (S (S more)) x (s, d) =
      (Err (DurableClient (Broker e2)), (x2, (s, d'))) ∧
    ∀ other again l', reserve_command None other (s, d') = (Ok again, l') →
      rv_identity again = i ∧
      ∀ c' ps, same_identified_request c' cmd = false →
        let now := (apply_proposals ps m).2 in
        ∃ answer, apply_identified (rv_identity again) c' now = (answer, now) ∧ is_rejection answer.
Proof.
  cbv zeta. intros Hs Hr Hres Hx1 Hx2 Hd Hspent.
  destruct (release_restores _ _ _ _ _ Hs Hr Hres) as [d' Hrel].
  destruct (reserved_is_flying _ _ _ _ _ _ Hs Hr Hres) as [Hreq _].
  exists d'. split.
  - unfold execute_durable. rewrite Hres. cbn [map_err]. unfold execute_reserved_durable.
    cbn [retry_attempts]. rewrite Hreq, Hx1, Hx2, Hd. unfold settle. by rewrite Hrel.
  - intros other again l' Hagain. pose proof (same_identity _ _ _ _ _ _ _ _ _ _ _ Hres Hagain) as Hi.
    split; [done|]. intros c' ps Hne.
    apply (apply_proposals_spent ps) in Hspent.
    destruct (check_identity_spent _ _ _ _ c' Hspent) as (answer & Hc & Hans).
    exists answer. rewrite Hi. unfold apply_identified. rewrite Hc. split; [done|].
    destruct Hans as [|[_ Hsame]]; [done|congruence].
Qed.

(** The first attempt creates the namespace and its answer is lost; the queue is
    full at the second. *)
Definition lost_then_saturated : ClusterWorld LocalEngine :=
  session_world [exchange [] OwnerServes; exchange [400%nat] OwnerSaturated;
                 exchange [400%nat] OwnerServes].

Definition attempt_sample (x : BrokerClient * ClusterWorld LocalEngine) :
    result SuccessPayload ClientError * (BrokerClient * ClusterWorld LocalEngine) :=
  execute_owned (J := text_json) (Net := cluster_network 4096) (rv_identity sample_reserved)
    sample_request x.

Definition after_loss : BrokerClient * ClusterWorld LocalEngine :=
  (attempt_sample (sample_client, lost_then_saturated)).2.

Definition applied_outcome : option CommandSessionOutcome :=
  sm_sessions (service_machine (cw_service after_loss.2)) !! "s1" ≫= cs_last_outcome.

Lemma rejected_retry_wedges_session_witness :
  ∃ d' cmd, execute_durable (J := text_json) (Net := cluster_network 4096) None None sample_request 2
      (sample_client, lost_then_saturated) (sample_store, MkFile None false) =
      (Err (DurableClient (Broker queue_saturated)), ((attempt_sample after_loss).2, (sample_store, d'))) ∧
    ∀ other again l', reserve_command (J := text_json) None other (sample_store, d') = (Ok again, l') →
      rv_identity again = rv_identity sample_reserved ∧
      ∀ c' ps, same_identified_request c' cmd = false →
        let now := (apply_proposals ps (service_machine (cw_service after_loss.2))).2 in
        ∃ answer, apply_identified (rv_identity again) c' now = (answer, now) ∧ is_rejection answer.
Proof.
  destruct applied_outcome as [o|] eqn:Ho; [|by vm_compute in Ho].
  edestruct (rejected_retry_wedges_session text_json text_json_laws (ClusterWorld LocalEngine)
    (cluster_network 4096) sample_store (MkFile None false) sample_request sample_reserved
    sample_reservation.2 0 (sample_client, lost_then_saturated) after_loss (attempt_sample after_loss).2)
    with (cmd := co_command o) (reply := co_response o)
         (m := service_machine (cw_service after_loss.2)) as (d' & Hx & Hnext).
  - exact sample_store_sound.
  - exact sample_request_valid.
  - by vm_compute.
  - vm_compute. reflexivity.
  - vm_compute. reflexivity.
  - reflexivity.
  - vm_compute in Ho. injection Ho as <-. eexists. split; [vm_compute; reflexivity|]. right.
    split; [reflexivity|]. eexists. split; [reflexivity|]. right. by split_and!.
  - exists d', (co_command o). split; [exact Hx|exact Hnext].
Defined.

(** ** Routing *)

(** C32: the router and the operations listener of a node understand each other.
    The router's readiness request, however it arrives, is answered with one
    line; when the router has read it, it takes the node for the leader exactly
    if the node is ready for writes (serving, confirmed as leader, queue not
    full), is the configured node and reports itself as the leader; a node that
    is not ready is skipped, and a ready report for another node or another
    leader stops discovery with an error. *)
Theorem router_reads_node_readiness (J : SerdeJson) (L : SerdeJsonLaws J) node b o c reply max
    reader :
  OPERATIONS_DEFAULT_MAX_FRAME_BYTES ≤ max → word_observer (ObserveCluster b o c) →
  word_reply reply → json_read OPERATIONS_READINESS_REQUEST = Some readiness_request_tree →
  (read_request_frame max reader []).1 = Ok (FrameData OPERATIONS_READINESS_REQUEST) →
  ∃ f, handle_operations_connection (ObserveCluster b o c) reply max reader = Ok (Some f) ∧
    ∀ limit delivered, read_bounded_operations_frame limit delivered [] = Ok f →
      let verdict := read_report node limit delivered in
      if os_write_ready (operations_snapshot b o c)
      then (leads node b o c → verdict = Ok (Some tt)) ∧ (¬ leads node b o c → misreport node verdict)
      else verdict = Ok None.
Proof.
  intros Hm Ho Hr Hj Hread.
  destruct (report_verdict node b o c reply max reader) as (f & Hh & Hv); [|done..|].
  { unfold OPERATIONS_DEFAULT_MAX_FRAME_BYTES in Hm. lia. }
  exists f. split; [done|]. intros limit delivered Hd. cbn zeta. rewrite (Hv _ _ Hd).
  by apply readiness_verdict.
Qed.

Definition sample_progress (leader : option N) : ClusterRaftProgress := {|
  cp_node_id := 1; cp_raft_rpc_addr := "127.0.0.1:7001"; cp_raft_rpc_queued_connections := 0;
  cp_raft_rpc_active_connections := 0; cp_raft_term := 1; cp_last_log_index := Some 1;
  cp_committed_index := Some 1; cp_applied_index := Some 1; cp_snapshot_index := None;
  cp_purged_index := None; cp_broker_term := 1; cp_broker_revision := 0;
  cp_current_leader := leader; cp_voters := {[1; 2; 3]}; cp_learners := ∅ |}.

Definition sample_load : BrokerServerLoad :=
  {| bl_serving := true; bl_active_connections := 0; bl_max_connections := 4 |}.

Definition sample_owner_load : StateOwnerLoad :=
  {| sl_active_jobs := 0; sl_queued_jobs := 0; sl_capacity := 4 |}.

Definition sample_readiness (status : ClusterRaftReadinessStatus) (leader : option N) :
    ClusterRaftReadiness := MkReadiness status (Some (sample_progress leader)).

Lemma sample_observer_words status leader :
  from_option word True leader →
  word_observer (ObserveCluster sample_load sample_owner_load (sample_readiness status leader)).
Proof.
  intros Hl. assert (∀ n, n ≤ 100 → word n) as Hw by (unfold word, u64_max; lia).
  split; [rewrite !Forall_cons; split_and!; [by apply Hw..|constructor]|]. cbn [from_option].
  split; [rewrite !Forall_cons; split_and!; [by apply Hw..|constructor]|].
  split; [rewrite !Forall_cons; split_and!; [by apply Hw..|done|done|done|constructor]|].
  split; [|split; [by apply set_Forall_empty|done]].
  intros n. cbn [cp_voters sample_progress]. rewrite !elem_of_union, !elem_of_singleton.
  intros [[->| ->]| ->]; by apply Hw.
Qed.

Definition sample_node : StaticClusterNode :=
  MkNode 1 (MkAddr "127.0.0.1:8811" true) (MkAddr "127.0.0.1:9811" true).

Lemma router_reads_node_readiness_witness :
  ∃ f, handle_operations_connection (J := text_json) (ObserveCluster sample_load sample_owner_load
         (sample_readiness RdReady (Some 1))) (Err StateOwnerStopped) 4096
         [Ok (take 10 OPERATIONS_READINESS_REQUEST); Ok (drop 10 OPERATIONS_READINESS_REQUEST)] =
         Ok (Some f) ∧
    ∀ limit delivered, read_bounded_operations_frame limit delivered [] = Ok f →
      let verdict := read_report (J := text_json) sample_node limit delivered in
      (leads sample_node sample_load sample_owner_load (sample_readiness RdReady (Some 1)) →
       verdict = Ok (Some tt)) ∧
      (¬ leads sample_node sample_load sample_owner_load (sample_readiness RdReady (Some 1)) →
       misreport sample_node verdict).
Proof.
  apply (router_reads_node_readiness text_json text_json_laws sample_node sample_load
    sample_owner_load (sample_readiness RdReady (Some 1)) (Err StateOwnerStopped) 4096).
  - by vm_compute.
  - by apply sample_observer_words.
  - done.
  - by vm_compute.
  - by vm_compute.
Defined.

(** C9: a command that is routed takes effect once, over any number of attempts
    and changes of the leader: if routing an owner-aware mutation with a fresh
    identity ends with a result or a committed error, the log holds exactly one
    application of it, and that is its answer.  Whenever discovery returns a
    leader, it asked every configured node in turn, and that one alone reported
    itself ready. *)
Theorem routed_command_applies_once (J : SerdeJson) (L : SerdeJsonLaws J) (W : Type) (Net : Network W)
    (Srv : SessionNetwork W) i request (r : StaticClusterRouter) (w w' : W) res m :
  valid_owned i request → sr_max_response_frame_bytes (sr_config r) = sn_limit →
  (∀ cmd reply, ¬ spent i cmd reply (sm_sessions m)) → evolves m (sn_machine w) →
  router_execute_owned i request r w = (res, w') →
  match res with
  | Ok payload => took_effect_once i request (Ok payload) m (sn_machine w')
  | Err (RoutingClient (Broker e)) => be_disposition e = DispCommitted →
      took_effect_once i request (Err e) m (sn_machine w')
  | _ => True
  end ∧
  ∀ leader w1 w2, discover_write_leader (sr_config r) w1 = (Ok leader, w2) →
    ∃ found, surveyed (sr_max_response_frame_bytes (sr_config r)) (sr_nodes (sr_config r)) w1 found w2 ∧
      ready_nodes (sr_nodes (sr_config r)) found = [leader].
Proof.
  intros Hv Hlim Hfresh Hev Hx. split; [|intros leader w1 w2; apply discovery_outcome].
  apply (router_outcome i request r w res w' m) in Hx as [_ Hout]; [|done..].
  destruct res as [payload|[| | | |[]]]; try done.
  - by apply settled_took_effect_once.
  - cbn in *. intros Hd. apply settled_took_effect_once; auto.
Qed.

(** Three nodes: the first leads and answers on the second attempt, the second
    follows, the third is down. *)
Definition sample_observer (status : ClusterRaftReadinessStatus) (leader : option N)
    (H : from_option word True leader) : TypedObserver :=
  exist _ _ (sample_observer_words status leader H).

Lemma one_is_word : from_option word True (Some 1).
Proof. by vm_compute. Qed.

Definition sample_site : Site LocalEngine :=
  MkSite (MkWorld (cw_service lost_then_answered) [Ok tt; Ok tt]
            [exchange [] OwnerServes; exchange [400%nat] OwnerServes])
    (MkAddr "127.0.0.1:8811" true)
    [(MkAddr "127.0.0.1:9811" true, sample_observer RdReady (Some 1) one_is_word);
     (MkAddr "127.0.0.1:9812" true, sample_observer RdFollower (Some 1) one_is_word)] None.

Definition sample_router : StaticClusterRouter :=
  MkRouter {| sr_nodes := sr_nodes StaticClusterRouterConfig_default; sr_timeout := 1000000000;
              sr_max_response_frame_bytes := 4096; sr_max_attempts := 3 |} 0.

Definition sample_route : result SuccessPayload StaticClusterRoutingError * Site LocalEngine :=
  router_execute_owned (J := text_json) (Net := site_network 4096) (rv_identity sample_reserved)
    sample_request sample_router sample_site.

Lemma routed_command_applies_once_witness :
  sample_route.1 = Ok (SNamespace 1 1 "jobs" 1) ∧
  took_effect_once (rv_identity sample_reserved) sample_request (Ok (SNamespace 1 1 "jobs" 1))
    owned_sessions (service_machine (cw_service (st_world sample_route.2))).
Proof.
  split; [by vm_compute|].
  apply (routed_command_applies_once text_json text_json_laws (Site LocalEngine) (site_network 4096)
    (site_sessions (L := text_json_laws) 4096) (rv_identity sample_reserved) sample_request sample_router
    sample_site sample_route.2 (Ok (SNamespace 1 1 "jobs" 1)) owned_sessions).
  - exact sample_owned.
  - done.
  - exact sample_fresh.
  - apply evolves_refl.
  - by vm_compute.
Defined.
