(* ===== verification/PyProps.v ===== *)
(** * The Python SDK against the broker: lemmas

    What the SDK writes is what the Rust client writes, and of a response it
    reads what the broker wrote.  Over a [SessionNetwork] a mutation of each of
    its clients that returns was settled in the log, however often it was sent.
    Of the operations listener's answers it reads the groups. *)

From stdpp Require Import pretty.
From S2P Require Import Prelude Values Task Group Messages Valid Display Wire Words Service Dispatch.
From S2P Require Import Sessions DispatchProps Json JsonText WireSchema WireV1 WireV1Props.
From S2P Require Import WireResponseProps WireVersions WireVersionsProps Server SessionStore Client.
From S2P Require Import Durable PyProtocol PyClient.

(** ** Text *)

(** [to_vec] writes the compact text that [json.dumps] writes with compact
    separators and [ensure_ascii=False]. *)
Class CompactText (J : SerdeJson) : Prop :=
  json_compact v : plain v = true → (depth v ≤ 127)%nat → json_write v = Ok (json_text v).

#[export] Instance text_compact : CompactText text_json.
Proof. by intros v _ _. Qed.

Lemma id_re_request_id id : id_re_fullmatch id = true ↔ valid_request_id id.
Proof.
  unfold valid_request_id, RequestId_new. destruct id as [|c rest]; [done|].
  unfold id_re_fullmatch, MAX_REQUEST_ID_BYTES, str_len. cbn [String.length].
  change (λ c, is_ascii_alphanumeric c || is_identifier_punct c) with is_request_id_byte.
  destruct (is_ascii_alphanumeric c), (all_bytes is_request_id_byte rest),
    (N.leb_spec (N.of_nat (String.length rest)) 127),
    (N.ltb_spec 128 (N.of_nat (S (String.length rest)))); cbn; split; try done; lia.
Qed.

Lemma id_re_valid_id id : id_re_fullmatch id = true ↔ valid_id id.
Proof.
  unfold valid_id. rewrite validate_identifier_ok. unfold identifier_text, MAX_IDENTIFIER_BYTES.
  destruct id as [|c rest]; [split; [done|naive_solver]|]. unfold id_re_fullmatch, str_len.
  rewrite !andb_true_iff, N.leb_le. cbn [String.length]. split.
  - intros [[? ?] ?]. exists c, rest. split_and!; [done|cbn [String.length]; lia|done..].
  - intros (c' & rest' & [= <- <-] & Hl & ? & ?). cbn [String.length] in Hl. split_and!; [done|lia|done].
Qed.

Lemma py_request_id id : valid_request_id id → py_validate_request_id id = Ok id.
Proof. intros H. unfold py_validate_request_id. by rewrite (proj2 (id_re_request_id id) H). Qed.

Lemma py_int_of_N n : py_int (Z.of_N n) = VNumber n.
Proof. by destruct n. Qed.

(** ** Requests *)

Definition py_operation (o : Operation) : PyOperation :=
  match o with
  | OpHealth => HEALTH
  | OpEnsureNamespace => ENSURE_NAMESPACE
  | OpPublishTask => PUBLISH_TASK
  | OpEnsureConsumerGroup => ENSURE_GROUP
  | OpJoinConsumerGroup => JOIN_GROUP
  | OpHeartbeat => HEARTBEAT
  | OpLeaveConsumerGroup => LEAVE_GROUP
  | OpClaimTask => CLAIM_TASK
  | OpRenewTaskLease => RENEW_TASK
  | OpCompleteTask => COMPLETE_TASK
  end.

Lemma py_operation_value o : PyOperation_value (py_operation o) = Operation_as_str o.
Proof. by destruct o. Qed.

Lemma py_operation_health o : py_operation o = HEALTH ↔ o = OpHealth.
Proof. by destruct o. Qed.

(** The identity of an owner-aware command, as the SDK takes it. *)
Definition py_identity (i : CommandIdentity) : PyCommandIdentity := {|
  pi_session_id := ci_session_id i; pi_owner_epoch := Z.of_N (ci_owner_epoch i);
  pi_owner_instance_id := default "" (ci_owner_instance_id i);
  pi_sequence := Z.of_N (ci_sequence i) |}.

(** The method call that asks for a request. *)
Definition sdk_call {S} (mutate : PyOperation → Value → S → result PyBrokerResult PyError * S)
    (request : BrokerRequest) : S → result PyBrokerResult PyError * S :=
  match request with
  | ReqHealth _ => mutate HEALTH (VObject [])
  | ReqEnsureNamespace r => method_ensure_namespace mutate (qn_namespace_id r)
  | ReqPublishTask r =>
      method_publish_task mutate (qp_namespace_id r) (qp_task_id r) (qp_objective r)
  | ReqEnsureConsumerGroup r => method_ensure_group mutate (qg_namespace_id r) (qg_group_id r)
  | ReqJoinConsumerGroup r =>
      method_join_group mutate (qj_group_id r) (qj_member_id r) (qj_capabilities r)
  | ReqHeartbeat r => method_heartbeat mutate (qh_group_id r) (qh_member_id r)
      (Z.of_N (qh_expected_generation r))
  | ReqLeaveConsumerGroup r => method_leave_group mutate (ql_group_id r) (ql_member_id r)
      (Z.of_N (ql_expected_generation r))
  | ReqClaimTask r => method_claim_task mutate (qc_group_id r) (qc_member_id r)
      (Z.of_N (qc_expected_term r)) (Z.of_N (qc_expected_generation r)) (qc_lease_id r)
      (Z.of_N (qc_lease_duration r))
  | ReqRenewTaskLease r => method_renew_task mutate (qr_task_id r) (qr_group_id r) (qr_member_id r)
      (Z.of_N (qr_expected_term r)) (Z.of_N (qr_expected_generation r))
      (Z.of_N (qr_expected_lease_epoch r)) (qr_lease_id r) (Z.of_N (qr_lease_duration r))
  | ReqCompleteTask r => method_complete_task mutate (qd_task_id r) (qd_group_id r) (qd_member_id r)
      (Z.of_N (qd_expected_term r)) (Z.of_N (qd_expected_generation r))
      (Z.of_N (qd_expected_lease_epoch r)) (qd_lease_id r) (qd_result r)
  end.

(** The result type that a method expects. *)
Definition expected_result (o : Operation) : string :=
  match o with
  | OpHealth => ""
  | OpEnsureNamespace => "NamespaceResult"
  | OpPublishTask => "TaskPublishedResult"
  | OpEnsureConsumerGroup | OpJoinConsumerGroup | OpLeaveConsumerGroup => "ConsumerGroupResult"
  | OpHeartbeat => "HeartbeatResult"
  | OpClaimTask => "TaskClaimResult"
  | OpRenewTaskLease => "TaskLeaseRenewedResult"
  | OpCompleteTask => "TaskCompletedResult"
  end.

(** Every method sends the payload that the protocol has for its request. *)
Lemma sdk_call_mutates {S} (mutate : PyOperation → Value → S → result PyBrokerResult PyError * S)
    request s :
  mutation_request request →
  sdk_call mutate request s =
    mutate_typed mutate (py_operation (request_operation request))
      (expected_result (request_operation request)) (request_payload request) s.
Proof.
  intros [[_ Hv] Hop]. destruct request as [r|r|r|r|r|r|r|r|r|r]; cbn [sdk_call request_operation];
    try done; unfold method_ensure_namespace, method_publish_task, method_ensure_group,
      method_join_group, method_heartbeat, method_leave_group, method_claim_task, method_renew_task,
      method_complete_task; rewrite ?py_int_of_N; try done.
  destruct Hv as (_ & _ & Hl & _). unfold MAX_DECLARED_CAPABILITIES in Hl.
  by rewrite (proj2 (N.ltb_ge 64 (len (qj_capabilities r)))).
Qed.

Section requests.
Context {J : SerdeJson} {L : SerdeJsonLaws J} {C : CompactText J}.

(** A frame of the broker is the text of its value. *)
Lemma framed_text v f :
  plain v = true → (depth v ≤ 127)%nat → framed v f → f = (json_text v ++ [newline])%list.
Proof. intros Hp Hd (b & Hw & ->). by rewrite (json_compact v Hp Hd) in Hw; injection Hw as ->. Qed.

Lemma bounded_text v max f :
  plain v = true → (depth v ≤ 127)%nat → encode_bounded v max = Ok f →
  f = (json_text v ++ [newline])%list ∧ len f ≤ max.
Proof. intros Hp Hd Hf. apply encode_bounded_framed in Hf as [Hf ?]. split; [by apply framed_text|done]. Qed.

(** The SDK's frame is the text of an object with the same members. *)
Lemma serialize_frame v entries max f :
  plain v = true → (depth v ≤ 127)%nat → object entries = v → encode_bounded v max = Ok f →
  py_serialize entries = f.
Proof. intros Hp Hd <- Hf. unfold py_serialize. by destruct (bounded_text _ _ _ Hp Hd Hf) as [-> _]. Qed.

Lemma py_encodes_v1 request max f :
  mutation_request request → encode_request_with_limit request max = Ok f →
  encode_mutation_v1 (request_request_id request) (py_operation (request_operation request))
    (request_payload request) = Ok f.
Proof.
  intros [Hv Hop] Hf. unfold encode_mutation_v1.
  rewrite decide_False by (by rewrite py_operation_health).
  rewrite py_request_id by apply Hv. cbn [map_err]. f_equal. rewrite py_operation_value.
  destruct (request_payload_plain request Hv) as [Hp Hd].
  destruct (request_root_plain (Operation_as_str (request_operation request))
    (request_request_id request) _ Hp Hd) as [Hrp Hrd]. by eapply serialize_frame.
Qed.

Lemma py_encodes_health id max f :
  valid_request_id id →
  encode_request_with_limit (ReqHealth {| qq_request_id := id |}) max = Ok f →
  encode_health id = Ok f.
Proof.
  intros Hv Hf. unfold encode_health. rewrite py_request_id by done. f_equal.
  eapply serialize_frame; [| |done|exact Hf]; [done|simpl; lia].
Qed.

Lemma py_encodes_acquire r max f :
  valid_wire_request (WireV3 (AcquireOwner r)) →
  encode_owner_acquisition_request_with_limit r max = Ok f →
  encode_owner_acquire (oa_request_id r) (oa_session_id r) (Z.of_N (oa_expected_owner_epoch r))
    (oa_owner_instance_id r) = Ok f.
Proof.
  destruct r as [id sid epoch o]. intros (Hid & _ & [Hpos Hw] & _) Hf. unfold encode_owner_acquire.
  cbn [oa_request_id oa_session_id oa_expected_owner_epoch oa_owner_instance_id] in *.
  rewrite py_request_id by done. rewrite (proj2 (Z.leb_gt _ 0)) by lia. f_equal.
  rewrite py_int_of_N. eapply serialize_frame; [| |done|exact Hf]; [|simpl; lia].
  eval_object. cbn [plain forallb snd]. by rewrite (proj2 (N.leb_le _ _) Hw).
Qed.

Lemma py_encodes_owned i request max f :
  valid_owned i request →
  encode_owner_mutation_request_with_limit (MkOwnerIdentified i request) max = Ok f →
  encode_owner_mutation (request_request_id request) (py_operation (request_operation request))
    (request_payload request) (pi_session_id (py_identity i)) (pi_owner_epoch (py_identity i))
    (pi_owner_instance_id (py_identity i)) (pi_sequence (py_identity i)) = Ok f.
Proof.
  destruct i as [sid epoch instance q]. intros ([Hv Hop] & _ & [_ He] & [_ Hq] & Ho).
  unfold encode_owner_mutation_request_with_limit, encode_owner_mutation.
  rewrite decide_False by (by rewrite py_operation_health). rewrite py_request_id by apply Hv.
  cbn [om_request om_identity] in *. pose proof (encoded_payload_spec request max Hv) as Hp.
  destruct (encoded_payload request max) as [v|]; [|done]. destruct Hp as [-> _].
  cbn [ci_session_id ci_sequence ci_owner_epoch ci_owner_instance_id py_identity pi_session_id
    pi_owner_epoch pi_owner_instance_id pi_sequence] in *. destruct instance as [o|]; [|done].
  cbn [ok_or default]. rewrite !py_int_of_N, py_operation_value. intros Hf. f_equal. destruct (request_payload_plain request Hv) as [Hp Hd].
  revert Hf Hp Hd. generalize (request_payload request). intros payload Hf Hp Hd.
  eapply serialize_frame; [| |done|exact Hf]; eval_object; cbn [plain forallb snd depth foldr].
  - rewrite Hp, !(λ n, proj2 (N.leb_le n u64_max)) by done. done.
  - lia.
Qed.
End requests.

(** ** Responses *)

(** The result that the SDK has for a payload. *)
Definition py_result (p : SuccessPayload) : option PyBrokerResult :=
  match p with
  | SHealth _ _ _ | SSessionOwnerAcquired _ => None
  | SNamespace term revision id namespace_revision =>
      Some (PyNamespaceResult term revision id namespace_revision)
  | STaskPublished term revision id task_revision status =>
      Some (PyTaskPublishedResult term revision id task_revision (task_status_str status))
  | SConsumerGroup term revision id generation group_revision member_count =>
      Some (PyConsumerGroupResult term revision id generation group_revision member_count)
  | SHeartbeat term revision group_id member_id generation member_revision =>
      Some (PyHeartbeatResult term revision group_id member_id generation member_revision)
  | STaskClaimed term revision task_id objective task_revision lease_id epoch expires generation =>
      Some (PyTaskClaimResult term revision task_id objective task_revision lease_id epoch expires
              generation)
  | STaskLeaseRenewed term revision task_id task_revision lease_id epoch expires generation =>
      Some (PyTaskLeaseRenewedResult term revision task_id task_revision lease_id epoch expires
              generation)
  | STaskCompleted term revision id task_revision status =>
      Some (PyTaskCompletedResult term revision id task_revision (task_status_str status))
  end.

(** A claim has all fields of a task or none. *)
Definition whole (p : SuccessPayload) : bool :=
  match p with
  | STaskClaimed _ _ task_id objective task_revision lease_id epoch expires _ =>
      forallb (Bool.eqb (present task_id)) [present objective; present task_revision;
        present lease_id; present epoch; present expires]
  | _ => true
  end.

Lemma valid_whole p : valid_payload p → whole p = true.
Proof.
  destruct p; try done. cbn [valid_payload]. intros Hv. destruct_and?. unfold claim_shape in *.
  by repeat case_match.
Qed.

Lemma valid_words p : valid_payload p → word_payload p.
Proof.
  destruct p; cbn [valid_payload word_payload]; unfold positive_word; intros Hv; destruct_and?; subst;
    unfold claim_shape in *; repeat case_match; destruct_and?; try done; by split_and!.
Qed.

(** The exception for a broker's error. *)
Definition py_broker_error (e : ErrorPayload) : PyError :=
  PyBrokerError (ep_code e) (ep_message e) (Some (ep_disposition e)).

Section responses.
Context {P : PyStd} {PL : PyStdLaws P}.

Lemma normalize_plain v : plain v = true → py_normalize_json_value v = Ok v.
Proof.
  induction v as [| | | | |vs IH|kvs IH] using Value_nested_ind; try done; cbn.
  - induction IH as [|v vs Hv _ IHvs]; [done|]. intros [Hp1 Hp2]%andb_true_iff.
    rewrite Hv by done. specialize (IHvs Hp2).
    match type of IHvs with map_ok VArray ?x = _ => destruct x end; by simplify_eq/=.
  - intros [_ Hp]%andb_true_iff. revert Hp. induction IH as [|[k v] kvs Hv _ IHk]; [done|].
    intros [Hp1 Hp2]%andb_true_iff. cbn in Hv, Hp1. rewrite Hv by done. specialize (IHk Hp2).
    match type of IHk with map_ok VObject ?x = _ => destruct x end; by simplify_eq/=.
Qed.

Lemma py_envelope_success f id version v d :
  json_loads f = Some (success_at version id v) → plain (success_at version id v) = true →
  py_decode_envelope f id version d =
    Ok [("ok", VBool true); ("request_id", VString id); ("result", v); ("version", VNumber version)].
Proof.
  intros Hf Hp. unfold py_decode_envelope. rewrite Hf. cbn [ok_or]. rewrite normalize_plain by done.
  cbn. by rewrite N.eqb_refl, String.eqb_refl.
Qed.

Lemma py_envelope_error f id version error d :
  json_loads f = Some (error_at version id error) → plain (error_at version id error) = true →
  py_decode_envelope f id version d = Err (py_response_error error d).
Proof.
  intros Hf Hp. unfold py_decode_envelope. rewrite Hf. cbn [ok_or]. rewrite normalize_plain by done.
  cbn -[py_response_error]. by rewrite N.eqb_refl, String.eqb_refl.
Qed.

Lemma error_code_of c : BrokerErrorCode_of (code_as_str c) = Some c.
Proof. by destruct c. Qed.

Lemma disposition_of d : ErrorDisposition_of (disposition_as_str d) = Some d.
Proof. by destruct d. Qed.

Lemma py_raises_error e :
  str_len (ep_message e) ≤ MAX_ERROR_MESSAGE_BYTES →
  py_response_error (error_members e) true = py_broker_error e.
Proof.
  intros Hm. unfold py_response_error. cbn -[BrokerErrorCode_of ErrorDisposition_of str_len N.ltb].
  rewrite error_code_of, disposition_of. cbn [ok_or].
  by rewrite (proj2 (N.ltb_ge 4096 (str_len (ep_message e))) Hm).
Qed.

Lemma py_raises_error_v1 code message :
  str_len message ≤ MAX_ERROR_MESSAGE_BYTES →
  py_response_error [("code", VString (code_as_str code)); ("message", VString message)] false =
    PyBrokerError code message None.
Proof.
  intros Hm. unfold py_response_error. cbn -[BrokerErrorCode_of str_len N.ltb].
  rewrite error_code_of. cbn [ok_or]. by rewrite (proj2 (N.ltb_ge 4096 (str_len message)) Hm).
Qed.

(** Of the payload that answers an operation the SDK reads the result, and
    refuses half a claim. *)
Lemma py_reads_payload o p v :
  o ≠ OpHealth → answers_operation o p → success_payload p = Ok v →
  ∃ kvs q, v = VObject kvs ∧ py_result p = Some q ∧ py_type_name q = expected_result o ∧
    py_decode_mutation_result kvs (py_operation o) =
      if whole p then Ok q
      else Err (PyProtocolError
        "task claim result must contain a complete lease payload or all null fields").
Proof.
  destruct o, p; cbn [answers_operation]; try done; intros _ _;
    unfold success_payload, consumer_group_success_payload, claimed_success_from_payload,
      renewed_success_from_payload;
    try (destruct (member_count_u64 _) as [count|] eqn:Hc; [|done];
         unfold member_count_u64 in Hc; case_match; [|done]; injection Hc as <-);
    intros [= <-]; eexists _, _; (split; [reflexivity|]); (split; [reflexivity|]);
    (split; [reflexivity|]); try (by destruct status).
  all: try (destruct task_id, objective, task_revision, lease_id, lease_epoch, lease_expires_at_ms);
    reflexivity.
Qed.
End responses.

(** What the SDK makes of a response. *)
Definition py_delivered (response : BrokerResponse) : result PyBrokerResult PyError :=
  match response with
  | ResponseSuccess _ p =>
      match py_result p with
      | Some q =>
          if whole p then Ok q
          else Err (PyProtocolError
            "task claim result must contain a complete lease payload or all null fields")
      | None => Err (PyProtocolError "")
      end
  | ResponseError _ e => Err (py_broker_error e)
  end.

Section frames.
Context {P : PyStd} {PL : PyStdLaws P} {J : SerdeJson} {L : SerdeJsonLaws J} {C : CompactText J}.

Lemma loads_framed v f :
  plain v = true → (depth v ≤ 127)%nat → framed v f → json_loads f = Some v.
Proof. intros Hp Hd Hf. rewrite (framed_text v f) by done. by apply loads_reads. Qed.

Lemma loads_bounded v max f :
  plain v = true → (depth v ≤ 127)%nat → encode_bounded v max = Ok f → json_loads f = Some v.
Proof. intros Hp Hd [Hf _]%encode_bounded_framed. by apply loads_framed. Qed.

Lemma success_at_plain version id v :
  version ≤ 3 → plain v = true → (depth v ≤ 1)%nat →
  plain (success_at version id v) = true ∧ (depth (success_at version id v) ≤ 127)%nat.
Proof.
  intros Hv Hp Hd. unfold success_at. cbn [plain forallb snd depth foldr].
  rewrite Hp, word_leb by (unfold word, u64_max; lia). split; [done|lia].
Qed.

(** Of any response to a mutation whose numbers have 64 bits, valid or not. *)
Lemma py_reads_v3 o response max f :
  o ≠ OpHealth →
  match response with ResponseSuccess _ p => answers_operation o p ∧ word_payload p | _ => True end →
  encode_response_v3_with_limit response max = Ok f →
  decode_mutation_response f (response_request_id response) (py_operation o) = py_delivered response.
Proof.
  intros Hop. unfold decode_mutation_response.
  destruct response as [id p|id e]; cbn [response_request_id py_delivered].
  - intros [Ho Hw] He. destruct (response_v3_payload o id p max f Ho He) as [v Hs].
    destruct (success_trusted o p v Hop Ho Hw Hs) as (Hp & Hd & _).
    pose proof (response_v3_success_frame id p v max Hs Hp Hd) as Hf. rewrite He in Hf.
    destruct Hf as [Hf _]. destruct (success_at_plain 3 id v) as [Hpl Hdp]; [done..|].
    rewrite (py_envelope_success f id 3 v) by (done || by eapply loads_bounded).
    destruct (py_reads_payload o p v Hop Ho Hs) as (kvs & q & -> & -> & _ & <-). done.
  - intros _ He. pose proof (response_v3_error_bound _ _ _ _ He) as Hm.
    pose proof (response_v3_error_frame id e max Hm) as Hf. rewrite He in Hf. destruct Hf as [Hf _].
    rewrite (py_envelope_error f id 3 (error_members e)); [by rewrite py_raises_error| |done].
    eapply loads_bounded; [done|simpl; lia|done].
Qed.

Lemma py_reads_v1 o response max f :
  o ≠ OpHealth → valid_response o response → encode_response_with_limit response max = Ok f →
  decode_mutation_response_v1 f (response_request_id response) (py_operation o) =
    match response with
    | ResponseError _ e => Err (PyBrokerError (ep_code e) (ep_message e) None)
    | _ => py_delivered response
    end.
Proof.
  intros Hop. unfold decode_mutation_response_v1, encode_response_with_limit.
  destruct response as [id p|id e]; cbn [response_request_id py_delivered].
  - intros [Ho Hv]. destruct (success_reads_back o p Ho Hv) as (v & Hs & Hp & Hd & _).
    cbn [response_root]. rewrite Hs. intros Hf.
    destruct (success_at_plain 1 id v) as [Hpl Hdp]; [done..|].
    rewrite (py_envelope_success f id 1 v) by (done || by eapply loads_bounded).
    destruct (py_reads_payload o p v Hop Ho Hs) as (kvs & q & -> & -> & _ & <-). done.
  - intros Hv. rewrite (response_shape o (ResponseError id e) Hv). intros Hf.
    rewrite (py_envelope_error f id 1 [("code", VString (code_as_str (ep_code e)));
      ("message", VString (ep_message e))]); [by rewrite py_raises_error_v1| |done].
    eapply loads_bounded; [done|simpl; lia|done].
Qed.

Lemma py_reads_health id t r max f :
  positive_word t → word r →
  encode_response_with_limit (ResponseSuccess id (SHealth PROTOCOL_VERSION t r)) max = Ok f →
  decode_health_response f id = Ok (MkPyHealth 1 t r).
Proof.
  intros Ht Hr Hf. set (v := health_success_payload PROTOCOL_VERSION t r).
  change (encode_bounded (success_at 1 id v) max = Ok f) in Hf.
  destruct (success_at_plain 1 id v) as [Hpl Hdp]; [done| |simpl; lia|].
  { unfold v, health_success_payload. eval_object. cbn [plain forallb snd]. by words. }
  unfold decode_health_response.
  by rewrite (py_envelope_success f id 1 v) by (done || by eapply loads_bounded).
Qed.

Lemma py_reads_acquisition id epoch max f :
  positive_word epoch →
  encode_response_v3_with_limit (ResponseSuccess id (SSessionOwnerAcquired epoch)) max = Ok f →
  decode_owner_acquire_response f id = Ok epoch.
Proof.
  intros He Hf. set (v := VObject [("owner_epoch", VNumber epoch)]).
  change (encode_bounded (success_at 3 id v) max = Ok f) in Hf.
  destruct (success_at_plain 3 id v) as [Hpl Hdp]; [done| |simpl; lia|].
  { unfold v. cbn [plain forallb snd]. by words. }
  unfold decode_owner_acquire_response.
  rewrite (py_envelope_success f id 3 v) by (done || by eapply loads_bounded). cbn.
  destruct He. by rewrite (proj2 (N.eqb_neq epoch 0)) by lia.
Qed.

(** Errors, as the decoders without a payload read them. *)
Lemma py_health_error id e max f :
  encode_response_with_limit (ResponseError id e) max = Ok f →
  decode_health_response f id = Err (PyBrokerError (ep_code e) (ep_message e) None).
Proof.
  intros He. pose proof (encoded_text_fits _ _ _ He) as Hm. cbn [error_text] in Hm.
  unfold encode_response_with_limit in He.
  rewrite (response_shape OpHealth (ResponseError id e) Hm) in He. unfold decode_health_response.
  rewrite (py_envelope_error f id 1 [("code", VString (code_as_str (ep_code e)));
    ("message", VString (ep_message e))]); [by rewrite py_raises_error_v1| |done].
  eapply loads_bounded; [done|simpl; lia|done].
Qed.

Lemma py_acquisition_error id e max f :
  encode_response_v3_with_limit (ResponseError id e) max = Ok f →
  decode_owner_acquire_response f id = Err (py_broker_error e).
Proof.
  intros He. pose proof (response_v3_error_bound _ _ _ _ He) as Hm.
  pose proof (response_v3_error_frame id e max Hm) as Hf. rewrite He in Hf. destruct Hf as [Hf _].
  unfold decode_owner_acquire_response.
  rewrite (py_envelope_error f id 3 (error_members e)); [by rewrite py_raises_error| |done].
  eapply loads_bounded; [done|simpl; lia|done].
Qed.

(** A line of another protocol is refused. *)
Lemma py_refuses_foreign line id o :
  foreign_line line → ∃ e, decode_mutation_response line id o = Err (PyProtocolError e).
Proof.
  intros (kvs & v & Hf & _ & Hp & Hd & _ & Hver).
  unfold decode_mutation_response, py_decode_envelope. rewrite (loads_framed _ _ Hp Hd Hf).
  cbn [ok_or]. rewrite normalize_plain by done. unfold py_get at 1. rewrite Hver. cbn. by eexists.
Qed.
End frames.

(** ** Reading a line *)

Lemma ends_with_newline_app b c : ends_with_newline (b ++ [c])%list = bool_decide (c = newline).
Proof. unfold ends_with_newline. rewrite last_snoc. apply bool_decide_ext. naive_solver. Qed.

Lemma ends_with_newline_elem b : ends_with_newline b = true → newline ∈ b.
Proof. unfold ends_with_newline. intros H%bool_decide_eq_true. by apply last_Some_elem_of. Qed.

Lemma newline_position_elem b : newline_position b = None → newline ∉ b.
Proof.
  induction b as [|c b IH]; [intros _; apply not_elem_of_nil|]. cbn [newline_position].
  destruct (Ascii.eqb_spec c newline) as [|Hc]; [done|]. destruct (newline_position b); [done|].
  intros _. apply not_elem_of_cons. split; [congruence|auto].
Qed.

Lemma newline_position_bound b p : newline_position b = Some p → (p < length b)%nat.
Proof.
  revert p. induction b as [|c b IH]; intros p; [done|]. cbn [newline_position length].
  destruct (Ascii.eqb c newline); [intros [= <-]; lia|]. destruct (newline_position b) as [n|]; [|done].
  intros [= <-]. specialize (IH n eq_refl). lia.
Qed.

Lemma newline_position_take n b p :
  newline_position (take_N n b) = Some p → newline_position b = Some p.
Proof.
  rewrite take_N_take. intros H. rewrite <-(take_drop (N.to_nat n) b), newline_position_app.
  by rewrite H.
Qed.

(** A complete line that [readline] returns within the bound is the frame that
    the Rust client reads. *)
Lemma readline_bounded max reader line r rest :
  newline ∉ line → len line ≤ max → py_readline (max + 1 - len line) reader line = (Ok r, rest) →
  len r ≤ max → ends_with_newline r = true → read_bounded_frame max reader line = (Ok r, rest).
Proof.
  revert line. induction reader as [|x reader IH]; intros line Hn Hl; cbn [py_readline].
  { intros [= -> _] _ H%ends_with_newline_elem. done. }
  destruct x as [[|b bs]|e]; [intros [= -> _] _ H%ends_with_newline_elem; done| |done].
  set (chunk := b :: bs). cbn [read_bounded_frame]. fold chunk.
  destruct (newline_position (take_N _ chunk)) as [p|] eqn:Hp.
  - pose proof (newline_position_take _ _ _ Hp) as Hq. rewrite Hq. intros Hr Hm _.
    assert (r = line ++ take (S p) chunk)%list as -> by congruence.
    pose proof (newline_position_bound _ _ Hq).
    assert (len line + N.of_nat (S p) ≤ max) as Hlen.
    { unfold len in *. rewrite length_app, length_take in Hm. lia. }
    rewrite (proj2 (N.ltb_ge _ _) Hlen). by injection Hr as <-.
  - destruct (N.leb_spec (max + 1 - len line) (len chunk)) as [Hc|Hc].
    + intros Hr Hm. assert (r = line ++ take_N (max + 1 - len line) chunk)%list as -> by congruence.
      unfold len in *. rewrite length_app, take_N_take, length_take in Hm. lia.
    + assert (take_N (max + 1 - len line) chunk = chunk) as Ht.
      { rewrite take_N_take. apply take_ge. unfold len in *. lia. }
      rewrite Ht in Hp. rewrite Hp. intros Hr Hm He.
      assert (len line + N.of_nat (length chunk) ≤ max) as Hlen by (unfold len in *; lia).
      rewrite (proj2 (N.ltb_ge _ _) Hlen), firstn_all.
      apply IH; [|unfold len in *; rewrite length_app; lia| |done..].
      * apply not_elem_of_app. split; [done|by apply newline_position_elem].
      * rewrite <-Hr. f_equal. unfold len in *. rewrite length_app. lia.
Qed.

Lemma readuntil_extends limit reader buffer r :
  py_readuntil limit reader buffer = Ok r → newline ∉ buffer → len buffer ≤ len r.
Proof.
  revert buffer. induction reader as [|x reader IH]; intros buffer; cbn [py_readuntil]; [done|].
  destruct x as [[|b bs]|e]; [done| |done]. rewrite newline_position_app. intros Hr Hn.
  rewrite (newline_position_none buffer Hn) in Hr.
  destruct (newline_position (b :: bs)) as [p|] eqn:Hp; cbn [option_map] in Hr.
  - destruct (_ <? _); [done|]. injection Hr as <-. unfold len.
    rewrite length_take, length_app. lia.
  - destruct (_ <? _); [done|]. apply IH in Hr.
    + unfold len in *. rewrite length_app in Hr. lia.
    + apply not_elem_of_app. split; [done|by apply newline_position_elem].
Qed.

Lemma readuntil_failed limit reader buffer e :
  py_readuntil limit reader buffer = Err e →
  match e with PyTransportError _ | PyProtocolError _ => True | _ => False end.
Proof.
  revert buffer. induction reader as [|x reader IH]; intros buffer; cbn [py_readuntil];
    [by intros [= <-]|].
  destruct x as [[|b bs]|x]; [by intros [= <-]| |by intros [= <-]].
  destruct (newline_position _); destruct (_ <? _); try (by intros [= <-]). apply IH.
Qed.

Lemma readuntil_bounded limit max reader buffer r :
  newline ∉ buffer → py_readuntil limit reader buffer = Ok r → len r ≤ max →
  ∃ rest, read_bounded_frame max reader buffer = (Ok r, rest).
Proof.
  revert buffer. induction reader as [|x reader IH]; intros buffer Hn; cbn [py_readuntil]; [done|].
  destruct x as [[|b bs]|e]; [done| |done]. set (chunk := b :: bs). intros Hr Hm.
  pose proof (readuntil_extends limit (Ok chunk :: reader) buffer r Hr Hn) as Hext.
  cbn [read_bounded_frame]. fold chunk. rewrite newline_position_app in Hr.
  rewrite (newline_position_none buffer Hn) in Hr.
  destruct (newline_position chunk) as [p|] eqn:Hp; cbn [option_map] in Hr; destruct (_ <? _); try done.
  - injection Hr as <-. pose proof (newline_position_bound _ _ Hp) as Hb.
    rewrite take_app_ge in * by lia.
    replace (S (length buffer + p) - length buffer)%nat with (S p) in * by lia.
    assert (len buffer + N.of_nat (S p) ≤ max) as Hlen.
    { unfold len in *. rewrite length_app, length_take in Hm. lia. }
    rewrite (proj2 (N.ltb_ge _ _) Hlen). by eexists.
  - assert (newline ∉ (buffer ++ chunk)%list) as Hn'
      by (apply not_elem_of_app; split; [done|by apply newline_position_elem]).
    pose proof (readuntil_extends _ _ _ _ Hr Hn') as Hext'.
    assert (len buffer + N.of_nat (length chunk) ≤ max) as Hlen.
    { unfold len in *. rewrite length_app in Hext'. lia. }
    rewrite (proj2 (N.ltb_ge _ _) Hlen), firstn_all. by apply IH.
Qed.

(** ** Mutations *)

(** What a mutation of the SDK comes to between two states of the log: a result
    is that of a settled request, and so is an error that is marked committed. *)
Definition py_outcome (i : CommandIdentity) (request : BrokerRequest)
    (r : result PyBrokerResult PyError) (m m' : SessionMachine) : Prop :=
  evolves m m' ∧
  match r with
  | Ok q => ∃ p, py_result p = Some q ∧ py_type_name q = expected_result (request_operation request) ∧
      settled i request (Ok p) m m'
  | Err (PyBrokerError code message (Some DispCommitted)) =>
      settled i request (Err {| be_code := code; be_message := message;
                                be_disposition := DispCommitted |}) m m'
  | Err _ => True
  end.

Lemma py_outcome_from i request r m0 m m' :
  evolves m0 m → py_outcome i request r m m' → py_outcome i request r m0 m'.
Proof.
  intros Hev [He Hr]. split; [exact (evolves_trans _ _ _ Hev He)|].
  destruct r as [q|[| | |code message [[]|]| | | | |]]; try done.
  - destruct Hr as (p & Hq & Ht & Hs). exists p. split_and!; [done..|].
    exact (settled_between _ _ _ _ _ _ _ Hev Hs (evolves_refl _)).
  - exact (settled_between _ _ _ _ _ _ _ Hev Hr (evolves_refl _)).
Qed.

(** An error of the SDK itself says nothing. *)
Lemma py_outcome_failed i request e m m' :
  evolves m m' → match e with PyBrokerError _ _ _ => False | _ => True end →
  py_outcome i request (Err e) m m'.
Proof. intros Hev He. split; [done|]. by destruct e. Qed.

Section mutations.
Context {P : PyStd} {PL : PyStdLaws P} {J : SerdeJson} {L : SerdeJsonLaws J} {C : CompactText J}.
Context {W : Type} {Net : Network W} {Srv : SessionNetwork W}.
Context (i : CommandIdentity) (request : BrokerRequest) (f : bytes).
Context (Hv : valid_owned i request).
Context (Hf : encode_owner_mutation_request_with_limit (MkOwnerIdentified i request) sn_limit = Ok f).

Abbreviation decode response := (decode_mutation_response response (request_request_id request)
  (py_operation (request_operation request))).

(** Of a line that arrives. *)
Lemma py_line_outcome w reads w' line rest :
  nw_send f w = (Ok reads, w') → read_bounded_frame sn_limit reads [] = (Ok line, rest) →
  quiet rest ∧ py_outcome i request (decode line) (sn_machine w) (sn_machine w').
Proof.
  intros Hsend Hread. pose proof (sn_sends f w) as Hev. rewrite Hsend in Hev. cbn [snd] in Hev.
  destruct (sn_responds i request f w reads w' line rest Hv Hf Hsend Hread) as [Hq Hline].
  split; [done|]. destruct Hline as [Hl|(response & He & Hid & Ha)].
  { destruct (py_refuses_foreign line (request_request_id request)
      (py_operation (request_operation request)) Hl) as [e ->]. by apply py_outcome_failed. }
  assert (request_operation request ≠ OpHealth) as Hop by apply Hv.
  rewrite <-Hid, (py_reads_v3 (request_operation request) response sn_limit line);
    [|done|by destruct response; naive_solver|done].
  destruct response as [id p|id e]; cbn [py_delivered answered] in *.
  - destruct Ha as (Ho & Hw & Hs). destruct (response_v3_payload _ _ _ _ _ Ho He) as [v Hp].
    destruct (py_reads_payload _ _ _ Hop Ho Hp) as (kvs & q & _ & Hq' & Ht & _). rewrite Hq'.
    destruct (whole p); [|by apply py_outcome_failed]. split; [done|]. eauto.
  - split; [done|]. unfold py_broker_error. destruct (ep_disposition e) eqn:Hd; try done. by apply Ha.
Qed.

(** *** The synchronous client *)

Definition py_ready (c : PyBrokerClient) : Prop :=
  pc_max_response_frame_bytes (pb_config c) = Z.of_N sn_limit ∧
  match pb_reader c with Some unread => quiet unread | None => True end.

Lemma py_ready_close c : py_ready c → py_ready (py_close c).
Proof. intros [Hl _]. by split. Qed.

Lemma py_connection_outcome s r s' :
  py_ready s.1 → py_ensure_connection s = (r, s') →
  py_ready s'.1 ∧ evolves (sn_machine s.2) (sn_machine s'.2) ∧
  match r with Err e => ∃ text, e = PyTransportError text | Ok _ => True end.
Proof.
  destruct s as [c w]. unfold py_ensure_connection. intros Hc.
  destruct (pb_reader c) as [unread|] eqn:Hu; [by intros [= <- <-]|].
  pose proof (sn_connects (py_address (pc_host (pb_config c)) (pc_port (pb_config c))) w) as Hw.
  destruct (nw_connect _ w) as [[u|e] w1]; cbn [snd] in *; intros [= <- <-]; cbn [fst snd].
  - split_and!; [|done..]. split; [apply Hc|]. constructor.
  - split_and!; [by apply py_ready_close|done|by eexists].
Qed.

(** A line that passes the checks is the frame that was sent back. *)
Lemma py_line_read unread reads line rest :
  quiet unread → py_readline (Z.to_N (Z.of_N sn_limit + 1)) (unread ++ reads) [] = (Ok line, rest) →
  py_check_response line (Z.of_N sn_limit) = Ok line →
  read_bounded_frame sn_limit reads [] = (Ok line, rest).
Proof.
  intros Hq Hr Hc.
  assert (len line ≤ sn_limit ∧ ends_with_newline line = true) as [Hl He].
  { unfold py_check_response in Hc. destruct line as [|b bs]; [done|].
    destruct (Z.ltb_spec (Z.of_N sn_limit) (Z.of_N (len (b :: bs)))); [done|].
    destruct (ends_with_newline _); [|done]. split; [lia|done]. }
  destruct Hq as [|x unread Hx _].
  - apply readline_bounded; [apply not_elem_of_nil|unfold len; simpl; lia| |done..].
    rewrite <-Hr. f_equal. unfold len. simpl. lia.
  - destruct x as [[|]|]; [|done..]. injection Hr as <- _. done.
Qed.

Lemma py_check_response_error line max :
  match py_check_response line max with
  | Ok response => response = line
  | Err e => match e with PyBrokerError _ _ _ => False | _ => True end
  end.
Proof.
  unfold py_check_response. destruct line as [|b bs]; [done|]. destruct (_ <? _)%Z; [done|].
  by destruct (ends_with_newline _).
Qed.

Lemma py_round_trip_outcome s r s' :
  py_ready s.1 → py_round_trip f s = (r, s') →
  py_ready s'.1 ∧ py_outcome i request (let^ response := r in decode response)
    (sn_machine s.2) (sn_machine s'.2).
Proof.
  intros Hc. unfold py_round_trip, py_try_round_trip.
  destruct (py_ensure_connection s) as [[u|e] [c1 w1]] eqn:He;
    apply py_connection_outcome in He as (Hc1 & Hev & Hr); try done; cbn [fst snd] in *.
  2: { intros [= <- <-]. destruct Hr as [text ->].
       split; [by apply py_ready_close|by apply py_outcome_failed]. }
  pose proof Hc1 as [Hl Hq]. destruct (pb_reader c1) as [unread|].
  2: { intros [= <- <-]. split; [by apply py_ready_close|by apply py_outcome_failed]. }
  pose proof (sn_sends f w1) as Hs. destruct (nw_send f w1) as [[reads|e] w2] eqn:Hsend; cbn [snd] in *.
  2: { intros [= <- <-]. split; [by apply py_ready_close|].
       apply py_outcome_failed; [exact (evolves_trans _ _ _ Hev Hs)|done]. }
  rewrite Hl. destruct (py_readline _ _ _) as [[line|e] rest] eqn:Hread.
  2: { intros [= <- <-]. split; [by split|].
       apply py_outcome_failed; [exact (evolves_trans _ _ _ Hev Hs)|done]. }
  pose proof (py_check_response_error line (Z.of_N sn_limit)) as Hcheck.
  destruct (py_check_response _ _) as [response|e] eqn:Hk; intros [= <- <-]; cbn [is_ok fst snd].
  - subst response. apply py_line_read in Hread; [|done..].
    destruct (py_line_outcome w1 reads w2 line rest Hsend Hread) as [Hquiet Ho].
    split; [by split|]. by eapply py_outcome_from.
  - split; [by split|]. apply py_outcome_failed; [exact (evolves_trans _ _ _ Hev Hs)|done].
Qed.

Lemma py_retry_outcome n s r s' :
  py_ready s.1 → py_retry_exact f (λ response, decode response) n s = (r, s') →
  py_ready s'.1 ∧ py_outcome i request r (sn_machine s.2) (sn_machine s'.2).
Proof.
  revert s. induction n as [|n IH]; intros s Hc; cbn [py_retry_exact].
  { intros [= <- <-]. split; [done|by apply py_outcome_failed]. }
  destruct (py_round_trip f s) as [response s1] eqn:Hrt.
  apply py_round_trip_outcome in Hrt as [Hc1 Ho]; [|done].
  set (r1 := let^ response := response in decode response) in *.
  assert (match n with
          | O => (r1, s1)
          | S _ => py_retry_exact f (λ response, decode response) n (py_close s1.1, s1.2)
          end = (r, s') →
    py_ready s'.1 ∧ py_outcome i request r (sn_machine s.2) (sn_machine s'.2)) as Hagain.
  { destruct n; [by intros [= <- <-]|]. intros [Hr Ho']%IH; [|by apply py_ready_close].
    split; [done|]. apply (py_outcome_from _ _ _ _ _ _ (proj1 Ho) Ho'). }
  destruct r1 as [q|[| |text|code message [[]|]| | | | |]]; try exact Hagain; by intros [= <- <-].
Qed.

(** *** The cluster client *)

Lemma py_probe_evolves config node w :
  evolves (sn_machine w) (sn_machine (py_probe_readiness config node w).2).
Proof.
  unfold py_probe_readiness.
  pose proof (sn_connects (py_address (pn_host node) (pn_operations_port node)) w) as Hw.
  destruct (nw_connect _ w) as [[u|e] w1]; cbn [snd] in *; [|done].
  pose proof (sn_sends PY_READINESS_REQUEST w1) as Hs.
  destruct (nw_send _ w1) as [[reads|e] w2]; cbn [snd] in *;
    [|exact (evolves_trans _ _ _ Hw Hs)].
  destruct (py_readline _ _ _).1; exact (evolves_trans _ _ _ Hw Hs).
Qed.

Lemma py_probes_evolve config nodes ready w :
  evolves (sn_machine w) (sn_machine (py_probe_nodes config nodes ready w).2).
Proof.
  revert ready w. induction nodes as [|node nodes IH]; intros ready w; [done|]. cbn [py_probe_nodes].
  pose proof (py_probe_evolves config node w) as Hp.
  destruct (py_probe_readiness config node w) as [[b|e] w1]; [|done]. cbn [snd] in Hp.
  exact (evolves_trans _ _ _ Hp (IH _ _)).
Qed.

Definition sdk_failed {A} (r : result A PyError) : Prop :=
  match r with Err (PyBrokerError _ _ _) => False | _ => True end.

Lemma py_readiness_failed node value : sdk_failed (py_validate_readiness node value).
Proof. unfold py_validate_readiness, py_validate_progress. by repeat case_match; simplify_eq. Qed.

Lemma py_probe_failed config node w : sdk_failed (py_probe_readiness config node w).1.
Proof.
  unfold py_probe_readiness, py_read_report. repeat case_match; simplify_eq/=; try done.
  by eapply (λ H, eq_ind _ sdk_failed (py_readiness_failed _ _) _ H).
Qed.

Lemma py_probes_failed config nodes ready w : sdk_failed (py_probe_nodes config nodes ready w).1.
Proof.
  revert ready w. induction nodes as [|node nodes IH]; intros ready w; [done|]. cbn [py_probe_nodes].
  pose proof (py_probe_failed config node w) as Hp.
  destruct (py_probe_readiness config node w) as [[b|e] w1]; [apply IH|done].
Qed.

Lemma py_discover_outcome config w r w' :
  py_discover_write_leader config w = (r, w') →
  evolves (sn_machine w) (sn_machine w') ∧ sdk_failed r.
Proof.
  unfold py_discover_write_leader. pose proof (py_probes_evolve config (ps_nodes config) [] w) as Hp.
  pose proof (py_probes_failed config (ps_nodes config) [] w) as Hn.
  destruct (py_probe_nodes _ _ _ w) as [[ready|e] w1]; intros [= <- <-]; (split; [done|]); [|done].
  unfold py_single_leader. by repeat case_match.
Qed.

Lemma py_direct_outcome config node :
  match py_direct_config config node with
  | Ok c => pc_max_response_frame_bytes c = pcl_max_response_frame_bytes config
  | Err e => match e with PyBrokerError _ _ _ => False | _ => True end
  end.
Proof.
  unfold py_direct_config, BrokerClientConfig_post_init, py_check_host.
  by repeat case_match; simplify_eq.
Qed.

Lemma py_route_outcome config n w r w' :
  pcl_max_response_frame_bytes config = Z.of_N sn_limit →
  py_route_exact config f (λ response, decode response) n w = (r, w') →
  py_outcome i request r (sn_machine w) (sn_machine w').
Proof.
  intros Hmax. revert w. induction n as [|n IH]; intros w; cbn [py_route_exact].
  { intros [= <- <-]. by apply py_outcome_failed. }
  destruct (py_discover_write_leader config w) as [[leader|e] w1] eqn:Hd;
    apply py_discover_outcome in Hd as [Hev He].
  2: { intros [= <- <-]. by apply py_outcome_failed. }
  pose proof (py_direct_outcome config leader) as Hc.
  destruct (py_direct_config config leader) as [direct|e].
  2: { intros [= <- <-]. by apply py_outcome_failed. }
  destruct (py_round_trip f (PyBrokerClient_new direct, w1)) as [response [c2 w2]] eqn:Hrt.
  apply py_round_trip_outcome in Hrt as [_ Ho]; [|split; [cbn; congruence|done]]. cbn [snd] in Ho.
  apply (py_outcome_from _ _ _ _ _ _ Hev) in Ho.
  set (r1 := let^ response := response in decode response) in *.
  assert (match n with
          | O => (r1, w2)
          | S _ => py_route_exact config f (λ response, decode response) n w2
          end = (r, w') → py_outcome i request r (sn_machine w) (sn_machine w')) as Hagain.
  { destruct n; [by intros [= <- <-]|]. intros Ho'%IH.
    apply (py_outcome_from _ _ _ _ _ _ (proj1 Ho) Ho'). }
  destruct r1 as [q|[| |text|code message [[]|]| | | | |]]; try exact Hagain; by intros [= <- <-].
Qed.

(** *** The asynchronous clients *)

Lemma py_round_trip_frame_outcome host port w r w' :
  py_round_trip_frame host port (Z.of_N sn_limit) f w = (r, w') →
  py_outcome i request (let^ response := r in decode response) (sn_machine w) (sn_machine w').
Proof.
  unfold py_round_trip_frame. pose proof (sn_connects (py_address host port) w) as Hw.
  destruct (nw_connect _ w) as [[u|e] w1]; cbn [snd map_err] in *.
  2: { intros [= <- <-]. by apply py_outcome_failed. }
  pose proof (sn_sends f w1) as Hs. destruct (nw_send f w1) as [[reads|e] w2] eqn:Hsend;
    cbn [snd map_err] in *; pose proof (evolves_trans _ _ _ Hw Hs) as Hev.
  2: { intros [= <- <-]. by apply py_outcome_failed. }
  destruct (py_readuntil _ _ _) as [line|e] eqn:Hr.
  2: { intros [= <- <-]. apply py_outcome_failed; [done|].
       apply readuntil_failed in Hr. by destruct e. }
  destruct (Z.ltb_spec (Z.of_N sn_limit) (Z.of_N (len line))); intros [= <- <-];
    [by apply py_outcome_failed|].
  destruct (readuntil_bounded _ sn_limit _ _ _ (not_elem_of_nil _) Hr) as [rest Hread]; [lia|].
  destruct (py_line_outcome w1 reads w2 line rest Hsend Hread) as [_ Ho].
  exact (py_outcome_from _ _ _ _ _ _ Hw Ho).
Qed.

Lemma async_retry_outcome config n w r w' :
  pc_max_response_frame_bytes config = Z.of_N sn_limit →
  async_retry_exact config f (λ response, decode response) n w = (r, w') →
  py_outcome i request r (sn_machine w) (sn_machine w').
Proof.
  intros Hmax. revert w. induction n as [|n IH]; intros w; cbn [async_retry_exact].
  { intros [= <- <-]. by apply py_outcome_failed. }
  unfold async_client_round_trip. rewrite Hmax.
  destruct (py_round_trip_frame _ _ _ f w) as [response w1] eqn:Hrt.
  apply py_round_trip_frame_outcome in Hrt as Ho.
  set (r1 := let^ response := response in decode response) in *.
  assert (match n with
          | O => (r1, w1)
          | S _ => async_retry_exact config f (λ response, decode response) n w1
          end = (r, w') → py_outcome i request r (sn_machine w) (sn_machine w')) as Hagain.
  { destruct n; [by intros [= <- <-]|]. intros Ho'%IH.
    apply (py_outcome_from _ _ _ _ _ _ (proj1 Ho) Ho'). }
  destruct r1 as [q|[| |text|code message [[]|]| | | | |]]; try exact Hagain; by intros [= <- <-].
Qed.

Lemma async_probes_evolve config nodes w :
  evolves (sn_machine w) (sn_machine (async_probe_nodes config nodes w).2).
Proof.
  revert w. induction nodes as [|node nodes IH]; intros w; [done|]. cbn [async_probe_nodes].
  assert (evolves (sn_machine w) (sn_machine (async_probe_readiness config node w).2)) as Hp.
  { unfold async_probe_readiness, py_round_trip_frame.
    pose proof (sn_connects (py_address (pn_host node) (pn_operations_port node)) w) as Hw.
    destruct (nw_connect _ w) as [[u|e] w1]; cbn [snd map_err] in *; [|done].
    pose proof (sn_sends PY_READINESS_REQUEST w1) as Hs.
    destruct (nw_send _ w1) as [[reads|e] w2]; cbn [snd map_err] in *;
      pose proof (evolves_trans _ _ _ Hw Hs); [|done]. by repeat case_match; simplify_eq/=. }
  destruct (async_probe_readiness config node w) as [r w1]. specialize (IH w1).
  destruct (async_probe_nodes config nodes w1) as [rs w2].
  exact (evolves_trans _ _ _ Hp IH).
Qed.

Lemma async_probes_failed config nodes w :
  Forall (λ x, match x.2.2 with Some (PyBrokerError _ _ _) => False | _ => True end)
    (async_probe_nodes config nodes w).1.
Proof.
  revert w. induction nodes as [|node nodes IH]; intros w; [constructor|]. cbn [async_probe_nodes].
  assert (match (async_probe_readiness config node w).1.2 with
          | Some (PyBrokerError _ _ _) => False | _ => True end) as Hp.
  { unfold async_probe_readiness. destruct (py_round_trip_frame _ _ _ _ w) as [[line|e] w1];
      [|by destruct e]. destruct (json_loads line) as [value|]; [|done].
    pose proof (py_readiness_failed node value). by destruct (py_validate_readiness node value). }
  destruct (async_probe_readiness config node w) as [r w1]. specialize (IH w1).
  destruct (async_probe_nodes config nodes w1) as [rs w2]. by constructor.
Qed.

Lemma async_discover_outcome config w r w' :
  async_cluster_discover config w = (r, w') →
  evolves (sn_machine w) (sn_machine w') ∧ sdk_failed r.
Proof.
  unfold async_cluster_discover. pose proof (async_probes_evolve config (ps_nodes config) w) as Hp.
  pose proof (async_probes_failed config (ps_nodes config) w) as Hn.
  destruct (async_probe_nodes _ _ w) as [results w1]. intros [= <- <-]. split; [done|].
  cbn [fst] in Hn. clear Hp. generalize (@nil PyStaticClusterNode).
  induction Hn as [|[node [b [e|]]] results He _ IH]; intros ready; cbn [async_ready_nodes]; [|done|apply IH].
  unfold py_single_leader. by repeat case_match.
Qed.

Lemma async_route_outcome config n w r w' :
  pcl_max_response_frame_bytes config = Z.of_N sn_limit →
  async_cluster_route_exact config f (λ response, decode response) n w = (r, w') →
  py_outcome i request r (sn_machine w) (sn_machine w').
Proof.
  intros Hmax. revert w. induction n as [|n IH]; intros w; cbn [async_cluster_route_exact].
  { intros [= <- <-]. by apply py_outcome_failed. }
  destruct (async_cluster_discover config w) as [[leader|e] w1] eqn:Hd;
    apply async_discover_outcome in Hd as [Hev He].
  2: { intros [= <- <-]. by apply py_outcome_failed. }
  pose proof (py_direct_outcome config leader) as Hc.
  destruct (py_direct_config config leader) as [direct|e].
  2: { intros [= <- <-]. by apply py_outcome_failed. }
  unfold async_client_round_trip. rewrite Hc, Hmax.
  destruct (py_round_trip_frame _ _ _ f w1) as [response w2] eqn:Hrt.
  apply py_round_trip_frame_outcome, (py_outcome_from _ _ _ _ _ _ Hev) in Hrt as Ho.
  set (r1 := let^ response := response in decode response) in *.
  assert (match n with
          | O => (r1, w2)
          | S _ => async_cluster_route_exact config f (λ response, decode response) n w2
          end = (r, w') → py_outcome i request r (sn_machine w) (sn_machine w')) as Hagain.
  { destruct n; [by intros [= <- <-]|]. intros Ho'%IH.
    apply (py_outcome_from _ _ _ _ _ _ (proj1 Ho) Ho'). }
  destruct r1 as [q|[| |text|code message [[]|]| | | | |]]; try exact Hagain; by intros [= <- <-].
Qed.

(** *** The methods *)

(** A method returns what its mutation returned: the result has the type that it
    expects. *)
Lemma sdk_call_outcome {S} (mutate : PyOperation → Value → S → result PyBrokerResult PyError * S)
    s r s' m m' :
  (∀ r s1, mutate (py_operation (request_operation request)) (request_payload request) s = (r, s1) →
     py_outcome i request r m (m' s1)) →
  sdk_call mutate request s = (r, s') → py_outcome i request r m (m' s').
Proof.
  intros Hm. rewrite sdk_call_mutates by apply Hv. unfold mutate_typed.
  destruct (mutate _ _ s) as [[q|e] s1]; pose proof (Hm _ _ eq_refl) as Ho;
    [|by intros [= <- <-]]. intros [= <- <-]. pose proof Ho as (_ & p & _ & Ht & _).
  unfold expect_mutation_result_type. by rewrite Ht, String.eqb_refl.
Qed.

Lemma py_mutate_outcome rid attempts s r s' :
  request_id_or rid (py_next_request_id s.1).1 = request_request_id request → py_ready s.1 →
  sdk_call (py_mutate (py_identity i) rid attempts) request s = (r, s') →
  py_outcome i request r (sn_machine s.2) (sn_machine s'.2).
Proof.
  intros Hid Hc. apply (sdk_call_outcome _ s r s' _ (λ s, sn_machine s.2)). intros r1 s1.
  unfold py_mutate. destruct s as [c w]. cbn [fst snd] in *.
  assert (∃ c', py_ready c' ∧ ∀ k, py_with_request_id (T := PyBrokerResult) rid k (c, w) =
    k (request_request_id request) (c', w)) as (c' & Hc' & ->).
  { rewrite <-Hid. unfold py_with_request_id, request_id_or. destruct rid as [id|];
      [destruct (String.eqb id "")|]; [|exists c; by split|];
      (exists (py_next_request_id c).2; split; [|done]); by destruct Hc. }
  rewrite (py_encodes_owned i request sn_limit f Hv Hf). intros Hr.
  by apply py_retry_outcome in Hr as [_ Ho].
Qed.

Lemma cluster_mutate_outcome rid retry s r s' :
  request_id_or rid (cluster_next_request_id s.1).1 = request_request_id request →
  pcl_max_response_frame_bytes (pl_config s.1) = Z.of_N sn_limit →
  sdk_call (cluster_mutate (py_identity i) rid retry) request s = (r, s') →
  py_outcome i request r (sn_machine s.2) (sn_machine s'.2).
Proof.
  intros Hid Hc. apply (sdk_call_outcome _ s r s' _ (λ s, sn_machine s.2)). intros r1 s1.
  unfold cluster_mutate. destruct s as [c w]. cbn [fst snd] in *.
  assert (∃ c', pl_config c' = pl_config c ∧
    ∀ k, cluster_with_request_id (T := PyBrokerResult) rid k (c, w) =
    k (request_request_id request) (c', w)) as (c' & Hc' & ->).
  { rewrite <-Hid. unfold cluster_with_request_id, request_id_or. destruct rid as [id|];
      [destruct (String.eqb id "")|]; [|exists c; by split|];
      (exists (cluster_next_request_id c).2; by split). }
  rewrite (py_encodes_owned i request sn_limit f Hv Hf). unfold on_world. cbn [fst snd].
  rewrite Hc'. destruct (py_route_exact _ _ _ _ w) as [r2 w2] eqn:Hr. intros [= <- <-].
  by apply py_route_outcome in Hr.
Qed.

Lemma async_mutate_outcome rid attempts s r s' :
  request_id_or rid (py_owned_request_id (py_identity i)) = request_request_id request →
  pc_max_response_frame_bytes (pa_config s.1) = Z.of_N sn_limit →
  sdk_call (async_client_mutate (py_identity i) rid attempts) request s = (r, s') →
  py_outcome i request r (sn_machine s.2) (sn_machine s'.2).
Proof.
  intros Hid Hc. apply (sdk_call_outcome _ s r s' _ (λ s, sn_machine s.2)). intros r1 s1.
  unfold async_client_mutate. rewrite Hid, (py_encodes_owned i request sn_limit f Hv Hf).
  destruct s as [c w]. unfold async_on_world. cbn [fst snd] in *.
  destruct (async_retry_exact _ _ _ _ w) as [r2 w2] eqn:Hr. intros [= <- <-].
  by apply async_retry_outcome in Hr.
Qed.

Lemma async_cluster_mutate_outcome config rid retry w r w' :
  request_id_or rid (py_owned_request_id (py_identity i)) = request_request_id request →
  pcl_max_response_frame_bytes config = Z.of_N sn_limit →
  sdk_call (async_cluster_mutate config (py_identity i) rid retry) request w = (r, w') →
  py_outcome i request r (sn_machine w) (sn_machine w').
Proof.
  intros Hid Hc. apply (sdk_call_outcome _ w r w' _ sn_machine). intros r1 w1.
  unfold async_cluster_mutate. rewrite Hid, (py_encodes_owned i request sn_limit f Hv Hf).
  by apply async_route_outcome.
Qed.
End mutations.
