(* ===== verification/PySdk.v ===== *)
(** * What the Python SDK guarantees

    The main theorems about the Python SDK talking to the broker: its frames and
    what it reads of responses, its mutations over a network that loses answers,
    and its views of the consumer groups, each with a concrete instance. *)

From stdpp Require Import pretty.
From S2P Require Import Prelude Values Task Group Messages Machine Recovery Valid Display Wire Words.
From S2P Require Import Service Dispatch Sessions SessionsProps DispatchProps Json JsonText WireSchema.
From S2P Require Import WireV1 WireV1Props WireResponseProps WireVersions WireVersionsProps Server.
From S2P Require Import SessionStore Client Durable Runtime StateOwner ClusterNode ClusterNodeProps.
From S2P Require Import ClusterStartupProps ClientServer Router Operations OperationsProps RouterProps Clients Scenarios.
From S2P Require Import PyProtocol PyClient PyProps.

(** ** A standard library *)

#[export] Instance sample_std : PyStd := {|
  json_loads := json_parse;
  json_loads_error _ := "invalid JSON";
  py_repr v := String.string_of_list_ascii (json_text v);
  other_equals _ _ := false;
  other_finite _ := false;
  other_is_int _ := false;
  ip_is_loopback s := if String.eqb s "127.0.0.1" then Some true else None;
  sha256_hexdigest _ := "0000000000000000000000000000000000000000000000000000000000000000";
|}.

#[export] Instance sample_std_laws : PyStdLaws sample_std.
Proof.
  split; [|by split]. intros v Hp _. cbn. apply json_parse_text; [by apply plain_tree|done..].
Qed.

(** ** The operations protocol *)

Definition py_summary (g : ConsumerGroupSummary) : PyConsumerGroupSummary :=
  MkPySummary (gs_group_id g) (gs_namespace_id g) (gs_generation g) (gs_revision g)
    (gs_consumer_count g).

(** The SDK has no group without a generation. *)
Definition read_summary (g : ConsumerGroupSummary) : result PyConsumerGroupSummary PyError :=
  if gs_generation g =? 0
  then Err (PyProtocolError "operations generation must be a positive integer")
  else Ok (py_summary g).

(** Terms and the revisions of groups start at one. *)
Definition counted (d : ConsumerGroupDirectory) : Prop :=
  0 < gd_term d ∧ Forall (λ g, 0 < gs_revision g) (gd_groups d).

(** What the SDK makes of the state owner's reply. *)
Definition read_reply {A} (reply : result (result ConsumerGroupDirectory BrokerError) RuntimeError)
    (read : ConsumerGroupDirectory → result A PyError) : result A PyError :=
  match reply with
  | Ok (Ok d) => read d
  | Ok (Err e) => Err (PyOperationsError
      match be_code e with
      | TransportError => READ_AUTHORITY_UNAVAILABLE
      | PersistenceError => BROKER_FAIL_STOPPED
      | _ => BROKER_READ_FAILED
      end)
  | Err StateOwnerSaturated => Err (PyOperationsError STATE_OWNER_SATURATED)
  | Err (StateOwnerStopped | StateOwnerReplyDropped) =>
      Err (PyOperationsError STATE_OWNER_UNAVAILABLE)
  | Err _ => Err (PyOperationsError BROKER_READ_FAILED)
  end.

Definition read_description (id : ConsumerGroupId) (d : ConsumerGroupDirectory) :
    result PyConsumerGroupDescription PyError :=
  match Directory_group id d with
  | Some g => map_ok (MkPyDescription (gd_term d) (gd_revision d)) (read_summary g)
  | None => Err (PyProtocolError "unknown operations error code: group_not_found")
  end.

Definition read_page (after : option ConsumerGroupId) (limit : N) (d : ConsumerGroupDirectory) :
    result PyConsumerGroupPage PyError :=
  let '(page, next) := group_page d after limit in
  let^ groups := try_map read_summary page in
  Ok (MkPyPage (gd_term d) (gd_revision d) groups next).

Section operations.
Context {P : PyStd} {PL : PyStdLaws P} {J : SerdeJson} {L : SerdeJsonLaws J} {C : CompactText J}.

Lemma compact_reads v :
  plain v = true → (depth v ≤ 127)%nat → json_read (json_text v ++ [newline])%list = Some v.
Proof.
  intros Hp Hd. destruct (json_reads_back v Hp Hd) as (b & Hw & _ & Hr & _).
  rewrite (json_compact v Hp Hd) in Hw. by injection Hw as <-.
Qed.

Lemma group_id_fits id : id_re_fullmatch id = true → ConsumerGroupId_new id = Ok id.
Proof. intros H%id_re_valid_id. unfold ConsumerGroupId_new. by apply valid_id_new. Qed.

Lemma py_group_id id : valid_id id → validate_group_id id = Ok id.
Proof. intros H%id_re_valid_id. unfold validate_group_id. by rewrite H. Qed.

(** The listener reads the SDK's requests. *)
Lemma describe_request_parses id f :
  encode_describe_group id = Ok f → parse_operations f = Ok (OpsDescribeGroup id).
Proof.
  unfold encode_describe_group, validate_group_id.
  destruct (id_re_fullmatch id) eqn:Hid; [|done]. intros [= <-]. unfold py_serialize, parse_operations.
  rewrite compact_reads by (done || simpl; lia). eval_object.
  rewrite to_value_plain by done. cbn -[ConsumerGroupId_new]. by rewrite group_id_fits.
Qed.

Lemma list_request_parses limit after f :
  encode_list_groups limit after = Ok f → parse_operations f = Ok (OpsListGroups after (Z.to_N limit)).
Proof.
  unfold encode_list_groups, between. destruct (Z.leb_spec 1 limit) as [H1|]; [|done].
  destruct (Z.leb_spec limit (Z.of_N PY_MAX_GROUP_PAGE_SIZE)) as [H2|]; [|done]. cbn [negb andb].
  unfold PY_MAX_GROUP_PAGE_SIZE in H2. remember (Z.to_N limit) as n eqn:Hlim.
  assert (py_int limit = VNumber n) as Hn by (rewrite <-py_int_of_N; f_equal; lia). rewrite Hn.
  assert (n ≤ u64_max ∧ (1 <=? n) = true ∧ (n <=? MAX_GROUP_PAGE_LIMIT) = true) as (Hw & Hlo & Hhi).
  { unfold u64_max, MAX_GROUP_PAGE_LIMIT. rewrite !N.leb_le. lia. }
  destruct after as [id|]; [unfold validate_group_id; destruct (id_re_fullmatch id) eqn:Hid; [|done]|];
    intros [= <-]; unfold py_serialize, parse_operations;
    (rewrite compact_reads; [|eval_object; cbn [plain forallb snd]; by rewrite (proj2 (N.leb_le _ _) Hw)
                             |simpl; lia]);
    (rewrite to_value_plain; [|eval_object; cbn [plain forallb snd]; by rewrite (proj2 (N.leb_le _ _) Hw)]);
    eval_object; cbn -[ConsumerGroupId_new N.leb u64_max]; rewrite (proj2 (N.leb_le _ _) Hw);
    cbn -[ConsumerGroupId_new N.leb u64_max]; rewrite Hlo, Hhi; cbn -[ConsumerGroupId_new];
    rewrite ?group_id_fits by done; done.
Qed.

(** A line that holds a value. *)
Definition carries (line : bytes) (v : Value) : Prop :=
  last line = Some newline ∧ json_loads line = Some v.

Lemma py_frame_value line kvs : carries line (VObject kvs) → py_decode_frame line = Ok kvs.
Proof. intros [Hl Hj]. unfold py_decode_frame. by rewrite bool_decide_eq_true_2, Hj. Qed.

Lemma py_reads_summary g :
  word_summary g → 0 < gs_revision g → py_decode_group_entry (group_summary_json g) = read_summary g.
Proof.
  intros (Hg & Hn & _) Hr. unfold group_summary_json, read_summary. destruct g as [id ns gen rev count].
  cbn [gs_group_id gs_namespace_id gs_generation gs_revision gs_consumer_count] in *.
  eval_object. cbn [py_decode_group_entry]. unfold py_decode_group_summary.
  cbn -[validate_group_id id_re_fullmatch]. rewrite py_group_id by done.
  rewrite (proj2 (id_re_valid_id ns) Hn). cbn. destruct (gen =? 0); [done|].
  by rewrite (proj2 (N.eqb_neq rev 0)) by lia.
Qed.

Lemma py_reads_page groups :
  Forall word_summary groups → Forall (λ g, 0 < gs_revision g) groups →
  try_map py_decode_group_entry (group_summary_json <$> groups) = try_map read_summary groups.
Proof.
  induction 1 as [|g groups Hg _ IH]; [done|]. intros [Hr Hrs]%Forall_cons. rewrite fmap_cons.
  cbn [try_map]. by rewrite py_reads_summary, IH.
Qed.

Lemma py_operations_error line code :
  carries line (operations_error_json code) →
  ∀ A (k : _ → result A PyError), (let^ value := py_decode_frame line in
    let^ _ := py_raise_operations_error value in k value) =
    Err match OperationsErrorCode_of code with
        | Some parsed => PyOperationsError parsed
        | None => PyProtocolError ("unknown operations error code: " +:+ code)
        end.
Proof.
  unfold operations_error_json. eval_object. intros Hl%py_frame_value A k. rewrite Hl.
  cbn -[OperationsErrorCode_of]. by destruct (OperationsErrorCode_of code).
Qed.

(** The errors of the directory are read as such. *)
Lemma py_reads_reply {A} line reply build (decode : bytes → result A PyError) (k : _ → result A PyError)
    read :
  (∀ b, decode b = let^ value := py_decode_frame b in
    let^ _ := py_raise_operations_error value in k value) →
  (∀ d, reply = Ok (Ok d) → carries line (build d) → decode line = read d) →
  carries line (group_directory_value reply build) → decode line = read_reply reply read.
Proof.
  intros Hdec Hd Hc. unfold group_directory_value in Hc. destruct reply as [[d|e]|e]; [by apply Hd|..];
    cbn [read_reply]; rewrite Hdec.
  - by destruct (be_code e); rewrite (py_operations_error _ _ Hc).
  - by destruct e; rewrite (py_operations_error _ _ Hc).
Qed.

Lemma py_reads_description d id line :
  word_directory d → counted d → carries line (describe_group_json d id) →
  decode_describe_group line = read_description id d.
Proof.
  intros Hw [Ht Hr]. unfold describe_group_json, read_description.
  destruct (Directory_group id d) as [g|] eqn:Hg.
  2: { intros Hc. unfold decode_describe_group. by rewrite (py_operations_error _ _ Hc). }
  pose proof (directory_group_words d id g Hw Hg) as Hwg.
  assert (0 < gs_revision g) as Hrev.
  { unfold Directory_group in Hg. destruct (binary_search _ _) as [n|]; [|done].
    rewrite Forall_lookup in Hr. by eapply Hr. }
  rewrite <-py_reads_summary by done. destruct d as [term revision groups].
  cbn [gd_term gd_revision] in *. unfold group_summary_json. eval_object. eval_object.
  intros Hl%py_frame_value. unfold decode_describe_group. rewrite Hl.
  cbn -[py_decode_group_summary]. rewrite (proj2 (N.eqb_neq term 0)) by lia.
  by destruct (py_decode_group_summary _).
Qed.

Lemma py_reads_listing d after limit line :
  word_directory d → directory_sorted d → counted d → limit ≤ MAX_GROUP_PAGE_LIMIT →
  carries line (group_page_json d after limit) →
  decode_list_groups line = read_page after limit d.
Proof.
  intros Hw Hs [Ht Hr] Hl. destruct (page_words d after limit Hw Hs Hl) as (Hp & Hlen & Hn).
  assert (Forall (λ g, 0 < gs_revision g) (group_page d after limit).1) as Hrev.
  { destruct (group_page_rest d after limit) as [-> _]. apply Forall_take, Forall_forall. intros g Hg.
    apply elem_of_rest in Hg as [Hg _]; [|done]. rewrite Forall_forall in Hr. by apply Hr. }
  unfold group_page_json, read_page. destruct (group_page d after limit) as [page next].
  cbn [fst snd] in *. rewrite <-py_reads_page by done.
  assert (len (group_summary_json <$> page) ≤ 8) as Hcount
    by (unfold len; rewrite length_fmap; lia).
  revert Hcount. generalize (group_summary_json <$> page). intros groups Hcount.
  destruct d as [term revision all]. cbn [gd_term gd_revision] in *. eval_object.
  intros Hc%py_frame_value. unfold decode_list_groups. rewrite Hc.
  cbn -[try_map N.ltb validate_group_id len].
  change (py_require_fields _ _) with (Ok tt : result unit PyError). cbv iota.
  unfold PY_MAX_GROUP_PAGE_SIZE. rewrite (proj2 (N.ltb_ge _ _) Hcount).
  destruct (try_map py_decode_group_entry groups) as [gs|]; [|done].
  destruct next as [id|]; cbn -[validate_group_id] in *; [rewrite py_group_id by done|];
    cbn; by rewrite (proj2 (N.eqb_neq term 0)) by lia.
Qed.
End operations.

(** A line above the bound: the synchronous client raises its transport error,
    of the asynchronous one the [ValueError] of [readline] escapes. *)
Lemma oversized_answer_escapes {P : PyStd} {W : Type} {Net : Network W} c frame (w w1 w2 : W) u chunk :
  (0 < po_max_response_frame_bytes c)%Z →
  nw_connect (py_address (po_host c) (po_port c)) w = (Ok u, w1) →
  nw_send frame w1 = (Ok [Ok chunk], w2) → newline ∉ chunk →
  Z.to_N (po_max_response_frame_bytes c + 1) < len chunk →
  operations_round_trip c frame w =
    (Err (PyTransportError "operations response frame exceeded configured bound"), w2) ∧
  async_operations_round_trip c frame w =
    (Err (PyValueError "Separator is not found, and chunk exceed the limit"), w2).
Proof.
  intros Hpos Hc Hs Hn Hl. set (limit := Z.to_N (po_max_response_frame_bytes c + 1)) in *.
  unfold operations_round_trip, async_operations_round_trip. rewrite Hc. cbn [map_err]. rewrite Hs.
  cbn [map_err]. destruct chunk as [|b bs]; [unfold len in Hl; simpl in Hl; lia|].
  assert (newline_position (take_N limit (b :: bs)) = None) as Ht.
  { apply newline_position_none. intros H%elem_of_take_N. done. }
  fold limit. cbn [py_readline py_async_readline app]. rewrite Ht, (newline_position_none _ Hn).
  rewrite (proj2 (N.leb_le _ _)), (proj2 (N.ltb_lt _ _)) by lia. cbn [fst map_err]. split; [|done].
  rewrite take_N_take. unfold operations_response. remember (take (N.to_nat limit) (b :: bs)) as line.
  assert (length line = N.to_nat limit) as Hlen.
  { subst line. rewrite length_take. unfold len in Hl. lia. }
  destruct line as [|b' line]; [simpl in Hlen; lia|].
  rewrite (proj2 (Z.ltb_lt _ _)) by (unfold len; lia). done.
Qed.

(** ** The theorems *)

(** C17: the SDK writes what the Rust client writes.  For every request that the
    protocol admits (a mutation with and without an owner's identity, a health
    check and an owner acquisition), whenever the Rust encoder gives a frame, the
    SDK's encoder gives the same bytes; and each typed method of the SDK sends
    the operation and payload of its request. *)
Theorem sdk_frames_match_rust_client (J : SerdeJson) (L : SerdeJsonLaws J) (C : CompactText J) max f :
  (∀ request, mutation_request request → encode_request_with_limit request max = Ok f →
     encode_mutation_v1 (request_request_id request) (py_operation (request_operation request))
       (request_payload request) = Ok f) ∧
  (∀ id, valid_request_id id →
     encode_request_with_limit (ReqHealth {| qq_request_id := id |}) max = Ok f →
     encode_health id = Ok f) ∧
  (∀ r, valid_wire_request (WireV3 (AcquireOwner r)) →
     encode_owner_acquisition_request_with_limit r max = Ok f →
     encode_owner_acquire (oa_request_id r) (oa_session_id r)
       (Z.of_N (oa_expected_owner_epoch r)) (oa_owner_instance_id r) = Ok f) ∧
  (∀ i request, valid_owned i request →
     encode_owner_mutation_request_with_limit (MkOwnerIdentified i request) max = Ok f →
     encode_owner_mutation (request_request_id request) (py_operation (request_operation request))
       (request_payload request) (pi_session_id (py_identity i)) (pi_owner_epoch (py_identity i))
       (pi_owner_instance_id (py_identity i)) (pi_sequence (py_identity i)) = Ok f) ∧
  (∀ S (mutate : PyOperation → Value → S → result PyBrokerResult PyError * S) request s,
     mutation_request request →
     sdk_call mutate request s = mutate_typed mutate (py_operation (request_operation request))
       (expected_result (request_operation request)) (request_payload request) s).
Proof.
  split_and!; intros.
  - by eapply py_encodes_v1.
  - by eapply py_encodes_health.
  - by eapply py_encodes_acquire.
  - by eapply py_encodes_owned.
  - by apply sdk_call_mutates.
Qed.

Lemma sdk_frames_match_rust_client_witness :
  encode_owner_mutation "r1" ENSURE_NAMESPACE (request_payload sample_request) "s1" 1 "o1" 1 =
    Ok sent_frame ∧ sent_frame ≠ [].
Proof.
  split; [|by vm_compute].
  destruct (sdk_frames_match_rust_client text_json text_json_laws text_compact 4096 sent_frame)
    as (_ & _ & _ & H & _).
  apply (H (rv_identity sample_reserved) sample_request); [exact sample_owned|by vm_compute].
Defined.

(** C18: the SDK reads what the broker writes.  Of every frame that the broker's
    encoders produce for a mutation, in version three or one, the decoder returns
    the result when the response is a payload of the operation with valid values,
    and raises the error with its code, its message and (in version three) its
    disposition when it is an error.  The decoder of health reads a report and
    raises an error likewise, and the decoder of owner acquisitions reads the
    granted epoch and raises a refusal with its disposition. *)
Theorem sdk_reads_every_response (P : PyStd) (PL : PyStdLaws P) (J : SerdeJson)
    (L : SerdeJsonLaws J) (C : CompactText J) max f :
  (∀ o response, o ≠ OpHealth → proper_response o response →
     encode_response_v3_with_limit response max = Ok f →
     decode_mutation_response f (response_request_id response) (py_operation o) =
       match response with
       | ResponseSuccess _ p => ok_or (py_result p) (PyProtocolError "")
       | ResponseError _ e =>
           Err (PyBrokerError (ep_code e) (ep_message e) (Some (ep_disposition e)))
       end) ∧
  (∀ o response, o ≠ OpHealth → proper_response o response →
     encode_response_with_limit response max = Ok f →
     decode_mutation_response_v1 f (response_request_id response) (py_operation o) =
       match response with
       | ResponseSuccess _ p => ok_or (py_result p) (PyProtocolError "")
       | ResponseError _ e => Err (PyBrokerError (ep_code e) (ep_message e) None)
       end) ∧
  (∀ o p, o ≠ OpHealth → answers_operation o p → is_Some (py_result p)) ∧
  (∀ id t r, positive_word t → word r →
     encode_response_with_limit (ResponseSuccess id (SHealth PROTOCOL_VERSION t r)) max = Ok f →
     decode_health_response f id = Ok (MkPyHealth 1 t r)) ∧
  (∀ id e, encode_response_with_limit (ResponseError id e) max = Ok f →
     decode_health_response f id = Err (PyBrokerError (ep_code e) (ep_message e) None)) ∧
  (∀ id epoch, positive_word epoch →
     encode_response_v3_with_limit (ResponseSuccess id (SSessionOwnerAcquired epoch)) max = Ok f →
     decode_owner_acquire_response f id = Ok epoch) ∧
  (∀ id e, encode_response_v3_with_limit (ResponseError id e) max = Ok f →
     decode_owner_acquire_response f id =
       Err (PyBrokerError (ep_code e) (ep_message e) (Some (ep_disposition e)))).
Proof.
  assert (∀ o response, proper_response o response → match response with
    | ResponseSuccess _ p => py_delivered response = ok_or (py_result p) (PyProtocolError "")
    | _ => True end) as Hd.
  { intros o [id p|id e] Hv; [|done]. destruct Hv as [_ Hv]. cbn [py_delivered].
    rewrite (valid_whole p Hv). by destruct (py_result p). }
  split_and!.
  - intros o response Ho Hv He. rewrite (py_reads_v3 o response max f); [|done| |done].
    2: { destruct response; [|done]. destruct Hv as [? Hv]. split; [done|by apply valid_words]. }
    specialize (Hd o response Hv). by destruct response.
  - intros o response Ho Hv He. rewrite (py_reads_v1 o response max f);
      [|done|by eauto using proper_valid, encoded_text_fits|done].
    specialize (Hd o response Hv). by destruct response.
  - intros o p Ho Ha. destruct o, p; done || by eexists.
  - intros. by eapply py_reads_health.
  - intros. by eapply py_health_error.
  - intros. by eapply py_reads_acquisition.
  - intros. by eapply py_acquisition_error.
Qed.

Definition sample_refusal : BrokerResponse :=
  ResponseError "r1" {| ep_code := StaleFence; ep_message := "stale owner"; ep_disposition := DispRejected |}.

Lemma sdk_reads_every_response_witness :
  ∃ f, encode_response_v3_with_limit (J := text_json) sample_refusal 4096 = Ok f ∧
    decode_mutation_response f "r1" CLAIM_TASK =
      Err (PyBrokerError StaleFence "stale owner" (Some DispRejected)).
Proof.
  eexists. split; [by vm_compute|].
  match goal with |- decode_mutation_response ?f _ _ = _ =>
    destruct (sdk_reads_every_response sample_std sample_std_laws text_json text_json_laws text_compact
      4096 f) as (H & _) end.
  apply (H OpClaimTask sample_refusal); [done..|by vm_compute].
Defined.

(** What a call of the SDK says about a request that was fresh in [m]. *)
Definition sdk_once (i : CommandIdentity) (request : BrokerRequest) (m : SessionMachine)
    (r : result PyBrokerResult PyError) (m' : SessionMachine) : Prop :=
  match r with
  | Ok q => ∃ p, py_result p = Some q ∧ took_effect_once i request (Ok p) m m'
  | Err (PyBrokerError code message (Some DispCommitted)) =>
      took_effect_once i request (Err {| be_code := code; be_message := message;
                                         be_disposition := DispCommitted |}) m m'
  | Err _ => True
  end.

Lemma py_outcome_once i request m r m0 m' :
  valid_owned i request → (∀ cmd reply, ¬ spent i cmd reply (sm_sessions m)) → evolves m m0 →
  py_outcome i request r m0 m' → sdk_once i request m r m'.
Proof.
  intros Hv Hfresh Hev Ho. apply (py_outcome_from _ _ _ _ _ _ Hev) in Ho as [_ Ho].
  destruct r as [q|[| | |code message [[]|]| | | | |]]; try done.
  - destruct Ho as (p & Hq & _ & Hs). exists p. split; [done|]. by apply settled_took_effect_once.
  - by apply settled_took_effect_once.
Qed.

(** C10: an owner-aware mutation through the SDK takes effect once.  Whatever the
    network behind a [SessionNetwork] does with the attempts (refused
    connections, lost answers, cut lines, answers of another protocol), if a
    method of one of the four clients (direct and cluster, synchronous and
    asynchronous) returns a result, the command was applied exactly once since
    the identity was fresh, and the result is that of this application; if it
    raises an error that is marked as committed, likewise.  The request id is the
    caller's or the one the client makes up. *)
Theorem sdk_mutation_applies_once (P : PyStd) (PL : PyStdLaws P) (J : SerdeJson)
    (L : SerdeJsonLaws J) (C : CompactText J) (W : Type) (Net : Network W) (Srv : SessionNetwork W)
    i request f m :
  valid_owned i request →
  encode_owner_mutation_request_with_limit (MkOwnerIdentified i request) sn_limit = Ok f →
  (∀ cmd reply, ¬ spent i cmd reply (sm_sessions m)) →
  (∀ rid attempts c w r c' w', evolves m (sn_machine w) → py_ready c →
     request_id_or rid (py_next_request_id c).1 = request_request_id request →
     sdk_call (py_mutate (py_identity i) rid attempts) request (c, w) = (r, (c', w')) →
     sdk_once i request m r (sn_machine w')) ∧
  (∀ rid retry c w r c' w', evolves m (sn_machine w) →
     pcl_max_response_frame_bytes (pl_config c) = Z.of_N sn_limit →
     request_id_or rid (cluster_next_request_id c).1 = request_request_id request →
     sdk_call (cluster_mutate (py_identity i) rid retry) request (c, w) = (r, (c', w')) →
     sdk_once i request m r (sn_machine w')) ∧
  (∀ rid attempts c w r c' w', evolves m (sn_machine w) →
     pc_max_response_frame_bytes (pa_config c) = Z.of_N sn_limit →
     request_id_or rid (py_owned_request_id (py_identity i)) = request_request_id request →
     sdk_call (async_client_mutate (py_identity i) rid attempts) request (c, w) = (r, (c', w')) →
     sdk_once i request m r (sn_machine w')) ∧
  (∀ rid retry config w r w', evolves m (sn_machine w) →
     pcl_max_response_frame_bytes config = Z.of_N sn_limit →
     request_id_or rid (py_owned_request_id (py_identity i)) = request_request_id request →
     sdk_call (async_cluster_mutate config (py_identity i) rid retry) request w = (r, w') →
     sdk_once i request m r (sn_machine w')).
Proof.
  intros Hv Hf Hfresh. split_and!.
  - intros rid attempts c w r c' w' Hev Hc Hid Hx.
    eapply py_outcome_once, (py_mutate_outcome i request f Hv Hf _ _ (c, w) _ (c', w')); done.
  - intros rid retry c w r c' w' Hev Hc Hid Hx.
    eapply py_outcome_once, (cluster_mutate_outcome i request f Hv Hf _ _ (c, w) _ (c', w')); done.
  - intros rid attempts c w r c' w' Hev Hc Hid Hx.
    eapply py_outcome_once, (async_mutate_outcome i request f Hv Hf _ _ (c, w) _ (c', w')); done.
  - intros rid retry config w r w' Hev Hc Hid Hx.
    eapply py_outcome_once, (async_cluster_mutate_outcome i request f Hv Hf); done.
Qed.

(** The cluster of three nodes of [Clients.v]: the first leads and answers on the
    second attempt, the second follows, the third is down. *)
Definition sdk_node (id broker operations : Z) : PyStaticClusterNode :=
  {| pn_node_id := id; pn_broker_port := broker; pn_operations_port := operations;
     pn_host := "127.0.0.1" |}.

Definition sdk_cluster : PyClusterClient :=
  MkPyCluster {| ps_nodes := [sdk_node 1 8811 9811; sdk_node 2 8812 9812; sdk_node 3 8813 9813];
                 pcl_timeout_seconds := 1000000000; pcl_max_response_frame_bytes := 4096;
                 pcl_retry := 3 |} 1.

Definition sample_sdk_call : result PyBrokerResult PyError * (PyClusterClient * Site LocalEngine) :=
  sdk_call (cluster_mutate (Net := site_network (J := text_json) 4096)
    (py_identity (rv_identity sample_reserved)) (Some "r1") None)
    sample_request (sdk_cluster, sample_site).

Lemma sdk_mutation_applies_once_witness :
  sample_sdk_call.1 = Ok (PyNamespaceResult 1 1 "jobs" 1) ∧
  sdk_once (rv_identity sample_reserved) sample_request owned_sessions
    (Ok (PyNamespaceResult 1 1 "jobs" 1))
    (service_machine (cw_service (st_world sample_sdk_call.2.2))).
Proof.
  split; [by vm_compute|].
  destruct (sdk_mutation_applies_once sample_std sample_std_laws text_json text_json_laws text_compact
    (Site LocalEngine) (site_network 4096) (site_sessions (L := text_json_laws) 4096)
    (rv_identity sample_reserved) sample_request sent_frame owned_sessions) as (_ & H & _).
  - exact sample_owned.
  - by vm_compute.
  - exact sample_fresh.
  - apply (H (Some "r1") None sdk_cluster sample_site (Ok (PyNamespaceResult 1 1 "jobs" 1))
      sample_sdk_call.2.1 sample_sdk_call.2.2); [apply evolves_refl|done|done|by vm_compute].
Defined.

(** C34: the SDK's view of the consumer groups is the broker's.  Its requests,
    however they arrive at the operations listener, are answered with one line;
    of this line [describe_group] reads the group and [list_groups] the page of
    groups with its cursor, and a directory that could not be read is raised as
    the operations error that says why.  Two answers the SDK does not know and
    raises as a protocol error: a group of generation zero, and the error for a
    group that does not exist. *)
Theorem sdk_reads_groups (P : PyStd) (PL : PyStdLaws P) (J : SerdeJson) (L : SerdeJsonLaws J)
    (C : CompactText J) observer reply max reader f :
  OPERATIONS_DEFAULT_MAX_FRAME_BYTES ≤ max → word_observer observer → word_reply reply →
  match reply with Ok (Ok d) => counted d | _ => True end →
  (read_request_frame max reader []).1 = Ok (FrameData f) →
  ∃ line, handle_operations_connection observer reply max reader = Ok (Some line) ∧
    (∀ id, encode_describe_group id = Ok f →
       decode_describe_group line = read_reply reply (read_description id)) ∧
    (∀ limit after, encode_list_groups limit after = Ok f →
       decode_list_groups line = read_reply reply (read_page after (Z.to_N limit))).
Proof.
  intros Hm Ho Hr Hc Hread. unfold OPERATIONS_DEFAULT_MAX_FRAME_BYTES in Hm.
  destruct (connection_answers_line observer reply max reader (Some f)) as
    (b & Hh & Hw & _ & _ & [Hp Hd] & _); [lia|done..|].
  exists (b ++ [newline])%list. split; [done|].
  assert (carries (b ++ [newline])%list (operations_answer (Some f) observer reply)) as Hcar.
  { split; [apply last_snoc|]. apply loads_framed; [done|lia|by exists b]. }
  cbn [operations_answer] in Hcar. split.
  - intros id Hf. rewrite (describe_request_parses id f Hf) in Hcar. cbn [operations_value] in Hcar.
    eapply py_reads_reply; [done| |exact Hcar]. intros d -> Hl. destruct Hr.
    by apply py_reads_description.
  - intros limit after Hf. pose proof (list_request_parses limit after f Hf) as Hparse.
    rewrite Hparse in Hcar. cbn [operations_value] in Hcar.
    eapply py_reads_reply; [done| |exact Hcar]. intros d -> Hl. destruct Hr.
    apply py_reads_listing; try done. by apply parse_bounded in Hparse as [_ ?].
Qed.

(** A broker with a namespace and a group that nobody joined, and with a member. *)
Definition with_group : BrokerStateMachine :=
  (apply (mk_group "jobs" "workers") (apply (mk_namespace "jobs") BrokerStateMachine_default).2).2.

Definition with_member : BrokerStateMachine := (apply (mk_join "workers" "w1" 1000) with_group).2.

Definition directory_of (m : BrokerStateMachine) :
    result (result ConsumerGroupDirectory BrokerError) RuntimeError :=
  Ok (Ok (group_directory (m_state m))).

(** What the listener of that broker writes for a request of the SDK. *)
Definition asked (m : BrokerStateMachine) (request : result bytes PyError) : bytes :=
  match request with
  | Ok f => match handle_operations_connection (J := text_json) (ObserveStandalone sample_load)
      (directory_of m) 4096 [Ok f] with Ok (Some line) => line | _ => [] end
  | Err _ => []
  end.

(** A group that nobody has joined cannot be seen with the SDK: its
    generation is zero, and the SDK's decoder takes only positive ones, so
    [describe_group] of it and every page of [list_groups] that contains it raise
    a protocol error.  So does [describe_group] of a group that does not exist:
    the listener answers [group_not_found], and the SDK only knows [not_found].
    Once a member has joined, the group is listed. *)
Theorem fresh_group_is_unreadable :
  decode_describe_group (asked with_group (encode_describe_group "workers")) =
    Err (PyProtocolError "operations generation must be a positive integer") ∧
  decode_list_groups (asked with_group (encode_list_groups 8 None)) =
    Err (PyProtocolError "operations generation must be a positive integer") ∧
  decode_describe_group (asked with_group (encode_describe_group "nobody")) =
    Err (PyProtocolError "unknown operations error code: group_not_found") ∧
  decode_list_groups (asked with_member (encode_list_groups 8 None)) =
    Ok (MkPyPage 1 3 [MkPySummary "workers" "jobs" 1 2 1] None).
Proof. split_and!; by vm_compute. Qed.

Lemma sdk_reads_groups_witness :
  ∃ line, handle_operations_connection (J := text_json) (ObserveStandalone sample_load)
      (directory_of with_member) 4096
      [Ok match encode_list_groups 8 None with Ok f => f | Err _ => [] end] = Ok (Some line) ∧
    decode_list_groups line = Ok (MkPyPage 1 3 [MkPySummary "workers" "jobs" 1 2 1] None).
Proof.
  destruct (sdk_reads_groups sample_std sample_std_laws text_json text_json_laws text_compact
    (ObserveStandalone sample_load) (directory_of with_member) 4096
    [Ok match encode_list_groups 8 None with Ok f => f | Err _ => [] end]
    match encode_list_groups 8 None with Ok f => f | Err _ => [] end) as (line & Hh & _ & Hl).
  - done.
  - done.
  - split; [|repeat constructor]. split_and!; [by vm_compute..|]. by repeat constructor; vm_compute.
  - split; [done|]. by repeat constructor.
  - by vm_compute.
  - exists line. split; [exact Hh|]. by rewrite (Hl 8%Z None eq_refl).
Defined.
