(* ===== verification/TransportProps.v ===== *)
(** * Traffic between members: what arrives

    A remote call that returns gives the answer of the peer's Raft to that very
    call, however the streams are cut and wherever they fail, and returns when
    nothing fails.  Raft is reached only under a node id whose pinned certificate
    the peer has shown.  The listener's counters are exact and bounded, and it
    stops. *)

From stdpp Require Import pretty relations.
From S2P Require Import Prelude Values Display Wire Replicated Sessions RaftSnapshot.
From S2P Require Import LogStorage LogStorageProps Json StateOwner Server Consensus Transport.

(** ** Streams *)

(** All the bytes that a reader delivers. *)
Definition received (r : Reader) : bytes :=
  concat ((λ c, match c with Ok b => b | Err _ => [] end) <$> r).

(** A reader whose calls only deliver bytes or are interrupted. *)
Definition clean (r : Reader) : Prop :=
  Forall (λ c, match c with Ok b => b ≠ [] | Err e => interrupted e = true end) r.

(** A writer whose calls take bytes or are interrupted, and whose flushes succeed. *)
Definition healthy (w : Writer) : Prop :=
  Forall (λ o, match o with Takes n => 0 < n | WriteFails e => interrupted e = true end) (wr_writes w) ∧
  Forall (λ f, f = Ok ()) (wr_flushes w).

Lemma take_drop_N {A} n (l : list A) : (take_N n l ++ drop_N n l)%list = l.
Proof. unfold drop_N. rewrite take_N_take. apply take_drop. Qed.

Lemma take_N_len {A} n (l : list A) : len (take_N n l) = N.min n (len l).
Proof. rewrite take_N_take. unfold len. rewrite length_take. lia. Qed.

Lemma app_len_inj {A} (a b c d : list A) : (a ++ b = c ++ d)%list → len a = len c → a = c ∧ b = d.
Proof. unfold len. intros H1 H2. apply app_inj_1; [lia|done]. Qed.

Lemma read_exact_received n r b r' :
  read_exact n r = (Ok b, r') → len b = n ∧ received r = (b ++ received r')%list.
Proof.
  revert n b. induction r as [|c r IH]; intros n b; cbn [read_exact].
  { destruct (N.eqb_spec n 0) as [->|]; [by intros [= <- <-]|done]. }
  destruct (N.eqb_spec n 0) as [->|Hn]; [by intros [= <- <-]|].
  destruct c as [[|x k]|e]; [done| |by destruct (interrupted e); [apply IH|]].
  generalize (x :: k) as c. clear x k. intros c.
  destruct (N.ltb_spec n (len c)) as [Hlt|Hge].
  - intros [= <- <-]. split; [rewrite take_N_len; lia|].
    unfold received. rewrite !fmap_cons. cbn [concat].
    by rewrite app_assoc, take_drop_N.
  - destruct (read_exact _ r) as [[rest|] r1] eqn:E; [|done]. intros [= <- <-].
    apply IH in E as [El Er]. split; [rewrite len_app; lia|].
    unfold received in *. rewrite fmap_cons. cbn [concat]. by rewrite Er, <-app_assoc.
Qed.

Lemma read_exact_clean n r :
  clean r → n ≤ len (received r) → ∃ b r', read_exact n r = (Ok b, r') ∧ clean r'.
Proof.
  intros Hc. revert n. induction Hc as [|c r Hx Hr IH]; intros n Hn; cbn [read_exact].
  { change (received []) with ([] : bytes) in Hn. rewrite len_nil in Hn. destruct (N.eqb_spec n 0); [|lia].
    exists [], []. split; [done|constructor]. }
  destruct (N.eqb_spec n 0) as [->|Hn0]; [exists [], (c :: r); split; [done|by constructor]|].
  unfold received in *. rewrite fmap_cons in Hn. cbn [concat] in Hn. rewrite len_app in Hn.
  destruct c as [[|x k]|e]; [done| |rewrite Hx; apply IH; rewrite len_nil in Hn; lia].
  destruct (N.ltb_spec n (len (x :: k))) as [Hlt|Hge].
  - eexists _, _. split; [done|]. constructor; [|done]. intros Hnil.
    apply (f_equal len) in Hnil. pose proof (take_drop_N n (x :: k)) as Htd.
    apply (f_equal len) in Htd. rewrite len_app, take_N_len, Hnil, len_nil in Htd. lia.
  - destruct (IH (n - len (x :: k))) as (b & r' & -> & ?); [lia|]. eauto.
Qed.

(** What lies at the front of a clean reader is read. *)
Lemma read_exact_front b rest r :
  clean r → received r = (b ++ rest)%list →
  ∃ r', read_exact (len b) r = (Ok b, r') ∧ received r' = rest ∧ clean r'.
Proof.
  intros Hc Hr. destruct (read_exact_clean (len b) r Hc) as (b' & r' & E & Hc').
  { rewrite Hr, len_app. lia. }
  destruct (read_exact_received _ _ _ _ E) as [Hl Hb]. rewrite Hr in Hb.
  destruct (app_len_inj _ _ _ _ Hb) as [-> ->]; [done|]. eauto.
Qed.

(** [p] wrote some front part of [buf], all of it when it succeeded. *)
Definition sends (buf : bytes) (w : Writer) (p : result unit IoError * Writer) : Prop :=
  ∃ k, k `prefix_of` buf ∧ wr_sent p.2 = (wr_sent w ++ k)%list ∧ (p.1 = Ok () → k = buf).

Lemma sends_seq b1 b2 w p f :
  sends b1 w p → (∀ w1, sends b2 w1 (f w1)) →
  sends (b1 ++ b2)%list w (let! _, w := p in f w).
Proof.
  intros (k1 & Hp1 & Hs1 & Hk1) Hf. destruct p as [[[]|e] w1]; cbn in *.
  - rewrite Hk1 in Hs1 by done. destruct (Hf w1) as (k2 & Hp2 & Hs2 & Hk2).
    exists (b1 ++ k2)%list. split_and!; [by apply prefix_app|by rewrite Hs2, Hs1, app_assoc|].
    intros H. by rewrite Hk2.
  - exists k1. split_and!; [|done..]. by apply prefix_app_r.
Qed.

Lemma sends_nothing buf w e : sends buf w (Err e, w).
Proof. exists []. split_and!; [apply prefix_nil|by rewrite app_nil_r|done]. Qed.

Lemma write_all_sends buf w : sends buf w (write_all buf w).
Proof.
  unfold write_all, sends. destruct w as [sent writes flushes]. cbn [wr_writes wr_sent wr_flushes].
  revert buf sent. induction writes as [|o writes IH]; intros [|x buf] sent; cbn [write_all_loop].
  1,3: exists []; split_and!; [done|by rewrite app_nil_r|done].
  { exists (x :: buf). by split_and!. }
  destruct o as [n|e].
  - destruct (n =? 0); [exists []; split_and!; [apply prefix_nil|by rewrite app_nil_r|done]|].
    destruct (IH (drop_N n (x :: buf)) (sent ++ take_N n (x :: buf))%list) as (k & Hp & Hs & Hk).
    exists (take_N n (x :: buf) ++ k)%list. split_and!.
    + destruct Hp as [t Ht]. exists t. by rewrite <-app_assoc, <-Ht, take_drop_N.
    + by rewrite Hs, app_assoc.
    + intros H. rewrite (Hk H). apply take_drop_N.
  - destruct (interrupted e); [apply IH|].
    exists []. split_and!; [apply prefix_nil|by rewrite app_nil_r|done].
Qed.

Lemma flush_sends w : sends [] w (flush w).
Proof.
  unfold flush. exists [].
  destruct (wr_flushes w); cbn; split_and!; try done; by rewrite app_nil_r.
Qed.

Lemma write_all_healthy buf w : healthy w → ∃ w', write_all buf w = (Ok (), w') ∧ healthy w'.
Proof.
  unfold write_all, healthy. destruct w as [sent writes flushes].
  cbn [wr_writes wr_sent wr_flushes]. intros [Hw Hf]. revert buf sent.
  induction Hw as [|o writes Ho Hw IH]; intros [|x buf] sent; cbn [write_all_loop].
  1-3: eexists; split; [reflexivity|by repeat constructor].
  destruct o as [n|e].
  - destruct (N.eqb_spec n 0); [lia|]. apply IH.
  - rewrite Ho. apply IH.
Qed.

Lemma flush_healthy w : healthy w → ∃ w', flush w = (Ok (), w') ∧ healthy w'.
Proof.
  intros [Hw Hf]. unfold flush. destruct w as [sent writes flushes]; cbn in *.
  destruct Hf as [|f flushes -> Hf]; eexists; split; [reflexivity|by split|reflexivity|by split].
Qed.

(** ** Frames *)

Definition frame_bytes (payload : bytes) : bytes := (to_be_bytes 4 (len payload) ++ payload)%list.

Lemma frame_length_read (p : bytes) :
  len p ≤ MAX_RAFT_FRAME_BYTES →
  from_be_bytes (to_be_bytes 4 (len p)) = len p.
Proof. intros Hp. apply be_bytes_inv. unfold MAX_RAFT_FRAME_BYTES in Hp. lia. Qed.

Lemma write_frame_sends payload w : sends (frame_bytes payload) w (write_frame payload w).
Proof.
  unfold write_frame. destruct (_ <? _); [apply sends_nothing|].
  destruct (_ <? _); [apply sends_nothing|].
  apply sends_seq; [apply write_all_sends|]. intros w1.
  rewrite <-(app_nil_r payload) at 1. apply sends_seq; [apply write_all_sends|].
  intros w2. apply flush_sends.
Qed.

Lemma write_frame_bounded payload w w' :
  write_frame payload w = (Ok (), w') → len payload ≤ MAX_RAFT_FRAME_BYTES.
Proof. unfold write_frame. destruct (N.ltb_spec MAX_RAFT_FRAME_BYTES (len payload)); [done|lia]. Qed.

Lemma write_frame_healthy payload w :
  healthy w → len payload ≤ MAX_RAFT_FRAME_BYTES →
  ∃ w', write_frame payload w = (Ok (), w') ∧ healthy w'.
Proof.
  intros Hw Hl. unfold write_frame. rewrite (proj2 (N.ltb_ge _ _) Hl).
  assert ((u32_max <? len payload) = false) as ->.
  { apply N.ltb_ge. unfold MAX_RAFT_FRAME_BYTES, u32_max in *. lia. }
  destruct (write_all_healthy (to_be_bytes 4 (len payload)) w Hw) as (w1 & -> & Hw1).
  destruct (write_all_healthy payload w1 Hw1) as (w2 & -> & Hw2). by apply flush_healthy.
Qed.

(** A frame that is read from a stream which begins with [q]'s frame is [q]. *)
Lemma read_frame_prefix p q rest r r' :
  len q ≤ MAX_RAFT_FRAME_BYTES → read_frame r = (Ok p, r') →
  received r `prefix_of` (frame_bytes q ++ rest)%list →
  p = q ∧ received r' `prefix_of` rest.
Proof.
  intros Hq. unfold read_frame. destruct (read_exact 4 r) as [[lb|] r1] eqn:E1; [|done].
  apply read_exact_received in E1 as [Hl1 Hr1]. destruct (_ <? _); [done|].
  intros E2. apply read_exact_received in E2 as [Hl2 Hr2]. rewrite Hr1, Hr2.
  intros [tail Ht]. unfold frame_bytes in Ht. rewrite <-!app_assoc in Ht.
  apply app_len_inj in Ht as [Hlb Ht]; [|unfold len at 1; by rewrite to_be_bytes_length].
  rewrite <-Hlb, frame_length_read in Hl2 by done.
  apply app_len_inj in Ht as [-> Ht]; [|done]. split; [done|]. by exists tail.
Qed.

Lemma read_frame_clean p rest r :
  len p ≤ MAX_RAFT_FRAME_BYTES → clean r → received r = (frame_bytes p ++ rest)%list →
  ∃ r', read_frame r = (Ok p, r') ∧ received r' = rest ∧ clean r'.
Proof.
  intros Hp Hc Hr. unfold frame_bytes in Hr. rewrite <-app_assoc in Hr.
  destruct (read_exact_front _ _ _ Hc Hr) as (r1 & E1 & Hr1 & Hc1). unfold read_frame.
  assert (len (to_be_bytes 4 (len p)) = 4) as E4 by (unfold len at 1; by rewrite to_be_bytes_length).
  rewrite E4 in E1. rewrite E1, frame_length_read by done.
  rewrite (proj2 (N.ltb_ge _ _) Hp). by apply read_exact_front.
Qed.

(** ** Snapshot bodies *)

Lemma chunks_loop_concat {A} fuel n (l : list A) :
  0 < n → (length l ≤ fuel)%nat → concat (chunks_loop fuel n l) = l.
Proof.
  intros Hn. revert l. induction fuel as [|fuel IH]; intros [|x l] Hl; simpl in Hl; [done|lia|done|].
  cbn [chunks_loop concat]. rewrite IH; [apply take_drop_N|].
  unfold drop_N. rewrite length_drop. simpl. lia.
Qed.

Lemma write_chunks_sends pieces w : sends (concat pieces) w (write_chunks pieces w).
Proof.
  revert w. induction pieces as [|p pieces IH]; intros w; cbn [write_chunks concat].
  { exists []. split_and!; [done|by rewrite app_nil_r|done]. }
  apply sends_seq; [apply write_all_sends|done].
Qed.

Lemma write_snapshot_body_sends data w : sends data w (write_snapshot_body data w).
Proof.
  unfold write_snapshot_body. destruct (_ <? _); [apply sends_nothing|].
  rewrite <-(app_nil_r data) at 1.
  rewrite <-(chunks_loop_concat (length data) SNAPSHOT_IO_CHUNK_BYTES data) at 1 by done.
  apply sends_seq; [apply write_chunks_sends|apply flush_sends].
Qed.

Lemma write_chunks_healthy pieces w :
  healthy w → ∃ w', write_chunks pieces w = (Ok (), w') ∧ healthy w'.
Proof.
  revert w. induction pieces as [|p pieces IH]; intros w Hw; cbn [write_chunks]; [eauto|].
  destruct (write_all_healthy p w Hw) as (w1 & -> & Hw1). by apply IH.
Qed.

Lemma write_snapshot_body_healthy data w :
  healthy w → len data ≤ MAX_RAFT_SNAPSHOT_BYTES →
  ∃ w', write_snapshot_body data w = (Ok (), w') ∧ healthy w'.
Proof.
  intros Hw Hl. unfold write_snapshot_body. rewrite (proj2 (N.ltb_ge _ _) Hl).
  destruct (write_chunks_healthy (chunks SNAPSHOT_IO_CHUNK_BYTES data) w Hw) as (w1 & -> & Hw1).
  by apply flush_healthy.
Qed.

Lemma read_pieces_received fuel n r b r' :
  n ≤ N.of_nat fuel * SNAPSHOT_IO_CHUNK_BYTES → read_snapshot_pieces fuel n r = (Ok b, r') →
  len b = n ∧ received r = (b ++ received r')%list.
Proof.
  revert n r b. induction fuel as [|fuel IH]; intros n r b Hf; cbn [read_snapshot_pieces].
  { intros [= <- <-]. rewrite len_nil. split; [lia|done]. }
  destruct (N.eqb_spec n 0) as [->|Hn]; [by intros [= <- <-]|].
  destruct (read_exact _ r) as [[h|] r1] eqn:E1; [|done].
  apply read_exact_received in E1 as [Hl1 Hr1].
  destruct (read_snapshot_pieces fuel _ r1) as [[t|] r2] eqn:E2; [|done]. intros [= <- <-].
  apply IH in E2 as [Hl2 Hr2]; [|lia]. rewrite len_app, Hr1, Hr2, app_assoc. split; [lia|done].
Qed.

Lemma read_pieces_clean fuel n r :
  clean r → n ≤ len (received r) → ∃ b r', read_snapshot_pieces fuel n r = (Ok b, r') ∧ clean r'.
Proof.
  revert n r. induction fuel as [|fuel IH]; intros n r Hc Hn; cbn [read_snapshot_pieces]; [eauto|].
  destruct (N.eqb_spec n 0); [eauto|].
  destruct (read_exact_clean (N.min SNAPSHOT_IO_CHUNK_BYTES n) r Hc) as (h & r1 & E & Hc1); [lia|].
  rewrite E. apply read_exact_received in E as [Hl Hr]. rewrite Hr, len_app in Hn.
  destruct (IH (n - N.min SNAPSHOT_IO_CHUNK_BYTES n) r1 Hc1) as (t & r2 & -> & Hc2); [lia|]. eauto.
Qed.

Lemma body_fuel n : n ≤ N.of_nat (N.to_nat (n / SNAPSHOT_IO_CHUNK_BYTES + 1)) * SNAPSHOT_IO_CHUNK_BYTES.
Proof.
  rewrite N2Nat.id. pose proof (N.mul_succ_div_gt n SNAPSHOT_IO_CHUNK_BYTES) as H.
  unfold SNAPSHOT_IO_CHUNK_BYTES in *. lia.
Qed.

Lemma read_snapshot_body_prefix n data b r r' :
  len data = n → read_snapshot_body n r = (Ok b, r') → received r `prefix_of` data → b = data.
Proof.
  intros <-. unfold read_snapshot_body, read_snapshot_body_into. destruct (_ <? _); [done|].
  intros [Hl Hr]%read_pieces_received [tail Ht]; [|apply body_fuel].
  rewrite Hr, <-app_assoc in Ht. rewrite <-(app_nil_r data) in Ht.
  by apply app_len_inj in Ht as [-> _].
Qed.

Lemma read_snapshot_body_clean data r :
  len data ≤ MAX_RAFT_SNAPSHOT_BYTES → clean r → received r = data →
  ∃ r', read_snapshot_body (len data) r = (Ok data, r').
Proof.
  intros Hl Hc Hr. unfold read_snapshot_body, read_snapshot_body_into.
  rewrite (proj2 (N.ltb_ge _ _) Hl).
  destruct (read_pieces_clean (N.to_nat (len data / SNAPSHOT_IO_CHUNK_BYTES + 1)) (len data) r Hc)
    as (b & r' & E & _); [by rewrite Hr|]. rewrite E. exists r'. f_equal. f_equal.
  apply read_pieces_received in E as [Hlb Hb]; [|apply body_fuel].
  rewrite Hr, <-(app_nil_r data) in Hb. symmetry. by apply app_len_inj in Hb as [-> _].
Qed.

(** ** Sessions *)

Abbreviation reader s := (ts_reader (so_session s)).
Abbreviation writer s := (ts_writer (so_session s)).
Abbreviation sent s := (wr_sent (ts_writer (so_session s))).
Abbreviation certificates s := (ts_peer_certificates (so_session s)).

(** Time goes on: a turn of the handshake that leaves it unfinished sleeps. *)
Definition ticking (t : TlsSession) : Prop :=
  ts_started t ≤ hr_now (ts_rounds t 0) ∧
  ∀ i, hr_handshaking (ts_rounds t i) = true →
    hr_now (ts_rounds t i) + TLS_HANDSHAKE_POLL_INTERVAL ≤ hr_now (ts_rounds t (S i)).

Lemma handshake_loop_returns failed late timeout t fuel i h :
  ticking t →
  (h = true → ts_started t + N.of_nat i * TLS_HANDSHAKE_POLL_INTERVAL ≤ hr_now (ts_rounds t i)) →
  N.of_nat i * TLS_HANDSHAKE_POLL_INTERVAL ≤ timeout + TLS_HANDSHAKE_POLL_INTERVAL →
  (handshake_fuel timeout ≤ fuel + i)%nat →
  is_Some (tls_handshake_loop fuel failed late (ts_started t + timeout) (ts_rounds t) i h).
Proof.
  intros [_ Ht]. revert i h. induction fuel as [|fuel IH]; intros i h Hi Hb Hf;
    destruct h; cbn [tls_handshake_loop negb]; try by eexists.
  - exfalso. unfold handshake_fuel in Hf.
    pose proof (N.mul_succ_div_gt timeout TLS_HANDSHAKE_POLL_INTERVAL) as Hd.
    unfold TLS_HANDSHAKE_POLL_INTERVAL in *. lia.
  - set (go := if _ <=? _ then _ else _). enough (is_Some go).
    { destruct (hr_progress (ts_rounds t i)); [done|]. by case_bool_decide. }
    subst go. destruct (N.leb_spec (ts_started t + timeout) (hr_now (ts_rounds t i))); [by eexists|].
    specialize (Hi eq_refl). apply IH; [intros Hh%Ht; lia|lia|lia].
Qed.

Lemma handshake_returns failed late timeout s :
  ticking (so_session s) → is_Some (complete_tls_handshake failed late timeout s).
Proof.
  intros Ht. unfold complete_tls_handshake, set_nonblocking, set_option.
  assert (∀ s', so_session s' = so_session s →
    is_Some (let% _ := tls_handshake_loop (handshake_fuel timeout) failed late
        (ts_started (so_session s') + timeout) (ts_rounds (so_session s')) 0
        (ts_handshaking (so_session s')) in Some (Ok s'))) as Hr.
  { intros s' ->.
    destruct (handshake_loop_returns failed late timeout (so_session s) (handshake_fuel timeout) 0
      (ts_handshaking (so_session s)) Ht) as [[[]|e] ->]; [destruct Ht; lia|lia|lia|by eexists..]. }
  destruct (so_refusals s) as [|[e|] rest]; [by apply Hr|by eexists|by apply Hr].
Qed.

(** The options of the stream that a request is sent or served on: blocking,
    with both timeouts. *)
Definition rpc_ready (io_timeout : N) (s : TcpStream) : Prop :=
  so_nodelay s = true ∧ so_nonblocking s = false ∧ so_read_timeout s = Some io_timeout ∧
  so_write_timeout s = Some io_timeout.

Lemma set_nodelay_ok s s' :
  set_nodelay true s = Ok s' → so_nodelay s' = true ∧ so_session s' = so_session s.
Proof.
  unfold set_nodelay, set_option. by destruct (so_refusals s) as [|[]]; intros [= <-].
Qed.

Lemma handshake_ok failed late timeout s s' :
  complete_tls_handshake failed late timeout s = Some (Ok s') →
  so_nodelay s' = so_nodelay s ∧ so_session s' = so_session s ∧
  tls_handshake_loop (handshake_fuel timeout) failed late (ts_started (so_session s) + timeout)
    (ts_rounds (so_session s)) 0 (ts_handshaking (so_session s)) = Some (Ok ()).
Proof.
  unfold complete_tls_handshake, set_nonblocking, set_option.
  destruct (so_refusals s) as [|[e|] rest]; [|done|]; cbn [so_session];
    destruct (tls_handshake_loop _ _ _ _ _ _ _) as [[[]|]|]; try done; by intros [= <-].
Qed.

(** The last three calls of [connect_tls_peer] and [accept_tls_peer]. *)
Definition settle (io_timeout : N) (s : TcpStream) : option (result TcpStream IoError) :=
  let% s := Some (set_nonblocking false s) in
  let% s := Some (set_read_timeout io_timeout s) in
  Some (set_write_timeout io_timeout s).

Lemma settle_ok io_timeout s s' :
  settle io_timeout s = Some (Ok s') → so_nodelay s = true →
  rpc_ready io_timeout s' ∧ so_session s' = so_session s.
Proof.
  unfold settle, set_nonblocking, set_read_timeout, set_write_timeout, set_option, rpc_ready.
  destruct s as [nd nb rt wt refusals t]. cbn [so_refusals so_nodelay so_nonblocking
    so_read_timeout so_write_timeout so_session].
  destruct (io_timeout =? 0); [by destruct refusals as [|[]]|]. intros E ->.
  destruct refusals as [|[] [|[] [|[]]]]; by simplify_eq/=.
Qed.

Lemma settle_returns io_timeout s : is_Some (settle io_timeout s).
Proof. unfold settle. by repeat case_match; eexists. Qed.

Section sessions.
Context `{T : Rustls} `{S : Sockets}.

Lemma connect_tls_peer_settles address target connect_limit io_timeout tls :
  connect_tls_peer address target connect_limit io_timeout tls =
  let% socket := Some (connect_peer address connect_limit) in
  let% socket := Some (set_nodelay true socket) in
  let% server_name := Some (map_err (λ _, MkIo KInvalidInput "Raft TLS peer name invalid")
                              (peer_server_name target)) in
  if negb (client_connection_new (lt_client_config tls) server_name)
  then Some (Err (io_other "Raft TLS client configuration failed"))
  else
  let% socket := complete_client_tls_handshake (lt_handshake_timeout tls) socket in
  let% _ := Some (verify_pinned_peer_certificate tls target (certificates socket)) in
  settle io_timeout socket.
Proof. done. Qed.

Lemma accept_tls_peer_settles socket tls :
  accept_tls_peer socket tls =
  let% socket := Some (set_nodelay true socket) in
  if negb (server_connection_new (lt_server_config tls))
  then Some (Err (io_other "Raft TLS server configuration failed"))
  else
  let% socket := complete_server_tls_handshake (lt_handshake_timeout tls) socket in
  settle RPC_IO_TIMEOUT socket.
Proof. done. Qed.

Lemma connect_tls_peer_ok address target connect_limit io_timeout tls s :
  connect_tls_peer address target connect_limit io_timeout tls = Some (Ok s) →
  ∃ socket, connect_peer address connect_limit = Ok socket ∧ so_session s = so_session socket ∧
    rpc_ready io_timeout s ∧ verify_pinned_peer_certificate tls target (certificates s) = Ok ().
Proof.
  rewrite connect_tls_peer_settles. destruct (connect_peer _ _) as [socket|]; [|done].
  destruct (set_nodelay true socket) as [s1|] eqn:E1; [|done].
  destruct (map_err _ (peer_server_name _)); [|done]. destruct (negb _); [done|].
  destruct (complete_client_tls_handshake _ s1) as [[s2|]|] eqn:E2; [|done..].
  destruct (verify_pinned_peer_certificate _ _ _) as [[]|] eqn:E3; [|done]. intros E4.
  apply set_nodelay_ok in E1 as [Hd1 Ht1]. apply handshake_ok in E2 as (Hd2 & Ht2 & _).
  apply settle_ok in E4 as [Hr Ht4]; [|congruence].
  exists socket. rewrite Ht4, Ht2, Ht1 in *. by split_and!.
Qed.

Lemma accept_tls_peer_ok socket tls s :
  accept_tls_peer socket tls = Some (Ok s) →
  so_session s = so_session socket ∧ rpc_ready RPC_IO_TIMEOUT s.
Proof.
  rewrite accept_tls_peer_settles.
  destruct (set_nodelay true socket) as [s1|] eqn:E1; [|done]. destruct (negb _); [done|].
  destruct (complete_server_tls_handshake _ s1) as [[s2|]|] eqn:E2; [|done..]. intros E4.
  apply set_nodelay_ok in E1 as [Hd1 Ht1]. apply handshake_ok in E2 as (Hd2 & Ht2 & _).
  apply settle_ok in E4 as [Hr Ht4]; [|congruence]. split; [congruence|done].
Qed.

Lemma accept_tls_peer_returns socket tls :
  ticking (so_session socket) → is_Some (accept_tls_peer socket tls).
Proof.
  intros Ht. rewrite accept_tls_peer_settles.
  destruct (set_nodelay true socket) as [s1|] eqn:E1; [|by eexists].
  apply set_nodelay_ok in E1 as [_ Ht1]. destruct (negb _); [by eexists|].
  destruct (handshake_returns "Raft TLS server handshake failed" "Raft TLS server handshake timed out"
    (lt_handshake_timeout tls) s1) as [[s2|e] E]; [by rewrite Ht1|..];
    unfold complete_server_tls_handshake; rewrite E; [apply settle_returns|by eexists].
Qed.

Lemma connect_tls_peer_returns address target connect_limit io_timeout tls :
  (∀ socket, connect_peer address connect_limit = Ok socket → ticking (so_session socket)) →
  is_Some (connect_tls_peer address target connect_limit io_timeout tls).
Proof.
  intros Ht. rewrite connect_tls_peer_settles.
  destruct (connect_peer _ _) as [socket|] eqn:E0; [|by eexists].
  destruct (set_nodelay true socket) as [s1|] eqn:E1; [|by eexists].
  apply set_nodelay_ok in E1 as [_ Ht1]. destruct (map_err _ _); [|by eexists].
  destruct (negb _); [by eexists|].
  destruct (handshake_returns "Raft TLS client handshake failed" "Raft TLS client handshake timed out"
    (lt_handshake_timeout tls) s1) as [[s2|e] E]; [rewrite Ht1; by apply Ht|..];
    unfold complete_client_tls_handshake; rewrite E; [|by eexists].
  destruct (verify_pinned_peer_certificate _ _ _); [apply settle_returns|by eexists].
Qed.

(** The check of a certificate, as a relation. *)
Lemma verify_pinned_ok tls node_id certs :
  verify_pinned_peer_certificate tls node_id certs = Ok () ↔
  ∃ leaf chain, certs = Some (leaf :: chain) ∧ lt_pinned_peer_certificates tls !! node_id = Some leaf.
Proof.
  unfold verify_pinned_peer_certificate, matches_pinned_peer_certificate, pinned_peer_certificate.
  destruct (lt_pinned_peer_certificates tls !! node_id) as [pinned|]; [|naive_solver].
  destruct certs as [[|leaf chain]|]; cbn; [naive_solver| |naive_solver].
  case_bool_decide; cbn; naive_solver.
Qed.
End sessions.

(** ** A call and its answer *)

Class RpcJsonLaws `{R : RaftTypes} `{M : RaftRpcTypes} (J : RpcJson) : Prop := {
  envelope_json e : ∃ b, envelope_to_vec e = Ok b ∧ envelope_from_slice b = Ok e;
  response_json p : ∃ b, response_to_vec p = Ok b ∧ response_from_slice b = Ok p;
}.

Section calls.
Context `{T : Rustls} `{R : RaftTypes} `{M : RaftRpcTypes}.

(** The calls that one Raft makes to another. *)
Inductive RaftCall :=
  | CallAppendEntries (rpc : AppendEntriesRequest)
  | CallVote (rpc : VoteRequest)
  | CallFullSnapshot (vote : Vote) (snapshot : Snapshot).

(** The answer of the Raft that is asked. *)
Definition raft_call {Q} `{V : !RaftServer Q} (call : RaftCall) (raft : Q) : ClusterRpcResponse * Q :=
  match call with
  | CallAppendEntries rpc =>
      let '(res, raft) := raft_append_entries rpc raft in
      (RespAppendEntries (map_err raft_error_to_fatal res), raft)
  | CallVote rpc =>
      let '(res, raft) := raft_vote rpc raft in (RespVote (map_err raft_error_to_fatal res), raft)
  | CallFullSnapshot vote snapshot =>
      let '(res, raft) := raft_install_full_snapshot vote snapshot raft in
      (RespFullSnapshot res, raft)
  end.

Definition call_body (call : RaftCall) : bytes :=
  match call with CallFullSnapshot _ snapshot => sp_data snapshot | _ => [] end.

Definition call_envelope (source : N) (call : RaftCall) : ClusterRpcEnvelope := {|
  ev_source_node_id := source;
  ev_request := match call with
    | CallAppendEntries rpc => RpcAppendEntries rpc
    | CallVote rpc => RpcVote rpc
    | CallFullSnapshot vote snapshot => RpcFullSnapshot vote (sp_meta snapshot) (len (sp_data snapshot))
    end;
|}.

Context `{J : !RpcJson} {L : RpcJsonLaws J}.

(** What the connection of a call does once it is open. *)
Definition exchange (source : N) (call : RaftCall) (stream : TcpStream) :
    result ClusterRpcResponse IoError * TcpStream :=
  match call with
  | CallFullSnapshot vote snapshot => exchange_snapshot source
      {| sq_vote := vote; sq_meta := sp_meta snapshot; sq_data := sp_data snapshot |} stream
  | _ => exchange_request source (ev_request (call_envelope source call)) stream
  end.

(** The writer's part of it. *)
Definition write_call (source : N) (call : RaftCall) (w : Writer) : result unit IoError * Writer :=
  match call with
  | CallFullSnapshot vote snapshot =>
      write_snapshot_request source vote (sp_meta snapshot) (sp_data snapshot) w
  | _ => let? encoded := map_err invalid_data (envelope_to_vec (call_envelope source call)) else w in
         write_frame encoded w
  end.

Lemma exchange_writes source call stream :
  exchange source call stream =
  let! _, stream := on_writer (write_call source call) stream in read_response stream.
Proof.
  destruct call as [rpc|rpc|vote snapshot]; [| |done]; cbn [exchange write_call];
    unfold exchange_request, on_writer; destruct stream as [nd nb rt wt f [h st rd cs rr ww]];
    cbn [so_session ts_writer ts_reader ts_handshaking ts_started ts_rounds ts_peer_certificates
         so_nodelay so_nonblocking so_read_timeout so_write_timeout so_refusals];
    unfold write_call, call_envelope; cbn [ev_request]; cbv beta iota; by destruct (envelope_to_vec _).
Qed.

(** The bytes of a call: the frame of its envelope, then the body. *)
Lemma write_call_sends source call w encoded :
  envelope_to_vec (call_envelope source call) = Ok encoded →
  sends (frame_bytes encoded ++ call_body call)%list w (write_call source call w).
Proof.
  intros E. destruct call as [rpc|rpc|vote snapshot]; cbn [write_call call_body].
  1,2: rewrite E, app_nil_r; apply write_frame_sends.
  unfold write_snapshot_request. destruct (_ <? _); [apply sends_nothing|].
  destruct (_ <? _); [apply sends_nothing|]. unfold call_envelope in E. rewrite E.
  apply sends_seq; [apply write_frame_sends|]. intros w1. apply write_snapshot_body_sends.
Qed.

(** An envelope too large for a frame leaves nothing on the wire. *)
Lemma write_call_oversized source call w encoded :
  envelope_to_vec (call_envelope source call) = Ok encoded → MAX_RAFT_FRAME_BYTES < len encoded →
  ∃ e, write_call source call w = (Err e, w).
Proof.
  intros E Hl. destruct call as [rpc|rpc|vote snapshot]; cbn [write_call].
  1,2: rewrite E; cbn [map_err]; unfold write_frame; rewrite (proj2 (N.ltb_lt _ _) Hl); by eexists.
  unfold write_snapshot_request. destruct (_ <? _); [by eexists|]. destruct (_ <? _); [by eexists|].
  unfold call_envelope in E. rewrite E. cbn [map_err].
  unfold write_frame. rewrite (proj2 (N.ltb_lt _ _) Hl). by eexists.
Qed.

Lemma on_writer_sends f stream res stream' buf :
  (∀ w, sends buf w (f w)) → on_writer f stream = (res, stream') →
  ∃ k, k `prefix_of` buf ∧ sent stream' = (sent stream ++ k)%list ∧ (res = Ok () → k = buf) ∧
    reader stream' = reader stream.
Proof.
  intros Hf. unfold on_writer. destruct (f (writer stream)) as [res' w'] eqn:E. intros [= <- <-].
  destruct (Hf (writer stream)) as (k & Hp & Hs & Hk). rewrite E in Hs, Hk. eauto.
Qed.

(** The caller: what it leaves on the wire, and the frame its answer came in. *)
Lemma exchange_spec source call encoded stream res stream' :
  envelope_to_vec (call_envelope source call) = Ok encoded →
  exchange source call stream = (res, stream') →
  ∃ k, k `prefix_of` (frame_bytes encoded ++ call_body call)%list ∧
    sent stream' = (sent stream ++ k)%list ∧ (MAX_RAFT_FRAME_BYTES < len encoded → k = []) ∧
    ∀ response, res = Ok response → ∃ frame rest,
      read_frame (reader stream) = (Ok frame, rest) ∧ response_from_slice frame = Ok response.
Proof.
  intros Ee. rewrite exchange_writes.
  destruct (on_writer (write_call source call) stream) as [wres s1] eqn:E1.
  destruct (on_writer_sends _ _ _ _ _ (λ w, write_call_sends source call w encoded Ee) E1)
    as (k & Hp & Hs & _ & Hr). intros E2. exists k.
  assert (MAX_RAFT_FRAME_BYTES < len encoded → k = []) as Hbig.
  { intros Hl. destruct (write_call_oversized source call (writer stream) encoded Ee Hl) as [e Ew].
    unfold on_writer in E1. rewrite Ew in E1. injection E1 as <- <-. cbn in Hs.
    rewrite <-(app_nil_r (sent stream)) in Hs at 1. by apply app_inv_head in Hs. }
  destruct wres as [[]|e].
  - unfold read_response, on_reader in E2. rewrite <-Hr.
    destruct (read_frame (reader s1)) as [[frame|e] rest] eqn:E3;
      injection E2 as <- <-; split_and!; [done..| |done|done|done|by intros].
    destruct (response_from_slice frame) eqn:E4; [|done]. intros ? [= <-]. eauto.
  - injection E2 as <- <-. by split_and!.
Qed.

Context {Q : Type} `{V : !RaftServer Q} (tls : LoadedClusterRaftTls).

(** The call that a request asks for, once its body has been read from [r]. *)
Definition asks (request : ClusterRpcRequest) (r : Reader) (call : RaftCall) : Prop :=
  match request with
  | RpcAppendEntries rpc => call = CallAppendEntries rpc
  | RpcVote rpc => call = CallVote rpc
  | RpcFullSnapshot vote meta data_len => ∃ data r',
      read_snapshot_body data_len r = (Ok data, r') ∧
      call = CallFullSnapshot vote {| sp_meta := meta; sp_data := data |}
  end.

Lemma dispatch_rpc_spec request stream raft res c :
  dispatch_rpc (V := V) request (stream, raft) = (res, c) →
  writer c.1 = writer stream ∧
  (((∃ e, res = Err e) ∧ c.2 = raft) ∨
   ∃ call, asks request (reader stream) call ∧ res = Ok (raft_call call raft).1 ∧
     c.2 = (raft_call call raft).2).
Proof.
  unfold dispatch_rpc. destruct request as [rpc|rpc|vote meta data_len].
  - destruct (raft_append_entries rpc raft) as [res' raft'] eqn:E. intros [= <- <-].
    split; [done|]. right. exists (CallAppendEntries rpc). cbn. by rewrite E.
  - destruct (raft_vote rpc raft) as [res' raft'] eqn:E. intros [= <- <-].
    split; [done|]. right. exists (CallVote rpc). cbn. by rewrite E.
  - unfold on_reader. destruct (read_snapshot_body _ _) as [[data|e] r'] eqn:E1.
    + destruct (raft_install_full_snapshot _ _ _) as [res' raft'] eqn:E2. intros [= <- <-].
      split; [done|]. right. eexists. split; [by exists data, r'|]. cbn. by rewrite E2.
    + intros [= <- <-]. split; [done|]. left. eauto.
Qed.

(** The server: it calls its Raft only for a request under a node id whose
    certificate the peer has shown, and then writes the answer and nothing else. *)
Lemma serve_request_spec stream raft res stream' raft' :
  serve_request tls (stream, raft) = (res, (stream', raft')) →
  (raft' = raft ∧ sent stream' = sent stream) ∨
  ∃ frame rest envelope call k,
    read_frame (reader stream) = (Ok frame, rest) ∧ envelope_from_slice frame = Ok envelope ∧
    verify_pinned_peer_certificate tls (ev_source_node_id envelope) (certificates stream) = Ok () ∧
    asks (ev_request envelope) rest call ∧ raft' = (raft_call call raft).2 ∧
    sent stream' = (sent stream ++ k)%list ∧
    (k = [] ∨ ∃ answer, response_to_vec (raft_call call raft).1 = Ok answer ∧
       k `prefix_of` frame_bytes answer ∧ len answer ≤ MAX_RAFT_FRAME_BYTES).
Proof.
  unfold serve_request, on_reader. destruct (read_frame (reader stream)) as [[frame|e] rest] eqn:E1;
    [|intros [= <- <- <-]; by left].
  destruct (envelope_from_slice frame) as [envelope|] eqn:E2; [|intros [= <- <- <-]; by left].
  unfold verify_claimed_peer_certificate. cbn [map_err so_session ts_peer_certificates].
  destruct (verify_pinned_peer_certificate _ _ _) as [[]|] eqn:E3; [|intros [= <- <- <-]; by left].
  destruct (dispatch_rpc _ _) as [dres c] eqn:E4. apply dispatch_rpc_spec in E4 as [Hw Hd].
  cbn [so_session ts_writer ts_reader] in Hw, Hd.
  destruct Hd as [[[e ->] Hc]|(call & Ha & -> & Hc)].
  { destruct c as [s1 r1]. intros [= <- <- <-]. left. cbn in Hw, Hc. by rewrite Hw. }
  intros E5. right. exists frame, rest, envelope, call.
  enough (∃ k, raft' = c.2 ∧ sent stream' = (sent stream ++ k)%list ∧
    (k = [] ∨ ∃ answer, response_to_vec (raft_call call raft).1 = Ok answer ∧
       k `prefix_of` frame_bytes answer ∧ len answer ≤ MAX_RAFT_FRAME_BYTES)) as (k & -> & Hk1 & Hk2).
  { exists k. by split_and!. }
  rewrite <-Hw. destruct (response_to_vec _) as [answer|] eqn:E6.
  - cbn [map_err] in E5. destruct (on_writer (write_frame answer) c.1) as [wres s2] eqn:E7.
    injection E5 as <- <- <-.
    destruct (N.le_gt_cases (len answer) MAX_RAFT_FRAME_BYTES) as [Hl|Hl].
    + apply (on_writer_sends _ _ _ _ _ (write_frame_sends answer)) in E7 as (k & Hp & Hs & _).
      exists k. split_and!; [done|done|]. right. eauto.
    + unfold on_writer, write_frame in E7. rewrite (proj2 (N.ltb_lt _ _) Hl) in E7.
      injection E7 as <- <-. exists []. rewrite app_nil_r. split_and!; [done|done|by left].
  - destruct c as [s1 r1]. injection E5 as <- <- <-. exists []. rewrite app_nil_r. by split_and!; [..|left].
Qed.

Lemma handle_connection_spec stream raft res stream' raft' :
  handle_connection tls stream raft = Some (res, (stream', raft')) →
  (raft' = raft ∧ sent stream' = sent stream) ∨
  ∃ stream1, so_session stream1 = so_session stream ∧ rpc_ready RPC_IO_TIMEOUT stream1 ∧
    serve_request tls (stream1, raft) = (res, (stream', raft')).
Proof.
  unfold handle_connection. destruct (accept_tls_peer stream tls) as [[s1|e]|] eqn:E; [| |done].
  - intros [= Hs]. right. exists s1. apply accept_tls_peer_ok in E as [??]. done.
  - intros [= <- <- <-]. by left.
Qed.
End calls.

Section rpc.
Context `{T : Rustls} `{R : RaftTypes} `{M : RaftRpcTypes} `{J : !RpcJson} {L : RpcJsonLaws J}.
Context {Q : Type} `{V : !RaftServer Q}.

Lemma read_frame_nothing r : received r = [] → ∀ p r', read_frame r ≠ (Ok p, r').
Proof.
  intros Hr p r'. unfold read_frame. destruct (read_exact 4 r) as [[lb|] r1] eqn:E; [|done].
  apply read_exact_received in E as [Hl Hb]. rewrite Hr in Hb.
  symmetry in Hb. apply app_nil in Hb as [-> _]. done.
Qed.

Lemma envelope_read source call encoded e :
  envelope_to_vec (call_envelope source call) = Ok encoded → envelope_from_slice encoded = Ok e →
  e = call_envelope source call.
Proof. destruct (envelope_json (call_envelope source call)) as (b & E1 & E2). congruence. Qed.

Lemma response_read p answer p' :
  response_to_vec p = Ok answer → response_from_slice answer = Ok p' → p' = p.
Proof. destruct (response_json p) as (b & E1 & E2). congruence. Qed.

Lemma asks_call source call rest call' :
  asks (ev_request (call_envelope source call)) rest call' →
  received rest `prefix_of` call_body call → call' = call.
Proof.
  destruct call as [rpc|rpc|vote [meta data]]; cbn; [done..|].
  intros (data' & r' & E & ->) Hp. by rewrite (read_snapshot_body_prefix _ data _ _ _ eq_refl E Hp).
Qed.

(** The two ends of a connection on which every byte read was sent by the other. *)
Lemma both_ends_agree tls source call client res client' server raft sres server' raft' :
  exchange source call client = (res, client') →
  handle_connection tls server raft = Some (sres, (server', raft')) →
  sent client = [] → sent server = [] →
  received (reader server) `prefix_of` sent client' →
  received (reader client) `prefix_of` sent server' →
  (raft' = raft ∨ raft' = (raft_call call raft).2) ∧
  (∀ response, res = Ok response → (response, raft') = raft_call call raft).
Proof.
  intros Ec Es Hc0 Hs0 Hrs Hrc. destruct (envelope_json (call_envelope source call)) as (encoded & Ee & _).
  destruct (exchange_spec _ _ _ _ _ _ Ee Ec) as (k & Hk & Hsc & Hbig & Hres).
  rewrite Hc0 in Hsc. cbn in Hsc. rewrite Hsc in Hrs.
  assert (raft' = raft ∧ sent server' = [] → (raft' = raft ∨ raft' = (raft_call call raft).2) ∧
    (∀ response, res = Ok response → (response, raft') = raft_call call raft)) as Hidle.
  { intros [-> Hs]. rewrite Hs in Hrc. apply prefix_nil_inv in Hrc. split; [by left|].
    intros response (frame & rest & E & _)%Hres. by apply read_frame_nothing in E. }
  apply handle_connection_spec in Es as [[-> Hs]|(s1 & Ht & _ & Es)]; [apply Hidle; by rewrite Hs|].
  apply serve_request_spec in Es as [[-> Hs]|
    (frame & rest & envelope & call' & k2 & E1 & E2 & _ & Ha & -> & Hs & Hk2)]; [apply Hidle; by rewrite Hs, Ht|]. rewrite Ht in E1, Hs. rewrite Hs0 in Hs. cbn in Hs. rewrite Hs in Hrc.
  destruct (N.le_gt_cases (len encoded) MAX_RAFT_FRAME_BYTES) as [Hl|Hl]; cycle 1.
  { rewrite (Hbig Hl) in Hrs. apply prefix_nil_inv in Hrs. by apply read_frame_nothing in E1. }
  destruct (read_frame_prefix _ encoded (call_body call) _ _ Hl E1) as [-> Hrest]; [by etrans|].
  rewrite (envelope_read _ _ _ _ Ee E2) in Ha. rewrite (asks_call _ _ _ _ Ha Hrest) in *.
  split; [by right|]. intros response (frame2 & rest2 & E3 & E4)%Hres.
  destruct Hk2 as [->|(answer & E5 & Hp & Hla)].
  { apply prefix_nil_inv in Hrc. by apply read_frame_nothing in E3. }
  destruct (read_frame_prefix _ answer [] _ _ Hla E3) as [-> _].
  { rewrite app_nil_r. by etrans. }
  rewrite (response_read _ _ _ E5 E4). by destruct (raft_call call raft).
Qed.

Lemma handle_connection_idle tls server raft sres server' raft' :
  handle_connection tls server raft = Some (sres, (server', raft')) →
  received (reader server) = [] → raft' = raft.
Proof.
  intros Es Hr. apply handle_connection_spec in Es as [[-> _]|(s1 & Ht & _ & Es)]; [done|].
  apply serve_request_spec in Es as [[-> _]|(frame & rest & _ & _ & _ & E & _)]; [done|].
  rewrite Ht in E. by apply read_frame_nothing in E.
Qed.

Lemma raft_error_fatal (e : RaftError) : RaftFatal (raft_error_to_fatal e) = e.
Proof. by destruct e as [|[]]. Qed.

Context `{S : Sockets}.

(** A connection: the caller's end is one that its socket gave it, the other end
    is [server], and each side reads no more than the other has sent. *)
Record channel (client' : option TcpStream) (server server' : TcpStream) : Prop := {
  ch_client addr timeout client : connect_timeout addr timeout = Ok client →
    sent client = [] ∧ received (reader client) `prefix_of` sent server';
  ch_server : sent server = [];
  ch_request : received (reader server) `prefix_of` from_option (λ c, sent c) [] client';
}.

Definition remote_call (net : TcpRaftNetwork) (hard_ttl : N) (joined : option string)
    (call : RaftCall) : option (result ClusterRpcResponse IoError * option TcpStream) :=
  match call with
  | CallFullSnapshot vote snapshot => network_snapshot_request net joined
      {| sq_vote := vote; sq_meta := sp_meta snapshot; sq_data := sp_data snapshot |}
  | _ => network_request net hard_ttl joined (ev_request (call_envelope 0 call))
  end.

(** Either no connection was made, or the exchange ran on one whose certificate
    is the one pinned for the target. *)
Lemma remote_call_connects net hard_ttl joined call res used :
  remote_call net hard_ttl joined call = Some (res, used) →
  (used = None ∧ ∃ e, res = Err e) ∨
  ∃ addr timeout socket client res' client',
    connect_timeout addr timeout = Ok socket ∧ so_session client = so_session socket ∧
    verify_pinned_peer_certificate (nw_tls net) (nw_target net) (certificates client) = Ok () ∧
    exchange (nw_source_node_id net) call client = (res', client') ∧ used = Some client' ∧
    res = joined_result joined res'.
Proof.
  assert (∀ io limit, match on_connection (connect_tls_peer (nw_addr net) (nw_target net) limit io
      (nw_tls net)) (exchange (nw_source_node_id net) call) with
    | Some (res', used') => Some (joined_result joined res', used')
    | None => None
    end = Some (res, used) → (used = None ∧ ∃ e, res = Err e) ∨
    ∃ addr timeout socket client res' client',
      connect_timeout addr timeout = Ok socket ∧ so_session client = so_session socket ∧
      verify_pinned_peer_certificate (nw_tls net) (nw_target net) (certificates client) = Ok () ∧
      exchange (nw_source_node_id net) call client = (res', client') ∧ used = Some client' ∧
      res = joined_result joined res') as Hcore.
  { intros io limit. unfold on_connection.
    destruct (connect_tls_peer _ _ _ _ _) as [[client|e]|] eqn:E1; [| |done].
    - apply connect_tls_peer_ok in E1 as (socket & E1 & Ht & _ & Hv).
      destruct (exchange _ _ client) as [res' client'] eqn:E2. intros [= <- <-]. right.
      unfold connect_peer in E1. destruct (parse_socket_addr _) as [addr|]; [|done]. cbn in E1.
      destruct (limit =? 0); [done|]. by exists addr, limit, socket, client, res', client'.
    - intros [= <- <-]. left. split; [done|]. destruct joined; by eexists. }
  destruct call; apply Hcore.
Qed.

Lemma remote_call_answers net hard_ttl joined call tls server raft sres server' raft' res used :
  handle_connection tls server raft = Some (sres, (server', raft')) →
  remote_call net hard_ttl joined call = Some (res, used) → channel used server server' →
  (raft' = raft ∨ raft' = (raft_call call raft).2) ∧
  (∀ response, res = Ok response → (response, raft') = raft_call call raft).
Proof.
  intros Es Ec [Hcl Hsv Hrq].
  apply remote_call_connects in Ec as [[-> [e ->]]|
    (addr & timeout & socket & client & res' & client' & Ek & Ht & _ & Ec & -> & ->)].
  - cbn in Hrq. apply prefix_nil_inv in Hrq. split; [left|done]. by eapply handle_connection_idle.
  - destruct (Hcl _ _ _ Ek) as [Hs Hr]. rewrite <-Ht in Hs, Hr.
    destruct (both_ends_agree _ _ _ _ _ _ _ _ _ _ _ Ec Es Hs Hsv Hrq Hr) as [H1 H2].
    split; [done|]. intros response. destruct joined; [done|]. apply H2.
Qed.

(** C11: what the Raft network of a member reports of the Raft of another one is true.
    The two share a connection on which every byte read was sent by the other
    side, cut into reads anywhere and failing anywhere.  The asked Raft handles the
    call at most once and no other; a response, or the error that it failed
    remotely, is its own outcome for this call. *)
Theorem remote_outcomes_are_the_peers net tls server raft sres server' raft' :
  handle_connection tls server raft = Some (sres, (server', raft')) →
  (∀ rpc hard_ttl joined out used,
     network_append_entries net rpc hard_ttl joined = Some (out, used) → channel used server server' →
     (raft' = raft ∨ raft' = (raft_append_entries rpc raft).2) ∧
     (∀ response, out = Ok response → raft_append_entries rpc raft = (Ok response, raft')) ∧
     (∀ target addr e, out = Err (RpcRemote target addr e) →
        raft_append_entries rpc raft = (Err e, raft'))) ∧
  (∀ rpc hard_ttl joined out used,
     network_vote net rpc hard_ttl joined = Some (out, used) → channel used server server' →
     (raft' = raft ∨ raft' = (raft_vote rpc raft).2) ∧
     (∀ response, out = Ok response → raft_vote rpc raft = (Ok response, raft')) ∧
     (∀ target addr e, out = Err (RpcRemote target addr e) → raft_vote rpc raft = (Err e, raft'))) ∧
  (∀ vote snapshot joined out used,
     network_full_snapshot net vote snapshot joined = Some (out, used) → channel used server server' →
     (raft' = raft ∨ raft' = (raft_install_full_snapshot vote snapshot raft).2) ∧
     (∀ response, out = Ok response →
        raft_install_full_snapshot vote snapshot raft = (Ok response, raft')) ∧
     (∀ target addr e, out = Err (StreamingRemote target addr e) →
        raft_install_full_snapshot vote snapshot raft = (Err e, raft'))).
Proof.
  intros Es. split_and!.
  - intros rpc hard_ttl joined out used. unfold network_append_entries.
    destruct (network_request _ _ _ _) as [[res used']|] eqn:Ec; [|done]. intros [= <- <-] Hch.
    destruct (remote_call_answers net hard_ttl joined (CallAppendEntries rpc) _ _ _ _ _ _ _ _ Es Ec Hch)
      as [Hr Ha]. cbn [raft_call] in Hr, Ha.
    destruct (raft_append_entries rpc raft) as [ans raft1]. split; [done|].
    destruct res as [p|]; [|done]. specialize (Ha _ eq_refl) as [= -> ->].
    destruct ans as [a|e]; cbn; [naive_solver|]. rewrite raft_error_fatal. naive_solver.
  - intros rpc hard_ttl joined out used. unfold network_vote.
    destruct (network_request _ _ _ _) as [[res used']|] eqn:Ec; [|done]. intros [= <- <-] Hch.
    destruct (remote_call_answers net hard_ttl joined (CallVote rpc) _ _ _ _ _ _ _ _ Es Ec Hch)
      as [Hr Ha]. cbn [raft_call] in Hr, Ha.
    destruct (raft_vote rpc raft) as [ans raft1]. split; [done|].
    destruct res as [p|]; [|done]. specialize (Ha _ eq_refl) as [= -> ->].
    destruct ans as [a|e]; cbn; [naive_solver|]. rewrite raft_error_fatal. naive_solver.
  - intros vote snapshot joined out used. unfold network_full_snapshot.
    destruct (network_snapshot_request _ _ _) as [[res used']|] eqn:Ec; [|done]. intros [= <- <-] Hch.
    destruct (remote_call_answers net 0 joined (CallFullSnapshot vote snapshot) _ _ _ _ _ _ _ _ Es Ec Hch)
      as [Hr Ha]. cbn [raft_call] in Hr, Ha.
    destruct (raft_install_full_snapshot vote snapshot raft) as [ans raft1]. split; [done|].
    destruct res as [p|]; [|done]. specialize (Ha _ eq_refl) as [= -> ->].
    destruct ans as [a|e]; cbn; naive_solver.
Qed.

(** *** A connection that works *)

(** Options can be set, the handshake ends in time, and the streams do not fail. *)
Record usable (timeout : N) (s : TcpStream) : Prop := {
  us_options : Forall (λ refusal, refusal = None) (so_refusals s);
  us_handshake : tls_handshake_loop (handshake_fuel timeout) "" "" (ts_started (so_session s) + timeout)
    (ts_rounds (so_session s)) 0 (ts_handshaking (so_session s)) = Some (Ok ());
  us_reader : clean (reader s);
  us_writer : healthy (writer s);
  us_fresh : sent s = [];
}.

Lemma handshake_loop_messages failed late failed' late' fuel deadline rounds i h :
  tls_handshake_loop fuel failed late deadline rounds i h = Some (Ok ()) →
  tls_handshake_loop fuel failed' late' deadline rounds i h = Some (Ok ()).
Proof.
  revert i h. induction fuel as [|fuel IH]; intros i []; cbn [tls_handshake_loop negb]; try done.
  destruct (hr_progress (rounds i)) as [|e]; [|case_bool_decide; [|done]];
    (destruct (deadline <=? hr_now (rounds i)); [done|apply IH]).
Qed.

Lemma set_option_free update s :
  Forall (λ refusal, refusal = None) (so_refusals s) →
  (∀ s, so_session (update s) = so_session s ∧ so_refusals (update s) = so_refusals s) →
  ∃ s', set_option update s = Ok s' ∧ so_session s' = so_session s ∧
    Forall (λ refusal, refusal = None) (so_refusals s').
Proof.
  intros Hf Hu. unfold set_option. destruct (so_refusals s) as [|[e|] rest] eqn:E.
  - eexists. split; [done|]. destruct (Hu s) as [-> ->]. by rewrite E.
  - by inversion Hf.
  - eexists. split; [done|]. edestruct Hu as [-> ->]. by inversion Hf.
Qed.

(** Run the next call that sets an option of [s], with none refused by [Hf]. *)
Ltac set_free s Hf s' Ht Hf' :=
  match goal with
  | |- context [set_option ?update s] =>
      destruct (set_option_free update s Hf) as (s' & -> & Ht & Hf'); [by intros|]
  end.

Lemma handshake_free timeout s s1 :
  usable timeout s → so_session s1 = so_session s →
  Forall (λ refusal, refusal = None) (so_refusals s1) →
  ∃ s', (∀ failed late, complete_tls_handshake failed late timeout s1 = Some (Ok s')) ∧
    so_session s' = so_session s ∧ Forall (λ refusal, refusal = None) (so_refusals s').
Proof.
  intros Hu Ht Hf. unfold complete_tls_handshake, set_nonblocking.
  set_free s1 Hf s2 Ht2 Hf2. exists s2. split_and!; [|congruence|done]. intros failed late.
  by rewrite Ht2, Ht, (handshake_loop_messages "" "" _ _ _ _ _ _ _ (us_handshake _ _ Hu)).
Qed.

Lemma settle_free io_timeout s :
  0 < io_timeout → Forall (λ refusal, refusal = None) (so_refusals s) →
  ∃ s', settle io_timeout s = Some (Ok s') ∧ so_session s' = so_session s.
Proof.
  intros Hio Hf. unfold settle, set_nonblocking, set_read_timeout, set_write_timeout.
  assert ((io_timeout =? 0) = false) as -> by (apply N.eqb_neq; lia).
  set_free s Hf s1 Ht1 Hf1. set_free s1 Hf1 s2 Ht2 Hf2. set_free s2 Hf2 s3 Ht3 Hf3.
  exists s3. split; [done|congruence].
Qed.

Lemma bounded_rpc_io_timeout_range hard_ttl : 0 < bounded_rpc_io_timeout hard_ttl ≤ RPC_IO_TIMEOUT.
Proof. unfold bounded_rpc_io_timeout, RPC_IO_TIMEOUT. destruct (N.eqb_spec hard_ttl 0); lia. Qed.

Lemma accept_free tls server :
  usable (lt_handshake_timeout tls) server → server_connection_new (lt_server_config tls) = true →
  ∃ s, accept_tls_peer server tls = Some (Ok s) ∧ so_session s = so_session server.
Proof.
  intros Hu Hn. rewrite accept_tls_peer_settles. unfold set_nodelay.
  set_free server (us_options _ _ Hu) s1 Ht1 Hf1.
  rewrite Hn. cbn [negb]. unfold complete_server_tls_handshake.
  destruct (handshake_free _ server s1 Hu Ht1 Hf1) as (s2 & -> & Ht2 & Hf2).
  destruct (settle_free RPC_IO_TIMEOUT s2) as (s3 & -> & Ht3); [done|done|].
  exists s3. split; [done|congruence].
Qed.

Lemma connect_free net io_timeout limit client addr name :
  parse_socket_addr (nw_addr net) = Some addr → connect_timeout addr limit = Ok client →
  0 < limit → 0 < io_timeout → peer_server_name (nw_target net) = Ok name →
  client_connection_new (lt_client_config (nw_tls net)) name = true →
  usable (lt_handshake_timeout (nw_tls net)) client →
  verify_pinned_peer_certificate (nw_tls net) (nw_target net) (certificates client) = Ok () →
  ∃ s, connect_tls_peer (nw_addr net) (nw_target net) limit io_timeout (nw_tls net) = Some (Ok s) ∧
    so_session s = so_session client.
Proof.
  intros Hp Hc Hl Hio Hn Hcn Hu Hv. rewrite connect_tls_peer_settles. unfold connect_peer. rewrite Hp.
  cbn [ok_or]. assert ((limit =? 0) = false) as -> by (apply N.eqb_neq; lia). rewrite Hc.
  unfold set_nodelay.
  set_free client (us_options _ _ Hu) s1 Ht1 Hf1.
  rewrite Hn. cbn [map_err]. rewrite Hcn. cbn [negb]. unfold complete_client_tls_handshake.
  destruct (handshake_free _ client s1 Hu Ht1 Hf1) as (s2 & -> & Ht2 & Hf2).
  rewrite Ht2, Hv. destruct (settle_free io_timeout s2 Hio Hf2) as (s3 & -> & Ht3).
  exists s3. split; [done|congruence].
Qed.

Lemma write_call_healthy source call encoded w :
  envelope_to_vec (call_envelope source call) = Ok encoded → len encoded ≤ MAX_RAFT_FRAME_BYTES →
  len (call_body call) ≤ MAX_RAFT_SNAPSHOT_BYTES → healthy w →
  ∃ w', write_call source call w = (Ok (), w') ∧
    wr_sent w' = (wr_sent w ++ frame_bytes encoded ++ call_body call)%list.
Proof.
  intros Ee Hl Hb Hw.
  assert (∃ w', write_call source call w = (Ok (), w')) as [w' E].
  { destruct call as [rpc|rpc|vote snapshot]; cbn [write_call call_body] in *.
    1,2: rewrite Ee; destruct (write_frame_healthy encoded w Hw Hl) as (w1 & E & _); eauto.
    unfold write_snapshot_request. rewrite (proj2 (N.ltb_ge _ _) Hb).
    assert ((u64_max <? len (sp_data snapshot)) = false) as ->.
    { apply N.ltb_ge. unfold MAX_RAFT_SNAPSHOT_BYTES, u64_max in *. lia. }
    unfold call_envelope in Ee. rewrite Ee. cbn [map_err].
    destruct (write_frame_healthy encoded w Hw Hl) as (w1 & -> & Hw1).
    destruct (write_snapshot_body_healthy (sp_data snapshot) w1 Hw1 Hb) as (w2 & E & _). eauto. }
  exists w'. split; [done|].
  destruct (write_call_sends source call w encoded Ee) as (k & _ & Hs & Hk).
  rewrite E in Hs, Hk. cbn in Hs, Hk. by rewrite Hs, (Hk eq_refl).
Qed.

Lemma exchange_completes source call encoded p answer client :
  envelope_to_vec (call_envelope source call) = Ok encoded → len encoded ≤ MAX_RAFT_FRAME_BYTES →
  len (call_body call) ≤ MAX_RAFT_SNAPSHOT_BYTES →
  response_to_vec p = Ok answer → len answer ≤ MAX_RAFT_FRAME_BYTES →
  healthy (writer client) → clean (reader client) → received (reader client) = frame_bytes answer →
  ∃ client', exchange source call client = (Ok p, client') ∧
    sent client' = (sent client ++ frame_bytes encoded ++ call_body call)%list.
Proof.
  intros Ee Hl Hb Ep Hla Hw Hc Hr. rewrite exchange_writes.
  destruct (write_call_healthy _ _ _ _ Ee Hl Hb Hw) as (w' & Ew & Hs).
  rewrite <-(app_nil_r (frame_bytes answer)) in Hr.
  destruct (read_frame_clean _ _ _ Hla Hc Hr) as (r' & Er & _ & _).
  unfold on_writer, read_response, on_reader. rewrite Ew. cbn [so_session ts_reader]. rewrite Er.
  destruct (response_json p) as (b & E1 & E2). rewrite Ep in E1. injection E1 as <-. rewrite E2.
  by eexists.
Qed.

Lemma serve_completes tls source call encoded answer server raft :
  envelope_to_vec (call_envelope source call) = Ok encoded → len encoded ≤ MAX_RAFT_FRAME_BYTES →
  len (call_body call) ≤ MAX_RAFT_SNAPSHOT_BYTES →
  response_to_vec (raft_call call raft).1 = Ok answer → len answer ≤ MAX_RAFT_FRAME_BYTES →
  verify_pinned_peer_certificate tls source (certificates server) = Ok () →
  healthy (writer server) → clean (reader server) →
  received (reader server) = (frame_bytes encoded ++ call_body call)%list →
  ∃ server', serve_request tls (server, raft) = (Ok (), (server', (raft_call call raft).2)) ∧
    sent server' = (sent server ++ frame_bytes answer)%list.
Proof.
  intros Ee Hl Hb Ep Hla Hv Hw Hc Hr.
  destruct (read_frame_clean _ _ _ Hl Hc Hr) as (r1 & Er & Hr1 & Hc1).
  destruct (envelope_json (call_envelope source call)) as (b & E1 & E2).
  rewrite Ee in E1. injection E1 as <-.
  unfold serve_request, on_reader. rewrite Er, E2. cbn [map_err].
  unfold verify_claimed_peer_certificate. cbn [so_session ts_peer_certificates].
  change (ev_source_node_id (call_envelope source call)) with source. rewrite Hv.
  set (server1 := MkStream _ _ _ _ _ _).
  assert (∃ server2, dispatch_rpc (ev_request (call_envelope source call)) (server1, raft) =
    (Ok (raft_call call raft).1, (server2, (raft_call call raft).2)) ∧
    writer server2 = writer server) as (server2 & -> & Hw2).
  { destruct call as [rpc|rpc|vote [meta data]]; cbn [call_envelope ev_request raft_call dispatch_rpc].
    - destruct (raft_append_entries rpc raft). by eexists.
    - destruct (raft_vote rpc raft). by eexists.
    - unfold on_reader. cbn [server1 so_session ts_reader sp_meta sp_data].
      destruct (read_snapshot_body_clean data r1 Hb Hc1 Hr1) as (r2 & ->).
      destruct (raft_install_full_snapshot _ _ raft). by eexists. }
  rewrite Ep. cbn [map_err fst snd]. rewrite <-Hw2 in Hw |- *.
  destruct (write_frame_healthy answer _ Hw Hla) as (w' & Ew & _).
  unfold on_writer. rewrite Ew. eexists. split; [done|]. cbn [so_session ts_writer].
  destruct (write_frame_sends answer (writer server2)) as (k & _ & Hs & Hk).
  rewrite Ew in Hs, Hk. cbn in Hs, Hk. by rewrite Hs, (Hk eq_refl).
Qed.

(** What it takes for a call to get through: an address that can be reached,
    sessions that open, pinned certificates on both sides, messages within their
    limits, and streams that deliver what was sent. *)
Record working (net : TcpRaftNetwork) (tls : LoadedClusterRaftTls) (call : RaftCall)
    (client server : TcpStream) (encoded answer : bytes) (response : ClusterRpcResponse) : Prop := {
  wk_connects : ∃ addr, parse_socket_addr (nw_addr net) = Some addr ∧
    ∀ limit, connect_timeout addr limit = Ok client;
  wk_timeout : 0 < nw_connect_timeout net;
  wk_name : ∃ name, peer_server_name (nw_target net) = Ok name ∧
    client_connection_new (lt_client_config (nw_tls net)) name = true;
  wk_accepts : server_connection_new (lt_server_config tls) = true;
  wk_client : usable (lt_handshake_timeout (nw_tls net)) client;
  wk_server : usable (lt_handshake_timeout tls) server;
  wk_server_pinned :
    verify_pinned_peer_certificate (nw_tls net) (nw_target net) (certificates client) = Ok ();
  wk_client_pinned :
    verify_pinned_peer_certificate tls (nw_source_node_id net) (certificates server) = Ok ();
  wk_encoded : envelope_to_vec (call_envelope (nw_source_node_id net) call) = Ok encoded;
  wk_answer : response_to_vec response = Ok answer;
  wk_sizes : len encoded ≤ MAX_RAFT_FRAME_BYTES ∧ len answer ≤ MAX_RAFT_FRAME_BYTES ∧
    len (call_body call) ≤ MAX_RAFT_SNAPSHOT_BYTES;
  wk_request : received (reader server) = (frame_bytes encoded ++ call_body call)%list;
  wk_response : received (reader client) = frame_bytes answer;
}.

(** C19: a call gets through when nothing fails.  With both streams delivering
    what the other side sends, in pieces of any size, the caller returns the answer of
    the peer's Raft, whose state is the one after that call, and each side has
    sent exactly the bytes that the other reads. *)
Theorem remote_call_completes net tls hard_ttl call client server raft encoded answer :
  working net tls call client server encoded answer (raft_call call raft).1 →
  ∃ client' server',
    remote_call net hard_ttl None call = Some (Ok (raft_call call raft).1, Some client') ∧
    handle_connection tls server raft = Some (Ok (), (server', (raft_call call raft).2)) ∧
    sent client' = received (reader server) ∧ sent server' = received (reader client).
Proof.
  intros [(addr & Ha & Hd) Ht (name & Hn & Hcn) Hsn Huc Hus Hvs Hvc Ee Ep (Hl & Hla & Hb) Hrq Hrs].
  destruct (accept_free tls server Hus Hsn) as (s1 & Es & Hts).
  destruct (serve_completes tls (nw_source_node_id net) call encoded answer s1 raft)
    as (server' & Ev & Hss); rewrite ?Hts; try done; [apply Hus..|].
  assert (∀ io limit, 0 < io → 0 < limit → ∃ client',
    on_connection (connect_tls_peer (nw_addr net) (nw_target net) limit io (nw_tls net))
      (exchange (nw_source_node_id net) call) = Some (Ok (raft_call call raft).1, Some client') ∧
    sent client' = received (reader server)) as Hcall.
  { intros io limit Hio Hli.
    destruct (connect_free net io limit client addr name) as (c1 & Ec & Htc); try done.
    destruct (exchange_completes (nw_source_node_id net) call encoded (raft_call call raft).1 answer c1)
      as (client' & Ex & Hsc); rewrite ?Htc; try done; [apply Huc..|].
    exists client'. unfold on_connection. rewrite Ec, Ex. split; [done|].
    rewrite Hsc, Htc, (us_fresh _ _ Huc). by rewrite Hrq. }
  pose proof (bounded_rpc_io_timeout_range hard_ttl).
  destruct (Hcall (bounded_rpc_io_timeout hard_ttl) (N.min (nw_connect_timeout net)
    (bounded_rpc_io_timeout hard_ttl))) as (c1 & E1 & H1); [lia..|].
  destruct (Hcall RPC_IO_TIMEOUT (nw_connect_timeout net)) as (c2 & E2 & H2); [done..|].
  exists (match call with CallFullSnapshot _ _ => c2 | _ => c1 end), server'. split_and!.
  - destruct call; unfold remote_call, network_request, network_snapshot_request, blocking_request,
      blocking_snapshot_request; [by setoid_rewrite E1..|by setoid_rewrite E2].
  - unfold handle_connection. by rewrite Es, Ev.
  - by destruct call.
  - rewrite Hss, Hts, (us_fresh _ _ Hus). by rewrite Hrs.
Qed.

Lemma handle_connection_returns tls server raft :
  ticking (so_session server) → is_Some (handle_connection tls server raft).
Proof.
  intros Ht. unfold handle_connection.
  destruct (accept_tls_peer_returns server tls Ht) as [[s|e] ->]; by eexists.
Qed.

(** C30: no peer holds a thread for ever.  With a clock that goes on, every remote
    call returns and every accepted connection is handled to its end, however
    little the peer does during the handshake; and a request is only ever sent or
    served on a stream that blocks with both timeouts set, the caller's after the
    check of the certificate pinned for its target. *)
Theorem remote_calls_return net hard_ttl joined call tls server raft :
  (∀ addr limit socket, connect_timeout addr limit = Ok socket → ticking (so_session socket)) →
  ticking (so_session server) →
  is_Some (remote_call net hard_ttl joined call) ∧
  is_Some (handle_connection tls server raft) ∧
  (∀ limit io s, connect_tls_peer (nw_addr net) (nw_target net) limit io (nw_tls net) = Some (Ok s) →
     rpc_ready io s ∧ ∃ leaf chain, certificates s = Some (leaf :: chain) ∧
       lt_pinned_peer_certificates (nw_tls net) !! nw_target net = Some leaf) ∧
  (∀ s, accept_tls_peer server tls = Some (Ok s) → rpc_ready RPC_IO_TIMEOUT s).
Proof.
  intros Hc Hs. split_and!.
  - assert (∀ io limit, is_Some (connect_tls_peer (nw_addr net) (nw_target net) limit io (nw_tls net)))
      as Hret.
    { intros io limit. apply connect_tls_peer_returns. intros socket. unfold connect_peer.
      destruct (parse_socket_addr _); [|done]. cbn. destruct (limit =? 0); [done|]. apply Hc. }
    assert (∀ A io limit (f : TcpStream → result A IoError * TcpStream), is_Some (on_connection
      (connect_tls_peer (nw_addr net) (nw_target net) limit io (nw_tls net)) f)) as Hon.
    { intros A io limit f. unfold on_connection. destruct (Hret io limit) as [[s|e] ->]; [|by eexists].
      destruct (f s). by eexists. }
    destruct call; unfold remote_call, network_request, network_snapshot_request, blocking_request,
      blocking_snapshot_request; edestruct Hon as [[] ->]; by eexists.
  - by apply handle_connection_returns.
  - intros limit io s (socket & _ & _ & Hr & Hv)%connect_tls_peer_ok.
    by apply verify_pinned_ok in Hv.
  - by intros s [_ ?]%accept_tls_peer_ok.
Qed.
End rpc.

(** ** The listener *)

(** What a thread still accounts for: connections it holds, and what the two
    counters count for it. *)
Definition accept_held (ph : AcceptPhase) : list TcpStream :=
  match ph with
  | Accepted stream | Offering stream | Refusing stream | Orphaned stream => [stream]
  | _ => []
  end.

Definition accept_queued (ph : AcceptPhase) : N :=
  match ph with Offering _ | Refusing _ | Orphaned _ => 1 | _ => 0 end.

Definition worker_held (w : WorkerPhase) : list TcpStream :=
  match w with
  | Received stream | Uncounted stream | Entering stream | Handling stream => [stream]
  | _ => []
  end.

Definition worker_queued (w : WorkerPhase) : N := match w with Received _ => 1 | _ => 0 end.

Definition worker_active (w : WorkerPhase) : N :=
  match w with Handling _ | Handled | WorkerPanicked => 1 | _ => 0 end.

Definition worker_receiving (w : WorkerPhase) : N := if is_receiving w then 1 else 0.

(** A sum over the workers. *)
Definition tally (f : WorkerPhase → N) (ws : list WorkerPhase) : N := foldr (λ w n, f w + n) 0 ws.

Definition workers_held (ws : list WorkerPhase) : list TcpStream := concat (worker_held <$> ws).

Lemma tally_insert f ws i w w' :
  ws !! i = Some w → tally f (<[i := w']> ws) + f w = tally f ws + f w'.
Proof.
  unfold tally. revert i. induction ws as [|x ws IH]; intros [|i] E; simplify_eq/=; [lia|].
  specialize (IH i E). lia.
Qed.

Lemma tally_bound f ws : (∀ w, f w ≤ 1) → tally f ws ≤ len ws.
Proof.
  intros Hf. unfold tally. induction ws as [|w ws IH]; [done|]. rewrite len_cons. cbn [foldr].
  specialize (Hf w). lia.
Qed.

Lemma tally_lookup f ws i w : ws !! i = Some w → f w ≤ tally f ws.
Proof.
  unfold tally. revert i. induction ws as [|x ws IH]; intros [|i] E; simplify_eq/=; [lia|].
  specialize (IH i E). lia.
Qed.

Lemma tally_zero f ws : tally f ws = 0 ↔ Forall (λ w, f w = 0) ws.
Proof.
  unfold tally. induction ws as [|w ws IH]; [done|]. rewrite Forall_cons, <-IH. cbn [foldr]. lia.
Qed.

Lemma workers_held_insert ws i w w' :
  ws !! i = Some w →
  (worker_held w ++ workers_held (<[i := w']> ws) ≡ₚ worker_held w' ++ workers_held ws)%list.
Proof.
  unfold workers_held. revert i. induction ws as [|x ws IH]; intros [|i] E; simplify_eq/=.
  - by rewrite !app_assoc, (Permutation_app_comm (worker_held w)).
  - specialize (IH i E). rewrite !app_assoc, (Permutation_app_comm (worker_held w)),
      (Permutation_app_comm (worker_held w')), <-!app_assoc. by rewrite IH.
Qed.

(** Bring single connections to the front. *)
Ltac perm_front :=
  repeat progress (rewrite ?app_nil_l, ?app_nil_r, <-?app_assoc; cbn [app];
    rewrite <-?Permutation_middle).

(** The invariant of the listener. *)
Record rpc_ok {Q} (s : RpcServerState Q) : Prop := {
  ro_queued : rq_queued s =
    len (rq_queue s) + tally worker_queued (rq_workers s) + accept_queued (rq_accept s);
  ro_active : rq_active s = tally worker_active (rq_workers s);
  ro_queue : len (rq_queue s) ≤ RPC_CONNECTION_QUEUE_CAPACITY;
  ro_workers : (length (rq_workers s) ≤ RPC_CONNECTION_WORKERS)%nat;
  ro_poisoned : rq_poisoned s = false;
  ro_receiving : tally worker_receiving (rq_workers s) ≤ 1;
  ro_returned res : WorkerReturned res ∈ rq_workers s →
    res = Ok () ∧ rq_queue s = [] ∧ ∃ res', rq_accept s = AcceptReturned res';
  ro_accepted : (rq_accepted s ≡ₚ
    rq_ended s ++ accept_held (rq_accept s) ++ rq_queue s ++ workers_held (rq_workers s))%list;
}.

Lemma rpc_ok_bounds {Q} (s : RpcServerState Q) : rpc_ok s → rq_queued s ≤ 73 ∧ rq_active s ≤ 8.
Proof.
  intros [-> -> Hq Hw _ _ _ _]. unfold RPC_CONNECTION_QUEUE_CAPACITY, RPC_CONNECTION_WORKERS in *.
  pose proof (tally_bound worker_queued (rq_workers s) ltac:(by intros [])).
  pose proof (tally_bound worker_active (rq_workers s) ltac:(by intros [])).
  assert (accept_queued (rq_accept s) ≤ 1) by by destruct (rq_accept s).
  unfold len in *. lia.
Qed.

Section listener.
Context `{T : Rustls} `{R : RaftTypes} `{M : RaftRpcTypes} `{J : !RpcJson}.
Context {Q : Type} `{V : !RaftServer Q} (tls : LoadedClusterRaftTls).

Lemma with_workers_ok n ph (raft : Q) :
  (n ≤ RPC_CONNECTION_WORKERS)%nat → ph = Polling ∨ ph = AcceptReturned (Ok ()) →
  rpc_ok (with_workers n ph raft).
Proof.
  intros Hn Hph.
  assert (∀ f, f Locking = 0 → tally f (replicate n Locking) = 0) as Ht.
  { intros f Hf. apply tally_zero, Forall_replicate, Hf. }
  assert (workers_held (replicate n Locking) = []) as Hh by (clear; by induction n).
  split; cbn [with_workers rq_queued rq_queue rq_workers rq_accept rq_active rq_poisoned rq_accepted
    rq_ended]; rewrite ?Ht, ?Hh by done; rewrite ?length_replicate; try done.
  - by destruct Hph as [->| ->].
  - intros res Hres%elem_of_replicate. by destruct Hres.
  - by destruct Hph as [->| ->].
Qed.

Lemma accept_step_ok (s s' : RpcServerState Q) : accept_step s s' → rpc_ok s → rpc_ok s'.
Proof.
  intros Hs Hok. pose proof (rpc_ok_bounds _ Hok) as [Hb _].
  destruct Hok as [Hq Ha Hc Hw Hp Hr Hret Hacc]. destruct Hs;
    cbn [rq_queued rq_queue rq_workers rq_accept rq_active rq_poisoned rq_accepted rq_ended
         accept_queued accept_held] in *;
    (split; cbn [rq_queued rq_queue rq_workers rq_accept rq_active rq_poisoned rq_accepted rq_ended
         accept_queued accept_held]; try done);
    try (rewrite ?fetch_add_exact, ?fetch_sub_exact by (unfold u64_max; lia);
         rewrite ?len_app, ?len_cons, ?len_nil; lia);
    try (intros res' Hin; destruct (Hret _ Hin) as (-> & -> & ? & ?); by eauto);
    try (rewrite Hacc; by perm_front).
Qed.

(** What the move of one worker changes. *)
Lemma worker_moves ws i w w' :
  ws !! i = Some w →
  length (<[i := w']> ws) = length ws ∧
  tally worker_queued (<[i := w']> ws) + worker_queued w = tally worker_queued ws + worker_queued w' ∧
  tally worker_active (<[i := w']> ws) + worker_active w = tally worker_active ws + worker_active w' ∧
  tally worker_receiving (<[i := w']> ws) + worker_receiving w =
    tally worker_receiving ws + worker_receiving w' ∧
  (worker_held w ++ workers_held (<[i := w']> ws) ≡ₚ worker_held w' ++ workers_held ws)%list.
Proof.
  intros E. split_and!; [apply length_insert|by apply tally_insert..|by apply workers_held_insert].
Qed.

Lemma nobody_receiving ws : existsb is_receiving ws = false → tally worker_receiving ws = 0.
Proof.
  intros He. apply tally_zero. induction ws as [|w ws IH]; [constructor|]. cbn in He.
  apply orb_false_iff in He as [Hw He]. constructor; [by unfold worker_receiving; rewrite Hw|auto].
Qed.

Lemma elem_of_insert_list {A} (l : list A) i x y : x ∈ <[i := y]> l → x = y ∨ x ∈ l.
Proof.
  intros [j [(-> & -> & _)|[_ Hj]]%list_lookup_insert_Some]%list_elem_of_lookup; [by left|].
  right. by eapply list_elem_of_lookup_2.
Qed.

Lemma worker_step_ok i (s s' : RpcServerState Q) : worker_step tls i s s' → rpc_ok s → rpc_ok s'.
Proof.
  intros Hs Hok. pose proof (rpc_ok_bounds _ Hok) as [Hb1 Hb2].
  destruct Hok as [Hq Ha Hc Hw Hp Hr Hret Hacc]. destruct Hs;
    cbn [rq_queued rq_queue rq_workers rq_accept rq_active rq_poisoned rq_accepted rq_ended] in *;
    try done;
    match goal with
    | H : ?ws !! i = Some ?w |- context [<[i := ?w']> ?ws] =>
        destruct (worker_moves ws i w w' H) as (Hl & H1 & H2 & H3 & H4)
    end; cbn [worker_queued worker_active worker_receiving is_receiving worker_held] in *;
    (split; cbn [rq_queued rq_queue rq_workers rq_accept rq_active rq_poisoned rq_accepted rq_ended];
       try done);
    try (rewrite ?Hl; done);
    try (rewrite ?fetch_add_exact, ?fetch_sub_exact by (unfold u64_max; lia);
         rewrite ?len_cons in *; lia);
    try (cbn [app] in H4; try apply Permutation_cons_inv in H4;
         rewrite Hacc; (rewrite H4 || rewrite <-H4); by perm_front);
    try (intros res' Hin; apply elem_of_insert_list in Hin as [?|Hin]; [done|];
         destruct (Hret _ Hin) as (-> & ? & ? & ?); by eauto).
  - rewrite (nobody_receiving ws) in H3 by done. lia.
  - intros res' [[= ->]|Hin]%elem_of_insert_list; [by eauto|]. destruct (Hret _ Hin) as (-> & _). eauto.
Qed.

Lemma rpc_step_ok (s s' : RpcServerState Q) : rpc_step tls s s' → rpc_ok s → rpc_ok s'.
Proof.
  intros [Hs|i Hs|_ ->]; [by eapply accept_step_ok|by eapply worker_step_ok|]. by intros [].
Qed.

(** *** Runs *)

(** A start of the listener: the one that serves, or the workers left behind when
    a thread could not be spawned. *)
Definition started (env : StartEnv) (raft : Q) (s : RpcServerState Q) : Prop :=
  (∃ addr, start_raft_rpc_server env raft = Ok (addr, s)) ∨
  (∃ e, start_raft_rpc_server env raft = Err (e, Some s)).

Lemma spawn_workers_bound spawn n i : (i ≤ (spawn_workers spawn n i).1 ≤ n + i)%nat.
Proof.
  revert i. induction n as [|n IH]; intros i; cbn; [lia|]. destruct (spawn i); cbn; [|lia].
  specialize (IH (S i)). lia.
Qed.

Lemma started_state env raft s :
  started env raft s → ∃ n ph, s = with_workers n ph raft ∧ (n ≤ RPC_CONNECTION_WORKERS)%nat ∧
    (ph = Polling ∨ ph = AcceptReturned (Ok ())).
Proof.
  unfold started, start_raft_rpc_server. destruct (se_bind env); [|naive_solver].
  destruct (se_nonblocking env); [|naive_solver]. destruct (se_local_addr env); [|naive_solver].
  pose proof (spawn_workers_bound (se_spawn env) RPC_CONNECTION_WORKERS 0) as Hb.
  destruct (spawn_workers _ _ _) as [n failure]. cbn [fst] in Hb. cbn [map_err].
  intros Hs. assert (n ≤ RPC_CONNECTION_WORKERS)%nat by lia.
  destruct failure as [e|]; [naive_solver|].
  destruct (se_spawn env RPC_CONNECTION_WORKERS) as [[]|e]; naive_solver.
Qed.

(** Between the listener's steps the node's Raft moves on its own. *)
Inductive node_step (local : relation Q) (s s' : RpcServerState Q) : Prop :=
  | listener_moves : rpc_step tls s s' → node_step local s s'
  | raft_moves r' :
      local (rq_raft s) r' →
      s' = MkRpc (rq_stop s) (rq_queued s) (rq_active s) (rq_poisoned s) (rq_queue s) (rq_accept s)
             (rq_workers s) r' (rq_accepted s) (rq_ended s) →
      node_step local s s'.

Lemma node_run_ok local env raft s0 s :
  started env raft s0 → rtc (node_step local) s0 s → rpc_ok s.
Proof.
  intros (n & ph & -> & Hn & Hph)%started_state Hrun.
  assert (rpc_ok (with_workers n ph raft)) as Hok by by apply with_workers_ok.
  induction Hrun as [|s1 s2 s3 Hs _ IH]; [done|]. apply IH.
  destruct Hs as [Hs|r' _ ->]; [by eapply rpc_step_ok|]. by destruct Hok.
Qed.

(** C29: the load that a node reports of its Raft listener is exact.  In every
    interleaving of the accept thread, the workers, the stop request and Raft's
    own moves, the queued counter is the connections in the queue and those whose
    taking or refusal is not yet noted, the active counter the workers that
    handle one or died doing so; the queue holds at most 64 connections and the
    counters never wrap; and every accepted connection has ended or is in one
    place, once. *)
Theorem rpc_listener_accounts local env raft s0 s :
  started env raft s0 → rtc (node_step local) s0 s →
  rq_queued s = len (rq_queue s) + tally worker_queued (rq_workers s) + accept_queued (rq_accept s) ∧
  rq_active s = tally worker_active (rq_workers s) ∧
  len (rq_queue s) ≤ RPC_CONNECTION_QUEUE_CAPACITY ∧ rq_queued s ≤ 73 ∧ rq_active s ≤ 8 ∧
  (rq_accepted s ≡ₚ
    rq_ended s ++ accept_held (rq_accept s) ++ rq_queue s ++ workers_held (rq_workers s))%list.
Proof.
  intros Hst Hrun. pose proof (node_run_ok _ _ _ _ _ Hst Hrun) as Hok.
  pose proof (rpc_ok_bounds _ Hok) as [??]. by destruct Hok.
Qed.

(** *** Who reaches Raft *)

(** [call] was asked for on [stream] under a node id whose pinned certificate
    its peer has shown. *)
Definition authorised (stream : TcpStream) (call : RaftCall) : Prop :=
  ∃ frame rest envelope leaf chain,
    read_frame (reader stream) = (Ok frame, rest) ∧ envelope_from_slice frame = Ok envelope ∧
    asks (ev_request envelope) rest call ∧ certificates stream = Some (leaf :: chain) ∧
    lt_pinned_peer_certificates tls !! ev_source_node_id envelope = Some leaf.

Definition reached (accepted : list TcpStream) (raft raft' : Q) : Prop :=
  ∃ stream call, stream ∈ accepted ∧ authorised stream call ∧ raft' = (raft_call call raft).2.

Lemma handle_connection_authorised stream raft res after :
  handle_connection tls stream raft = Some (res, after) →
  after.2 = raft ∨ ∃ call, authorised stream call ∧ after.2 = (raft_call call raft).2.
Proof.
  destruct after as [stream' raft']. intros E. cbn.
  apply handle_connection_spec in E as [[-> _]|(s1 & Ht & _ & E)]; [by left|].
  apply serve_request_spec in E as [[-> _]|
    (frame & rest & envelope & call & k & E1 & E2 & Hv & Ha & Hr & _)]; [by left|].
  right. rewrite Ht in E1, Hv. apply verify_pinned_ok in Hv as (leaf & chain & Hc & Hp).
  exists call. split; [|done]. by exists frame, rest, envelope, leaf, chain.
Qed.

Lemma reached_more acc acc' : acc ⊆ acc' → ∀ r r', reached acc r r' → reached acc' r r'.
Proof. intros Hacc r r' (stream & call & Hin & H). exists stream, call. split; [by apply Hacc|done]. Qed.

(** A worker holds only connections that were accepted. *)
Lemma worker_held_accepted (s : RpcServerState Q) i w stream :
  rpc_ok s → rq_workers s !! i = Some w → stream ∈ worker_held w → stream ∈ rq_accepted s.
Proof.
  intros Hok Hi Hs. rewrite (ro_accepted _ Hok), !elem_of_app. right. right. right.
  unfold workers_held. apply list_elem_of_In, in_concat. exists (worker_held w).
  split; apply list_elem_of_In; [|done]. apply list_elem_of_fmap.
  exists w. split; [done|]. by eapply list_elem_of_lookup_2.
Qed.

Lemma rpc_step_raft (s s' : RpcServerState Q) :
  rpc_ok s → rpc_step tls s s' →
  (rq_raft s' = rq_raft s ∨ reached (rq_accepted s) (rq_raft s) (rq_raft s')) ∧
  rq_accepted s ⊆ rq_accepted s'.
Proof.
  intros Hok [Hs|i Hs|_ ->].
  - destruct Hs; cbn; (split; [by left|]); set_solver.
  - destruct Hs; cbn [rq_raft rq_accepted]; (split; [|done]); try by left.
    + pose proof (worker_held_accepted _ i _ stream Hok ltac:(eassumption) ltac:(by left)) as Hin.
      destruct (handle_connection_authorised _ _ _ _ ltac:(eassumption)) as [->|(call & Ha & ->)];
        [by left|right; by exists stream, call].
    + pose proof (worker_held_accepted _ i _ stream Hok ltac:(eassumption) ltac:(by left)) as Hin.
      match goal with H : _ ∨ _ |- _ => destruct H as [->|(res & after & E & ->)] end; [by left|].
      destruct (handle_connection_authorised _ _ _ _ E) as [->|(call & Ha & ->)];
        [by left|right; by exists stream, call].
  - split; [by left|done].
Qed.

Lemma node_run_raft local s0 s :
  rpc_ok s0 → rtc (node_step local) s0 s →
  rtc (λ r r', local r r' ∨ reached (rq_accepted s) r r') (rq_raft s0) (rq_raft s) ∧
  rq_accepted s0 ⊆ rq_accepted s.
Proof.
  intros Hok Hrun. induction Hrun as [s|s1 s2 s3 Hs Hrun IH]; [by split; [constructor|]|].
  destruct Hs as [Hs|r' Hl ->].
  - destruct (rpc_step_raft _ _ Hok Hs) as [Hr Hacc].
    destruct IH as [IH Hacc']; [by eapply rpc_step_ok|]. split; [|by etrans].
    destruct Hr as [<-|Hr]; [done|]. eapply rtc_l; [right|exact IH].
    eapply reached_more; [|exact Hr]. by etrans.
  - destruct IH as [IH Hacc]; [by destruct Hok|]. split; [|done]. eapply rtc_l; [by left|exact IH].
Qed.

(** C12: only members reach Raft.  However the listener and Raft run, the state of
    Raft is the result of its own moves and of calls that arrived in an accepted
    connection, under a node id of the cluster, from a peer that has shown the
    certificate pinned for that id. *)
Theorem raft_reached_by_pinned_peers local env raft s0 s :
  started env raft s0 → rtc (node_step local) s0 s →
  rtc (λ r r', local r r' ∨ reached (rq_accepted s) r r') raft (rq_raft s).
Proof.
  intros (n & ph & -> & Hn & Hph)%started_state Hrun.
  apply (node_run_raft local (with_workers n ph raft)); [by apply with_workers_ok|done].
Qed.

(** *** Stopping *)

(** The stop flag is set, or nothing can be queued any more. *)
Definition stopping (s : RpcServerState Q) : Prop :=
  rq_stop s = true ∨ ∃ res, rq_accept s = AcceptReturned res.

(** The steps that are left, at most. *)
Definition accept_fuel (ph : AcceptPhase) : N :=
  match ph with
  | Listening => 11 | Accepted _ => 10 | Offering _ => 9
  | Sleeping | Refusing _ => 2 | Polling | Orphaned _ => 1 | AcceptReturned _ => 0
  end.

Definition worker_fuel (w : WorkerPhase) : N :=
  match w with
  | Received _ => 7 | Uncounted _ => 6 | Entering _ => 5 | Handling _ => 4 | Handled => 3
  | Locking => 2 | Receiving => 1 | WorkerReturned _ | WorkerPanicked => 0
  end.

Definition steps_left (s : RpcServerState Q) : N :=
  (if rq_stop s then 0 else 1) + accept_fuel (rq_accept s) + 7 * len (rq_queue s) +
  tally worker_fuel (rq_workers s).

Lemma stopping_step s s' :
  stopping s → rpc_step tls s s' → stopping s' ∧ steps_left s' < steps_left s.
Proof.
  unfold stopping, steps_left. intros Hst [Hs|i Hs|Hf ->].
  - destruct Hs; cbn [rq_stop rq_accept rq_queue rq_workers accept_fuel] in *;
      unfold len; rewrite ?length_app; cbn [length]; destruct Hst as [?|[? ?]]; simplify_eq; try done;
      (split; [by eauto|lia]).
  - destruct Hs; cbn [rq_stop rq_accept rq_queue rq_workers] in *;
      match goal with
      | H : ?ws !! i = Some ?w |- context [<[i := ?w']> ?ws] =>
          pose proof (tally_insert worker_fuel ws i w w' H) as Ht
      end; cbn [worker_fuel] in Ht; rewrite ?len_cons, ?len_nil; (split; [done|]);
      repeat match goal with |- context [if ?b then _ else _] => destruct b end; lia.
  - cbn [rq_stop rq_accept rq_queue rq_workers]. rewrite Hf in *. split; [by left|lia].
Qed.

Lemma stopping_terminates s : stopping s → sn (rpc_step tls) s.
Proof.
  intros Hs. remember (steps_left s) as n eqn:En. revert s Hs En.
  induction (N.lt_wf_0 n) as [n _ IH]; intros s Hs ->. constructor. intros s' Hstep.
  destruct (stopping_step _ _ Hs Hstep) as [Hs' Hlt]. by eapply IH.
Qed.

(** Every thread that has not ended can move, or waits for one that can. *)
Lemma stuck_worker s i w :
  nf (rpc_step tls) s → rq_workers s !! i = Some w → rpc_ok s →
  (∀ stream, stream ∈ rq_accepted s → ticking (so_session stream)) →
  alive w = false ∨ w = Locking ∨ w = Receiving.
Proof.
  intros Hnf Hi Hok Htick. destruct s as [b n a p q ph ws r acc fin].
  pose proof (λ stream, worker_held_accepted _ _ _ stream Hok Hi) as Hin.
  cbn [rq_workers rq_accepted] in *.
  destruct w as [| |stream|stream|stream|stream| | |]; auto; exfalso; apply Hnf.
  - eexists. eapply worker_turn. by apply worker_uncounts.
  - destruct b; eexists; eapply worker_turn; [by apply worker_shuts|by apply worker_admits].
  - eexists. eapply worker_turn. by apply worker_begins.
  - destruct (accept_tls_peer_returns stream tls (Htick _ (Hin _ ltac:(by left)))) as [res E].
    assert (∃ res' after, handle_connection tls stream r = Some (res', after)) as (res' & after & Eh).
    { unfold handle_connection. rewrite E. destruct res as [s1|]; [|by eauto].
      destruct (serve_request tls (s1, r)). by eauto. }
    eexists. eapply worker_turn. by eapply worker_handles.
  - eexists. eapply worker_turn. by apply worker_ends.
Qed.

Lemma stuck_accept s : nf (rpc_step tls) s → ∃ res, rq_accept s = AcceptReturned res.
Proof.
  intros Hnf. destruct s as [b n a p q ph ws r acc fin]. cbn.
  destruct ph as [| |stream|stream|stream|stream| |res]; [..|by eauto]; exfalso; apply Hnf.
  - destruct b; eexists; apply accept_turn; constructor.
  - eexists. apply accept_turn, accept_would_block.
  - eexists. apply accept_turn, count_stream.
  - destruct (existsb alive ws) eqn:E; [|eexists; apply accept_turn; by apply send_disconnected].
    destruct (N.lt_ge_cases (len q) RPC_CONNECTION_QUEUE_CAPACITY);
      eexists; apply accept_turn; [by apply send_stream|by apply send_full].
  - eexists. apply accept_turn, refuse_stream.
  - eexists. apply accept_turn, orphan_stream.
  - eexists. apply accept_turn, accept_wakes.
Qed.

Lemma stuck_ended s :
  nf (rpc_step tls) s → rpc_ok s →
  (∀ stream, stream ∈ rq_accepted s → ticking (so_session stream)) →
  Forall (λ w, alive w = false) (rq_workers s).
Proof.
  intros Hnf Hok Htick. destruct (stuck_accept s Hnf) as [res Hacc].
  assert (∀ i, rq_workers s !! i ≠ Some Receiving) as Hrec.
  { intros i Hi. apply Hnf. destruct s as [b n a p q ph ws r acc fin]. cbn in *. subst ph.
    destruct q as [|stream q]; eexists; eapply worker_turn;
      [by apply worker_disconnected|by apply worker_receives]. }
  apply Forall_lookup. intros i w Hi.
  destruct (stuck_worker s i w Hnf Hi Hok Htick) as [?|[->| ->]]; [done| |by apply Hrec in Hi].
  exfalso. apply Hnf. pose proof (ro_poisoned _ Hok) as Hp.
  destruct s as [b n a p q ph ws r acc fin]. cbn in *. subst p.
  eexists. eapply worker_turn, worker_locks; [done|].
  apply not_true_iff_false. intros (w & Hw & Hr)%existsb_exists.
  destruct w; try done. apply list_elem_of_In, list_elem_of_lookup in Hw as [j Hj]. by apply Hrec in Hj.
Qed.

(** The joined threads of a listener whose threads have all ended. *)
Lemma ended_joined ws :
  Forall (λ w, alive w = false) ws → ∃ js, mapM joined_worker ws = Some js ∧
    (foldl (λ acc thread, match join_rpc_thread thread "Raft RPC worker thread panicked" with
       | Ok _ => acc | Err error => Err error end) (Ok ()) js = Ok () →
     Forall (λ w, w = WorkerReturned (Ok ())) ws).
Proof.
  assert (∀ js e, foldl (λ acc thread, match join_rpc_thread thread "Raft RPC worker thread panicked" with
       | Ok _ => acc | Err error => Err error end) (Err e) js ≠ Ok ()) as Herr.
  { intros js. induction js as [|j js IH]; intros e; cbn; [done|]. destruct (join_rpc_thread _ _); auto. }
  induction 1 as [|w ws Hw Hws (js & E & Hjs)]; [by exists []|].
  destruct w as [| | | | | | |res|]; try done; cbn; rewrite E; cbn.
  - exists (Some res :: js). split; [done|]. cbn.
    destruct res as [[]|e]; [|by intros ?%Herr]. intros ?%Hjs. by constructor.
  - exists (None :: js). split; [done|]. cbn. by intros ?%Herr.
Qed.

(** C28: the listener stops.  Once the stop flag is set, or when the start gave up
    half-way, no schedule of its threads runs forever; where none can move, all
    of them have ended and [stop] returns; and if it returns without an error,
    every accepted connection has been served, refused or shut down. *)
Theorem rpc_listener_stops local env raft s0 s :
  started env raft s0 → rtc (node_step local) s0 s → stopping s →
  sn (rpc_step tls) s ∧
  ∀ s', rtc (rpc_step tls) s s' → nf (rpc_step tls) s' →
    (∀ stream, stream ∈ rq_accepted s' → ticking (so_session stream)) →
    is_Some (rpc_server_stop s') ∧
    (rpc_server_stop s' = Some (Ok ()) → rq_workers s' ≠ [] → rq_accepted s' ≡ₚ rq_ended s').
Proof.
  intros Hst Hrun Hstop. split; [by apply stopping_terminates|]. intros s' Hrun' Hnf Htick.
  assert (rpc_ok s') as Hok.
  { apply (node_run_ok local env raft s0); [done|]. etrans; [done|].
    apply (rtc_subrel (rpc_step tls)); [|done]. intros ???. by apply listener_moves. }
  destruct (stuck_accept s' Hnf) as [res Hacc]. pose proof (stuck_ended s' Hnf Hok Htick) as Hend.
  destruct (ended_joined _ Hend) as (js & Hjs & Hall). unfold rpc_server_stop. rewrite Hacc, Hjs.
  split; [by eexists|]. intros [= Hres] Hne. destruct res as [[]|e]; [|done]. apply Hall in Hres.
  destruct (rq_workers s') as [|w ws] eqn:Hws; [done|].
  assert (WorkerReturned (Ok ()) ∈ rq_workers s') as Hin.
  { rewrite Hws. apply Forall_cons in Hres as [-> _]. by left. }
  destruct (ro_returned _ Hok _ Hin) as (_ & Hq & _). rewrite (ro_accepted _ Hok), Hacc, Hq.
  assert (workers_held (rq_workers s') = []) as ->; [|by rewrite !app_nil_r].
  rewrite Hws. clear -Hres. unfold workers_held. by induction Hres as [|w' ws' -> _ IH].
Qed.
End listener.

(** ** Loading certificates *)

Section loading.
Context `{T : Rustls}.

Lemma pin_peers_spec directory node_ids pinned pinned' :
  pin_peers directory node_ids pinned = Ok pinned' →
  NoDup node_ids ∧ (∀ id, id ∈ node_ids → pinned !! id = None) ∧
  ∀ id leaf, pinned' !! id = Some leaf ↔ pinned !! id = Some leaf ∨
    (id ∈ node_ids ∧ ∃ chain,
       read_certificates (node_certificate_path directory id) = Ok (leaf :: chain)).
Proof.
  revert pinned. induction node_ids as [|id0 node_ids IH]; intros pinned; cbn [pin_peers].
  { intros [= <-]. split_and!; [constructor|set_solver|set_solver]. }
  destruct (read_certificates _) as [[|leaf0 chain0]|] eqn:E; [done| |done]. cbn [head ok_or].
  case_bool_decide as Hd; [done|]. apply eq_None_not_Some in Hd.
  intros (Hnd & Hfresh & Hp)%IH.
  assert (id0 ∉ node_ids) as Hnot.
  { intros Hin. specialize (Hfresh _ Hin). by rewrite lookup_insert_eq in Hfresh. }
  split_and!; [by constructor| |].
  - intros id [->|Hin]%elem_of_cons; [done|]. specialize (Hfresh _ Hin).
    by apply lookup_insert_None in Hfresh as [? _].
  - intros id leaf. rewrite Hp, elem_of_cons. destruct (decide (id = id0)) as [->|Hne].
    + rewrite lookup_insert_eq, Hd, E. naive_solver.
    + rewrite lookup_insert_ne by done. naive_solver.
Qed.

(** C31: loading pins exactly the configured nodes.  When it succeeds the node ids
    were distinct with the local one among them, each is pinned to the first
    certificate of its own file and nothing else is, so the check of a
    peer succeeds exactly with that certificate, and the handshake timeout is between
    one nanosecond and thirty seconds. *)
Theorem load_pins_configured_nodes c local_node_id node_ids tls :
  load_tls c local_node_id node_ids = Ok tls →
  NoDup node_ids ∧ local_node_id ∈ node_ids ∧
  0 < lt_handshake_timeout tls ≤ MAX_TLS_HANDSHAKE_TIMEOUT ∧
  (∀ id certs, verify_pinned_peer_certificate tls id certs = Ok () ↔
     id ∈ node_ids ∧ ∃ leaf chain rest,
       read_certificates (node_certificate_path (tc_directory c) id) = Ok (leaf :: chain) ∧
       certs = Some (leaf :: rest)).
Proof.
  unfold load_tls. destruct (validate_tls c) as [[]|] eqn:Ev; [|done].
  destruct (read_certificates _) as [ca|]; [|done]. case_bool_decide; [done|].
  destruct (add_roots _ _) as [roots|]; [|done].
  destruct (read_certificates _) as [chain|]; [|done]. case_bool_decide; [done|].
  destruct (read_private_key _) as [key|]; [|done].
  destruct (pin_peers _ _ _) as [pinned|] eqn:Ep; [|done].
  case_bool_decide as Hl; [|done]. cbn [negb].
  destruct (build_client_config _ _ _); [|done]. destruct (build_server_config _ _ _); [|done].
  intros [= <-]. apply pin_peers_spec in Ep as (Hnd & _ & Hp).
  assert (∀ id leaf, pinned !! id = Some leaf ↔ id ∈ node_ids ∧ ∃ chain,
    read_certificates (node_certificate_path (tc_directory c) id) = Ok (leaf :: chain)) as Hp'.
  { intros id leaf. rewrite Hp, lookup_empty. naive_solver. }
  split_and!; cbn [lt_handshake_timeout lt_pinned_peer_certificates]; [done| | | |].
  - destruct Hl as [leaf Hl]. by apply Hp' in Hl as [? _].
  - unfold validate_tls in Ev. destruct (String.eqb _ _); [done|].
    destruct (N.eqb_spec (tc_handshake_timeout c) 0); [done|]. lia.
  - unfold validate_tls in Ev. destruct (String.eqb _ _); [done|].
    destruct (N.ltb_spec MAX_TLS_HANDSHAKE_TIMEOUT (tc_handshake_timeout c)) as [|Hle]; [|done].
    by rewrite orb_true_r in Ev.
  - intros id certs. rewrite verify_pinned_ok. cbn [lt_pinned_peer_certificates].
    setoid_rewrite Hp'. naive_solver.
Qed.
End loading.

(** ** A connection between two members *)

(** Certificate files of three members; a PEM file is its list of certificates. *)
Definition text (s : string) : bytes := String.list_ascii_of_string s.

#[export] Instance sample_rustls : Rustls := {|
  PemFile := list CertificateDer; PrivateKeyDer := unit; RootCertStore := list CertificateDer;
  ClientConfig := unit; ServerConfig := unit; ClientVerifier := unit; ServerName := string;
  file_open path :=
    if String.eqb path "tls/ca.pem" then Some [text "ca"]
    else if String.eqb path "tls/node-1.pem" then Some [text "one"; text "ca"]
    else if String.eqb path "tls/node-2.pem" then Some [text "two"; text "ca"]
    else if String.eqb path "tls/node-1-key.pem" then Some []
    else if String.eqb path "tls/node-2-key.pem" then Some []
    else None;
  pemfile_certs file := Ok <$> file;
  pemfile_private_key _ := Ok (Some ());
  roots_empty := []; roots_add certificate roots := Some (certificate :: roots);
  client_supports_tls13 := true; with_client_auth_cert _ _ _ := Some ();
  client_verifier_build _ := Some (); server_supports_tls13 := true;
  with_single_cert _ _ _ := Some (); server_name_try_from := Some;
  client_connection_new _ _ := true; server_connection_new _ := true;
|}.

(** Messages are numbers; the asked Raft keeps them and gives them back. *)
#[export] Instance sample_rpc : RaftRpcTypes := {|
  AppendEntriesRequest := N; AppendEntriesResponse := N; VoteRequest := N; VoteResponse := N;
  SnapshotResponse := N; Fatal := N;
|}.

Definition envelope_cells (e : @ClusterRpcEnvelope simple_raft sample_rpc) :=
  (ev_source_node_id e, match ev_request e with
     | RpcAppendEntries rpc => inl (rpc : N)
     | RpcVote rpc => inr (inl (rpc : N))
     | RpcFullSnapshot vote meta n => inr (inr ((vote : N), meta_cells meta, n))
     end).

Definition cells_envelope c : @ClusterRpcEnvelope simple_raft sample_rpc :=
  {| ev_source_node_id := c.1; ev_request := match c.2 with
       | inl rpc => RpcAppendEntries (rpc : @AppendEntriesRequest sample_rpc)
       | inr (inl rpc) => RpcVote (rpc : @VoteRequest sample_rpc)
       | inr (inr (vote, meta, n)) => RpcFullSnapshot (vote : @Vote simple_raft) (cells_meta meta) n
       end |}.

Definition response_cells (p : @ClusterRpcResponse sample_rpc) : N * bool * N :=
  match p with
  | RespAppendEntries (Ok n) => (0, true, n) | RespAppendEntries (Err n) => (0, false, n)
  | RespVote (Ok n) => (1, true, n) | RespVote (Err n) => (1, false, n)
  | RespFullSnapshot (Ok n) => (2, true, n) | RespFullSnapshot (Err n) => (2, false, n)
  end.

Definition cells_response (c : N * bool * N) : @ClusterRpcResponse sample_rpc :=
  let '(kind, ok, n) := c in
  let r := if ok : bool then Ok n else Err n in
  if kind =? 0 then RespAppendEntries r else if kind =? 1 then RespVote r else RespFullSnapshot r.

#[export] Instance sample_rpc_json : @RpcJson simple_raft sample_rpc := {|
  envelope_to_vec := digits_of envelope_cells; envelope_from_slice := of_digits cells_envelope;
  response_to_vec := digits_of response_cells; response_from_slice := of_digits cells_response;
  debug_rpc_response _ := "";
|}.

#[export] Instance sample_rpc_json_laws : RpcJsonLaws sample_rpc_json.
Proof.
  split.
  - apply of_digits_of. intros [source [|rpc|vote meta n]]; unfold envelope_cells, cells_envelope;
      cbn [ev_source_node_id ev_request fst snd]; [done..|]. by rewrite cells_meta_cells.
  - apply of_digits_of. by intros [[]|[]|[]].
Qed.

#[export] Instance sample_raft : RaftServer (list N) := {|
  raft_append_entries rpc q := (Ok (rpc : @AppendEntriesResponse sample_rpc), (rpc : N) :: q);
  raft_vote rpc q := (Ok (rpc : @VoteResponse sample_rpc), (rpc : N) :: q);
  raft_install_full_snapshot vote snapshot q :=
    (Ok (len (sp_data snapshot) : @SnapshotResponse sample_rpc), len (sp_data snapshot) :: q);
|}.

(** A session whose handshake takes a second turn, and whose streams are cut and
    interrupted. *)
Definition interruption : IoError := MkIo KInterrupted "interrupted".

Definition sample_stream (certificate incoming : bytes) : TcpStream :=
  MkStream false false None None [] (MkSession true 5
    (λ i, {| hr_progress := if (i =? 0)%nat then Err (MkIo KWouldBlock "") else Ok ();
             hr_handshaking := (i =? 0)%nat; hr_now := 6 + 1000000 * N.of_nat i |})
    (Some [certificate; text "ca"])
    [Ok (take 3 incoming); Err interruption; Ok (drop 3 incoming)]
    (MkWriter [] [Takes 2; WriteFails interruption; Takes 1] [])).

Definition sample_config : ClusterRaftTlsConfig :=
  {| tc_directory := "tls"; tc_handshake_timeout := 3000000 |}.

Definition sample_loaded (node_id : N) : LoadedClusterRaftTls :=
  match load_tls sample_config node_id [1; 2] with
  | Ok tls => tls
  | Err _ => {| lt_local_node_id := 0; lt_client_config := (); lt_server_config := ();
                lt_pinned_peer_certificates := ∅; lt_handshake_timeout := 0 |}
  end.

(** Node 1 sends node 2 the entries 7. *)
Definition sample_call : @RaftCall simple_raft sample_rpc :=
  CallAppendEntries (7 : @AppendEntriesRequest sample_rpc).

Definition sample_request : bytes :=
  match envelope_to_vec (call_envelope 1 sample_call) with Ok b => b | Err _ => [] end.

Definition sample_answer : bytes :=
  match response_to_vec (raft_call sample_call []).1 with Ok b => b | Err _ => [] end.

Definition sample_client : TcpStream := sample_stream (text "two") (frame_bytes sample_answer).
Definition sample_server : TcpStream := sample_stream (text "one") (frame_bytes sample_request).

#[export] Instance sample_sockets : Sockets := {|
  SocketAddr := unit; parse_socket_addr _ := Some ();
  connect_timeout _ _ := Ok sample_client;
|}.

Definition sample_network : TcpRaftNetwork :=
  new_client 2 "127.0.0.1:7002"
    {| nf_source_node_id := 1; nf_connect_timeout := 1000000000; nf_tls := sample_loaded 1 |}.

Lemma sample_ticks certificate incoming : ticking (so_session (sample_stream certificate incoming)).
Proof. split; cbn; [lia|]. intros [|i] Hi; [|done]. by vm_compute. Qed.

Lemma sample_usable certificate incoming :
  (3 < length incoming)%nat → usable 3000000 (sample_stream certificate incoming).
Proof.
  intros Hl. split; [constructor|reflexivity| |split; by repeat constructor|done].
  repeat constructor.
  - intros H. apply take_nil_inv in H as [?| ->]; [done|simpl in Hl; lia].
  - intros H. apply (f_equal len) in H. unfold len in H. rewrite length_drop in H.
    change (length []) with 0%nat in H. lia.
Qed.

(** The two ends after the call. *)
Definition sample_used : option TcpStream :=
  match network_append_entries sample_network 7 0 None with Some (_, used) => used | None => None end.

Definition sample_served : TcpStream :=
  match handle_connection (sample_loaded 2) sample_server [] with
  | Some (_, (server, _)) => server
  | None => sample_server
  end.

Lemma sample_channel : channel sample_used sample_server sample_served.
Proof.
  split; [intros addr timeout client [= <-]; split|..]; try (vm_compute; reflexivity);
    exists []; vm_compute; reflexivity.
Qed.

Lemma remote_outcomes_are_the_peers_witness :
  network_append_entries sample_network 7 0 None = Some (Ok 7, sample_used) ∧
  raft_append_entries 7 [] = (Ok 7, [7]).
Proof.
  assert (network_append_entries sample_network 7 0 None = Some (Ok 7, sample_used)) as Ec
    by (vm_compute; reflexivity).
  split; [exact Ec|].
  destruct (remote_outcomes_are_the_peers sample_network (sample_loaded 2) sample_server []
    (Ok ()) sample_served [7]) as [H _]; [vm_compute; reflexivity|].
  destruct (H 7 0 None (Ok 7) sample_used Ec sample_channel) as (_ & Ha & _).
  exact (Ha 7 eq_refl).
Defined.

Lemma sample_working :
  working sample_network (sample_loaded 2) sample_call sample_client sample_server sample_request
    sample_answer (raft_call sample_call []).1.
Proof.
  split; try (vm_compute; reflexivity).
  - exists (). split; reflexivity.
  - eexists. split; vm_compute; reflexivity.
  - apply sample_usable. vm_compute. lia.
  - apply sample_usable. vm_compute. lia.
  - by vm_compute.
Qed.

Lemma remote_call_completes_witness :
  ∃ client' server',
    remote_call sample_network 0 None sample_call = Some (Ok (RespAppendEntries (Ok 7)), Some client') ∧
    handle_connection (sample_loaded 2) sample_server [] = Some (Ok (), (server', [7])) ∧
    sent client' = received (reader sample_server) ∧ sent server' = received (reader sample_client).
Proof.
  exact (remote_call_completes sample_network (sample_loaded 2) 0 sample_call sample_client
    sample_server [] sample_request sample_answer sample_working).
Defined.

Lemma remote_calls_return_witness :
  is_Some (remote_call sample_network 0 None sample_call) ∧
  is_Some (handle_connection (sample_loaded 2) sample_server []).
Proof.
  destruct (remote_calls_return sample_network 0 None sample_call (sample_loaded 2) sample_server [])
    as (H1 & H2 & _); [intros addr limit socket [= <-]; apply sample_ticks|apply sample_ticks|].
  split; [exact H1|exact H2].
Defined.

Lemma load_pins_configured_nodes_witness :
  verify_pinned_peer_certificate (sample_loaded 1) 2 (Some [text "two"]) = Ok () ∧
  verify_pinned_peer_certificate (sample_loaded 1) 2 (Some [text "one"]) ≠ Ok ().
Proof.
  destruct (load_pins_configured_nodes sample_config 1 [1; 2] (sample_loaded 1)) as (_ & _ & _ & H);
    [vm_compute; reflexivity|].
  split.
  - apply H. split; [set_solver|]. eexists _, _, _. split; [vm_compute; reflexivity|reflexivity].
  - intros (_ & leaf & chain & rest & E & [= <- <-])%H. vm_compute in E. discriminate.
Defined.

(** The listener of node 2, where a worker takes node 1's connection and serves it. *)
Definition sample_env : StartEnv :=
  {| se_bind := Ok (); se_nonblocking := Ok (); se_local_addr := Ok "127.0.0.1:7002";
     se_spawn := λ _, Ok () |}.

Definition quiet : relation (list N) := λ _ _, False.

Definition sample_start : RpcServerState (list N) := with_workers 8 Polling [].

Lemma sample_started : started sample_env ([] : list N) sample_start.
Proof. left. by eexists. Qed.

(** One turn of the accept thread or of the first worker. *)
Tactic Notation "accept_move" uconstr(c) :=
  eapply rtc_l; [apply listener_moves, accept_turn, c; try done|].
Tactic Notation "worker_move" uconstr(c) :=
  eapply rtc_l; [eapply listener_moves, (worker_turn _ _ _ 0), c; try reflexivity|].

Definition served_state : RpcServerState (list N) :=
  MkRpc false 0 1 false [] Polling (Handled :: replicate 7 Locking) [7] [sample_server] [sample_server].

Lemma sample_run : rtc (node_step (sample_loaded 2) quiet) sample_start served_state.
Proof.
  unfold sample_start, with_workers. cbn [replicate].
  accept_move poll_running. accept_move (accept_stream _ _ _ _ _ _ _ _ _ sample_server).
  accept_move count_stream. accept_move send_stream.
  worker_move worker_locks. worker_move worker_receives. worker_move worker_uncounts.
  worker_move worker_admits. worker_move worker_begins.
  worker_move (worker_handles _ _ _ _ _ _ _ _ _ _ _ _ sample_server (Ok ()) (sample_served, [7])).
  apply rtc_refl.
Qed.

Lemma rpc_listener_accounts_witness :
  rq_active served_state = tally worker_active (rq_workers served_state) ∧ rq_active served_state = 1.
Proof.
  destruct (rpc_listener_accounts (sample_loaded 2) quiet sample_env [] sample_start served_state
    sample_started sample_run) as (_ & H & _). split; [exact H|reflexivity].
Defined.

Lemma raft_reached_by_pinned_peers_witness :
  rtc (λ r r', quiet r r' ∨ reached (sample_loaded 2) [sample_server] r r') [] [7].
Proof.
  exact (raft_reached_by_pinned_peers (sample_loaded 2) quiet sample_env [] sample_start served_state
    sample_started sample_run).
Defined.

Lemma rpc_listener_stops_witness :
  ∃ s, rq_stop s = true ∧ sn (rpc_step (sample_loaded 2)) s.
Proof.
  exists (MkRpc true 0 1 false [] Polling (Handled :: replicate 7 Locking) [7] [sample_server]
    [sample_server]). split; [reflexivity|].
  apply (rpc_listener_stops (sample_loaded 2) quiet sample_env [] sample_start);
    [apply sample_started| |by left].
  eapply rtc_r; [apply sample_run|]. apply listener_moves, stop_stored; reflexivity.
Defined.
